(* ===== verification/_CoqProject ===== *)
-Q . S2P
Prelude.v
GoRt.v
GoFloat.v
GoStrconv.v
GoUtf8.v
Breaker.v
Retry.v
RateLimit.v
Bulkhead.v
Cache.v
SingleFlight.v
GqlLexer.v
GqlParser.v
GqlPrint.v
GqlRender.v
GqlLimits.v
GqlSchema.v
GqlCompile.v
GqlExec.v
Sql.v
Query.v
QuerySpec.v
QuerySafety.v
Authz.v
Scheduling.v
Migrations.v
MigLock.v
Session.v
Queue.v
SqlQueue.v
Realtime.v
Container.v
Secret.v
Token.v
GoUrl.v
AccountToken.v
SignedUrl.v
Throttle.v
Guard.v
GoSort.v
Collection.v
GoStrings.v
Router.v
WebContext.v
WebSecurity.v
GoPath.v
Filesystem.v
Schema.v
SchemaSql.v
Inflect.v
Reflect.v
SqlRows.v
Orm.v
Relations.v
Mail.v
Validation.v
OAuth.v
Search.v
SearchSql.v
I18n.v
Ring.v
Trace.v
Metrics.v
Events.v
App.v
HttpClient.v
QueueStats.v
Dashboard.v
Seeder.v
Telescope.v
