(* ===== verification/Prelude.v ===== *)
(** * The core of lagodev, a Laravel-style framework in Go

    lagodev is a set of Go packages: resilience policies, cache, sessions, queue,
    scheduler, GraphQL server, authorisation, migrations, an ORM over a query
    builder, routing, requests and responses, mail, search, OAuth, metrics,
    tracing and a command line.  This library models the packages whose
    behaviour is their own logic (state machines, concurrency, parsing, bounds,
    error paths) rather than a call into a database, a socket or the standard
    library, and proves what makes them correct.  Definitions keep the names of
    the source.

    ** Conventions

    - Integers are [Z], wrapped explicitly ([i64], [u32], [u64]) where overflow
      can be reached.  [float64] is the IEEE 754 binary64 of the Standard
      Library's [SpecFloat]; the arithmetic is executable and carries no axiom.
    - Strings are byte strings.  Times are nanoseconds; each reading of the clock
      is an argument, so a function that reads it twice takes two times.
    - [(T, error)] is [result]; a Go call that may panic returns an [outcome].
    - Code that holds a mutex is a function.  Code that several goroutines run is
      an inductive step relation with one critical section or channel operation
      per step, and its theorems quantify over every reachable state.
    - What lies outside the source (user callbacks, random bytes, Unicode tables,
      the database, [reflect]'s type comparisons) is an argument or an interface
      with laws; every theorem over an interface has an instance or a concrete
      function it is applied to.
    - Recursion that is not structural takes fuel, and [None] means that it ran
      out; for each such function a theorem says that the fuel the entry point
      computes is enough.

    ** Files

    Shared:
    - [Prelude]: this overview; [result], tactics, invariants of step relations,
      counting in lists.
    - [GoRt]: machine integers, floats, [time.Time] and [time.Duration].
    - [GoFloat]: the doubles on which the arithmetic is exact.
    - [GoStrconv], [GoUtf8], [GoUrl], [GoStrings], [GoPath]: decimal text,
      splitting, runes, query strings, the parts of [strings] and [path/filepath]
      the source uses.
    - [GoSort]: sorting by a comparison the caller supplies.
    - [Collection] ([src/collection/]): the collection operations and what each
      keeps of its receiver.

    Resilience ([src/resilience/]):
    - [Breaker] ([breaker.go]): [beforeRequest], [afterRequest], [onSuccess],
      [onFailure], [setState], [currentState] on the struct's fields; [bstep]
      interleaves the calls around the unlocked [OnStateChange] callback.
      Theorems: at most [HalfOpenMaxRequests] trials are in flight while the
      breaker is half-open; sequential calls refine a specification that counts
      calls; a half-open breaker without calls in flight admits the next one;
      transitions are legal.
    - [Retry] ([retry.go], [timeout.go], [resilience.go]): the attempts, the
      waits and the error of [Execute]; exactness and bound of the backoff.
    - [RateLimit] ([ratelimit.go]): the bucket; exactly [Burst] calls pass when
      no time passes.
    - [Bulkhead] ([bulkhead.go]): its channel operations interleaved; the bounds
      on running and queued calls.

    Cache ([src/cache/]):
    - [Cache] ([cache.go], [atomic.go]): [Memory], the [Store] interface with its
      laws (discharged for [Memory]) and the generic helpers, proved against the
      laws: [Remember] is cache-aside, the atomic and the fallback forms agree,
      one of the overlapping [Add]s wins.
    - [SingleFlight] ([rememberOnce]): one producer per key, and every waiter has
      a producer, in every interleaving.

    GraphQL ([src/graphql/]):
    - [GqlLexer], [GqlParser] ([lexer.go], [parser.go]): every method; the parser
      is written against the interface [TokenSource].  The fuel is computed from
      the length of the source: each call of the lexer that is not at the end
      consumes a rune, and each loop of the parser consumes a token.
    - [GqlPrint], [GqlRender]: the grammar as a printer; lexing and parsing
      invert rendering and printing.
    - [GqlLimits] ([limits.go], and [execute.go] up to the executor): the limits
      accept exactly the documents within them, the cycle search decides
      acyclicity (fuel: the number of fragments), and what a request that reaches
      the executor satisfies; also that the walk itself is exponential on
      fragments without fields.
    - [GqlSchema] ([types.go], [schema.go]): scalars, enums, wrapped types and the
      coercion of input values; [GqlCompile] ([schema.go]): the fields and type
      registry a schema is built with; [GqlExec] ([execute.go]): selection
      merging, arguments, resolvers with their panics, null propagation.

    Query builder ([src/query/], [src/database/]):
    - [Sql]: the grammars' quoting and placeholders, and a lexer of the text they
      produce ([Lexical] is what the builder relies on).
    - [Query]: the builder's struct, its chain methods and the text and
      arguments of every statement; [QuerySpec]: an abstract statement that the
      text reads back to; [QuerySafety]: values never reach the text, and the
      placeholders number the arguments.

    Schema, rows and models ([src/schema/], [src/database/], [src/internal/],
    [src/orm/]):
    - [Schema], [SchemaSql]: blueprints, the statements they compile to and what
      each dialect reads back from the text.
    - [Inflect], [Reflect] ([internal/]): table and column names, and the
      assignment of a column to a field and back.
    - [SqlRows]: rows as the SQL the builder emits filters and orders them.
    - [Orm], [Relations] ([orm/]): saving, dirty columns, hooks, scopes, soft
      deletes, chunks; relations loaded one by one and in batches, which agree,
      and the number of statements of an eager load.

    HTTP ([src/web/], [src/httpclient/], [src/filesystem/], [src/mail/]):
    - [Router]: patterns, groups and middleware in the order they run.
    - [WebContext], [WebSecurity]: one response per request, cookies, CSRF and
      the security headers.
    - [Filesystem]: the local disk, which no path leaves.
    - [Mail]: the text of a message, whose headers no value can extend.
    - [HttpClient]: building a request, the attempts with their waits.
    - [OAuth] ([src/auth/oauth/]): the signed state, the redirect, the exchange.
    - [Validation] ([src/validation/]): the rules and how errors gather.

    Application services:
    - [Authz] ([src/authz/authz.go]): the gate never makes [reflect] panic on an
      ill-typed call, and its entry points agree.
    - [Scheduling] ([src/scheduling/scheduling.go]): no task overlaps itself, and
      [Run] drains; pace and daily schedules.
    - [Session] ([src/session/]): a saved session comes back, ids are never the
      client's choice, a logout is final; late changes are lost.
    - [Queue] ([src/queue/queue.go]): no job is lost or duplicated, retries are
      bounded, no job is stuck, in every interleaving of producers and workers.
    - [SqlQueue] ([src/queue/sqlqueue/]): the table of jobs under claims,
      crashes and releases; a job has at most one worker while its lease holds.
    - [QueueStats], [Dashboard] ([src/queue/dashboard/]): counters whose ring of
      sixty seconds gives the exact throughput, the failed jobs under concurrent
      retries, and handlers that change nothing without the CSRF token.
    - [Seeder] ([src/seeder/]): the topological order of the seeders.
    - [Search], [SearchSql] ([src/search/]): the in-memory index against a
      reference ranking, backfilling over any engine, the statements of the SQL
      engines.
    - [I18n] ([src/i18n/]): catalogues, fallbacks, placeholders and plurals.
    - [Ring], [Trace], [Metrics] ([src/observability/]): the ring of finished
      spans and trace contexts; counters, gauges and histograms under concurrent
      calls.
    - [Telescope] ([src/telescope/]): the entries kept, the queries tagged as
      repeats, the middleware and the routes.
    - [Events], [App] ([src/events/], [src/app/]): listeners in the order they
      are called; modules booted and shut down.
    - [Realtime] ([src/realtime/]): the hub's clients, rooms and send buffers;
      membership is symmetric in every interleaving, one teardown per client.
    - [Container] ([src/container/]): bindings, singletons under [sync.Once],
      constructors with resolved parameters.

    Authentication ([src/auth/]):
    - [Secret]: the random secrets of every token kind and the [SecretStore] they
      are kept in; [Token] ([token/]), [AccountToken] and [SignedUrl]
      ([account/]): issuing, verification, expiry, revocation, single use.
    - [Throttle] ([account/]): the login throttle; [Guard] ([guard/]): attempts,
      login, logout and the current user on top of [Session].

    Migrations ([src/migrations/]):
    - [Migrations] ([migrator.go], [registry.go], [repository.go]): up records
      exactly what ran, a rollback undoes one batch.  The database is an
      interface of statements.
    - [MigLock] ([lock.go]): the row lock admits one migrator.

    Components meet through interfaces: [Cache.Store] and [Session.Store] for
    drivers, [GqlParser.TokenSource] between lexer and parser,
    [Migrations.Database] between the engine and SQL, [Sql.Lexical] between the
    grammars and the query builder, [Secret.SecretStore] between the token
    services and their tables.

    ** Not modelled

    The openapi and admin packages are reflection over user types, and the
    kernel has no counterpart of [reflect] to check them against; the drivers,
    the S3 and Redis adapters and the mail transports
    are glue around external services; the command line writes files from
    templates, and its templates are data.  Of the packages modelled, logging,
    setters, HTML and JSON encoding are left out, and the SQL text of the
    migration and queue tables is modelled by what the statements do to the
    rows. *)

From Stdlib Require Import ZArith Lia.
From stdpp Require Import base gmap strings list relations numbers.

#[global] Open Scope Z_scope.
#[export] Set Default Goal Selector "!".

(** ** Results

    A Go function that returns [(T, error)] is a [result]: the source never
    uses the value next to a non-nil error unless a definition says so. *)

Inductive result (E A : Type) : Type :=
| Ok (a : A)
| Err (e : E).
Arguments Ok {E A} a.
Arguments Err {E A} e.

Declare Scope lago_scope.
Delimit Scope lago_scope with lago.

Definition rbind {E A B} (x : result E A) (f : A -> result E B) : result E B :=
  match x with
  | Ok a => f a
  | Err e => Err e
  end.

Notation "'let*' x ':=' c 'in' k" := (rbind c (fun x => k))
  (at level 10, x name, c at level 100, k at level 200) : lago_scope.
Notation "'let*' ' p ':=' c 'in' k" := (rbind c (fun x => let p := x in k))
  (at level 10, p strict pattern, c at level 100, k at level 200) : lago_scope.

Definition is_Ok {E A} (r : result E A) : bool :=
  match r with Ok _ => true | Err _ => false end.

#[export] Instance result_eq_dec {E A} `{EqDecision E, EqDecision A} :
  EqDecision (result E A).
Proof. solve_decision. Defined.

Lemma rbind_Ok_inv {E A B} (x : result E A) (f : A -> result E B) (b : B) :
  rbind x f = Ok b -> exists a, x = Ok a /\ f a = Ok b.
Proof. destruct x; simpl; [eauto | discriminate]. Qed.

(** ** Tactics *)

(** Split a goal or a hypothesis on every [match] and [if] in sight. *)
Ltac case_all :=
  repeat (match goal with
          | H : context [match ?x with _ => _ end] |- _ => destruct x eqn:?
          | |- context [match ?x with _ => _ end] => destruct x eqn:?
          end; simplify_eq/=; try done).

(** Turn boolean tests of the source into propositions [lia] reads. *)
Ltac to_prop :=
  repeat match goal with
         | H : (_ && _)%bool = true |- _ => apply andb_prop in H as [? ?]
         | H : (_ || _)%bool = false |- _ => apply orb_false_elim in H as [? ?]
         | H : negb _ = true |- _ => apply negb_true_iff in H
         | H : negb _ = false |- _ => apply negb_false_iff in H
         | H : (_ <? _) = true |- _ => apply Z.ltb_lt in H
         | H : (_ <? _) = false |- _ => apply Z.ltb_ge in H
         | H : (_ <=? _) = true |- _ => apply Z.leb_le in H
         | H : (_ <=? _) = false |- _ => apply Z.leb_gt in H
         | H : (_ =? _) = true |- _ => apply Z.eqb_eq in H
         | H : (_ =? _) = false |- _ => apply Z.eqb_neq in H
         | H : bool_decide _ = true |- _ => apply bool_decide_eq_true in H
         | H : bool_decide _ = false |- _ => apply bool_decide_eq_false in H
         end.

(** ** Step relations

    A property kept by every step holds along every run; [nsteps] counts the
    steps, which the machine-width counters of some components need. *)

Lemma nsteps_invariant {S} (R : S -> S -> Prop) (I : nat -> S -> Prop) (s0 : S) :
  I 0%nat s0 ->
  (forall n s s', I n s -> R s s' -> I (Datatypes.S n) s') ->
  forall n s, nsteps R n s0 s -> I n s.
Proof.
  intros H0 Hstep n. induction n as [|n IH]; intros s Hs.
  - inversion Hs; subst; done.
  - apply nsteps_inv_r in Hs as (t & Ht & Hts). eauto.
Qed.

Lemma rtc_invariant {S} (R : S -> S -> Prop) (I : S -> Prop) (s0 : S) :
  I s0 -> (forall s s', I s -> R s s' -> I s') ->
  forall s, rtc R s0 s -> I s.
Proof. intros H0 Hstep s Hs. induction Hs; eauto. Qed.

(** ** Lists *)

(** The loop that deletes the first occurrence of a string. *)
Fixpoint remove_first (id : string) (l : list string) : list string :=
  match l with
  | [] => []
  | x :: l => if String.eqb x id then l else x :: remove_first id l
  end.

Lemma remove_first_elem id l x : NoDup l -> x ∈ remove_first id l <-> x ∈ l /\ x <> id.
Proof.
  induction 1 as [|y l Hy Hl IH]; simpl; [set_solver |]. destruct (String.eqb_spec y id) as [->|Hne].
  - split; [| set_solver]. intros Hx. split; [set_solver | by intros ->].
  - rewrite !elem_of_cons, IH. naive_solver.
Qed.

Lemma remove_first_NoDup id l : NoDup l -> NoDup (remove_first id l).
Proof.
  induction 1 as [|y l Hy Hl IH]; simpl; [constructor |]. destruct (String.eqb_spec y id); [done |].
  constructor; [| done]. rewrite remove_first_elem by done. naive_solver.
Qed.

(** How often [x] occurs in [l]. *)
Definition occurs {A} `{EqDecision A} (x : A) (l : list A) : nat :=
  length (filter (fun y => y = x) l).

Lemma occurs_app {A} `{EqDecision A} (x : A) l1 l2 :
  occurs x (l1 ++ l2) = (occurs x l1 + occurs x l2)%nat.
Proof. unfold occurs. by rewrite list.filter_app, length_app. Qed.

Lemma occurs_cons_eq {A} `{EqDecision A} (x : A) l :
  occurs x (x :: l) = S (occurs x l).
Proof. unfold occurs. by rewrite filter_cons_True. Qed.

Lemma occurs_cons_ne {A} `{EqDecision A} (x y : A) l :
  x <> y -> occurs x (y :: l) = occurs x l.
Proof. intros. unfold occurs. by rewrite filter_cons_False. Qed.

Lemma occurs_zero {A} `{EqDecision A} (x : A) l :
  Forall (fun y => y <> x) l -> occurs x l = 0%nat.
Proof.
  induction 1 as [|y l Hy _ IH]; [done |].
  rewrite occurs_cons_ne; congruence.
Qed.

Lemma occurs_pos {A} `{EqDecision A} (x : A) l :
  x ∈ l -> (0 < occurs x l)%nat.
Proof.
  intros (l1 & l2 & ->)%list_elem_of_split.
  rewrite occurs_app, occurs_cons_eq. lia.
Qed.

Lemma omap_middle {A B} (f : A -> option B) (l1 : list A) (x : A) (l2 : list A) :
  omap f (l1 ++ x :: l2)
  = omap f l1 ++ match f x with Some y => [y] | None => [] end ++ omap f l2.
Proof. rewrite omap_app. f_equal. simpl. by destruct (f x). Qed.

(** ** Association lists *)

(** The first value under a key. *)
Fixpoint assoc {A} (k : string) (l : list (string * A)) : option A :=
  match l with
  | [] => None
  | (k', v) :: l => if decide (k = k') then Some v else assoc k l
  end.

Lemma assoc_map {A B} (f : A -> B) k (l : list (string * A)) :
  assoc k (map (fun kv => (kv.1, f kv.2)) l) = f <$> assoc k l.
Proof. induction l as [|[k' v] l IH]; [done |]. simpl. by case_decide. Qed.

Lemma assoc_app {A} k (l1 l2 : list (string * A)) :
  assoc k (l1 ++ l2) = match assoc k l1 with Some v => Some v | None => assoc k l2 end.
Proof. induction l1 as [|[k' v] l1 IH]; [done |]. simpl. by case_decide. Qed.

Lemma assoc_Some_in {A} k v (l : list (string * A)) : assoc k l = Some v -> (k, v) ∈ l.
Proof.
  induction l as [|[k' v'] l IH]; [done |]. simpl. case_decide as Hk; [intros [= ->]; subst; by left |].
  intros H. right. by apply IH.
Qed.

Lemma assoc_None {A} k (l : list (string * A)) : assoc k l = None <-> k ∉ map fst l.
Proof.
  induction l as [|[k' v'] l IH]; simpl; [split; [intros _ H; inversion H | done] |].
  case_decide as Hk; [subst; split; [done | intros H; exfalso; apply H; by left] |].
  rewrite IH, not_elem_of_cons. tauto.
Qed.

(** Goroutines in a list of lists: what one of them changes is all that the count
    over all of them changes. *)
Lemma count_insert {A} (P : A -> Prop) `{!forall x, Decision (P x)} (gs : list (list A)) i g g' :
  gs !! i = Some g ->
  (length (base.filter P (concat (<[i := g']> gs))) + length (base.filter P g) =
   length (base.filter P (concat gs)) + length (base.filter P g'))%nat.
Proof.
  revert i. induction gs as [| g0 gs IH]; intros [| i] Hi; simplify_eq/=; rewrite !list.filter_app, !length_app.
  - lia.
  - specialize (IH i Hi). lia.
Qed.

(** ** Counting *)

Lemma count_le {A} (f g : A -> bool) (l : list A) :
  (forall x, f x = true -> g x = true) -> (length (List.filter f l) <= length (List.filter g l))%nat.
Proof.
  intros Hfg. induction l as [|x l IH]; [done |]. simpl. specialize (Hfg x).
  destruct (f x); [rewrite (Hfg eq_refl) | destruct (g x)]; simpl; lia.
Qed.

Lemma count_lt {A} (f g : A -> bool) (l : list A) (x : A) :
  (forall x, f x = true -> g x = true) -> x ∈ l -> f x = false -> g x = true ->
  (length (List.filter f l) < length (List.filter g l))%nat.
Proof.
  intros Hfg Hx Hf Hg. pose proof (fun l => count_le f g l Hfg) as Hle.
  induction Hx as [x l|x y l _ IH]; simpl.
  - rewrite Hf, Hg. specialize (Hle l). simpl. lia.
  - specialize (IH Hf Hg). specialize (Hfg y). destruct (f y); [rewrite (Hfg eq_refl) | destruct (g y)]; simpl; lia.
Qed.

Create HintDb lago.
Create Rewrite HintDb lago_rw.
#[export] Hint Rewrite @occurs_app @occurs_cons_eq : lago_rw.
#[export] Hint Resolve occurs_zero occurs_pos : lago.
