(* ===== verification/GoRt.v ===== *)
(** The parts of Go and of its standard library that the components share:
    fixed-width integers, IEEE 754 doubles, [time.Time] and [time.Duration].

    - [uint32], [uint64] and [int64] values are [Z] in range; arithmetic wraps
      explicitly through [u32], [u64] and [i64];
    - [float64] is the Standard Library's specification of IEEE 754 binary64
      ([SpecFloat]), which computes and carries no axiom;
    - [time.Time] is the number of nanoseconds since Go's zero time (January
      1, year 1, UTC), so that [IsZero] is equality with [0]; the monotonic
      clock reading of a [Time] is not modelled;
    - [time.Duration] is an [int64] count of nanoseconds. *)

From Stdlib Require Import ZArith Lia SpecFloat.
From stdpp Require Import base gmap strings list numbers.
From S2P Require Import Prelude.

(** ** Fixed-width integers *)

Definition wrap_u (w x : Z) : Z := x mod 2 ^ w.
Definition wrap_s (w x : Z) : Z := (x + 2 ^ (w - 1)) mod 2 ^ w - 2 ^ (w - 1).

Definition u32 : Z -> Z := wrap_u 32.
Definition u64 : Z -> Z := wrap_u 64.
Definition i64 : Z -> Z := wrap_s 64.

Definition max_i64 : Z := 2 ^ 63 - 1.
Definition min_i64 : Z := - 2 ^ 63.

Lemma u32_range x : 0 <= u32 x < 2 ^ 32.
Proof. apply Z.mod_pos_bound. lia. Qed.

Lemma u32_small x : 0 <= x < 2 ^ 32 -> u32 x = x.
Proof. apply Z.mod_small. Qed.

Lemma u64_small x : 0 <= x < 2 ^ 64 -> u64 x = x.
Proof. apply Z.mod_small. Qed.

Lemma i64_small x : min_i64 <= x <= max_i64 -> i64 x = x.
Proof.
  unfold min_i64, max_i64, i64, wrap_s. intros ?.
  rewrite Z.mod_small; lia.
Qed.

Lemma i64_range x : min_i64 <= i64 x <= max_i64.
Proof.
  unfold min_i64, max_i64, i64, wrap_s.
  pose proof (Z.mod_pos_bound (x + 2 ^ (64 - 1)) (2 ^ 64) ltac:(lia)). lia.
Qed.

Lemma i64_wrap_add_l x y : i64 (i64 x + y) = i64 (x + y).
Proof.
  unfold i64, wrap_s. f_equal.
  replace ((x + 2 ^ (64 - 1)) mod 2 ^ 64 - 2 ^ (64 - 1) + y + 2 ^ (64 - 1))
    with ((x + 2 ^ (64 - 1)) mod 2 ^ 64 + y) by lia.
  rewrite Zplus_mod_idemp_l. f_equal. lia.
Qed.

(** ** [float64] *)

Definition float64 : Type := spec_float.
Definition prec64 : Z := 53.
Definition emax64 : Z := 1024.

Definition fmul : float64 -> float64 -> float64 := SFmul prec64 emax64.
Definition fdiv : float64 -> float64 -> float64 := SFdiv prec64 emax64.
Definition fadd : float64 -> float64 -> float64 := SFadd prec64 emax64.
Definition fsub : float64 -> float64 -> float64 := SFsub prec64 emax64.
Definition feq : float64 -> float64 -> bool := SFeqb.
Definition flt : float64 -> float64 -> bool := SFltb.
Definition fle : float64 -> float64 -> bool := SFleb.

(** [float64(z)] of an integer: rounded to nearest, ties to even. *)
Definition float_of_Z (z : Z) : float64 := binary_normalize prec64 emax64 z 0 false.
Definition fzero : float64 := S754_zero false.
Definition fone : float64 := float_of_Z 1.

(** The sign of a float that is neither zero nor NaN; [true] is negative. *)
Definition fsign (x : float64) : bool :=
  match x with
  | S754_zero s | S754_infinity s | S754_finite s _ _ => s
  | S754_nan => false
  end.

(** Truncation toward zero, [None] on an infinity or a NaN. *)
Definition ftrunc (x : float64) : option Z :=
  match x with
  | S754_zero _ => Some 0
  | S754_finite s m e =>
      let v := if 0 <=? e then Z.pos m * 2 ^ e else Z.pos m / 2 ^ (- e) in
      Some (if s then - v else v)
  | S754_infinity _ | S754_nan => None
  end.

(** [int64(x)]: Go leaves the result implementation-dependent when the
    truncated value does not fit; [undef] is that implementation's choice. *)
Definition int64_of_float (undef : float64 -> Z) (x : float64) : Z :=
  match ftrunc x with
  | Some v => if (min_i64 <=? v) && (v <=? max_i64) then v else undef x
  | None => undef x
  end.

(** ** [time.Time] and [time.Duration] *)

Definition Time : Type := Z.
Definition Duration : Type := Z.

Definition zero_time : Time := 0.
Definition IsZero (t : Time) : bool := t =? 0.
Definition Before (t u : Time) : bool := t <? u.
Definition After (t u : Time) : bool := u <? t.
Definition time_Add (t : Time) (d : Duration) : Time := t + d.
(** [t.Sub(u)] saturates at the limits of [Duration]. *)
Definition time_Sub (t u : Time) : Duration :=
  Z.max min_i64 (Z.min max_i64 (t - u)).

Definition Nanosecond : Duration := 1.
Definition Millisecond : Duration := 1000000.
Definition Second : Duration := 1000000000.
Definition Minute : Duration := 60 * Second.

(** [Unix] of a time: seconds since 1970. *)
Definition Unix (t : Time) : Z := (t - 62135596800 * Second) / Second.

(** ** Calls of user-supplied functions

    A Go call returns a value and an error, or panics. *)
Inductive outcome (V E : Type) : Type :=
| Return (v : V) (err : option E)
| Panic (r : E).
Arguments Return {V E} v err.
Arguments Panic {V E} r.
