(* ===== verification/GoFloat.v ===== *)
(** Exactness of [float64] arithmetic on integers.

    [cf q k] is the canonical double of the integer [q * 2 ^ k] with
    [0 < q < 2 ^ 53].  Conversion from an integer, multiplication by two,
    subtraction of one, comparison and truncation are computed exactly on such
    values; the rate limiter and the exponential backoff rely on it. *)

From Stdlib Require Import ZArith Lia SpecFloat.
From stdpp Require Import base numbers.
From S2P Require Import Prelude GoRt.

Definition mant (q : Z) : Z := q * 2 ^ (52 - Z.log2 q).
Definition cf (q k : Z) : float64 :=
  S754_finite false (Z.to_pos (mant q)) (Z.log2 q - 52 + k).

Lemma digits2_log2 (p : positive) : Z.pos (digits2_pos p) = Z.log2 (Z.pos p) + 1.
Proof.
  induction p as [p IH|p IH|]; simpl digits2_pos; [| | done].
  - rewrite Pos2Z.inj_succ, IH, (Pos2Z.inj_xI p), Z.log2_succ_double; lia.
  - rewrite Pos2Z.inj_succ, IH, (Pos2Z.inj_xO p), Z.log2_double; lia.
Qed.

Lemma log2_bounds q : 0 < q < 2 ^ 53 -> 0 <= Z.log2 q <= 52.
Proof.
  intros H. split; [apply Z.log2_nonneg |].
  assert (Z.log2 q < 53) by (apply Z.log2_lt_pow2; lia). lia.
Qed.

Lemma mant_bounds q : 0 < q < 2 ^ 53 -> 2 ^ 52 <= mant q < 2 ^ 53.
Proof.
  intros H. pose proof (log2_bounds q H) as Hl.
  pose proof (Z.log2_spec q ltac:(lia)) as [H1 H2]. unfold mant.
  replace (2 ^ 52) with (2 ^ Z.log2 q * 2 ^ (52 - Z.log2 q))
    by (rewrite <- Z.pow_add_r by lia; f_equal; lia).
  replace (2 ^ 53) with (2 ^ Z.succ (Z.log2 q) * 2 ^ (52 - Z.log2 q))
    by (rewrite <- Z.pow_add_r by lia; f_equal; lia).
  assert (0 < 2 ^ (52 - Z.log2 q)) by (apply Z.pow_pos_nonneg; lia). nia.
Qed.

Lemma mant_pos q : 0 < q < 2 ^ 53 -> Z.pos (Z.to_pos (mant q)) = mant q.
Proof. intros H. pose proof (mant_bounds q H). apply Z2Pos.id. lia. Qed.

Lemma log2_shifted a s : 0 < a -> 0 <= s -> Z.log2 (a * 2 ^ s) = Z.log2 a + s.
Proof. intros. rewrite Z.log2_mul_pow2 by lia. lia. Qed.

Lemma log2_mant q : 0 < q < 2 ^ 53 -> Z.log2 (mant q) = 52.
Proof.
  intros H. pose proof (log2_bounds q H). unfold mant. rewrite log2_shifted; lia.
Qed.

(** ** Shifting out zero bits is exact *)

Lemma iter_pos_shr (p : positive) (m : Z) :
  0 < m ->
  SpecFloat.iter_pos shr_1 p (Build_shr_record (m * 2 ^ Z.pos p) false false)
  = Build_shr_record m false false.
Proof.
  revert m. induction p as [p IH|p IH|]; intros m Hm; cbn [SpecFloat.iter_pos].
  - assert (shr_1 (Build_shr_record (m * 2 ^ Z.pos p~1) false false)
            = Build_shr_record (m * 2 ^ Z.pos p * 2 ^ Z.pos p) false false) as ->.
    { replace (m * 2 ^ Z.pos p~1) with (2 * (m * 2 ^ Z.pos p * 2 ^ Z.pos p)).
      2: { rewrite (Pos2Z.inj_xI p).
           replace (2 * Z.pos p + 1) with (1 + Z.pos p + Z.pos p) by lia.
           rewrite !Z.pow_add_r by lia. lia. }
      assert (0 < 2 ^ Z.pos p) by (apply Z.pow_pos_nonneg; lia).
      destruct (m * 2 ^ Z.pos p * 2 ^ Z.pos p) eqn:E; [nia | done | nia]. }
    assert (0 < 2 ^ Z.pos p) by (apply Z.pow_pos_nonneg; lia).
    rewrite IH by nia. by apply IH.
  - replace (m * 2 ^ Z.pos p~0) with (m * 2 ^ Z.pos p * 2 ^ Z.pos p).
    2: { rewrite (Pos2Z.inj_xO p). replace (2 * Z.pos p) with (Z.pos p + Z.pos p) by lia.
         rewrite !Z.pow_add_r by lia. lia. }
    assert (0 < 2 ^ Z.pos p) by (apply Z.pow_pos_nonneg; lia).
    rewrite IH by nia. by apply IH.
  - replace (m * 2 ^ 1) with (2 * m) by lia. by destruct m.
Qed.

Lemma fexp_eq e : - 1074 <= e - 53 -> fexp prec64 emax64 e = e - 53.
Proof. unfold fexp, emin, prec64, emax64. lia. Qed.

(** Rounding [q * 2 ^ s], held at exponent [e], gives the canonical double. *)
Lemma round_exact (q s e : Z) :
  0 < q < 2 ^ 53 -> 52 - Z.log2 q <= s -> -1000 <= e -> Z.log2 q + s + e <= 900 ->
  binary_round_aux prec64 emax64 false (q * 2 ^ s) e loc_Exact = cf q (s + e).
Proof.
  intros Hq Hs He Hhi. pose proof (log2_bounds q Hq) as Hl.
  pose proof (mant_bounds q Hq) as Hm.
  set (n := s - (52 - Z.log2 q)).
  assert (Hqs : q * 2 ^ s = mant q * 2 ^ n).
  { unfold mant, n. rewrite <- Z.mul_assoc, <- Z.pow_add_r by lia. f_equal. f_equal. lia. }
  assert (Hpos : 0 < mant q * 2 ^ n).
  { apply Z.mul_pos_pos; [lia | apply Z.pow_pos_nonneg; lia]. }
  assert (Hdig : Zdigits2 (mant q * 2 ^ n) = 53 + n).
  { destruct (mant q * 2 ^ n) eqn:E; [lia | | lia]. simpl.
    rewrite digits2_log2, <- E, log2_shifted, log2_mant by lia. lia. }
  unfold binary_round_aux, shr_fexp. rewrite Hqs, Hdig, fexp_eq by lia.
  replace (53 + n + e - 53 - e) with n by lia. simpl shr_record_of_loc.
  assert (Hshr : shr (Build_shr_record (mant q * 2 ^ n) false false) e n
                 = (Build_shr_record (mant q) false false, e + n)).
  { unfold shr. destruct n as [|p|p] eqn:En; [| | lia].
    - rewrite Z.mul_1_r, Z.add_0_r. done.
    - by rewrite iter_pos_shr by lia. }
  rewrite Hshr. simpl.
  assert (Zdigits2 (mant q) = 53) as ->.
  { rewrite <- (mant_pos q Hq). simpl. rewrite digits2_log2, mant_pos, log2_mant; lia. }
  rewrite fexp_eq by lia. replace (53 + (e + n) - 53 - (e + n)) with 0 by lia. simpl.
  destruct (mant q) as [|p|p] eqn:E; [lia | | lia].
  unfold prec64, emax64.
  destruct (Z.leb_spec (e + n) (1024 - 53)); [| lia].
  unfold cf. rewrite E. simpl. f_equal. unfold n. lia.
Qed.

(** ** Integers *)

Lemma pos_iter_xO (p d : positive) : Z.pos (Pos.iter xO p d) = Z.pos p * 2 ^ Z.pos d.
Proof.
  induction d as [|d IH] using Pos.peano_ind; [simpl; lia |].
  rewrite Pos.iter_succ, (Pos2Z.inj_xO (Pos.iter _ _ _)), IH, Pos2Z.inj_succ,
    Z.pow_succ_r by lia. lia.
Qed.

Lemma shl_align_pos (p : positive) (e e' : Z) :
  exists m, Z.pos m = Z.pos p * 2 ^ Z.max 0 (e - e')
            /\ shl_align p e e' = (m, Z.min e e').
Proof.
  unfold shl_align. destruct (e' - e) as [|d|d] eqn:E.
  - exists p. rewrite Z.max_l by lia. split; [lia |]. f_equal. lia.
  - exists p. rewrite Z.max_l by lia. split; [lia |]. f_equal. lia.
  - exists (Pos.iter xO p d). rewrite pos_iter_xO.
    replace (Z.max 0 (e - e')) with (Z.pos d) by lia. split; [done |]. f_equal. lia.
Qed.

(** Normalizing the integer [q * 2 ^ a] held at exponent [e]. *)
Lemma normalize_exact (q a e : Z) :
  0 < q < 2 ^ 53 -> 0 <= a -> -900 <= e -> a + e <= 800 ->
  binary_normalize prec64 emax64 (q * 2 ^ a) e false = cf q (a + e).
Proof.
  intros Hq Ha He Hhi. pose proof (log2_bounds q Hq) as Hl.
  assert (0 < q * 2 ^ a) by (apply Z.mul_pos_pos; [lia | apply Z.pow_pos_nonneg; lia]).
  destruct (q * 2 ^ a) as [|p|p] eqn:E; [lia | | lia].
  unfold binary_normalize, binary_round.
  rewrite digits2_log2, <- E, log2_shifted by lia. rewrite fexp_eq by lia.
  destruct (shl_align_pos p e (Z.log2 q + a + 1 + e - 53)) as (m & Hm & ->).
  rewrite Hm, <- E, <- Z.mul_assoc, <- Z.pow_add_r by lia.
  rewrite round_exact by lia. f_equal. lia.
Qed.

Lemma float_of_Z_cf q : 0 < q < 2 ^ 53 -> float_of_Z q = cf q 0.
Proof.
  intros Hq. unfold float_of_Z.
  rewrite <- (Z.mul_1_r q) at 1. rewrite <- (Z.pow_0_r 2).
  by apply normalize_exact.
Qed.

Lemma fsub_one q : 1 <= q < 2 ^ 53 -> fsub (float_of_Z q) fone = float_of_Z (q - 1).
Proof.
  intros Hq. unfold fone. rewrite !float_of_Z_cf by lia.
  unfold fsub, cf, SFsub. change (Z.log2 1) with 0.
  pose proof (log2_bounds q ltac:(lia)) as Hl.
  set (ez := Z.min _ _). assert (Hez : ez = -52) by (unfold ez; lia). rewrite Hez.
  destruct (shl_align_pos (Z.to_pos (mant q)) (Z.log2 q - 52 + 0) (-52)) as (m & Hm & ->).
  destruct (shl_align_pos (Z.to_pos (mant 1)) (0 - 52 + 0) (-52)) as (m1 & Hm1 & ->).
  simpl fst. rewrite mant_pos in Hm, Hm1 by lia. simpl cond_Zopp.
  rewrite Hm, Hm1. unfold mant. rewrite <- Z.mul_assoc, <- Z.pow_add_r by lia.
  rewrite Z.max_r by lia.
  replace (52 - Z.log2 q + (Z.log2 q - 52 + 0 - -52)) with 52 by lia.
  replace (1 * 2 ^ (52 - Z.log2 1) * 2 ^ Z.max 0 (0 - 52 + 0 - -52)) with (2 ^ 52) by done.
  replace (q * 2 ^ 52 - 2 ^ 52) with ((q - 1) * 2 ^ 52) by lia.
  destruct (Z.eq_dec q 1) as [->|Hne]; [done |].
  rewrite normalize_exact by lia. by rewrite float_of_Z_cf by lia.
Qed.

(** The sum of integers. *)
Lemma fadd_int a b : 0 <= a -> 0 <= b -> a + b < 2 ^ 53 -> fadd (float_of_Z a) (float_of_Z b) = float_of_Z (a + b).
Proof.
  intros Ha Hb Hs. destruct (Z.eq_dec a 0) as [->|Ha0]; [destruct (Z.eq_dec b 0) as [->|]; [done | rewrite Z.add_0_l, (float_of_Z_cf b) by lia; done] |].
  destruct (Z.eq_dec b 0) as [->|Hb0]; [rewrite Z.add_0_r, (float_of_Z_cf a) by lia; done |]. rewrite !float_of_Z_cf by lia.
  unfold fadd, cf at 1 2, SFadd. pose proof (log2_bounds a ltac:(lia)) as Hla. pose proof (log2_bounds b ltac:(lia)) as Hlb.
  set (ez := Z.min _ _). assert (Hez : ez = Z.min (Z.log2 a) (Z.log2 b) - 52) by (unfold ez; lia). rewrite Hez. clearbody ez. clear ez Hez.
  remember (Z.min (Z.log2 a) (Z.log2 b) - 52) as e eqn:He.
  destruct (shl_align_pos (Z.to_pos (mant a)) (Z.log2 a - 52 + 0) e) as (ma & Hma & ->).
  destruct (shl_align_pos (Z.to_pos (mant b)) (Z.log2 b - 52 + 0) e) as (mb & Hmb & ->).
  simpl fst. rewrite mant_pos in Hma, Hmb by lia. simpl cond_Zopp. rewrite Hma, Hmb. unfold mant.
  rewrite <- !Z.mul_assoc, <- !Z.pow_add_r by lia.
  replace (52 - Z.log2 a + Z.max 0 (Z.log2 a - 52 + 0 - e)) with (- e) by lia. replace (52 - Z.log2 b + Z.max 0 (Z.log2 b - 52 + 0 - e)) with (- e) by lia.
  rewrite <- Z.mul_add_distr_r. rewrite normalize_exact by lia. f_equal. lia.
Qed.

(** Comparison of canonical doubles is comparison of the integers. *)
Lemma pos_compare_mant q q' :
  0 < q < 2 ^ 53 -> 0 < q' < 2 ^ 53 ->
  Pos.compare_cont Eq (Z.to_pos (mant q)) (Z.to_pos (mant q')) = (mant q ?= mant q').
Proof.
  intros Hq Hq'. pose proof (mant_bounds q Hq). pose proof (mant_bounds q' Hq').
  change (Pos.compare_cont Eq) with Pos.compare. by rewrite <- Z2Pos.inj_compare by lia.
Qed.

Lemma compare_scale c x y : 0 < c -> (x * c ?= y * c) = (x ?= y).
Proof.
  intros Hc. destruct (Z.compare_spec x y) as [->|H|H].
  - apply Z.compare_refl.
  - apply Z.compare_lt_iff. nia.
  - apply Z.compare_gt_iff. nia.
Qed.

Lemma cf_compare q k q' k' :
  0 < q < 2 ^ 53 -> 0 < q' < 2 ^ 53 -> 0 <= k -> 0 <= k' ->
  SFcompare (cf q k) (cf q' k') = Some (q * 2 ^ k ?= q' * 2 ^ k').
Proof.
  intros Hq Hq' Hk Hk'. unfold cf, SFcompare. f_equal.
  pose proof (log2_bounds q Hq) as Hl. pose proof (log2_bounds q' Hq') as Hl'.
  assert (Hlog : Z.log2 (q * 2 ^ k) = Z.log2 q + k) by (apply log2_shifted; lia).
  assert (Hlog' : Z.log2 (q' * 2 ^ k') = Z.log2 q' + k') by (apply log2_shifted; lia).
  assert (0 < 2 ^ k) by (apply Z.pow_pos_nonneg; lia).
  assert (0 < 2 ^ k') by (apply Z.pow_pos_nonneg; lia).
  destruct (Z.compare_spec (Z.log2 q - 52 + k) (Z.log2 q' - 52 + k')) as [E|E|E].
  - rewrite pos_compare_mant by done. unfold mant.
    (* scale both sides to the common exponent *)
    assert (Hs : forall x, 0 < x < 2 ^ 53 -> forall j,
      x * 2 ^ (52 - Z.log2 x) * 2 ^ (Z.log2 x + j) = x * 2 ^ j * 2 ^ 52
      \/ Z.log2 x + j < 0 \/ j < 0).
    { intros x Hx j. pose proof (log2_bounds x Hx).
      destruct (Z_lt_le_dec j 0); [by right; right |]. left.
      rewrite <- !Z.mul_assoc, <- !Z.pow_add_r by lia. f_equal. f_equal. lia. }
    destruct (Hs q Hq k) as [H1|[H1|H1]]; [| lia | lia].
    destruct (Hs q' Hq' k') as [H2|[H2|H2]]; [| lia | lia].
    replace (Z.log2 q' + k') with (Z.log2 q + k) in H2 by lia.
    assert (0 < 2 ^ (Z.log2 q + k)) by (apply Z.pow_pos_nonneg; lia).
    rewrite <- (compare_scale (2 ^ (Z.log2 q + k))) by lia.
    rewrite H1, H2. by rewrite compare_scale.
  - symmetry. apply Z.compare_lt_iff.
    destruct (Z_lt_le_dec (q * 2 ^ k) (q' * 2 ^ k')) as [|Hge]; [done |].
    apply Z.log2_le_mono in Hge. lia.
  - symmetry. apply Z.compare_gt_iff.
    destruct (Z_lt_le_dec (q' * 2 ^ k') (q * 2 ^ k)) as [|Hge]; [done |].
    apply Z.log2_le_mono in Hge. lia.
Qed.

Lemma fle_cf q k q' k' :
  0 < q < 2 ^ 53 -> 0 < q' < 2 ^ 53 -> 0 <= k -> 0 <= k' ->
  fle (cf q k) (cf q' k') = (q * 2 ^ k <=? q' * 2 ^ k').
Proof.
  intros. unfold fle, SFleb. rewrite cf_compare by done.
  unfold Z.leb. by destruct (_ ?= _).
Qed.

Lemma fone_le_int q : 0 <= q < 2 ^ 53 -> fle fone (float_of_Z q) = (1 <=? q).
Proof.
  intros Hq. destruct (Z.eq_dec q 0) as [->|]; [done |].
  unfold fone. rewrite !float_of_Z_cf, fle_cf by lia. f_equal; lia.
Qed.

(** The comparison of small integers is exact. *)
Lemma fle_int a b : 0 <= a < 2 ^ 53 -> 0 <= b < 2 ^ 53 -> fle (float_of_Z a) (float_of_Z b) = (a <=? b).
Proof.
  intros Ha Hb. destruct (Z.eq_dec a 0) as [->|], (Z.eq_dec b 0) as [->|].
  - reflexivity.
  - rewrite (float_of_Z_cf b) by lia. symmetry. transitivity true; [apply Z.leb_le; lia | reflexivity].
  - rewrite (float_of_Z_cf a) by lia. symmetry. transitivity false; [apply Z.leb_gt; lia | reflexivity].
  - rewrite !float_of_Z_cf, fle_cf by lia. by rewrite !Z.mul_1_r.
Qed.

(** Doubling. *)
Lemma fmul_two q k :
  0 < q < 2 ^ 53 -> 0 <= k <= 700 -> fmul (cf q k) (float_of_Z 2) = cf q (k + 1).
Proof.
  intros Hq Hk. pose proof (log2_bounds q Hq) as Hl. rewrite (float_of_Z_cf 2) by lia.
  unfold fmul, cf, SFmul. change (xorb false false) with false.
  rewrite Pos2Z.inj_mul, !mant_pos by lia.
  change (mant 2) with (2 ^ 52). change (Z.log2 2) with 1.
  unfold mant. rewrite <- Z.mul_assoc, <- Z.pow_add_r by lia.
  rewrite round_exact by lia. unfold cf, mant. f_equal. lia.
Qed.

Lemma ftrunc_cf q k : 0 < q < 2 ^ 53 -> 0 <= k -> ftrunc (cf q k) = Some (q * 2 ^ k).
Proof.
  intros Hq Hk. pose proof (log2_bounds q Hq) as Hl. unfold ftrunc, cf.
  rewrite mant_pos by done. unfold mant. f_equal.
  destruct (Z.leb_spec 0 (Z.log2 q - 52 + k)).
  - rewrite <- Z.mul_assoc, <- Z.pow_add_r by lia. f_equal. f_equal. lia.
  - replace (52 - Z.log2 q) with (k + - (Z.log2 q - 52 + k)) by lia.
    rewrite Z.pow_add_r, Z.mul_assoc by lia.
    apply Z.div_mul. apply Z.pow_nonzero; lia.
Qed.

(** Division by [2 ^ 53] only lowers the exponent. *)
Lemma fdiv_pow53 q :
  0 < q < 2 ^ 53 -> fdiv (float_of_Z q) (float_of_Z (2 ^ 53)) = cf q (-53).
Proof.
  intros Hq. pose proof (log2_bounds q Hq) as Hl. pose proof (mant_bounds q Hq) as Hm.
  rewrite float_of_Z_cf by done.
  assert (float_of_Z (2 ^ 53) = S754_finite false (Z.to_pos (2 ^ 52)) 1) as -> by done.
  unfold fdiv, cf, SFdiv, SFdiv_core_binary.
  rewrite mant_pos by done. change (Z.pos (Z.to_pos (2 ^ 52))) with (2 ^ 52).
  assert (Zdigits2 (mant q) = 53) as ->.
  { rewrite <- (mant_pos q Hq). simpl. rewrite digits2_log2, mant_pos, log2_mant; lia. }
  change (Zdigits2 (2 ^ 52)) with 53. rewrite fexp_eq by lia.
  set (e' := Z.min _ _). assert (He' : e' = Z.log2 q - 106) by (unfold e'; lia).
  rewrite He'. replace (Z.log2 q - 52 + 0 - 1 - (Z.log2 q - 106)) with 53 by lia.
  rewrite Z.shiftl_mul_pow2 by lia.
  rewrite <- (Z.mul_comm (2 ^ 53)). change (2 ^ 53) with (2 * 2 ^ 52).
  replace (2 * 2 ^ 52 * mant q) with (mant q * 2 * 2 ^ 52) by lia.
  pose proof (Z.div_eucl_eq (mant q * 2 * 2 ^ 52) (2 ^ 52) ltac:(lia)) as Hd.
  pose proof (Z_mod_mult (mant q * 2) (2 ^ 52)) as Hmod.
  pose proof (Z_div_mult (mant q * 2) (2 ^ 52) ltac:(lia)) as Hdiv.
  unfold Z.modulo in Hmod. unfold Z.div in Hdiv.
  destruct (Z.div_eucl (mant q * 2 * 2 ^ 52) (2 ^ 52)) as [a r]. subst a r.
  change (new_location (2 ^ 52) 0) with loc_Exact.
  replace (mant q * 2) with (q * 2 ^ (53 - Z.log2 q)).
  2: { unfold mant. replace (53 - Z.log2 q) with (52 - Z.log2 q + 1) by lia.
       rewrite Z.pow_add_r by lia. lia. }
  change (xorb false false) with false. rewrite round_exact by lia.
  unfold cf. f_equal. lia.
Qed.

Lemma cf_unit_interval q : 0 < q < 2 ^ 53 -> fle fzero (cf q (-53)) = true /\ flt (cf q (-53)) fone = true.
Proof.
  intros Hq. pose proof (log2_bounds q Hq) as Hl. split; [done |].
  unfold fone. rewrite float_of_Z_cf by lia. unfold flt, SFltb, cf, SFcompare.
  change (Z.log2 1) with 0.
  by rewrite (proj2 (Z.compare_lt_iff (Z.log2 q - 52 + -53) (0 - 52 + 0))) by lia.
Qed.
