(* ===== verification/GoStrconv.v ===== *)
(** [strconv] and the ASCII part of [strings], as the sources use them: decimal
    integers with [ParseInt]/[Atoi] and [AppendInt], [ToLower], [Split] on a
    one-byte separator, removal of a byte ([ReplaceAll] by the empty string).
    Go strings are byte strings, here [String.string]. *)

From Stdlib Require Import ZArith Lia Ascii.
From stdpp Require Import base gmap strings list numbers.
From S2P Require Import Prelude GoRt.

(** ** Decimal integers *)

Definition byte_of (c : ascii) : Z := Z.of_N (Ascii.N_of_ascii c).
Definition ascii_of (z : Z) : ascii := Ascii.ascii_of_N (Z.to_N z).

Definition digit_val (c : ascii) : option Z :=
  let b := byte_of c in
  if (48 <=? b) && (b <=? 57) then Some (b - 48) else None.

Fixpoint parse_digits (acc : Z) (s : string) : option Z :=
  match s with
  | EmptyString => Some acc
  | String c s =>
      match digit_val c with
      | Some d => parse_digits (acc * 10 + d) s
      | None => None
      end
  end.

Definition parse_uint (s : string) : option Z :=
  match s with EmptyString => None | _ => parse_digits 0 s end.

(** [strconv.ParseInt(s, 10, 64)]; every error is [None]. *)
Definition ParseInt (s : string) : option Z :=
  let in_range v := if (min_i64 <=? v) && (v <=? max_i64) then Some v else None in
  match s with
  | String "+" s => match parse_uint s with Some v => in_range v | None => None end
  | String "-" s => match parse_uint s with Some v => in_range (- v) | None => None end
  | s => match parse_uint s with Some v => in_range v | None => None end
  end.

(** [strconv.Atoi], on a platform whose [int] has 64 bits. *)
Definition Atoi (s : string) : option Z := ParseInt s.

Definition digit_char (d : Z) : ascii := ascii_of (48 + d).

Fixpoint format_digits (fuel : nat) (n : Z) (acc : string) : string :=
  match fuel with
  | O => acc
  | S f =>
      let acc := String (digit_char (n mod 10)) acc in
      if n <? 10 then acc else format_digits f (n / 10) acc
  end.

Definition format_uint (n : Z) : string :=
  format_digits (S (Z.to_nat (Z.log2 n))) n EmptyString.

(** [strconv.AppendInt(nil, n, 10)]. *)
Definition FormatInt (n : Z) : string :=
  if n <? 0 then String "-" (format_uint (- n)) else format_uint n.

(** ** Strings *)

Fixpoint string_map (f : ascii -> ascii) (s : string) : string :=
  match s with
  | EmptyString => EmptyString
  | String c s => String (f c) (string_map f s)
  end.

Definition lower_ascii (c : ascii) : ascii :=
  let b := byte_of c in
  if (65 <=? b) && (b <=? 90) then ascii_of (b + 32) else c.

Definition upper_ascii (c : ascii) : ascii :=
  let b := byte_of c in
  if (97 <=? b) && (b <=? 122) then ascii_of (b - 32) else c.

Definition is_ascii (s : string) : bool :=
  forallb (fun c => byte_of c <? 128) (String.list_ascii_of_string s).

Fixpoint remove_byte (x : ascii) (s : string) : string :=
  match s with
  | EmptyString => EmptyString
  | String c s => if Ascii.eqb c x then remove_byte x s else String c (remove_byte x s)
  end.

(** [strings.Split(s, sep)] for a one-byte separator. *)
Fixpoint Split (sep : ascii) (s : string) : list string :=
  match s with
  | EmptyString => [EmptyString]
  | String c s =>
      if Ascii.eqb c sep then EmptyString :: Split sep s
      else match Split sep s with
           | [] => [String c EmptyString]
           | x :: xs => String c x :: xs
           end
  end.

(** ** Round trip *)

(** Case analysis on [0 <= d <= 9], from a hypothesis in the context. *)
Ltac digit_cases d :=
  let p := fresh in
  destruct d as [|p|p]; try lia; do 4 (try destruct p as [p|p|]; try lia).

Lemma digit_val_char d : 0 <= d <= 9 -> digit_val (digit_char d) = Some d.
Proof.
  intros H. by digit_cases d.
Qed.

Lemma parse_format_digits fuel n acc :
  0 <= n < 10 ^ Z.of_nat fuel ->
  exists k, forall a,
    parse_digits a (format_digits fuel n acc) = parse_digits (a * k + n) acc.
Proof.
  revert n acc. induction fuel as [|f IH]; intros n acc Hn.
  - simpl in Hn. assert (n = 0) as -> by lia. exists 1. intros a. simpl. f_equal. lia.
  - rewrite Nat2Z.inj_succ, Z.pow_succ_r in Hn by lia.
    pose proof (Z.mod_pos_bound n 10 ltac:(lia)) as Hm.
    pose proof (Z.div_mod n 10 ltac:(lia)) as Hdm.
    assert (Hstep : forall a, parse_digits a (String (digit_char (n mod 10)) acc)
                              = parse_digits (a * 10 + n mod 10) acc).
    { intros a. cbn [parse_digits]. by rewrite digit_val_char by lia. }
    cbn [format_digits]. destruct (Z.ltb_spec n 10).
    + exists 10. intros a. rewrite Hstep, Z.mod_small; [done | lia].
    + destruct (IH (n / 10) (String (digit_char (n mod 10)) acc)) as [k Hk].
      { split; [apply Z.div_pos; lia | apply Z.div_lt_upper_bound; lia]. }
      exists (k * 10). intros a. rewrite Hk, Hstep. f_equal. lia.
Qed.

Lemma fuel_enough n : 0 <= n -> n < 10 ^ Z.of_nat (S (Z.to_nat (Z.log2 n))).
Proof.
  intros Hn. pose proof (Z.log2_nonneg n).
  replace (Z.of_nat (S (Z.to_nat (Z.log2 n)))) with (Z.succ (Z.log2 n)) by lia.
  destruct (Z.eq_dec n 0) as [->|]; [done |].
  pose proof (Z.log2_spec n ltac:(lia)) as [_ Hup].
  eapply Z.lt_le_trans; [exact Hup |]. apply Z.pow_le_mono_l. lia.
Qed.

Lemma format_digits_cons f n acc : exists c s,
  format_digits (S f) n acc = String (digit_char c) s /\ 0 <= c <= 9.
Proof.
  revert n acc. induction f as [|f IH]; intros n acc.
  - simpl. pose proof (Z.mod_pos_bound n 10 ltac:(lia)).
    destruct (n <? 10); eexists _, _; (split; [reflexivity | lia]).
  - cbn [format_digits]. destruct (n <? 10).
    + pose proof (Z.mod_pos_bound n 10 ltac:(lia)).
      eexists _, _; (split; [reflexivity | lia]).
    + destruct (IH (n / 10) (String (digit_char (n mod 10)) acc)) as (c & s & H & Hc).
      cbn [format_digits] in H. rewrite H. eauto.
Qed.

Lemma parse_format_uint n : 0 <= n -> parse_uint (format_uint n) = Some n.
Proof.
  intros Hn. unfold format_uint.
  destruct (format_digits_cons (Z.to_nat (Z.log2 n)) n EmptyString) as (c & s & E & _).
  destruct (parse_format_digits (S (Z.to_nat (Z.log2 n))) n EmptyString) as [k Hk].
  { pose proof (fuel_enough n Hn). lia. }
  specialize (Hk 0). rewrite E in *. unfold parse_uint. rewrite Hk. done.
Qed.

Lemma format_uint_first n : exists c s,
  format_uint n = String (digit_char c) s /\ 0 <= c <= 9.
Proof. apply format_digits_cons. Qed.

Lemma ParseInt_FormatInt n : min_i64 <= n <= max_i64 -> ParseInt (FormatInt n) = Some n.
Proof.
  intros Hn.
  assert (Hr : (min_i64 <=? n) && (n <=? max_i64) = true)
    by (apply andb_true_intro; split; apply Z.leb_le; lia).
  unfold FormatInt. destruct (Z.ltb_spec n 0).
  - simpl. rewrite parse_format_uint by lia. by rewrite Z.opp_involutive, Hr.
  - pose proof (parse_format_uint n ltac:(lia)) as Hp.
    destruct (format_uint_first n) as (c & s & E & Hc). rewrite E in *.
    unfold ParseInt. digit_cases c; cbn -[parse_uint] in *; by rewrite Hp, Hr.
Qed.

(** ** Splitting decimal text *)

Fixpoint has_byte (x : ascii) (s : string) : bool :=
  match s with
  | EmptyString => false
  | String c s => Ascii.eqb c x || has_byte x s
  end.

Lemma has_byte_app x a b : has_byte x (a +:+ b)%string = has_byte x a || has_byte x b.
Proof.
  induction a as [| c a IH]; [done |]. change (String c a +:+ b)%string with (String c (a +:+ b)%string). simpl.
  by rewrite IH, orb_assoc.
Qed.

Lemma Split_none sep s : has_byte sep s = false -> Split sep s = [s].
Proof.
  induction s as [|c s IH]; [done |]. simpl. intros [-> H]%orb_false_elim. by rewrite IH.
Qed.

Lemma Split_first sep s t :
  has_byte sep s = false -> Split sep (s +:+ String sep t) = s :: Split sep t.
Proof.
  induction s as [|c s IH].
  - intros _. change (EmptyString +:+ String sep t)%string with (String sep t). cbn [Split].
    by rewrite Ascii.eqb_refl.
  - simpl. intros [Hc H]%orb_false_elim.
    change (String c s +:+ String sep t)%string with (String c (s +:+ String sep t)%string).
    cbn [Split]. rewrite Hc. by rewrite IH.
Qed.

(** A byte that is neither a digit nor the sign is not in a decimal text. *)
Definition not_decimal (x : ascii) : Prop :=
  (byte_of x < 48 \/ 57 < byte_of x) /\ x <> "-"%char.

Lemma format_digits_bytes x f n acc :
  byte_of x < 48 \/ 57 < byte_of x -> has_byte x acc = false ->
  has_byte x (format_digits f n acc) = false.
Proof.
  intros Hx. revert n acc. induction f as [|f IH]; intros n acc Hacc; [done |].
  assert (Hd : has_byte x (String (digit_char (n mod 10)) acc) = false).
  { simpl. rewrite Hacc, orb_false_r. apply Ascii.eqb_neq. intros <-.
    pose proof (Z.mod_pos_bound n 10 ltac:(lia)). set (d := n mod 10) in *. clearbody d.
    digit_cases d; vm_compute in Hx; destruct Hx; discriminate. }
  cbn [format_digits]. destruct (n <? 10); [done | by apply IH].
Qed.

Lemma FormatInt_bytes x n : not_decimal x -> has_byte x (FormatInt n) = false.
Proof.
  intros Hx. unfold FormatInt, format_uint.
  destruct Hx as [Hd Hm]. destruct (n <? 0); [| by apply format_digits_bytes].
  cbn [has_byte]. rewrite format_digits_bytes by done. rewrite orb_false_r.
  apply Ascii.eqb_neq. by intros <-.
Qed.

Lemma format_uint_inj n m : 0 <= n -> 0 <= m -> format_uint n = format_uint m -> n = m.
Proof. intros Hn Hm He. apply parse_format_uint in Hn, Hm. congruence. Qed.

Lemma append_app (s t u : string) : ((s +:+ t) +:+ u = s +:+ (t +:+ u))%string.
Proof.
  induction s as [|c s IH]; [done |].
  change (String c ((s +:+ t) +:+ u) = String c (s +:+ (t +:+ u)))%string. by rewrite IH.
Qed.

(** The text after the last separator. *)
Lemma Split_last sep s t :
  has_byte sep t = false -> exists x l, Split sep (s +:+ String sep t) = (x :: l) ++ [t].
Proof.
  intros Ht. induction s as [|c s (x & l & IH)].
  - change (EmptyString +:+ String sep t)%string with (String sep t). cbn [Split].
    rewrite Ascii.eqb_refl, (Split_none _ _ Ht). by exists EmptyString, [].
  - change (String c s +:+ String sep t)%string with (String c (s +:+ String sep t)%string).
    cbn [Split]. rewrite IH. destruct (Ascii.eqb c sep).
    + by exists EmptyString, (x :: l).
    + by exists (String c x), l.
Qed.
