(* ===== verification/GoUtf8.v ===== *)
(** [unicode/utf8] and the [fmt.Sscanf] verb the GraphQL lexer uses.

    A rune is a [Z].  [decode_all] cuts a byte string into the runes that
    repeated [utf8.DecodeRuneInString] calls return, each with the bytes it
    took: an invalid byte is one [RuneError]. *)

From Stdlib Require Import ZArith Lia Ascii.
From stdpp Require Import base gmap strings list numbers.
From S2P Require Import Prelude GoRt GoStrconv.

Definition RuneError : Z := 0xFFFD.

Definition byte_at (s : string) (n : nat) : option Z :=
  option_map byte_of (String.get n s).

Definition in_range (lo hi : Z) (b : option Z) : option Z :=
  match b with
  | Some b => if (lo <=? b) && (b <=? hi) then Some b else None
  | None => None
  end.

Definition cont (b : option Z) : option Z := in_range 0x80 0xBF b.

(** The second-byte range that follows a leading byte, and the length. *)
Definition lead (b0 : Z) : option (nat * Z * Z) :=
  if (0xC2 <=? b0) && (b0 <=? 0xDF) then Some (2%nat, 0x80, 0xBF)
  else if b0 =? 0xE0 then Some (3%nat, 0xA0, 0xBF)
  else if b0 =? 0xED then Some (3%nat, 0x80, 0x9F)
  else if (0xE1 <=? b0) && (b0 <=? 0xEF) then Some (3%nat, 0x80, 0xBF)
  else if b0 =? 0xF0 then Some (4%nat, 0x90, 0xBF)
  else if (0xF1 <=? b0) && (b0 <=? 0xF3) then Some (4%nat, 0x80, 0xBF)
  else if b0 =? 0xF4 then Some (4%nat, 0x80, 0x8F)
  else None.

Definition low6 (b : Z) : Z := Z.land b 0x3F.

(** [utf8.DecodeRuneInString]: rune and width. *)
Definition DecodeRune (s : string) : Z * nat :=
  match byte_at s 0 with
  | None => (RuneError, 0%nat)
  | Some b0 =>
      if b0 <? 0x80 then (b0, 1%nat)
      else
        match lead b0 with
        | None => (RuneError, 1%nat)
        | Some (n, lo, hi) =>
            match in_range lo hi (byte_at s 1) with
            | None => (RuneError, 1%nat)
            | Some b1 =>
                if (n =? 2)%nat then (Z.lor (Z.shiftl (Z.land b0 0x1F) 6) (low6 b1), 2%nat)
                else
                  match cont (byte_at s 2) with
                  | None => (RuneError, 1%nat)
                  | Some b2 =>
                      if (n =? 3)%nat
                      then (Z.lor (Z.shiftl (Z.land b0 0x0F) 12)
                              (Z.lor (Z.shiftl (low6 b1) 6) (low6 b2)), 3%nat)
                      else
                        match cont (byte_at s 3) with
                        | None => (RuneError, 1%nat)
                        | Some b3 =>
                            (Z.lor (Z.shiftl (Z.land b0 0x07) 18)
                               (Z.lor (Z.shiftl (low6 b1) 12)
                                  (Z.lor (Z.shiftl (low6 b2) 6) (low6 b3))), 4%nat)
                        end
                  end
            end
        end
  end.

Abbreviation runes := (list (Z * string)).

(** [skip] bytes belong to the rune emitted last. *)
Fixpoint decode_from (skip : nat) (s : string) : runes :=
  match s with
  | EmptyString => []
  | String _ s' =>
      match skip with
      | S k => decode_from k s'
      | O => let '(r, w) := DecodeRune s in
             (r, String.substring 0 w s) :: decode_from (w - 1) s'
      end
  end.

Definition decode_all (s : string) : runes := decode_from 0 s.

(** The bytes of a stretch of decoded source. *)
Fixpoint bytes_of (rs : runes) : string :=
  match rs with
  | [] => EmptyString
  | (_, b) :: rs => (b +:+ bytes_of rs)%string
  end.

(** [strings.Builder.WriteRune]. *)
Definition encode_rune (r : Z) : string :=
  let r := if (r <? 0) || (0x10FFFF <? r) || ((0xD800 <=? r) && (r <=? 0xDFFF))
           then RuneError else r in
  let c z := ascii_of z in
  let tail z := c (Z.lor 0x80 (low6 z)) in
  if r <=? 0x7F then String (c r) EmptyString
  else if r <=? 0x7FF
  then String (c (Z.lor 0xC0 (Z.shiftr r 6))) (String (tail r) EmptyString)
  else if r <=? 0xFFFF
  then String (c (Z.lor 0xE0 (Z.shiftr r 12)))
         (String (tail (Z.shiftr r 6)) (String (tail r) EmptyString))
  else String (c (Z.lor 0xF0 (Z.shiftr r 18)))
         (String (tail (Z.shiftr r 12))
            (String (tail (Z.shiftr r 6)) (String (tail r) EmptyString))).

(** ** [fmt.Sscanf(s, "%04x", &n)] *)

(** [fmt.isSpace]. *)
Definition fmt_space (r : Z) : bool :=
  ((9 <=? r) && (r <=? 13)) || (r =? 0x20) || (r =? 0x85) || (r =? 0xA0)
  || (r =? 0x1680) || ((0x2000 <=? r) && (r <=? 0x200A))
  || (r =? 0x2028) || (r =? 0x2029) || (r =? 0x202F) || (r =? 0x205F) || (r =? 0x3000).

(** [SkipSpace]: a newline is an error. *)
Fixpoint skip_space (rs : list Z) : option (list Z) :=
  match rs with
  | [] => Some []
  | r :: rs' =>
      if r =? 10 then None
      else if fmt_space r then skip_space rs' else Some rs
  end.

Definition hex_val (r : Z) : option Z :=
  if (48 <=? r) && (r <=? 57) then Some (r - 48)
  else if (65 <=? r) && (r <=? 70) then Some (r - 55)
  else if (97 <=? r) && (r <=? 102) then Some (r - 87)
  else None.

(** The digits accepted before the first other rune; at least one. *)
Fixpoint scan_hex (acc : option Z) (rs : list Z) : option Z :=
  match rs with
  | [] => acc
  | r :: rs =>
      match hex_val r with
      | Some d => scan_hex (Some (default 0 acc * 16 + d)) rs
      | None => acc
      end
  end.

Definition sscanf_04x (s : string) : option Z :=
  match skip_space (map fst (decode_all s)) with
  | None => None
  | Some rs =>
      match rs with
      | 43 :: rs => scan_hex None rs
      | 45 :: rs => option_map Z.opp (scan_hex None rs)
      | rs => scan_hex None rs
      end
  end.

(** ** [strings.TrimSpace] *)

Fixpoint drop_space (rs : runes) : runes :=
  match rs with
  | [] => []
  | (r, b) :: rs' => if fmt_space r then drop_space rs' else rs
  end.

Definition TrimSpace (s : string) : string :=
  bytes_of (rev (drop_space (rev (drop_space (decode_all s))))).

Lemma decode_from_nil_iff s : decode_all s = [] <-> s = EmptyString.
Proof.
  split; [| by intros ->]. destruct s as [|c s]; [done |].
  unfold decode_all. cbn [decode_from]. by destruct (DecodeRune (String c s)).
Qed.
