(* ===== verification/Breaker.v ===== *)
(** The circuit breaker of [src/resilience/breaker.go].

    [Breaker] holds the mutable fields of the Go struct next to its immutable
    [settings].  Every method that takes the mutex is a function of the clock
    reading it makes; the state changes it reports to [OnStateChange] come out
    as a list of [event]s.  [setState] releases the mutex around the callback,
    so other goroutines may run between the promotion done by [currentState]
    and the rest of [beforeRequest] or [afterRequest]: the step relation
    [bstep] interleaves these parts, and carries the generations handed to the
    calls that are still in flight. *)
  
From Stdlib Require Import ZArith Lia SpecFloat.
From stdpp Require Import base gmap strings list relations numbers.
From S2P Require Import Prelude GoRt.

Inductive State := StateClosed | StateOpen | StateHalfOpen.

#[export] Instance State_eq_dec : EqDecision State.
Proof. solve_decision. Defined.

Definition State_String (s : State) : string :=
  match s with
  | StateClosed => "closed"
  | StateOpen => "open"
  | StateHalfOpen => "half-open"
  end.

Record Counts := mkCounts {
  Requests : Z;
  TotalSuccesses : Z;
  TotalFailures : Z;
  ConsecutiveSuccess : Z;
  ConsecutiveFailures : Z;
}.

Definition Counts_onRequest (c : Counts) : Counts :=
  mkCounts (u32 (Requests c + 1)) (TotalSuccesses c) (TotalFailures c)
    (ConsecutiveSuccess c) (ConsecutiveFailures c).

Definition Counts_onSuccess (c : Counts) : Counts :=
  mkCounts (Requests c) (u32 (TotalSuccesses c + 1)) (TotalFailures c)
    (u32 (ConsecutiveSuccess c + 1)) 0.

Definition Counts_onFailure (c : Counts) : Counts :=
  mkCounts (Requests c) (TotalSuccesses c) (u32 (TotalFailures c + 1))
    0 (u32 (ConsecutiveFailures c + 1)).

Definition Counts_clear : Counts := mkCounts 0 0 0 0 0.

Definition FailureRatio (c : Counts) : float64 :=
  if Requests c =? 0 then fzero
  else fdiv (float_of_Z (TotalFailures c)) (float_of_Z (Requests c)).

(** What a caller sees of a state change: name, from, to. *)
Record event := mkEvent { ev_name : string; ev_from : State; ev_to : State }.

Section Breaker.
(** [any] is the result type of the guarded operation, [error] the non-nil
    Go errors. *)
Context {any error : Type}.

Record BreakerConfig := mkConfig {
  cfg_Name : string;
  cfg_MaxRequests : Z;
  cfg_OpenTimeout : Duration;
  cfg_MinRequests : Z;
  cfg_FailureRatio : float64;
  cfg_ConsecutiveFailures : Z;
  cfg_IsSuccessful : option (option error -> bool);
  cfg_OnStateChange : bool;  (** whether a callback is installed *)
}.

Record settings := mkSettings {
  name : string;
  maxRequests : Z;
  openTimeout : Duration;
  minRequests : Z;
  failureRatio : float64;
  consecutiveFailures : Z;
  isSuccessful : option error -> bool;
  onStateChange : bool;
}.

Record Breaker := mkBreaker {
  conf : settings;
  state : State;
  generation : Z;
  counts : Counts;
  expiry : Time;
}.

Inductive brk_error := ErrOpenCircuit | Other (e : error).

Definition set_counts (c : Counts) (b : Breaker) : Breaker :=
  mkBreaker (conf b) (state b) (generation b) c (expiry b).

Definition toNewGeneration (now : Time) (b : Breaker) : Breaker :=
  mkBreaker (conf b) (state b) (u64 (generation b + 1)) Counts_clear
    (if decide (state b = StateOpen)
     then time_Add now (openTimeout (conf b)) else zero_time).

Definition NewBreaker (cfg : BreakerConfig) (now : Time) : Breaker :=
  let maxReq := if cfg_MaxRequests cfg =? 0 then 1 else cfg_MaxRequests cfg in
  let timeout := if cfg_OpenTimeout cfg <=? 0 then 60 * Second
                 else cfg_OpenTimeout cfg in
  let consec := if feq (cfg_FailureRatio cfg) fzero
                   && (cfg_ConsecutiveFailures cfg =? 0)
                then 5 else cfg_ConsecutiveFailures cfg in
  let succ := match cfg_IsSuccessful cfg with
              | Some f => f
              | None => fun err => match err with None => true | Some _ => false end
              end in
  toNewGeneration now
    (mkBreaker
       (mkSettings (cfg_Name cfg) maxReq timeout (cfg_MinRequests cfg)
          (cfg_FailureRatio cfg) consec succ (cfg_OnStateChange cfg))
       StateClosed 0 Counts_clear zero_time).

Definition setState (to : State) (now : Time) (b : Breaker) : Breaker * list event :=
  if decide (state b = to) then (b, [])
  else
    let b' := toNewGeneration now
                (mkBreaker (conf b) to (generation b) (counts b) (expiry b)) in
    (b', if onStateChange (conf b)
         then [mkEvent (name (conf b)) (state b) to] else []).

(** [currentState] promotes an expired open circuit; its callers then read
    [state] and [generation]. *)
Definition currentState (now : Time) (b : Breaker) : Breaker * list event :=
  if bool_decide (state b = StateOpen) && negb (IsZero (expiry b))
     && negb (Before now (expiry b))
  then setState StateHalfOpen now b
  else (b, []).

Definition State_ (now : Time) (b : Breaker) : Breaker * list event * State :=
  let '(b', ev) := currentState now b in (b', ev, state b').

Definition tripped (b : Breaker) : bool :=
  let s := conf b in
  ((0 <? consecutiveFailures s)
     && (consecutiveFailures s <=? ConsecutiveFailures (counts b)))
  || (flt fzero (failureRatio s)
        && (minRequests s <=? Requests (counts b))
        && fle (failureRatio s) (FailureRatio (counts b))).

Definition onSuccess (st : State) (now : Time) (b : Breaker) : Breaker * list event :=
  let b' := set_counts (Counts_onSuccess (counts b)) b in
  if bool_decide (st = StateHalfOpen)
     && (maxRequests (conf b') <=? ConsecutiveSuccess (counts b'))
  then setState StateClosed now b'
  else (b', []).

Definition onFailure (st : State) (now : Time) (b : Breaker) : Breaker * list event :=
  let b' := set_counts (Counts_onFailure (counts b)) b in
  match st with
  | StateClosed => if tripped b' then setState StateOpen now b' else (b', [])
  | StateHalfOpen => setState StateOpen now b'
  | StateOpen => (b', [])
  end.

(** The part of [beforeRequest] after [currentState]: the generation handed
    to the call, or [ErrOpenCircuit]. *)
Definition admit_call (b : Breaker) : Breaker * result brk_error Z :=
  match state b with
  | StateOpen => (b, Err ErrOpenCircuit)
  | StateHalfOpen =>
      if maxRequests (conf b) <=? Requests (counts b)
      then (b, Err ErrOpenCircuit)
      else (set_counts (Counts_onRequest (counts b)) b, Ok (generation b))
  | StateClosed =>
      (set_counts (Counts_onRequest (counts b)) b, Ok (generation b))
  end.

Definition beforeRequest (now : Time) (b : Breaker)
  : Breaker * list event * result brk_error Z :=
  let '(b1, ev) := currentState now b in
  let '(b2, r) := admit_call b1 in (b2, ev, r).

(** The part of [afterRequest] after [currentState]. *)
Definition settle (before : Z) (success : bool) (now : Time) (b : Breaker)
  : Breaker * list event :=
  if generation b =? before
  then if success then onSuccess (state b) now b else onFailure (state b) now b
  else (b, []).

Definition afterRequest (before : Z) (success : bool) (now : Time) (b : Breaker)
  : Breaker * list event :=
  let '(b1, ev1) := currentState now b in
  let '(b2, ev2) := settle before success now b1 in (b2, ev1 ++ ev2).

(** [Execute]: [t0] and [t1] are the clock readings of [beforeRequest] and
    [afterRequest]; [fn] also gives the breaker as other goroutines leave it
    when [fn] returns. *)
Definition Execute (t0 t1 : Time) (fn : Breaker -> Breaker * outcome (option any) error)
    (b : Breaker) : Breaker * list event * outcome (option any) brk_error :=
  let '(b1, ev1, r) := beforeRequest t0 b in
  match r with
  | Err e => (b1, ev1, Return None (Some e))
  | Ok gen =>
      let '(b2, out) := fn b1 in
      match out with
      | Panic p =>
          let '(b3, ev2) := afterRequest gen false t1 b2 in
          (b3, ev1 ++ ev2, Panic (Other p))
      | Return v err =>
          let '(b3, ev2) := afterRequest gen (isSuccessful (conf b2) err) t1 b2 in
          (b3, ev1 ++ ev2, Return v (option_map Other err))
      end
  end.

(** *** Concurrent runs *)

Record sys := mkSys { brk : Breaker; inflight : list Z }.

Inductive bstep : sys -> sys -> Prop :=
| step_promote now s :
    0 <= now ->
    bstep s (mkSys (currentState now (brk s)).1 (inflight s))
| step_admit s b' gen :
    admit_call (brk s) = (b', Ok gen) ->
    bstep s (mkSys b' (gen :: inflight s))
| step_settle now success s l1 l2 gen :
    0 <= now ->
    inflight s = l1 ++ gen :: l2 ->
    bstep s (mkSys (settle gen success now (brk s)).1 (l1 ++ l2)).

(** Trials of the current generation still running. *)
Definition trials (s : sys) : Z :=
  Z.of_nat (occurs (generation (brk s)) (inflight s)).

(** *** The sequential contract

    What a caller that runs one call at a time relies on, for a breaker that
    trips on [k] consecutive failures: a three-state automaton without
    generations, counters or machine integers. *)

Inductive abstract :=
| AClosed (streak : Z)
| AOpen (until : Time)
| AHalfOpen (successes : Z).

Record call := mkCall {
  c_before : Time;  (** clock reading when the call starts *)
  c_after : Time;   (** clock reading when it ends *)
  c_out : outcome (option any) error;
}.

Definition failed (s : settings) (o : outcome (option any) error) : bool :=
  match o with
  | Return _ err => negb (isSuccessful s err)
  | Panic _ => true
  end.

(** The next abstract state, and whether the call ran. *)
Definition astep (s : settings) (c : call) (a : abstract) : abstract * bool :=
  let reopen := AOpen (c_after c + openTimeout s) in
  let probe succ :=
    if failed s (c_out c) then reopen
    else if maxRequests s <=? succ + 1 then AClosed 0
    else AHalfOpen (succ + 1) in
  match a with
  | AClosed n =>
      (if failed s (c_out c)
       then if consecutiveFailures s <=? n + 1 then reopen else AClosed (n + 1)
       else AClosed 0, true)
  | AOpen u => if c_before c <? u then (a, false) else (probe 0, true)
  | AHalfOpen n => (probe n, true)
  end.

Definition exec_call (c : call) (b : Breaker)
  : Breaker * list event * outcome (option any) brk_error :=
  Execute (c_before c) (c_after c) (fun b => (b, c_out c)) b.

(** What the caller gets: its own outcome, or the rejection. *)
Definition expected (ran : bool) (o : outcome (option any) error)
  : outcome (option any) brk_error :=
  if ran then match o with
              | Return v err => Return v (option_map Other err)
              | Panic p => Panic (Other p)
              end
  else Return None (Some ErrOpenCircuit).

Fixpoint run_calls (cs : list call) (b : Breaker)
  : Breaker * list (outcome (option any) brk_error) :=
  match cs with
  | [] => (b, [])
  | c :: cs =>
      let '(b1, _, o) := exec_call c b in
      let '(b2, os) := run_calls cs b1 in (b2, o :: os)
  end.

Fixpoint arun (s : settings) (cs : list call) (a : abstract)
  : abstract * list (outcome (option any) brk_error) :=
  match cs with
  | [] => (a, [])
  | c :: cs =>
      let '(a1, ran) := astep s c a in
      let '(a2, os) := arun s cs a1 in (a2, expected ran (c_out c) :: os)
  end.

Definition abs_rel (b : Breaker) (a : abstract) : Prop :=
  match a with
  | AClosed n =>
      state b = StateClosed /\ ConsecutiveFailures (counts b) = n
      /\ 0 <= n < consecutiveFailures (conf b)
  | AOpen u => state b = StateOpen /\ expiry b = u /\ 0 < u
  | AHalfOpen n =>
      state b = StateHalfOpen /\ Requests (counts b) = n
      /\ ConsecutiveSuccess (counts b) = n /\ 0 <= n < maxRequests (conf b)
  end.

(** ** Theorems *)

Definition conf_ok (s : settings) : Prop :=
  1 <= maxRequests s < 2 ^ 32 /\ 0 < openTimeout s.

(** What the counters say in each state; [n] bounds the steps made. *)
Definition brk_inv (n : nat) (s : sys) : Prop :=
  Z.of_nat n + 1 < 2 ^ 64 ->
  let b := brk s in
  conf_ok (conf b)
  /\ 1 <= generation b <= Z.of_nat n + 1
  /\ Forall (fun g => g <= generation b) (inflight s)
  /\ match state b with
     | StateClosed => True
     | StateOpen => occurs (generation b) (inflight s) = 0%nat
     | StateHalfOpen =>
         ConsecutiveSuccess (counts b) = TotalSuccesses (counts b)
         /\ 0 <= TotalSuccesses (counts b) < maxRequests (conf b)
         /\ Requests (counts b) = TotalSuccesses (counts b) + trials s
         /\ Requests (counts b) <= maxRequests (conf b)
     end.

Lemma NewBreaker_conf_ok (cfg : BreakerConfig) now :
  0 <= cfg_MaxRequests cfg < 2 ^ 32 -> conf_ok (conf (NewBreaker cfg now)).
Proof.
  intros H. unfold NewBreaker, conf_ok; simpl.
  destruct (Z.eqb_spec (cfg_MaxRequests cfg) 0);
    destruct (Z.leb_spec (cfg_OpenTimeout cfg) 0); unfold Second; lia.
Qed.

Lemma brk_inv_init (cfg : BreakerConfig) now :
  0 <= cfg_MaxRequests cfg < 2 ^ 32 ->
  brk_inv 0 (mkSys (NewBreaker cfg now) []).
Proof.
  intros H _. split; [exact (NewBreaker_conf_ok cfg now H) |].
  change (generation _) with 1. change (state _) with StateClosed.
  repeat split; try lia. by constructor.
Qed.

(** Opening a generation: its number is above every number handed out. *)
Lemma new_generation (g n : Z) (l : list Z) :
  1 <= g <= n + 1 -> n + 1 + 1 < 2 ^ 64 -> Forall (fun x => x <= g) l ->
  u64 (g + 1) = g + 1 /\ occurs (g + 1) l = 0%nat
  /\ Forall (fun x => x <= g + 1) l.
Proof.
  intros Hg Hn Hl. split; [apply u64_small; lia |]. split.
  - apply occurs_zero. eapply Forall_impl; [| exact Hl]. simpl; lia.
  - eapply Forall_impl; [| exact Hl]. simpl; lia.
Qed.

Lemma setState_inv n to now b l :
  to <> state b -> conf_ok (conf b) -> 1 <= generation b <= Z.of_nat n + 1 ->
  Forall (fun g => g <= generation b) l ->
  brk_inv (S n) (mkSys (setState to now b).1 l).
Proof.
  intros Hne Hc Hg Hl Hn.
  destruct (new_generation _ _ _ Hg ltac:(lia) Hl) as (Hu & Hocc & Hle).
  unfold setState. case_decide as E; [congruence |]. simpl.
  rewrite Hu. split; [done |]. split; [lia |]. split; [done |].
  destruct to; simpl; [done | exact Hocc |].
  destruct Hc. unfold trials; simpl. rewrite Hu, Hocc. lia.
Qed.

Lemma setState_to to now b :
  to <> state b ->
  (setState to now b).1
  = mkBreaker (conf b) to (u64 (generation b + 1)) Counts_clear
      (if decide (to = StateOpen) then now + openTimeout (conf b) else zero_time).
Proof. intros H. unfold setState. by rewrite decide_False by congruence. Qed.

Lemma currentState_cases now b :
  currentState now b = (b, [])
  \/ (state b = StateOpen /\ currentState now b = setState StateHalfOpen now b).
Proof.
  unfold currentState. destruct (bool_decide (state b = StateOpen)) eqn:E; [|by left].
  apply bool_decide_eq_true in E. simpl. case_match; auto.
Qed.

Lemma brk_inv_same n s : brk_inv n s -> brk_inv (S n) s.
Proof.
  intros H Hn. destruct H as (? & ? & ? & ?); [lia |].
  split; [done |]. split; [lia |]. by split.
Qed.

Lemma admit_inv n s b' gen :
  admit_call (brk s) = (b', Ok gen) -> brk_inv n s ->
  brk_inv (S n) (mkSys b' (gen :: inflight s)).
Proof.
  intros Ha H Hn. destruct H as (Hc & Hg & Hl & Hst); [lia |].
  unfold admit_call in Ha.
  destruct (state (brk s)) eqn:Es; simplify_eq; [| case_match; simplify_eq];
    (split; [done |]; split; [simpl; lia |];
     split; [by constructor; [simpl; lia | done] |]).
  - simpl. by rewrite Es.
  - simpl. rewrite Es. to_prop. destruct Hst as (Hcs & Hts & Hr & Hle).
    destruct Hc. unfold trials in *; simpl in *.
    rewrite occurs_cons_eq, u32_small by lia. lia.
Qed.

Lemma occurs_remove (x : Z) l1 l2 :
  occurs x (l1 ++ x :: l2) = S (occurs x (l1 ++ l2)).
Proof. autorewrite with lago_rw. lia. Qed.

Lemma occurs_remove_ne (x y : Z) l1 l2 :
  x <> y -> occurs x (l1 ++ y :: l2) = occurs x (l1 ++ l2).
Proof. intros. by rewrite !occurs_app, occurs_cons_ne by done. Qed.

Lemma settle_inv n success now s l1 l2 gen :
  inflight s = l1 ++ gen :: l2 -> brk_inv n s ->
  brk_inv (S n) (mkSys (settle gen success now (brk s)).1 (l1 ++ l2)).
Proof.
  intros Hin H Hn. destruct H as (Hc & Hg & Hl & Hst); [lia |].
  rewrite Hin in Hl. apply Forall_app in Hl as [Hl1 [Hgen Hl2]%Forall_cons_1].
  assert (Hl' : Forall (fun g => g <= generation (brk s)) (l1 ++ l2))
    by by apply Forall_app.
  unfold settle. destruct (Z.eqb_spec (generation (brk s)) gen) as [E|E].
  2: { split; [done |]. split; [simpl; lia |]. split; [done |]. simpl.
       destruct (state (brk s)); [done | |].
       - by rewrite Hin, occurs_remove_ne in Hst by done.
       - unfold trials in *; simpl. by rewrite Hin, occurs_remove_ne in Hst by done. }
  subst gen. unfold trials in Hst. rewrite Hin, occurs_remove in Hst.
  assert (Hset : forall to c', to <> state (brk s) ->
    brk_inv (S n) (mkSys (setState to now (set_counts c' (brk s))).1 (l1 ++ l2)))
    by (intros; by apply setState_inv).
  destruct success; unfold onSuccess, onFailure.
  - destruct (bool_decide _ && _) eqn:E.
    + to_prop. apply Hset; [congruence | lia].
    + split; [done |]. split; [simpl; lia |]. split; [done |]. simpl.
      destruct (state (brk s)) eqn:Es; [done | lia |].
      simpl in E. to_prop. unfold trials; simpl.
      destruct Hst as (Hcs & Hts & Hr & Hle). destruct Hc.
      rewrite Hcs in *. rewrite !u32_small in * by lia. lia.
  - destruct (state (brk s)) eqn:Es.
    + case_match; [apply Hset; [congruence | lia] |].
      split; [done |]. split; [simpl; lia |]. split; [done |].
      simpl. by rewrite Es.
    + lia.
    + apply Hset; [congruence | lia].
Qed.

Lemma bstep_inv n s s' : brk_inv n s -> bstep s s' -> brk_inv (S n) s'.
Proof.
  intros H Hs. destruct Hs as [now s ? | s b' gen Ha | now success s l1 l2 gen ? Hin].
  - destruct (currentState_cases now (brk s)) as [-> | (Eo & ->)].
    + destruct s. by apply brk_inv_same.
    + intros Hn. destruct H as (Hc & Hg & Hl & _); [lia |].
      revert Hn. apply setState_inv; try done. congruence.
  - by eapply admit_inv.
  - by eapply settle_inv.
Qed.

Definition reachable (cfg : BreakerConfig) (t0 : Time) (n : nat) (s : sys) : Prop :=
  nsteps bstep n (mkSys (NewBreaker cfg t0) []) s.

Lemma reachable_inv cfg t0 n s :
  0 <= cfg_MaxRequests cfg < 2 ^ 32 -> reachable cfg t0 n s -> brk_inv n s.
Proof.
  intros Hm. apply (nsteps_invariant bstep brk_inv); [by apply brk_inv_init |].
  intros; by eapply bstep_inv.
Qed.

(** C1: with any interleaving of calls, a half-open breaker never has more
    than [maxRequests] trial calls: the trials still running plus the ones
    that succeeded are exactly the requests it counted, and none of the
    counters wraps.  (Runs of fewer than [2^64 - 1] steps, so that the
    generation number does not wrap either.) *)
Theorem halfopen_trial_bound (cfg : BreakerConfig) (t0 : Time) (n : nat) (s : sys) :
  0 <= cfg_MaxRequests cfg < 2 ^ 32 ->
  Z.of_nat n + 1 < 2 ^ 64 ->
  reachable cfg t0 n s ->
  state (brk s) = StateHalfOpen ->
  trials s + TotalSuccesses (counts (brk s)) = Requests (counts (brk s))
  /\ Requests (counts (brk s)) <= maxRequests (conf (brk s)).
Proof.
  intros Hm Hn Hr Hst.
  destruct (reachable_inv cfg t0 n s Hm Hr Hn) as (_ & _ & _ & H).
  rewrite Hst in H. lia.
Qed.

(** A half-open breaker never wedges: when no trial of the current
    generation is running, the next call is admitted, whatever happened
    before. *)
Theorem halfopen_admits_when_idle (cfg : BreakerConfig) (t0 : Time) (n : nat) (s : sys) :
  0 <= cfg_MaxRequests cfg < 2 ^ 32 ->
  Z.of_nat n + 1 < 2 ^ 64 ->
  reachable cfg t0 n s ->
  state (brk s) = StateHalfOpen ->
  trials s = 0 ->
  admit_call (brk s)
  = (set_counts (Counts_onRequest (counts (brk s))) (brk s), Ok (generation (brk s))).
Proof.
  intros Hm Hn Hr Hst Hidle.
  destruct (reachable_inv cfg t0 n s Hm Hr Hn) as (_ & _ & _ & H).
  rewrite Hst in H. unfold admit_call. rewrite Hst.
  by destruct (Z.leb_spec (maxRequests (conf (brk s))) (Requests (counts (brk s)))); [lia |].
Qed.

Lemma open_rejects_until b t0 t1 fn :
  state b = StateOpen -> 0 < expiry b -> t0 < expiry b ->
  Execute t0 t1 fn b = (b, [], Return None (Some ErrOpenCircuit)).
Proof.
  intros Hst He Hlt. unfold Execute, beforeRequest, currentState, Before, IsZero.
  rewrite Hst. simpl. rewrite (proj2 (Z.eqb_neq (expiry b) 0)) by lia.
  rewrite (proj2 (Z.ltb_lt t0 (expiry b))) by done. simpl.
  unfold admit_call. by rewrite Hst.
Qed.

(** An open breaker rejects every call that starts before its expiry,
    with [ErrOpenCircuit], without running the operation and without
    changing state; the first call at or after the expiry finds it half-open
    with fresh counters and is admitted as a trial. *)
Theorem open_rejects_until_expiry (b : Breaker) (t0 t1 : Time) fn :
  conf_ok (conf b) -> state b = StateOpen -> 0 < expiry b ->
  if t0 <? expiry b
  then Execute t0 t1 fn b = (b, [], Return None (Some ErrOpenCircuit))
  else exists ev,
    beforeRequest t0 b
    = (mkBreaker (conf b) StateHalfOpen (u64 (generation b + 1))
         (mkCounts 1 0 0 0 0) zero_time, ev, Ok (u64 (generation b + 1))).
Proof.
  intros [Hm _] Hst He.
  destruct (Z.ltb_spec t0 (expiry b)) as [Hlt|Hge]; [by apply open_rejects_until |].
  unfold beforeRequest, currentState, Before, IsZero.
  rewrite Hst. simpl. rewrite (proj2 (Z.eqb_neq (expiry b) 0)) by lia.
  rewrite (proj2 (Z.ltb_ge t0 (expiry b))) by done. simpl. unfold setState.
  rewrite Hst. simpl. unfold admit_call. simpl.
  destruct (Z.leb_spec (maxRequests (conf b)) 0); [lia |]. eauto.
Qed.

Definition legal (from to : State) : Prop :=
  from = to
  \/ match from, to with
     | StateClosed, StateOpen | StateOpen, StateHalfOpen
     | StateHalfOpen, StateOpen | StateHalfOpen, StateClosed => True
     | _, _ => False
     end.

(** Every step of a concurrent run keeps the state and the generation,
    or is one of the four documented transitions and starts a fresh
    generation with cleared counters, the expiry set exactly when the circuit
    opens. *)
Theorem breaker_transitions_legal (s s' : sys) :
  bstep s s' ->
  (state (brk s') = state (brk s) /\ generation (brk s') = generation (brk s))
  \/ (legal (state (brk s)) (state (brk s'))
      /\ generation (brk s') = u64 (generation (brk s) + 1)
      /\ counts (brk s') = Counts_clear
      /\ (state (brk s') <> StateOpen -> expiry (brk s') = zero_time)).
Proof.
  intros Hs. destruct Hs as [now s ? | s b' gen Ha | now success s l1 l2 gen ? Hin]; simpl.
  - destruct (currentState_cases now (brk s)) as [-> | (Eo & ->)]; [by left | right].
    rewrite setState_to by congruence. simpl. rewrite Eo. unfold legal; naive_solver.
  - left. unfold admit_call in Ha. case_all.
  - unfold settle. case_match; [| by left].
    destruct success; unfold onSuccess, onFailure.
    + destruct (bool_decide _ && _) eqn:E; [| by left].
      apply andb_prop in E as [E _]. apply bool_decide_eq_true in E. right.
      rewrite setState_to by (simpl; congruence). simpl. rewrite E. unfold legal; naive_solver.
    + destruct (state (brk s)) eqn:Es; [| by left |].
      * destruct (tripped _); [right | by left].
        rewrite setState_to by (simpl; congruence). simpl. unfold legal; naive_solver.
      * right. rewrite setState_to by (simpl; congruence). simpl. unfold legal; naive_solver.
Qed.

(** *** Refinement of the sequential contract *)

Definition consecutive_only (s : settings) : Prop :=
  feq (failureRatio s) fzero = true /\ 1 <= consecutiveFailures s < 2 ^ 32.

Lemma tripped_consecutive b :
  consecutive_only (conf b) ->
  tripped b = (consecutiveFailures (conf b) <=? ConsecutiveFailures (counts b)).
Proof.
  intros [Hf Hk]. unfold tripped.
  assert (flt fzero (failureRatio (conf b)) = false) as ->.
  { unfold feq, SFeqb in Hf. by destruct (failureRatio (conf b)) as [[]|[]| |[]]. }
  simpl. rewrite orb_false_r. by destruct (Z.ltb_spec 0 (consecutiveFailures (conf b))); [| lia].
Qed.

Lemma currentState_not_open now b :
  state b <> StateOpen -> currentState now b = (b, []).
Proof. intros H. unfold currentState. by rewrite bool_decide_eq_false_2. Qed.

(** A call that is admitted in a state that is not open runs, and its
    outcome is settled in the generation it was admitted in. *)
Lemma exec_admitted c b b1 :
  state b <> StateOpen -> admit_call b = (b1, Ok (generation b)) ->
  conf b1 = conf b -> state b1 = state b -> generation b1 = generation b ->
  exists ev,
    exec_call c b
    = ((if failed (conf b) (c_out c) then onFailure (state b) (c_after c) b1
        else onSuccess (state b) (c_after c) b1).1, ev, expected true (c_out c)).
Proof.
  intros Hst Ha Hc Hs Hg. unfold exec_call, Execute, beforeRequest.
  rewrite currentState_not_open, Ha by done. simpl.
  unfold afterRequest, settle. rewrite currentState_not_open by congruence.
  rewrite Hg, Z.eqb_refl, Hs, Hc.
  destruct (c_out c) as [v e|p]; simpl.
  - destruct (isSuccessful (conf b) e); simpl;
      [destruct (onSuccess _ _ b1) | destruct (onFailure _ _ b1)]; eauto.
  - destruct (onFailure _ _ b1); eauto.
Qed.
Definition settled (st : State) (c : call) (b : Breaker) : Breaker :=
  (if failed (conf b) (c_out c) then onFailure st (c_after c) b
   else onSuccess st (c_after c) b).1.

Lemma settled_conf st c b : conf (settled st c b) = conf b.
Proof.
  unfold settled, onFailure, onSuccess, setState.
  destruct (failed _ _); [destruct st | ]; repeat case_match; simplify_eq/=; done.
Qed.

Lemma settled_closed c b n :
  consecutive_only (conf b) -> 0 < openTimeout (conf b) -> 0 <= c_after c ->
  state b = StateClosed -> ConsecutiveFailures (counts b) = n ->
  0 <= n < consecutiveFailures (conf b) ->
  abs_rel (settled StateClosed c b) (astep (conf b) c (AClosed n)).1.
Proof.
  intros Hco Ht Hc Hs Hn Hb. pose proof Hco as [_ Hk]. unfold settled. simpl.
  destruct (failed _ _); simpl.
  - rewrite tripped_consecutive by done. simpl. rewrite Hn, u32_small by lia.
    destruct (Z.leb_spec (consecutiveFailures (conf b)) (n + 1)).
    + rewrite setState_to by (simpl; congruence). simpl. split; [done |]. split; [done | lia].
    + simpl. rewrite Hn, u32_small by lia. split; [done |]. split; [done | lia].
  - unfold onSuccess. simpl. split; [done |]. split; [done | lia].
Qed.

Lemma settled_half c b n :
  conf_ok (conf b) -> 1 <= consecutiveFailures (conf b) -> 0 <= c_after c ->
  state b = StateHalfOpen -> ConsecutiveSuccess (counts b) = n ->
  Requests (counts b) = n + 1 -> 0 <= n < maxRequests (conf b) ->
  abs_rel (settled StateHalfOpen c b) (astep (conf b) c (AHalfOpen n)).1.
Proof.
  intros [Hm Ht] Hk Hc Hs Hn Hr Hb. unfold settled. simpl.
  destruct (failed _ _); simpl.
  - rewrite setState_to by (simpl; congruence). simpl. split; [done |]. split; [done | lia].
  - unfold onSuccess. simpl. rewrite Hn, u32_small by lia.
    destruct (Z.leb_spec (maxRequests (conf b)) (n + 1)).
    + rewrite setState_to by (simpl; congruence). simpl. split; [done |]. split; [done | lia].
    + simpl. rewrite Hn, u32_small by lia.
      split; [done |]. split; [done |]. split; [done | lia].
Qed.
(** One call refines one step of the contract. *)
Definition refines (c : call) (b : Breaker) (a : abstract) : Prop :=
  let r := exec_call c b in
  let '(a', ran) := astep (conf b) c a in
  abs_rel r.1.1 a' /\ r.2 = expected ran (c_out c) /\ conf r.1.1 = conf b.

Lemma exec_admitted_refines c b b1 a :
  state b <> StateOpen -> admit_call b = (b1, Ok (generation b)) ->
  conf b1 = conf b -> state b1 = state b -> generation b1 = generation b ->
  (astep (conf b) c a).2 = true ->
  abs_rel (settled (state b) c b1) (astep (conf b) c a).1 ->
  refines c b a.
Proof.
  intros Hst Ha Hc Hs Hg Hran Hrel. unfold refines.
  destruct (exec_admitted c b b1) as [ev ->]; try done.
  destruct (astep (conf b) c a) as [a' ran]. simpl in *. subst ran.
  pose proof (settled_conf (state b) c b1) as Hsc.
  unfold settled in Hrel, Hsc. rewrite Hc in Hrel, Hsc. by rewrite Hsc.
Qed.

Lemma exec_closed_refines c b n :
  conf_ok (conf b) -> consecutive_only (conf b) -> 0 <= c_after c ->
  abs_rel b (AClosed n) -> refines c b (AClosed n).
Proof.
  intros [Hm Ht] Hco Hc (Hs & Hn & Hb).
  apply exec_admitted_refines with (set_counts (Counts_onRequest (counts b)) b);
    rewrite ?Hs; try done.
  - unfold admit_call. by rewrite Hs.
  - by apply (settled_closed c (set_counts _ b)).
Qed.

Lemma exec_half_refines c b n :
  conf_ok (conf b) -> consecutive_only (conf b) -> 0 <= c_after c ->
  abs_rel b (AHalfOpen n) -> refines c b (AHalfOpen n).
Proof.
  intros Hok [_ Hk] Hc (Hs & Hr & Hn & Hb). pose proof Hok as [Hm Ht].
  apply exec_admitted_refines with (set_counts (Counts_onRequest (counts b)) b);
    rewrite ?Hs; try done.
  - unfold admit_call. rewrite Hs.
    by destruct (Z.leb_spec (maxRequests (conf b)) (Requests (counts b))); [lia |].
  - apply (settled_half c (set_counts _ b)); simpl; try done; [lia |].
    by rewrite Hr, u32_small by lia.
Qed.

Lemma exec_promoted c b b0 ev :
  currentState (c_before c) b = (b0, ev) -> state b0 <> StateOpen ->
  (exec_call c b).1.1 = (exec_call c b0).1.1 /\ (exec_call c b).2 = (exec_call c b0).2.
Proof.
  intros Hcur Hst. unfold exec_call, Execute, beforeRequest.
  rewrite Hcur, currentState_not_open by done.
  destruct (admit_call b0) as [b1 [gen|e]]; [| done].
  destruct (c_out c); destruct (afterRequest _ _ _ b1); done.
Qed.

Lemma exec_open_refines c b u :
  conf_ok (conf b) -> consecutive_only (conf b) -> 0 <= c_after c ->
  abs_rel b (AOpen u) -> refines c b (AOpen u).
Proof.
  intros Hok Hco Hc (Hs & He & Hu). pose proof Hok as [Hm Ht].
  unfold refines. simpl.
  destruct (Z.ltb_spec (c_before c) u) as [Hlt|Hge].
  - pose proof (open_rejects_until b (c_before c) (c_after c)
      (fun b => (b, c_out c)) ltac:(done) ltac:(lia)) as Hrej.
    unfold exec_call. rewrite Hrej; [done | lia].
  - destruct (exec_promoted c b (setState StateHalfOpen (c_before c) b).1
                (setState StateHalfOpen (c_before c) b).2) as [-> ->].
    { unfold currentState, IsZero, Before. rewrite bool_decide_eq_true_2 by done.
      rewrite (proj2 (Z.eqb_neq (expiry b) 0)) by lia. rewrite He.
      rewrite (proj2 (Z.ltb_ge (c_before c) u)) by lia. simpl.
      by destruct (setState _ _ b). }
    { by rewrite setState_to by congruence. }
    rewrite setState_to by congruence. simpl.
    apply (exec_half_refines c (mkBreaker _ _ _ _ _) 0); try done.
    unfold abs_rel; simpl. split_and!; done || lia.
Qed.

(** C2: on sequential calls, a breaker configured with a
    consecutive-failures threshold refines the three-state automaton: it
    returns exactly the outcomes the automaton predicts (its own result, or
    [ErrOpenCircuit] without running the call), and opens exactly on the
    [k]-th failure in a row, until the time of that failure plus the open
    timeout. *)
Theorem breaker_refines_contract (cs : list call) (b : Breaker) (a : abstract) :
  conf_ok (conf b) -> consecutive_only (conf b) ->
  Forall (fun c => 0 <= c_after c) cs ->
  abs_rel b a ->
  abs_rel (run_calls cs b).1 (arun (conf b) cs a).1
  /\ (run_calls cs b).2 = (arun (conf b) cs a).2.
Proof.
  intros Hok Hco Hcs. revert b a Hok Hco. induction Hcs as [|c cs Hc _ IH].
  { by intros. }
  intros b a Hok Hco Hrel.
  assert (Href : refines c b a).
  { destruct a; [by apply exec_closed_refines | by apply exec_open_refines |
                 by apply exec_half_refines]. }
  unfold refines in Href. simpl.
  destruct (exec_call c b) as [[b1 ev] o], (astep (conf b) c a) as [a1 ran].
  simpl in Href. destruct Href as (Hrel1 & -> & Hc1).
  rewrite <- Hc1 in Hok, Hco. specialize (IH b1 a1 Hok Hco Hrel1) as [IH1 IH2].
  rewrite Hc1 in IH1, IH2.
  destruct (run_calls cs b1), (arun (conf b) cs a1). simpl in *. by subst.
Qed.
End Breaker.

(** ** Witnesses *)

Section Witnesses.
Definition wcfg : @BreakerConfig nat := mkConfig "db" 2 1000 0 fzero 2 None true.

Definition wcalls : list (@call nat nat) :=
  [mkCall 1 2 (Return None (Some 7%nat)); mkCall 3 4 (Panic 9%nat);
   mkCall 5 6 (Return None None); mkCall 1004 1005 (Return None None)].

(** Two failures open the circuit. *)
Definition wopen : @Breaker nat := (run_calls (take 2 wcalls) (NewBreaker wcfg 1)).1.

(** Two admitted calls fail, the circuit opens, expires, and a trial runs. *)
Definition whalf_idle : @sys nat := mkSys (currentState 1005 wopen).1 [].
Definition whalf : @sys nat :=
  mkSys (admit_call (currentState 1005 wopen).1).1 [3].

Ltac step_admit_now := eapply nsteps_l; [by eapply step_admit |].
Ltac step_fail t l1 :=
  eapply nsteps_l; [by eapply (step_settle t false _ l1 []) |].

Lemma whalf_idle_run : reachable wcfg 1 5 whalf_idle.
Proof.
  do 2 step_admit_now. step_fail 3 [1]. step_fail 4 (@nil Z).
  eapply nsteps_l; [by eapply (step_promote 1005) |]. constructor.
Qed.

Lemma whalf_run : reachable wcfg 1 6 whalf.
Proof.
  eapply nsteps_r; [apply whalf_idle_run |]. by eapply step_admit.
Qed.

Lemma halfopen_trial_bound_witness :
  trials whalf + TotalSuccesses (counts (brk whalf)) = Requests (counts (brk whalf))
  /\ Requests (counts (brk whalf)) <= maxRequests (conf (brk whalf)).
Proof.
  apply (halfopen_trial_bound wcfg 1 6 whalf);
    [by vm_compute | by vm_compute | apply whalf_run | reflexivity].
Defined.

Lemma halfopen_admits_when_idle_witness :
  admit_call (brk whalf_idle)
  = (set_counts (Counts_onRequest (counts (brk whalf_idle))) (brk whalf_idle), Ok 3).
Proof.
  apply (halfopen_admits_when_idle wcfg 1 5 whalf_idle);
    [by vm_compute | by vm_compute | apply whalf_idle_run | reflexivity | reflexivity].
Defined.

Lemma open_rejects_until_expiry_witness :
  exists ev,
    beforeRequest 1004 wopen
    = (mkBreaker (conf wopen) StateHalfOpen 3 (mkCounts 1 0 0 0 0) 0, ev, Ok 3).
Proof.
  apply (open_rejects_until_expiry (any := nat) wopen 1004 1005
           (fun b => (b, Return None None)));
    [by vm_compute | reflexivity | reflexivity].
Defined.

Lemma breaker_transitions_legal_witness :
  state (brk whalf_idle) <> state wopen
  /\ generation (brk whalf_idle) = u64 (generation wopen + 1).
Proof.
  destruct (breaker_transitions_legal (mkSys wopen []) whalf_idle) as [[H _]|(_ & H & _)];
    [by apply step_promote | discriminate H | split; [discriminate | exact H]].
Defined.

Lemma breaker_refines_contract_witness :
  (run_calls wcalls (NewBreaker wcfg 1)).2
  = [Return None (Some (Other 7%nat)); Panic (Other 9%nat);
     Return None (Some ErrOpenCircuit); Return None None].
Proof.
  apply (breaker_refines_contract wcalls (NewBreaker wcfg 1) (AClosed 0));
    [by vm_compute | by vm_compute | repeat constructor; by vm_compute
    | by vm_compute].
Defined.
End Witnesses.
