(* ===== verification/Retry.v ===== *)
(** Retries and composition: [src/resilience/retry.go], [timeout.go] and
    [resilience.go].

    A call of the guarded operation, the reads of [ctx.Err()] and the [select]
    that waits for a backoff are environment choices; they come in as functions
    of the attempt number ([retry_env]).  [Retry_Execute] also gives the
    attempts it made and the waits it asked for, so that the theorems can say
    how often the operation runs. *)

From Stdlib Require Import ZArith Lia SpecFloat.
From stdpp Require Import base gmap strings list numbers.
From S2P Require Import Prelude GoRt GoFloat.

(** ** Backoff *)

Definition Backoff : Type := Z -> Duration.

Definition ConstantBackoff (delay : Duration) : Backoff := fun _ => delay.

Section Exponential.
(** What the platform's [int64] conversion gives out of range. *)
Context (undef : float64 -> Z).

Definition to_Duration (x : float64) : Duration := int64_of_float undef x.

(** [k] rounds of the multiplication loop; [inr] is an early [return]. *)
Fixpoint exp_loop (k : nat) (factor : float64) (max : Duration) (d : float64)
  : float64 + Duration :=
  match k with
  | O => inl d
  | S k =>
      let d := fmul d factor in
      if (0 <? max) && fle (float_of_Z max) d then inr max
      else if fle (float_of_Z (2 ^ 62)) d
           then if 0 <? max then inr max else inr (2 ^ 62)
           else exp_loop k factor max d
  end.

Definition ExponentialBackoff (base : Duration) (factor : float64) (max : Duration)
  : Backoff :=
  let factor := if fle factor fzero then float_of_Z 2 else factor in
  fun attempt =>
    let attempt := if attempt <? 1 then 1 else attempt in
    match exp_loop (Z.to_nat (attempt - 1)) factor max (float_of_Z base) with
    | inr d => d
    | inl d =>
        let out := to_Duration d in
        if (0 <? max) && (max <? out) then max else out
    end.

(** The generator behind [NewLCGJitter]. *)
Definition lcg_mul : Z := 6364136223846793005.
Definition lcg_inc : Z := 1442695040888963407.

Definition NewLCGJitter (seed : Z) : Z :=
  if seed =? 0 then 0x9e3779b97f4a7c15 else seed.

Definition lcg_Float64 (state : Z) : Z * float64 :=
  let state := u64 (state * lcg_mul + lcg_inc) in
  (state, fdiv (float_of_Z (Z.shiftr state 11)) (float_of_Z (2 ^ 53))).

(** [ExponentialJitterBackoff] with the LCG source: the wait and the source's
    next state. *)
Definition ExponentialJitterBackoff (base : Duration) (factor : float64)
    (max : Duration) (attempt : Z) (state : Z) : Z * Duration :=
  let ceil := ExponentialBackoff base factor max attempt in
  if ceil <=? 0 then (state, 0)
  else let '(state, f) := lcg_Float64 state in
       (state, to_Duration (fmul f (float_of_Z ceil))).

End Exponential.

(** ** Retry *)

Section Retry.
Context {any error : Type}.

Record RetryConfig := mkRetryConfig {
  cfg_MaxAttempts : Z;
  cfg_Backoff : option Backoff;
  cfg_RetryIf : option (error -> bool);
}.

Record Retry := mkRetry {
  maxAttempts : Z;
  backoff : Backoff;
  retryIf : error -> bool;
}.

Definition NewRetry (cfg : RetryConfig) : Retry :=
  mkRetry
    (if cfg_MaxAttempts cfg <? 1 then 3 else cfg_MaxAttempts cfg)
    (default (ConstantBackoff (100 * Millisecond)) (cfg_Backoff cfg))
    (default (fun _ => true) (cfg_RetryIf cfg)).

(** The environment of one [Execute]: the result of each call, [ctx.Err()]
    before each attempt, what ends the wait after an attempt ([Some e]: the
    context, with error [e]; [None]: the timer), and [ctx.Err()] when there is
    nothing to wait for. *)
Record retry_env := mkEnv {
  call_fn : Z -> outcome (option any) error;
  ctx_Err : Z -> option error;
  select_wait : Z -> Duration -> option error;
  ctx_Err_after : Z -> option error;
}.

(** What one run did: its result, the attempts made, the waits started. *)
Record retry_run := mkRun {
  rr_out : outcome (option any) error;
  rr_calls : list Z;
  rr_waits : list Duration;
}.

Definition add_call (a : Z) (r : retry_run) : retry_run :=
  mkRun (rr_out r) (a :: rr_calls r) (rr_waits r).
Definition add_wait (d : Duration) (r : retry_run) : retry_run :=
  mkRun (rr_out r) (rr_calls r) (d :: rr_waits r).

(** The loop at [attempt] with [k] attempts left. *)
Fixpoint retry_loop (r : Retry) (env : retry_env) (k : nat) (attempt : Z)
    (result : option any) (err : option error) : retry_run :=
  match k with
  | O => mkRun (Return result err) [] []
  | S k =>
      match ctx_Err env attempt with
      | Some cerr => mkRun (Return result (Some cerr)) [] []
      | None =>
          add_call attempt
            match call_fn env attempt with
            | Panic p => mkRun (Panic p) [] []
            | Return result None => mkRun (Return result None) [] []
            | Return result (Some e) =>
                if negb (retryIf r e) then mkRun (Return result (Some e)) [] []
                else if attempt =? maxAttempts r
                then mkRun (Return result (Some e)) [] []
                else
                  let d := backoff r attempt in
                  if 0 <? d
                  then add_wait d
                         match select_wait env attempt d with
                         | Some cerr => mkRun (Return result (Some cerr)) [] []
                         | None => retry_loop r env k (attempt + 1) result (Some e)
                         end
                  else match ctx_Err_after env attempt with
                       | Some cerr => mkRun (Return result (Some cerr)) [] []
                       | None => retry_loop r env k (attempt + 1) result (Some e)
                       end
            end
      end
  end.

Definition Retry_Execute (r : Retry) (env : retry_env) : retry_run :=
  retry_loop r env (Z.to_nat (maxAttempts r)) 1 None None.

(** *** Specification *)

(** A call that ends the loop whatever its number. *)
Definition final (r : Retry) (o : outcome (option any) error) : bool :=
  match o with
  | Panic _ | Return _ None => true
  | Return _ (Some e) => negb (retryIf r e)
  end.

(** The attempt the loop stops at: the first final one, or the last. *)
Fixpoint last_attempt (r : Retry) (env : retry_env) (k : nat) (attempt : Z) : Z :=
  match k with
  | O => attempt
  | S k => if final r (call_fn env attempt) || (k =? 0)%nat then attempt
           else last_attempt r env k (attempt + 1)
  end.

(** The context stays alive through attempt [n]. *)
Definition alive (env : retry_env) (n : Z) : Prop :=
  forall a d, 1 <= a <= n ->
    ctx_Err env a = None
    /\ (a < n -> select_wait env a d = None /\ ctx_Err_after env a = None).

Definition waits (r : Retry) (n : Z) : list Duration :=
  filter (fun d => 0 < d) (map (backoff r) (seqZ 1 (n - 1))).

End Retry.

(** ** Composition ([resilience.go]) *)

Section Compose.
Context {ctx any error : Type}.

Definition Operation : Type := ctx -> outcome (option any) error.
Definition Middleware : Type := Operation -> Operation.

(** The loop of [Wrap] runs over the slice from its last element. *)
Definition Wrap (mws : list Middleware) : Middleware :=
  fun op => fold_left (fun op mw => mw op) (rev mws) op.

(** [Do]: [inject] is the conversion to [any] ([None] for a nil value), [cast]
    the type assertion to [T], [zero] its zero value. *)
Definition Do {T : Type} (zero : T) (inject : T -> option any) (cast : any -> option T)
    (c : ctx) (mw : option Middleware) (fn : ctx -> outcome T error)
    : outcome T error :=
  let op : Operation := fun c => match fn c with
                     | Return v e => Return (inject v) e
                     | Panic p => Panic p
                     end in
  let op := match mw with Some f => f op | None => op end in
  match op c with
  | Panic p => Panic p
  | Return None e => Return zero e
  | Return (Some v) e =>
      match cast v with
      | Some t => Return t e
      | None => Return zero e
      end
  end.

End Compose.

(** ** Timeout ([timeout.go]) *)

Section Timeout.
Context {any : Type}.

Inductive ctx_error := Canceled | DeadlineExceeded.
Inductive timeout_error (E : Type) := ErrTimeout | CtxErr (e : ctx_error) | FnErr (e : E).
Arguments ErrTimeout {E}.
Arguments CtxErr {E} e.
Arguments FnErr {E} e.

(** What the [select] sees first: the result of [fn], or the derived context
    done, with the errors of the derived and of the parent context. *)
Inductive race (E : Type) :=
| FnDone (v : option any) (err : option E)
| CtxDone (call_err : ctx_error) (parent_err : option ctx_error).
Arguments FnDone {E} v err.
Arguments CtxDone {E} call_err parent_err.

Definition Timeout_Execute {E} (duration : Duration)
    (direct : outcome (option any) E) (r : race E)
    : outcome (option any) (timeout_error E) :=
  if duration <=? 0
  then match direct with
       | Return v err => Return v (option_map FnErr err)
       | Panic p => Panic (FnErr p)
       end
  else match r with
       | FnDone v err => Return v (option_map FnErr err)
       | CtxDone DeadlineExceeded None => Return None (Some ErrTimeout)
       | CtxDone e _ => Return None (Some (CtxErr e))
       end.
End Timeout.

(** ** Theorems *)

Section BackoffProofs.
Context (undef : float64 -> Z).

(** The cap the documentation promises: [max], or [2 ^ 62] ns without one. *)
Definition backoff_cap (max : Duration) (d : Z) : Duration :=
  Z.min d (if 0 <? max then max else 2 ^ 62).

Definition finish (max : Duration) (r : float64 + Duration) : Duration :=
  match r with
  | inr d => d
  | inl d => let out := to_Duration undef d in
             if (0 <? max) && (max <? out) then max else out
  end.

Lemma exp_loop_two (base max : Z) (k : nat) (j : Z) :
  0 < base < 2 ^ 53 -> max < 2 ^ 53 -> 0 <= j -> base * 2 ^ j < 2 ^ 62 ->
  finish max (exp_loop k (float_of_Z 2) max (cf base j))
  = backoff_cap max (base * 2 ^ (j + Z.of_nat k)).
Proof.
  intros Hb Hmax. revert j. induction k as [|k IH]; intros j Hj Hlt.
  - rewrite Z.add_0_r. unfold finish, exp_loop, to_Duration, int64_of_float, backoff_cap.
    rewrite ftrunc_cf by done.
    assert (0 < base * 2 ^ j) by (apply Z.mul_pos_pos; [lia | apply Z.pow_pos_nonneg; lia]).
    unfold min_i64, max_i64.
    rewrite (proj2 (Z.leb_le (- 2 ^ 63) _)), (proj2 (Z.leb_le _ (2 ^ 63 - 1))) by lia.
    destruct (Z.ltb_spec 0 max); simpl; [| lia].
    destruct (Z.ltb_spec max (base * 2 ^ j)); lia.
  - assert (Hj62 : j < 62).
    { destruct (Z_lt_le_dec j 62); [done |].
      assert (2 ^ 62 <= 2 ^ j) by (apply Z.pow_le_mono_r; lia). nia. }
    cbn [exp_loop]. rewrite fmul_two by lia.
    assert (Hgrow : base * 2 ^ (j + 1) <= base * 2 ^ (j + Z.of_nat (S k))).
    { apply Z.mul_le_mono_nonneg_l; [lia |]. apply Z.pow_le_mono_r; lia. }
    assert (H62 : float_of_Z (2 ^ 62) = cf 1 62) by done.
    rewrite H62, fle_cf by lia. rewrite Z.mul_1_l.
    replace (j + Z.of_nat (S k)) with (j + 1 + Z.of_nat k) in * by lia.
    unfold backoff_cap in *. destruct (Z.ltb_spec 0 max) as [Hpos|Hpos]; simpl.
    + rewrite float_of_Z_cf, fle_cf by lia. rewrite Z.pow_0_r, Z.mul_1_r.
      destruct (Z.leb_spec max (base * 2 ^ (j + 1))); [simpl; lia |].
      destruct (Z.leb_spec (2 ^ 62) (base * 2 ^ (j + 1))); [simpl; lia |].
      apply IH; lia.
    + destruct (Z.leb_spec (2 ^ 62) (base * 2 ^ (j + 1))); [simpl; lia |].
      apply IH; lia.
Qed.

(** With the default factor the floating-point loop of
    [ExponentialBackoff] computes exactly [base * 2 ^ (attempt - 1)], capped at
    [max] (or at [2 ^ 62] when there is no cap), for every attempt number: the
    overflow guards never return a negative or an infinite wait. *)
Theorem exponential_backoff_exact (base max attempt : Z) (factor : float64) :
  0 < base < 2 ^ 53 -> max < 2 ^ 53 -> 1 <= attempt ->
  fle factor fzero = true \/ factor = float_of_Z 2 ->
  ExponentialBackoff undef base factor max attempt
  = backoff_cap max (base * 2 ^ (attempt - 1)).
Proof.
  intros Hb Hmax Ha Hf. unfold ExponentialBackoff.
  assert ((if fle factor fzero then float_of_Z 2 else factor) = float_of_Z 2) as ->.
  { destruct Hf as [->| ->]; [done | by vm_compute]. }
  rewrite (proj2 (Z.ltb_ge attempt 1)) by done. cbv beta iota zeta.
  rewrite (float_of_Z_cf base) by done.
  transitivity (finish max (exp_loop (Z.to_nat (attempt - 1)) (float_of_Z 2) max (cf base 0)));
    [unfold finish; by destruct (exp_loop _ _ _ _) |].
  rewrite exp_loop_two by lia. f_equal. f_equal. f_equal. lia.
Qed.

(** The jitter source stays in [[0, 1)] whatever its 64-bit state. *)
Theorem lcg_Float64_range (state : Z) :
  fle fzero (lcg_Float64 state).2 = true /\ flt (lcg_Float64 state).2 fone = true.
Proof.
  unfold lcg_Float64. simpl.
  set (n := Z.shiftr (u64 (state * lcg_mul + lcg_inc)) 11).
  assert (Hn : 0 <= n < 2 ^ 53).
  { unfold n. rewrite Z.shiftr_div_pow2 by lia.
    pose proof (Z.mod_pos_bound (state * lcg_mul + lcg_inc) (2 ^ 64) ltac:(lia)) as Hm.
    unfold u64, wrap_u. split; [apply Z.div_pos; lia |].
    apply Z.div_lt_upper_bound; lia. }
  destruct (Z.eq_dec n 0) as [->|]; [done |].
  rewrite fdiv_pow53 by lia. by apply cf_unit_interval; lia.
Qed.
End BackoffProofs.

Section RetryProofs.
Context {any error : Type}.
Implicit Types (r : @Retry error) (env : @retry_env any error).

Lemma last_attempt_range r env k a :
  (0 < k)%nat -> a <= last_attempt r env k a <= a + Z.of_nat k - 1.
Proof.
  revert a. induction k as [|k IH]; intros a Hk; [lia |]. simpl.
  destruct (final _ _); simpl; [lia |].
  destruct (Nat.eqb_spec k 0); [lia |]. specialize (IH (a + 1)). lia.
Qed.

(** The waits between attempts [a] and [n]. *)
Definition waits_from r (a n : Z) : list Duration :=
  filter (fun d => 0 < d) (map (backoff r) (seqZ a (n - a))).

Lemma waits_from_cons r a n :
  a < n -> waits_from r a n
           = (if decide (0 < backoff r a) then [backoff r a] else []) ++ waits_from r (a + 1) n.
Proof.
  intros H. unfold waits_from. rewrite (seqZ_cons a) by lia. simpl. rewrite filter_cons.
  replace (Z.succ a) with (a + 1) by lia.
  replace (Z.pred (n - a)) with (n - (a + 1)) by lia. by case_decide.
Qed.

Lemma retry_loop_spec r env k a res err :
  (0 < k)%nat -> 1 <= a -> a + Z.of_nat k = maxAttempts r + 1 ->
  let n := last_attempt r env k a in
  alive env n ->
  retry_loop r env k a res err
  = mkRun (call_fn env n) (seqZ a (n - a + 1)) (waits_from r a n).
Proof.
  revert a res err. induction k as [|k IH]; intros a res err Hk Ha Hsum n Halive; [lia |].
  assert (Hn : a <= n <= a + Z.of_nat (S k) - 1) by (apply last_attempt_range; lia).
  destruct (Halive a 0 ltac:(lia)) as [Hctx _].
  cbn [retry_loop]. rewrite Hctx.
  assert (Hstop : n = a -> seqZ a (n - a + 1) = [a] /\ waits_from r a n = []).
  { intros ->. unfold waits_from. replace (a - a + 1) with 1 by lia.
    by replace (a - a) with 0 by lia. }
  assert (Hnext : final r (call_fn env a) = false -> a <> maxAttempts r ->
    n = last_attempt r env k (a + 1) /\ a < n /\ (0 < k)%nat).
  { intros Hf Hm. unfold n in *. simpl in *. rewrite Hf in *. simpl in *.
    destruct (Nat.eqb_spec k 0); [lia |].
    pose proof (last_attempt_range r env k (a + 1) ltac:(lia)). lia. }
  destruct (call_fn env a) as [v [e|]|p] eqn:Ec.
  2, 3: (assert (n = a) as Hna by (unfold n; simpl; by rewrite Ec));
        destruct (Hstop Hna) as [-> ->]; rewrite Hna, Ec; done.
  simpl in Hnext. destruct (negb (retryIf r e)) eqn:Er.
  { assert (n = a) as Hna by (unfold n; simpl; rewrite Ec; simpl; by rewrite Er).
    destruct (Hstop Hna) as [-> ->]. rewrite Hna, Ec. done. }
  destruct (Z.eqb_spec a (maxAttempts r)) as [Em|Em].
  { assert (n = a) as Hna by lia.
    destruct (Hstop Hna) as [-> ->]. rewrite Hna, Ec. done. }
  destruct (Hnext eq_refl Em) as (Hn' & Hlt & Hk').
  assert (Hrec : forall x y, retry_loop r env k (a + 1) x y
    = mkRun (call_fn env n) (seqZ (a + 1) (n - (a + 1) + 1)) (waits_from r (a + 1) n)).
  { intros. rewrite Hn'. apply IH; [lia | lia | lia |]. by rewrite <- Hn'. }
  rewrite (waits_from_cons r a n), (seqZ_cons a) by lia.
  replace (Z.succ a) with (a + 1) by lia.
  replace (Z.pred (n - a + 1)) with (n - (a + 1) + 1) by lia.
  destruct (Z.ltb_spec 0 (backoff r a)) as [Hd|Hd].
  - destruct (Halive a (backoff r a) ltac:(lia)) as [_ [-> _]]; [done |].
    rewrite Hrec. by rewrite decide_True.
  - destruct (Halive a (backoff r a) ltac:(lia)) as [_ [_ ->]]; [done |].
    rewrite Hrec. by rewrite decide_False by lia.
Qed.

(** While the context stays alive, [Execute] calls the operation for
    attempts [1 .. n] exactly, where [n] is the first attempt that succeeds,
    panics or fails with an error that is not worth retrying, and otherwise
    [maxAttempts]; it returns the outcome of attempt [n] and starts one wait per
    retry, as [backoff] computes it, skipping the non-positive ones. *)
Theorem retry_execute_spec r env :
  1 <= maxAttempts r ->
  let n := last_attempt r env (Z.to_nat (maxAttempts r)) 1 in
  alive env n ->
  Retry_Execute r env = mkRun (call_fn env n) (seqZ 1 n) (waits r n)
  /\ 1 <= n <= maxAttempts r.
Proof.
  intros Hm n Halive. split.
  - unfold Retry_Execute. rewrite retry_loop_spec by (done || lia).
    fold n. f_equal. f_equal. lia.
  - pose proof (last_attempt_range r env (Z.to_nat (maxAttempts r)) 1 ltac:(lia)). lia.
Qed.

Lemma retry_loop_calls r env k a res err :
  exists m, 0 <= m <= Z.of_nat k /\ rr_calls (retry_loop r env k a res err) = seqZ a m.
Proof.
  revert a res err. induction k as [|k IH]; intros a res err; [by exists 0 |].
  assert (Hcons : forall (run : @retry_run any error),
    (exists m, 0 <= m <= Z.of_nat k /\ rr_calls run = seqZ (a + 1) m) ->
    exists m, 0 <= m <= Z.of_nat (S k) /\ rr_calls (add_call a run) = seqZ a m).
  { intros run (m & Hm & Hr). exists (m + 1). split; [lia |]. simpl. rewrite Hr.
    rewrite (seqZ_cons a) by lia. repeat f_equal; lia. }
  assert (Hnil : forall o, exists m,
    0 <= m <= Z.of_nat k /\ rr_calls (@mkRun any error o [] []) = seqZ (a + 1) m).
  { intros o. by exists 0; split; [lia |]. }
  cbn [retry_loop]. destruct (ctx_Err env a); [by exists 0; split; [lia |] |].
  apply Hcons. repeat case_match; first [apply Hnil | apply IH].
Qed.

(** Whatever the context and the operation do, no attempt is skipped or
    repeated and there are never more than [maxAttempts] of them. *)
Theorem retry_attempts_bounded r env :
  exists m, 0 <= m <= Z.max 0 (maxAttempts r)
            /\ rr_calls (Retry_Execute r env) = seqZ 1 m.
Proof.
  destruct (retry_loop_calls r env (Z.to_nat (maxAttempts r)) 1 None None)
    as (m & Hm & Hr).
  exists m. split; [lia | exact Hr].
Qed.
End RetryProofs.

Section ComposeProofs.
Context {ctx any error : Type}.

(** The first middleware is the outermost layer: wrapping with [a :: rest]
    is [a] around the wrap of [rest], hence [Wrap [a; b; c] op] is
    [a (b (c op))], and wrapping by a concatenation is the composition. *)
Theorem Wrap_outermost_first (a : @Middleware ctx any error)
    (l1 l2 : list Middleware) (op : Operation) :
  Wrap (a :: l1) op = a (Wrap l1 op)
  /\ Wrap (l1 ++ l2) op = Wrap l1 (Wrap l2 op)
  /\ Wrap [] op = op.
Proof.
  unfold Wrap. split; [| split; [| done]].
  - simpl. by rewrite fold_left_app.
  - by rewrite rev_app_distr, fold_left_app.
Qed.
End ComposeProofs.

(** ** Witnesses *)

Section Witnesses.
(** Two retryable failures (error 1), then a success. *)
Definition wenv : @retry_env nat nat :=
  mkEnv (fun a => if a <? 3 then Return None (Some 1%nat) else Return (Some 42%nat) None)
    (fun _ => None) (fun _ _ => None) (fun _ => None).
Definition wretry : @Retry nat :=
  NewRetry (mkRetryConfig 5 (Some (fun a => if a =? 1 then 0 else 10 * a)) None).

Lemma retry_execute_spec_witness :
  Retry_Execute wretry wenv = mkRun (Return (Some 42%nat) None) [1; 2; 3] [20].
Proof.
  exact (proj1 (retry_execute_spec wretry wenv ltac:(by vm_compute)
                  (fun a d _ => conj eq_refl (fun _ => conj eq_refl eq_refl)))).
Defined.

Lemma exponential_backoff_exact_witness :
  ExponentialBackoff (fun _ => 0) 100000000 fzero 5000000000 6
  = backoff_cap 5000000000 3200000000.
Proof.
  apply (exponential_backoff_exact (fun _ => 0) 100000000 5000000000 6 fzero);
    [by vm_compute | by vm_compute | by vm_compute | left; reflexivity].
Defined.
End Witnesses.
