(* ===== verification/RateLimit.v ===== *)
(** The token bucket of [src/resilience/ratelimit.go].

    Tokens are doubles, as in the source.  Times come in as the readings of the
    injected clock; the blocking loop of [Execute] consumes the sequence of
    what it observes ([obs]) and answers [None] while it is still waiting at
    the end of it.  (Floating-point operations are those of a platform that
    does not fuse multiplication and addition.) *)

From Stdlib Require Import ZArith Lia SpecFloat.
From stdpp Require Import base gmap strings list numbers.
From S2P Require Import Prelude GoRt GoFloat.

Record RateLimiterConfig := mkRLConfig {
  cfg_Rate : float64;
  cfg_Burst : Z;
}.

Record RateLimiter := mkRL {
  rate : float64;
  burst : float64;
  tokens : float64;
  last : Time;
}.

Definition NewRateLimiter (cfg : RateLimiterConfig) (now : Time) : RateLimiter :=
  let r := if fle (cfg_Rate cfg) fzero then fone else cfg_Rate cfg in
  let b := if cfg_Burst cfg <? 1 then 1 else cfg_Burst cfg in
  mkRL r (float_of_Z b) (float_of_Z b) now.

(** [Duration.Seconds]. *)
Definition Seconds (d : Duration) : float64 :=
  fadd (float_of_Z (Z.quot d Second))
    (fdiv (float_of_Z (Z.rem d Second)) (float_of_Z Second)).

Definition set_tokens (t : float64) (rl : RateLimiter) : RateLimiter :=
  mkRL (rate rl) (burst rl) t (last rl).

Definition refill (now : Time) (rl : RateLimiter) : RateLimiter :=
  let elapsed := time_Sub now (last rl) in
  if elapsed <=? 0 then rl
  else
    let t := fadd (tokens rl) (fmul (Seconds elapsed) (rate rl)) in
    mkRL (rate rl) (burst rl) (if flt (burst rl) t then burst rl else t) now.

Definition Allow (now : Time) (rl : RateLimiter) : RateLimiter * bool :=
  let rl := refill now rl in
  if fle fone (tokens rl)
  then (set_tokens (fsub (tokens rl) fone) rl, true)
  else (rl, false).

Section RateLimiter.
Context (undef : float64 -> Z).

Definition reserve (now : Time) (rl : RateLimiter) : RateLimiter * bool * Duration :=
  let rl := refill now rl in
  if fle fone (tokens rl)
  then (set_tokens (fsub (tokens rl) fone) rl, true, 0)
  else
    let deficit := fsub fone (tokens rl) in
    let wait := int64_of_float undef
                  (fmul (fdiv deficit (rate rl)) (float_of_Z Second)) in
    (rl, false, if wait <=? 0 then Nanosecond else wait).

Context {any error : Type}.

(** One round of the loop: [ctx.Err()] at its head, the clock reading of
    [reserve], and what ends the wait: the context or the timer. *)
Record obs := mkObs {
  o_ctx_Err : option error;
  o_now : Time;
  o_done : option error;
}.

(** [Execute]; also gives the waits it started. *)
Fixpoint RL_Execute (fn : outcome (option any) error) (os : list obs)
    (rl : RateLimiter) : RateLimiter * list Duration * option (outcome (option any) error) :=
  match os with
  | [] => (rl, [], None)
  | o :: os =>
      match o_ctx_Err o with
      | Some cerr => (rl, [], Some (Return None (Some cerr)))
      | None =>
          let '(rl1, ok, wait) := reserve (o_now o) rl in
          if ok then (rl1, [], Some fn)
          else match o_done o with
               | Some cerr => (rl1, [wait], Some (Return None (Some cerr)))
               | None => let '(rl2, ws, r) := RL_Execute fn os rl1 in (rl2, wait :: ws, r)
               end
      end
  end.
End RateLimiter.

(** [n] calls of [Allow] at the clock readings [ts]. *)
Fixpoint Allow_all (ts : list Time) (rl : RateLimiter) : RateLimiter * list bool :=
  match ts with
  | [] => (rl, [])
  | t :: ts =>
      let '(rl1, ok) := Allow t rl in
      let '(rl2, oks) := Allow_all ts rl1 in (rl2, ok :: oks)
  end.

(** ** Theorems *)

Lemma refill_not_later now rl :
  now <= last rl -> refill now rl = rl.
Proof.
  intros H. unfold refill, time_Sub.
  by rewrite (proj2 (Z.leb_le _ 0)) by (unfold min_i64; lia).
Qed.

Lemma Allow_int now rl k :
  now <= last rl -> 0 <= k < 2 ^ 53 -> tokens rl = float_of_Z k ->
  Allow now rl = if 1 <=? k then (set_tokens (float_of_Z (k - 1)) rl, true)
                 else (rl, false).
Proof.
  intros Hl Hk Ht. unfold Allow. rewrite refill_not_later, Ht, fone_le_int by done.
  destruct (Z.leb_spec 1 k); [| done]. by rewrite fsub_one by lia.
Qed.

Lemma Allow_all_int ts rl k :
  Forall (fun t => t <= last rl) ts -> 0 <= k < 2 ^ 53 -> tokens rl = float_of_Z k ->
  let n := Z.min k (Z.of_nat (length ts)) in
  Allow_all ts rl
  = (set_tokens (float_of_Z (k - n)) rl,
     repeat true (Z.to_nat n) ++ repeat false (length ts - Z.to_nat n)).
Proof.
  intros Hts. revert rl k Hts. induction ts as [|t ts IH]; intros rl k Hts Hk Ht n.
  { unfold n. simpl. rewrite Z.min_r, Z.sub_0_r by lia. simpl.
    rewrite <- Ht. by destruct rl. }
  apply Forall_cons_1 in Hts as [Hl Hts]. cbn [Allow_all].
  rewrite (Allow_int t rl k) by done. destruct (Z.leb_spec 1 k).
  - rewrite (IH _ (k - 1)) by (done || lia). simpl length in *.
    replace (Z.min (k - 1) (Z.of_nat (length ts))) with (n - 1) by (unfold n; lia).
    assert (1 <= n) by (unfold n; lia).
    replace (Z.to_nat n) with (S (Z.to_nat (n - 1))) by lia. simpl.
    f_equal. unfold set_tokens. simpl. f_equal. f_equal. lia.
  - assert (k = 0) as -> by lia.
    rewrite (IH _ 0) by (done || lia). simpl length in *.
    replace n with 0 by (unfold n; lia).
    rewrite Z.min_l by lia. simpl. by rewrite !Nat.sub_0_r.
Qed.

(** A fresh limiter lets through exactly [Burst] calls at one instant (or
    while the clock runs backwards): of any number of [Allow]s the first
    [Burst] succeed and every later one is refused, with no rounding drift in
    the floating-point token count. *)
Theorem burst_exact (cfg : RateLimiterConfig) (now : Time) (ts : list Time) :
  cfg_Burst cfg < 2 ^ 53 -> Forall (fun t => t <= now) ts ->
  let n := Z.to_nat (Z.min (Z.max 1 (cfg_Burst cfg)) (Z.of_nat (length ts))) in
  (Allow_all ts (NewRateLimiter cfg now)).2
  = repeat true n ++ repeat false (length ts - n).
Proof.
  intros Hb Hts n.
  rewrite (Allow_all_int ts (NewRateLimiter cfg now) (Z.max 1 (cfg_Burst cfg)));
    [done | done | lia |].
  simpl. destruct (Z.ltb_spec (cfg_Burst cfg) 1); f_equal; lia.
Qed.

Lemma refill_capped now rl :
  flt (burst rl) (tokens rl) = false ->
  flt (burst (refill now rl)) (tokens (refill now rl)) = false.
Proof.
  intros H. unfold refill. case_match; [done |]. simpl.
  destruct (flt (burst rl) (fadd _ _)) eqn:E; [| done].
  unfold flt, SFltb. by destruct (burst rl) as [[]|[]| |[]]; simpl;
    rewrite ?Z.compare_refl, ?Pos.compare_cont_refl.
Qed.

(** [reserve] grants a token exactly when [Allow] does and leaves the same
    state; when it refuses it consumes nothing and asks for a wait of at least
    one nanosecond, so that the loop of [Execute] never spins, whatever the
    rate, the token count and the platform's float conversion. *)
Theorem reserve_agrees_with_Allow (undef : float64 -> Z) (now : Time) (rl : RateLimiter) :
  let '(rl', ok, wait) := reserve undef now rl in
  Allow now rl = (rl', ok)
  /\ (ok = true -> wait = 0)
  /\ (ok = false -> 1 <= wait /\ rl' = refill now rl).
Proof.
  unfold reserve, Allow. destruct (fle fone (tokens (refill now rl))); simpl.
  - by split_and!.
  - split_and!; [done | done |]. intros _. split; [| done].
    case_match; to_prop; unfold Nanosecond; lia.
Qed.

(** ** Witnesses *)

Lemma burst_exact_witness :
  (Allow_all [5; 5; 4; 5] (NewRateLimiter (mkRLConfig fone 3) 5)).2
  = [true; true; true; false].
Proof.
  apply (burst_exact (mkRLConfig fone 3) 5 [5; 5; 4; 5]);
    [by vm_compute | repeat constructor; discriminate].
Defined.
