(* ===== verification/Bulkhead.v ===== *)
(** The bulkhead of [src/resilience/bulkhead.go].

    [slots] and [queue] are the numbers of tokens in the two buffered channels.
    A concurrent run is a sequence of the atomic channel operations of the
    calls that are inside [Execute]; [pc] says where a call stands.  Deferred
    receives run in reverse order at return, so a call that waited in the queue
    keeps its queue ticket until it has returned. *)

From Stdlib Require Import ZArith Lia.
From stdpp Require Import base gmap strings list relations numbers.
From S2P Require Import Prelude.

Record BulkheadConfig := mkBHConfig { cfg_MaxConcurrent : Z; cfg_MaxQueue : Z }.

(** The channel capacities; [qcap = None] is a nil queue channel. *)
Record Bulkhead := mkBH { cap : nat; qcap : option nat }.

Definition NewBulkhead (cfg : BulkheadConfig) : Bulkhead :=
  let maxConcurrent := if cfg_MaxConcurrent cfg <? 1 then 1 else cfg_MaxConcurrent cfg in
  let maxQueue := if cfg_MaxQueue cfg <? 0 then 0 else cfg_MaxQueue cfg in
  mkBH (Z.to_nat maxConcurrent)
    (if 0 <? maxQueue then Some (Z.to_nat maxQueue) else None).

Inductive pc :=
| Enter                    (** before the first [select] *)
| TryQueue                 (** slots were full: before the second [select] *)
| Waiting                  (** holds a queue ticket, waits for a slot *)
| Running (queued : bool)  (** [fn] runs; [queued]: still holds its ticket *)
| Returning                (** slot given back, queue ticket not yet *)
| Returned                 (** ran [fn] and returned its result *)
| Rejected                 (** returned [ErrBulkheadFull] *)
| Cancelled.               (** returned [ctx.Err()] *)

#[export] Instance pc_eq_dec : EqDecision pc.
Proof. solve_decision. Defined.

Record bh_state := mkState { slots : nat; queue : nat; calls : list pc }.

Section Bulkhead.
Context (b : Bulkhead).

(** One atomic operation of one call: its next position and the new channel
    contents. *)
Inductive bh_op : pc -> nat -> nat -> pc -> nat -> nat -> Prop :=
| op_fast s q : (s < cap b)%nat -> bh_op Enter s q (Running false) (S s) q
| op_full s q : (cap b <= s)%nat -> bh_op Enter s q TryQueue s q
| op_no_queue s q : qcap b = None -> bh_op TryQueue s q Rejected s q
| op_enqueue s q n : qcap b = Some n -> (q < n)%nat -> bh_op TryQueue s q Waiting s (S q)
| op_queue_full s q n : qcap b = Some n -> (n <= q)%nat -> bh_op TryQueue s q Rejected s q
| op_slot s q : (s < cap b)%nat -> bh_op Waiting s q (Running true) (S s) q
| op_cancel s q : bh_op Waiting s (S q) Cancelled s q
| op_return s q : bh_op (Running false) (S s) q Returned s q
| op_return_slot s q : bh_op (Running true) (S s) q Returning s q
| op_return_queue s q : bh_op Returning s (S q) Returned s q.

Inductive bh_step : bh_state -> bh_state -> Prop :=
| bh_arrive s q cs : bh_step (mkState s q cs) (mkState s q (cs ++ [Enter]))
| bh_move s q s' q' l1 l2 p p' :
    bh_op p s q p' s' q' ->
    bh_step (mkState s q (l1 ++ p :: l2)) (mkState s' q' (l1 ++ p' :: l2)).

Definition bh_reachable (st : bh_state) : Prop := rtc bh_step (mkState 0 0 []) st.
End Bulkhead.

(** ** Theorems *)

Definition holds_slot (p : pc) : bool :=
  match p with Running _ => true | _ => false end.
Definition holds_ticket (p : pc) : bool :=
  match p with Waiting | Running true | Returning => true | _ => false end.

Definition count (f : pc -> bool) (l : list pc) : nat := length (filter f l).

Lemma count_app f l1 l2 : count f (l1 ++ l2) = (count f l1 + count f l2)%nat.
Proof. unfold count. by rewrite list.filter_app, length_app. Qed.

Lemma count_cons f p l : count f (p :: l) = (Nat.b2n (f p) + count f l)%nat.
Proof. unfold count. rewrite filter_cons. case_decide; by destruct (f p). Qed.

Definition bh_inv (b : Bulkhead) (st : bh_state) : Prop :=
  slots st = count holds_slot (calls st)
  /\ queue st = count holds_ticket (calls st)
  /\ (slots st <= cap b)%nat
  /\ (queue st <= default 0%nat (qcap b))%nat.

Lemma bh_step_inv b s s' : bh_inv b s -> bh_step b s s' -> bh_inv b s'.
Proof.
  intros (Hs & Hq & Hc & Hk) Hst.
  destruct Hst as [s q cs | s q s' q' l1 l2 p p' Hop]; unfold bh_inv in *; simpl in *.
  - rewrite !count_app. unfold count at 2 4. simpl. lia.
  - rewrite !count_app, !count_cons in *.
    destruct Hop; simpl in *; simplify_option_eq; try (destruct (qcap b)); simpl in *; lia.
Qed.

Lemma bh_reachable_inv b st : bh_reachable b st -> bh_inv b st.
Proof.
  apply (rtc_invariant (bh_step b) (bh_inv b)); [by unfold bh_inv, count; simpl; lia |].
  intros; by eapply bh_step_inv.
Qed.

(** However the calls interleave, at most [MaxConcurrent] of them run [fn]
    at once and at most [MaxQueue] wait; the channel tokens are exactly those
    of the running calls and of the calls holding a queue ticket, so that no
    token leaks and none is returned twice. *)
Theorem bulkhead_bounds (b : Bulkhead) (st : bh_state) :
  bh_reachable b st ->
  (count holds_slot (calls st) <= cap b)%nat
  /\ (count (fun p => bool_decide (p = Waiting)) (calls st) <= default 0%nat (qcap b))%nat
  /\ slots st = count holds_slot (calls st)
  /\ queue st = count holds_ticket (calls st).
Proof.
  intros (Hs & Hq & Hc & Hk)%bh_reachable_inv. split; [lia |]. split; [| done].
  enough (count (fun p => bool_decide (p = Waiting)) (calls st)
          <= count holds_ticket (calls st))%nat by lia.
  clear. induction (calls st) as [|p l IH]; [done |].
  rewrite !count_cons. by destruct p as [| | |[]| | | |]; simpl; lia.
Qed.

(** The queue ticket is held while a formerly queued call runs, so the
    bulkhead can reject a call although nobody is waiting: with one slot and
    one queue place there is a run in which the only other call in the
    bulkhead is running, the queue is empty of waiters, and a third call gets
    [ErrBulkheadFull]. *)
Theorem bulkhead_rejects_with_no_waiter :
  let b := NewBulkhead (mkBHConfig 1 1) in
  exists st, bh_reachable b st
    /\ calls st = [Returned; Running true; Rejected]
    /\ count (fun p => bool_decide (p = Waiting)) (calls st) = 0%nat.
Proof.
  exists (mkState 1 1 [Returned; Running true; Rejected]). split; [| done].
  pose (mv := fun l1 l2 p p' s q s' q' H =>
    bh_move (NewBulkhead (mkBHConfig 1 1)) s q s' q' l1 l2 p p' H).
  eapply rtc_l; [apply (bh_arrive _ 0 0 []) |].
  eapply rtc_l; [apply (mv [] [] Enter); by constructor; simpl; lia |].
  eapply rtc_l; [apply (bh_arrive _ 1 0 [_]) |].
  eapply rtc_l; [apply (mv [_] [] Enter TryQueue); by constructor; simpl; lia |].
  eapply rtc_l; [apply (mv [_] [] TryQueue Waiting 1 0 1 1)%nat; by econstructor; simpl; [done | lia] |].
  eapply rtc_l; [apply (mv [] [_] (Running false) Returned 1 1 0 1)%nat; by constructor |].
  eapply rtc_l; [apply (mv [_] [] Waiting (Running true) 0 1 1 1)%nat; constructor; simpl; lia |].
  eapply rtc_l; [apply (bh_arrive _ 1 1 [_; _]) |].
  eapply rtc_l; [apply (mv [_; _] [] Enter TryQueue 1 1 1 1)%nat; constructor; simpl; lia |].
  eapply rtc_l; [apply (mv [_; _] [] TryQueue Rejected 1 1 1 1)%nat; by eapply op_queue_full |].
  constructor.
Qed.

(** ** Witnesses *)

Lemma bulkhead_bounds_witness :
  exists st, bh_reachable (mkBH 1 None) st /\ calls st = [Running false]
    /\ (count holds_slot (calls st) <= 1)%nat.
Proof.
  assert (H : bh_reachable (mkBH 1 None) (mkState 1 0 [Running false])).
  { eapply rtc_l; [apply (bh_arrive _ 0 0 []) |].
    eapply rtc_l; [apply (bh_move (mkBH 1 None) 0 0 1 0 [] [] Enter)%nat; constructor; simpl; lia |].
    constructor. }
  exists (mkState 1 0 [Running false]).
  split; [exact H | split; [reflexivity | exact (proj1 (bulkhead_bounds _ _ H))]].
Defined.
