(* ===== verification/Cache.v ===== *)
(** The key-value cache of [src/cache/cache.go] and [src/cache/atomic.go].

    [Memory] is the map behind the in-memory store; each method is a function
    of the clock reading it makes.  Values are byte strings: the source copies
    every slice on the way in and out, so no aliasing is observable.  [Store]
    is the driver interface and [StoreLaws] what the package-level helpers
    ([Remember], [Pull], [Add], ...) rely on; the optional Go interfaces that a
    driver may implement are the fields of [extensions]. *)

From Stdlib Require Import ZArith Lia Ascii.
From stdpp Require Import base gmap strings list numbers fin_maps.
From S2P Require Import Prelude GoRt GoStrconv.

Record memoryItem := mkItem { value : string; expiresAt : Time }.

Abbreviation Memory := (gmap string memoryItem).

Definition expired (it : memoryItem) (now : Time) : bool :=
  negb (IsZero (expiresAt it)) && After now (expiresAt it).

Definition expiryFor (ttl : Duration) (now : Time) : Time :=
  if 0 <? ttl then time_Add now ttl else zero_time.

(** ** The in-memory store *)

Definition NewMemory : Memory := ∅.

(** [Get] first reads under the read lock, and on an expired entry deletes the
    key in a second critical section. *)
Inductive read_result := Absent | Stale | Live (v : string).

Definition Get_read (now : Time) (key : string) (m : Memory) : read_result :=
  match m !! key with
  | None => Absent
  | Some it => if expired it now then Stale else Live (value it)
  end.

Definition Get_evict (key : string) (m : Memory) : Memory := delete key m.

Definition Get (now : Time) (key : string) (m : Memory) : Memory * option string :=
  match Get_read now key m with
  | Absent => (m, None)
  | Stale => (Get_evict key m, None)
  | Live v => (m, Some v)
  end.

Definition Put (now : Time) (key v : string) (ttl : Duration) (m : Memory) : Memory :=
  if ttl <? 0 then delete key m
  else
    let exp := if 0 <? ttl then time_Add now ttl else zero_time in
    <[key := mkItem v exp]> m.

Definition Forget (key : string) (m : Memory) : Memory := delete key m.

Definition Flush (m : Memory) : Memory := ∅.

Definition Has (now : Time) (key : string) (m : Memory) : Memory * bool :=
  let '(m, v) := Get now key m in (m, bool_decide (is_Some v)).

Definition Pull (now : Time) (key : string) (m : Memory) : Memory * option string :=
  match m !! key with
  | None => (m, None)
  | Some it => (delete key m, if expired it now then None else Some (value it))
  end.

Definition purgeExpired (now : Time) (m : Memory) : Memory :=
  filter (fun kv => expired kv.2 now = false) m.

Definition len (m : Memory) : nat := size m.

Definition Add (now : Time) (key v : string) (ttl : Duration) (m : Memory) : Memory * bool :=
  let free :=
    if ttl <? 0 then (delete key m, true)
    else (<[key := mkItem v (expiryFor ttl now)]> m, true) in
  match m !! key with
  | Some it => if negb (expired it now) then (m, false) else free
  | None => free
  end.

Inductive cache_error := ErrNotInteger | ErrUnsupported | ErrDriver (e : string).

Definition Increment (now : Time) (key : string) (delta : Z) (m : Memory)
  : Memory * result cache_error Z :=
  let store cur :=
    let next := i64 (cur + delta) in
    (<[key := mkItem (FormatInt next) zero_time]> m, Ok next) in
  match m !! key with
  | Some it =>
      if negb (expired it now)
      then match ParseInt (value it) with
           | None => (m, Err ErrNotInteger)
           | Some n => store n
           end
      else store 0
  | None => store 0
  end.

Definition Decrement (now : Time) (key : string) (delta : Z) (m : Memory)
  : Memory * result cache_error Z :=
  Increment now key (i64 (- delta)) m.

Definition Forever (now : Time) (key v : string) (m : Memory) : Memory :=
  Put now key v 0 m.

(** The body of the loop of [Many]. *)
Definition many_step (now : Time) (m : Memory) (out : gmap string string) (key : string)
  : gmap string string :=
  match m !! key with
  | None => out
  | Some it => if expired it now then out else <[key := value it]> out
  end.

Definition Many (now : Time) (keys : list string) (m : Memory) : gmap string string :=
  fold_left (many_step now m) keys ∅.

Definition PutMany (now : Time) (items : gmap string string) (ttl : Duration) (m : Memory)
  : Memory :=
  if ttl <? 0 then map_fold (fun key _ m => delete key m) m items
  else
    let exp := expiryFor ttl now in
    map_fold (fun key v m => <[key := mkItem v exp]> m) m items.

(** ** The driver interface *)

Class Store (S : Type) := {
  s_Get : Time -> string -> S -> S * result cache_error (option string);
  s_Put : Time -> string -> string -> Duration -> S -> S * option cache_error;
  s_Forget : string -> S -> S * option cache_error;
  s_Flush : S -> S * option cache_error;
  s_Has : Time -> string -> S -> S * result cache_error bool;
}.

(** The optional interfaces a driver may implement ([None]: it does not). *)
Record extensions (S : Type) := mkExt {
  x_puller : option (Time -> string -> S -> S * result cache_error (option string));
  x_adder : option (Time -> string -> string -> Duration -> S -> S * result cache_error bool);
  x_incrementer : option ((Time -> string -> Z -> S -> S * result cache_error Z)
                        * (Time -> string -> Z -> S -> S * result cache_error Z));
  x_manyer : option ((Time -> list string -> S -> S * result cache_error (gmap string string))
                   * (Time -> gmap string string -> Duration -> S -> S * option cache_error));
  x_flight : option (Time -> string -> Duration -> result cache_error string -> S
                     -> S * result cache_error string * bool);
}.
Arguments mkExt {S}. Arguments x_puller {S}. Arguments x_adder {S}.
Arguments x_incrementer {S}. Arguments x_manyer {S}. Arguments x_flight {S}.

Section Helpers.
Context {S : Type} `{Store S} (x : extensions S).

(** [Remember]: [fn] is what the producer returns, [t0] and [t1] the times of
    the read and of the fill; the flag says whether the producer ran. *)
Definition Remember (t0 t1 : Time) (key : string) (ttl : Duration)
    (fn : result cache_error string) (s : S) : S * result cache_error string * bool :=
  match s_Get t0 key s with
  | (s, Err e) => (s, Err e, false)
  | (s, Ok (Some v)) => (s, Ok v, false)
  | (s, Ok None) =>
      match x_flight x with
      | Some once => once t1 key ttl fn s
      | None =>
          match fn with
          | Err e => (s, Err e, true)
          | Ok v =>
              match s_Put t1 key v ttl s with
              | (s, Some e) => (s, Err e, true)
              | (s, None) => (s, Ok v, true)
              end
          end
      end
  end.

Definition Pull_ (t0 : Time) (key : string) (s : S)
  : S * result cache_error (option string) :=
  match x_puller x with
  | Some p => p t0 key s
  | None =>
      match s_Get t0 key s with
      | (s, Err e) => (s, Err e)
      | (s, Ok None) => (s, Ok None)
      | (s, Ok (Some v)) => let '(s, _) := s_Forget key s in (s, Ok (Some v))
      end
  end.

Definition Add_ (t0 t1 : Time) (key v : string) (ttl : Duration) (s : S)
  : S * result cache_error bool :=
  match x_adder x with
  | Some a => a t0 key v ttl s
  | None =>
      match s_Has t0 key s with
      | (s, Err e) => (s, Err e)
      | (s, Ok true) => (s, Ok false)
      | (s, Ok false) =>
          match s_Put t1 key v ttl s with
          | (s, Some e) => (s, Err e)
          | (s, None) => (s, Ok true)
          end
      end
  end.

Definition Increment_ (t : Time) (key : string) (delta : Z) (s : S)
  : S * result cache_error Z :=
  match x_incrementer x with
  | Some (inc, _) => inc t key delta s
  | None => (s, Err ErrUnsupported)
  end.

Definition Decrement_ (t : Time) (key : string) (delta : Z) (s : S)
  : S * result cache_error Z :=
  match x_incrementer x with
  | Some (_, dec) => dec t key delta s
  | None => (s, Err ErrUnsupported)
  end.

(** The per-key loop of [Many] on a plain store; all reads at time [t]. *)
Fixpoint many_loop (t : Time) (keys : list string) (out : gmap string string) (s : S)
  : S * result cache_error (gmap string string) :=
  match keys with
  | [] => (s, Ok out)
  | key :: keys =>
      match s_Get t key s with
      | (s, Err e) => (s, Err e)
      | (s, Ok (Some v)) => many_loop t keys (<[key := v]> out) s
      | (s, Ok None) => many_loop t keys out s
      end
  end.

Definition Many_ (t : Time) (keys : list string) (s : S)
  : S * result cache_error (gmap string string) :=
  match x_manyer x with
  | Some (many, _) => many t keys s
  | None => many_loop t keys ∅ s
  end.

(** The loop of [PutMany]; [items] lists the map in its iteration order. *)
Fixpoint putmany_loop (t : Time) (items : list (string * string)) (ttl : Duration) (s : S)
  : S * option cache_error :=
  match items with
  | [] => (s, None)
  | (key, v) :: items =>
      match s_Put t key v ttl s with
      | (s, Some e) => (s, Some e)
      | (s, None) => putmany_loop t items ttl s
      end
  end.

Definition PutMany_ (t : Time) (items : list (string * string)) (ttl : Duration) (s : S)
  : S * option cache_error :=
  match x_manyer x with
  | Some (_, putmany) => putmany t (list_to_map items) ttl s
  | None => putmany_loop t items ttl s
  end.
End Helpers.

(** *** [*Memory] as a driver *)

#[export] Instance Memory_Store : Store Memory := {
  s_Get := fun t k m => let '(m, v) := Get t k m in (m, Ok v);
  s_Put := fun t k v ttl m => (Put t k v ttl m, None);
  s_Forget := fun k m => (Forget k m, None);
  s_Flush := fun m => (Flush m, None);
  s_Has := fun t k m => let '(m, b) := Has t k m in (m, Ok b);
}.

(** [rememberOnce] when no other producer runs for the key. *)
Definition rememberOnce (t : Time) (key : string) (ttl : Duration)
    (fn : result cache_error string) (m : Memory)
  : Memory * result cache_error string * bool :=
  match Get t key m with
  | (m, Some v) => (m, Ok v, false)
  | (m, None) =>
      match fn with
      | Err e => (m, Err e, true)
      | Ok v => (Put t key v ttl m, Ok v, true)
      end
  end.

Definition Memory_ext : extensions Memory :=
  mkExt
    (Some (fun t k m => let '(m, v) := Pull t k m in (m, Ok v)))
    (Some (fun t k v ttl m => let '(m, b) := Add t k v ttl m in (m, Ok b)))
    (Some (Increment, Decrement))
    (Some (fun t ks m => (m, Ok (Many t ks m)), fun t its ttl m => (PutMany t its ttl m, None)))
    (Some rememberOnce).

(** What a store holds for a key at a time, and what its methods do to it.
    [live_at t ttl now] is the lifetime of an entry put at [t]. *)
Definition live_at (t : Time) (ttl : Duration) (now : Time) : bool :=
  (ttl =? 0) || ((0 <? ttl) && (now <=? t + ttl)).

Class StoreLaws (S : Type) `{Store S} := {
  view : Time -> S -> string -> option string;
  Get_view t k s :
    match s_Get t k s with
    | (s', Ok v) => v = view t s k /\ forall now k', t <= now -> view now s' k' = view now s k'
    | (s', Err _) => forall now k', view now s' k' = view now s k'
    end;
  Put_view t k v ttl s :
    0 < t ->
    match s_Put t k v ttl s with
    | (s', None) => forall now k', t <= now ->
        view now s' k' = if decide (k' = k)
                         then if live_at t ttl now then Some v else None
                         else view now s k'
    | (_, Some _) => True
    end;
  Forget_view k s :
    match s_Forget k s with
    | (s', None) => forall now k', view now s' k' = if decide (k' = k) then None else view now s k'
    | (_, Some _) => True
    end;
  Has_view t k s :
    match s_Has t k s with
    | (s', Ok b) => b = bool_decide (is_Some (view t s k))
                    /\ forall now k', t <= now -> view now s' k' = view now s k'
    | (s', Err _) => forall now k', view now s' k' = view now s k'
    end;
}.

(** ** The in-memory store implements the interface *)

Definition mem_view (now : Time) (m : Memory) (k : string) : option string :=
  match m !! k with
  | Some it => if expired it now then None else Some (value it)
  | None => None
  end.

Lemma expired_mono it t now : expired it t = true -> t <= now -> expired it now = true.
Proof.
  unfold expired, After. intros [-> H]%andb_prop Hle. apply Z.ltb_lt in H.
  simpl. apply Z.ltb_lt. lia.
Qed.

(** Deleting an entry that is already expired cannot be observed later. *)
Lemma evict_view t now k it m k' :
  m !! k = Some it -> expired it t = true -> t <= now ->
  mem_view now (delete k m) k' = mem_view now m k'.
Proof.
  intros Hk He Hle. unfold mem_view. destruct (decide (k = k')) as [<-|Hne].
  - by rewrite lookup_delete_eq, Hk, (expired_mono it t now).
  - by rewrite lookup_delete_ne.
Qed.

Lemma Get_spec t k m :
  (Get t k m).2 = mem_view t m k
  /\ forall now k', t <= now -> mem_view now (Get t k m).1 k' = mem_view now m k'.
Proof.
  unfold Get, Get_read, Get_evict. unfold mem_view at 1.
  destruct (m !! k) as [it|] eqn:E; [| by split].
  destruct (expired it t) eqn:Ex; simpl; (split; [done |]); intros; [| done].
  by eapply evict_view.
Qed.

Lemma fresh_expiry t ttl now v :
  0 < t -> 0 <= ttl ->
  expired (mkItem v (if 0 <? ttl then time_Add t ttl else zero_time)) now
  = negb (live_at t ttl now).
Proof.
  intros Ht Httl. unfold expired, live_at, IsZero, After, time_Add, zero_time. simpl.
  destruct (Z.ltb_spec 0 ttl); simpl.
  - rewrite (proj2 (Z.eqb_neq ttl 0)), (proj2 (Z.eqb_neq (t + ttl) 0)) by lia. simpl.
    by rewrite Z.ltb_antisym.
  - by rewrite (proj2 (Z.eqb_eq ttl 0)) by lia.
Qed.

Lemma Put_spec t k v ttl m now k' :
  0 < t ->
  mem_view now (Put t k v ttl m) k'
  = if decide (k' = k) then if live_at t ttl now then Some v else None
    else mem_view now m k'.
Proof.
  intros Ht. unfold Put, mem_view. destruct (Z.ltb_spec ttl 0).
  - unfold live_at. rewrite (proj2 (Z.eqb_neq ttl 0)), (proj2 (Z.ltb_ge 0 ttl)) by lia.
    case_decide as E; [subst; by rewrite lookup_delete_eq | by rewrite lookup_delete_ne].
  - case_decide as E; [subst | by rewrite lookup_insert_ne].
    rewrite lookup_insert_eq, fresh_expiry by done. by destruct (live_at t ttl now).
Qed.

#[export] Program Instance Memory_laws : StoreLaws Memory := {| view := mem_view |}.
Next Obligation.
  intros t k m. simpl. pose proof (Get_spec t k m) as [H1 H2].
  destruct (Get t k m) as [m' r]. by split.
Qed.
Next Obligation. intros t k v ttl m Ht now k' _. by apply Put_spec. Qed.
Next Obligation.
  intros k m now k'. unfold Forget, mem_view. case_decide as E; subst.
  - by rewrite lookup_delete_eq.
  - by rewrite lookup_delete_ne.
Qed.
Next Obligation.
  intros t k m. simpl. unfold Has. pose proof (Get_spec t k m) as [H1 H2].
  destruct (Get t k m) as [m' r]. simpl in *. by subst.
Qed.

(** ** Clients of the interface *)

Section HelperProofs.
Context {S : Type} `{StoreLaws S}.
Implicit Types (s : S) (k : string).

Definition no_ext : extensions S := mkExt None None None None None.

(** What [Remember] promises about the final store and the flag. *)
Definition remember_ok (t0 t1 : Time) (key : string) (ttl : Duration)
    (fn : result cache_error string) (s s' : S) (v : string) (ran : bool) : Prop :=
  match view t0 s key with
  | Some w => ran = false /\ v = w /\ forall now k, t1 <= now -> view now s' k = view now s k
  | None => ran = true /\ fn = Ok v
            /\ forall now k, t1 <= now ->
                 view now s' k = if decide (k = key)
                                 then if live_at t1 ttl now then Some v else None
                                 else view now s k
  end.


(** What put-if-absent promises. *)
Definition add_ok (t : Time) (key v : string) (ttl : Duration) (s s' : S) (b : bool) : Prop :=
  b = negb (bool_decide (is_Some (view t s key)))
  /\ forall now k, t <= now ->
       view now s' k = if decide (k = key /\ b = true)
                       then if live_at t ttl now then Some v else None
                       else view now s k.

Lemma Add_fallback_ok t key v ttl s :
  0 < t ->
  match Add_ no_ext t t key v ttl s with
  | (s', Ok b) => add_ok t key v ttl s s' b
  | (_, Err _) => True
  end.
Proof.
  intros Ht. unfold Add_, no_ext. simpl. pose proof (Has_view t key s) as Hh.
  destruct (s_Has t key s) as [s1 [[]|e]]; [| | done].
  - destruct Hh as [Hb Hsame]. split; [by rewrite <- Hb |].
    intros now k Hnow. rewrite decide_False by naive_solver. by apply Hsame.
  - destruct Hh as [Hb Hsame].
    pose proof (Put_view t key v ttl s1 Ht) as Hp.
    destruct (s_Put t key v ttl s1) as [s2 [e|]]; [done |].
    split; [by rewrite <- Hb |]. intros now k Hnow. rewrite Hp by done.
    destruct (decide (k = key)) as [->|Hne].
    + by rewrite decide_True.
    + rewrite decide_False by naive_solver. by apply Hsame.
Qed.

Lemma Pull_fallback_view t key s :
  match Pull_ no_ext t key s with
  | (_, Ok r) => r = view t s key
  | (_, Err _) => True
  end.
Proof.
  unfold Pull_, no_ext. simpl. pose proof (Get_view t key s) as Hg.
  destruct (s_Get t key s) as [s1 [[w|]|e]]; [| | done].
  - destruct Hg as [Hv _]. by destruct (s_Forget key s1).
  - by destruct Hg.
Qed.

Lemma many_loop_view t keys out s :
  match many_loop t keys out s with
  | (_, Ok r) => forall k,
      r !! k = if decide (k ∈ keys /\ is_Some (view t s k)) then view t s k else out !! k
  | (_, Err _) => True
  end.
Proof.
  revert out s. induction keys as [|key keys IH]; intros out s.
  { intros k. rewrite decide_False; [done |]. intros [Hk _]. by apply elem_of_nil in Hk. }
  cbn [many_loop]. pose proof (Get_view t key s) as Hg.
  destruct (s_Get t key s) as [s1 [[w|]|e]]; [| | done]; destruct Hg as [Hv Hsame].
  - specialize (IH (<[key:=w]> out) s1).
    destruct (many_loop t keys (<[key:=w]> out) s1) as [s2 [r|]]; [| done].
    intros k. rewrite IH, (Hsame t k) by lia.
    destruct (decide (k = key)) as [->|Hne].
    + rewrite <- Hv, lookup_insert_eq. repeat case_decide; set_solver.
    + rewrite lookup_insert_ne by done. repeat case_decide; set_solver.
  - specialize (IH out s1). destruct (many_loop t keys out s1) as [s2 [r|]]; [| done].
    intros k. rewrite IH, (Hsame t k) by lia.
    destruct (decide (k = key)) as [->|Hne].
    + rewrite <- Hv. repeat case_decide; unfold is_Some in *; naive_solver.
    + repeat case_decide; set_solver.
Qed.
End HelperProofs.

(** ** The operations of the in-memory store *)

Section MemoryProofs.
Implicit Types (m : Memory) (k key v : string).

Lemma Add_mem_ok t key v ttl m :
  0 < t -> let '(m', b) := Add t key v ttl m in add_ok t key v ttl m m' b.
Proof.
  intros Ht. unfold add_ok. simpl.
  assert (Hfree : mem_view t m key = None -> forall now k, t <= now ->
    mem_view now (if ttl <? 0 then delete key m
                  else <[key := mkItem v (expiryFor ttl t)]> m) k
    = if decide (k = key /\ true = true)
      then if live_at t ttl now then Some v else None else mem_view now m k).
  { intros _ now k _. transitivity (mem_view now (Put t key v ttl m) k); [done |].
    rewrite Put_spec by done. repeat case_decide; naive_solver. }
  unfold Add. destruct (m !! key) as [it|] eqn:E.
  - destruct (expired it t) eqn:Ex; simpl.
    + assert (Hn : mem_view t m key = None) by (unfold mem_view; by rewrite E, Ex).
      specialize (Hfree Hn). rewrite Hn. by case_match.
    + assert (Hn : mem_view t m key = Some (value it)) by (unfold mem_view; by rewrite E, Ex).
      rewrite Hn. split; [done |]. intros. by rewrite decide_False by naive_solver.
  - assert (Hn : mem_view t m key = None) by (unfold mem_view; by rewrite E).
    specialize (Hfree Hn). rewrite Hn. by case_match.
Qed.

(** The atomic [Memory.Add] and the [Has]-then-[Put] fallback of the
    package-level [Add] agree when nothing runs in between: same answer, and
    from then on the same observable contents for every key. *)
Theorem Add_atomic_equals_fallback (t : Time) (key v : string) (ttl : Duration) (m : Memory) :
  0 < t ->
  let '(m1, b1) := Add t key v ttl m in
  match Add_ no_ext t t key v ttl m with
  | (m2, Ok b2) => b1 = b2 /\ forall now k, t <= now -> mem_view now m1 k = mem_view now m2 k
  | (_, Err _) => False
  end.
Proof.
  intros Ht. pose proof (Add_mem_ok t key v ttl m Ht) as H1.
  pose proof (Add_fallback_ok t key v ttl m Ht) as H2.
  destruct (Add t key v ttl m) as [m1 b1].
  destruct (Add_ no_ext t t key v ttl m) as [m2 [b2|e]] eqn:E.
  - destruct H1 as [Hb1 Hv1], H2 as [Hb2 Hv2].
    assert (b1 = b2) as <- by congruence. split; [done |]. intros now k Hnow.
    specialize (Hv1 now k Hnow). specialize (Hv2 now k Hnow). simpl in *. congruence.
  - unfold Add_, no_ext in E. simpl in E. destruct (Has t key m) as [m' []]; discriminate.
Qed.

(** Several [Add]s of one key, in the order in which they take the lock. *)
Fixpoint contend (key : string) (ttl : Duration) (cs : list (Time * string)) (m : Memory)
  : Memory * list bool :=
  match cs with
  | [] => (m, [])
  | (t, v) :: cs =>
      let '(m, b) := Add t key v ttl m in
      let '(m, bs) := contend key ttl cs m in (m, b :: bs)
  end.

Lemma contend_held key ttl t0 v0 cs m :
  m !! key = Some (mkItem v0 (expiryFor ttl t0)) -> 0 < t0 ->
  0 <= ttl -> Forall (fun c => t0 <= c.1 /\ live_at t0 ttl c.1 = true) cs ->
  contend key ttl cs m = (m, map (fun _ => false) cs).
Proof.
  intros Hm Ht Httl Hcs. induction Hcs as [|[t v] cs [Ht0 Hl] _ IH]; [done |].
  cbn [contend]. unfold Add. rewrite Hm. unfold expiryFor. simpl in Hl.
  rewrite fresh_expiry, Hl by done. simpl. by rewrite IH.
Qed.

(** [Memory.Add] is a lock: of any number of contenders for a free key,
    whatever values they bring, exactly the first to enter the critical section
    succeeds as long as its entry lives, and the key keeps the winner's
    value. *)
Theorem Add_one_winner (key : string) (ttl : Duration) (t0 : Time) (v0 : string)
    (cs : list (Time * string)) (m : Memory) :
  0 < t0 -> 0 <= ttl -> mem_view t0 m key = None ->
  Forall (fun c => t0 <= c.1 /\ live_at t0 ttl c.1 = true) cs ->
  let '(m', wins) := contend key ttl ((t0, v0) :: cs) m in
  wins = true :: map (fun _ => false) cs
  /\ m' !! key = Some (mkItem v0 (expiryFor ttl t0)).
Proof.
  intros Ht Httl Hv Hcs. cbn [contend].
  assert (Add t0 key v0 ttl m = (<[key := mkItem v0 (expiryFor ttl t0)]> m, true)) as ->.
  { unfold Add, mem_view in *. rewrite (proj2 (Z.ltb_ge ttl 0)) by done.
    destruct (m !! key) as [it|]; [| done]. by destruct (expired it t0). }
  rewrite (contend_held key ttl t0 v0) by (done || apply lookup_insert_eq).
  split; [done | apply lookup_insert_eq].
Qed.

(** [Get] drops an entry it saw expired in a second critical section and
    does not look again, so an [Add] that runs in between loses its entry: with
    any expired entry under the key, the interleaving "read stale; [Add]
    succeeds; evict; second [Add]" lets the second [Add] succeed too, however
    long the first one's entry should have lived. *)
Theorem stale_Get_breaks_Add (key v1 v2 : string) (ttl : Duration) (t0 t1 t2 : Time)
    (it : memoryItem) (m : Memory) :
  m !! key = Some it -> expired it t0 = true -> t0 <= t1 -> 0 <= ttl ->
  Get_read t0 key m = Stale
  /\ (Add t1 key v1 ttl m).2 = true
  /\ (Add t2 key v2 ttl (Get_evict key (Add t1 key v1 ttl m).1)).2 = true.
Proof.
  intros Hm Hx Hle Httl. split_and!.
  - unfold Get_read. by rewrite Hm, Hx.
  - unfold Add. rewrite Hm, (expired_mono it t0 t1) by done. simpl. by case_match.
  - unfold Add at 1, Get_evict. rewrite lookup_delete_eq. by case_match.
Qed.

(** The counter after adding the [deltas], one [Increment] at each time. *)
Fixpoint increments (key : string) (ds : list (Time * Z)) (m : Memory)
  : Memory * list (result cache_error Z) :=
  match ds with
  | [] => (m, [])
  | (t, d) :: ds =>
      let '(m, r) := Increment t key d m in
      let '(m, rs) := increments key ds m in (m, r :: rs)
  end.

Fixpoint running_sums (acc : Z) (ds : list (Time * Z)) : list Z :=
  match ds with
  | [] => []
  | (_, d) :: ds => i64 (acc + d) :: running_sums (i64 (acc + d)) ds
  end.

Lemma increments_counter key ds n m :
  min_i64 <= n <= max_i64 ->
  m !! key = Some (mkItem (FormatInt n) zero_time) ->
  (increments key ds m).2 = map Ok (running_sums n ds)
  /\ (increments key ds m).1 !! key
     = Some (mkItem (FormatInt (default n (last (running_sums n ds)))) zero_time).
Proof.
  revert n m. induction ds as [|[t d] ds IH]; intros n m Hn Hm; [done |].
  cbn [increments running_sums]. unfold Increment. rewrite Hm. simpl.
  rewrite ParseInt_FormatInt by done.
  specialize (IH (i64 (n + d)) (<[key := mkItem (FormatInt (i64 (n + d))) zero_time]> m)
    (i64_range _) (lookup_insert_eq _ _ _)) as [IH1 IH2].
  destruct (increments key ds _) as [m' rs]. simpl in *. split; [by f_equal |].
  rewrite IH2, last_cons. by destruct (last _).
Qed.

(** From an absent or expired key, successive [Increment]s return the
    running sums of their deltas, computed in 64-bit two's complement, each
    read back through the decimal text the counter is stored as; a live value
    that is not a base-10 integer is reported and left unchanged. *)
Theorem Increment_running_sums (key : string) (t0 d0 : Z) (ds : list (Time * Z)) (m : Memory) :
  (mem_view t0 m key = None ->
   (increments key ((t0, d0) :: ds) m).2 = map Ok (running_sums 0 ((t0, d0) :: ds)))
  /\ (forall v, mem_view t0 m key = Some v -> ParseInt v = None ->
      Increment t0 key d0 m = (m, Err ErrNotInteger)).
Proof.
  unfold mem_view. split.
  - intros Hv. cbn [increments].
    assert (Increment t0 key d0 m
            = (<[key := mkItem (FormatInt (i64 (0 + d0))) zero_time]> m, Ok (i64 (0 + d0)))) as ->.
    { unfold Increment. destruct (m !! key) as [it|]; [| done]. by destruct (expired it t0). }
    destruct (increments_counter key ds (i64 (0 + d0))
      (<[key := mkItem (FormatInt (i64 (0 + d0))) zero_time]> m)
      (i64_range _) (lookup_insert_eq _ _ _)) as [H _].
    destruct (increments key ds _) as [m' rs]. simpl in *. by rewrite H.
  - intros v Hv Hp. unfold Increment. destruct (m !! key) as [it|]; [| done].
    destruct (expired it t0); [done |]. simplify_eq/=. by rewrite Hp.
Qed.

(** The sweeper is invisible: purging at time [t] changes no answer from
    [t] on, for any key, and leaves no expired entry behind. *)
Theorem purge_unobservable (t : Time) (m : Memory) :
  (forall now k, t <= now -> mem_view now (purgeExpired t m) k = mem_view now m k)
  /\ map_Forall (fun _ it => expired it t = false) (purgeExpired t m).
Proof.
  unfold purgeExpired. split.
  - intros now k Hle. unfold mem_view. rewrite map_lookup_filter.
    destruct (m !! k) as [it|]; simpl; [| done].
    case_guard as Hx; simpl in *; [done |].
    apply not_false_is_true in Hx. by rewrite (expired_mono it t now).
  - intros k it Hk. by apply map_lookup_filter_Some in Hk as [_ Hx].
Qed.

Lemma Many_spec now keys m out k :
  fold_left (many_step now m) keys out !! k
  = if decide (k ∈ keys /\ is_Some (mem_view now m k)) then mem_view now m k else out !! k.
Proof.
  revert out. induction keys as [|key keys IH]; intros out; cbn [fold_left].
  { rewrite decide_False; [done |]. intros [Hk _]. by apply elem_of_nil in Hk. }
  rewrite IH. unfold mem_view, many_step.
  destruct (decide (k = key)) as [->|Hne].
  - destruct (m !! key) as [it|]; [destruct (expired it now)|];
      rewrite ?lookup_insert_eq; repeat case_decide; unfold is_Some in *; set_solver.
  - assert (Hout : (match m !! key with
        | Some it => if expired it now then out else <[key := value it]> out
        | None => out end) !! k = out !! k).
    { destruct (m !! key) as [it|]; [destruct (expired it now)|];
        rewrite ?lookup_insert_ne by done; done. }
    rewrite Hout. repeat case_decide; set_solver.
Qed.

(** The batch read of the in-memory store equals the per-key loop the
    package-level [Many] falls back to: exactly the live keys among those asked
    for, with their values. *)
Theorem Many_equals_fallback (t : Time) (keys : list string) (m : Memory) :
  (forall k, Many t keys m !! k = if decide (k ∈ keys) then mem_view t m k else None)
  /\ (Many_ no_ext t keys m).2 = Ok (Many t keys m).
Proof.
  assert (Hm : forall k, Many t keys m !! k = if decide (k ∈ keys) then mem_view t m k else None).
  { intros k. unfold Many. rewrite Many_spec.
    destruct (mem_view t m k) eqn:E; repeat case_decide; unfold is_Some in *;
      rewrite ?lookup_empty; naive_solver. }
  split; [exact Hm |].
  pose proof (many_loop_view t keys ∅ m) as Hl. unfold Many_, no_ext. simpl.
  destruct (many_loop t keys ∅ m) as [m' [r|e]] eqn:El.
  - simpl. f_equal. apply map_eq. intros k. rewrite Hl, Hm, lookup_empty. simpl.
    destruct (mem_view t m k) eqn:E; repeat case_decide; unfold is_Some in *; naive_solver.
  - exfalso. clear Hl Hm. revert El. generalize (∅ : gmap string string) m.
    induction keys as [|key keys IH]; intros out m0; [done |]. cbn [many_loop]. simpl.
    destruct (Get t key m0) as [m1 [w|]]; apply IH.
Qed.
End MemoryProofs.

(** ** Witnesses *)

Section Witnesses.
Definition wmem : Memory := {["lock" := mkItem "old" 10]}.


Lemma Add_atomic_equals_fallback_witness :
  (Add 15 "lock" "a" 30 wmem).2 = true
  /\ match Add_ no_ext 15 15 "lock" "a" 30 wmem with
     | (_, Ok b) => true = b
     | (_, Err _) => False
     end.
Proof.
  pose proof (Add_atomic_equals_fallback 15 "lock" "a" 30 wmem ltac:(by vm_compute)) as H.
  split; [reflexivity | exact (proj1 H)].
Defined.

Lemma Add_one_winner_witness :
  (contend "lock" 30 [(15, "a"); (15, "b"); (40, "c")] wmem).2 = [true; false; false].
Proof.
  exact (proj1 (Add_one_winner "lock" 30 15 "a" [(15, "b"); (40, "c")] wmem
    ltac:(by vm_compute) ltac:(by vm_compute) ltac:(by vm_compute)
    ltac:(repeat constructor; by vm_compute))).
Defined.

Lemma stale_Get_breaks_Add_witness :
  (Add 16 "lock" "b" 30 (Get_evict "lock" (Add 15 "lock" "a" 30 wmem).1)).2 = true.
Proof.
  exact (proj2 (proj2 (stale_Get_breaks_Add "lock" "a" "b" 30 14 15 16 (mkItem "old" 10) wmem
    ltac:(reflexivity) ltac:(reflexivity) ltac:(by vm_compute) ltac:(by vm_compute)))).
Defined.
End Witnesses.
