(* ===== verification/SingleFlight.v ===== *)
(** Concurrent cache fills: [Memory.rememberOnce] of [src/cache/cache.go].

    Each call is a thread whose position ([pc]) is the next critical section
    or channel operation it executes; [flights] is the Go map of in-progress
    producers and [closed] records the results of the flights whose [done]
    channel has been closed.  The items of the store are shared with every
    other cache operation, which may run at any time ([sf_other]). *)

From Stdlib Require Import ZArith Lia Ascii.
From stdpp Require Import base gmap strings list relations numbers.
From S2P Require Import Prelude GoRt Cache.

(** The result a call of [rememberOnce] returns. *)
Inductive sf_result := Value (v : string) | FnErr (e : string) | CtxErr.

Inductive pc :=
| Start                              (** about to take [flightMu] *)
| WaitFor (fid : nat)                (** in the [select] on [fl.done] *)
| Produce (fid : nat)                (** registered; runs [fn], then [Put] *)
| Filled (fid : nat) (r : result string string)  (** has [fl.val], [fl.err] *)
| Unregistered (fid : nat) (r : result string string)  (** before [close(fl.done)] *)
| Panicked (fid : nat)               (** [fn] panicked *)
| Done (r : sf_result).

Record thread := mkThread { t_key : string; t_pc : pc }.

Record sf_state := mkSF {
  mem : Memory;
  flights : gmap string nat;
  closed : gmap nat (result string string);
  next_id : nat;  (** the next flight is a fresh allocation *)
  threads : list thread;
}.

Definition to_result (r : result string string) : sf_result :=
  match r with Ok v => Value v | Err e => FnErr e end.

Section Steps.
Context (ttl : Duration).

(** One atomic operation of a call for [key]. *)
Inductive sf_op (key : string) : pc -> sf_state -> pc -> sf_state -> Prop :=
| op_join s fid :
    flights s !! key = Some fid -> sf_op key Start s (WaitFor fid) s
| op_hit s now v :
    flights s !! key = None -> (Get now key (mem s)).2 = Some v ->
    sf_op key Start s (Done (Value v)) s
| op_lead s now :
    flights s !! key = None -> (Get now key (mem s)).2 = None ->
    sf_op key Start s (Produce (next_id s))
      (mkSF (Get now key (mem s)).1 (<[key := next_id s]> (flights s)) (closed s)
         (S (next_id s)) (threads s))
| op_fill s now fid v :
    sf_op key (Produce fid) s (Filled fid (Ok v))
      (mkSF (Put now key v ttl (mem s)) (flights s) (closed s) (next_id s) (threads s))
| op_fail s fid e :
    sf_op key (Produce fid) s (Filled fid (Err e)) s
| op_panic s fid :
    sf_op key (Produce fid) s (Panicked fid) s
| op_unregister s fid r :
    sf_op key (Filled fid r) s (Unregistered fid r)
      (mkSF (mem s) (delete key (flights s)) (closed s) (next_id s) (threads s))
| op_close s fid r :
    sf_op key (Unregistered fid r) s (Done (to_result r))
      (mkSF (mem s) (flights s) (<[fid := r]> (closed s)) (next_id s) (threads s))
| op_wake s fid r :
    closed s !! fid = Some r -> sf_op key (WaitFor fid) s (Done (to_result r)) s
| op_cancel s fid :
    sf_op key (WaitFor fid) s (Done CtxErr) s.

Definition set_threads (ts : list thread) (s : sf_state) : sf_state :=
  mkSF (mem s) (flights s) (closed s) (next_id s) ts.

Inductive sf_step : sf_state -> sf_state -> Prop :=
| sf_arrive s key :
    sf_step s (set_threads (threads s ++ [mkThread key Start]) s)
| sf_move s s' l1 l2 key p p' :
    threads s = l1 ++ mkThread key p :: l2 ->
    sf_op key p s p' s' ->
    sf_step s (set_threads (l1 ++ mkThread key p' :: l2) s')
| sf_other s m' :
    sf_step s (mkSF m' (flights s) (closed s) (next_id s) (threads s)).

Definition sf_reachable : sf_state -> Prop := rtc sf_step (mkSF ∅ ∅ ∅ 0 []).
End Steps.

(** ** Invariant *)

(** The flight a thread leads and has not unregistered. *)
Definition leads (t : thread) : option (string * nat) :=
  match t_pc t with
  | Produce fid | Filled fid _ | Panicked fid => Some (t_key t, fid)
  | _ => None
  end.

Definition waits_on (t : thread) : option nat :=
  match t_pc t with WaitFor fid => Some fid | _ => None end.

(** The flight a thread still has to close. *)
Definition to_close (t : thread) : option nat :=
  match t_pc t with
  | Produce fid | Filled fid _ | Unregistered fid _ | Panicked fid => Some fid
  | _ => None
  end.

(** The invariant relates the two maps and the allocation counter to what the
    threads lead ([L]), still have to close ([C]) and wait for ([W]). *)
Record flight_inv (fl : gmap string nat) (cl : gmap nat (result string string)) (n : nat)
    (L : list (string * nat)) (C W : list nat) : Prop := mkInv {
  inv_leads : forall k fid, fl !! k = Some fid <-> (k, fid) ∈ L;
  inv_nodup : NoDup C;
  inv_sub : forall k fid, (k, fid) ∈ L -> fid ∈ C;
  inv_open : forall fid, fid ∈ C -> (fid < n)%nat /\ cl !! fid = None;
  inv_waits : forall fid, fid ∈ W -> fid ∈ C \/ is_Some (cl !! fid);
  inv_closed : forall fid, is_Some (cl !! fid) -> (fid < n)%nat;
}.

Definition sf_inv (s : sf_state) : Prop :=
  flight_inv (flights s) (closed s) (next_id s)
    (omap leads (threads s)) (omap to_close (threads s)) (omap waits_on (threads s)).

Lemma flight_inv_waits fl cl n L C W W' :
  flight_inv fl cl n L C W ->
  (forall fid, fid ∈ W' -> fid ∈ W \/ fid ∈ C) ->
  flight_inv fl cl n L C W'.
Proof.
  intros [? ? ? ? Hw ?] Hsub. split; try done.
  intros fid [H|H]%Hsub; [by apply Hw | by left].
Qed.

Lemma flight_inv_lead fl cl n key L1 L2 C1 C2 W :
  flight_inv fl cl n (L1 ++ L2) (C1 ++ C2) W -> fl !! key = None ->
  flight_inv (<[key := n]> fl) cl (S n) (L1 ++ (key, n) :: L2) (C1 ++ n :: C2) W.
Proof.
  intros [Hl Hnd Hs Ho Hw Hc] Hk.
  assert (Hfresh : n ∉ C1 ++ C2) by (intros [? _]%Ho; lia).
  split.
  - intros k fid. destruct (decide (k = key)) as [->|Hne].
    + rewrite lookup_insert_eq. split; [intros; simplify_eq; set_solver |].
      intros Hin. assert ((key, fid) ∈ L1 ++ L2 \/ fid = n) as [H|H] by set_solver;
        [apply Hl in H; congruence | congruence].
    + rewrite lookup_insert_ne by done. rewrite Hl. set_solver.
  - rewrite list.NoDup_app, list.NoDup_cons. apply list.NoDup_app in Hnd. set_solver.
  - intros k fid Hin. assert ((k, fid) ∈ L1 ++ L2 \/ fid = n) as [H|H] by set_solver.
    + apply Hs in H. set_solver.
    + set_solver.
  - intros fid Hin. assert (fid ∈ C1 ++ C2 \/ fid = n) as [H|H] by set_solver.
    + apply Ho in H. split; [lia | by apply H].
    + subst. split; [lia |]. destruct (cl !! n) eqn:E; [| done].
      assert (n < n)%nat by (apply Hc; eauto). lia.
  - intros fid [H|H]%Hw; [left; set_solver | by right].
  - intros fid H%Hc. lia.
Qed.

Lemma flight_inv_unregister fl cl n key fid0 L1 L2 C W :
  flight_inv fl cl n (L1 ++ (key, fid0) :: L2) C W -> (key, fid0) ∉ L1 ++ L2 ->
  flight_inv (delete key fl) cl n (L1 ++ L2) C W.
Proof.
  intros [Hl Hnd Hs Ho Hw Hc] Hnot. split; try done.
  - intros k fid. destruct (decide (k = key)) as [->|Hne].
    + rewrite lookup_delete_eq. split; [done |]. intros Hin. exfalso.
      assert (fl !! key = Some fid) by (apply Hl; set_solver).
      assert (fl !! key = Some fid0) by (apply Hl; set_solver). by simplify_eq.
    + rewrite lookup_delete_ne by done. rewrite Hl. set_solver.
  - intros k fid Hin. apply (Hs k). set_solver.
Qed.

Lemma flight_inv_close fl cl n fid0 r L C1 C2 W :
  flight_inv fl cl n L (C1 ++ fid0 :: C2) W -> (forall k, (k, fid0) ∉ L) ->
  flight_inv fl (<[fid0 := r]> cl) n L (C1 ++ C2) W.
Proof.
  intros [Hl Hnd Hs Ho Hw Hc] Hnot.
  assert (Hne : fid0 ∉ C1 ++ C2).
  { apply list.NoDup_app in Hnd as (? & Hd & [? ?]%list.NoDup_cons). set_solver. }
  split; try done.
  - apply list.NoDup_app in Hnd as (H1 & Hd & [? H2]%list.NoDup_cons). apply list.NoDup_app. set_solver.
  - intros k fid Hin. pose proof (Hs k fid Hin). pose proof (Hnot k).
    assert (fid <> fid0) by congruence. set_solver.
  - intros fid Hin. assert (fid <> fid0) by congruence.
    rewrite lookup_insert_ne by done. apply Ho. set_solver.
  - intros fid Hin. destruct (decide (fid = fid0)) as [->|].
    + right. rewrite lookup_insert_eq. by eexists.
    + rewrite lookup_insert_ne by done. destruct (Hw fid Hin); [left; set_solver | by right].
  - intros fid. destruct (decide (fid = fid0)) as [->|].
    + intros _. apply Ho. set_solver.
    + rewrite lookup_insert_ne by done. apply Hc.
Qed.

(** Distinct threads have distinct flights to close. *)
Lemma leads_to_close t k fid : leads t = Some (k, fid) -> to_close t = Some fid.
Proof. destruct t as [k' []]; unfold leads, to_close; simpl; by intros; simplify_eq. Qed.

Lemma elem_of_leads (ts : list thread) (k : string) (fid : nat) : (k, fid) ∈ omap leads ts -> fid ∈ omap to_close ts.
Proof.
  rewrite !list_elem_of_omap. intros (t & Hin & Hl%leads_to_close). eauto.
Qed.

Lemma not_led_elsewhere l1 l2 t fid k :
  NoDup (omap to_close (l1 ++ t :: l2)) -> to_close t = Some fid ->
  (k, fid) ∉ omap leads (l1 ++ l2).
Proof.
  rewrite omap_middle. intros Hnd Ht Hin. rewrite Ht in Hnd. rewrite omap_app in Hin.
  apply list.NoDup_app in Hnd as (_ & Hd & [Hn _]%list.NoDup_cons). simpl in *.
  apply elem_of_app in Hin as [Hin%elem_of_leads | Hin%elem_of_leads]; set_solver.
Qed.

Lemma sf_op_inv ttl key p s p' s' l1 l2 :
  threads s = l1 ++ mkThread key p :: l2 -> sf_op ttl key p s p' s' -> sf_inv s ->
  sf_inv (set_threads (l1 ++ mkThread key p' :: l2) s').
Proof.
  intros Hts Hop Hinv. unfold sf_inv in *. rewrite Hts in Hinv.
  pose proof (inv_nodup _ _ _ _ _ _ Hinv) as Hnd.
  pose proof (fun fid k => not_led_elsewhere l1 l2 (mkThread key p) fid k Hnd) as Hnot.
  rewrite !omap_middle in Hinv. simpl. rewrite !omap_middle.
  destruct Hop; unfold leads, to_close, waits_on in Hinv |- *; simpl in *;
    fold leads to_close waits_on in *;
    try (eapply flight_inv_waits; [exact Hinv |]; set_solver).
  - eapply flight_inv_waits; [exact Hinv |].
    assert (fid ∈ omap to_close l1 ++ omap to_close l2).
    { eapply (inv_sub _ _ _ _ _ _ Hinv). by eapply (inv_leads _ _ _ _ _ _ Hinv). }
    set_solver.
  - by apply flight_inv_lead.
  - eapply flight_inv_unregister; [exact Hinv |]. rewrite <- omap_app. by apply Hnot.
  - apply flight_inv_close; [exact Hinv |]. intros k. rewrite <- omap_app. by apply Hnot.
Qed.

Lemma sf_reachable_inv ttl s : sf_reachable ttl s -> sf_inv s.
Proof.
  apply (rtc_invariant (sf_step ttl) sf_inv).
  - split; simpl; try (intros; set_solver); try (by constructor).
    intros fid [? H]. by rewrite lookup_empty in H.
  - intros s1 s2 Hinv Hstep. destruct Hstep as [s1 key | s1 s2 l1 l2 key p p' Hts Hop | s1 m'].
    + unfold sf_inv, set_threads in *. simpl.
      by rewrite !omap_app; unfold leads, to_close, waits_on; simpl; rewrite !app_nil_r.
    + by eapply sf_op_inv.
    + exact Hinv.
Qed.

(** ** Theorems *)

Lemma omap_NoDup_inj {A B} (f : A -> option B) (l : list A) i j x y z :
  NoDup (omap f l) -> l !! i = Some x -> l !! j = Some y ->
  f x = Some z -> f y = Some z -> i = j.
Proof.
  revert i j. induction l as [|w l IH]; intros i j Hnd Hi Hj Hx Hy; [done |].
  assert (Hin : forall n u, l !! n = Some u -> f u = Some z -> z ∈ omap f l).
  { intros n u Hn Hu. apply list_elem_of_omap. exists u. split; [| done].
    by eapply list_elem_of_lookup_2. }
  assert (Hnd' : NoDup (omap f l)).
  { simpl in Hnd. destruct (f w); [by apply list.NoDup_cons in Hnd as [_ ?] | done]. }
  destruct i as [|i], j as [|j]; simpl in *; simplify_eq; [done | | |].
  - rewrite Hx in Hnd. apply list.NoDup_cons in Hnd as [Hn _]. exfalso. eauto.
  - rewrite Hy in Hnd. apply list.NoDup_cons in Hnd as [Hn _]. exfalso. eauto.
  - f_equal. eauto.
Qed.

(** C5: concurrent [Remember]s of one missing key collapse onto one producer:
    in every interleaving, with other cache operations running in between, no
    two calls for the same key are ever running (or have just run) the
    producer at the same time. *)
Theorem single_producer (ttl : Duration) (s : sf_state) (i j : nat) (t1 t2 : thread)
    (k : string) (f1 f2 : nat) :
  sf_reachable ttl s ->
  threads s !! i = Some t1 -> threads s !! j = Some t2 ->
  leads t1 = Some (k, f1) -> leads t2 = Some (k, f2) ->
  i = j.
Proof.
  intros Hr%sf_reachable_inv Hi Hj H1 H2.
  assert (Hf : forall n t f, threads s !! n = Some t -> leads t = Some (k, f) ->
                 flights s !! k = Some f).
  { intros n t f Hn Hl. apply (inv_leads _ _ _ _ _ _ Hr). apply list_elem_of_omap.
    exists t. split; [by eapply list_elem_of_lookup_2 | done]. }
  pose proof (Hf _ _ _ Hi H1). pose proof (Hf _ _ _ Hj H2). simplify_eq.
  eapply (omap_NoDup_inj to_close _ i j); eauto using leads_to_close.
  apply (inv_nodup _ _ _ _ _ _ Hr).
Qed.

(** No waiter is orphaned: the flight a call waits for has either been
    closed, so that the call can take its result, or still has a producer that
    has not closed it. *)
Theorem waiters_have_producer (ttl : Duration) (s : sf_state) (t : thread) (fid : nat) :
  sf_reachable ttl s -> t ∈ threads s -> t_pc t = WaitFor fid ->
  (exists r, closed s !! fid = Some r)
  \/ exists p, p ∈ threads s /\ to_close p = Some fid.
Proof.
  intros Hr%sf_reachable_inv Hin Ht.
  destruct (inv_waits _ _ _ _ _ _ Hr fid) as [H|[r H]].
  - apply list_elem_of_omap. exists t. split; [done |]. unfold waits_on. by rewrite Ht.
  - right. by apply list_elem_of_omap in H.
  - eauto.
Qed.

Lemma panicked_stays ttl s s' k fid :
  mkThread k (Panicked fid) ∈ threads s -> rtc (sf_step ttl) s s' ->
  mkThread k (Panicked fid) ∈ threads s'.
Proof.
  intros Hin Hr. revert Hin. induction Hr as [|s1 s2 s3 Hstep _ IH]; [done |].
  intros Hin. apply IH. destruct Hstep as [s1 key | s1 s2 l1 l2 key p p' Hts Hop | s1 m'];
    simpl; [set_solver | | done].
  rewrite Hts in Hin. apply elem_of_app in Hin as [|[Heq|]%elem_of_cons]; [set_solver | | set_solver].
  simplify_eq. inversion Hop.
Qed.

(** A producer that panics is never unregistered: from then on every call
    for the key finds the dead flight, can only join it, and a call waiting on
    it can only leave through its context, although the key is missing. *)
Theorem panic_wedges_key (ttl : Duration) (s s' : sf_state) (k : string) (fid : nat) :
  sf_reachable ttl s -> mkThread k (Panicked fid) ∈ threads s ->
  rtc (sf_step ttl) s s' ->
  (forall p s'', sf_op ttl k Start s' p s'' -> p = WaitFor fid)
  /\ (forall p s'', sf_op ttl k (WaitFor fid) s' p s'' -> p = Done CtxErr).
Proof.
  intros Hr Hin Hs.
  pose proof (panicked_stays ttl s s' k fid Hin Hs) as Hin'.
  assert (Hinv : sf_inv s') by (apply (sf_reachable_inv ttl); by eapply rtc_trans).
  assert (Hf : flights s' !! k = Some fid).
  { apply (inv_leads _ _ _ _ _ _ Hinv). apply list_elem_of_omap. by eexists. }
  assert (Hc : closed s' !! fid = None).
  { apply (inv_open _ _ _ _ _ _ Hinv). apply list_elem_of_omap. by eexists. }
  split; intros p s'' Hop; inversion Hop; subst; congruence.
Qed.

(** ** Witnesses *)

Section Witnesses.
(** Two calls for one key: the first produces, the second joins it. *)
Definition w_joined : sf_state :=
  mkSF ∅ {["k" := 0%nat]} ∅ 1 [mkThread "k" (Produce 0); mkThread "k" (WaitFor 0)].
Definition w_panicked : sf_state :=
  mkSF ∅ {["k" := 0%nat]} ∅ 1 [mkThread "k" (Panicked 0); mkThread "k" (WaitFor 0)].

Lemma w_joined_run : sf_reachable 60 w_joined.
Proof.
  eapply rtc_l; [apply (sf_arrive _ _ "k") |]. simpl.
  eapply rtc_l; [eapply (sf_move _ _ _ [] []); [done | by apply (op_lead _ _ _ 5)] |]. simpl.
  eapply rtc_l; [apply (sf_arrive _ _ "k") |]. simpl.
  eapply rtc_l; [eapply (sf_move _ _ _ [_] []); [done | by apply (op_join _ _ _ 0)] |].
  apply rtc_refl.
Qed.

Lemma single_producer_witness :
  threads w_joined !! 0%nat = Some (mkThread "k" (Produce 0)) /\ 0%nat = 0%nat.
Proof.
  split; [reflexivity |].
  exact (single_producer 60 w_joined 0 0 _ _ "k" 0 0 w_joined_run
           eq_refl eq_refl eq_refl eq_refl).
Defined.

Lemma waiters_have_producer_witness :
  exists p, p ∈ threads w_joined /\ to_close p = Some 0%nat.
Proof.
  destruct (waiters_have_producer 60 w_joined (mkThread "k" (WaitFor 0)) 0 w_joined_run
    ltac:(by right; left) eq_refl) as [[r Hr]|H]; [discriminate Hr | exact H].
Defined.

Lemma panic_wedges_key_witness :
  (forall p s'', sf_op 60 "k" Start w_panicked p s'' -> p = WaitFor 0)
  /\ (forall p s'', sf_op 60 "k" (WaitFor 0) w_panicked p s'' -> p = Done CtxErr).
Proof.
  assert (Hr : sf_reachable 60 w_panicked).
  { eapply rtc_r; [apply w_joined_run |].
    apply (sf_move 60 w_joined w_joined [] [mkThread "k" (WaitFor 0)] "k"
             (Produce 0) (Panicked 0)); [done | apply op_panic]. }
  apply (panic_wedges_key 60 w_panicked w_panicked "k" 0 Hr); [by left | apply rtc_refl].
Defined.
End Witnesses.
