(* ===== verification/GqlLexer.v ===== *)
(** The GraphQL lexer of [src/graphql/lexer.go].

    [rest] is the decoded form of [src[pos:]]: positions only ever move by
    whole runes, so scanning is structural recursion on it.  Letters and digits
    above U+00FF come from the Unicode tables of the [unicode] package, which
    are the parameters [uni_letter] and [uni_digit]. *)

From Stdlib Require Import ZArith Lia Ascii.
From stdpp Require Import base gmap strings list numbers.
From S2P Require Import Prelude GoRt GoStrconv GoUtf8.

Inductive tokenKind :=
| tEOF | tName | tInt | tFloat | tString
| tBraceL | tBraceR | tParenL | tParenR | tBracketL | tBracketR
| tColon | tDollar | tEquals | tBang | tSpread.

#[export] Instance tokenKind_eq_dec : EqDecision tokenKind.
Proof. solve_decision. Defined.

Record token := mkToken { kind : tokenKind; tval : string; tline : Z; tcol : Z }.

(** The errors of the package, by the message they carry. *)
Inductive gql_error :=
| ErrUnexpectedDot (line col : Z)
| ErrUnexpectedChar (r line col : Z)
| ErrUnterminatedString (line col : Z)
| ErrBadUnicode (hex : option string) (line col : Z)
| ErrInvalidEscape (r line col : Z)
| ErrTooManyTokens (max : Z)
| ErrParse (msg : string) (line col : Z) (got : string).

Record lexer := mkLexer { rest : runes; line : Z; col : Z }.

Definition newLexer (src : string) : lexer := mkLexer (decode_all src) 1 1.

(** The position after consuming rune [r]. *)
Definition step_line (r line : Z) : Z := if r =? 10 then line + 1 else line.
Definition step_col (r col : Z) : Z := if r =? 10 then 1 else col + 1.

Definition advance (l : lexer) : Z * lexer :=
  match rest l with
  | [] => (RuneError, mkLexer [] (line l) (col l + 1))
  | (r, _) :: rs => (r, mkLexer rs (step_line r (line l)) (step_col r (col l)))
  end.

Definition peek (l : lexer) : Z :=
  match rest l with [] => 0 | (r, _) :: _ => r end.

Definition is_blank (r : Z) : bool :=
  (r =? 32) || (r =? 9) || (r =? 10) || (r =? 13) || (r =? 44) || (r =? 0xFEFF).

(** The two nested loops of [skipIgnored]; [comment]: inside the inner one. *)
Fixpoint skip_from (comment : bool) (rs : runes) (line col : Z) : lexer :=
  match rs with
  | [] => mkLexer [] line col
  | (r, _) :: rs' =>
      let continue b := skip_from b rs' (step_line r line) (step_col r col) in
      if comment then if r =? 10 then continue false else continue true
      else if is_blank r then continue false
      else if r =? 35 then continue true
      else mkLexer rs line col
  end.

Definition skipIgnored (l : lexer) : lexer := skip_from false (rest l) (line l) (col l).

Definition is_digit_rune (r : Z) : bool := (48 <=? r) && (r <=? 57).

(** Advance while [f] holds, up to the end; also the bytes passed over. *)
Fixpoint scan_while (f : Z -> bool) (rs : runes) (line col : Z) : string * lexer :=
  match rs with
  | [] => (EmptyString, mkLexer [] line col)
  | (r, b) :: rs' =>
      if f r
      then let '(s, l) := scan_while f rs' (step_line r line) (step_col r col) in
           ((b +:+ s)%string, l)
      else (EmptyString, mkLexer rs line col)
  end.

Definition scan (f : Z -> bool) (l : lexer) : string * lexer :=
  scan_while f (rest l) (line l) (col l).

(** [advance], also giving the bytes it passes over. *)
Definition advance_bytes (l : lexer) : string * lexer :=
  (match rest l with [] => EmptyString | (_, b) :: _ => b end, (advance l).2).

Section Lexer.
Context (uni_letter uni_digit : Z -> bool).

(** [unicode.IsLetter] and [unicode.IsDigit]. *)
Definition IsLetter (r : Z) : bool :=
  if r <=? 0xFF
  then ((65 <=? r) && (r <=? 90)) || ((97 <=? r) && (r <=? 122))
       || (r =? 0xAA) || (r =? 0xB5) || (r =? 0xBA)
       || ((0xC0 <=? r) && negb (r =? 0xD7) && negb (r =? 0xF7))
  else uni_letter r.
Definition IsDigit (r : Z) : bool :=
  if r <=? 0xFF then is_digit_rune r else uni_digit r.

Definition name_start (r : Z) : bool := IsLetter r || (r =? 95).
Definition name_rune (r : Z) : bool := IsLetter r || IsDigit r || (r =? 95).

Definition lexName (line0 col0 : Z) (l : lexer) : token * lexer :=
  let '(text, l) := scan name_rune l in (mkToken tName text line0 col0, l).

Definition lexNumber (line0 col0 : Z) (l : lexer) : token * lexer :=
  let '(s0, l) := if peek l =? 45 then advance_bytes l else (EmptyString, l) in
  let '(s1, l) := scan is_digit_rune l in
  let '(frac, s2, l) :=
    if peek l =? 46
    then let '(dot, l) := advance_bytes l in
         let '(ds, l) := scan is_digit_rune l in (true, (dot +:+ ds)%string, l)
    else (false, EmptyString, l) in
  let '(exp, s3, l) :=
    if (peek l =? 101) || (peek l =? 69)
    then let '(e, l) := advance_bytes l in
         let '(sg, l) := if (peek l =? 43) || (peek l =? 45)
                         then advance_bytes l else (EmptyString, l) in
         let '(ds, l) := scan is_digit_rune l in (true, (e +:+ sg +:+ ds)%string, l)
    else (false, EmptyString, l) in
  let text := (s0 +:+ s1 +:+ s2 +:+ s3)%string in
  (mkToken (if frac || exp then tFloat else tInt) text line0 col0, l).

(** The escapes of one character. *)
Definition simple_escape (e : Z) : option Z :=
  if (e =? 34) || (e =? 92) || (e =? 47) then Some e
  else if e =? 110 then Some 10
  else if e =? 116 then Some 9
  else if e =? 114 then Some 13
  else if e =? 98 then Some 8
  else if e =? 102 then Some 12
  else None.

(** The loop of [lexString], after the opening quote; [b] is the builder. *)
Fixpoint lex_string_from (line0 col0 : Z) (rs : runes) (line col : Z) (b : string)
  : result gql_error (token * lexer) :=
  match rs with
  | [] => Err (ErrUnterminatedString line0 col0)
  | (r, _) :: rs =>
      let line := step_line r line in
      let col := step_col r col in
      if r =? 34 then Ok (mkToken tString b line0 col0, mkLexer rs line col)
      else if r =? 10 then Err (ErrUnterminatedString line0 col0)
      else if r =? 92
      then match rs with
           | [] => Err (ErrInvalidEscape RuneError line0 col0)
           | (e, _) :: rs =>
               let line := step_line e line in
               let col := step_col e col in
               match simple_escape e with
               | Some c =>
                   lex_string_from line0 col0 rs line col (b +:+ encode_rune c)
               | None =>
                   if e =? 117
                   then
                     let src := bytes_of rs in
                     if (String.length src <? 4)%nat
                     then Err (ErrBadUnicode None line0 col0)
                     else
                       let hex := String.substring 0 4 src in
                       match sscanf_04x hex with
                       | None => Err (ErrBadUnicode (Some hex) line0 col0)
                       | Some cp =>
                           let b := (b +:+ encode_rune cp)%string in
                           match rs with
                           | (r1, _) :: (r2, _) :: (r3, _) :: (r4, _) :: rs =>
                               let mv f x := f r4 (f r3 (f r2 (f r1 x))) in
                               lex_string_from line0 col0 rs
                                 (mv step_line line) (mv step_col col) b
                           | _ => Err (ErrUnterminatedString line0 col0)
                           end
                       end
                   else Err (ErrInvalidEscape e line0 col0)
               end
           end
      else lex_string_from line0 col0 rs line col (b +:+ encode_rune r)
  end.

Definition lexString (line0 col0 : Z) (l : lexer) : result gql_error (token * lexer) :=
  let l := (advance l).2 in
  lex_string_from line0 col0 (rest l) (line l) (col l) EmptyString.

(** The one-character tokens. *)
Definition punctuator (r : Z) : option (tokenKind * string) :=
  if r =? 123 then Some (tBraceL, "{")
  else if r =? 125 then Some (tBraceR, "}")
  else if r =? 40 then Some (tParenL, "(")
  else if r =? 41 then Some (tParenR, ")")
  else if r =? 91 then Some (tBracketL, "[")
  else if r =? 93 then Some (tBracketR, "]")
  else if r =? 58 then Some (tColon, ":")
  else if r =? 36 then Some (tDollar, "$")
  else if r =? 61 then Some (tEquals, "=")
  else if r =? 33 then Some (tBang, "!")
  else None.

Definition next (l : lexer) : result gql_error (token * lexer) :=
  let l := skipIgnored l in
  let line0 := line l in
  let col0 := col l in
  match rest l with
  | [] => Ok (mkToken tEOF EmptyString line0 col0, l)
  | (r, _) :: _ =>
      match punctuator r with
      | Some (k, s) => Ok (mkToken k s line0 col0, (advance l).2)
      | None =>
          if r =? 46
          then if String.prefix "..." (bytes_of (rest l))
               then Ok (mkToken tSpread "..." line0 col0,
                        (advance (advance (advance l).2).2).2)
               else Err (ErrUnexpectedDot line0 col0)
          else if r =? 34 then lexString line0 col0 l
          else if (r =? 45) || is_digit_rune r then Ok (lexNumber line0 col0 l)
          else if name_start r then Ok (lexName line0 col0 l)
          else Err (ErrUnexpectedChar r line0 col0)
      end
  end.

(** *** Every token consumes input *)

Definition left_ (l : lexer) : nat := length (rest l).

Lemma skip_from_left c rs line col : (left_ (skip_from c rs line col) <= length rs)%nat.
Proof.
  revert c line col. induction rs as [|[r b] rs IH]; intros c line col; [done |].
  cbn [skip_from]. cbv zeta.
  assert (forall c' l' k', (left_ (skip_from c' rs l' k') <= length ((r, b) :: rs))%nat).
  { intros. specialize (IH c' l' k'). simpl. lia. }
  destruct c; repeat case_match; auto; unfold left_; simpl; lia.
Qed.

Lemma scan_while_left f rs line col :
  (left_ (scan_while f rs line col).2 <= length rs)%nat.
Proof.
  revert line col. induction rs as [|[r b] rs IH]; intros line col; [done |].
  cbn [scan_while]. destruct (f r); [| done].
  specialize (IH (step_line r line) (step_col r col)).
  destruct (scan_while f rs _ _) as [s l]. simpl in *. lia.
Qed.

Lemma scan_left f l : (left_ (scan f l).2 <= left_ l)%nat.
Proof. apply scan_while_left. Qed.

Lemma scan_first f l r b rs :
  rest l = (r, b) :: rs -> f r = true -> (left_ (scan f l).2 < left_ l)%nat.
Proof.
  intros Hr Hf. unfold scan, left_ at 2. rewrite Hr. cbn [scan_while]. rewrite Hf.
  pose proof (scan_while_left f rs (step_line r (line l)) (step_col r (col l))).
  destruct (scan_while f rs _ _) as [s l']. simpl in *. lia.
Qed.

Lemma advance_left l : left_ (advance l).2 = (left_ l - 1)%nat.
Proof. unfold advance, left_. destruct (rest l) as [|[r b] rs]; simpl; lia. Qed.

Lemma lex_string_left line0 col0 rs line col b t l :
  lex_string_from line0 col0 rs line col b = Ok (t, l) ->
  (left_ l <= length rs)%nat /\ kind t = tString.
Proof.
  revert line col b. remember (length rs) as n eqn:Hn. revert rs Hn.
  induction n as [n IH] using lt_wf_ind. intros rs Hn line col b H.
  destruct rs as [|[r x] rs]; [done |]. cbn [lex_string_from] in H.
  assert (Hrec : forall rs' l' c' b', (length rs' < n)%nat ->
    lex_string_from line0 col0 rs' l' c' b' = Ok (t, l) ->
    (left_ l <= n)%nat /\ kind t = tString).
  { intros rs' l' c' b' Hlt H'.
    destruct (IH (length rs') Hlt rs' eq_refl _ _ _ H'). split; [lia | done]. }
  simpl in Hn. destruct (r =? 34); [simplify_eq; unfold left_; simpl; split; [lia | done] |].
  destruct (r =? 10); [done |].
  destruct (r =? 92); [| eapply Hrec; [| exact H]; lia].
  destruct rs as [|[e y] rs]; [done |]. simpl in Hn.
  destruct (simple_escape e); [eapply Hrec; [| exact H]; lia |].
  destruct (e =? 117); [| done]. destruct (_ <? 4)%nat; [done |].
  destruct (sscanf_04x _); [| done].
  destruct rs as [|[r1 ?] [|[r2 ?] [|[r3 ?] [|[r4 ?] rs]]]]; try done.
  simpl in Hn. eapply Hrec; [| exact H]. lia.
Qed.

Lemma lexNumber_left line0 col0 l r b rs :
  rest l = (r, b) :: rs -> (r =? 45) || is_digit_rune r = true ->
  (left_ (lexNumber line0 col0 l).2 < left_ l)%nat
  /\ kind (lexNumber line0 col0 l).1 <> tEOF.
Proof.
  intros Hr Hd. unfold lexNumber.
  destruct (if peek l =? 45 then advance_bytes l else (EmptyString, l)) as [s0 l0] eqn:E0.
  destruct (scan is_digit_rune l0) as [s1 l1] eqn:E1.
  assert (H1 : (left_ l1 < left_ l)%nat).
  { pose proof (scan_left is_digit_rune l0) as H. rewrite E1 in H. simpl in H.
    unfold peek in E0. rewrite Hr in E0. destruct (r =? 45) eqn:Em; [unfold advance_bytes in E0 |]; simplify_eq.
    - rewrite advance_left in H. unfold left_ in *. rewrite Hr in *. simpl in *. lia.
    - pose proof (scan_first is_digit_rune l0 r b rs Hr Hd) as H'. rewrite E1 in H'. done. }
  assert (Ha : forall x y, advance_bytes x = y -> (left_ y.2 <= left_ x)%nat).
  { intros x y <-. simpl. rewrite advance_left. lia. }
  assert (Hs : forall f x y, scan f x = y -> (left_ y.2 <= left_ x)%nat).
  { intros f x y <-. apply scan_left. }
  match goal with |- context [if peek l1 =? 46 then ?x else ?y] =>
    destruct (if peek l1 =? 46 then x else y) as [[fr s2] l2] eqn:E2 end.
  assert (H2 : (left_ l2 <= left_ l1)%nat).
  { destruct (peek l1 =? 46); [| by simplify_eq].
    destruct (advance_bytes l1) as [d la] eqn:Ea. destruct (scan is_digit_rune la) as [ds lb] eqn:Eb.
    simplify_eq. apply Ha in Ea. apply Hs in Eb. simpl in *. lia. }
  match goal with |- context [if ?c then ?x else ?y] =>
    destruct (if c then x else y) as [[ex s3] l3] eqn:E3 end.
  assert (H3 : (left_ l3 <= left_ l2)%nat).
  { destruct ((peek l2 =? 101) || (peek l2 =? 69)); [| by simplify_eq].
    destruct (advance_bytes l2) as [d la] eqn:Ea.
    destruct (if (peek la =? 43) || (peek la =? 45) then advance_bytes la else (EmptyString, la))
      as [sg lb] eqn:Eb.
    destruct (scan is_digit_rune lb) as [ds lc] eqn:Ec. simplify_eq.
    apply Ha in Ea. apply Hs in Ec.
    assert (left_ lb <= left_ la)%nat.
    { destruct ((peek la =? 43) || (peek la =? 45)); [by apply Ha in Eb | by simplify_eq]. }
    simpl in *. lia. }
  simpl. split; [lia | by destruct (fr || ex)].
Qed.

(** Every token but the end of the input consumes a rune, and at the end the
    input is used up. *)
Lemma next_left l t l' :
  next l = Ok (t, l') ->
  if decide (kind t = tEOF) then rest l' = [] else (left_ l' < left_ l)%nat.
Proof.
  pose proof (skip_from_left false (rest l) (line l) (col l)) as Hskip.
  unfold next, skipIgnored. set (l0 := skip_from false _ _ _) in *.
  change (length (rest l)) with (left_ l) in Hskip.
  destruct (rest l0) as [|[r b] rs] eqn:Hr; [by intros; simplify_eq |].
  assert (Hpos : left_ l0 = S (length rs)) by (unfold left_; by rewrite Hr).
  destruct (punctuator r) as [[k s]|] eqn:Hp.
  { intros [= <- <-]. rewrite decide_False.
    - rewrite advance_left. lia.
    - unfold punctuator in Hp. simpl. repeat case_match; congruence. }
  destruct (r =? 46).
  { destruct (String.prefix _ _); intros ?; simplify_eq. simpl. rewrite !advance_left. lia. }
  destruct (r =? 34).
  { unfold lexString. intros [Hl Hk]%lex_string_left. rewrite Hk. simpl.
    change (length (rest (advance l0).2)) with (left_ (advance l0).2) in Hl.
    rewrite advance_left in Hl. lia. }
  destruct ((r =? 45) || is_digit_rune r) eqn:Hn.
  { intros [= Heq]. destruct (lexNumber_left (line l0) (col l0) l0 r b rs Hr Hn) as [H1 H2].
    rewrite Heq in *. rewrite decide_False by done. simpl in *. lia. }
  destruct (name_start r) eqn:Hs; [| done].
  unfold lexName. destruct (scan name_rune l0) as [txt l1] eqn:E. intros [= <- <-]. simpl.
  assert (name_rune r = true) as Hf.
  { unfold name_rune, name_start in *. by destruct (IsLetter r), (IsDigit r). }
  pose proof (scan_first name_rune l0 r b rs Hr Hf) as H. rewrite E in H. simpl in H. lia.
Qed.

Lemma next_at_end l : rest l = [] -> exists t l', next l = Ok (t, l') /\ kind t = tEOF.
Proof. intros Hr. unfold next, skipIgnored. rewrite Hr. simpl. by do 2 eexists. Qed.
End Lexer.
