(* ===== verification/GqlParser.v ===== *)
(** The GraphQL parser of [src/graphql/parser.go].

    The parser is a client of the lexer through the interface [TokenSource]: it
    only ever asks for the next token.  A parser step is a function of
    [pstate]; [None] means that the fuel ran out, which [parse_terminates]
    excludes for the fuel [parseDocumentLimited] supplies.  Go maps of argument
    and object fields are association lists kept duplicate-free by [map_set];
    the recursive calls of the mutually recursive methods are arguments of the
    methods that come first here. *)

From Stdlib Require Import ZArith Lia Ascii.
From stdpp Require Import base gmap strings list numbers.
From S2P Require Import Prelude GoRt GoStrconv GoUtf8 GqlLexer.

(** ** The interface to the lexer *)

#[local] Set Warnings "-register-all".

Class TokenSource (L : Type) := {
  lex_next : L -> result gql_error (token * L);
  lex_size : L -> nat;
}.

(** Every token but the end of the input uses some of it up. *)
Class TokenSourceLaws (L : Type) `{TokenSource L} : Prop := {
  lex_next_shrinks l t l' :
    lex_next l = Ok (t, l') ->
    (lex_size l' + (if decide (kind t = tEOF) then 0 else 1) <= lex_size l)%nat;
}.

(** ** Syntax trees *)

Inductive operationKind := opQuery | opMutation.

Inductive value :=
| VNull
| VInt (text : string)
| VFloat (text : string)
| VString (s : string)
| VBool (b : bool)
| VEnum (name : string)
| VVariable (name : string)
| VList (items : list value)
| VObject (fields : list (string * value)).

Inductive typeRef :=
| TNamed (name : string) (nonNull : bool)
| TList (inner : typeRef) (nonNull : bool).

Inductive selection :=
| SField (alias name : string) (args : list (string * value)) (selSet : list selection)
| SInline (typeOn : string) (selSet : list selection)
| SSpread (name : string).

(** No default is the zero [value], of kind [valNull]. *)
Record variableDef := mkVar { v_name : string; v_typ : typeRef; v_default : value }.

Record operation := mkOp {
  op_kind : operationKind; op_name : string;
  op_variables : list variableDef; op_selSet : list selection }.

Record fragmentDef := mkFrag {
  fr_name : string; fr_typeOn : string; fr_selSet : list selection }.

Record document := mkDoc {
  operations : list operation; fragments : gmap string fragmentDef }.

(** [m[k] = v]. *)
Fixpoint map_set {A} (k : string) (v : A) (m : list (string * A)) : list (string * A) :=
  match m with
  | [] => [(k, v)]
  | (k', v') :: m => if decide (k = k') then (k, v) :: m else (k', v') :: map_set k v m
  end.

(** ** The parser *)

Section Parser.
Context {L : Type} `{TokenSource L} (maxTokens : Z).

Record pstate := mkP { lex : L; tok : token; tokens : Z }.

Definition P (A : Type) : Type := pstate -> option (result gql_error (A * pstate)).

#[local] Instance P_ret : MRet P := fun A a st => Some (Ok (a, st)).
#[local] Instance P_bind : MBind P := fun A B k m st =>
  match m st with
  | None => None
  | Some (Err e) => Some (Err e)
  | Some (Ok (a, st)) => k a st
  end.

Definition out_of_fuel {A} : P A := fun _ => None.
Definition get_tok : P token := fun st => Some (Ok (tok st, st)).
Definition errf {A} (msg : string) : P A := fun st =>
  Some (Err (ErrParse msg (tline (tok st)) (tcol (tok st)) (tval (tok st)))).

Definition lexNext (st : pstate) : result gql_error (token * pstate) :=
  match lex_next (lex st) with
  | Err e => Err e
  | Ok (t, l) =>
      if decide (kind t = tEOF) then Ok (t, mkP l (tok st) (tokens st))
      else
        let n := tokens st + 1 in
        if (0 <? maxTokens) && (maxTokens <? n) then Err (ErrTooManyTokens maxTokens)
        else Ok (t, mkP l (tok st) n)
  end.

Definition next : P unit := fun st =>
  match lexNext st with
  | Err e => Some (Err e)
  | Ok (t, st) => Some (Ok (tt, mkP (lex st) t (tokens st)))
  end.

(** The test [p.tok.kind == k]. *)
Definition is_kind (k : tokenKind) (t : token) : bool := bool_decide (kind t = k).
Definition is_name (s : string) (t : token) : bool :=
  is_kind tName t && bool_decide (tval t = s).

Definition expect (k : tokenKind) (what : string) : P unit :=
  t ← get_tok;
  if is_kind k t then next else errf ("expected " +:+ what).

(** The current token must be a name, which is consumed. *)
Definition take_name (msg : string) : P string :=
  t ← get_tok;
  if is_kind tName t then (next;; mret (tval t)) else errf msg.

(** The loops [for p.tok.kind != stop], collecting what [body] parses. *)
Fixpoint until {A} (n : nat) (stop : tokenKind) (body : P A) : P (list A) :=
  match n with
  | O => out_of_fuel
  | S n =>
      t ← get_tok;
      if is_kind stop t then mret []
      else (x ← body; xs ← until n stop body; mret (x :: xs))
  end.

(** The loops over [name: value], filling a map. *)
Fixpoint until_fields (n : nat) (stop : tokenKind) (msg : string) (pv : P value)
    (m : list (string * value)) : P (list (string * value)) :=
  match n with
  | O => out_of_fuel
  | S n =>
      t ← get_tok;
      if is_kind stop t then mret m
      else (name ← take_name msg;
            expect tColon "':'";;
            v ← pv;
            until_fields n stop msg pv (map_set name v m))
  end.

Definition parseListValue (n : nat) (parseValue : P value) : P value :=
  next;;
  items ← until n tBracketR
    (t ← get_tok;
     if is_kind tEOF t then errf "unexpected EOF in list value" else parseValue);
  next;;
  mret (VList items).

Definition parseObjectValue (n : nat) (parseValue : P value) : P value :=
  next;;
  fields ← until_fields n tBraceR "expected input object field name" parseValue [];
  next;;
  mret (VObject fields).

Fixpoint parseValue (n : nat) (constOnly : bool) : P value :=
  match n with
  | O => out_of_fuel
  | S n =>
      t ← get_tok;
      match kind t with
      | tDollar =>
          if constOnly then errf "variable not allowed in const value"
          else (next;;
                x ← take_name "expected variable name";
                mret (VVariable x))
      | tInt => next;; mret (VInt (tval t))
      | tFloat => next;; mret (VFloat (tval t))
      | tString => next;; mret (VString (tval t))
      | tName =>
          if bool_decide (tval t = "true") || bool_decide (tval t = "false")
          then (next;; mret (VBool (bool_decide (tval t = "true"))))
          else if bool_decide (tval t = "null")
          then (next;; mret VNull)
          else (next;; mret (VEnum (tval t)))
      | tBracketL => parseListValue n (parseValue n constOnly)
      | tBraceL => parseObjectValue n (parseValue n constOnly)
      | _ => errf "expected value"
      end
  end.

Definition parseArguments (n : nat) : P (list (string * value)) :=
  next;;
  args ← until_fields n tParenR "expected argument name" (parseValue n false) [];
  next;;
  mret args.

Fixpoint parseTypeRef (n : nat) : P typeRef :=
  match n with
  | O => out_of_fuel
  | S n =>
      t ← get_tok;
      tr ← match kind t with
           | tBracketL =>
               next;;
               inner ← parseTypeRef n;
               expect tBracketR "']'";;
               mret (TList inner)
           | tName => next;; mret (TNamed (tval t))
           | _ => errf "expected type reference"
           end;
      t ← get_tok;
      if is_kind tBang t then (next;; mret (tr true)) else mret (tr false)
  end.

Definition parseVariableDef (n : nat) : P variableDef :=
  t ← get_tok;
  if negb (is_kind tDollar t) then errf "expected variable '$'"
  else
    (next;;
     name ← take_name "expected variable name";
     expect tColon "':'";;
     typ ← parseTypeRef n;
     t ← get_tok;
     if is_kind tEquals t
     then (next;; dv ← parseValue n false; mret (mkVar name typ dv))
     else mret (mkVar name typ VNull)).

Definition parseVariableDefs (n : nat) : P (list variableDef) :=
  next;;
  defs ← until n tParenR (parseVariableDef n);
  next;;
  mret defs.

(** [... on T { }], [... { }] or [...Name]. *)
Definition parseFragment (parseSelectionSet : P (list selection)) : P selection :=
  next;;
  t ← get_tok;
  if is_name "on" t
  then (next;;
        typeOn ← take_name "expected type condition after 'on'";
        sel ← parseSelectionSet;
        mret (SInline typeOn sel))
  else if is_kind tBraceL t
  then (sel ← parseSelectionSet; mret (SInline EmptyString sel))
  else (name ← take_name "expected fragment name or 'on'"; mret (SSpread name)).

(** [[alias :] name [args] [selectionSet]]. *)
Definition parseField (n : nat) (parseSelectionSet : P (list selection)) : P selection :=
  first ← take_name "expected field name";
  t ← get_tok;
  '(alias, name) ←
    (if is_kind tColon t
     then (next;;
           name ← take_name "expected field name after alias";
           mret (first, name))
     else mret (EmptyString, first) : P (string * string));
  t ← get_tok;
  args ← (if is_kind tParenL t then parseArguments n else mret []);
  t ← get_tok;
  sel ← (if is_kind tBraceL t then parseSelectionSet else mret []);
  mret (SField alias name args sel).

Fixpoint parseSelectionSet (n : nat) : P (list selection) :=
  match n with
  | O => out_of_fuel
  | S n =>
      next;;
      sels ← until n tBraceR
        (t ← get_tok;
         if is_kind tEOF t then errf "unexpected EOF in selection set"
         else if is_kind tSpread t then parseFragment (parseSelectionSet n)
         else parseField n (parseSelectionSet n));
      next;;
      mret sels
  end.

Definition parseSelectionOperation (n : nat) : P operation :=
  sel ← parseSelectionSet n;
  mret (mkOp opQuery EmptyString [] sel).

Definition parseNamedOperation (n : nat) (kind : operationKind) : P operation :=
  next;;
  t ← get_tok;
  name ← (if is_kind tName t then (next;; mret (tval t)) else mret EmptyString);
  t ← get_tok;
  vars ← (if is_kind tParenL t then parseVariableDefs n else mret []);
  t ← get_tok;
  if negb (is_kind tBraceL t) then errf "expected selection set '{'"
  else (sel ← parseSelectionSet n; mret (mkOp kind name vars sel)).

Definition parseFragmentDef (n : nat) : P fragmentDef :=
  next;;
  t ← get_tok;
  if negb (is_kind tName t) then errf "expected fragment name"
  else if bool_decide (tval t = "on") then errf "fragment name must not be 'on'"
  else
    (next;;
     t2 ← get_tok;
     if negb (is_name "on" t2) then errf "expected 'on' in fragment definition"
     else
       (next;;
        typeOn ← take_name "expected type condition";
        t3 ← get_tok;
        if negb (is_kind tBraceL t3) then errf "expected fragment selection set '{'"
        else (sel ← parseSelectionSet n; mret (mkFrag (tval t) typeOn sel)))).

Definition add_op (op : operation) (doc : document) : document :=
  mkDoc (operations doc ++ [op]) (fragments doc).

Fixpoint parseDoc (n : nat) (doc : document) : P document :=
  match n with
  | O => out_of_fuel
  | S n =>
      t ← get_tok;
      if is_kind tEOF t then mret doc
      else if is_kind tBraceL t
      then (op ← parseSelectionOperation (S n); parseDoc n (add_op op doc))
      else if is_name "query" t
      then (op ← parseNamedOperation (S n) opQuery; parseDoc n (add_op op doc))
      else if is_name "mutation" t
      then (op ← parseNamedOperation (S n) opMutation; parseDoc n (add_op op doc))
      else if is_name "subscription" t then errf "subscriptions are not supported"
      else if is_name "fragment" t
      then (frag ← parseFragmentDef (S n);
            parseDoc n (mkDoc (operations doc) (<[fr_name frag := frag]> (fragments doc))))
      else errf "unexpected token at top level"
  end.

Definition parse_from (l : L) : option (result gql_error (document * pstate)) :=
  (next;; parseDoc (lex_size l + 3) (mkDoc [] ∅))
    (mkP l (mkToken tEOF EmptyString 0 0) 0).
End Parser.

(** ** What every parser does to its state

    [wp m Q st]: [m] has fuel enough at [st] and, when it succeeds, [Q] holds of
    its result. *)

Section Progress.
Context {L : Type} `{TokenSourceLaws L} (maxTokens : Z).
Implicit Types (st : @pstate L).

#[local] Existing Instance P_ret.
#[local] Existing Instance P_bind.

Definition wp {A} (m : P (L := L) A) (Q : A -> pstate -> Prop) st : Prop :=
  match m st with
  | None => False
  | Some (Err _) => True
  | Some (Ok (a, st')) => Q a st'
  end.

Lemma wp_ret {A} (a : A) Q st : Q a st -> wp (mret a) Q st.
Proof. done. Qed.

Lemma wp_bind {A B} (m : P A) (k : A -> P B) Q st :
  wp m (fun a => wp (k a) Q) st -> wp (m ≫= k) Q st.
Proof.
  unfold wp, mbind, P_bind. by destruct (m st) as [[[a st']|e]|].
Qed.

Lemma wp_get_tok Q st : Q (tok st) st -> wp get_tok Q st.
Proof. done. Qed.

Lemma wp_errf {A} msg (Q : A -> pstate -> Prop) st : wp (errf msg) Q st.
Proof. done. Qed.

Lemma wp_mono {A} (m : P A) (Q Q' : A -> pstate -> Prop) st :
  wp m Q st -> (forall a st', Q a st' -> Q' a st') -> wp m Q' st.
Proof. unfold wp. destruct (m st) as [[[a st']|e]|]; auto. Qed.

(** Tokens left, the current one included. *)
Definition rem st : nat :=
  (lex_size (lex st) + (if decide (kind (tok st) = tEOF) then 0 else 1))%nat.

(** A state property the parser keeps whenever it pulls a token. *)
Definition stable (I : pstate -> Prop) : Prop :=
  forall st, I st -> wp (next maxTokens) (fun _ => I) st.

Context (I : @pstate L -> Prop) (I_stable : stable I).

(** [I] is kept and input is used up, at least one token if [b]. *)
Definition uses {A} (b : bool) st : A -> pstate -> Prop :=
  fun _ st' => I st' /\ (rem st' + Nat.b2n b <= rem st)%nat.

Lemma wp_next st :
  I st -> wp (next maxTokens) (uses (bool_decide (kind (tok st) <> tEOF)) st) st.
Proof.
  intros Hi. pose proof (I_stable st Hi) as Hs. unfold wp, next, lexNext in *.
  destruct (lex_next (lex st)) as [[t l]|e] eqn:E; [| done].
  pose proof (lex_next_shrinks _ _ _ E) as Hlt.
  assert (forall n, (rem (mkP l t n) + Nat.b2n (bool_decide (kind (tok st) <> tEOF))
                     <= rem st)%nat) as Hrem.
  { intros n. unfold rem. simpl. repeat case_decide; case_bool_decide; simpl; (done || lia). }
  unfold uses. repeat case_match; simplify_eq; simpl in *; auto.
Qed.
(** Decompose a parser into its steps. *)
Ltac wp_step :=
  match goal with
  | |- wp (_ ≫= _) _ _ => apply wp_bind
  | |- wp (mret _) _ _ => apply wp_ret
  | |- wp get_tok _ _ => apply wp_get_tok
  | |- wp (errf _) _ _ => apply wp_errf
  | |- wp (if ?b then _ else _) _ _ => destruct b eqn:?
  | |- wp (match kind ?t with _ => _ end) _ _ => destruct (kind t) eqn:?
  end.

Lemma wp_call {A} b (m : P A) (Q : A -> pstate -> Prop) st :
  wp m (uses b st) st ->
  (forall a st', I st' -> (rem st' + Nat.b2n b <= rem st)%nat -> Q a st') ->
  wp m Q st.
Proof. intros H1 H2. eapply wp_mono; [exact H1 |]. intros a st' [Hi Hr]. auto. Qed.

Lemma wp_next_weak st : I st -> wp (next maxTokens) (uses false st) st.
Proof.
  intros Hi. eapply wp_call; [by apply wp_next |].
  intros a st' Hi' Hr. split; [done | simpl; lia].
Qed.

Lemma wp_next_at st :
  I st -> kind (tok st) <> tEOF -> wp (next maxTokens) (uses true st) st.
Proof.
  intros Hi Hk. pose proof (wp_next st Hi) as Hw.
  by rewrite bool_decide_true in Hw by done.
Qed.

Lemma is_kind_true k t : is_kind k t = true -> kind t = k.
Proof. by intros ?%bool_decide_eq_true. Qed.

Lemma is_kind_false k t : is_kind k t = false -> kind t <> k.
Proof. by intros ?%bool_decide_eq_false. Qed.

Lemma is_name_kind s t : is_name s t = true -> kind t = tName.
Proof. by intros [?%is_kind_true _]%andb_prop. Qed.

Ltac wp_kind :=
  repeat match goal with
  | H : negb _ = false |- _ => apply negb_false_iff in H
  | H : is_kind _ _ = true |- _ => apply is_kind_true in H
  | H : is_name _ _ = true |- _ => apply is_name_kind in H
  | H : is_kind _ _ = false |- _ => apply is_kind_false in H
  end; congruence.

Lemma wp_expect k what st :
  I st -> k <> tEOF -> wp (expect maxTokens k what) (uses true st) st.
Proof.
  intros Hi Hk. unfold expect. repeat wp_step. apply wp_next_at; [done | wp_kind].
Qed.

Lemma wp_take_name msg st : I st -> wp (take_name maxTokens msg) (uses true st) st.
Proof.
  intros Hi. unfold take_name. repeat wp_step.
  eapply wp_call; [apply wp_next_at; [done | wp_kind] |].
  intros a st' Hi' Hr. wp_step. by split.
Qed.

(** Run a parser step by step; [tac] deals with the parsers it calls. *)
Ltac wp_run tac :=
  repeat first
    [ wp_step
    | eapply wp_call; [by apply wp_take_name | intros ? ? ? ?; simpl in *]
    | eapply wp_call; [by apply wp_expect | intros ? ? ? ?; simpl in *]
    | eapply wp_call; [apply wp_next_at; [done | wp_kind] | intros ? ? ? ?; simpl in *]
    | eapply wp_call; [by apply wp_next_weak | intros ? ? ? ?; simpl in *]
    | tac; simpl in * ];
  try (split; [done | simpl in *; lia]).

(** A loop, given that each turn of its body uses up a token. *)
Definition loops {A} (b : nat) stop (m : P A) : Prop :=
  forall (Q : A -> pstate -> Prop) st,
    I st -> (rem st < b)%nat ->
    (forall a st', I st' -> (rem st' <= rem st)%nat -> kind (tok st') = stop -> Q a st') ->
    wp m Q st.

Lemma wp_until {A} n stop (body : P A) :
  (forall st, I st -> (rem st < n)%nat -> kind (tok st) <> stop ->
     wp body (uses true st) st) ->
  loops n stop (until n stop body).
Proof.
  enough (Hgen : forall m, (m <= n)%nat ->
    (forall st, I st -> (rem st < n)%nat -> kind (tok st) <> stop ->
       wp body (uses true st) st) -> loops m stop (until m stop body)) by eauto.
  intros m Hm Hb. induction m as [|m IH]; intros Q st Hi Hn HQ; [lia |].
  cbn [until]. repeat wp_step.
  - apply HQ; [done | lia | wp_kind].
  - eapply wp_call; [apply Hb; [done | lia | wp_kind] |]. intros x st1 Hi1 Hr1. simpl in *.
    wp_step. apply IH; [lia | done | lia |]. intros. wp_step. apply HQ; [done | lia | done].
Qed.

Lemma wp_until_fields n stop msg (pv : P value) m :
  (forall st, I st -> (rem st < n)%nat -> wp pv (uses true st) st) ->
  loops n stop (until_fields maxTokens n stop msg pv m).
Proof.
  enough (Hgen : forall k, (k <= n)%nat ->
    (forall st, I st -> (rem st < n)%nat -> wp pv (uses true st) st) ->
    forall m, loops k stop (until_fields maxTokens k stop msg pv m)) by eauto.
  intros k Hk Hb. induction k as [|k IH]; intros fs Q st Hi Hn HQ; [lia |].
  cbn [until_fields].
  wp_run ltac:(eapply wp_call; [apply Hb; [done | lia] | intros ? ? ? ?]).
  - apply HQ; [done | lia | wp_kind].
  - apply IH; [lia | done | lia |]. intros. apply HQ; [done | lia | done].
Qed.

Lemma wp_parseValue n c st :
  I st -> (rem st < n)%nat -> wp (parseValue maxTokens n c) (uses true st) st.
Proof.
  revert c st. induction n as [|n IH]; intros c st Hi Hn; [lia |].
  cbn [parseValue]. unfold parseListValue, parseObjectValue.
  wp_run ltac:(first [apply (wp_until n) | apply (wp_until_fields n)];
    [intros; repeat wp_step; by apply IH | done | lia | intros]).
Qed.

Lemma wp_parseArguments n st :
  I st -> kind (tok st) <> tEOF -> (rem st < n)%nat ->
  wp (parseArguments maxTokens n) (uses true st) st.
Proof.
  intros Hi Hk Hn. unfold parseArguments.
  wp_run ltac:(apply (wp_until_fields n);
    [intros; by apply wp_parseValue | done | lia | intros]).
Qed.

Lemma wp_parseTypeRef n st :
  I st -> (rem st < n)%nat -> wp (parseTypeRef maxTokens n) (uses true st) st.
Proof.
  revert st. induction n as [|n IH]; intros st Hi Hn; [lia |]. cbn [parseTypeRef].
  wp_run ltac:(eapply wp_call; [apply IH; [done | lia] | intros ? ? ? ?]).
Qed.

Lemma wp_parseVariableDef n st :
  I st -> (rem st < n)%nat -> wp (parseVariableDef maxTokens n) (uses true st) st.
Proof.
  intros Hi Hn. unfold parseVariableDef.
  wp_run ltac:(eapply wp_call;
    [first [apply wp_parseTypeRef | apply wp_parseValue]; [done | lia] | intros ? ? ? ?]).
Qed.

Lemma wp_parseVariableDefs n st :
  I st -> kind (tok st) <> tEOF -> (rem st < n)%nat ->
  wp (parseVariableDefs maxTokens n) (uses true st) st.
Proof.
  intros Hi Hk Hn. unfold parseVariableDefs.
  wp_run ltac:(apply (wp_until n);
    [intros; by apply wp_parseVariableDef | done | lia | intros]).
Qed.

Lemma wp_parseFragment n (psel : P (list selection)) st :
  (forall st, I st -> (rem st + 1 < n)%nat -> wp psel (uses false st) st) ->
  I st -> kind (tok st) = tSpread -> (rem st < n)%nat ->
  wp (parseFragment maxTokens psel) (uses true st) st.
Proof.
  intros Hp Hi Hk Hn. unfold parseFragment.
  wp_run ltac:(eapply wp_call; [apply Hp; [done | lia] | intros ? ? ? ?]).
Qed.

Lemma wp_parseField n (psel : P (list selection)) st :
  (forall st, I st -> (rem st + 1 < n)%nat -> wp psel (uses false st) st) ->
  I st -> (rem st < n)%nat ->
  wp (parseField maxTokens n psel) (uses true st) st.
Proof.
  intros Hp Hi Hn. unfold parseField.
  wp_run ltac:(eapply wp_call;
    [first [apply Hp | apply wp_parseArguments]; (done || lia || wp_kind) | intros ? ? ? ?]).
Qed.

Lemma wp_parseSelectionSet b n st :
  (b = true -> kind (tok st) <> tEOF) ->
  I st -> (rem st + 1 < n)%nat -> wp (parseSelectionSet maxTokens n) (uses b st) st.
Proof.
  revert b st. induction n as [|n IH]; intros b st Hb Hi Hn; [lia |].
  cbn [parseSelectionSet]. wp_step.
  eapply (wp_call b).
  { destruct b; [apply wp_next_at; auto | by apply wp_next_weak]. }
  intros _ st1 Hi1 Hr1. simpl in *.
  wp_run ltac:(apply (wp_until n);
    [intros; wp_run ltac:(first [apply (wp_parseFragment n) | apply (wp_parseField n)];
       (done || wp_kind || auto)) | done | lia | intros]).
Qed.

Lemma wp_parseNamedOperation n k st :
  I st -> kind (tok st) = tName -> (rem st + 1 < n)%nat ->
  wp (parseNamedOperation maxTokens n k) (uses true st) st.
Proof.
  intros Hi Hk Hn. unfold parseNamedOperation.
  wp_run ltac:(eapply wp_call;
    [first [apply (wp_parseSelectionSet false) | apply wp_parseVariableDefs];
     (done || lia || wp_kind) | intros ? ? ? ?]).
Qed.

Lemma wp_parseFragmentDef n st :
  I st -> kind (tok st) = tName -> (rem st + 1 < n)%nat ->
  wp (parseFragmentDef maxTokens n) (uses true st) st.
Proof.
  intros Hi Hk Hn. unfold parseFragmentDef.
  wp_run ltac:(eapply wp_call;
    [apply (wp_parseSelectionSet false); (done || lia) | intros ? ? ? ?]).
Qed.

Lemma wp_parseDoc n doc st :
  I st -> (rem st + 2 < n)%nat ->
  wp (parseDoc maxTokens n doc) (fun _ st' => I st' /\ kind (tok st') = tEOF) st.
Proof.
  revert doc st. induction n as [|n IH]; intros doc st Hi Hn; [lia |].
  cbn [parseDoc]. unfold parseSelectionOperation.
  wp_run ltac:(first
    [ apply IH; [done | lia]
    | eapply wp_call;
      [first [apply (wp_parseSelectionSet true) | apply wp_parseNamedOperation
             | apply wp_parseFragmentDef]; (done || lia || wp_kind) | intros ? ? ? ?] ]).
  split; [done | wp_kind].
Qed.

End Progress.

Section Start.
Context {L : Type} `{TokenSourceLaws L} (maxTokens : Z) (I : @pstate L -> Prop).

Lemma stable_True : stable (L := L) maxTokens (fun _ => True).
Proof. intros st _. unfold wp, next. by destruct (lexNext maxTokens st) as [[t ?]|]. Qed.

(** The first token is pulled into a state without one. *)
Lemma wp_parse_from l :
  stable maxTokens I ->
  wp (next maxTokens) (fun _ => I) (mkP l (mkToken tEOF EmptyString 0 0) 0) ->
  wp (fun _ => parse_from maxTokens l) (fun _ st' => I st' /\ kind (tok st') = tEOF)
    (mkP l (mkToken tEOF EmptyString 0 0) 0).
Proof.
  intros Hst Hi. apply (wp_bind (next maxTokens)).
  pose proof (wp_next maxTokens _ stable_True (mkP l (mkToken tEOF EmptyString 0 0) 0) Logic.I) as Hr.
  unfold wp at 1. unfold wp in Hi, Hr.
  destruct (next maxTokens _) as [[[[] st']|e]|]; [| done | done].
  destruct Hr as [_ Hr]. apply wp_parseDoc; [done | done |].
  unfold rem in Hr at 2. simpl in Hr. lia.
Qed.
End Start.

(** ** The entry point, over the lexer *)

Section Entry.
Context (uni_letter uni_digit : Z -> bool).

#[local] Instance lexer_source : TokenSource lexer := {
  lex_next := GqlLexer.next uni_letter uni_digit;
  lex_size := left_;
}.

#[local] Instance lexer_source_laws : TokenSourceLaws lexer.
Proof.
  constructor. intros l t l' H%next_left. simpl. destruct (decide _) as [|].
  - unfold left_. rewrite H. simpl. lia.
  - lia.
Qed.

(** The document, with the number of tokens read. *)
Definition parse_counted (src : string) (maxTokens : Z)
  : option (result gql_error (document * pstate)) :=
  parse_from maxTokens (newLexer src).

Definition parseDocumentLimited (src : string) (maxTokens : Z)
  : option (result gql_error document) :=
  match parse_counted src maxTokens with
  | None => None
  | Some (Err e) => Some (Err e)
  | Some (Ok (doc, _)) => Some (Ok doc)
  end.

(** The token stream from [l] on, up to the end of the input. *)
Inductive tokens_from : lexer -> list token -> Prop :=
| tokens_end l t l' :
    GqlLexer.next uni_letter uni_digit l = Ok (t, l') -> kind t = tEOF ->
    tokens_from l []
| tokens_cons l t l' ts :
    GqlLexer.next uni_letter uni_digit l = Ok (t, l') -> kind t <> tEOF ->
    tokens_from l' ts -> tokens_from l (t :: ts).

(** What the parser knows of the stream that [l0] starts: the tokens it has
    read are its first ones, and at the end they are all of it. *)
Definition reading (maxTokens : Z) (l0 : lexer) (st : @pstate lexer) : Prop :=
  exists ts, tokens st = Z.of_nat (length ts)
    /\ (0 < maxTokens -> tokens st <= maxTokens)
    /\ (forall r, tokens_from (lex st) r -> tokens_from l0 (ts ++ r))
    /\ (kind (tok st) = tEOF -> rest (lex st) = []).

Lemma reading_next maxTokens l0 st ts :
  tokens st = Z.of_nat (length ts) -> (0 < maxTokens -> tokens st <= maxTokens) ->
  (forall r, tokens_from (lex st) r -> tokens_from l0 (ts ++ r)) ->
  wp (GqlParser.next maxTokens) (fun _ => reading maxTokens l0) st.
Proof.
  intros Hn Hmax Hpre. unfold wp, GqlParser.next, lexNext. simpl.
  destruct (GqlLexer.next uni_letter uni_digit (lex st)) as [[t l']|e] eqn:E; [| done].
  pose proof (next_left _ _ _ _ _ E) as Hl.
  destruct (decide (kind t = tEOF)) as [Ht|Ht].
  - exists ts. simpl. split_and!; [done | done | | done].
    intros r Hr. apply Hpre. inversion Hr as [? t' l'' H1 H2|? t' l'' r' H1 H2 H3]; subst.
    + by econstructor.
    + apply next_left in H1. rewrite decide_False in H1 by done.
      unfold left_ in H1. rewrite Hl in H1. simpl in H1. lia.
  - destruct (_ && _) eqn:Hb; [done |]. exists (ts ++ [t]). simpl. split_and!.
    + rewrite length_app. simpl. lia.
    + intros Hm. apply andb_false_iff in Hb as [?%Z.ltb_ge|?%Z.ltb_ge]; lia.
    + intros r Hr. rewrite <- app_assoc. apply Hpre. by econstructor.
    + done.
Qed.

Lemma reading_stable maxTokens l0 : stable maxTokens (reading maxTokens l0).
Proof. intros st (ts & Hn & Hmax & Hpre & _). by eapply reading_next. Qed.

Lemma parse_counted_wp src maxTokens :
  wp (fun _ => parse_counted src maxTokens)
    (fun _ st' => reading maxTokens (newLexer src) st' /\ kind (tok st') = tEOF)
    (mkP (newLexer src) (mkToken tEOF EmptyString 0 0) 0).
Proof.
  apply wp_parse_from; [apply reading_stable |].
  apply (reading_next _ _ _ []); [done | simpl; lia | done].
Qed.

(** The parser terminates on every input: with the fuel the entry point
    computes from the source it always returns a document or an error, however
    malformed the text and whatever the token cap. *)
Theorem parse_terminates (src : string) (maxTokens : Z) :
  is_Some (parseDocumentLimited src maxTokens).
Proof.
  pose proof (parse_counted_wp src maxTokens) as H.
  unfold wp in H. unfold parseDocumentLimited.
  by destruct (parse_counted src maxTokens) as [[[doc st]|e]|].
Qed.

(** The token cap is honoured on every path: a document is only accepted
    when the whole source lexes, up to its end, into at most [maxTokens]
    tokens; no accepted document leaves tokens unread. *)
Theorem parse_token_cap (src : string) (maxTokens : Z) (doc : document) :
  0 < maxTokens -> parseDocumentLimited src maxTokens = Some (Ok doc) ->
  exists ts, tokens_from (newLexer src) ts /\ Z.of_nat (length ts) <= maxTokens.
Proof.
  intros Hmax. pose proof (parse_counted_wp src maxTokens) as H.
  unfold wp in H. unfold parseDocumentLimited.
  destruct (parse_counted src maxTokens) as [[[d st]|e]|]; [| done | done].
  destruct H as [(ts & Hn & Hcap & Hpre & Hend) Hk]. intros _.
  exists ts. split; [| rewrite <- Hn; auto].
  rewrite <- (app_nil_r ts). apply Hpre.
  destruct (next_at_end uni_letter uni_digit (lex st)) as (t & l' & Ht & Hkt); [auto |].
  by econstructor.
Qed.
End Entry.

(** ** Witnesses and examples *)

Section Witnesses.
Definition ascii_only : Z -> bool := fun _ => false.

Lemma parse_token_cap_witness :
  exists ts, tokens_from ascii_only ascii_only (newLexer "{ a { b } }") ts
    /\ Z.of_nat (length ts) <= 6.
Proof.
  apply (parse_token_cap ascii_only ascii_only "{ a { b } }" 6
    (mkDoc [mkOp opQuery "" [] [SField "" "a" [] [SField "" "b" [] []]]] ∅));
    [lia | by vm_compute].
Defined.

(** After [... on T] the parser takes whatever token follows for the opening
    brace. *)
Example inline_fragment_brace_unchecked :
  parseDocumentLimited ascii_only ascii_only "{ ... on T ! a } }" 0
  = Some (Ok (mkDoc [mkOp opQuery "" [] [SInline "T" [SField "" "a" [] []]]] ∅)).
Proof. by vm_compute. Qed.

(** Default values are parsed with [constOnly] off, so a variable passes. *)
Example default_accepts_variable :
  parseDocumentLimited ascii_only ascii_only "query($a: Int = $b) { f }" 0
  = Some (Ok (mkDoc [mkOp opQuery "" [mkVar "a" (TNamed "Int" false) (VVariable "b")]
                       [SField "" "f" [] []]] ∅)).
Proof. by vm_compute. Qed.
End Witnesses.
