(* ===== verification/GqlPrint.v ===== *)
(** The grammar of GraphQL requests as a printer, and the proof that the parser
    of [GqlParser] inverts it.

    [print_def] writes the tokens of a definition in the grammar the comments of
    [src/graphql/parser.go] give; the parser must read any sequence of
    definitions back.  [running m Q st] is total success of a parser step. *)

From Stdlib Require Import ZArith Lia Ascii.
From stdpp Require Import base gmap strings list numbers.
From S2P Require Import Prelude GoRt GoStrconv GoUtf8 GqlLexer GqlParser.

#[local] Existing Instance P_ret.
#[local] Existing Instance P_bind.

Abbreviation tk := (tokenKind * string)%type.

(** ** Printing *)

Fixpoint print_value (v : value) : list tk :=
  match v with
  | VNull => [(tName, "null")]
  | VInt s => [(tInt, s)]
  | VFloat s => [(tFloat, s)]
  | VString s => [(tString, s)]
  | VBool b => [(tName, if b then "true" else "false")]
  | VEnum s => [(tName, s)]
  | VVariable s => [(tDollar, "$"); (tName, s)]
  | VList l => (tBracketL, "[") :: flat_map print_value l ++ [(tBracketR, "]")]
  | VObject fs =>
      (tBraceL, "{")
        :: flat_map (fun f => (tName, fst f) :: (tColon, ":") :: print_value (snd f)) fs
        ++ [(tBraceR, "}")]
  end.

Definition print_field (f : string * value) : list tk :=
  (tName, f.1) :: (tColon, ":") :: print_value f.2.

Definition print_args (args : list (string * value)) : list tk :=
  match args with
  | [] => []
  | _ => (tParenL, "(") :: flat_map print_field args ++ [(tParenR, ")")]
  end.

Definition braces (ts : list tk) : list tk := (tBraceL, "{") :: ts ++ [(tBraceR, "}")].

Fixpoint print_selection (s : selection) : list tk :=
  match s with
  | SField alias name args sel =>
      (if decide (alias = "") then [] else [(tName, alias); (tColon, ":")])
        ++ (tName, name) :: print_args args
        ++ match sel with [] => [] | _ => braces (flat_map print_selection sel) end
  | SInline typeOn sel =>
      (tSpread, "...")
        :: (if decide (typeOn = "") then [] else [(tName, "on"); (tName, typeOn)])
        ++ braces (flat_map print_selection sel)
  | SSpread name => [(tSpread, "..."); (tName, name)]
  end.

Definition print_set (sel : list selection) : list tk := braces (flat_map print_selection sel).

Definition print_bang (b : bool) : list tk := if b then [(tBang, "!")] else [].

Fixpoint print_type (t : typeRef) : list tk :=
  match t with
  | TNamed n b => (tName, n) :: print_bang b
  | TList t b => (tBracketL, "[") :: print_type t ++ (tBracketR, "]") :: print_bang b
  end.

Definition is_null (v : value) : bool := match v with VNull => true | _ => false end.

Definition print_variable (d : variableDef) : list tk :=
  (tDollar, "$") :: (tName, v_name d) :: (tColon, ":") :: print_type (v_typ d)
    ++ (if is_null (v_default d) then [] else (tEquals, "=") :: print_value (v_default d)).

Definition print_variables (ds : list variableDef) : list tk :=
  match ds with
  | [] => []
  | _ => (tParenL, "(") :: flat_map print_variable ds ++ [(tParenR, ")")]
  end.

Definition keyword (k : operationKind) : string :=
  match k with opQuery => "query" | opMutation => "mutation" end.

Definition print_operation (op : operation) : list tk :=
  (tName, keyword (op_kind op))
    :: (if decide (op_name op = "") then [] else [(tName, op_name op)])
    ++ print_variables (op_variables op) ++ print_set (op_selSet op).

Definition print_fragment (f : fragmentDef) : list tk :=
  (tName, "fragment") :: (tName, fr_name f) :: (tName, "on") :: (tName, fr_typeOn f)
    :: print_set (fr_selSet f).

(** A top-level definition, the anonymous shorthand included. *)
Inductive definition :=
| DShort (sel : list selection)
| DOperation (op : operation)
| DFragment (f : fragmentDef).

Definition print_def (d : definition) : list tk :=
  match d with
  | DShort sel => print_set sel
  | DOperation op => print_operation op
  | DFragment f => print_fragment f
  end.

(** What a definition adds to the document; a later fragment of the same name
    replaces an earlier one. *)
Definition add_def (doc : document) (d : definition) : document :=
  match d with
  | DShort sel => add_op (mkOp opQuery EmptyString [] sel) doc
  | DOperation op => add_op op doc
  | DFragment f => mkDoc (operations doc) (<[fr_name f := f]> (fragments doc))
  end.

Definition document_of (ds : list definition) : document :=
  fold_left add_def ds (mkDoc [] ∅).

(** ** Which trees are written in source form *)

Definition keys_distinct (fs : list (string * value)) : bool := bool_decide (NoDup fs.*1).

Fixpoint wf_value (v : value) : bool :=
  match v with
  | VEnum s => negb (bool_decide (s = "true") || bool_decide (s = "false")
                     || bool_decide (s = "null"))
  | VList l => forallb wf_value l
  | VObject fs => keys_distinct fs && forallb (fun f => wf_value (snd f)) fs
  | _ => true
  end.

Definition wf_args (fs : list (string * value)) : bool :=
  keys_distinct fs && forallb (fun f => wf_value (snd f)) fs.

Fixpoint wf_selection (s : selection) : bool :=
  match s with
  | SField _ _ args sel => wf_args args && forallb wf_selection sel
  | SInline _ sel => forallb wf_selection sel
  | SSpread name => negb (bool_decide (name = "on"))
  end.

Definition wf_def (d : definition) : bool :=
  match d with
  | DShort sel => forallb wf_selection sel
  | DOperation op =>
      forallb (fun d => wf_value (v_default d)) (op_variables op)
      && forallb wf_selection (op_selSet op)
  | DFragment f => negb (bool_decide (fr_name f = "on")) && forallb wf_selection (fr_selSet f)
  end.

(** ** Running a parser on known tokens *)

Section Running.
Context {L : Type} `{TokenSource L} (maxTokens : Z).
Implicit Types (st : @pstate L).

(** [l] lexes into [ts], then the end. *)
Fixpoint emits (l : L) (ts : list tk) : Prop :=
  match ts with
  | [] => exists t l', lex_next l = Ok (t, l') /\ kind t = tEOF
  | (k, s) :: ts =>
      exists t l', lex_next l = Ok (t, l') /\ kind t = k /\ tval t = s /\ k <> tEOF /\ emits l' ts
  end.

(** The tokens to come, the current one first, within the cap. *)
Definition at_ (ts : list tk) st : Prop :=
  match ts with
  | [] => kind (tok st) = tEOF
  | (k, s) :: ts =>
      kind (tok st) = k /\ tval (tok st) = s /\ k <> tEOF /\ emits (lex st) ts
      /\ (0 < maxTokens -> tokens st + Z.of_nat (length ts) <= maxTokens)
  end.

#[local] Arguments at_ : simpl never.

Definition hd_kind (ts : list tk) : tokenKind :=
  match ts with [] => tEOF | (k, _) :: _ => k end.

Definition running {A} (m : P (L := L) A) (Q : A -> pstate -> Prop) st : Prop :=
  exists a st', m st = Some (Ok (a, st')) /\ Q a st'.

(** [m] reads a piece of input as [a] and stops in front of [r]. *)
Definition reads {A} (m : P (L := L) A) (a : A) (r : list tk) st : Prop :=
  running m (fun b st' => b = a /\ at_ r st') st.

Lemma running_ret {A} (a : A) Q st : Q a st -> running (mret a) Q st.
Proof. intros. by exists a, st. Qed.

Lemma running_bind {A B} (m : P A) (k : A -> P B) Q st :
  running m (fun a => running (k a) Q) st -> running (m ≫= k) Q st.
Proof.
  intros (a & st1 & Hm & b & st2 & Hk & HQ). exists b, st2. split; [| done].
  unfold mbind, P_bind. by rewrite Hm.
Qed.

Lemma running_get Q st : Q (tok st) st -> running get_tok Q st.
Proof. intros. by exists (tok st), st. Qed.

Lemma running_call {A} (m : P A) a r (Q : A -> pstate -> Prop) st :
  reads m a r st -> (forall st', at_ r st' -> Q a st') -> running m Q st.
Proof. intros (b & st' & Hm & -> & Hr) HQ. exists a, st'. auto. Qed.

Lemma at_kind ts st : at_ ts st -> kind (tok st) = hd_kind ts.
Proof. destruct ts as [|[k s] ts]; [done | by intros [? _]]. Qed.

Lemma reads_next k s r st : at_ ((k, s) :: r) st -> reads (next maxTokens) tt r st.
Proof.
  intros (_ & _ & _ & He & Hmax). unfold reads, running, next, lexNext.
  destruct r as [|[k' s'] r].
  - destruct He as (t & l' & -> & Ht). rewrite decide_True by done.
    eexists tt, _. split; [done |]. by split.
  - destruct He as (t & l' & -> & Ht & Hs & Hk & He). rewrite decide_False by congruence.
    simpl in Hmax. destruct (_ && _) eqn:Hb.
    { apply andb_true_iff in Hb as [?%Z.ltb_lt ?%Z.ltb_lt]. lia. }
    eexists tt, _. split; [done |]. unfold at_; simpl. split_and!; try done. simpl in Hmax. lia.
Qed.

(** The first token, pulled from a state without one. *)
Lemma reads_first ts l t0 :
  emits l ts -> (0 < maxTokens -> Z.of_nat (length ts) <= maxTokens) ->
  reads (next maxTokens) tt ts (mkP l t0 0).
Proof.
  unfold reads, running, next, lexNext. simpl. destruct ts as [|[k s] ts].
  - intros (t & l' & -> & Ht) _. rewrite decide_True by done.
    eexists tt, _. split; [done |]. by split.
  - intros (t & l' & -> & Ht & Hs & Hk & He) Hmax. rewrite decide_False by congruence.
    simpl length in Hmax. destruct (_ && _) eqn:Hb.
    { apply andb_true_iff in Hb as [?%Z.ltb_lt ?%Z.ltb_lt]. lia. }
    eexists tt, _. split; [done |]. unfold at_; simpl. split_and!; try done. lia.
Qed.

Lemma is_kind_at k ts st : at_ ts st -> is_kind k (tok st) = bool_decide (hd_kind ts = k).
Proof. intros Ha. unfold is_kind. by rewrite (at_kind _ _ Ha). Qed.

Lemma tval_at k s r st : at_ ((k, s) :: r) st -> tval (tok st) = s.
Proof. by intros (_ & ? & _). Qed.

Lemma is_name_at n k s r st :
  at_ ((k, s) :: r) st -> is_name n (tok st) = bool_decide (k = tName) && bool_decide (s = n).
Proof. intros Ha. unfold is_name. by rewrite (is_kind_at _ _ _ Ha), (tval_at _ _ _ _ Ha). Qed.

Lemma reads_take_name msg s r st :
  at_ ((tName, s) :: r) st -> reads (take_name maxTokens msg) s r st.
Proof.
  intros Ha. unfold take_name. apply running_bind, running_get.
  rewrite (is_kind_at _ _ _ Ha). simpl. apply running_bind.
  eapply running_call; [by eapply reads_next |]. intros st' Ha'.
  apply running_ret. split; [by eapply tval_at | done].
Qed.

Lemma reads_expect k s what r st :
  at_ ((k, s) :: r) st -> reads (expect maxTokens k what) tt r st.
Proof.
  intros Ha. unfold expect. apply running_bind, running_get.
  rewrite (is_kind_at _ _ _ Ha), bool_decide_true by done. by eapply reads_next.
Qed.

(** One step, on the tokens the hypothesis [at_ _ st] gives; [tac] deals with
    calls. *)
Ltac look :=
  match goal with
  | Ha : at_ _ ?st |- context [is_kind _ (tok ?st)] =>
      rewrite !(is_kind_at _ _ _ Ha); cbn [hd_kind]
  | Ha : at_ ((_, _) :: _) ?st |- context [is_name _ (tok ?st)] =>
      rewrite !(is_name_at _ _ _ _ _ Ha)
  | Ha : at_ _ ?st |- context [kind (tok ?st)] =>
      rewrite !(at_kind _ _ Ha); cbn [hd_kind]
  | Ha : at_ ((_, _) :: _) ?st |- context [tval (tok ?st)] =>
      rewrite !(tval_at _ _ _ _ Ha)
  end.
Ltac run tac :=
  repeat first
    [ look
    | progress (unfold reads; cbn [negb andb orb])
    | match goal with |- running (_ ≫= _) _ _ => apply running_bind end
    | match goal with |- running (mret _) _ _ => apply running_ret end
    | match goal with |- running get_tok _ _ => apply running_get end
    | match goal with |- running (let '(_, _) := (_, _) in _) _ _ => cbv iota beta zeta end
    | rewrite bool_decide_true by done
    | rewrite bool_decide_false by done
    | eapply running_call; [by eapply reads_take_name | intros ? ?]
    | eapply running_call; [by eapply reads_expect | intros ? ?]
    | eapply running_call; [by eapply reads_next | intros ? ?]
    | tac ].

Lemma reads_until {A} (pr : A -> list tk) stop s (ok : tokenKind -> Prop) (body : P A) xs r st n :
  (forall x st r, x ∈ xs -> ok (hd_kind r) -> at_ (pr x ++ r) st -> reads body x r st) ->
  (forall x r, x ∈ xs -> ok (hd_kind (pr x ++ r)) /\ hd_kind (pr x ++ r) <> stop) ->
  ok stop -> (length xs < n)%nat ->
  at_ (flat_map pr xs ++ (stop, s) :: r) st ->
  reads (until n stop body) xs ((stop, s) :: r) st.
Proof.
  revert st n. induction xs as [|x xs IH]; intros st n Hb Hhd Hok Hn Ha;
    (destruct n as [|n]; [simpl in *; lia |]); cbn [until].
  - run idtac. by split.

  - cbn [flat_map] in Ha. rewrite <- app_assoc in Ha.
    assert (Hx : x ∈ x :: xs) by constructor.
    run idtac. rewrite bool_decide_false by (by apply (Hhd x)).
    apply running_bind. eapply running_call; [apply Hb; [done | | exact Ha] |].
    { destruct xs as [|y xs]; [done |]. simpl. rewrite <- app_assoc.
      apply (Hhd y). set_solver. }
    intros st1 Ha1. apply running_bind. eapply running_call.
    { apply IH; [intros; apply Hb; [set_solver | done | done] | intros; apply Hhd; set_solver
                | done | simpl in *; lia | exact Ha1]. }
    intros st2 Ha2. run idtac. by split.
Qed.

Lemma map_set_fresh {A} k (v : A) m : k ∉ m.*1 -> map_set k v m = m ++ [(k, v)].
Proof.
  induction m as [|[k' v'] m IH]; [done |]. intros Hk. simpl in *.
  rewrite decide_False by set_solver. f_equal. apply IH. set_solver.
Qed.

Lemma reads_until_fields stop s msg (pv : P value) fs m r st n :
  stop <> tName -> NoDup (m ++ fs).*1 ->
  (forall f st r, f ∈ fs -> at_ (print_value f.2 ++ r) st -> reads pv f.2 r st) ->
  (length fs < n)%nat ->
  at_ (flat_map print_field fs ++ (stop, s) :: r) st ->
  reads (until_fields maxTokens n stop msg pv m) (m ++ fs) ((stop, s) :: r) st.
Proof.
  intros Hstop. revert m st n.
  induction fs as [|[k v] fs IH]; intros m st n Hnd Hp Hn Ha;
    (destruct n as [|n]; [simpl in *; lia |]); cbn [until_fields].
  - run idtac. rewrite app_nil_r. by split.
  - cbn [flat_map print_field fst snd app] in Ha. rewrite <- app_assoc in Ha.
    run ltac:(eapply running_call; [by apply (Hp (k, v)); [constructor |] | intros ? ?]).
    rewrite (cons_middle (k, v) m fs), app_assoc.
    rewrite map_set_fresh.
    + apply IH; [by rewrite <- app_assoc | set_solver | simpl in *; lia | done].
    + rewrite fmap_app in Hnd. apply list.NoDup_app in Hnd as (_ & Hd & _). set_solver.
Qed.

Lemma length_flat_map_elem {A B} (f : A -> list B) l x :
  x ∈ l -> (length (f x) <= length (flat_map f l))%nat.
Proof.
  intros (l1 & l2 & ->)%list_elem_of_split. rewrite flat_map_app. cbn [flat_map].
  rewrite !length_app. lia.
Qed.

Lemma length_flat_map_ge {A B} (f : A -> list B) l :
  (forall x, x ∈ l -> f x <> []) -> (length l <= length (flat_map f l))%nat.
Proof.
  induction l as [|x l IH]; intros Hf; [done |]. cbn [flat_map length]. rewrite length_app.
  assert (length (f x) <> 0)%nat by (intros E%length_zero_iff_nil; by eapply Hf; [constructor |]).
  assert (length l <= length (flat_map f l))%nat by (apply IH; set_solver). lia.
Qed.

Lemma forallb_elem {A} (f : A -> bool) l x : forallb f l = true -> x ∈ l -> f x = true.
Proof. intros Hf Hx. rewrite forallb_forall in Hf. by apply Hf, list_elem_of_In. Qed.

Lemma print_value_head v : exists k s r, print_value v = (k, s) :: r
  /\ k ∈ [tName; tInt; tFloat; tString; tDollar; tBracketL; tBraceL].
Proof. destruct v; simpl; do 3 eexists; (split; [done | set_solver]). Qed.

Lemma print_value_nonempty v : print_value v <> [].
Proof. destruct (print_value_head v) as (? & ? & ? & -> & _). done. Qed.

Lemma print_value_fuel f fs n :
  f ∈ fs -> (length (flat_map print_field fs) < n)%nat -> (length (print_value f.2) < n)%nat.
Proof.
  intros Hf%(length_flat_map_elem print_field). unfold print_field in Hf at 1. simpl in *. lia.
Qed.

Lemma length_fields fs : (length fs <= length (flat_map print_field fs))%nat.
Proof. by apply length_flat_map_ge. Qed.

Lemma reads_parseValue n v r st :
  wf_value v = true -> (length (print_value v) < n)%nat ->
  at_ (print_value v ++ r) st -> reads (parseValue maxTokens n false) v r st.
Proof.
  revert v r st. induction n as [|n IH]; intros v r st Hwf Hn Ha; [lia |].
  cbn [parseValue]. unfold parseListValue, parseObjectValue.
  destruct v; cbn [print_value app] in Ha; rewrite <-?app_assoc in Ha; cbn [app] in Ha.
  - run idtac. by split.
  - run idtac. by split.
  - run idtac. by split.
  - run idtac. by split.
  - destruct b; run idtac; by split.
  - simpl in Hwf. to_prop. run idtac. by split.
  - run idtac. by split.
  - run idtac. simpl in Hwf, Hn. rewrite length_app in Hn.
    eapply running_call; [eapply (reads_until print_value _ _ (fun _ => True)); last done |].
    + intros x st1 r1 Hx _ Hx1.
      destruct (print_value_head x) as (k & s & l & Hp & Hk).
      run idtac. rewrite Hp. cbn [app hd_kind]. rewrite bool_decide_false by set_solver.
      apply IH; [by eapply forallb_elem | | done].
      apply (length_flat_map_elem print_value) in Hx. lia.
    + intros x r1 _. destruct (print_value_head x) as (k & s & l & -> & Hk).
      split; [done |]. simpl. set_solver.
    + done.
    + pose proof (length_flat_map_ge print_value items (fun x _ => print_value_nonempty x)). lia.
    + intros st1 Ha1. run idtac. by split.
  - run idtac. simpl in Hwf, Hn. apply andb_prop in Hwf as [Hnd Hwf].
    rewrite length_app in Hn. fold print_field in Hn.
    eapply running_call; [apply (reads_until_fields _ "}" _ _ fields []); last done |].
    + done.
    + by apply bool_decide_eq_true in Hnd.
    + intros f st1 r1 Hf Hf1. apply IH; [by apply (forallb_elem _ _ _ Hwf) | | done].
      apply (print_value_fuel f fields); [done | lia].
    + pose proof (length_fields fields). lia.
    + intros st1 Ha1. run idtac. by split.
Qed.

Lemma reads_parseTypeRef n t r st :
  (length (print_type t) < n)%nat -> hd_kind r <> tBang ->
  at_ (print_type t ++ r) st -> reads (parseTypeRef maxTokens n) t r st.
Proof.
  revert t r st. induction n as [|n IH]; intros t r st Hn Hr Ha; [lia |].
  cbn [parseTypeRef].
  destruct t as [nm b|t b]; cbn [print_type app] in Ha; rewrite <- ?app_assoc in Ha; cbn [app] in Ha.
  - destruct b; cbn [print_bang app] in Ha; run idtac; by split.
  - cbn [print_type] in Hn. simpl in Hn. rewrite length_app in Hn.
    run ltac:(eapply running_call; [eapply IH; [| | eassumption]; [lia | done] | intros ? ?]).
    destruct b; cbn [print_bang app] in *; run idtac; by split.
Qed.

Lemma reads_parseArguments n args r st :
  args <> [] -> wf_args args = true -> (length (print_args args) < n)%nat ->
  at_ (print_args args ++ r) st -> reads (parseArguments maxTokens n) args r st.
Proof.
  intros Hne Hwf Hn Ha. unfold parseArguments. apply andb_prop in Hwf as [Hnd Hwf].
  assert (Hp : print_args args = (tParenL, "(") :: flat_map print_field args ++ [(tParenR, ")")])
    by (by destruct args).
  rewrite Hp in *. cbn [app] in Ha. rewrite <- app_assoc in Ha. cbn [app] in Ha.
  simpl in Hn. rewrite length_app in Hn. run idtac.
  eapply running_call; [apply (reads_until_fields _ ")" _ _ args []); last done |].
  - done.
  - by apply bool_decide_eq_true in Hnd.
  - intros f st1 r1 Hf Hf1. apply reads_parseValue; [by apply (forallb_elem _ _ _ Hwf) | | done].
    apply (print_value_fuel f args); [done | lia].
  - pose proof (length_fields args). lia.
  - intros st1 Ha1. run idtac. by split.
Qed.

Lemma reads_parseVariableDef n d r st :
  wf_value (v_default d) = true -> (length (print_variable d) < n)%nat ->
  hd_kind r = tDollar \/ hd_kind r = tParenR ->
  at_ (print_variable d ++ r) st -> reads (parseVariableDef maxTokens n) d r st.
Proof.
  intros Hwf Hn Hr Ha. unfold parseVariableDef.
  destruct d as [nm t v]. unfold print_variable in *. cbn [v_name v_typ v_default app] in *.
  simpl in Hn. rewrite length_app in Hn. rewrite <- app_assoc in Ha. run idtac.
  destruct (is_null v) eqn:Hv; cbn [app] in *.
  - run ltac:(eapply running_call;
      [eapply reads_parseTypeRef; [| | eassumption]; [lia | by destruct Hr as [-> | ->]] | intros ? ?]).
    rewrite bool_decide_false by (by destruct Hr as [-> | ->]). run idtac.
    by destruct v.
  - simpl in Hn. run ltac:(eapply running_call;
      [first [eapply reads_parseTypeRef; [| | eassumption]; [lia | done]
             | eapply reads_parseValue; [| | eassumption]; [done | lia]] | intros ? ?]).
    by split.
Qed.

Lemma reads_parseVariableDefs n ds r st :
  ds <> [] -> forallb (fun d => wf_value (v_default d)) ds = true ->
  (length (print_variables ds) < n)%nat ->
  at_ (print_variables ds ++ r) st -> reads (parseVariableDefs maxTokens n) ds r st.
Proof.
  intros Hne Hwf Hn Ha. unfold parseVariableDefs.
  assert (Hp : print_variables ds = (tParenL, "(") :: flat_map print_variable ds ++ [(tParenR, ")")])
    by (by destruct ds).
  rewrite Hp in *. cbn [app] in Ha. rewrite <- app_assoc in Ha. cbn [app] in Ha.
  simpl in Hn. rewrite length_app in Hn. run idtac.
  eapply running_call; [eapply (reads_until print_variable tParenR ")"
    (fun k => k = tDollar \/ k = tParenR)); last done |].
  - intros d st1 r1 Hd Hk H1. apply reads_parseVariableDef; [by apply (forallb_elem _ _ _ Hwf) | | done | done].
    apply (length_flat_map_elem print_variable) in Hd. lia.
  - intros d r1 _. split; [by left | done].
  - by right.
  - pose proof (length_flat_map_ge print_variable ds (fun x _ => ltac:(done))). lia.
  - intros st1 Ha1. run idtac. by split.
Qed.

(** What can follow a selection inside its set. *)
Definition sel_follow (k : tokenKind) : Prop := k ∈ [tName; tSpread; tBraceR].

Lemma sel_follow_ne k k' : sel_follow k -> k' ∉ [tName; tSpread; tBraceR] -> k <> k'.
Proof. unfold sel_follow. by intros H1 H2 ->. Qed.

Definition reads_set n : Prop := forall sel r st,
  forallb wf_selection sel = true -> (length (print_set sel) < n)%nat ->
  at_ (print_set sel ++ r) st -> reads (parseSelectionSet maxTokens n) sel r st.

Definition opt_set (sel : list selection) : list tk :=
  match sel with [] => [] | _ => print_set sel end.

Lemma hd_kind_app ts r k :
  (ts = [] \/ hd_kind ts <> k) -> hd_kind r <> k -> hd_kind (ts ++ r) <> k.
Proof. by destruct ts as [|[]]; intros [|]. Qed.

Lemma reads_opt_args n args r st :
  wf_args args = true -> (length (print_args args) < n)%nat -> hd_kind r <> tParenL ->
  at_ (print_args args ++ r) st ->
  reads (if is_kind tParenL (tok st) then parseArguments maxTokens n else mret []) args r st.
Proof.
  intros Hwf Hn Hr Ha. rewrite (is_kind_at _ _ _ Ha). destruct args as [|a args].
  - simpl. rewrite bool_decide_false by done. by apply running_ret.
  - by apply reads_parseArguments.
Qed.

Lemma reads_opt_set n sel r st :
  reads_set n -> forallb wf_selection sel = true -> (length (opt_set sel) < n)%nat ->
  hd_kind r <> tBraceL -> at_ (opt_set sel ++ r) st ->
  reads (if is_kind tBraceL (tok st) then parseSelectionSet maxTokens n else mret []) sel r st.
Proof.
  intros Hset Hwf Hn Hr Ha. rewrite (is_kind_at _ _ _ Ha). destruct sel as [|s sel].
  - simpl. rewrite bool_decide_false by done. by apply running_ret.
  - by apply Hset.
Qed.

Lemma reads_parseField n alias name args sel r st :
  reads_set n -> wf_args args = true -> forallb wf_selection sel = true ->
  (length (print_args args ++ opt_set sel) < n)%nat -> sel_follow (hd_kind r) ->
  at_ ((if decide (alias = "") then [] else [(tName, alias); (tColon, ":")])
       ++ (tName, name) :: print_args args ++ opt_set sel ++ r) st ->
  reads (parseField maxTokens n (parseSelectionSet maxTokens n)) (SField alias name args sel) r st.
Proof.
  intros Hset Hwa Hws Hn Hr Ha. unfold parseField. rewrite length_app in Hn.
  assert (Hk : forall k, k ∉ [tName; tSpread; tBraceR; tBraceL] -> hd_kind (opt_set sel ++ r) <> k).
  { intros k Hk. apply hd_kind_app; [destruct sel; [by left | right; simpl; set_solver] |].
    apply (sel_follow_ne _ _ Hr). set_solver. }
  assert (Hc : hd_kind (print_args args ++ opt_set sel ++ r) <> tColon).
  { apply hd_kind_app; [by destruct args; [left | right] | apply Hk; set_solver]. }
  assert (Htail : forall st1, at_ (print_args args ++ opt_set sel ++ r) st1 ->
    running (t ← get_tok;
             args ← (if is_kind tParenL t then parseArguments maxTokens n else mret []);
             t ← get_tok;
             sel ← (if is_kind tBraceL t then parseSelectionSet maxTokens n else mret []);
             mret (SField alias name args sel))
      (fun b st' => b = SField alias name args sel /\ at_ r st') st1).
  { intros st1 H1. apply running_bind, running_get, running_bind.
    eapply running_call; [apply reads_opt_args; [done | lia | apply Hk; set_solver | done] |].
    intros st2 H2. apply running_bind, running_get, running_bind.
    eapply running_call; [apply reads_opt_set; [done | done | lia | | done] |].
    { apply (sel_follow_ne _ _ Hr). set_solver. }
    intros st3 H3. by apply running_ret. }
  destruct (decide (alias = "")) as [->|Hne]; cbn [app] in Ha.
  - apply running_bind. eapply running_call; [by eapply reads_take_name |]. intros st1 H1.
    apply running_bind, running_get, running_bind.
    rewrite (is_kind_at _ _ _ H1), bool_decide_false by done.
    apply running_ret. by apply Htail.
  - apply running_bind. eapply running_call; [by eapply reads_take_name |]. intros st1 H1.
    apply running_bind, running_get, running_bind. look. simpl bool_decide. cbv iota.
    apply running_bind. eapply running_call; [by eapply reads_next |]. intros st2 H2.
    apply running_bind. eapply running_call; [by eapply reads_take_name |]. intros st3 H3.
    apply running_ret. by apply Htail.
Qed.

Lemma reads_parseFragment n typeOn sel r st :
  reads_set n -> forallb wf_selection sel = true -> (length (print_set sel) < n)%nat ->
  at_ (print_selection (SInline typeOn sel) ++ r) st ->
  reads (parseFragment maxTokens (parseSelectionSet maxTokens n)) (SInline typeOn sel) r st.
Proof.
  intros Hset Hwf Hn Ha. unfold parseFragment.
  cbn [print_selection app] in Ha. fold (print_set sel) in Ha. rewrite <- app_assoc in Ha.
  destruct (decide (typeOn = "")) as [->|Hne]; cbn [app] in Ha.
  - unfold print_set, braces in Ha. cbn [app] in Ha.
    run ltac:(eapply running_call; [by apply (Hset sel r) | intros ? ?]).
    by split.
  - run ltac:(eapply running_call; [by apply (Hset sel r) | intros ? ?]).
    by split.
Qed.

Lemma print_selection_head s : exists k t r, print_selection s = (k, t) :: r
  /\ k ∈ [tName; tSpread].
Proof.
  destruct s as [alias name args sel|typeOn sel|name]; simpl.
  - case_decide; do 3 eexists; (split; [done | set_solver]).
  - do 3 eexists; (split; [done | set_solver]).
  - do 3 eexists; (split; [done | set_solver]).
Qed.

Lemma reads_parseSelectionSet n : reads_set n.
Proof.
  induction n as [|n IH]; intros sel r st Hwf Hn Ha; [lia |]. cbn [parseSelectionSet].
  unfold print_set, braces in Ha, Hn. cbn [app] in Ha. rewrite <- app_assoc in Ha. cbn [app] in Ha.
  simpl in Hn. rewrite length_app in Hn. run idtac.
  eapply running_call; [eapply (reads_until print_selection _ _ sel_follow); last done |].
  - intros s st1 r1 Hs Hr H1.
    assert (Hl : (length (print_selection s) < n)%nat).
    { apply (length_flat_map_elem print_selection) in Hs. simpl in Hn. lia. }
    pose proof (forallb_elem _ _ _ Hwf Hs) as Hw.
    destruct s as [alias name args ss|typeOn ss|name].
    + simpl in Hw. apply andb_prop in Hw as [Hwa Hws].
      cbn [print_selection] in *. fold (print_set ss) (opt_set ss) in *.
      rewrite <- app_assoc in H1. cbn [app] in H1. rewrite <- app_assoc in H1.
      assert (hd_kind ((if decide (alias = "") then [] else [(tName, alias); (tColon, ":")])
        ++ (tName, name) :: print_args args ++ opt_set ss ++ r1) = tName) as Hh by (by case_decide).
      apply running_bind, running_get. rewrite !(is_kind_at _ _ _ H1), Hh. simpl.
      apply reads_parseField; try done. rewrite !length_app in *. simpl in Hl. rewrite length_app in Hl. lia.
    + simpl in Hw. cbn [print_selection app] in H1.
      run ltac:(apply (reads_parseFragment n typeOn ss); [done | done | | exact H1]).
      simpl in Hl. fold (print_set ss) in Hl. rewrite length_app in Hl. lia.
    + simpl in Hw. to_prop. cbn [print_selection app] in H1. unfold parseFragment.
      run idtac. by split.
  - intros s r1 _. destruct (print_selection_head s) as (k & t & l & -> & Hk).
    unfold sel_follow. simpl. set_solver.
  - unfold sel_follow. set_solver.
  - assert (length sel <= length (flat_map print_selection sel))%nat.
    { apply length_flat_map_ge. intros s _. by destruct (print_selection_head s) as (? & ? & ? & -> & _). }
    simpl in Hn. lia.
  - intros st1 H1. run idtac. by split.
Qed.

Lemma reads_opt_variables n ds r st :
  forallb (fun d => wf_value (v_default d)) ds = true ->
  (length (print_variables ds) < n)%nat -> hd_kind r <> tParenL ->
  at_ (print_variables ds ++ r) st ->
  reads (if is_kind tParenL (tok st) then parseVariableDefs maxTokens n else mret []) ds r st.
Proof.
  intros Hwf Hn Hr Ha. rewrite (is_kind_at _ _ _ Ha). destruct ds as [|d ds].
  - simpl. rewrite bool_decide_false by done. by apply running_ret.
  - by apply reads_parseVariableDefs.
Qed.

Lemma reads_parseNamedOperation n op r st :
  wf_def (DOperation op) = true -> (length (print_operation op) < n)%nat ->
  at_ (print_operation op ++ r) st ->
  reads (parseNamedOperation maxTokens n (op_kind op)) op r st.
Proof.
  intros Hwf Hn Ha. destruct op as [k nm vars sel]. simpl in Hwf.
  apply andb_prop in Hwf as [Hwv Hws]. unfold print_operation, parseNamedOperation in *.
  cbn [op_kind op_name op_variables op_selSet app] in *. simpl in Hn. rewrite !length_app in Hn.
  rewrite <- !app_assoc in Ha.
  apply running_bind. eapply running_call; [by eapply reads_next |]. intros st1 H1.
  assert (Htail : forall st, at_ (print_variables vars ++ print_set sel ++ r) st ->
    running
      (t ← get_tok;
       vars ← (if is_kind tParenL t then parseVariableDefs maxTokens n else mret []);
       t ← get_tok;
       if negb (is_kind tBraceL t) then errf "expected selection set '{'"
       else (sel ← parseSelectionSet maxTokens n; mret (mkOp k nm vars sel)))
      (fun op st' => op = mkOp k nm vars sel /\ at_ r st') st).
  { intros st2 H2. apply running_bind, running_get, running_bind.
    eapply running_call; [apply reads_opt_variables; [done | lia | | exact H2]; done |].
    intros st3 H3. apply running_bind, running_get. rewrite (is_kind_at _ _ _ H3).
    simpl bool_decide. cbn [negb]. apply running_bind.
    eapply running_call; [apply (reads_parseSelectionSet n sel); [done | lia | exact H3] |].
    intros st4 H4. by apply running_ret. }
  apply running_bind, running_get, running_bind. rewrite (is_kind_at _ _ _ H1).
  destruct (decide (nm = "")) as [->|Hne]; cbn [app] in H1.
  - rewrite bool_decide_false by (by destruct vars). apply running_ret. by apply Htail.
  - simpl bool_decide. cbv iota. apply running_bind.
    eapply running_call; [by eapply reads_next |]. intros st2 H2.
    apply running_ret. look. by apply Htail.
Qed.

Lemma reads_parseFragmentDef n f r st :
  wf_def (DFragment f) = true -> (length (print_fragment f) < n)%nat ->
  at_ (print_fragment f ++ r) st -> reads (parseFragmentDef maxTokens n) f r st.
Proof.
  intros Hwf Hn Ha. destruct f as [nm on sel]. simpl in Hwf. to_prop.
  unfold print_fragment, parseFragmentDef in *. cbn [fr_name fr_typeOn fr_selSet app] in *.
  simpl in Hn.
  run ltac:(eapply running_call; [apply (reads_parseSelectionSet n sel); [done | | eassumption];
    unfold print_set, braces; simpl; lia | intros ? ?]).
  by split.
Qed.

Lemma print_def_head d :
  exists k s r, print_def d = (k, s) :: r
    /\ match d with
       | DShort _ => k = tBraceL
       | DOperation op => k = tName /\ s = keyword (op_kind op)
       | DFragment _ => k = tName /\ s = "fragment"
       end.
Proof. destruct d; do 3 eexists; done. Qed.

Lemma reads_parseDoc n ds doc st :
  forallb wf_def ds = true -> (length (flat_map print_def ds) < n)%nat ->
  at_ (flat_map print_def ds) st ->
  reads (parseDoc maxTokens n doc) (fold_left add_def ds doc) [] st.
Proof.
  revert doc n st. induction ds as [|d ds IH]; intros doc n st Hwf Hn Ha;
    (destruct n as [|n]; [lia |]); cbn [parseDoc].
  - cbn [flat_map] in Ha. run idtac. by split.
  - simpl in Hwf. apply andb_prop in Hwf as [Hd Hwf].
    cbn [flat_map fold_left] in *. rewrite length_app in Hn.
    destruct (print_def_head d) as (k & s & l & Hp & Hk).
    assert (Hl : (length (flat_map print_def ds) < n)%nat) by (rewrite Hp in Hn; simpl in Hn; lia).
    apply running_bind, running_get.
    assert (Ha' := Ha). rewrite Hp in Ha'. cbn [app] in Ha'.
    rewrite !(is_kind_at _ _ _ Ha'), !(is_name_at _ _ _ _ _ Ha').
    destruct d as [sel|op|f]; [subst k | destruct Hk as [-> ->] ..]; cbn [hd_kind].
    + simpl bool_decide. cbv iota. unfold parseSelectionOperation. run ltac:(eapply running_call;
        [apply (reads_parseSelectionSet (S n) sel); [done | | exact Ha]; simpl print_def in *; lia | intros ? ?]).
      by apply IH.
    + assert (Hop : reads (parseNamedOperation maxTokens (S n) (op_kind op)) op (flat_map print_def ds) st).
      { apply reads_parseNamedOperation; [done | | exact Ha]. simpl print_def in *. lia. }
      destruct (op_kind op); simpl bool_decide; cbn [andb]; cbv iota; apply running_bind;
        (eapply running_call; [exact Hop | intros st1 H1]); by apply IH.
    + simpl bool_decide. cbn [andb]. cbv iota. apply running_bind.
      eapply running_call; [apply (reads_parseFragmentDef (S n) f); [done | | exact Ha] | intros st1 H1].
      { simpl print_def in *. lia. }
      by apply IH.
Qed.
End Running.

(** ** The whole request *)

Section Whole.
Context (uni_letter uni_digit : Z -> bool).
#[local] Instance src_source : TokenSource lexer := lexer_source uni_letter uni_digit.
#[local] Instance src_laws : TokenSourceLaws lexer := lexer_source_laws uni_letter uni_digit.

Lemma emits_size (l : lexer) ts : emits l ts -> (length ts <= lex_size l)%nat.
Proof.
  revert l. induction ts as [|[k s] ts IH]; intros l; [simpl; lia |].
  intros (t & l' & Hn & Hk & _ & Hne & He). apply IH in He.
  apply lex_next_shrinks in Hn. rewrite decide_False in Hn by congruence. simpl length. lia.
Qed.

Lemma parse_emitted (src : string) (maxTokens : Z) (ds : list definition) :
  forallb wf_def ds = true -> emits (newLexer src) (flat_map print_def ds) ->
  (0 < maxTokens -> Z.of_nat (length (flat_map print_def ds)) <= maxTokens) ->
  parseDocumentLimited uni_letter uni_digit src maxTokens = Some (Ok (document_of ds)).
Proof.
  intros Hwf He Hmax. pose proof (emits_size _ _ He) as Hsize.
  assert (Hr : reads (L := lexer) maxTokens
    (next maxTokens;; parseDoc maxTokens (lex_size (newLexer src) + 3) (mkDoc [] ∅))
    (document_of ds) [] (mkP (newLexer src) (mkToken tEOF EmptyString 0 0) 0)).
  { apply running_bind. eapply running_call.
    - apply (reads_first maxTokens (flat_map print_def ds)); [exact He | done].
    - intros st1 H1. apply reads_parseDoc; [done | lia | done]. }
  destruct Hr as (d & st & Hp & -> & _).
  unfold parseDocumentLimited, parse_counted, parse_from.
  change (lexer_source uni_letter uni_digit) with src_source. by rewrite Hp.
Qed.
End Whole.
