(* ===== verification/GqlRender.v ===== *)
(** From tokens to source text and back: the lexer of [GqlLexer] reads every
    rendered token sequence back, and with [GqlPrint] the parser reads every
    rendered request back.  The source text is ASCII here; strings are escaped
    the way the lexer unescapes them. *)

From Stdlib Require Import ZArith Lia Ascii.
From stdpp Require Import base gmap strings list numbers.
From S2P Require Import Prelude GoRt GoStrconv GoUtf8 GqlLexer GqlParser GqlPrint.

#[local] Arguments String.append : simpl nomatch.

(** ** Rendering *)

Definition quote_char : ascii := ascii_of 34.
Definition backslash : ascii := ascii_of 92.

Definition escape_char (c : ascii) : string :=
  if (byte_of c =? 34) || (byte_of c =? 92) then String backslash (String c EmptyString)
  else if byte_of c =? 10 then String backslash (String "n" EmptyString)
  else String c EmptyString.

Fixpoint escape (s : string) : string :=
  match s with
  | EmptyString => EmptyString
  | String c s => (escape_char c +:+ escape s)%string
  end.

Definition tok_text (t : tk) : string :=
  match t with
  | (tString, s) => String quote_char (escape s +:+ String quote_char EmptyString)%string
  | (_, s) => s
  end.

Fixpoint render (ts : list tk) : string :=
  match ts with
  | [] => EmptyString
  | t :: ts => (tok_text t +:+ String " " (render ts))%string
  end.

(** ** Tokens that can be written *)

Fixpoint str_all (f : Z -> bool) (s : string) : bool :=
  match s with
  | EmptyString => true
  | String c s => f (byte_of c) && str_all f s
  end.

Definition ascii_letter (r : Z) : bool :=
  ((65 <=? r) && (r <=? 90)) || ((97 <=? r) && (r <=? 122)) || (r =? 95).

Definition name_text (s : string) : bool :=
  match s with
  | EmptyString => false
  | String c s => ascii_letter (byte_of c)
                  && str_all (fun r => ascii_letter r || is_digit_rune r) s
  end.

Definition digits (s : string) : bool :=
  negb (bool_decide (s = EmptyString)) && str_all is_digit_rune s.

(** The parts of a number: sign, integer part, fraction, exponent. *)
Record number_text := mkNum {
  nt_neg : bool; nt_int : string; nt_frac : option string;
  nt_exp : option (ascii * string * string) }.

Definition number_of (n : number_text) : string :=
  ((if nt_neg n then "-" else EmptyString) +:+ nt_int n
   +:+ (match nt_frac n with Some ds => String "." ds | None => EmptyString end)
   +:+ (match nt_exp n with
        | Some (e, sg, ds) => String e (sg +:+ ds)%string
        | None => EmptyString end))%string.

Definition number_ok (n : number_text) : bool :=
  digits (nt_int n)
  && match nt_frac n with Some ds => digits ds | None => true end
  && match nt_exp n with
     | Some (e, sg, ds) =>
         ((byte_of e =? 101) || (byte_of e =? 69))
         && (bool_decide (sg = EmptyString) || bool_decide (sg = "+"%string)
             || bool_decide (sg = "-"%string))
         && digits ds
     | None => true
     end.

Definition is_float (n : number_text) : bool :=
  match nt_frac n, nt_exp n with None, None => false | _, _ => true end.

Definition is_ascii_rune (r : Z) : bool := r <? 128.

Definition wf_tok (t : tk) : Prop :=
  match t.1 with
  | tEOF => False
  | tName => name_text t.2 = true
  | tInt => exists n, t.2 = number_of n /\ number_ok n = true /\ is_float n = false
  | tFloat => exists n, t.2 = number_of n /\ number_ok n = true /\ is_float n = true
  | tString => str_all is_ascii_rune t.2 = true
  | tSpread => t.2 = "..."%string
  | k => exists c, t.2 = String c EmptyString
                   /\ punctuator (byte_of c) = Some (k, String c EmptyString)
  end.

(** ** ASCII source *)

Fixpoint runes_of (s : string) : runes :=
  match s with
  | EmptyString => []
  | String c s => (byte_of c, String c EmptyString) :: runes_of s
  end.

Lemma decode_ascii s : str_all is_ascii_rune s = true -> decode_all s = runes_of s.
Proof.
  unfold decode_all. induction s as [|c s IH]; [done |]. intros H.
  cbn [str_all] in H. apply andb_prop in H as [Hc Hs].
  cbn [decode_from runes_of]. unfold DecodeRune.
  change (byte_at (String c s) 0) with (Some (byte_of c)). cbv iota beta.
  unfold is_ascii_rune in Hc. rewrite Hc. f_equal; [| by apply IH].
  f_equal. simpl. by destruct s.
Qed.

Lemma runes_of_app s1 s2 : runes_of (s1 +:+ s2) = runes_of s1 ++ runes_of s2.
Proof. induction s1 as [|c s1 IH]; [done |]. simpl. by rewrite IH. Qed.

Lemma bytes_of_runes s : bytes_of (runes_of s) = s.
Proof. induction s as [|c s IH]; [done |]. simpl. by rewrite IH. Qed.

Lemma str_all_app f s1 s2 : str_all f (s1 +:+ s2) = str_all f s1 && str_all f s2.
Proof. induction s1 as [|c s1 IH]; [done |]. simpl. by rewrite IH, andb_assoc. Qed.

Lemma str_all_mono (f g : Z -> bool) s :
  (forall r, f r = true -> g r = true) -> str_all f s = true -> str_all g s = true.
Proof.
  intros Hfg. induction s as [|c s IH]; [done |]. simpl. intros [Hc Hs]%andb_prop.
  by rewrite (Hfg _ Hc), IH.
Qed.

Lemma encode_ascii c : byte_of c < 128 -> encode_rune (byte_of c) = String c EmptyString.
Proof.
  destruct c as [[] [] [] [] [] [] [] []]; vm_compute; intros H; try reflexivity; discriminate H.
Qed.

(** What follows does not continue a scan. *)
Definition stops (f : Z -> bool) (u : string) : Prop :=
  match u with EmptyString => True | String c _ => f (byte_of c) = false end.

(** [l] stands in front of [s]. *)
Definition before (s : string) (l : lexer) : Prop := rest l = runes_of s.

Lemma scan_text f t u l :
  str_all f t = true -> stops f u -> before (t +:+ u) l ->
  exists l', scan f l = (t, l') /\ before u l'.
Proof.
  unfold before, scan. intros Ht Hu ->. generalize (line l) (col l).
  induction t as [|c t IH]; intros ln cl.
  - destruct u as [|c u]; simpl in *; [by eexists |]. rewrite Hu. by eexists.
  - cbn [str_all] in Ht. apply andb_prop in Ht as [Hc Ht]. simpl. rewrite Hc.
    destruct (IH Ht (step_line (byte_of c) ln) (step_col (byte_of c) cl)) as (l' & -> & Hl').
    by eexists.
Qed.

Lemma advance_text c u l :
  before (String c u) l -> before u (advance l).2.
Proof. unfold before, advance. by intros ->. Qed.

Lemma advance_bytes_text c u l :
  before (String c u) l -> advance_bytes l = (String c EmptyString, (advance l).2).
Proof. unfold before, advance_bytes. by intros ->. Qed.

Lemma peek_text c u l : before (String c u) l -> peek l = byte_of c.
Proof. unfold before, peek. by intros ->. Qed.

(** ** One token *)

#[local] Arguments advance_bytes : simpl never.
#[local] Arguments advance : simpl never.
#[local] Arguments scan : simpl never.
#[local] Arguments peek : simpl never.

Section OneToken.
Context (uni_letter uni_digit : Z -> bool).

Lemma app_str_assoc s1 s2 s3 : ((s1 +:+ s2) +:+ s3 = s1 +:+ (s2 +:+ s3))%string.
Proof. induction s1 as [|c s1 IH]; [done |]. simpl. by rewrite IH. Qed.

Lemma app_str_nil s : (s +:+ EmptyString)%string = s.
Proof. induction s as [|c s IH]; [done |]. simpl. by rewrite IH. Qed.

Lemma digits_all s : digits s = true -> str_all is_digit_rune s = true.
Proof. by intros [_ H]%andb_prop. Qed.

Lemma digits_cons s : digits s = true -> exists c s', s = String c s' /\ is_digit_rune (byte_of c) = true.
Proof.
  intros [Hne Hd]%andb_prop. destruct s as [|c s]; [done |].
  apply andb_prop in Hd as [Hc _]. by exists c, s.
Qed.

(** The three optional parts of a number, each read back. *)
Lemma lex_sign n u l :
  digits (nt_int n) = true ->
  before ((if nt_neg n then "-" else EmptyString) +:+ nt_int n +:+ u) l ->
  exists l', (if peek l =? 45 then advance_bytes l else (EmptyString, l))
             = ((if nt_neg n then "-" else EmptyString)%string, l')
             /\ before (nt_int n +:+ u) l'.
Proof.
  intros (c & s & Hi & Hc)%digits_cons Hl. rewrite Hi in *. destruct (nt_neg n); simpl in Hl.
  - rewrite (peek_text _ _ _ Hl), (advance_bytes_text _ _ _ Hl). simpl.
    eexists. split; [done |]. by apply (advance_text "-").
  - rewrite (peek_text _ _ _ Hl). unfold is_digit_rune in Hc. to_prop.
    rewrite (proj2 (Z.eqb_neq _ _)) by lia. by eexists.
Qed.

Lemma lex_digits s u l :
  digits s = true -> stops is_digit_rune u -> before (s +:+ u) l ->
  exists l', scan is_digit_rune l = (s, l') /\ before u l'.
Proof. intros Hd%digits_all Hu Hl. by apply scan_text. Qed.

(** The lexer after the integer part. *)
Definition exp_text (e : option (ascii * string * string)) : string :=
  match e with Some (e, sg, ds) => String e (sg +:+ ds) | None => EmptyString end.

Definition exp_ok (e : option (ascii * string * string)) : bool :=
  match e with
  | Some (e, sg, ds) =>
      ((byte_of e =? 101) || (byte_of e =? 69))
      && (bool_decide (sg = EmptyString) || bool_decide (sg = "+"%string)
          || bool_decide (sg = "-"%string))
      && digits ds
  | None => true
  end.

Lemma lex_exponent e u l :
  exp_ok e = true -> before (exp_text e +:+ String " " u) l ->
  exists l',
    (if (peek l =? 101) || (peek l =? 69)
     then let '(e, l) := advance_bytes l in
          let '(sg, l) := if (peek l =? 43) || (peek l =? 45)
                          then advance_bytes l else (EmptyString, l) in
          let '(ds, l) := scan is_digit_rune l in (true, (e +:+ sg +:+ ds)%string, l)
     else (false, EmptyString, l))
    = (bool_decide (is_Some e), exp_text e, l') /\ before (String " " u) l'.
Proof.
  destruct e as [[[e sg] ds]|]; cbn [exp_ok exp_text String.append]; intros He Hl.
  - apply andb_prop in He as [[He Hs]%andb_prop Hd].
    rewrite (peek_text _ _ _ Hl), He, (advance_bytes_text _ _ _ Hl).
    apply advance_text in Hl. rewrite app_str_assoc in Hl.
    set (l1 := (advance l).2) in *. clearbody l1.
    assert (exists l2, (if (peek l1 =? 43) || (peek l1 =? 45)
                        then advance_bytes l1 else (EmptyString, l1)) = (sg, l2)
                       /\ before (ds +:+ String " " u) l2) as (l2 & -> & H2).
    { apply orb_prop in Hs as [[H|H]%orb_prop|H]; apply bool_decide_eq_true in H; subst sg; simpl in Hl.
      - destruct (digits_cons _ Hd) as (c & s & -> & Hc). simpl in *.
        rewrite (peek_text _ _ _ Hl). unfold is_digit_rune in Hc. to_prop.
        rewrite !(proj2 (Z.eqb_neq _ _)) by lia. by eexists.
      - rewrite (peek_text _ _ _ Hl), (advance_bytes_text _ _ _ Hl).
        eexists. split; [done |]. by apply advance_text in Hl.
      - rewrite (peek_text _ _ _ Hl), (advance_bytes_text _ _ _ Hl).
        eexists. split; [done |]. by apply advance_text in Hl. }
    destruct (lex_digits ds (String " " u) l2) as (l3 & -> & H3); [done | done | done |].
    by exists l3.
  - rewrite (peek_text _ _ _ Hl). by exists l.
Qed.

Lemma lex_number_text n u ln cl l :
  number_ok n = true -> before (number_of n +:+ String " " u) l ->
  exists l', lexNumber ln cl l
             = (mkToken (if is_float n then tFloat else tInt) (number_of n) ln cl, l')
             /\ before (String " " u) l'.
Proof.
  unfold number_ok, number_of. fold (exp_text (nt_exp n)). fold (exp_ok (nt_exp n)).
  intros [[Hi Hf]%andb_prop He]%andb_prop Hl. rewrite !app_str_assoc in Hl.
  destruct (lex_sign _ _ _ Hi Hl) as (l1 & E1 & H1). unfold lexNumber. rewrite E1.
  edestruct lex_digits as (l2 & -> & H2); [exact Hi | | exact H1 |].
  { destruct (nt_frac n); [done |]. destruct (nt_exp n) as [[[e sg] ds]|]; [| done]. simpl in *.
    apply andb_prop in He as [[He _]%andb_prop _]. unfold is_digit_rune.
    apply orb_prop in He as [->%Z.eqb_eq| ->%Z.eqb_eq]; done. }
  assert (exists l3, (if peek l2 =? 46
     then let '(dot, l) := advance_bytes l2 in
          let '(ds, l) := scan is_digit_rune l in (true, (dot +:+ ds)%string, l)
     else (false, EmptyString, l2))
    = (bool_decide (is_Some (nt_frac n)),
       match nt_frac n with Some ds => String "." ds | None => EmptyString end, l3)
    /\ before (exp_text (nt_exp n) +:+ String " " u) l3) as (l3 & -> & H3).
  { destruct (nt_frac n) as [ds|]; simpl in H2.
    - rewrite (peek_text _ _ _ H2), (advance_bytes_text _ _ _ H2). simpl.
      apply advance_text in H2.
      destruct (lex_digits ds (exp_text (nt_exp n) +:+ String " " u) (advance l2).2) as (l3 & -> & H3);
        [done | | done | by exists l3].
      destruct (nt_exp n) as [[[e sg] ds']|]; [| done]. simpl in *.
      apply andb_prop in He as [[He _]%andb_prop _]. unfold is_digit_rune.
      apply orb_prop in He as [->%Z.eqb_eq| ->%Z.eqb_eq]; done.
    - destruct (nt_exp n) as [[[e sg] ds']|]; simpl in H2; rewrite (peek_text _ _ _ H2); [| by exists l2].
      simpl in He. apply andb_prop in He as [[He _]%andb_prop _].
      apply orb_prop in He as [->%Z.eqb_eq| ->%Z.eqb_eq]; simpl; by exists l2. }
  destruct (lex_exponent _ _ _ He H3) as (l4 & -> & H4). exists l4. split; [| done].
  f_equal. f_equal. unfold is_float. by destruct (nt_frac n), (nt_exp n).
Qed.

Lemma lex_string_text l0 c0 s u b ln cl :
  str_all is_ascii_rune s = true ->
  exists l', lex_string_from l0 c0 (runes_of (escape s +:+ String quote_char u)) ln cl b
             = Ok (mkToken tString (b +:+ s) l0 c0, l') /\ before u l'.
Proof.
  revert b ln cl. induction s as [|c s IH]; intros b ln cl Hs.
  { simpl. rewrite app_str_nil. by eexists. }
  cbn [str_all] in Hs. apply andb_prop in Hs as [Hc Hs].
  assert (Henc : encode_rune (byte_of c) = String c EmptyString)
    by (apply encode_ascii; unfold is_ascii_rune in Hc; by to_prop).
  assert (Hrec : forall ln cl, exists l',
    lex_string_from l0 c0 (runes_of (escape s +:+ String quote_char u)) ln cl
      (b +:+ String c EmptyString)
    = Ok (mkToken tString (b +:+ String c s) l0 c0, l') /\ before u l').
  { intros ln' cl'. destruct (IH (b +:+ String c EmptyString)%string ln' cl' Hs) as (l' & -> & Hl').
    exists l'. by rewrite app_str_assoc. }
  cbn [escape]. unfold escape_char.
  destruct (_ || _) eqn:Hq; [| destruct (byte_of c =? 10) eqn:Hn];
    cbn [String.append runes_of lex_string_from].
  - change (byte_of backslash) with 92. simpl Z.eqb. cbv iota beta zeta.
    assert (simple_escape (byte_of c) = Some (byte_of c)) as ->
      by (unfold simple_escape; by rewrite Hq).
    rewrite Henc. apply Hrec.
  - change (byte_of backslash) with 92. simpl Z.eqb. cbv iota beta zeta.
    change (simple_escape (byte_of "n")) with (Some 10). apply Z.eqb_eq in Hn. cbv iota beta.
    rewrite Hn in Henc. rewrite Henc. apply Hrec.
  - apply orb_false_elim in Hq as [-> ->]. rewrite Hn, Henc. apply Hrec.
Qed.

Lemma name_rune_ascii r : ascii_letter r || is_digit_rune r = true ->
  name_rune uni_letter uni_digit r = true.
Proof.
  intros H. unfold name_rune, IsLetter, IsDigit, ascii_letter, is_digit_rune in *.
  destruct (r =? 95) eqn:E; [by rewrite !orb_true_r | rewrite orb_false_r in H].
  apply orb_prop in H as [H|H].
  - assert ((r <=? 255) = true) as ->.
    { apply orb_prop in H as [[? ?]%andb_prop|[? ?]%andb_prop]; to_prop; apply Z.leb_le; lia. }
    rewrite H. by simpl.
  - assert ((r <=? 255) = true) as -> by (to_prop; apply Z.leb_le; lia).
    rewrite H. simpl. by rewrite orb_true_r.
Qed.

Lemma lexName_text s u ln cl l :
  name_text s = true -> before (s +:+ String " " u) l ->
  exists l', lexName uni_letter uni_digit ln cl l = (mkToken tName s ln cl, l')
             /\ before (String " " u) l'.
Proof.
  intros Hs Hl. unfold lexName.
  destruct (scan_text (name_rune uni_letter uni_digit) s (String " " u) l) as (l' & -> & H');
    [| done | done | by exists l'].
  destruct s as [|c s]; [done |]. simpl in *. apply andb_prop in Hs as [Hc Hs].
  rewrite name_rune_ascii by (by rewrite Hc).
  by apply (str_all_mono _ _ _ name_rune_ascii).
Qed.

(** Blanks are skipped up to the first character of a token. *)
Lemma skip_text s l :
  match s with EmptyString => True
  | String c _ => is_blank (byte_of c) = false /\ byte_of c <> 35 end ->
  before s l \/ before (String " " s) l ->
  before s (skipIgnored l).
Proof.
  intros Hs. unfold before, skipIgnored.
  assert (Hskip : forall ln cl, rest (skip_from false (runes_of s) ln cl) = runes_of s).
  { intros. destruct s as [|c s]; [done |]. destruct Hs as [Hb Hc]. simpl. rewrite Hb.
    by rewrite (proj2 (Z.eqb_neq _ _) Hc). }
  intros [-> | ->]; [apply Hskip |]. simpl. apply Hskip.
Qed.

Lemma skip_first c s l :
  is_blank (byte_of c) = false -> byte_of c <> 35 ->
  before (String c s) l \/ before (String " " (String c s)) l ->
  before (String c s) (skipIgnored l).
Proof. intros Hb Hc. by apply skip_text. Qed.

Ltac neqs := rewrite ?(proj2 (Z.eqb_neq _ _)) by lia.

(** [l] reads [t] and stops in front of the following blank. *)
Definition lexes (t : tk) (u : string) (l : lexer) : Prop :=
  exists t' l', GqlLexer.next uni_letter uni_digit l = Ok (t', l')
    /\ kind t' = t.1 /\ tval t' = t.2 /\ before (String " " u) l'.

Lemma next_first c s l :
  before (String c s) (skipIgnored l) ->
  GqlLexer.next uni_letter uni_digit l
  = let l := skipIgnored l in
    match punctuator (byte_of c) with
    | Some (k, s) => Ok (mkToken k s (line l) (col l), (advance l).2)
    | None =>
        if byte_of c =? 46
        then if String.prefix "..." (String c s)
             then Ok (mkToken tSpread "..." (line l) (col l), (advance (advance (advance l).2).2).2)
             else Err (ErrUnexpectedDot (line l) (col l))
        else if byte_of c =? 34 then lexString (line l) (col l) l
        else if (byte_of c =? 45) || is_digit_rune (byte_of c)
        then Ok (lexNumber (line l) (col l) l)
        else if name_start uni_letter (byte_of c)
        then Ok (lexName uni_letter uni_digit (line l) (col l) l)
        else Err (ErrUnexpectedChar (byte_of c) (line l) (col l))
    end.
Proof.
  unfold before. intros H. unfold GqlLexer.next. cbv zeta. rewrite H. cbn [runes_of].
  change ((byte_of c, String c "") :: runes_of s) with (runes_of (String c s)).
  by rewrite bytes_of_runes.
Qed.

Lemma next_punctuator k c u l :
  punctuator (byte_of c) = Some (k, String c EmptyString) ->
  before (String c (String " " u)) l \/ before (String " " (String c (String " " u))) l ->
  lexes (k, String c EmptyString) u l.
Proof.
  intros Hp Hl. apply skip_first in Hl.
  - unfold lexes. rewrite (next_first _ _ _ Hl). cbv zeta. rewrite Hp.
    do 2 eexists. split_and!; [done.. |]. by apply advance_text in Hl.
  - unfold punctuator, is_blank in *. repeat case_match; to_prop; subst; simplify_eq; by neqs.
  - intros E. unfold punctuator in Hp. by rewrite E in Hp.
Qed.

Lemma next_spread u l :
  before ("..." +:+ String " " u) l \/ before (String " " ("..." +:+ String " " u)) l ->
  lexes (tSpread, "...") u l.
Proof.
  intros Hl. simpl in Hl. apply skip_first in Hl; [| done | done].
  unfold lexes. rewrite (next_first _ _ _ Hl). cbv zeta. simpl punctuator.
  change (byte_of "." =? 46) with true. cbv iota.
  change (String.prefix "..." (String "." (String "." (String "." (String " " u))))) with true.
  do 2 eexists. split_and!; [done.. |]. by do 3 apply advance_text in Hl.
Qed.

Lemma next_name s u l :
  name_text s = true ->
  before (s +:+ String " " u) l \/ before (String " " (s +:+ String " " u)) l ->
  lexes (tName, s) u l.
Proof.
  intros Hs Hl. assert (Hs' := Hs). destruct s as [|c s]; [done |].
  simpl in Hs'. apply andb_prop in Hs' as [Hc _].
  assert (Hr : 65 <= byte_of c <= 90 \/ 97 <= byte_of c <= 122 \/ byte_of c = 95).
  { unfold ascii_letter in Hc.
    apply orb_prop in Hc as [[[? ?]%andb_prop|[? ?]%andb_prop]%orb_prop|?]; to_prop; lia. }
  simpl in Hl. apply skip_first in Hl; [| unfold is_blank; by neqs | lia].
  unfold lexes. rewrite (next_first _ _ _ Hl). cbv zeta. unfold punctuator. neqs.
  assert (is_digit_rune (byte_of c) = false) as ->.
  { unfold is_digit_rune. apply andb_false_iff. rewrite !Z.leb_gt. lia. }
  assert (name_start uni_letter (byte_of c) = true) as ->.
  { unfold name_start, IsLetter. rewrite (proj2 (Z.leb_le _ 255)) by lia.
    unfold ascii_letter in Hc. destruct (byte_of c =? 95); [by rewrite orb_true_r |].
    rewrite orb_false_r in Hc. by rewrite Hc. }
  simpl. destruct (lexName_text (String c s) u (line (skipIgnored l)) (col (skipIgnored l))
    (skipIgnored l) Hs Hl) as (l' & -> & H').
  by do 2 eexists.
Qed.

Lemma next_number n u l :
  number_ok n = true ->
  before (number_of n +:+ String " " u) l \/ before (String " " (number_of n +:+ String " " u)) l ->
  lexes (if is_float n then tFloat else tInt, number_of n) u l.
Proof.
  intros Hn Hl. assert (exists c s, number_of n = String c s
    /\ (byte_of c = 45 \/ 48 <= byte_of c <= 57)) as (c & s & E & Hc).
  { unfold number_ok in Hn. apply andb_prop in Hn as [[Hi _]%andb_prop _].
    destruct (digits_cons _ Hi) as (c & s & Hs & Hc). unfold number_of. rewrite Hs.
    destruct (nt_neg n); simpl; do 2 eexists; (split; [done |]); [by left |].
    right. unfold is_digit_rune in Hc. to_prop. lia. }
  rewrite E in Hl. simpl in Hl. apply skip_first in Hl; [| unfold is_blank; by neqs | lia].
  unfold lexes. rewrite (next_first _ _ _ Hl). cbv zeta. unfold punctuator. neqs.
  assert ((byte_of c =? 45) || is_digit_rune (byte_of c) = true) as ->.
  { apply orb_true_iff. destruct Hc as [-> | Hc]; [by left | right].
    unfold is_digit_rune. apply andb_true_iff. rewrite !Z.leb_le. lia. }
  destruct (lex_number_text n u (line (skipIgnored l)) (col (skipIgnored l)) (skipIgnored l) Hn)
    as (l' & -> & H'); [by rewrite E |].
  by do 2 eexists.
Qed.

Lemma next_string s u l :
  str_all is_ascii_rune s = true ->
  before (tok_text (tString, s) +:+ String " " u) l
  \/ before (String " " (tok_text (tString, s) +:+ String " " u)) l ->
  lexes (tString, s) u l.
Proof.
  intros Hs Hl. cbn [tok_text String.append] in Hl. rewrite app_str_assoc in Hl.
  apply skip_first in Hl; [| done | done].
  unfold lexes. rewrite (next_first _ _ _ Hl). cbv zeta.
  change (byte_of quote_char) with 34. simpl Z.eqb. change (punctuator 34) with (@None (tokenKind * string)).
  cbv iota. unfold lexString. apply advance_text in Hl. unfold before in Hl. rewrite Hl.
  destruct (lex_string_text (line (skipIgnored l)) (col (skipIgnored l)) s (String " " u) EmptyString
    (line (advance (skipIgnored l)).2) (col (advance (skipIgnored l)).2) Hs) as (l' & E & H').
  cbn [String.append] in *. rewrite E. by do 2 eexists.
Qed.

Lemma next_token t u l :
  wf_tok t ->
  before (tok_text t +:+ String " " u) l \/ before (String " " (tok_text t +:+ String " " u)) l ->
  lexes t u l.
Proof.
  destruct t as [k s]. intros Hwf Hl.
  destruct k; unfold wf_tok in Hwf; cbn [fst snd] in Hwf; try done;
    try (destruct Hwf as (c & -> & Hp); by apply next_punctuator).
  - by apply next_name.
  - destruct Hwf as (n & -> & Hn & Hf). pose proof (next_number n u l Hn Hl) as H.
    by rewrite Hf in H.
  - destruct Hwf as (n & -> & Hn & Hf). pose proof (next_number n u l Hn Hl) as H.
    by rewrite Hf in H.
  - by apply next_string.
  - subst s. by apply next_spread.
Qed.

(** ** The whole text *)

#[local] Instance text_source : TokenSource lexer := lexer_source uni_letter uni_digit.

Lemma emits_render ts l :
  Forall wf_tok ts -> before (render ts) l \/ before (String " " (render ts)) l ->
  emits l ts.
Proof.
  intros Hwf. revert l. induction Hwf as [|t ts Ht _ IH]; intros l Hl.
  - apply (skip_text EmptyString) in Hl; [| done]. unfold before in Hl.
    unfold emits. simpl lex_next. unfold GqlLexer.next. cbv zeta. rewrite Hl. by do 2 eexists.
  - cbn [render] in Hl. destruct (next_token t _ l Ht Hl) as (t' & l' & Hn & Hk & Hv & Hb).
    destruct t as [k s]. exists t', l'. split_and!; [done.. | | by auto].
    by intros ->.
Qed.

Lemma ascii_name s : name_text s = true -> str_all is_ascii_rune s = true.
Proof.
  destruct s as [|c s]; [done |]. simpl. intros [Hc Hs]%andb_prop.
  assert (H : forall r, ascii_letter r || is_digit_rune r = true -> is_ascii_rune r = true).
  { intros r Hr. unfold is_ascii_rune, ascii_letter, is_digit_rune in *. apply Z.ltb_lt.
    apply orb_prop in Hr as [[[[? ?]%andb_prop|[? ?]%andb_prop]%orb_prop|?]%orb_prop|[? ?]%andb_prop];
      to_prop; lia. }
  rewrite H by (by rewrite Hc). simpl. by apply (str_all_mono _ _ _ H).
Qed.

Lemma ascii_digits s : digits s = true -> str_all is_ascii_rune s = true.
Proof.
  intros H%digits_all. apply (str_all_mono is_digit_rune); [| done]. intros r [? ?]%andb_prop.
  unfold is_ascii_rune. apply Z.ltb_lt. to_prop. lia.
Qed.

Lemma ascii_number n : number_ok n = true -> str_all is_ascii_rune (number_of n) = true.
Proof.
  intros [[Hi Hf]%andb_prop He]%andb_prop. unfold number_of. rewrite !str_all_app.
  rewrite (ascii_digits _ Hi).
  assert (str_all is_ascii_rune (if nt_neg n then "-" else EmptyString) = true) as ->
    by (by destruct (nt_neg n)).
  assert (str_all is_ascii_rune (match nt_frac n with Some ds => String "." ds
            | None => EmptyString end) = true) as ->.
  { destruct (nt_frac n); [| done]. simpl. by apply ascii_digits. }
  destruct (nt_exp n) as [[[e sg] ds]|]; [| done]. simpl.
  apply andb_prop in He as [[He Hs]%andb_prop Hd]. rewrite str_all_app, (ascii_digits _ Hd).
  assert (is_ascii_rune (byte_of e) = true) as ->
    by (by apply orb_prop in He as [->%Z.eqb_eq| ->%Z.eqb_eq]).
  by apply orb_prop in Hs as [[H|H]%orb_prop|H]; apply bool_decide_eq_true in H as ->.
Qed.

Lemma ascii_escape s : str_all is_ascii_rune s = true -> str_all is_ascii_rune (escape s) = true.
Proof.
  induction s as [|c s IH]; [done |]. simpl. intros [Hc Hs]%andb_prop.
  rewrite str_all_app, IH by done. unfold escape_char.
  repeat case_match; simpl; by rewrite ?Hc.
Qed.

Lemma ascii_tok t : wf_tok t -> str_all is_ascii_rune (tok_text t) = true.
Proof.
  destruct t as [k s]. unfold wf_tok. cbn [fst snd].
  destruct k; cbn [tok_text]; try done;
    try (intros (c & -> & Hp); unfold punctuator in Hp; simpl; unfold is_ascii_rune;
         repeat case_match; to_prop; try done;
         match goal with H : byte_of c = _ |- _ => by rewrite H end).
  - apply ascii_name.
  - intros (n & -> & Hn & _). by apply ascii_number.
  - intros (n & -> & Hn & _). by apply ascii_number.
  - intros Hs. cbn [str_all]. rewrite str_all_app, ascii_escape by done. done.
  - by intros ->.
Qed.

Lemma ascii_render ts : Forall wf_tok ts -> str_all is_ascii_rune (render ts) = true.
Proof.
  induction 1 as [|t ts Ht _ IH]; [done |]. cbn [render].
  rewrite str_all_app, ascii_tok by done. simpl. by rewrite IH.
Qed.

Lemma newLexer_before ts : Forall wf_tok ts -> before (render ts) (newLexer (render ts)).
Proof. intros Hwf. unfold before, newLexer. simpl. by apply decode_ascii, ascii_render. Qed.

(** The lexer inverts printing: any sequence of tokens written one after
    the other with blanks in between (names, integers and floats in every form
    the grammar gives them, strings escaped) is read back token for token, with
    its kinds and values, and then the end of the input. *)
Theorem lex_render (ts : list tk) :
  Forall wf_tok ts -> emits (newLexer (render ts)) ts.
Proof. intros Hwf. apply emits_render; [done | left; by apply newLexer_before]. Qed.

(** C10: the parser inverts printing: every sequence of definitions (operations
    with variables and defaults, shorthand queries, fragments; aliases,
    arguments with nested lists and objects, inline fragments and spreads),
    printed in the grammar and rendered as text, parses back to exactly those
    definitions, as soon as the token cap allows its tokens. *)
Theorem parse_print (ds : list definition) (maxTokens : Z) :
  forallb wf_def ds = true -> Forall wf_tok (flat_map print_def ds) ->
  (0 < maxTokens -> Z.of_nat (length (flat_map print_def ds)) <= maxTokens) ->
  parseDocumentLimited uni_letter uni_digit (render (flat_map print_def ds)) maxTokens
  = Some (Ok (document_of ds)).
Proof.
  intros Hwf Htok Hmax. apply parse_emitted; [done | | done].
  apply emits_render; [done | left; by apply newLexer_before].
Qed.
End OneToken.

(** ** Witnesses *)

Section Witnesses.
Definition no_uni : Z -> bool := fun _ => false.

(** [query Q ( $ id : [ Int ! ] = 7 ) { a : f ( x : { k : ESCAPED } ) { ... on T { ... F } } }]
    and [fragment F on T { g }]. *)
Definition wdefs : list definition :=
  [DOperation (mkOp opQuery "Q"
     [mkVar "id" (TList (TNamed "Int" true) false) (VInt "7")]
     [SField "a" "f" [("x", VObject [("k", VList [VString (String "h" (String backslash "i")); VNull])])]
        [SInline "T" [SSpread "F"]]]);
   DFragment (mkFrag "F" "T" [SField "" "g" [] []])]%string.

Lemma wdefs_tokens : Forall wf_tok (flat_map print_def wdefs).
Proof.
  repeat (constructor; [first [reflexivity | exists (mkNum false "7" None None); by vm_compute
    | eexists; split; reflexivity] |]). constructor.
Qed.

Lemma lex_render_witness :
  emits (H := lexer_source no_uni no_uni)
    (newLexer (render (flat_map print_def wdefs))) (flat_map print_def wdefs).
Proof. apply lex_render. exact wdefs_tokens. Defined.

Lemma parse_print_witness :
  parseDocumentLimited no_uni no_uni (render (flat_map print_def wdefs)) 60
  = Some (Ok (document_of wdefs)).
Proof.
  apply parse_print; [reflexivity | exact wdefs_tokens | by vm_compute].
Defined.
End Witnesses.
