(* ===== verification/GqlLimits.v ===== *)
(** The request checks of [src/graphql/limits.go] and the part of
    [src/graphql/execute.go] that runs before any resolver: the size limit, the
    choice of the operation, the rejection of fragment cycles and the cost
    limits.

    Functions that follow fragment spreads recurse structurally inside a
    selection set and through a closure at a spread; the closure spends fuel,
    and [None] means that it ran out.  The number of fragments is always enough
    ([detect_exact], [validate_exact]). *)

From Stdlib Require Import ZArith Lia Ascii.
From stdpp Require Import base gmap strings list relations numbers.
From S2P Require Import Prelude GoRt GoStrconv GqlLexer GqlParser.

Record Limits := mkLimits {
  MaxDocumentBytes : Z; MaxTokens : Z; MaxDepth : Z; MaxSelectionNodes : Z;
  MaxAliases : Z; DisableIntrospection : bool }.

Definition DefaultLimits : Limits :=
  mkLimits (Z.shiftl 1 20) 100000 50 100000 10000 false.

Inductive request_error :=
| ErrDocumentSize (len max : Z)
| ErrIntrospection (field : string)
| ErrMaxAliases (max : Z)
| ErrMaxDepth (max : Z)
| ErrMaxNodes (max : Z)
| ErrCycle (name : string)
| ErrNoOperations
| ErrNameRequired (n : nat)
| ErrNoOperation (name : string)
| ErrSyntax (e : gql_error).

Definition checkDocumentSize (l : Limits) (query : string) : result request_error unit :=
  let len := Z.of_nat (String.length query) in
  if (0 <? MaxDocumentBytes l) && (MaxDocumentBytes l <? len)
  then Err (ErrDocumentSize len (MaxDocumentBytes l)) else Ok tt.

Definition selectOperation (doc : document) (name : string) : result request_error operation :=
  match operations doc with
  | [] => Err ErrNoOperations
  | op :: ops =>
      if bool_decide (name = EmptyString)
      then match ops with
           | [] => Ok op
           | _ => Err (ErrNameRequired (length (op :: ops)))
           end
      else match List.find (fun op => bool_decide (op_name op = name)) (op :: ops) with
           | Some op => Ok op
           | None => Err (ErrNoOperation name)
           end
  end.

(** ** Aliases and introspection *)

Definition isIntrospectionField (name : string) : bool := String.prefix "__" name.

Section Scan.
Context (l : Limits).

(** The recursive closure [scan]; the count of aliases is passed along. *)
Fixpoint scan_selection (s : selection) (aliases : Z) : result request_error Z :=
  let scan := fix scan (sels : list selection) (aliases : Z) : result request_error Z :=
    match sels with
    | [] => Ok aliases
    | s :: sels =>
        match scan_selection s aliases with
        | Err e => Err e
        | Ok aliases => scan sels aliases
        end
    end in
  match s with
  | SField alias name _ sel =>
      if DisableIntrospection l && isIntrospectionField name then Err (ErrIntrospection name)
      else if (0 <? MaxAliases l) && negb (bool_decide (alias = EmptyString))
      then if MaxAliases l <? aliases + 1 then Err (ErrMaxAliases (MaxAliases l))
           else scan sel (aliases + 1)
      else scan sel aliases
  | SInline _ sel => scan sel aliases
  | SSpread _ => Ok aliases
  end.

Fixpoint scan (sels : list selection) (aliases : Z) : result request_error Z :=
  match sels with
  | [] => Ok aliases
  | s :: sels =>
      match scan_selection s aliases with
      | Err e => Err e
      | Ok aliases => scan sels aliases
      end
  end.

Fixpoint scan_sets (sets : list (list selection)) (aliases : Z)
  : result request_error Z :=
  match sets with
  | [] => Ok aliases
  | sels :: sets =>
      match scan sels aliases with
      | Err e => Err e
      | Ok aliases => scan_sets sets aliases
      end
  end.

End Scan.

(** Every selection set of the document; Go walks the fragments in any order. *)
Definition all_sets (doc : document) : list (list selection) :=
  map op_selSet (operations doc) ++ map (fun kf => fr_selSet kf.2) (map_to_list (fragments doc)).

Definition checkAliasesAndIntrospection (l : Limits) (doc : document) : result request_error unit :=
  match scan_sets l (all_sets doc) 0 with
  | Err e => Err e
  | Ok _ => Ok tt
  end.

(** ** The cost walk *)

(** [expanded] counts the spreads followed; nothing reads it, it is there for
    the theorem on the size of the walk. *)
Record walker := mkWalker { nodes : Z; expanding : gset string; expanded : nat }.

Definition walked : Type := option (result request_error walker).

Section Walk.
Context (maxDepth maxNodes : Z).

Section Set_.
(** [spread name depth]: what the walk does at a spread. *)
Context (spread : string -> Z -> walker -> walked).

(** [walk] on a nested set: the depth test, then the loop. *)
Fixpoint walk_selection (s : selection) (depth : Z) (v : walker) : walked :=
  let loop := fix loop (sels : list selection) (depth : Z) (v : walker) : walked :=
    match sels with
    | [] => Some (Ok v)
    | s :: sels =>
        match walk_selection s depth v with
        | Some (Ok v) => loop sels depth v
        | r => r
        end
    end in
  let walk sels depth v :=
    if (0 <? maxDepth) && (maxDepth <? depth) then Some (Err (ErrMaxDepth maxDepth))
    else loop sels depth v in
  match s with
  | SField _ _ _ sel =>
      let v := mkWalker (nodes v + 1) (expanding v) (expanded v) in
      if (0 <? maxNodes) && (maxNodes <? nodes v) then Some (Err (ErrMaxNodes maxNodes))
      else match sel with [] => Some (Ok v) | _ => walk sel (depth + 1) v end
  | SInline _ sel => walk sel depth v
  | SSpread name =>
      if bool_decide (name = EmptyString) then Some (Ok v) else spread name depth v
  end.

Fixpoint walk_loop (sels : list selection) (depth : Z) (v : walker) : walked :=
  match sels with
  | [] => Some (Ok v)
  | s :: sels =>
      match walk_selection s depth v with
      | Some (Ok v) => walk_loop sels depth v
      | r => r
      end
  end.

Definition walk_set (sels : list selection) (depth : Z) (v : walker) : walked :=
  if (0 <? maxDepth) && (maxDepth <? depth) then Some (Err (ErrMaxDepth maxDepth))
  else walk_loop sels depth v.
End Set_.

Fixpoint spread_at (n : nat) (doc : document) (name : string) (depth : Z) (v : walker) : walked :=
  match fragments doc !! name with
  | None => Some (Ok v)
  | Some frag =>
      if bool_decide (name ∈ expanding v) then Some (Ok v)
      else
        match n with
        | O => None
        | S n =>
            let v := mkWalker (nodes v) ({[name]} ∪ expanding v) (S (expanded v)) in
            match walk_set (spread_at n doc) (fr_selSet frag) depth v with
            | Some (Ok v) => Some (Ok (mkWalker (nodes v) (expanding v ∖ {[name]}) (expanded v)))
            | r => r
            end
        end
  end.

Definition walk (doc : document) (sels : list selection) (depth : Z) (v : walker) : walked :=
  walk_set (spread_at (size (fragments doc)) doc) sels depth v.

Fixpoint walk_operations (doc : document) (ops : list operation) (v : walker) : walked :=
  match ops with
  | [] => Some (Ok v)
  | op :: ops =>
      match walk doc (op_selSet op) 1 v with
      | Some (Ok v) => walk_operations doc ops v
      | r => r
      end
  end.
End Walk.

Definition new_walker : walker := mkWalker 0 ∅ 0.

Definition validate (l : Limits) (doc : document) : option (result request_error unit) :=
  match (if (0 <? MaxAliases l) || DisableIntrospection l
         then checkAliasesAndIntrospection l doc else Ok tt) with
  | Err e => Some (Err e)
  | Ok _ =>
      if (MaxDepth l <=? 0) && (MaxSelectionNodes l <=? 0) then Some (Ok tt)
      else match walk_operations (MaxDepth l) (MaxSelectionNodes l) doc (operations doc) new_walker with
           | None => None
           | Some (Err e) => Some (Err e)
           | Some (Ok _) => Some (Ok tt)
           end
  end.

(** ** Fragment cycles *)

(** [state]: absent is unvisited, [1] on the stack, [2] done. *)
Definition visited : Type := option (result request_error (gmap string Z)).

Section Visit.
Context (visit : string -> gmap string Z -> visited).

Fixpoint visit_selection (s : selection) (st : gmap string Z) : visited :=
  let loop := fix loop (sels : list selection) (st : gmap string Z) : visited :=
    match sels with
    | [] => Some (Ok st)
    | s :: sels =>
        match visit_selection s st with
        | Some (Ok st) => loop sels st
        | r => r
        end
    end in
  match s with
  | SField _ _ _ sel => loop sel st
  | SInline _ sel => loop sel st
  | SSpread name => if bool_decide (name = EmptyString) then Some (Ok st) else visit name st
  end.

Fixpoint visitFragmentSpreads (sels : list selection) (st : gmap string Z) : visited :=
  match sels with
  | [] => Some (Ok st)
  | s :: sels =>
      match visit_selection s st with
      | Some (Ok st) => visitFragmentSpreads sels st
      | r => r
      end
  end.
End Visit.

Fixpoint visit (n : nat) (doc : document) (name : string) (st : gmap string Z) : visited :=
  match default 0 (st !! name) with
  | 1 => Some (Err (ErrCycle name))
  | 2 => Some (Ok st)
  | _ =>
      match fragments doc !! name with
      | None => Some (Ok (<[name := 2]> st))
      | Some frag =>
          match n with
          | O => None
          | S n =>
              match visitFragmentSpreads (visit n doc) (fr_selSet frag) (<[name := 1]> st) with
              | Some (Ok st) => Some (Ok (<[name := 2]> st))
              | r => r
              end
          end
      end
  end.

(** The loop over the names of a list. *)
Fixpoint visit_names (visit : string -> gmap string Z -> visited) (names : list string) (st : gmap string Z)
  : visited :=
  match names with
  | [] => Some (Ok st)
  | name :: names =>
      match visit name st with
      | Some (Ok st) => visit_names visit names st
      | r => r
      end
  end.

Definition detectFragmentCycles (doc : document) : option (result request_error unit) :=
  match visit_names (visit (size (fragments doc)) doc) (map fst (map_to_list (fragments doc))) ∅ with
  | None => None
  | Some (Err e) => Some (Err e)
  | Some (Ok _) => Some (Ok tt)
  end.

(** ** What a request goes through before execution *)

Definition checkRequest (uni_letter uni_digit : Z -> bool) (l : Limits) (query opname : string)
  : option (result request_error (document * operation)) :=
  match checkDocumentSize l query with
  | Err e => Some (Err e)
  | Ok _ =>
      match parseDocumentLimited uni_letter uni_digit query (MaxTokens l) with
      | None => None
      | Some (Err e) => Some (Err (ErrSyntax e))
      | Some (Ok doc) =>
          match selectOperation doc opname with
          | Err e => Some (Err e)
          | Ok op =>
              match detectFragmentCycles doc with
              | None => None
              | Some (Err e) => Some (Err e)
              | Some (Ok _) =>
                  match validate l doc with
                  | None => None
                  | Some (Err e) => Some (Err e)
                  | Some (Ok _) => Some (Ok (doc, op))
                  end
              end
          end
      end
  end.

(** ** Induction on selections *)

Section SelectionInd.
Context (Pr : selection -> Prop).
Context (HField : forall a n args sel, Forall Pr sel -> Pr (SField a n args sel)).
Context (HInline : forall t sel, Forall Pr sel -> Pr (SInline t sel)).
Context (HSpread : forall n, Pr (SSpread n)).

Fixpoint selection_nested_ind (s : selection) : Pr s :=
  let go := fix go (l : list selection) : Forall Pr l :=
    match l with
    | [] => @List.Forall_nil _ Pr
    | x :: l => @List.Forall_cons _ Pr x l (selection_nested_ind x) (go l)
    end in
  match s with
  | SField a n args sel => HField a n args sel (go sel)
  | SInline t sel => HInline t sel (go sel)
  | SSpread n => HSpread n
  end.
End SelectionInd.

(** ** Cycles *)

(** The spreads of a selection, in the order they are visited. *)
Fixpoint spreads_in (s : selection) : list string :=
  match s with
  | SField _ _ _ sel => flat_map spreads_in sel
  | SInline _ sel => flat_map spreads_in sel
  | SSpread name => if bool_decide (name = EmptyString) then [] else [name]
  end.

Definition spreads (sels : list selection) : list string := flat_map spreads_in sels.

(** Fragment [a] spreads [b]. *)
Definition edge (doc : document) (a b : string) : Prop :=
  exists frag, fragments doc !! a = Some frag /\ b ∈ spreads (fr_selSet frag).

Lemma visit_names_app visit l1 l2 st :
  visit_names visit (l1 ++ l2) st
  = match visit_names visit l1 st with
    | Some (Ok st) => visit_names visit l2 st
    | r => r
    end.
Proof.
  revert st. induction l1 as [|x l1 IH]; intros st; [done |]. simpl.
  destruct (visit x st) as [[st'|e]|]; [apply IH | done | done].
Qed.

Lemma visit_selection_spec visit s st :
  visit_selection visit s st = visit_names visit (spreads_in s) st.
Proof.
  revert st. induction s as [a n args sel IH|t sel IH|n] using selection_nested_ind; intros st.
  - change (visit_selection visit (SField a n args sel) st) with (visitFragmentSpreads visit sel st).
    cbn [spreads_in]. revert st. induction IH as [|s sel Hs _ IH]; intros st; [done |].
    cbn [flat_map visitFragmentSpreads]. rewrite visit_names_app, Hs.
    destruct (visit_names visit (spreads_in s) st) as [[st'|e]|]; [apply IH | done | done].
  - change (visit_selection visit (SInline t sel) st) with (visitFragmentSpreads visit sel st).
    cbn [spreads_in]. revert st. induction IH as [|s sel Hs _ IH]; intros st; [done |].
    cbn [flat_map visitFragmentSpreads]. rewrite visit_names_app, Hs.
    destruct (visit_names visit (spreads_in s) st) as [[st'|e]|]; [apply IH | done | done].
  - simpl. case_bool_decide; [done |]. simpl. by destruct (visit n st) as [[st'|e]|].
Qed.

Lemma visitFragmentSpreads_spec visit sels st :
  visitFragmentSpreads visit sels st = visit_names visit (spreads sels) st.
Proof.
  revert st. induction sels as [|s sels IH]; intros st; [done |].
  cbn [visitFragmentSpreads]. unfold spreads. cbn [flat_map].
  rewrite visit_names_app, visit_selection_spec.
  destruct (visit_names visit (spreads_in s) st) as [[st'|e]|]; [apply IH | done | done].
Qed.

Section Cycles.
Context (doc : document).

(** Finished fragments, the last one first: each only spreads earlier ones. *)
Fixpoint topo (l : list string) : Prop :=
  match l with
  | [] => True
  | x :: l => (x ∉ l) /\ (forall y, edge doc x y -> y ∈ l) /\ topo l
  end.

Record dfs_inv (st : gmap string Z) (done_ : list string) : Prop := {
  dfs_done x : st !! x = Some 2 <-> x ∈ done_;
  dfs_colour x c : st !! x = Some c -> c = 1 \/ c = 2;
  dfs_topo : topo done_;
}.

Definition unvisited (st : gmap string Z) : nat :=
  length (List.filter (fun x => bool_decide (st !! x = None)) (map fst (map_to_list (fragments doc)))).

(** What a call leaves behind. *)
Definition dfs_post (names : list string) (st : gmap string Z) (done_ : list string) (r : visited) : Prop :=
  match r with
  | None => False
  | Some (Err _) => exists x, tc (edge doc) x x
  | Some (Ok st') => exists done', dfs_inv st' done' /\ done_ ⊆ done' /\ names ⊆ done'
      /\ (forall x, st' !! x = Some 1 <-> st !! x = Some 1)
      /\ (forall x, is_Some (st !! x) -> is_Some (st' !! x))
  end.

Lemma unvisited_mono st st' :
  (forall x, is_Some (st !! x) -> is_Some (st' !! x)) -> (unvisited st' <= unvisited st)%nat.
Proof.
  intros Hm. apply count_le. intros x. rewrite !bool_decide_eq_true. intros H'.
  destruct (st !! x) as [c|] eqn:E; [| done]. destruct (Hm x) as [? ?]; [by rewrite E | congruence].
Qed.

Lemma unvisited_step st name c :
  is_Some (fragments doc !! name) -> st !! name = None ->
  (unvisited (<[name := c]> st) < unvisited st)%nat.
Proof.
  intros [f Hf] Hst. apply (count_lt _ _ _ name).
  - intros x. rewrite !bool_decide_eq_true. destruct (decide (x = name)) as [->|Hne]; [done |].
    by rewrite lookup_insert_ne.
  - apply list_elem_of_fmap. exists (name, f). split; [done | by apply elem_of_map_to_list].
  - by rewrite lookup_insert_eq.
  - by apply bool_decide_eq_true.
Qed.

(** A step of the search, for the names on the stack and the names done. *)
Definition visit_ok (n : nat) (names : list string) (vis : gmap string Z -> visited) : Prop :=
  forall st done_, dfs_inv st done_ -> (unvisited st <= n)%nat ->
    (forall y x, y ∈ names -> st !! x = Some 1 -> tc (edge doc) x y) ->
    dfs_post names st done_ (vis st).

Lemma visit_names_ok n vis names :
  (forall name, visit_ok n [name] (vis name)) -> visit_ok n names (visit_names vis names).
Proof.
  intros Hvis. induction names as [|name names IH]; intros st done_ Hinv Hn Hst.
  - exists done_. set_solver.
  - simpl. specialize (Hvis name st done_ Hinv Hn). unfold dfs_post in Hvis.
    destruct (vis name st) as [[st1|e]|].
    + destruct Hvis as (d1 & Hinv1 & Hd1 & Hn1 & Hs1 & Hm1); [intros y x ? ?; apply Hst; set_solver |].
      specialize (IH st1 d1 Hinv1). unfold dfs_post in *.
      destruct (visit_names vis names st1) as [[st2|e]|].
      * destruct IH as (d2 & Hinv2 & Hd2 & Hn2 & Hs2 & Hm2).
        { apply unvisited_mono in Hm1. lia. }
        { intros y x Hy Hx. apply Hst; [set_solver | by apply Hs1]. }
        exists d2. split_and!; [done | set_solver | set_solver | | naive_solver].
        intros x. by rewrite Hs2, Hs1.
      * apply IH; [apply unvisited_mono in Hm1; lia |].
        intros y x Hy Hx. apply Hst; [set_solver | by apply Hs1].
      * apply IH; [apply unvisited_mono in Hm1; lia |].
        intros y x Hy Hx. apply Hst; [set_solver | by apply Hs1].
    + apply Hvis. intros y x ? ?. apply Hst; set_solver.
    + apply Hvis. intros y x ? ?. apply Hst; set_solver.
Qed.

Lemma topo_closed l x y : topo l -> x ∈ l -> tc (edge doc) x y -> y ∈ l.
Proof.
  intros Ht Hx Hxy. induction Hxy as [x y He|x y z He _ IH].
  - induction l as [|a l IHl]; [set_solver |].
    destruct Ht as (_ & Ha & Ht). destruct (decide (x = a)) as [->|]; set_solver.
  - apply IH. clear IH. induction l as [|a l IHl]; [set_solver |].
    destruct Ht as (_ & Ha & Ht). destruct (decide (x = a)) as [->|]; set_solver.
Qed.

Lemma topo_acyclic l x : topo l -> x ∈ l -> ~ tc (edge doc) x x.
Proof.
  induction l as [|a l IH]; intros Ht Hx Hxx; [set_solver |].
  destruct Ht as (Ha & Hout & Ht). destruct (decide (x = a)) as [->|Hne].
  - apply Ha. inversion Hxx as [? He|? y ? He Hya]; subst; [by apply Hout |].
    apply (topo_closed l y); [done | by apply Hout | done].
  - apply IH; [done | set_solver | done].
Qed.

Lemma dfs_inv_mark st done_ name :
  dfs_inv st done_ -> st !! name <> Some 2 -> (forall y, edge doc name y -> y ∈ done_) ->
  dfs_inv (<[name := 2]> st) (name :: done_).
Proof.
  intros [Hd Hc Ht] Hne Hout. assert (Hni : name ∉ done_) by (by rewrite <- Hd).
  split.
  - intros x. destruct (decide (x = name)) as [->|Hx].
    + rewrite lookup_insert_eq. set_solver.
    + rewrite lookup_insert_ne, Hd by done. set_solver.
  - intros x c. destruct (decide (x = name)) as [->|Hx].
    + rewrite lookup_insert_eq. intros [= <-]. by right.
    + rewrite lookup_insert_ne by done. apply Hc.
  - simpl. done.
Qed.

Lemma dfs_inv_enter st done_ name :
  dfs_inv st done_ -> st !! name = None -> dfs_inv (<[name := 1]> st) done_.
Proof.
  intros [Hd Hc Ht] Hn. split; [| | done].
  - intros x. destruct (decide (x = name)) as [->|Hx].
    + rewrite lookup_insert_eq. rewrite <- Hd, Hn. done.
    + by rewrite lookup_insert_ne by done.
  - intros x c. destruct (decide (x = name)) as [->|Hx].
    + rewrite lookup_insert_eq. intros [= <-]. by left.
    + rewrite lookup_insert_ne by done. apply Hc.
Qed.

(** A fragment not seen before: its spreads are searched, then it is done. *)
Lemma visit_enter_ok n name frag st done_ vis :
  (forall names, visit_ok n names (visit_names vis names)) ->
  fragments doc !! name = Some frag -> st !! name = None ->
  dfs_inv st done_ -> (unvisited st <= S n)%nat ->
  (forall x, st !! x = Some 1 -> tc (edge doc) x name) ->
  dfs_post [name] st done_
    (match visitFragmentSpreads vis (fr_selSet frag) (<[name := 1]> st) with
     | Some (Ok st) => Some (Ok (<[name := 2]> st))
     | r => r
     end).
Proof.
  intros Hvis Hf Hn Hinv Hle Hst. rewrite visitFragmentSpreads_spec.
  specialize (Hvis (spreads (fr_selSet frag)) (<[name := 1]> st) done_ (dfs_inv_enter _ _ _ Hinv Hn)).
  assert (Hedge : forall y, y ∈ spreads (fr_selSet frag) -> edge doc name y) by (intros y; by exists frag).
  assert (Hlt : (unvisited (<[name := 1%Z]> st) < unvisited st)%nat)
    by (by apply unvisited_step; [rewrite Hf |]).
  assert (Hst1 : forall y x, y ∈ spreads (fr_selSet frag) -> <[name := 1]> st !! x = Some 1 ->
    tc (edge doc) x y).
  { intros y x Hy. destruct (decide (x = name)) as [->|Hx].
    - intros _. by apply tc_once, Hedge.
    - rewrite lookup_insert_ne by done. intros H1. eapply tc_r; [by apply Hst | by apply Hedge]. }
  specialize (Hvis ltac:(lia) Hst1). unfold dfs_post in *.
  destruct (visit_names vis (spreads (fr_selSet frag)) (<[name := 1]> st)) as [[st'|e]|]; [| done | done].
  destruct Hvis as (d & Hinv' & Hd & Hns & Hs & Hm).
  assert (H1 : st' !! name = Some 1) by (apply Hs; by rewrite lookup_insert_eq).
  exists (name :: d). split_and!; [| set_solver | set_solver | |].
  - apply dfs_inv_mark; [done | by rewrite H1 |]. intros y (frag' & Hf' & Hy). set_solver.
  - intros x. destruct (decide (x = name)) as [->|Hx].
    + rewrite lookup_insert_eq, Hn. done.
    + rewrite lookup_insert_ne, Hs, lookup_insert_ne by done. done.
  - intros x Hx. destruct (decide (x = name)) as [->|Hne].
    + rewrite lookup_insert_eq. by eexists.
    + rewrite lookup_insert_ne by done. apply Hm. by rewrite lookup_insert_ne by done.
Qed.

Lemma visit_is_ok n name : visit_ok n [name] (visit n doc name).
Proof.
  revert name. induction n as [|n IH]; intros name st done_ Hinv Hle Hst.
  all: assert (Hst' : forall x, st !! x = Some 1 -> tc (edge doc) x name) by (intros; eapply Hst; set_solver).
  all: destruct (st !! name) as [c|] eqn:Ec;
    [destruct (dfs_colour _ _ Hinv name c Ec) as [-> | ->] |].
  all: try (simpl; rewrite Ec; simpl; by exists name; apply Hst').
  all: try (simpl; rewrite Ec; simpl; exists done_; split_and!; try done;
    apply (dfs_done _ _ Hinv) in Ec; set_solver).
  all: destruct (fragments doc !! name) as [frag|] eqn:Ef; cbn [visit]; rewrite Ec, Ef; cbn [default].
  2, 4: simpl; exists (name :: done_); split_and!; [apply dfs_inv_mark; [done | by rewrite Ec |];
      intros y (? & ? & ?); congruence | set_solver | set_solver | |];
    intros x; (destruct (decide (x = name)) as [->|Hne];
      [rewrite lookup_insert_eq | rewrite lookup_insert_ne by done]); [| done | eauto | done];
      rewrite Ec; naive_solver.
  - exfalso. assert (unvisited (<[name := 1%Z]> st) < unvisited st)%nat
      by (by apply unvisited_step; [rewrite Ef |]). lia.
  - apply (visit_enter_ok n); try done. intros names. by apply visit_names_ok.
Qed.
End Cycles.

Lemma names_of_fragments doc x : is_Some (fragments doc !! x) -> x ∈ map fst (map_to_list (fragments doc)).
Proof.
  intros [f Hf]. apply list_elem_of_fmap. exists (x, f). split; [done | by apply elem_of_map_to_list].
Qed.

Lemma detect_decides doc :
  match detectFragmentCycles doc with
  | Some (Ok _) => forall x, ~ tc (edge doc) x x
  | Some (Err _) => exists x, tc (edge doc) x x
  | None => False
  end.
Proof.
  unfold detectFragmentCycles. set (names := map fst (map_to_list (fragments doc))).
  set (vis := visit_names (visit (size (fragments doc)) doc) names).
  assert (Hok : dfs_post doc names ∅ [] (vis ∅)).
  { apply (visit_names_ok doc (size (fragments doc))); [intros; apply visit_is_ok | | |].
    - split; [| | done].
      + intros x. rewrite lookup_empty. split; [done | intros Hx; by inversion Hx].
      + intros x c. by rewrite lookup_empty.
    - unfold unvisited. etrans; [apply List.filter_length_le |]. rewrite length_map, length_map_to_list. done.
    - intros y x _. by rewrite lookup_empty. }
  destruct (vis ∅) as [[st|e]|]; [| apply Hok | apply Hok].
  intros x Hx. destruct Hok as (d & Hinv & _ & Hn & _).
  apply (topo_acyclic doc d x); [apply Hinv | | done]. apply Hn, names_of_fragments.
  inversion Hx as [? ? (f & Hf & _)|? ? ? (f & Hf & _)]; subst; by rewrite Hf.
Qed.

(** The search for fragment cycles ends on every document, and accepts it
    exactly when no fragment reaches itself through spreads. *)
Theorem detect_exact doc :
  exists r, detectFragmentCycles doc = Some r /\ (r = Ok tt <-> forall x, ~ tc (edge doc) x x).
Proof.
  pose proof (detect_decides doc) as H. destruct (detectFragmentCycles doc) as [[[]|e]|]; [| | done].
  - by exists (Ok tt).
  - exists (Err e). split; [done |]. split; [done |]. intros Ha. destruct H as [x Hx]. by destruct (Ha x).
Qed.

(** ** Costs *)

(** The specification: [cost doc sels n k], the selection set [sels] with its
    spreads expanded in place has [n] fields and goes [k] levels below its
    own. *)
Inductive scost (doc : document) : selection -> Z -> Z -> Prop :=
| scost_leaf a nm args : scost doc (SField a nm args []) 1 0
| scost_field a nm args s sel n k :
    cost doc (s :: sel) n k -> scost doc (SField a nm args (s :: sel)) (1 + n) (1 + k)
| scost_inline t sel n k : cost doc sel n k -> scost doc (SInline t sel) n k
| scost_unknown name :
    name = EmptyString \/ fragments doc !! name = None -> scost doc (SSpread name) 0 0
| scost_spread name frag n k :
    name <> EmptyString -> fragments doc !! name = Some frag -> cost doc (fr_selSet frag) n k ->
    scost doc (SSpread name) n k
with cost (doc : document) : list selection -> Z -> Z -> Prop :=
| cost_nil : cost doc [] 0 0
| cost_cons s sels n k m j :
    scost doc s n k -> cost doc sels m j -> cost doc (s :: sels) (n + m) (Z.max k j).

(** The operations of a document: the sum of the fields, the deepest level, the
    outermost being level 1. *)
Inductive ops_cost (doc : document) : list operation -> Z -> Z -> Prop :=
| ops_nil : ops_cost doc [] 0 0
| ops_cons op ops n k m j :
    cost doc (op_selSet op) n k -> ops_cost doc ops m j ->
    ops_cost doc (op :: ops) (n + m) (Z.max (1 + k) j).

(** A ceiling that is not positive is no ceiling. *)
Definition under (max x : Z) : bool := (max <=? 0) || (x <=? max).

Lemma under_spec max x : under max x = true <-> (max <= 0 \/ x <= max).
Proof. unfold under. rewrite orb_true_iff, !Z.leb_le. done. Qed.

Lemma under_guard max x : (0 <? max) && (max <? x) = negb (under max x).
Proof. unfold under. destruct (Z.ltb_spec 0 max), (Z.leb_spec max 0), (Z.ltb_spec max x),
  (Z.leb_spec x max); simpl; lia || done. Qed.

(** Expanding the fragments in [path], one inside the other, leads to [names]
    with fuel left for every fragment that is not expanded. *)
Record descends (doc : document) (fuel : nat) (names : list string) (path : gset string) : Prop := {
  desc_size : (size (fragments doc) <= fuel + size path)%nat;
  desc_dom : path ⊆ dom (fragments doc);
  desc_path x y : x ∈ path -> y ∈ names -> tc (edge doc) x y;
}.

Lemma descends_start doc names : descends doc (size (fragments doc)) names ∅.
Proof. split; [lia | apply empty_subseteq | set_solver]. Qed.

Lemma descends_incl doc fuel l l' path : l' ⊆ l -> descends doc fuel l path -> descends doc fuel l' path.
Proof. intros Hl [H2 H3 H4]. split; try done. intros x y Hx Hy. apply H4; [done | by apply Hl]. Qed.

Lemma descends_fresh doc fuel name path :
  (forall x, ~ tc (edge doc) x x) -> descends doc fuel [name] path -> name ∉ path.
Proof. intros Ha Hd Hin. apply (Ha name), (desc_path _ _ _ _ Hd); [done | by left]. Qed.

(** Entering a fragment costs one unit of fuel, which is there. *)
Lemma descends_enter doc fuel name frag path :
  (forall x, ~ tc (edge doc) x x) -> fragments doc !! name = Some frag -> descends doc fuel [name] path ->
  exists fuel', fuel = S fuel' /\ descends doc fuel' (spreads (fr_selSet frag)) ({[name]} ∪ path).
Proof.
  intros Ha Ef Hd. pose proof (descends_fresh _ _ _ _ Ha Hd) as Hni. destruct Hd as [Hsize Hdom Hpath].
  assert (Hsz : (size ({[name]} ∪ path) = S (size path))%nat)
    by (rewrite size_union, size_singleton; [done | set_solver]).
  assert (Hsub : {[name]} ∪ path ⊆ dom (fragments doc))
    by (apply union_subseteq; split; [apply singleton_subseteq_l, elem_of_dom; by rewrite Ef | done]).
  destruct fuel as [|fuel]; [apply subseteq_size in Hsub; rewrite size_dom, Hsz in Hsub; lia |].
  exists fuel. split; [done |]. split; [lia | done |].
  intros x y Hx Hy. assert (Hxy : edge doc name y) by by exists frag.
  apply elem_of_union in Hx as [->%elem_of_singleton|Hx]; [by apply tc_once |].
  eapply tc_r; [apply Hpath; [done | by left] | done].
Qed.

Section Costs.
Context (doc : document) (maxDepth maxNodes : Z).

(** The walk reports an error exactly when a ceiling is crossed. *)
Definition outcome (depth : Z) (v : walker) (n k : Z) (r : walked) : Prop :=
  match r with
  | None => False
  | Some (Ok v') => under maxNodes (nodes v + n) = true /\ under maxDepth (depth + k) = true
      /\ nodes v' = nodes v + n /\ expanding v' = expanding v
  | Some (Err _) => under maxNodes (nodes v + n) = false \/ under maxDepth (depth + k) = false
  end.

(** The state of the walk at a selection set: the ceilings hold so far, and
    every fragment being expanded leads to the ones spread in the set. *)
Definition ready (fuel : nat) (names : list string) (v : walker) : Prop :=
  under maxNodes (nodes v) = true /\ descends doc fuel names (expanding v).

Definition spread_ok (fuel : nat) (spread : string -> Z -> walker -> walked) : Prop :=
  forall name depth v, name <> EmptyString -> ready fuel [name] v -> under maxDepth depth = true ->
    exists n k, scost doc (SSpread name) n k /\ 0 <= n /\ 0 <= k /\ outcome depth v n k (spread name depth v).

Definition selection_ok (fuel : nat) (spread : string -> Z -> walker -> walked) (s : selection) : Prop :=
  forall depth v, ready fuel (spreads_in s) v -> under maxDepth depth = true ->
    exists n k, scost doc s n k /\ 0 <= n /\ 0 <= k
      /\ outcome depth v n k (walk_selection maxDepth maxNodes spread s depth v).

Definition set_ok (fuel : nat) (spread : string -> Z -> walker -> walked) (sels : list selection) : Prop :=
  forall depth v, ready fuel (spreads sels) v ->
    exists n k, cost doc sels n k /\ 0 <= n /\ 0 <= k
      /\ outcome depth v n k (walk_set maxDepth maxNodes spread sels depth v).

Lemma ready_incl fuel l l' v : l' ⊆ l -> ready fuel l v -> ready fuel l' v.
Proof. intros Hl [H1 H2]. split; [done |]. by apply (descends_incl _ _ l). Qed.

Lemma under_le max x y : x <= y -> under max y = true -> under max x = true.
Proof. rewrite !under_spec. lia. Qed.

Lemma loop_ok fuel spread sels depth v :
  Forall (selection_ok fuel spread) sels -> ready fuel (spreads sels) v -> under maxDepth depth = true ->
  exists n k, cost doc sels n k /\ 0 <= n /\ 0 <= k
    /\ outcome depth v n k (walk_loop maxDepth maxNodes spread sels depth v).
Proof.
  intros Hs. revert v. induction Hs as [|s sels Hs _ IH]; intros v Hv Hd.
  - exists 0, 0. split_and!; [constructor | done | done |]. simpl. rewrite !Z.add_0_r. by destruct Hv.
  - assert (Hin : spreads_in s ⊆ spreads (s :: sels) /\ spreads sels ⊆ spreads (s :: sels))
      by (unfold spreads; simpl; set_solver).
    destruct Hin as [Hin1 Hin2].
    destruct (Hs depth v (ready_incl _ _ _ _ Hin1 Hv) Hd) as (n & k & Hc & Hn & Hk & Ho).
    cbn [walk_loop]. unfold outcome in Ho.
    destruct (walk_selection maxDepth maxNodes spread s depth v) as [[v'|e]|]; [| | done].
    + destruct Ho as (Hu1 & Hu2 & Hnv & Hev).
      assert (Hv' : ready fuel (spreads sels) v').
      { apply (ready_incl fuel (spreads (s :: sels))); [done |].
        destruct Hv as [H1 H2]. split; [by rewrite Hnv | by rewrite Hev]. }
      destruct (IH v' Hv' Hd) as (m & j & Hcm & Hm & Hj & Ho').
      exists (n + m), (Z.max k j). split_and!; [by constructor | lia | lia |].
      unfold outcome in *. destruct (walk_loop maxDepth maxNodes spread sels depth v') as [[w|e]|]; [| | done].
      * destruct Ho' as (Hw1 & Hw2 & Hw3 & Hw4). split_and!; [| | lia | congruence].
        -- by replace (nodes v + (n + m)) with (nodes v' + m) by lia.
        -- apply under_spec in Hu2, Hw2. apply under_spec. lia.
      * destruct Ho' as [Hw|Hw]; [left | right]; apply not_true_is_false; intros Hu;
          apply not_true_iff_false in Hw; apply Hw; revert Hu; apply under_le; lia.
    + assert (Hv' : exists m j, cost doc sels m j /\ 0 <= m /\ 0 <= j).
      { destruct (IH v (ready_incl _ _ _ _ Hin2 Hv) Hd) as (m & j & ? & ? & ? & _). by exists m, j. }
      destruct Hv' as (m & j & Hcm & Hm & Hj).
      exists (n + m), (Z.max k j). split_and!; [by constructor | lia | lia |].
      destruct Ho as [Hw|Hw]; [left | right]; apply not_true_is_false; intros Hu;
        apply not_true_iff_false in Hw; apply Hw; revert Hu; apply under_le; lia.
Qed.

Lemma over_set_ok spread sels depth v n k :
  0 <= k -> under maxDepth depth = false ->
  outcome depth v n k (walk_set maxDepth maxNodes spread sels depth v).
Proof.
  intros Hk Hd. unfold walk_set. rewrite under_guard, Hd. simpl. right.
  apply not_true_is_false. intros Hu. apply not_true_iff_false in Hd. apply Hd.
  revert Hu. apply under_le. lia.
Qed.

Lemma set_is_ok fuel spread sels :
  Forall (selection_ok fuel spread) sels -> set_ok fuel spread sels.
Proof.
  intros Hs depth v Hv. destruct (under maxDepth depth) eqn:Hd.
  - unfold walk_set. rewrite under_guard, Hd. simpl. by apply (loop_ok fuel).
  - destruct (loop_ok fuel spread sels maxDepth v Hs Hv) as (n & k & Hc & Hn & Hk & _);
      [apply under_spec; lia |].
    exists n, k. split_and!; [done | done | done |]. by apply over_set_ok.
Qed.

Lemma selection_is_ok fuel spread s :
  spread_ok fuel spread -> selection_ok fuel spread s.
Proof.
  intros Hsp. induction s as [a nm args sel IH|t sel IH|name] using selection_nested_ind;
    intros depth v Hv Hd.
  - set (v1 := mkWalker (nodes v + 1) (expanding v) (expanded v)).
    change (walk_selection maxDepth maxNodes spread (SField a nm args sel) depth v)
      with (if (0 <? maxNodes) && (maxNodes <? nodes v1) then Some (Err (ErrMaxNodes maxNodes))
            else match sel with
                 | [] => Some (Ok v1)
                 | _ => walk_set maxDepth maxNodes spread sel (depth + 1) v1
                 end).
    rewrite under_guard. destruct sel as [|s0 sel0].
    + exists 1, 0. split_and!; [constructor | done | done |].
      destruct (under maxNodes (nodes v1)) eqn:Hu; simpl; [| by left].
      rewrite Z.add_0_r. done.
    + assert (Hs : set_ok fuel spread (s0 :: sel0)) by by apply set_is_ok.
      destruct (under maxNodes (nodes v1)) eqn:Hu.
      * assert (Hv1 : ready fuel (spreads (s0 :: sel0)) v1) by (destruct Hv; by split).
        destruct (Hs (depth + 1) v1 Hv1) as (n & k & Hc & Hn & Hk & Ho).
        exists (1 + n), (1 + k). split_and!; [by constructor | lia | lia |]. cbn [negb].
        unfold outcome in *. destruct (walk_set _ _ _ _ _ _) as [[w|e]|]; [| | done].
        -- destruct Ho as (H1 & H2 & H3 & H4). subst v1. cbn [nodes expanding] in *.
           split_and!; [by replace (nodes v + (1 + n)) with (nodes v + 1 + n) by lia
             | by replace (depth + (1 + k)) with (depth + 1 + k) by lia | lia | done].
        -- subst v1. cbn [nodes expanding] in *.
           replace (nodes v + (1 + n)) with (nodes v + 1 + n) by lia.
           by replace (depth + (1 + k)) with (depth + 1 + k) by lia.
      * assert (Hv0 : ready fuel (spreads (s0 :: sel0)) v) by done.
        destruct (Hs (depth + 1) v Hv0) as (n & k & Hc & Hn & Hk & _).
        exists (1 + n), (1 + k). split_and!; [by constructor | lia | lia |]. simpl. left.
        apply not_true_is_false. intros Ht. apply not_true_iff_false in Hu. apply Hu.
        revert Ht. apply under_le. subst v1. simpl. lia.
  - change (walk_selection maxDepth maxNodes spread (SInline t sel) depth v)
      with (walk_set maxDepth maxNodes spread sel depth v).
    destruct (set_is_ok fuel spread sel IH depth v Hv) as (n & k & Hc & Hn & Hk & Ho).
    exists n, k. split_and!; [by constructor | done | done | done].
  - simpl in *. case_bool_decide as Hne.
    + exists 0, 0. split_and!; [constructor; by left | done | done |]. simpl. rewrite !Z.add_0_r.
      by destruct Hv.
    + by apply Hsp.
Qed.

Lemma spread_is_ok fuel :
  (forall x, ~ tc (edge doc) x x) -> spread_ok fuel (spread_at maxDepth maxNodes fuel doc).
Proof.
  intros Ha. induction fuel as [|fuel IH]; intros name depth v Hne Hv Hd;
    destruct (fragments doc !! name) as [frag|] eqn:Ef; cbn [spread_at]; rewrite Ef;
    try (exists 0, 0; split_and!; [constructor; by right | done | done |];
         simpl; rewrite !Z.add_0_r; by destruct Hv);
    destruct (descends_enter doc _ name frag _ Ha Ef (proj2 Hv)) as (fuel' & Hf & Hin);
    pose proof (descends_fresh doc _ _ _ Ha (proj2 Hv)) as Hni; [done |].
  - injection Hf as <-. rewrite bool_decide_false by done.
    set (v1 := mkWalker (nodes v) ({[name]} ∪ expanding v) (S (expanded v))).
    assert (Hv1 : ready fuel (spreads (fr_selSet frag)) v1) by (split; [apply Hv | done]).
    assert (Hset : set_ok fuel (spread_at maxDepth maxNodes fuel doc) (fr_selSet frag)).
    { apply set_is_ok, Forall_true. intros s. by apply selection_is_ok. }
    destruct (Hset depth v1 Hv1) as (n & k & Hc & Hn & Hk & Ho).
    exists n, k. split_and!; [by apply (scost_spread doc name frag) | done | done |].
    unfold outcome in *. destruct (walk_set _ _ _ _ _ _) as [[w|e]|]; [| done | done].
    destruct Ho as (H1 & H2 & H3 & H4). split_and!; [done | done | done |].
    cbn [expanding]. rewrite H4. subst v1. cbn [expanding]. set_solver.
Qed.

Lemma walk_ops_ok ops v :
  (forall x, ~ tc (edge doc) x x) ->
  under maxNodes (nodes v) = true -> expanding v = ∅ ->
  exists n k, ops_cost doc ops n k /\ 0 <= n /\ 0 <= k
    /\ match walk_operations maxDepth maxNodes doc ops v with
       | None => False
       | Some (Ok _) => under maxNodes (nodes v + n) = true /\ under maxDepth k = true
       | Some (Err _) => under maxNodes (nodes v + n) = false \/ under maxDepth k = false
       end.
Proof.
  intros Ha. revert v. induction ops as [|op ops IH]; intros v Hu He.
  - exists 0, 0. split_and!; [constructor | done | done |]. simpl. rewrite Z.add_0_r.
    split; [done |]. apply under_spec. lia.
  - assert (Hset : set_ok (size (fragments doc)) (spread_at maxDepth maxNodes (size (fragments doc)) doc)
      (op_selSet op)).
    { apply set_is_ok, Forall_true. intros s. by apply selection_is_ok, spread_is_ok. }
    assert (Hready : ready (size (fragments doc)) (spreads (op_selSet op)) v).
    { split; [done |]. rewrite He. apply descends_start. }
    destruct (Hset 1 v Hready) as (n & k & Hc & Hn & Hk & Ho).
    cbn [walk_operations]. unfold walk. unfold outcome in Ho.
    destruct (walk_set _ _ _ _ _ _) as [[w|e]|]; [| | done].
    + destruct Ho as (H1 & H2 & H3 & H4).
      destruct (IH w) as (m & j & Hcm & Hm & Hj & Hr); [by rewrite H3 | congruence |].
      exists (n + m), (Z.max (1 + k) j). split_and!; [by constructor | lia | lia |].
      rewrite H3 in Hr. replace (nodes v + (n + m)) with (nodes v + n + m) by lia.
      destruct (walk_operations _ _ _ _ _) as [[w'|e]|]; [| | done].
      * destruct Hr as [Hr1 Hr2]. split; [done |]. apply under_spec in H2, Hr2. apply under_spec. lia.
      * destruct Hr as [Hr|Hr]; [by left | right]. apply not_true_is_false; intros Ht;
          apply not_true_iff_false in Hr; apply Hr; revert Ht; apply under_le; lia.
    + destruct (IH v Hu He) as (m & j & Hcm & Hm & Hj & _).
      exists (n + m), (Z.max (1 + k) j). split_and!; [by constructor | lia | lia |].
      destruct Ho as [Hr|Hr]; [left | right]; apply not_true_is_false; intros Ht;
        apply not_true_iff_false in Hr; apply Hr; revert Ht; apply under_le; lia.
Qed.
End Costs.

(** ** Aliases and introspection, on the fields as they are written *)

(** The fields of a selection, spreads not expanded: alias and name. *)
Fixpoint fields_in (s : selection) : list (string * string) :=
  match s with
  | SField alias name _ sel => (alias, name) :: flat_map fields_in sel
  | SInline _ sel => flat_map fields_in sel
  | SSpread _ => []
  end.

Definition written_fields (doc : document) : list (string * string) :=
  flat_map (flat_map fields_in) (all_sets doc).

Definition aliased (fields : list (string * string)) : Z :=
  Z.of_nat (length (List.filter (fun f => negb (bool_decide (f.1 = EmptyString))) fields)).

(** The scan of one field. *)
Definition scan_field (l : Limits) (f : string * string) (aliases : Z) : result request_error Z :=
  if DisableIntrospection l && isIntrospectionField f.2 then Err (ErrIntrospection f.2)
  else if (0 <? MaxAliases l) && negb (bool_decide (f.1 = EmptyString))
  then if MaxAliases l <? aliases + 1 then Err (ErrMaxAliases (MaxAliases l)) else Ok (aliases + 1)
  else Ok aliases.

Fixpoint scan_fields (l : Limits) (fields : list (string * string)) (aliases : Z)
  : result request_error Z :=
  match fields with
  | [] => Ok aliases
  | f :: fields =>
      match scan_field l f aliases with
      | Err e => Err e
      | Ok aliases => scan_fields l fields aliases
      end
  end.

Lemma scan_fields_app l f1 f2 a :
  scan_fields l (f1 ++ f2) a
  = match scan_fields l f1 a with Err e => Err e | Ok a => scan_fields l f2 a end.
Proof.
  revert a. induction f1 as [|f f1 IH]; intros a; [done |]. simpl.
  by destruct (scan_field l f a).
Qed.

Lemma scan_of l sels a :
  Forall (fun s => forall a, scan_selection l s a = scan_fields l (fields_in s) a) sels ->
  scan l sels a = scan_fields l (flat_map fields_in sels) a.
Proof.
  intros Hs. revert a. induction Hs as [|s sels Hs _ IH]; intros a; [done |]. simpl.
  rewrite scan_fields_app, Hs. by destruct (scan_fields l (fields_in s) a).
Qed.

Lemma scan_selection_spec l s a : scan_selection l s a = scan_fields l (fields_in s) a.
Proof.
  revert a. induction s as [al nm args sel IH|t sel IH|n] using selection_nested_ind; intros a; [| | done].
  - change (scan_selection l (SField al nm args sel) a)
      with (if DisableIntrospection l && isIntrospectionField nm then Err (ErrIntrospection nm)
            else if (0 <? MaxAliases l) && negb (bool_decide (al = EmptyString))
            then if MaxAliases l <? a + 1 then Err (ErrMaxAliases (MaxAliases l)) else scan l sel (a + 1)
            else scan l sel a).
    rewrite !scan_of by done. simpl. unfold scan_field. cbn [fst snd].
    repeat case_match; congruence.
  - exact (scan_of l sel a IH).
Qed.

Lemma scan_sets_spec l sets a : scan_sets l sets a = scan_fields l (flat_map (flat_map fields_in) sets) a.
Proof.
  revert a. induction sets as [|sels sets IH]; intros a; [done |]. simpl.
  rewrite scan_fields_app, scan_of by (apply Forall_true; intros; apply scan_selection_spec).
  by destruct (scan_fields l (flat_map fields_in sels) a).
Qed.

(** What the scan accepts. *)
Definition fields_allowed (l : Limits) (fields : list (string * string)) : Prop :=
  (DisableIntrospection l = true -> Forall (fun f => isIntrospectionField f.2 = false) fields)
  /\ (MaxAliases l <= 0 \/ aliased fields <= MaxAliases l).

Lemma scan_fields_exact l fields a :
  (MaxAliases l <= 0 \/ a <= MaxAliases l) ->
  (exists b, scan_fields l fields a = Ok b)
  <-> (DisableIntrospection l = true -> Forall (fun f => isIntrospectionField f.2 = false) fields)
      /\ (MaxAliases l <= 0 \/ a + aliased fields <= MaxAliases l).
Proof.
  revert a. induction fields as [|[al nm] fields IH]; intros a Ha.
  - unfold aliased. simpl. rewrite Z.add_0_r. split; [by intros _ | by intros _; exists a].
  - assert (Hcons : aliased ((al, nm) :: fields)
      = (if bool_decide (al = EmptyString) then 0 else 1) + aliased fields)
      by (unfold aliased; simpl; destruct (bool_decide (al = EmptyString)); simpl; lia).
    assert (Hnn : 0 <= aliased fields) by (unfold aliased; lia).
    rewrite list.Forall_cons, Hcons. cbn [scan_fields]. unfold scan_field. cbn [fst snd].
    destruct (DisableIntrospection l) eqn:Ed, (isIntrospectionField nm) eqn:Ei; cbn [andb].
    1: (split; [by intros [? ?] | intros [H _]; by destruct (H eq_refl)]).
    all: destruct (Z.ltb_spec 0 (MaxAliases l)); cbn [andb];
      [destruct (bool_decide (al = EmptyString)); cbn [negb];
        [| destruct (Z.ltb_spec (MaxAliases l) (a + 1));
           [split; [by intros [? ?] | lia] |]] |];
      (rewrite IH by lia; split; intros [H1 H2]; (split; [naive_solver |]); lia).
Qed.

Lemma checkAliases_exact l doc :
  checkAliasesAndIntrospection l doc = Ok tt <-> fields_allowed l (written_fields doc).
Proof.
  unfold checkAliasesAndIntrospection, fields_allowed. rewrite scan_sets_spec.
  change (flat_map _ (all_sets doc)) with (written_fields doc).
  pose proof (scan_fields_exact l (written_fields doc) 0) as H.
  rewrite Z.add_0_l in H. rewrite <- H by lia.
  destruct (scan_fields l (written_fields doc) 0) as [b|e]; [by split; eauto |].
  by split; [| intros [? ?]].
Qed.

Lemma validate_decides l doc :
  detectFragmentCycles doc = Some (Ok tt) ->
  exists n k r, ops_cost doc (operations doc) n k /\ validate l doc = Some r
    /\ (r = Ok tt <->
         fields_allowed l (written_fields doc)
         /\ (MaxSelectionNodes l <= 0 \/ n <= MaxSelectionNodes l)
         /\ (MaxDepth l <= 0 \/ k <= MaxDepth l)).
Proof.
  intros Hacyclic. pose proof (detect_decides doc) as Ha. rewrite Hacyclic in Ha.
  destruct (walk_ops_ok doc (MaxDepth l) (MaxSelectionNodes l) (operations doc) new_walker Ha)
    as (n & k & Hc & Hn & Hk & Hw); [| done |].
  { apply under_spec. simpl. lia. }
  exists n, k. unfold validate.
  assert (Hchk : fields_allowed l (written_fields doc)
    <-> (if (0 <? MaxAliases l) || DisableIntrospection l
         then checkAliasesAndIntrospection l doc else Ok tt) = Ok tt).
  { destruct ((0 <? MaxAliases l) || DisableIntrospection l) eqn:Eon; [by rewrite checkAliases_exact |].
    apply orb_false_iff in Eon as [E1%Z.ltb_ge E2]. split; [done | intros _].
    split; [by rewrite E2 | by left]. }
  setoid_rewrite Hchk. clear Hchk.
  destruct (if (0 <? MaxAliases l) || DisableIntrospection l then _ else _) as [[]|e];
    [| exists (Err e); split; [done |]; split; [done |]; split; [done | by intros [? _]]].
  cbn [nodes new_walker] in Hw. rewrite Z.add_0_l in Hw.
  destruct ((MaxDepth l <=? 0) && (MaxSelectionNodes l <=? 0)) eqn:Hoff.
  - exists (Ok tt). apply andb_true_iff in Hoff as [H1%Z.leb_le H2%Z.leb_le].
    split; [done |]. split; [done |]. split; [intros _; split_and!; [done | by left | by left] | done].
  - destruct (walk_operations _ _ _ _ _) as [[w|e]|]; [| | done].
    + exists (Ok tt). rewrite !under_spec in Hw. naive_solver.
    + exists (Err e). split; [done |]. split; [done |]. split; [done |]. intros (_ & Hn' & Hd').
      apply under_spec in Hn', Hd'. destruct Hw; congruence.
Qed.

(** C15: on a document without fragment cycles the limits are enforced exactly.
    The checks end, and accept if and only if no field written anywhere is an
    introspection field when introspection is disabled, the aliases written stay
    within [MaxAliases], the fields counted with every spread expanded stay
    within [MaxSelectionNodes] over all operations, and the deepest level
    within [MaxDepth]; a limit that is not positive rejects nothing. *)
Theorem validate_exact l doc (Hacyclic : detectFragmentCycles doc = Some (Ok tt)) :
  exists n k r, ops_cost doc (operations doc) n k /\ validate l doc = Some r
    /\ (r = Ok tt <->
         fields_allowed l (written_fields doc)
         /\ (MaxSelectionNodes l <= 0 \/ n <= MaxSelectionNodes l)
         /\ (MaxDepth l <= 0 \/ k <= MaxDepth l)).
Proof. exact (validate_decides l doc Hacyclic). Qed.

(** ** The work of the walk *)

(** Fragments [f], [ff], ... each spreading the next one twice; the last one
    spreads an unknown one.  No field is selected anywhere. *)
Fixpoint bomb_name (i : nat) : string :=
  match i with O => "f" | S i => String "f" (bomb_name i) end.

Definition bomb_fragment (i : nat) : fragmentDef :=
  mkFrag (bomb_name i) "T" [SSpread (bomb_name (S i)); SSpread (bomb_name (S i))].

Definition bomb (k : nat) : document :=
  mkDoc [mkOp opQuery "" [] [SSpread (bomb_name 0)]]
    (list_to_map (map (fun i => (bomb_name i, bomb_fragment i)) (seq 0 k))).

Lemma bomb_name_length i : String.length (bomb_name i) = S i.
Proof. induction i as [|i IH]; simpl; congruence. Qed.

Lemma bomb_name_inj i j : bomb_name i = bomb_name j -> i = j.
Proof. intros H. apply (f_equal String.length) in H. rewrite !bomb_name_length in H. lia. Qed.

Lemma bomb_lookup k name frag :
  fragments (bomb k) !! name = Some frag
  <-> exists i, (i < k)%nat /\ name = bomb_name i /\ frag = bomb_fragment i.
Proof.
  unfold bomb. cbn [fragments]. rewrite <- elem_of_list_to_map.
  - rewrite list_elem_of_fmap. setoid_rewrite elem_of_seq. split.
    + intros (i & [= -> ->] & Hi). exists i. split; [lia | done].
    + intros (i & Hi & -> & ->). exists i. split; [done | lia].
  - rewrite <- list_fmap_compose. apply NoDup_fmap_2; [| apply NoDup_seq].
    intros i j. apply bomb_name_inj.
Qed.

Lemma bomb_size k : size (fragments (bomb k)) = k.
Proof.
  unfold bomb. cbn [fragments]. rewrite map_size_list_to_map.
  - by rewrite length_map, length_seq.
  - rewrite <- list_fmap_compose. apply NoDup_fmap_2; [| apply NoDup_seq].
    intros i j. apply bomb_name_inj.
Qed.

Lemma bomb_unknown k : fragments (bomb k) !! bomb_name k = None.
Proof.
  destruct (fragments (bomb k) !! bomb_name k) as [f|] eqn:E; [| done].
  apply bomb_lookup in E as (i & Hi & He%bomb_name_inj & _). lia.
Qed.

Lemma bomb_acyclic k : detectFragmentCycles (bomb k) = Some (Ok tt).
Proof.
  assert (Hlen : forall x y, tc (edge (bomb k)) x y -> (String.length x < String.length y)%nat).
  { assert (He : forall x y, edge (bomb k) x y -> (String.length x < String.length y)%nat).
    { intros x y (f & (i & Hi & -> & ->)%bomb_lookup & Hy). unfold spreads, bomb_fragment in Hy.
      simpl in Hy. rewrite bomb_name_length.
      assert (y = bomb_name (S i)) as -> by set_solver. rewrite bomb_name_length. lia. }
    intros x y Hxy. induction Hxy as [x y H|x y z H _ IH]; [by apply He |]. specialize (He x y H). lia. }
  pose proof (detect_decides (bomb k)) as H. destruct (detectFragmentCycles (bomb k)) as [[[]|e]|]; [done | | done].
  destruct H as [x Hx%Hlen]. lia.
Qed.

Lemma bomb_spread maxDepth maxNodes k i fuel depth v :
  under maxDepth depth = true -> (i <= k)%nat -> (k <= fuel + i)%nat ->
  (forall j, (i <= j)%nat -> bomb_name j ∉ expanding v) ->
  spread_at maxDepth maxNodes fuel (bomb k) (bomb_name i) depth v
  = Some (Ok (mkWalker (nodes v) (expanding v) (expanded v + (2 ^ (k - i) - 1)))).
Proof.
  intros Hd. revert i v. induction fuel as [|fuel IH]; intros i v Hik Hk Hni;
    (destruct (decide (i = k)) as [->|Hne];
     [simpl; rewrite bomb_unknown, Nat.sub_diag; simpl; rewrite Nat.add_0_r; by destruct v |]); [lia |].
  assert (Hf : fragments (bomb k) !! bomb_name i = Some (bomb_fragment i))
    by (apply bomb_lookup; exists i; split; [lia | done]).
  cbn [spread_at]. rewrite Hf, bool_decide_false by (by apply Hni). cbn [fr_selSet bomb_fragment].
  set (v1 := mkWalker (nodes v) ({[bomb_name i]} ∪ expanding v) (S (expanded v))).
  assert (Hni1 : forall j, (S i <= j)%nat -> bomb_name j ∉ {[bomb_name i]} ∪ expanding v).
  { intros j Hj. apply not_elem_of_union. split; [| apply Hni; lia].
    intros He%elem_of_singleton%bomb_name_inj. lia. }
  unfold walk_set. rewrite under_guard, Hd. cbn [negb walk_loop walk_selection].
  rewrite bool_decide_false by done.
  rewrite (IH (S i) v1) by (try lia; done). cbn [nodes expanding expanded].
  rewrite (IH (S i)) by (try lia; done). cbn [nodes expanding expanded].
  do 3 f_equal; [set_solver |].
  replace (k - i)%nat with (S (k - S i)) by lia. rewrite Nat.pow_succ_r'.
  pose proof (Nat.pow_nonzero 2 (k - S i)). subst v1. cbn [expanded]. lia.
Qed.

(** The node budget does not bound the work of the cost walk.  The document
    of [k] fragments in which each one spreads the next twice has no cycle and no
    field; under the default limits the walk accepts it, with a node count of
    zero, after following 2^k - 1 spreads. *)
Theorem expansion_unbounded k :
  detectFragmentCycles (bomb k) = Some (Ok tt)
  /\ size (fragments (bomb k)) = k
  /\ validate DefaultLimits (bomb k) = Some (Ok tt)
  /\ walk_operations (MaxDepth DefaultLimits) (MaxSelectionNodes DefaultLimits) (bomb k)
       (operations (bomb k)) new_walker
     = Some (Ok (mkWalker 0 ∅ (2 ^ k - 1))).
Proof.
  assert (Hw : walk_operations (MaxDepth DefaultLimits) (MaxSelectionNodes DefaultLimits) (bomb k)
    (operations (bomb k)) new_walker = Some (Ok (mkWalker 0 ∅ (2 ^ k - 1)))).
  { cbn [operations bomb walk_operations]. unfold walk. rewrite bomb_size.
    cbn [op_selSet]. unfold walk_set. cbn [MaxDepth DefaultLimits andb Z.ltb Z.compare Pos.compare Pos.compare_cont].
    cbn [walk_loop walk_selection].
    rewrite bool_decide_false by done.
    rewrite (bomb_spread 50 _ k 0) by (try lia; done).
    cbn [nodes expanding expanded new_walker]. by rewrite Nat.sub_0_r. }
  split_and!; [apply bomb_acyclic | apply bomb_size | | exact Hw].
  unfold validate. rewrite Hw.
  assert (Hs : checkAliasesAndIntrospection DefaultLimits (bomb k) = Ok tt); [| by rewrite Hs].
  unfold checkAliasesAndIntrospection.
  assert (Hall : forall sets a, Forall (Forall (fun s => exists n, s = SSpread n)) sets ->
    scan_sets DefaultLimits sets a = Ok a).
  { intros sets. induction sets as [|sels sets IHs]; intros a Ha; [done |].
    apply Forall_cons_1 in Ha as [Hsel Ha]. simpl.
    assert (Hsc : scan DefaultLimits sels a = Ok a); [| rewrite Hsc; by apply IHs].
    clear - Hsel. induction Hsel as [|s sels [n ->] _ IH]; [done | exact IH]. }
  rewrite Hall; [done |]. unfold all_sets. apply list.Forall_app. split.
  - repeat constructor. by eexists.
  - apply list.Forall_forall. intros sels ((name, f) & -> & Hin)%list_elem_of_fmap.
    apply elem_of_map_to_list, bomb_lookup in Hin as (i & _ & -> & ->).
    repeat constructor; by eexists.
Qed.

(** ** The checks together *)

Lemma selectOperation_spec doc name op :
  selectOperation doc name = Ok op ->
  op ∈ operations doc
  /\ (if decide (name = EmptyString) then operations doc = [op] else op_name op = name).
Proof.
  unfold selectOperation. destruct (operations doc) as [|op1 ops] eqn:Eo; [done |].
  destruct (decide (name = EmptyString)) as [->|Hne].
  - rewrite bool_decide_true by done. destruct ops; [intros [= ->]; split; [by left | done] | done].
  - rewrite bool_decide_false by done.
    destruct (List.find _ (op1 :: ops)) as [op'|] eqn:Ef; [| done]. intros [= ->].
    apply List.find_some in Ef as [Hin Hn]. apply bool_decide_eq_true in Hn.
    split; [by apply list_elem_of_In | done].
Qed.

Lemma checkRequest_spec uni_letter uni_digit l query opname :
  exists r, checkRequest uni_letter uni_digit l query opname = Some r
    /\ forall doc op, r = Ok (doc, op) ->
       (MaxDocumentBytes l <= 0 \/ Z.of_nat (String.length query) <= MaxDocumentBytes l)
       /\ parseDocumentLimited uni_letter uni_digit query (MaxTokens l) = Some (Ok doc)
       /\ op ∈ operations doc
       /\ (if decide (opname = EmptyString) then operations doc = [op] else op_name op = opname)
       /\ (forall x, ~ tc (edge doc) x x)
       /\ fields_allowed l (written_fields doc)
       /\ exists n k, ops_cost doc (operations doc) n k
          /\ (MaxSelectionNodes l <= 0 \/ n <= MaxSelectionNodes l)
          /\ (MaxDepth l <= 0 \/ k <= MaxDepth l).
Proof.
  unfold checkRequest, checkDocumentSize. rewrite under_guard.
  destruct (under (MaxDocumentBytes l) _) eqn:Hsize; cbn [negb]; [| by eexists; split].
  apply under_spec in Hsize.
  pose proof (parse_counted_wp uni_letter uni_digit query (MaxTokens l)) as Hp. unfold wp in Hp.
  destruct (parseDocumentLimited uni_letter uni_digit query (MaxTokens l)) as [[doc|e]|] eqn:Epar;
    [| by eexists; split |].
  2:{ unfold parseDocumentLimited in Epar. by destruct (parse_counted _ _ _ _) as [[[??]|?]|]. }
  destruct (selectOperation doc opname) as [op|e] eqn:Esel; [| by eexists; split].
  apply selectOperation_spec in Esel as [Hin Hname].
  pose proof (detect_decides doc) as Hc. pose proof (validate_decides l doc) as Hv.
  destruct (detectFragmentCycles doc) as [[[]|e]|]; [| by eexists; split | done].
  destruct (Hv eq_refl) as (n & k & r & Hcost & Hr & Hok). rewrite Hr.
  destruct r as [[]|e]; [| by eexists; split].
  exists (Ok (doc, op)). split; [done |]. intros d o [= <- <-].
  destruct (proj1 Hok eq_refl) as (Hf & Hnodes & Hdepth).
  split_and!; try done. by exists n, k.
Qed.

(** Every request is either rejected with an error or reaches the executor;
    one that reaches it has a query within the size limit, a document the parser
    returned for it under the token limit, the operation it names (or its only
    one), no fragment that reaches itself, and costs within every limit. *)
Theorem checkRequest_guards uni_letter uni_digit l query opname :
  exists r, checkRequest uni_letter uni_digit l query opname = Some r
    /\ forall doc op, r = Ok (doc, op) ->
       (MaxDocumentBytes l <= 0 \/ Z.of_nat (String.length query) <= MaxDocumentBytes l)
       /\ parseDocumentLimited uni_letter uni_digit query (MaxTokens l) = Some (Ok doc)
       /\ op ∈ operations doc
       /\ (if decide (opname = EmptyString) then operations doc = [op] else op_name op = opname)
       /\ (forall x, ~ tc (edge doc) x x)
       /\ fields_allowed l (written_fields doc)
       /\ exists n k, ops_cost doc (operations doc) n k
          /\ (MaxSelectionNodes l <= 0 \/ n <= MaxSelectionNodes l)
          /\ (MaxDepth l <= 0 \/ k <= MaxDepth l).
Proof. apply checkRequest_spec. Qed.

(** ** Concrete documents *)

(** One field that spreads a fragment of two fields twice: five
    fields in all, two levels. *)
Definition small_doc : document :=
  mkDoc [mkOp opQuery "" [] [SField "" "a" [] [SSpread "F"; SSpread "F"]]]
    {[ "F" := mkFrag "F" "T" [SField "x" "b" [] []; SField "" "c" [] []] ]}.

Lemma validate_exact_witness :
  detectFragmentCycles small_doc = Some (Ok tt)
  /\ validate (mkLimits 0 0 2 5 1 true) small_doc = Some (Ok tt)
  /\ validate (mkLimits 0 0 2 4 1 true) small_doc = Some (Err (ErrMaxNodes 4))
  /\ exists n k r, ops_cost small_doc (operations small_doc) n k
     /\ validate (mkLimits 0 0 2 4 1 true) small_doc = Some r
     /\ (r = Ok tt <->
          fields_allowed (mkLimits 0 0 2 4 1 true) (written_fields small_doc)
          /\ (4 <= 0 \/ n <= 4) /\ (2 <= 0 \/ k <= 2)).
Proof.
  split; [by vm_compute |]. split; [by vm_compute |]. split; [by vm_compute |].
  apply (validate_exact (mkLimits 0 0 2 4 1 true) small_doc). by vm_compute.
Defined.

Definition self_doc : document :=
  mkDoc [mkOp opQuery "" [] [SSpread "F"]]
    {[ "F" := mkFrag "F" "T" [SField "" "b" [] [SInline "T" [SSpread "F"]]] ]}.

Example self_rejected : detectFragmentCycles self_doc = Some (Err (ErrCycle "F")).
Proof. by vm_compute. Qed.

Example request_reaches_executor :
  exists doc op, checkRequest (fun _ => false) (fun _ => false) DefaultLimits
    "query Q { a { ...F } } fragment F on T { b }" "Q" = Some (Ok (doc, op))
  /\ op_name op = "Q" /\ is_Some (fragments doc !! "F").
Proof. eexists _, _. split; [vm_compute; reflexivity | split; [done | by eexists]]. Qed.
