(* ===== verification/GqlSchema.v ===== *)
(** Types, dynamic values and input coercion of the GraphQL executor:
    [src/graphql/schema.go] and the coercion half of [src/graphql/execute.go].

    A Go [any] is a [gval].  Types are Go pointers in the source, so a schema may
    be cyclic: an [Object], [InputObject] or [Enum] is the index of its
    definition in [typedefs], while the wrappers are part of the type.  Go maps
    are association lists; the order in which a loop visits one is the order of
    the list, which the theorems do not depend on.

    Coercion recurses on the value and, within one value, on the wrappers of the
    type; it never follows the (possibly cyclic) type graph without consuming
    part of the value, so no fuel is needed. *)

From Stdlib Require Import ZArith Lia Ascii.
From stdpp Require Import base gmap strings list relations numbers.
From S2P Require Import Prelude GoRt GoStrconv GqlLexer GqlParser.

#[local] Set Warnings "-register-all".
#[local] Open Scope lago_scope.

(** ** Dynamic values *)

Inductive int_kind := KInt | KInt32 | KInt64.

(** A struct field as [reflect] shows it. *)
Record field_info := mkField { fi_name : string; fi_graphql : string; fi_json : string; fi_exported : bool }.

(** [GList] is any slice or array, [GMap] a [map[string]any].  The [str] of a
    struct, a pointer or any other value is what its [String] method returns,
    when its type has one. *)
Inductive gval :=
| GNil
| GInt (k : int_kind) (n : Z)
| GFloat (f : float64)
| GFloat32 (f : float64)
| GString (s : string)
| GBool (b : bool)
| GList (items : list gval)
| GMap (fields : list (string * gval))
| GStruct (str : option string) (fields : list (field_info * gval))
| GPtr (str : option string) (target : option gval)
| GOther (id : nat) (str : option string).

Definition stringer (v : gval) : option string :=
  match v with GStruct s _ | GPtr s _ | GOther _ s => s | _ => None end.

Definition is_nil (v : gval) : bool := match v with GNil => true | _ => false end.

Lemma is_nil_true v : is_nil v = true <-> v = GNil.
Proof. by destruct v. Qed.

Lemma is_nil_false v : is_nil v = false <-> v <> GNil.
Proof. by destruct v. Qed.

(** ** Types *)

Inductive ty :=
| TyNil
| TyScalar (name : string)
| TyEnum (i : nat)
| TyInput (i : nat)
| TyObject (i : nat)
| TyList (t : ty)
| TyNonNull (t : ty).

#[export] Instance ty_eq_dec : EqDecision ty.
Proof. solve_decision. Defined.

(** [GNil] is no default. *)
Record Arg := mkArg { a_type : ty; a_default : gval }.

(** An [Args] map; a nil [*Arg] is [None]. *)
Definition Args : Type := list (string * option Arg).

(** [ev_value] is [GNil] for a nil [*EnumValue] and for a nil [Value]. *)
Record Enum := mkEnum { e_name : string; e_values : list (string * gval) }.

Record InputObject := mkInput { i_name : string; i_fields : Args }.

Record Field (R : Type) := mkFieldDef { f_type : ty; f_args : Args; f_resolve : option R }.
Arguments mkFieldDef {R} f_type f_args f_resolve.
Arguments f_type {R} _.
Arguments f_args {R} _.
Arguments f_resolve {R} _.

Record Object (R : Type) := mkObject { o_name : string; o_fields : list (string * option (Field R)) }.
Arguments mkObject {R} o_name o_fields.
Arguments o_name {R} _.
Arguments o_fields {R} _.

Record typedefs (R : Type) := mkDefs {
  enums : nat -> Enum; inputs : nat -> InputObject; objects : nat -> Object R }.
Arguments mkDefs {R} enums inputs objects.
Arguments enums {R} _ _.
Arguments inputs {R} _ _.
Arguments objects {R} _ _.

(** [Enum.value]. *)
Definition enum_value (e : Enum) (name : string) : option gval :=
  match assoc name (e_values e) with
  | None => None
  | Some GNil => Some (GString name)
  | Some v => Some v
  end.

Section TypeNames.
Context {R : Type} (D : typedefs R).

Fixpoint TypeName (t : ty) : string :=
  match t with
  | TyNil => EmptyString
  | TyScalar n => n
  | TyEnum i => e_name (enums D i)
  | TyInput i => i_name (inputs D i)
  | TyObject i => o_name (objects D i)
  | TyList t => ("[" +:+ TypeName t +:+ "]")%string
  | TyNonNull t => (TypeName t +:+ "!")%string
  end.

Fixpoint namedType (t : ty) : ty :=
  match t with
  | TyList t => namedType t
  | TyNonNull t => namedType t
  | t => t
  end.
End TypeNames.

Definition NewList (t : ty) : ty := TyList t.
Definition NewNonNull (t : ty) : ty := TyNonNull t.
Definition is_NonNull (t : ty) : bool := match t with TyNonNull _ => true | _ => false end.

(** ** Errors *)

(** [ENilType] stands for the panic of [t.TypeName()] on a nil [Type]. *)
Inductive cerror :=
| ENonNull (ty : string)
| EVarNull (x ty : string)
| EVarUndefined (x : string)
| EExpected (what got : string)
| EInvalid (what text : string)
| EEnumLiteral (enum : string)
| EEnumString (enum : string) (got : gval)
| EEnumUnknown (name enum : string)
| EObjectLiteral (input : string)
| EObjectValue (input : string) (got : gval)
| ENoCoercion (ty : string)
| ENilType
| ENonInteger (f : float64)
| ECannot (what : string) (got : gval)
| EMissing (owner name : string)
| EUnknown (owner name : string)
| EIn (owner name : string) (e : cerror)
| EUnknownType (name : string)
| ERequired (x ty : string).

(** Results in order; the first error wins. *)
Fixpoint all_ok {A} (l : list (result cerror A)) : result cerror (list A) :=
  match l with
  | [] => Ok []
  | x :: l => let* v := x in let* vs := all_ok l in Ok (v :: vs)
  end.

(** ** Scalars *)

Section Coercion.
Context {R : Type} (D : typedefs R).
(** [strconv.ParseFloat(s, 64)]. *)
Context (ParseFloat : string -> option float64).
(** What a conversion of an out-of-range float to [int64] gives. *)
Context (undef : float64 -> Z).

(** [describe]. *)
Definition describe (v : value) : string :=
  match v with
  | VNull => "null"
  | VInt _ => "Int"
  | VFloat _ => "Float"
  | VString _ => "String"
  | VBool _ => "Boolean"
  | VEnum _ => "Enum"
  | VVariable x => String "$" x
  | VList _ => "List"
  | VObject _ => "Object"
  end.

Fixpoint literalRuntime (v : value) : gval :=
  match v with
  | VInt text => match ParseInt text with Some n => GInt KInt64 n | None => GString text end
  | VFloat text => match ParseFloat text with Some f => GFloat f | None => GString text end
  | VString s => GString s
  | VBool b => GBool b
  | VEnum n => GString n
  | VList items => GList (map literalRuntime items)
  | VObject fields => GMap (map (fun kv => (kv.1, literalRuntime kv.2)) fields)
  | VNull | VVariable _ => GNil
  end.

Definition coerceScalar (s : string) (val : gval) : result cerror gval :=
  if is_nil val then Ok GNil
  else if bool_decide (s = "Int") then
    match val with
    | GInt _ n => Ok (GInt KInt64 n)
    | GFloat f =>
        let n := int64_of_float undef f in
        if negb (feq f (float_of_Z n)) then Err (ENonInteger f) else Ok (GInt KInt64 n)
    | GString t =>
        match ParseInt t with Some n => Ok (GInt KInt64 n) | None => Err (ECannot "Int" val) end
    | _ => Err (ECannot "Int" val)
    end
  else if bool_decide (s = "Float") then
    match val with
    | GFloat f => Ok (GFloat f)
    | GFloat32 f => Ok (GFloat f)
    | GInt KInt n => Ok (GFloat (float_of_Z n))
    | GInt KInt64 n => Ok (GFloat (float_of_Z n))
    | GString t =>
        match ParseFloat t with Some f => Ok (GFloat f) | None => Err (ECannot "Float" val) end
    | _ => Err (ECannot "Float" val)
    end
  else if bool_decide (s = "String") then
    match val with
    | GString t => Ok (GString t)
    | _ => match stringer val with Some t => Ok (GString t) | None => Err (ECannot "String" val) end
    end
  else if bool_decide (s = "Boolean") then
    match val with GBool b => Ok (GBool b) | _ => Err (ECannot "Boolean" val) end
  else if bool_decide (s = "ID") then
    match val with
    | GString t => Ok (GString t)
    | GInt KInt n => Ok (GString (FormatInt n))
    | GInt KInt64 n => Ok (GString (FormatInt n))
    | GFloat f => Ok (GString (FormatInt (int64_of_float undef f)))
    | _ => Err (ECannot "ID" val)
    end
  else Ok val.

Definition coerceScalarLiteral (s : string) (v : value) : result cerror gval :=
  if bool_decide (s = "Int") then
    match v with
    | VInt text => match ParseInt text with Some n => Ok (GInt KInt64 n) | None => Err (EInvalid "Int" text) end
    | _ => Err (EExpected "Int" (describe v))
    end
  else if bool_decide (s = "Float") then
    match v with
    | VFloat text | VInt text =>
        match ParseFloat text with Some f => Ok (GFloat f) | None => Err (EInvalid "Float" text) end
    | _ => Err (EExpected "Float" (describe v))
    end
  else if bool_decide (s = "String") then
    match v with VString t => Ok (GString t) | _ => Err (EExpected "String" (describe v)) end
  else if bool_decide (s = "Boolean") then
    match v with VBool b => Ok (GBool b) | _ => Err (EExpected "Boolean" (describe v)) end
  else if bool_decide (s = "ID") then
    match v with
    | VString t => Ok (GString t)
    | VInt text => Ok (GString text)
    | _ => Err (EExpected "ID" (describe v))
    end
  else coerceScalar s (literalRuntime v).

(** ** Fields of arguments and input objects *)

(** The two loops shared by [coerceArguments], [coerceInputObject] and
    [coerceRuntimeInput]: declared names first, then the ones not declared.
    [given] says how each value present is coerced to a type. *)
Fixpoint coerce_declared (owner : string) (defs : Args) (given : list (string * (ty -> result cerror gval)))
  : result cerror (list (string * gval)) :=
  match defs with
  | [] => Ok []
  | (name, None) :: _ => Err ENilType
  | (name, Some def) :: defs =>
      match assoc name given with
      | None =>
          if negb (is_nil (a_default def))
          then let* out := coerce_declared owner defs given in Ok ((name, a_default def) :: out)
          else if is_NonNull (a_type def) then Err (EMissing owner name)
          else coerce_declared owner defs given
      | Some coerce =>
          match coerce (a_type def) with
          | Err e => Err (EIn owner name e)
          | Ok v => let* out := coerce_declared owner defs given in Ok ((name, v) :: out)
          end
      end
  end.

Fixpoint check_unknown (owner : string) (defs : Args) (names : list string) : result cerror unit :=
  match names with
  | [] => Ok tt
  | name :: names =>
      match assoc name defs with
      | None => Err (EUnknown owner name)
      | Some _ => check_unknown owner defs names
      end
  end.

Definition coerce_fields (owner : string) (defs : Args) (given : list (string * (ty -> result cerror gval)))
  : result cerror (list (string * gval)) :=
  let* out := coerce_declared owner defs given in
  let* _ := check_unknown owner defs (map fst given) in
  Ok out.

(** ** Runtime values *)

Fixpoint coerceRuntime (val : gval) : ty -> result cerror gval :=
  fix go (t : ty) : result cerror gval :=
    match t with
    | TyNonNull t' => if is_nil val then Err (ENonNull (TypeName D t)) else go t'
    | TyList t' =>
        match val with
        | GNil => Ok GNil
        | GList items =>
            let* vs := all_ok (map (fun x => coerceRuntime x t') items) in Ok (GList vs)
        | _ => let* v := go t' in Ok (GList [v])
        end
    | TyScalar s => coerceScalar s val
    | TyEnum i =>
        match val with
        | GString name =>
            match enum_value (enums D i) name with
            | Some v => Ok v
            | None => Err (EEnumUnknown name (e_name (enums D i)))
            end
        | _ => Err (EEnumString (e_name (enums D i)) val)
        end
    | TyInput i =>
        match val with
        | GNil => Ok GNil
        | GMap m =>
            let* out := coerce_fields (i_name (inputs D i)) (i_fields (inputs D i))
                          (map (fun kv => (kv.1, coerceRuntime kv.2)) m) in
            Ok (GMap out)
        | _ => Err (EObjectValue (i_name (inputs D i)) val)
        end
    | TyObject _ | TyNil => Ok val
    end.

(** ** Literals *)

(** The coerced variables of the request. *)
Context (vars : list (string * gval)).

Definition resolveVar (x : string) : result cerror gval :=
  match assoc x vars with Some v => Ok v | None => Err (EVarUndefined x) end.

Fixpoint coerceValue (v : value) : ty -> result cerror gval :=
  fix go (t : ty) : result cerror gval :=
    match t with
    | TyNonNull t' =>
        match v with
        | VNull => Err (ENonNull (TypeName D t))
        | VVariable x =>
            let* rv := resolveVar x in
            if is_nil rv then Err (EVarNull x (TypeName D t)) else coerceRuntime rv t'
        | _ => go t'
        end
    | TyList t' =>
        match v with
        | VNull => Ok GNil
        | VVariable x => let* rv := resolveVar x in coerceRuntime rv t
        | VList items => let* vs := all_ok (map (fun x => coerceValue x t') items) in Ok (GList vs)
        | _ => let* e := go t' in Ok (GList [e])
        end
    | _ =>
        match v with
        | VVariable x => let* rv := resolveVar x in coerceRuntime rv t
        | VNull => Ok GNil
        | _ =>
            match t with
            | TyScalar s => coerceScalarLiteral s v
            | TyEnum i =>
                match v with
                | VEnum name =>
                    match enum_value (enums D i) name with
                    | Some ev => Ok ev
                    | None => Err (EEnumUnknown name (e_name (enums D i)))
                    end
                | _ => Err (EEnumLiteral (e_name (enums D i)))
                end
            | TyInput i =>
                match v with
                | VObject fields =>
                    let* out := coerce_fields (i_name (inputs D i)) (i_fields (inputs D i))
                                  (map (fun kv => (kv.1, coerceValue kv.2)) fields) in
                    Ok (GMap out)
                | _ => Err (EObjectLiteral (i_name (inputs D i)))
                end
            | TyNil => Err ENilType
            | _ => Err (ENoCoercion (TypeName D t))
            end
        end
    end.

Definition coerceArguments (defs : Args) (raw : list (string * value)) : result cerror (list (string * gval)) :=
  coerce_fields EmptyString defs (map (fun kv => (kv.1, coerceValue kv.2)) raw).
End Coercion.

(** ** Variables *)

Section Variables.
Context {R : Type} (D : typedefs R) (ParseFloat : string -> option float64) (undef : float64 -> Z).
(** [cs.types]. *)
Context (types : list (string * ty)).

Definition builtin (name : string) : bool :=
  bool_decide (name ∈ ["Int"; "Float"; "String"; "Boolean"; "ID"]).

Fixpoint resolveTypeRef (tr : typeRef) : result cerror ty :=
  match tr with
  | TList inner nonNull =>
      let* t := resolveTypeRef inner in
      Ok (if nonNull then NewNonNull (NewList t) else NewList t)
  | TNamed name nonNull =>
      match assoc name types with
      | Some t => Ok (if nonNull then NewNonNull t else t)
      | None =>
          if builtin name then Ok (if nonNull then NewNonNull (TyScalar name) else TyScalar name)
          else Err (EUnknownType name)
      end
  end.

Definition hasDefault (d : variableDef) : bool :=
  match v_default d with VNull => false | _ => true end.

(** The loop over the declared variables; defaults are coerced before any
    variable is known ([ex.vars] is still nil). *)
Fixpoint coerceVariables (defs : list variableDef) (raw : list (string * gval)) (out : list (string * gval))
  : result cerror (list (string * gval)) :=
  match defs with
  | [] => Ok out
  | d :: defs =>
      match resolveTypeRef (v_typ d) with
      | Err e => Err (EIn "variable" (v_name d) e)
      | Ok t =>
          match assoc (v_name d) raw with
          | None =>
              if hasDefault d then
                match coerceValue D ParseFloat undef [] (v_default d) t with
                | Err e => Err (EIn "default" (v_name d) e)
                | Ok v => coerceVariables defs raw (map_set (v_name d) v out)
                end
              else if is_NonNull t then Err (ERequired (v_name d) (TypeName D t))
              else coerceVariables defs raw out
          | Some rv =>
              match coerceRuntime D ParseFloat undef rv t with
              | Err e => Err (EIn "variable" (v_name d) e)
              | Ok v => coerceVariables defs raw (map_set (v_name d) v out)
              end
          end
      end
  end.
End Variables.

(** ** Reading coerced arguments *)

Section ArgValues.
Context (undef : float64 -> Z).
Definition ArgValues : Type := list (string * gval).

Definition Get (name : string) (a : ArgValues) : option gval := assoc name a.
Definition arg_String (name : string) (a : ArgValues) : string :=
  match assoc name a with Some (GString s) => s | _ => EmptyString end.
Definition arg_Int (name : string) (a : ArgValues) : Z :=
  match assoc name a with
  | Some (GInt KInt64 n) | Some (GInt KInt n) => n
  | Some (GFloat f) => int64_of_float undef f
  | _ => 0
  end.
Definition arg_Float (name : string) (a : ArgValues) : float64 :=
  match assoc name a with
  | Some (GFloat f) => f
  | Some (GInt KInt64 n) => float_of_Z n
  | _ => fzero
  end.
Definition arg_Bool (name : string) (a : ArgValues) : bool :=
  match assoc name a with Some (GBool b) => b | _ => false end.
Definition arg_List (name : string) (a : ArgValues) : option (list gval) :=
  match assoc name a with Some (GList l) => Some l | _ => None end.
Definition arg_Input (name : string) (a : ArgValues) : option (list (string * gval)) :=
  match assoc name a with Some (GMap m) => Some m | _ => None end.
End ArgValues.

(** ** Induction on values *)

Section GvalInd.
Context (Pr : gval -> Prop).
Context (Hlist : forall items, Forall Pr items -> Pr (GList items)).
Context (Hmap : forall fields, Forall (fun kv => Pr kv.2) fields -> Pr (GMap fields)).
Context (Hflat : forall v, (forall items, v <> GList items) -> (forall m, v <> GMap m) -> Pr v).

Fixpoint gval_nested_ind (v : gval) : Pr v :=
  match v with
  | GList items =>
      Hlist items ((fix go (l : list gval) : Forall Pr l :=
        match l with
        | [] => @List.Forall_nil _ Pr
        | x :: l => @List.Forall_cons _ Pr x l (gval_nested_ind x) (go l)
        end) items)
  | GMap fields =>
      Hmap fields ((fix go (l : list (string * gval)) : Forall (fun kv => Pr kv.2) l :=
        match l with
        | [] => @List.Forall_nil _ (fun kv => Pr kv.2)
        | x :: l => @List.Forall_cons _ (fun kv => Pr kv.2) x l (gval_nested_ind x.2) (go l)
        end) fields)
  | v => Hflat v ltac:(by intros) ltac:(by intros)
  end.
End GvalInd.

Section ValueInd.
Context (Pr : value -> Prop).
Context (Hlist : forall items, Forall Pr items -> Pr (VList items)).
Context (Hobj : forall fields, Forall (fun kv => Pr kv.2) fields -> Pr (VObject fields)).
Context (Hflat : forall v, (forall items, v <> VList items) -> (forall m, v <> VObject m) -> Pr v).

Fixpoint value_coerce_ind (v : value) : Pr v :=
  match v with
  | VList items =>
      Hlist items ((fix go (l : list value) : Forall Pr l :=
        match l with
        | [] => @List.Forall_nil _ Pr
        | x :: l => @List.Forall_cons _ Pr x l (value_coerce_ind x) (go l)
        end) items)
  | VObject fields =>
      Hobj fields ((fix go (l : list (string * value)) : Forall (fun kv => Pr kv.2) l :=
        match l with
        | [] => @List.Forall_nil _ (fun kv => Pr kv.2)
        | x :: l => @List.Forall_cons _ (fun kv => Pr kv.2) x l (value_coerce_ind x.2) (go l)
        end) fields)
  | v => Hflat v ltac:(by intros) ltac:(by intros)
  end.
End ValueInd.

(** ** What a coerced value is *)

Section Typing.
Context {R : Type} (D : typedefs R).

(** The Go values of a declared type, as the documentation of [ArgValues] lists
    them.  An absent input field is only absent when it has no default and may be
    null; one left to its default holds the default as it was declared. *)
Inductive has_type : ty -> gval -> Prop :=
| HT_null t : is_NonNull t = false -> has_type t GNil
| HT_nonnull t v : v <> GNil -> has_type t v -> has_type (TyNonNull t) v
| HT_list t items : Forall (has_type t) items -> has_type (TyList t) (GList items)
| HT_int n : has_type (TyScalar "Int") (GInt KInt64 n)
| HT_float f : has_type (TyScalar "Float") (GFloat f)
| HT_string s : has_type (TyScalar "String") (GString s)
| HT_bool b : has_type (TyScalar "Boolean") (GBool b)
| HT_id s : has_type (TyScalar "ID") (GString s)
| HT_custom name v : builtin name = false -> has_type (TyScalar name) v
| HT_enum i name v : enum_value (enums D i) name = Some v -> has_type (TyEnum i) v
| HT_input i m : fields_type (i_fields (inputs D i)) m -> has_type (TyInput i) (GMap m)
| HT_object i v : has_type (TyObject i) v
| HT_nil v : has_type TyNil v
with fields_type : Args -> list (string * gval) -> Prop :=
| FT_nil : fields_type [] []
| FT_default name def defs m :
    a_default def <> GNil -> fields_type defs m ->
    fields_type ((name, Some def) :: defs) ((name, a_default def) :: m)
| FT_absent name def defs m :
    a_default def = GNil -> is_NonNull (a_type def) = false -> fields_type defs m ->
    fields_type ((name, Some def) :: defs) m
| FT_given name def defs v m :
    has_type (a_type def) v -> fields_type defs m ->
    fields_type ((name, Some def) :: defs) ((name, v) :: m).

Lemma coerce_declared_typed owner defs given out :
  (forall name coerce, assoc name given = Some coerce -> forall t v, coerce t = Ok v -> has_type t v) ->
  coerce_declared owner defs given = Ok out -> fields_type defs out.
Proof.
  intros Hg. revert out. induction defs as [|[name [def|]] defs IH]; intros out; simpl;
    [intros [= <-]; constructor | | done].
  destruct (assoc name given) as [coerce|] eqn:Eg.
  - destruct (coerce (a_type def)) as [v|e] eqn:Ec; [| done].
    intros (o & Ho & [= <-])%rbind_Ok_inv. apply FT_given; [by eapply Hg | by apply IH].
  - destruct (is_nil (a_default def)) eqn:En; simpl.
    + destruct (is_NonNull (a_type def)) eqn:Enn; [done |]. intros Ho.
      apply FT_absent; [by apply is_nil_true | done | by apply IH].
    + intros (o & Ho & [= <-])%rbind_Ok_inv. apply FT_default; [by apply is_nil_false | by apply IH].
Qed.

Lemma all_ok_typed {A} (l : list A) (f : A -> result cerror gval) t vs :
  Forall (fun x => forall v, f x = Ok v -> has_type t v) l -> all_ok (map f l) = Ok vs ->
  Forall (has_type t) vs.
Proof.
  intros Hl. revert vs. induction Hl as [|x l Hx _ IH]; intros vs; simpl; [by intros [= <-] |].
  intros (v & Hv & (us & Hus & [= <-])%rbind_Ok_inv)%rbind_Ok_inv. constructor; [by apply Hx | by apply IH].
Qed.
End Typing.

Section CoercionTyped.
Context {R : Type} (D : typedefs R) (ParseFloat : string -> option float64) (undef : float64 -> Z).

(** The equation of [coerceRuntime], the value not yet known. *)
Lemma coerceRuntime_eq val t :
  coerceRuntime D ParseFloat undef val t
  = match t with
    | TyNonNull t' =>
        if is_nil val then Err (ENonNull (TypeName D t)) else coerceRuntime D ParseFloat undef val t'
    | TyList t' =>
        match val with
        | GNil => Ok GNil
        | GList items =>
            let* vs := all_ok (map (fun x => coerceRuntime D ParseFloat undef x t') items) in Ok (GList vs)
        | _ => let* v := coerceRuntime D ParseFloat undef val t' in Ok (GList [v])
        end
    | TyScalar s => coerceScalar ParseFloat undef s val
    | TyEnum i =>
        match val with
        | GString name =>
            match enum_value (enums D i) name with
            | Some v => Ok v
            | None => Err (EEnumUnknown name (e_name (enums D i)))
            end
        | _ => Err (EEnumString (e_name (enums D i)) val)
        end
    | TyInput i =>
        match val with
        | GNil => Ok GNil
        | GMap m =>
            let* out := coerce_fields (i_name (inputs D i)) (i_fields (inputs D i))
                          (map (fun kv => (kv.1, coerceRuntime D ParseFloat undef kv.2)) m) in
            Ok (GMap out)
        | _ => Err (EObjectValue (i_name (inputs D i)) val)
        end
    | TyObject _ | TyNil => Ok val
    end.
Proof. by destruct val, t. Qed.

Lemma coerceScalar_typed s val v :
  coerceScalar ParseFloat undef s val = Ok v ->
  has_type D (TyScalar s) v /\ (val <> GNil -> v <> GNil).
Proof.
  unfold coerceScalar. destruct (is_nil val) eqn:En.
  { apply is_nil_true in En as ->. intros [= <-]. split; [by constructor | done]. }
  repeat case_bool_decide; subst.
  1-5: intros Hc; destruct val; simpl in Hc; try done; repeat (case_match; try done); simplify_eq;
    (split; [constructor | done]).
  intros [= <-]. split; [apply HT_custom, bool_decide_eq_false | done].
  rewrite !not_elem_of_cons. split_and!; try done. apply not_elem_of_nil.
Qed.

Lemma enum_value_nonnil e name v : enum_value e name = Some v -> v <> GNil.
Proof. unfold enum_value. intros H. repeat case_match; simplify_eq/=; done. Qed.

Lemma coerceRuntime_typed val t v :
  coerceRuntime D ParseFloat undef val t = Ok v -> has_type D t v /\ (val <> GNil -> v <> GNil).
Proof.
  revert t v. induction val as [items IH|m IH|val Hl Hm] using gval_nested_ind;
    intros t; induction t as [|s|i|i|i|t IHt|t IHt]; intros v; rewrite coerceRuntime_eq;
    try (intros [= <-]; split; [constructor | done]);
    try apply coerceScalar_typed;
    try done.
  - intros (vs & Hvs & [= <-])%rbind_Ok_inv. split; [| done]. constructor.
    eapply all_ok_typed; [| exact Hvs]. eapply list.Forall_impl; [exact IH |].
    intros x Hx u Hu. by apply Hx in Hu as [? _].
  - simpl. intros [Hv Hn]%IHt. split; [constructor; [by apply Hn | done] | intros _; by apply Hn].
  - intros (vs & Hvs & [= <-])%rbind_Ok_inv. split; [| done]. constructor.
    apply rbind_Ok_inv in Hvs as (out & Hout & Hrest). apply rbind_Ok_inv in Hrest as (u & _ & [= <-]).
    eapply coerce_declared_typed; [| exact Hout]. intros name coerce Hc t w Hw.
    rewrite (assoc_map (coerceRuntime D ParseFloat undef)) in Hc.
    destruct (assoc name m) as [x|] eqn:Ex; [| done]. injection Hc as <-.
    apply assoc_Some_in in Ex. rewrite list.Forall_forall in IH. by apply (IH _ Ex) in Hw as [? _].
  - intros (w & Hw & [= <-])%rbind_Ok_inv. split; [| done]. constructor. constructor; [| constructor].
    by apply IHt.
  - simpl. intros [Hv Hn]%IHt. split; [constructor; [by apply Hn | done] | intros _; by apply Hn].
  - destruct val; try done. destruct (enum_value (enums D i) s) as [w|] eqn:Ew; [| done].
    intros [= <-]. split; [by eapply HT_enum | intros _; by eapply enum_value_nonnil].
  - destruct val; try done; [intros [= <-]; split; [by constructor | done] | by destruct (Hm fields)].
  - destruct val; try (intros (w & Hw & [= <-])%rbind_Ok_inv; split; [| done]; constructor;
      constructor; [by apply IHt | constructor]); [intros [= <-]; split; [by constructor | done] |].
    by destruct (Hl items).
  - destruct (is_nil val) eqn:En; [done |]. apply is_nil_false in En.
    intros [Hv Hn]%IHt. split; [constructor; [by apply Hn | done] | intros _; by apply Hn].
Qed.

Section Literals.
Context (vars : list (string * gval)).
Notation runtime := (coerceRuntime D ParseFloat undef).
Notation literal := (coerceValue D ParseFloat undef vars).

(** A literal that is neither null nor a variable. *)
Definition plain (v : value) : bool := match v with VNull | VVariable _ => false | _ => true end.

(** The equation of [coerceValue]. *)
Lemma coerceValue_eq v t :
  literal v t
  = match t with
    | TyNonNull t' =>
        match v with
        | VNull => Err (ENonNull (TypeName D t))
        | VVariable x =>
            let* rv := resolveVar vars x in
            if is_nil rv then Err (EVarNull x (TypeName D t)) else runtime rv t'
        | _ => literal v t'
        end
    | TyList t' =>
        match v with
        | VNull => Ok GNil
        | VVariable x => let* rv := resolveVar vars x in runtime rv t
        | VList items => let* vs := all_ok (map (fun x => literal x t') items) in Ok (GList vs)
        | _ => let* e := literal v t' in Ok (GList [e])
        end
    | _ =>
        match v with
        | VVariable x => let* rv := resolveVar vars x in runtime rv t
        | VNull => Ok GNil
        | _ =>
            match t with
            | TyScalar s => coerceScalarLiteral ParseFloat undef s v
            | TyEnum i =>
                match v with
                | VEnum name =>
                    match enum_value (enums D i) name with
                    | Some ev => Ok ev
                    | None => Err (EEnumUnknown name (e_name (enums D i)))
                    end
                | _ => Err (EEnumLiteral (e_name (enums D i)))
                end
            | TyInput i =>
                match v with
                | VObject fields =>
                    let* out := coerce_fields (i_name (inputs D i)) (i_fields (inputs D i))
                                  (map (fun kv => (kv.1, literal kv.2)) fields) in
                    Ok (GMap out)
                | _ => Err (EObjectLiteral (i_name (inputs D i)))
                end
            | TyNil => Err ENilType
            | _ => Err (ENoCoercion (TypeName D t))
            end
        end
    end.
Proof. by destruct v, t. Qed.

Lemma literalRuntime_plain v : plain v = true -> literalRuntime ParseFloat v <> GNil.
Proof. destruct v; simpl; try done; intros _; by case_match. Qed.

Lemma coerceScalarLiteral_typed s v w :
  plain v = true -> coerceScalarLiteral ParseFloat undef s v = Ok w -> has_type D (TyScalar s) w /\ w <> GNil.
Proof.
  intros Hp. unfold coerceScalarLiteral. repeat case_bool_decide; subst.
  1-5: intros Hc; destruct v; simpl in Hc; try done; repeat (case_match; try done); simplify_eq;
    (split; [constructor | done]).
  intros [Ht Hn]%coerceScalar_typed. split; [done |]. by apply Hn, literalRuntime_plain.
Qed.

(** A variable in the place of a value of type [t]. *)
Lemma variable_typed x t w :
  (let* rv := resolveVar vars x in runtime rv t) = Ok w -> has_type D t w.
Proof. intros (rv & _ & Hr)%rbind_Ok_inv. by apply coerceRuntime_typed in Hr as [? _]. Qed.

Lemma coerceValue_typed v t w :
  literal v t = Ok w -> has_type D t w /\ (plain v = true -> w <> GNil).
Proof.
  revert t w. induction v as [items IH|m IH|v Hl Hm] using value_coerce_ind;
    intros t; induction t as [|s|i|i|i|t IHt|t IHt]; intros w; rewrite coerceValue_eq; try done.
  - intros [? ?]%coerceScalarLiteral_typed; [by split | done].
  - intros (vs & Hvs & [= <-])%rbind_Ok_inv. split; [| done]. constructor.
    eapply all_ok_typed; [| exact Hvs]. eapply list.Forall_impl; [exact IH |].
    intros x Hx u Hu. by apply Hx in Hu as [? _].
  - intros [Hv Hn]%IHt. split; [constructor; [by apply Hn | done] | done].
  - intros [? ?]%coerceScalarLiteral_typed; [by split | done].
  - intros (vs & Hvs & [= <-])%rbind_Ok_inv. split; [| done]. constructor.
    apply rbind_Ok_inv in Hvs as (out & Hout & Hrest). apply rbind_Ok_inv in Hrest as (u & _ & [= <-]).
    eapply coerce_declared_typed; [| exact Hout]. intros name coerce Hc t w Hw.
    rewrite (assoc_map literal) in Hc.
    destruct (assoc name m) as [x|] eqn:Ex; [| done]. injection Hc as <-.
    apply assoc_Some_in in Ex. rewrite list.Forall_forall in IH. by apply (IH _ Ex) in Hw as [? _].
  - intros (e & He & [= <-])%rbind_Ok_inv. split; [| done]. constructor. constructor; [by apply IHt | constructor].
  - intros [Hv Hn]%IHt. split; [constructor; [by apply Hn | done] | done].
  - destruct v; try done; [intros [= <-]; split; [by constructor | done] | intros Hv; split; [by eapply variable_typed | done]].
  - destruct v; try (intros [? ?]%coerceScalarLiteral_typed; [by split | done]);
      [intros [= <-]; split; [by constructor | done] | intros Hv; split; [by eapply variable_typed | done]].
  - destruct v; try done; [intros [= <-]; split; [by constructor | done] | |
      intros Hv; split; [by eapply variable_typed | done]].
    destruct (enum_value (enums D i) name) as [u|] eqn:Eu; [| done].
    intros [= <-]. split; [by eapply HT_enum | intros _; by eapply enum_value_nonnil].
  - destruct v; try done; [intros [= <-]; split; [by constructor | done] |
      intros Hv; split; [by eapply variable_typed | done] | by destruct (Hm fields)].
  - destruct v; try done; [intros [= <-]; split; [by constructor | done] |
      intros Hv; split; [by eapply variable_typed | done]].
  - destruct v; try (by destruct (Hl items));
      try (intros (e & He & [= <-])%rbind_Ok_inv; split; [| done]; constructor; constructor; [by apply IHt | constructor]);
      [intros [= <-]; split; [by constructor | done] | intros Hv; split; [by eapply variable_typed | done]].
  - destruct v; try done;
      try (intros [Hv Hn]%IHt; split; [constructor; [by apply Hn | done] | done]).
    intros (rv & _ & Hr)%rbind_Ok_inv. destruct (is_nil rv) eqn:En; [done |]. apply is_nil_false in En.
    apply coerceRuntime_typed in Hr as [Ht Hn]. split; [constructor; [by apply Hn | done] | done].
Qed.
End Literals.
End CoercionTyped.

(** Input coercion is sound.  Arguments that pass are values of their declared
    types, whatever the literals and the variables were: integers are [int64],
    enums members, lists lists of the element type, non-null types hold no null at
    any depth, and every input object has exactly its declared fields, required
    ones included. *)
Theorem coerceArguments_typed {R} (D : typedefs R) ParseFloat undef vars defs raw args
    (Hok : coerceArguments D ParseFloat undef vars defs raw = Ok args) :
  fields_type D defs args /\ (forall name, name ∈ map fst raw -> name ∈ map fst defs).
Proof.
  apply rbind_Ok_inv in Hok as (out & Hout & (u & Hu & [= <-])%rbind_Ok_inv). split.
  - eapply coerce_declared_typed; [| exact Hout]. intros name coerce Hc t v Hv.
    rewrite (assoc_map (coerceValue D ParseFloat undef vars)) in Hc.
    destruct (assoc name raw) as [x|]; [| done]. injection Hc as <-.
    by apply coerceValue_typed in Hv as [? _].
  - rewrite map_map in Hu. simpl in Hu. intros name. clear Hout.
    induction raw as [|[k v] raw IH]; simpl in *; [intros Hn; inversion Hn |].
    destruct (assoc k defs) as [a|] eqn:Ek; [| done]. intros [->|Hn]%elem_of_cons; [| by apply IH].
    destruct (decide (k ∈ map fst defs)) as [?|Hni]; [done |]. apply assoc_None in Hni. congruence.
Qed.

Lemma assoc_map_set {A} k k' (v : A) m :
  assoc k (map_set k' v m) = if decide (k = k') then Some v else assoc k m.
Proof.
  induction m as [|[k0 v0] m IH]; simpl; [done |].
  destruct (decide (k' = k0)) as [->|Hne]; simpl.
  - by case_decide.
  - rewrite IH. repeat case_decide; congruence.
Qed.

Section VariablesTyped.
Context {R : Type} (D : typedefs R) (ParseFloat : string -> option float64) (undef : float64 -> Z).
Context (types : list (string * ty)).

(** The value a declared variable gets, if any. *)
Definition variable_value (raw : list (string * gval)) (d : variableDef) (t : ty)
  : option (result cerror gval) :=
  match assoc (v_name d) raw with
  | None => if hasDefault d then Some (coerceValue D ParseFloat undef [] (v_default d) t) else None
  | Some rv => Some (coerceRuntime D ParseFloat undef rv t)
  end.

Lemma coerceVariables_step d defs raw out vars :
  coerceVariables D ParseFloat undef types (d :: defs) raw out = Ok vars ->
  exists t, resolveTypeRef types (v_typ d) = Ok t
    /\ ((exists v, variable_value raw d t = Some (Ok v)
          /\ coerceVariables D ParseFloat undef types defs raw (map_set (v_name d) v out) = Ok vars)
        \/ (variable_value raw d t = None /\ is_NonNull t = false
            /\ coerceVariables D ParseFloat undef types defs raw out = Ok vars)).
Proof.
  simpl. destruct (resolveTypeRef types (v_typ d)) as [t|e]; [| done]. intros H. exists t. split; [done |].
  unfold variable_value. destruct (assoc (v_name d) raw) as [rv|].
  - destruct (coerceRuntime D ParseFloat undef rv t) as [v|e]; [| done]. left. by exists v.
  - destruct (hasDefault d).
    + destruct (coerceValue D ParseFloat undef [] (v_default d) t) as [v|e]; [| done]. left. by exists v.
    + destruct (is_NonNull t); [done |]. by right.
Qed.

Lemma variable_value_typed raw d t v : variable_value raw d t = Some (Ok v) -> has_type D t v.
Proof.
  unfold variable_value. intros H. destruct (assoc (v_name d) raw) as [rv|].
  - injection H as H. by apply coerceRuntime_typed in H as [? _].
  - destruct (hasDefault d); [| done]. injection H as H. by apply coerceValue_typed in H as [? _].
Qed.

Lemma coerceVariables_spec defs raw out vars :
  coerceVariables D ParseFloat undef types defs raw out = Ok vars ->
  (forall x v, assoc x vars = Some v -> assoc x out = Some v \/
     exists d t, d ∈ defs /\ v_name d = x /\ resolveTypeRef types (v_typ d) = Ok t /\ has_type D t v)
  /\ (forall x, is_Some (assoc x out) -> is_Some (assoc x vars))
  /\ (forall d t, d ∈ defs -> resolveTypeRef types (v_typ d) = Ok (TyNonNull t) ->
       is_Some (assoc (v_name d) vars)).
Proof.
  revert out. induction defs as [|d defs IH]; intros out Hok.
  { injection Hok as ->. split_and!; [by left | done | intros d t H; inversion H]. }
  apply coerceVariables_step in Hok as (t & Ht & [(v & Hv & Hok)|(Hv & Hn & Hok)]).
  - apply IH in Hok as (H1 & H2 & H3).
    assert (Hself : is_Some (assoc (v_name d) vars))
      by (apply H2; rewrite assoc_map_set, decide_True by done; by eexists).
    split_and!.
    + intros x u Hx. destruct (H1 x u Hx) as [Ho|(d' & t' & Hin & Hd')].
      * rewrite assoc_map_set in Ho. case_decide as Hxd; [| by left]. right. injection Ho as <-.
        exists d, t. subst x. split_and!; [by left | done | done | by eapply variable_value_typed].
      * right. exists d', t'. split; [by right | done].
    + intros x Hx. apply H2. rewrite assoc_map_set. by case_decide.
    + intros d' t' [->|Hin]%elem_of_cons Ht'; [done |]. by eapply H3.
  - apply IH in Hok as (H1 & H2 & H3). split_and!; [| done |].
    + intros x u Hx. destruct (H1 x u Hx) as [Ho|(d' & t' & Hin & Hd')]; [by left | right].
      exists d', t'. split; [by right | done].
    + intros d' t' [->|Hin]%elem_of_cons Ht'; [| by eapply H3]. rewrite Ht in Ht'. by injection Ht' as ->.
Qed.
End VariablesTyped.

(** Variable coercion is sound: a variable the request may use is a declared
    one and has a value of its declared type, and a declared variable of a
    non-null type is there. *)
Theorem coerceVariables_typed {R} (D : typedefs R) ParseFloat undef types defs raw vars
    (Hok : coerceVariables D ParseFloat undef types defs raw [] = Ok vars) :
  (forall x v, assoc x vars = Some v ->
     exists d t, d ∈ defs /\ v_name d = x /\ resolveTypeRef types (v_typ d) = Ok t /\ has_type D t v)
  /\ (forall d t, d ∈ defs -> resolveTypeRef types (v_typ d) = Ok (TyNonNull t) ->
       is_Some (assoc (v_name d) vars)).
Proof.
  apply coerceVariables_spec in Hok as (H1 & _ & H3). split; [| exact H3].
  intros x v Hx. by destruct (H1 x v Hx).
Qed.

(** ** Coercing twice *)

(** A variable's value is coerced when the request starts and again where the
    variable is used.  This is harmless in a schema whose enums have no Go values
    of their own and whose defaults are values of their types. *)
Section Twice.
Context {R : Type} (D : typedefs R) (ParseFloat : string -> option float64) (undef : float64 -> Z).
Notation runtime := (coerceRuntime D ParseFloat undef).

Record plain_schema : Prop := {
  ps_enums i name v : enum_value (enums D i) name = Some v -> v = GString name;
  ps_defaults i name def : (name, Some def) ∈ i_fields (inputs D i) -> a_default def <> GNil ->
    runtime (a_default def) (a_type def) = Ok (a_default def);
  ps_names i : NoDup (map fst (i_fields (inputs D i)));
}.

Lemma coerceScalar_again s val w :
  coerceScalar ParseFloat undef s val = Ok w -> coerceScalar ParseFloat undef s w = Ok w.
Proof.
  unfold coerceScalar. destruct (is_nil val) eqn:En; [by intros [= <-] |].
  repeat case_bool_decide; subst.
  1-5: intros Hc; destruct val; simpl in Hc; try done; repeat (case_match; try done); by simplify_eq.
  intros [= <-]. by rewrite En.
Qed.

Lemma declared_names owner defs given out :
  coerce_declared owner defs given = Ok out -> forall k, k ∈ map fst out -> k ∈ map fst defs.
Proof.
  revert out. induction defs as [|[name [def|]] defs IH]; intros out; simpl; [| | done].
  - intros [= <-] k H. inversion H.
  - destruct (assoc name given) as [coerce|].
    + destruct (coerce (a_type def)) as [v|e]; [| done]. intros (o & Ho & [= <-])%rbind_Ok_inv k.
      simpl. intros [->|Hk]%elem_of_cons; [by left | right; by eapply IH].
    + destruct (negb _); [| destruct (is_NonNull _); [done |]; intros Ho k Hk; right; by eapply IH].
      intros (o & Ho & [= <-])%rbind_Ok_inv k. simpl.
      intros [->|Hk]%elem_of_cons; [by left | right; by eapply IH].
Qed.

Lemma declared_again owner defs given out full :
  NoDup (map fst defs) ->
  (forall name def, (name, Some def) ∈ defs -> a_default def <> GNil ->
     runtime (a_default def) (a_type def) = Ok (a_default def)) ->
  (forall name coerce, assoc name given = Some coerce -> forall t v, coerce t = Ok v -> runtime v t = Ok v) ->
  (forall name, name ∈ map fst defs -> assoc name full = assoc name out) ->
  coerce_declared owner defs given = Ok out ->
  coerce_declared owner defs (map (fun kv => (kv.1, runtime kv.2)) full) = Ok out.
Proof.
  intros Hnd Hdef Hg. revert out. induction defs as [|[name [def|]] defs IH]; intros out Hfull; simpl; [done | | done].
  apply list.NoDup_cons in Hnd as [Hni Hnd].
  assert (Hlater : forall o v, (forall k, k ∈ map fst defs -> assoc k full = assoc k ((name, v) :: o)) ->
    forall k, k ∈ map fst defs -> assoc k full = assoc k o).
  { intros o v Ho k Hk. rewrite Ho by done. simpl. rewrite decide_False; [done | intros ->; by apply Hni]. }
  rewrite (assoc_map runtime), Hfull by by left.
  destruct (assoc name given) as [coerce|] eqn:Eg.
  - destruct (coerce (a_type def)) as [v|e] eqn:Ec; [| done].
    intros (o & Ho & [= <-])%rbind_Ok_inv. simpl. rewrite decide_True by done. simpl.
    rewrite (Hg name coerce Eg _ _ Ec). rewrite (IH Hnd) with (out := o); [done | | | done].
    + intros n d Hin. apply (Hdef n). by right.
    + apply (Hlater o v). intros k Hk. apply Hfull. by right.
  - destruct (is_nil (a_default def)) eqn:En; simpl.
    + destruct (is_NonNull (a_type def)); [done |]. intros Ho.
      rewrite (proj2 (assoc_None name out)) by (intros Hin; by eapply Hni, declared_names). simpl.
      apply IH; [done | | | done].
      * intros n d Hin. apply (Hdef n). by right.
      * intros k Hk. apply Hfull. by right.
    + intros (o & Ho & [= <-])%rbind_Ok_inv. simpl. rewrite decide_True by done. simpl.
      rewrite (Hdef name) by (by left || by apply is_nil_false).
      rewrite (IH Hnd) with (out := o); [done | | | done].
      * intros n d Hin. apply (Hdef n). by right.
      * apply (Hlater o (a_default def)). intros k Hk. apply Hfull. by right.
Qed.

Lemma check_unknown_ok owner defs names :
  (forall k, k ∈ names -> k ∈ map fst defs) -> check_unknown owner defs names = Ok tt.
Proof.
  induction names as [|k names IH]; intros Hk; [done |]. simpl.
  destruct (assoc k defs) eqn:E; [apply IH; intros k' Hk'; apply Hk; by right |].
  apply assoc_None in E. destruct E. apply Hk. by left.
Qed.

Lemma all_ok_again {A} (l : list A) (f : A -> result cerror gval) t vs :
  Forall (fun x => forall w, f x = Ok w -> runtime w t = Ok w) l -> all_ok (map f l) = Ok vs ->
  all_ok (map (fun x => runtime x t) vs) = Ok vs.
Proof.
  intros Hl. revert vs. induction Hl as [|x l Hx _ IH]; intros vs; simpl; [by intros [= <-] |].
  intros (v & Hv & (us & Hus & [= <-])%rbind_Ok_inv)%rbind_Ok_inv. simpl.
  rewrite (Hx v Hv). simpl. by rewrite (IH us Hus).
Qed.

(** Coercion is idempotent. *)
Lemma coerce_again (Hplain : plain_schema) val t w : runtime val t = Ok w -> runtime w t = Ok w.
Proof.
  revert t w. induction val as [items IH|m IH|val Hl Hm] using gval_nested_ind;
    intros t; induction t as [|s|i|i|i|t IHt|t IHt]; intros w Hw;
    pose proof (coerceRuntime_typed D ParseFloat undef _ _ _ Hw) as [Hty Hnn];
    rewrite coerceRuntime_eq in Hw; try done;
    try (by injection Hw as <-; rewrite coerceRuntime_eq);
    try (by apply coerceScalar_again in Hw; rewrite coerceRuntime_eq).
  - apply rbind_Ok_inv in Hw as (vs & Hvs & [= <-]). rewrite coerceRuntime_eq.
    erewrite all_ok_again; [done | | exact Hvs].
    eapply list.Forall_impl; [exact IH |]. intros x Hx u Hu. by apply Hx.
  - simpl in Hw. rewrite coerceRuntime_eq.
    rewrite (proj2 (is_nil_false w)) by (by apply Hnn). by apply IHt.
  - apply rbind_Ok_inv in Hw as (vs & Hvs & [= <-]). rewrite coerceRuntime_eq.
    apply rbind_Ok_inv in Hvs as (out & Hout & Hrest). apply rbind_Ok_inv in Hrest as (u & _ & [= <-]).
    unfold coerce_fields.
    rewrite (declared_again _ _ (map (fun kv => (kv.1, runtime kv.2)) m) out out (ps_names Hplain i));
      [| | | done | exact Hout].
    + simpl. rewrite check_unknown_ok; [done |]. rewrite map_map. intros k Hk. by eapply declared_names.
    + intros name def Hin. by apply (ps_defaults Hplain i name).
    + intros name coerce Hc t v Hv. rewrite (assoc_map runtime) in Hc.
      destruct (assoc name m) as [x|] eqn:Ex; [| done]. injection Hc as <-.
      apply assoc_Some_in in Ex. rewrite list.Forall_forall in IH. by apply (IH _ Ex).
  - apply rbind_Ok_inv in Hw as (e & He & [= <-]). rewrite coerceRuntime_eq. simpl. by rewrite (IHt _ He).
  - simpl in Hw. rewrite coerceRuntime_eq.
    rewrite (proj2 (is_nil_false w)) by (by apply Hnn). by apply IHt.
  - destruct val; try done. destruct (enum_value (enums D i) s) as [v|] eqn:Ev; [| done].
    injection Hw as <-. pose proof (ps_enums Hplain i s v Ev) as ->. rewrite coerceRuntime_eq. by rewrite Ev.
  - destruct val; try done; [by injection Hw as <-; rewrite coerceRuntime_eq | by destruct (Hm fields)].
  - destruct val; try (by destruct (Hl items));
      try (apply rbind_Ok_inv in Hw as (e & He & [= <-]); rewrite coerceRuntime_eq; simpl; by rewrite (IHt _ He)).
    injection Hw as <-. by rewrite coerceRuntime_eq.
  - destruct (is_nil val) eqn:En; [done |]. apply is_nil_false in En. rewrite coerceRuntime_eq.
    rewrite (proj2 (is_nil_false w)) by (by apply Hnn). by apply IHt.
Qed.
End Twice.

(** A variable used where its own type is declared gives exactly the value it
    was coerced to, in a schema whose enums have no Go values of their own and
    whose defaults are values of their types. *)
Theorem variable_use_exact {R} (D : typedefs R) ParseFloat undef vars x raw t w
    (Hplain : plain_schema D ParseFloat undef)
    (Hcoerced : coerceRuntime D ParseFloat undef raw t = Ok w) (Hx : assoc x vars = Some w) :
  coerceValue D ParseFloat undef vars (VVariable x) t = Ok w.
Proof.
  pose proof (coerce_again D ParseFloat undef Hplain _ _ _ Hcoerced) as Hw.
  assert (Hvar : resolveVar vars x = Ok w) by (unfold resolveVar; by rewrite Hx).
  rewrite coerceValue_eq. destruct t; rewrite Hvar; try exact Hw.
  simpl. rewrite coerceRuntime_eq in Hw. destruct (is_nil w); done.
Qed.

(** Enums with Go values cannot be passed in variables: the member's name is
    accepted when the request starts, and the value it stands for is rejected
    where the variable is used. *)
Theorem enum_variable_rejected {R} (D : typedefs R) ParseFloat undef i name v x
    (Hv : enum_value (enums D i) name = Some v) (Hgo : forall s, v <> GString s) :
  coerceRuntime D ParseFloat undef (GString name) (TyEnum i) = Ok v
  /\ coerceValue D ParseFloat undef [(x, v)] (VVariable x) (TyEnum i)
     = Err (EEnumString (e_name (enums D i)) v)
  /\ coerceValue D ParseFloat undef [] (VEnum name) (TyEnum i) = Ok v.
Proof.
  split_and!.
  - simpl. by rewrite Hv.
  - rewrite coerceValue_eq. unfold resolveVar. simpl. rewrite decide_True by done. simpl.
    rewrite coerceRuntime_eq. destruct v; try done. by destruct (Hgo s).
  - simpl. by rewrite Hv.
Qed.

(** ** Concrete schemas *)

Definition sample_color : Enum := mkEnum "Color" [("RED", GInt KInt 1); ("BLUE", GNil)].
Definition sample_filter : InputObject :=
  mkInput "Filter" [("limit", Some (mkArg (TyScalar "Int") (GInt KInt64 10)));
                    ("tags", Some (mkArg (TyNonNull (TyList (TyNonNull (TyScalar "String")))) GNil));
                    ("and", Some (mkArg (TyList (TyNonNull (TyInput 0))) GNil))].
Definition sample_defs : typedefs unit :=
  mkDefs (fun _ => sample_color) (fun _ => sample_filter) (fun _ => mkObject "Query" []).
Definition sample_plain_defs : typedefs unit :=
  mkDefs (fun _ => mkEnum "Color" [("RED", GNil)]) (fun _ => sample_filter) (fun _ => mkObject "Query" []).
Definition no_float (_ : string) : option float64 := None.
Definition no_undef (_ : float64) : Z := 0.

Definition sample_args : Args :=
  [("f", Some (mkArg (TyNonNull (TyInput 0)) GNil)); ("c", Some (mkArg (TyEnum 0) GNil))].

Definition sample_raw : list (string * value) :=
  [("c", VEnum "RED");
   ("f", VObject [("tags", VString "a"); ("and", VList [VObject [("tags", VList [VVariable "t"]); ("limit", VInt "3")]])])].

Definition sample_coerced : list (string * gval) :=
  [("f", GMap [("limit", GInt KInt64 10); ("tags", GList [GString "a"]);
               ("and", GList [GMap [("limit", GInt KInt64 3); ("tags", GList [GString "b"])]])]);
   ("c", GInt KInt 1)].

Lemma coerceArguments_typed_witness :
  coerceArguments sample_defs no_float no_undef [("t", GString "b")] sample_args sample_raw = Ok sample_coerced
  /\ fields_type sample_defs sample_args sample_coerced
  /\ (forall name, name ∈ ["c"; "f"] -> name ∈ ["f"; "c"]).
Proof.
  split; [by vm_compute |].
  apply (coerceArguments_typed sample_defs no_float no_undef [("t", GString "b")] sample_args sample_raw).
  by vm_compute.
Defined.

Definition sample_vardefs : list variableDef :=
  [mkVar "ids" (TList (TNamed "ID" true) true) VNull; mkVar "n" (TNamed "Int" false) (VInt "7")].

Lemma coerceVariables_typed_witness :
  coerceVariables sample_defs no_float no_undef [] sample_vardefs [("ids", GInt KInt 5)] []
  = Ok [("ids", GList [GString "5"]); ("n", GInt KInt64 7)]
  /\ (forall x v, assoc x [("ids", GList [GString "5"]); ("n", GInt KInt64 7)] = Some v ->
       exists d t, d ∈ sample_vardefs /\ v_name d = x /\ resolveTypeRef [] (v_typ d) = Ok t
         /\ has_type sample_defs t v)
  /\ (forall d t, d ∈ sample_vardefs -> resolveTypeRef [] (v_typ d) = Ok (TyNonNull t) ->
       is_Some (assoc (v_name d) [("ids", GList [GString "5"]); ("n", GInt KInt64 7)])).
Proof.
  split; [by vm_compute |].
  apply (coerceVariables_typed sample_defs no_float no_undef [] sample_vardefs [("ids", GInt KInt 5)]).
  by vm_compute.
Defined.

Lemma sample_plain : plain_schema sample_plain_defs no_float no_undef.
Proof.
  split.
  - intros i name v. unfold enum_value. simpl. case_decide; [by intros [= <-] | done].
  - intros i name def Hin Hd. simpl in Hin.
    rewrite !elem_of_cons in Hin. destruct Hin as [[= -> ->]|[[= -> ->]|[[= -> ->]|Hin]]]; try done.
    inversion Hin.
  - intros i. simpl. repeat (constructor; [set_solver |]). constructor.
Qed.

Lemma variable_use_exact_witness :
  coerceRuntime sample_plain_defs no_float no_undef (GList [GInt KInt 1; GString "2"]) (TyList (TyScalar "Int"))
  = Ok (GList [GInt KInt64 1; GInt KInt64 2])
  /\ coerceValue sample_plain_defs no_float no_undef [("v", GList [GInt KInt64 1; GInt KInt64 2])]
       (VVariable "v") (TyList (TyScalar "Int"))
     = Ok (GList [GInt KInt64 1; GInt KInt64 2]).
Proof.
  split; [by vm_compute |].
  apply (variable_use_exact sample_plain_defs no_float no_undef _ "v" (GList [GInt KInt 1; GString "2"]));
    [exact sample_plain | by vm_compute | by vm_compute].
Defined.

Lemma enum_variable_rejected_witness :
  coerceRuntime sample_defs no_float no_undef (GString "RED") (TyEnum 0) = Ok (GInt KInt 1)
  /\ coerceValue sample_defs no_float no_undef [("x", GInt KInt 1)] (VVariable "x") (TyEnum 0)
     = Err (EEnumString "Color" (GInt KInt 1))
  /\ coerceValue sample_defs no_float no_undef [] (VEnum "RED") (TyEnum 0) = Ok (GInt KInt 1).
Proof. by apply (enum_variable_rejected sample_defs no_float no_undef 0 "RED" (GInt KInt 1) "x"). Defined.

(** A null variable of a nullable enum type is rejected, of another nullable type
    accepted. *)
Example null_enum_variable_rejected :
  coerceRuntime sample_defs no_float no_undef GNil (TyEnum 0) = Err (EEnumString "Color" GNil)
  /\ coerceRuntime sample_defs no_float no_undef GNil (TyScalar "Int") = Ok GNil.
Proof. by split. Qed.

(** An optional variable that is declared and not given cannot be used. *)
Example omitted_variable_rejected :
  coerceVariables sample_defs no_float no_undef [] [mkVar "n" (TNamed "Int" false) VNull] [] [] = Ok []
  /\ coerceValue sample_defs no_float no_undef [] (VVariable "n") (TyScalar "Int") = Err (EVarUndefined "n").
Proof. by split. Qed.

(** Inside a literal of a custom scalar a variable is silently null. *)
Example custom_scalar_loses_variable :
  coerceValue sample_defs no_float no_undef [("x", GInt KInt64 1)] (VList [VVariable "x"]) (TyScalar "JSON")
  = Ok (GList [GNil]).
Proof. done. Qed.
