(* ===== verification/GqlCompile.v ===== *)
(** Schema compilation: [NewSchema] and [collect] of [src/graphql/schema.go].

    [collect] walks the type graph, which may be cyclic, and indexes every named
    type by its name; the index is also what stops it on a cycle.  It recurses on
    the wrappers of a type and spends fuel when it enters the fields of an input
    object or an object that is not yet indexed. *)

From Stdlib Require Import ZArith Lia Ascii.
From stdpp Require Import base gmap strings list relations numbers.
From S2P Require Import Prelude GoRt GoStrconv GqlLexer GqlParser GqlSchema.

#[local] Set Warnings "-register-all".

Inductive schema_error :=
| SNoQuery
| SNilType
| SNilField (owner name : string)
| SNilArg (owner name arg : string).

(** [cs.types]. *)
Definition index : Type := list (string * ty).

Record CompiledSchema := mkCompiled { query : nat; mutation : option nat; types : list (string * ty) }.

Section Collect.
Context {R : Type} (D : typedefs R).

Section Fields.
(** [collect] on the type of a field or an argument. *)
Context (visit : ty -> index -> option (result schema_error index)).

(** The loop over the arguments; [nil] is the error for one without a type. *)
Fixpoint collect_args (nil : string -> schema_error) (args : Args) (idx : index)
  : option (result schema_error index) :=
  match args with
  | [] => Some (Ok idx)
  | (name, None) :: _ => Some (Err (nil name))
  | (name, Some a) :: args =>
      match a_type a with
      | TyNil => Some (Err (nil name))
      | t =>
          match visit t idx with
          | Some (Ok idx) => collect_args nil args idx
          | r => r
          end
      end
  end.

Fixpoint collect_object (owner : string) (fields : list (string * option (Field R))) (idx : index)
  : option (result schema_error index) :=
  match fields with
  | [] => Some (Ok idx)
  | (name, None) :: _ => Some (Err (SNilField owner name))
  | (name, Some f) :: fields =>
      match f_type f with
      | TyNil => Some (Err (SNilField owner name))
      | t =>
          match collect_args (SNilArg owner name) (f_args f) idx with
          | Some (Ok idx) =>
              match visit t idx with
              | Some (Ok idx) => collect_object owner fields idx
              | r => r
              end
          | r => r
          end
      end
  end.
End Fields.

Fixpoint collect (fuel : nat) (t : ty) (idx : index) : option (result schema_error index) :=
  (fix go (t : ty) : option (result schema_error index) :=
     match t with
     | TyList t => go t
     | TyNonNull t => go t
     | TyScalar _ | TyEnum _ => Some (Ok (map_set (TypeName D t) t idx))
     | TyInput i =>
         match assoc (TypeName D t) idx with
         | Some _ => Some (Ok idx)
         | None =>
             match fuel with
             | O => None
             | S fuel =>
                 collect_args (collect fuel) (SNilField (i_name (inputs D i))) (i_fields (inputs D i))
                   (map_set (TypeName D t) t idx)
             end
         end
     | TyObject i =>
         match assoc (TypeName D t) idx with
         | Some _ => Some (Ok idx)
         | None =>
             match fuel with
             | O => None
             | S fuel =>
                 collect_object (collect fuel) (o_name (objects D i)) (o_fields (objects D i))
                   (map_set (TypeName D t) t idx)
             end
         end
     | TyNil => Some (Err SNilType)
     end) t.

(** [None] for the query is a nil [Query]. *)
Definition NewSchema (fuel : nat) (q m : option nat) : option (result schema_error CompiledSchema) :=
  match q with
  | None => Some (Err SNoQuery)
  | Some q =>
      match collect fuel (TyObject q) [] with
      | None => None
      | Some (Err e) => Some (Err e)
      | Some (Ok idx) =>
          match m with
          | None => Some (Ok (mkCompiled q None idx))
          | Some o =>
              match collect fuel (TyObject o) idx with
              | None => None
              | Some (Err e) => Some (Err e)
              | Some (Ok idx) => Some (Ok (mkCompiled q (Some o) idx))
              end
          end
      end
  end.

(** ** What the index must hold *)

Definition field_deps (nf : string * option (Field R)) : list (option ty) :=
  match nf.2 with
  | None => [None]
  | Some f => map (fun na => a_type <$> na.2) (f_args f) ++ [Some (f_type f)]
  end.

(** The types a named type mentions in its fields; [None] for a nil pointer. *)
Definition deps (t : ty) : list (option ty) :=
  match t with
  | TyInput i => map (fun na => a_type <$> na.2) (i_fields (inputs D i))
  | TyObject i =>
      flat_map field_deps (o_fields (objects D i))
  | _ => []
  end.

Definition indexed (idx : index) (t : ty) : Prop :=
  namedType t <> TyNil /\ assoc (TypeName D (namedType t)) idx = Some (namedType t).

(** The fields of [t] are all there, and their types indexed. *)
Definition complete (idx : index) (t : ty) : Prop :=
  forall d, d ∈ deps t -> exists u, d = Some u /\ indexed idx u.

(** The schema: a set of named types, closed under the types they mention, in
    which no two have one name. *)
Record schema_wf (U : ty -> Prop) : Prop := {
  wf_closed t u : U t -> Some u ∈ deps t -> namedType u <> TyNil -> U (namedType u);
  wf_names t u : U t -> U u -> TypeName D t = TypeName D u -> t = u;
}.

Section Spec.
Context (U : ty -> Prop) (Hwf : schema_wf U).

Definition index_ok (idx : index) : Prop :=
  forall n x, assoc n idx = Some x -> U x /\ n = TypeName D x.

Definition extends (idx idx' : index) : Prop :=
  forall n x, assoc n idx = Some x -> assoc n idx' = Some x.

(** A call that succeeds keeps the index, and completes what it adds to it. *)
Definition grows (idx idx' : index) : Prop :=
  index_ok idx' /\ extends idx idx'
  /\ (forall n x, assoc n idx' = Some x -> assoc n idx = Some x \/ complete idx' x).

Lemma extends_indexed idx idx' t : extends idx idx' -> indexed idx t -> indexed idx' t.
Proof. intros He [H1 H2]. split; [done | by apply He]. Qed.

Lemma extends_complete idx idx' t : extends idx idx' -> complete idx t -> complete idx' t.
Proof.
  intros He Hc d Hd. destruct (Hc d Hd) as (u & -> & Hu). exists u. split; [done |].
  by apply (extends_indexed idx).
Qed.

Lemma grows_refl idx : index_ok idx -> grows idx idx.
Proof. intros Hok. split_and!; [done | by intros n x | by left]. Qed.

Lemma grows_trans a b c : grows a b -> grows b c -> grows a c.
Proof.
  intros (H1 & H2 & H3) (G1 & G2 & G3). split_and!; [done | intros n x Hx; by apply G2, H2 |].
  intros n x Hx. destruct (G3 n x Hx) as [Hb|?]; [| by right].
  destruct (H3 n x Hb) as [?|Hc]; [by left | right]. by apply (extends_complete b).
Qed.

Lemma set_extends idx t :
  index_ok idx -> U t -> index_ok (map_set (TypeName D t) t idx) /\ extends idx (map_set (TypeName D t) t idx).
Proof.
  intros Hok Ht. split.
  - intros n x. rewrite assoc_map_set. case_decide as Hn; [intros [= <-]; by split | apply Hok].
  - intros n x Hx. rewrite assoc_map_set. case_decide as Hn; [| done]. f_equal.
    destruct (Hok n x Hx) as [Hu Hnx]. apply (wf_names U Hwf); [done | done | congruence].
Qed.

(** What [visit] must satisfy for the loops over fields. *)
Definition visits (visit : ty -> index -> option (result schema_error index)) : Prop :=
  forall t idx idx', U (namedType t) \/ namedType t = TyNil -> index_ok idx ->
    visit t idx = Some (Ok idx') -> grows idx idx' /\ indexed idx' t.

Lemma collect_args_step visit nil name a args idx idx' :
  collect_args visit nil ((name, Some a) :: args) idx = Some (Ok idx') ->
  exists idx1, visit (a_type a) idx = Some (Ok idx1) /\ collect_args visit nil args idx1 = Some (Ok idx').
Proof.
  cbn [collect_args]. intros H.
  destruct (a_type a); try done; destruct (visit _ idx) as [[idx1|e]|]; try done; by exists idx1.
Qed.

Lemma collect_object_step visit owner name f fields idx idx' :
  collect_object visit owner ((name, Some f) :: fields) idx = Some (Ok idx') ->
  exists idx1 idx2, collect_args visit (SNilArg owner name) (f_args f) idx = Some (Ok idx1)
    /\ visit (f_type f) idx1 = Some (Ok idx2) /\ collect_object visit owner fields idx2 = Some (Ok idx').
Proof.
  cbn [collect_object]. intros H.
  destruct (f_type f); try done; destruct (collect_args _ _ _ idx) as [[idx1|e]|]; try done;
    destruct (visit _ idx1) as [[idx2|e]|] eqn:Ev; try done; by exists idx1, idx2.
Qed.

Lemma collect_args_grows visit nil args idx idx' :
  visits visit -> index_ok idx ->
  (forall u, Some u ∈ map (fun na => a_type <$> na.2) args -> U (namedType u) \/ namedType u = TyNil) ->
  collect_args visit nil args idx = Some (Ok idx') ->
  grows idx idx'
  /\ (forall d, d ∈ map (fun na => a_type <$> na.2) args -> exists u, d = Some u /\ indexed idx' u).
Proof.
  intros Hv. revert idx. induction args as [|[name [a|]] args IH]; intros idx Hok HU; [| | done].
  { intros [= <-]. split; [by apply grows_refl | intros d Hd; inversion Hd]. }
  intros (idx1 & Ev & Hrest)%collect_args_step.
  destruct (Hv (a_type a) idx idx1) as [Hg Hin]; [apply HU; by left | done | done |].
  destruct (IH idx1) as [Hg2 Hall]; [apply Hg | intros u Hu; apply HU; by right | done |].
  split; [by eapply grows_trans |]. intros d [->|Hd]%elem_of_cons; [| by apply Hall].
  exists (a_type a). split; [done |]. by apply (extends_indexed idx1); [apply Hg2 |].
Qed.

Lemma collect_object_grows visit owner fields idx idx' :
  visits visit -> index_ok idx ->
  (forall u, Some u ∈ flat_map field_deps fields -> U (namedType u) \/ namedType u = TyNil) ->
  collect_object visit owner fields idx = Some (Ok idx') ->
  grows idx idx' /\ (forall d, d ∈ flat_map field_deps fields -> exists u, d = Some u /\ indexed idx' u).
Proof.
  intros Hv. revert idx. induction fields as [|[name [f|]] fields IH]; intros idx Hok HU; [| | done].
  { intros [= <-]. split; [by apply grows_refl | intros d Hd; inversion Hd]. }
  cbn [flat_map field_deps snd] in *.
  intros (idx1 & idx2 & Ea & Ev & Hrest)%collect_object_step.
  destruct (collect_args_grows visit (SNilArg owner name) (f_args f) idx idx1 Hv Hok) as [Hg1 Hargs];
    [intros u Hu; apply HU; rewrite !elem_of_app; by left; left | done |].
  destruct (Hv (f_type f) idx1 idx2) as [Hg2 Hin];
    [apply HU; rewrite !elem_of_app; left; right; by left | apply Hg1 | done |].
  destruct (IH idx2) as [Hg3 Hall];
    [apply Hg2 | intros u Hu; apply HU; rewrite elem_of_app; by right | done |].
  split; [exact (grows_trans _ _ _ Hg1 (grows_trans _ _ _ Hg2 Hg3)) |].
  intros d Hd. rewrite !elem_of_app in Hd. destruct Hd as [[Hd|Hd]|Hd].
  - destruct (Hargs d Hd) as (u & -> & Hu). exists u. split; [done |].
    apply (extends_indexed idx1); [| done]. intros n x Hx. by apply Hg3, Hg2.
  - apply list_elem_of_singleton in Hd as ->. exists (f_type f). split; [done |].
    by apply (extends_indexed idx2); [apply Hg3 |].
  - by apply Hall.
Qed.

(** Entering a composite type: its name is set before its fields are walked. *)
Lemma enter_grows t idx idx' :
  index_ok idx -> U t ->
  grows (map_set (TypeName D t) t idx) idx' -> complete idx' t -> namedType t = t -> t <> TyNil ->
  grows idx idx' /\ indexed idx' t.
Proof.
  intros Hok Ht (G1 & G2 & G3) Hc Hn Hnil. destruct (set_extends idx t Hok Ht) as [Hok1 He].
  assert (Hself : assoc (TypeName D t) idx' = Some t)
    by (apply G2; rewrite assoc_map_set; by rewrite decide_True).
  split; [| split; rewrite Hn; done]. split_and!; [done | intros n x Hx; by apply G2, He |].
  intros n x Hx. destruct (G3 n x Hx) as [Hset|?]; [| by right].
  rewrite assoc_map_set in Hset. case_decide; [injection Hset as <-; by right | by left].
Qed.

Lemma collect_visits fuel : visits (collect fuel).
Proof.
  induction fuel as [|fuel IH]; intros t idx idx' Ht Hok; induction t as [|s|i|i|i|t IHt|t IHt]; simpl in Ht.
  all: try (intros Hc; exact (IHt Ht Hc)).
  all: try done.
  all: destruct Ht as [Ht|]; [| done].
  all: try (intros [= <-]; destruct (set_extends idx _ Hok Ht) as [Hok1 He];
    apply (enter_grows _ idx _ Hok Ht (grows_refl _ Hok1)); try done; intros d Hd; inversion Hd).
  all: cbn [collect]; destruct (assoc (TypeName D _) idx) as [x|] eqn:Ex;
    try (intros [= <-]; split; [by apply grows_refl |]; split; [done |]; simpl in *; rewrite Ex; f_equal;
      destruct (Hok _ _ Ex) as [Hx Hn]; by apply (wf_names U Hwf)).
  all: try done.
  all: intros Hc; destruct (set_extends idx _ Hok Ht) as [Hok1 He].
  - edestruct (collect_args_grows (collect fuel)) as [Hg Hall]; [exact IH | exact Hok1 | | exact Hc |].
    { intros u Hu. destruct (decide (namedType u = TyNil)) as [|Hne]; [by right | left].
      by apply (wf_closed U Hwf (TyInput i)). }
    by apply (enter_grows _ idx).
  - edestruct (collect_object_grows (collect fuel)) as [Hg Hall]; [exact IH | exact Hok1 | | exact Hc |].
    { intros u Hu. destruct (decide (namedType u = TyNil)) as [|Hne]; [by right | left].
      by apply (wf_closed U Hwf (TyObject i)). }
    by apply (enter_grows _ idx).
Qed.

(** ** Termination *)

Context (all : list ty) (Hall : forall t, U t -> t ∈ all).

Definition unseen (idx : index) : nat :=
  length (List.filter (fun t => bool_decide (assoc (TypeName D t) idx = None)) all).

Definition keeps (idx idx' : index) : Prop :=
  forall n, is_Some (assoc n idx) -> is_Some (assoc n idx').

Lemma unseen_mono idx idx' : keeps idx idx' -> (unseen idx' <= unseen idx)%nat.
Proof.
  intros Hk. apply count_le. intros t. rewrite !bool_decide_eq_true. intros H'.
  destruct (assoc (TypeName D t) idx) as [x|] eqn:E; [| done].
  destruct (Hk (TypeName D t)) as [? ?]; [by rewrite E | congruence].
Qed.

Lemma keeps_set n t idx : keeps idx (map_set n t idx).
Proof. intros k Hk. rewrite assoc_map_set. by case_decide. Qed.

Lemma unseen_enter t idx :
  U t -> assoc (TypeName D t) idx = None -> (unseen (map_set (TypeName D t) t idx) < unseen idx)%nat.
Proof.
  intros Ht Hn. apply (count_lt _ _ _ t).
  - intros x. rewrite !bool_decide_eq_true, assoc_map_set. by case_decide.
  - by apply Hall.
  - rewrite assoc_map_set. by rewrite decide_True.
  - by apply bool_decide_eq_true.
Qed.

Lemma collect_args_eq visit nil name a args idx :
  a_type a <> TyNil ->
  collect_args visit nil ((name, Some a) :: args) idx
  = match visit (a_type a) idx with Some (Ok idx) => collect_args visit nil args idx | r => r end.
Proof. cbn [collect_args]. by destruct (a_type a). Qed.

Lemma collect_object_eq visit owner name f fields idx :
  f_type f <> TyNil ->
  collect_object visit owner ((name, Some f) :: fields) idx
  = match collect_args visit (SNilArg owner name) (f_args f) idx with
    | Some (Ok idx) =>
        match visit (f_type f) idx with Some (Ok idx) => collect_object visit owner fields idx | r => r end
    | r => r
    end.
Proof. cbn [collect_object]. by destruct (f_type f). Qed.

(** A nil pointer or a nil type among the types a definition mentions. *)
Definition bad (d : option ty) : Prop := d = None \/ exists u, d = Some u /\ namedType u = TyNil.

Definition defect : Prop := exists t d, U t /\ d ∈ deps t /\ bad d.

(** How a walk ends: it forgets no name, and fails only on a nil. *)
Definition ends (idx : index) (nils : Prop) (r : result schema_error index) : Prop :=
  match r with Ok idx' => keeps idx idx' | Err _ => nils \/ defect end.

Definition total (bound : nat) (visit : ty -> index -> option (result schema_error index)) : Prop :=
  forall t idx, U (namedType t) \/ namedType t = TyNil -> (unseen idx <= bound)%nat ->
    exists r, visit t idx = Some r /\ ends idx (namedType t = TyNil) r.

Lemma collect_args_total bound visit nil args idx :
  total bound visit -> (unseen idx <= bound)%nat ->
  (forall u, Some u ∈ map (fun na => a_type <$> na.2) args -> U (namedType u) \/ namedType u = TyNil) ->
  exists r, collect_args visit nil args idx = Some r
    /\ ends idx (exists d, d ∈ map (fun na => a_type <$> na.2) args /\ bad d) r.
Proof.
  intros Hv. revert idx. induction args as [|[name [a|]] args IH]; intros idx Hb HU.
  - exists (Ok idx). by split; [| intros n Hn].
  - destruct (decide (a_type a = TyNil)) as [Hnil|Hne].
    { cbn [collect_args]. rewrite Hnil. eexists. split; [done |]. left. exists (Some (a_type a)).
      split; [by left | right; by exists (a_type a); rewrite Hnil]. }
    rewrite collect_args_eq by done.
    destruct (Hv (a_type a) idx) as (r & Hr & Hk); [apply HU; by left | done |]. rewrite Hr.
    destruct r as [idx1|e]; simpl in Hk.
    + destruct (IH idx1) as (r0 & Hr0 & Hk0);
        [pose proof (unseen_mono _ _ Hk); lia | intros u Hu; apply HU; by right |].
      exists r0. split; [done |]. destruct r0 as [idx'|e]; simpl in *; [intros n Hn; by apply Hk0, Hk |].
      destruct Hk0 as [(d & Hd & Hbd)|?]; [left; exists d; split; [by right | done] | by right].
    + eexists. split; [done |]. simpl. destruct Hk as [Hk|?]; [left | by right].
      exists (Some (a_type a)). split; [by left | right; by exists (a_type a)].
  - eexists. split; [done |]. left. exists None. split; [by left | by left].
Qed.

Lemma collect_object_total bound visit owner fields idx :
  total bound visit -> (unseen idx <= bound)%nat ->
  (forall u, Some u ∈ flat_map field_deps fields -> U (namedType u) \/ namedType u = TyNil) ->
  exists r, collect_object visit owner fields idx = Some r
    /\ ends idx (exists d, d ∈ flat_map field_deps fields /\ bad d) r.
Proof.
  intros Hv. revert idx. induction fields as [|[name [f|]] fields IH]; intros idx Hb HU.
  - exists (Ok idx). by split; [| intros n Hn].
  - cbn [flat_map field_deps snd] in HU |- *.
    assert (Htype : Some (f_type f) ∈ (map (fun na => a_type <$> na.2) (f_args f) ++ [Some (f_type f)])
      ++ flat_map field_deps fields) by (rewrite !elem_of_app; left; right; by left).
    destruct (decide (f_type f = TyNil)) as [Hnil|Hne].
    { cbn [collect_object]. rewrite Hnil. eexists. split; [done |]. left. exists (Some (f_type f)).
      split; [by rewrite Hnil in Htype |- * | right; by exists (f_type f); rewrite Hnil]. }
    rewrite collect_object_eq by done.
    destruct (collect_args_total bound visit (SNilArg owner name) (f_args f) idx Hv Hb) as (r & Hr & Hk);
      [intros u Hu; apply HU; rewrite !elem_of_app; by left; left |].
    rewrite Hr. destruct r as [idx1|e]; simpl in Hk.
    2: { eexists. split; [done |]. simpl. destruct Hk as [(d & Hd & Hbd)|?]; [left | by right].
         exists d. split; [rewrite !elem_of_app; by left; left | done]. }
    pose proof (unseen_mono _ _ Hk) as Hm.
    destruct (Hv (f_type f) idx1) as (r1 & Hr1 & Hk1); [by apply HU | lia |].
    rewrite Hr1. destruct r1 as [idx2|e]; simpl in Hk1.
    2: { eexists. split; [done |]. simpl. destruct Hk1 as [Hk1|?]; [left | by right].
         exists (Some (f_type f)). split; [done | right; by exists (f_type f)]. }
    pose proof (unseen_mono _ _ Hk1) as Hm1.
    destruct (IH idx2) as (r0 & Hr0 & Hk0); [lia | intros u Hu; apply HU; rewrite elem_of_app; by right |].
    exists r0. split; [done |]. destruct r0 as [idx'|e]; simpl in *; [intros n Hn; by apply Hk0, Hk1, Hk |].
    destruct Hk0 as [(d & Hd & Hbd)|?]; [left; exists d; split; [rewrite elem_of_app; by right | done] | by right].
  - eexists. split; [done |]. left. exists None. split; [by left | by left].
Qed.

(** A composite type the index does not hold: its name is set, and its fields
    are walked with the fuel left. *)
Lemma enter_ends t idx (r : result schema_error index) :
  U t -> ends (map_set (TypeName D t) t idx) (exists d, d ∈ deps t /\ bad d) r ->
  ends idx (namedType t = TyNil) r.
Proof.
  intros Ht. destruct r as [idx'|e]; simpl.
  - intros Hk n Hn. by apply Hk, keeps_set.
  - intros [(d & Hd & Hbd)|?]; right; [by exists t, d | done].
Qed.

Lemma collect_total fuel : total fuel (collect fuel).
Proof.
  induction fuel as [|fuel IH]; intros t idx Ht Hb; induction t as [|s|i|i|i|t IHt|t IHt]; simpl in Ht.
  all: try exact (IHt Ht).
  all: try (eexists; split; [done |]; by left).
  all: destruct Ht as [Ht|]; [| done].
  all: try (eexists; split; [done |]; apply keeps_set).
  all: cbn [collect]; destruct (assoc (TypeName D _) idx) as [x|] eqn:Ex;
    try (eexists; split; [done |]; intros n Hn; done).
  all: pose proof (unseen_enter _ idx Ht Ex) as Hlt.
  1-2: lia.
  - destruct (collect_args_total fuel (collect fuel) (SNilField (i_name (inputs D i))) (i_fields (inputs D i))
      (map_set (TypeName D (TyInput i)) (TyInput i) idx) IH) as (r & Hr & Hk); [lia | |].
    { intros u Hu. destruct (decide (namedType u = TyNil)) as [|Hne]; [by right | left].
      by apply (wf_closed U Hwf (TyInput i)). }
    exists r. split; [done |]. by apply (enter_ends (TyInput i)).
  - destruct (collect_object_total fuel (collect fuel) (o_name (objects D i)) (o_fields (objects D i))
      (map_set (TypeName D (TyObject i)) (TyObject i) idx) IH) as (r & Hr & Hk); [lia | |].
    { intros u Hu. destruct (decide (namedType u = TyNil)) as [|Hne]; [by right | left].
      by apply (wf_closed U Hwf (TyObject i)). }
    exists r. split; [done |]. by apply (enter_ends (TyObject i)).
Qed.

(** ** The compiled schema *)

(** Some field or argument of [t] has a type built on [u]. *)
Definition mentions (t u : ty) : Prop := exists d, Some d ∈ deps t /\ namedType d = u.

Definition root_of (q : nat) (m : option nat) (t : ty) : Prop :=
  t = TyObject q \/ exists o, m = Some o /\ t = TyObject o.

Lemma index_reachable idx t u :
  (forall n x, assoc n idx = Some x -> complete idx x) -> assoc (TypeName D t) idx = Some t ->
  rtc mentions t u -> assoc (TypeName D u) idx = Some u /\ complete idx u.
Proof.
  intros Hc Ht Hr. induction Hr as [t|t x u (d & Hd & <-) _ IH]; [split; [done | by eapply Hc] |].
  apply IH. destruct (Hc _ _ Ht _ Hd) as (y & [= <-] & Hy). apply Hy.
Qed.

Lemma NewSchema_spec fuel q m :
  (length all <= fuel)%nat -> (forall t, root_of q m t -> U t) ->
  exists r, NewSchema fuel (Some q) m = Some r /\
    match r with
    | Ok cs => query cs = q /\ mutation cs = m /\
        (forall n x, assoc n (types cs) = Some x -> complete (types cs) x) /\
        (forall t, root_of q m t -> indexed (types cs) t)
    | Err _ => defect
    end.
Proof.
  intros Hf HU. assert (Hb : forall idx, (unseen idx <= fuel)%nat).
  { intros idx. etrans; [| exact Hf]. apply List.filter_length_le. }
  assert (Hroot : forall t, root_of q m t -> U (namedType t) /\ namedType t = t).
  { intros t Ht. pose proof (HU t Ht). by destruct Ht as [->|(o & _ & ->)]. }
  unfold NewSchema. destruct (Hroot (TyObject q)) as [Hq _]; [by left |].
  destruct (collect_total fuel (TyObject q) [] (or_introl Hq) (Hb _)) as (r & Hr & He). rewrite Hr.
  destruct r as [idx|e]; [| eexists; split; [done |]; by destruct He].
  assert (Hok0 : index_ok []) by done.
  destruct (collect_visits fuel (TyObject q) [] idx (or_introl Hq) Hok0 Hr) as [(Hok & _ & Hc) Hi].
  assert (Hc' : forall n x, assoc n idx = Some x -> complete idx x) by (intros n x Hx; by destruct (Hc n x Hx)).
  destruct m as [o|].
  2: { eexists. split; [done |]. split_and!; [done | done | exact Hc' |].
       intros t [->|(o & Ho & _)]; done. }
  destruct (Hroot (TyObject o)) as [Ho _]; [right; by exists o |].
  destruct (collect_total fuel (TyObject o) idx (or_introl Ho) (Hb _)) as (r & Hr2 & He2). rewrite Hr2.
  destruct r as [idx2|e]; [| eexists; split; [done |]; by destruct He2].
  destruct (collect_visits fuel (TyObject o) idx idx2 (or_introl Ho) Hok Hr2) as [(_ & Hext & Hc2) Hi2].
  eexists. split; [done |]. split_and!; [done | done | |].
  - intros n x Hx. destruct (Hc2 n x Hx) as [Hold|?]; [| done].
    apply (extends_complete idx); [done | by eapply Hc'].
  - intros t [->|(o' & [= <-] & ->)]; [by apply (extends_indexed idx) | done].
Qed.
End Spec.
End Collect.

(** Compiling a schema ends on every finite schema, cyclic or not, and fails
    only when a type, a field or an argument is nil.  When it succeeds, every type
    reachable from the roots is indexed under its name, with all its fields. *)
Theorem NewSchema_checks {R} (D : typedefs R) (U : ty -> Prop) all fuel q m
    (Hwf : schema_wf D U) (Hall : forall t, U t -> t ∈ all) (Hfuel : (length all <= fuel)%nat)
    (Hroots : forall t, root_of q m t -> U t) :
  exists r, NewSchema D fuel (Some q) m = Some r /\
    match r with
    | Ok cs => query cs = q /\ mutation cs = m /\
        forall root t, root_of q m root -> rtc (mentions D) root t ->
          assoc (TypeName D t) (types cs) = Some t /\ complete D (types cs) t
    | Err _ => defect D U
    end.
Proof.
  destruct (NewSchema_spec D U Hwf all Hall fuel q m Hfuel Hroots) as (r & Hr & Hs).
  exists r. split; [done |]. destruct r as [cs|e]; [| done].
  destruct Hs as (Hq & Hm & Hc & Hi). split_and!; [done | done |]. intros root t Hroot Ht.
  apply (index_reachable D (types cs) root); [done | | done].
  destruct (Hi root Hroot) as [_ Hin]. by destruct Hroot as [->|(o & _ & ->)].
Qed.

(** A schema whose types refer to each other. *)
Definition cyclic_defs : typedefs unit :=
  mkDefs (fun _ => mkEnum "Color" [("RED", GNil)])
    (fun _ => mkInput "Filter" [("and", Some (mkArg (TyList (TyInput 0)) GNil))])
    (fun i => match i with
              | O => mkObject "Query"
                  [("user", Some (mkFieldDef (TyNonNull (TyObject 1)) [("by", Some (mkArg (TyInput 0) GNil))] None))]
              | _ => mkObject "User"
                  [("friends", Some (mkFieldDef (TyList (TyObject 1)) [] None));
                   ("color", Some (mkFieldDef (TyEnum 0) [] None))]
              end).

Definition cyclic_types : list ty := [TyObject 0; TyObject 1; TyInput 0; TyEnum 0].

Lemma cyclic_wf : schema_wf cyclic_defs (fun t => t ∈ cyclic_types).
Proof.
  split.
  - intros t u Ht Hu _. unfold cyclic_types in Ht. rewrite !elem_of_cons in Ht.
    destruct Ht as [->|[->|[->|[->|Ht]]]]; [| | | | by inversion Ht]; simpl in Hu; set_solver.
  - intros t u Ht Hu. unfold cyclic_types in Ht, Hu. rewrite !elem_of_cons in Ht, Hu.
    destruct Ht as [->|[->|[->|[->|Ht]]]]; [| | | | by inversion Ht];
      destruct Hu as [->|[->|[->|[->|Hu]]]]; try done; by inversion Hu.
Qed.

Lemma NewSchema_checks_witness :
  exists r, NewSchema cyclic_defs 4 (Some 0%nat) None = Some r /\
    match r with
    | Ok cs => query cs = 0%nat /\ mutation cs = None /\
        forall root t, root_of 0%nat None root -> rtc (mentions cyclic_defs) root t ->
          assoc (TypeName cyclic_defs t) (types cs) = Some t /\ complete cyclic_defs (types cs) t
    | Err _ => defect cyclic_defs (fun t => t ∈ cyclic_types)
    end.
Proof.
  refine (NewSchema_checks cyclic_defs (fun t => t ∈ cyclic_types) cyclic_types 4 0 None cyclic_wf _ _ _).
  - done.
  - done.
  - intros t [->|(o & Ho & _)]; [by left | done].
Defined.

Example cyclic_compiles :
  NewSchema cyclic_defs 4 (Some 0%nat) None
  = Some (Ok (mkCompiled 0 None [("Query", TyObject 0); ("Filter", TyInput 0); ("User", TyObject 1); ("Color", TyEnum 0)])).
Proof. by vm_compute. Qed.

(** Two definitions that share a name: the second is silently never checked. *)
Example shared_name_unchecked :
  let D := mkDefs (fun _ => mkEnum "E" []) (fun _ => mkInput "I" [])
             (fun i => match i with
                       | O => mkObject "Query" [("a", Some (@mkFieldDef unit (TyObject 1) [] None));
                                                ("b", Some (mkFieldDef (TyObject 2) [] None))]
                       | 1%nat => mkObject "Same" []
                       | _ => mkObject "Same" [("broken", None)]
                       end) in
  NewSchema D 4 (Some 0%nat) None
  = Some (Ok (mkCompiled 0 None [("Query", TyObject 0); ("Same", TyObject 1)])).
Proof. by vm_compute. Qed.
