(* ===== verification/GqlExec.v ===== *)
(** Execution of GraphQL requests: [ExecuteWithLimits] and the executor of
    [src/graphql/execute.go].

    The mutable [executor] (the errors and the [bubble] flag) is threaded
    through a state monad together with a [world] the resolvers may change; a
    resolver may return an error or panic.  A response value is a [gval], as in
    the source; a response object is the list of its keys.

    The executor recurses on the selections, on the types and list elements of a
    field's value, and through a closure at a fragment spread, which spends fuel:
    the number of fragments is enough on the documents [checkRequest] lets
    through. *)

From Stdlib Require Import ZArith Lia Ascii.
From stdpp Require Import base gmap strings list relations numbers.
From S2P Require Import Prelude GoRt GoStrconv GqlLexer GqlParser GqlLimits GqlSchema GqlCompile.

#[local] Open Scope lago_scope.

(** ** Errors and responses *)

(** One step of a response path. *)
Inductive seg := Key (k : string) | Index (i : nat).

Inductive xerror (E : Type) :=
| XNilSchema
| XRequest (e : request_error)
| XNoMutation
| XVariables (e : cerror)
| XUnknownFragment (name : string)
| XCannotQuery (field owner : string)
| XArguments (field : string) (e : cerror)
| XResolver (e : E)
| XNonNull (ty : string)
| XExpectedList (ty : string) (got : gval).
Arguments XNilSchema {E}.
Arguments XRequest {E} e.
Arguments XNoMutation {E}.
Arguments XVariables {E} e.
Arguments XUnknownFragment {E} name.
Arguments XCannotQuery {E} field owner.
Arguments XArguments {E} field e.
Arguments XResolver {E} e.
Arguments XNonNull {E} ty.
Arguments XExpectedList {E} ty got.

Record GqlError (E : Type) := mkError { Message : xerror E; Path : list seg }.
Arguments mkError {E} Message Path.
Arguments Message {E} _.
Arguments Path {E} _.

(** The ways an execution can panic: a resolver that does, a nil in the schema,
    [reflect] on an unexported field. *)
Inductive panic (E : Type) :=
| PResolver (e : E)
| PNil
| PUnexported (field : string).
Arguments PResolver {E} e.
Arguments PNil {E}.
Arguments PUnexported {E} field.

Record Request := mkRequest {
  Query : string; OperationName : string; Variables : list (string * gval); Root : gval }.

(** [None] is the nil [Data] of a request that did not begin, [Some None] the
    nil map of an execution whose root became null. *)
Record Response (E : Type) := mkResponse {
  Data : option (option (list (string * gval))); Errors : list (GqlError E) }.
Arguments mkResponse {E} Data Errors.
Arguments Data {E} _.
Arguments Errors {E} _.

(** ** Leaves *)

Section Leaves.
Context (undef : float64 -> Z).
(** [fmt.Sprintf("%v", v)]. *)
Context (sprint : gval -> string).

Definition serializeLeaf (val : gval) : gval :=
  match val with
  | GNil | GString _ | GBool _ | GInt _ _ | GFloat _ | GFloat32 _ => val
  | _ => match stringer val with Some s => GString s | None => GString (sprint val) end
  end.

Definition serializeScalar (name : string) (val : gval) : gval :=
  if bool_decide (name = "Int") then
    match val with
    | GInt _ n => GInt KInt64 n
    | GFloat f => GInt KInt64 (int64_of_float undef f)
    | _ => val
    end
  else if bool_decide (name = "Float") then
    match val with
    | GFloat f => GFloat f
    | GFloat32 f => GFloat f
    | GInt KInt n => GFloat (float_of_Z n)
    | GInt KInt64 n => GFloat (float_of_Z n)
    | _ => val
    end
  else if bool_decide (name = "Boolean") then
    match val with GBool b => GBool b | _ => val end
  else if bool_decide (name = "String") || bool_decide (name = "ID") then
    match val with
    | GString s => GString s
    | _ => match stringer val with Some s => GString s | None => serializeLeaf val end
    end
  else val.
End Leaves.

(** ** Default resolution *)

(** The text before the first comma. *)
Fixpoint tag_head (tag : string) : string :=
  match tag with
  | EmptyString => EmptyString
  | String c tag => if bool_decide (c = ","%char) then EmptyString else String c (tag_head tag)
  end.

Definition tagMatches (tag name : string) : bool :=
  if bool_decide (tag = EmptyString) then false else bool_decide (tag_head tag = name).

Definition lower_ascii (c : ascii) : ascii :=
  let n := nat_of_ascii c in
  if (65 <=? n)%nat && (n <=? 90)%nat then ascii_of_nat (n + 32) else c.

Fixpoint equalFold (a b : string) : bool :=
  match a, b with
  | EmptyString, EmptyString => true
  | String ca a, String cb b => bool_decide (lower_ascii ca = lower_ascii cb) && equalFold a b
  | _, _ => false
  end.

(** Follow pointers; [None] at a nil one. *)
Fixpoint deref (v : gval) : option gval :=
  match v with
  | GPtr _ None => None
  | GPtr _ (Some t) => deref t
  | v => Some v
  end.

(** [FieldByName], on a struct without embedded fields. *)
Definition field_by_name (name : string) (fields : list (field_info * gval)) : option (field_info * gval) :=
  List.find (fun fv => bool_decide (fi_name fv.1 = name)) fields.

Definition field_matches (name : string) (f : field_info) : bool :=
  fi_exported f && (tagMatches (fi_graphql f) name || tagMatches (fi_json f) name || equalFold (fi_name f) name).

(** An [Err] is the panic of [Interface] on the unexported field it names. *)
Definition defaultResolve (parent : gval) (name : string) : result string gval :=
  match parent with
  | GNil => Ok GNil
  | GMap m => Ok (default GNil (assoc name m))
  | _ =>
      match deref parent with
      | Some (GStruct _ fields) =>
          match field_by_name name fields with
          | Some (f, v) => if fi_exported f then Ok v else Err (fi_name f)
          | None =>
              match List.find (fun fv => field_matches name fv.1) fields with
              | Some (_, v) => Ok v
              | None => Ok GNil
              end
          end
      | _ => Ok GNil
      end
  end.

(** ** The executor *)

(** The errors of coercion that stand for a panic on a nil [Type]. *)
Fixpoint nil_type (e : cerror) : bool :=
  match e with ENilType => true | EIn _ _ e => nil_type e | _ => false end.

Definition response_key (alias name : string) : string :=
  if bool_decide (alias = EmptyString) then name else alias.

Section Executor.
(** What resolvers may change, and their errors. *)
Context {W E : Type}.

Definition ResolveFunc : Type := W -> gval -> ArgValues -> GoRt.outcome gval E * W.

(** [executor]: [errs] and [bubble]. *)
Record exec := mkExec { errs : list (GqlError E); bubble : bool; world : W }.

Inductive run (A : Type) :=
| Done (a : A) (s : exec)
| Panicked (r : panic E)
| OutOfFuel.
Arguments Done {A} a s.
Arguments Panicked {A} r.
Arguments OutOfFuel {A}.

Definition M (A : Type) : Type := exec -> run A.

#[export] Instance M_ret : MRet M := fun A a s => Done a s.
#[export] Instance M_bind : MBind M := fun A B k m s =>
  match m s with
  | Done a s => k a s
  | Panicked r => Panicked r
  | OutOfFuel => OutOfFuel
  end.

Definition panics {A} (r : panic E) : M A := fun _ => Panicked r.

Definition addError (path : list seg) (e : xerror E) : M unit := fun s =>
  Done tt (mkExec (errs s ++ [mkError e path]) (bubble s) (world s)).

Definition get_bubble : M bool := fun s => Done (bubble s) s.
Definition set_bubble (b : bool) : M unit := fun s => Done tt (mkExec (errs s) b (world s)).

Definition call (r : ResolveFunc) (parent : gval) (args : ArgValues) : M (result E gval) := fun s =>
  match r (world s) parent args with
  | (Return v None, w) => Done (Ok v) (mkExec (errs s) (bubble s) w)
  | (Return _ (Some e), w) => Done (Err e) (mkExec (errs s) (bubble s) w)
  | (Panic e, _) => Panicked (PResolver e)
  end.

Context (D : typedefs ResolveFunc) (ParseFloat : string -> option float64) (undef : float64 -> Z).
Context (sprint : gval -> string).
(** [ex.vars] and [ex.doc]. *)
Context (vars : list (string * gval)) (doc : document).

Definition fields_map : Type := list (string * gval).

Definition resolveValue (def : Field ResolveFunc) (name : string) (parent : gval) (args : ArgValues)
  : M (result E gval) :=
  match f_resolve def with
  | Some r => call r parent args
  | None =>
      match defaultResolve parent name with
      | Ok v => mret (Ok v)
      | Err f => panics (PUnexported f)
      end
  end.

Section Complete.
(** [executeSelectionSet] on the selection set of the field being completed. *)
Context (object : nat -> gval -> list seg -> M (option fields_map)).

(** The loop over the elements of a list, which stops at one that bubbles. *)
Fixpoint complete_items (complete : gval -> list seg -> M (gval * bool)) (path : list seg) (i : nat)
    (items : list gval) : M (option (list gval)) :=
  match items with
  | [] => mret (Some [])
  | x :: items =>
      eb ← complete x (path ++ [Index i]);
      if eb.2 : bool then mret None
      else rest ← complete_items complete path (S i) items; mret ((fun l => eb.1 :: l) <$> rest)
  end.

Fixpoint completeValue (t : ty) (val : gval) (path : list seg) : M (gval * bool) :=
  match t with
  | TyNonNull t' =>
      rb ← completeValue t' val path;
      if rb.2 : bool then mret (GNil, true)
      else if is_nil rb.1 then _ ← addError path (XNonNull (TypeName D t)); mret (GNil, true)
      else mret (rb.1, false)
  | TyList t' =>
      match val with
      | GNil => mret (GNil, false)
      | GList items =>
          out ← complete_items (completeValue t') path 0 items;
          mret (match out with Some out => (GList out, false) | None => (GNil, true) end)
      | _ => _ ← addError path (XExpectedList (TypeName D t) val); mret (GNil, false)
      end
  | TyObject i =>
      match val with
      | GNil => mret (GNil, false)
      | _ =>
          out ← object i val path;
          mret (match out with Some out => (GMap out, false) | None => (GNil, true) end)
      end
  | TyEnum _ => mret (serializeLeaf sprint val, false)
  | TyScalar s =>
      match val with GNil => mret (GNil, false) | _ => mret (serializeScalar undef sprint s val, false) end
  | TyInput _ | TyNil => mret (val, false)
  end.

Definition resolveField (obj : nat) (alias name : string) (fargs : list (string * value))
    (parent : gval) (path : list seg) (out : fields_map) : M fields_map :=
  let key := response_key alias name in
  let fpath := path ++ [Key key] in
  if bool_decide (name = "__typename") then mret (map_set key (GString (o_name (objects D obj))) out)
  else
    match assoc name (o_fields (objects D obj)) with
    | None =>
        _ ← addError fpath (XCannotQuery name (o_name (objects D obj)));
        mret (map_set key GNil out)
    | Some None => panics PNil
    | Some (Some def) =>
        match coerceArguments D ParseFloat undef vars (f_args def) fargs with
        | Err e =>
            if nil_type e then panics PNil
            else _ ← addError fpath (XArguments name e); mret (map_set key GNil out)
        | Ok args =>
            let fieldNonNull := is_NonNull (f_type def) in
            val ← resolveValue def name parent args;
            match val with
            | Err e =>
                _ ← addError fpath (XResolver e);
                _ ← (if fieldNonNull : bool then set_bubble true else mret tt);
                mret (map_set key GNil out)
            | Ok val =>
                rb ← completeValue (f_type def) val fpath;
                if rb.2 : bool then
                  _ ← (if fieldNonNull : bool then set_bubble true else mret tt);
                  mret (map_set key GNil out)
                else mret (map_set key rb.1 out)
            end
        end
    end.
End Complete.

Definition fragmentApplies (obj : nat) (typeOn : string) : bool :=
  bool_decide (typeOn = EmptyString) || bool_decide (typeOn = o_name (objects D obj)).

(** The part of [executeSelectionSet] around [collectFields]: the flag is scoped. *)
Definition scoped (body : M fields_map) : M (option fields_map) :=
  saved ← get_bubble;
  _ ← set_bubble false;
  out ← body;
  bubbled ← get_bubble;
  _ ← set_bubble saved;
  mret (if bubbled : bool then None else Some out).

Section Collect.
(** What happens at a spread. *)
Context (spread : string -> nat -> gval -> list seg -> fields_map -> M fields_map).

Fixpoint collect_selection (s : selection) (obj : nat) (parent : gval) (path : list seg) (out : fields_map)
  : M fields_map :=
  let collectFields := fix collectFields (sels : list selection) (obj : nat) (parent : gval)
      (path : list seg) (out : fields_map) : M fields_map :=
    match sels with
    | [] => mret out
    | s :: sels => out ← collect_selection s obj parent path out; collectFields sels obj parent path out
    end in
  match s with
  | SField alias name fargs sel =>
      resolveField (fun obj parent path => scoped (collectFields sel obj parent path []))
        obj alias name fargs parent path out
  | SInline typeOn sel =>
      if fragmentApplies obj typeOn then collectFields sel obj parent path out else mret out
  | SSpread name =>
      if bool_decide (name = EmptyString) then mret out else spread name obj parent path out
  end.

Fixpoint collectFields (sels : list selection) (obj : nat) (parent : gval) (path : list seg)
    (out : fields_map) : M fields_map :=
  match sels with
  | [] => mret out
  | s :: sels => out ← collect_selection s obj parent path out; collectFields sels obj parent path out
  end.
End Collect.

Fixpoint spread_fields (n : nat) (name : string) (obj : nat) (parent : gval) (path : list seg)
    (out : fields_map) : M fields_map :=
  match fragments doc !! name with
  | None => _ ← addError path (XUnknownFragment name); mret (map_set name GNil out)
  | Some frag =>
      if fragmentApplies obj (fr_typeOn frag) then
        match n with
        | O => fun _ => OutOfFuel
        | S n => collectFields (spread_fields n) (fr_selSet frag) obj parent path out
        end
      else mret out
  end.

Definition executeSelectionSet (n : nat) (obj : nat) (sels : list selection) (parent : gval) (path : list seg)
  : M (option fields_map) :=
  scoped (collectFields (spread_fields n) sels obj parent path []).
End Executor.

Arguments exec W E : clear implicits.
Arguments mkExec {W E} errs bubble world.
Arguments Done {W E A} a s.
Arguments Panicked {W E A} r.
Arguments OutOfFuel {W E A}.
Arguments ResolveFunc W E : clear implicits.

(** ** Requests *)

Section Execute.
Context {W E : Type}.
Context (uni_letter uni_digit : Z -> bool).
Context (D : typedefs (ResolveFunc W E)) (ParseFloat : string -> option float64) (undef : float64 -> Z).
Context (sprint : gval -> string).

Definition rejected (e : xerror E) (w : W) : run (W := W) (E := E) (Response E) :=
  Done (mkResponse None [mkError e []]) (mkExec [] false w).

Definition ExecuteWithLimits (cs : option CompiledSchema) (req : Request) (limits : Limits) (w : W)
  : run (W := W) (Response E) :=
  match cs with
  | None => rejected XNilSchema w
  | Some cs =>
      match checkRequest uni_letter uni_digit limits (Query req) (OperationName req) with
      | None => OutOfFuel
      | Some (Err e) => rejected (XRequest e) w
      | Some (Ok (doc, op)) =>
          match (match op_kind op with opQuery => Some (query cs) | opMutation => mutation cs end) with
          | None => rejected XNoMutation w
          | Some root =>
              match coerceVariables D ParseFloat undef (types cs) (op_variables op) (Variables req) [] with
              | Err e => if nil_type e then Panicked PNil else rejected (XVariables e) w
              | Ok vars =>
                  match executeSelectionSet D ParseFloat undef sprint vars doc (size (fragments doc))
                          root (op_selSet op) (Root req) [] (mkExec [] false w) with
                  | Done data s => Done (mkResponse (Some data) (errs s)) s
                  | Panicked r => Panicked r
                  | OutOfFuel => OutOfFuel
                  end
              end
          end
      end
  end.

Definition Execute (cs : option CompiledSchema) (req : Request) (w : W) : run (W := W) (Response E) :=
  ExecuteWithLimits cs req DefaultLimits w.
End Execute.

(** ** What a response is *)

Definition key_of (s : selection) : string :=
  match s with SField alias name _ _ => response_key alias name | SSpread name => name | SInline _ _ => EmptyString end.

(** A JSON scalar. *)
Definition is_leaf (v : gval) : bool :=
  match v with GNil | GString _ | GBool _ | GInt _ _ | GFloat _ | GFloat32 _ => true | _ => false end.

(** What a serialised scalar looks like: the numbers are converted, the rest of
    what a resolver may return for an [Int], a [Float] or a [Boolean] is passed
    through. *)
Definition scalar_shape (s : string) (v : gval) : bool :=
  if bool_decide (s = "Int") then
    match v with GInt KInt64 _ => true | GInt _ _ | GFloat _ => false | _ => true end
  else if bool_decide (s = "Float") then
    match v with GFloat _ => true | GFloat32 _ | GInt KInt _ | GInt KInt64 _ => false | _ => true end
  else if bool_decide (s = "String") || bool_decide (s = "ID") then is_leaf v
  else true.

Section Conforms.
Context {W E : Type} (D : typedefs (ResolveFunc W E)) (doc : document).

(** The fields (and the unknown fragments) a selection set comes to on an object
    of type [obj], its fragments expanded. *)
Inductive selects (obj : nat) : list selection -> selection -> Prop :=
| sel_field alias name fargs sel sels :
    SField alias name fargs sel ∈ sels -> selects obj sels (SField alias name fargs sel)
| sel_inline typeOn sel sels s :
    SInline typeOn sel ∈ sels -> fragmentApplies D obj typeOn = true -> selects obj sel s -> selects obj sels s
| sel_spread name frag sels s :
    SSpread name ∈ sels -> name <> EmptyString -> fragments doc !! name = Some frag ->
    fragmentApplies D obj (fr_typeOn frag) = true -> selects obj (fr_selSet frag) s -> selects obj sels s
| sel_unknown name sels :
    SSpread name ∈ sels -> name <> EmptyString -> fragments doc !! name = None -> selects obj sels (SSpread name).

(** [conforms F t sels path v]: the value [v] at [path] is one of type [t],
    selected by [sels], in a response with the errors [F].  A null stands only
    where the type allows it.  [entry] is one key of a response object: the
    fields that are null without regard to their type are the unknown ones and
    the ones whose arguments are wrong, and each has its error. *)
Inductive conforms (F : list (GqlError E)) : ty -> list selection -> list seg -> gval -> Prop :=
| C_null t sels path : is_NonNull t = false -> conforms F t sels path GNil
| C_nonnull t sels path v : v <> GNil -> conforms F t sels path v -> conforms F (TyNonNull t) sels path v
| C_list t sels path items :
    (forall i v, items !! i = Some v -> conforms F t sels (path ++ [Index i]) v) ->
    conforms F (TyList t) sels path (GList items)
| C_object i sels path m :
    (forall k v, assoc k m = Some v -> entry F i sels path k v) ->
    (forall s, selects i sels s -> is_Some (assoc (key_of s) m)) ->
    conforms F (TyObject i) sels path (GMap m)
| C_scalar s sels path v : v <> GNil -> scalar_shape s v = true -> conforms F (TyScalar s) sels path v
| C_enum i sels path v : v <> GNil -> is_leaf v = true -> conforms F (TyEnum i) sels path v
| C_input i sels path v : conforms F (TyInput i) sels path v
| C_none sels path v : conforms F TyNil sels path v
with entry (F : list (GqlError E)) : nat -> list selection -> list seg -> string -> gval -> Prop :=
| E_typename obj sels path alias fargs sel :
    selects obj sels (SField alias "__typename" fargs sel) ->
    entry F obj sels path (response_key alias "__typename") (GString (o_name (objects D obj)))
| E_fragment obj sels path name :
    selects obj sels (SSpread name) -> mkError (XUnknownFragment name) path ∈ F ->
    entry F obj sels path name GNil
| E_unknown obj sels path alias name fargs sel :
    selects obj sels (SField alias name fargs sel) -> assoc name (o_fields (objects D obj)) = None ->
    mkError (XCannotQuery name (o_name (objects D obj))) (path ++ [Key (response_key alias name)]) ∈ F ->
    entry F obj sels path (response_key alias name) GNil
| E_arguments obj sels path alias name fargs sel def e :
    selects obj sels (SField alias name fargs sel) ->
    assoc name (o_fields (objects D obj)) = Some (Some def) ->
    mkError (XArguments name e) (path ++ [Key (response_key alias name)]) ∈ F ->
    entry F obj sels path (response_key alias name) GNil
| E_value obj sels path alias name fargs sel def v :
    selects obj sels (SField alias name fargs sel) ->
    assoc name (o_fields (objects D obj)) = Some (Some def) ->
    conforms F (f_type def) sel (path ++ [Key (response_key alias name)]) v ->
    entry F obj sels path (response_key alias name) v.

Lemma selects_app obj a b s : selects obj (a ++ b) s -> selects obj a s \/ selects obj b s.
Proof.
  intros H. inversion H as [? ? ? ? ? Hin|? ? ? ? Hin Ha Hs|? ? ? ? Hin Hn Hf Ha Hs|? ? Hin Hn Hf]; subst;
    apply elem_of_app in Hin as [Hin|Hin];
    [left; by constructor | right; by constructor | left; by eapply sel_inline | right; by eapply sel_inline
    | left; by eapply sel_spread | right; by eapply sel_spread | left; by constructor | right; by constructor].
Qed.

Lemma selects_none obj y : ~ selects obj [] y.
Proof. intros H. inversion H as [? ? ? ? ? Hin|? ? ? ? Hin|? ? ? ? Hin|? ? Hin]; subst; inversion Hin. Qed.

(** What one selection selects. *)
Lemma selects_one obj x y :
  selects obj [x] y <->
  match x with
  | SField _ _ _ _ => y = x
  | SInline typeOn sel => fragmentApplies D obj typeOn = true /\ selects obj sel y
  | SSpread name =>
      name <> EmptyString /\
      match fragments doc !! name with
      | None => y = x
      | Some frag => fragmentApplies D obj (fr_typeOn frag) = true /\ selects obj (fr_selSet frag) y
      end
  end.
Proof.
  split.
  - intros H. inversion H as [? ? ? ? ? Hin|? ? ? ? Hin|? ? ? ? Hin ? Hf|? ? Hin ? Hf]; subst;
      apply list_elem_of_singleton in Hin; subst; [done | done | by rewrite Hf | by rewrite Hf].
  - destruct x as [alias name fargs sel|typeOn sel|name].
    + intros ->. constructor. by left.
    + intros [Ha Hs]. eapply sel_inline; [by left | done | done].
    + intros [Hn Hs]. destruct (fragments doc !! name) as [frag|] eqn:Ef.
      * destruct Hs. eapply sel_spread; [by left | done | done | done | done].
      * subst y. apply sel_unknown; [by left | done | done].
Qed.

Lemma selects_incl obj a b s : a ⊆ b -> selects obj a s -> selects obj b s.
Proof.
  intros Hab H. inversion H; subst; [constructor | eapply sel_inline | eapply sel_spread | constructor]; eauto.
Qed.

Lemma entry_mono F obj a b path k v :
  (forall s, selects obj a s -> selects obj b s) -> entry F obj a path k v -> entry F obj b path k v.
Proof.
  intros Hab H. inversion H; subst; [apply E_typename with fargs sel | apply E_fragment
    | apply E_unknown with fargs sel | apply E_arguments with fargs sel def e | apply E_value with fargs sel def]; auto.
Qed.
End Conforms.

(** ** The executor keeps its promises *)

Section Runs.
Context {W E : Type}.

(** [m] ends from [s] with a result in [Q], unless it panics. *)
Definition wp {A} (m : M A) (Q : A -> exec W E -> Prop) (s : exec W E) : Prop :=
  match m s with Done a s' => Q a s' | Panicked _ => True | OutOfFuel => False end.

Lemma runs_ret {A} (a : A) Q s : Q a s -> wp (mret a) Q s.
Proof. done. Qed.

Lemma runs_bind {A B} (m : M A) (k : A -> M B) Q s : wp m (fun a s' => wp (k a) Q s') s -> wp (m ≫= k) Q s.
Proof. unfold wp, mbind, M_bind. by destruct (m s). Qed.

Lemma runs_mono {A} (m : M A) (Q Q' : A -> exec W E -> Prop) s :
  wp m Q s -> (forall a s', Q a s' -> Q' a s') -> wp m Q' s.
Proof. unfold wp. destruct (m s); auto. Qed.

Lemma wp_panics {A} r (Q : A -> exec W E -> Prop) s : wp (panics r) Q s.
Proof. done. Qed.

(** What a step does to the executor: it adds errors, at least one if [new],
    and leaves the flag alone. *)
Definition grew (new : bool) (s s' : exec W E) : Prop :=
  (exists l, errs s' = errs s ++ l /\ (new = true -> l <> [])) /\ bubble s' = bubble s.

Lemma grew_refl s : grew false s s.
Proof. split; [| done]. exists []. by rewrite app_nil_r. Qed.

Lemma grew_trans b b' s1 s2 s3 : grew b s1 s2 -> grew b' s2 s3 -> grew (b || b') s1 s3.
Proof.
  intros [(l & Hl & Hb) H1] [(l' & Hl' & Hb') H2]. split; [| congruence].
  exists (l ++ l'). split; [by rewrite Hl', Hl, app_assoc |].
  intros [Hx|Hx]%orb_true_iff [Ha Hb0]%app_eq_nil; [by apply Hb | by apply Hb'].
Qed.

Lemma grew_weaken b s s' : grew b s s' -> grew false s s'.
Proof. intros [(l & Hl & _) H]. split; [by exists l | done]. Qed.

Lemma grew_errs b s s' F : grew b s s' -> errs s' ⊆ F -> errs s ⊆ F.
Proof. intros [(l & -> & _) _] H x Hx. apply H, elem_of_app. by left. Qed.

Lemma wp_addError path e (Q : unit -> exec W E -> Prop) s :
  (forall s', grew true s s' -> (forall F, errs s' ⊆ F -> mkError e path ∈ F) -> Q tt s') ->
  wp (addError path e) Q s.
Proof.
  intros H. apply H.
  - split; [| done]. by exists [mkError e path].
  - intros F HF. apply HF. simpl. apply elem_of_app. right. by left.
Qed.

Lemma runs_call r parent args (Q : result E gval -> exec W E -> Prop) s :
  (forall v s', grew false s s' -> Q v s') -> wp (call r parent args) Q s.
Proof.
  intros H. unfold wp, call. destruct (r (world s) parent args) as [[v [e|]|e] w]; try done;
    apply H; (split; [| done]); exists []; by rewrite app_nil_r.
Qed.
End Runs.

Section Promises.
Context {W E : Type} (D : typedefs (ResolveFunc W E)) (ParseFloat : string -> option float64) (undef : float64 -> Z).
Context (sprint : gval -> string) (vars : list (string * gval)) (doc : document).

Lemma serializeLeaf_shape v :
  is_leaf (serializeLeaf sprint v) = true /\ (serializeLeaf sprint v = GNil -> v = GNil).
Proof. unfold serializeLeaf. destruct v; simpl; try done; by repeat case_match. Qed.

Lemma serializeScalar_shape s v :
  v <> GNil -> serializeScalar undef sprint s v <> GNil /\ scalar_shape s (serializeScalar undef sprint s v) = true.
Proof.
  intros Hv. unfold serializeScalar, scalar_shape.
  repeat case_bool_decide; simpl; try congruence; try done;
    destruct v as [|[]| | | | | | | | |]; try done; simpl; repeat case_match; try done.
Qed.

Definition value_post (t : ty) (sels : list selection) (path : list seg) (s : exec W E) (rb : gval * bool)
    (s' : exec W E) : Prop :=
  grew rb.2 s s' /\
  (rb.2 = false -> forall F, errs s' ⊆ F -> conforms D doc F t sels path rb.1).

Definition object_post (i : nat) (sels : list selection) (path : list seg) (s : exec W E)
    (out : option (list (string * gval))) (s' : exec W E) : Prop :=
  match out with
  | None => grew true s s'
  | Some m => grew false s s' /\ forall F, errs s' ⊆ F -> conforms D doc F (TyObject i) sels path (GMap m)
  end.

Definition items_post (t : ty) (sels : list selection) (path : list seg) (i : nat) (s : exec W E)
    (out : option (list gval)) (s' : exec W E) : Prop :=
  match out with
  | None => grew true s s'
  | Some l => grew false s s' /\ forall F, errs s' ⊆ F ->
      forall j v, l !! j = Some v -> conforms D doc F t sels (path ++ [Index (i + j)]) v
  end.

Lemma complete_items_wp complete t sels path i items s :
  (forall val path s, wp (complete val path) (value_post t sels path s) s) ->
  wp (complete_items complete path i items) (items_post t sels path i s) s.
Proof.
  intros Hc. revert i s. induction items as [|x items IH]; intros i s.
  - apply runs_ret. split; [apply grew_refl |]. by intros F _ j v Hj.
  - apply runs_bind. eapply runs_mono; [apply Hc |]. intros [v b] s1 [Hg Hv]. simpl in *.
    destruct b; [by apply runs_ret |].
    apply runs_bind. eapply runs_mono; [apply IH |]. intros [l|] s2 Hl; apply runs_ret; simpl in *.
    + destruct Hl as [Hg2 Hl]. split; [by apply (grew_trans false false _ s1) |].
      intros F HF j w. destruct j as [|j]; simpl.
      * intros [= <-]. rewrite Nat.add_0_r. apply Hv; [done | by eapply grew_errs].
      * intros Hj. replace (i + S j)%nat with (S i + j)%nat by lia. by apply Hl.
    + by apply (grew_trans false true _ s1).
Qed.

Lemma completeValue_wp object sels :
  (forall i val path s, wp (object i val path) (object_post i sels path s) s) ->
  forall t val path s, wp (completeValue D undef sprint object t val path) (value_post t sels path s) s.
Proof.
  intros Ho t. induction t as [|sc|i|i|i|t IH|t IH]; intros val path s.
  - apply runs_ret. split; [apply grew_refl |]. intros; apply C_none.
  - assert (Hnull : value_post (TyScalar sc) sels path s (GNil, false) s)
      by (split; [apply grew_refl |]; intros; by apply C_null).
    destruct (is_nil val) eqn:En; [apply is_nil_true in En as ->; by apply runs_ret |].
    apply is_nil_false in En. destruct (serializeScalar_shape sc val En) as [H1 H2].
    assert (Hval : value_post (TyScalar sc) sels path s (serializeScalar undef sprint sc val, false) s)
      by (split; [apply grew_refl |]; intros; by apply C_scalar).
    destruct val; try done; by apply runs_ret.
  - apply runs_ret. split; [apply grew_refl |]. intros _ F _. simpl.
    destruct (serializeLeaf_shape val) as [H1 H2].
    destruct (is_nil (serializeLeaf sprint val)) eqn:En.
    + apply is_nil_true in En as ->. by apply C_null.
    + apply is_nil_false in En. by apply C_enum.
  - apply runs_ret. split; [apply grew_refl |]. intros; apply C_input.
  - assert (Hnull : value_post (TyObject i) sels path s (GNil, false) s)
      by (split; [apply grew_refl |]; intros; by apply C_null).
    assert (Hval : wp (out ← object i val path;
        mret (match out with Some out => (GMap out, false) | None => (GNil, true) end))
        (value_post (TyObject i) sels path s) s).
    { apply runs_bind. eapply runs_mono; [apply Ho |]. intros [m|] s1 H1; apply runs_ret.
      - destruct H1 as [Hg Hc]. by split.
      - by split. }
    destruct val; try exact Hval; by apply runs_ret.
  - assert (Hbad : wp (_ ← addError path (XExpectedList (TypeName D (TyList t)) val); mret (GNil, false))
        (value_post (TyList t) sels path s) s).
    { apply runs_bind, wp_addError. intros s1 Hg _. apply runs_ret. split; [by eapply grew_weaken |].
      intros; by apply C_null. }
    destruct val; try exact Hbad.
    + apply runs_ret. split; [apply grew_refl |]. intros; by apply C_null.
    + apply runs_bind. eapply runs_mono; [by apply complete_items_wp |]. intros [l|] s1 H1; apply runs_ret.
      * destruct H1 as [Hg Hl]. split; [done |]. intros _ F HF. apply C_list. by apply Hl.
      * by split.
  - apply runs_bind. eapply runs_mono; [apply IH |]. intros [v b] s1 [Hg Hv]. simpl in *.
    destruct b; [by apply runs_ret |].
    destruct (is_nil v) eqn:En.
    + apply runs_bind, wp_addError. intros s2 Hg2 _. apply runs_ret.
      split; [by apply (grew_trans false true _ s1) | done].
    + apply is_nil_false in En. apply runs_ret. split; [done |]. intros _ F HF. apply C_nonnull; [done | by apply Hv].
Qed.

(** What walking [sels] into [out] promises: keys are only added, every field
    selected has its key, and unless the object is to be null, each key added is
    the entry of a selected field. *)
Definition fields_post (obj : nat) (sels : list selection) (path : list seg) (out : list (string * gval))
    (s : exec W E) (out' : list (string * gval)) (s' : exec W E) : Prop :=
  (exists l, errs s' = errs s ++ l /\ (bubble s' = true -> bubble s = true \/ l <> [])) /\
  (bubble s = true -> bubble s' = true) /\
  (forall k, is_Some (assoc k out) -> is_Some (assoc k out')) /\
  (forall x, selects D doc obj sels x -> is_Some (assoc (key_of x) out')) /\
  (bubble s' = false -> forall F, errs s' ⊆ F -> forall k v,
     assoc k out' = Some v -> assoc k out = Some v \/ entry D doc F obj sels path k v).

Lemma fields_post_trans obj s1 sels path out out1 out2 s t u :
  fields_post obj [s1] path out s out1 t -> fields_post obj sels path out1 t out2 u ->
  fields_post obj (s1 :: sels) path out s out2 u.
Proof.
  intros ((l & Hl & Hb) & Hm & Hk & Hs & He) ((l' & Hl' & Hb') & Hm' & Hk' & Hs' & He').
  split_and!.
  - exists (l ++ l'). split; [by rewrite Hl', Hl, app_assoc |].
    intros [Ht|Hn]%Hb'; [destruct (Hb Ht) as [?|Hn]; [by left |] |]; right; intros [-> ->]%app_eq_nil; by apply Hn.
  - auto.
  - auto.
  - intros x [Hx|Hx]%(selects_app _ _ _ [s1]); [by apply Hk', Hs | by apply Hs'].
  - intros Hu F HF k v Hv.
    assert (Ht : bubble t = false) by (destruct (bubble t); [by rewrite Hm' in Hu | done]).
    assert (Hin : forall a, a ⊆ s1 :: sels -> entry D doc F obj a path k v -> entry D doc F obj (s1 :: sels) path k v)
      by (intros a Ha; apply entry_mono; intros x; by apply selects_incl).
    destruct (He' Hu F HF k v Hv) as [Hold|Hent]; [| right; apply (Hin sels); [set_solver | done]].
    destruct (He Ht F) with (k := k) (v := v) as [?|Hent]; [| done | by left | right; apply (Hin [s1]); [set_solver | done]].
    intros x Hx. apply HF. rewrite Hl'. apply elem_of_app. by left.
Qed.

Lemma fields_post_nil obj path out s : fields_post obj [] path out s out s.
Proof.
  split_and!; [exists []; rewrite app_nil_r; split; [done | by left] | done | done | | by left].
  by intros x Hx%selects_none.
Qed.

Lemma fields_post_set obj x path k v out s s' :
  grew false s s' -> (forall y, selects D doc obj [x] y -> key_of y = k) ->
  (forall F, errs s' ⊆ F -> entry D doc F obj [x] path k v) ->
  fields_post obj [x] path out s (map_set k v out) s'.
Proof.
  intros [(l & Hl & _) Hb] Hx He. split_and!.
  - exists l. split; [done |]. rewrite Hb. by left.
  - by rewrite Hb.
  - intros k'. rewrite assoc_map_set. by case_decide.
  - intros y Hy. rewrite assoc_map_set, (Hx y Hy). by rewrite decide_True.
  - intros _ F HF k' v'. rewrite assoc_map_set. case_decide; [intros [= <-]; subst; right; by apply He | by left].
Qed.

(** A field whose null makes the object null. *)
Lemma fields_post_bubble obj x path k out s s' :
  grew true s s' -> (forall y, selects D doc obj [x] y -> key_of y = k) ->
  fields_post obj [x] path out s (map_set k GNil out) (mkExec (errs s') true (world s')).
Proof.
  intros [(l & Hl & Hn) Hb] Hx. split_and!.
  - exists l. split; [done |]. intros _. right. by apply Hn.
  - done.
  - intros k'. rewrite assoc_map_set. by case_decide.
  - intros y Hy. rewrite assoc_map_set, (Hx y Hy). by rewrite decide_True.
  - done.
Qed.
Lemma scoped_wp obj sels path body s :
  (forall s, wp body (fields_post obj sels path [] s) s) -> wp (scoped body) (object_post obj sels path s) s.
Proof.
  intros Hb. unfold scoped. apply runs_bind, runs_ret, runs_bind, runs_ret, runs_bind.
  eapply runs_mono; [apply Hb |]. intros m s1 ((l & Hl & Hn) & _ & _ & Hs & He). simpl in Hl, Hn.
  unfold wp, mbind, M_bind, get_bubble. simpl. destruct (bubble s1) eqn:Eb.
  - split; [| done]. exists l. split; [done |]. intros _. by destruct (Hn eq_refl).
  - split; [split; [by exists l | done] |]. intros F HF. apply C_object; [| exact Hs].
    intros k v Hv. by destruct (He eq_refl F HF k v Hv).
Qed.

Lemma field_key obj alias name fargs sel y :
  selects D doc obj [SField alias name fargs sel] y -> key_of y = response_key alias name.
Proof. by intros ->%selects_one. Qed.

Lemma resolveValue_wp def name parent args (Q : result E gval -> exec W E -> Prop) s :
  (forall v s', grew false s s' -> Q v s') -> wp (resolveValue def name parent args) Q s.
Proof.
  intros H. unfold resolveValue. destruct (f_resolve def); [by apply runs_call |].
  destruct (defaultResolve parent name); [| apply wp_panics]. apply runs_ret, H, grew_refl.
Qed.

Lemma resolveField_wp object obj alias name fargs sel parent path out s :
  (forall i val path s, wp (object i val path) (object_post i sel path s) s) ->
  wp (resolveField D ParseFloat undef sprint vars object obj alias name fargs parent path out)
    (fields_post obj [SField alias name fargs sel] path out s) s.
Proof.
  intros Ho. unfold resolveField. set (key := response_key alias name).
  pose proof (field_key obj alias name fargs sel) as Hkey.
  assert (Hsel : selects D doc obj [SField alias name fargs sel] (SField alias name fargs sel))
    by (constructor; by left).
  case_bool_decide as Hty.
  { subst name. apply runs_ret, fields_post_set; [apply grew_refl | done |].
    intros F _. by apply E_typename with fargs sel. }
  destruct (assoc name (o_fields (objects D obj))) as [[def|]|] eqn:Edef.
  2: apply wp_panics.
  2: { apply runs_bind, wp_addError. intros s1 Hg He. apply runs_ret, fields_post_set; [by eapply grew_weaken | done |].
       intros F HF. by apply E_unknown with fargs sel; [| | apply He]. }
  destruct (coerceArguments _ _ _ _ _ _) as [args|e].
  2: { destruct (nil_type e); [apply wp_panics |]. apply runs_bind, wp_addError. intros s1 Hg He.
       apply runs_ret, fields_post_set; [by eapply grew_weaken | done |].
       intros F HF. by apply E_arguments with fargs sel def e; [| | apply He]. }
  assert (Hnull : forall s1, grew true s s1 ->
    wp (_ ← (if is_NonNull (f_type def) : bool then set_bubble true else mret tt); mret (map_set key GNil out))
      (fields_post obj [SField alias name fargs sel] path out s) s1).
  { intros s1 Hg. destruct (is_NonNull (f_type def)) eqn:En; apply runs_bind, runs_ret, runs_ret.
    - by apply fields_post_bubble.
    - apply fields_post_set; [by eapply grew_weaken | done |].
      intros F HF. apply E_value with fargs sel def; [done | done | by apply C_null]. }
  apply runs_bind, resolveValue_wp. intros [val|e] s1 Hg1.
  - apply runs_bind. eapply runs_mono; [by apply completeValue_wp |]. intros [v b] s2 [Hg2 Hv]. simpl in *.
    pose proof (grew_trans _ _ _ _ _ Hg1 Hg2) as Hg. destruct b; [by apply Hnull |].
    apply runs_ret, fields_post_set; [done | done |]. intros F HF.
    apply E_value with fargs sel def; [done | done | by apply Hv].
  - apply runs_bind, wp_addError. intros s2 Hg2 _. apply Hnull. by apply (grew_trans false true _ s1).
Qed.

(** ** Termination and the promises, along the selections *)

Context (Hacyclic : forall x, ~ tc (edge doc) x x).

Definition spread_ok (fuel : nat) (spread : string -> nat -> gval -> list seg -> list (string * gval) ->
    M (W := W) (E := E) (list (string * gval))) : Prop :=
  forall name obj parent path out s p, name <> EmptyString -> descends doc fuel [name] p ->
    wp (spread name obj parent path out) (fields_post obj [SSpread name] path out s) s.

Definition selection_ok (fuel : nat) spread (x : selection) : Prop :=
  forall obj parent path out s p, descends doc fuel (spreads_in x) p ->
    wp (collect_selection D ParseFloat undef sprint vars spread x obj parent path out)
      (fields_post obj [x] path out s) s.

Lemma collectFields_wp fuel spread sels obj parent path out s p :
  Forall (selection_ok fuel spread) sels -> descends doc fuel (spreads sels) p ->
  wp (collectFields D ParseFloat undef sprint vars spread sels obj parent path out)
    (fields_post obj sels path out s) s.
Proof.
  intros Hs. revert out s. induction Hs as [|x sels Hx _ IH]; intros out s Hp.
  - apply runs_ret, fields_post_nil.
  - cbn [collectFields]. apply runs_bind. eapply runs_mono.
    { apply (Hx obj parent path out s p). eapply descends_incl; [| exact Hp]. unfold spreads. simpl. set_solver. }
    intros out1 s1 H1. eapply runs_mono.
    { apply IH. eapply descends_incl; [| exact Hp]. unfold spreads. simpl. set_solver. }
    intros out2 s2 H2. by apply (fields_post_trans _ _ _ _ _ out1 _ _ s1).
Qed.

Lemma fields_post_in obj x sels path out s out' s' :
  (forall y, selects D doc obj [x] y <-> selects D doc obj sels y) ->
  fields_post obj sels path out s out' s' -> fields_post obj [x] path out s out' s'.
Proof.
  intros Hx (H1 & H2 & H3 & H4 & H5). split_and!; [done | done | done | intros y Hy; by apply H4, Hx |].
  intros Hb F HF k v Hv. destruct (H5 Hb F HF k v Hv) as [?|He]; [by left | right].
  eapply entry_mono; [| exact He]. intros y. apply Hx.
Qed.

Lemma fields_post_skip obj x path out s :
  (forall y, ~ selects D doc obj [x] y) -> fields_post obj [x] path out s out s.
Proof.
  intros Hx. apply (fields_post_in _ _ []); [| apply fields_post_nil].
  intros y. split; intros Hy; [by destruct (Hx y) | by apply selects_none in Hy].
Qed.

Lemma collect_selection_ok fuel spread x : spread_ok fuel spread -> selection_ok fuel spread x.
Proof.
  intros Hsp. induction x as [alias name fargs sel IH|typeOn sel IH|name] using selection_nested_ind;
    intros obj parent path out s p Hp.
  - apply resolveField_wp. intros i val path' s'.
    change (wp (scoped (collectFields D ParseFloat undef sprint vars spread sel i val path' []))
      (object_post i sel path' s') s').
    apply scoped_wp. intros s2. by apply (collectFields_wp fuel spread sel i val path' [] s2 p).
  - change (collect_selection D ParseFloat undef sprint vars spread (SInline typeOn sel) obj parent path out)
      with (if fragmentApplies D obj typeOn
            then collectFields D ParseFloat undef sprint vars spread sel obj parent path out
            else (mret out : M (W := W) (E := E) _)).
    destruct (fragmentApplies D obj typeOn) eqn:Ea.
    + eapply runs_mono; [by apply (collectFields_wp fuel spread sel obj parent path out s p) |].
      intros out' s'. apply fields_post_in. intros y. rewrite selects_one, Ea. tauto.
    + apply runs_ret, fields_post_skip. intros y. rewrite selects_one, Ea. by intros [? _].
  - cbn [collect_selection spreads_in] in *. case_bool_decide as Hn; [| by eapply Hsp].
    apply runs_ret, fields_post_skip. intros y. rewrite selects_one. by intros [? _].
Qed.

Lemma spread_fields_ok fuel : spread_ok fuel (spread_fields D ParseFloat undef sprint vars doc fuel).
Proof.
  induction fuel as [|fuel IH]; intros name obj parent path out s p Hn Hp;
    cbn [spread_fields]; destruct (fragments doc !! name) as [frag|] eqn:Ef.
  all: pose proof (fun y => selects_one D doc obj (SSpread name) y) as Hone; cbn in Hone; rewrite Ef in Hone.
  all: try (apply runs_bind, wp_addError; intros s1 Hg He; apply runs_ret, fields_post_set;
    [by eapply grew_weaken | by intros y [_ ->]%Hone |];
    intros F HF; apply E_fragment; [by apply Hone | by apply He]).
  all: destruct (fragmentApplies D obj (fr_typeOn frag)) eqn:Ea;
    [| apply runs_ret, fields_post_skip; by intros y (_ & ? & _)%Hone].
  all: destruct (descends_enter doc _ name frag _ Hacyclic Ef Hp) as (fuel' & [= <-] & Hin).
  eapply runs_mono.
  - apply (collectFields_wp fuel _ _ _ _ _ _ s ({[name]} ∪ p)); [| exact Hin].
    apply Forall_true. intros x. by apply collect_selection_ok.
  - intros out' s'. apply fields_post_in. intros y. rewrite Hone. tauto.
Qed.

Lemma executeSelectionSet_wp obj sels parent path s :
  wp (executeSelectionSet D ParseFloat undef sprint vars doc (size (fragments doc)) obj sels parent path)
    (object_post obj sels path s) s.
Proof.
  apply scoped_wp. intros s'. eapply collectFields_wp; [| apply descends_start].
  apply Forall_true. intros x. apply collect_selection_ok, spread_fields_ok.
Qed.
End Promises.

(** ** Requests *)

Section Requests.
Context {W E : Type} (uni_letter uni_digit : Z -> bool).
Context (D : typedefs (ResolveFunc W E)) (ParseFloat : string -> option float64) (undef : float64 -> Z).
Context (sprint : gval -> string).
Notation run_request := (ExecuteWithLimits uni_letter uni_digit D ParseFloat undef sprint).

(** The response to a request, by how far the request got. *)
Definition answered (cs : option CompiledSchema) (req : Request) (limits : Limits) (w : W)
    (resp : Response E) (s : exec W E) : Prop :=
  match Data resp with
  | None => length (Errors resp) = 1%nat /\ world s = w
  | Some data =>
      exists schema doc op root,
        cs = Some schema
        /\ parseDocumentLimited uni_letter uni_digit (Query req) (MaxTokens limits) = Some (Ok doc)
        /\ op ∈ operations doc
        /\ match op_kind op with opQuery => root = query schema | opMutation => mutation schema = Some root end
        /\ match data with
           | None => Errors resp <> []
           | Some m => conforms D doc (Errors resp) (TyObject root) (op_selSet op) [] (GMap m)
           end
  end.

Lemma ExecuteWithLimits_spec cs req limits w :
  match run_request cs req limits w with
  | Done resp s => answered cs req limits w resp s
  | Panicked _ => True
  | OutOfFuel => False
  end.
Proof.
  unfold ExecuteWithLimits. destruct cs as [schema|]; [| done].
  destruct (checkRequest_spec uni_letter uni_digit limits (Query req) (OperationName req)) as (r & Hr & Hok).
  rewrite Hr. destruct r as [[doc op]|e]; [| done].
  destruct (Hok doc op eq_refl) as (_ & Hparse & Hop & _ & Hacyclic & _).
  destruct (match op_kind op with opQuery => Some (query schema) | opMutation => mutation schema end)
    as [root|] eqn:Eroot; [| done].
  destruct (coerceVariables _ _ _ _ _ _ _) as [vars|e]; [| by destruct (nil_type e)].
  pose proof (executeSelectionSet_wp D ParseFloat undef sprint vars doc Hacyclic root (op_selSet op) (Root req) []
    (mkExec [] false w)) as Hwp.
  unfold wp in Hwp. destruct (executeSelectionSet _ _ _ _ _ _ _ _ _ _ _ _) as [data s|r|]; [| done | done].
  exists schema, doc, op, root. split_and!; [done | done | done | |].
  - destruct (op_kind op); [by injection Eroot | done].
  - destruct data as [m|]; simpl in *; [by apply Hwp |].
    destruct Hwp as [(l & -> & Hl) _]. by apply Hl.
Qed.

(** C14: Every request ends: with any query text, operation, variables, limits and
    resolvers that return, parsing, the checks and the execution need no more fuel
    than they are given. *)
Theorem ExecuteWithLimits_terminates cs req limits w :
  ExecuteWithLimits uni_letter uni_digit D ParseFloat undef sprint cs req limits w <> OutOfFuel.
Proof. pose proof (ExecuteWithLimits_spec cs req limits w) as H. by intros Ho; rewrite Ho in H. Qed.

(** C8: A response conforms to the schema.  A request that is rejected has one
    error and no resolver ran; otherwise the data is null only next to an error,
    or an object with a key for each field the operation selects, its fragments
    expanded, each of the field's type all the way down: a null is where the type
    allows one, or belongs to a field that is unknown or has wrong arguments, and
    then its error is reported under its path. *)
Theorem Execute_conforms cs req limits w :
  match run_request cs req limits w with
  | Done resp s => answered cs req limits w resp s
  | _ => True
  end.
Proof. pose proof (ExecuteWithLimits_spec cs req limits w) as H. by destruct (run_request cs req limits w). Qed.
End Requests.

(** ** Concrete requests *)

(** Resolvers that count their calls. *)
Definition answer (v : gval) : ResolveFunc nat string := fun w _ _ => (Return v None, S w).
Definition fails (e : string) : ResolveFunc nat string := fun w _ _ => (Return GNil (Some e), S w).

Definition exec_defs : typedefs (ResolveFunc nat string) :=
  mkDefs (fun _ => mkEnum "Color" [("RED", GInt KInt 1)]) (fun _ => mkInput "I" [])
    (fun i => match i with
      | O => mkObject "Query"
          [("user", Some (mkFieldDef (TyObject 1) []
              (Some (answer (GMap [("id", GInt KInt 7); ("name", GString "Ann")])))));
           ("users", Some (mkFieldDef (TyList (TyNonNull (TyObject 1))) [] (Some (answer (GList [GMap []; GMap []])))));
           ("boom", Some (mkFieldDef (TyNonNull (TyScalar "Int")) [] (Some (fails "boom"))));
           ("color", Some (mkFieldDef (TyEnum 0) [] (Some (answer (GInt KInt 1)))));
           ("age", Some (mkFieldDef (TyNonNull (TyScalar "Int"))
              [("of", Some (mkArg (TyNonNull (TyScalar "ID")) GNil))] (Some (answer (GString "old")))));
           ("self", Some (mkFieldDef (TyObject 1) [] (Some (answer (GStruct None
              [(mkField "name" "" "" false, GString "hidden"); (mkField "Name" "" "name" true, GString "Ann")])))))]
      | _ => mkObject "User"
          [("id", Some (mkFieldDef (TyScalar "ID") [] None)); ("name", Some (mkFieldDef (TyNonNull (TyScalar "String")) [] None))]
      end).

Definition ask (q : string) : run (W := nat) (E := string) (Response string) :=
  Execute (fun _ => false) (fun _ => false) exec_defs no_float no_undef (fun _ => "?")
    (Some (mkCompiled 0 None [])) (mkRequest q "" [] GNil) 0%nat.

(** The data and the errors of a response, and how many resolvers ran. *)
Definition reply (r : run (W := nat) (E := string) (Response string)) :=
  match r with
  | Done resp s => Some (Data resp, map (fun e => (Message e, Path e)) (Errors resp), world s)
  | _ => None
  end.

(** A null in a list of non-null objects nulls the list; siblings continue. *)
Example null_propagates :
  reply (ask "{ users { name } user { ...F } } fragment F on User { __typename n: name }")
  = Some (Some (Some [("users", GNil); ("user", GMap [("__typename", GString "User"); ("n", GString "Ann")])]),
      [(XNonNull "String!", [Key "users"; Index 0; Key "name"])], 2%nat).
Proof. by vm_compute. Qed.

(** An error of a non-null root field nulls the response, but the later fields
    are still resolved. *)
Example root_null :
  reply (ask "{ boom user { id } }") = Some (Some None, [(XResolver "boom", [Key "boom"])], 2%nat).
Proof. by vm_compute. Qed.

(** Wrong arguments of a non-null field leave a null in its place. *)
Example argument_error_keeps_null :
  reply (ask "{ age }")
  = Some (Some (Some [("age", GNil)]), [(XArguments "age" (EMissing "" "of"), [Key "age"])], 0%nat).
Proof. by vm_compute. Qed.

(** Two selections of one field: the second overwrites the first, whose [id] is
    lost without an error. *)
Example selections_not_merged :
  reply (ask "{ user { id } user { name } }")
  = Some (Some (Some [("user", GMap [("name", GString "Ann")])]), [], 2%nat).
Proof. by vm_compute. Qed.

(** An enum's Go value is not turned back into its name. *)
Example enum_output_unmapped :
  reply (ask "{ color }") = Some (Some (Some [("color", GInt KInt 1)]), [], 1%nat).
Proof. by vm_compute. Qed.

(** An [Int] field passes a string through. *)
Example int_field_returns_string :
  match reply (ask "{ age(of: 3) }") with
  | Some (Some (Some m), es, _) => m = [("age", GString "old")] /\ es = []
  | _ => False
  end.
Proof. by vm_compute. Qed.

(** Default resolution panics on an unexported field with the exact name, though
    an exported one is tagged with it. *)
Example unexported_field_panics :
  match ask "{ self { name } }" with Panicked (PUnexported f) => f = "name" | _ => False end.
Proof. by vm_compute. Qed.
