(* ===== verification/Sql.v ===== *)
(** SQL text: the [Grammar] interface of [src/database/connection.go] with the
    grammars of the three drivers ([src/drivers/postgres], [mysql], [sqlite]), and
    a lexical reading of SQL that the query builder's theorems are stated with.

    The reading is the specification: it splits a text into quoted identifiers,
    parameter markers and the bytes in between, and skips string literals. *)

From Stdlib Require Import ZArith Lia Ascii.
From stdpp Require Import base gmap strings list numbers.
From S2P Require Import Prelude GoRt GoStrconv.

#[local] Open Scope string_scope.
#[local] Open Scope list_scope.
#[local] Open Scope Z_scope.

(** ** Grammars *)

Inductive InsertIDStrategy := InsertIDFromResult | InsertIDViaReturning.

Record Grammar := mkGrammar {
  Name : string;
  Quote : string -> string;
  Placeholder : Z -> string;
  LastInsertIDStrategy : InsertIDStrategy }.

Definition double_quote : ascii := ascii_of 34.
Definition backtick : ascii := ascii_of 96.
Definition apostrophe : ascii := ascii_of 39.

Fixpoint join (sep : string) (l : list string) : string :=
  match l with
  | [] => EmptyString
  | [x] => x
  | x :: l => x +:+ sep +:+ join sep l
  end.

(** [strings.ReplaceAll(p, q, qq)]. *)
Fixpoint double_byte (q : ascii) (s : string) : string :=
  match s with
  | EmptyString => EmptyString
  | String c s => if Ascii.eqb c q then String q (String q (double_byte q s)) else String c (double_byte q s)
  end.

Definition quote_part (q : ascii) (p : string) : string := String q (double_byte q p +:+ String q EmptyString).

(** The three drivers quote in one way, with their own quote. *)
Definition quote_with (q : ascii) (ident : string) : string :=
  if bool_decide (ident = "*") then "*" else join "." (map (quote_part q) (Split "." ident)).

Definition postgres : Grammar :=
  mkGrammar "postgres" (quote_with double_quote) (fun n => "$" +:+ FormatInt n) InsertIDViaReturning.
Definition mysql : Grammar := mkGrammar "mysql" (quote_with backtick) (fun _ => "?") InsertIDFromResult.
Definition sqlite : Grammar := mkGrammar "sqlite" (quote_with double_quote) (fun _ => "?") InsertIDFromResult.

(** ** Reading SQL *)

(** [TParam] is the marker alone: the number after a [$] is read as bytes. *)
Inductive token := TByte (c : ascii) | TIdent (name : string) | TParam.

(** Where the reader is: outside, in a quoted identifier, after a quote that may
    end one, in a string literal. *)
Inductive state := Outside | InIdent (name : string) | Closing (name : string) | InString.

Section Scan.
Context (q param : ascii).

Definition scan_out (c : ascii) : state * list token :=
  if Ascii.eqb c q then (InIdent EmptyString, [])
  else if Ascii.eqb c param then (Outside, [TParam])
  else if Ascii.eqb c apostrophe then (InString, [])
  else (Outside, [TByte c]).

Definition step (st : state) (c : ascii) : state * list token :=
  match st with
  | Outside => scan_out c
  | InIdent name => if Ascii.eqb c q then (Closing name, []) else (InIdent (name +:+ String c EmptyString), [])
  | Closing name =>
      if Ascii.eqb c q then (InIdent (name +:+ String c EmptyString), [])
      else let '(st, ts) := scan_out c in (st, TIdent name :: ts)
  | InString => if Ascii.eqb c apostrophe then (Outside, []) else (InString, [])
  end.

(** [None] when the text ends inside a quote. *)
Fixpoint scan (st : state) (s : string) : option (list token) :=
  match s with
  | EmptyString =>
      match st with
      | Outside => Some []
      | Closing name => Some [TIdent name]
      | InIdent _ | InString => None
      end
  | String c s => let '(st, ts) := step st c in app ts <$> scan st s
  end.

(** ** Pieces of text *)

Lemma append_empty_r s : s +:+ EmptyString = s.
Proof. induction s as [|c s IH]; [done |]. change (String c (s +:+ EmptyString) = String c s). by rewrite IH. Qed.

(** [closes s ts]: wherever [s] begins outside quotes it reads as [ts] and ends
    outside quotes. *)
Definition closes (s : string) (ts : list token) : Prop :=
  forall rest, scan Outside (s +:+ rest) = app ts <$> scan Outside rest.

(** The same when what follows does not begin with a quote. *)
Definition reads (s : string) (ts : list token) : Prop :=
  forall rest, (forall r, rest <> String q r) -> scan Outside (s +:+ rest) = app ts <$> scan Outside rest.

(** [s] does not begin with a quote, and is not empty. *)
Definition soft (s : string) : Prop := exists c r, s = String c r /\ c <> q.

Lemma closes_reads s ts : closes s ts -> reads s ts.
Proof. intros H rest _. apply H. Qed.

Lemma closes_nil : closes EmptyString [].
Proof. intros rest. change (EmptyString +:+ rest) with rest. by destruct (scan Outside rest). Qed.

Lemma fmap_app_app (a b : list token) (o : option (list token)) : app a <$> (app b <$> o) = app (a ++ b) <$> o.
Proof. destruct o as [l|]; [| done]. simpl. by rewrite app_assoc. Qed.

Lemma closes_app s t a b : closes s a -> closes t b -> closes (s +:+ t) (a ++ b).
Proof. intros Hs Ht rest. by rewrite append_app, Hs, Ht, fmap_app_app. Qed.

Lemma closes_reads_app s t a b : closes s a -> reads t b -> reads (s +:+ t) (a ++ b).
Proof. intros Hs Ht rest Hr. by rewrite append_app, Hs, Ht, fmap_app_app. Qed.

Lemma soft_app s t : soft s -> soft (s +:+ t).
Proof. intros (c & r & -> & Hc). by exists c, (r +:+ t). Qed.

Lemma soft_not s r : soft s -> s <> String q r.
Proof. intros (c & r' & -> & Hc) [= -> _]. done. Qed.

Lemma reads_closes_app s t a b : reads s a -> soft t -> closes t b -> closes (s +:+ t) (a ++ b).
Proof.
  intros Hs Hq Ht rest. rewrite append_app, Hs; [by rewrite Ht, fmap_app_app |].
  intros r. by apply soft_not, soft_app.
Qed.

Lemma reads_app s t a b : reads s a -> soft t -> reads t b -> reads (s +:+ t) (a ++ b).
Proof.
  intros Hs Hq Ht rest Hr. rewrite append_app, Hs; [by rewrite Ht, fmap_app_app |].
  intros r. by apply soft_not, soft_app.
Qed.

(** A fragment that ends outside quotes can be read where it stands. *)
Fixpoint run (st : state) (s : string) : state * list token :=
  match s with
  | EmptyString => (st, [])
  | String c s => let '(st, ts) := step st c in let '(st', ts') := run st s in (st', ts ++ ts')
  end.

Lemma run_scan st s rest : scan st (s +:+ rest) = app (run st s).2 <$> scan (run st s).1 rest.
Proof.
  revert st. induction s as [|c s IH]; intros st.
  - change (EmptyString +:+ rest) with rest. simpl. by destruct (scan st rest).
  - change (String c s +:+ rest) with (String c (s +:+ rest)). cbn [scan run].
    destruct (step st c) as [st' ts]. rewrite IH. destruct (run st' s) as [st'' ts']. apply fmap_app_app.
Qed.

Lemma run_closes s ts : run Outside s = (Outside, ts) -> closes s ts.
Proof. intros H rest. by rewrite run_scan, H. Qed.

Lemma reads_scan s ts : reads s ts -> scan Outside s = Some ts.
Proof.
  intros H. specialize (H EmptyString). simpl in H. rewrite app_nil_r in H.
  rewrite append_empty_r in H. by apply H.
Qed.
End Scan.

(** The bytes of the builder's own keywords and punctuation. *)
Definition safe_byte (c : ascii) : bool :=
  let b := byte_of c in
  ((65 <=? b) && (b <=? 90)) || ((97 <=? b) && (b <=? 122)) || ((48 <=? b) && (b <=? 57)) || (b =? 32)
  || ((40 <=? b) && (b <=? 46)) || ((60 <=? b) && (b <=? 62)) || (b =? 91) || (b =? 93) || (b =? 95).

Fixpoint safe (s : string) : bool :=
  match s with EmptyString => true | String c s => safe_byte c && safe s end.

Definition bytes (s : string) : list token := map TByte (String.list_ascii_of_string s).

Lemma bytes_app s t : bytes (s +:+ t) = (bytes s ++ bytes t)%list.
Proof.
  induction s as [|c s IH]; [done |]. change (TByte c :: bytes (s +:+ t) = (TByte c :: (bytes s ++ bytes t))%list).
  by rewrite IH.
Qed.

Lemma safe_app s t : safe (s +:+ t) = safe s && safe t.
Proof.
  induction s as [|c s IH]; [done |]. change (safe_byte c && safe (s +:+ t) = (safe_byte c && safe s) && safe t).
  by rewrite IH, andb_assoc.
Qed.

(** The tokens of an identifier, a dot between its parts. *)
Fixpoint dotted (parts : list string) : list token :=
  match parts with
  | [] => []
  | [p] => [TIdent p]
  | p :: parts => TIdent p :: TByte "." :: dotted parts
  end.

Definition ident_tokens (ident : string) : list token :=
  if bool_decide (ident = "*") then [TByte "*"] else dotted (Split "." ident).

(** What the builder relies on in a grammar: its identifiers are read back as
    they were given, whatever they contain, and its placeholders are one marker
    with safe bytes after it. *)
Class Lexical (g : Grammar) (q param : ascii) : Prop := {
  lex_safe c : safe_byte c = true -> c <> q /\ c <> param;
  lex_distinct : param <> q;
  lex_quote ident : reads q param (Quote g ident) (ident_tokens ident);
  lex_placeholder n : exists tail, safe tail = true /\ Placeholder g n = String param tail;
}.

(** The tokens of a placeholder. *)
Definition marker (g : Grammar) (n : Z) : list token :=
  match Placeholder g n with EmptyString => [] | String _ tail => TParam :: bytes tail end.

Section Reading.
Context {g : Grammar} {q param : ascii} `{!Lexical g q param}.

Lemma safe_out c : safe_byte c = true -> scan_out q param c = (Outside, [TByte c]).
Proof.
  intros Hc. destruct (lex_safe c Hc) as [Hq Hp]. unfold scan_out.
  rewrite (proj2 (Ascii.eqb_neq c q) Hq), (proj2 (Ascii.eqb_neq c param) Hp).
  destruct (Ascii.eqb_spec c apostrophe) as [->|]; [done | done].
Qed.

Lemma safe_closes s : safe s = true -> closes q param s (bytes s).
Proof.
  induction s as [|c s IH]; [intros _; apply closes_nil |]. cbn [safe]. intros [Hc Hs]%andb_prop rest.
  change (String c s +:+ rest) with (String c (s +:+ rest)). cbn [scan step]. rewrite (safe_out c Hc), (IH Hs).
  change (bytes (String c s)) with ([TByte c] ++ bytes s). by rewrite fmap_app_app.
Qed.

Lemma safe_soft c s : safe_byte c = true -> soft q (String c s).
Proof. intros Hc. exists c, s. split; [done | by apply lex_safe]. Qed.

Lemma placeholder_closes n : closes q param (Placeholder g n) (marker g n) /\ soft q (Placeholder g n).
Proof.
  unfold marker. destruct (lex_placeholder n) as (tail & Ht & ->). split.
  - intros rest. change (String param tail +:+ rest) with (String param (tail +:+ rest)). cbn [scan step].
    unfold scan_out. rewrite (proj2 (Ascii.eqb_neq param q) lex_distinct), Ascii.eqb_refl, (safe_closes tail Ht).
    change (TParam :: bytes tail) with ([TParam] ++ bytes tail). by rewrite fmap_app_app.
  - exists param, tail. split; [done | apply lex_distinct].
Qed.

(** A piece followed by safe text that is not empty. *)
Lemma reads_safe s ts c t :
  reads q param s ts -> safe (String c t) = true -> closes q param (s +:+ String c t) (ts ++ bytes (String c t)).
Proof.
  intros Hs Hc. apply reads_closes_app; [done | | by apply safe_closes].
  apply safe_soft. by apply andb_prop in Hc as [? _].
Qed.

(** A separated list of pieces. *)
Fixpoint join_tokens (sep : list token) (l : list (list token)) : list token :=
  match l with
  | [] => []
  | [x] => x
  | x :: l => x ++ sep ++ join_tokens sep l
  end.

Lemma join_reads c sep l ts :
  safe (String c sep) = true -> Forall2 (reads q param) l ts ->
  reads q param (join (String c sep) l) (join_tokens (bytes (String c sep)) ts).
Proof.
  intros Hs Hl. induction Hl as [|x t l ts Hx Hl IH]; [apply closes_reads, closes_nil |].
  destruct Hl as [|y u l ts Hy Hl]; [done |].
  change (join (String c sep) (x :: y :: l)) with (x +:+ (String c sep +:+ join (String c sep) (y :: l))).
  rewrite <- append_app.
  change (join_tokens (bytes (String c sep)) (t :: u :: ts))
    with (t ++ (bytes (String c sep) ++ join_tokens (bytes (String c sep)) (u :: ts))).
  rewrite app_assoc. apply closes_reads_app; [by apply reads_safe | apply IH].
Qed.
End Reading.

(** ** The drivers' grammars *)

Section Quoting.
Context (q param : ascii).

Lemma double_scan p name rest :
  scan q param (InIdent name) (double_byte q p +:+ rest) = scan q param (InIdent (name +:+ p)) rest.
Proof.
  revert name. induction p as [|c p IH]; intros name; [by rewrite append_empty_r |].
  replace (name +:+ String c p) with ((name +:+ String c EmptyString) +:+ p) by by rewrite append_app.
  cbn [double_byte]. destruct (Ascii.eqb_spec c q) as [->|Hc].
  - change (String q (String q (double_byte q p)) +:+ rest) with (String q (String q (double_byte q p +:+ rest))).
    cbn [scan step]. rewrite Ascii.eqb_refl. cbn [scan step]. rewrite Ascii.eqb_refl.
    rewrite IH. by destruct (scan _ _ _ rest).
  - change (String c (double_byte q p) +:+ rest) with (String c (double_byte q p +:+ rest)).
    cbn [scan step]. rewrite (proj2 (Ascii.eqb_neq c q) Hc), IH. by destruct (scan _ _ _ rest).
Qed.

Lemma closing_scan name rest :
  (forall r, rest <> String q r) -> scan q param (Closing name) rest = app [TIdent name] <$> scan q param Outside rest.
Proof.
  intros Hr. destruct rest as [|c r]; [done |].
  assert (Hc : c <> q) by (intros ->; by destruct (Hr r)).
  cbn [scan step]. rewrite (proj2 (Ascii.eqb_neq c q) Hc). destruct (scan_out q param c) as [st ts].
  by rewrite fmap_app_app.
Qed.

Lemma part_reads p : reads q param (quote_part q p) [TIdent p].
Proof.
  intros rest Hr. unfold quote_part.
  change (String q (double_byte q p +:+ String q EmptyString) +:+ rest)
    with (String q ((double_byte q p +:+ String q EmptyString) +:+ rest)).
  rewrite append_app. change (String q EmptyString +:+ rest) with (String q rest).
  cbn [scan step]. unfold scan_out. rewrite Ascii.eqb_refl, double_scan.
  change (EmptyString +:+ p) with p. cbn [scan step]. rewrite Ascii.eqb_refl.
  rewrite (closing_scan p rest Hr). by destruct (scan q param Outside rest).
Qed.

Context (Hdot : "."%char <> q) (Hdotp : "."%char <> param) (Hstar : "*"%char <> q) (Hstarp : "*"%char <> param).

Lemma byte_closes c : c <> q -> c <> param -> c <> apostrophe -> closes q param (String c EmptyString) [TByte c].
Proof.
  intros Hq Hp Ha rest. change (String c EmptyString +:+ rest) with (String c rest). cbn [scan step]. unfold scan_out.
  by rewrite (proj2 (Ascii.eqb_neq c q) Hq), (proj2 (Ascii.eqb_neq c param) Hp), (proj2 (Ascii.eqb_neq c apostrophe) Ha).
Qed.

Lemma dotted_reads parts : reads q param (join "." (map (quote_part q) parts)) (dotted parts).
Proof.
  induction parts as [|p [|p' parts] IH]; [apply closes_reads, closes_nil | apply part_reads |].
  change (reads q param (quote_part q p +:+ ("." +:+ join "." (map (quote_part q) (p' :: parts))))
    ([TIdent p] ++ ([TByte "."] ++ dotted (p' :: parts)))).
  apply reads_app; [apply part_reads | by eexists _, _ |].
  apply closes_reads_app; [by apply byte_closes | done].
Qed.

Lemma quote_reads ident : reads q param (quote_with q ident) (ident_tokens ident).
Proof.
  unfold quote_with, ident_tokens. case_bool_decide; [| apply dotted_reads].
  by apply closes_reads, byte_closes.
Qed.
End Quoting.

Lemma safe_not c d : safe_byte c = true -> safe_byte d = false -> c <> d.
Proof. intros Hc Hd ->. by rewrite Hc in Hd. Qed.

Lemma format_digits_safe f n acc : safe acc = true -> safe (format_digits f n acc) = true.
Proof.
  revert n acc. induction f as [|f IH]; intros n acc Hacc; [done |].
  assert (Hd : safe (String (digit_char (n mod 10)) acc) = true).
  { cbn [safe]. rewrite Hacc, andb_true_r.
    pose proof (Z.mod_pos_bound n 10 ltac:(lia)). set (d := n mod 10) in *. clearbody d. digit_cases d; done. }
  cbn [format_digits]. destruct (n <? 10); [done | by apply IH].
Qed.

Lemma FormatInt_safe n : safe (FormatInt n) = true.
Proof. unfold FormatInt, format_uint. destruct (n <? 0); cbn [safe]; by rewrite format_digits_safe. Qed.

#[export] Instance postgres_lexical : Lexical postgres double_quote "$".
Proof.
  split; [intros c Hc; split; by apply safe_not | done | intros ident; by apply quote_reads |].
  intros n. exists (FormatInt n). split; [apply FormatInt_safe | done].
Qed.

#[export] Instance sqlite_lexical : Lexical sqlite double_quote "?".
Proof.
  split; [intros c Hc; split; by apply safe_not | done | intros ident; by apply quote_reads |].
  intros n. by exists EmptyString.
Qed.

#[export] Instance mysql_lexical : Lexical mysql backtick "?".
Proof.
  split; [intros c Hc; split; by apply safe_not | done | intros ident; by apply quote_reads |].
  intros n. by exists EmptyString.
Qed.

(** ** Templates

    What a statement is before its values are numbered: text, identifiers, values
    in the place of their placeholders, and the caller's own fragments. *)

Section Templates.
Context {V : Type}.

Inductive piece :=
| PLit (s : string)
| PIdent (ident : string)
| PArg (v : V)
| PRaw (text : string) (args : list V).

Definition piece_args (p : piece) : list V :=
  match p with PArg v => [v] | PRaw _ args => args | _ => [] end.

Definition template_args (ps : list piece) : list V := flat_map piece_args ps.

(** The text of a template whose first value has number [n + 1]. *)
Fixpoint render (g : Grammar) (n : Z) (ps : list piece) : string :=
  match ps with
  | [] => EmptyString
  | p :: ps =>
      (match p with
       | PLit s => s
       | PIdent ident => Quote g ident
       | PArg _ => Placeholder g (n + 1)
       | PRaw text _ => text
       end) +:+ render g (n + Z.of_nat (length (piece_args p))) ps
  end.

Lemma template_args_app a b : template_args (a ++ b) = template_args a ++ template_args b.
Proof. unfold template_args. by rewrite flat_map_app. Qed.

Lemma render_app g n a b :
  render g n (a ++ b) = render g n a +:+ render g (n + Z.of_nat (length (template_args a))) b.
Proof.
  revert n. induction a as [|p a IH]; intros n.
  - change (render g n b = render g (n + 0) b). by rewrite Z.add_0_r.
  - change ((p :: a) ++ b) with (p :: (a ++ b)). cbn [render]. rewrite IH, append_app.
    f_equal. f_equal. f_equal. unfold template_args. cbn [flat_map]. rewrite length_app. lia.
Qed.

(** The same pieces, with other values. *)
Definition same_shape_piece (p p' : piece) : Prop :=
  match p, p' with
  | PLit s, PLit s' => s = s'
  | PIdent i, PIdent i' => i = i'
  | PArg _, PArg _ => True
  | PRaw t a, PRaw t' a' => t = t' /\ length a = length a'
  | _, _ => False
  end.

Definition same_shape : list piece -> list piece -> Prop := Forall2 same_shape_piece.

Lemma render_shape g n a b : same_shape a b -> render g n a = render g n b.
Proof.
  intros H. revert n. induction H as [|p p' a b Hp _ IH]; intros n; [done |]. cbn [render].
  destruct p as [s|i|v|t l], p' as [s'|i'|v'|t' l']; try done; simpl in Hp.
  - subst s'. by rewrite IH.
  - subst i'. by rewrite IH.
  - by rewrite IH.
  - destruct Hp as [-> Hl]. cbn [piece_args]. by rewrite Hl, IH.
Qed.

(** ** Reading a template back *)

Section Tokens.
Context {g : Grammar} {q param : ascii} `{!Lexical g q param}.
(** How the caller's fragments read. *)
Context (raw_tokens : string -> list token).

Fixpoint tokens (n : Z) (ps : list piece) : list token :=
  match ps with
  | [] => []
  | p :: ps =>
      (match p with
       | PLit s => bytes s
       | PIdent ident => ident_tokens ident
       | PArg _ => marker g (n + 1)
       | PRaw text _ => raw_tokens text
       end) ++ tokens (n + Z.of_nat (length (piece_args p))) ps
  end.

(** The text is in safe bytes, the fragments read on their own, with a marker for
    each of their arguments, and what follows an identifier or a fragment is text
    or a value. *)
Definition params (ts : list token) : nat := length (List.filter (fun t => match t with TParam => true | _ => false end) ts).

Definition sound_piece (p : piece) : Prop :=
  match p with
  | PLit s => safe s = true /\ s <> EmptyString
  | PRaw text args => reads q param text (raw_tokens text) /\ params (raw_tokens text) = length args
  | _ => True
  end.

Definition open_ended (p : piece) : bool := match p with PIdent _ | PRaw _ _ => true | _ => false end.

Fixpoint spaced (ps : list piece) : bool :=
  match ps with
  | [] => true
  | p :: ps =>
      match ps with [] => true | p' :: _ => negb (open_ended p && open_ended p') && spaced ps end
  end.

Lemma params_app a b : params (a ++ b) = (params a + params b)%nat.
Proof. unfold params. by rewrite List.filter_app, length_app. Qed.

Lemma params_bytes s : params (bytes s) = 0%nat.
Proof. unfold bytes. induction (String.list_ascii_of_string s) as [|c l IH]; [done | exact IH]. Qed.

Lemma params_ident ident : params (ident_tokens ident) = 0%nat.
Proof.
  unfold ident_tokens. case_bool_decide; [done |].
  induction (Split "." ident) as [|p [|p' l] IH]; [done | done |]. exact IH.
Qed.

Lemma params_marker n : params (marker g n) = 1%nat.
Proof.
  unfold marker. destruct (lex_placeholder n) as (tail & _ & ->).
  change (TParam :: bytes tail) with ([TParam] ++ bytes tail). by rewrite params_app, params_bytes.
Qed.

Lemma params_tokens n ps : Forall sound_piece ps -> params (tokens n ps) = length (template_args ps).
Proof.
  intros H. revert n. induction H as [|p ps Hp _ IH]; intros n; [done |]. cbn [tokens].
  unfold template_args in *. cbn [flat_map]. rewrite params_app, IH, length_app. f_equal.
  destruct p; [apply params_bytes | apply params_ident | apply params_marker | by destruct Hp].
Qed.

Lemma piece_soft n p ps : sound_piece p -> open_ended p = false -> soft q (render g n (p :: ps)).
Proof.
  intros Hs Ho. destruct p as [s| |v|]; try done; cbn [render]; apply soft_app.
  - destruct Hs as [Hs Hn]. destruct s as [|c s]; [done |]. apply andb_prop in Hs as [Hc _]. by apply (safe_soft c s).
  - apply placeholder_closes.
Qed.

Lemma render_reads n ps : Forall sound_piece ps -> spaced ps = true -> reads q param (render g n ps) (tokens n ps).
Proof.
  intros H. revert n. induction H as [|p ps Hp Hps IH]; intros n Hsp; [apply closes_reads, closes_nil |].
  assert (Hsp' : spaced ps = true) by (destruct ps as [|p' ps]; [done | by apply andb_prop in Hsp as [_ ?]]).
  pose proof (IH (n + Z.of_nat (length (piece_args p))) Hsp') as Hrest. cbn [render tokens].
  assert (Hopen : forall s ts, reads q param s ts -> open_ended p = true ->
    reads q param (s +:+ render g (n + Z.of_nat (length (piece_args p))) ps)
      (ts ++ tokens (n + Z.of_nat (length (piece_args p))) ps)).
  { intros s ts Hs Ho. destruct ps as [|p' ps]; [by cbn [render tokens]; rewrite append_empty_r, app_nil_r |].
    apply reads_app; [done | | done]. apply andb_prop in Hsp as [Hadj _]. rewrite Ho in Hadj.
    apply piece_soft; [by apply Forall_inv in Hps | by destruct (open_ended p')]. }
  destruct p as [s|ident|v|text args].
  - apply closes_reads_app; [by apply safe_closes; destruct Hp | done].
  - apply Hopen; [apply lex_quote | done].
  - apply closes_reads_app; [apply placeholder_closes | done].
  - apply Hopen; [by destruct Hp | done].
Qed.

(** A template reads back as its tokens, with a marker for each of its values. *)
Lemma render_scan ps :
  Forall sound_piece ps -> spaced ps = true ->
  scan q param Outside (render g 0 ps) = Some (tokens 0 ps) /\ params (tokens 0 ps) = length (template_args ps).
Proof. intros Hs Hsp. split; [by apply reads_scan, render_reads | by apply params_tokens]. Qed.
End Tokens.
End Templates.
