(* ===== verification/Query.v ===== *)
(** The query builder of [src/query/builder.go].

    A [Builder] is the record of its clauses; each chaining method is a function,
    [None] where the method panics.  A group's callback is a function on the
    builder it is given, of which only the conditions are kept.  The terminal
    methods compile a statement and hand it to an executor, which is an argument
    of the model. *)

From Stdlib Require Import ZArith Lia Ascii.
From stdpp Require Import base gmap strings list numbers sorting.
From S2P Require Import Prelude GoRt GoStrconv GoUtf8 Sql.

#[local] Set Warnings "-register-all".
#[local] Open Scope string_scope.
#[local] Open Scope list_scope.
#[local] Open Scope Z_scope.

(** ** Data *)

(** A Go [any]: [TypedNil] is a nil pointer or map or, when [slice], a nil slice;
    [Slice] is any other slice or array than [[]byte], [Func] a function. *)
Inductive any :=
| Nil
| TypedNil (slice : bool)
| Str (s : string)
| Int (n : Z)
| Bytes (s : string)
| Slice (items : list any)
| Func
| BoolV (b : bool)
| TimeV (t : Z)
| Other (id : nat).

Inductive Op :=
| OpZero | OpEq | OpNe | OpLt | OpLte | OpGt | OpGte | OpLike | OpILike | OpIn | OpNotIn
| OpBetween | OpNotBetween | OpIsNull | OpNotNull.

Definition op_text (op : Op) : string :=
  match op with
  | OpZero => EmptyString
  | OpEq => "=" | OpNe => "<>" | OpLt => "<" | OpLte => "<=" | OpGt => ">" | OpGte => ">="
  | OpLike => "like" | OpILike => "ilike" | OpIn => "in" | OpNotIn => "not in"
  | OpBetween => "between" | OpNotBetween => "not between" | OpIsNull => "is null" | OpNotNull => "is not null"
  end.

Inductive glue := bAnd | bOr.
Definition glue_text (b : glue) : string := match b with bAnd => "AND" | bOr => "OR" end.

(** Of a nested builder only the conditions are ever read. *)
Inductive condition :=
| Cond (bool : glue) (col : string) (op : Op) (values : list any) (raw : string) (args : list any)
    (nested : option (list condition)).

Definition c_bool (c : condition) : glue := match c with Cond b _ _ _ _ _ _ => b end.

Record orderClause := mkOrder { o_column : string; o_dir : string; o_raw : bool }.
Record joinClause := mkJoin { j_kind : string; j_table : string; j_on : string; j_args : list any }.

Record Builder := mkBuilder {
  table : string; cols : list string; distinct : bool; wheres : list condition;
  joins : list joinClause; groups : list string; havings : list condition;
  orders : list orderClause; limit : Z; offset : Z; lockClause : string }.

Definition set_wheres (ws : list condition) (b : Builder) : Builder :=
  mkBuilder (table b) (cols b) (distinct b) ws (joins b) (groups b) (havings b) (orders b) (limit b) (offset b) (lockClause b).
Definition set_orders (os : list orderClause) (b : Builder) : Builder :=
  mkBuilder (table b) (cols b) (distinct b) (wheres b) (joins b) (groups b) (havings b) os (limit b) (offset b) (lockClause b).
Definition set_cols (cs : list string) (b : Builder) : Builder :=
  mkBuilder (table b) cs (distinct b) (wheres b) (joins b) (groups b) (havings b) (orders b) (limit b) (offset b) (lockClause b).
Definition set_joins (js : list joinClause) (b : Builder) : Builder :=
  mkBuilder (table b) (cols b) (distinct b) (wheres b) js (groups b) (havings b) (orders b) (limit b) (offset b) (lockClause b).
Definition set_bounds (l o : Z) (b : Builder) : Builder :=
  mkBuilder (table b) (cols b) (distinct b) (wheres b) (joins b) (groups b) (havings b) (orders b) l o (lockClause b).
Definition set_lock (l : string) (b : Builder) : Builder :=
  mkBuilder (table b) (cols b) (distinct b) (wheres b) (joins b) (groups b) (havings b) (orders b) (limit b) (offset b) l.

Definition New (table : string) : Builder := mkBuilder table [] false [] [] [] [] [] 0 0 EmptyString.
Definition newSubBuilder : Builder := New EmptyString.

(** ** Helpers *)

Definition isNil (v : any) : bool := match v with Nil | TypedNil _ => true | _ => false end.

Definition nullAware (c : condition) : condition :=
  match c with
  | Cond b col op [v] raw args nested =>
      if isNil v then
        match op with
        | OpEq => Cond b col OpIsNull [] raw args nested
        | OpNe => Cond b col OpNotNull [] raw args nested
        | _ => c
        end
      else c
  | _ => c
  end.

Definition expand (values : any) : list any :=
  match values with
  | Slice items => items
  | TypedNil true => []
  | v => [v]
  end.

(** [sortStrings] moves each element down from the end of the sorted prefix,
    which is kept reversed here. *)
Fixpoint sort_down (x : string) (prefix : list string) : list string :=
  match prefix with
  | [] => [x]
  | y :: prefix =>
      match String.compare y x with
      | Gt => y :: sort_down x prefix
      | _ => x :: y :: prefix
      end
  end.

Definition sortStrings (s : list string) : list string := rev (fold_left (fun prefix x => sort_down x prefix) s []).

(** [strings.Contains]. *)
Fixpoint contains (sub s : string) : bool :=
  String.prefix sub s || match s with EmptyString => false | String _ s => contains sub s end.

Section Building.
Context (uni_lower uni_upper : string -> string).
(** [fmt.Sprintf("%v", v)]. *)
Context (sprint : any -> string).

Definition ToLower (s : string) : string := if is_ascii s then string_map lower_ascii s else uni_lower s.
Definition ToUpper (s : string) : string := if is_ascii s then string_map upper_ascii s else uni_upper s.

Definition asString (v : any) : string := match v with Str s => s | v => sprint v end.

Definition normalizeOp (op : string) : option Op :=
  assoc (ToLower (TrimSpace op))
    [("=", OpEq); ("<>", OpNe); ("!=", OpNe); ("<", OpLt); ("<=", OpLte); (">", OpGt); (">=", OpGte);
     ("like", OpLike); ("ilike", OpILike)].

Definition normalizeDir (dir : string) : option string :=
  assoc (ToUpper (TrimSpace dir)) [(EmptyString, "ASC"); ("ASC", "ASC"); ("DESC", "DESC")].

(** ** Chaining methods *)

Definition From (table : string) (b : Builder) : Builder :=
  mkBuilder table (cols b) (distinct b) (wheres b) (joins b) (groups b) (havings b) (orders b) (limit b) (offset b) (lockClause b).
Definition Select (cs : list string) (b : Builder) : Builder := set_cols cs b.
Definition Distinct (b : Builder) : Builder :=
  mkBuilder (table b) (cols b) true (wheres b) (joins b) (groups b) (havings b) (orders b) (limit b) (offset b) (lockClause b).

Definition add_where (c : condition) (b : Builder) : Builder := set_wheres (wheres b ++ [c]) b.

(** One argument of [Where]. *)
Inductive warg := AFunc (f : Builder -> option Builder) | AVal (v : any).
Definition warg_value (a : warg) : any := match a with AFunc _ => Func | AVal v => v end.

Definition addWhere (boolean : glue) (args : list warg) (b : Builder) : option Builder :=
  match args with
  | [AFunc f] =>
      nested ← f newSubBuilder;
      match wheres nested with
      | [] => Some b
      | ws => Some (add_where (Cond boolean EmptyString OpZero [] EmptyString [] (Some ws)) b)
      end
  | [c; v] =>
      Some (add_where (nullAware (Cond boolean (asString (warg_value c)) OpEq [warg_value v] EmptyString [] None)) b)
  | [c; o; v] =>
      op ← normalizeOp (asString (warg_value o));
      Some (add_where (nullAware (Cond boolean (asString (warg_value c)) op [warg_value v] EmptyString [] None)) b)
  | _ => None
  end.

Definition Where (args : list warg) (b : Builder) : option Builder := addWhere bAnd args b.
Definition OrWhere (args : list warg) (b : Builder) : option Builder := addWhere bOr args b.

Definition WrapWheres (b : Builder) : Builder :=
  if existsb (fun c => match c_bool c with bOr => true | bAnd => false end) (wheres b)
  then set_wheres [Cond bAnd EmptyString OpZero [] EmptyString [] (Some (wheres b))] b
  else b.

Definition addInWhere (boolean : glue) (col : string) (op : Op) (values : any) (b : Builder) : Builder :=
  add_where (Cond boolean col op (expand values) EmptyString [] None) b.
Definition WhereIn (col : string) (values : any) (b : Builder) : Builder := addInWhere bAnd col OpIn values b.
Definition WhereNotIn (col : string) (values : any) (b : Builder) : Builder := addInWhere bAnd col OpNotIn values b.
Definition WhereNull (col : string) (b : Builder) : Builder :=
  add_where (Cond bAnd col OpIsNull [] EmptyString [] None) b.
Definition WhereNotNull (col : string) (b : Builder) : Builder :=
  add_where (Cond bAnd col OpNotNull [] EmptyString [] None) b.
Definition WhereBetween (col : string) (lo hi : any) (b : Builder) : Builder :=
  add_where (Cond bAnd col OpBetween [lo; hi] EmptyString [] None) b.
Definition WhereRaw (expr : string) (args : list any) (b : Builder) : Builder :=
  add_where (Cond bAnd EmptyString OpZero [] expr args None) b.

Definition Join (table on : string) (args : list any) (b : Builder) : Builder :=
  set_joins (joins b ++ [mkJoin "INNER" table on args]) b.
Definition LeftJoin (table on : string) (args : list any) (b : Builder) : Builder :=
  set_joins (joins b ++ [mkJoin "LEFT" table on args]) b.

Definition GroupBy (cs : list string) (b : Builder) : Builder :=
  mkBuilder (table b) (cols b) (distinct b) (wheres b) (joins b) (groups b ++ cs) (havings b) (orders b) (limit b) (offset b) (lockClause b).

Definition Having (col op : string) (value : any) (b : Builder) : option Builder :=
  o ← normalizeOp op;
  Some (mkBuilder (table b) (cols b) (distinct b) (wheres b) (joins b) (groups b)
    (havings b ++ [Cond bAnd col o [value] EmptyString [] None]) (orders b) (limit b) (offset b) (lockClause b)).

Definition OrderBy (col dir : string) (b : Builder) : option Builder :=
  d ← normalizeDir dir; Some (set_orders (orders b ++ [mkOrder col d false]) b).
Definition OrderByRaw (expr : string) (b : Builder) : Builder :=
  set_orders (orders b ++ [mkOrder expr EmptyString true]) b.
Definition Latest (col : list string) (b : Builder) : option Builder :=
  OrderBy (match col with [] => "created_at" | c :: _ => c end) "DESC" b.
Definition Oldest (col : list string) (b : Builder) : option Builder :=
  OrderBy (match col with [] => "created_at" | c :: _ => c end) "ASC" b.

Definition Limit (n : Z) (b : Builder) : Builder := set_bounds n (offset b) b.
Definition Offset (n : Z) (b : Builder) : Builder := set_bounds (limit b) n b.

Definition LockForUpdate (g : Grammar) (b : Builder) : Builder :=
  if bool_decide (Name g = "sqlite") then b else set_lock " FOR UPDATE" b.
Definition SharedLock (g : Grammar) (b : Builder) : Builder :=
  if bool_decide (Name g = "sqlite") then b else set_lock " FOR SHARE" b.

(** ** Compilation *)

Definition quoteSelectable (g : Grammar) (s : string) : string :=
  let trim := TrimSpace s in
  if bool_decide (trim = EmptyString) || bool_decide (trim = "*") then "*"
  else if has_byte "(" trim || contains " AS " (ToUpper trim) then trim
  else Quote g trim.

Definition quoteColumn (g : Grammar) (s : string) : string :=
  let trim := TrimSpace s in
  if bool_decide (trim = EmptyString) || bool_decide (trim = "*") then "*" else Quote g trim.

(** The placeholders of [values], the first one with number [n + 1]. *)
Fixpoint placeholders (g : Grammar) (n : Z) (values : list any) : list string :=
  match values with
  | [] => []
  | _ :: values => Placeholder g (n + 1) :: placeholders g (n + 1) values
  end.

(** What compiling conditions gives: text, arguments and the binding counter. *)
Definition compiled : Type := option (string * list any * Z).

Section Loop.
Context (compile : condition -> Z -> compiled).

(** The loop of [compileWheres]; [first] is [i = 0]. *)
Fixpoint compile_loop (first : bool) (conds : list condition) (n : Z) : compiled :=
  match conds with
  | [] => Some (EmptyString, [], n)
  | c :: conds =>
      '(sql, args, n) ← compile c n;
      '(sql', args', n) ← compile_loop false conds n;
      Some ((if first then EmptyString else " " +:+ glue_text (c_bool c) +:+ " ") +:+ sql +:+ sql', args ++ args', n)
  end.
End Loop.

Fixpoint compile_cond (g : Grammar) (c : condition) (n : Z) : compiled :=
  match c with
  | Cond _ col op values raw args nested =>
      match nested with
      | Some conds =>
          '(sql, args, n) ← compile_loop (compile_cond g) true conds n;
          Some ("(" +:+ sql +:+ ")", args, n)
      | None =>
          if negb (bool_decide (raw = EmptyString)) then Some (raw, args, n + Z.of_nat (length args))
          else
            match op with
            | OpIsNull | OpNotNull => Some (quoteColumn g col +:+ " " +:+ ToUpper (op_text op), [], n)
            | OpIn | OpNotIn =>
                match values with
                | [] => Some (match op with OpIn => "1 = 0" | _ => "1 = 1" end, [], n)
                | _ =>
                    Some (quoteColumn g col +:+ " " +:+ ToUpper (op_text op) +:+ " ("
                            +:+ join ", " (placeholders g n values) +:+ ")",
                          values, n + Z.of_nat (length values))
                end
            | OpBetween | OpNotBetween =>
                Some (quoteColumn g col +:+ " " +:+ ToUpper (op_text op) +:+ " " +:+ Placeholder g (n + 1)
                        +:+ " AND " +:+ Placeholder g (n + 2), values, n + 2)
            | _ =>
                (* [c.values[0]] *)
                match values with
                | [] => None
                | v :: _ =>
                    Some (quoteColumn g col +:+ " " +:+ ToUpper (op_text op) +:+ " " +:+ Placeholder g (n + 1),
                          [v], n + 1)
                end
            end
      end
  end.

Definition compileWheres (g : Grammar) (conds : list condition) (n : Z) : compiled :=
  compile_loop (compile_cond g) true conds n.

(** [keyword] and the conditions, when there are any. *)
Definition compile_clause (g : Grammar) (keyword : string) (conds : list condition) (n : Z) : compiled :=
  match conds with
  | [] => Some (EmptyString, [], n)
  | _ => '(sql, args, n) ← compileWheres g conds n; Some (keyword +:+ sql, args, n)
  end.

Fixpoint compile_joins (g : Grammar) (js : list joinClause) (n : Z) : string * list any * Z :=
  match js with
  | [] => (EmptyString, [], n)
  | j :: js =>
      let '(sql, args, n) := compile_joins g js (n + Z.of_nat (length (j_args j))) in
      (" " +:+ j_kind j +:+ " JOIN " +:+ Quote g (j_table j) +:+ " ON " +:+ j_on j +:+ sql, j_args j ++ args, n)
  end.

Definition compile_order (g : Grammar) (o : orderClause) : string :=
  if o_raw o then o_column o else quoteColumn g (o_column o) +:+ " " +:+ o_dir o.

Definition compile_bounds (g : Grammar) (b : Builder) : string :=
  (if 0 <? limit b then " LIMIT " +:+ FormatInt (limit b)
   else if 0 <? offset b then
     if bool_decide (Name g = "sqlite") then " LIMIT -1"
     else if bool_decide (Name g = "mysql") then " LIMIT 18446744073709551615"
     else EmptyString
   else EmptyString)
  +:+ (if 0 <? offset b then " OFFSET " +:+ FormatInt (offset b) else EmptyString).

Inductive qerror (E : Type) := QNoTable | QNoValues | QNoRows | QDriver (e : E).
Arguments QNoTable {E}.
Arguments QNoValues {E}.
Arguments QNoRows {E}.
Arguments QDriver {E} e.

Definition ToSQL {E} (g : Grammar) (b : Builder) : option (result (qerror E) (string * list any)) :=
  if bool_decide (table b = EmptyString) then Some (Err QNoTable)
  else
    let head := "SELECT " +:+ (if distinct b then "DISTINCT " else EmptyString)
      +:+ (match cols b with [] => "*" | cs => join ", " (map (quoteSelectable g) cs) end)
      +:+ " FROM " +:+ Quote g (table b) in
    let '(joined, jargs, n) := compile_joins g (joins b) 0 in
    '(where_, wargs, n) ← compile_clause g " WHERE " (wheres b) n;
    let grouped := match groups b with
                   | [] => EmptyString
                   | cs => " GROUP BY " +:+ join ", " (map (quoteColumn g) cs)
                   end in
    '(having, hargs, _) ← compile_clause g " HAVING " (havings b) n;
    let ordered := match orders b with
                   | [] => EmptyString
                   | os => " ORDER BY " +:+ join ", " (map (compile_order g) os)
                   end in
    Some (Ok (head +:+ joined +:+ where_ +:+ grouped +:+ having +:+ ordered +:+ compile_bounds g b +:+ lockClause b,
              jargs ++ wargs ++ hargs)).

(** ** Terminal methods *)

Section Terminal.
Context {E Rows Res : Type} (g : Grammar).
(** The executor, and what the driver makes of its results. *)
Context (QueryContext : string -> list any -> result E Rows).
Context (QueryInt : string -> list any -> result E Z).
Context (QueryFloat : string -> list any -> result E (option float64)).
Context (ExecContext : string -> list any -> result E Res).
Context (LastInsertId RowsAffected : Res -> result E Z).

Definition driver {A} (r : result E A) : result (qerror E) A :=
  match r with Ok a => Ok a | Err e => Err (QDriver e) end.

Definition Get (b : Builder) : option (result (qerror E) Rows) :=
  r ← ToSQL g b;
  Some (match r with Ok (q, args) => driver (QueryContext q args) | Err e => Err e end).

Definition Count (b : Builder) : option (result (qerror E) Z) :=
  let clone := set_bounds 0 0 (set_orders [] b) in
  let '(open, clone, close) :=
    match groups clone, distinct clone with
    | [], false => (EmptyString, set_cols ["COUNT(*) AS aggregate"] clone, EmptyString)
    | _, _ => ("SELECT COUNT(*) AS aggregate FROM (", clone, ") sub")
    end in
  r ← ToSQL g clone;
  Some (match r with
        | Ok (q, args) => driver (QueryInt (open +:+ q +:+ close) args)
        | Err e => Err e
        end).

Definition Exists (b : Builder) : option (result (qerror E) bool) :=
  r ← Count (Limit 1 b);
  Some (match r with Ok n => Ok (0 <? n) | Err e => Err e end).

Definition aggregate (fn col : string) (b : Builder) : option (result (qerror E) float64) :=
  let clone := set_bounds 0 0 (set_orders [] (set_cols [fn +:+ "(" +:+ Quote g col +:+ ") AS aggregate"] b)) in
  r ← ToSQL g clone;
  Some (match r with
        | Ok (q, args) =>
            match QueryFloat q args with
            | Ok (Some v) => Ok v
            | Ok None => Ok fzero
            | Err e => Err (QDriver e)
            end
        | Err e => Err e
        end).
Definition Sum (col : string) (b : Builder) := aggregate "SUM" col b.
Definition Avg (col : string) (b : Builder) := aggregate "AVG" col b.
Definition Max (col : string) (b : Builder) := aggregate "MAX" col b.
Definition Min (col : string) (b : Builder) := aggregate "MIN" col b.

(** A Go map of values: an association list in the order the map is visited. *)
Definition row : Type := list (string * any).
Definition row_get (values : row) (c : string) : any := default Nil (assoc c values).

Definition insert_text (b : Builder) (values : row) : string * list any :=
  let cs := sortStrings (map fst values) in
  let args := map (row_get values) cs in
  ("INSERT INTO " +:+ Quote g (table b) +:+ " (" +:+ join ", " (map (Quote g) cs) +:+ ") VALUES ("
     +:+ join ", " (placeholders g 0 args) +:+ ")", args).

Definition Insert (values : row) (b : Builder) : result (qerror E) Res :=
  let '(q, args) := insert_text b values in driver (ExecContext q args).

Definition InsertGetID (values : row) (pk : string) (b : Builder) : result (qerror E) Z :=
  let '(base, args) := insert_text b values in
  match LastInsertIDStrategy g with
  | InsertIDViaReturning => driver (QueryInt (base +:+ " RETURNING " +:+ Quote g pk) args)
  | InsertIDFromResult =>
      match ExecContext base args with
      | Ok res => driver (LastInsertId res)
      | Err e => Err (QDriver e)
      end
  end.

Fixpoint batch_groups (cs : list string) (n : Z) (rows : list row) : list string * list any :=
  match rows with
  | [] => ([], [])
  | r :: rows =>
      let args := map (row_get r) cs in
      let '(texts, rest) := batch_groups cs (n + Z.of_nat (length cs)) rows in
      (("(" +:+ join ", " (placeholders g n args) +:+ ")") :: texts, args ++ rest)
  end.

Definition InsertBatch (rows : list row) (b : Builder) : result (qerror E) Res :=
  match rows with
  | [] => Err QNoRows
  | r :: _ =>
      let cs := sortStrings (map fst r) in
      let '(texts, args) := batch_groups cs 0 rows in
      driver (ExecContext ("INSERT INTO " +:+ Quote g (table b) +:+ " (" +:+ join ", " (map (Quote g) cs)
                             +:+ ") VALUES " +:+ join ", " texts) args)
  end.

Fixpoint update_sets (cs : list string) (n : Z) : list string :=
  match cs with
  | [] => []
  | c :: cs => (Quote g c +:+ " = " +:+ Placeholder g (n + 1)) :: update_sets cs (n + 1)
  end.

Definition update_text (values : row) (b : Builder) : option (string * list any) :=
  let cs := sortStrings (map fst values) in
  '(where_, wargs, _) ← compile_clause g " WHERE " (wheres b) (Z.of_nat (length cs));
  Some ("UPDATE " +:+ Quote g (table b) +:+ " SET " +:+ join ", " (update_sets cs 0) +:+ where_,
        map (row_get values) cs ++ wargs).

Definition affected (r : result E Res) : result (qerror E) Z :=
  match r with Ok res => driver (RowsAffected res) | Err e => Err (QDriver e) end.

Definition Update (values : row) (b : Builder) : option (result (qerror E) Z) :=
  match values with
  | [] => Some (Err QNoValues)
  | _ => '(q, args) ← update_text values b; Some (affected (ExecContext q args))
  end.

Definition delete_text (b : Builder) : option (string * list any) :=
  '(where_, wargs, _) ← compile_clause g " WHERE " (wheres b) 0;
  Some ("DELETE FROM " +:+ Quote g (table b) +:+ where_, wargs).

Definition Delete (b : Builder) : option (result (qerror E) Z) :=
  '(q, args) ← delete_text b; Some (affected (ExecContext q args)).

Definition Truncate (b : Builder) : result (qerror E) unit :=
  let q := (if bool_decide (Name g = "sqlite") then "DELETE FROM " else "TRUNCATE TABLE ") +:+ Quote g (table b) in
  match ExecContext q [] with Ok _ => Ok tt | Err e => Err (QDriver e) end.
End Terminal.
End Building.

(** ** The order of a Go map *)

Definition down (x y : string) : Prop := String.le y x.

#[local] Instance down_trans : Transitive down.
Proof. intros x y z H1 H2. unfold down in *. by etrans. Qed.

#[local] Instance down_antisymm : AntiSymm (=) down.
Proof. intros x y H1 H2. by apply (anti_symm String.le). Qed.

Lemma sort_down_perm x p : sort_down x p ≡ₚ x :: p.
Proof.
  induction p as [|y p IH]; [done |]. simpl. destruct (String.compare y x); [done | done |].
  rewrite IH. constructor.
Qed.

Lemma sort_down_sorted x p : StronglySorted down p -> StronglySorted down (sort_down x p).
Proof.
  induction 1 as [|y p Hs IH Hy]; [by repeat constructor |]. simpl.
  assert (Hcmp : match String.compare y x with Gt => String.le x y | _ => String.le y x end).
  { unfold String.le, String.leb. rewrite (String.compare_antisym x y). by destruct (String.compare y x). }
  assert (Hle : String.le y x -> StronglySorted down (x :: y :: p)).
  { intros H. constructor; [by constructor |]. constructor; [done |].
    eapply list.Forall_impl; [exact Hy |]. intros z Hz. unfold down in *. by etrans. }
  destruct (String.compare y x); [by apply Hle | by apply Hle |]. constructor; [done |].
  rewrite sort_down_perm. by constructor.
Qed.

Lemma fold_sorted l p :
  StronglySorted down p ->
  StronglySorted down (fold_left (fun prefix x => sort_down x prefix) l p)
  /\ fold_left (fun prefix x => sort_down x prefix) l p ≡ₚ l ++ p.
Proof.
  revert p. induction l as [|x l IH]; intros p Hp; [done |]. simpl.
  destruct (IH (sort_down x p) (sort_down_sorted _ _ Hp)) as [H1 H2]. split; [done |].
  rewrite H2, sort_down_perm. by rewrite Permutation_middle.
Qed.

Lemma sortStrings_perm l l' : l ≡ₚ l' -> sortStrings l = sortStrings l'.
Proof.
  intros H. unfold sortStrings. f_equal.
  destruct (fold_sorted l []) as [H1 H2]; [constructor |]. destruct (fold_sorted l' []) as [H3 H4]; [constructor |].
  apply (StronglySorted_unique down); [done | done |]. rewrite H2, H4. by rewrite H.
Qed.

Lemma row_get_perm (values values' : row) c :
  NoDup (map fst values) -> values ≡ₚ values' -> row_get values c = row_get values' c.
Proof.
  intros Hnd Hp. unfold row_get. f_equal.
  destruct (assoc c values) as [v|] eqn:E.
  - apply assoc_Some_in in E. rewrite Hp in E. destruct (assoc c values') as [v'|] eqn:E'.
    + apply assoc_Some_in in E'. f_equal.
      assert (Hnd' : NoDup (map fst values')) by by rewrite <- Hp.
      clear -E E' Hnd'. induction values' as [|[k w] l IH]; [inversion E |].
      apply list.NoDup_cons in Hnd' as [Hni Hnd].
      apply elem_of_cons in E as [[= <- <-]|E], E' as [E'|E']; [by injection E' | | |].
      * destruct Hni. apply list_elem_of_fmap. by exists (c, v').
      * injection E' as <- <-. destruct Hni. apply list_elem_of_fmap. by exists (c, v).
      * by apply IH.
    + apply assoc_None in E'. destruct E'. apply list_elem_of_fmap. by exists (c, v).
  - apply assoc_None in E. symmetry. apply assoc_None. intros Hin. apply E.
    apply list_elem_of_fmap in Hin as (kv & -> & Hin). apply list_elem_of_fmap. exists kv. by rewrite Hp.
Qed.
(** An INSERT or an UPDATE does not depend on the order in which Go visits the
    map of its values. *)
Theorem statement_order_free uni_upper g (values values' : row) b
    (Hkeys : NoDup (map fst values)) (Hperm : values ≡ₚ values') :
  insert_text g b values = insert_text g b values'
  /\ update_text uni_upper g values b = update_text uni_upper g values' b.
Proof.
  assert (Hs : sortStrings (map fst values) = sortStrings (map fst values')) by (apply sortStrings_perm; by rewrite Hperm).
  assert (Hg : forall cs, map (row_get values) cs = map (row_get values') cs)
    by (intros cs; apply map_ext; intros c; by apply row_get_perm).
  unfold insert_text, update_text. by rewrite Hs, !Hg.
Qed.

(** ** A concrete row *)

Definition keep (s : string) : string := s.
Definition user_row : row := [("name", Str "Ada"); ("age", Int 36)].

Lemma statement_order_free_witness :
  insert_text mysql (New "users") user_row = insert_text mysql (New "users") (rev user_row)
  /\ update_text keep mysql user_row (New "users") = update_text keep mysql (rev user_row) (New "users").
Proof.
  apply (statement_order_free keep mysql user_row (rev user_row) (New "users")).
  - simpl. repeat (constructor; [set_solver |]). constructor.
  - apply Permutation_rev.
Defined.
