(* ===== verification/QuerySpec.v ===== *)
(** What the query builder promises: a builder stands for a template, its
    compiled statement is the template rendered, and the template reads back. *)

From Stdlib Require Import ZArith Lia Ascii.
From stdpp Require Import base gmap strings list numbers.
From S2P Require Import Prelude GoRt GoStrconv GoUtf8 Sql Query.

#[local] Open Scope string_scope.
#[local] Open Scope list_scope.
#[local] Open Scope Z_scope.

Notation piece := (@piece any).

(** ** Induction on conditions *)

Section CondInd.
Context (Pr : condition -> Prop).
Context (Hnested : forall b col op vs raw args conds, Forall Pr conds -> Pr (Cond b col op vs raw args (Some conds))).
Context (Hflat : forall b col op vs raw args, Pr (Cond b col op vs raw args None)).

Fixpoint cond_nested_ind (c : condition) : Pr c :=
  match c with
  | Cond b col op vs raw args (Some conds) =>
      Hnested b col op vs raw args conds ((fix go (l : list condition) : Forall Pr l :=
        match l with
        | [] => @List.Forall_nil _ Pr
        | x :: l => @List.Forall_cons _ Pr x l (cond_nested_ind x) (go l)
        end) conds)
  | Cond b col op vs raw args None => Hflat b col op vs raw args
  end.
End CondInd.

(** ** Templates of the clauses *)

(** Pieces with a separator in between. *)
Fixpoint sep_pieces (sep : string) (l : list (list piece)) : list piece :=
  match l with
  | [] => []
  | [ps] => ps
  | ps :: l => ps ++ PLit sep :: sep_pieces sep l
  end.

Section Spec.
Context (uni_upper : string -> string) (g : Grammar).

Definition column (col : string) : piece :=
  let trim := TrimSpace col in
  if bool_decide (trim = EmptyString) || bool_decide (trim = "*") then PLit "*" else PIdent trim.

Definition selectable (s : string) : piece :=
  let trim := TrimSpace s in
  if bool_decide (trim = EmptyString) || bool_decide (trim = "*") then PLit "*"
  else if has_byte "(" trim || contains " AS " (ToUpper uni_upper trim) then PRaw trim [] else PIdent trim.

Definition keyword (op : Op) : string := string_map upper_ascii (op_text op).

Section LoopPieces.
Context (pieces : condition -> list piece).

Fixpoint loop_pieces (first : bool) (conds : list condition) : list piece :=
  match conds with
  | [] => []
  | c :: conds =>
      (if first then [] else [PLit (" " +:+ glue_text (c_bool c) +:+ " ")]) ++ pieces c ++ loop_pieces false conds
  end.
End LoopPieces.

Fixpoint cond_pieces (c : condition) : list piece :=
  match c with
  | Cond _ col op values raw args nested =>
      match nested with
      | Some conds => PLit "(" :: loop_pieces cond_pieces true conds ++ [PLit ")"]
      | None =>
          if negb (bool_decide (raw = EmptyString)) then [PRaw raw args]
          else
            match op, values with
            | OpIsNull, _ | OpNotNull, _ => [column col; PLit (" " +:+ keyword op)]
            | OpIn, [] => [PLit "1 = 0"]
            | OpNotIn, [] => [PLit "1 = 1"]
            | OpIn, _ | OpNotIn, _ =>
                column col :: PLit (" " +:+ keyword op +:+ " (")
                  :: sep_pieces ", " (map (fun v => [PArg v]) values) ++ [PLit ")"]
            | OpBetween, [lo; hi] | OpNotBetween, [lo; hi] =>
                [column col; PLit (" " +:+ keyword op +:+ " "); PArg lo; PLit " AND "; PArg hi]
            | _, v :: _ => [column col; PLit (" " +:+ keyword op +:+ " "); PArg v]
            | _, [] => []
            end
      end
  end.

Definition clause_pieces (kw : string) (conds : list condition) : list piece :=
  match conds with [] => [] | _ => PLit kw :: loop_pieces cond_pieces true conds end.

Definition join_pieces (j : joinClause) : list piece :=
  [PLit (" " +:+ j_kind j +:+ " JOIN "); PIdent (j_table j); PLit " ON "; PRaw (j_on j) (j_args j)].

Definition order_pieces (o : orderClause) : list piece :=
  if o_raw o then [PRaw (o_column o) []] else [column (o_column o); PLit (" " +:+ o_dir o)].

(** A list with its keyword, when it is not empty. *)
Definition listed (kw : string) (l : list (list piece)) : list piece :=
  match l with [] => [] | _ => PLit kw :: sep_pieces ", " l end.

Definition literal (s : string) : list piece := if bool_decide (s = EmptyString) then [] else [PLit s].

Definition cols_pieces (cs : list string) : list piece :=
  match cs with [] => [PLit "*"] | _ => sep_pieces ", " (map (fun c => [selectable c]) cs) end.

(** The statement of [ToSQL]. *)
Definition select_pieces (b : Builder) : list piece :=
  PLit (if distinct b then "SELECT DISTINCT " else "SELECT ")
    :: cols_pieces (cols b)
    ++ [PLit " FROM "; PIdent (table b)]
    ++ flat_map join_pieces (joins b)
    ++ clause_pieces " WHERE " (wheres b)
    ++ listed " GROUP BY " (map (fun c => [column c]) (groups b))
    ++ clause_pieces " HAVING " (havings b)
    ++ listed " ORDER BY " (map order_pieces (orders b))
    ++ literal (compile_bounds g b)
    ++ literal (lockClause b).

(** ** Well-formed builders *)

Fixpoint wf_cond (c : condition) : bool :=
  match c with
  | Cond _ _ op values raw _ nested =>
      match nested with
      | Some conds => negb (bool_decide (conds = [])) && forallb wf_cond conds
      | None =>
          negb (bool_decide (raw = EmptyString)) ||
          match op with
          | OpIsNull | OpNotNull | OpIn | OpNotIn => true
          | OpBetween | OpNotBetween => (length values =? 2)%nat
          | OpZero => false
          | _ => (length values =? 1)%nat
          end
      end
  end.

Definition wf_order (o : orderClause) : bool := o_raw o || bool_decide (o_dir o = "ASC") || bool_decide (o_dir o = "DESC").
Definition wf_join (j : joinClause) : bool := bool_decide (j_kind j = "INNER") || bool_decide (j_kind j = "LEFT").
Definition wf_lock (l : string) : bool :=
  bool_decide (l = EmptyString) || bool_decide (l = " FOR UPDATE") || bool_decide (l = " FOR SHARE").

Definition wf_builder (b : Builder) : bool :=
  forallb wf_cond (wheres b) && forallb wf_cond (havings b) && forallb wf_order (orders b)
  && forallb wf_join (joins b) && wf_lock (lockClause b).

(** ** Rendering *)

Lemma render_static (ps : list piece) n m : template_args ps = [] -> render g n ps = render g m ps.
Proof.
  revert n m. induction ps as [|p ps IH]; intros n m; [done |].
  unfold template_args. cbn [flat_map]. intros [Hp Hps]%app_eq_nil.
  cbn [render]. rewrite Hp. rewrite (IH _ (m + 0) Hps). by destruct p.
Qed.

Lemma render_cons n p (ps : list piece) :
  render g n (p :: ps) = render g n [p] +:+ render g (n + Z.of_nat (length (piece_args p))) ps.
Proof. cbn [render]. by rewrite append_empty_r. Qed.

Lemma render_lit n s (ps : list piece) : render g n (PLit s :: ps) = s +:+ render g n ps.
Proof. cbn [render piece_args length]. by rewrite Z.add_0_r. Qed.

Lemma render_ident n i (ps : list piece) : render g n (PIdent i :: ps) = Quote g i +:+ render g n ps.
Proof. cbn [render piece_args length]. by rewrite Z.add_0_r. Qed.

Lemma render_arg n v (ps : list piece) : render g n (PArg v :: ps) = Placeholder g (n + 1) +:+ render g (n + 1) ps.
Proof. done. Qed.

Lemma render_raw n t a (ps : list piece) :
  render g n (PRaw t a :: ps) = t +:+ render g (n + Z.of_nat (length a)) ps.
Proof. done. Qed.

Lemma column_args col : piece_args (column col) = [].
Proof. unfold column. by case_match. Qed.

Lemma selectable_args s : piece_args (selectable s) = [].
Proof. unfold selectable. by repeat case_match. Qed.

Lemma render_column n col (ps : list piece) : render g n (column col :: ps) = quoteColumn g col +:+ render g n ps.
Proof. unfold column, quoteColumn. case_match; [apply render_lit | apply render_ident]. Qed.

Lemma render_selectable n s (ps : list piece) :
  render g n (selectable s :: ps) = quoteSelectable uni_upper g s +:+ render g n ps.
Proof.
  unfold selectable, quoteSelectable. repeat case_match; [apply render_lit | | apply render_ident].
  rewrite render_raw. cbn [length]. by rewrite Z.add_0_r.
Qed.

Lemma template_args_cons p (ps : list piece) : template_args (p :: ps) = piece_args p ++ template_args ps.
Proof. done. Qed.

Lemma render_values n (vs : list any) :
  render g n (sep_pieces ", " (map (fun v => [PArg v]) vs)) = join ", " (placeholders g n vs).
Proof.
  revert n. induction vs as [|v [|v' vs] IH]; intros n; [done | |].
  - change (Placeholder g (n + 1) +:+ EmptyString = Placeholder g (n + 1)). apply append_empty_r.
  - change (render g n (PArg v :: PLit ", " :: sep_pieces ", " (map (fun v => [PArg v]) (v' :: vs)))
      = Placeholder g (n + 1) +:+ ", " +:+ join ", " (placeholders g (n + 1) (v' :: vs))).
    by rewrite render_arg, render_lit, IH.
Qed.

Lemma values_args (vs : list any) : template_args (sep_pieces ", " (map (fun v => [PArg v]) vs)) = vs.
Proof.
  induction vs as [|v [|v' vs] IH]; [done | done |].
  change (v :: template_args (sep_pieces ", " (map (fun v => [PArg v]) (v' :: vs))) = v :: v' :: vs). by rewrite IH.
Qed.

(** A separated list of pieces without values. *)
Lemma render_list {A} (f : A -> list piece) (text : A -> string) sep (l : list A) n :
  (forall a m, render g m (f a) = text a) -> (forall a, template_args (f a) = []) ->
  render g n (sep_pieces sep (map f l)) = join sep (map text l).
Proof.
  intros Ht Ha. induction l as [|a [|a' l] IH]; [done | apply Ht |].
  change (render g n (f a ++ PLit sep :: sep_pieces sep (map f (a' :: l)))
    = text a +:+ sep +:+ join sep (map text (a' :: l))).
  rewrite render_app, Ha, Ht. simpl length. rewrite Z.add_0_r, render_lit. by rewrite IH.
Qed.

Lemma list_args {A} (f : A -> list piece) sep (l : list A) :
  (forall a, template_args (f a) = []) -> template_args (sep_pieces sep (map f l)) = [].
Proof.
  intros Ha. induction l as [|a [|a' l] IH]; [done | apply Ha |].
  change (template_args (f a ++ PLit sep :: sep_pieces sep (map f (a' :: l))) = []).
  rewrite template_args_app, Ha. exact IH.
Qed.

(** ** Compilation renders the template *)

(** The result of compiling [ps] from counter [n]. *)
Definition rendered (n : Z) (ps : list piece) : compiled :=
  Some (render g n ps, template_args ps, n + Z.of_nat (length (template_args ps))).

Lemma loop_rendered conds first n :
  Forall (fun c => forall n, compile_cond uni_upper g c n = rendered n (cond_pieces c)) conds ->
  compile_loop (compile_cond uni_upper g) first conds n = rendered n (loop_pieces cond_pieces first conds).
Proof.
  intros Hc. revert first n. induction Hc as [|c conds Hc _ IH]; intros first n.
  - unfold rendered. simpl. by rewrite Z.add_0_r.
  - cbn [compile_loop loop_pieces]. rewrite Hc. unfold rendered at 1. cbn [mbind option_bind].
    rewrite IH. unfold rendered at 1. cbn [mbind option_bind].
    set (sep := if first then [] else [PLit (" " +:+ glue_text (c_bool c) +:+ " ")]).
    assert (Hsep : forall m, render g m sep = if first then EmptyString else " " +:+ glue_text (c_bool c) +:+ " ")
      by (intros m; subst sep; destruct first; [done | by rewrite render_lit, append_empty_r]).
    assert (Hargs : template_args sep = []) by (subst sep; by destruct first).
    unfold rendered. rewrite !render_app, !template_args_app, Hsep, Hargs. cbn [app length].
    rewrite Z.add_0_r, length_app. by rewrite Nat2Z.inj_add, Z.add_assoc.
Qed.

Lemma keyword_upper op : ToUpper uni_upper (op_text op) = keyword op.
Proof. by destruct op. Qed.

Lemma unary_rendered n col kw v :
  Some (quoteColumn g col +:+ " " +:+ kw +:+ " " +:+ Placeholder g (n + 1), [v], n + 1)
  = rendered n [column col; PLit (" " +:+ kw +:+ " "); PArg v].
Proof.
  unfold rendered. rewrite template_args_cons, column_args, render_column, render_lit, render_arg.
  by rewrite !append_app, append_empty_r.
Qed.

Lemma between_rendered n col kw lo hi :
  Some (quoteColumn g col +:+ " " +:+ kw +:+ " " +:+ Placeholder g (n + 1) +:+ " AND " +:+ Placeholder g (n + 2),
    [lo; hi], n + 2)
  = rendered n [column col; PLit (" " +:+ kw +:+ " "); PArg lo; PLit " AND "; PArg hi].
Proof.
  unfold rendered. rewrite template_args_cons, column_args, render_column, !render_lit, render_arg, render_lit, render_arg.
  replace (n + 1 + 1) with (n + 2) by lia. by rewrite !append_app, append_empty_r.
Qed.

Lemma null_rendered n col kw :
  Some (quoteColumn g col +:+ " " +:+ kw, [], n) = rendered n [column col; PLit (" " +:+ kw)].
Proof.
  unfold rendered. rewrite template_args_cons, column_args, render_column, render_lit. simpl.
  by rewrite Z.add_0_r, append_empty_r.
Qed.

Lemma in_rendered n col kw vs :
  Some (quoteColumn g col +:+ " " +:+ kw +:+ " (" +:+ join ", " (placeholders g n vs) +:+ ")", vs,
    n + Z.of_nat (length vs))
  = rendered n (column col :: PLit (" " +:+ kw +:+ " (")
      :: sep_pieces ", " (map (fun v => [PArg v]) vs) ++ [PLit ")"]).
Proof.
  unfold rendered. rewrite !template_args_cons, template_args_app, column_args, render_column, render_lit,
    render_app, render_values, values_args, render_lit. simpl app. rewrite app_nil_r. by rewrite !append_app.
Qed.

Lemma cond_rendered c : wf_cond c = true -> forall n, compile_cond uni_upper g c n = rendered n (cond_pieces c).
Proof.
  induction c as [b col op vs raw args conds IH|b col op vs raw args] using cond_nested_ind;
    cbn [wf_cond cond_pieces compile_cond]; intros Hwf n.
  - apply andb_prop in Hwf as [_ Hwf]. rewrite loop_rendered.
    + unfold rendered. cbn [mbind option_bind]. rewrite template_args_cons, template_args_app. simpl piece_args.
      rewrite app_nil_r, render_lit, render_app. simpl app. by do 3 f_equal.
    + apply list.Forall_forall. intros c Hc. rewrite list.Forall_forall in IH. apply IH; [done |].
      rewrite forallb_forall in Hwf. by apply Hwf, list_elem_of_In.
  - destruct (negb _) eqn:Er.
    + unfold rendered. rewrite template_args_cons, render_raw. simpl. by rewrite app_nil_r, append_empty_r.
    + simpl in Hwf. rewrite keyword_upper.
      destruct op; try done; try apply null_rendered;
        try (destruct vs as [|v [|v' [|? ?]]]; try done; try apply unary_rendered; try apply between_rendered).
      all: try apply in_rendered.
      all: unfold rendered; simpl; by rewrite Z.add_0_r.
Qed.

Lemma clause_rendered kw conds n :
  forallb wf_cond conds = true -> compile_clause uni_upper g kw conds n = rendered n (clause_pieces kw conds).
Proof.
  intros Hwf. unfold compile_clause, clause_pieces, compileWheres.
  destruct conds as [|c conds]; [unfold rendered; simpl; by rewrite Z.add_0_r |].
  rewrite loop_rendered; [by unfold rendered; rewrite template_args_cons, render_lit |].
  apply list.Forall_forall. intros c' Hc n'. apply cond_rendered.
  rewrite forallb_forall in Hwf. by apply Hwf, list_elem_of_In.
Qed.

Lemma joins_rendered js n :
  compile_joins g js n
  = (render g n (flat_map join_pieces js), template_args (flat_map join_pieces js),
     n + Z.of_nat (length (template_args (flat_map join_pieces js)))).
Proof.
  revert n. induction js as [|j js IH]; intros n; [by rewrite Z.add_0_r |]. cbn [compile_joins flat_map].
  rewrite IH. cbn [join_pieces app]. rewrite !template_args_cons. cbn [piece_args app].
  rewrite render_lit, render_ident, render_lit, render_raw, length_app. rewrite !append_app.
  by rewrite Nat2Z.inj_add, Z.add_assoc.
Qed.

Lemma order_args o : template_args (order_pieces o) = [].
Proof. unfold order_pieces. destruct (o_raw o); [done |]. by rewrite template_args_cons, column_args. Qed.

Lemma order_rendered o n : render g n (order_pieces o) = compile_order g o.
Proof.
  unfold order_pieces, compile_order. destruct (o_raw o).
  - by rewrite render_raw, append_empty_r.
  - by rewrite render_column, render_lit, append_empty_r.
Qed.

Lemma listed_rendered {A} (f : A -> list piece) (text : A -> string) kw (l : list A) n :
  (forall a m, render g m (f a) = text a) -> (forall a, template_args (f a) = []) ->
  render g n (listed kw (map f l)) = match l with [] => EmptyString | _ => kw +:+ join ", " (map text l) end.
Proof.
  intros Ht Ha. destruct l as [|a l]; [done |].
  change (render g n (PLit kw :: sep_pieces ", " (map f (a :: l))) = kw +:+ join ", " (map text (a :: l))).
  by rewrite render_lit, (render_list f text).
Qed.

Lemma listed_args {A} (f : A -> list piece) kw (l : list A) :
  (forall a, template_args (f a) = []) -> template_args (listed kw (map f l)) = [].
Proof.
  intros Ha. destruct l as [|a l]; [done |].
  change (template_args (sep_pieces ", " (map f (a :: l))) = []). by apply list_args.
Qed.

Lemma literal_rendered s n : render g n (literal s) = s.
Proof. unfold literal. case_bool_decide; [by subst | by rewrite render_lit, append_empty_r]. Qed.

Lemma literal_args s : template_args (literal s) = [].
Proof. unfold literal. by case_bool_decide. Qed.

Lemma columns_rendered kw cs n :
  render g n (listed kw (map (fun c => [column c]) cs))
  = match cs with [] => EmptyString | _ => kw +:+ join ", " (map (quoteColumn g) cs) end.
Proof.
  apply listed_rendered.
  - intros a m. by rewrite render_column, append_empty_r.
  - intros a. by rewrite template_args_cons, column_args.
Qed.

Lemma columns_args kw cs : template_args (listed kw (map (fun c => [column c]) cs)) = [].
Proof. apply listed_args. intros a. by rewrite template_args_cons, column_args. Qed.

Lemma cols_rendered cs n :
  render g n (cols_pieces cs) = match cs with [] => "*" | _ => join ", " (map (quoteSelectable uni_upper g) cs) end.
Proof.
  destruct cs as [|c cs]; [done |]. apply render_list.
  - intros a m. by rewrite render_selectable, append_empty_r.
  - intros a. by rewrite template_args_cons, selectable_args.
Qed.

Lemma cols_args cs : template_args (cols_pieces cs) = [].
Proof.
  destruct cs as [|c cs]; [done |]. apply list_args. intros a. by rewrite template_args_cons, selectable_args.
Qed.

Lemma ToSQL_rendered {E} (b : Builder) :
  wf_builder b = true -> table b <> EmptyString ->
  ToSQL (E := E) uni_upper g b = Some (Ok (render g 0 (select_pieces b), template_args (select_pieces b))).
Proof.
  unfold wf_builder. intros [[[[Hw Hh]%andb_prop _]%andb_prop _]%andb_prop _]%andb_prop Ht.
  unfold ToSQL. rewrite bool_decide_false by done. rewrite joins_rendered, clause_rendered by done.
  unfold rendered at 1. cbn [mbind option_bind]. rewrite clause_rendered by done.
  unfold rendered at 1. cbn [mbind option_bind]. unfold select_pieces.
  rewrite template_args_cons, !template_args_app, cols_args, columns_args, (listed_args order_pieces) by apply order_args.
  rewrite !literal_args. do 3 f_equal; [| cbn [piece_args app template_args flat_map]; by rewrite !app_nil_r].
  rewrite render_lit, render_app, cols_rendered, cols_args. cbn [length app]. rewrite Z.add_0_r, render_lit, render_ident.
  rewrite !render_app, columns_args, (listed_args order_pieces), !literal_args by apply order_args. cbn [length].
  rewrite !Z.add_0_r, columns_rendered, (listed_rendered order_pieces (compile_order g)), !literal_rendered
    by (intros; apply order_rendered || apply order_args).
  rewrite !append_app. by destruct (distinct b), (cols b), (groups b), (orders b).
Qed.
End Spec.

(** ** Templates are sound *)

Section Sound.
Context (uni_upper : string -> string) (g : Grammar).

(** A fragment apart, the pieces of a builder are safe text. *)
Definition lit_ok (p : piece) : Prop :=
  match p with PLit s => safe s = true /\ s <> EmptyString | _ => True end.

Definition begins_soft (ps : list piece) : bool := match ps with [] => true | p :: _ => negb (open_ended p) end.

(** What may follow anything. *)
Definition tail_ok (ps : list piece) : Prop := begins_soft ps = true /\ spaced ps = true.

Lemma spaced_app (a b : list piece) : spaced a = true -> tail_ok b -> spaced (a ++ b) = true.
Proof.
  intros Ha [Hb Hsb]. induction a as [|p a IH]; [done |]. destruct a as [|p' a].
  - destruct b as [|x b]; [done |]. cbn [app spaced] in *. rewrite Hsb, andb_true_r.
    simpl in Hb. apply negb_true_iff in Hb. by rewrite Hb, andb_false_r.
  - cbn [app spaced] in *. apply andb_prop in Ha as [H1 H2]. by rewrite H1, (IH H2).
Qed.

Lemma tail_app (a b : list piece) : tail_ok a -> tail_ok b -> tail_ok (a ++ b).
Proof.
  intros [Ha Hsa] Hb. destruct a as [|p a]; [done |]. split; [done | by apply spaced_app].
Qed.

Lemma tail_lit s (ps : list piece) : spaced ps = true -> tail_ok (PLit s :: ps).
Proof. intros H. split; [done |]. by destruct ps. Qed.

Lemma sep_spaced sep (l : list (list piece)) :
  Forall (fun ps => spaced ps = true) l -> spaced (sep_pieces sep l) = true.
Proof.
  intros H. induction H as [|ps l Hps Hl IH]; [done |]. destruct l as [|ps' l]; [done |].
  change (spaced (ps ++ PLit sep :: sep_pieces sep (ps' :: l)) = true).
  by apply spaced_app, tail_lit.
Qed.

Lemma sep_ok (P : piece -> Prop) sep (l : list (list piece)) :
  P (PLit sep) -> Forall (Forall P) l -> Forall P (sep_pieces sep l).
Proof.
  intros Hs H. induction H as [|ps l Hps Hl IH]; [done |]. destruct l as [|ps' l]; [done |].
  change (Forall P (ps ++ PLit sep :: sep_pieces sep (ps' :: l))).
  apply list.Forall_app. split; [done |]. by constructor.
Qed.

Lemma values_spaced (vs : list any) :
  spaced (sep_pieces ", " (map (fun v => [PArg v]) vs)) = true
  /\ Forall lit_ok (sep_pieces ", " (map (fun v => [PArg v]) vs)).
Proof.
  split; [apply sep_spaced | apply sep_ok; [done |]]; apply list.Forall_forall;
    intros ps (v & -> & _)%list_elem_of_fmap; [done | by repeat constructor].
Qed.

Lemma column_ok col : lit_ok (column col).
Proof. unfold column. by case_match. Qed.

Lemma loop_sound first conds :
  Forall (fun c => spaced (cond_pieces c) = true /\ Forall lit_ok (cond_pieces c)) conds ->
  spaced (loop_pieces cond_pieces first conds) = true
  /\ (first = false -> tail_ok (loop_pieces cond_pieces first conds))
  /\ Forall lit_ok (loop_pieces cond_pieces first conds).
Proof.
  intros H. revert first. induction H as [|c conds [Hs Hl] _ IH]; intros first; [by repeat split |].
  cbn [loop_pieces]. destruct (IH false) as (_ & Ht & Hlr).
  assert (Hrest : spaced (cond_pieces c ++ loop_pieces cond_pieces false conds) = true)
    by (apply spaced_app; [done | by apply Ht]).
  destruct first; cbn [app].
  - split_and!; [done | done | by apply list.Forall_app].
  - assert (Htail : tail_ok (PLit (" " +:+ glue_text (c_bool c) +:+ " ") :: cond_pieces c ++ loop_pieces cond_pieces false conds))
      by by apply tail_lit.
    split_and!; [apply Htail | done |]. constructor; [by destruct (c_bool c) |]. by apply list.Forall_app.
Qed.

Lemma cond_ok c : wf_cond c = true -> spaced (cond_pieces c) = true /\ Forall lit_ok (cond_pieces c).
Proof.
  induction c as [b col op vs raw args conds IH|b col op vs raw args] using cond_nested_ind;
    cbn [wf_cond cond_pieces]; intros Hwf.
  - apply andb_prop in Hwf as [_ Hwf].
    destruct (loop_sound true conds) as (Hs & _ & Hl).
    { apply list.Forall_forall. intros c Hc. rewrite list.Forall_forall in IH. apply IH; [done |].
      rewrite forallb_forall in Hwf. by apply Hwf, list_elem_of_In. }
    split; [by apply tail_lit, spaced_app | constructor; [done |]; apply list.Forall_app; by repeat constructor].
  - pose proof (column_ok col) as Hcol. destruct (values_spaced vs) as [Hvs Hvl].
    destruct (negb _); [by repeat constructor |]. simpl in Hwf.
    assert (Hin : spaced (column col :: PLit (" " +:+ keyword op +:+ " (")
        :: sep_pieces ", " (map (fun v => [PArg v]) vs) ++ [PLit ")"]) = true)
      by (apply (spaced_app [column col]); [done | by apply tail_lit, spaced_app]).
    assert (Hinl : safe (" " +:+ keyword op +:+ " (") = true -> Forall lit_ok (column col :: PLit (" " +:+ keyword op +:+ " (")
        :: sep_pieces ", " (map (fun v => [PArg v]) vs) ++ [PLit ")"])).
    { intros Hk. constructor; [done |]. constructor; [done |]. apply list.Forall_app. by repeat constructor. }
    assert (Hlead : forall s ps, spaced ps = true -> Forall lit_ok ps -> lit_ok (PLit s) ->
      spaced (column col :: PLit s :: ps) = true /\ Forall lit_ok (column col :: PLit s :: ps)).
    { intros s ps Hs Hl Hp. split; [apply (spaced_app [column col]); [done | by apply tail_lit] | constructor; [done | by constructor]]. }
    destruct op; try done; try (by apply Hlead);
      try (destruct vs as [|v [|v' [|? ?]]]; try done; try (apply Hlead; [done | by repeat constructor | done]));
      try (split; [exact Hin | by apply Hinl]).
  all: by repeat constructor.
Qed.

Lemma clause_ok kw conds :
  lit_ok (PLit kw) -> forallb wf_cond conds = true ->
  tail_ok (clause_pieces kw conds) /\ Forall lit_ok (clause_pieces kw conds).
Proof.
  intros Hk Hwf. unfold clause_pieces. destruct conds as [|c conds]; [done |].
  destruct (loop_sound true (c :: conds)) as (Hs & _ & Hl).
  { apply list.Forall_forall. intros c' Hc. apply cond_ok. rewrite forallb_forall in Hwf. by apply Hwf, list_elem_of_In. }
  split; [by apply tail_lit | by constructor].
Qed.

Lemma joins_ok js :
  forallb wf_join js = true -> tail_ok (flat_map join_pieces js) /\ Forall lit_ok (flat_map join_pieces js).
Proof.
  induction js as [|j js IH]; [done |]. cbn [forallb flat_map]. intros [Hj Hjs]%andb_prop.
  destruct (IH Hjs) as [Ht Hl]. split; [by apply tail_app |]. apply list.Forall_app. split; [| done].
  assert (Hk : lit_ok (PLit (" " +:+ j_kind j +:+ " JOIN "))).
  { unfold wf_join in Hj. apply orb_prop in Hj as [Hj|Hj]; apply bool_decide_eq_true in Hj; by rewrite Hj. }
  constructor; [done | by repeat constructor].
Qed.

Lemma listed_ok kw (l : list (list piece)) :
  lit_ok (PLit kw) -> Forall (fun ps => spaced ps = true /\ Forall lit_ok ps) l ->
  tail_ok (listed kw l) /\ Forall lit_ok (listed kw l).
Proof.
  intros Hk H. destruct l as [|ps l]; [done |]. split.
  - apply tail_lit, sep_spaced. eapply list.Forall_impl; [exact H | by intros ? [? _]].
  - constructor; [done |]. apply sep_ok; [done |]. eapply list.Forall_impl; [exact H | by intros ? [_ ?]].
Qed.

Lemma literal_ok s : safe s = true -> tail_ok (literal s) /\ Forall lit_ok (literal s).
Proof. intros Hs. unfold literal. case_bool_decide; [done |]. by repeat constructor. Qed.

Lemma bounds_safe b : safe (compile_bounds g b) = true.
Proof.
  unfold compile_bounds. rewrite safe_app.
  repeat case_match; rewrite ?safe_app, ?FormatInt_safe; done.
Qed.

Lemma select_ok b :
  wf_builder b = true -> spaced (select_pieces uni_upper g b) = true /\ Forall lit_ok (select_pieces uni_upper g b).
Proof.
  unfold wf_builder. intros [[[[Hw Hh]%andb_prop Ho]%andb_prop Hj]%andb_prop Hl]%andb_prop.
  destruct (clause_ok " WHERE " (wheres b)) as [Hw1 Hw2]; [done | done |].
  destruct (clause_ok " HAVING " (havings b)) as [Hh1 Hh2]; [done | done |].
  destruct (joins_ok (joins b) Hj) as [Hj1 Hj2].
  destruct (listed_ok " GROUP BY " (map (fun c => [column c]) (groups b))) as [Hg1 Hg2]; [done | |].
  { apply list.Forall_forall. intros ps (c & -> & _)%list_elem_of_fmap. split; [done |].
    constructor; [apply column_ok | done]. }
  destruct (listed_ok " ORDER BY " (map order_pieces (orders b))) as [Ho1 Ho2]; [done | |].
  { apply list.Forall_forall. intros ps (o & -> & Hin)%list_elem_of_fmap.
    rewrite forallb_forall in Ho. pose proof (Ho o (proj1 (list_elem_of_In _ _) Hin)) as Hwf.
    unfold wf_order in Hwf. unfold order_pieces. destruct (o_raw o); [by repeat constructor |]. simpl in Hwf.
    split; [by apply (spaced_app [column (o_column o)]); [| apply tail_lit] |]. constructor; [apply column_ok |].
    apply orb_prop in Hwf as [Hd|Hd]; apply bool_decide_eq_true in Hd; rewrite Hd; by repeat constructor. }
  destruct (literal_ok _ (bounds_safe b)) as [Hb1 Hb2].
  destruct (literal_ok (lockClause b)) as [Hk1 Hk2].
  { unfold wf_lock in Hl. to_prop. repeat (apply orb_prop in Hl as [Hl|Hl]); apply bool_decide_eq_true in Hl; by rewrite Hl. }
  assert (Hcols : spaced (cols_pieces uni_upper (cols b)) = true /\ Forall lit_ok (cols_pieces uni_upper (cols b))).
  { unfold cols_pieces. destruct (cols b) as [|c cs]; [by repeat constructor |].
    split; [apply sep_spaced | apply sep_ok; [done |]]; apply list.Forall_forall;
      intros ps (s & -> & _)%list_elem_of_fmap; [done |]. constructor; [| done].
    unfold selectable. by repeat case_match. }
  destruct Hcols as [Hc1 Hc2]. unfold select_pieces. split.
  - apply tail_lit, spaced_app; [done |].
    apply tail_app; [done |]. repeat (apply tail_app; [done |]). done.
  - constructor; [by destruct (distinct b) |]. repeat (apply list.Forall_app; split; [done || by repeat constructor |]). done.
Qed.
End Sound.

(** ** Reading back *)

Definition sound_fragment (q param : ascii) (raw_tokens : string -> list token) (p : piece) : Prop :=
  match p with
  | PRaw text args => reads q param text (raw_tokens text) /\ params (raw_tokens text) = length args
  | _ => True
  end.

Lemma template_reads {g : Grammar} q param `{!Lexical g q param} raw_tokens (ps : list piece) :
  spaced ps = true -> Forall lit_ok ps -> Forall (sound_fragment q param raw_tokens) ps ->
  scan q param Outside (render g 0 ps) = Some (tokens (g := g) raw_tokens 0 ps)
  /\ params (tokens (g := g) raw_tokens 0 ps) = length (template_args ps).
Proof.
  intros Hsp Hl Hf. apply (render_scan (q := q) (param := param)); [| done].
  apply list.Forall_forall. intros p Hp. rewrite list.Forall_forall in Hl, Hf.
  pose proof (Hl p Hp). pose proof (Hf p Hp). by destruct p.
Qed.
