(* ===== verification/QuerySafety.v ===== *)
(** Safety of the query builder: what any sequence of its chaining calls builds
    compiles, values never reach the text of a statement, and a statement reads
    back as the identifiers, fragments and values it was built from. *)

From Stdlib Require Import ZArith Lia Ascii.
From stdpp Require Import base gmap strings list numbers.
From S2P Require Import Prelude GoRt GoStrconv GoUtf8 Sql Query QuerySpec.

#[local] Set Warnings "-register-all".
#[local] Open Scope string_scope.
#[local] Open Scope list_scope.
#[local] Open Scope Z_scope.

(** ** Programs of chaining calls *)

Inductive call :=
| CFrom (table : string) | CSelect (cs : list string) | CDistinct
| CWhere (b : glue) (args : list any) | CGroup (b : glue) (body : list call) | CWrap
| CIn (col : string) (values : any) | CNotIn (col : string) (values : any)
| CNull (col : string) | CNotNull (col : string) | CBetween (col : string) (lo hi : any)
| CRaw (expr : string) (args : list any)
| CJoin (table on : string) (args : list any) | CLeftJoin (table on : string) (args : list any)
| CGroupBy (cs : list string) | CHaving (col op : string) (v : any)
| COrderBy (col dir : string) | COrderByRaw (expr : string) | CLatest (col : list string) | COldest (col : list string)
| CLimit (n : Z) | COffset (n : Z) | CLock | CShared.

Section CallInd.
Context (Pr : call -> Prop).
Context (Hgroup : forall b body, Forall Pr body -> Pr (CGroup b body)).
Context (Hflat : forall c, (forall b body, c <> CGroup b body) -> Pr c).

Fixpoint call_nested_ind (c : call) : Pr c :=
  match c with
  | CGroup b body =>
      Hgroup b body ((fix go (l : list call) : Forall Pr l :=
        match l with
        | [] => @List.Forall_nil _ Pr
        | x :: l => @List.Forall_cons _ Pr x l (call_nested_ind x) (go l)
        end) body)
  | c => Hflat c ltac:(by intros)
  end.
End CallInd.

Section Safety.
Context (uni_lower uni_upper : string -> string) (sprint : any -> string) (g : Grammar).

Section Calls.
Context (run : call -> Builder -> option Builder).
Fixpoint run_list (cs : list call) (b : Builder) : option Builder :=
  match cs with [] => Some b | c :: cs => b ← run c b; run_list cs b end.
End Calls.

(** The call on a builder; [None] is a panic. *)
Fixpoint run_call (c : call) (b : Builder) : option Builder :=
  match c with
  | CFrom t => Some (From t b)
  | CSelect cs => Some (Select cs b)
  | CDistinct => Some (Distinct b)
  | CWhere gl args => addWhere uni_lower sprint gl (map AVal args) b
  | CGroup gl body => addWhere uni_lower sprint gl [AFunc (run_list run_call body)] b
  | CWrap => Some (WrapWheres b)
  | CIn col v => Some (WhereIn col v b)
  | CNotIn col v => Some (WhereNotIn col v b)
  | CNull col => Some (WhereNull col b)
  | CNotNull col => Some (WhereNotNull col b)
  | CBetween col lo hi => Some (WhereBetween col lo hi b)
  | CRaw expr args => Some (WhereRaw expr args b)
  | CJoin t on args => Some (Join t on args b)
  | CLeftJoin t on args => Some (LeftJoin t on args b)
  | CGroupBy cs => Some (GroupBy cs b)
  | CHaving col op v => Having uni_lower col op v b
  | COrderBy col dir => OrderBy uni_upper col dir b
  | COrderByRaw e => Some (OrderByRaw e b)
  | CLatest col => Latest uni_upper col b
  | COldest col => Oldest uni_upper col b
  | CLimit n => Some (Limit n b)
  | COffset n => Some (Offset n b)
  | CLock => Some (LockForUpdate g b)
  | CShared => Some (SharedLock g b)
  end.

Definition run_calls : list call -> Builder -> option Builder := run_list run_call.

(** No [WhereRaw] without text. *)
Fixpoint call_ok (c : call) : bool :=
  match c with
  | CRaw expr _ => negb (bool_decide (expr = EmptyString))
  | CGroup _ body => forallb call_ok body
  | _ => true
  end.

(** ** Well-formedness *)

Lemma wf_builder_spec b :
  wf_builder b = true <->
  forallb wf_cond (wheres b) = true /\ forallb wf_cond (havings b) = true /\ forallb wf_order (orders b) = true
  /\ forallb wf_join (joins b) = true /\ wf_lock (lockClause b) = true.
Proof. unfold wf_builder. rewrite !andb_true_iff. tauto. Qed.

Lemma add_where_wf c b : wf_builder b = true -> wf_cond c = true -> wf_builder (add_where c b) = true.
Proof.
  rewrite !wf_builder_spec. intros (Hw & H) Hc. split; [| exact H]. simpl.
  by rewrite forallb_app, Hw; simpl; rewrite Hc.
Qed.

(** The operators [normalizeOp] lets through take one value. *)
Definition binary (op : Op) : bool :=
  match op with OpEq | OpNe | OpLt | OpLte | OpGt | OpGte | OpLike | OpILike => true | _ => false end.

Lemma normalizeOp_binary s op : normalizeOp uni_lower s = Some op -> binary op = true.
Proof.
  unfold normalizeOp. intros H%assoc_Some_in. rewrite !elem_of_cons in H.
  destruct H as [H|[H|[H|[H|[H|[H|[H|[H|[H|H]]]]]]]]]; try (injection H as _ ->; done). inversion H.
Qed.

Lemma normalizeDir_dir s d : normalizeDir uni_upper s = Some d -> d = "ASC" \/ d = "DESC".
Proof.
  unfold normalizeDir. intros H%assoc_Some_in. rewrite !elem_of_cons in H.
  destruct H as [H|[H|[H|H]]]; try (injection H as _ ->; auto). inversion H.
Qed.

Lemma nullAware_wf gl col op v : binary op = true -> wf_cond (nullAware (Cond gl col op [v] EmptyString [] None)) = true.
Proof. intros Ho. simpl. destruct (isNil v); by destruct op. Qed.

Lemma OrderBy_wf col dir b b' : wf_builder b = true -> OrderBy uni_upper col dir b = Some b' -> wf_builder b' = true.
Proof.
  rewrite !wf_builder_spec. unfold OrderBy. intros (H1 & H2 & H3 & H4) Hd.
  destruct (normalizeDir uni_upper dir) as [d|] eqn:Ed; [| done]. injection Hd as <-.
  split_and!; try done; [| apply H4 | apply H4]. simpl. rewrite forallb_app, H3. simpl.
  apply normalizeDir_dir in Ed as [-> | ->]; done.
Qed.

Lemma addWhere_values_wf gl args b b' :
  wf_builder b = true -> addWhere uni_lower sprint gl (map AVal args) b = Some b' -> wf_builder b' = true.
Proof.
  intros Hwf. destruct args as [|x [|y [|z [|? ?]]]]; try done.
  - intros [= <-]. apply add_where_wf; [done |]. by apply (nullAware_wf gl (asString sprint x) OpEq).
  - simpl. destruct (normalizeOp uni_lower (asString sprint y)) as [op|] eqn:Eo; [| done]. intros [= <-].
    apply add_where_wf; [done |]. apply (nullAware_wf gl (asString sprint x) op).
    by apply (normalizeOp_binary (asString sprint y)).
Qed.

Lemma run_list_wf body :
  Forall (fun c => forall b b', call_ok c = true -> wf_builder b = true -> run_call c b = Some b' ->
    wf_builder b' = true) body ->
  forall b b', forallb call_ok body = true -> wf_builder b = true -> run_list run_call body b = Some b' ->
    wf_builder b' = true.
Proof.
  intros H. induction H as [|c body Hc _ IH]; intros b b' Hok Hb Hr; [by injection Hr as <- |].
  apply andb_prop in Hok as [Hokc Hok]. simpl in Hr.
  destruct (run_call c b) as [b1|] eqn:E; [| done]. eapply IH; [done | | exact Hr]. by eapply Hc.
Qed.

Lemma run_call_wf c b b' :
  call_ok c = true -> wf_builder b = true -> run_call c b = Some b' -> wf_builder b' = true.
Proof.
  revert b b'. induction c as [gl body IH|c Hflat] using call_nested_ind; intros b b' Hok Hb.
  - cbn [run_call addWhere]. destruct (run_list run_call body newSubBuilder) as [nb|] eqn:En; [| done].
    cbn [mbind option_bind]. destruct (wheres nb) as [|w ws] eqn:Ew; intros [= <-]; [done |].
    apply add_where_wf; [done |]. simpl.
    assert (Hnb : wf_builder nb = true) by (eapply run_list_wf; [exact IH | exact Hok | | exact En]; done).
    apply wf_builder_spec in Hnb as [Hw _]. rewrite Ew in Hw. exact Hw.
  - destruct c; cbn [run_call]; try (intros [= <-]; exact Hb); try (intros [= <-]; by apply add_where_wf).
    + by apply addWhere_values_wf.
    + by destruct (Hflat b0 body).
    + intros [= <-]. unfold WrapWheres. destruct (existsb _ (wheres b)) eqn:Ex; [| done].
      apply wf_builder_spec in Hb as (Hw & H). apply wf_builder_spec. split; [| exact H]. simpl.
      destruct (wheres b) eqn:Ew; [done |]. by rewrite Hw.
    + intros [= <-]. apply add_where_wf; [done |]. simpl in *. by rewrite Hok.
    + intros [= <-]. apply wf_builder_spec in Hb as (H1 & H2 & H3 & H4 & H5). apply wf_builder_spec.
      split_and!; try done. simpl. by rewrite forallb_app, H4.
    + intros [= <-]. apply wf_builder_spec in Hb as (H1 & H2 & H3 & H4 & H5). apply wf_builder_spec.
      split_and!; try done. simpl. by rewrite forallb_app, H4.
    + unfold Having. destruct (normalizeOp uni_lower op) as [o|] eqn:Eo; [| done]. intros [= <-].
      apply wf_builder_spec in Hb as (H1 & H2 & H). apply wf_builder_spec.
      split_and!; try done; try apply H. simpl. rewrite forallb_app, H2. simpl.
      apply normalizeOp_binary in Eo. by destruct o.
    + by apply OrderBy_wf.
    + intros [= <-]. apply wf_builder_spec in Hb as (H1 & H2 & H3 & H4 & H5). apply wf_builder_spec.
      split_and!; try done. simpl. by rewrite forallb_app, H3.
    + by apply OrderBy_wf.
    + by apply OrderBy_wf.
    + intros [= <-]. unfold LockForUpdate. case_bool_decide; [done |].
      apply wf_builder_spec in Hb as (H1 & H2 & H3 & H4 & _). by apply wf_builder_spec.
    + intros [= <-]. unfold SharedLock. case_bool_decide; [done |].
      apply wf_builder_spec in Hb as (H1 & H2 & H3 & H4 & _). by apply wf_builder_spec.
Qed.

Lemma run_calls_wf calls t b :
  forallb call_ok calls = true -> run_calls calls (New t) = Some b -> wf_builder b = true.
Proof.
  intros Hok Hr. eapply run_list_wf; [| exact Hok | | exact Hr]; [| done].
  apply Forall_true. intros c b1 b2. apply run_call_wf.
Qed.

(** ** Masking *)

(** A value of the same shape that holds nothing. *)
Definition mask_any (v : any) : any :=
  match v with
  | Nil => Nil
  | TypedNil slice => TypedNil slice
  | Slice items => Slice (map (fun _ => Int 0) items)
  | _ => Int 0
  end.

Definition blank (vs : list any) : list any := map (fun _ => Int 0) vs.

Fixpoint mask_cond (c : condition) : condition :=
  match c with
  | Cond gl col op vs raw args nested => Cond gl col op (blank vs) raw (blank args) (map mask_cond <$> nested)
  end.

Definition mask_join (j : joinClause) : joinClause := mkJoin (j_kind j) (j_table j) (j_on j) (blank (j_args j)).

Definition mask_builder (b : Builder) : Builder :=
  mkBuilder (table b) (cols b) (distinct b) (map mask_cond (wheres b)) (map mask_join (joins b)) (groups b)
    (map mask_cond (havings b)) (orders b) (limit b) (offset b) (lockClause b).

(** A call with its values masked; columns and operators, which may be any value
    too, are kept. *)
Fixpoint mask_call (c : call) : call :=
  match c with
  | CWhere gl [col; v] => CWhere gl [col; mask_any v]
  | CWhere gl [col; op; v] => CWhere gl [col; op; mask_any v]
  | CGroup gl body => CGroup gl (map mask_call body)
  | CIn col v => CIn col (mask_any v)
  | CNotIn col v => CNotIn col (mask_any v)
  | CBetween col lo hi => CBetween col (mask_any lo) (mask_any hi)
  | CRaw expr args => CRaw expr (blank args)
  | CJoin t on args => CJoin t on (blank args)
  | CLeftJoin t on args => CLeftJoin t on (blank args)
  | CHaving col op v => CHaving col op (mask_any v)
  | c => c
  end.

Lemma blank_blank vs : blank (blank vs) = blank vs.
Proof. unfold blank. by rewrite map_map. Qed.

Lemma blank_length vs : length (blank vs) = length vs.
Proof. apply length_map. Qed.

Lemma mask_cond_again c : mask_cond (mask_cond c) = mask_cond c.
Proof.
  induction c as [gl col op vs raw args conds IH|gl col op vs raw args] using cond_nested_ind;
    cbn [mask_cond fmap option_map option_fmap]; rewrite !blank_blank; [| done].
  f_equal. simpl. f_equal. rewrite map_map. by apply map_ext_Forall.
Qed.

Lemma isNil_mask v : isNil (mask_any v) = isNil v.
Proof. by destruct v. Qed.

Lemma expand_mask v : blank (expand (mask_any v)) = blank (expand v).
Proof. destruct v as [|[]| | | | | | | |]; try done. simpl. apply blank_blank. Qed.

(** The same builder up to its values. *)
Definition masked_eq (b b' : Builder) : Prop := mask_builder b = mask_builder b'.

(** Equality of masked builders, field by field. *)
Ltac masked H := unfold masked_eq, mask_builder in *; injection H as ?Ht ?Hc ?Hd ?Hw ?Hj ?Hg ?Hh ?Ho ?Hl ?Hf ?Hk;
  simpl; rewrite ?map_app; congruence.

Lemma mask_add_where c c' b b' :
  masked_eq b b' -> mask_cond c = mask_cond c' -> masked_eq (add_where c b) (add_where c' b').
Proof. intros H Hc0. unfold add_where, set_wheres. assert (map mask_cond [c] = map mask_cond [c']) by (simpl; congruence). masked H. Qed.

Lemma nullAware_mask gl col op v :
  mask_cond (nullAware (Cond gl col op [mask_any v] EmptyString [] None))
  = mask_cond (nullAware (Cond gl col op [v] EmptyString [] None)).
Proof. simpl. rewrite isNil_mask. destruct (isNil v); by destruct op. Qed.

(** Calls respect the equality up to values. *)
Definition same_result (r r' : option Builder) : Prop := mask_builder <$> r = mask_builder <$> r'.

Definition masks (c : call) : Prop :=
  forall b b', masked_eq b b' -> same_result (run_call (mask_call c) b) (run_call c b').

Lemma run_list_mask body : Forall masks body ->
  forall b b', masked_eq b b' -> same_result (run_list run_call (map mask_call body) b) (run_list run_call body b').
Proof.
  intros H. induction H as [|c body Hc _ IH]; intros b b' Hb; [exact (f_equal Some Hb) |]. simpl.
  specialize (Hc b b' Hb). unfold same_result in Hc.
  destruct (run_call (mask_call c) b) as [x|], (run_call c b') as [y|]; try done.
  apply IH. exact (Some_inj _ _ Hc).
Qed.

Lemma same_some b b' : masked_eq b b' -> same_result (Some b) (Some b').
Proof. intros H. exact (f_equal Some H). Qed.

Lemma values_mask gl args b b' :
  masked_eq b b' -> same_result (run_call (mask_call (CWhere gl args)) b) (run_call (CWhere gl args) b').
Proof.
  intros Hb. destruct args as [|x [|y [|z [|? ?]]]]; try done.
  - apply same_some, mask_add_where; [done | apply (nullAware_mask gl (asString sprint x) OpEq y)].
  - simpl. destruct (normalizeOp uni_lower (asString sprint y)) as [op|]; [| done].
    apply same_some, mask_add_where; [done | apply (nullAware_mask gl (asString sprint x) op z)].
Qed.

Lemma group_mask gl body : Forall masks body -> masks (CGroup gl body).
Proof.
  intros IH b b' Hb. cbn [mask_call run_call addWhere].
  pose proof (run_list_mask body IH newSubBuilder newSubBuilder eq_refl) as Hn. unfold same_result in Hn.
  destruct (run_list run_call (map mask_call body) newSubBuilder) as [x|], (run_list run_call body newSubBuilder) as [y|];
    try done. simpl in *. injection Hn as _ _ _ Hw _ _ _ _ _ _ _.
  destruct (wheres x) as [|w ws], (wheres y) as [|w' ws']; try done; [by apply same_some |].
  apply same_some, mask_add_where; [done |]. cbn [mask_cond fmap option_map option_fmap]. simpl. simpl in Hw. by rewrite Hw.
Qed.

Lemma OrderBy_mask col dir b b' : masked_eq b b' -> same_result (OrderBy uni_upper col dir b) (OrderBy uni_upper col dir b').
Proof.
  intros H. unfold OrderBy. destruct (normalizeDir uni_upper dir) as [d|]; [| done]. apply same_some. unfold set_orders. masked H.
Qed.

Lemma wrap_mask b b' : masked_eq b b' -> masked_eq (WrapWheres b) (WrapWheres b').
Proof.
  intros H. pose proof H as H'. injection H' as _ _ _ Hw _ _ _ _ _ _ _. unfold WrapWheres.
  assert (Hor : forall l l', map mask_cond l = map mask_cond l' ->
    existsb (fun c => match c_bool c with bOr => true | bAnd => false end) l
    = existsb (fun c => match c_bool c with bOr => true | bAnd => false end) l').
  { induction l as [|c l IH]; intros [|c' l']; try done. simpl. intros [= Hc Hl]. rewrite (IH _ Hl). f_equal.
    destruct c, c'. by injection Hc as -> _ _ _ _ _ _. }
  rewrite (Hor _ _ Hw). destruct (existsb _ (wheres b')); [| done]. unfold set_wheres.
  assert (map mask_cond [Cond bAnd EmptyString OpZero [] EmptyString [] (Some (wheres b))]
    = map mask_cond [Cond bAnd EmptyString OpZero [] EmptyString [] (Some (wheres b'))])
    by (cbn [map mask_cond fmap option_map option_fmap]; simpl; by rewrite Hw).
  masked H.
Qed.

Lemma join_mask k t on args : map mask_join [mkJoin k t on (blank args)] = map mask_join [mkJoin k t on args].
Proof. simpl. unfold mask_join. simpl. by rewrite blank_blank. Qed.

Ltac joined_mask :=
  match goal with |- context [mkJoin ?k ?t ?o (blank ?a)] => pose proof (join_mask k t o a) end.

Lemma call_mask c : masks c.
Proof.
  induction c as [gl body IH|c Hflat] using call_nested_ind; [by apply group_mask |].
  intros b b' H. destruct c; try (by apply values_mask); try (by destruct (Hflat b0 body));
    try (by apply OrderBy_mask);
    try (apply same_some, mask_add_where; [done |]; simpl; by rewrite ?expand_mask, ?blank_blank).
  all: try (apply same_some; unfold From, Select, Distinct, GroupBy, OrderByRaw, Limit, Offset, set_cols, set_orders,
    set_bounds; masked H).
  - by apply same_some, wrap_mask.
  - apply same_some. unfold Join, set_joins. simpl. joined_mask. masked H.
  - apply same_some. unfold LeftJoin, set_joins. simpl. joined_mask. masked H.
  - simpl. unfold Having. destruct (normalizeOp uni_lower op) as [o|]; [| done]. apply same_some.
    assert (map mask_cond [Cond bAnd col o [mask_any v] EmptyString [] None]
      = map mask_cond [Cond bAnd col o [v] EmptyString [] None]) by done.
    masked H.
  - apply same_some. unfold LockForUpdate, set_lock. case_bool_decide; [done | masked H].
  - apply same_some. unfold SharedLock, set_lock. case_bool_decide; [done | masked H].
Qed.

(** ** Compilation of a masked builder *)

Definition strip (r : compiled) : compiled := '(sql, args, n) ← r; Some (sql, blank args, n).

Lemma placeholders_blank n vs : placeholders g n (blank vs) = placeholders g n vs.
Proof. revert n. induction vs as [|v vs IH]; intros n; [done |]. simpl. f_equal. apply IH. Qed.

Lemma blank_app a b : blank (a ++ b) = blank a ++ blank b.
Proof. apply map_app. Qed.

Lemma glue_mask c : c_bool (mask_cond c) = c_bool c.
Proof. by destruct c. Qed.

Lemma loop_strip conds first n :
  Forall (fun c => forall n, compile_cond uni_upper g (mask_cond c) n = strip (compile_cond uni_upper g c n)) conds ->
  compile_loop (compile_cond uni_upper g) first (map mask_cond conds) n
  = strip (compile_loop (compile_cond uni_upper g) first conds n).
Proof.
  intros H. revert first n. induction H as [|c conds Hc _ IH]; intros first n; [done |].
  cbn [map compile_loop]. rewrite Hc, glue_mask.
  destruct (compile_cond uni_upper g c n) as [[[sql args] n1]|]; [| done]. cbn [strip mbind option_bind].
  rewrite IH. destruct (compile_loop _ false conds n1) as [[[sql' args'] n2]|]; [| done].
  cbn [strip mbind option_bind]. by rewrite blank_app.
Qed.

Lemma cond_strip c n : compile_cond uni_upper g (mask_cond c) n = strip (compile_cond uni_upper g c n).
Proof.
  revert n. induction c as [gl col op vs raw args conds IH|gl col op vs raw args] using cond_nested_ind; intros n.
  - cbn [mask_cond compile_cond fmap option_map option_fmap]. rewrite loop_strip by done.
    by destruct (compile_loop _ true conds n) as [[[sql a] n1]|].
  - cbn [mask_cond compile_cond fmap option_map option_fmap].
    destruct (negb _); [by rewrite blank_length |].
    destruct op; try done; destruct vs as [|v vs]; try done; cbn [blank map]; cbv iota;
      change (Int 0 :: map (fun _ => Int 0) vs) with (blank (v :: vs));
      by rewrite placeholders_blank, blank_length.
Qed.

Lemma clause_strip kw conds n :
  compile_clause uni_upper g kw (map mask_cond conds) n = strip (compile_clause uni_upper g kw conds n).
Proof.
  unfold compile_clause, compileWheres. destruct conds as [|c conds]; [done |].
  change (map mask_cond (c :: conds)) with (mask_cond c :: map mask_cond conds) at 1. cbv iota.
  change (mask_cond c :: map mask_cond conds) with (map mask_cond (c :: conds)).
  rewrite loop_strip by (apply Forall_true; intros; apply cond_strip).
  by destruct (compile_loop _ true (c :: conds) n) as [[[sql a] n1]|].
Qed.

Lemma joins_strip js n :
  compile_joins g (map mask_join js) n
  = let '(sql, args, n) := compile_joins g js n in (sql, blank args, n).
Proof.
  revert n. induction js as [|j js IH]; intros n; [done |]. cbn [map compile_joins mask_join j_args j_kind j_table j_on].
  rewrite blank_length, IH. destruct (compile_joins g js _) as [[sql args] n1]. by rewrite blank_app.
Qed.

Lemma ToSQL_mask {E} b :
  ToSQL (E := E) uni_upper g (mask_builder b)
  = match ToSQL (E := E) uni_upper g b with
    | Some (Ok (sql, args)) => Some (Ok (sql, blank args))
    | r => r
    end.
Proof.
  unfold ToSQL, mask_builder. cbn [table cols distinct wheres joins groups havings orders limit offset lockClause].
  case_bool_decide; [done |]. rewrite joins_strip. destruct (compile_joins g (joins b) 0) as [[sql jargs] n].
  rewrite clause_strip. destruct (compile_clause uni_upper g " WHERE " (wheres b) n) as [[[w wargs] n1]|]; [| done].
  cbn [strip mbind option_bind]. rewrite clause_strip.
  destruct (compile_clause uni_upper g " HAVING " (havings b) n1) as [[[h hargs] n2]|]; [| done].
  cbn [strip mbind option_bind]. by rewrite !blank_app.
Qed.

(** The text of a compiled statement and the number of its arguments. *)
Definition statement {E} (r : option (result (qerror E) (string * list any))) : option (string * nat) :=
  match r with Some (Ok (sql, args)) => Some (sql, length args) | _ => None end.

Lemma masked_statement {E} b b' :
  masked_eq b b' -> statement (ToSQL (E := E) uni_upper g b) = statement (ToSQL (E := E) uni_upper g b').
Proof.
  intros H. assert (Hs : forall b, statement (ToSQL (E := E) uni_upper g b) = statement (ToSQL (E := E) uni_upper g (mask_builder b))).
  { intros c. rewrite ToSQL_mask. destruct (ToSQL uni_upper g c) as [[[sql args]|e]|]; try done. simpl. by rewrite blank_length. }
  rewrite (Hs b), (Hs b'). unfold masked_eq in H. by rewrite H.
Qed.

Lemma run_masked calls calls' t b b' :
  map mask_call calls = map mask_call calls' -> run_calls calls (New t) = Some b -> run_calls calls' (New t) = Some b' ->
  masked_eq b b'.
Proof.
  intros Hm Hr Hr'. assert (Ht : forall cs, Forall masks cs) by (intros cs; apply Forall_true, call_mask).
  pose proof (run_list_mask calls (Ht calls) (New t) (New t) eq_refl) as H1.
  pose proof (run_list_mask calls' (Ht calls') (New t) (New t) eq_refl) as H2.
  unfold same_result, run_calls in *. rewrite Hr in H1. rewrite Hr' in H2. rewrite Hm in H1.
  rewrite H1 in H2. exact (Some_inj _ _ H2).
Qed.
End Safety.

(** C4: Values never reach the text.  Two sequences of chaining calls that differ
    only in the values they compare with, insert in lists or bind to raw fragments
    build queries with the same text and as many arguments, whatever the values
    contain. *)
Theorem values_never_in_text {E} uni_lower uni_upper sprint g calls calls' t b b'
    (Hsame : map mask_call calls = map mask_call calls')
    (Hrun : run_calls uni_lower uni_upper sprint g calls (New t) = Some b)
    (Hrun' : run_calls uni_lower uni_upper sprint g calls' (New t) = Some b') :
  statement (ToSQL (E := E) uni_upper g b) = statement (ToSQL (E := E) uni_upper g b').
Proof. apply masked_statement. by eapply run_masked. Qed.

(** C3: A query reads back as what it was built from, on every driver.  A builder
    made by any sequence of calls compiles; its arguments are the values of its
    template in order; and its text, read as SQL, is exactly the template: each
    identifier is one quoted token with the name the caller gave, whatever bytes
    it has, and there is one parameter marker per argument. *)
Theorem query_reads_back {E} uni_lower uni_upper sprint g q param `{!Lexical g q param} raw_tokens calls t b
    (Hcalls : forallb call_ok calls = true)
    (Hrun : run_calls uni_lower uni_upper sprint g calls (New t) = Some b) (Htable : table b <> EmptyString)
    (Hraw : Forall (sound_fragment q param raw_tokens) (select_pieces uni_upper g b)) :
  exists sql args, ToSQL (E := E) uni_upper g b = Some (Ok (sql, args))
    /\ args = template_args (select_pieces uni_upper g b)
    /\ scan q param Outside sql = Some (tokens (g := g) raw_tokens 0 (select_pieces uni_upper g b))
    /\ params (tokens (g := g) raw_tokens 0 (select_pieces uni_upper g b)) = length args.
Proof.
  pose proof (run_calls_wf _ _ _ _ _ _ _ Hcalls Hrun) as Hwf.
  destruct (select_ok uni_upper g b Hwf) as [Hsp Hl].
  destruct (template_reads (g := g) q param raw_tokens _ Hsp Hl Hraw) as [Hscan Hparams].
  eexists _, _. split_and!; [by apply ToSQL_rendered | done | exact Hscan | exact Hparams].
Qed.

(** ** Insert, update and delete *)

Section Dml.
Context (uni_upper : string -> string) (g : Grammar).

Definition set_pieces (values : row) (c : string) : list piece := [PIdent c; PLit " = "; PArg (row_get values c)].

Definition update_pieces (values : row) (b : Builder) : list piece :=
  PLit "UPDATE " :: PIdent (table b) :: PLit " SET "
    :: sep_pieces ", " (map (set_pieces values) (sortStrings (map fst values))) ++ clause_pieces " WHERE " (wheres b).

Definition delete_pieces (b : Builder) : list piece :=
  PLit "DELETE FROM " :: PIdent (table b) :: clause_pieces " WHERE " (wheres b).

Definition insert_pieces (values : row) (b : Builder) : list piece :=
  let cs := sortStrings (map fst values) in
  PLit "INSERT INTO " :: PIdent (table b) :: PLit " (" :: sep_pieces ", " (map (fun c => [PIdent c]) cs)
    ++ PLit ") VALUES (" :: sep_pieces ", " (map (fun v => [PArg v]) (map (row_get values) cs)) ++ [PLit ")"].

Lemma sets_rendered values cs n :
  render g n (sep_pieces ", " (map (set_pieces values) cs)) = join ", " (update_sets g cs n)
  /\ template_args (sep_pieces ", " (map (set_pieces values) cs)) = map (row_get values) cs.
Proof.
  revert n. induction cs as [|c [|c' cs] IH]; intros n; [done | |].
  - split; [| done].
    change (render g n [PIdent c; PLit " = "; PArg (row_get values c)] = Quote g c +:+ " = " +:+ Placeholder g (n + 1)).
    by rewrite render_ident, render_lit, render_arg, append_empty_r.
  - destruct (IH (n + 1)) as [H1 H2]. split.
    + change (render g n (PIdent c :: PLit " = " :: PArg (row_get values c) :: PLit ", "
        :: sep_pieces ", " (map (set_pieces values) (c' :: cs)))
        = (Quote g c +:+ " = " +:+ Placeholder g (n + 1)) +:+ ", " +:+ join ", " (update_sets g (c' :: cs) (n + 1))).
      by rewrite render_ident, render_lit, render_arg, render_lit, H1, !append_app.
    + change (row_get values c :: template_args (sep_pieces ", " (map (set_pieces values) (c' :: cs)))
        = row_get values c :: map (row_get values) (c' :: cs)). by rewrite H2.
Qed.

Lemma update_rendered values b :
  forallb wf_cond (wheres b) = true ->
  update_text uni_upper g values b = Some (render g 0 (update_pieces values b), template_args (update_pieces values b)).
Proof.
  intros Hw. unfold update_text, update_pieces. rewrite clause_rendered by done. unfold rendered. cbn [mbind option_bind].
  destruct (sets_rendered values (sortStrings (map fst values)) 0) as [H1 H2].
  rewrite !template_args_cons, template_args_app, render_lit, render_ident, render_lit, render_app, H1, H2.
  cbn [piece_args app]. by rewrite length_map, Z.add_0_l.
Qed.

Lemma delete_rendered b :
  forallb wf_cond (wheres b) = true ->
  delete_text uni_upper g b = Some (render g 0 (delete_pieces b), template_args (delete_pieces b)).
Proof.
  intros Hw. unfold delete_text, delete_pieces. rewrite clause_rendered by done. unfold rendered. cbn [mbind option_bind].
  by rewrite !template_args_cons, render_lit, render_ident.
Qed.

Lemma insert_rendered values b :
  insert_text g b values = (render g 0 (insert_pieces values b), template_args (insert_pieces values b)).
Proof.
  unfold insert_text, insert_pieces. set (cs := sortStrings (map fst values)).
  rewrite !template_args_cons, template_args_app, template_args_cons, template_args_app, values_args.
  rewrite (list_args (fun c : string => [PIdent c])) by done.
  rewrite render_lit, render_ident, render_lit, render_app, (render_list g _ (Quote g)), render_lit, render_app,
    render_values, render_lit.
  - rewrite (list_args (fun c : string => [PIdent c])) by done. cbn [piece_args app length]. rewrite app_nil_r.
    by rewrite Z.add_0_r, ?append_app.
  - intros c m. by rewrite render_ident, append_empty_r.
  - done.
Qed.

Lemma idents_ok (cs : list string) :
  spaced (sep_pieces ", " (map (fun c => [PIdent c]) cs)) = true
  /\ Forall lit_ok (sep_pieces ", " (map (fun c => [PIdent c]) cs)).
Proof.
  split; [apply sep_spaced | apply sep_ok; [done |]]; apply list.Forall_forall;
    intros ps (v & -> & _)%list_elem_of_fmap; [done | by repeat constructor].
Qed.

Lemma sets_ok values cs :
  spaced (sep_pieces ", " (map (set_pieces values) cs)) = true
  /\ Forall lit_ok (sep_pieces ", " (map (set_pieces values) cs)).
Proof.
  split; [apply sep_spaced | apply sep_ok; [done |]]; apply list.Forall_forall;
    intros ps (v & -> & _)%list_elem_of_fmap; [done | by repeat constructor].
Qed.

Lemma update_ok values b :
  forallb wf_cond (wheres b) = true -> spaced (update_pieces values b) = true /\ Forall lit_ok (update_pieces values b).
Proof.
  intros Hw. destruct (clause_ok " WHERE " (wheres b)) as [Hw1 Hw2]; [done | done |].
  destruct (sets_ok values (sortStrings (map fst values))) as [Hs1 Hs2]. unfold update_pieces. split.
  - apply tail_lit, (spaced_app [PIdent (table b)]); [done |]. by apply tail_lit, spaced_app.
  - do 3 (constructor; [done |]). by apply list.Forall_app.
Qed.

Lemma delete_ok b :
  forallb wf_cond (wheres b) = true -> spaced (delete_pieces b) = true /\ Forall lit_ok (delete_pieces b).
Proof.
  intros Hw. destruct (clause_ok " WHERE " (wheres b)) as [Hw1 Hw2]; [done | done |]. split.
  - by apply tail_lit, (spaced_app [PIdent (table b)]).
  - by do 2 (constructor; [done |]).
Qed.

Lemma insert_ok values b : spaced (insert_pieces values b) = true /\ Forall lit_ok (insert_pieces values b).
Proof.
  unfold insert_pieces. set (cs := sortStrings (map fst values)).
  destruct (idents_ok cs) as [Hi1 Hi2], (values_spaced (map (row_get values) cs)) as [Hv1 Hv2]. split.
  - apply tail_lit, (spaced_app [PIdent (table b)]); [done |].
    apply tail_lit, spaced_app; [done |]. by apply tail_lit, spaced_app.
  - do 3 (constructor; [done |]). apply list.Forall_app. split; [done |]. constructor; [done |].
    apply list.Forall_app. by repeat constructor.
Qed.

End Dml.

(** INSERT, UPDATE and DELETE statements read back as what they were built
    from, like queries: identifiers as single tokens with the names given, one
    marker per argument, the arguments in the order of their markers. *)
Theorem dml_reads_back uni_upper g q param `{!Lexical g q param} raw_tokens values b
    (Hwf : forallb wf_cond (wheres b) = true)
    (Hraw : Forall (sound_fragment q param raw_tokens) (clause_pieces " WHERE " (wheres b))) :
  let reads_as ps stmt :=
    stmt = (render g 0 ps, template_args ps)
    /\ scan q param Outside stmt.1 = Some (tokens (g := g) raw_tokens 0 ps)
    /\ params (tokens (g := g) raw_tokens 0 ps) = length stmt.2 in
  reads_as (insert_pieces values b) (insert_text g b values)
  /\ (exists stmt, update_text uni_upper g values b = Some stmt /\ reads_as (update_pieces values b) stmt)
  /\ (exists stmt, delete_text uni_upper g b = Some stmt /\ reads_as (delete_pieces b) stmt).
Proof.
  intros reads_as.
  assert (Hmapped : forall A (f : A -> list piece) (l : list A), (forall x, Forall (sound_fragment q param raw_tokens) (f x)) ->
    Forall (sound_fragment q param raw_tokens) (sep_pieces ", " (map f l))).
  { intros A f l Hf. apply sep_ok; [done |]. apply list.Forall_forall. by intros ps (x & -> & _)%list_elem_of_fmap. }
  split_and!.
  - rewrite insert_rendered. destruct (insert_ok values b) as [Hs Hl]. split; [done |].
    apply (template_reads (g := g) q param raw_tokens); [done | done |]. unfold insert_pieces.
    do 3 (constructor; [done |]). apply list.Forall_app. split; [apply Hmapped; by repeat constructor |].
    constructor; [done |]. apply list.Forall_app. split; [apply Hmapped |]; by repeat constructor.
  - rewrite update_rendered by done. eexists. split; [done |]. destruct (update_ok values b Hwf) as [Hs Hl].
    split; [done |]. apply (template_reads (g := g) q param raw_tokens); [done | done |].
    unfold update_pieces. do 3 (constructor; [done |]). apply list.Forall_app.
    split; [apply Hmapped; by repeat constructor | done].
  - rewrite delete_rendered by done. eexists. split; [done |]. destruct (delete_ok b Hwf) as [Hs Hl].
    split; [done |]. apply (template_reads (g := g) q param raw_tokens); [done | done |].
    by do 2 (constructor; [done |]).
Qed.

(** ** Concrete statements *)

Definition show (_ : any) : string := "?".
Definition dq : string := String double_quote EmptyString.

(** A hostile column and a hostile value. *)
Definition evil_column : string := "x" +:+ dq +:+ " = 1; --".

Definition evil_calls (value : string) : list call :=
  [CSelect ["id"; "COUNT(*) AS n"]; CWhere bAnd [Str evil_column; Str "!="; Str value];
   CGroup bOr [CIn "t.role" (Slice [Str value; Int 2]); CRaw "age > ?" [Int 18]];
   COrderBy "id" " desc "; CLimit 10].

Definition read_all (s : string) : list token := default [] (scan double_quote "?" Outside s).

Lemma evil_fragments value b :
  run_calls keep keep show sqlite (evil_calls value) (New "users") = Some b ->
  Forall (sound_fragment double_quote "?" read_all) (select_pieces keep sqlite b).
Proof.
  intros [= <-]. repeat (apply list.Forall_cons; split).
  all: try exact I.
  - split; [apply closes_reads, run_closes; by vm_compute | done].
  - split; [apply closes_reads, run_closes; by vm_compute | done].
  - constructor.
Qed.

Lemma query_reads_back_witness :
  exists b sql args, run_calls keep keep show sqlite (evil_calls "' OR 1=1 --") (New "users") = Some b
    /\ ToSQL (E := unit) keep sqlite b = Some (Ok (sql, args))
    /\ args = template_args (select_pieces keep sqlite b)
    /\ scan double_quote "?" Outside sql = Some (tokens (g := sqlite) read_all 0 (select_pieces keep sqlite b))
    /\ params (tokens (g := sqlite) read_all 0 (select_pieces keep sqlite b)) = length args.
Proof.
  eexists. destruct (query_reads_back (E := unit) keep keep show sqlite double_quote "?" read_all
    (evil_calls "' OR 1=1 --") "users" _ eq_refl eq_refl) as (sql & args & H); [done | by eapply evil_fragments |].
  exists sql, args. split; [done | exact H].
Defined.

Lemma values_never_in_text_witness :
  map mask_call (evil_calls "Ada") = map mask_call (evil_calls "' OR 1=1 --")
  /\ exists b b', run_calls keep keep show postgres (evil_calls "Ada") (New "users") = Some b
     /\ run_calls keep keep show postgres (evil_calls "' OR 1=1 --") (New "users") = Some b'
     /\ b <> b'
     /\ statement (ToSQL (E := unit) keep postgres b) = statement (ToSQL (E := unit) keep postgres b').
Proof.
  split; [done |]. eexists _, _. split; [done |]. split; [done |]. split; [done |].
  by apply (values_never_in_text keep keep show postgres (evil_calls "Ada") (evil_calls "' OR 1=1 --") "users").
Defined.

Definition adults : Builder := add_where (Cond bAnd "age" OpGte [Int 18] EmptyString [] None) (New "users").

Lemma dml_reads_back_witness :
  (exists stmt, update_text keep postgres user_row adults = Some stmt
     /\ stmt = (render postgres 0 (update_pieces user_row adults), template_args (update_pieces user_row adults))
     /\ scan double_quote "$" Outside stmt.1 = Some (tokens (g := postgres) bytes 0 (update_pieces user_row adults))
     /\ params (tokens (g := postgres) bytes 0 (update_pieces user_row adults)) = length stmt.2).
Proof.
  refine (proj1 (proj2 (dml_reads_back keep postgres double_quote "$" bytes user_row adults eq_refl _))).
  by repeat constructor.
Defined.

(** Placeholders go on from the values set to the conditions. *)
Example update_numbers :
  (update_text keep postgres user_row adults)
  = Some ("UPDATE " +:+ quote_with double_quote "users" +:+ " SET " +:+ quote_with double_quote "age" +:+ " = $1, "
            +:+ quote_with double_quote "name" +:+ " = $2 WHERE " +:+ quote_with double_quote "age" +:+ " >= $3",
          [Int 36; Str "Ada"; Int 18]).
Proof. by vm_compute. Qed.

(** [WhereRaw] with an empty text makes compilation index an empty slice. *)
Example empty_raw_panics : ToSQL (E := unit) keep sqlite (WhereRaw EmptyString [] (New "users")) = None.
Proof. by vm_compute. Qed.

(** A DELETE forgets the limit, the order and the joins of its builder. *)
Example delete_ignores_limit :
  delete_text keep sqlite (Limit 1 adults) = delete_text keep sqlite adults.
Proof. done. Qed.

(** The columns of a batch are those of its first row: what later rows have
    besides is dropped. *)
Example batch_drops_columns :
  InsertBatch (E := unit) mysql (fun q args => Ok (q, args)) [[("a", Int 1)]; [("a", Int 2); ("b", Int 3)]] (New "t")
  = Ok ("INSERT INTO `t` (`a`) VALUES (?), (?)", [Int 1; Int 2]).
Proof. by vm_compute. Qed.

(** A condition on null becomes IS NULL in a WHERE, and not in a HAVING. *)
Example having_null :
  Having keep "n" "=" Nil (New "t") ≫= ToSQL (E := unit) keep mysql
  = Some (Ok ("SELECT * FROM `t` HAVING `n` = ?", [Nil])).
Proof. by vm_compute. Qed.
