(* ===== verification/Authz.v ===== *)
(** The authorisation gate of [src/authz/authz.go].

    Reflection is modelled by what the code asks of it: the type of a dynamic
    value, the element of a pointer type, the parameter and result types of a
    method.  [AssignableTo] and [Implements], which compare Go types, are
    parameters.  The write lock of the registry is a count of readers: a writer
    only proceeds when there are none. *)

From Stdlib Require Import ZArith Lia Ascii.
From stdpp Require Import base gmap strings list numbers.
From S2P Require Import Prelude GoRt GoStrconv.

#[local] Set Warnings "-register-all".

(** ** Types and dynamic values *)

(** The kinds the code distinguishes; [KNilable] are the kinds besides
    interfaces and pointers on which [IsNil] is defined. *)
Inductive rkind := KBool | KInterface | KNilable | KOther.

Inductive rtype :=
| RNamed (name : string) (k : rkind)
| RPtr (elem : rtype).

#[export] Instance rkind_eq_dec : EqDecision rkind.
Proof. solve_decision. Defined.
#[export] Instance rtype_eq_dec : EqDecision rtype.
Proof. solve_decision. Defined.

Definition is_bool (t : rtype) : bool :=
  match t with RNamed _ KBool => true | _ => false end.
Definition is_interface (t : rtype) : bool :=
  match t with RNamed _ KInterface => true | _ => false end.
(** [IsNil] panics on the other kinds. *)
Definition nilable (t : rtype) : bool :=
  match t with RPtr _ | RNamed _ KInterface | RNamed _ KNilable => true | _ => false end.

(** The type of [errorType]. *)
Definition errorType : rtype := RNamed "error" KInterface.

Inductive authz_error (E : Type) :=
| ErrDenied (ability : string)
| ErrUnknownAbility (ability : string)
| ErrUser (e : E)
| PanicZeroValue
| PanicCall
| PanicIsNil.
Arguments ErrDenied {E} ability.
Arguments ErrUnknownAbility {E} ability.
Arguments ErrUser {E} e.
Arguments PanicZeroValue {E}.
Arguments PanicCall {E}.
Arguments PanicIsNil {E}.

Record Decision := mkDecision { Allowed : bool; Reason : string }.

Section Authz.
Context {ctx user payload E : Type}.

(** A non-nil value stored in an [any]; a pointer is nil or points to the
    [any] that [Elem().Interface()] gives. *)
Inductive gval :=
| GVal (t : rtype) (v : payload)
| GPtr (elem : rtype) (to : option (option gval)).

(** [any]: [None] is the nil interface. *)
Definition any : Type := option gval.

Definition TypeOf (v : gval) : rtype :=
  match v with GVal t _ => t | GPtr e _ => RPtr e end.

(** A method of a policy, as [Type.Method] lists it: [m_in] includes the
    receiver; [m_fn] is the body, its second result [None] for a nil error. *)
Record method := mkMethod {
  m_name : string; m_in : list rtype; m_out : list rtype;
  m_fn : any -> any -> any -> outcome bool (authz_error E) }.

Definition gateFn : Type := ctx -> user -> any -> bool.

Record Gate := mkGate {
  gates : gmap string gateFn;
  policies : rtype -> option (list method);
  beforeFns : list (ctx -> user -> string -> bool);
  readers : nat }.

Definition New : Gate := mkGate ∅ (fun _ => None) [] 0.

(** The write lock, held from [g.mu.Lock()] to [g.mu.Unlock()]: [None] is a
    call that blocks. *)
Definition locked (g : Gate) (f : Gate -> Gate) : option Gate :=
  if (readers g =? 0)%nat then Some (f g) else None.

(** [zero] is the zero value of [R], [cast] the assertion [r.(R)]. *)
Definition Define {R} (zero : R) (cast : gval -> option R) (ability : string)
    (fn : ctx -> user -> R -> bool) (g : Gate) : option Gate :=
  let wrapped : gateFn := fun c u r =>
    match r with
    | None => fn c u zero
    | Some v => match cast v with Some rv => fn c u rv | None => false end
    end in
  locked g (fun g => mkGate (<[ability := wrapped]> (gates g)) (policies g) (beforeFns g) (readers g)).

Definition Before (fn : ctx -> user -> string -> bool) (g : Gate) : option Gate :=
  locked g (fun g => mkGate (gates g) (policies g) (beforeFns g ++ [fn]) (readers g)).

Definition Policy (rt : rtype) (policy : list method) (g : Gate) : option Gate :=
  locked g (fun g => mkGate (gates g)
    (fun t => if decide (t = rt) then Some policy else policies g t)
    (beforeFns g) (readers g)).

(** ** Policies *)

Context (uni_lower : string -> string).

Definition ToLower (s : string) : string :=
  if is_ascii s then string_map lower_ascii s else uni_lower s.

Definition normaliseAbility (s : string) : string :=
  remove_byte "_" (remove_byte "-" (ToLower s)).

Context (AssignableTo Implements : rtype -> rtype -> bool).

Definition assignable (v : any) (want : rtype) : bool :=
  match v with
  | None => is_interface want
  | Some v => AssignableTo (TypeOf v) want
  end.

(** [m.Func.Call]: panics when the arguments do not fit the parameters. *)
Definition Call (m : method) (c u r : any) : outcome bool (authz_error E) :=
  match m_in m with
  | [_; t1; t2; t3] =>
      if assignable c t1 && assignable u t2 && assignable r t3
      then m_fn m c u r else Panic PanicCall
  | _ => Panic PanicCall
  end.

(** The signature checks of the loop. *)
Definition arguments_fit (m : method) (c u r : any) : bool :=
  match m_in m with
  | [_; t1; t2; t3] => assignable r t3 && assignable c t1 && assignable u t2
  | _ => false
  end.

Definition results_fit (m : method) : bool :=
  match m_out m with
  | [o] => is_bool o
  | [o; e] => is_bool o && Implements e errorType
  | _ => false
  end.

Fixpoint invoke_loop (ms : list method) (want ability : string) (c u r : any)
  : outcome bool (authz_error E) :=
  match ms with
  | [] => Return false (Some (ErrUnknownAbility ability))
  | m :: ms =>
      if negb (bool_decide (normaliseAbility (m_name m) = want)) then
        invoke_loop ms want ability c u r
      else if negb (arguments_fit m c u r) then invoke_loop ms want ability c u r
      else if negb (results_fit m) then invoke_loop ms want ability c u r
      else
        match Call m c u r with
        | Panic p => Panic p
        | Return b e =>
            match m_out m with
            | [_; t] => if nilable t then Return b e else Panic PanicIsNil
            | _ => Return b None
            end
        end
  end.

Definition invokePolicy (ms : list method) (ability : string) (c u r : any)
  : outcome bool (authz_error E) :=
  invoke_loop ms (normaliseAbility ability) ability c u r.

(** ** Checks *)

Context (ctx_any : ctx -> any) (user_any : user -> any).

(** What [Allows] resolves under the read lock; the outer [option] is the
    panic of [Interface] on the target of a nil pointer. *)
Definition resolve (g : Gate) (ability : string) (resource : any)
  : option (option (list method * any)) :=
  match gates g !! ability, resource with
  | None, Some v =>
      match policies g (TypeOf v) with
      | Some p => Some (Some (p, resource))
      | None =>
          match v with
          | GPtr e to =>
              match policies g e with
              | Some p => match to with
                          | Some r => Some (Some (p, r))
                          | None => None
                          end
              | None => Some None
              end
          | GVal _ _ => Some None
          end
      end
  | _, _ => Some None
  end.

Definition Allows (g : Gate) (c : ctx) (ability : string) (u : user) (resource : any)
  : Gate * outcome bool (authz_error E) :=
  match resolve g ability resource with
  | None => (mkGate (gates g) (policies g) (beforeFns g) (S (readers g)), Panic PanicZeroValue)
  | Some pol =>
      (g, if existsb (fun b => b c u ability) (beforeFns g) then Return true None
          else match gates g !! ability with
               | Some fn => Return (fn c u resource) None
               | None =>
                   match pol with
                   | Some (p, r) => invokePolicy p ability (ctx_any c) (user_any u) r
                   | None => Return false (Some (ErrUnknownAbility ability))
                   end
               end)
  end.

Definition Denies (g : Gate) (c : ctx) (ability : string) (u : user) (resource : any)
  : Gate * outcome bool (authz_error E) :=
  let '(g, o) := Allows g c ability u resource in
  (g, match o with
      | Panic p => Panic p
      | Return _ (Some _) => Return true None
      | Return ok None => Return (negb ok) None
      end).

(** The error is [None] when the call may go ahead. *)
Definition Authorize (g : Gate) (c : ctx) (ability : string) (u : user) (resource : any)
  : Gate * outcome unit (authz_error E) :=
  let '(g, o) := Allows g c ability u resource in
  (g, match o with
      | Panic p => Panic p
      | Return _ (Some e) => Return tt (Some e)
      | Return false None => Return tt (Some (ErrDenied ability))
      | Return true None => Return tt None
      end).

(** [err_text] is [err.Error()]. *)
Definition Check_ (err_text : authz_error E -> string)
    (g : Gate) (c : ctx) (ability : string) (u : user) (resource : any)
  : Gate * outcome Decision (authz_error E) :=
  let '(g, o) := Allows g c ability u resource in
  (g, match o with
      | Panic p => Panic p
      | Return _ (Some e) => Return (mkDecision false (err_text e)) None
      | Return false None => Return (mkDecision false ("denied: " +:+ ability)) None
      | Return true None => Return (mkDecision true EmptyString) None
      end).

(** ** Theorems *)

(** [o] lets the user through. *)
Definition allowed {A} (f : A -> bool) (o : outcome A (authz_error E)) : bool :=
  match o with Return a None => f a | _ => false end.

(** The four entry points agree: for any gate, user and resource [Authorize]
    returns no error exactly when [Allows] answers yes without an error, which
    is exactly when [Check] is allowed and [Denies] says no; an error or a panic
    is never an authorisation. *)
Theorem decisions_agree (err_text : authz_error E -> string) g c ability u r :
  let ok := allowed (fun b => b) (Allows g c ability u r).2 in
  allowed (fun _ => true) (Authorize g c ability u r).2 = ok
  /\ allowed Allowed (Check_ err_text g c ability u r).2 = ok
  /\ allowed negb (Denies g c ability u r).2 = ok.
Proof.
  unfold Authorize, Check_, Denies.
  by destruct (Allows g c ability u r) as [g' [[] [e|]|p]].
Qed.

(** An explicit gate shadows every policy and a hook that says yes
    overrides both: after [Define] the answer for that ability is the hooks',
    else the closure's (denied when the resource has another type), and
    registering any policy before or after it changes nothing. *)
Theorem gate_shadows_policies {R} (zero : R) cast fn g g1 g2 rt p ability c u r :
  Define zero cast ability fn g = Some g1 ->
  Policy rt p g1 = Some g2 ->
  (Allows g2 c ability u r).2 = (Allows g1 c ability u r).2
  /\ (Allows g1 c ability u r).2
     = Return (existsb (fun b => b c u ability) (beforeFns g)
               || match r with
                  | None => fn c u zero
                  | Some v => match cast v with Some rv => fn c u rv | None => false end
                  end) None.
Proof.
  unfold Define, Policy, locked. intros H1 H2.
  destruct (readers g =? 0)%nat eqn:Hl; [| done]. simplify_eq/=. rewrite Hl in H2. simplify_eq/=.
  unfold Allows, resolve. simpl. rewrite !lookup_insert_eq.
  by destruct (existsb _ _).
Qed.

(** Routing never makes [reflect.Call] panic: a method is only called with
    arguments its parameters accept; so when no policy method panics itself and
    every error type the methods return can be nil, a policy check always
    returns. *)
Theorem invokePolicy_safe ms ability c u r :
  Forall (fun m =>
    (forall c u r p, m_fn m c u r <> Panic p)
    /\ (forall o e, m_out m = [o; e] -> Implements e errorType = true -> nilable e = true)) ms ->
  exists b e, invokePolicy ms ability c u r = Return b e.
Proof.
  unfold invokePolicy. generalize (normaliseAbility ability). intros want Hms.
  induction Hms as [|m ms [Hfn Hnil] _ IH]; [by do 2 eexists |]. cbn [invoke_loop].
  destruct (bool_decide _); [| exact IH]. simpl.
  destruct (arguments_fit m c u r) eqn:Ha; [| exact IH].
  destruct (results_fit m) eqn:Hr; [| exact IH]. simpl.
  assert (Call m c u r = m_fn m c u r) as ->.
  { unfold arguments_fit, Call in *.
    destruct (m_in m) as [|? [|t1 [|t2 [|t3 [|]]]]]; try done.
    apply andb_prop in Ha as [[Hr3 Hc1]%andb_prop Hu2]. by rewrite Hr3, Hc1, Hu2. }
  destruct (m_fn m c u r) as [b e|p] eqn:Hm; [| by apply Hfn in Hm].
  unfold results_fit in Hr. destruct (m_out m) as [|o [|t [|]]] eqn:Ho; try done.
  - by do 2 eexists.
  - apply andb_prop in Hr as [_ Hi]. rewrite (Hnil o t eq_refl Hi). by do 2 eexists.
Qed.

(** A nil pointer resource breaks the gate: when a policy covers the
    pointed-to type (and none the pointer type, nor a gate the ability),
    [Allows] panics with the read lock still held, and from then on [Define],
    [Before] and [Policy] block for ever. *)
Theorem nil_pointer_wedges_gate g c ability u e p :
  gates g !! ability = None -> policies g (RPtr e) = None -> policies g e = Some p ->
  let '(g', o) := Allows g c ability u (Some (GPtr e None)) in
  o = Panic PanicZeroValue
  /\ (forall R (zero : R) cast a fn, Define zero cast a fn g' = None)
  /\ (forall fn, Before fn g' = None) /\ (forall rt p, Policy rt p g' = None).
Proof.
  intros Hg Hp He. unfold Allows, resolve. rewrite Hg. simpl. rewrite Hp, He. done.
Qed.

(** Two spellings of one ability: equal up to case and to the separators. *)
Inductive same_ability : string -> string -> Prop :=
| sa_nil : same_ability EmptyString EmptyString
| sa_left x s t : x = "-"%char \/ x = "_"%char -> same_ability s t -> same_ability (String x s) t
| sa_right x s t : x = "-"%char \/ x = "_"%char -> same_ability s t -> same_ability s (String x t)
| sa_char x y s t :
    lower_ascii x = lower_ascii y -> same_ability s t -> same_ability (String x s) (String y t).

Lemma lower_sep x : lower_ascii x = "-"%char \/ lower_ascii x = "_"%char ->
  lower_ascii x = x.
Proof. by destruct x as [[] [] [] [] [] [] [] []]; intros [H|H]; vm_compute in H |- *. Qed.

Definition squash (s : string) : string := remove_byte "_" (remove_byte "-" (string_map lower_ascii s)).

Lemma squash_cons x s :
  squash (String x s)
  = if (Ascii.eqb (lower_ascii x) "-" || Ascii.eqb (lower_ascii x) "_")%bool then squash s
    else String (lower_ascii x) (squash s).
Proof.
  unfold squash. simpl. destruct (Ascii.eqb (lower_ascii x) "-") eqn:E1; [done |]. simpl.
  by destruct (Ascii.eqb (lower_ascii x) "_").
Qed.

Lemma squash_sep x s : x = "-"%char \/ x = "_"%char -> squash (String x s) = squash s.
Proof. rewrite squash_cons. by intros [-> | ->]. Qed.

Lemma same_ability_squash s t : same_ability s t <-> squash s = squash t.
Proof.
  split.
  - induction 1 as [|x s t Hx _ IH|x s t Hx _ IH|x y s t Hxy _ IH]; [done | | |].
    + by rewrite squash_sep.
    + by rewrite squash_sep.
    + by rewrite !squash_cons, Hxy, IH.
  - revert t. induction s as [|x s IHs].
    + induction t as [|y t IHt]; [constructor |]. rewrite squash_cons.
      destruct (_ || _)%bool eqn:Hx; [| done]. intros H. apply sa_right; [| by apply IHt].
      apply orb_prop in Hx as [Hx|Hx]; apply Ascii.eqb_eq in Hx;
        rewrite <- (lower_sep y) by (rewrite Hx; auto); auto.
    + intros t. rewrite squash_cons. destruct (_ || _)%bool eqn:Hx.
      { intros H. apply sa_left; [| by apply IHs].
        apply orb_prop in Hx as [Hx|Hx]; apply Ascii.eqb_eq in Hx;
          rewrite <- (lower_sep x) by (rewrite Hx; auto); auto. }
      induction t as [|y t IHt]; [done |]. rewrite (squash_cons y).
      destruct (Ascii.eqb (lower_ascii y) "-" || Ascii.eqb (lower_ascii y) "_")%bool eqn:Hy.
      { intros H. apply sa_right; [| by apply IHt].
        apply orb_prop in Hy as [Hy|Hy]; apply Ascii.eqb_eq in Hy;
          rewrite <- (lower_sep y) by (rewrite Hy; auto); auto. }
      intros [= Hxy Hst]. apply sa_char; [done | by apply IHs].
Qed.

(** Policy routing ignores exactly case and separators: two ASCII ability
    names select the same method of every policy exactly when they differ only
    by the case of letters and by added or removed [-] and [_]. *)
Theorem ability_routing s t :
  is_ascii s = true -> is_ascii t = true ->
  normaliseAbility s = normaliseAbility t <-> same_ability s t.
Proof.
  intros Hs Ht. rewrite same_ability_squash. unfold normaliseAbility, ToLower, squash.
  by rewrite Hs, Ht.
Qed.
End Authz.

(** ** Witnesses *)

Section Witnesses.
Definition wname (n : string) : rtype := RNamed n KOther.
Definition wfits (t u : rtype) : bool := bool_decide (t = u) || is_interface u.
Definition wimpl (t u : rtype) : bool := bool_decide (t = u).

(** A post is a [nat], its author; users are [nat]s, contexts [unit]. *)
Definition wgval : Type := @gval nat.
Definition wuser (u : nat) : option wgval := Some (GVal (wname "User") u).
Definition wctx (_ : unit) : option wgval := Some (GVal (wname "Ctx") 0%nat).

Definition wUpdate : @method nat unit :=
  mkMethod "Update" [wname "PostPolicy"; RNamed "Context" KInterface; wname "User"; wname "Post"]
    [RNamed "bool" KBool]
    (fun _ u r => match u, r with
                  | Some (GVal _ n), Some (GVal _ m) => Return (Nat.eqb n m) None
                  | _, _ => Return false None
                  end).

Definition wgate : @Gate unit nat nat unit :=
  mkGate ∅ (fun t => if decide (t = wname "Post") then Some [wUpdate] else None) [] 0.

Lemma gate_shadows_policies_witness :
  exists g1 g2, Define tt (fun _ => None) "update" (fun _ _ _ => true) wgate = Some g1
    /\ Policy (wname "Post") [] g1 = Some g2
    /\ (Allows id wfits wimpl wctx wuser g2 tt "update" 1%nat None).2
       = (Allows id wfits wimpl wctx wuser g1 tt "update" 1%nat None).2.
Proof.
  do 2 eexists. split; [reflexivity |]. split; [reflexivity |].
  exact (proj1 (gate_shadows_policies id wfits wimpl wctx wuser tt (fun _ => None)
    (fun _ _ _ => true) wgate _ _ (wname "Post") [] "update" tt 1%nat None eq_refl eq_refl)).
Defined.

Lemma invokePolicy_safe_witness :
  exists b e, invokePolicy id wfits wimpl [wUpdate] "update"
    (wctx tt) (wuser 3) (Some (GVal (wname "Post") 3%nat)) = Return b e.
Proof.
  apply invokePolicy_safe. constructor; [| constructor]. split.
  - intros c u r p. simpl. destruct u as [[]|], r as [[]|]; discriminate.
  - intros o e. simpl. discriminate.
Defined.

Lemma nil_pointer_wedges_gate_witness :
  (Allows id wfits wimpl wctx wuser wgate tt "update" 1%nat (Some (GPtr (wname "Post") None))).2
  = Panic PanicZeroValue.
Proof.
  exact (proj1 (nil_pointer_wedges_gate id wfits wimpl wctx wuser wgate tt "update" 1%nat
    (wname "Post") [wUpdate] eq_refl eq_refl eq_refl)).
Defined.

Lemma ability_routing_witness :
  normaliseAbility id "update-Post" = normaliseAbility id "UpdatePost".
Proof.
  apply (ability_routing id "update-Post" "UpdatePost"); [reflexivity | reflexivity |].
  repeat first [apply sa_nil | apply sa_char; [reflexivity |] | apply sa_left; [by left |]].
Defined.

(** The routing comment of [invokePolicy] promises that [update-post] reaches
    [Update]. *)
Example update_post_is_not_update : normaliseAbility id "update-post" <> normaliseAbility id "Update".
Proof. by vm_compute. Qed.
End Witnesses.
