(* ===== verification/Scheduling.v ===== *)
(** The task scheduler of [src/scheduling/scheduling.go].

    A [Schedule] is its [Due] predicate.  The civil fields of an instant in the
    local time zone are the [Calendar] the schedules read.  The runner is a step
    relation: the registration of jobs, the ticks, the visit of each task by
    [dispatch], the two deferred steps that end a fired task, [Stop] and the
    cancellation of the context interleave freely. *)

From Stdlib Require Import ZArith Lia Ascii.
From stdpp Require Import base gmap strings list relations numbers.
From S2P Require Import Prelude GoRt GoStrconv.

(** ** Schedules *)

(** [time.Time]'s [Month], [Day], [Hour], [Minute] and [Weekday]. *)
Class Calendar := {
  month_of : Time -> Z; day_of : Time -> Z; hour_of : Time -> Z;
  minute_of : Time -> Z; weekday_of : Time -> Z }.

Definition Monday : Z := 1.

Record Schedule := mkSchedule { Due : Time -> Time -> bool; Desc : string }.

Inductive sched_error :=
| ErrInvalidHHMM (s : string) | ErrInvalidHour (s : string) | ErrInvalidMinute (s : string).

Definition parseHHMM (s : string) : result sched_error (Z * Z) :=
  match Split ":" s with
  | [p0; p1] =>
      match Atoi p0 with
      | Some h =>
          if (h <? 0) || (23 <? h) then Err (ErrInvalidHour s)
          else
            match Atoi p1 with
            | Some m => if (m <? 0) || (59 <? m) then Err (ErrInvalidMinute s) else Ok (h, m)
            | None => Err (ErrInvalidMinute s)
            end
      | None => Err (ErrInvalidHour s)
      end
  | _ => Err (ErrInvalidHHMM s)
  end.

(** [None] is a panic; [dur_string] is [Duration.String]. *)
Definition Every (dur_string : Duration -> string) (interval : Duration) : option Schedule :=
  if interval <=? 0 then None
  else Some (mkSchedule (fun prev now => interval <=? time_Sub now prev)
               ("every " +:+ dur_string interval)).

Definition EveryMinute (dur_string : Duration -> string) : option Schedule :=
  Every dur_string Minute.
Definition EveryFiveMinutes (dur_string : Duration -> string) : option Schedule :=
  Every dur_string (5 * Minute).

Section Schedules.
Context `{Calendar}.

Definition Hourly : Schedule :=
  mkSchedule (fun prev now => negb (hour_of now =? hour_of prev) || negb (day_of now =? day_of prev))
    "hourly".

Definition daily_due (h m : Z) (prev now : Time) : bool :=
  if negb (hour_of now =? h) || negb (minute_of now =? m) then false
  else negb (day_of prev =? day_of now) || negb (hour_of prev =? hour_of now)
       || negb (minute_of prev =? minute_of now).

Definition DailyAt (hhmm : string) : option Schedule :=
  match parseHHMM hhmm with
  | Err _ => None
  | Ok (h, m) => Some (mkSchedule (daily_due h m) ("daily at " +:+ hhmm))
  end.

Definition Daily : option Schedule := DailyAt "00:00".

Definition Weekly : Schedule :=
  mkSchedule (fun prev now =>
    if negb (weekday_of now =? Monday) then false
    else if negb (hour_of now =? 0) || negb (minute_of now =? 0) then false
    else negb (day_of prev =? day_of now))
    "weekly on Monday".

Definition Monthly : Schedule :=
  mkSchedule (fun prev now =>
    if negb (day_of now =? 1) || negb (hour_of now =? 0) || negb (minute_of now =? 0) then false
    else negb (month_of prev =? month_of now))
    "monthly on the 1st".
End Schedules.

(** ** The runner *)

Record task := mkTask {
  t_name : string; t_schedule : Schedule; lastRun : Time; t_running : bool }.

(** One visit of [dispatch]: the new task and whether it is fired. *)
Definition dispatch_task (now : Time) (t : task) : task * bool :=
  let due := Due (t_schedule t) (lastRun t) now in
  if due && negb (t_running t)
  then (mkTask (t_name t) (t_schedule t) now true, true)
  else (t, false).

(** A fired goroutine: inside [t.fn], or past the deferred reset of
    [t.running] with [wg.Done] still to come. *)
Inductive fire_pc := InFn | BeforeDone.

#[export] Instance fire_pc_eq_dec : EqDecision fire_pc.
Proof. solve_decision. Defined.

(** Where [Run] is; [Dispatching now i n] is the loop of [dispatch] over the
    [n] tasks copied. *)
Inductive run_pc := NotRunning | Looping | Dispatching (now : Time) (i n : nat) | Draining.

Record runner := mkRunner {
  r_tasks : list task; stop_closed : bool; wg : nat;
  r_pc : run_pc; ctx_done : bool; fires : list (nat * fire_pc) }.

(** [New]; the tick length and the logger do not influence the steps. *)
Definition New : runner := mkRunner [] false 0 NotRunning false [].

(** The registration of a job; [None] is the panic on a duplicate name. *)
Definition Job (name : string) (sched : Schedule) (now : Time) (ts : list task)
  : option (list task) :=
  if existsb (fun t => bool_decide (t_name t = name)) ts then None
  else Some (ts ++ [mkTask name sched now false]).

Definition set_running (b : bool) (t : task) : task :=
  mkTask (t_name t) (t_schedule t) (lastRun t) b.

(** The status report. *)
Record TaskInfo := mkInfo { Name : string; Sched : string; LastRun : Time; Running : bool }.
Definition Tasks (ts : list task) : list TaskInfo :=
  map (fun t => mkInfo (t_name t) (Desc (t_schedule t)) (lastRun t) (t_running t)) ts.

Inductive rstep : runner -> runner -> Prop :=
| rs_job ts ts' sc n pc cd fs name sched now :
    Job name sched now ts = Some ts' ->
    rstep (mkRunner ts sc n pc cd fs) (mkRunner ts' sc n pc cd fs)
| rs_run ts sc n cd cd' fs :
    rstep (mkRunner ts sc n NotRunning cd fs) (mkRunner ts false n Looping cd' fs)
| rs_cancel ts sc n pc cd fs :
    rstep (mkRunner ts sc n pc cd fs) (mkRunner ts sc n pc true fs)
| rs_stop ts sc n pc cd fs :
    rstep (mkRunner ts sc n pc cd fs) (mkRunner ts true n pc cd fs)
| rs_tick ts sc n cd fs now :
    rstep (mkRunner ts sc n Looping cd fs)
      (mkRunner ts sc n (Dispatching now 0 (length ts)) cd fs)
| rs_visit ts sc n cd fs now i m t t' b :
    (i < m)%nat -> ts !! i = Some t -> dispatch_task now t = (t', b) ->
    rstep (mkRunner ts sc n (Dispatching now i m) cd fs)
      (mkRunner (<[i := t']> ts) sc (if b then S n else n) (Dispatching now (S i) m) cd
         (if b then fs ++ [(i, InFn)] else fs))
| rs_dispatched ts sc n cd fs now m :
    rstep (mkRunner ts sc n (Dispatching now m m) cd fs) (mkRunner ts sc n Looping cd fs)
| rs_fn_returns ts sc n pc cd fs1 fs2 i t :
    ts !! i = Some t ->
    rstep (mkRunner ts sc n pc cd (fs1 ++ (i, InFn) :: fs2))
      (mkRunner (<[i := set_running false t]> ts) sc n pc cd (fs1 ++ (i, BeforeDone) :: fs2))
| rs_wg_done ts sc n pc cd fs1 fs2 i :
    rstep (mkRunner ts sc (S n) pc cd (fs1 ++ (i, BeforeDone) :: fs2))
      (mkRunner ts sc n pc cd (fs1 ++ fs2))
| rs_exit ts sc n cd fs :
    sc = true \/ cd = true ->
    rstep (mkRunner ts sc n Looping cd fs) (mkRunner ts sc n Draining cd fs)
| rs_drained ts sc cd fs :
    rstep (mkRunner ts sc 0 Draining cd fs) (mkRunner ts sc 0 NotRunning cd fs).

Definition r_reachable : runner -> Prop := rtc rstep New.

(** ** The runner never overlaps a task with itself *)

(** The goroutines inside the function of task [i]. *)
Definition in_fn (i : nat) (fs : list (nat * fire_pc)) : nat := occurs (i, InFn) fs.

Record runner_inv (s : runner) : Prop := {
  inv_wg : wg s = length (fires s);
  inv_fn i t : r_tasks s !! i = Some t -> in_fn i (fires s) = Nat.b2n (t_running t);
  inv_out i : (length (r_tasks s) <= i)%nat -> in_fn i (fires s) = 0%nat;
  inv_idle : r_pc s = NotRunning -> fires s = [];
}.

Lemma in_fn_app i fs1 fs2 : in_fn i (fs1 ++ fs2) = (in_fn i fs1 + in_fn i fs2)%nat.
Proof. apply occurs_app. Qed.

Lemma in_fn_InFn i j fs :
  in_fn i ((j, InFn) :: fs) = (Nat.b2n (bool_decide (i = j)) + in_fn i fs)%nat.
Proof.
  unfold in_fn. destruct (decide (i = j)) as [->|Hne].
  - by rewrite occurs_cons_eq, bool_decide_true.
  - by rewrite occurs_cons_ne, bool_decide_false by congruence.
Qed.

Lemma in_fn_BeforeDone i j fs : in_fn i ((j, BeforeDone) :: fs) = in_fn i fs.
Proof. unfold in_fn. by rewrite occurs_cons_ne. Qed.

Lemma dispatch_fires now t t' : dispatch_task now t = (t', true) ->
  t_running t = false /\ t_running t' = true.
Proof. unfold dispatch_task. destruct (t_running t), (Due _ _ _); naive_solver. Qed.

Lemma dispatch_skips now t t' : dispatch_task now t = (t', false) -> t' = t.
Proof. unfold dispatch_task. by destruct (_ && _); intros ?; simplify_eq. Qed.

Lemma rstep_inv s s' : runner_inv s -> rstep s s' -> runner_inv s'.
Proof.
  intros [Hwg Hfn Hout Hidle] Hstep. destruct Hstep; simpl in *;
    try (constructor; simpl; done).
  - unfold Job in *. destruct (existsb _ _); simplify_eq/=. constructor; simpl; try done.
    + intros i t [Hi|[Hi Ht]]%lookup_app_Some; [by apply Hfn |].
      apply list_lookup_singleton_Some in Ht as [_ <-]. simpl. by apply Hout.
    + intros i Hi. rewrite length_app in Hi. apply Hout. lia.
  - destruct b.
    + destruct (dispatch_fires _ _ _ H1) as [Hr Hr']. constructor; simpl; [| | | done].
      * rewrite length_app. simpl. lia.
      * intros j u Hj. rewrite in_fn_app, in_fn_InFn. unfold in_fn at 2. simpl.
        apply list_lookup_insert_Some in Hj as [(<- & -> & _)|[Hne Hj]].
        -- rewrite bool_decide_true, (Hfn _ _ H0), Hr, Hr' by done. done.
        -- rewrite bool_decide_false, (Hfn _ _ Hj) by done. unfold occurs. simpl. lia.
      * intros j Hj. rewrite length_insert in Hj. rewrite in_fn_app, in_fn_InFn.
        rewrite bool_decide_false, (Hout j Hj); [done |].
        apply lookup_lt_Some in H0. lia.
    + apply dispatch_skips in H1 as ->. constructor; simpl; [done | | | done].
      * intros j u Hj. rewrite list_insert_id in Hj by done. by apply Hfn.
      * intros j Hj. rewrite length_insert in Hj. by apply Hout.
  - constructor; simpl.
    + rewrite !length_app in *. simpl in *. lia.
    + intros j u Hj. specialize (Hout j). rewrite !in_fn_app, in_fn_BeforeDone in *.
      rewrite in_fn_InFn in Hout.
      apply list_lookup_insert_Some in Hj as [(<- & <- & _)|[Hne Hj]].
      * specialize (Hfn _ _ H). rewrite !in_fn_app, in_fn_InFn, bool_decide_true in Hfn by done.
        simpl. destruct (t_running t); simpl in Hfn; lia.
      * specialize (Hfn _ _ Hj). by rewrite !in_fn_app, in_fn_InFn, bool_decide_false in Hfn by done.
    + intros j Hj. rewrite length_insert in Hj. specialize (Hout j Hj).
      rewrite !in_fn_app, in_fn_BeforeDone, in_fn_InFn in *. lia.
    + intros Hpc. apply Hidle in Hpc. by destruct fs1.
  - constructor; simpl.
    + rewrite !length_app in *. simpl in *. lia.
    + intros j u Hj. specialize (Hfn _ _ Hj). by rewrite !in_fn_app, in_fn_BeforeDone in *.
    + intros j Hj. specialize (Hout _ Hj). by rewrite !in_fn_app, in_fn_BeforeDone in *.
    + intros Hpc. apply Hidle in Hpc. by destruct fs1.
  - constructor; simpl; try done. by destruct fs.
Qed.

Lemma r_reachable_inv s : r_reachable s -> runner_inv s.
Proof.
  apply (rtc_invariant rstep runner_inv); [| intros; by eapply rstep_inv].
  constructor; simpl; done.
Qed.

(** C37: a task never overlaps with itself: however ticks, completions, [Stop],
    cancellation and restarts interleave, at most one goroutine is inside the
    function of a given task, and [running] says exactly whether one is. *)
Theorem no_overlap (s : runner) (i : nat) (t : task) :
  r_reachable s -> r_tasks s !! i = Some t ->
  in_fn i (fires s) = Nat.b2n (t_running t) /\ (in_fn i (fires s) <= 1)%nat.
Proof.
  intros Hr%r_reachable_inv Ht. rewrite (inv_fn _ Hr _ _ Ht). destruct (t_running t); simpl; lia.
Qed.

Lemma drain_done ts sc cd fs n :
  n = length fs -> Forall (fun f => f.2 = BeforeDone) fs ->
  rtc rstep (mkRunner ts sc n Draining cd fs) (mkRunner ts sc 0 NotRunning cd []).
Proof.
  intros -> Hfs. induction Hfs as [|[i p] fs Hp _ IH]; simpl in *.
  - apply rtc_once, rs_drained.
  - subst p. eapply rtc_l; [apply (rs_wg_done ts sc (length fs) Draining cd [] fs i) | exact IH].
Qed.

(** [Run] drains: whenever it has returned, no task it fired is still
    running; and once it is draining and the task functions have returned, it
    does return. *)
Theorem run_drains (s : runner) :
  r_reachable s ->
  (r_pc s = NotRunning -> fires s = [])
  /\ (r_pc s = Draining -> Forall (fun f => f.2 = BeforeDone) (fires s) ->
      exists s', rtc rstep s s' /\ r_pc s' = NotRunning).
Proof.
  intros Hr%r_reachable_inv. split; [apply (inv_idle _ Hr) |].
  destruct s as [ts sc n pc cd fs]. simpl. intros -> Hf.
  exists (mkRunner ts sc 0 NotRunning cd []). split; [| done].
  apply drain_done; [apply (inv_wg _ Hr) | done].
Qed.

(** ** What a schedule fires

    The instants at which a task whose function returns before the next tick is
    fired, from [last] on, over the ticks [ts]. *)
Fixpoint fired (s : Schedule) (last : Time) (ts : list Time) : list Time :=
  match ts with
  | [] => []
  | now :: ts =>
      let '(t, b) := dispatch_task now (mkTask "task" s last false) in
      if b then now :: fired s (lastRun t) ts else fired s (lastRun t) ts
  end.

Lemma fired_cons s last now ts :
  fired s last (now :: ts)
  = if Due s last now then now :: fired s now ts else fired s last ts.
Proof. cbn [fired]. unfold dispatch_task. simpl. rewrite andb_true_r. by destruct (Due s last now). Qed.

(** Each element follows its predecessor by at least [lo] and less than [hi]. *)
Fixpoint spaced (lo hi : Z) (from : Time) (ts : list Time) : Prop :=
  match ts with
  | [] => True
  | t :: ts => lo <= t - from < hi /\ spaced lo hi t ts
  end.

Lemma every_spaced interval delta desc last from ts :
  0 < interval <= max_i64 -> last <= from -> from - last < interval ->
  spaced 1 (delta + 1) from ts ->
  spaced interval (interval + delta) last
    (fired (mkSchedule (fun prev now => interval <=? time_Sub now prev) desc) last ts).
Proof.
  intros Hi. revert last from. induction ts as [|t ts IH]; intros last from Hle Hlt Hts; [done |].
  destruct Hts as [Ht Hts]. rewrite fired_cons. simpl.
  assert (Hdue : (interval <=? time_Sub t last) = (interval <=? t - last)).
  { unfold time_Sub, min_i64, max_i64 in *.
    destruct (Z.leb_spec interval (t - last)); [apply Z.leb_le | apply Z.leb_gt]; lia. }
  rewrite Hdue. destruct (Z.leb_spec interval (t - last)).
  - simpl. split; [lia |]. apply (IH t t); [lia | lia | exact Hts].
  - apply (IH last t); [lia | lia | exact Hts].
Qed.

(** The last run after the ticks [ts]. *)
Definition last_run (s : Schedule) (from : Time) (ts : list Time) : Time :=
  default from (list.last (fired s from ts)).

Lemma last_run_cons s from t ts :
  last_run s from (t :: ts) = last_run s (if Due s from t then t else from) ts.
Proof.
  unfold last_run. rewrite fired_cons. destruct (Due s from t); [| done].
  by rewrite last_cons; destruct (list.last (fired s t ts)).
Qed.

(** [Every d] keeps its pace: with ticks at most [delta] apart, the task is
    never fired less than [d] after it was registered or last fired and always
    before [d + delta] has gone by; at every tick its last run is less than [d]
    old. *)
Theorem every_pace dur_string interval delta s last ts :
  Every dur_string interval = Some s -> interval <= max_i64 ->
  spaced 1 (delta + 1) last ts ->
  spaced interval (interval + delta) last (fired s last ts)
  /\ (forall now, list.last ts = Some now -> now - last_run s last ts < interval).
Proof.
  unfold Every. destruct (Z.leb_spec interval 0) as [|Hpos]; [done |]. intros Hs Hi Hts.
  simplify_eq. split; [apply (every_spaced _ _ _ last last); (done || lia) |].
  assert (Hgen : forall ts from, from - last < interval -> last <= from ->
    spaced 1 (delta + 1) from ts ->
    forall now, list.last (from :: ts) = Some now ->
    now - last_run (mkSchedule (fun prev now => interval <=? time_Sub now prev)
            ("every " +:+ dur_string interval)) last ts < interval).
  { clear Hts ts. intros ts. revert last. induction ts as [|t ts IH]; intros last from Hlt Hle Hts now Hnow.
    - unfold last_run. simpl in *. by simplify_eq.
    - destruct Hts as [Ht Hts]. rewrite last_run_cons. rewrite last_cons_cons in Hnow. simpl.
      destruct (Z.leb_spec interval (time_Sub t last)) as [Hd|Hd].
      + apply (IH t t); [lia | lia | done | done].
      + apply (IH last t); [unfold time_Sub, min_i64, max_i64 in *; lia | lia | done | done]. }
  intros now Hnow. apply (Hgen ts last); [lia | lia | done |].
  by destruct ts; [| rewrite last_cons_cons].
Qed.

Section Daily.
Context `{Calendar}.

(** The instants of one minute of one day. *)
Definition same_minute (a b : Time) : Prop :=
  day_of a = day_of b /\ hour_of a = hour_of b /\ minute_of a = minute_of b.

#[local] Instance same_minute_dec a b : Decision (same_minute a b).
Proof. unfold same_minute. apply _. Defined.

Lemma fired_app_none s last ts1 ts2 :
  Forall (fun t => Due s last t = false) ts1 -> fired s last (ts1 ++ ts2) = fired s last ts2.
Proof.
  induction 1 as [|t ts1 Ht _ IH]; [done |]. rewrite <- app_comm_cons, fired_cons, Ht. exact IH.
Qed.

Lemma daily_due_out h m prev now :
  hour_of now <> h \/ minute_of now <> m -> daily_due h m prev now = false.
Proof.
  intros Hn. unfold daily_due.
  destruct (Z.eqb_spec (hour_of now) h), (Z.eqb_spec (minute_of now) m); simpl; (done || naive_solver).
Qed.

Lemma daily_due_in h m prev now :
  hour_of now = h -> minute_of now = m ->
  daily_due h m prev now = negb (bool_decide (same_minute prev now)).
Proof.
  intros <- <-. unfold daily_due, same_minute. rewrite !Z.eqb_refl. simpl.
  destruct (Z.eqb_spec (day_of prev) (day_of now)), (Z.eqb_spec (hour_of prev) (hour_of now)),
    (Z.eqb_spec (minute_of prev) (minute_of now)); simpl; case_bool_decide; naive_solver.
Qed.

(** [DailyAt "HH:MM"] fires once in its minute, on the first tick there, and
    at no other time of the day; the one exception is a task whose last run was
    in the same minute of a day with the same number in its month (a month
    earlier, say), which is taken for the same day and not fired at all. *)
Theorem daily_once hhmm s h m last before now window after :
  DailyAt hhmm = Some s -> parseHHMM hhmm = Ok (h, m) ->
  Forall (fun t => hour_of t <> h \/ minute_of t <> m) (before ++ after) ->
  Forall (fun t => hour_of t = h /\ minute_of t = m /\ same_minute t now) (now :: window) ->
  fired s last (before ++ (now :: window) ++ after)
  = if decide (same_minute last now) then [] else [now].
Proof.
  unfold DailyAt. intros Hs Hp [Hb Ha]%Forall_app Hw. rewrite Hp in Hs. simplify_eq.
  assert (Hnone : forall prev ts, Forall (fun t => hour_of t <> h \/ minute_of t <> m) ts ->
    Forall (fun t => daily_due h m prev t = false) ts).
  { intros prev ts Hts. eapply list.Forall_impl; [exact Hts |]. intros t. apply daily_due_out. }
  assert (Hsame : forall prev ts, same_minute prev now ->
    Forall (fun t => hour_of t = h /\ minute_of t = m /\ same_minute t now) ts ->
    Forall (fun t => daily_due h m prev t = false) ts).
  { intros prev ts Hprev Hts. eapply list.Forall_impl; [exact Hts |]. intros t (Ht & Hm & Hn).
    rewrite daily_due_in, bool_decide_true; [done | | done | done].
    unfold same_minute in *. naive_solver congruence. }
  rewrite fired_app_none by (by apply Hnone).
  assert (Hend : forall prev, fired (mkSchedule (daily_due h m) ("daily at " +:+ hhmm)) prev after = []).
  { intros prev. rewrite <- (app_nil_r after). by rewrite fired_app_none by (by apply Hnone). }
  apply Forall_cons_1 in Hw as [(Hh & Hm & _) Hw].
  cbn [app]. rewrite fired_cons. simpl. rewrite daily_due_in by done.
  destruct (decide (same_minute last now)) as [Hl|Hl].
  - rewrite bool_decide_true by done. simpl. rewrite fired_app_none by (by apply Hsame). apply Hend.
  - rewrite bool_decide_false by done. simpl. f_equal.
    rewrite fired_app_none by (by apply Hsame). apply Hend.
Qed.
End Daily.

(** Times of day parse back: a pair of integers written [H:M] is accepted
    exactly when it is a time of day, whatever sign or width the numbers have,
    and the error names the first part that is out of range. *)
Theorem parseHHMM_format (h m : Z) :
  min_i64 <= h <= max_i64 -> min_i64 <= m <= max_i64 ->
  let s := (FormatInt h +:+ String ":" (FormatInt m))%string in
  parseHHMM s
  = if (0 <=? h) && (h <=? 23)
    then if (0 <=? m) && (m <=? 59) then Ok (h, m) else Err (ErrInvalidMinute s)
    else Err (ErrInvalidHour s).
Proof.
  intros Hh Hm s. unfold parseHHMM.
  assert (not_decimal ":") as Hc by (split; [right; by vm_compute | done]).
  assert (Split ":" s = [FormatInt h; FormatInt m]) as ->.
  { unfold s. by rewrite Split_first, Split_none by (by apply FormatInt_bytes). }
  unfold Atoi. rewrite !ParseInt_FormatInt by done.
  destruct (Z.ltb_spec h 0), (Z.ltb_spec 23 h), (Z.leb_spec 0 h), (Z.leb_spec h 23); try lia; simpl; try done.
  destruct (Z.ltb_spec m 0), (Z.ltb_spec 59 m), (Z.leb_spec 0 m), (Z.leb_spec m 59); try lia; done.
Qed.

(** ** A concrete calendar and witnesses *)

Section Witnesses.
Definition day_ns : Z := 86400 * Second.

(** UTC, for instants counted from January 1 of year 1: month and day of the
    proleptic Gregorian calendar, years starting in March. *)
Definition civil (t : Time) : Z * Z :=
  let z := t / day_ns + 306 in
  let doe := z mod 146097 in
  let yoe := (doe - doe / 1460 + doe / 36524 - doe / 146096) / 365 in
  let doy := doe - (365 * yoe + yoe / 4 - yoe / 100) in
  let mp := (5 * doy + 2) / 153 in
  (if mp <? 10 then mp + 3 else mp - 9, doy - (153 * mp + 2) / 5 + 1).

#[local] Instance utc : Calendar := {
  month_of t := (civil t).1;
  day_of t := (civil t).2;
  hour_of t := t / (3600 * Second) mod 24;
  minute_of t := t / Minute mod 60;
  weekday_of t := (t / day_ns + 1) mod 7;
}.

(** Monday, February 6, 2023, 00:00. *)
Definition feb6 : Time := 738556 * day_ns.

Example feb6_fields : (month_of feb6, day_of feb6, weekday_of feb6) = (2, 6, Monday).
Proof. by vm_compute. Qed.

(** Four weeks later the day of the month is the same: [Weekly] skips it. *)
Example weekly_missed : Due Weekly feb6 (feb6 + 28 * day_ns) = false.
Proof. by vm_compute. Qed.

Definition wdaily : Schedule := mkSchedule (daily_due 2 0) "daily at 02:00".

Lemma daily_once_witness :
  fired wdaily feb6 ([feb6 + Second] ++ (feb6 + 7200 * Second :: [feb6 + 7201 * Second]) ++ [feb6 + 9000 * Second])
  = [feb6 + 7200 * Second].
Proof.
  exact (daily_once "02:00" wdaily 2 0 feb6 [feb6 + Second] (feb6 + 7200 * Second)
    [feb6 + 7201 * Second] [feb6 + 9000 * Second] eq_refl eq_refl
    ltac:(repeat first [apply List.Forall_nil | apply List.Forall_cons]; vm_compute;
      first [left; discriminate | right; discriminate])
    ltac:(repeat constructor)).
Defined.

Lemma every_pace_witness :
  spaced 10 12 0 (fired (mkSchedule (fun prev now => 10 <=? time_Sub now prev) "every ") 0
    [2; 4; 6; 8; 10; 12; 14; 16; 18; 20]).
Proof.
  apply (every_pace (fun _ => EmptyString) 10 2); [reflexivity | vm_compute; discriminate |].
  simpl. lia.
Defined.

Lemma parseHHMM_format_witness : parseHHMM "23:59" = Ok (23, 59).
Proof. apply (parseHHMM_format 23 59); vm_compute; split; discriminate. Defined.

Definition wtask (b : bool) (last : Time) : task :=
  mkTask "job" (mkSchedule (fun prev now => 10 <=? now - prev) "every ") last b.

Lemma wrunning_reachable :
  r_reachable (mkRunner [wtask true 10] true 1 Draining false [(0%nat, InFn)]).
Proof.
  eapply rtc_l; [apply (rs_job [] [wtask false 0] false 0 NotRunning false [] "job"
    (t_schedule (wtask false 0)) 0); reflexivity |].
  eapply rtc_l; [apply (rs_run _ _ _ _ false) |].
  eapply rtc_l; [apply (rs_tick _ _ _ _ _ 10) |].
  eapply rtc_l; [apply (rs_visit [wtask false 0] false 0 false [] 10 0 1 (wtask false 0)
    (wtask true 10) true); [lia | reflexivity | reflexivity] |].
  eapply rtc_l; [apply rs_dispatched |].
  eapply rtc_l; [apply rs_stop |].
  eapply rtc_l; [apply rs_exit; by left |].
  constructor.
Qed.

Lemma no_overlap_witness : in_fn 0 [(0%nat, InFn)] = 1%nat.
Proof.
  exact (proj1 (no_overlap (mkRunner [wtask true 10] true 1 Draining false [(0%nat, InFn)])
    0 (wtask true 10) wrunning_reachable eq_refl)).
Defined.

Lemma run_drains_witness :
  let s := mkRunner [wtask false 10] true 1 Draining false [(0%nat, BeforeDone)] in
  exists s', rtc rstep s s' /\ r_pc s' = NotRunning.
Proof.
  intros s. refine (proj2 (run_drains s _) eq_refl _).
  - eapply rtc_r; [exact wrunning_reachable |].
    apply (rs_fn_returns [wtask true 10] true 1 Draining false [] [] 0 (wtask true 10)). reflexivity.
  - repeat constructor.
Defined.
End Witnesses.
