(* ===== verification/Migrations.v ===== *)
(** The migration engine of [src/migrations/]: [registry.go], [repository.go],
    [migration.go] (checksums) and [migrator.go], with the transaction wrapper
    of [src/database/connection.go].

    The database is an interface, [Database]: one operation per SQL statement
    the repository sends, each of which can fail; [DatabaseLaws] is what the
    theorems rely on, stated on [rows], the contents of the migrations table.
    The migrations themselves are callbacks on the database.  Sorting is
    [merge_sort]; the orders sorted by are total on the keys at hand. *)

From Stdlib Require Import ZArith Lia Ascii.
From stdpp Require Import base gmap strings list sorting numbers.
From S2P Require Import Prelude GoRt.

(** ** Records and the database *)

Record record := mkRecord {
  Migration : string; Batch : Z; Checksum : string; AppliedAt : Time }.

Inductive mig_error (E : Type) :=
| EDb (e : E)
| EBegin (e : E)
| ECommit (e : E)
| EStepCount
| EOutOfOrder (name high : string)
| EChecksum (name : string) (e : E)
| EChecksumMismatch (name : string)
| EUp (name : string) (e : E)
| EDown (name : string) (e : E)
| ENotRegistered (name : string)
| EDrop (table : string) (e : E).
Arguments EDb {E} e.
Arguments EBegin {E} e.
Arguments ECommit {E} e.
Arguments EStepCount {E}.
Arguments EOutOfOrder {E} name high.
Arguments EChecksum {E} name e.
Arguments EChecksumMismatch {E} name.
Arguments EUp {E} name e.
Arguments EDown {E} name e.
Arguments ENotRegistered {E} name.
Arguments EDrop {E} table e.

(** The statements of the engine.  [begin_tx] to [abort] are the driver's
    transaction: [commit before after] and [abort before after] get the state at
    the beginning and the one the body left. *)
Class Database (DB E : Type) := {
  create_table : DB -> DB * option E;
  select_records : DB -> result E (list record);
  max_batch : DB -> result E Z;
  insert_record : record -> DB -> DB * option E;
  delete_record : string -> DB -> DB * option E;
  begin_tx : DB -> DB * option E;
  commit : DB -> DB -> DB * option E;
  abort : DB -> DB -> DB;
  acquire_lock : DB -> DB * option E;
  release_lock : DB -> DB;
  list_tables : DB -> result E (list string);
  drop_table : string -> DB -> DB * option E;
}.

Section Engine.
Context {DB E : Type} `{Database DB E}.

(** A migration: the callbacks run on the database, and the SQL they collect in
    preview mode. *)
Record migration := mkMigration {
  m_name : string;
  m_up : DB -> DB * option E; m_down : DB -> DB * option E;
  m_up_sql : result E (list string); m_down_sql : result E (list string) }.

(** ** [registry.go] *)

Record registry := mkRegistry { mig : gmap string migration; seen : list string }.

Definition NewRegistry : registry := mkRegistry ∅ [].

(** [None] is a panic. *)
Definition Register (m : migration) (r : registry) : option registry :=
  if bool_decide (m_name m = EmptyString) then None
  else match mig r !! m_name m with
       | Some _ => None
       | None => Some (mkRegistry (<[m_name m := m]> (mig r)) (seen r ++ [m_name m]))
       end.

Definition Names (r : registry) : list string := merge_sort String.le (seen r).
Definition All (r : registry) : list migration := omap (fun n => mig r !! n) (Names r).
Definition Get (name : string) (r : registry) : option migration := mig r !! name.

(** ** [repository.go] *)

(** [ORDER BY batch ASC, migration ASC]. *)
Definition rec_le (a b : record) : Prop :=
  Batch a < Batch b \/ (Batch a = Batch b /\ String.le (Migration a) (Migration b)).

(** The [sort.Slice] of [Rollback] and [Reset]: newest first. *)
Definition rec_ge (a b : record) : Prop := rec_le b a.

#[local] Instance rec_le_dec : RelDecision rec_le.
Proof. intros a b. unfold rec_le. apply _. Defined.
#[local] Instance rec_ge_dec : RelDecision rec_ge.
Proof. intros a b. unfold rec_ge. apply _. Defined.

Definition repo_names (db : DB) : result E (gmap string record) :=
  match select_records db with
  | Err e => Err e
  | Ok all => Ok (fold_left (fun out rec => <[Migration rec := rec]> out) all ∅)
  end.

(** ** [connection.go]: [TransactionWith], for a body that does not panic *)

Definition Transaction (body : DB -> DB * option (mig_error E)) (db : DB)
  : DB * option (mig_error E) :=
  match begin_tx db with
  | (db, Some e) => (db, Some (EBegin e))
  | (db1, None) =>
      match body db1 with
      | (db2, Some e) => (abort db1 db2, Some e)
      | (db2, None) =>
          match commit db1 db2 with
          | (db3, Some e) => (db3, Some (ECommit e))
          | (db3, None) => (db3, None)
          end
      end
  end.

(** ** [migrator.go] *)

Record options := mkOptions { Pretend : bool; AllowOutOfOrder : bool; EnforceChecksums : bool }.

(** The database and what was printed. *)
Definition world : Type := DB * list string.

Context (opts : options) (reg : registry).
(** SHA-256 of the statements, in hexadecimal, and the clock. *)
Context (sha256 : list string -> string) (Now : string -> Time).

Definition checksum (m : migration) : result E string :=
  match m_up_sql m with
  | Err e => Err e
  | Ok sql => Ok (sha256 sql)
  end.

Definition highestName (applied : gmap string record) : string :=
  default EmptyString (list.last (merge_sort String.le (map fst (map_to_list applied)))).

(** The loop of [verifyChecksums]; the order in which Go walks the map only
    decides which of several errors is reported. *)
Fixpoint verify_loop (l : list (string * record)) : option (mig_error E) :=
  match l with
  | [] => None
  | (name, rec) :: l =>
      match Get name reg with
      | None => verify_loop l
      | Some m =>
          match checksum m with
          | Err e => Some (EChecksum name e)
          | Ok sum =>
              if negb (bool_decide (Checksum rec = EmptyString))
                 && negb (bool_decide (sum = Checksum rec))
              then Some (EChecksumMismatch name)
              else verify_loop l
          end
      end
  end.

Definition verifyChecksums (applied : gmap string record) : option (mig_error E) :=
  verify_loop (map_to_list applied).

(** The loop of [runUp] that selects what to apply. *)
Fixpoint pending_loop (limit : Z) (applied : gmap string record) (high : string)
    (all pending : list migration) : result (mig_error E) (list migration) :=
  match all with
  | [] => Ok pending
  | m :: all =>
      match applied !! m_name m with
      | Some _ => pending_loop limit applied high all pending
      | None =>
          if negb (AllowOutOfOrder opts) && String.ltb (m_name m) high
          then Err (EOutOfOrder (m_name m) high)
          else
            let pending := pending ++ [m] in
            if (0 <? limit) && (limit <=? Z.of_nat (length pending)) then Ok pending
            else pending_loop limit applied high all pending
      end
  end.

Definition applyOne (m : migration) (batch : Z) (w : world) : world * option (mig_error E) :=
  let '(db, out) := w in
  match checksum m with
  | Err e => (w, Some (EChecksum (m_name m) e))
  | Ok sum =>
      if Pretend opts
      then match m_up_sql m with
           | Err e => (w, Some (EDb e))
           | Ok sql => ((db, out ++ map (fun s => s +:+ ";") sql), None)
           end
      else
        let '(db, err) := Transaction (fun db =>
          match m_up m db with
          | (db, Some e) => (db, Some (EUp (m_name m) e))
          | (db, None) =>
              match insert_record (mkRecord (m_name m) batch sum (Now (m_name m))) db with
              | (db, Some e) => (db, Some (EDb e))
              | (db, None) => (db, None)
              end
          end) db in
        ((db, out), err)
  end.

Fixpoint apply_loop (batch : Z) (pending : list migration) (w : world)
  : world * (list string * option (mig_error E)) :=
  match pending with
  | [] => (w, ([], None))
  | m :: pending =>
      match applyOne m batch w with
      | (w, Some e) => (w, ([], Some e))
      | (w, None) =>
          let '(w, (names, err)) := apply_loop batch pending w in
          (w, (m_name m :: names, err))
      end
  end.

(** [Ensure], the lock, its deferred release around [body]. *)
Definition with_lock (body : world -> world * (list string * option (mig_error E))) (w : world)
  : world * (list string * option (mig_error E)) :=
  let '(db, out) := w in
  match create_table db with
  | (db, Some e) => ((db, out), ([], Some (EDb e)))
  | (db, None) =>
      match acquire_lock db with
      | (db, Some e) => ((db, out), ([], Some (EDb e)))
      | (db, None) =>
          let '((db, out), r) := body (db, out) in ((release_lock db, out), r)
      end
  end.

Definition runUp (limit : Z) : world -> world * (list string * option (mig_error E)) :=
  with_lock (fun w =>
    match repo_names w.1 with
    | Err e => (w, ([], Some (EDb e)))
    | Ok applied =>
        match (if EnforceChecksums opts then verifyChecksums applied else None) with
        | Some e => (w, ([], Some e))
        | None =>
            match pending_loop limit applied (highestName applied) (All reg) [] with
            | Err e => (w, ([], Some e))
            | Ok [] => (w, ([], None))
            | Ok pending =>
                match max_batch w.1 with
                | Err e => (w, ([], Some (EDb e)))
                | Ok batch => apply_loop (batch + 1) pending w
                end
            end
        end
    end).

Definition Up : world -> world * (list string * option (mig_error E)) := runUp 0.

Definition Step (n : Z) (w : world) : world * (list string * option (mig_error E)) :=
  if n <=? 0 then (w, ([], Some EStepCount)) else runUp n w.

(** The leading records of one batch. *)
Fixpoint same_batch (batch : Z) (l : list record) : list record :=
  match l with
  | [] => []
  | rec :: l => if negb (Batch rec =? batch) then [] else rec :: same_batch batch l
  end.

(** The records to roll back, [records] being sorted newest first. *)
Definition rollback_target (step : Z) (records : list record) : list record :=
  match records with
  | [] => []
  | rec :: _ =>
      if step <=? 0 then same_batch (Batch rec) records
      else take (Z.to_nat (Z.min step (Z.of_nat (length records)))) records
  end.

Definition revertOne (m : migration) (w : world) : world * option (mig_error E) :=
  let '(db, out) := w in
  if Pretend opts
  then match m_down_sql m with
       | Err e => (w, Some (EDb e))
       | Ok sql => ((db, out ++ map (fun s => s +:+ ";") sql), None)
       end
  else
    let '(db, err) := Transaction (fun db =>
      match m_down m db with
      | (db, Some e) => (db, Some (EDown (m_name m) e))
      | (db, None) =>
          match delete_record (m_name m) db with
          | (db, Some e) => (db, Some (EDb e))
          | (db, None) => (db, None)
          end
      end) db in
    ((db, out), err).

Fixpoint revert_loop (target : list record) (w : world)
  : world * (list string * option (mig_error E)) :=
  match target with
  | [] => (w, ([], None))
  | rec :: target =>
      match Get (Migration rec) reg with
      | None => (w, ([], Some (ENotRegistered (Migration rec))))
      | Some m =>
          match revertOne m w with
          | (w, Some e) => (w, ([], Some e))
          | (w, None) =>
              let '(w, (names, err)) := revert_loop target w in
              (w, (m_name m :: names, err))
          end
      end
  end.

Definition Rollback (step : Z) : world -> world * (list string * option (mig_error E)) :=
  with_lock (fun w =>
    match select_records w.1 with
    | Err e => (w, ([], Some (EDb e)))
    | Ok records => revert_loop (rollback_target step (merge_sort rec_ge records)) w
    end).

Definition Reset (w : world) : world * (list string * option (mig_error E)) :=
  let '(db, out) := w in
  match create_table db with
  | (db, Some e) => ((db, out), ([], Some (EDb e)))
  | (db, None) =>
      match select_records db with
      | Err e => ((db, out), ([], Some (EDb e)))
      | Ok records => Rollback (Z.of_nat (length records)) (db, out)
      end
  end.

Definition Refresh (w : world) : world * (list string * option (mig_error E)) :=
  match Reset w with
  | (w, (_, Some e)) => (w, ([], Some e))
  | (w, (_, None)) => Up w
  end.

Fixpoint drop_loop (ts : list string) (db : DB) : DB * option (mig_error E) :=
  match ts with
  | [] => (db, None)
  | t :: ts =>
      match drop_table t db with
      | (db, Some e) => (db, Some (EDrop t e))
      | (db, None) => drop_loop ts db
      end
  end.

(** The tables of the driver's catalogue but the lock table; [is_lock] is
    [strings.EqualFold(name, "migrations_lock")]. *)
Context (is_lock : string -> bool).

Definition listTables (db : DB) : result E (list string) :=
  match list_tables db with
  | Err e => Err e
  | Ok names => Ok (List.filter (fun n => negb (is_lock n)) names)
  end.

Definition dropAllTables (db : DB) : DB * option (mig_error E) :=
  match listTables db with
  | Err e => (db, Some (EDb e))
  | Ok ts => drop_loop ts db
  end.

Definition Fresh (w : world) : world * (list string * option (mig_error E)) :=
  let '(db, out) := w in
  match dropAllTables db with
  | (db, Some e) => ((db, out), ([], Some e))
  | (db, None) => Up (db, out)
  end.

(** One line of the status report. *)
Record StatusRow := mkRow {
  s_name : string; s_applied : bool; s_stale : bool; s_batch : Z;
  s_applied_at : Time; s_checksum : string }.

Definition status_of (applied : gmap string record) (m : migration) : StatusRow :=
  match applied !! m_name m with
  | Some rec => mkRow (m_name m) true false (Batch rec) (AppliedAt rec) (Checksum rec)
  | None => mkRow (m_name m) false false 0 zero_time EmptyString
  end.

Definition stale_rows (known : list string) (applied : gmap string record) : list StatusRow :=
  omap (fun '(name, rec) =>
    if decide (name ∈ known) then None
    else Some (mkRow name true true (Batch rec) (AppliedAt rec) (Checksum rec)))
    (map_to_list applied).

Definition row_le (a b : StatusRow) : Prop := String.le (s_name a) (s_name b).
#[local] Instance row_le_dec : RelDecision row_le.
Proof. intros a b. unfold row_le. apply _. Defined.

Definition Status (db : DB) : DB * result E (list StatusRow) :=
  match create_table db with
  | (db, Some e) => (db, Err e)
  | (db, None) =>
      (db, match repo_names db with
           | Err e => Err e
           | Ok applied =>
               let all := All reg in
               Ok (merge_sort row_le (map (status_of applied) all
                                       ++ stale_rows (map m_name all) applied))
           end)
  end.
End Engine.

(** ** What the engine relies on *)

Class DatabaseLaws (DB E : Type) `{Database DB E} (rows : DB -> gmap string record) : Prop := {
  rows_key db n r : rows db !! n = Some r -> Migration r = n;
  create_rows db : rows (create_table db).1 = rows db;
  select_rows db l : select_records db = Ok l -> l ≡ₚ map snd (map_to_list (rows db));
  max_rows db n : max_batch db = Ok n ->
    n = foldr Z.max 0 (map Batch (map snd (map_to_list (rows db))));
  insert_rows r db db' : insert_record r db = (db', None) ->
    rows db' = <[Migration r := r]> (rows db);
  delete_rows n db db' : delete_record n db = (db', None) -> rows db' = delete n (rows db);
  begin_rows db : rows (begin_tx db).1 = rows db;
  commit_rows b a db : commit b a = (db, None) -> rows db = rows a;
  commit_fails b a db e : commit b a = (db, Some e) -> rows db = rows b;
  abort_rows b a : rows (abort b a) = rows b;
  acquire_rows db : rows (acquire_lock db).1 = rows db;
  release_rows db : rows (release_lock db) = rows db;
}.

Section Correct.
Context {DB E : Type} {rows : DB -> gmap string record} `{DatabaseLaws DB E rows}.
Context (opts : options) (reg : @registry DB E).
Context (sha256 : list string -> string) (Now : string -> Time).
Implicit Types (m : @migration DB E) (w : @world DB).

(** A callback that leaves the migrations table alone. *)
Definition tame m : Prop :=
  forall db, rows (m_up m db).1 = rows db /\ rows (m_down m db).1 = rows db.

(** A registry built by [Register]. *)
Definition registry_wf (r : @registry DB E) : Prop :=
  NoDup (seen r)
  /\ (forall n, n ∈ seen r <-> is_Some (mig r !! n))
  /\ (forall n m, mig r !! n = Some m -> m_name m = n).

Lemma Register_wf m r r' : registry_wf r -> Register m r = Some r' -> registry_wf r'.
Proof.
  intros (Hnd & Hin & Hname). unfold Register. case_bool_decide; [done |].
  destruct (mig r !! m_name m) eqn:Hm; [done |]. intros [= <-]. split_and!; simpl.
  - apply list.NoDup_app. split_and!; [done | | by apply NoDup_singleton].
    intros n Hn ->%list_elem_of_singleton. apply Hin in Hn as [? ?]. congruence.
  - intros n. rewrite elem_of_app, list_elem_of_singleton, Hin.
    destruct (decide (n = m_name m)) as [->|Hne].
    + rewrite lookup_insert_eq. split; [by eexists | by right].
    + rewrite lookup_insert_ne by done. split; [by intros [?|?] | by left].
  - intros n u. destruct (decide (n = m_name m)) as [->|Hne].
    + rewrite lookup_insert_eq. by intros [= <-].
    + rewrite lookup_insert_ne by done. apply Hname.
Qed.

Context (Hreg : registry_wf reg) (Hlive : Pretend opts = false).
Context (Htame : forall n m, mig reg !! n = Some m -> tame m).

Lemma Names_perm : Names reg ≡ₚ seen reg.
Proof. apply merge_sort_Permutation. Qed.

Lemma Names_sorted : Sorted String.le (Names reg).
Proof. apply (Sorted_merge_sort _). Qed.

Lemma Names_NoDup : NoDup (Names reg).
Proof. rewrite Names_perm. apply Hreg. Qed.

Lemma map_names (l : list string) :
  (forall n, n ∈ l -> is_Some (mig reg !! n)) ->
  map m_name (omap (fun n => mig reg !! n) l) = l.
Proof.
  induction l as [|n l IH]; intros Hl; [done |]. simpl.
  destruct (Hl n) as [m Hm]; [set_solver |]. rewrite Hm. simpl.
  rewrite (proj2 (proj2 Hreg) _ _ Hm). f_equal. apply IH. set_solver.
Qed.

Lemma All_names : map m_name (All reg) = Names reg.
Proof.
  apply map_names. intros n Hn. rewrite Names_perm in Hn. by apply Hreg.
Qed.

Lemma All_registered m : m ∈ All reg -> mig reg !! m_name m = Some m.
Proof.
  intros (n & _ & Hn)%list_elem_of_omap.
  by rewrite (proj2 (proj2 Hreg) _ _ Hn).
Qed.

(** ** Transactions are all or nothing *)

Lemma Transaction_rows body db db' err :
  Transaction body db = (db', err) ->
  match err with
  | Some _ => rows db' = rows db
  | None => exists db1 db2, rows db1 = rows db /\ body db1 = (db2, None) /\ rows db' = rows db2
  end.
Proof.
  unfold Transaction. pose proof (begin_rows db) as Hb.
  destruct (begin_tx db) as [db1 [e|]]; simpl in Hb; [by intros [= <- <-] |].
  destruct (body db1) as [db2 [e|]] eqn:Hbody.
  { intros [= <- <-]. by rewrite abort_rows. }
  destruct (commit db1 db2) as [db3 [e|]] eqn:Hc; intros [= <- <-].
  - apply commit_fails in Hc. congruence.
  - exists db1, db2. by apply commit_rows in Hc.
Qed.

Lemma applyOne_rows m batch w w' err :
  tame m -> applyOne opts sha256 Now m batch w = (w', err) ->
  match err with
  | Some _ => rows w'.1 = rows w.1
  | None => exists sum, checksum sha256 m = Ok sum
      /\ rows w'.1 = <[m_name m := mkRecord (m_name m) batch sum (Now (m_name m))]> (rows w.1)
  end.
Proof.
  intros Ht. destruct w as [db out]. unfold applyOne. rewrite Hlive.
  destruct (checksum sha256 m) as [sum|e]; [| by intros [= <- <-]].
  destruct (Transaction _ db) as [db' err'] eqn:Htx. intros [= <- <-]. simpl.
  apply Transaction_rows in Htx. destruct err' as [e|]; [done |].
  destruct Htx as (db1 & db2 & H1 & Hbody & H2). exists sum. split; [done |].
  destruct (Ht db1) as [Hup _]. destruct (m_up m db1) as [db3 [e|]]; [done |].
  destruct (insert_record _ db3) as [db4 [e|]] eqn:Hins; [done |].
  injection Hbody as <-. apply insert_rows in Hins. simpl in *. congruence.
Qed.

Lemma revertOne_rows m w w' err :
  tame m -> revertOne opts m w = (w', err) ->
  rows w'.1 = match err with Some _ => rows w.1 | None => delete (m_name m) (rows w.1) end.
Proof. clear sha256 Now.
  intros Ht. destruct w as [db out]. unfold revertOne. rewrite Hlive.
  destruct (Transaction _ db) as [db' err'] eqn:Htx. intros [= <- <-]. simpl.
  apply Transaction_rows in Htx. destruct err' as [e|]; [done |].
  destruct Htx as (db1 & db2 & H1 & Hbody & H2).
  destruct (Ht db1) as [_ Hdn]. destruct (m_down m db1) as [db3 [e|]]; [done |].
  destruct (delete_record _ db3) as [db4 [e|]] eqn:Hdel; [done |].
  injection Hbody as <-. apply delete_rows in Hdel. simpl in *. congruence.
Qed.

(** ** Applying *)

Definition new_record (batch : Z) (n : string) : option record :=
  match mig reg !! n with
  | Some m => match checksum sha256 m with
              | Ok sum => Some (mkRecord n batch sum (Now n))
              | Err _ => None
              end
  | None => None
  end.

Lemma apply_loop_rows batch pending w w' names err :
  (forall m, m ∈ pending -> mig reg !! m_name m = Some m) ->
  apply_loop opts sha256 Now batch pending w = (w', (names, err)) ->
  (exists k, names = take k (map m_name pending))
  /\ (err = None -> names = map m_name pending)
  /\ (forall n, n ∈ names -> is_Some (new_record batch n))
  /\ (forall n, rows w'.1 !! n = if decide (n ∈ names) then new_record batch n else rows w.1 !! n).
Proof.
  revert w w' names err. induction pending as [|m pending IH]; intros w w' names err Hp; cbn [apply_loop].
  { intros [= <- <- <-]. split_and!; [by exists 0%nat | done | set_solver |]. intros n.
    rewrite decide_False; [done | apply not_elem_of_nil]. }
  pose proof (Hp m (list_elem_of_here _ _)) as Hm.
  destruct (applyOne opts sha256 Now m batch w) as [w1 [e|]] eqn:H1;
    (apply applyOne_rows in H1; [| by eapply Htame]).
  { intros [= <- <- <-]. split_and!; [by exists 0%nat | done | set_solver |]. intros n.
    rewrite decide_False, H1; [done | apply not_elem_of_nil]. }
  destruct H1 as (sum & Hsum & Hrows).
  destruct (apply_loop opts sha256 Now batch pending w1) as [w2 [names' err']] eqn:H2.
  intros [= <- <- <-]. apply IH in H2 as ([k Hk] & Hall & Hsome & Hn); [| set_solver].
  assert (Hnew : is_Some (new_record batch (m_name m))).
  { unfold new_record. by rewrite Hm, Hsum. }
  split_and!.
  - exists (S k). simpl. by rewrite Hk.
  - intros He. simpl. by rewrite (Hall He).
  - intros n [-> | Hin]%elem_of_cons; [done | by apply Hsome].
  - intros n. rewrite Hn, Hrows.
    destruct (decide (n = m_name m)) as [->|Hne].
    + rewrite lookup_insert_eq, (decide_True (P := m_name m ∈ m_name m :: names')) by constructor.
      unfold new_record. rewrite Hm, Hsum. by case_decide.
    + rewrite lookup_insert_ne by done. repeat case_decide; set_solver.
Qed.

Definition unapplied (applied : gmap string record) (l : list string) : list string :=
  filter (fun n => applied !! n = None) l.

Lemma pending_loop_spec limit applied high all acc p :
  pending_loop opts limit applied high all acc = Ok p ->
  (exists k, map m_name p = map m_name acc ++ take k (unapplied applied (map m_name all)))
  /\ (limit <= 0 -> map m_name p = map m_name acc ++ unapplied applied (map m_name all))
  /\ (0 < limit -> Z.of_nat (length acc) < limit -> Z.of_nat (length p) <= limit)
  /\ (forall m, m ∈ p -> m ∈ acc \/ m ∈ all /\
        (AllowOutOfOrder opts = false -> String.ltb (m_name m) high = false)).
Proof.
  revert acc. induction all as [|m all IH]; intros acc; cbn [pending_loop].
  { intros [= <-]. unfold unapplied. simpl. rewrite app_nil_r.
    split_and!; [by exists 0%nat; rewrite app_nil_r | done | lia | auto]. }
  unfold unapplied. cbn [map]. destruct (applied !! m_name m) as [rec|] eqn:Ha.
  { intros Hp. apply IH in Hp as (Hk & Hall & Hlim & Hin).
    rewrite filter_cons_False by congruence. split_and!; [done.. |].
    intros u Hu. destruct (Hin u Hu) as [|[? ?]]; [by left | right; split; [by constructor | done]]. }
  rewrite filter_cons_True by done.
  destruct (negb (AllowOutOfOrder opts) && String.ltb (m_name m) high) eqn:Ho; [done |].
  assert (Hhigh : AllowOutOfOrder opts = false -> String.ltb (m_name m) high = false).
  { intros Hf. by rewrite Hf in Ho. }
  destruct ((0 <? limit) && (limit <=? Z.of_nat (length (acc ++ [m])))) eqn:Hl.
  - intros [= <-]. to_prop. rewrite map_app. split_and!.
    + exists 1%nat. done.
    + lia.
    + intros _ Hacc. rewrite length_app in *. simpl. lia.
    + intros u [?| ->%list_elem_of_singleton]%elem_of_app; [by left |].
      right. split; [constructor | done].
  - intros Hp. apply IH in Hp as ((k & Hk) & Hall & Hlim & Hin).
    rewrite map_app in *. rewrite <- !app_assoc in *. split_and!.
    + exists (S k). exact Hk.
    + intros Hz. exact (Hall Hz).
    + intros Hz Hacc. apply Hlim; [done |]. rewrite length_app in *. simpl in *.
      apply andb_false_iff in Hl as [?%Z.ltb_ge|?%Z.leb_gt]; lia.
    + intros u Hu. destruct (Hin u Hu) as [[?| ->%list_elem_of_singleton]%elem_of_app|[? ?]].
      * by left.
      * right. split; [constructor | done].
      * right. split; [by constructor | done].
Qed.

Lemma repo_names_rows db applied : repo_names db = Ok applied -> applied = rows db.
Proof.
  unfold repo_names. destruct (select_records db) as [l|e] eqn:Hl; [| done].
  intros [= <-]. apply select_rows in Hl. apply map_eq. intros n.
  assert (Hgen : forall (l : list record) (out : gmap string record),
    fold_left (fun out rec => <[Migration rec := rec]> out) l out !! n
    = match list.last (filter (fun r => Migration r = n) l) with
      | Some r => Some r | None => out !! n end).
  { clear. intros l. induction l as [|r l IH]; intros out; [done |]. cbn [fold_left]. rewrite IH.
    destruct (decide (Migration r = n)) as [<-|Hne].
    - rewrite filter_cons_True, last_cons, lookup_insert_eq by done. by destruct (list.last _).
    - by rewrite filter_cons_False, lookup_insert_ne by done. }
  rewrite Hgen, lookup_empty.
  assert (Hin : forall r, r ∈ l <-> rows db !! Migration r = Some r).
  { intros r. rewrite Hl, list_elem_of_fmap. split.
    - intros ([k r'] & -> & Hk%elem_of_map_to_list). simpl.
      by rewrite (rows_key _ _ _ Hk).
    - intros Hr. exists (Migration r, r). by rewrite elem_of_map_to_list. }
  destruct (list.last _) as [r|] eqn:Hlast.
  - apply last_Some_elem_of in Hlast. apply list_elem_of_filter in Hlast as [<- Hr].
    by apply Hin in Hr.
  - apply last_None in Hlast. destruct (rows db !! n) as [r|] eqn:Hr; [| done].
    pose proof (rows_key _ _ _ Hr) as <-. apply Hin in Hr.
    assert (r ∈ filter (fun r0 => Migration r0 = Migration r) l) as Hc by (by apply list_elem_of_filter).
    rewrite Hlast in Hc. by apply not_elem_of_nil in Hc.
Qed.

Lemma with_lock_rows body w w' r :
  with_lock body w = (w', r) ->
  (exists e, r = ([], Some (EDb e)) /\ rows w'.1 = rows w.1)
  \/ exists w1 w2, rows w1.1 = rows w.1 /\ body w1 = (w2, r) /\ rows w'.1 = rows w2.1.
Proof.
  destruct w as [db out]. unfold with_lock.
  pose proof (create_rows db) as H1. destruct (create_table db) as [db1 [e|]]; simpl in H1.
  { intros [= <- <-]. left. by exists e. }
  pose proof (acquire_rows db1) as H2. destruct (acquire_lock db1) as [db2 [e|]]; simpl in H2.
  { intros [= <- <-]. left. exists e. split; [done |]. simpl. congruence. }
  destruct (body (db2, out)) as [[db3 out'] r'] eqn:Hb. intros [= <- <-].
  right. exists (db2, out), (db3, out'). simpl. split_and!; [congruence | done | apply release_rows].
Qed.

Lemma runUp_rows limit w w' names err :
  runUp opts reg sha256 Now limit w = (w', (names, err)) ->
  let todo := unapplied (rows w.1) (Names reg) in
  let batch := foldr Z.max 0 (map Batch (map snd (map_to_list (rows w.1)))) + 1 in
  (exists k, names = take k todo)
  /\ (err = None -> limit <= 0 -> names = todo)
  /\ (0 < limit -> Z.of_nat (length names) <= limit)
  /\ (forall n, n ∈ names -> is_Some (new_record batch n))
  /\ (forall n, rows w'.1 !! n = if decide (n ∈ names) then new_record batch n else rows w.1 !! n).
Proof.
  intros Hrun todo batch.
  assert (Hnone : forall w1 e, rows w1.1 = rows w.1 -> names = [] -> err = Some e ->
    (exists k, names = take k todo) /\ (err = None -> limit <= 0 -> names = todo)
    /\ (0 < limit -> Z.of_nat (length names) <= limit)
    /\ (forall n, n ∈ names -> is_Some (new_record batch n))
    /\ (forall n, rows w1.1 !! n = if decide (n ∈ names) then new_record batch n else rows w.1 !! n)).
  { intros w1 e Hr -> ->. split_and!; [by exists 0%nat | done | simpl; lia | set_solver |].
    intros n. by rewrite decide_False, Hr by apply not_elem_of_nil. }
  apply with_lock_rows in Hrun as [(e & [= -> ->] & Hr)|(w1 & w2 & H1 & Hbody & H2)];
    [by eapply Hnone |].
  destruct (repo_names w1.1) as [applied|e] eqn:Happ; [| simplify_eq; eapply Hnone; [congruence | done | done]].
  apply repo_names_rows in Happ as ->.
  destruct (if EnforceChecksums opts then verifyChecksums reg sha256 (rows w1.1) else None) as [e|]; [simplify_eq; eapply Hnone; [congruence | done | done] |].
  destruct (pending_loop _ _ _ _ _ _) as [p|e] eqn:Hp; [| simplify_eq; eapply Hnone; [congruence | done | done]].
  apply pending_loop_spec in Hp as ((k & Hk) & Hall & Hlim & Hin).
  rewrite All_names, H1 in *. simpl in Hk, Hall.
  destruct p as [|m p].
  { simplify_eq/=. split_and!; [by exists 0%nat | intros _; by apply Hall | lia | set_solver |].
    intros n. congruence. }
  destruct (max_batch w1.1) as [b|e] eqn:Hb; [| simplify_eq; eapply Hnone; [congruence | done | done]].
  apply max_rows in Hb. rewrite H1 in Hb. subst b.
  apply apply_loop_rows in Hbody as ([k' Hk'] & Hall' & Hsome & Hrows).
  - rewrite H1 in Hrows. split_and!.
    + exists (k' `min` k)%nat. by rewrite Hk', Hk, take_take.
    + intros He Hl. by rewrite (Hall' He), (Hall Hl).
    + intros Hl. rewrite Hk', length_take, length_map. specialize (Hlim Hl ltac:(simpl; lia)). lia.
    + exact Hsome.
    + intros n. by rewrite H2, Hrows.
  - intros u Hu. destruct (Hin u Hu) as [Hu'|[Hu' _]]; [by apply not_elem_of_nil in Hu' |].
    by apply All_registered.
Qed.

(** [Up] and [Step] record exactly what they apply: the names returned are
    the first of the registered migrations not yet recorded, in name order (all
    of them, for [Up] without an error; at most [n] for [Step n]); each gets a
    record with its checksum in one new batch, every other record is as before,
    and after a failure the migrations applied before it stay recorded and the
    failed one is not. *)
Theorem runUp_records limit w w' names err :
  runUp opts reg sha256 Now limit w = (w', (names, err)) ->
  let todo := unapplied (rows w.1) (Names reg) in
  let batch := foldr Z.max 0 (map Batch (map snd (map_to_list (rows w.1)))) + 1 in
  (exists k, names = take k todo)
  /\ (err = None -> limit <= 0 -> names = todo)
  /\ (0 < limit -> Z.of_nat (length names) <= limit)
  /\ (forall n, n ∈ names -> is_Some (new_record batch n))
  /\ (forall n, rows w'.1 !! n = if decide (n ∈ names) then new_record batch n else rows w.1 !! n).
Proof. apply runUp_rows. Qed.

(** ** Rolling back *)

#[local] Existing Instance rec_le_dec.
#[local] Existing Instance rec_ge_dec.

#[local] Instance rec_ge_trans : Transitive rec_ge.
Proof.
  intros a b c. unfold rec_ge, rec_le. intros [?|[? ?]] [?|[? ?]]; try (left; lia).
  right. split; [lia |]. by etrans.
Qed.

#[local] Instance rec_ge_total : Total rec_ge.
Proof.
  intros a b. unfold rec_ge, rec_le.
  destruct (Z.lt_trichotomy (Batch a) (Batch b)) as [?|[?|?]]; [by right; left | | by left; left].
  destruct (String.le_total (Migration a) (Migration b)); [right | left]; by right.
Qed.

(** The records, newest first. *)
Definition newest_first (rs : gmap string record) : list record :=
  merge_sort rec_ge (map snd (map_to_list rs)).

Lemma elem_of_newest db r : r ∈ newest_first (rows db) <-> rows db !! Migration r = Some r.
Proof. clear sha256 Now.
  unfold newest_first. rewrite merge_sort_Permutation, list_elem_of_fmap. split.
  - intros ([k r'] & -> & Hk%elem_of_map_to_list). simpl. by rewrite (rows_key _ _ _ Hk).
  - intros Hr. exists (Migration r, r). by rewrite elem_of_map_to_list.
Qed.

Lemma newest_sorted rs : StronglySorted rec_ge (newest_first rs).
Proof. clear sha256 Now. apply (StronglySorted_merge_sort _). Qed.

Lemma select_newest db l :
  select_records db = Ok l -> merge_sort rec_ge l = newest_first (rows db).
Proof. clear sha256 Now.
  intros Hl%select_rows. apply (StronglySorted_unique_strong rec_ge).
  - intros a b Ha Hb. rewrite merge_sort_Permutation, Hl, <- (merge_sort_Permutation rec_ge) in Ha.
    apply elem_of_newest in Ha. apply elem_of_newest in Hb. unfold rec_ge, rec_le.
    intros [?|[? Hn1]] [?|[? Hn2]]; try lia.
    assert (Migration a = Migration b) as Hab by (by apply (anti_symm String.le)). congruence.
  - apply (StronglySorted_merge_sort _).
  - apply newest_sorted.
  - unfold newest_first. by rewrite !merge_sort_Permutation.
Qed.

Lemma revert_loop_rows target w w' names err :
  revert_loop opts reg target w = (w', (names, err)) ->
  (exists k, names = take k (map Migration target))
  /\ (err = None -> names = map Migration target)
  /\ (forall n, rows w'.1 !! n = if decide (n ∈ names) then None else rows w.1 !! n).
Proof. clear sha256 Now.
  revert w w' names err. induction target as [|r target IH]; intros w w' names err; cbn [revert_loop].
  { intros [= <- <- <-]. split_and!; [by exists 0%nat | done |]. intros n.
    rewrite decide_False; [done | apply not_elem_of_nil]. }
  unfold Get. destruct (mig reg !! Migration r) as [m|] eqn:Hm.
  2: { intros [= <- <- <-]. split_and!; [by exists 0%nat | done |]. intros n.
    rewrite decide_False; [done | apply not_elem_of_nil]. }
  pose proof (proj2 (proj2 Hreg) _ _ Hm) as Hname.
  destruct (revertOne opts m w) as [w1 [e|]] eqn:H1;
    (apply revertOne_rows in H1; [| by eapply Htame]).
  { intros [= <- <- <-]. split_and!; [by exists 0%nat | done |]. intros n.
    rewrite decide_False, H1; [done | apply not_elem_of_nil]. }
  destruct (revert_loop opts reg target w1) as [w2 [names' err']] eqn:H2.
  intros [= <- <- <-]. apply IH in H2 as ([k Hk] & Hall & Hn). split_and!.
  - exists (S k). simpl. by rewrite Hk, Hname.
  - intros He. simpl. by rewrite (Hall He), Hname.
  - intros n. rewrite Hn, H1. destruct (decide (n = m_name m)) as [->|Hne].
    + rewrite lookup_delete_eq, (decide_True (P := m_name m ∈ m_name m :: names')) by constructor.
      by case_decide.
    + rewrite lookup_delete_ne by done. repeat case_decide; set_solver.
Qed.

Lemma Rollback_rows step w w' names err :
  Rollback opts reg step w = (w', (names, err)) ->
  let target := map Migration (rollback_target step (newest_first (rows w.1))) in
  (exists k, names = take k target)
  /\ (err = None -> names = target)
  /\ (forall n, rows w'.1 !! n = if decide (n ∈ names) then None else rows w.1 !! n).
Proof. clear sha256 Now.
  intros Hrun target.
  apply with_lock_rows in Hrun as [(e & [= -> ->] & Hr)|(w1 & w2 & H1 & Hbody & H2)].
  { split_and!; [by exists 0%nat | done |]. intros n. by rewrite decide_False, Hr by apply not_elem_of_nil. }
  destruct (select_records w1.1) as [l|e] eqn:Hl.
  - rewrite (select_newest _ _ Hl), H1 in Hbody.
    apply revert_loop_rows in Hbody as (Hk & Hall & Hn). split_and!; [done.. |].
    intros n. by rewrite H2, Hn, H1.
  - simplify_eq. split_and!; [by exists 0%nat | done |]. intros n.
    rewrite decide_False by apply not_elem_of_nil. congruence.
Qed.

(** [Reset] undoes everything: when it returns without an error the
    migrations table is empty and every recorded migration has been rolled
    back, newest first. *)
Theorem Reset_empties w w' names :
  Reset opts reg w = (w', (names, None)) ->
  rows w'.1 = ∅ /\ names = map Migration (newest_first (rows w.1)).
Proof.
  clear sha256 Now. destruct w as [db out]. unfold Reset.
  pose proof (create_rows db) as H1. destruct (create_table db) as [db1 [e|]]; [done |]. simpl in H1.
  destruct (select_records db1) as [l|e] eqn:Hl; [| done]. intros Hrun.
  apply Rollback_rows in Hrun as (_ & Hall & Hn). specialize (Hall eq_refl). simpl in *.
  rewrite H1 in *.
  assert (Htarget : rollback_target (Z.of_nat (length l)) (newest_first (rows db)) = newest_first (rows db)).
  { assert (length l = length (newest_first (rows db))) as ->.
    { apply select_rows in Hl. rewrite Hl, H1. unfold newest_first. by rewrite merge_sort_Permutation. }
    unfold rollback_target. destruct (newest_first (rows db)) as [|r rs]; [done |].
    rewrite (proj2 (Z.leb_gt _ _)) by (simpl; lia). by rewrite Z.min_id, Nat2Z.id, firstn_all. }
  rewrite Htarget in Hall. split; [| done].
  apply map_eq. intros n. rewrite Hn, lookup_empty. case_decide as Hin; [done |].
  destruct (rows db !! n) as [r|] eqn:Hr; [| done]. exfalso. apply Hin.
  pose proof (rows_key _ _ _ Hr) as <-. rewrite Hall.
  apply list_elem_of_fmap. exists r. split; [done | by apply elem_of_newest].
Qed.

Lemma same_batch_filter b l :
  StronglySorted rec_ge l -> Forall (fun r => Batch r <= b) l ->
  same_batch b l = filter (fun r => Batch r = b) l.
Proof.
  induction 1 as [|r l Hl IH Hr]; [done |]. intros Hb. apply Forall_cons_1 in Hb as [Hrb Hb].
  cbn [same_batch]. destruct (Z.eqb_spec (Batch r) b) as [He|Hne]; simpl.
  - rewrite filter_cons_True by done. f_equal. by apply IH.
  - rewrite filter_cons_False by done.
    destruct (filter (fun r => Batch r = b) l) as [|x l'] eqn:Ef; [done |]. exfalso.
    assert (x ∈ filter (fun r => Batch r = b) l) as [Hxb Hx]%list_elem_of_filter
      by (rewrite Ef; constructor).
    rewrite list.Forall_forall in Hr. specialize (Hr x Hx). unfold rec_ge, rec_le in Hr. lia.
Qed.

Lemma batch_bound (rs : gmap string record) n r :
  rs !! n = Some r -> Batch r <= foldr Z.max 0 (map Batch (map snd (map_to_list rs))).
Proof.
  intros Hr. assert (Hin : (n, r) ∈ map_to_list rs) by (by apply elem_of_map_to_list).
  induction (map_to_list rs) as [|[k x] l IH]; [by apply not_elem_of_nil in Hin |].
  simpl. apply elem_of_cons in Hin as [Heq|Hin]; [simplify_eq; lia | specialize (IH Hin); lia].
Qed.

Lemma new_record_fields b n r : new_record b n = Some r -> Batch r = b /\ Migration r = n.
Proof. unfold new_record. repeat case_match; intros ?; by simplify_eq/=. Qed.

Lemma newest_NoDup db : NoDup (map Migration (newest_first (rows db))).
Proof.
  apply NoDup_fmap_2_strong.
  - intros x y Hx%elem_of_newest Hy%elem_of_newest Hxy. congruence.
  - unfold newest_first. rewrite merge_sort_Permutation.
    apply NoDup_fmap_2_strong; [| apply NoDup_map_to_list].
    intros [k x] [k' y] Hx%elem_of_map_to_list Hy%elem_of_map_to_list Hxy. simpl in Hxy. subst y.
    f_equal. by rewrite <- (rows_key _ _ _ Hx), <- (rows_key _ _ _ Hy).
Qed.

Lemma StronglySorted_filter' {A} (R : A -> A -> Prop) (P : A -> Prop) `{!forall x, Decision (P x)} l :
  StronglySorted R l -> StronglySorted R (filter P l).
Proof.
  induction 1 as [|x l Hl IH Hx]; [constructor |].
  destruct (decide (P x)).
  - rewrite filter_cons_True by done. constructor; [done |].
    rewrite list.Forall_forall in Hx. apply list.Forall_forall.
    intros y [_ Hy]%list_elem_of_filter. by apply Hx.
  - by rewrite filter_cons_False by done.
Qed.

Lemma StronglySorted_rev {A} (R : A -> A -> Prop) l :
  StronglySorted R l -> StronglySorted (flip R) (rev l).
Proof.
  induction 1 as [|x l Hl IH Hx]; [constructor |]. simpl. apply StronglySorted_app_2.
  - intros y z Hy ->%list_elem_of_singleton. rewrite list.Forall_forall in Hx.
    apply Hx. by rewrite <- Permutation_rev in Hy.
  - done.
  - repeat constructor.
Qed.

Lemma batch_names_sorted b l :
  StronglySorted rec_ge l -> Forall (fun r => Batch r = b) l ->
  StronglySorted (flip String.le) (map Migration l).
Proof.
  induction 1 as [|r l Hl IH Hr]; [constructor |]. intros [Hb Hbs]%Forall_cons_1. simpl.
  constructor; [by apply IH |]. rewrite list.Forall_forall in Hr. rewrite list.Forall_forall in Hbs.
  apply list.Forall_forall. intros n (x & -> & Hx)%list_elem_of_fmap.
  specialize (Hr x Hx). specialize (Hbs x Hx). unfold rec_ge, rec_le in Hr.
  destruct Hr as [?|[_ ?]]; [simpl in *; lia | done].
Qed.

#[local] Instance flip_le_anti : AntiSymm (=) (flip String.le).
Proof. intros a b Ha Hb. by apply (anti_symm String.le). Qed.

(** The records of the newest batch are the ones [Rollback] selects. *)
Lemma target_is_batch d b :
  (forall r, rows d !! Migration r = Some r -> Batch r <= b) ->
  (exists r, rows d !! Migration r = Some r /\ Batch r = b) ->
  rollback_target 0 (newest_first (rows d)) = filter (fun r => Batch r = b) (newest_first (rows d)).
Proof.
  intros Hle (r0 & Hr0%elem_of_newest & Hb0).
  assert (Hall : Forall (fun r => Batch r <= b) (newest_first (rows d)))
    by (apply list.Forall_forall; intros r Hr%elem_of_newest; by apply Hle).
  pose proof (newest_sorted (rows d)) as Hs.
  destruct (newest_first (rows d)) as [|r rs]; [by apply not_elem_of_nil in Hr0 |].
  cbn [rollback_target]. change (0 <=? 0) with true. cbv iota.
  assert (Batch r = b) as ->; [| by apply same_batch_filter].
  apply Forall_cons_1 in Hall as [Hr _]. apply elem_of_cons in Hr0 as [->|Hin]; [done |].
  apply StronglySorted_cons in Hs as [Hs _]. rewrite list.Forall_forall in Hs.
  specialize (Hs _ Hin). unfold rec_ge, rec_le in Hs. lia.
Qed.

(** The names of a batch, newest record first, are the names it was applied
    under in reverse. *)
Lemma batch_is_rev d b names :
  StronglySorted String.le names -> NoDup names ->
  (forall r, rows d !! Migration r = Some r -> Batch r = b <-> Migration r ∈ names) ->
  (forall n, n ∈ names -> exists r, rows d !! n = Some r /\ Migration r = n) ->
  map Migration (filter (fun r => Batch r = b) (newest_first (rows d))) = rev names.
Proof.
  intros Hsorted Hnd Hbatch Hin. apply (StronglySorted_unique (flip String.le)).
  - apply (batch_names_sorted b).
    + apply StronglySorted_filter', newest_sorted.
    + apply list.Forall_forall. by intros r [Hr _]%list_elem_of_filter.
  - by apply StronglySorted_rev.
  - apply NoDup_Permutation.
    + apply NoDup_fmap_2_strong.
      * intros x y [_ Hx%elem_of_newest]%list_elem_of_filter [_ Hy%elem_of_newest]%list_elem_of_filter Hxy.
        congruence.
      * apply list.NoDup_filter. pose proof (newest_NoDup d) as Hn. by apply NoDup_fmap_1 in Hn.
    + by rewrite <- Permutation_rev.
    + intros n. rewrite <- Permutation_rev, list_elem_of_fmap. split.
      * intros (r & -> & [Hrb Hr%elem_of_newest]%list_elem_of_filter). by apply Hbatch in Hrb.
      * intros Hn. destruct (Hin n Hn) as (r & Hr & <-). exists r. split; [done |].
        apply list_elem_of_filter. split; [by apply Hbatch | by apply elem_of_newest].
Qed.

End Correct.

(** ** A database in memory, and witnesses *)

Section Witnesses.
(** The rows by their primary key, and the tables the migrations made. *)
Record memdb := mkMem { mem_rows : gmap string (Z * string * Time); mem_tables : list string }.

Definition row_of (n : string) (v : Z * string * Time) : option record :=
  Some (mkRecord n v.1.1 v.1.2 v.2).
Definition mem_view (db : memdb) : gmap string record := map_imap row_of (mem_rows db).

(** Inserting an existing key is the one statement that fails. *)
Definition mem_insert (r : record) (db : memdb) : memdb * option unit :=
  match mem_rows db !! Migration r with
  | Some _ => (db, Some tt)
  | None => (mkMem (<[Migration r := (Batch r, Checksum r, AppliedAt r)]> (mem_rows db))
               (mem_tables db), None)
  end.

#[local] Instance mem_database : Database memdb unit := {
  create_table db := (db, None);
  select_records db := Ok (map snd (map_to_list (mem_view db)));
  max_batch db := Ok (foldr Z.max 0 (map Batch (map snd (map_to_list (mem_view db)))));
  insert_record := mem_insert;
  delete_record n db := (mkMem (delete n (mem_rows db)) (mem_tables db), None);
  begin_tx db := (db, None);
  commit _ db := (db, None);
  abort db _ := db;
  acquire_lock db := (db, None);
  release_lock db := db;
  list_tables db := Ok (mem_tables db);
  drop_table t db := (mkMem (mem_rows db) (filter (fun u => u <> t) (mem_tables db)), None);
}.

#[local] Instance mem_laws : DatabaseLaws memdb unit mem_view.
Proof.
  constructor; try done.
  - intros db n r. unfold mem_view. rewrite map_lookup_imap.
    destruct (mem_rows db !! n); [| done]. by intros [= <-].
  - intros db l [= <-]. done.
  - by intros db n [= <-].
  - intros r db db'. simpl. unfold mem_insert, mem_view.
    destruct (mem_rows db !! Migration r); [done |]. intros [= <-]. simpl.
    rewrite (map_imap_insert_Some _ _ _ _ (mkRecord (Migration r) (Batch r) (Checksum r) (AppliedAt r)))
      by done. by destruct r.
  - intros n db db' [= <-]. unfold mem_view. simpl. apply map_imap_delete.
  - by intros b a db [= <-].
Qed.

Definition wmig (n : string) : @migration memdb unit :=
  mkMigration n (fun db => (mkMem (mem_rows db) (n :: mem_tables db), None))
    (fun db => (mkMem (mem_rows db) (filter (fun u => u <> n) (mem_tables db)), None))
    (Ok [n]) (Ok []).

Definition wreg : registry :=
  mkRegistry {["2_b" := wmig "2_b"; "1_a" := wmig "1_a"]} ["2_b"; "1_a"].
Definition wopts : options := mkOptions false false true.
Definition wsha (l : list string) : string := String.concat "," l.
Definition wnow (_ : string) : Time := 7.
Definition w0 : world := (mkMem ∅ [], []).

Lemma wreg_wf : registry_wf wreg.
Proof.
  apply (Register_wf (wmig "1_a") (mkRegistry {["2_b" := wmig "2_b"]} ["2_b"])); [| done].
  apply (Register_wf (wmig "2_b") NewRegistry); [| done].
  unfold registry_wf, NewRegistry. simpl.
  split_and!; [constructor | | by intros n m ?%lookup_empty_Some].
  intros n. split; [by intros ?%not_elem_of_nil | by intros [? ?%lookup_empty_Some]].
Qed.

Lemma wreg_tame n m : mig wreg !! n = Some m -> tame (rows := mem_view) m.
Proof.
  unfold wreg. simpl. rewrite lookup_insert_Some. intros [[_ <-]|[_ Hm]]; [done |].
  by apply lookup_singleton_Some in Hm as [_ <-].
Qed.

Definition w1 : world := Eval vm_compute in (Up wopts wreg wsha wnow w0).1.
Definition w2 : world := Eval vm_compute in (Rollback wopts wreg 0 w1).1.

Lemma runUp_records_witness :
  (runUp wopts wreg wsha wnow 1 w0).2 = (["1_a"], None)
  /\ Z.of_nat (length ["1_a"]) <= 1.
Proof.
  split; [by vm_compute |].
  apply (runUp_records (rows := mem_view) wopts wreg wsha wnow wreg_wf eq_refl wreg_tame
    1 w0 (runUp wopts wreg wsha wnow 1 w0).1 ["1_a"] None); [by vm_compute | lia].
Defined.


Lemma Reset_empties_witness :
  mem_view w2.1 = ∅ /\ ["2_b"; "1_a"] = map Migration (newest_first (mem_view w1.1)).
Proof.
  apply (Reset_empties (rows := mem_view) wopts wreg wreg_wf eq_refl wreg_tame w1); by vm_compute.
Defined.
End Witnesses.
