(* ===== verification/MigLock.v ===== *)
(** The migrations lock of [src/migrations/lock.go].

    [acquireRow] and [acquirePgAdvisory] are polling loops over what the
    database, the clock and the context answer at each turn.  The row lock
    shared by several migrators is a step relation on the lock table: every
    migrator uses the same holder, so that the primary key admits one row. *)

From Stdlib Require Import ZArith Lia Ascii.
From stdpp Require Import base gmap strings list relations numbers.
From S2P Require Import Prelude GoRt GoStrconv.

(** ** Acquiring *)

Inductive lock_error (E : Type) := ErrTimedOut | ErrCtx (e : E) | ErrSql (e : E).
Arguments ErrTimedOut {E}.
Arguments ErrCtx {E} e.
Arguments ErrSql {E} e.

(** One turn of a loop: whether the statement took the lock, whether the
    deadline had passed after it, and how the wait that follows ended. *)
Record poll (E : Type) := mkPoll { taken : result E bool; late : bool; ctx_Done : option E }.
Arguments mkPoll {E} taken late ctx_Done.
Arguments taken {E} p.
Arguments late {E} p.
Arguments ctx_Done {E} p.

Section Acquire.
Context {E : Type}.

(** The outer [option] is [None] while the loop still polls. *)
Fixpoint acquireRow_loop (ps : list (poll E)) : option (option (lock_error E)) :=
  match ps with
  | [] => None
  | p :: ps =>
      match taken p with
      | Ok true => Some None
      | _ =>
          if late p then Some (Some ErrTimedOut)
          else match ctx_Done p with
               | Some e => Some (Some (ErrCtx e))
               | None => acquireRow_loop ps
               end
      end
  end.

(** [ensure] is the error of [ensureTable]. *)
Definition acquireRow (ensure : option E) (ps : list (poll E)) : option (option (lock_error E)) :=
  match ensure with
  | Some e => Some (Some (ErrSql e))
  | None => acquireRow_loop ps
  end.

Fixpoint acquirePg_loop (ps : list (poll E)) : option (option (lock_error E)) :=
  match ps with
  | [] => None
  | p :: ps =>
      match taken p with
      | Err e => Some (Some (ErrSql e))
      | Ok true => Some None
      | Ok false =>
          if late p then Some (Some ErrTimedOut)
          else match ctx_Done p with
               | Some e => Some (Some (ErrCtx e))
               | None => acquirePg_loop ps
               end
      end
  end.

(** [held]: this lock already pins a session; [conn]: the error of opening one.
    The boolean says whether the lock pins a session afterwards. *)
Definition acquirePgAdvisory (held : bool) (conn : option E) (ps : list (poll E))
  : option (bool * option (lock_error E)) :=
  if held then Some (true, None)
  else match conn with
       | Some e => Some (false, Some (ErrSql e))
       | None =>
           match acquirePg_loop ps with
           | None => None
           | Some None => Some (true, None)
           | Some (Some e) => Some (false, Some e)
           end
       end.
End Acquire.

(** [h ^= b; h *= prime] over the bytes, in [uint64], then the sign bit. *)
Definition fnvOffset : Z := 1469598103934665603.
Definition fnvPrime : Z := 1099511628211.

Fixpoint fnv (h : Z) (s : string) : Z :=
  match s with
  | EmptyString => h
  | String c s => fnv (u64 (Z.lxor h (byte_of c) * fnvPrime)) s
  end.

Definition advisoryKey (holder : string) : Z := i64 (fnv fnvOffset holder).

(** ** Several migrators *)

(** [Gone] has returned, with or without having held the lock. *)
Inductive migrator := Trying | Holding | Gone.

#[export] Instance migrator_eq_dec : EqDecision migrator.
Proof. solve_decision. Defined.

(** [row]: the lock table has the row of the holder. *)
Record lock_state := mkLock { row : bool; migrators : list migrator }.

(** [Release] passes the context of the migration run to [DELETE]; when that
    context is over the statement fails and the row stays. *)
Inductive lock_op : migrator -> bool -> migrator -> bool -> Prop :=
| lo_insert : lock_op Trying false Holding true
| lo_conflict : lock_op Trying true Trying true
| lo_give_up r : lock_op Trying r Gone r
| lo_release r : lock_op Holding r Gone false
| lo_release_fails r : lock_op Holding r Gone r.

Inductive lock_step : lock_state -> lock_state -> Prop :=
| ls_arrive r ms : lock_step (mkLock r ms) (mkLock r (ms ++ [Trying]))
| ls_op r r' ms1 ms2 m m' :
    lock_op m r m' r' ->
    lock_step (mkLock r (ms1 ++ m :: ms2)) (mkLock r' (ms1 ++ m' :: ms2)).

Definition lock_reachable : lock_state -> Prop := rtc lock_step (mkLock false []).

(** ** Theorems *)

(** Migrators in the critical section. *)
Definition holding (ms : list migrator) : nat := occurs Holding ms.

Lemma holding_middle ms1 m ms2 :
  holding (ms1 ++ m :: ms2)
  = (holding ms1 + Nat.b2n (bool_decide (m = Holding)) + holding ms2)%nat.
Proof.
  unfold holding. rewrite occurs_app. destruct (decide (m = Holding)) as [->|Hm].
  - rewrite occurs_cons_eq, bool_decide_true by done. simpl. lia.
  - rewrite occurs_cons_ne, bool_decide_false by congruence. simpl. lia.
Qed.

(** Two migrators never run at once: however the attempts, give-ups and
    releases interleave, at most one migrator holds the lock, and only while
    its row is in the table. *)
Theorem lock_exclusive (s : lock_state) :
  lock_reachable s -> (holding (migrators s) <= Nat.b2n (row s))%nat.
Proof.
  apply (rtc_invariant lock_step (fun s => (holding (migrators s) <= Nat.b2n (row s))%nat)); [done |].
  intros s1 s2 Hi Hstep. destruct Hstep as [r ms|r r' ms1 ms2 m m' Hop]; simpl in *.
  - unfold holding in *. rewrite occurs_app. unfold occurs at 2. simpl. lia.
  - rewrite holding_middle in *. destruct Hop; simpl in *; try destruct r; simpl in *; lia.
Qed.

(** A release whose statement fails, as it does when the context of the run
    is already cancelled, leaks the lock: the row is in the table with nobody
    holding it, and from there no migrator ever acquires the lock again. *)
Theorem failed_release_leaks :
  exists s, lock_reachable s /\ row s = true /\ holding (migrators s) = 0%nat
    /\ forall s', rtc lock_step s s' -> row s' = true /\ holding (migrators s') = 0%nat.
Proof.
  exists (mkLock true [Gone]). split_and!; [| done | done |].
  - eapply rtc_l; [apply (ls_arrive false []) |].
    eapply rtc_l; [apply (ls_op false true [] [] Trying Holding); constructor |].
    eapply rtc_l; [apply (ls_op true true [] [] Holding Gone); constructor |].
    constructor.
  - apply (rtc_invariant lock_step (fun s => row s = true /\ holding (migrators s) = 0%nat)); [done |].
    intros s1 s2 [Hr Hh] Hstep. destruct Hstep as [r ms|r r' ms1 ms2 m m' Hop]; simpl in *; subst r.
    + split; [done |]. unfold holding in *. rewrite occurs_app, Hh. done.
    + rewrite holding_middle in *. inversion Hop; subst; simpl in *; split; (done || lia).
Qed.

(** Acquiring always ends by the deadline: as soon as one poll is made after
    the deadline, or the context is over, both loops have returned, and they
    report success only when some poll took the lock. *)
Theorem acquire_ends {E : Type} (ps : list (poll E)) (p : poll E) :
  late p = true \/ is_Some (ctx_Done p) ->
  exists r1 r2, acquireRow_loop (ps ++ [p]) = Some r1 /\ acquirePg_loop (ps ++ [p]) = Some r2
    /\ (r1 = None -> exists q, q ∈ ps ++ [p] /\ taken q = Ok true)
    /\ (r2 = None -> exists q, q ∈ ps ++ [p] /\ taken q = Ok true).
Proof.
  intros Hp. induction ps as [|q ps IH]; simpl.
  - exists (match taken p with Ok true => None | _ => if late p then Some ErrTimedOut
        else match ctx_Done p with Some e => Some (ErrCtx e) | None => None end end).
    exists (match taken p with Ok true => None | Err e => Some (ErrSql e) | _ =>
        if late p then Some ErrTimedOut
        else match ctx_Done p with Some e => Some (ErrCtx e) | None => None end end).
    destruct (taken p) as [[]|e] eqn:Ht, (late p), (ctx_Done p) as [c|];
      try (destruct Hp as [?|[? ?]]; discriminate);
      split_and!; try done; intros _; exists p; (split; [constructor | done]).
  - destruct IH as (r1 & r2 & H1 & H2 & Hr1 & Hr2). rewrite H1, H2.
    destruct (taken q) as [[]|e] eqn:Ht, (late q), (ctx_Done q) as [c|];
      do 2 eexists; split_and!; try done;
      try (intros _; exists q; split; [constructor | done]);
      (intros Hr; first [destruct (Hr1 Hr) as (x & ? & ?) | destruct (Hr2 Hr) as (x & ? & ?)];
       exists x; split; [by constructor | done]).
Qed.

(** ** Witnesses *)

Section Witnesses.
Lemma lock_exclusive_witness : (holding [Holding; Trying] <= 1)%nat.
Proof.
  apply (lock_exclusive (mkLock true [Holding; Trying])).
  eapply rtc_l; [apply (ls_arrive false []) |].
  eapply rtc_l; [apply (ls_op false true [] [] Trying Holding); constructor |].
  eapply rtc_l; [apply (ls_arrive true [Holding]) |].
  constructor.
Defined.

Lemma acquire_ends_witness :
  exists r1 r2 : option (lock_error unit),
    acquireRow_loop ([mkPoll (Ok false) false None] ++ [mkPoll (Ok false) true None]) = Some r1
    /\ acquirePg_loop ([mkPoll (Ok false) false None] ++ [mkPoll (Ok false) true None]) = Some r2.
Proof.
  destruct (acquire_ends [mkPoll (Ok false) false None] (mkPoll (Ok false) true (@None unit)))
    as (r1 & r2 & H1 & H2 & _); [by left |].
  by exists r1, r2.
Defined.
End Witnesses.
