(* ===== verification/Session.v ===== *)
(** Server-side sessions: [src/session/session.go] and
    [src/session/middleware.go].

    - [Store] is the driver interface with the laws ([StoreLaws]) the manager
      relies on; [MemoryStore] implements it and discharges the laws for calls
      that do not overlap; [mstep] is its step relation, one critical section of
      a goroutine per step.
    - [Start], [Save], [Regenerate], [Destroy] and the data operations act on a
      [Session] value and a [world]: the store and the number of calls made to
      the random source.
    - [serve] is the middleware around a handler, given as the list of what the
      handler does with the session and the response.

    A Go [map[string]any] that a store returns with [ok] is [Some d], a non-nil
    map.  Maps are copied at every boundary of the package except [Session.All],
    which copies too, so no aliasing is observable.  Cookies are values in the
    order [http.SetCookie] is called; their header syntax is net/http's. *)

From Stdlib Require Import ZArith Lia Ascii.
From stdpp Require Import base gmap strings list relations numbers.
From S2P Require Import Prelude GoRt.

#[local] Set Warnings "-register-all".

(** [d.Seconds()], and [int(...)] of it. *)
Definition Seconds (d : Duration) : float64 :=
  fadd (float_of_Z (Z.quot d Second)) (fdiv (float_of_Z (Z.rem d Second)) (float_of_Z Second)).

(** [hex.EncodeToString]. *)
Definition hex_digit (n : Z) : ascii :=
  ascii_of_nat (Z.to_nat (if n <? 10 then 48 + n else 87 + n)).

Fixpoint EncodeToString (bytes : list Z) : string :=
  match bytes with
  | [] => EmptyString
  | b :: bytes => String (hex_digit (b / 16)) (String (hex_digit (b mod 16)) (EncodeToString bytes))
  end.

(** ** The driver interface *)

Class Store (V E St : Type) := {
  Read : Time -> string -> St -> result E (option (gmap string V)) * St;
  Write : Time -> string -> gmap string V -> Duration -> St -> option E * St;
  Destroy_ : Time -> string -> St -> option E * St;
}.

(** What a store promises.  [view t st id] is the record of [id] at time [t]. *)
Class StoreLaws (V E St : Type) `{Store V E St} := {
  default_ttl : St -> Duration;
  view : Time -> St -> string -> option (gmap string V);
  read_returns now id st d : (Read now id st).1 = Ok d -> d = view now st id;
  read_keeps now id st t id' : now <= t -> view t (Read now id st).2 id' = view t st id';
  read_default now id st : default_ttl (Read now id st).2 = default_ttl st;
  write_stores now id d ttl st t :
    0 < now -> now <= t -> (Write now id d ttl st).1 = None ->
    view t (Write now id d ttl st).2 id
    = (if ttl <? 0 then None
       else let eff := if ttl =? 0 then default_ttl st else ttl in
            if (0 <? eff) && (now + eff <? t) then None else Some d);
  write_keeps now id d ttl st t id' :
    now <= t -> id <> id' \/ (Write now id d ttl st).1 <> None ->
    view t (Write now id d ttl st).2 id' = view t st id';
  destroy_removes now id st t :
    now <= t -> (Destroy_ now id st).1 = None -> view t (Destroy_ now id st).2 id = None;
  destroy_keeps now id st t id' :
    now <= t -> id <> id' \/ (Destroy_ now id st).1 <> None ->
    view t (Destroy_ now id st).2 id' = view t st id';
}.

(** ** The in-memory driver *)

Record memoryItem (V : Type) := mkItem { item_data : gmap string V; expiresAt : Time }.
Arguments mkItem {V} item_data expiresAt.
Arguments item_data {V} _.
Arguments expiresAt {V} _.

Record MemoryStore (V : Type) := mkMem { items : gmap string (memoryItem V); default_ : Duration }.
Arguments mkMem {V} items default_.
Arguments items {V} _.
Arguments default_ {V} _.

Section MemoryStore_.
Context {V E : Type}.

Definition NewMemoryStore (defaultTTL : Duration) : MemoryStore V := mkMem ∅ defaultTTL.

Definition item_expired (now : Time) (it : memoryItem V) : bool :=
  negb (IsZero (expiresAt it)) && After now (expiresAt it).

Definition mem_remove (id : string) (s : MemoryStore V) : MemoryStore V :=
  mkMem (delete id (items s)) (default_ s).

Definition mem_Read (now : Time) (id : string) (s : MemoryStore V)
  : result E (option (gmap string V)) * MemoryStore V :=
  match items s !! id with
  | None => (Ok None, s)
  | Some it =>
      if item_expired now it then (Ok None, mem_remove id s)
      else (Ok (Some (item_data it)), s)
  end.

Definition mem_Write (now : Time) (id : string) (d : gmap string V) (ttl : Duration) (s : MemoryStore V)
  : option E * MemoryStore V :=
  if ttl <? 0 then (None, mem_remove id s)
  else
    let ttl := if ttl =? 0 then default_ s else ttl in
    let exp := if 0 <? ttl then time_Add now ttl else zero_time in
    (None, mkMem (<[id := mkItem d exp]> (items s)) (default_ s)).

Definition mem_Destroy (now : Time) (id : string) (s : MemoryStore V) : option E * MemoryStore V :=
  (None, mem_remove id s).

(** One tick of [sweep]. *)
Definition sweep_tick (now : Time) (s : MemoryStore V) : MemoryStore V :=
  mkMem (filter (fun kv => item_expired now kv.2 = false) (items s)) (default_ s).

Definition mem_view (t : Time) (s : MemoryStore V) (id : string) : option (gmap string V) :=
  match items s !! id with
  | None => None
  | Some it => if item_expired t it then None else Some (item_data it)
  end.

Lemma item_expired_mono now t it : now <= t -> item_expired now it = true -> item_expired t it = true.
Proof.
  unfold item_expired, After. rewrite !andb_true_iff, !Z.ltb_lt. intros ? [? ?]. split; [done | lia].
Qed.

Lemma mem_view_remove t s id id' :
  mem_view t (mem_remove id s) id' = if decide (id = id') then None else mem_view t s id'.
Proof.
  unfold mem_view, mem_remove. cbn [items]. destruct (decide (id = id')) as [->|Hne].
  - by rewrite lookup_delete_eq.
  - by rewrite lookup_delete_ne.
Qed.

(** Removing expired records is not observable. *)
Lemma sweep_unobservable now t s id : now <= t -> mem_view t (sweep_tick now s) id = mem_view t s id.
Proof.
  intros Ht. unfold mem_view, sweep_tick. cbn [items]. rewrite map_lookup_filter.
  destruct (items s !! id) as [it|] eqn:Ei; [| done]. simpl.
  destruct (decide (item_expired now it = false)) as [He|He].
  - by rewrite option_guard_True.
  - rewrite option_guard_False by done. apply not_false_is_true in He.
    simpl. by rewrite (item_expired_mono now t).
Qed.
End MemoryStore_.

#[export] Instance MemoryStore_Store {V E} : Store V E (MemoryStore V) := {
  Read := mem_Read; Write := mem_Write; Destroy_ := mem_Destroy }.

#[export] Program Instance MemoryStore_laws {V E} : StoreLaws V E (MemoryStore V) := {|
  default_ttl := default_; view := mem_view |}.
Next Obligation.
  intros V E now id st d. simpl. unfold mem_Read, mem_view.
  destruct (items st !! id) as [it|]; [destruct (item_expired now it) |]; simpl; congruence.
Qed.
Next Obligation.
  intros V E now id st t id' Ht. simpl. unfold mem_Read.
  destruct (items st !! id) as [it|] eqn:Ei; [| done].
  destruct (item_expired now it) eqn:Ee; [| done]. simpl. rewrite mem_view_remove.
  case_decide as Hid; [| done]. subst id'. unfold mem_view. by rewrite Ei, (item_expired_mono now t).
Qed.
Next Obligation.
  intros V E now id st. simpl. unfold mem_Read. destruct (items st !! id) as [it|]; [| done].
  by destruct (item_expired now it).
Qed.
Next Obligation.
  intros V E now id d ttl st t Hnow Ht _. simpl. unfold mem_Write.
  destruct (Z.ltb_spec ttl 0); simpl.
  - rewrite mem_view_remove. by rewrite decide_True.
  - unfold mem_view. cbn [items]. rewrite lookup_insert_eq. unfold item_expired, IsZero, After, time_Add.
    cbn [expiresAt item_data]. set (eff := if ttl =? 0 then default_ st else ttl).
    destruct (Z.ltb_spec 0 eff) as [He|He]; [| done].
    rewrite (proj2 (Z.eqb_neq (now + eff) 0)) by lia. done.
Qed.
Next Obligation.
  intros V E now id d ttl st t id' Ht Hid. simpl in *. unfold mem_Write in *.
  destruct (ttl <? 0); destruct Hid as [Hid|Hid]; try done; simpl.
  - rewrite mem_view_remove. by rewrite decide_False.
  - unfold mem_view. cbn [items]. by rewrite lookup_insert_ne.
Qed.
Next Obligation.
  intros V E now id st t Ht _. simpl. rewrite mem_view_remove. by rewrite decide_True.
Qed.
Next Obligation.
  intros V E now id st t id' Ht [Hid|Hid]; simpl in *; [| done].
  rewrite mem_view_remove. by rewrite decide_False.
Qed.

(** ** The manager and the session *)

Record Cookie := mkCookie {
  ck_name : string; ck_value : string; ck_path : string; ck_httponly : bool;
  ck_secure : bool; ck_samesite : Z; ck_maxage : Z }.

Record Options := mkOptions {
  opt_cookie : string; opt_ttl : Duration; opt_insecure : bool; opt_samesite : Z }.

Record Manager := mkManager {
  cookieName : string; ttl : Duration; secure : bool; sameSite : Z }.

(** [http.SameSiteLaxMode]. *)
Definition SameSiteLaxMode : Z := 2.

Definition NewManager (o : Options) : Manager :=
  mkManager
    (if bool_decide (opt_cookie o = EmptyString) then "lagodev_session" else opt_cookie o)
    (if opt_ttl o =? 0 then 120 * Minute else opt_ttl o)
    (negb (opt_insecure o))
    (if opt_samesite o =? 0 then SameSiteLaxMode else opt_samesite o).

Record Session (V : Type) := mkSession {
  sid : string; sdata : gmap string V; isNew : bool; dirty : bool; destroyed : bool }.
Arguments mkSession {V} sid sdata isNew dirty destroyed.
Arguments sid {V} _.
Arguments sdata {V} _.
Arguments isNew {V} _.
Arguments dirty {V} _.
Arguments destroyed {V} _.

Record world (St : Type) := mkWorld { st : St; drawn : nat }.
Arguments mkWorld {St} st drawn.
Arguments st {St} _.
Arguments drawn {St} _.

Section Sessions.
Context {V E St : Type} `{Store V E St}.
(** The [n]-th call of [rand.Read] on 32 bytes. *)
Context (rand : nat -> result E (list Z)).
(** What [int] of a float out of the range of [int] gives. *)
Context (undef : float64 -> Z).

Definition generateID (w : world St) : result E string * world St :=
  (match rand (drawn w) with Ok bytes => Ok (EncodeToString bytes) | Err e => Err e end,
   mkWorld (st w) (S (drawn w))).

(** [r.Cookie(name)]: the value of the first cookie of that name. *)
Definition request_cookie (name : string) (cookies : list (string * string)) : option string :=
  match List.find (fun c => bool_decide (c.1 = name)) cookies with
  | Some c => Some c.2
  | None => None
  end.

Definition Start (now : Time) (m : Manager) (cookies : list (string * string)) (w : world St)
  : result E (Session V) * world St :=
  let '(loaded, w) :=
    match request_cookie (cookieName m) cookies with
    | None => (Ok None, w)
    | Some id =>
        if bool_decide (id = EmptyString) then (Ok None, w)
        else
          let '(r, s) := Read now id (st w) in
          (match r with
           | Err e => Err e
           | Ok None => Ok None
           | Ok (Some d) => Ok (Some (id, d))
           end, mkWorld s (drawn w))
    end in
  match loaded with
  | Err e => (Err e, w)
  | Ok (Some (id, d)) => (Ok (mkSession id d false false false), w)
  | Ok None =>
      let '(r, w) := generateID w in
      (match r with
       | Err e => Err e
       | Ok id => Ok (mkSession id ∅ true false false)
       end, w)
  end.

Definition Get (key : string) (s : Session V) : option V := sdata s !! key.

Definition GetString (as_string : V -> option string) (key : string) (s : Session V) : string :=
  match sdata s !! key with
  | Some v => match as_string v with Some str => str | None => EmptyString end
  | None => EmptyString
  end.

Definition Put (key : string) (v : V) (s : Session V) : Session V :=
  mkSession (sid s) (<[key := v]> (sdata s)) (isNew s) true (destroyed s).

Definition Forget (key : string) (s : Session V) : Session V :=
  match sdata s !! key with
  | Some _ => mkSession (sid s) (delete key (sdata s)) (isNew s) true (destroyed s)
  | None => s
  end.

Definition All (s : Session V) : gmap string V := sdata s.

Definition Flush (s : Session V) : Session V :=
  if (0 <? Z.of_nat (size (sdata s)))
  then mkSession (sid s) ∅ (isNew s) true (destroyed s) else s.

(** The error of the store's [Destroy] is discarded. *)
Definition Regenerate (now : Time) (s : Session V) (w : world St)
  : option E * Session V * world St :=
  let '(r, w) := generateID w in
  match r with
  | Err e => (Some e, s, w)
  | Ok id =>
      let '(_, store) := Destroy_ now (sid s) (st w) in
      (None, mkSession id (sdata s) (isNew s) true (destroyed s), mkWorld store (drawn w))
  end.

Definition live_cookie (m : Manager) (id : string) : Cookie :=
  mkCookie (cookieName m) id "/" true (secure m) (sameSite m) (int64_of_float undef (Seconds (ttl m))).

Definition dead_cookie (m : Manager) : Cookie :=
  mkCookie (cookieName m) EmptyString "/" true (secure m) (sameSite m) (-1).

(** The cookies a call adds to the response come third. *)
Definition Save (now : Time) (m : Manager) (s : Session V) (w : world St)
  : option E * world St * list Cookie :=
  if destroyed s then (None, w, [])
  else
    let '(err, w) :=
      if dirty s || isNew s
      then let '(err, store) := Write now (sid s) (sdata s) (ttl m) (st w) in
           (err, mkWorld store (drawn w))
      else (None, w) in
    match err with
    | Some e => (Some e, w, [])
    | None => (None, w, [live_cookie m (sid s)])
    end.

Definition Destroy (now : Time) (m : Manager) (s : Session V) (w : world St)
  : option E * Session V * world St * list Cookie :=
  let '(err, store) := Destroy_ now (sid s) (st w) in
  let w := mkWorld store (drawn w) in
  match err with
  | Some e => (Some e, s, w, [])
  | None => (None, mkSession (sid s) ∅ (isNew s) (dirty s) true, w, [dead_cookie m])
  end.

(** ** The middleware *)

(** What a handler does.  [AWrite] is a call of [Write] or [WriteHeader]. *)
Inductive action :=
| APut (key : string) (v : V)
| AForget (key : string)
| AFlush
| ARegenerate
| ASave
| ADestroy
| AWrite.

(** The request in progress.  [header] holds the cookies set so far, [sent] the
    ones that were there when the response started, and that the client sees. *)
Record request := mkRequest {
  sess : Session V; wd : world St; saved : bool; header : list Cookie; sent : option (list Cookie) }.

Definition set_session (s : Session V) (q : request) : request :=
  mkRequest s (wd q) (saved q) (header q) (sent q).

Definition flushSave (now : Time) (m : Manager) (q : request) : request :=
  if saved q then q
  else if destroyed (sess q) then mkRequest (sess q) (wd q) true (header q) (sent q)
  else let '(_, w, cs) := Save now m (sess q) (wd q) in
       mkRequest (sess q) w true (header q ++ cs) (sent q).

(** The underlying writer: the first write sends the header. *)
Definition start_response (q : request) : request :=
  mkRequest (sess q) (wd q) (saved q) (header q)
    (match sent q with Some cs => Some cs | None => Some (header q) end).

Definition act (m : Manager) (na : Time * action) (q : request) : request :=
  let '(now, a) := na in
  match a with
  | APut key v => set_session (Put key v (sess q)) q
  | AForget key => set_session (Forget key (sess q)) q
  | AFlush => set_session (Flush (sess q)) q
  | ARegenerate =>
      let '(_, s, w) := Regenerate now (sess q) (wd q) in
      mkRequest s w (saved q) (header q) (sent q)
  | ASave =>
      let '(_, w, cs) := Save now m (sess q) (wd q) in
      mkRequest (sess q) w (saved q) (header q ++ cs) (sent q)
  | ADestroy =>
      let '(_, s, w, cs) := Destroy now m (sess q) (wd q) in
      mkRequest s w (saved q) (header q ++ cs) (sent q)
  | AWrite => start_response (flushSave now m q)
  end.

Definition run_handler (m : Manager) (acts : list (Time * action)) (q : request) : request :=
  foldl (fun q na => act m na q) q acts.

(** The status of an error response, or the request as the middleware leaves
    it; net/http starts the response of a handler that wrote nothing. *)
Definition serve (now fin : Time) (m : Manager) (cookies : list (string * string))
    (acts : list (Time * action)) (w : world St) : (Z + request) * world St :=
  let '(r, w) := Start now m cookies w in
  match r with
  | Err _ => (inl 500, w)
  | Ok s =>
      let q := start_response (flushSave fin m (run_handler m acts (mkRequest s w false [] None))) in
      (inr q, wd q)
  end.
End Sessions.

(** ** Identifiers *)

Lemma hex_digit_inj a b : 0 <= a < 16 -> 0 <= b < 16 -> hex_digit a = hex_digit b -> a = b.
Proof.
  intros Ha Hb Hab. unfold hex_digit in Hab. apply (f_equal nat_of_ascii) in Hab.
  destruct (Z.ltb_spec a 10), (Z.ltb_spec b 10);
    rewrite !nat_ascii_embedding in Hab by lia; lia.
Qed.

Lemma EncodeToString_inj l1 l2 :
  Forall (fun b => 0 <= b < 256) l1 -> Forall (fun b => 0 <= b < 256) l2 ->
  EncodeToString l1 = EncodeToString l2 -> l1 = l2.
Proof.
  intros H1. revert l2. induction H1 as [|a l1 Ha _ IH]; intros l2 H2 Heq; destruct H2 as [|b l2 Hb H2];
    simpl in Heq; try done. injection Heq as Hhi Hlo Hrest.
  apply hex_digit_inj in Hhi, Hlo; try (Z.to_euclidean_division_equations; lia).
  f_equal; [| by apply IH]. Z.to_euclidean_division_equations; lia.
Qed.

(** ** What sessions guarantee over any lawful store *)

Section Guarantees.
Context {V E St : Type} `{StoreLaws V E St}.
Context (rand : nat -> result E (list Z)) (undef : float64 -> Z).
Implicit Types (m : Manager) (w : world St).

(** A session id is never the client's choice.  A session [Start] returns is
    either the live record of the cookie's id, with its data, or an empty one
    under an id drawn from the random source during the call. *)
Theorem Start_no_fixation now m cookies w s w' :
  Start rand now m cookies w = (Ok s, w') ->
  (isNew s = false /\ sid s <> EmptyString
   /\ request_cookie (cookieName m) cookies = Some (sid s)
   /\ view now (st w) (sid s) = Some (sdata s))
  \/ (isNew s = true /\ sdata s = ∅
      /\ exists bytes, rand (drawn w) = Ok bytes /\ sid s = EncodeToString bytes /\ drawn w' = S (drawn w)).
Proof.
  unfold Start, generateID. destruct (request_cookie _ cookies) as [id|].
  - case_bool_decide as Hid.
    + simpl. destruct (rand (drawn w)) as [bytes|e] eqn:Er; intros [= <- <-]. right. split_and!; [done | done | by exists bytes].
    + pose proof (read_returns now id (st w)) as Hr.
      destruct (Read now id (st w)) as [[[d|]|e] store] eqn:Eread; simpl; [| | done].
      * intros [= <- <-]. left. split_and!; try done. simpl. by rewrite <- (Hr (Some d)).
      * destruct (rand (drawn w)) as [bytes|e] eqn:Er; intros [= <- <-]. right. split_and!; [done | done | by exists bytes].
  - simpl. destruct (rand (drawn w)) as [bytes|e] eqn:Er; intros [= <- <-]. right. split_and!; [done | done | by exists bytes].
Qed.

Lemma Start_reads now m cookies w id :
  request_cookie (cookieName m) cookies = Some id -> id <> EmptyString ->
  (exists e, (Read now id (st w)).1 = Err e /\ (Start rand now m cookies w).1 = Err e)
  \/ match view now (st w) id with
     | Some d => (Start rand now m cookies w).1 = Ok (mkSession id d false false false)
     | None => (Start rand now m cookies w).1
               = match rand (drawn w) with
                 | Ok bytes => Ok (mkSession (EncodeToString bytes) ∅ true false false)
                 | Err e => Err e
                 end
     end.
Proof.
  intros Hc Hid. unfold Start, generateID. rewrite Hc, bool_decide_false by done.
  pose proof (read_returns now id (st w)) as Hr.
  destruct (Read now id (st w)) as [[o|e] store]; simpl in *; [right | left; eauto].
  rewrite <- (Hr o eq_refl). destruct o as [d|]; [done |]. simpl. by destruct (rand (drawn w)).
Qed.

(** A saved session comes back: until its time to live has passed, a request
    with its cookie starts a session with the same id and data; afterwards one
    with a new id and no data.  The only other outcome is an error of the
    store. *)
Theorem Save_then_Start now m s w w' cs t cookies
    (Hnow : 0 < now) (Httl : 0 < ttl m) (Hid : sid s <> EmptyString)
    (Hlive : destroyed s = false) (Hch : dirty s || isNew s = true)
    (Hsave : Save undef now m s w = (None, w', cs))
    (Ht : now <= t) (Hck : request_cookie (cookieName m) cookies = Some (sid s)) :
  map ck_value cs = [sid s]
  /\ ((exists e, (Read t (sid s) (st w')).1 = Err e /\ (Start rand t m cookies w').1 = Err e)
      \/ (Start rand t m cookies w').1
         = if t <=? now + ttl m then Ok (mkSession (sid s) (sdata s) false false false)
           else match rand (drawn w) with
                | Ok bytes => Ok (mkSession (EncodeToString bytes) ∅ true false false)
                | Err e => Err e
                end).
Proof.
  unfold Save in Hsave. rewrite Hlive, Hch in Hsave.
  pose proof (write_stores now (sid s) (sdata s) (ttl m) (st w) t Hnow Ht) as Hw.
  destruct (Write now (sid s) (sdata s) (ttl m) (st w)) as [[e|] store]; [done |].
  injection Hsave as <- <-. split; [done |].
  specialize (Hw eq_refl). rewrite (proj2 (Z.ltb_ge (ttl m) 0)) in Hw by lia.
  rewrite (proj2 (Z.eqb_neq (ttl m) 0)) in Hw by lia.
  cbv zeta in Hw. rewrite (proj2 (Z.ltb_lt 0 (ttl m))) in Hw by lia. cbn [andb snd] in Hw.
  destruct (Start_reads t m cookies (mkWorld store (drawn w)) (sid s) Hck Hid) as [He|Hs]; [by left | right].
  cbn [st] in Hs. rewrite Hw in Hs.
  destruct (Z.ltb_spec (now + ttl m) t), (Z.leb_spec t (now + ttl m)); done || lia.
Qed.

(** ** Logout *)

Lemma destroy_only_removes now id s t id' d :
  now <= t -> view t (Destroy_ now id s).2 id' = Some d -> view t s id' = Some d.
Proof.
  intros Ht Hv. destruct (decide (id = id')) as [<-|Hne].
  - destruct ((Destroy_ now id s).1) as [e|] eqn:Ee.
    + rewrite destroy_keeps in Hv; [done | done |]. right. by rewrite Ee.
    + by rewrite destroy_removes in Hv.
  - rewrite destroy_keeps in Hv; [done | done | by left].
Qed.

(** The request is past a logout that began in [q0]: nothing was stored since,
    and only expired cookies were set. *)
Record logged_out (t : Time) m (q0 q : @request V St) : Prop := {
  lo_destroyed : destroyed (sess q) = true;
  lo_header : exists n, header q = header q0 ++ replicate n (dead_cookie m);
  lo_store id d : view t (st (wd q)) id = Some d -> view t (st (wd q0)) id = Some d;
}.

Lemma act_logged_out t m (q0 q : @request V St) now (a : @action V) :
  now <= t -> logged_out t m q0 q -> logged_out t m q0 (act rand undef m (now, a) q).
Proof.
  intros Ht [Hd [n Hh] Hs]. destruct a; simpl.
  - by split; [| exists n |].
  - unfold Forget. destruct (sdata (sess q) !! key); by split; [| exists n |].
  - unfold Flush. destruct (0 <? _); by split; [| exists n |].
  - unfold Regenerate, generateID. destruct (rand (drawn (wd q))) as [bytes|e]; simpl.
    + destruct (Destroy_ now (sid (sess q)) (st (wd q))) as [err store] eqn:Ed. split; [done | by exists n |].
      simpl. intros id d Hv. apply Hs. apply (destroy_only_removes now (sid (sess q)) _ _ _ _ Ht). by rewrite Ed.
    + by split; [| exists n |].
  - unfold Save. rewrite Hd. split; [done | exists n; simpl; by rewrite app_nil_r | done].
  - unfold Destroy. destruct (Destroy_ now (sid (sess q)) (st (wd q))) as [[e|] store] eqn:Ed; simpl.
    + split; [done | exists n; simpl; by rewrite app_nil_r |]. simpl. intros id d Hv. apply Hs.
      apply (destroy_only_removes now (sid (sess q)) _ _ _ _ Ht). by rewrite Ed.
    + split; [done | exists (S n); simpl | simpl; intros id d Hv; apply Hs].
      * rewrite Hh, <- app_assoc. f_equal. by rewrite <- replicate_cons_app.
      * apply (destroy_only_removes now (sid (sess q)) _ _ _ _ Ht). by rewrite Ed.
  - unfold flushSave. destruct (saved q); [by split; [| exists n |] |]. rewrite Hd. by split; [| exists n |].
Qed.

Lemma run_logged_out t m (q0 q : @request V St) acts :
  Forall (fun na => na.1 <= t) acts -> logged_out t m q0 q -> logged_out t m q0 (run_handler rand undef m acts q).
Proof.
  intros Ha. revert q. induction Ha as [|[now a] acts Hle _ IH]; intros q Hq; [done |].
  apply IH. by apply act_logged_out.
Qed.

(** C17: A logout is final.  Once [Destroy] has succeeded in a handler, whatever
    the handler does with the session afterwards and however the middleware
    finishes, the session's record is gone, no record is stored, and every
    cookie set from then on is the expired one. *)
Theorem logout_is_final now fin t m (q : @request V St) acts s w cs
    (Hdestroy : Destroy now m (sess q) (wd q) = (None, s, w, cs))
    (Hnow : now <= t) (Hacts : Forall (fun na => na.1 <= t) acts) :
  let q' := start_response (flushSave undef fin m (run_handler rand undef m acts (act rand undef m (now, ADestroy) q))) in
  view t (st (wd q')) (sid (sess q)) = None
  /\ (forall id d, view t (st (wd q')) id = Some d -> view t (st (wd q)) id = Some d)
  /\ exists n, header q' = header q ++ replicate n (dead_cookie m).
Proof.
  pose proof (destroy_only_removes now (sid (sess q)) (st (wd q)) t) as Hrm.
  pose proof (destroy_removes now (sid (sess q)) (st (wd q)) t Hnow) as Hgone.
  set (q1 := act rand undef m (now, ADestroy) q).
  assert (Hq1 : header q1 = header q ++ [dead_cookie m] /\ destroyed (sess q1) = true
    /\ st (wd q1) = (Destroy_ now (sid (sess q)) (st (wd q))).2
    /\ (Destroy_ now (sid (sess q)) (st (wd q))).1 = None).
  { subst q1. unfold act. unfold Destroy in *.
    by destruct (Destroy_ now (sid (sess q)) (st (wd q))) as [[e|] store]. }
  destruct Hq1 as (Hh & Hd & Hst & Hok).
  assert (Hlo : logged_out t m q1 (run_handler rand undef m acts q1)).
  { apply run_logged_out; [done |]. split; [done | exists 0%nat; by rewrite app_nil_r | done]. }
  set (q2 := run_handler rand undef m acts q1) in *. destruct Hlo as [Hd2 [n Hh2] Hs2].
  assert (Hf : st (wd (start_response (flushSave undef fin m q2))) = st (wd q2)
    /\ header (start_response (flushSave undef fin m q2)) = header q2).
  { unfold flushSave. rewrite Hd2. by destruct (saved q2). }
  destruct Hf as [Hf1 Hf2]. cbv zeta. rewrite Hf1, Hf2. split_and!.
  - destruct (view t (st (wd q2)) (sid (sess q))) as [d|] eqn:Ev; [| done].
    apply Hs2 in Ev. rewrite Hst, (Hgone Hok) in Ev. done.
  - intros id d Hv. apply Hs2 in Hv. rewrite Hst in Hv. by apply Hrm.
  - exists (S n). rewrite Hh2, Hh, <- app_assoc. done.
Qed.
End Guarantees.

(** ** Changes after the response has started *)

Section Late.
Context {V E St : Type} `{Store V E St}.
Context (rand : nat -> result E (list Z)) (undef : float64 -> Z).

Definition only_data (a : @action V) : Prop :=
  match a with APut _ _ | AForget _ | AFlush | AWrite => True | _ => False end.

(** What the outside sees of a request: the status of an error, or the cookies
    sent. *)
Definition response (r : Z + @request V St) : Z + option (list Cookie) :=
  match r with inl code => inl code | inr q => inr (sent q) end.

Lemma run_late m acts (q : @request V St) :
  Forall (fun na => only_data na.2) acts -> saved q = true -> is_Some (sent q) ->
  let q' := run_handler rand undef m acts q in
  saved q' = true /\ wd q' = wd q /\ sent q' = sent q.
Proof.
  intros Ha. revert q. induction Ha as [|[now a] acts Hdata _ IH]; intros q Hsaved Hsent; [done |].
  assert (Hact : saved (act rand undef m (now, a) q) = true
    /\ wd (act rand undef m (now, a) q) = wd q /\ sent (act rand undef m (now, a) q) = sent q).
  { destruct Hsent as [cs Hcs]. destruct a; simpl in *; try done.
    unfold flushSave. rewrite Hsaved. simpl. by rewrite Hcs. }
  destruct Hact as (H1 & H2 & H3). destruct (IH (act rand undef m (now, a) q)) as (I1 & I2 & I3);
    [done | by rewrite H3 |].
  simpl. split_and!; [exact I1 | by etrans | by etrans].
Qed.

(** What a handler puts into the session after it has started the response
    is lost: the store and the response are the ones of the handler that stops
    there.  No error reports it. *)
Theorem late_changes_are_dropped now fin t m cookies acts1 acts2 (w : world St)
    (Hlate : Forall (fun na => only_data na.2) acts2) :
  response (serve rand undef now fin m cookies (acts1 ++ (t, AWrite) :: acts2) w).1
  = response (serve rand undef now fin m cookies (acts1 ++ [(t, AWrite)]) w).1
  /\ (serve rand undef now fin m cookies (acts1 ++ (t, AWrite) :: acts2) w).2
     = (serve rand undef now fin m cookies (acts1 ++ [(t, AWrite)]) w).2.
Proof.
  unfold serve. destruct (Start rand now m cookies w) as [[s|e] w0]; [| done].
  set (q0 := mkRequest s w0 false [] None).
  replace (acts1 ++ (t, AWrite) :: acts2) with ((acts1 ++ [(t, AWrite)]) ++ acts2) by by rewrite <- app_assoc.
  unfold run_handler. rewrite (foldl_app _ (acts1 ++ [(t, AWrite)])).
  set (q1 := foldl _ q0 (acts1 ++ [(t, AWrite)])).
  assert (Hq1 : saved q1 = true /\ is_Some (sent q1)).
  { subst q1. rewrite foldl_app. simpl. set (q := foldl _ q0 acts1). unfold flushSave.
    destruct (saved q) eqn:Es; simpl; [split; [done | by destruct (sent q)] |].
    destruct (destroyed (sess q)); simpl; [split; [done | by destruct (sent q)] |].
    destruct (Save undef t m (sess q) (wd q)) as [[err w1] cs]. simpl.
    split; [done | by destruct (sent q)]. }
  destruct Hq1 as [Hsv Hst]. destruct (run_late m acts2 q1 Hlate Hsv Hst) as (R1 & R2 & R3).
  change (foldl (fun q na => act rand undef m na q) q1 acts2) with (run_handler rand undef m acts2 q1).
  unfold flushSave. rewrite R1, Hsv. unfold response. simpl.
  destruct Hst as [cs Hcs]. by rewrite R2, R3, Hcs.
Qed.
End Late.

(** ** Overlapping calls of the in-memory driver *)

(** [evicting]: the ids whose [Read] has seen an expired record and has not yet
    taken the write lock to delete it. *)
Record shared (V : Type) := mkShared { store : MemoryStore V; evicting : list string; clock : Time }.
Arguments mkShared {V} store evicting clock.
Arguments store {V} _.
Arguments evicting {V} _.
Arguments clock {V} _.

Inductive mstep {V} : shared V -> shared V -> Prop :=
| m_tick s d : 0 <= d -> mstep s (mkShared (store s) (evicting s) (clock s + d))
| m_read_expired s id it :
    items (store s) !! id = Some it -> item_expired (clock s) it = true ->
    mstep s (mkShared (store s) (id :: evicting s) (clock s))
| m_evict s id l1 l2 :
    evicting s = l1 ++ id :: l2 ->
    mstep s (mkShared (mem_remove id (store s)) (l1 ++ l2) (clock s))
| m_write s id d ttl :
    mstep s (mkShared (mem_Write (E := string) (clock s) id d ttl (store s)).2 (evicting s) (clock s))
| m_destroy s id : mstep s (mkShared (mem_remove id (store s)) (evicting s) (clock s))
| m_sweep s : mstep s (mkShared (sweep_tick (clock s) (store s)) (evicting s) (clock s)).

(** A record can vanish right after it was written.  A [Read] that saw an
    expired record deletes whatever is stored under that id when it gets the
    write lock: here the record a [Write] has stored in between with a time to
    live of an hour, although no time passes and nobody destroys it. *)
Theorem stale_Read_deletes_fresh_record :
  exists s1 s2 : shared nat,
    rtc mstep (mkShared (NewMemoryStore (60 * Minute)) [] 1) s1
    /\ mstep s1 s2
    /\ mem_view (clock s1) (store s1) "id" = Some {[ "k" := 2%nat ]}
    /\ clock s2 = clock s1
    /\ mem_view (clock s2) (store s2) "id" = None.
Proof.
  pose (hour := 60 * Minute). pose (later := 1 + (hour + 1)).
  pose (a := mkShared (NewMemoryStore (V := nat) hour) [] 1).
  pose (b := mkShared (mem_Write (E := string) 1 "id" {[ "k" := 1%nat ]} 0 (store a)).2 [] 1).
  pose (b' := mkShared (store b) [] later).
  pose (c := mkShared (store b) ["id"] later).
  pose (d := mkShared (mem_Write (E := string) later "id" {[ "k" := 2%nat ]} 0 (store c)).2 ["id"] later).
  assert (Hab : mstep a b) by exact (m_write a "id" {[ "k" := 1%nat ]} 0).
  assert (Hbb : mstep b b') by (apply (m_tick b (hour + 1)); vm_compute; discriminate).
  assert (Hbc : mstep b' c).
  { apply (m_read_expired b' "id" (mkItem {[ "k" := 1%nat ]} (1 + hour))); vm_compute; reflexivity. }
  assert (Hcd : mstep c d) by exact (m_write c "id" {[ "k" := 2%nat ]} 0).
  assert (Hde : mstep d (mkShared (mem_remove "id" (store d)) [] later)) by by apply (m_evict d "id" [] []).
  exists d, (mkShared (mem_remove "id" (store d)) [] later). split_and!; [| done | | done |].
  - by apply (rtc_l _ _ b), (rtc_l _ _ b'), (rtc_l _ _ c), (rtc_l _ _ d), rtc_refl.
  - vm_compute. reflexivity.
  - vm_compute. reflexivity.
Qed.

(** ** Concrete requests *)

Definition sample_manager : Manager := NewManager (mkOptions "" 0 false 0).
Definition sample_rand (n : nat) : result string (list Z) := Ok [Z.of_nat n; 255].
Definition sample_undef (_ : float64) : Z := 0.
Definition sample_world : world (MemoryStore nat) := mkWorld (NewMemoryStore (V := nat) 0) 0.

Example sample_first_visit :
  let '(r, w) := serve sample_rand sample_undef 5 6 sample_manager [] [(5, APut "user" 7%nat)] sample_world in
  response r = inr (Some [mkCookie "lagodev_session" "00ff" "/" true true 2 7200])
  /\ mem_view 6 (st w) "00ff" = Some {[ "user" := 7%nat ]}.
Proof. by vm_compute. Qed.

Definition sample_session : Session nat := mkSession "00ff" {[ "user" := 7%nat ]} true true false.

Lemma Start_no_fixation_witness :
  let s := mkSession "00ff" (∅ : gmap string nat) true false false in
  let cookies := [("lagodev_session", "chosen-by-client")] in
  Start sample_rand 5 sample_manager cookies sample_world = (Ok s, mkWorld (NewMemoryStore 0) 1)
  /\ ((isNew s = false /\ sid s <> EmptyString
       /\ request_cookie (cookieName sample_manager) cookies = Some (sid s)
       /\ mem_view 5 (st sample_world) (sid s) = Some (sdata s))
      \/ (isNew s = true /\ sdata s = ∅
          /\ exists bytes, sample_rand 0 = Ok bytes /\ sid s = EncodeToString bytes /\ 1%nat = 1%nat)).
Proof.
  cbv zeta. split; [by vm_compute |].
  exact (Start_no_fixation sample_rand 5 sample_manager [("lagodev_session", "chosen-by-client")]
           sample_world (mkSession "00ff" ∅ true false false) (mkWorld (NewMemoryStore 0) 1) eq_refl).
Defined.

Definition saved_world : world (MemoryStore nat) :=
  (Save (E := string) sample_undef 5 sample_manager sample_session sample_world).1.2.

Lemma Save_then_Start_witness :
  map ck_value [live_cookie sample_undef sample_manager "00ff"] = ["00ff"]
  /\ ((exists e, (Read (E := string) 9 "00ff" (st saved_world)).1 = Err e
         /\ (Start sample_rand 9 sample_manager [("lagodev_session", "00ff")] saved_world).1 = Err e)
      \/ (Start sample_rand 9 sample_manager [("lagodev_session", "00ff")] saved_world).1
         = Ok (mkSession "00ff" {[ "user" := 7%nat ]} false false false)).
Proof.
  apply (Save_then_Start sample_rand sample_undef 5 sample_manager sample_session sample_world saved_world
           [live_cookie sample_undef sample_manager "00ff"] 9 [("lagodev_session", "00ff")]);
    by vm_compute.
Defined.

(** A request on the saved session, before a logout. *)
Definition sample_request : request := mkRequest sample_session saved_world false [] None.

Lemma logout_is_final_witness :
  let q' := start_response (flushSave (E := string) sample_undef 8 sample_manager
    (run_handler sample_rand sample_undef sample_manager [(7, APut "user" 8%nat); (7, ASave); (8, ARegenerate); (8, ASave)]
      (act sample_rand sample_undef sample_manager (6, ADestroy) sample_request))) in
  mem_view 9 (st (wd q')) "00ff" = None
  /\ (forall id d, mem_view 9 (st (wd q')) id = Some d -> mem_view 9 (st saved_world) id = Some d)
  /\ exists n, header q' = replicate n (dead_cookie sample_manager).
Proof.
  refine (logout_is_final (E := string) sample_rand sample_undef 6 8 9 sample_manager sample_request
    [(7, APut "user" 8%nat); (7, ASave); (8, ARegenerate); (8, ASave)]
    (mkSession "00ff" ∅ true true true)
    (mkWorld (mem_remove "00ff" (st saved_world)) 0) [dead_cookie sample_manager] _ _ _).
  - vm_compute. reflexivity.
  - done.
  - repeat constructor; done.
Defined.

Lemma late_changes_are_dropped_witness :
  response (serve sample_rand sample_undef 5 9 sample_manager []
    ([(6, APut "a" 1%nat)] ++ (7, AWrite) :: [(8, APut "b" 2%nat)]) sample_world).1
  = response (serve sample_rand sample_undef 5 9 sample_manager []
    ([(6, APut "a" 1%nat)] ++ [(7, AWrite)]) sample_world).1
  /\ mem_view 9 (st (serve sample_rand sample_undef 5 9 sample_manager []
    ([(6, APut "a" 1%nat)] ++ (7, AWrite) :: [(8, APut "b" 2%nat)]) sample_world).2) "00ff"
     = Some {[ "a" := 1%nat ]}.
Proof.
  destruct (late_changes_are_dropped sample_rand sample_undef 5 9 7 sample_manager []
    [(6, APut "a" 1%nat)] [(8, APut "b" 2%nat)] sample_world) as [H1 H2].
  - by repeat constructor.
  - split; [exact H1 |].
    etrans; [exact (f_equal (fun w => mem_view 9 (st w) "00ff") H2) | vm_compute; reflexivity].
Defined.
