(* ===== verification/Queue.v ===== *)
(** The job queue: [src/queue/queue.go].

    - [MemoryQueue] with [Push], [Pop], [Ack], [Nack], [Len] and
      [promoteDelayed]; [Pop] waits in rounds, each given by what the clock and
      the other goroutines did.  [Nack] is two critical sections, [nack_take]
      and [nack_put].
    - [Worker.handle] is [decide], what the worker makes of the handler's
      outcome, followed by the queue call; [qstep] interleaves any number of
      producers and workers of one configuration, one critical section per step.
    - [life] is the part of the worker guarded by [runMu]: the two lifecycle
      channels and what [Run] and [Stop] do to them.

    Payloads are opaque byte strings, and what a handler does is the outcome the
    environment gives.  The texts sent to the logger are events of the log. *)

From Stdlib Require Import ZArith Lia Ascii.
From stdpp Require Import base gmap strings list relations numbers.
From S2P Require Import Prelude GoRt GoStrconv.

#[local] Set Warnings "-register-all".

Record Job := mkJob {
  ID : string; Name : string; Payload : string; Attempts : Z; AvailableAt : Time }.

(** ** Dispatch *)

Definition newID (unix_nano counter : Z) : string :=
  ("job-" +:+ FormatInt unix_nano +:+ "-" +:+ format_uint counter)%string.

(** The job [Dispatch] and [DispatchAfter] push; [counter] is the value the
    atomic increment returned. *)
Definition new_job (unix_nano counter : Z) (name payload : string) (delay : option (Time * Duration)) : Job :=
  mkJob (newID unix_nano counter) name payload 0
    (match delay with None => zero_time | Some (now, d) => time_Add now d end).

(** ** The in-memory queue *)

Record MemoryQueue := mkQueue {
  ready : list Job; delayed : list Job; inflight : gmap string Job; signal : bool }.

Definition NewMemoryQueue : MemoryQueue := mkQueue [] [] ∅ false.

Definition wake (q : MemoryQueue) : MemoryQueue :=
  mkQueue (ready q) (delayed q) (inflight q) true.

Definition Push (now : Time) (j : Job) (q : MemoryQueue) : MemoryQueue :=
  wake (if negb (IsZero (AvailableAt j)) && After (AvailableAt j) now
        then mkQueue (ready q) (delayed q ++ [j]) (inflight q) (signal q)
        else mkQueue (ready q ++ [j]) (delayed q) (inflight q) (signal q)).

(** The loop of [promoteDelayed] over the delayed jobs. *)
Fixpoint promote_loop (now : Time) (js ready kept : list Job) : list Job * list Job :=
  match js with
  | [] => (ready, kept)
  | j :: js =>
      if negb (After (AvailableAt j) now) then promote_loop now js (ready ++ [j]) kept
      else promote_loop now js ready (kept ++ [j])
  end.

Definition promoteDelayed (now : Time) (q : MemoryQueue) : MemoryQueue :=
  let '(ready, kept) := promote_loop now (delayed q) (ready q) [] in
  mkQueue ready kept (inflight q) (signal q).

(** The critical section of [Pop]. *)
Definition pop_ready (q : MemoryQueue) : option (Job * MemoryQueue) :=
  match ready q with
  | [] => None
  | j :: js => Some (j, mkQueue js (delayed q) (<[ID j := j]> (inflight q)) (signal q))
  end.

Inductive pop_error := ErrEmpty | ErrContext.
Inductive wakeup := Cancelled | Signalled | TimedOut.

(** One round of [Pop]: the time [promoteDelayed] reads, what other goroutines
    do before the lock is taken, the time [time.Until] reads, what they do while
    this one sleeps, and what ends the sleep. *)
Record round := mkRound {
  r_promote : Time; r_before : MemoryQueue -> MemoryQueue; r_now : Time;
  r_asleep : MemoryQueue -> MemoryQueue; r_wakeup : wakeup }.

Fixpoint pop_loop (deadline : Time) (rounds : list round) (q : MemoryQueue)
  : option (result pop_error Job * MemoryQueue) :=
  match rounds with
  | [] => None
  | r :: rounds =>
      let q := r_before r (promoteDelayed (r_promote r) q) in
      match pop_ready q with
      | Some (j, q) => Some (Ok j, q)
      | None =>
          if time_Sub deadline (r_now r) <=? 0 then Some (Err ErrEmpty, q)
          else
            let q := r_asleep r q in
            match r_wakeup r with
            | Cancelled => Some (Err ErrContext, q)
            | Signalled => pop_loop deadline rounds (mkQueue (ready q) (delayed q) (inflight q) false)
            | TimedOut => pop_loop deadline rounds q
            end
      end
  end.

Definition Pop (start : Time) (wait : Duration) (rounds : list round) (q : MemoryQueue)
  : option (result pop_error Job * MemoryQueue) :=
  pop_loop (time_Add start wait) rounds q.

Definition Ack (id : string) (q : MemoryQueue) : MemoryQueue :=
  mkQueue (ready q) (delayed q) (delete id (inflight q)) (signal q).

Definition nack_take (id : string) (q : MemoryQueue) : option Job * MemoryQueue :=
  (inflight q !! id, mkQueue (ready q) (delayed q) (delete id (inflight q)) (signal q)).

Definition nack_put (now : Time) (retryAfter : Duration) (j : Job) (q : MemoryQueue) : MemoryQueue :=
  let attempts := i64 (Attempts j + 1) in
  wake (if 0 <? retryAfter
        then mkQueue (ready q)
               (delayed q ++ [mkJob (ID j) (Name j) (Payload j) attempts (time_Add now retryAfter)])
               (inflight q) (signal q)
        else mkQueue (ready q ++ [mkJob (ID j) (Name j) (Payload j) attempts (AvailableAt j)])
               (delayed q) (inflight q) (signal q)).

Definition Nack (now : Time) (id : string) (retryAfter : Duration) (q : MemoryQueue) : MemoryQueue :=
  match nack_take id q with
  | (None, q) => q
  | (Some j, q) => nack_put now retryAfter j q
  end.

Definition Len (q : MemoryQueue) : Z :=
  Z.of_nat (length (ready q) + length (delayed q) + size (inflight q)).

(** ** The worker *)

Definition backoffMultiplier (attempts : Z) : Duration :=
  let maxShift := 16 in
  let attempts := if attempts <? 0 then 0 else attempts in
  let attempts := if maxShift <? attempts then maxShift else attempts in
  Z.shiftl 1 attempts.

Record Worker := mkWorker {
  handlers : gset string; maxRetry : Z; backoff : Duration; onFailed : bool }.

Definition NewWorker : Worker := mkWorker ∅ 3 (5 * Second) false.

Section Handling.
(** Errors and panic values. *)
Context {E : Type}.

Inductive job_error := HandlerError (e : E) | HandlerPanic (r : E).

(** [invoke]: the error of a handler that returned or panicked. *)
Definition invoke (o : outcome unit E) : option job_error :=
  match o with
  | Return _ None => None
  | Return _ (Some e) => Some (HandlerError e)
  | Panic r => Some (HandlerPanic r)
  end.

Inductive event :=
| EDropped (j : Job)
| ERan (j : Job) (o : outcome unit E)
| EExhausted (j : Job) (err : job_error)
| EFailed (j : Job) (err : job_error)
| ERetry (j : Job) (attempt : Z) (err : job_error) (delay : Duration).

Inductive verdict := VAck | VNack (delay : Duration).

Definition decide_job (w : Worker) (j : Job) (o : outcome unit E) : list event * verdict :=
  if bool_decide (Name j ∈ handlers w) then
    match invoke o with
    | None => ([ERan j o], VAck)
    | Some err =>
        if maxRetry w <=? i64 (Attempts j + 1)
        then ([ERan j o; EExhausted j err] ++ (if onFailed w then [EFailed j err] else []), VAck)
        else
          let delay := i64 (backoff w * backoffMultiplier (Attempts j)) in
          ([ERan j o; ERetry j (i64 (Attempts j + 1)) err delay], VNack delay)
    end
  else ([EDropped j], VAck).

Definition handle (now : Time) (w : Worker) (j : Job) (o : outcome unit E) (q : MemoryQueue)
  : list event * MemoryQueue :=
  let '(ev, v) := decide_job w j o in
  (ev, match v with VAck => Ack (ID j) q | VNack d => Nack now (ID j) d q end).
End Handling.
Arguments event E : clear implicits.
Arguments job_error E : clear implicits.

(** ** Producers and workers, interleaved *)

(** A goroutine that holds a job: about to run it, to acknowledge it, to return
    it, or between the two critical sections of [Nack]. *)
Inductive thread :=
| THeld (j : Job)
| TAck (id : string)
| TNack (id : string) (delay : Duration)
| TRequeue (j : Job) (delay : Duration).

Definition tid (t : thread) : string :=
  match t with THeld j => ID j | TAck id => id | TNack id _ => id | TRequeue j _ => ID j end.

(** [pushed] and [acked] are the ids pushed and acknowledged so far. *)
Record sys (E : Type) := mkSys {
  queue : MemoryQueue; threads : list thread; clock : Time;
  pushed : list string; acked : list string; log : list (event E) }.
Arguments mkSys {E} queue threads clock pushed acked log.
Arguments queue {E} _.
Arguments threads {E} _.
Arguments clock {E} _.
Arguments pushed {E} _.
Arguments acked {E} _.
Arguments log {E} _.

Definition after_verdict (j : Job) (v : verdict) : thread :=
  match v with VAck => TAck (ID j) | VNack d => TNack (ID j) d end.

Inductive qstep {E} (w : Worker) : sys E -> sys E -> Prop :=
| q_tick s d : 0 <= d ->
    qstep w s (mkSys (queue s) (threads s) (clock s + d) (pushed s) (acked s) (log s))
| q_push s j : ID j ∉ pushed s -> Attempts j = 0 ->
    qstep w s (mkSys (Push (clock s) j (queue s)) (threads s) (clock s) (ID j :: pushed s) (acked s) (log s))
| q_promote s :
    qstep w s (mkSys (promoteDelayed (clock s) (queue s)) (threads s) (clock s) (pushed s) (acked s) (log s))
| q_pop s j q : pop_ready (queue s) = Some (j, q) ->
    qstep w s (mkSys q (THeld j :: threads s) (clock s) (pushed s) (acked s) (log s))
| q_decide s j o ts1 ts2 : threads s = ts1 ++ THeld j :: ts2 ->
    qstep w s (mkSys (queue s) (ts1 ++ after_verdict j (decide_job w j o).2 :: ts2) (clock s)
                 (pushed s) (acked s) (log s ++ (decide_job w j o).1))
| q_ack s id ts1 ts2 : threads s = ts1 ++ TAck id :: ts2 ->
    qstep w s (mkSys (Ack id (queue s)) (ts1 ++ ts2) (clock s) (pushed s) (id :: acked s) (log s))
| q_nack_lost s id d ts1 ts2 q : threads s = ts1 ++ TNack id d :: ts2 ->
    nack_take id (queue s) = (None, q) ->
    qstep w s (mkSys q (ts1 ++ ts2) (clock s) (pushed s) (acked s) (log s))
| q_nack_take s id d j ts1 ts2 q : threads s = ts1 ++ TNack id d :: ts2 ->
    nack_take id (queue s) = (Some j, q) ->
    qstep w s (mkSys q (ts1 ++ TRequeue j d :: ts2) (clock s) (pushed s) (acked s) (log s))
| q_nack_put s j d ts1 ts2 : threads s = ts1 ++ TRequeue j d :: ts2 ->
    qstep w s (mkSys (nack_put (clock s) d j (queue s)) (ts1 ++ ts2) (clock s) (pushed s) (acked s) (log s)).

Definition initial {E} (now : Time) : sys E := mkSys NewMemoryQueue [] now [] [] [].

(** How often the handler ran, and [OnFailed] was called, for a job. *)
Definition is_run {E} (id : string) (e : event E) : bool :=
  match e with ERan j _ => bool_decide (ID j = id) | _ => false end.
Definition is_failed {E} (id : string) (e : event E) : bool :=
  match e with EFailed j _ => bool_decide (ID j = id) | _ => false end.

Definition runs {E} (id : string) (l : list (event E)) : Z := Z.of_nat (length (List.filter (is_run id) l)).
Definition failures {E} (id : string) (l : list (event E)) : Z :=
  Z.of_nat (length (List.filter (is_failed id) l)).

Lemma runs_app {E} id (l1 l2 : list (event E)) : runs id (l1 ++ l2) = runs id l1 + runs id l2.
Proof. unfold runs. rewrite List.filter_app, length_app. lia. Qed.

Lemma failures_app {E} id (l1 l2 : list (event E)) : failures id (l1 ++ l2) = failures id l1 + failures id l2.
Proof. unfold failures. rewrite List.filter_app, length_app. lia. Qed.

(** Every job the system knows, once per place it is in. *)
Definition places {E} (s : sys E) : list string :=
  map ID (ready (queue s)) ++ map ID (delayed (queue s)) ++ map tid (threads s) ++ acked s.

Lemma promote_loop_spec now js rd kept :
  promote_loop now js rd kept
  = (rd ++ List.filter (fun j => negb (After (AvailableAt j) now)) js,
     kept ++ List.filter (fun j => After (AvailableAt j) now) js).
Proof.
  revert rd kept. induction js as [|j js IH]; intros rd kept; simpl; [by rewrite !app_nil_r |].
  destruct (After (AvailableAt j) now); simpl; rewrite IH, <- app_assoc; done.
Qed.

Section Invariant.
Context {E : Type} (w : Worker).
Hypothesis Hmax : maxRetry w <= max_i64.

Definition most : Z := Z.max 1 (maxRetry w).

(** A job that waits for its next run. *)
Definition waiting (l : list (event E)) (j : Job) : Prop :=
  runs (ID j) l = Attempts j /\ failures (ID j) l = 0
  /\ 0 <= Attempts j /\ (Attempts j = 0 \/ Attempts j < maxRetry w).

(** A job that will not run again. *)
Definition settled (l : list (event E)) (id : string) : Prop :=
  runs id l <= most /\ (failures id l = 0 \/ (failures id l = 1 /\ runs id l = most)).

Definition thread_ok (now : Time) (inn : gmap string Job) (l : list (event E)) (t : thread) : Prop :=
  match t with
  | THeld j => waiting l j /\ inn !! ID j = Some j /\ AvailableAt j <= now
  | TAck id => settled l id
  | TNack id _ => exists j, ID j = id /\ inn !! id = Some j /\ AvailableAt j <= now
      /\ runs id l = Attempts j + 1 /\ failures id l = 0 /\ 0 <= Attempts j /\ Attempts j + 1 < maxRetry w
  | TRequeue j _ => AvailableAt j <= now /\ runs (ID j) l = Attempts j + 1 /\ failures (ID j) l = 0
      /\ 0 <= Attempts j /\ Attempts j + 1 < maxRetry w
  end.

Record qinv (s : sys E) : Prop := {
  qi_places : pushed s ≡ₚ places s;
  qi_nodup : NoDup (pushed s);
  qi_ready : Forall (fun j => waiting (log s) j /\ AvailableAt j <= clock s) (ready (queue s));
  qi_delayed : Forall (waiting (log s)) (delayed (queue s));
  qi_threads : Forall (thread_ok (clock s) (inflight (queue s)) (log s)) (threads s);
  qi_acked : Forall (settled (log s)) (acked s);
  qi_unknown id : id ∉ pushed s -> runs id (log s) = 0 /\ failures id (log s) = 0;
  qi_clock : 0 <= clock s;
}.

Lemma places_distinct s : qinv s -> NoDup (places s).
Proof. intros Hs. rewrite <- (qi_places _ Hs). apply Hs. Qed.

(** Events of another job change nothing. *)
Definition same_counts (l l' : list (event E)) (id : string) : Prop :=
  runs id l' = runs id l /\ failures id l' = failures id l.

Lemma waiting_same l l' j : same_counts l l' (ID j) -> waiting l j -> waiting l' j.
Proof. intros [H1 H2]. unfold waiting. by rewrite H1, H2. Qed.

Lemma settled_same l l' id : same_counts l l' id -> settled l id -> settled l' id.
Proof. intros [H1 H2]. unfold settled. by rewrite H1, H2. Qed.

Lemma thread_same now now' inn inn' l l' t :
  now <= now' -> inn' !! tid t = inn !! tid t -> same_counts l l' (tid t) ->
  thread_ok now inn l t -> thread_ok now' inn' l' t.
Proof.
  intros Hn Hi Hc. destruct t as [j|id|id d|j d]; simpl in *.
  - intros (H1 & H2 & H3). split_and!; [by apply (waiting_same l) | by rewrite Hi | lia].
  - by apply settled_same.
  - intros (j & H1 & H2 & H3 & H4 & H5 & H6). destruct Hc as [C1 C2]. exists j.
    rewrite Hi, C1, C2. split_and!; try done; lia.
  - intros (H1 & H2 & H3 & H4). destruct Hc as [C1 C2]. rewrite C1, C2. split_and!; try done; lia.
Qed.

Lemma threads_same now now' inn inn' l l' ts :
  now <= now' -> (forall t, t ∈ ts -> inn' !! tid t = inn !! tid t /\ same_counts l l' (tid t)) ->
  Forall (thread_ok now inn l) ts -> Forall (thread_ok now' inn' l') ts.
Proof.
  intros Hn Hall Hts. apply list.Forall_forall. intros t Ht.
  destruct (Hall t Ht) as [Hi Hc]. apply (thread_same now now' inn inn' l l'); try done.
  by apply (proj1 (list.Forall_forall _ _) Hts).
Qed.

Lemma decide_counts j o id :
  ID j <> id -> runs id (decide_job (E := E) w j o).1 = 0 /\ failures id (decide_job w j o).1 = 0.
Proof.
  intros Hne. unfold decide_job, runs, failures.
  destruct (bool_decide (Name j ∈ handlers w)); [| done].
  destruct (invoke o) as [err|]; [| simpl; by rewrite bool_decide_false].
  destruct (maxRetry w <=? _); [destruct (onFailed w) |]; simpl; by rewrite !bool_decide_false.
Qed.

(** The verdict on a waiting job. *)
Lemma decide_ok now inn l j o :
  waiting l j -> inn !! ID j = Some j -> AvailableAt j <= now ->
  thread_ok now inn (l ++ (decide_job w j o).1) (after_verdict j (decide_job w j o).2).
Proof.
  intros (Hr & Hf & Ha & Hlt) Hin Hnow. unfold decide_job.
  assert (Hi : i64 (Attempts j + 1) = Attempts j + 1).
  { apply i64_small. unfold max_i64, min_i64 in *. lia. }
  rewrite Hi. assert (Hself : bool_decide (ID j = ID j) = true) by by apply bool_decide_true.
  destruct (bool_decide (Name j ∈ handlers w)).
  - destruct (invoke o) as [err|].
    + destruct (Z.leb_spec (maxRetry w) (Attempts j + 1)) as [Hle|Hgt].
      * cbn [fst snd after_verdict thread_ok]. unfold settled, most. rewrite runs_app, failures_app.
        unfold runs at 2 4, failures at 2 4. destruct (onFailed w); simpl; rewrite Hself; simpl; lia.
      * cbn [fst snd after_verdict thread_ok]. exists j. rewrite runs_app, failures_app.
        unfold runs at 2, failures at 2. simpl. rewrite Hself. simpl. split_and!; try done; lia.
    + cbn [fst snd after_verdict thread_ok]. unfold settled, most. rewrite runs_app, failures_app.
      unfold runs at 2 4, failures at 2 4. simpl. rewrite Hself. simpl. lia.
  - cbn [fst snd after_verdict thread_ok]. unfold settled, most. rewrite runs_app, failures_app.
    unfold runs at 2 4, failures at 2 4. simpl. lia.
Qed.

Ltac show_sys := cbn [queue threads clock pushed acked log ready delayed inflight].
Ltac show_places := unfold places; show_sys.

(** Members of the other places are other jobs. *)
Lemma others_differ (a b : list string) x y : NoDup (a ++ x :: b) -> y ∈ a \/ y ∈ b -> y <> x.
Proof.
  intros Hd Hy ->. apply list.NoDup_app in Hd as (_ & H1 & H2). apply list.NoDup_cons in H2 as [H2 _].
  destruct Hy as [Hy|Hy]; [| done]. apply (H1 x Hy). by left.
Qed.

Lemma threads_split (ts1 ts2 : list thread) t x :
  NoDup (map tid (ts1 ++ x :: ts2)) -> t ∈ ts1 ++ ts2 -> tid t <> tid x.
Proof.
  rewrite map_app. simpl. intros Hd Ht. apply (others_differ (map tid ts1) (map tid ts2)); [done |].
  apply elem_of_app in Ht as [Ht|Ht]; [left | right]; by apply list_elem_of_fmap_2.
Qed.

Lemma threads_distinct s : qinv s -> NoDup (map tid (threads s)).
Proof.
  intros Hs%places_distinct. unfold places in Hs.
  apply list.NoDup_app in Hs as (_ & _ & Hs). apply list.NoDup_app in Hs as (_ & _ & Hs).
  by apply list.NoDup_app in Hs as (Hs & _ & _).
Qed.

Lemma waiting_new l j : runs (ID j) l = 0 -> failures (ID j) l = 0 -> Attempts j = 0 -> waiting l j.
Proof. intros H1 H2 H3. unfold waiting. rewrite H1, H2, H3. split_and!; auto; lia. Qed.

Lemma push_inv s j :
  ID j ∉ pushed s -> Attempts j = 0 -> qinv s ->
  qinv (mkSys (Push (clock s) j (queue s)) (threads s) (clock s) (ID j :: pushed s) (acked s) (log s)).
Proof.
  intros Hnew Ha [Hp Hd Hr Hdel Ht Hack Hu Hc]. destruct (Hu (ID j) Hnew) as [Hr0 Hf0].
  pose proof (waiting_new (log s) j Hr0 Hf0 Ha) as Hw. unfold places in *.
  unfold Push, IsZero, After, wake. destruct (negb _ && _) eqn:Ez; split; show_sys;
    try done.
  - show_places. etrans; [apply Permutation_skip, Hp |]. rewrite map_app. simpl. rewrite <- !app_assoc. simpl. by rewrite !Permutation_middle.
  - by apply list.NoDup_cons.
  - apply list.Forall_app. by split; [| constructor].
  - intros id Hid. apply Hu. set_solver.
  - show_places. etrans; [apply Permutation_skip, Hp |]. rewrite map_app. simpl. rewrite <- !app_assoc. simpl. by rewrite Permutation_middle.
  - by apply list.NoDup_cons.
  - apply list.Forall_app. split; [done |]. constructor; [| constructor]. split; [done |].
    apply andb_false_iff in Ez as [Ez|Ez%Z.ltb_ge]; [| done].
    apply negb_false_iff, Z.eqb_eq in Ez. lia.
  - intros id Hid. apply Hu. set_solver.
Qed.

Lemma filter_split_perm (f : Job -> bool) js :
  List.filter (fun j => negb (f j)) js ++ List.filter f js ≡ₚ js.
Proof.
  induction js as [|j js IH]; [done |]. simpl. destruct (f j); simpl; [| by rewrite IH].
  rewrite <- Permutation_middle. by rewrite IH.
Qed.

Lemma promote_inv s :
  qinv s ->
  qinv (mkSys (promoteDelayed (clock s) (queue s)) (threads s) (clock s) (pushed s) (acked s) (log s)).
Proof.
  intros [Hp Hd Hr Hdel Ht Hack Hu Hc]. unfold promoteDelayed. rewrite promote_loop_spec. simpl.
  split; try done; show_sys.
  - etrans; [exact Hp |]. show_places. unfold places. rewrite map_app, <- !app_assoc. apply Permutation_app_head.
    rewrite (app_assoc (map ID _) (map ID _)), <- map_app, filter_split_perm. done.
  - apply list.Forall_app. split; [done |]. apply list.Forall_forall. intros j Hj.
    apply list_elem_of_In, filter_In in Hj as [Hj Hn]. unfold After in Hn.
    apply negb_true_iff, Z.ltb_ge in Hn. split; [| done].
    apply (proj1 (list.Forall_forall _ _) Hdel). by apply list_elem_of_In.
  - apply list.Forall_forall. intros j Hj. apply list_elem_of_In, filter_In in Hj as [Hj _].
    apply (proj1 (list.Forall_forall _ _) Hdel). by apply list_elem_of_In.
Qed.

Lemma pop_inv s j q :
  pop_ready (queue s) = Some (j, q) -> qinv s ->
  qinv (mkSys q (THeld j :: threads s) (clock s) (pushed s) (acked s) (log s)).
Proof.
  intros Hpop Hs. pose proof (places_distinct s Hs) as Hdist.
  destruct Hs as [Hp Hd Hr Hdel Ht Hack Hu Hc]. unfold pop_ready in Hpop.
  destruct (ready (queue s)) as [|j0 js] eqn:Er; [done |]. injection Hpop as <- <-.
  apply Forall_cons_1 in Hr as [[Hw Hav] Hr].
  unfold places in Hp, Hdist. rewrite Er in Hp, Hdist. simpl in Hp, Hdist.
  split; try done; show_sys.
  - etrans; [exact Hp |]. show_places. unfold places. simpl.
    by rewrite !Permutation_middle.
  - constructor.
    + simpl. split_and!; [done | by rewrite lookup_insert_eq | done].
    + eapply threads_same; [| | exact Ht]; [done |]. intros t Hin. split; [| done].
      rewrite lookup_insert_ne; [done |]. intros Heq. apply list.NoDup_cons in Hdist as [Hn _]. apply Hn.
      rewrite Heq, !elem_of_app. right. right. left. by apply list_elem_of_fmap_2.
Qed.

Lemma decide_inv s j o ts1 ts2 :
  threads s = ts1 ++ THeld j :: ts2 -> qinv s ->
  qinv (mkSys (queue s) (ts1 ++ after_verdict j (decide_job w j o).2 :: ts2) (clock s)
          (pushed s) (acked s) (log s ++ (decide_job w j o).1)).
Proof.
  intros Hts Hs. pose proof (places_distinct s Hs) as Hdist. pose proof (threads_distinct s Hs) as Htd.
  destruct Hs as [Hp Hd Hr Hdel Ht Hack Hu Hc]. rewrite Hts in Ht, Htd.
  assert (Htid : tid (after_verdict j (decide_job w j o).2) = ID j) by by destruct ((decide_job w j o).2).
  assert (Hsame : forall id, ID j <> id -> same_counts (log s) (log s ++ (decide_job w j o).1) id).
  { intros id Hne. destruct (decide_counts j o id Hne) as [H1 H2]. unfold same_counts.
    rewrite runs_app, failures_app, H1, H2. lia. }
  unfold places in Hp, Hdist. rewrite Hts, map_app in Hp, Hdist. simpl in Hp, Hdist.
  assert (Hout : forall l1 l2, map ID (ready (queue s)) ++ map ID (delayed (queue s)) ++
      (map tid ts1 ++ ID j :: map tid ts2) ++ acked s = l1 ++ ID j :: l2 ->
    forall y, y ∈ l1 \/ y ∈ l2 -> ID j <> y).
  { intros l1 l2 Heq y Hy. rewrite Heq in Hdist. apply not_eq_sym. by apply (others_differ l1 l2). }
  assert (Hother : forall y, y ∈ map ID (ready (queue s)) \/ y ∈ map ID (delayed (queue s)) \/ y ∈ acked s ->
    ID j <> y).
  { intros y Hy. apply (Hout (map ID (ready (queue s)) ++ map ID (delayed (queue s)) ++ map tid ts1)
      (map tid ts2 ++ acked s)); [by rewrite <- !app_assoc |]. rewrite !elem_of_app. naive_solver. }
  apply list.Forall_app in Ht as [Ht1 Ht2]. apply Forall_cons_1 in Ht2 as [(Hw & Hin & Hav) Ht2].
  split; show_sys; try done.
  - etrans; [exact Hp |]. show_places. rewrite map_app. simpl. by rewrite Htid.
  - apply list.Forall_forall. intros j' Hj'.
    destruct (proj1 (list.Forall_forall _ _) Hr j' Hj') as [H1 H2]. split; [| done].
    apply (waiting_same (log s)); [| done]. apply Hsame, Hother. left. by apply list_elem_of_fmap_2.
  - apply list.Forall_forall. intros j' Hj'. pose proof (proj1 (list.Forall_forall _ _) Hdel j' Hj') as H1.
    apply (waiting_same (log s)); [| done]. apply Hsame, Hother. right. left. by apply list_elem_of_fmap_2.
  - assert (Hrest : forall t, t ∈ ts1 ++ ts2 -> ID j <> tid t).
    { intros t Hin'. apply not_eq_sym. by apply (threads_split ts1 ts2 t (THeld j)). }
    apply list.Forall_app. split; [| constructor].
    + eapply threads_same; [| | exact Ht1]; [done |]. intros t Hin'. split; [done |].
      apply Hsame, Hrest, elem_of_app. by left.
    + by apply decide_ok.
    + eapply threads_same; [| | exact Ht2]; [done |]. intros t Hin'. split; [done |].
      apply Hsame, Hrest, elem_of_app. by right.
  - apply list.Forall_forall. intros id Hid. pose proof (proj1 (list.Forall_forall _ _) Hack id Hid) as H1.
    apply (settled_same (log s)); [| done]. apply Hsame, Hother. by right; right.
  - intros id Hid. destruct (Hsame id) as [H1 H2].
    { intros <-. apply Hid. rewrite Hp. rewrite !elem_of_app. right. right. left. right. by left. }
    rewrite H1, H2. by apply Hu.
Qed.

(** A thread leaves [TAck] or [TNack], taking its job out of [inflight]. *)
Lemma delete_threads s ts1 ts2 t0 :
  threads s = ts1 ++ t0 :: ts2 -> qinv s ->
  Forall (thread_ok (clock s) (delete (tid t0) (inflight (queue s))) (log s)) (ts1 ++ ts2)
  /\ thread_ok (clock s) (inflight (queue s)) (log s) t0.
Proof.
  intros Hts Hs. pose proof (threads_distinct s Hs) as Htd. rewrite Hts in Htd.
  pose proof (qi_threads s Hs) as Ht. rewrite Hts in Ht.
  apply list.Forall_app in Ht as [Ht1 Ht2]. apply Forall_cons_1 in Ht2 as [H0 Ht2]. split; [| done].
  eapply threads_same; [done | | by apply list.Forall_app; split; [exact Ht1 | exact Ht2]].
  intros t Hin. split; [| done]. rewrite lookup_delete_ne; [done |]. apply not_eq_sym.
  by apply (threads_split ts1 ts2 t t0).
Qed.

Lemma ack_inv s id ts1 ts2 :
  threads s = ts1 ++ TAck id :: ts2 -> qinv s ->
  qinv (mkSys (Ack id (queue s)) (ts1 ++ ts2) (clock s) (pushed s) (id :: acked s) (log s)).
Proof.
  intros Hts Hs. destruct (delete_threads s ts1 ts2 (TAck id) Hts Hs) as [Ht Hset].
  destruct Hs as [Hp Hd Hr Hdel _ Hack Hu Hc]. unfold Ack. split; show_sys; try done.
  - etrans; [exact Hp |]. show_places. rewrite Hts, !map_app. simpl.
    do 2 apply Permutation_app_head. rewrite <- !app_assoc. apply Permutation_app_head.
    simpl. by rewrite Permutation_middle.
  - by constructor.
Qed.

Lemma nack_take_inv s id d ts1 ts2 :
  threads s = ts1 ++ TNack id d :: ts2 -> qinv s ->
  exists j q, nack_take id (queue s) = (Some j, q)
    /\ qinv (mkSys q (ts1 ++ TRequeue j d :: ts2) (clock s) (pushed s) (acked s) (log s)).
Proof.
  intros Hts Hs. destruct (delete_threads s ts1 ts2 (TNack id d) Hts Hs) as [Ht (j & Hid & Hin & Hj)].
  destruct Hs as [Hp Hd Hr Hdel _ Hack Hu Hc]. unfold nack_take. rewrite Hin.
  eexists j, _. split; [done |]. split; show_sys; try done.
  - etrans; [exact Hp |]. show_places. rewrite Hts, !map_app. simpl. by rewrite Hid.
  - apply list.Forall_app in Ht as [Ht1 Ht2]. apply list.Forall_app. split; [done |].
    constructor; [| done]. simpl. rewrite Hid. naive_solver.
Qed.

Lemma nack_put_inv s j d ts1 ts2 :
  threads s = ts1 ++ TRequeue j d :: ts2 -> qinv s ->
  qinv (mkSys (nack_put (clock s) d j (queue s)) (ts1 ++ ts2) (clock s) (pushed s) (acked s) (log s)).
Proof.
  intros Hts [Hp Hd Hr Hdel Ht Hack Hu Hc]. rewrite Hts in Ht.
  apply list.Forall_app in Ht as [Ht1 Ht2]. apply Forall_cons_1 in Ht2 as [(Hav & Hrun & Hf & Ha & Hlt) Ht2].
  assert (Hi : i64 (Attempts j + 1) = Attempts j + 1) by (apply i64_small; unfold min_i64; lia).
  assert (Hw : forall t, waiting (log s) (mkJob (ID j) (Name j) (Payload j) (i64 (Attempts j + 1)) t)).
  { intros t. unfold waiting. cbn [ID Attempts]. rewrite Hi. split_and!; auto; lia. }
  assert (Hpl : map ID (ready (queue s)) ++ map ID (delayed (queue s)) ++ map tid (threads s) ++ acked s
    ≡ₚ ID j :: map ID (ready (queue s)) ++ map ID (delayed (queue s)) ++ map tid (ts1 ++ ts2) ++ acked s).
  { rewrite Hts, !map_app. simpl. rewrite <- !app_assoc. simpl. by rewrite !Permutation_middle. }
  unfold nack_put, wake. destruct (0 <? d); split; show_sys; try done.
  - etrans; [exact Hp |]. etrans; [exact Hpl |]. show_places. rewrite (map_app ID). cbn [map ID].
    rewrite <- !app_assoc. simpl. by rewrite !Permutation_middle.
  - apply list.Forall_app. split; [done |]. constructor; [apply Hw | constructor].
  - apply list.Forall_app. by split.
  - etrans; [exact Hp |]. etrans; [exact Hpl |]. show_places. rewrite (map_app ID). cbn [map ID].
    rewrite <- !app_assoc. simpl. by rewrite !Permutation_middle.
  - apply list.Forall_app. split; [done |]. constructor; [split; [apply Hw | done] | constructor].
  - apply list.Forall_app. by split.
Qed.

Lemma qstep_inv s s' : qinv s -> qstep w s s' -> qinv s'.
Proof.
  intros Hs Hst. destruct Hst.
  - destruct Hs as [Hp Hd Hr Hdel Ht Hack Hu Hc]. split; show_sys; try done; [| | lia].
    + eapply list.Forall_impl; [exact Hr |]. intros j [H1 H2]. split; [done | lia].
    + eapply threads_same; [| | exact Ht]; [lia | done].
  - by apply push_inv.
  - by apply promote_inv.
  - by apply pop_inv.
  - by apply decide_inv.
  - by apply ack_inv.
  - destruct (nack_take_inv s id d ts1 ts2) as (j & q' & Heq & _); [done | done | congruence].
  - destruct (nack_take_inv s id d ts1 ts2) as (j' & q' & Heq & Hi); [done | done |].
    rewrite Heq in *. naive_solver.
  - by apply nack_put_inv.
Qed.

Lemma qstep_reachable_inv now s : 0 <= now -> rtc (qstep w) (initial now) s -> qinv s.
Proof.
  intros Hnow. apply rtc_invariant; [| apply qstep_inv].
  split; show_sys; try done; constructor.
Qed.
End Invariant.

(** ** What the queue guarantees *)

(** C6: No job is lost and none is duplicated.  However producers and workers
    interleave, every job pushed is in exactly one place: ready, delayed, held by
    one goroutine, or acknowledged. *)
Theorem jobs_conserved {E} (w : Worker) (now : Time) (s : sys E)
    (Hmax : maxRetry w <= max_i64) (Hnow : 0 <= now) (Hs : rtc (qstep w) (initial now) s) :
  pushed s ≡ₚ map ID (ready (queue s)) ++ map ID (delayed (queue s)) ++ map tid (threads s) ++ acked s
  /\ NoDup (map ID (ready (queue s)) ++ map ID (delayed (queue s)) ++ map tid (threads s) ++ acked s).
Proof.
  pose proof (qstep_reachable_inv w Hmax now s Hnow Hs) as Hi.
  split; [apply Hi | by apply (places_distinct w)].
Qed.

(** C7: Retries are bounded.  The handler runs at most [maxRetry] times for one
    job, and at least once is always allowed; [OnFailed] is called at most once,
    only after the last run allowed, and no job is held before the time it is
    available at. *)
Theorem attempts_bounded {E} (w : Worker) (now : Time) (s : sys E) (id : string)
    (Hmax : maxRetry w <= max_i64) (Hnow : 0 <= now) (Hs : rtc (qstep w) (initial now) s) :
  runs id (log s) <= Z.max 1 (maxRetry w)
  /\ (failures id (log s) = 0 \/ (failures id (log s) = 1 /\ runs id (log s) = Z.max 1 (maxRetry w)))
  /\ (forall j, THeld j ∈ threads s -> AvailableAt j <= clock s).
Proof.
  pose proof (qstep_reachable_inv w Hmax now s Hnow Hs) as [Hp Hd Hr Hdel Ht Hack Hu Hc].
  assert (Hset : settled w (log s) id).
  { destruct (decide (id ∈ pushed s)) as [Hin|Hni].
    2:{ destruct (Hu id Hni) as [H1 H2]. unfold settled, most. rewrite H1, H2. lia. }
    rewrite Hp in Hin. unfold places in Hin. rewrite !elem_of_app in Hin.
    assert (Hwait : forall j, waiting w (log s) j -> settled w (log s) (ID j)).
    { intros j (H1 & H2 & H3 & H4). unfold settled, most. rewrite H1, H2. lia. }
    destruct Hin as [(j & -> & Hj)%list_elem_of_fmap|[(j & -> & Hj)%list_elem_of_fmap|
      [(t & -> & Hj)%list_elem_of_fmap|Hj]]].
    - apply Hwait. by apply (proj1 (list.Forall_forall _ _) Hr j).
    - apply Hwait. by apply (proj1 (list.Forall_forall _ _) Hdel j).
    - pose proof (proj1 (list.Forall_forall _ _) Ht t Hj) as Htok.
      destruct t as [j|i|i d|j d]; simpl in *; [apply Hwait, Htok | done | |].
      + destruct Htok as (j & _ & _ & _ & H1 & H2 & H3 & H4). unfold settled, most. rewrite H1, H2. lia.
      + destruct Htok as (_ & H1 & H2 & H3 & H4). unfold settled, most. rewrite H1, H2. lia.
    - by apply (proj1 (list.Forall_forall _ _) Hack id). }
  destruct Hset as [H1 H2]. split_and!; [done | done |].
  intros j Hj. by destruct (proj1 (list.Forall_forall _ _) Ht _ Hj) as (_ & _ & ?).
Qed.

(** C21: No job is stuck.  In a reachable state in which every goroutine is done
    with its job, either every job pushed has been acknowledged, or after some
    time the next [Pop] returns one. *)
Theorem queue_progress {E} (w : Worker) (now : Time) (s : sys E)
    (Hmax : maxRetry w <= max_i64) (Hnow : 0 <= now) (Hs : rtc (qstep w) (initial now) s)
    (Hidle : threads s = []) :
  pushed s ≡ₚ acked s
  \/ exists d, 0 <= d /\ forall d', d <= d' ->
       exists j q, pop_ready (promoteDelayed (clock s + d') (queue s)) = Some (j, q).
Proof.
  pose proof (qstep_reachable_inv w Hmax now s Hnow Hs) as [Hp Hd Hr Hdel Ht Hack Hu Hc].
  unfold places in Hp. rewrite Hidle in Hp. simpl in Hp.
  destruct (ready (queue s)) as [|j js] eqn:Er.
  - destruct (delayed (queue s)) as [|j js] eqn:Ed; [by left | right].
    exists (Z.max 0 (AvailableAt j - clock s)). split; [lia |]. intros d' Hd'.
    unfold promoteDelayed. rewrite promote_loop_spec, Er, Ed. simpl. unfold After at 1.
    rewrite (proj2 (Z.ltb_ge (clock s + d') (AvailableAt j))) by lia. simpl. by eexists _, _.
  - right. exists 0. split; [lia |]. intros d' _. unfold promoteDelayed.
    rewrite promote_loop_spec, Er. simpl. by eexists _, _.
Qed.

(** The delay before the retry after attempt number [a] is the base backoff
    doubled [a] times, at most sixteen, and does not overflow as long as 65536
    times the base fits a [time.Duration]. *)
Theorem retry_delay_exact {E} (w : Worker) (j : Job) (o : outcome unit E) (err : job_error E)
    (Hname : Name j ∈ handlers w) (Hfails : invoke o = Some err)
    (Hatt : 0 <= Attempts j) (Hleft : Attempts j + 1 < maxRetry w) (Hmax : maxRetry w <= max_i64)
    (Hbase : 0 <= backoff w) (Hfits : backoff w * 65536 <= max_i64) :
  (decide_job w j o).2 = VNack (backoff w * 2 ^ Z.min 16 (Attempts j)).
Proof.
  unfold decide_job. rewrite bool_decide_true, Hfails by done.
  rewrite (i64_small (Attempts j + 1)) by (unfold min_i64, max_i64 in *; lia).
  rewrite (proj2 (Z.leb_gt (maxRetry w) (Attempts j + 1))) by done. cbn [fst snd]. f_equal.
  unfold backoffMultiplier. rewrite (proj2 (Z.ltb_ge (Attempts j) 0)) by done.
  assert (Hsh : forall k, 0 <= k <= 16 -> i64 (backoff w * Z.shiftl 1 k) = backoff w * 2 ^ k).
  { intros k Hk. rewrite Z.shiftl_1_l. apply i64_small.
    assert (2 ^ k <= 2 ^ 16) by (apply Z.pow_le_mono_r; lia). unfold min_i64. nia. }
  destruct (Z.ltb_spec 16 (Attempts j)).
  - rewrite Hsh by lia. by rewrite Z.min_l by lia.
  - rewrite Hsh by lia. by rewrite Z.min_r by lia.
Qed.

(** Ids of jobs dispatched under different counter values differ. *)
Lemma newID_inj n1 n2 c1 c2 : 0 <= c1 -> 0 <= c2 -> newID n1 c1 = newID n2 c2 -> c1 = c2.
Proof.
  intros H1 H2 He. unfold newID in He.
  assert (Hb : forall c, has_byte "-" (format_uint c) = false).
  { intros c. apply format_digits_bytes; [left; done | done]. }
  assert (Hshape : forall n c, ("job-" +:+ FormatInt n +:+ "-" +:+ format_uint c
    = ("job-" +:+ FormatInt n) +:+ String "-" (format_uint c))%string)
    by (intros n c; by rewrite append_app).
  rewrite !Hshape in He. apply (f_equal (Split "-")) in He.
  destruct (Split_last "-" ("job-" +:+ FormatInt n1) _ (Hb c1)) as (x & l & E1).
  destruct (Split_last "-" ("job-" +:+ FormatInt n2) _ (Hb c2)) as (y & m & E2).
  rewrite E1, E2 in He. apply list.app_inj_2 in He as [_ [= He]]; [| done].
  by apply format_uint_inj.
Qed.

(** [Pop] returns in the first round that reads the clock at or past the
    deadline, if not before. *)
Lemma Pop_ends start wait rounds r rest q :
  time_Add start wait <= r_now r -> exists x, Pop start wait (rounds ++ r :: rest) q = Some x.
Proof.
  intros Hr. unfold Pop. revert q. induction rounds as [|r0 rounds IH]; intros q; simpl.
  - destruct (pop_ready _) as [[j q']|]; [by eexists |].
    rewrite (proj2 (Z.leb_le _ 0)); [by eexists |]. unfold time_Sub, min_i64, max_i64. lia.
  - destruct (pop_ready _) as [[j q']|]; [by eexists |].
    destruct (_ <=? 0); [by eexists |]. destruct (r_wakeup r0); [by eexists | apply IH | apply IH].
Qed.

(** ** Lifecycle *)

(** The channels are numbered in the order they are made; [closed] are the
    closed ones. *)
Record life := mkLife { running : bool; stop : nat; stopped : nat; closed : gset nat; fresh : nat }.

Definition new_life : life := mkLife false 0 1 ∅ 2.

(** The beginning of [Run]; the second component is its own [stopped]. *)
Definition run_begin (l : life) : life * nat :=
  if bool_decide (stop l ∈ closed l)
  then (mkLife true (fresh l) (S (fresh l)) (closed l) (S (S (fresh l))), S (fresh l))
  else (mkLife true (stop l) (stopped l) (closed l) (fresh l), stopped l).

(** The deferred function of [Run]; closing a closed channel panics. *)
Definition run_end (own : nat) (l : life) : option life :=
  if bool_decide (own ∈ closed l) then None
  else Some (mkLife false (stop l) (stopped l) ({[own]} ∪ closed l) (fresh l)).

(** The critical section of [Stop]; the second component is the channel it then
    waits for. *)
Definition stop_begin (l : life) : life * option nat :=
  (mkLife (running l) (stop l) (stopped l) ({[stop l]} ∪ closed l) (fresh l),
   if running l then Some (stopped l) else None).

(** A worker whose context was cancelled cannot be run again.  When [Run]
    has returned without a [Stop], a second [Run] reuses the channel the first
    one closed, and panics when it returns. *)
Theorem rerun_without_stop_panics (l : life)
    (Hlive : stop l ∉ closed l) (Hopen : stopped l ∉ closed l) (Hne : stop l <> stopped l) :
  let '(l1, own1) := run_begin l in
  exists l2, run_end own1 l1 = Some l2
    /\ let '(l3, own2) := run_begin l2 in own2 = own1 /\ run_end own2 l3 = None.
Proof.
  unfold run_begin at 1. rewrite bool_decide_false by done. unfold run_end at 1. cbn [closed stop stopped fresh].
  rewrite bool_decide_false by done. eexists. split; [done |]. unfold run_begin. cbn [closed stop stopped fresh].
  rewrite bool_decide_false by set_solver. split; [done |]. unfold run_end. cbn [closed].
  rewrite bool_decide_true by set_solver. done.
Qed.

(** A [Stop] before each return is enough: the next [Run] gets new channels. *)
Definition life_ok (l : life) : Prop :=
  (stop l < fresh l)%nat /\ (stopped l < fresh l)%nat /\ stop l <> stopped l
  /\ (forall c, c ∈ closed l -> (c < fresh l)%nat) /\ (stopped l ∈ closed l -> stop l ∈ closed l).

Lemma stopped_cycle_ok l :
  life_ok l ->
  let '(l1, own) := run_begin l in
  let '(l2, waits) := stop_begin l1 in
  waits = Some own /\ exists l3, run_end own l2 = Some l3 /\ life_ok l3 /\ own ∈ closed l3.
Proof.
  intros (H1 & H2 & H3 & H4 & H5). unfold run_begin, stop_begin. case_bool_decide as Hc; cbn [running stop stopped closed fresh].
  - split; [done |]. unfold run_end. cbn [closed].
    assert (Hf : S (fresh l) ∉ {[fresh l]} ∪ closed l).
    { intros [Hx%elem_of_singleton|Hx%H4]%elem_of_union; lia. }
    rewrite bool_decide_false by done. eexists. split; [done |]. split; [| set_solver].
    unfold life_ok. cbn [stop stopped closed fresh]. split_and!; [lia | lia | lia | | set_solver].
    intros c. rewrite !elem_of_union, !elem_of_singleton. intros [-> | [-> | Hx%H4]]; lia.
  - split; [done |]. unfold run_end. cbn [closed].
    assert (Hf : stopped l ∉ {[stop l]} ∪ closed l) by set_solver.
    rewrite bool_decide_false by done. eexists. split; [done |]. split; [| set_solver].
    unfold life_ok. cbn [stop stopped closed fresh]. split_and!; [lia | lia | lia | | set_solver].
    intros c. rewrite !elem_of_union, !elem_of_singleton. intros [-> | [-> | Hx%H4]]; lia.
Qed.

(** ** Schedules *)

(** A schedule names the steps; [KFinish i] is the next queue call of the [i]-th
    goroutine. *)
Inductive choice (E : Type) :=
| KTick (d : Z) | KPush (j : Job) | KPromote | KPop | KDecide (i : nat) (o : outcome unit E) | KFinish (i : nat).
Arguments KTick {E} d.
Arguments KPush {E} j.
Arguments KPromote {E}.
Arguments KPop {E}.
Arguments KDecide {E} i o.
Arguments KFinish {E} i.

Section Schedules.
Context {E : Type} (w : Worker).

Definition perform (k : choice E) (s : sys E) : option (sys E) :=
  match k with
  | KTick d =>
      if bool_decide (0 <= d) then Some (mkSys (queue s) (threads s) (clock s + d) (pushed s) (acked s) (log s)) else None
  | KPush j =>
      if bool_decide ((ID j ∉ pushed s) /\ Attempts j = 0)
      then Some (mkSys (Push (clock s) j (queue s)) (threads s) (clock s) (ID j :: pushed s) (acked s) (log s)) else None
  | KPromote => Some (mkSys (promoteDelayed (clock s) (queue s)) (threads s) (clock s) (pushed s) (acked s) (log s))
  | KPop =>
      match pop_ready (queue s) with
      | Some (j, q) => Some (mkSys q (THeld j :: threads s) (clock s) (pushed s) (acked s) (log s))
      | None => None
      end
  | KDecide i o =>
      match threads s !! i with
      | Some (THeld j) =>
          Some (mkSys (queue s) (take i (threads s) ++ after_verdict j (decide_job w j o).2 :: drop (S i) (threads s))
                  (clock s) (pushed s) (acked s) (log s ++ (decide_job w j o).1))
      | _ => None
      end
  | KFinish i =>
      let rest := take i (threads s) ++ drop (S i) (threads s) in
      match threads s !! i with
      | Some (TAck id) => Some (mkSys (Ack id (queue s)) rest (clock s) (pushed s) (id :: acked s) (log s))
      | Some (TNack id d) =>
          match nack_take id (queue s) with
          | (None, q) => Some (mkSys q rest (clock s) (pushed s) (acked s) (log s))
          | (Some j, q) => Some (mkSys q (take i (threads s) ++ TRequeue j d :: drop (S i) (threads s))
                                   (clock s) (pushed s) (acked s) (log s))
          end
      | Some (TRequeue j d) =>
          Some (mkSys (nack_put (clock s) d j (queue s)) rest (clock s) (pushed s) (acked s) (log s))
      | _ => None
      end
  end.

Fixpoint perform_all (ks : list (choice E)) (s : sys E) : option (sys E) :=
  match ks with
  | [] => Some s
  | k :: ks => match perform k s with Some s => perform_all ks s | None => None end
  end.

Lemma perform_step k s s' : perform k s = Some s' -> qstep w s s'.
Proof.
  assert (Hsplit : forall i t, threads s !! i = Some t ->
    threads s = take i (threads s) ++ t :: drop (S i) (threads s))
    by (intros i t Ht; by rewrite take_drop_middle).
  destruct k as [d|j| | |i o|i]; simpl.
  - case_bool_decide; [| done]. intros [= <-]. by constructor.
  - case_bool_decide as Hb; [| done]. destruct Hb. intros [= <-]. by constructor.
  - intros [= <-]. constructor.
  - destruct (pop_ready (queue s)) as [[j q]|] eqn:Ep; [| done]. intros [= <-]. by constructor.
  - destruct (threads s !! i) as [[j|id|id d|j d]|] eqn:Et; try done. intros [= <-]. constructor. by apply Hsplit.
  - destruct (threads s !! i) as [[j|id|id d|j d]|] eqn:Et; try done; apply Hsplit in Et.
    + intros [= <-]. by constructor.
    + destruct (inflight (queue s) !! id) as [j|] eqn:En; intros [= <-];
        [eapply (q_nack_take w s id d j) | eapply (q_nack_lost w s id d)]; try done;
        unfold nack_take; by rewrite En.
    + intros [= <-]. by constructor.
Qed.

Lemma perform_all_steps ks s s' : perform_all ks s = Some s' -> rtc (qstep w) s s'.
Proof.
  revert s. induction ks as [|k ks IH]; intros s; simpl; [intros [= ->]; apply rtc_refl |].
  destruct (perform k s) as [s1|] eqn:Ek; [| done]. intros H. eapply rtc_l; [by apply (perform_step k) | by apply IH].
Qed.
End Schedules.

(** ** Concrete runs *)

(** A worker that gives a job two runs; the job fails both times. *)
Definition sample_worker : Worker := mkWorker {[ "mail" ]} 2 (5 * Second) true.
Definition sample_job : Job := mkJob (newID 77 1) "mail" "{}" 0 0.

Definition sample_schedule : list (choice string) :=
  [KPush sample_job; KPromote; KPop; KDecide 0 (Return tt (Some "smtp down")); KFinish 0; KFinish 0].

Definition sample_schedule_end : list (choice string) :=
  [KTick (5 * Second); KPromote; KPop; KDecide 0 (Panic "boom"); KFinish 0].

Definition sample_middle : sys string :=
  default (initial 1) (perform_all sample_worker sample_schedule (initial 1)).
Definition sample_end : sys string :=
  default (initial 1) (perform_all sample_worker (sample_schedule ++ sample_schedule_end) (initial 1)).

Example sample_end_failed :
  acked sample_end = ["job-77-1"] /\ threads sample_end = []
  /\ map (is_failed "job-77-1") (log sample_end) = [false; false; false; false; true].
Proof. by vm_compute. Qed.

Lemma sample_middle_reachable : rtc (qstep sample_worker) (initial 1) sample_middle.
Proof. apply (perform_all_steps sample_worker sample_schedule). by vm_compute. Qed.

Lemma sample_end_reachable : rtc (qstep sample_worker) (initial 1) sample_end.
Proof. apply (perform_all_steps sample_worker (sample_schedule ++ sample_schedule_end)). by vm_compute. Qed.

Lemma jobs_conserved_witness :
  pushed sample_middle = ["job-77-1"] /\ map ID (delayed (queue sample_middle)) = ["job-77-1"]
  /\ pushed sample_middle ≡ₚ map ID (ready (queue sample_middle)) ++ map ID (delayed (queue sample_middle))
       ++ map tid (threads sample_middle) ++ acked sample_middle.
Proof.
  split; [by vm_compute |]. split; [by vm_compute |].
  apply (jobs_conserved sample_worker 1 sample_middle); [done | done | exact sample_middle_reachable].
Defined.

Lemma attempts_bounded_witness :
  runs "job-77-1" (log sample_end) = 2 /\ failures "job-77-1" (log sample_end) = 1
  /\ runs "job-77-1" (log sample_end) <= 2.
Proof.
  split; [by vm_compute |]. split; [by vm_compute |].
  apply (attempts_bounded sample_worker 1 sample_end "job-77-1"); [done | done | exact sample_end_reachable].
Defined.

Lemma queue_progress_witness :
  threads sample_middle = []
  /\ (pushed sample_middle ≡ₚ acked sample_middle
      \/ exists d, 0 <= d /\ forall d', d <= d' -> exists j q,
           pop_ready (promoteDelayed (clock sample_middle + d') (queue sample_middle)) = Some (j, q)).
Proof.
  split; [by vm_compute |].
  apply (queue_progress sample_worker 1 sample_middle); [done | done | exact sample_middle_reachable | by vm_compute].
Defined.

Lemma retry_delay_exact_witness :
  (decide_job (E := string) (mkWorker {[ "mail" ]} 30 (5 * Second) true)
     (mkJob "id" "mail" "" 20 0) (Panic "boom")).2 = VNack (5 * Second * 2 ^ Z.min 16 20).
Proof.
  apply (retry_delay_exact (mkWorker {[ "mail" ]} 30 (5 * Second) true) (mkJob "id" "mail" "" 20 0)
    (Panic "boom") (HandlerPanic "boom")); try done; vm_compute; congruence.
Defined.

Lemma rerun_without_stop_panics_witness :
  stop new_life <> stopped new_life
  /\ let '(l1, own1) := run_begin new_life in
     exists l2, run_end own1 l1 = Some l2
       /\ let '(l3, own2) := run_begin l2 in own2 = own1 /\ run_end own2 l3 = None.
Proof. split; [done |]. apply (rerun_without_stop_panics new_life); [set_solver | set_solver | done]. Defined.
