(* ===== verification/SqlQueue.v ===== *)
(** The database-backed queue: [src/queue/sqlqueue/sqlqueue.go].

    - [row] is a row of the [jobs] table; [insert_job], [reserve], [recover],
      [delete_job] and [release] are what the statements of [Push], [claim],
      [recoverOrphans], [Ack] and [Nack] do to the rows; [is_next] is what the
      [SELECT] of [claim] may return (its [ORDER BY] leaves ties open).
    - [retry_loop] is the loop [execRetry] and [tryReserve] share, [Pop] the wait
      around it.
    - [step] interleaves any number of producers and workers, in this process or
      in others.  A claim is a transaction: [WClaim] is the time between its
      [SELECT] and its [COMMIT], in which the row is locked (PostgreSQL, MySQL)
      or every other write waits ([BEGIN IMMEDIATE] of SQLite).  What a worker
      does with a job is [Queue.decide_job]; a worker may also die.

    [Attempts] is not wrapped: the bounds below keep it far from the column's
    range.  Driver errors, and the text of the schema, are not modelled. *)

From Stdlib Require Import ZArith Lia Ascii.
From Stdlib Require String.
From Stdlib Require Import Sorted.
From stdpp Require Import base gmap strings list relations numbers.
From S2P Require Import Prelude GoRt GoStrconv Sql Queue.

#[local] Set Warnings "-register-all".

(** ** The table and its statements *)

Record row := mkRow {
  row_id : Z; job_id : string; name : string; payload : string; attempts : Z;
  available_at : Time; reserved_at : option Time }.

#[export] Instance row_eq_dec : EqDecision row.
Proof. solve_decision. Defined.

(** The row [Push] inserts; the column [job_id] is unique. *)
Definition insert_job (id : Z) (now : Time) (j : Job) (t : list row) : option (list row) :=
  let avail := if IsZero (AvailableAt j) then now else AvailableAt j in
  if bool_decide (ID j ∈ map job_id t) then None
  else Some (t ++ [mkRow id (ID j) (Queue.Name j) (Payload j) (Attempts j) avail None]).

Definition claimable (now : Time) (r : row) : bool :=
  bool_decide (reserved_at r = None) && (available_at r <=? now).

Definition is_next (free : row -> bool) (now : Time) (r : row) (t : list row) : bool :=
  bool_decide (r ∈ t) && claimable now r && free r
  && forallb (fun r' => if claimable now r' && free r' then available_at r <=? available_at r' else true) t.

Definition set_reserved (now : Time) (r : row) : row :=
  mkRow (row_id r) (job_id r) (name r) (payload r) (attempts r) (available_at r) (Some now).

Definition reserve (now : Time) (id : Z) (t : list row) : list row :=
  map (fun r => if row_id r =? id then set_reserved now r else r) t.

(** The job [claim] returns: its [AvailableAt] is not read from the table. *)
Definition job_of (r : row) : Job := mkJob (job_id r) (name r) (payload r) (attempts r) zero_time.

Definition set_free (avail : Time) (r : row) : row :=
  mkRow (row_id r) (job_id r) (name r) (payload r) (attempts r + 1) avail None.

Definition orphaned (cutoff : Time) (r : row) : bool :=
  match reserved_at r with None => false | Some t => Before t cutoff end.

Definition recover (cutoff : Time) (t : list row) : list row :=
  map (fun r => if orphaned cutoff r then set_free (available_at r) r else r) t.

Definition delete_job (id : string) (t : list row) : list row :=
  List.filter (fun r => negb (bool_decide (job_id r = id))) t.

Definition release (avail : Time) (id : string) (t : list row) : list row :=
  map (fun r => if bool_decide (job_id r = id) then set_free avail r else r) t.

(** The time [Nack] makes a job available at. *)
Definition nack_at (now : Time) (retryAfter : Duration) : Time :=
  if 0 <? retryAfter then time_Add now retryAfter else now.

Definition table_len (t : list row) : Z := Z.of_nat (length t).

(** ** Statements that are retried *)

Section Retrying.
Context {E A : Type}.

(** One round of the loop: what the statement gave, and the error of the context
    when it ends before the backoff does. *)
Record try := mkTry { tried : result E A; ctx_done : option E }.

Definition maxAttempts : nat := 8.

Definition next_backoff (backoff : Duration) : Duration :=
  if backoff <? 40 * Millisecond then backoff * 2 else backoff.

(** The result, with the waits taken before it. *)
Fixpoint retry_loop (again : E -> bool) (attempt : nat) (backoff : Duration) (ts : list try)
  : option (result E A * list Duration) :=
  match ts with
  | [] => None
  | t :: ts =>
      match tried t with
      | Ok a => Some (Ok a, [])
      | Err e =>
          if negb (again e) || (maxAttempts - 1 <=? attempt)%nat then Some (Err e, [])
          else
            match ctx_done t with
            | Some c => Some (Err c, [])
            | None =>
                match retry_loop again (S attempt) (next_backoff backoff) ts with
                | Some (r, waits) => Some (r, backoff :: waits)
                | None => None
                end
            end
      end
  end.
End Retrying.
Arguments try : clear implicits.
Arguments mkTry {E A} tried ctx_done.

Section Errors.
Context (ToLower : string -> string).

Definition contains (s sub : string) : bool :=
  match String.index 0 sub s with Some _ => true | None => false end.

(** [isBusy] on the text of an error. *)
Definition isBusy (err : string) : bool :=
  let s := ToLower err in
  contains s "database is locked" || contains s "database table is locked"
  || contains s "sqlite_busy" || contains s "sqlite_locked" || contains s "is busy".

Definition execRetry (sqlite : bool) (ts : list (try string unit)) :=
  retry_loop (fun e => sqlite && isBusy e) 0 (2 * Millisecond) ts.

(** [tryReserve] after the recovery of orphans; [None] is [queue.ErrEmpty], which
    is not a busy error. *)
Definition tryReserve (ts : list (try (option string) Job)) :=
  retry_loop (fun e => match e with Some e => isBusy e | None => false end) 0 (2 * Millisecond) ts.
End Errors.

(** ** Waiting for a job *)

(** One round of [Pop]: what [tryReserve] returned, the time [time.Until] reads,
    and the error of the context when it ends during the sleep. *)
Record pop_round := mkRound {
  reserved : result (option string) Job; until : Time; cancelled : option string }.

(** The result ([Err None] is [ErrEmpty]), with the sleeps taken before it. *)
Fixpoint pop_loop (deadline : Time) (rs : list pop_round)
  : option (result (option string) Job * list Duration) :=
  match rs with
  | [] => None
  | r :: rs =>
      match reserved r with
      | Ok j => Some (Ok j, [])
      | Err (Some e) => Some (Err (Some e), [])
      | Err None =>
          let remaining := time_Sub deadline (until r) in
          if remaining <=? 0 then Some (Err None, [])
          else
            let sleep := if remaining <? 100 * Millisecond then remaining else 100 * Millisecond in
            match cancelled r with
            | Some c => Some (Err (Some c), [sleep])
            | None =>
                match pop_loop deadline rs with
                | Some (res, sleeps) => Some (res, sleep :: sleeps)
                | None => None
                end
            end
      end
  end.

Definition Pop (now : Time) (wait : Duration) (rs : list pop_round) := pop_loop (time_Add now wait) rs.

(** ** Producers and workers on one table *)

(** A worker inside the transaction of a claim that read [now], or with the job
    a claim that read [at] returned. *)
Inductive worker :=
| WClaim (id : Z) (now : Time)
| WHeld (j : Job) (at_ : Time).

Definition since (x : worker) : Time := match x with WClaim _ t => t | WHeld _ t => t end.
Definition claim_of (x : worker) : option Z := match x with WClaim id _ => Some id | WHeld _ _ => None end.
Definition held_of (x : worker) : option string := match x with WClaim _ _ => None | WHeld j _ => Some (ID j) end.

(** [log] is the attempts each delivery of each job showed, the latest first. *)
Record sys := mkSys {
  table : list row; next_id : Z; workers : list worker; clock : Time;
  pushed : list string; acked : list string; log : list (string * Z) }.

(** No other transaction keeps a statement from writing the row. *)
Definition free (sqlite : bool) (ws : list worker) (r : row) : bool :=
  if sqlite then bool_decide (omap claim_of ws = []) else bool_decide (row_id r ∉ omap claim_of ws).

Section Steps.
Context {E : Type} (w : Worker) (sqlite : bool) (visTout : Duration) (crashes : bool).

(** Every row of the job can be written. *)
Definition writable (s : sys) (id : string) : Prop :=
  forall r, r ∈ table s -> job_id r = id -> free sqlite (workers s) r = true.

Inductive step : sys -> sys -> Prop :=
| q_tick s d : 0 <= d ->
    step s (mkSys (table s) (next_id s) (workers s) (clock s + d) (pushed s) (acked s) (log s))
| q_push s j t : ID j ∉ pushed s -> Attempts j = 0 ->
    (sqlite = true -> omap claim_of (workers s) = []) ->
    insert_job (next_id s) (clock s) j (table s) = Some t ->
    step s (mkSys t (next_id s + 1) (workers s) (clock s) (ID j :: pushed s) (acked s) (log s))
| q_recover s cutoff : cutoff <= clock s - visTout ->
    (sqlite = true -> omap claim_of (workers s) = []) ->
    step s (mkSys (recover cutoff (table s)) (next_id s) (workers s) (clock s) (pushed s) (acked s) (log s))
| q_select s now r : now <= clock s -> is_next (free sqlite (workers s)) now r (table s) = true ->
    step s (mkSys (table s) (next_id s) (WClaim (row_id r) now :: workers s) (clock s)
              (pushed s) (acked s) (log s))
| q_rollback s id now ws1 ws2 : workers s = ws1 ++ WClaim id now :: ws2 ->
    step s (mkSys (table s) (next_id s) (ws1 ++ ws2) (clock s) (pushed s) (acked s) (log s))
| q_commit s r now ws1 ws2 : workers s = ws1 ++ WClaim (row_id r) now :: ws2 -> r ∈ table s ->
    step s (mkSys (reserve now (row_id r) (table s)) (next_id s) (ws1 ++ WHeld (job_of r) now :: ws2) (clock s)
              (pushed s) (acked s) ((job_id r, attempts r) :: log s))
| q_ack s j at_ o ws1 ws2 : workers s = ws1 ++ WHeld j at_ :: ws2 ->
    (decide_job (E := E) w j o).2 = VAck -> writable s (ID j) ->
    step s (mkSys (delete_job (ID j) (table s)) (next_id s) (ws1 ++ ws2) (clock s) (pushed s)
              (if bool_decide (ID j ∈ map job_id (table s)) then ID j :: acked s else acked s) (log s))
| q_nack s j at_ o d now ws1 ws2 : workers s = ws1 ++ WHeld j at_ :: ws2 ->
    (decide_job (E := E) w j o).2 = VNack d -> writable s (ID j) -> now <= clock s ->
    step s (mkSys (release (nack_at now d) (ID j) (table s)) (next_id s) (ws1 ++ ws2) (clock s)
              (pushed s) (acked s) (log s))
| q_die s x ws1 ws2 : crashes = true -> workers s = ws1 ++ x :: ws2 ->
    step s (mkSys (table s) (next_id s) (ws1 ++ ws2) (clock s) (pushed s) (acked s) (log s)).

(** No worker keeps a job longer than the visibility timeout. *)
Definition prompt (s : sys) : Prop := Forall (fun x => clock s - since x <= visTout) (workers s).

Definition prompt_step (s s' : sys) : Prop := step s s' /\ prompt s'.
End Steps.

Definition initial (now : Time) : sys := mkSys [] 1 [] now [] [] [].

(** The attempts the deliveries of one job showed, the latest first. *)
Definition deliveries (id : string) (l : list (string * Z)) : list Z :=
  map snd (List.filter (fun d => bool_decide (d.1 = id)) l).

(** ** Rows and locks *)

Definition update (p : row -> bool) (f : row -> row) (t : list row) : list row :=
  map (fun r => if p r then f r else r) t.

Lemma elem_of_update p f t r :
  r ∈ update p f t <-> exists r0, r0 ∈ t /\ r = if p r0 then f r0 else r0.
Proof. unfold update. rewrite list_elem_of_fmap. split; intros (r0 & H1 & H2); exists r0; tauto. Qed.

Lemma update_column {A} (c : row -> A) p f t :
  (forall r, c (f r) = c r) -> map c (update p f t) = map c t.
Proof.
  intros Hc. unfold update. rewrite map_map. apply map_ext. intros r. by destruct (p r).
Qed.

Lemma elem_of_delete id t r : r ∈ delete_job id t <-> r ∈ t /\ job_id r <> id.
Proof.
  unfold delete_job. rewrite !list_elem_of_In, filter_In, negb_true_iff, bool_decide_eq_false. tauto.
Qed.

(** Two rows with one key are one row. *)
Lemma key_inj {A} (c : row -> A) t r1 r2 :
  NoDup (map c t) -> r1 ∈ t -> r2 ∈ t -> c r1 = c r2 -> r1 = r2.
Proof.
  induction t as [|r t IH]; simpl; [by intros _ H%elem_of_nil |].
  intros [Hnot Hd]%list.NoDup_cons [->|H1]%elem_of_cons [->|H2]%elem_of_cons Hc; try done.
  - destruct Hnot. rewrite Hc. by apply list_elem_of_fmap_2.
  - destruct Hnot. rewrite <- Hc. by apply list_elem_of_fmap_2.
  - by apply IH.
Qed.

Lemma delete_job_column id t :
  map job_id (delete_job id t) = List.filter (fun x => negb (bool_decide (x = id))) (map job_id t).
Proof.
  induction t as [|r t IH]; [done |]. unfold delete_job in *. simpl.
  destruct (bool_decide (job_id r = id)); simpl; by rewrite IH.
Qed.

(** A deleted id, when the ids are distinct, is taken out once. *)
Lemma delete_id_perm (id : string) (l : list string) :
  NoDup l -> id ∈ l -> l ≡ₚ id :: List.filter (fun x => negb (bool_decide (x = id))) l.
Proof.
  induction l as [|x l IH]; [by intros _ H%elem_of_nil |]. intros [Hx Hd]%list.NoDup_cons Hin.
  simpl. case_bool_decide as Hxid; simpl.
  - subst. constructor. clear -Hx. induction l as [|y l IH]; [done |]. simpl.
    apply not_elem_of_cons in Hx as [Hy Hl]. rewrite bool_decide_false by congruence. simpl. f_equiv. by apply IH.
  - apply elem_of_cons in Hin as [Hin|Hin]; [by destruct Hxid |].
    rewrite IH at 1 by done. by constructor.
Qed.

Lemma delete_id_absent (id : string) (l : list string) :
  id ∉ l -> List.filter (fun x => negb (bool_decide (x = id))) l = l.
Proof.
  induction l as [|x l IH]; [done |]. intros [Hx Hl]%not_elem_of_cons. simpl.
  rewrite bool_decide_false by congruence. simpl. by rewrite IH.
Qed.

Lemma delete_ids_sub id t x : x ∈ map job_id (delete_job id t) -> x ∈ map job_id t /\ x <> id.
Proof.
  intros (r & -> & Hr)%list_elem_of_fmap. apply elem_of_delete in Hr as [Hr Hid].
  split; [by apply list_elem_of_fmap_2 | done].
Qed.

Lemma is_next_spec fr now r t :
  is_next fr now r t = true <->
  r ∈ t /\ reserved_at r = None /\ available_at r <= now /\ fr r = true
  /\ forall r', r' ∈ t -> reserved_at r' = None -> available_at r' <= now -> fr r' = true ->
       available_at r <= available_at r'.
Proof.
  unfold is_next, claimable.
  rewrite !andb_true_iff, !bool_decide_eq_true, Z.leb_le, forallb_forall. setoid_rewrite <- list_elem_of_In.
  split.
  - intros [[[H1 [H2 H3]] H4] H5]. split_and!; try done. intros r' Hr' Hn Ha Hf.
    specialize (H5 r' Hr'). rewrite bool_decide_true in H5 by done. apply Z.leb_le in Ha.
    rewrite Ha, Hf in H5. simpl in H5. lia.
  - intros (H1 & H2 & H3 & H4 & H5). split_and!; try done. intros r' Hr'.
    case_bool_decide as Hn; simpl; [| done]. destruct (Z.leb_spec (available_at r') now); simpl; [| done].
    destruct (fr r') eqn:Hf; [| done]. apply Z.leb_le. by apply H5.
Qed.

Lemma free_not_locked sql ws r : free sql ws r = true -> row_id r ∉ omap claim_of ws.
Proof.
  unfold free. destruct sql; rewrite bool_decide_eq_true; [intros ->; apply not_elem_of_nil | done].
Qed.

(** ** What every run keeps *)

(** The attempts that a delivery of the row has shown are at most this. *)
Definition shown (r : row) : Z := attempts r - (if bool_decide (reserved_at r = None) then 1 else 0).

Notation claims ws := (omap claim_of ws).

Record base (s : sys) : Prop := {
  b_ids : NoDup (map row_id (table s));
  b_next : Forall (fun r => row_id r < next_id s) (table s);
  b_pushed : NoDup (pushed s);
  b_places : pushed s ≡ₚ map job_id (table s) ++ acked s;
  b_locks : NoDup (claims (workers s));
  b_claims : forall id, id ∈ claims (workers s) -> exists r, r ∈ table s /\ row_id r = id /\ reserved_at r = None;
  b_sorted : forall id, StronglySorted Z.gt (deliveries id (log s));
  b_known : forall d, d ∈ log s -> d.1 ∈ pushed s;
  b_shown : forall r, r ∈ table s -> Forall (fun a => a <= shown r) (deliveries (job_id r) (log s));
}.

Lemma b_jobs s : base s -> NoDup (map job_id (table s)).
Proof. intros [_ _ Hd Hp]. rewrite Hp in Hd. by apply list.NoDup_app in Hd as [Hd _]. Qed.

Lemma unknown_deliveries id l : (forall d, d ∈ l -> d.1 <> id) -> deliveries id l = [].
Proof.
  intros Hl. unfold deliveries. induction l as [|d l IH]; [done |]. simpl.
  rewrite bool_decide_false by (apply Hl; by left). apply IH. intros d' Hd. apply Hl. by right.
Qed.

Lemma deliveries_cons id d l :
  deliveries id (d :: l) = if bool_decide (d.1 = id) then d.2 :: deliveries id l else deliveries id l.
Proof. unfold deliveries. simpl. by case_bool_decide. Qed.

(** Rows change that no claim has locked, workers leave, time passes. *)
Lemma base_update s p f ws now :
  base s -> (forall r, row_id (f r) = row_id r) -> (forall r, job_id (f r) = job_id r) ->
  (forall r, r ∈ table s -> p r = true -> row_id r ∉ claims ws /\ shown r <= shown (f r)) ->
  claims ws `sublist_of` claims (workers s) ->
  base (mkSys (update p f (table s)) (next_id s) ws now (pushed s) (acked s) (log s)).
Proof.
  intros Hb Hid Hjob Hp Hws. pose proof Hb as [H1 H2 H3 H4 H5 H6 H7 H8 H9].
  split; cbn [table next_id workers pushed acked log].
  - by rewrite update_column.
  - apply list.Forall_forall. intros r (r0 & Hr & ->)%elem_of_update.
    destruct (p r0); rewrite ?Hid; by apply (proj1 (list.Forall_forall _ _) H2).
  - done.
  - by rewrite update_column.
  - by eapply sublist_NoDup.
  - intros id Hin. destruct (H6 id) as (r & Hr & Hrid & Hn).
    { by eapply elem_of_sublist. }
    exists r. split; [| done]. apply elem_of_update. exists r. split; [done |].
    destruct (p r) eqn:Hpr; [| done]. destruct (Hp r Hr Hpr) as [Hx _]. by subst id.
  - done.
  - done.
  - intros r (r0 & Hr & ->)%elem_of_update. pose proof (H9 r0 Hr) as H. destruct (p r0) eqn:Hpr; [| done].
    rewrite Hjob. destruct (Hp r0 Hr Hpr) as [_ Hle]. eapply list.Forall_impl; [exact H |]. simpl. lia.
Qed.

Lemma update_none f t : update (fun _ => false) f t = t.
Proof. unfold update. apply map_id. Qed.

Lemma base_shrink s ws now :
  base s -> claims ws `sublist_of` claims (workers s) ->
  base (mkSys (table s) (next_id s) ws now (pushed s) (acked s) (log s)).
Proof.
  intros Hb Hws. rewrite <- (update_none id (table s)). by apply base_update.
Qed.

Lemma claims_remove x ws1 ws2 : claims (ws1 ++ ws2) `sublist_of` claims (ws1 ++ x :: ws2).
Proof. rewrite omap_middle, omap_app. apply sublist_app; [done |]. by apply sublist_inserts_l. Qed.

(** The row a claim selected is still there, and still not reserved. *)
Lemma claimed_row s r :
  base s -> row_id r ∈ claims (workers s) -> r ∈ table s -> reserved_at r = None.
Proof.
  intros Hb Hin Hr. destruct (b_claims _ Hb _ Hin) as (r' & Hr' & Hid & Hn).
  by rewrite <- (key_inj row_id (table s) r' r) by (done || apply Hb).
Qed.

Section Invariants.
Context {E : Type} (w : Worker) (sqlite : bool) (visTout : Duration) (crashes : bool).

Lemma base_push s j t :
  base s -> ID j ∉ pushed s -> insert_job (next_id s) (clock s) j (table s) = Some t ->
  base (mkSys t (next_id s + 1) (workers s) (clock s) (ID j :: pushed s) (acked s) (log s)).
Proof.
  intros [H1 H2 H3 H4 H5 H6 H7 H8 H9] Hnew Hi. unfold insert_job in Hi.
  case_bool_decide as Hin; [done |]. injection Hi as <-.
  assert (Hlog : deliveries (ID j) (log s) = []).
  { apply unknown_deliveries. intros d Hd Heq. apply Hnew. rewrite <- Heq. by apply H8. }
  split; cbn [table next_id workers pushed acked log]; rewrite ?map_app.
  - apply list.NoDup_app. simpl. split_and!; [done | | apply NoDup_singleton].
    intros x (r & -> & Hr)%list_elem_of_fmap. apply (proj1 (list.Forall_forall _ _) H2) in Hr.
    rewrite list_elem_of_singleton. lia.
  - apply list.Forall_app. split; [| constructor; [simpl; lia | constructor]].
    eapply list.Forall_impl; [exact H2 |]. simpl. lia.
  - by apply list.NoDup_cons.
  - simpl. rewrite H4, <- app_assoc. simpl. by rewrite Permutation_middle.
  - done.
  - intros id Hid. destruct (H6 id Hid) as (r & Hr & Hx). exists r. split; [| done]. apply elem_of_app. by left.
  - done.
  - intros d Hd. right. by apply H8.
  - intros r [Hr| ->%list_elem_of_singleton]%elem_of_app; [by apply H9 |].
    simpl. rewrite Hlog. constructor.
Qed.

Lemma base_delete s id ws1 ws2 x :
  base s -> workers s = ws1 ++ x :: ws2 -> writable sqlite s id ->
  base (mkSys (delete_job id (table s)) (next_id s) (ws1 ++ ws2) (clock s) (pushed s)
          (if bool_decide (id ∈ map job_id (table s)) then id :: acked s else acked s) (log s)).
Proof.
  intros Hb Hws Hwr. pose proof (b_jobs _ Hb) as Hjobs. destruct Hb as [H1 H2 H3 H4 H5 H6 H7 H8 H9].
  pose proof (claims_remove x ws1 ws2) as Hsub. rewrite <- Hws in Hsub.
  assert (Htab : delete_job id (table s) `sublist_of` table s).
  { unfold delete_job. clear. induction (table s) as [|r t IH]; [done |]. simpl. destruct (negb _); by constructor. }
  split; cbn [table next_id workers pushed acked log].
  - eapply sublist_NoDup; [exact H1 |]. by apply fmap_sublist.
  - apply list.Forall_forall. intros r [Hr _]%elem_of_delete. by apply (proj1 (list.Forall_forall _ _) H2).
  - done.
  - rewrite H4, delete_job_column. case_bool_decide as Hin.
    + rewrite (delete_id_perm id (map job_id (table s))) at 1 by done. simpl. by rewrite Permutation_middle.
    + by rewrite delete_id_absent.
  - by eapply sublist_NoDup.
  - intros i Hi. assert (Hi' : i ∈ claims (workers s)) by by eapply elem_of_sublist.
    destruct (H6 i Hi') as (r & Hr & Hid & Hn). exists r. split; [| done].
    apply elem_of_delete. split; [done |]. intros Hj. specialize (Hwr r Hr Hj).
    apply free_not_locked in Hwr. by subst i.
  - done.
  - done.
  - intros r [Hr _]%elem_of_delete. by apply H9.
Qed.

Lemma base_select s now r fr :
  base s -> is_next fr now r (table s) = true -> (fr r = true -> row_id r ∉ claims (workers s)) ->
  base (mkSys (table s) (next_id s) (WClaim (row_id r) now :: workers s) (clock s) (pushed s) (acked s) (log s)).
Proof.
  intros [H1 H2 H3 H4 H5 H6 H7 H8 H9] (Hr & Hn & _ & Hf & _)%is_next_spec Hfree.
  split; try done; cbn [table next_id workers pushed acked log].
  - simpl. apply list.NoDup_cons. auto.
  - simpl. intros id [->|Hid]%elem_of_cons; [by exists r | by apply H6].
Qed.

Lemma base_commit s r now ws1 ws2 :
  base s -> workers s = ws1 ++ WClaim (row_id r) now :: ws2 -> r ∈ table s ->
  base (mkSys (reserve now (row_id r) (table s)) (next_id s) (ws1 ++ WHeld (job_of r) now :: ws2) (clock s)
          (pushed s) (acked s) ((job_id r, attempts r) :: log s)).
Proof.
  intros Hb Hws Hr. pose proof (b_jobs _ Hb) as Hjobs.
  assert (Hcl : claims (ws1 ++ WHeld (job_of r) now :: ws2) = claims (ws1 ++ ws2)) by by rewrite !omap_app.
  assert (Hlocks : row_id r ∈ claims (workers s) /\ row_id r ∉ claims (ws1 ++ ws2)).
  { pose proof (b_locks _ Hb) as Hd. rewrite Hws, omap_middle in *. simpl in *.
    rewrite <- Permutation_middle in Hd.
    apply list.NoDup_cons in Hd as [Hx _]. rewrite omap_app. split; [set_solver | done]. }
  destruct Hlocks as [Hin Hout]. pose proof (claimed_row s r Hb Hin Hr) as Hn.
  assert (Hb' : base (mkSys (reserve now (row_id r) (table s)) (next_id s)
                        (ws1 ++ WHeld (job_of r) now :: ws2) (clock s) (pushed s) (acked s) (log s))).
  { apply (base_update s (fun r' => row_id r' =? row_id r) (set_reserved now)); try done.
    - intros r' Hr' Heq%Z.eqb_eq. rewrite Hcl, Heq. split; [done |].
      rewrite (key_inj row_id (table s) r' r) by (done || apply Hb). unfold shown. rewrite Hn. simpl. lia.
    - rewrite Hcl, Hws. apply claims_remove. }
  destruct Hb' as [G1 G2 G3 G4 G5 G6 G7 G8 G9]. cbn [table next_id workers pushed acked log] in *.
  pose proof (b_shown _ Hb r Hr) as Hold. unfold shown in Hold. rewrite Hn in Hold. simpl in Hold.
  split; cbn [table next_id workers pushed acked log]; try done.
  - intros id. rewrite deliveries_cons. simpl. case_bool_decide as Hid; [| done]. subst id.
    constructor; [done |]. eapply list.Forall_impl; [exact Hold |]. simpl. lia.
  - intros d [->|Hd]%elem_of_cons; [| by apply G8]. simpl. rewrite (b_places _ Hb).
    apply elem_of_app. left. by apply list_elem_of_fmap_2.
  - intros r' Hr'. rewrite deliveries_cons. simpl. case_bool_decide as Hid; [| by apply G9].
    constructor; [| by apply G9]. apply elem_of_update in Hr' as (r0 & Hr0 & ->).
    assert (r0 = r) as ->. { apply (key_inj job_id (table s)); try done. by destruct (row_id r0 =? row_id r). }
    rewrite Z.eqb_refl. unfold shown. simpl. lia.
Qed.

Notation step := (@step E w sqlite visTout crashes).
Notation prompt_step := (@prompt_step E w sqlite visTout crashes).

Lemma base_step s s' : base s -> step s s' -> base s'.
Proof.
  intros Hb Hstep. destruct Hstep as [s d _|s j t Hnew _ _ Hi|s cutoff _ Hlk|s now r _ Hr
    |s id now ws1 ws2 Hws|s r now ws1 ws2 Hws Hr|s j a o ws1 ws2 Hws _ Hwr|s j a o d now ws1 ws2 Hws _ Hwr _|s x ws1 ws2 _ Hws].
  - by apply base_shrink.
  - by eapply base_push.
  - apply base_update; [done | done | done | | done]. intros r Hr Ho.
    assert (Hres : reserved_at r <> None) by (unfold orphaned in Ho; by destruct (reserved_at r)).
    split; [intros Hin; by apply Hres, (claimed_row s) |].
    unfold shown. simpl. rewrite bool_decide_false by done. lia.
  - apply (base_select s now r (free sqlite (workers s))); [done | done |]. apply free_not_locked.
  - apply base_shrink; [done |]. rewrite Hws. apply claims_remove.
  - by apply base_commit.
  - by eapply base_delete.
  - pose proof (claims_remove (WHeld j a) ws1 ws2) as Hsub. rewrite <- Hws in Hsub.
    apply (base_update s (fun r => bool_decide (job_id r = ID j)) (set_free (nack_at now d))); try done.
    intros r Hr Hj%bool_decide_eq_true. specialize (Hwr r Hr Hj). apply free_not_locked in Hwr.
    split; [intros Hin; apply Hwr; by eapply elem_of_sublist |].
    unfold shown. simpl. case_bool_decide; lia.
  - apply base_shrink; [done |]. rewrite Hws. apply claims_remove.
Qed.

Lemma base_initial now : base (initial now).
Proof.
  split; simpl; try done; try constructor.
  all: by intros ? ?%elem_of_nil.
Qed.

(** *** One worker per job *)

Definition held_ok (t : list row) (ws : list worker) : Prop :=
  forall j at_, WHeld j at_ ∈ ws -> exists r, r ∈ t /\ reserved_at r = Some at_ /\ job_of r = j.

Notation held ws := (omap held_of ws).

(** Rows of jobs nobody holds change. *)
Lemma held_update p f t ws :
  held_ok t ws -> (forall r, r ∈ t -> p r = true -> reserved_at r <> None -> job_id r ∉ held ws) ->
  held_ok (update p f t) ws.
Proof.
  intros Hh Hp j a Hin. destruct (Hh j a Hin) as (r & Hr & Ha & Hj). exists r. split; [| done].
  apply elem_of_update. exists r. split; [done |]. destruct (p r) eqn:Hpr; [| done].
  exfalso. apply (Hp r Hr Hpr); [congruence |]. apply list_elem_of_omap. exists (WHeld j a). split; [done |].
  simpl. by rewrite <- Hj.
Qed.

Lemma held_subset t ws ws' : held_ok t ws -> (forall x, x ∈ ws' -> x ∈ ws) -> held_ok t ws'.
Proof. intros Hh Hs j a Hin. by apply Hh, Hs. Qed.

Lemma remove_subset {A} (x : A) ws1 ws2 y : y ∈ ws1 ++ ws2 -> y ∈ ws1 ++ x :: ws2.
Proof. rewrite !elem_of_app, elem_of_cons. tauto. Qed.

Lemma held_remove x ws1 ws2 :
  NoDup (held (ws1 ++ x :: ws2)) ->
  NoDup (held (ws1 ++ ws2)) /\ forall id, held_of x = Some id -> id ∉ held (ws1 ++ ws2).
Proof.
  rewrite omap_middle, omap_app. destruct (held_of x) as [i|]; simpl; [| by split].
  rewrite <- Permutation_middle, list.NoDup_cons. intros [Hi Hd]. split; [done | by intros id [= <-]].
Qed.

Record exclusive (s : sys) : Prop := {
  e_base : base s;
  e_prompt : prompt visTout s;
  e_held : held_ok (table s) (workers s);
  e_distinct : NoDup (held (workers s)) }.

(** A row somebody holds is not an orphan. *)
Lemma held_not_orphaned s r cutoff :
  exclusive s -> r ∈ table s -> cutoff <= clock s - visTout -> job_id r ∈ held (workers s) ->
  orphaned cutoff r = false.
Proof.
  intros [Hb Hp Hh _] Hr Hcut (x & Hx & Hid)%list_elem_of_omap. destruct x as [|j a]; [done |].
  injection Hid as Hid. destruct (Hh j a Hx) as (r' & Hr' & Ha & Hj).
  assert (r' = r) as ->. { apply (key_inj job_id (table s)); try done; [by apply b_jobs |]. by rewrite <- Hid, <- Hj. }
  unfold orphaned, Before. rewrite Ha. apply (proj1 (list.Forall_forall _ _) Hp) in Hx. simpl in Hx.
  apply Z.ltb_ge. lia.
Qed.

Lemma exclusive_commit s r now ws1 ws2 :
  exclusive s -> workers s = ws1 ++ WClaim (row_id r) now :: ws2 -> r ∈ table s ->
  held_ok (reserve now (row_id r) (table s)) (ws1 ++ WHeld (job_of r) now :: ws2)
  /\ NoDup (held (ws1 ++ WHeld (job_of r) now :: ws2)).
Proof.
  intros [Hb Hp Hh Hd] Hws Hr.
  assert (Hn : reserved_at r = None).
  { apply (claimed_row s); [done | | done]. rewrite Hws, omap_middle. simpl. set_solver. }
  assert (Hh' : held_ok (table s) (ws1 ++ ws2)).
  { eapply held_subset; [exact Hh |]. rewrite Hws. apply remove_subset. }
  assert (Hnot : job_id r ∉ held (ws1 ++ ws2)).
  { intros (x & Hx & Hid)%list_elem_of_omap. destruct x as [|j a]; [done |]. injection Hid as Hid.
    destruct (Hh' j a Hx) as (r' & Hr' & Ha & Hj).
    assert (r' = r) as ->; [| congruence].
    apply (key_inj job_id (table s)); try done; [by apply b_jobs |]. by rewrite <- Hid, <- Hj. }
  split.
  - assert (Hu : held_ok (reserve now (row_id r) (table s)) (ws1 ++ ws2)).
    { apply (held_update (fun r' => row_id r' =? row_id r) (set_reserved now)); [done |].
      intros r' Hr' Heq%Z.eqb_eq Hres. destruct Hres.
      by rewrite (key_inj row_id (table s) r' r) by (done || apply Hb). }
    intros j a Hin. apply elem_of_app in Hin as [Hin|[Heq|Hin]%elem_of_cons].
    + apply Hu, elem_of_app. by left.
    + injection Heq as -> ->. exists (set_reserved now r). split_and!; [| done | done].
      apply elem_of_update. exists r. by rewrite Z.eqb_refl.
    + apply Hu, elem_of_app. by right.
  - rewrite Hws, omap_middle in Hd. rewrite omap_middle. simpl in *. rewrite <- Permutation_middle.
    apply list.NoDup_cons. split; [by rewrite <- omap_app | done].
Qed.

Lemma exclusive_step s s' : exclusive s -> prompt_step s s' -> exclusive s'.
Proof.
  intros He [Hstep Hp']. pose proof (base_step s s' (e_base _ He) Hstep) as Hb'.
  assert (Hx : held_ok (table s') (workers s') /\ NoDup (held (workers s'))); [| by split; try apply Hx].
  clear Hb' Hp'. destruct Hstep as [s d _|s j t Hnew _ _ Hi|s cutoff Hcut _|s now r _ _
    |s id now ws1 ws2 Hws|s r now ws1 ws2 Hws Hr|s j a o ws1 ws2 Hws _ Hwr|s j a o d now ws1 ws2 Hws _ Hwr _|s x ws1 ws2 _ Hws];
    cbn [table workers]; try (by split; apply He); pose proof (e_held _ He) as Hh; pose proof (e_distinct _ He) as Hd.
  - split; [| done]. unfold insert_job in Hi. case_bool_decide; [done |]. injection Hi as <-.
    intros j' a Hin. destruct (Hh j' a Hin) as (r & Hr & Hx). exists r. split; [| done]. apply elem_of_app. by left.
  - split; [| done]. apply held_update; [done |]. intros r Hr Ho _ Hin.
    by rewrite (held_not_orphaned s r cutoff) in Ho.
  - split; [| done]. intros j a [Hin|Hin]%elem_of_cons; [done | by apply Hh].
  - rewrite Hws in Hh, Hd. split; [| by apply held_remove in Hd as [Hd _]]. eapply held_subset; [exact Hh |]. apply remove_subset.
  - by apply exclusive_commit.
  - rewrite Hws in Hh, Hd. apply held_remove in Hd as [Hd Hout]. split; [| done].
    intros j' a' Hin. destruct (Hh j' a') as (r & Hr & Ha & Hj); [by apply remove_subset |].
    exists r. split_and!; [| done | done]. apply elem_of_delete. split; [done |]. intros Hid.
    apply (Hout (ID j) eq_refl), list_elem_of_omap. exists (WHeld j' a'). split; [done |]. simpl. by rewrite <- Hid, <- Hj.
  - rewrite Hws in Hh, Hd. apply held_remove in Hd as [Hd Hout]. split; [| done].
    apply held_update; [eapply held_subset; [exact Hh |]; apply remove_subset |].
    intros r Hr Hid%bool_decide_eq_true _. rewrite Hid. by apply Hout.
  - rewrite Hws in Hh, Hd. split; [| by apply held_remove in Hd as [Hd _]]. eapply held_subset; [exact Hh |]. apply remove_subset.
Qed.

(** *** Retries *)

Record bounded (s : sys) : Prop := {
  k_exclusive : exclusive s;
  k_rows : forall r, r ∈ table s -> reserved_at r <> None -> job_id r ∈ held (workers s);
  k_attempts : forall r, r ∈ table s -> 0 <= attempts r < most w;
  k_log : forall d, d ∈ log s -> 0 <= d.2 < most w }.

Lemma decide_nack j o d : (decide_job (E := E) w j o).2 = VNack d -> i64 (Attempts j + 1) < maxRetry w.
Proof.
  unfold decide_job. case_bool_decide; [| done]. destruct (invoke o); [| done].
  destruct (Z.leb_spec (maxRetry w) (i64 (Attempts j + 1))); [| done]. by destruct (onFailed w).
Qed.

(** The worker hands a job back only if an attempt is left. *)
Lemma nack_attempt s j a o d ws1 ws2 r :
  bounded s -> maxRetry w <= max_i64 -> workers s = ws1 ++ WHeld j a :: ws2 ->
  (decide_job (E := E) w j o).2 = VNack d -> r ∈ table s -> job_id r = ID j ->
  attempts r + 1 < most w.
Proof.
  intros Hk Hmax Hws Hdec Hr Hid. apply decide_nack in Hdec. pose proof (k_exclusive _ Hk) as He.
  destruct (e_held _ He j a) as (r' & Hr' & _ & Hj); [rewrite Hws; set_solver |].
  assert (r' = r) as ->. { apply (key_inj job_id (table s)); try done; [apply b_jobs, He |]. by rewrite Hid, <- Hj. }
  destruct (k_attempts _ Hk r Hr) as [H0 H1]. rewrite <- Hj in Hdec. cbn [job_of Attempts] in Hdec. unfold most in *.
  destruct (decide (attempts r + 1 <= max_i64)) as [Hle|Hle].
  - rewrite i64_small in Hdec; [lia |]. unfold min_i64, max_i64 in *. lia.
  - unfold max_i64 in *. lia.
Qed.

Lemma bounded_step s s' :
  crashes = false -> maxRetry w <= max_i64 -> bounded s -> prompt_step s s' -> bounded s'.
Proof.
  intros Hcr Hmax Hk Hps. pose proof (k_exclusive _ Hk) as He. pose proof (exclusive_step s s' He Hps) as He'.
  destruct Hps as [Hstep _]. split; [done | | |];
  destruct Hstep as [s d _|s j t Hnew H0 _ Hi|s cutoff Hcut _|s now r _ _
    |s id now ws1 ws2 Hws|s r now ws1 ws2 Hws Hr|s j a o ws1 ws2 Hws _ Hwr|s j a o d now ws1 ws2 Hws Hdec Hwr _|s x ws1 ws2 Hc Hws];
    cbn [table workers log]; try (by apply Hk); try congruence.
  - intros r. unfold insert_job in Hi. case_bool_decide; [done |]. injection Hi as <-.
    intros [Hr| ->%list_elem_of_singleton]%elem_of_app; [by apply Hk | done].
  - intros r (r0 & Hr & ->)%elem_of_update. destruct (orphaned cutoff r0); [done | by apply Hk].
  - intros r Hr Hn. pose proof (k_rows _ Hk r Hr Hn) as Hin. rewrite Hws in Hin.
    rewrite omap_middle in Hin. simpl in Hin. by rewrite omap_app.
  - intros r' (r0 & Hr0 & ->)%elem_of_update Hn. rewrite omap_middle. simpl.
    destruct (Z.eqb_spec (row_id r0) (row_id r)) as [Heq|Hne]; simpl.
    + rewrite (key_inj row_id (table s) r0 r) by (done || apply He). set_solver.
    + pose proof (k_rows _ Hk r0 Hr0 Hn) as Hin. rewrite Hws, omap_middle in Hin. simpl in Hin. set_solver.
  - intros r [Hr Hne]%elem_of_delete Hn. pose proof (k_rows _ Hk r Hr Hn) as Hin. rewrite Hws in Hin.
    rewrite omap_middle in Hin. simpl in Hin. rewrite omap_app. set_solver.
  - intros r (r0 & Hr & ->)%elem_of_update. case_bool_decide as Hj; [done |]. intros Hn.
    pose proof (k_rows _ Hk r0 Hr Hn) as Hin. rewrite Hws, omap_middle in Hin. simpl in Hin. rewrite omap_app. set_solver.
  - intros r. unfold insert_job in Hi. case_bool_decide; [done |]. injection Hi as <-.
    intros [Hr| ->%list_elem_of_singleton]%elem_of_app; [by apply Hk |]. simpl. rewrite H0. unfold most. lia.
  - intros r (r0 & Hr & ->)%elem_of_update. destruct (orphaned cutoff r0) eqn:Ho; [| by apply Hk].
    rewrite (held_not_orphaned s r0 cutoff) in Ho; try done.
    apply (k_rows _ Hk r0 Hr). unfold orphaned in Ho. by destruct (reserved_at r0).
  - intros r' (r0 & Hr0 & ->)%elem_of_update. destruct (_ =? _); by apply (k_attempts _ Hk r0).
  - intros r [Hr _]%elem_of_delete. by apply Hk.
  - intros r (r0 & Hr & ->)%elem_of_update. case_bool_decide as Hj; [| by apply Hk].
    pose proof (nack_attempt s j a o d ws1 ws2 r0 Hk Hmax Hws Hdec Hr Hj). pose proof (k_attempts _ Hk r0 Hr). simpl. lia.
  - intros d [->|Hd]%elem_of_cons; [by apply (k_attempts _ Hk r) | by apply Hk].
Qed.
End Invariants.

(** A decreasing list of natural numbers is no longer than its head. *)
Lemma sorted_length (m : Z) (l : list Z) :
  0 <= m -> StronglySorted Z.gt l -> Forall (fun a => 0 <= a < m) l -> Z.of_nat (length l) <= m.
Proof.
  intros Hm Hs. revert m Hm. induction Hs as [|a l Hs IH Ha]; intros m Hm Hl; [simpl; lia |].
  apply list.Forall_cons in Hl as [Hal Hl].
  assert (Z.of_nat (length l) <= a); [| simpl; lia]. apply IH; [lia |].
  apply list.Forall_forall. intros b Hb.
  pose proof (proj1 (list.Forall_forall _ _) Ha b Hb). pose proof (proj1 (list.Forall_forall _ _) Hl b Hb). simpl in *. lia.
Qed.

Lemma exclusive_initial visTout now : exclusive visTout (initial now).
Proof. split; [apply base_initial | constructor | by intros j a ?%elem_of_nil | constructor]. Qed.

Lemma bounded_initial w visTout now : bounded w visTout (initial now).
Proof. split; [apply exclusive_initial | | |]; by intros ? ?%elem_of_nil. Qed.

Lemma elem_of_deliveries id a l : a ∈ deliveries id l -> (id, a) ∈ l.
Proof.
  unfold deliveries. intros ([i b] & -> & Hin)%list_elem_of_fmap.
  apply list_elem_of_In, filter_In in Hin as [Hin Hi%bool_decide_eq_true]. simpl in *. subst. by apply list_elem_of_In.
Qed.

(** ** Theorems *)

(** C9: No job is lost and none is duplicated, however claims, acknowledgements,
    recoveries and deaths of workers interleave: the ids pushed are the ids of
    the rows together with the ids acknowledged.  Each delivery of a job shows
    more attempts than every delivery before it. *)
Theorem sql_jobs_kept {E} (w : Worker) (sqlite : bool) (visTout : Duration) (crashes : bool) (now : Time) (s : sys) :
  rtc (@step E w sqlite visTout crashes) (initial now) s ->
  pushed s ≡ₚ map job_id (table s) ++ acked s /\ NoDup (map job_id (table s) ++ acked s)
  /\ forall id, StronglySorted Z.gt (deliveries id (log s)).
Proof.
  intros Hs. assert (Hb : base s).
  { revert Hs. apply rtc_invariant; [apply base_initial |]. intros s1 s2. apply base_step. }
  split_and!; [apply Hb | | apply Hb]. rewrite <- (b_places _ Hb). apply Hb.
Qed.

(** As long as no worker keeps a job longer than the visibility timeout, a
    job is in the hands of one worker at a time, and nothing but that worker's
    own statement changes its row. *)
Theorem one_worker_per_job {E} (w : Worker) (sqlite : bool) (visTout : Duration) (crashes : bool) (now : Time) (s : sys) :
  rtc (@prompt_step E w sqlite visTout crashes) (initial now) s ->
  NoDup (omap held_of (workers s))
  /\ forall j at_, WHeld j at_ ∈ workers s -> exists r, r ∈ table s /\ reserved_at r = Some at_ /\ job_of r = j.
Proof.
  intros Hs. assert (He : exclusive visTout s); [| by split; apply He].
  revert Hs. apply rtc_invariant; [apply exclusive_initial |]. intros s1 s2. apply exclusive_step.
Qed.

(** If moreover no worker dies, a job is delivered at most [MaxRetry] times
    (once if [MaxRetry] is below one). *)
Theorem sql_deliveries_bounded {E} (w : Worker) (sqlite : bool) (visTout : Duration) (now : Time) (s : sys) (id : string) :
  maxRetry w <= max_i64 ->
  rtc (@prompt_step E w sqlite visTout false) (initial now) s ->
  Z.of_nat (length (deliveries id (log s))) <= Z.max 1 (maxRetry w).
Proof.
  intros Hmax Hs. assert (Hk : bounded w visTout s).
  { revert Hs. apply rtc_invariant; [apply bounded_initial |]. intros s1 s2. by apply bounded_step. }
  apply sorted_length; [lia | apply Hk |]. apply list.Forall_forall. intros a Ha.
  apply (k_log _ _ _ Hk (id, a)). by apply elem_of_deliveries.
Qed.

(** One job in the table, delivered to a worker that dies. *)
Section Crashing.
Context {E : Type} (w : Worker) (sqlite : bool) (visTout : Duration) (Hvis : 0 <= visTout).

Notation prompt_step := (@prompt_step E w sqlite visTout true).

Definition lone_row (k : Z) (res : option Time) : row := mkRow 1 "j" "mail" "" k 0 res.
Definition lone (r : row) (ws : list worker) (c : Time) (l : list (string * Z)) : sys :=
  mkSys [r] 2 ws c ["j"%string] [] l.

Lemma deliver_lone k c l : 0 <= c ->
  rtc prompt_step (lone (lone_row k None) [] c l)
    (lone (lone_row k (Some c)) [WHeld (job_of (lone_row k None)) c] c (("j"%string, k) :: l)).
Proof.
  intros Hc.
  assert (Hr : is_next (free sqlite []) c (lone_row k None) [lone_row k None] = true).
  { apply is_next_spec. split_and!; simpl; [set_solver | done | done | by destruct sqlite |].
    intros r' ->%list_elem_of_singleton _ _ _. simpl. lia. }
  eapply rtc_l; [split; [apply (q_select w sqlite visTout true _ c (lone_row k None)); [done | exact Hr] |] |].
  { constructor; [simpl; lia | constructor]. }
  apply rtc_once. split.
  - by apply (q_commit w sqlite visTout true
      (lone (lone_row k None) [WClaim 1 c] c l) (lone_row k None) c [] []); [| set_solver].
  - constructor; [simpl; lia | constructor].
Qed.

Lemma redeliver_lone k c j l : 0 <= c ->
  rtc prompt_step (lone (lone_row k (Some c)) [WHeld j c] c l)
    (lone (lone_row (k + 1) None) [] (c + (visTout + 1)) l).
Proof.
  intros Hc.
  eapply rtc_l; [split; [by apply (q_die w sqlite visTout true _ (WHeld j c) [] []) | constructor] |].
  eapply rtc_l; [split; [apply (q_tick w sqlite visTout true _ (visTout + 1)); lia | constructor] |].
  apply rtc_once. split; [| constructor].
  pose proof (q_recover (E := E) w sqlite visTout true (lone (lone_row k (Some c)) [] (c + (visTout + 1)) l) (c + 1)) as Hrec.
  assert (Hrow : recover (c + 1) [lone_row k (Some c)] = [lone_row (k + 1) None]).
  { unfold recover, orphaned, Before. simpl. destruct (Z.ltb_spec c (c + 1)); [done | lia]. }
  cbn [table lone] in Hrec. rewrite Hrow in Hrec. apply Hrec; [simpl; lia | done].
Qed.
End Crashing.

(** A worker that dies is not a failed attempt: [MaxRetry] is read only after
    the handler returned, so a job that kills its worker is delivered without
    bound, whatever [MaxRetry] is. *)
Theorem crashing_job_unbounded {E} (w : Worker) (sqlite : bool) (visTout : Duration) (n : nat) :
  0 <= visTout ->
  exists s, rtc (@prompt_step E w sqlite visTout true) (initial 0) s /\ length (deliveries "j" (log s)) = S n.
Proof.
  intros Hvis.
  assert (Hn : exists c k l, 0 <= c /\ length (deliveries "j" l) = n
     /\ rtc (@prompt_step E w sqlite visTout true) (initial 0) (lone (lone_row k None) [] c l)).
  { induction n as [|n (c & k & l & Hc & Hl & Hrun)].
    - exists 0, 0, []. split_and!; [done | done |]. apply rtc_once. split; [| constructor].
      by apply (q_push w sqlite visTout true (initial 0) (mkJob "j" "mail" "" 0 0) [lone_row 0 None]);
        [apply not_elem_of_nil | | |].
    - exists (c + (visTout + 1)), (k + 1), (("j"%string, k) :: l).
      split_and!; [lia | rewrite deliveries_cons; simpl; by rewrite Hl |].
      etrans; [exact Hrun |]. etrans; [by apply deliver_lone |]. by apply redeliver_lone. }
  destruct Hn as (c & k & l & Hc & Hl & Hrun). eexists. split.
  - etrans; [exact Hrun |]. by apply deliver_lone.
  - cbn [log lone]. rewrite deliveries_cons. simpl. by rewrite Hl.
Qed.

(** A worker that outlives the visibility timeout takes the next worker's
    reservation away when it hands the job back: [Nack] and [Ack] name the job,
    not the reservation.  Here nobody dies, the job is recovered from the first
    worker, whose late [Nack] then releases it under the second: two workers hold
    it, each within the timeout. *)
Theorem late_nack_releases_another (sqlite : bool) :
  exists s j1 j2 at1 at2,
    rtc (@step string (mkWorker {[ "mail" ]} 3 0 false) sqlite 10 false) (initial 0) s
    /\ workers s = [WHeld j1 at1; WHeld j2 at2] /\ ID j1 = ID j2
    /\ clock s - at1 <= 10 /\ clock s - at2 <= 10.
Proof.
  set (w := mkWorker {[ "mail"%string ]} 3 0 false).
  set (r := fun k res => mkRow 1 "j" "mail" "" k 0 res).
  assert (Hsel : forall ws c k, omap claim_of ws = [] -> 0 <= c ->
    is_next (free sqlite ws) c (r k None) [r k None] = true).
  { intros ws c k Hws Hc. apply is_next_spec. split_and!; simpl; [set_solver | done | done | |].
    - unfold free. rewrite Hws. by destruct sqlite.
    - intros r' ->%list_elem_of_singleton _ _ _. simpl. lia. }
  exists (mkSys [r 2 (Some 11)] 2 [WHeld (job_of (r 2 None)) 11; WHeld (job_of (r 1 None)) 11] 11 ["j"%string] []
            [("j"%string, 2); ("j"%string, 1); ("j"%string, 0)]), (job_of (r 2 None)), (job_of (r 1 None)), 11, 11.
  split_and!; [| done | done | simpl; lia | simpl; lia].
  set (st := fun k res ws c l => mkSys [r k res] 2 ws c ["j"%string] [] l).
  set (h := fun k t => WHeld (job_of (r k None)) t). set (d := fun k : Z => ("j"%string, k)).
  assert (Hclaim : forall k c ws l, omap claim_of ws = [] -> 0 <= c ->
    rtc (@step string w sqlite 10 false) (st k None ws c l) (st k (Some c) (h k c :: ws) c (d k :: l))).
  { intros k c ws l Hws Hc. eapply rtc_l; [apply (q_select w sqlite 10 false _ c (r k None)); [done | by apply Hsel] |].
    apply rtc_once. by apply (q_commit w sqlite 10 false (st k None (WClaim 1 c :: ws) c l) (r k None) c [] ws); [| set_solver]. }
  assert (Hnack : @step string w sqlite 10 false (st 1 (Some 11) [h 1 11; h 0 0] 11 [d 1; d 0]) (st 2 None [h 1 11] 11 [d 1; d 0])).
  { pose proof (q_nack w sqlite 10 false (st 1 (Some 11) [h 1 11; h 0 0] 11 [d 1; d 0]) (job_of (r 0 None)) 0
      (Return tt (Some "err"%string)) 0 0 [h 1 11] []) as Hn.
    apply Hn; [done | vm_compute; reflexivity | | done]. intros x Hx _. unfold free. simpl. by destruct sqlite. }
  eapply (rtc_l _ _ (st 0 None [] 0 [])).
  { by apply (q_push w sqlite 10 false (initial 0) (mkJob "j" "mail" "" 0 0) [r 0 None]); [apply not_elem_of_nil | | |]. }
  etrans; [by apply Hclaim |].
  eapply (rtc_l _ _ (st 0 (Some 0) [h 0 0] 11 [d 0])); [by apply (q_tick w sqlite 10 false (st 0 (Some 0) [h 0 0] 0 [d 0]) 11) |].
  eapply (rtc_l _ _ (st 1 None [h 0 0] 11 [d 0])).
  { by apply (q_recover w sqlite 10 false (st 0 (Some 0) [h 0 0] 11 [d 0]) 1). }
  etrans; [by apply Hclaim |]. eapply rtc_l; [exact Hnack |]. by apply Hclaim.
Qed.

(** *** The loops end *)

(** The waits between the attempts. *)
Definition backoffs : list Duration := map (fun ms => ms * Millisecond) [2; 4; 8; 16; 32; 64; 64].

Lemma backoffs_next n b b' :
  backoffs !! n = Some b -> backoffs !! S n = Some b' -> next_backoff b = b'.
Proof.
  do 7 (destruct n as [|n]; [intros H H'; vm_compute in H, H'; by simplify_eq |]).
  intros H. vm_compute in H. by destruct n.
Qed.

Lemma busy_loop_spec {E A} (again : E -> bool) (ts : list (try E A)) attempt b :
  (attempt < maxAttempts)%nat -> (maxAttempts <= attempt + length ts)%nat ->
  (attempt = 7%nat \/ backoffs !! attempt = Some b) ->
  exists r k t, retry_loop again attempt b ts = Some (r, take k (drop attempt backoffs))
    /\ ts !! k = Some t /\ (attempt + k < maxAttempts)%nat
    /\ (forall i t', (i < k)%nat -> ts !! i = Some t' -> ctx_done t' = None /\ exists e, tried t' = Err e /\ again e = true)
    /\ (r = tried t /\ (forall e, tried t = Err e -> again e = false \/ (attempt + k)%nat = 7%nat)
        \/ exists e c, tried t = Err e /\ again e = true /\ ctx_done t = Some c /\ r = Err c).
Proof.
  revert attempt b. induction ts as [|t ts IH]; intros attempt b Hlt Hlen Hb; [unfold maxAttempts in *; simpl in *; lia |].
  cbn [retry_loop]. destruct (tried t) as [a|e] eqn:Ht.
  { exists (Ok a), 0%nat, t. split_and!; [done | done | lia | lia |]. left. rewrite Ht. by split. }
  destruct (again e) eqn:Ha; cbn [negb orb].
  2:{ exists (Err e), 0%nat, t. split_and!; [done | done | lia | lia |]. left. rewrite Ht. split; [done |]. intros e' [= <-]. by left. }
  destruct (Nat.leb_spec (maxAttempts - 1) attempt) as [H7|H7].
  { exists (Err e), 0%nat, t. split_and!; [done | done | lia | lia |]. left. rewrite Ht. split; [done |].
    intros e0 _. right. unfold maxAttempts in *. lia. }
  destruct (ctx_done t) as [c|] eqn:Hc.
  { exists (Err c), 0%nat, t. split_and!; [done | done | lia | lia |]. right. by exists e, c. }
  destruct Hb as [Hb|Hb]; [unfold maxAttempts in *; lia |].
  destruct (IH (S attempt) (next_backoff b)) as (r & k & t' & Hr & Hk & Hlim & Hall & Hres).
  - unfold maxAttempts in *. lia.
  - simpl in Hlen. lia.
  - destruct (decide (S attempt = 7%nat)) as [|Hne]; [by left | right].
    destruct (backoffs !! S attempt) as [b'|] eqn:Hb'; [by rewrite (backoffs_next attempt b b') |].
    apply lookup_ge_None in Hb'. unfold maxAttempts in *. simpl in Hb'. lia.
  - rewrite Hr. exists r, (S k), t'. split_and!; [| done | lia | |].
    + by rewrite (drop_S _ _ _ Hb).
    + intros [|i] t'' Hi; [intros [= <-]; split; [done | by exists e] | apply Hall; lia].
    + replace (attempt + S k)%nat with (S attempt + k)%nat by lia. done.
Qed.

(** A statement is tried at most eight times, with fixed waits of at most 190ms in
    all; it is tried again only after a busy error, and the error that is
    returned is that of the last try or of the context. *)
Theorem execRetry_ends (ToLower : string -> string) (sqlite : bool) (ts : list (try string unit)) :
  (8 <= length ts)%nat ->
  exists r k t, execRetry ToLower sqlite ts = Some (r, take k backoffs) /\ ts !! k = Some t /\ (k < 8)%nat
    /\ (forall i t', (i < k)%nat -> ts !! i = Some t' ->
          ctx_done t' = None /\ exists e, tried t' = Err e /\ sqlite && isBusy ToLower e = true)
    /\ (r = tried t /\ (forall e, tried t = Err e -> sqlite && isBusy ToLower e = false \/ k = 7%nat)
        \/ exists e c, tried t = Err e /\ sqlite && isBusy ToLower e = true /\ ctx_done t = Some c /\ r = Err c).
Proof.
  intros Hlen. apply (busy_loop_spec _ ts 0 (2 * Millisecond)); [unfold maxAttempts; lia | unfold maxAttempts; lia | by right].
Qed.

(** The clock advances by at least what was slept. *)
Fixpoint slept_through (deadline : Time) (rs : list pop_round) : Prop :=
  match rs with
  | r :: (r' :: _) as rs' => until r + Z.min (100 * Millisecond) (deadline - until r) <= until r' /\ slept_through deadline rs'
  | _ => True
  end.

Lemma pop_loop_ends deadline rs n r0 :
  slept_through deadline (r0 :: rs) -> deadline - until r0 <= 100 * Millisecond * Z.of_nat n ->
  (n <= length rs)%nat -> is_Some (pop_loop deadline (r0 :: rs)).
Proof.
  revert rs r0. induction n as [|n IH]; intros rs r0 Hs Hd Hlen.
  - assert (Hz : time_Sub deadline (until r0) <=? 0 = true).
    { unfold time_Sub, min_i64, max_i64. apply Z.leb_le. lia. }
    cbn [pop_loop]. rewrite Hz. destruct (reserved r0) as [j|[e|]]; eauto.
  - destruct rs as [|r1 rs]; [simpl in Hlen; lia |]. destruct Hs as [Hstep Hs].
    assert (Hnext : is_Some (pop_loop deadline (r1 :: rs))).
    { apply IH; [done | unfold Millisecond in *; lia | simpl in Hlen; lia]. }
    destruct Hnext as [[res sleeps] Hnext]. remember (r1 :: rs) as rest. clear Heqrest.
    cbn [pop_loop]. rewrite Hnext. destruct (reserved r0) as [j|[e|]]; eauto.
    destruct (_ <=? 0), (cancelled r0); eauto.
Qed.

(** [Pop] returns after at most one round per started 100ms of its wait. *)
Theorem sql_Pop_ends (now : Time) (wait : Duration) (rs : list pop_round) (r0 : pop_round) :
  slept_through (time_Add now wait) (r0 :: rs) -> now <= until r0 -> wait <= 100 * Millisecond * Z.of_nat (length rs) ->
  is_Some (Pop now wait (r0 :: rs)).
Proof. intros Hs Hn Hw. apply (pop_loop_ends _ _ (length rs)); [done | unfold time_Add; lia | done]. Qed.

(** *** Witnesses *)

Definition sample_mailer : Worker := mkWorker {[ "mail"%string ]} 2 0 true.

(** A job that is pushed, claimed and acknowledged. *)
Definition sample_start : sys := initial 5.
Definition sample_claimed : sys :=
  mkSys [mkRow 1 "j" "mail" "" 0 5 (Some 5)] 2 [WHeld (mkJob "j" "mail" "" 0 0) 5] 5 ["j"%string] [] [("j"%string, 0)].

Lemma sample_run : rtc (@prompt_step string sample_mailer true 900 false) sample_start sample_claimed.
Proof.
  set (r := mkRow 1 "j" "mail" "" 0 5 None).
  set (s := fun ws => mkSys [r] 2 ws 5 ["j"%string] [] []).
  eapply (rtc_l _ _ (s [])).
  { split; [| constructor].
    by apply (q_push sample_mailer true 900 false sample_start (mkJob "j" "mail" "" 0 0) [r]); [apply not_elem_of_nil | | |]. }
  eapply (rtc_l _ _ (s [WClaim 1 5])).
  { split; [by apply (q_select sample_mailer true 900 false (s []) 5 r) | by repeat constructor]. }
  apply rtc_once. split; [| by repeat constructor].
  by apply (q_commit sample_mailer true 900 false (s [WClaim 1 5]) r 5 [] []); [| set_solver].
Defined.

Lemma sample_run_steps : rtc (@step string sample_mailer true 900 false) sample_start sample_claimed.
Proof. eapply rtc_subrel; [| exact sample_run]. by intros s s' [H _]. Defined.

Lemma sql_jobs_kept_witness :
  pushed sample_claimed ≡ₚ map job_id (table sample_claimed) ++ acked sample_claimed
  /\ NoDup (map job_id (table sample_claimed) ++ acked sample_claimed)
  /\ forall id, StronglySorted Z.gt (deliveries id (log sample_claimed)).
Proof. exact (sql_jobs_kept sample_mailer true 900 false 5 sample_claimed sample_run_steps). Defined.

Lemma one_worker_per_job_witness :
  NoDup (omap held_of (workers sample_claimed))
  /\ forall j at_, WHeld j at_ ∈ workers sample_claimed ->
       exists r, r ∈ table sample_claimed /\ reserved_at r = Some at_ /\ job_of r = j.
Proof. exact (one_worker_per_job sample_mailer true 900 false 5 sample_claimed sample_run). Defined.

Lemma sql_deliveries_bounded_witness : Z.of_nat (length (deliveries "j" (log sample_claimed))) <= Z.max 1 2.
Proof. exact (sql_deliveries_bounded sample_mailer true 900 5 sample_claimed "j" ltac:(vm_compute; discriminate) sample_run). Defined.

Lemma execRetry_ends_witness :
  exists r k t, execRetry (fun s => s) true (repeat (mkTry (Err "database is locked"%string) None) 8)
      = Some (r, take k backoffs)
    /\ repeat (@mkTry string unit (Err "database is locked"%string) None) 8 !! k = Some t /\ (k < 8)%nat.
Proof.
  destruct (execRetry_ends (fun s => s) true (repeat (mkTry (Err "database is locked"%string) None) 8)) as (r & k & t & H1 & H2 & H3 & _); [done |].
  by exists r, k, t.
Defined.

Lemma sql_Pop_ends_witness : is_Some (Pop 0 1 [mkRound (Err None) 0 None; mkRound (Err None) 1 None]).
Proof. apply (sql_Pop_ends 0 1 [mkRound (Err None) 1 None]); vm_compute; intuition discriminate. Defined.
