(* ===== verification/Realtime.v ===== *)
(** The realtime hub: [src/realtime/hub.go], [client.go] and [channel.go].

    A [hub] is the [Hub] and the clients it made, as the garbage collector would
    see them: the table, the channels with their members and rosters, and each
    [Client]'s outbox and flags.  Code between two releases of [h.mu] (which also
    covers [c.mu]) is one function; what a method does after it is a list of
    [action]s.  A goroutine is the list of the actions it has left, and [step]
    interleaves the goroutines, one action at a time, with new calls of the API
    at any moment.

    A frame is kept as data; its JSON text is left out, and so are the bytes of
    the transport, whose writes succeed or fail as the environment likes.  The
    authorizer is a function of the request. *)

From Stdlib Require Import ZArith Lia Ascii.
From stdpp Require Import base gmap strings list relations numbers sets.
From S2P Require Import Prelude GoRt GoStrconv.

#[local] Set Warnings "-register-all".
#[local] Open Scope lago_scope.

(** ** Channels *)

Inductive ChannelType := Public | Private | Presence.

#[export] Instance ChannelType_eq_dec : EqDecision ChannelType.
Proof. solve_decision. Defined.

Definition ClassifyChannel (name : string) : ChannelType :=
  if String.prefix "presence-" name then Presence
  else if String.prefix "private-" name then Private
  else Public.

Record Member := mkMember { m_ID : string; m_Info : string }.

(** Clients are named by their ids. *)
Record channel := mkChannel { typ : ChannelType; members : gset string; roster : gmap string Member }.

Definition newChannel (name : string) : channel := mkChannel (ClassifyChannel name) ∅ ∅.

(** ** Clients *)

Inductive MessageType := TextMessage | BinaryMessage.

Inductive outMsg :=
| Data (typ : MessageType) (payload : string)
| presenceState (channel : string) (roster : list Member)
| presenceJoin (channel : string) (m : Member)
| presenceLeave (channel : string) (m : Member).

(** [closeOnce]. *)
Inductive once := Fresh | Running | Finished.

(** [done] is whether the channel [done] is closed.  [queued] and [written] are
    there for the theorems: every frame put in the outbox, and every frame handed
    to the transport. *)
Record Client := mkClient {
  auth : string; channels : gset string; outbox : list outMsg; done : bool; closeOnce : once;
  closing : bool; drops : Z; conn_closed : bool; queued : list outMsg; written : list outMsg }.

Definition new_client (auth : string) : Client := mkClient auth ∅ [] false Fresh false 0 false [] [].

Definition set_channels (f : gset string -> gset string) (c : Client) : Client :=
  mkClient (auth c) (f (channels c)) (outbox c) (done c) (closeOnce c) (closing c) (drops c) (conn_closed c) (queued c) (written c).
Definition push_frame (m : outMsg) (c : Client) : Client :=
  mkClient (auth c) (channels c) (outbox c ++ [m]) (done c) (closeOnce c) (closing c) (drops c) (conn_closed c) (queued c ++ [m]) (written c).
Definition pop_frame (m : outMsg) (rest : list outMsg) (c : Client) : Client :=
  mkClient (auth c) (channels c) rest (done c) (closeOnce c) (closing c) (drops c) (conn_closed c) (queued c) (written c ++ [m]).
Definition drop_frame (c : Client) : Client :=
  mkClient (auth c) (channels c) (outbox c) (done c) (closeOnce c) (closing c) (u64 (drops c + 1)) (conn_closed c) (queued c) (written c).
Definition set_closing (c : Client) : Client :=
  mkClient (auth c) (channels c) (outbox c) (done c) (closeOnce c) true (drops c) (conn_closed c) (queued c) (written c).
Definition close_done (c : Client) : Client :=
  mkClient (auth c) (channels c) (outbox c) true Running (closing c) (drops c) (conn_closed c) (queued c) (written c).
Definition close_conn (c : Client) : Client :=
  mkClient (auth c) (channels c) (outbox c) (done c) (closeOnce c) (closing c) (drops c) true (queued c) (written c).
Definition finish_once (c : Client) : Client :=
  mkClient (auth c) (channels c) (outbox c) (done c) Finished (closing c) (drops c) (conn_closed c) (queued c) (written c).

(** ** The hub *)

Record PresenceEvent := mkEvent { pe_channel : string; pe_joined : bool; pe_member : Member }.

Inductive SlowConsumerPolicy := DropMessage | DisconnectClient.

(** [heap] holds every client ever made; [table] is [h.clients], [rooms]
    [h.channels].  [events] is what [onPresence] was called with. *)
Record hub := mkHub {
  heap : gmap string Client; table : gset string; rooms : gmap string channel; closed : bool;
  counter : Z; events : list PresenceEvent }.

Definition NewHub : hub := mkHub ∅ ∅ ∅ false 0 [].

Definition alter_client (f : Client -> Client) (c : string) (h : hub) : hub :=
  mkHub (alter f c (heap h)) (table h) (rooms h) (closed h) (counter h) (events h).
Definition set_rooms (r : gmap string channel) (h : hub) : hub :=
  mkHub (heap h) (table h) r (closed h) (counter h) (events h).

Inductive join_error := ErrClosed | ErrUnauthorized.

(** What a goroutine may do next. *)
Inductive action :=
| AAdd (auth : string)
| AJoin (c name : string)
| ASubscribe (c name : string) (m : Member)
| AUnsubscribe (c name : string)
| ABroadcast (name : string) (m : outMsg) (except : string)
| ASendTo (id : string) (payload : string)
| ASend (c : string) (m : outMsg)
| APush (c : string) (m : outMsg)
| AEvent (e : PresenceEvent)
| AClose (c : string)
| ATearDown (c : string)
| ARemove (c : string)
| AConnClose (c : string)
| AOnceEnd (c : string)
| AWrite (c : string)
| AHubClose.

Section Hub.
(** [h.outbox], [h.slowPolicy] and [h.authorizer]. *)
Context (capacity : nat) (slowPolicy : SlowConsumerPolicy).
Context (authorizer : option (string -> ChannelType -> string -> string -> option Member)).

Definition newClientID (n : Z) : string := ("client-" +:+ format_uint n)%string.

(** The critical section of [Add]. *)
Definition Add (credentials : string) (h : hub) : result join_error (hub * string) :=
  if closed h then Err ErrClosed
  else
    let n := u64 (counter h + 1) in
    let id := newClientID n in
    Ok (mkHub (<[id := new_client credentials]> (heap h)) ({[id]} ∪ table h) (rooms h) (closed h) n (events h), id).

(** [subscribe] up to the lock: the member to enter, the zero one in a public
    channel. *)
Definition authorize_join (h : hub) (c name : string) : result join_error Member :=
  match ClassifyChannel name with
  | Public => Ok (mkMember EmptyString EmptyString)
  | t =>
      match authorizer with
      | None => Err ErrUnauthorized
      | Some authorize =>
          match authorize name t c (match heap h !! c with Some cl => auth cl | None => EmptyString end) with
          | None => Err ErrUnauthorized
          | Some m => Ok (if bool_decide (m_ID m = EmptyString) then mkMember c (m_Info m) else m)
          end
      end
  end.

(** [subscribe] under the lock, and what follows it. *)
Definition subscribe_locked (h : hub) (c name : string) (member : Member) : result join_error (hub * list action) :=
  if closed h then Err ErrClosed
  else
    let ch := default (newChannel name) (rooms h !! name) in
    if bool_decide (c ∈ members ch) then Ok (h, [])
    else
      let joined := {[c]} ∪ members ch in
      let h := alter_client (set_channels (fun s => {[name]} ∪ s)) c h in
      match ClassifyChannel name with
      | Presence =>
          let ch' := mkChannel (typ ch) joined (<[c := member]> (roster ch)) in
          Ok (set_rooms (<[name := ch']> (rooms h)) h,
              ASend c (presenceState name (map snd (map_to_list (roster ch))))
                :: map (fun d => ASend d (presenceJoin name member)) (elements joined)
                ++ [AEvent (mkEvent name true member)])
      | _ => Ok (set_rooms (<[name := mkChannel (typ ch) joined (roster ch)]> (rooms h)) h, [])
      end.

(** A client leaves one channel: the channels, and the notifications. *)
Definition leave_room (c name : string) (r : gmap string channel) : gmap string channel * list action :=
  match r !! name with
  | None => (r, [])
  | Some ch =>
      let ch' := mkChannel (typ ch) (members ch ∖ {[c]})
                   (match typ ch with Presence => delete c (roster ch) | _ => roster ch end) in
      (if bool_decide (members ch' = ∅) then delete name r else <[name := ch']> r,
       match typ ch with
       | Presence =>
           let leaver := default (mkMember EmptyString EmptyString) (roster ch !! c) in
           map (fun d => ASend d (presenceLeave name leaver)) (elements (members ch'))
             ++ [AEvent (mkEvent name false leaver)]
       | _ => []
       end)
  end.

Definition unsubscribe_locked (h : hub) (c name : string) : hub * list action :=
  match rooms h !! name with
  | None => (h, [])
  | Some ch =>
      if bool_decide (c ∈ members ch) then
        let '(r, acts) := leave_room c name (rooms h) in
        (set_rooms r (alter_client (set_channels (fun s => s ∖ {[name]})) c h), acts)
      else (h, [])
  end.

(** The loop of [remove] over the channels of the client. *)
Fixpoint leave_rooms (c : string) (names : list string) (r : gmap string channel) : gmap string channel * list action :=
  match names with
  | [] => (r, [])
  | name :: names =>
      let '(r, acts) := leave_room c name r in
      let '(r, acts') := leave_rooms c names r in
      (r, acts ++ acts')
  end.

Definition remove_locked (h : hub) (c : string) : hub * list action :=
  let names := match heap h !! c with Some cl => elements (channels cl) | None => [] end in
  let h := mkHub (heap h) (table h ∖ {[c]}) (rooms h) (closed h) (counter h) (events h) in
  let h := alter_client (set_channels (fun _ => ∅)) c h in
  let '(r, acts) := leave_rooms c names (rooms h) in
  (set_rooms r h, acts).

Definition broadcast_targets (h : hub) (name except : string) : result join_error (list string) :=
  if closed h then Err ErrClosed
  else match rooms h !! name with
       | None => Ok []
       | Some ch => Ok (elements (members ch ∖ {[except]}))
       end.

Definition SendTo (h : hub) (id : string) : option string :=
  if bool_decide (id ∈ table h) then Some id else None.

Definition Roster (h : hub) (name : string) : list Member :=
  match rooms h !! name with
  | Some ch => match typ ch with Presence => map snd (map_to_list (roster ch)) | _ => [] end
  | None => []
  end.

Definition Count (h : hub) : nat := size (table h).
Definition ChannelCount (h : hub) (name : string) : nat :=
  match rooms h !! name with Some ch => size (members ch) | None => 0 end.

(** [Close]: the clients to close one after the other. *)
Definition Close (h : hub) : hub * list action :=
  if closed h then (h, [])
  else (mkHub (heap h) ∅ ∅ true (counter h) (events h), map AClose (elements (table h))).

(** [triggerClose]: the goroutine it starts. *)
Definition triggerClose (c : string) (cl : Client) (h : hub) : hub * list (list action) :=
  if closing cl then (h, []) else (alter_client set_closing c h, [[ATearDown c]]).

Definition frame_of (payload : string) : outMsg := Data TextMessage payload.

(** One action: the hub, what the goroutine does next, and the goroutines it
    starts; [None] when it cannot go on now.  [pick] resolves a [select] with
    several cases ready (true takes [done]), [ok] is the outcome of a write. *)
Definition perform (pick ok : bool) (a : action) (h : hub) : option (hub * list action * list (list action)) :=
  match a with
  | AAdd credentials =>
      match Add credentials h with Ok (h, id) => Some (h, [], [[AWrite id]]) | Err _ => Some (h, [], []) end
  | AJoin c name =>
      match authorize_join h c name with Ok m => Some (h, [ASubscribe c name m], []) | Err _ => Some (h, [], []) end
  | ASubscribe c name m =>
      match subscribe_locked h c name m with Ok (h, acts) => Some (h, acts, []) | Err _ => Some (h, [], []) end
  | AUnsubscribe c name => let '(h, acts) := unsubscribe_locked h c name in Some (h, acts, [])
  | ABroadcast name m except =>
      match broadcast_targets h name except with
      | Ok cs => Some (h, map (fun c => ASend c m) cs, [])
      | Err _ => Some (h, [], [])
      end
  | ASendTo id payload =>
      match SendTo h id with Some c => Some (h, [ASend c (frame_of payload)], []) | None => Some (h, [], []) end
  | ASend c m =>
      cl ← heap h !! c; Some (h, if done cl then [] else [APush c m], [])
  | APush c m =>
      cl ← heap h !! c;
      if (length (outbox cl) <? capacity)%nat then
        if done cl && pick then Some (h, [], []) else Some (alter_client (push_frame m) c h, [], [])
      else if done cl then Some (h, [], [])
      else match slowPolicy with
           | DisconnectClient => let '(h, gs) := triggerClose c cl h in Some (h, [], gs)
           | DropMessage => Some (alter_client drop_frame c h, [], [])
           end
  | AEvent e => Some (mkHub (heap h) (table h) (rooms h) (closed h) (counter h) (events h ++ [e]), [], [])
  | AClose c | ATearDown c =>
      cl ← heap h !! c;
      match closeOnce cl with
      | Fresh => Some (alter_client close_done c h, [ARemove c; AConnClose c; AOnceEnd c], [])
      | Running => None
      | Finished => Some (h, [], [])
      end
  | ARemove c => let '(h, acts) := remove_locked h c in Some (h, acts, [])
  | AConnClose c => Some (alter_client close_conn c h, [], [])
  | AOnceEnd c => Some (alter_client finish_once c h, [], [])
  | AWrite c =>
      cl ← heap h !! c;
      if done cl && pick then Some (h, [], [])
      else
        match outbox cl with
        | [] => if done cl then Some (h, [], []) else None
        | m :: rest =>
            let h := alter_client (pop_frame m rest) c h in
            if ok then Some (h, [AWrite c], [])
            else let '(h, gs) := triggerClose c cl h in Some (h, [], gs)
        end
  | AHubClose => let '(h, acts) := Close h in Some (h, acts, [])
  end.

(** ** Interleavings *)

Record system := mkSystem { state : hub; gs : list (list action) }.

(** The calls of the API; a client's reader calls [AClose] when it ends. *)
Definition api (h : hub) (a : action) : bool :=
  match a with
  | AAdd _ | ABroadcast _ (Data _ _) _ | ASendTo _ _ | AHubClose => true
  | AJoin c _ | AUnsubscribe c _ | AClose c => bool_decide (is_Some (heap h !! c))
  | _ => false
  end.

Inductive step : system -> system -> Prop :=
| step_call a h gs : api h a = true -> step (mkSystem h gs) (mkSystem h (gs ++ [[a]]))
| step_run i a rest pick ok h gs h' acts new :
    gs !! i = Some (a :: rest) -> perform pick ok a h = Some (h', acts, new) ->
    step (mkSystem h gs) (mkSystem h' (<[i := acts ++ rest]> gs ++ new)).

Definition start : system := mkSystem NewHub [].

(** ** What the hub keeps true *)

(** The channel is of the type its name says; it has a member; its roster has an
    entry for each member exactly when it is a presence channel; each member was
    authorized, and the roster shows the identity the authorizer gave it. *)
Record channel_ok (h : hub) (name : string) (ch : channel) : Prop := {
  co_typ : typ ch = ClassifyChannel name;
  co_inhabited : members ch <> ∅;
  co_roster : dom (roster ch) = match typ ch with Presence => members ch | _ => ∅ end;
  co_members : forall c, c ∈ members ch ->
    exists cl, heap h !! c = Some cl /\ name ∈ channels cl /\ exists m, authorize_join h c name = Ok m;
  co_identity : forall c m, roster ch !! c = Some m -> authorize_join h c name = Ok m }.

(** The outbox is bounded, and the frames leave in the order they came, none
    lost and none twice. *)
Definition client_ok (cl : Client) : Prop :=
  (length (outbox cl) <= capacity)%nat /\ queued cl = written cl ++ outbox cl.

Record hub_ok (h : hub) : Prop := {
  ho_rooms : forall name ch, rooms h !! name = Some ch -> channel_ok h name ch;
  ho_closed : closed h = true -> rooms h = ∅ /\ table h = ∅;
  ho_channels : closed h = false -> forall c cl name, heap h !! c = Some cl -> name ∈ channels cl ->
    exists ch, rooms h !! name = Some ch /\ c ∈ members ch;
  ho_table : table h ⊆ dom (heap h);
  ho_clients : forall c cl, heap h !! c = Some cl -> client_ok cl;
  ho_ids : forall c, c ∈ dom (heap h) -> exists k, 0 < k <= counter h /\ c = newClientID k }.

Definition action_ok (h : hub) (a : action) : Prop :=
  match a with
  | ASubscribe c name m => c ∈ dom (heap h) /\ authorize_join h c name = Ok m
  | AJoin c _ => c ∈ dom (heap h)
  | _ => True
  end.

Definition system_ok (s : system) : Prop := hub_ok (state s) /\ Forall (Forall (action_ok (state s))) (gs s).

(** The clients of [h] are in [h'], with their credentials. *)
Definition extends (h h' : hub) : Prop :=
  forall c cl, heap h !! c = Some cl -> exists cl', heap h' !! c = Some cl' /\ auth cl' = auth cl.

Lemma extends_refl h : extends h h.
Proof. intros c cl Hc. by exists cl. Qed.

Lemma extends_alter f c h : (forall cl, auth (f cl) = auth cl) -> extends h (alter_client f c h).
Proof.
  intros Hf d cl Hd. simpl. destruct (decide (c = d)) as [<- | Hne].
  - exists (f cl). by rewrite lookup_alter, Hd, decide_True.
  - exists cl. by rewrite lookup_alter_ne.
Qed.

Lemma authorize_stable h h' c name : extends h h' -> c ∈ dom (heap h) -> authorize_join h' c name = authorize_join h c name.
Proof.
  intros He [cl Hc]%elem_of_dom. destruct (He _ _ Hc) as (cl' & Hc' & Ha).
  unfold authorize_join. by rewrite Hc, Hc', Ha.
Qed.

Lemma extends_dom h h' c : extends h h' -> c ∈ dom (heap h) -> c ∈ dom (heap h').
Proof. intros He [cl Hc]%elem_of_dom. destruct (He _ _ Hc) as (cl' & Hc' & _). by eapply elem_of_dom_2. Qed.

Lemma action_stable h h' a : extends h h' -> action_ok h a -> action_ok h' a.
Proof.
  intros He. destruct a; simpl; try done.
  - by apply extends_dom.
  - intros [Hd Ha]. split; [by eapply extends_dom |]. by rewrite (authorize_stable _ _ _ _ He Hd).
Qed.

(** A room is still good when the hub grew, if its members kept their channels. *)
Lemma channel_stable h h' name ch :
  extends h h' -> channel_ok h name ch ->
  (forall c cl, c ∈ members ch -> heap h' !! c = Some cl -> name ∈ channels cl) -> channel_ok h' name ch.
Proof.
  intros He [Ht Hi Hr Hm Hid] Hkeep.
  assert (Hdom : forall c, c ∈ members ch -> c ∈ dom (heap h))
    by (intros c Hc; destruct (Hm c Hc) as (cl & Hcl & _); by eapply elem_of_dom_2).
  split; try done.
  - intros c Hc. destruct (Hm c Hc) as (cl & Hcl & _ & Ha).
    destruct (He _ _ Hcl) as (cl' & Hcl' & _). exists cl'. split_and!; [done | by apply (Hkeep c) |].
    by rewrite (authorize_stable _ _ _ _ He (Hdom c Hc)).
  - intros c m Hc. rewrite (authorize_stable _ _ _ _ He); [by apply Hid |].
    apply elem_of_dom_2 in Hc. rewrite Hr in Hc. destruct (typ ch); [set_solver.. | by apply Hdom].
Qed.

(** Nothing of the hub's own state depends on the other fields of a client. *)
Lemma hub_ok_alter f c h :
  (forall cl, auth (f cl) = auth cl /\ channels (f cl) = channels cl) ->
  (forall cl, heap h !! c = Some cl -> client_ok cl -> client_ok (f cl)) ->
  hub_ok h -> hub_ok (alter_client f c h).
Proof.
  intros Hf Hok [Hr Hcl Hch Ht Hc Hid].
  assert (Hlk : forall d cl, alter f c (heap h) !! d = Some cl ->
                 exists cl0, heap h !! d = Some cl0 /\ channels cl = channels cl0 /\ (cl = cl0 \/ c = d /\ cl = f cl0)).
  { intros d cl. destruct (decide (c = d)) as [<- | Hne].
    - rewrite lookup_alter, decide_True by done. intros (cl0 & -> & ->)%fmap_Some. exists cl0.
      split_and!; [done | apply Hf | by right].
    - rewrite lookup_alter_ne by done. intros Hd. exists cl. eauto. }
  split; simpl; try done.
  - intros name ch Hn. apply (channel_stable h); [apply extends_alter; intros; apply Hf | by apply Hr |].
    intros d cl Hd Hl. destruct (Hlk _ _ Hl) as (cl0 & Hl0 & -> & _).
    destruct (co_members _ _ _ (Hr _ _ Hn) d Hd) as (cl1 & Hl1 & Hin & _). by simplify_eq.
  - intros Hn d cl name Hl. destruct (Hlk _ _ Hl) as (cl0 & Hl0 & -> & _). by apply Hch.
  - by rewrite dom_alter_L.
  - intros d cl Hl. destruct (Hlk _ _ Hl) as (cl0 & Hl0 & _ & [-> | [<- ->]]); eauto.
  - intros d. rewrite dom_alter_L. apply Hid.
Qed.

(** *** Leaving *)

(** What becomes of a channel that a client leaves: [None] when it was the last
    one. *)
Definition drop_member (c : string) (ch : channel) : option channel :=
  if bool_decide (members ch ∖ {[c]} = ∅) then None
  else Some (mkChannel (typ ch) (members ch ∖ {[c]})
               (match typ ch with Presence => delete c (roster ch) | _ => roster ch end)).

Lemma leave_room_lookup c name r n :
  (leave_room c name r).1 !! n = if decide (n = name) then r !! name ≫= drop_member c else r !! n.
Proof.
  unfold leave_room, drop_member. destruct (r !! name) as [ch |] eqn:Hn; simpl.
  - destruct (bool_decide _) eqn:Hb, (decide (n = name)) as [-> | Hne]; simplify_map_eq; done.
  - case_decide as Hd; [by subst | done].
Qed.

Lemma leave_rooms_lookup c names r n :
  NoDup names ->
  (leave_rooms c names r).1 !! n = if decide (n ∈ names) then r !! n ≫= drop_member c else r !! n.
Proof.
  intros Hnd. revert r. induction names as [| name names IH]; intros r; simpl.
  { done. }
  apply list.NoDup_cons in Hnd as [Hnin Hnd].
  pose proof (leave_room_lookup c name r) as Hl.
  destruct (leave_room c name r) as [r1 acts1]. specialize (IH Hnd r1).
  destruct (leave_rooms c names r1) as [r2 acts2]. simpl in *. rewrite IH, Hl.
  destruct (decide (n = name)) as [-> | Hne].
  - rewrite decide_False, decide_True by set_solver. done.
  - destruct (decide (n ∈ names)), (decide (n ∈ name :: names)); set_solver.
Qed.

Lemma drop_member_ok h c name ch ch' :
  channel_ok h name ch -> drop_member c ch = Some ch' ->
  members ch' = members ch ∖ {[c]} /\ channel_ok h name ch'.
Proof.
  intros [Ht Hi Hr Hm Hid]. unfold drop_member. case_bool_decide as Hb; [done |].
  intros [= <-]. split; [done |]. split; simpl; try done.
  - destruct (typ ch); rewrite ?dom_delete_L; set_solver.
  - intros d Hd. apply Hm. set_solver.
  - intros d m. destruct (typ ch); try apply Hid. rewrite lookup_delete_Some. intros [_ Hd]. by apply Hid.
Qed.

Lemma drop_member_none c ch d : drop_member c ch = None -> d ∈ members ch -> d = c.
Proof.
  unfold drop_member. case_bool_decide as Hb; [| done]. intros _ Hd.
  destruct (decide (d = c)); [done | set_solver].
Qed.

(** A client leaves the channels [N]. *)
Lemma hub_ok_leave h c (N : gset string) r f :
  (forall cl, heap h !! c = Some cl -> channels (f cl) = channels cl ∖ N) ->
  (forall cl, auth (f cl) = auth cl /\ outbox (f cl) = outbox cl /\ queued (f cl) = queued cl /\ written (f cl) = written cl) ->
  (forall n, r !! n = if decide (n ∈ N) then rooms h !! n ≫= drop_member c else rooms h !! n) ->
  hub_ok h -> hub_ok (set_rooms r (alter_client f c h)).
Proof.
  intros Hf Hsame Hr [Hrooms Hclosed Hchan Htab Hcl Hid].
  assert (He : extends h (set_rooms r (alter_client f c h)))
    by (intros d cl Hd; apply (extends_alter f c h); [apply Hsame | done]).
  split; simpl.
  - intros name ch. rewrite Hr. intros Hn.
    assert (exists ch0, rooms h !! name = Some ch0 /\ channel_ok h name ch /\ members ch ⊆ members ch0 /\
              (name ∈ N -> c ∉ members ch)) as (ch0 & Hn0 & Hok & Hsub & Hnot).
    { destruct (decide (name ∈ N)) as [Hin | Hin]; [| exists ch; split_and!; by auto].
      apply bind_Some in Hn as (ch0 & Hn0 & Hd).
      destruct (drop_member_ok _ _ _ _ _ (Hrooms _ _ Hn0) Hd) as [Hm Hok]. exists ch0. set_solver. }
    apply (channel_stable h); [done | done |]. intros d cl Hd. simpl.
    destruct (co_members _ _ _ Hok d Hd) as (cl0 & Hl0 & Hin & _).
    destruct (decide (c = d)) as [<- | Hne].
    + rewrite lookup_alter, decide_True, Hl0 by done. intros [= <-]. rewrite (Hf _ Hl0). set_solver.
    + rewrite lookup_alter_ne by done. intros. by simplify_eq.
  - intros Hc. destruct (Hclosed Hc) as [Hr0 Ht0]. split; [| done]. apply map_eq. intros n.
    rewrite Hr, Hr0, lookup_empty. by destruct (decide _).
  - intros Hc d cl name. destruct (decide (c = d)) as [<- | Hne].
    + rewrite lookup_alter, decide_True by done. intros (cl0 & Hl0 & ->)%fmap_Some. rewrite (Hf _ Hl0). intros Hin.
      destruct (Hchan Hc _ _ name Hl0) as (ch & Hn & Hm); [set_solver |].
      exists ch. by rewrite Hr, decide_False by set_solver.
    + rewrite lookup_alter_ne by done. intros Hl Hin. destruct (Hchan Hc _ _ name Hl Hin) as (ch & Hn & Hm).
      rewrite Hr. destruct (decide (name ∈ N)); [| by exists ch]. rewrite Hn. simpl.
      destruct (drop_member c ch) as [ch' |] eqn:Hd.
      * exists ch'. split; [done |]. destruct (drop_member_ok _ _ _ _ _ (Hrooms _ _ Hn) Hd) as [-> _]. set_solver.
      * by apply (drop_member_none _ _ _ Hd) in Hm.
  - by rewrite dom_alter_L.
  - intros d cl. destruct (decide (c = d)) as [<- | Hne].
    + rewrite lookup_alter, decide_True by done. intros (cl0 & Hl0 & ->)%fmap_Some.
      destruct (Hsame cl0) as (_ & Ho & Hq & Hw). unfold client_ok. rewrite Ho, Hq, Hw. by apply (Hcl c).
    + rewrite lookup_alter_ne by done. apply Hcl.
  - intros d. rewrite dom_alter_L. apply Hid.
Qed.

Lemma unsubscribe_ok h c name : hub_ok h -> hub_ok (unsubscribe_locked h c name).1.
Proof.
  intros Hok. unfold unsubscribe_locked. destruct (rooms h !! name) as [ch |] eqn:Hn; [| done].
  case_bool_decide; [| done]. pose proof (leave_room_lookup c name (rooms h)) as Hl.
  destruct (leave_room c name (rooms h)) as [r acts]. simpl in *.
  apply (hub_ok_leave h c {[name]}); try done.
  intros n. rewrite Hl. destruct (decide (n = name)) as [-> | Hne].
  - by rewrite decide_True by set_solver.
  - by rewrite decide_False by set_solver.
Qed.

Lemma remove_ok h c : hub_ok h -> hub_ok (remove_locked h c).1.
Proof.
  intros Hok. unfold remove_locked. simpl.
  set (names := match heap h !! c with Some cl => elements (channels cl) | None => [] end).
  assert (Hnd : NoDup names) by (unfold names; destruct (heap h !! c); [apply NoDup_elements | constructor]).
  pose proof (leave_rooms_lookup c names (rooms h)) as Hl.
  destruct (leave_rooms c names (rooms h)) as [r acts]. simpl in *.
  set (h1 := mkHub (heap h) (table h ∖ {[c]}) (rooms h) (closed h) (counter h) (events h)).
  assert (Hok1 : hub_ok h1).
  { destruct Hok as [Hr Hc Hch Ht Hcl Hid]. split; simpl; try done.
    - intros name ch Hn. by destruct (Hr _ _ Hn); split.
    - intros H. destruct (Hc H) as [-> ->]. set_solver.
    - set_solver. }
  apply (hub_ok_leave h1 c (list_to_set names)); try done.
  - simpl. intros cl Hcl. unfold names. rewrite Hcl. set_solver.
  - intros n. rewrite Hl by done. simpl.
    destruct (decide (n ∈ names)), (decide (n ∈ (list_to_set names : gset string))); set_solver.
Qed.

(** *** Joining *)

Definition entered (c : string) (m : Member) (ch : channel) : channel :=
  mkChannel (typ ch) ({[c]} ∪ members ch)
    (match typ ch with Presence => <[c := m]> (roster ch) | _ => roster ch end).

Lemma subscribe_spec h c name m h' acts :
  hub_ok h -> subscribe_locked h c name m = Ok (h', acts) ->
  closed h = false /\
  (h' = h \/
   h' = set_rooms (<[name := entered c m (default (newChannel name) (rooms h !! name))]> (rooms h))
          (alter_client (set_channels (fun s => {[name]} ∪ s)) c h)).
Proof.
  intros Hok. unfold subscribe_locked, entered. destruct (closed h); [done |].
  set (ch := default (newChannel name) (rooms h !! name)).
  assert (Ht : typ ch = ClassifyChannel name).
  { unfold ch. destruct (rooms h !! name) eqn:Hn; [| done]. by apply (co_typ _ _ _ (ho_rooms _ Hok _ _ Hn)). }
  case_bool_decide; [intros [= <- <-]; auto |]. rewrite Ht.
  destruct (ClassifyChannel name); intros [= <- <-]; auto.
Qed.

Lemma entered_ok h c name m :
  hub_ok h -> c ∈ dom (heap h) -> authorize_join h c name = Ok m ->
  channel_ok (alter_client (set_channels (fun s => {[name]} ∪ s)) c h) name
    (entered c m (default (newChannel name) (rooms h !! name))).
Proof.
  intros Hok Hc Ha. set (h1 := alter_client _ c h).
  assert (He : extends h h1) by (by apply extends_alter).
  set (ch := default (newChannel name) (rooms h !! name)).
  assert (H0 : ch = newChannel name \/ channel_ok h name ch).
  { unfold ch. destruct (rooms h !! name) eqn:Hn; [right | by left]. by apply (ho_rooms _ Hok). }
  assert (Hkeep : forall d, d ∈ members ch -> exists cl, heap h !! d = Some cl /\ name ∈ channels cl /\ exists m, authorize_join h d name = Ok m)
    by (destruct H0 as [-> | H0]; [simpl; set_solver | apply (co_members _ _ _ H0)]).
  assert (Hdom : dom (roster ch) = match typ ch with Presence => members ch | _ => ∅ end)
    by (destruct H0 as [-> | H0]; [simpl; destruct (ClassifyChannel name); set_solver | apply (co_roster _ _ _ H0)]).
  split; simpl.
  - destruct H0 as [-> | H0]; [done | apply (co_typ _ _ _ H0)].
  - set_solver.
  - destruct (typ ch); rewrite ?dom_insert_L; set_solver.
  - intros d Hd. simpl. destruct (decide (c = d)) as [<- | Hne].
    + apply elem_of_dom in Hc as [cl Hl]. rewrite lookup_alter, decide_True, Hl by done. eexists. split; [done |].
      split; [simpl; set_solver |]. exists m. rewrite (authorize_stable h); [done.. | by eapply elem_of_dom_2].
    + rewrite lookup_alter_ne by done. destruct (Hkeep d) as (cl & Hl & Hin & m' & Hm'); [set_solver |].
      exists cl. split_and!; [done.. |]. exists m'. rewrite (authorize_stable h); [done.. | by eapply elem_of_dom_2].
  - intros d m' Hd. rewrite (authorize_stable h); [| done |].
    + destruct (decide (c = d)) as [<- | Hne]; [| destruct H0 as [-> | H0]].
      * destruct (typ ch); simplify_map_eq; [| | done]; apply elem_of_dom_2 in Hd; set_solver.
      * simpl in Hd. destruct (ClassifyChannel name); simplify_map_eq.
      * apply (co_identity _ _ _ H0). destruct (typ ch); by simplify_map_eq.
    + destruct (decide (c = d)) as [<- | Hne]; [done |].
      assert (Hd' : d ∈ dom (roster ch)).
      { apply elem_of_dom. exists m'. destruct (typ ch); by simplify_map_eq. }
      rewrite Hdom in Hd'. destruct (Hkeep d) as (cl & Hl & _); [destruct (typ ch); set_solver |].
      by eapply elem_of_dom_2.
Qed.

Lemma subscribe_ok h c name m h' acts :
  hub_ok h -> c ∈ dom (heap h) -> authorize_join h c name = Ok m ->
  subscribe_locked h c name m = Ok (h', acts) -> hub_ok h' /\ extends h h'.
Proof.
  intros Hok Hc Ha Hs. destruct (subscribe_spec _ _ _ _ _ _ Hok Hs) as [Hopen [-> | ->]].
  { split; [done | apply extends_refl]. }
  pose proof (entered_ok _ _ _ _ Hok Hc Ha) as Hch.
  set (ch := entered c m _) in *. set (f := set_channels (fun s : gset string => {[name]} ∪ s)) in *.
  assert (He : extends h (alter_client f c h)) by (by apply extends_alter).
  assert (Hf : forall d cl, heap (alter_client f c h) !! d = Some cl ->
             exists cl0, heap h !! d = Some cl0 /\ channels cl0 ⊆ channels cl /\ (channels cl ⊆ channels cl0 \/ d = c /\ channels cl ⊆ {[name]} ∪ channels cl0) /\ (client_ok cl0 -> client_ok cl)).
  { intros d cl. simpl. destruct (decide (c = d)) as [<- | Hne].
    - rewrite lookup_alter, decide_True by done. intros (cl0 & Hl & ->)%fmap_Some. exists cl0. simpl. set_solver.
    - rewrite lookup_alter_ne by done. intros Hl. exists cl. set_solver. }
  split; [| done]. destruct Hok as [Hr Hcl Hchan Ht Hc' Hid]. split.
  - intros n ch'. simpl. rewrite lookup_insert_Some. intros [[<- <-] | [Hne Hn]]; [by destruct Hch; split |].
    apply (channel_stable h); [done | by apply Hr |]. intros d cl Hd Hl.
    destruct (Hf d cl Hl) as (cl0 & Hl0 & Hsub & _).
    destruct (co_members _ _ _ (Hr _ _ Hn) d Hd) as (cl1 & Hl1 & Hin & _). simplify_eq. set_solver.
  - simpl. by rewrite Hopen.
  - intros _ d cl n Hl Hin. simpl. destruct (Hf d cl Hl) as (cl0 & Hl0 & _ & Hcase & _).
    destruct (decide (n = name)) as [-> | Hne].
    + rewrite lookup_insert, decide_True by done. exists ch. split; [done |]. unfold ch, entered. simpl.
      destruct (decide (d = c)) as [-> | Hdc]; [set_solver |].
      destruct Hcase as [Hcase | [? _]]; [| done].
      destruct (Hchan Hopen _ _ name Hl0) as (ch0 & Hn0 & Hm0); [set_solver |]. rewrite Hn0. simpl. set_solver.
    + rewrite lookup_insert_ne by done. apply (Hchan Hopen _ _ n Hl0). set_solver.
  - simpl. by rewrite dom_alter_L.
  - intros d cl Hl. destruct (Hf d cl Hl) as (cl0 & Hl0 & _ & _ & Hk). eauto.
  - simpl. intros d. rewrite dom_alter_L. apply Hid.
Qed.

(** *** Every action *)

Definition quiet (a : action) : Prop := match a with ASubscribe _ _ _ | AJoin _ _ | ATearDown _ => False | _ => True end.

Lemma quiet_ok h acts : Forall quiet acts -> Forall (action_ok h) acts.
Proof. intros Hq. eapply list.Forall_impl; [exact Hq |]. by intros []. Qed.

Lemma quiet_map {A} (f : A -> action) l : (forall x, quiet (f x)) -> Forall quiet (map f l).
Proof. intros Hf. induction l; simpl; auto. Qed.

Lemma leave_room_quiet c name r : Forall quiet (leave_room c name r).2.
Proof.
  unfold leave_room. destruct (r !! name) as [ch |]; [| done]. simpl.
  destruct (typ ch); [done.. |]. apply list.Forall_app. split; [by apply quiet_map | by repeat constructor].
Qed.

Lemma leave_rooms_quiet c names r : Forall quiet (leave_rooms c names r).2.
Proof.
  revert r. induction names as [| name names IH]; intros r; [done |]. simpl.
  pose proof (leave_room_quiet c name r). destruct (leave_room c name r) as [r1 a1].
  specialize (IH r1). destruct (leave_rooms c names r1). by apply list.Forall_app.
Qed.

Lemma subscribe_quiet h c name m h' acts : subscribe_locked h c name m = Ok (h', acts) -> Forall quiet acts.
Proof.
  unfold subscribe_locked. destruct (closed h); [done |]. case_bool_decide; [by intros [= <- <-] |].
  destruct (ClassifyChannel name); intros [= <- <-]; [done.. |].
  constructor; [done |]. apply list.Forall_app. split; [by apply quiet_map | by repeat constructor].
Qed.

Lemma newClientID_inj n m : 0 <= n -> 0 <= m -> newClientID n = newClientID m -> n = m.
Proof. unfold newClientID. intros Hn Hm He. apply format_uint_inj; [done.. |]. by simplify_eq. Qed.

Lemma Add_fresh credentials h h' id :
  0 <= counter h -> counter h + 1 < 2 ^ 64 -> hub_ok h -> Add credentials h = Ok (h', id) -> heap h !! id = None.
Proof.
  intros Hc Hmax Hok. unfold Add. destruct (closed h); [done |]. intros [= _ <-]. rewrite u64_small by lia.
  apply not_elem_of_dom. intros Hin. destruct (ho_ids _ Hok _ Hin) as (k & Hk & He). apply newClientID_inj in He; lia.
Qed.

Lemma Add_ok credentials h h' id :
  0 <= counter h -> counter h + 1 < 2 ^ 64 -> hub_ok h -> Add credentials h = Ok (h', id) ->
  hub_ok h' /\ extends h h' /\ counter h' = counter h + 1.
Proof.
  intros Hc Hmax Hok Hadd. pose proof (Add_fresh _ _ _ _ Hc Hmax Hok Hadd) as Hfresh. revert Hadd Hfresh.
  destruct Hok as [Hr Hcl Hchan Ht Hc' Hid]. unfold Add. destruct (closed h) eqn:Hopen; [done |].
  intros [= <- <-]. rewrite u64_small by lia. set (id := newClientID (counter h + 1)). intros Hfresh.
  assert (He : extends h (mkHub (<[id := new_client credentials]> (heap h)) ({[id]} ∪ table h) (rooms h) false (counter h + 1) (events h))).
  { intros d cl Hd. exists cl. simpl. split; [| done]. rewrite lookup_insert_ne; [done | congruence]. }
  assert (Hl : forall d cl, <[id := new_client credentials]> (heap h) !! d = Some cl -> cl = new_client credentials \/ heap h !! d = Some cl)
    by (intros d cl; rewrite lookup_insert_Some; naive_solver).
  split_and!; [split; simpl | done | done].
  - intros name ch Hn. apply (channel_stable h); [done | by apply Hr |]. simpl.
    intros d cl Hd. destruct (co_members _ _ _ (Hr _ _ Hn) d Hd) as (cl0 & Hl0 & Hin & _).
    rewrite lookup_insert_ne by congruence. intros. by simplify_eq.
  - done.
  - intros _ d cl name [-> | Hd]%Hl; [simpl; set_solver | by apply Hchan].
  - rewrite dom_insert_L. set_solver.
  - intros d cl [-> | Hd]%Hl; [split; simpl; [lia | done] | by apply (Hc' d)].
  - intros d. rewrite dom_insert_L. intros [->%elem_of_singleton | Hd]%elem_of_union.
    + exists (counter h + 1). split; [lia | done].
    + destruct (Hid _ Hd) as (k & ? & ->). exists k. split; [lia | done].
Qed.

Lemma Close_ok h : hub_ok h -> hub_ok (Close h).1.
Proof.
  intros Hok. unfold Close. destruct (closed h) eqn:Hopen; [done |]. destruct Hok as [_ _ _ _ Hc Hid].
  split; simpl; try done; set_solver.
Qed.

Lemma triggerClose_ok c cl h h' new :
  triggerClose c cl h = (h', new) -> hub_ok h ->
  hub_ok h' /\ extends h h' /\ counter h' = counter h /\ Forall (Forall (action_ok h')) new.
Proof.
  unfold triggerClose. destruct (closing cl); intros [= <- <-] Hok.
  - split_and!; [done | apply extends_refl | done | done].
  - split_and!; [by apply hub_ok_alter | by apply extends_alter | done | by repeat constructor].
Qed.

(** An action keeps the hub good, loses no client, and leaves only actions that
    are good. *)
Definition step_ok (h h' : hub) (acts : list action) (new : list (list action)) : Prop :=
  hub_ok h' /\ extends h h' /\ counter h <= counter h' <= counter h + 1 /\
  Forall (action_ok h') acts /\ Forall (Forall (action_ok h')) new.

Lemma step_ok_quiet h h' acts new :
  hub_ok h' -> extends h h' -> counter h' = counter h -> Forall quiet acts -> Forall (Forall (action_ok h')) new -> step_ok h h' acts new.
Proof. intros Hok He Hc Ha Hn. split_and!; [done | done | lia | lia | by apply quiet_ok | done]. Qed.

Lemma step_ok_alter h f c acts new :
  (forall cl, auth (f cl) = auth cl /\ channels (f cl) = channels cl) ->
  (forall cl, heap h !! c = Some cl -> client_ok cl -> client_ok (f cl)) ->
  hub_ok h -> Forall quiet acts -> Forall (Forall (action_ok (alter_client f c h))) new -> step_ok h (alter_client f c h) acts new.
Proof.
  intros Hf Hc Hok Ha Hn. apply step_ok_quiet; try done; [by apply hub_ok_alter |].
  apply extends_alter. intros. apply Hf.
Qed.

Lemma step_ok_stay h acts new :
  hub_ok h -> Forall quiet acts -> Forall (Forall (action_ok h)) new -> step_ok h h acts new.
Proof. intros. apply step_ok_quiet; try done. apply extends_refl. Qed.

#[local] Hint Resolve step_ok_stay : core.

Lemma leave_extends h h' r f c :
  (forall cl, auth (f cl) = auth cl) -> h' = set_rooms r (alter_client f c h) -> extends h h'.
Proof. intros Hf ->. intros d cl Hd. by apply (extends_alter f c h Hf d cl). Qed.

Lemma unsubscribe_step h c name : hub_ok h -> step_ok h (unsubscribe_locked h c name).1 (unsubscribe_locked h c name).2 [].
Proof.
  intros Hok. pose proof (unsubscribe_ok h c name Hok) as Hok'. unfold unsubscribe_locked in *.
  destruct (rooms h !! name); [| by auto]. case_bool_decide; [| by auto].
  pose proof (leave_room_quiet c name (rooms h)). destruct (leave_room c name (rooms h)) as [r acts].
  apply step_ok_quiet; try done. by eapply leave_extends; [| done].
Qed.

Lemma remove_step h c : hub_ok h -> step_ok h (remove_locked h c).1 (remove_locked h c).2 [].
Proof.
  intros Hok. pose proof (remove_ok h c Hok) as Hok'. unfold remove_locked in *.
  set (names := match heap h !! c with Some cl => elements (channels cl) | None => [] end) in *. simpl in *.
  pose proof (leave_rooms_quiet c names (rooms h)). destruct (leave_rooms c names (rooms h)) as [r acts].
  apply step_ok_quiet; try done. intros d cl Hd. by apply (extends_alter (set_channels (fun _ => ∅)) c h).
Qed.

Lemma push_step c m cl pick h h' acts new :
  hub_ok h -> heap h !! c = Some cl -> perform pick true (APush c m) h = Some (h', acts, new) -> step_ok h h' acts new.
Proof.
  intros Hok Hl. simpl. rewrite Hl. simpl. destruct (Nat.ltb_spec (length (outbox cl)) capacity).
  - destruct (done cl && pick); intros [= <- <- <-]; [by auto |].
    apply step_ok_alter; try done. intros cl0 Hl0 [Hlen Hq]. simplify_eq. split; simpl.
    + rewrite length_app. simpl. lia.
    + by rewrite Hq, app_assoc.
  - destruct (done cl); [intros [= <- <- <-]; by auto |]. destruct slowPolicy.
    + intros [= <- <- <-]. by apply step_ok_alter.
    + destruct (triggerClose c cl h) as [h1 gs1] eqn:Ht. intros [= <- <- <-].
      destruct (triggerClose_ok _ _ _ _ _ Ht Hok) as (? & ? & ? & ?). by apply step_ok_quiet.
Qed.

Lemma write_step c cl pick ok h h' acts new :
  hub_ok h -> heap h !! c = Some cl -> perform pick ok (AWrite c) h = Some (h', acts, new) -> step_ok h h' acts new.
Proof.
  intros Hok Hl. simpl. rewrite Hl. simpl. destruct (done cl && pick); [intros [= <- <- <-]; by auto |].
  destruct (outbox cl) as [| m rest] eqn:Ho.
  { destruct (done cl); [intros [= <- <- <-]; by auto | done]. }
  assert (Hpop : step_ok h (alter_client (pop_frame m rest) c h) [AWrite c] []).
  { apply step_ok_alter; try done; [| by repeat constructor]. intros cl0 Hl0 [Hlen Hq]. simplify_eq.
    rewrite Ho in *. split; simpl in *; [lia | by rewrite Hq, <- app_assoc]. }
  destruct ok; [intros [= <- <- <-]; done |].
  destruct (triggerClose _ _ _) as [h1 gs1] eqn:Ht. intros [= <- <- <-].
  destruct Hpop as (Hok1 & He1 & Hc1 & _). destruct (triggerClose_ok _ _ _ _ _ Ht Hok1) as (? & He2 & Hc2 & Hq).
  split_and!; [done | | lia | lia | done | done].
  intros d cl' Hd. destruct (He1 _ _ Hd) as (cl1 & Hd1 & <-). by apply He2.
Qed.

Lemma perform_ok pick ok a h h' acts new :
  0 <= counter h -> counter h + 1 < 2 ^ 64 -> hub_ok h -> action_ok h a ->
  perform pick ok a h = Some (h', acts, new) -> step_ok h h' acts new.
Proof.
  intros Hc Hmax Hok Ha Hp.
  destruct a as [cr | c name | c name m | c name | name m ex | id payload | c m | c m | e | c | c | c | c | c | c |]; simpl in Hp.
  - destruct (Add cr h) as [[h1 id] | e] eqn:Hadd; simplify_eq; [| by auto].
    destruct (Add_ok _ _ _ _ Hc Hmax Hok Hadd) as (? & ? & Hcnt).
    split_and!; try done; try lia. by repeat constructor.
  - destruct (authorize_join h c name) as [m | e] eqn:Hj; simplify_eq; [| by auto].
    split_and!; [done | apply extends_refl | lia | lia | by repeat constructor | done].
  - destruct Ha as [Hd Hj]. destruct (subscribe_locked h c name m) as [[h1 a1] | e] eqn:Hs; simplify_eq; [| by auto].
    destruct (subscribe_ok _ _ _ _ _ _ Hok Hd Hj Hs) as [? He]. apply step_ok_quiet; try done.
    + destruct (subscribe_spec _ _ _ _ _ _ Hok Hs) as [_ [-> | ->]]; done.
    + by eapply subscribe_quiet.
  - pose proof (unsubscribe_step h c name Hok). destruct (unsubscribe_locked h c name). by simplify_eq.
  - destruct (broadcast_targets h name ex); simplify_eq; [| by auto]. apply step_ok_stay; [done | by apply quiet_map | done].
  - destruct (SendTo h id); simplify_eq; (apply step_ok_stay; [done | by repeat constructor | done]).
  - destruct (heap h !! c) as [cl |]; [| done]. simpl in Hp. destruct (done cl); simplify_eq; (apply step_ok_stay; [done | by repeat constructor | done]).
  - destruct (heap h !! c) as [cl |] eqn:Hl; [| done]. apply (push_step c m cl pick); try done. simpl. by rewrite Hl.
  - simplify_eq. apply step_ok_quiet; try done; [| intros d cl Hd; by exists cl]. destruct Hok as [Hr ? ? ? ? ?]. split; try done.
    intros name ch Hn. by destruct (Hr _ _ Hn); split.
  - destruct (heap h !! c) as [cl |]; [| done]. simpl in Hp. destruct (closeOnce cl); simplify_eq; [| by auto].
    apply step_ok_alter; try done. by repeat constructor.
  - destruct (heap h !! c) as [cl |]; [| done]. simpl in Hp. destruct (closeOnce cl); simplify_eq; [| by auto].
    apply step_ok_alter; try done. by repeat constructor.
  - pose proof (remove_step h c Hok). destruct (remove_locked h c). by simplify_eq.
  - simplify_eq. by apply step_ok_alter.
  - simplify_eq. by apply step_ok_alter.
  - destruct (heap h !! c) as [cl |] eqn:Hl; [| done]. apply (write_step c cl pick ok); try done. simpl. by rewrite Hl.
  - pose proof (Close_ok h Hok) as Hok'. unfold Close in *. destruct (closed h); simplify_eq; [by auto |].
    apply step_ok_quiet; try done; [intros d cl Hd; by exists cl | by apply quiet_map].
Qed.

Lemma step_keeps s s' :
  0 <= counter (state s) -> counter (state s) + 1 < 2 ^ 64 -> step s s' -> system_ok s ->
  system_ok s' /\ counter (state s) <= counter (state s') <= counter (state s) + 1.
Proof.
  intros Hc Hmax Hs [Hok Hgs]. destruct Hs as [a h gs Ha | i a rest pick ok h gs h' acts new Hi Hp]; simpl in *.
  - split; [| lia]. split; [done |]. apply list.Forall_app. split; [done |]. repeat constructor.
    destruct a; simpl in *; try done. apply bool_decide_eq_true in Ha. by apply elem_of_dom.
  - pose proof (Forall_lookup_1 _ _ _ _ Hgs Hi) as Hg. apply list.Forall_cons in Hg as [Ha Hrest].
    destruct (perform_ok _ _ _ _ _ _ _ Hc Hmax Hok Ha Hp) as (Hok' & He & Hcnt & Hacts & Hnew).
    split; [| done]. split; [done |]. simpl.
    assert (Hst : forall g, Forall (action_ok h) g -> Forall (action_ok h') g)
      by (intros g Hg; eapply list.Forall_impl; [exact Hg | intros ?; by apply action_stable]).
    apply list.Forall_app. split; [| done]. apply Forall_insert; [| apply list.Forall_app; by auto].
    eapply list.Forall_impl; [exact Hgs | done].
Qed.

Lemma reachable_ok n s :
  Z.of_nat n < 2 ^ 64 -> nsteps step n start s -> system_ok s /\ 0 <= counter (state s) <= Z.of_nat n.
Proof.
  revert s. induction n as [| n IH]; intros s Hn Hs.
  - inversion Hs; subst. split; [| simpl; lia]. split; [| constructor]. split; simpl; try done; set_solver.
  - apply nsteps_inv_r in Hs as (s1 & Hs1 & Hstep). destruct (IH s1) as [Hok Hc]; [lia | done |].
    destruct (step_keeps s1 s) as [Hok' Hc']; [lia | lia | done | done |]. split; [done | lia].
Qed.

(** *** A client that leaves *)

Lemma drop_member_spec c ch ch' :
  drop_member c ch = Some ch' -> typ ch' = typ ch /\ members ch' = members ch ∖ {[c]}.
Proof. unfold drop_member. case_bool_decide; [done |]. by intros [= <-]. Qed.

(** What a client's leaving one channel is announced with. *)
Lemma leave_room_sends c name r d f :
  ASend d f ∈ (leave_room c name r).2 <->
  exists ch, r !! name = Some ch /\ typ ch = Presence /\ d ∈ members ch /\ d <> c /\
    f = presenceLeave name (default (mkMember EmptyString EmptyString) (roster ch !! c)).
Proof.
  unfold leave_room. destruct (r !! name) as [ch |]; simpl; [| set_solver].
  destruct (typ ch) eqn:Ht; simpl;
    [split; [by intros ?%elem_of_nil | intros (? & [= <-] & ? & _); congruence].. |].
  rewrite elem_of_app, list_elem_of_fmap. split.
  - intros [(d' & [= <- ->] & Hd%elem_of_elements) | ?%list_elem_of_singleton]; [| done].
    exists ch. set_solver.
  - intros (ch' & [= <-] & _ & Hd & Hne & ->). left. exists d. split; [done |]. set_solver.
Qed.

Lemma leave_rooms_sends c names r d f :
  NoDup names ->
  ASend d f ∈ (leave_rooms c names r).2 <-> exists name, name ∈ names /\ ASend d f ∈ (leave_room c name r).2.
Proof.
  intros Hnd. revert r. induction names as [| name names IH]; intros r; simpl; [set_solver |].
  apply list.NoDup_cons in Hnd as [Hnin Hnd].
  pose proof (leave_room_lookup c name r) as Hl.
  destruct (leave_room c name r) as [r1 a1] eqn:E. specialize (IH Hnd r1).
  destruct (leave_rooms c names r1) as [r2 a2]. simpl in *.
  assert (Hsame : forall n, n ∈ names -> ASend d f ∈ (leave_room c n r1).2 <-> ASend d f ∈ (leave_room c n r).2).
  { intros n Hn. rewrite !leave_room_sends, Hl, decide_False by set_solver. done. }
  rewrite elem_of_app, IH. split.
  - intros [Hin | (n & Hn & Hin)].
    + exists name. rewrite E. set_solver.
    + exists n. rewrite <- Hsame by done. set_solver.
  - intros (n & [-> | Hn]%elem_of_cons & Hin); [left; by rewrite E in Hin |].
    right. exists n. by rewrite Hsame.
Qed.

Lemma remove_rooms h c n :
  rooms (remove_locked h c).1 !! n =
  match heap h !! c with
  | Some cl => if decide (n ∈ channels cl) then rooms h !! n ≫= drop_member c else rooms h !! n
  | None => rooms h !! n
  end.
Proof.
  unfold remove_locked. simpl. destruct (heap h !! c) as [cl |]; [| done].
  pose proof (leave_rooms_lookup c (elements (channels cl)) (rooms h) n (NoDup_elements _)) as Hl.
  destruct (leave_rooms _ _ _) as [r acts]. simpl in *. rewrite Hl.
  destruct (decide (n ∈ elements _)), (decide (n ∈ channels cl)); set_solver.
Qed.

Lemma remove_sends h c cl d f :
  heap h !! c = Some cl ->
  ASend d f ∈ (remove_locked h c).2 <-> exists name, name ∈ channels cl /\ ASend d f ∈ (leave_room c name (rooms h)).2.
Proof.
  intros Hl. unfold remove_locked. rewrite Hl. simpl.
  pose proof (leave_rooms_sends c (elements (channels cl)) (rooms h) d f (NoDup_elements _)) as Hs.
  destruct (leave_rooms _ _ _) as [r acts]. simpl in *. rewrite Hs. by setoid_rewrite elem_of_elements.
Qed.

(** Removing a client of an open hub takes it out of the table and of every
    channel, leaves the other members where they are, and sends, for each presence
    channel it was in, the leave frame with its identity to each other member, and
    nothing else. *)
Theorem remove_complete h c cl :
  hub_ok h -> closed h = false -> heap h !! c = Some cl ->
  let '(h', acts) := remove_locked h c in
  c ∉ table h' /\
  (forall name ch', rooms h' !! name = Some ch' ->
     c ∉ members ch' /\ exists ch, rooms h !! name = Some ch /\ members ch' = members ch ∖ {[c]}) /\
  (forall name ch d, rooms h !! name = Some ch -> d ∈ members ch -> d <> c ->
     exists ch', rooms h' !! name = Some ch' /\ d ∈ members ch') /\
  (forall d f, ASend d f ∈ acts <->
     exists name ch m, rooms h !! name = Some ch /\ roster ch !! c = Some m /\ d ∈ members ch /\ d <> c /\
       f = presenceLeave name m).
Proof.
  intros Hok Hopen Hl. pose proof (remove_rooms h c) as Hr. pose proof (fun d f => remove_sends h c cl d f Hl) as Hs.
  assert (Htab : table (remove_locked h c).1 = table h ∖ {[c]})
    by (unfold remove_locked; by destruct (leave_rooms _ _ _)).
  rewrite Hl in Hr. destruct (remove_locked h c) as [h' acts]. simpl in *.
  assert (Hin : forall name ch, rooms h !! name = Some ch -> c ∈ members ch <-> name ∈ channels cl).
  { intros name ch Hn. split.
    - intros Hc. destruct (co_members _ _ _ (ho_rooms _ Hok _ _ Hn) c Hc) as (cl0 & ? & ? & _). by simplify_eq.
    - intros Hc. destruct (ho_channels _ Hok Hopen _ _ _ Hl Hc) as (ch0 & ? & ?). by simplify_eq. }
  split_and!.
  - rewrite Htab. set_solver.
  - intros name ch'. rewrite Hr. case_decide as Hd.
    + intros (ch & Hn & [_ Hm]%drop_member_spec)%bind_Some. split; [set_solver | eauto].
    + intros Hn. specialize (Hin _ _ Hn). split; [set_solver |]. exists ch'. set_solver.
  - intros name ch d Hn Hd Hne. rewrite Hr, Hn. case_decide; [| by exists ch]. simpl.
    destruct (drop_member c ch) as [ch' |] eqn:Hdrop; [| by apply (drop_member_none _ _ _ Hdrop) in Hd].
    exists ch'. split; [done |]. destruct (drop_member_spec _ _ _ Hdrop) as [_ ->]. set_solver.
  - intros d f. rewrite Hs. setoid_rewrite leave_room_sends. split.
    + intros (name & Hc & ch & Hn & Ht & Hd & Hne & ->). pose proof (co_roster _ _ _ (ho_rooms _ Hok _ _ Hn)) as Hdom.
      rewrite Ht in Hdom. apply (Hin _ _ Hn) in Hc. rewrite <- Hdom in Hc. apply elem_of_dom in Hc as [m Hm].
      exists name, ch, m. by rewrite Hm.
    + intros (name & ch & m & Hn & Hm & Hd & Hne & ->). pose proof (co_roster _ _ _ (ho_rooms _ Hok _ _ Hn)) as Hdom.
      pose proof (elem_of_dom_2 _ _ _ Hm) as Hc. rewrite Hdom in Hc. destruct (typ ch) eqn:Ht; [set_solver.. |].
      exists name. split; [by apply (Hin _ _ Hn) |]. exists ch. by rewrite Hm.
Qed.

(** *** One teardown goroutine for a client *)

Definition flagged (h : hub) (c : string) : bool := match heap h !! c with Some cl => closing cl | None => false end.

Definition is_teardown (c : string) (a : action) : bool := match a with ATearDown d => bool_decide (c = d) | _ => false end.

(** The teardowns of [c] that goroutines have still to do. *)
Definition teardowns (c : string) (gs : list (list action)) : nat := length (base.filter (is_teardown c) (concat gs)).

Lemma teardowns_app c g1 g2 : teardowns c (g1 ++ g2) = (teardowns c g1 + teardowns c g2)%nat.
Proof. unfold teardowns. by rewrite concat_app, filter_app, length_app. Qed.

Lemma teardowns_quiet c acts rest : Forall quiet acts -> teardowns c [acts ++ rest] = teardowns c [rest].
Proof.
  unfold teardowns. simpl. rewrite !app_nil_r, filter_app, length_app. induction 1 as [| a acts Ha _ IH]; [done |].
  rewrite filter_cons, decide_False; [done |]. destruct a; simpl in *; by auto.
Qed.

Lemma teardowns_cons c a rest : (teardowns c [rest] <= teardowns c [a :: rest])%nat.
Proof. unfold teardowns. simpl. rewrite !app_nil_r, filter_cons. case_decide; simpl; lia. Qed.

Lemma flagged_alter f c h d : (forall cl, closing (f cl) = closing cl) -> flagged (alter_client f c h) d = flagged h d.
Proof.
  intros Hf. unfold flagged. simpl. destruct (decide (c = d)) as [<- | Hne]; [| by rewrite lookup_alter_ne].
  rewrite lookup_alter, decide_True by done. by destruct (heap h !! c); simpl.
Qed.

Lemma triggerClose_flag c cl h h' new d :
  heap h !! c = Some cl -> triggerClose c cl h = (h', new) ->
  (teardowns d new + Nat.b2n (flagged h d) <= Nat.b2n (flagged h' d))%nat.
Proof.
  intros Hl. unfold triggerClose. destruct (closing cl) eqn:Hc; intros [= <- <-]; [unfold teardowns; simpl; lia |].
  unfold teardowns, flagged. simpl. rewrite filter_cons. destruct (decide (c = d)) as [<- | Hne].
  - rewrite lookup_alter, !decide_True, Hl by (done || by apply bool_decide_pack). simpl. rewrite Hc. simpl. lia.
  - rewrite lookup_alter_ne by done. rewrite decide_False; [simpl; lia |]. simpl. by intros ->%bool_decide_unpack.
Qed.

Lemma Add_flagged credentials h h' id c :
  0 <= counter h -> counter h + 1 < 2 ^ 64 -> hub_ok h -> Add credentials h = Ok (h', id) -> flagged h' c = flagged h c.
Proof.
  intros Hc Hmax Hok Hadd. pose proof (Add_fresh _ _ _ _ Hc Hmax Hok Hadd) as Hfresh. revert Hadd. unfold Add.
  destruct (closed h); [done |]. intros [= <- <-]. unfold flagged. simpl.
  destruct (decide (newClientID (u64 (counter h + 1)) = c)) as [<- | Hne].
  - by rewrite lookup_insert, decide_True, Hfresh.
  - by rewrite lookup_insert_ne.
Qed.

(** An action starts a teardown only where it raises the flag of the client. *)
Definition flag_ok (h h' : hub) (acts : list action) (new : list (list action)) (c : string) : Prop :=
  (teardowns c new + Nat.b2n (flagged h c) <= Nat.b2n (flagged h' c))%nat /\
  forall rest, teardowns c [acts ++ rest] = teardowns c [rest].

Lemma flag_stay h h' acts c : flagged h' c = flagged h c -> Forall quiet acts -> flag_ok h h' acts [] c.
Proof. intros Hf Hq. unfold flag_ok. rewrite Hf. split; [done |]. intros. by apply teardowns_quiet. Qed.

Lemma flag_trigger h h1 h' c new cl d :
  heap h1 !! d = Some cl -> flagged h1 c = flagged h c -> triggerClose d cl h1 = (h', new) -> flag_ok h h' [] new c.
Proof. intros Hl Hf Ht. unfold flag_ok. rewrite <- Hf. split; [by eapply triggerClose_flag | done]. Qed.

Lemma perform_flag pick ok a h h' acts new c :
  0 <= counter h -> counter h + 1 < 2 ^ 64 -> hub_ok h ->
  perform pick ok a h = Some (h', acts, new) -> flag_ok h h' acts new c.
Proof.
  intros Hc Hmax Hok Hp.
  destruct a as [cr | d name | d name m | d name | name m ex | id payload | d m | d m | e | d | d | d | d | d | d |]; simpl in Hp.
  - destruct (Add cr h) as [[h1 id] | e] eqn:Hadd; [| by injection Hp as <- <- <-; eapply flag_stay].
    injection Hp as <- <- <-. split; [| done]. by rewrite (Add_flagged _ _ _ _ c Hc Hmax Hok Hadd).
  - destruct (authorize_join h d name); injection Hp as <- <- <-; [by split | by apply flag_stay].
  - destruct (subscribe_locked h d name m) as [[h1 a1] | e] eqn:Hs; injection Hp as <- <- <-; [| by apply flag_stay].
    apply flag_stay; [| by eapply subscribe_quiet].
    destruct (subscribe_spec _ _ _ _ _ _ Hok Hs) as [_ [-> | ->]]; [done | by apply flagged_alter].
  - unfold unsubscribe_locked in Hp. destruct (rooms h !! name); [| by injection Hp as <- <- <-; eapply flag_stay].
    case_bool_decide; [| by injection Hp as <- <- <-; eapply flag_stay].
    pose proof (leave_room_quiet d name (rooms h)). destruct (leave_room d name (rooms h)). injection Hp as <- <- <-.
    apply flag_stay; [by apply flagged_alter | done].
  - destruct (broadcast_targets h name ex); injection Hp as <- <- <-; apply flag_stay; try done. by apply quiet_map.
  - destruct (SendTo h id); injection Hp as <- <- <-; apply flag_stay; try done; by repeat constructor.
  - destruct (heap h !! d) as [cl |]; [| done]. injection Hp as <- <- <-. apply flag_stay; [done |]. destruct (done cl); by repeat constructor.
  - destruct (heap h !! d) as [cl |] eqn:Hl; [| done]. simpl in Hp. destruct (Nat.ltb _ _); [| destruct (done cl)].
    + destruct (done cl && pick); injection Hp as <- <- <-; apply flag_stay; try done; by apply flagged_alter.
    + injection Hp as <- <- <-. by apply flag_stay.
    + destruct slowPolicy; [injection Hp as <- <- <-; apply flag_stay; try done; by apply flagged_alter |].
      destruct (triggerClose d cl h) as [h1 gs1] eqn:Ht. injection Hp as <- <- <-. by apply (flag_trigger h h _ c _ cl d).
  - injection Hp as <- <- <-. by apply flag_stay.
  - destruct (heap h !! d) as [cl |]; [| done]. simpl in Hp. destruct (closeOnce cl); simplify_eq; [| by apply flag_stay].
    apply flag_stay; [by apply flagged_alter | by repeat constructor].
  - destruct (heap h !! d) as [cl |]; [| done]. simpl in Hp. destruct (closeOnce cl); simplify_eq; [| by apply flag_stay].
    apply flag_stay; [by apply flagged_alter | by repeat constructor].
  - unfold remove_locked in Hp. set (names := match heap h !! d with Some cl => elements (channels cl) | None => [] end) in *.
    pose proof (leave_rooms_quiet d names (rooms h)). simpl in Hp. destruct (leave_rooms d names (rooms h)). injection Hp as <- <- <-.
    apply flag_stay; [by apply (flagged_alter (set_channels (fun _ => ∅)) d h) | done].
  - injection Hp as <- <- <-. apply flag_stay; [by apply flagged_alter | done].
  - injection Hp as <- <- <-. apply flag_stay; [by apply flagged_alter | done].
  - destruct (heap h !! d) as [cl |] eqn:Hl; [| done]. simpl in Hp.
    destruct (done cl && pick); [injection Hp as <- <- <-; by apply flag_stay |].
    destruct (outbox cl) as [| m rest]; [destruct (done cl); simplify_eq; by apply flag_stay |].
    destruct ok; [injection Hp as <- <- <-; apply flag_stay; [by apply flagged_alter | by repeat constructor] |].
    destruct (triggerClose _ _ _) as [h1 gs1] eqn:Ht. injection Hp as <- <- <-.
    apply (flag_trigger h (alter_client (pop_frame m rest) d h) _ c _ (pop_frame m rest cl) d); try done; [| by apply flagged_alter].
    simpl. by rewrite lookup_alter, decide_True, Hl.
  - unfold Close in Hp. destruct (closed h); injection Hp as <- <- <-; apply flag_stay; try done. by apply quiet_map.
Qed.

Lemma teardowns_insert c gs i g g' :
  gs !! i = Some g -> (teardowns c (<[i := g']> gs) + teardowns c [g] = teardowns c gs + teardowns c [g'])%nat.
Proof. intros Hi. unfold teardowns. simpl. rewrite !app_nil_r. by apply count_insert. Qed.

Lemma step_teardowns s s' :
  0 <= counter (state s) -> counter (state s) + 1 < 2 ^ 64 -> system_ok s -> step s s' ->
  (forall c, teardowns c (gs s) <= Nat.b2n (flagged (state s) c))%nat ->
  forall c, (teardowns c (gs s') <= Nat.b2n (flagged (state s') c))%nat.
Proof.
  intros Hc Hmax [Hok _] Hs Hinv c. specialize (Hinv c).
  destruct Hs as [a h gs Ha | i a rest pick ok h gs h' acts new Hi Hp]; simpl in *; rewrite teardowns_app.
  - assert (teardowns c [[a]] = 0%nat) by (unfold teardowns; simpl; rewrite filter_cons, decide_False; [done | destruct a; simpl in *; by auto]). lia.
  - destruct (perform_flag _ _ _ _ _ _ _ c Hc Hmax Hok Hp) as [Hn Hr].
    pose proof (teardowns_insert c gs i _ (acts ++ rest) Hi) as Hins. rewrite Hr in Hins.
    pose proof (teardowns_cons c a rest). lia.
Qed.

(** However many frames overflow and however many writes fail, at most one
    teardown goroutine of a client has its work before it. *)
Theorem one_teardown n s c :
  Z.of_nat n < 2 ^ 64 -> nsteps step n start s -> (teardowns c (gs s) <= 1)%nat.
Proof.
  intros Hn Hs. assert (H : forall c, (teardowns c (gs s) <= Nat.b2n (flagged (state s) c))%nat).
  { revert s Hs. induction n as [| n IH]; intros s Hs; [inversion Hs; subst; done |].
    apply nsteps_inv_r in Hs as (s1 & Hs1 & Hstep). destruct (reachable_ok n s1) as [Hok Hc]; [lia | done |].
    apply (step_teardowns s1); [lia | lia | done | done |]. apply IH; [lia | done]. }
  specialize (H c). destruct (flagged (state s) c); simpl in H; lia.
Qed.

(** *** The properties *)

(** In every reachable state of the hub, whatever calls were made and however
    their goroutines interleave (with fewer than 2^64 steps): each channel is of
    the type its name says, is not empty, lists only clients that list it, each of
    them authorized, and has a roster entry for exactly its members when it is a
    presence channel; a closed hub has no channels; an open one has every channel a
    client lists; outboxes are bounded and keep the order. *)
Theorem hub_well_formed n s :
  Z.of_nat n < 2 ^ 64 -> nsteps step n start s -> hub_ok (state s).
Proof. intros Hn Hs. by destruct (reachable_ok n s Hn Hs) as [[Hok _] _]. Qed.

(** C11: Whoever is in a private or presence channel was let in by the authorizer,
    under the credentials of the connection; the roster shows the identity it
    gave, or the client's id where it gave none; without an authorizer only
    public channels have members. *)
Theorem members_were_authorized n s name ch c :
  Z.of_nat n < 2 ^ 64 -> nsteps step n start s ->
  rooms (state s) !! name = Some ch -> c ∈ members ch -> ClassifyChannel name <> Public ->
  exists authorize cl m, authorizer = Some authorize /\ heap (state s) !! c = Some cl /\
    authorize name (ClassifyChannel name) c (auth cl) = Some m /\
    (ClassifyChannel name = Presence ->
       roster ch !! c = Some (if bool_decide (m_ID m = EmptyString) then mkMember c (m_Info m) else m)).
Proof.
  intros Hn Hs Hr Hc Ht. destruct (reachable_ok n s Hn Hs) as [[Hok _] _].
  pose proof (ho_rooms _ Hok _ _ Hr) as [Hty _ Hdom Hm Hid]. destruct (Hm c Hc) as (cl & Hl & _ & m & Ha).
  assert (Hros : ClassifyChannel name = Presence -> exists m', roster ch !! c = Some m').
  { intros He. rewrite Hty, He in Hdom. apply elem_of_dom. by rewrite Hdom. }
  assert (Hsame : forall m', roster ch !! c = Some m' -> m' = m) by (intros m' Hm'; apply Hid in Hm'; congruence).
  unfold authorize_join in Ha. rewrite Hl in Ha.
  destruct (ClassifyChannel name) eqn:Hclass; [done | |]; (destruct authorizer as [authorize |]; [| done]);
    (destruct (authorize _ _ _ _) as [m0 |] eqn:Hau; [| done]); exists authorize, cl, m0; split_and!; try done.
  intros _. destruct (Hros eq_refl) as [m' Hm']. rewrite Hm', (Hsame _ Hm'). by simplify_eq.
Qed.

(** What the transport gets is a prefix of what was queued, in order; the rest is
    in the outbox, which is within its capacity. *)
Theorem frames_in_order n s c cl :
  Z.of_nat n < 2 ^ 64 -> nsteps step n start s -> heap (state s) !! c = Some cl ->
  queued cl = written cl ++ outbox cl /\ (length (outbox cl) <= capacity)%nat.
Proof.
  intros Hn Hs Hl. destruct (reachable_ok n s Hn Hs) as [[Hok _] _].
  by destruct (ho_clients _ Hok _ _ Hl) as [? ?].
Qed.

(** Once the hub is closed the removal of a client announces nothing. *)
Theorem closed_hub_is_silent h c : hub_ok h -> closed h = true -> (remove_locked h c).2 = [].
Proof.
  intros Hok Hc. destruct (ho_closed _ Hok Hc) as [Hr _]. unfold remove_locked. simpl. rewrite Hr.
  set (names := match heap h !! c with Some cl => elements (channels cl) | None => [] end). clearbody names.
  assert (H : leave_rooms c names ∅ = (∅, [])).
  { induction names as [| name names IH]; [done |]. simpl. unfold leave_room. by rewrite lookup_empty, IH. }
  by rewrite H.
Qed.

(** *** Runs *)

Inductive move := Call (a : action) | Run (i : nat) (pick ok : bool).

Definition move_once (mv : move) (s : system) : option system :=
  match mv with
  | Call a => if api (state s) a then Some (mkSystem (state s) (gs s ++ [[a]])) else None
  | Run i pick ok =>
      match gs s !! i with
      | Some (a :: rest) =>
          match perform pick ok a (state s) with
          | Some (h, acts, new) => Some (mkSystem h (<[i := acts ++ rest]> (gs s) ++ new))
          | None => None
          end
      | _ => None
      end
  end.

Fixpoint run_moves (mvs : list move) (s : system) : option system :=
  match mvs with [] => Some s | mv :: mvs => s ← move_once mv s; run_moves mvs s end.

Lemma move_once_sound mv s s' : move_once mv s = Some s' -> step s s'.
Proof.
  destruct s as [h g], mv as [a | i pick ok]; simpl.
  - destruct (api h a) eqn:Ha; [| done]. intros [= <-]. by constructor.
  - destruct (g !! i) as [[| a rest] |] eqn:Hi; [done | | done].
    destruct (perform pick ok a h) as [[[h' acts] new] |] eqn:Hp; [| done]. intros [= <-]. by econstructor.
Qed.

Lemma run_moves_sound mvs s s' : run_moves mvs s = Some s' -> nsteps step (length mvs) s s'.
Proof.
  revert s. induction mvs as [| mv mvs IH]; intros s; simpl; [intros [= <-]; constructor |].
  destruct (move_once mv s) as [s1 |] eqn:Hm; [| done]. simpl. intros Hr.
  econstructor; [by apply move_once_sound in Hm | by apply IH].
Qed.
End Hub.

(** *** Witnesses *)

(** An authorizer that takes the token for the identity. *)
Definition anyone : option (string -> ChannelType -> string -> string -> option Member) :=
  Some (fun _ _ _ token => Some (mkMember token EmptyString)).

Definition join_script : list move :=
  [Call (AAdd "ann"); Run 0 false true; Call (AJoin "client-1" "presence-lobby"); Run 2 false true; Run 2 false true].

Definition reached (capacity : nat) (policy : SlowConsumerPolicy) (mvs : list move) : system :=
  default start (run_moves capacity policy anyone mvs start).

Lemma hub_well_formed_witness :
  hub_ok 64 anyone (state (reached 64 DropMessage join_script)).
Proof.
  refine (hub_well_formed 64 DropMessage _ (length join_script) _ _ _); [done |].
  apply run_moves_sound. vm_compute. reflexivity.
Defined.

Lemma members_were_authorized_witness :
  exists authorize cl m, anyone = Some authorize /\
    heap (state (reached 64 DropMessage join_script)) !! "client-1" = Some cl /\
    authorize "presence-lobby" (ClassifyChannel "presence-lobby") "client-1" (auth cl) = Some m /\
    (ClassifyChannel "presence-lobby" = Presence ->
       ({["client-1" := mkMember "ann" EmptyString]} : gmap string Member) !! "client-1" =
       Some (if bool_decide (m_ID m = EmptyString) then mkMember "client-1" (m_Info m) else m)).
Proof.
  refine (members_were_authorized 64 DropMessage _ (length join_script) (reached 64 DropMessage join_script) "presence-lobby"
    (mkChannel Presence {["client-1"]} {["client-1" := mkMember "ann" EmptyString]}) "client-1" _ _ _ _ _).
  - done.
  - apply run_moves_sound. vm_compute. reflexivity.
  - vm_compute. reflexivity.
  - simpl. set_solver.
  - done.
Defined.

Lemma remove_complete_witness :
  "client-1" ∉ table (remove_locked (state (reached 64 DropMessage join_script)) "client-1").1.
Proof.
  assert (Hs : nsteps (step 64 DropMessage anyone) (length join_script) start (reached 64 DropMessage join_script))
    by (apply run_moves_sound; vm_compute; reflexivity).
  assert (Hopen : closed (state (reached 64 DropMessage join_script)) = false) by (vm_compute; reflexivity).
  assert (Hin : is_Some (heap (state (reached 64 DropMessage join_script)) !! "client-1")) by (vm_compute; eexists; reflexivity).
  apply reachable_ok in Hs as [[Hok _] _]; [| done]. revert Hok Hopen Hin.
  generalize (state (reached 64 DropMessage join_script)) as h. intros h Hok Hopen [cl Hl].
  pose proof (remove_complete 64 anyone h "client-1" cl Hok Hopen Hl) as H.
  destruct (remove_locked h "client-1") as [h' acts]. apply H.
Defined.

(** A [Subscribe] that is past its authorization while the client closes: the
    client is gone from the table, closed for good, and yet a member of the room
    and in its roster; every goroutine has ended, and closing the client again does
    nothing. *)
Definition rejoin_script : list move :=
  [Call (AAdd "ann"); Run 0 false true; Call (AJoin "client-1" "presence-lobby"); Run 2 false true;
   Call (AClose "client-1"); Run 3 false true; Run 3 false true; Run 3 false true; Run 3 false true;
   Run 2 false true; Run 2 false true; Run 2 false true; Run 2 false true; Run 1 true true].

Theorem closed_client_rejoins :
  exists s cl, rtc (step 64 DropMessage anyone) start s /\
    Forall (fun g => g = []) (gs s) /\
    heap (state s) !! "client-1" = Some cl /\ closeOnce cl = Finished /\ conn_closed cl = true /\
    Count (state s) = 0%nat /\ ChannelCount (state s) "presence-lobby" = 1%nat /\
    Roster (state s) "presence-lobby" = [mkMember "ann" EmptyString] /\
    events (state s) = [mkEvent "presence-lobby" true (mkMember "ann" EmptyString)] /\
    perform 64 DropMessage anyone true true (AClose "client-1") (state s) = Some (state s, [], []).
Proof.
  destruct (run_moves 64 DropMessage anyone rejoin_script start) as [s |] eqn:Hr; [| by vm_compute in Hr].
  pose proof (run_moves_sound _ _ _ _ _ _ Hr) as Hs. vm_compute in Hr. simplify_eq.
  eexists _, _. split; [by apply rtc_nsteps_2 in Hs |]. split_and!; try (vm_compute; reflexivity).
  repeat constructor.
Qed.

(** Two members join one after the other; the first one's own snapshot, which does
    not show the second, reaches its outbox after the news of the second's
    coming. *)
Definition stale_script : list move :=
  [Call (AAdd "ann"); Run 0 false true; Call (AAdd "bob"); Run 2 false true;
   Call (AJoin "client-1" "presence-lobby"); Run 4 false true; Run 4 false true;
   Call (AJoin "client-2" "presence-lobby"); Run 5 false true; Run 5 false true]
  ++ concat (replicate 7 [Run 5 false true]) ++ concat (replicate 2 [Run 4 false true]).

Example stale_snapshot :
  match run_moves 64 DropMessage anyone stale_script start with
  | Some s => option_map outbox (heap (state s) !! "client-1") =
      Some [presenceJoin "presence-lobby" (mkMember "bob" EmptyString); presenceState "presence-lobby" []]
  | None => False
  end.
Proof. vm_compute. reflexivity. Qed.
