(* ===== verification/Container.v ===== *)
(** The service container: [src/container/container.go].

    Containers and providers are pointers, so a [heap] holds them by number.  A
    factory is user code: a [prog] that resolves keys, one after the other, each
    on a container it can reach, and ends with a value and an error, or a panic.
    A goroutine is a stack of [frame]s, the resolutions it is in; its part of
    [resolving] is read off that stack.  [gstep] is one step of a goroutine,
    [None] when it waits in [once.Do] or has nothing left to do, and [step]
    interleaves goroutines and the operations on containers.

    Reflection is a parameter: [assignable v t] is whether a value of dynamic type
    [v] passes the assertion to [t], [zero t] the zero value of [t].  Ids of
    goroutines are told apart by their position. *)

From Stdlib Require Import ZArith Lia.
From stdpp Require Import base gmap strings list relations sets.
From S2P Require Import Prelude.

#[local] Set Warnings "-register-all".

(** ** Data *)

Inductive any := Nil | Value (typ : string) (payload : Z).

(** A type and a name. *)
Definition key : Type := string * string.

Inductive error := ErrNotBound (k : key) | cyclicError (chain : list key) | Failure (msg : string) | Unexpected (k : key).

#[export] Instance any_eq_dec : EqDecision any.
Proof. solve_decision. Defined.
#[export] Instance error_eq_dec : EqDecision error.
Proof. solve_decision. Defined.

(** User code between two resolutions. *)
Inductive prog :=
| Ret (v : any) (err : option error)
| Panics
| Resolve (c : nat) (k : key) (cont : any -> option error -> prog).

Inductive once := Fresh | Running | Finished.

#[export] Instance once_eq_dec : EqDecision once.
Proof. solve_decision. Defined.

(** [runs] counts, for the theorems, how often the factory was started under
    [once]. *)
Record provider := mkProvider {
  factory : option (nat -> prog); singleton : bool; once_of : once; instance : any; instErr : option error; runs : nat }.

Record container := mkContainer { parent : option nat; providers : gmap key nat }.

Record heap := mkHeap { containers : list container; provs : list provider }.

(** ** Registration *)

Definition empty_heap : heap := mkHeap [] [].

Definition New (h : heap) : heap * nat :=
  (mkHeap (containers h ++ [mkContainer None ∅]) (provs h), length (containers h)).

Definition Scope (h : heap) (c : nat) : heap * nat :=
  (mkHeap (containers h ++ [mkContainer (Some c) ∅]) (provs h), length (containers h)).

Definition register (h : heap) (c : nat) (k : key) (p : provider) : heap :=
  mkHeap (alter (fun ct => mkContainer (parent ct) (<[k := length (provs h)]> (providers ct))) c (containers h))
    (provs h ++ [p]).

Definition bind (h : heap) (c : nat) (t name : string) (single : bool) (f : nat -> prog) : heap :=
  register h c (t, name) (mkProvider (Some f) single Fresh Nil None 0).

Definition InstanceNamed (h : heap) (c : nat) (t name : string) (v : any) : heap :=
  register h c (t, name) (mkProvider None true Fresh v None 0).

Definition Bind (h : heap) (c : nat) (t : string) (f : nat -> prog) : heap := bind h c t EmptyString false f.
Definition Singleton (h : heap) (c : nat) (t : string) (f : nat -> prog) : heap := bind h c t EmptyString true f.
Definition BindNamed (h : heap) (c : nat) (t name : string) (f : nat -> prog) : heap := bind h c t name false f.
Definition SingletonNamed (h : heap) (c : nat) (t name : string) (f : nat -> prog) : heap := bind h c t name true f.
Definition Instance_ (h : heap) (c : nat) (t : string) (v : any) : heap := InstanceNamed h c t EmptyString v.

(** ** Lookup *)

(** The walks up the parents; a parent was made before its scopes, so the number
    of the container is fuel enough. *)
Fixpoint root_from (fuel : nat) (cs : list container) (c : nat) : nat :=
  match fuel with
  | O => c
  | S fuel => match cs !! c ≫= parent with Some p => root_from fuel cs p | None => c end
  end.
Definition root (h : heap) (c : nat) : nat := root_from c (containers h) c.

Fixpoint lookup_from (fuel : nat) (cs : list container) (c : nat) (k : key) : option (nat * nat) :=
  match cs !! c with
  | None => None
  | Some ct =>
      match providers ct !! k with
      | Some p => Some (p, c)
      | None => match fuel, parent ct with S fuel, Some up => lookup_from fuel cs up k | _, _ => None end
      end
  end.
Definition lookup (h : heap) (c : nat) (k : key) : option (nat * nat) := lookup_from c (containers h) c k.

(** ** Resolution *)

(** What a frame is the factory of: the root and the key it pushed, and the
    provider whose [once] it runs under. *)
Record target := mkTarget { t_root : nat; t_key : key; t_once : option nat }.

Record frame := mkFrame { f_target : option target; f_body : prog }.

(** [root.resolving[gid]], the oldest first. *)
Definition resolving (r : nat) (fs : list frame) : list key :=
  reverse (omap (fun f => t ← f_target f; if decide (t_root t = r) then Some (t_key t) else None) fs).

Definition with_provider (h : heap) (i : nat) (p : provider) : heap := mkHeap (containers h) (<[i := p]> (provs h)).

Definition start_once (p : provider) : provider :=
  mkProvider (factory p) (singleton p) Running (instance p) (instErr p) (S (runs p)).

(** The end of [once.Do]: the results are assigned unless the factory panicked;
    the panic counts as having run. *)
Definition end_once (res : option (any * option error)) (p : provider) : provider :=
  match res with
  | Some (v, e) => mkProvider (factory p) (singleton p) Finished v e (runs p)
  | None => mkProvider (factory p) (singleton p) Finished (instance p) (instErr p) (runs p)
  end.

Definition finish (h : heap) (f : frame) (res : option (any * option error)) : heap :=
  match f_target f ≫= t_once with
  | Some i => match provs h !! i with Some p => with_provider h i (end_once res p) | None => h end
  | None => h
  end.

(** [resolve], up to the call of a factory. *)
Inductive resolved := Answer (v : any) (err : option error) | Call_ (h : heap) (f : frame) | Blocked.

Definition resolve (h : heap) (c : nat) (k : key) (fs : list frame) : resolved :=
  match lookup h c k with
  | None => Answer Nil (Some (ErrNotBound k))
  | Some (i, owner) =>
      let stack := resolving (root h c) fs in
      if decide (k ∈ stack) then Answer Nil (Some (cyclicError (stack ++ [k])))
      else
        match provs h !! i with
        | None => Blocked
        | Some p =>
            match factory p with
            | None => Answer (instance p) (instErr p)
            | Some f =>
                if negb (singleton p) then Call_ h (mkFrame (Some (mkTarget (root h c) k None)) (f c))
                else
                  match once_of p with
                  | Fresh => Call_ (with_provider h i (start_once p)) (mkFrame (Some (mkTarget (root h c) k (Some i))) (f owner))
                  | Running => Blocked
                  | Finished => Answer (instance p) (instErr p)
                  end
            end
        end
  end.

(** [wrap]: an error hides the value. *)
Definition wrap (v : any) (e : option error) : any * option error := match e with Some _ => (Nil, e) | None => (v, None) end.

(** One step of a goroutine; the innermost frame first.  A frame that waits for
    its callee is still at the [Resolve] that called it. *)
Definition gstep (h : heap) (fs : list frame) : option (heap * list frame) :=
  match fs with
  | [] => None
  | f :: outer =>
      match f_body f with
      | Ret v e =>
          match outer with
          | g :: rest =>
              match f_body g with
              | Resolve _ _ cont => let '(v, e) := wrap v e in Some (finish h f (Some (v, e)), mkFrame (f_target g) (cont v e) :: rest)
              | _ => None
              end
          | [] => None
          end
      | Panics =>
          match outer with
          | g :: rest => Some (finish h f None, mkFrame (f_target g) Panics :: rest)
          | [] => None
          end
      | Resolve c k cont =>
          match resolve h c k fs with
          | Answer v e => Some (h, mkFrame (f_target f) (cont v e) :: outer)
          | Call_ h' callee => Some (h', callee :: fs)
          | Blocked => None
          end
      end
  end.

(** ** The generic entry points *)

Section Typed.
Context (assignable : string -> string -> bool) (zero : string -> any).

(** [MakeNamed]: what the caller goes on with. *)
Definition MakeNamed (c : nat) (t name : string) (next : any -> option error -> prog) : prog :=
  Resolve c (t, name) (fun v err =>
    match err with
    | Some e => next (zero t) (Some e)
    | None =>
        match v with
        | Nil => next (zero t) None
        | Value dyn _ => if assignable dyn t then next v None else next (zero t) (Some (Unexpected (t, name)))
        end
    end).

Definition Make (c : nat) (t : string) (next : any -> option error -> prog) : prog := MakeNamed c t EmptyString next.

Definition MustMakeNamed (c : nat) (t name : string) (next : any -> prog) : prog :=
  MakeNamed c t name (fun v err => match err with Some _ => Panics | None => next v end).
Definition MustMake (c : nat) (t : string) (next : any -> prog) : prog := MustMakeNamed c t EmptyString next.

(** A struct field: its type, whether it is exported, its [inject] tag. *)
Record Field := mkField { fd_name : string; fd_type : string; fd_exported : bool; fd_inject : option string }.

Definition is_not_bound (e : error) : bool := match e with ErrNotBound _ => true | _ => false end.

(** The loop of [Build] over the fields; [acc] holds the fields set so far. *)
Fixpoint Build_fields (c : nat) (fields : list Field) (acc : gmap string any)
    (next : gmap string any + error -> prog) : prog :=
  match fields with
  | [] => next (inl acc)
  | fd :: fields =>
      let skip := match fd_inject fd with Some tag => bool_decide (tag = "-"%string) | None => false end in
      if negb (fd_exported fd) || skip then Build_fields c fields acc next
      else
        let required := match fd_inject fd with Some _ => true | None => false end in
        Resolve c (fd_type fd, default EmptyString (fd_inject fd)) (fun v err =>
          match err with
          | Some e =>
              if is_not_bound e && negb required then Build_fields c fields acc next else next (inr e)
          | None =>
              match v with
              | Nil => Build_fields c fields acc next
              | Value dyn _ =>
                  if assignable dyn (fd_type fd) then Build_fields c fields (<[fd_name fd := v]> acc) next
                  else next (inr (Unexpected (fd_type fd, default EmptyString (fd_inject fd))))
              end
          end)
  end.
End Typed.

(** ** Interleavings *)

Record system := mkSystem { mem : heap; gos : list (list frame) }.

(** Goroutines run user code; containers are made, scoped and bound to at any
    time. *)
Inductive step : system -> system -> Prop :=
| step_new h gs : step (mkSystem h gs) (mkSystem (New h).1 gs)
| step_scope h gs c : (c < length (containers h))%nat -> step (mkSystem h gs) (mkSystem (Scope h c).1 gs)
| step_bind h gs c t name single f : step (mkSystem h gs) (mkSystem (bind h c t name single f) gs)
| step_instance h gs c t name v : step (mkSystem h gs) (mkSystem (InstanceNamed h c t name v) gs)
| step_go h gs p : step (mkSystem h gs) (mkSystem h (gs ++ [[mkFrame None p]]))
| step_run h gs i fs h' fs' :
    gs !! i = Some fs -> gstep h fs = Some (h', fs') -> step (mkSystem h gs) (mkSystem h' (<[i := fs']> gs)).

Definition start : system := mkSystem empty_heap [].

(** ** A singleton is built once *)

Definition holds (i : nat) (f : frame) : Prop := f_target f ≫= t_once = Some i.

#[export] Instance holds_dec i f : Decision (holds i f).
Proof. unfold holds. apply _. Defined.

(** The frames that run under the [once] of the provider. *)
Definition holders (i : nat) (fs : list frame) : nat := length (base.filter (holds i) fs).

Lemma holders_cons i f fs : holders i (f :: fs) = ((if decide (holds i f) then 1 else 0) + holders i fs)%nat.
Proof. unfold holders. rewrite filter_cons. by case_decide. Qed.

Lemma holders_same i f g fs : f_target f = f_target g -> holders i (f :: fs) = holders i (g :: fs).
Proof.
  intros Ht. rewrite !holders_cons. f_equal. destruct (decide (holds i f)), (decide (holds i g)); unfold holds in *; congruence.
Qed.

(** What a step does to the providers. *)
Inductive effect (h : heap) (fs : list frame) : heap -> list frame -> Prop :=
| effect_none fs' : (forall i, holders i fs' = holders i fs) -> effect h fs h fs'
| effect_start fs' j p :
    provs h !! j = Some p -> once_of p = Fresh -> (forall i, holders i fs' = ((if decide (j = i) then 1 else 0) + holders i fs)%nat) ->
    effect h fs (with_provider h j (start_once p)) fs'
| effect_end fs' j res :
    (forall i, holders i fs = ((if decide (j = i) then 1 else 0) + holders i fs')%nat) ->
    effect h fs (match provs h !! j with Some p => with_provider h j (end_once res p) | None => h end) fs'.

Lemma finish_effect h f g g' rest res :
  f_target g = f_target g' -> effect h (f :: g :: rest) (finish h f res) (g' :: rest).
Proof.
  intros Ht. unfold finish. destruct (f_target f ≫= t_once) as [j |] eqn:Hj.
  - apply effect_end. intros i. rewrite (holders_cons i f), (holders_same i g g') by done. f_equal.
    destruct (decide (holds i f)), (decide (j = i)); unfold holds in *; congruence.
  - apply effect_none. intros i. rewrite (holders_cons i f), decide_False by (unfold holds; by rewrite Hj).
    by rewrite (holders_same i g g').
Qed.

Lemma gstep_effect h fs h' fs' : gstep h fs = Some (h', fs') -> effect h fs h' fs'.
Proof.
  unfold gstep. destruct fs as [| f outer]; [done |]. destruct (f_body f) as [v e | | c k cont].
  - destruct outer as [| g rest]; [done |]. destruct (f_body g); [done.. |].
    destruct (wrap v e). intros [= <- <-]. by apply finish_effect.
  - destruct outer as [| g rest]; [done |]. intros [= <- <-]. by apply finish_effect.
  - unfold resolve.
    assert (Hans : forall v e, effect h (f :: outer) h (mkFrame (f_target f) (cont v e) :: outer))
      by (intros; apply effect_none; intros; by apply holders_same).
    destruct (lookup h c k) as [[i owner] |]; [| by intros [= <- <-]].
    case_decide; [by intros [= <- <-] |]. destruct (provs h !! i) as [p |] eqn:Hp; [| done].
    destruct (factory p) as [fac |]; [| by intros [= <- <-]]. destruct (negb (singleton p)).
    + intros [= <- <-]. apply effect_none. intros j. by rewrite holders_cons, decide_False.
    + destruct (once_of p) eqn:Ho; [| done | by intros [= <- <-]]. intros [= <- <-].
      eapply effect_start; [done.. |]. intros j. rewrite (holders_cons j). f_equal.
      destruct (decide (holds j _)), (decide (i = j)); unfold holds in *; simpl in *; congruence.
Qed.

Definition provider_ok (n : nat) (p : provider) : Prop :=
  match once_of p with
  | Fresh => runs p = 0%nat /\ n = 0%nat
  | Running => runs p = 1%nat /\ n = 1%nat
  | Finished => runs p = 1%nat /\ n = 0%nat
  end.

Definition once_inv (s : system) : Prop :=
  forall i, match provs (mem s) !! i with
            | Some p => provider_ok (holders i (concat (gos s))) p
            | None => holders i (concat (gos s)) = 0%nat
            end.

Lemma effect_inv h gs i fs h' fs' :
  gs !! i = Some fs -> effect h fs h' fs' -> once_inv (mkSystem h gs) -> once_inv (mkSystem h' (<[i := fs']> gs)).
Proof.
  intros Hi He Hinv j. specialize (Hinv j). simpl in *.
  pose proof (count_insert (holds j) gs i fs fs' Hi) as Hc. fold (holders j fs) (holders j fs') in Hc.
  fold (holders j (concat gs)) (holders j (concat (<[i := fs']> gs))) in Hc.
  destruct He as [fs' Hs | fs' j0 p Hp Hfresh Hs | fs' j0 res Hs]; specialize (Hs j).
  - replace (holders j (concat (<[i := fs']> gs))) with (holders j (concat gs)) by lia. done.
  - simpl. destruct (decide (j0 = j)) as [<- | Hne].
    + rewrite Hp in Hinv. rewrite list_lookup_insert_eq by (by eapply lookup_lt_Some). unfold provider_ok in *. simpl.
      rewrite Hfresh in Hinv. lia.
    + rewrite list_lookup_insert_ne by done.
      replace (holders j (concat (<[i := fs']> gs))) with (holders j (concat gs)) by lia. done.
  - destruct (decide (j0 = j)) as [<- | Hne].
    + destruct (provs h !! j0) as [p |] eqn:Hp; simpl; [| rewrite Hp; lia].
      rewrite list_lookup_insert_eq by (by eapply lookup_lt_Some).
      unfold provider_ok in *. destruct (once_of p) eqn:Ho; destruct res as [[] |]; simpl; lia.
    + assert (Hsame : provs (match provs h !! j0 with Some p => with_provider h j0 (end_once res p) | None => h end) !! j = provs h !! j)
        by (destruct (provs h !! j0); [simpl; by rewrite list_lookup_insert_ne | done]).
      rewrite Hsame. replace (holders j (concat (<[i := fs']> gs))) with (holders j (concat gs)) by lia. done.
Qed.

Lemma register_inv h gs c k p :
  once_of p = Fresh -> runs p = 0%nat -> once_inv (mkSystem h gs) -> once_inv (mkSystem (register h c k p) gs).
Proof.
  intros Ho Hr Hinv i. specialize (Hinv i). simpl in *. destruct (decide (i < length (provs h))%nat) as [Hlt | Hge].
  - by rewrite lookup_app_l.
  - rewrite (lookup_ge_None_2 (provs h) i) in Hinv by lia. rewrite lookup_app_r by lia.
    destruct (i - length (provs h))%nat as [| n] eqn:Hn; simpl; [| done]. unfold provider_ok. by rewrite Ho.
Qed.

Lemma step_once s s' : once_inv s -> step s s' -> once_inv s'.
Proof.
  intros IH Hst. destruct Hst as [h gs | h gs c Hc | h gs c t name single f | h gs c t name v | h gs p | h gs i fs h' fs' Hi Hg].
  - done.
  - done.
  - by apply register_inv.
  - by apply register_inv.
  - intros i. specialize (IH i). simpl in *. rewrite concat_app. unfold holders in *.
    rewrite list.filter_app, length_app. simpl. destruct (provs h !! i); [| lia]. by rewrite Nat.add_0_r.
  - eapply effect_inv; [done | by apply gstep_effect | done].
Qed.

Lemma reachable_once s : rtc step start s -> once_inv s.
Proof. revert s. apply rtc_invariant; [done | apply step_once]. Qed.

Lemma finished_stays h fs h' fs' i p :
  effect h fs h' fs' -> holders i fs = 0%nat -> provs h !! i = Some p -> once_of p = Finished -> provs h' !! i = Some p.
Proof.
  intros He H0 Hp Hf. destruct He as [fs' Hs | fs' j p0 Hp0 Hfresh Hs | fs' j res Hs]; specialize (Hs i); [done | |].
  - simpl. rewrite list_lookup_insert_ne; [done |]. intros ->. congruence.
  - destruct (decide (j = i)) as [-> | Hne]; [lia |]. destruct (provs h !! j); [| done].
    simpl. by rewrite list_lookup_insert_ne.
Qed.

Lemma finished_step s s' i p :
  once_inv s -> step s s' -> provs (mem s) !! i = Some p -> once_of p = Finished -> provs (mem s') !! i = Some p.
Proof.
  intros Hinv Hst Hp Hf. destruct Hst as [h gs | h gs c Hc | h gs c t name single f | h gs c t name v | h gs q | h gs j fs h' fs' Hi Hg];
    simpl in *; try done.
  - rewrite lookup_app_l; [done | by eapply lookup_lt_Some].
  - rewrite lookup_app_l; [done | by eapply lookup_lt_Some].
  - specialize (Hinv i). simpl in Hinv. rewrite Hp in Hinv. unfold provider_ok in Hinv. rewrite Hf in Hinv.
    eapply finished_stays; [by apply gstep_effect | | done..].
    pose proof (count_insert (holds i) gs j fs [] Hi) as Hc. unfold holders in *. simpl in *. lia.
Qed.

(** C13: However the goroutines interleave, the factory of a singleton has been
    started at most once, and not by two goroutines at a time; once it has
    finished, every resolution of it, at any later time and from any goroutine
    not itself inside it, answers with that value and that error. *)
Theorem singleton_once s i p :
  rtc step start s -> provs (mem s) !! i = Some p ->
  (runs p <= 1)%nat /\ (holders i (concat (gos s)) <= 1)%nat /\
  (once_of p = Finished -> forall s' c k owner fs,
     rtc step s s' -> lookup (mem s') c k = Some (i, owner) -> singleton p = true ->
     k ∉ resolving (root (mem s') c) fs -> resolve (mem s') c k fs = Answer (instance p) (instErr p)).
Proof.
  intros Hs Hp. pose proof (reachable_once s Hs i) as Hinv. rewrite Hp in Hinv.
  split_and!; [unfold provider_ok in Hinv; destruct (once_of p); lia.. |].
  intros Hf s' c k owner fs Hss Hl Hsing Hk.
  assert (Hp' : once_inv s' /\ provs (mem s') !! i = Some p).
  { clear Hl Hk. revert s' Hss. apply rtc_invariant; [split; [by apply reachable_once | done] |].
    intros s1 s2 [Hi1 Hp1] Hst. split; [by eapply step_once | by eapply finished_step]. }
  destruct Hp' as [_ Hp'].
  unfold resolve. rewrite Hl, decide_False, Hp' by done. destruct (factory p); [| done]. by rewrite Hsing, Hf.
Qed.

(** ** Well-formed heaps *)

(** Parents come first, and no provider is registered twice. *)
Record wf (h : heap) : Prop := {
  wf_parent : forall c ct p, containers h !! c = Some ct -> parent ct = Some p -> (p < c)%nat;
  wf_valid : forall c ct k i, containers h !! c = Some ct -> providers ct !! k = Some i -> (i < length (provs h))%nat;
  wf_unique : forall c1 ct1 k1 c2 ct2 k2 i,
    containers h !! c1 = Some ct1 -> containers h !! c2 = Some ct2 ->
    providers ct1 !! k1 = Some i -> providers ct2 !! k2 = Some i -> c1 = c2 /\ k1 = k2 }.

Definition same_shape (h h' : heap) : Prop := containers h' = containers h /\ length (provs h') = length (provs h).

Lemma same_shape_trans h h' h'' : same_shape h h' -> same_shape h' h'' -> same_shape h h''.
Proof. intros [? ?] [? ?]. split; congruence. Qed.

Lemma wf_shape h h' : same_shape h h' -> wf h -> wf h'.
Proof. intros [Hc Hl] [Hp Hv Hu]. split; rewrite Hc, ?Hl; done. Qed.

Lemma with_provider_shape h i p : same_shape h (with_provider h i p).
Proof. split; simpl; [done | by rewrite length_insert]. Qed.

Lemma finish_shape h f res : same_shape h (finish h f res).
Proof.
  unfold finish. destruct (f_target f ≫= t_once) as [i |]; [| done].
  destruct (provs h !! i); [apply with_provider_shape | done].
Qed.

Lemma effect_shape h fs h' fs' : effect h fs h' fs' -> same_shape h h'.
Proof.
  intros [? ? | ? i p ? ? ? | ? i res ?]; [done | apply with_provider_shape |].
  destruct (provs h !! i); [apply with_provider_shape | done].
Qed.

Lemma wf_fresh_container h up : (forall p, up = Some p -> (p < length (containers h))%nat) ->
  wf h -> wf (mkHeap (containers h ++ [mkContainer up ∅]) (provs h)).
Proof.
  intros Hup [Hp Hv Hu].
  assert (Hcase : forall c ct, (containers h ++ [mkContainer up ∅]) !! c = Some ct ->
            containers h !! c = Some ct \/ c = length (containers h) /\ ct = mkContainer up ∅).
  { intros c ct. rewrite lookup_app_Some. intros [Hc | [Hge Hc]]; [by left | right].
    apply list_lookup_singleton_Some in Hc as [? <-]. split; [lia | done]. }
  split; simpl.
  - intros c ct p [Hc | [-> ->]]%Hcase Hpar; [by eapply Hp | by apply Hup].
  - intros c ct k i [Hc | [-> ->]]%Hcase Hk; [by eapply Hv | by simplify_map_eq].
  - intros c1 ct1 k1 c2 ct2 k2 i [H1 | [-> ->]]%Hcase [H2 | [-> ->]]%Hcase Hk1 Hk2; simplify_map_eq; by eapply Hu.
Qed.

Lemma register_wf h c k p : wf h -> wf (register h c k p).
Proof.
  intros [Hp Hv Hu].
  assert (Hcase : forall d ct k' i, containers (register h c k p) !! d = Some ct -> providers ct !! k' = Some i ->
            (d = c /\ k' = k /\ i = length (provs h)) \/ exists ct0, containers h !! d = Some ct0 /\ providers ct0 !! k' = Some i).
  { intros d ct k' i. simpl. destruct (decide (c = d)) as [<- | Hne].
    - rewrite list_lookup_alter_eq. destruct (containers h !! c) as [ct0 |]; simpl; [| done]. intros [= <-]. simpl.
      rewrite lookup_insert_Some. intros [[<- <-] | [_ Hk]]; [by left | right; eauto].
    - rewrite list_lookup_alter_ne by done. right. eauto. }
  assert (Hfresh : forall d ct0 k', containers h !! d = Some ct0 -> providers ct0 !! k' <> Some (length (provs h)))
    by (intros d ct0 k' Hd Hk; specialize (Hv _ _ _ _ Hd Hk); lia).
  split.
  - intros d ct q. simpl. destruct (decide (c = d)) as [<- | Hne].
    + rewrite list_lookup_alter_eq. destruct (containers h !! c) as [ct0 |] eqn:Hc; simpl; [| done]. intros [= <-]. simpl. by eapply Hp.
    + rewrite list_lookup_alter_ne by done. by eapply Hp.
  - intros d ct k' i Hd Hk. destruct (Hcase _ _ _ _ Hd Hk) as [(-> & -> & ->) | (ct0 & Hd0 & Hk0)];
      simpl; rewrite length_app; simpl; [lia |]. specialize (Hv _ _ _ _ Hd0 Hk0). lia.
  - intros c1 ct1 k1 c2 ct2 k2 i H1 H2 Hk1 Hk2.
    destruct (Hcase _ _ _ _ H1 Hk1) as [(-> & -> & ->) | (ct3 & H3 & Hk3)], (Hcase _ _ _ _ H2 Hk2) as [(-> & -> & Hi) | (ct4 & H4 & Hk4)];
      try done; [by destruct (Hfresh _ _ _ H4 Hk4) | subst i; by destruct (Hfresh _ _ _ H3 Hk3) | by eapply Hu].
Qed.

Lemma step_wf s s' : wf (mem s) -> step s s' -> wf (mem s').
Proof.
  intros Hwf Hst. destruct Hst as [h gs | h gs c Hc | h gs c t name single f | h gs c t name v | h gs p | h gs i fs h' fs' Hi Hg]; simpl in *.
  - by apply wf_fresh_container.
  - apply wf_fresh_container; [by intros ? [= <-] | done].
  - by apply register_wf.
  - by apply register_wf.
  - done.
  - eapply wf_shape; [eapply effect_shape, gstep_effect, Hg | done].
Qed.

Lemma reachable_wf s : rtc step start s -> wf (mem s).
Proof. revert s. apply rtc_invariant; [by split | apply step_wf]. Qed.

(** ** Lookup goes up the scopes *)

Lemma root_from_enough h fuel c : wf h -> (c <= fuel)%nat -> root_from fuel (containers h) c = root h c.
Proof.
  intros Hwf. unfold root. assert (H : forall n fuel c, (c <= n)%nat -> (n <= fuel)%nat ->
    root_from fuel (containers h) c = root_from n (containers h) c); [| intros; by apply (H c)].
  clear fuel c. induction n as [| n IH]; intros fuel c Hc Hf.
  - assert (c = 0%nat) as -> by lia. destruct fuel; simpl; [done |].
    destruct (containers h !! 0%nat) as [ct |] eqn:Hl; simpl; [| done].
    destruct (parent ct) as [p |] eqn:Hp; [| done]. pose proof (wf_parent _ Hwf _ _ _ Hl Hp). lia.
  - destruct fuel as [| fuel]; [lia |]. simpl. destruct (containers h !! c) as [ct |] eqn:Hl; simpl; [| done].
    destruct (parent ct) as [p |] eqn:Hp; [| done]. pose proof (wf_parent _ Hwf _ _ _ Hl Hp). apply IH; lia.
Qed.

Lemma root_parent h c ct p : wf h -> containers h !! c = Some ct -> parent ct = Some p -> root h c = root h p.
Proof.
  intros Hwf Hl Hp. pose proof (wf_parent _ Hwf _ _ _ Hl Hp). destruct c as [| c]; [lia |].
  unfold root at 1. simpl. rewrite Hl. simpl. rewrite Hp. apply root_from_enough; [done | lia].
Qed.

(** The chain of scopes from a container to its root. *)
Inductive ancestor (h : heap) : nat -> nat -> Prop :=
| ancestor_self c : ancestor h c c
| ancestor_up c ct p o : containers h !! c = Some ct -> parent ct = Some p -> ancestor h p o -> ancestor h c o.

Definition owned (h : heap) (o : nat) (k : key) : option nat := containers h !! o ≫= fun ct => providers ct !! k.

(** [lookup] finds the binding of the nearest scope that has one. *)
Inductive nearest (h : heap) (k : key) : nat -> option (nat * nat) -> Prop :=
| nearest_here c i : owned h c k = Some i -> nearest h k c (Some (i, c))
| nearest_up c ct p r : containers h !! c = Some ct -> parent ct = Some p -> owned h c k = None -> nearest h k p r -> nearest h k c r
| nearest_none c : owned h c k = None -> containers h !! c ≫= parent = None -> nearest h k c None.

Lemma lookup_nearest h c k : wf h -> nearest h k c (lookup h c k).
Proof.
  intros Hwf. unfold lookup. assert (H : forall fuel c, (c <= fuel)%nat -> nearest h k c (lookup_from fuel (containers h) c k)); [| by apply H].
  clear c. induction fuel as [| fuel IH]; intros c Hc; simpl.
  - assert (c = 0%nat) as -> by lia. destruct (containers h !! 0%nat) as [ct |] eqn:Hl; [| by apply nearest_none; unfold owned; rewrite Hl].
    destruct (providers ct !! k) eqn:Hk; [apply nearest_here; unfold owned; by rewrite Hl |].
    apply nearest_none; [unfold owned; by rewrite Hl |]. rewrite Hl. simpl.
    destruct (parent ct) as [p |] eqn:Hp; [| done]. pose proof (wf_parent _ Hwf _ _ _ Hl Hp). lia.
  - destruct (containers h !! c) as [ct |] eqn:Hl; [| by apply nearest_none; unfold owned; rewrite Hl].
    destruct (providers ct !! k) eqn:Hk; [apply nearest_here; unfold owned; by rewrite Hl |].
    destruct (parent ct) as [p |] eqn:Hp; [| apply nearest_none; [unfold owned; by rewrite Hl | by rewrite Hl]].
    eapply nearest_up; [done | done | unfold owned; by rewrite Hl |]. apply IH.
    pose proof (wf_parent _ Hwf _ _ _ Hl Hp). lia.
Qed.

Lemma lookup_owned h c k i o : wf h -> lookup h c k = Some (i, o) -> owned h o k = Some i /\ ancestor h c o /\ root h o = root h c.
Proof.
  intros Hwf Hl. pose proof (lookup_nearest h c k Hwf) as Hn. rewrite Hl in Hn. clear Hl.
  remember (Some (i, o)) as r eqn:Hr. induction Hn as [c j Ho | c ct p r Hc Hp Hno Hn IH | c]; simplify_eq.
  - split_and!; [done | constructor | done].
  - destruct (IH eq_refl) as (? & ? & ->). split_and!; [done | by econstructor | by erewrite <- root_parent].
Qed.

Lemma lookup_from_register h o k p fuel c k' :
  ~ ancestor h c o \/ k' <> k ->
  lookup_from fuel (containers (register h o k p)) c k' = lookup_from fuel (containers h) c k'.
Proof.
  revert c. induction fuel as [| fuel IH]; intros c Hc; simpl;
    (destruct (decide (o = c)) as [<- | Hne]; [| rewrite list_lookup_alter_ne by done; destruct (containers h !! c) as [ct |] eqn:Hl; [| done]]).
  - destruct Hc as [Hc | Hk]; [by destruct Hc; constructor |]. rewrite list_lookup_alter_eq.
    destruct (containers h !! o) as [ct |]; simpl; [| done]. by rewrite lookup_insert_ne.
  - done.
  - destruct Hc as [Hc | Hk]; [by destruct Hc; constructor |]. rewrite list_lookup_alter_eq.
    destruct (containers h !! o) as [ct |]; simpl; [| done]. rewrite lookup_insert_ne by done.
    destruct (providers ct !! k'), (parent ct); try done. apply IH. by right.
  - destruct (providers ct !! k'); [done |]. destruct (parent ct) as [up |] eqn:Hp; [| done]. apply IH.
    destruct Hc as [Hc | Hk]; [left | by right]. intros Ha. apply Hc. by econstructor.
Qed.

(** A key resolves to the binding of the nearest scope that has one; a new
    binding is found by the container it is made on, and changes nothing for
    another key nor for a container that is not in a scope of that one. *)
Theorem lookup_scoped s o k p c k' :
  rtc step start s ->
  nearest (mem s) k' c (lookup (mem s) c k') /\
  (~ ancestor (mem s) c o \/ k' <> k -> lookup (register (mem s) o k p) c k' = lookup (mem s) c k') /\
  ((o < length (containers (mem s)))%nat -> lookup (register (mem s) o k p) o k = Some (length (provs (mem s)), o)).
Proof.
  intros Hs. pose proof (reachable_wf s Hs) as Hwf. split_and!.
  - by apply lookup_nearest.
  - by apply lookup_from_register.
  - intros Ho. apply lookup_lt_is_Some_2 in Ho as [ct Hct].
    assert (Hl : containers (register (mem s) o k p) !! o = Some (mkContainer (parent ct) (<[k := length (provs (mem s))]> (providers ct))))
      by (simpl; by rewrite list_lookup_alter_eq, Hct).
    unfold lookup. destruct o; cbn [lookup_from]; rewrite Hl; cbn [providers]; by rewrite lookup_insert, decide_True.
Qed.

(** ** Resolution ends *)

Definition stack_targets (fs : list frame) : list (nat * key) :=
  omap (fun f => t ← f_target f; Some (t_root t, t_key t)) fs.

Definition onces (fs : list frame) : list nat := omap (fun f => f_target f ≫= t_once) fs.

Lemma resolving_targets r k fs : k ∈ resolving r fs <-> (r, k) ∈ stack_targets fs.
Proof.
  unfold resolving, stack_targets. rewrite elem_of_reverse, !list_elem_of_omap. split.
  - intros (f & Hf & Ht). exists f. split; [done |]. destruct (f_target f) as [t |]; simpl in *; [| done]. case_decide; naive_solver.
  - intros (f & Hf & Ht). exists f. split; [done |]. destruct (f_target f) as [t |]; simpl in *; [| done]. simplify_eq.
    by rewrite decide_True.
Qed.

Definition running (h : heap) (i : nat) : Prop := exists p, provs h !! i = Some p /\ once_of p = Running.

(** The providers being built are those of the frames, each once. *)
Record stack_ok (h : heap) (fs : list frame) : Prop := {
  so_running : forall i, running h i <-> i ∈ onces fs;
  so_nodup : NoDup (onces fs);
  so_owned : forall f t i, f ∈ fs -> f_target f = Some t -> t_once t = Some i ->
    exists o, owned h o (t_key t) = Some i /\ root h o = t_root t }.

(** The pairs of a root and a key that resolutions can push. *)
Definition all_targets (h : heap) : gset (nat * key) :=
  list_to_set (mjoin (imap (fun c ct => map (fun x => (root h c, x.1)) (map_to_list (providers ct))) (containers h))).

Lemma owned_target h o k i : owned h o k = Some i -> (root h o, k) ∈ all_targets h.
Proof.
  unfold owned, all_targets. intros (ct & Hc & Hk)%bind_Some. rewrite elem_of_list_to_set, list_elem_of_join.
  exists (map (fun x => (root h o, x.1)) (map_to_list (providers ct))). split.
  - apply list_elem_of_fmap. exists (k, i). split; [done | by apply elem_of_map_to_list].
  - apply list_elem_of_lookup. exists o. by rewrite list_lookup_imap, Hc.
Qed.

Lemma shape_root h h' c : containers h' = containers h -> root h' c = root h c.
Proof. intros Hc. unfold root. by rewrite Hc. Qed.

Lemma shape_owned h h' o k : containers h' = containers h -> owned h' o k = owned h o k.
Proof. intros Hc. unfold owned. by rewrite Hc. Qed.

Lemma shape_targets h h' : containers h' = containers h -> all_targets h' = all_targets h.
Proof.
  intros Hc. unfold all_targets. rewrite Hc. do 2 f_equal. apply imap_ext. intros c ct _.
  by setoid_rewrite (shape_root h h' _ Hc).
Qed.

(** With nothing else being built, nothing a goroutine asks for makes it wait. *)
Lemma never_blocked h c k fs : wf h -> stack_ok h fs -> resolve h c k fs <> Blocked.
Proof.
  intros Hwf [Hrun Hnd Hown]. unfold resolve. destruct (lookup h c k) as [[i o] |] eqn:Hl; [| done].
  destruct (lookup_owned _ _ _ _ _ Hwf Hl) as (Ho & _ & Hroot). case_decide as Hk; [done |].
  destruct (containers h !! o) as [ct |] eqn:Hc; [| unfold owned in Ho; by rewrite Hc in Ho].
  assert (Hki : providers ct !! k = Some i) by (unfold owned in Ho; by rewrite Hc in Ho).
  pose proof (wf_valid _ Hwf _ _ _ _ Hc Hki) as Hv. destruct (provs h !! i) as [p |] eqn:Hp; [| by apply lookup_ge_None_1 in Hp; lia].
  destruct (factory p); [| done]. destruct (negb (singleton p)); [done |]. destruct (once_of p) eqn:Hon; [done | | done].
  exfalso. apply Hk. rewrite resolving_targets. assert (Hin : i ∈ onces fs) by (apply Hrun; by exists p).
  unfold onces in Hin. apply list_elem_of_omap in Hin as (f & Hf & Hti). apply bind_Some in Hti as (t & Ht & Hti).
  destruct (Hown f t i Hf Ht Hti) as (o' & Ho' & Hr'). unfold owned in Ho'. apply bind_Some in Ho' as (ct' & Hc' & Hk').
  destruct (wf_unique _ Hwf _ _ _ _ _ _ _ Hc Hc' Hki Hk') as [<- ->].
  unfold stack_targets. apply list_elem_of_omap. exists f. split; [done |]. rewrite Ht. simpl. by rewrite <- Hr', Hroot.
Qed.

Definition alone (a b : heap * list frame) : Prop := gstep a.1 a.2 = Some b.

Definition is_result (p : prog) : Prop := match p with Resolve _ _ _ => False | _ => True end.

Lemma running_with h i p j : provs h !! i <> None ->
  running (with_provider h i p) j <-> (if decide (i = j) then once_of p = Running else running h j).
Proof.
  intros Hi. unfold running. simpl. destruct (decide (i = j)) as [<- | Hne].
  - rewrite list_lookup_insert_eq by (destruct (provs h !! i) eqn:E; [by eapply lookup_lt_Some | done]). naive_solver.
  - by rewrite list_lookup_insert_ne.
Qed.

(** Pushing a callee. *)
Lemma call_ok h c k fs h' callee :
  wf h -> stack_ok h fs -> resolve h c k fs = Call_ h' callee ->
  same_shape h h' /\ stack_ok h' (callee :: fs) /\
  exists r, f_target callee = Some r /\ (t_root r, t_key r) ∈ all_targets h /\ (t_root r, t_key r) ∉ stack_targets fs.
Proof.
  intros Hwf Hso. unfold resolve. destruct (lookup h c k) as [[i o] |] eqn:Hl; [| done].
  destruct (lookup_owned _ _ _ _ _ Hwf Hl) as (Ho & _ & Hroot). case_decide as Hk; [done |].
  rewrite resolving_targets in Hk. pose proof (owned_target _ _ _ _ Ho) as Ht. rewrite Hroot in Ht.
  destruct (provs h !! i) as [p |] eqn:Hp; [| done]. destruct (factory p); [| done].
  destruct Hso as [Hrun Hnd Hown]. destruct (negb (singleton p)).
  - intros [= <- <-]. split_and!; [done | | by eexists]. split; unfold onces in *; simpl; [done.. |].
    intros f t j [-> | Hf]%elem_of_cons; [by intros [= <-] | by apply Hown].
  - destruct (once_of p) eqn:Hon; [| done | done]. intros [= <- <-].
    assert (Hni : i ∉ onces fs) by (intros (q & Hq & Hqr)%Hrun; simplify_eq; congruence).
    split_and!; [apply with_provider_shape | | by eexists]. split.
    + intros j. rewrite running_with by congruence. unfold onces. simpl. rewrite elem_of_cons.
      destruct (decide (i = j)) as [<- | Hne]; [simpl; naive_solver |]. rewrite Hrun. unfold onces. naive_solver.
    + unfold onces. simpl. by apply list.NoDup_cons.
    + intros f t j [-> | Hf]%elem_of_cons; [| by apply Hown]. simpl. intros [= <-] [= <-]. by exists o.
Qed.

(** Popping it. *)
Lemma finish_ok h f fs res :
  stack_ok h (f :: fs) -> (forall i, i ∈ onces (f :: fs) -> provs h !! i <> None) -> stack_ok (finish h f res) fs.
Proof.
  intros [Hrun Hnd Hown] Hex. unfold finish. destruct (f_target f ≫= t_once) as [i |] eqn:Hi.
  - assert (Ho : onces (f :: fs) = i :: onces fs) by (unfold onces; simpl; by rewrite Hi).
    rewrite Ho in *. apply list.NoDup_cons in Hnd as [Hni Hnd].
    destruct (provs h !! i) as [p |] eqn:Hp; [| by destruct (Hex i); [by left |]]. split; [| done |].
    + intros j. rewrite running_with by congruence. specialize (Hrun j). rewrite elem_of_cons in Hrun.
      destruct (decide (i = j)) as [<- | Hne]; [| naive_solver]. destruct res as [[] |]; simpl; naive_solver.
    + intros g t j Hg Ht Hj. destruct (Hown g t j) as (o & ? & ?); [by right | done.. |].
      exists o. by rewrite (shape_owned h), (shape_root h).
  - assert (Ho : onces (f :: fs) = onces fs) by (unfold onces; simpl; by rewrite Hi).
    rewrite Ho in *. split; [done | done |]. intros g t j Hg. apply Hown. by right.
Qed.

Lemma stack_ok_top h f f' fs : f_target f' = f_target f -> stack_ok h (f :: fs) -> stack_ok h (f' :: fs).
Proof.
  intros Ht [Hrun Hnd Hown]. assert (Ho : onces (f' :: fs) = onces (f :: fs)) by (unfold onces; simpl; by rewrite Ht).
  split; rewrite ?Ho; [done | done |]. intros g t i [-> | Hg]%elem_of_cons; [| apply Hown; by right].
  rewrite Ht. apply Hown. by left.
Qed.

Lemma stack_ok_provs h fs i : stack_ok h fs -> i ∈ onces fs -> provs h !! i <> None.
Proof. intros [Hrun _ _] (p & Hp & _)%Hrun. congruence. Qed.

Definition room (h : heap) (fs : list frame) : gset (nat * key) := all_targets h ∖ list_to_set (stack_targets fs).

Lemma room_call h h' f fs r :
  containers h' = containers h -> f_target f = Some r ->
  (t_root r, t_key r) ∈ all_targets h -> (t_root r, t_key r) ∉ stack_targets fs ->
  (size (room h' (f :: fs)) < size (room h fs))%nat.
Proof.
  intros Hc Hf Hin Hout. unfold room. rewrite (shape_targets h h' Hc). apply subset_size.
  assert (Ht : stack_targets (f :: fs) = (t_root r, t_key r) :: stack_targets fs) by (unfold stack_targets; simpl; by rewrite Hf).
  rewrite Ht. simpl. set_solver.
Qed.

Lemma room_top h h' f f' fs : containers h' = containers h -> f_target f' = f_target f -> room h' (f' :: fs) = room h (f :: fs).
Proof. intros Hc Ht. unfold room. rewrite (shape_targets h h' Hc). unfold stack_targets. simpl. by rewrite Ht. Qed.

(** Every program comes to its result, with nothing left being built that was not
    being built before. *)
Lemma evaluates m h tg p fs :
  wf h -> stack_ok h (mkFrame tg p :: fs) -> (size (room h (mkFrame tg p :: fs)) < m)%nat ->
  exists h' r, rtc alone (h, mkFrame tg p :: fs) (h', mkFrame tg r :: fs) /\ is_result r /\
    same_shape h h' /\ stack_ok h' (mkFrame tg r :: fs).
Proof.
  revert h tg p fs. induction m as [| m IHm]; intros h tg p fs Hwf Hso Hm; [lia |].
  revert h Hwf Hso Hm. induction p as [v e | | c k cont IHp]; intros h Hwf Hso Hm.
  - exists h, (Ret v e). by split_and!; [apply rtc_refl | ..].
  - exists h, Panics. by split_and!; [apply rtc_refl | ..].
  - assert (Hgo : forall h1 v e, same_shape h h1 -> stack_ok h1 (mkFrame tg (Resolve c k cont) :: fs) ->
      exists h' r, rtc alone (h1, mkFrame tg (cont v e) :: fs) (h', mkFrame tg r :: fs) /\ is_result r /\ same_shape h h' /\ stack_ok h' (mkFrame tg r :: fs)).
    { intros h1 v e Hsh Hso1. destruct (IHp v e h1) as (h2 & r & Hr & Hres & Hsh2 & Hso2).
      - by eapply wf_shape.
      - by eapply stack_ok_top; [| exact Hso1].
      - by rewrite (room_top h h1 (mkFrame tg (Resolve c k cont)) (mkFrame tg (cont v e)) fs (proj1 Hsh) eq_refl).
      - exists h2, r. split; [done |]. split; [done |]. split; [by eapply same_shape_trans | done]. }
    destruct (resolve h c k (mkFrame tg (Resolve c k cont) :: fs)) as [v e | h1 callee |] eqn:Hr.
    + destruct (Hgo h v e) as (h' & r & Hst & ?); [done | done |]. exists h', r. split; [| done].
      eapply rtc_l; [| exact Hst]. unfold alone. simpl. by rewrite Hr.
    + destruct (call_ok _ _ _ _ _ _ Hwf Hso Hr) as (Hsh1 & Hso1 & rt & Htg & Hin & Hout).
      destruct callee as [tg1 p1]. simpl in Htg. subst tg1.
      destruct (IHm h1 (Some rt) p1 (mkFrame tg (Resolve c k cont) :: fs)) as (h2 & r & Hst & Hres & Hsh2 & Hso2);
        [by eapply wf_shape | done | |].
      { pose proof (room_call h h1 (mkFrame (Some rt) p1) _ rt (proj1 Hsh1) eq_refl Hin Hout). lia. }
      assert (Hstep : rtc alone (h, mkFrame tg (Resolve c k cont) :: fs) (h2, mkFrame (Some rt) r :: mkFrame tg (Resolve c k cont) :: fs)).
      { eapply rtc_l; [| exact Hst]. unfold alone. simpl. by rewrite Hr. }
      assert (Hfin : forall res, same_shape h (finish h2 (mkFrame (Some rt) r) res) /\
                stack_ok (finish h2 (mkFrame (Some rt) r) res) (mkFrame tg (Resolve c k cont) :: fs)).
      { intros res. split; [| apply finish_ok; [done | intros; by eapply stack_ok_provs]].
        eapply same_shape_trans, finish_shape. by eapply same_shape_trans. }
      destruct r as [v e | |]; [| | done].
      * destruct (wrap v e) as [v' e'] eqn:Hw. destruct (Hfin (Some (v', e'))) as [Hsh3 Hso3].
        destruct (Hgo _ v' e' Hsh3 Hso3) as (h' & r & Hst' & ?). exists h', r. split; [| done].
        etransitivity; [exact Hstep |]. eapply rtc_l; [| exact Hst']. unfold alone. simpl. by rewrite Hw.
      * destruct (Hfin None) as [Hsh3 Hso3]. eexists _, Panics. split; [| split; [done | split; [exact Hsh3 | by eapply stack_ok_top; [| exact Hso3]]]].
        etransitivity; [exact Hstep |]. by apply rtc_once.
    + by apply never_blocked in Hr.
Qed.

(** No singleton is being built. *)
Definition idle (h : heap) : Prop := forall i, ~ running h i.

(** Where no other goroutine is building a singleton, user code that resolves
    whatever it likes, on any container, always comes to an end: cycles are cut,
    and neither a cycle nor a singleton that depends on itself makes it wait. *)
Theorem Make_returns s p :
  rtc step start s -> idle (mem s) ->
  exists h' r, rtc alone (mem s, [mkFrame None p]) (h', [mkFrame None r]) /\ is_result r /\ idle h'.
Proof.
  intros Hs Hidle. pose proof (reachable_wf s Hs) as Hwf.
  assert (Hso : stack_ok (mem s) [mkFrame None p]).
  { split; [| constructor |].
    - intros i. split; [by intros ?%Hidle | unfold onces; simpl; set_solver].
    - intros f t i ->%list_elem_of_singleton. done. }
  destruct (evaluates (S (size (room (mem s) [mkFrame None p]))) (mem s) None p [] Hwf Hso) as (h' & r & Hr & Hres & _ & [Hrun _ _]); [lia |].
  exists h', r. split_and!; [done | done |]. intros i Hi%Hrun. unfold onces in Hi. simpl in Hi. set_solver.
Qed.

(** ** Runs *)

Inductive move := MNew | MScope (c : nat) | MBind (c : nat) (t : string) (single : bool) (f : nat -> prog) | MGo (p : prog) | MRun (i : nat).

Definition move_once (m : move) (s : system) : option system :=
  match m with
  | MNew => Some (mkSystem (New (mem s)).1 (gos s))
  | MScope c => if decide (c < length (containers (mem s)))%nat then Some (mkSystem (Scope (mem s) c).1 (gos s)) else None
  | MBind c t single f => Some (mkSystem (bind (mem s) c t EmptyString single f) (gos s))
  | MGo p => Some (mkSystem (mem s) (gos s ++ [[mkFrame None p]]))
  | MRun i =>
      match gos s !! i with
      | Some fs => match gstep (mem s) fs with Some (h, fs) => Some (mkSystem h (<[i := fs]> (gos s))) | None => None end
      | None => None
      end
  end.

Fixpoint run_moves (ms : list move) (s : system) : option system :=
  match ms with [] => Some s | m :: ms => s ← move_once m s; run_moves ms s end.

Lemma moves_sound ms s s' : run_moves ms s = Some s' -> rtc step s s'.
Proof.
  revert s. induction ms as [| m ms IH]; intros [h gs]; simpl; [intros [= <-]; apply rtc_refl |].
  destruct (move_once m _) as [s1 |] eqn:Hm; [| done]. simpl. intros Hr. eapply rtc_l; [| by apply IH].
  destruct m as [| c | c t single f | p | i]; simpl in Hm.
  - simplify_eq. constructor.
  - case_decide; simplify_eq. by constructor.
  - simplify_eq. constructor.
  - simplify_eq. constructor.
  - destruct (gs !! i) as [fs |] eqn:Hi; [| done]. destruct (gstep h fs) as [[h' fs'] |] eqn:Hg; simplify_eq. by econstructor.
Qed.

(** What a goroutine alone comes to, within [fuel] steps. *)
Fixpoint run_alone (fuel : nat) (h : heap) (fs : list frame) : heap * list frame :=
  match fuel with
  | O => (h, fs)
  | S fuel => match gstep h fs with Some (h, fs) => run_alone fuel h fs | None => (h, fs) end
  end.

Definition use (c : nat) (t : string) : prog := Resolve c (t, EmptyString) (fun v e => Ret v e).

(** [A] needs [B] and [B] needs [A]. *)
Definition needs (t : string) (c : nat) : prog :=
  Resolve c (t, EmptyString) (fun v e => match e with Some e => Ret Nil (Some e) | None => Ret (Value "built" 1) None end).

Definition mutual : list move := [MNew; MBind 0 "A" true (needs "B"); MBind 0 "B" true (needs "A")].

Definition after (ms : list move) : system := default start (run_moves ms start).

(** One goroutine is told of the cycle. *)
Example cycle_is_reported :
  (run_alone 20 (mem (after mutual)) [mkFrame None (use 0 "A")]).2 =
  [mkFrame None (Ret Nil (Some (cyclicError [("A", EmptyString); ("B", EmptyString); ("A", EmptyString)])))].
Proof. vm_compute. reflexivity. Qed.

(** Two goroutines that start from either end wait for each other for ever: the
    stack of each shows only its own half of the cycle. *)
Theorem cycle_deadlocks :
  exists s, rtc step start s /\ length (gos s) = 2%nat /\
    forall i fs, gos s !! i = Some fs -> gstep (mem s) fs = None /\ exists f outer c k cont, fs = f :: outer /\ f_body f = Resolve c k cont.
Proof.
  exists (after (mutual ++ [MGo (use 0 "A"); MGo (use 0 "B"); MRun 0; MRun 1])). split; [| split; [vm_compute; reflexivity |]].
  - apply (moves_sound (mutual ++ [MGo (use 0 "A"); MGo (use 0 "B"); MRun 0; MRun 1])). vm_compute. reflexivity.
  - intros i fs Hi. do 2 (destruct i as [| i]; [vm_compute in Hi; injection Hi as <-; split; [vm_compute; reflexivity | by repeat eexists] |]).
    vm_compute in Hi. done.
Qed.

(** A singleton whose factory panicked is taken for built: the next resolution
    answers with no value and no error. *)
Example panic_is_forgotten :
  let h := (bind (New empty_heap).1 0 "DB" EmptyString true (fun _ => Panics)) in
  let '(h1, fs1) := run_alone 10 h [mkFrame None (use 0 "DB")] in
  fs1 = [mkFrame None Panics] /\
  (run_alone 10 h1 [mkFrame None (Make (fun d t => bool_decide (d = t)) (fun _ => Nil) 0 "DB" (fun v e => Ret v e))]).2 =
    [mkFrame None (Ret Nil None)].
Proof. vm_compute. done. Qed.

(** A scope that overrides a service by a wrapper of its parent's is told of a
    cycle there is not: the stack keeps keys, not bindings. *)
Example decorator_is_a_cycle :
  let h0 := bind (New empty_heap).1 0 "Log" EmptyString true (fun _ => Ret (Value "Log" 1) None) in
  let h := bind (Scope h0 0).1 1 "Log" EmptyString true (fun _ => needs "Log" 0) in
  (run_alone 20 h [mkFrame None (use 1 "Log")]).2 =
    [mkFrame None (Ret Nil (Some (cyclicError [("Log", EmptyString); ("Log", EmptyString)])))].
Proof. vm_compute. reflexivity. Qed.

(** [Build] leaves out a field that is bound when its factory lacks something. *)
Example build_hides_a_missing_dependency :
  let h := bind (New empty_heap).1 0 "Repo" EmptyString false (needs "DB") in
  (run_alone 20 h [mkFrame None (Build_fields (fun d t => bool_decide (d = t)) 0 [mkField "Repo" "Repo" true None] ∅
     (fun r => match r with inl m => Ret (Value "fields" (Z.of_nat (size m))) None | inr e => Ret Nil (Some e) end))]).2 =
    [mkFrame None (Ret (Value "fields" 0) None)].
Proof. vm_compute. reflexivity. Qed.

(** ** Witnesses *)

Definition built_once : system :=
  after [MNew; MBind 0 "DB" true (fun _ => Ret (Value "DB" 7) None); MScope 0; MGo (use 1 "DB"); MRun 0; MRun 0].

Lemma built_once_reached : rtc step start built_once.
Proof. apply (moves_sound [MNew; MBind 0 "DB" true (fun _ => Ret (Value "DB" 7) None); MScope 0; MGo (use 1 "DB"); MRun 0; MRun 0]). vm_compute. reflexivity. Qed.

Lemma singleton_once_witness :
  resolve (mem built_once) 1 ("DB", EmptyString) [] = Answer (Value "DB" 7) None.
Proof.
  refine (proj2 (proj2 (singleton_once built_once 0 (mkProvider (Some (fun _ => Ret (Value "DB" 7) None)) true Finished (Value "DB" 7) None 1)
    built_once_reached _)) _ built_once 1%nat ("DB", EmptyString) 0%nat [] _ _ _ _).
  - vm_compute. reflexivity.
  - reflexivity.
  - apply rtc_refl.
  - vm_compute. reflexivity.
  - reflexivity.
  - vm_compute. intros H. inversion H.
Defined.

Lemma lookup_scoped_witness : lookup (mem built_once) 1 ("DB", EmptyString) = Some (0%nat, 0%nat).
Proof.
  rewrite <- (proj1 (proj2 (lookup_scoped built_once 1%nat ("Log", EmptyString) (mkProvider None true Fresh Nil None 0) 1%nat ("DB", EmptyString)
    built_once_reached)) ltac:(by right)).
  vm_compute. reflexivity.
Defined.

Lemma Make_returns_witness :
  exists h' r, rtc alone (mem (after mutual), [mkFrame None (use 0 "A")]) (h', [mkFrame None r]) /\ is_result r /\ idle h'.
Proof.
  refine (Make_returns (after mutual) (use 0 "A") _ _).
  - apply (moves_sound mutual). vm_compute. reflexivity.
  - intros i (p & Hp & Hr). do 2 (destruct i as [| i]; [vm_compute in Hp; injection Hp as <-; done |]). vm_compute in Hp. done.
Defined.
