(* ===== verification/Secret.v ===== *)
(** What the packages [src/auth/token] and [src/auth/account] have in common: a
    credential is ["<selector><sep><secret>"], both halves random and in unpadded
    base64url; the store keeps a record under the selector with the hash of the
    secret.

    [SecretStore] is the interface of both stores ([Save], [Get], [Delete]) and
    [SecretStoreLaws] what the callers rely on, discharged for the in-memory
    stores of both packages, which are the same code. *)

From Stdlib Require Import ZArith Lia Ascii.
From stdpp Require Import base gmap strings list numbers.
From S2P Require Import Prelude GoRt GoStrconv.

#[local] Set Warnings "-register-all".

(** ** [base64.RawURLEncoding] *)

(** The character of six bits. *)
Definition url_char (n : Z) : ascii :=
  let n := n mod 64 in
  ascii_of (if n <? 26 then 65 + n else if n <? 52 then 71 + n else if n <? 62 then n - 4 else if n =? 62 then 45 else 95).

Fixpoint base64url (bytes : list Z) : string :=
  match bytes with
  | a :: b :: c :: bytes =>
      String (url_char (a / 4)) (String (url_char (a mod 4 * 16 + b / 16))
        (String (url_char (b mod 16 * 4 + c / 64)) (String (url_char (c mod 64)) (base64url bytes))))
  | [a; b] => String (url_char (a / 4)) (String (url_char (a mod 4 * 16 + b / 16)) (String (url_char (b mod 16 * 4)) EmptyString))
  | [a] => String (url_char (a / 4)) (String (url_char (a mod 4 * 16)) EmptyString)
  | [] => EmptyString
  end.

Example base64url_ex : base64url [104; 105; 255; 254] = "aGn__g"%string.
Proof. reflexivity. Qed.

(** A separator is not in the alphabet. *)
Definition not_url (x : ascii) : Prop := forall n, url_char n <> x.

Lemma url_char_not x : forallb (fun n => negb (Ascii.eqb (url_char (Z.of_nat n)) x)) (seq 0 64) = true -> not_url x.
Proof.
  intros H n. rewrite forallb_forall in H. specialize (H (Z.to_nat (n mod 64))).
  pose proof (Z.mod_pos_bound n 64 ltac:(lia)). rewrite Z2Nat.id in H by lia.
  assert (He : url_char (n mod 64) = url_char n) by (unfold url_char; by rewrite Zmod_mod). rewrite He in H.
  intros Hx. rewrite Hx, Ascii.eqb_refl in H. apply diff_false_true. apply H. apply in_seq. lia.
Qed.

Lemma not_url_pipe : not_url "|".
Proof. apply url_char_not. vm_compute. reflexivity. Qed.

Lemma not_url_dot : not_url ".".
Proof. apply url_char_not. vm_compute. reflexivity. Qed.

Lemma base64url_bytes x bytes : not_url x -> has_byte x (base64url bytes) = false.
Proof.
  intros Hx. assert (H : forall n s, has_byte x s = false -> has_byte x (String (url_char n) s) = false).
  { intros n s Hs. simpl. rewrite Hs. rewrite orb_false_r. apply Ascii.eqb_neq, Hx. }
  revert bytes. fix IH 1. intros [| a [| b [| c bytes]]]; simpl base64url; repeat apply H; try done.
Qed.

Lemma base64url_nonempty bytes : bytes <> [] -> base64url bytes <> EmptyString.
Proof. by destruct bytes as [| a [| b [| c bytes]]]. Qed.

(** ** [splitToken] *)

(** The text before and after the first [sep]. *)
Fixpoint cut (sep : ascii) (s : string) : option (string * string) :=
  match s with
  | EmptyString => None
  | String c s =>
      if Ascii.eqb c sep then Some (EmptyString, s)
      else match cut sep s with Some (a, b) => Some (String c a, b) | None => None end
  end.

Definition splitToken (sep : ascii) (plain : string) : option (string * string) :=
  match cut sep plain with
  | Some (a, b) => if bool_decide (a = EmptyString) || bool_decide (b = EmptyString) then None else Some (a, b)
  | None => None
  end.

Lemma cut_join sep a b : has_byte sep a = false -> cut sep (a +:+ String sep b)%string = Some (a, b).
Proof.
  induction a as [| c a IH]; simpl.
  - by rewrite Ascii.eqb_refl.
  - intros [Hc Ha]%orb_false_iff. rewrite Hc. by rewrite (IH Ha).
Qed.

Lemma splitToken_join sep a b :
  has_byte sep a = false -> a <> EmptyString -> b <> EmptyString -> splitToken sep (a +:+ String sep b)%string = Some (a, b).
Proof. intros Ha Hna Hnb. unfold splitToken. rewrite cut_join by done. by rewrite !bool_decide_eq_false_2. Qed.

Lemma cut_sound sep s a b : cut sep s = Some (a, b) -> s = (a +:+ String sep b)%string /\ has_byte sep a = false.
Proof.
  revert a. induction s as [| c s IH]; intros a; simpl; [done |]. destruct (Ascii.eqb_spec c sep) as [-> | Hne].
  - by intros [= <- <-].
  - destruct (cut sep s) as [[a' b'] |]; [| done]. intros [= <- <-]. destruct (IH a' eq_refl) as [-> Ha]. simpl.
    split; [done |]. rewrite Ha. by destruct (Ascii.eqb_spec c sep).
Qed.

Lemma splitToken_sound sep s a b :
  splitToken sep s = Some (a, b) -> s = (a +:+ String sep b)%string /\ has_byte sep a = false /\ a <> EmptyString /\ b <> EmptyString.
Proof.
  unfold splitToken. destruct (cut sep s) as [[a' b'] |] eqn:Hc; [| done].
  destruct (bool_decide _) eqn:Ha; [done |]. destruct (bool_decide (b' = _)) eqn:Hb; [done |]. simpl. intros [= <- <-].
  apply bool_decide_eq_false in Ha, Hb. by destruct (cut_sound _ _ _ _ Hc) as [? ?].
Qed.

(** ** The store *)

(** [Save], [Get] and [Delete] of a record under its selector; a store may fail, and
    then keeps what it had. *)
Class SecretStore (R E St : Type) := {
  Save : R -> St -> option E * St;
  Get : string -> St -> result E (option R);
  Delete : string -> St -> option E * St;
}.

Class SecretStoreLaws (R E St : Type) (selector : R -> string) `{SecretStore R E St} := {
  view : St -> string -> option R;
  get_returns id st r : Get id st = Ok r -> r = view st id;
  save_stores r st : (Save r st).1 = None -> view (Save r st).2 (selector r) = Some r;
  save_keeps r st id : id <> selector r \/ (Save r st).1 <> None -> view (Save r st).2 id = view st id;
  delete_removes id st : (Delete id st).1 = None -> view (Delete id st).2 id = None;
  delete_keeps id st id' : id' <> id \/ (Delete id st).1 <> None -> view (Delete id st).2 id' = view st id';
}.

Section Sticky.
Context {R E St : Type} {key_of : R -> string} `{L : SecretStoreLaws R E St key_of}.

(** Records are under their own selectors. *)
Definition keyed (st : St) : Prop := forall id rec, view st id = Some rec -> key_of rec = id.

(** The record of [id] has a mark (revoked, used). *)
Definition marked (P : R -> Prop) (st : St) (id : string) : Prop := exists rec, view st id = Some rec /\ P rec.

Lemma save_keyed r st : keyed st -> keyed (Save r st).2.
Proof.
  intros Hk id rec. pose proof (save_keeps r st id) as Hkeep. pose proof (save_stores r st) as Hst.
  destruct (Save r st) as [[e |] st'] eqn:Hs; simpl in *.
  - rewrite Hkeep by (by right). apply Hk.
  - destruct (decide (key_of r = id)) as [He | Hne].
    + rewrite <- He, Hst by done. by intros [= <-].
    + rewrite Hkeep by (left; congruence). apply Hk.
Qed.

(** A mark stays as long as only marked records are saved under it. *)
Lemma save_marked P r st id : marked P st id -> key_of r <> id \/ P r -> marked P (Save r st).2 id.
Proof.
  intros (rec & Hv & HP) Hsave. pose proof (save_keeps r st id) as Hkeep. pose proof (save_stores r st) as Hst.
  destruct (Save r st) as [[e |] st'] eqn:Hs; simpl in *.
  - exists rec. by rewrite Hkeep by (by right).
  - destruct (decide (key_of r = id)) as [He | Hne].
    + destruct Hsave as [? | HP']; [done |]. exists r. rewrite <- He. by rewrite Hst.
    + exists rec. by rewrite Hkeep by (left; congruence).
Qed.
End Sticky.

Section MemoryStore.
Context {R E : Type} (key_of : R -> string).

Definition NewMemoryStore : gmap string R := ∅.
Definition mem_Save (r : R) (s : gmap string R) : gmap string R := <[key_of r := r]> s.
Definition mem_Get (id : string) (s : gmap string R) : option R := s !! id.
Definition mem_Delete (id : string) (s : gmap string R) : gmap string R := delete id s.

Definition mem_SecretStore : SecretStore R E (gmap string R) := {|
  Save r s := (None, mem_Save r s);
  Get id s := Ok (mem_Get id s);
  Delete id s := (None, mem_Delete id s) |}.

Definition mem_SecretStoreLaws : @SecretStoreLaws R E (gmap string R) key_of mem_SecretStore.
Proof.
  unshelve refine {| view := fun s id => s !! id |}.
  - by intros id st r [= <-].
  - intros r st _. simpl. unfold mem_Save. by rewrite lookup_insert, decide_True.
  - intros r st id [Hne | []]; [| done]. simpl in *. unfold mem_Save. by rewrite lookup_insert_ne.
  - intros id st _. simpl. apply lookup_delete_eq.
  - intros id st id' [Hne | []]; [| done]. simpl. by apply lookup_delete_ne.
Defined.
End MemoryStore.
