(* ===== verification/Token.v ===== *)
(** Personal access tokens: [src/auth/token/token.go].

    [Issue], [Find], [Revoke], [RevokePlain] over the store interface of
    [Secret]; the SHA-256 hex digest [hash] is a parameter.  Each clock reading
    and each draw of random bytes is an argument.  [tstep] interleaves goroutines
    over the in-memory store, one store operation at a time. *)

From Stdlib Require Import ZArith Lia Ascii.
From stdpp Require Import base gmap strings list relations numbers.
From S2P Require Import Prelude GoRt GoStrconv Secret.

#[local] Set Warnings "-register-all".
#[local] Open Scope lago_scope.

Record PersonalAccessToken := mkToken {
  ID : string; UserID : Z; Name : string; Hash : string; Abilities : list string;
  CreatedAt : Time; ExpiresAt : Time; LastUsedAt : Time; RevokedAt : Time }.

Definition AbilityAll : string := "*".

Definition Expired (now : Time) (t : PersonalAccessToken) : bool := negb (IsZero (ExpiresAt t)) && After now (ExpiresAt t).
Definition Revoked (t : PersonalAccessToken) : bool := negb (IsZero (RevokedAt t)).

Fixpoint can_any (abilities : list string) (ability : string) : bool :=
  match abilities with
  | [] => false
  | a :: abilities => if bool_decide (a = AbilityAll) || bool_decide (a = ability) then true else can_any abilities ability
  end.
Definition Can (t : PersonalAccessToken) (ability : string) : bool := can_any (Abilities t) ability.
Definition Cant (t : PersonalAccessToken) (ability : string) : bool := negb (Can t ability).

Definition set_last_used (now : Time) (t : PersonalAccessToken) : PersonalAccessToken :=
  mkToken (ID t) (UserID t) (Name t) (Hash t) (Abilities t) (CreatedAt t) (ExpiresAt t) now (RevokedAt t).
Definition set_revoked (now : Time) (t : PersonalAccessToken) : PersonalAccessToken :=
  mkToken (ID t) (UserID t) (Name t) (Hash t) (Abilities t) (CreatedAt t) (ExpiresAt t) (LastUsedAt t) now.

Inductive token_error (E : Type) :=
| ErrNotFound | ErrExpired | ErrRevoked | ErrMalformed | ErrGet (e : E) | ErrSave (e : E) | ErrRandom.
Arguments ErrNotFound {E}.
Arguments ErrExpired {E}.
Arguments ErrRevoked {E}.
Arguments ErrMalformed {E}.
Arguments ErrGet {E} e.
Arguments ErrSave {E} e.
Arguments ErrRandom {E}.

(** [ListByUser] of the in-memory store; Go's map order is the environment's. *)
Definition ListByUser (user : Z) (s : gmap string PersonalAccessToken) : list PersonalAccessToken :=
  base.filter (fun t => UserID t = user) (map snd (map_to_list s)).

Section Issuer.
Context {E St : Type} `{L : SecretStoreLaws PersonalAccessToken E St ID}.
Context (hash : string -> string).

Definition hashSecret (secret : string) : string := hash secret.

(** [randID] and [randSecret] draw 12 and 32 bytes; [None] when the source
    fails. *)
Definition randID (draw : option (list Z)) : option string := option_map base64url draw.
Definition randSecret (draw : option (list Z)) : option string := option_map base64url draw.

Definition Issue (now : Time) (id_draw secret_draw : option (list Z)) (userID : Z) (name : string) (abilities : list string)
    (ttl : Duration) (st : St) : result (token_error E) (PersonalAccessToken * string) * St :=
  match randID id_draw with
  | None => (Err ErrRandom, st)
  | Some id =>
      match randSecret secret_draw with
      | None => (Err ErrRandom, st)
      | Some secret =>
          let exp := if 0 <? ttl then time_Add now ttl else zero_time in
          let rec := mkToken id userID name (hashSecret secret) abilities now exp zero_time zero_time in
          match Save rec st with
          | (Some e, st) => (Err (ErrSave e), st)
          | (None, st) => (Ok (rec, (id +:+ String "|" secret)%string), st)
          end
      end
  end.

(** The decision of [Find] on what the store returned. *)
Definition find_check (now : Time) (secret : string) (found : option PersonalAccessToken) : result (token_error E) PersonalAccessToken :=
  match found with
  | None => Err ErrNotFound
  | Some rec =>
      if negb (bool_decide (Hash rec = hashSecret secret)) then Err ErrNotFound
      else if Revoked rec then Err ErrRevoked
      else if Expired now rec then Err ErrExpired
      else Ok rec
  end.

(** [now] and [used] are its two readings of the clock. *)
Definition Find (now used : Time) (plain : string) (st : St) : result (token_error E) PersonalAccessToken * St :=
  match splitToken "|" plain with
  | None => (Err ErrMalformed, st)
  | Some (id, secret) =>
      match Get id st with
      | Err e => (Err (ErrGet e), st)
      | Ok found =>
          match find_check now secret found with
          | Err e => (Err e, st)
          | Ok rec => let rec := set_last_used used rec in (Ok rec, (Save rec st).2)
          end
      end
  end.

Definition Revoke (now : Time) (id : string) (st : St) : option (token_error E) * St :=
  match Get id st with
  | Err e => (Some (ErrGet e), st)
  | Ok None => (Some ErrNotFound, st)
  | Ok (Some rec) =>
      if Revoked rec then (None, st)
      else match Save (set_revoked now rec) st with
           | (Some e, st) => (Some (ErrSave e), st)
           | (None, st) => (None, st)
           end
  end.

Definition RevokePlain (now : Time) (plain : string) (st : St) : option (token_error E) * St :=
  match splitToken "|" plain with
  | None => (Some ErrMalformed, st)
  | Some (id, _) => Revoke now id st
  end.

(** ** What [Find] accepts *)

(** When the store answers, [Find] accepts a text exactly when it is
    ["<id>|<secret>"], the store holds a record under that id whose hash is that
    of the secret, and the record is neither revoked nor past its expiry; it
    returns that record stamped with the time. *)
Theorem Find_exact now used plain st r :
  (forall id e, Get id st <> Err e) ->
  (Find now used plain st).1 = Ok r <->
  exists id secret rec,
    plain = (id +:+ String "|" secret)%string /\ has_byte "|" id = false /\ id <> EmptyString /\ secret <> EmptyString /\
    view st id = Some rec /\ Hash rec = hashSecret secret /\ RevokedAt rec = zero_time /\
    (ExpiresAt rec = zero_time \/ now <= ExpiresAt rec) /\ r = set_last_used used rec.
Proof.
  intros Hget. unfold Find. split.
  - destruct (splitToken "|" plain) as [[id secret] |] eqn:Hs; [| done]. apply splitToken_sound in Hs as (-> & Hid & Hne & Hsne).
    destruct (Get id st) as [found | e] eqn:Hg; [| by destruct (Hget id e)]. apply get_returns in Hg.
    unfold find_check. destruct found as [rec |]; [| done]. case_bool_decide as Hh; [| done]. simpl.
    unfold Revoked, Expired, After, IsZero. destruct (Z.eqb_spec (RevokedAt rec) 0) as [Hr |]; [| done]. simpl.
    destruct (Z.eqb_spec (ExpiresAt rec) 0) as [He | He], (Z.ltb_spec (ExpiresAt rec) now) as [Hlt | Hle]; simpl; intros [= <-];
      exists id, secret, rec; split_and!; try done; by auto.
  - intros (id & secret & rec & -> & Hid & Hne & Hsne & Hv & Hh & Hr & He & ->).
    rewrite splitToken_join by done. destruct (Get id st) as [found | e] eqn:Hg; [| by destruct (Hget id e)].
    apply get_returns in Hg as ->. rewrite Hv. simpl. rewrite bool_decide_eq_true_2 by done. simpl.
    unfold Revoked, Expired, IsZero, After. rewrite Hr. simpl.
    destruct (Z.eqb_spec (ExpiresAt rec) 0) as [| Hz]; [done |]. destruct He as [He | He]; [done |].
    by destruct (Z.ltb_spec (ExpiresAt rec) now); [lia |].
Qed.

(** The token [Issue] hands out is found, for the user and with the abilities
    it was issued for, until its time to live has passed; with none it is found at
    any time. *)
Theorem Issue_then_Find now id_draw secret_draw userID name abilities ttl st rec plain st' later used :
  id_draw <> Some [] -> secret_draw <> Some [] -> 0 < now -> now <= later ->
  Issue now id_draw secret_draw userID name abilities ttl st = (Ok (rec, plain), st') ->
  (forall id e, Get id st' <> Err e) ->
  (Find later used plain st').1 =
  (if (0 <? ttl) && (now + ttl <? later) then Err ErrExpired else Ok (set_last_used used rec)) /\
  UserID rec = userID /\ Abilities rec = abilities /\ Name rec = name.
Proof.
  intros Hid Hsec Hnow Hlater Hissue Hget. unfold Issue, randID, randSecret in Hissue.
  destruct id_draw as [ib |]; [| done]. destruct secret_draw as [sb |]; [| done]. cbn [option_map] in Hissue.
  assert (Hib : base64url ib <> EmptyString) by (apply base64url_nonempty; congruence).
  assert (Hsb : base64url sb <> EmptyString) by (apply base64url_nonempty; congruence).
  pose proof (base64url_bytes "|" ib not_url_pipe) as Hbar. revert Hissue Hib Hsb Hbar.
  generalize (base64url ib) (base64url sb). intros sid secret Hissue Hib Hsb Hbar.
  set (r := mkToken _ _ _ _ _ _ _ _ _) in Hissue. pose proof (save_stores r st) as Hst.
  destruct (Save r st) as [[e |] st1]; [done |]. injection Hissue as <- <- <-. specialize (Hst eq_refl). simpl in Hst.
  split; [| done]. unfold Find. rewrite splitToken_join by done.
  destruct (Get sid st1) as [found | e] eqn:Hg; [| by destruct (Hget _ _ Hg)].
  apply get_returns in Hg as ->. rewrite Hst. simpl.
  rewrite bool_decide_eq_true_2 by done. simpl. unfold Expired, IsZero, After, time_Add, zero_time. simpl.
  destruct (Z.ltb_spec 0 ttl) as [Httl | Httl]; simpl; [| done].
  change (time_Add now ttl) with (now + ttl).
  destruct (Z.eqb_spec (now + ttl) 0); [lia |]. simpl. by destruct (now + ttl <? later).
Qed.

(** ** Revocation *)

(** What an application does with the issuer, with the readings of the clock and
    the random draws. *)
Inductive op :=
| OIssue (now : Time) (id_draw secret_draw : option (list Z)) (userID : Z) (name : string) (abilities : list string) (ttl : Duration)
| OFind (now used : Time) (plain : string)
| ORevoke (now : Time) (id : string)
| ORevokePlain (now : Time) (plain : string).

Definition op_run (o : op) (st : St) : St :=
  match o with
  | OIssue now d1 d2 u n ab ttl => (Issue now d1 d2 u n ab ttl st).2
  | OFind now used plain => (Find now used plain st).2
  | ORevoke now id => (Revoke now id st).2
  | ORevokePlain now plain => (RevokePlain now plain st).2
  end.

(** The clock does not stand at Go's zero time. *)
Definition op_timed (o : op) : Prop := match o with ORevoke t _ | ORevokePlain t _ => t <> zero_time | _ => True end.

(** Draws an id other than [id]. *)
Definition draws_other (id : string) (o : op) : Prop :=
  match o with OIssue _ d _ _ _ _ _ => randID d <> Some id | _ => True end.

Definition revoked_at (st : St) (id : string) : Prop := marked (fun rec => RevokedAt rec <> zero_time) st id.

Lemma find_check_ok now secret found rec : find_check now secret found = Ok rec -> found = Some rec /\ RevokedAt rec = zero_time.
Proof.
  unfold find_check. destruct found as [r |]; [| done]. case_bool_decide; [| done]. simpl.
  unfold Revoked, IsZero. destruct (Z.eqb_spec (RevokedAt r) 0); [| done]. simpl. destruct (Expired now r); [done |]. by intros [= <-].
Qed.

(** Every operation but a second issue of the same id keeps the revocation, and
    keeps records under their own ids. *)
Lemma op_keeps o st id :
  op_timed o ->
  keyed st -> draws_other id o -> keyed (op_run o st) /\ (revoked_at st id -> revoked_at (op_run o st) id).
Proof.
  intros Ht Hk Hd.
  assert (Hrev : forall now id', now <> zero_time -> keyed (Revoke now id' st).2 /\ (revoked_at st id -> revoked_at (Revoke now id' st).2 id)).
  { intros now id' Hnow. unfold Revoke. destruct (Get id' st) as [[rec |] | e]; [| done | done].
    destruct (Revoked rec); [done |].
    pose proof (save_keyed (set_revoked now rec) st Hk). pose proof (save_marked (fun rec => RevokedAt rec <> zero_time) (set_revoked now rec) st id).
    destruct (Save (set_revoked now rec) st) as [[e |] st']; unfold revoked_at in *; simpl in *; auto. }
  destruct o as [now d1 d2 u n ab ttl | now used plain | now id' | now plain]; simpl in *.
  - unfold Issue. destruct (randID d1) as [i |] eqn:Hi; [| done]. destruct (randSecret d2) as [s |]; [| done].
    set (r := mkToken _ _ _ _ _ _ _ _ _). pose proof (save_keyed r st Hk). pose proof (save_marked (fun rec => RevokedAt rec <> zero_time) r st id) as Hs.
    assert (ID r <> id) by (simpl; congruence).
    destruct (Save r st) as [[e |] st']; unfold revoked_at in *; simpl in *; auto.
  - unfold Find. destruct (splitToken "|" plain) as [[i s] |]; [| done]. destruct (Get i st) as [found | e] eqn:Hg; [| done].
    destruct (find_check now s found) as [rec | e] eqn:Hf; [| done]. apply find_check_ok in Hf as [-> Hz]. apply get_returns in Hg.
    simpl. split; [by apply save_keyed |]. intros Hr. apply save_marked; [done |]. left. simpl. intros He.
    destruct Hr as (rec' & Hv & Hr). assert (i = id) as -> by (symmetry in Hg; apply Hk in Hg; congruence). congruence.
  - by apply Hrev.
  - unfold RevokePlain. destruct (splitToken "|" plain) as [[i s] |]; [by apply Hrev | done].
Qed.

Fixpoint op_runs (os : list op) (st : St) : St := match os with [] => st | o :: os => op_runs os (op_run o st) end.

(** When calls do not overlap, revocation is for good: after a successful
    [Revoke] of an id, whatever is issued under other ids, found or revoked
    afterwards, [Find] accepts no text with that id. *)
Theorem revoked_for_good now id st st' os secret later used :
  keyed st -> Forall op_timed os -> Forall (draws_other id) os -> now <> zero_time ->
  has_byte "|" id = false -> id <> EmptyString -> secret <> EmptyString ->
  (Revoke now id st) = (None, st') ->
  forall r, (Find later used (id +:+ String "|" secret)%string (op_runs os st')).1 <> Ok r.
Proof.
  intros Hk Ht Hd Hnow Hbar Hne Hsec Hrev r.
  assert (H0 : keyed st' /\ revoked_at st' id).
  { unfold Revoke in Hrev. destruct (Get id st) as [[rec |] | e0] eqn:Hg; [| done | done]. apply get_returns in Hg. symmetry in Hg.
    pose proof (Hk _ _ Hg) as Hid. unfold Revoked, IsZero in Hrev. destruct (Z.eqb_spec (RevokedAt rec) 0) as [| Hz]; simpl in Hrev.
    - pose proof (save_keyed (set_revoked now rec) st Hk) as Hk'. pose proof (save_stores (set_revoked now rec) st) as Hst.
      destruct (Save (set_revoked now rec) st) as [[er |] st1]; [done |]. injection Hrev as <-. split; [done |].
      exists (set_revoked now rec). simpl in *. rewrite <- Hid. by rewrite Hst.
    - injection Hrev as <-. split; [done |]. by exists rec. }
  clear Hrev. destruct H0 as [Hk' Hrev]. revert st' Hk' Hrev. induction os as [| o os IH]; intros st' Hk' Hrev; simpl.
  - unfold Find. rewrite splitToken_join by done. destruct (Get id st') as [found | e0] eqn:Hg; [| done].
    destruct (find_check later secret found) as [rec | e0] eqn:Hf; [| done]. apply find_check_ok in Hf as [-> Hz].
    apply get_returns in Hg. destruct Hrev as (rec' & Hv & Hr). congruence.
  - apply list.Forall_cons in Ht as [Ht Hts]. apply list.Forall_cons in Hd as [Hd Hds].
    destruct (op_keeps o st' id Ht Hk' Hd) as [Hk1 Hr1]. by apply IH; [done | done | | apply Hr1].
Qed.
End Issuer.

(** ** Overlapping calls *)

(** A goroutine in [Find] or in [Revoke], between its two operations on the
    in-memory store; [out] is what it returned. *)
Inductive call :=
| CFind (plain : string)
| CFindSave (rec : PersonalAccessToken)
| CRevoke (id : string)
| CRevokeSave (rec : PersonalAccessToken)
| CDone (out : result (token_error Empty_set) (option PersonalAccessToken)).

Definition store : Type := gmap string PersonalAccessToken.

(** One operation of a goroutine on the store, at a time. *)
Definition call_step (hash : string -> string) (now : Time) (c : call) (s : store) : option (call * store) :=
  match c with
  | CFind plain =>
      match splitToken "|" plain with
      | None => Some (CDone (Err ErrMalformed), s)
      | Some (id, secret) =>
          match find_check hash now secret (mem_Get id s) with
          | Err e => Some (CDone (Err e), s)
          | Ok rec => Some (CFindSave (set_last_used now rec), s)
          end
      end
  | CFindSave rec => Some (CDone (Ok (Some rec)), mem_Save ID rec s)
  | CRevoke id =>
      match mem_Get id s with
      | None => Some (CDone (Err ErrNotFound), s)
      | Some rec => if Revoked rec then Some (CDone (Ok None), s) else Some (CRevokeSave (set_revoked now rec), s)
      end
  | CRevokeSave rec => Some (CDone (Ok None), mem_Save ID rec s)
  | CDone _ => None
  end.

Inductive tstep (hash : string -> string) : list call * store -> list call * store -> Prop :=
| tstep_run cs i c now s c' s' : cs !! i = Some c -> call_step hash now c s = Some (c', s') -> tstep hash (cs, s) (<[i := c']> cs, s').

Lemma tstep_at hash i now cs s cs' s' :
  (c ← cs !! i; '(c', s') ← call_step hash now c s; Some (<[i := c']> cs, s')) = Some (cs', s') -> tstep hash (cs, s) (cs', s').
Proof.
  destruct (cs !! i) as [c |] eqn:Hi; simpl; [| done]. destruct (call_step hash now c s) as [[c' s1] |] eqn:Hc; simpl; [| done].
  intros [= <- <-]. by econstructor.
Qed.

Definition ann : PersonalAccessToken := mkToken "id" 1 "ci" "s" ["*"] 5 0 0 0.

(** A [Find] that has read the record before a [Revoke] of it finishes writes it
    back unrevoked: [Revoke] has reported success, and the token is accepted
    again. *)
Theorem revocation_is_lost :
  exists s, rtc (tstep (fun x => x)) ([CFind "id|s"; CRevoke "id"], {["id" := ann]})
              ([CDone (Ok (Some (set_last_used 10 ann))); CDone (Ok None)], s) /\
    s !! "id" = Some (set_last_used 10 ann) /\
    find_check (E := Empty_set) (fun x => x) 100 "s" (mem_Get "id" s) = Ok (set_last_used 10 ann).
Proof.
  exists {["id" := set_last_used 10 ann]}. split; [| split; [reflexivity | vm_compute; reflexivity]].
  eapply rtc_l; [apply (tstep_at _ 0 10); vm_compute; reflexivity |].
  eapply rtc_l; [apply (tstep_at _ 1 11); vm_compute; reflexivity |].
  eapply rtc_l; [apply (tstep_at _ 1 12); vm_compute; reflexivity |].
  eapply rtc_l; [apply (tstep_at _ 0 13); vm_compute; reflexivity |].
  vm_compute. apply rtc_refl.
Qed.

(** ** Witnesses *)

#[local] Instance memory : SecretStore PersonalAccessToken Empty_set store := mem_SecretStore ID.
#[local] Instance memory_laws : SecretStoreLaws PersonalAccessToken Empty_set store ID := mem_SecretStoreLaws ID.

Lemma Find_exact_witness : (Find (fun x => x) 7 8 "id|s" ({["id" := ann]} : store)).1 = Ok (set_last_used 8 ann).
Proof.
  apply (proj2 (Find_exact (E := Empty_set) (fun x => x) 7 8 "id|s" ({["id" := ann]} : store) (set_last_used 8 ann) ltac:(by intros id []))).
  exists "id"%string, "s"%string, ann. split_and!; try done. by left.
Defined.

Lemma Issue_then_Find_witness :
  let '(r, st) := Issue (fun x => x) 5 (Some [1; 2; 3]) (Some [9; 9]) 1 "ci" ["read"] 100 (∅ : store) in
  match r with
  | Ok (rec, plain) => (Find (fun x => x) 50 51 plain st).1 = Ok (set_last_used 51 rec)
  | Err _ => False
  end.
Proof.
  destruct (Issue (fun x => x) 5 (Some [1; 2; 3]) (Some [9; 9]) 1 "ci" ["read"] 100 (∅ : store)) as [[[rec plain] | e] st] eqn:Hi;
    [| vm_compute in Hi; done].
  apply (Issue_then_Find (E := Empty_set) (fun x => x) 5 (Some [1; 2; 3]) (Some [9; 9]) 1 "ci" ["read"] 100 ∅ rec plain st 50 51);
    [done | done | lia | lia | exact Hi | by intros id []].
Defined.

Lemma revoked_for_good_witness :
  (Find (fun x => x) 50 51 "id|s" (op_runs (fun x => x) [OFind 20 21 "id|s"] (Revoke 10 "id" ({["id" := ann]} : store)).2)).1 <> Ok (set_last_used 51 ann).
Proof.
  apply (revoked_for_good (E := Empty_set) (fun x => x) 10 "id" ({["id" := ann]} : store) (Revoke 10 "id" ({["id" := ann]} : store)).2
    [OFind 20 21 "id|s"] "s" 50 51); try done; try (by repeat constructor).
  intros id rec. simpl. intros [<- <-]%lookup_singleton_Some. done.
Defined.
