(* ===== verification/GoUrl.v ===== *)
(** Query strings of [net/url]: [QueryEscape], [Values.Encode], [ParseQuery] and
    the methods of [Values] the source uses.

    A [Values] is a map from a name to its values in order. *)

From Stdlib Require Import ZArith Lia Ascii.
From stdpp Require Import base gmap strings list numbers sorting.
From S2P Require Import Prelude GoRt GoStrconv.

#[local] Set Warnings "-register-all".

Notation Values := (gmap string (list string)).

Definition values_Get (q : Values) (k : string) : string :=
  match q !! k with Some (v :: _) => v | _ => EmptyString end.
Definition values_Set (q : Values) (k v : string) : Values := <[k := [v]]> q.
Definition values_Del (q : Values) (k : string) : Values := delete k q.

(** ** Escaping *)

Definition unreserved (c : ascii) : bool :=
  let n := byte_of c in
  ((48 <=? n) && (n <=? 57)) || ((65 <=? n) && (n <=? 90)) || ((97 <=? n) && (n <=? 122))
  || (n =? 45) || (n =? 95) || (n =? 46) || (n =? 126).

Definition upper_hex (d : Z) : ascii := ascii_of (if d <? 10 then 48 + d else 55 + d).

Fixpoint QueryEscape (s : string) : string :=
  match s with
  | EmptyString => EmptyString
  | String c s =>
      if unreserved c then String c (QueryEscape s)
      else if byte_of c =? 32 then String "+" (QueryEscape s)
      else String "%" (String (upper_hex (byte_of c / 16)) (String (upper_hex (byte_of c mod 16)) (QueryEscape s)))
  end.

Definition unhex (c : ascii) : option Z :=
  let n := byte_of c in
  if (48 <=? n) && (n <=? 57) then Some (n - 48)
  else if (97 <=? n) && (n <=? 102) then Some (n - 87)
  else if (65 <=? n) && (n <=? 70) then Some (n - 55)
  else None.

(** [QueryUnescape]; [None] is its error. *)
Fixpoint QueryUnescape (s : string) : option string :=
  match s with
  | EmptyString => Some EmptyString
  | String c rest =>
      if Ascii.eqb c "%" then
        match rest with
        | String h (String l rest) =>
            match unhex h, unhex l with
            | Some h, Some l => option_map (String (ascii_of (16 * h + l))) (QueryUnescape rest)
            | _, _ => None
            end
        | _ => None
        end
      else option_map (String (if Ascii.eqb c "+" then " "%char else c)) (QueryUnescape rest)
  end.

(** ** [Encode] and [ParseQuery] *)

Definition pairs_of (q : Values) (k : string) : list (string * string) := map (fun v => (k, v)) (default [] (q !! k)).

(** The pairs in the order of the sorted names. *)
Definition sorted_pairs (q : Values) : list (string * string) :=
  mjoin (map (pairs_of q) (merge_sort (fun a b => Is_true (String.leb a b)) (elements (dom q)))).

Definition encode_pair (kv : string * string) : string := (QueryEscape kv.1 +:+ String "=" (QueryEscape kv.2))%string.

Fixpoint join_amp (segs : list string) : string :=
  match segs with
  | [] => EmptyString
  | [s] => s
  | s :: segs => (s +:+ String "&" (join_amp segs))%string
  end.

Definition Encode (q : Values) : string := join_amp (map encode_pair (sorted_pairs q)).

(** The text before and after the first [=], all of it and nothing without one. *)
Fixpoint Cut_eq (s : string) : string * string :=
  match s with
  | EmptyString => (EmptyString, EmptyString)
  | String c s => if Ascii.eqb c "=" then (EmptyString, s) else let '(a, b) := Cut_eq s in (String c a, b)
  end.

Definition parse_segment (seg : string) : option (string * string) :=
  if has_byte ";" seg then None
  else if bool_decide (seg = EmptyString) then None
  else
    let '(k, v) := Cut_eq seg in
    match QueryUnescape k, QueryUnescape v with Some k, Some v => Some (k, v) | _, _ => None end.

Definition add_pair (q : Values) (kv : string * string) : Values := <[kv.1 := default [] (q !! kv.1) ++ [kv.2]]> q.

(** A segment in error is left out, as [URL.Query] does. *)
Definition ParseQuery (raw : string) : Values := fold_left add_pair (omap parse_segment (Split "&" raw)) ∅.

Example ParseQuery_ex : Encode (ParseQuery "b=2&a=x%20y&b=%26&;=&%zz=1") = "a=x+y&b=2&b=%26"%string.
Proof. vm_compute. reflexivity. Qed.

(** ** Round trip *)

(** By cases on the 256 bytes. *)
Lemma byte_cases (P : ascii -> bool) : forallb P (map (fun n => ascii_of_nat n) (seq 0 256)) = true -> forall c, P c = true.
Proof.
  intros H c. rewrite forallb_forall in H. apply H. rewrite in_map_iff. exists (nat_of_ascii c).
  split; [apply ascii_nat_embedding |]. apply in_seq. pose proof (nat_ascii_bounded c). lia.
Qed.

Lemma escape_byte c s :
  QueryUnescape (QueryEscape (String c s)) = option_map (String c) (QueryUnescape (QueryEscape s)).
Proof.
  pose proof (byte_cases (fun c =>
    if unreserved c then negb (Ascii.eqb c "%") && negb (Ascii.eqb c "+")
    else if byte_of c =? 32 then Ascii.eqb c " "
    else match unhex (upper_hex (byte_of c / 16)), unhex (upper_hex (byte_of c mod 16)) with
         | Some h, Some l => Ascii.eqb (ascii_of (16 * h + l)) c
         | _, _ => false
         end) ltac:(vm_compute; reflexivity) c) as H.
  cbv beta in H. simpl. destruct (unreserved c).
  - apply andb_true_iff in H as [Hp Hq]. apply negb_true_iff in Hp, Hq. cbn [QueryUnescape]. by rewrite Hp, Hq.
  - destruct (byte_of c =? 32); [by apply Ascii.eqb_eq in H as -> |]. cbn [QueryUnescape Ascii.eqb].
    destruct (unhex (upper_hex (byte_of c / 16))) as [h |]; [| done].
    destruct (unhex (upper_hex (byte_of c mod 16))) as [l |]; [| done]. by apply Ascii.eqb_eq in H as ->.
Qed.

Lemma QueryUnescape_QueryEscape s : QueryUnescape (QueryEscape s) = Some s.
Proof. induction s as [| c s IH]; [done |]. by rewrite escape_byte, IH. Qed.

(** The bytes with a meaning in a query are escaped. *)
Lemma QueryEscape_bytes x s :
  negb (unreserved x) && negb (Ascii.eqb x "+") && negb (Ascii.eqb x "%") = true -> has_byte x (QueryEscape s) = false.
Proof.
  intros Hx. apply andb_true_iff in Hx as [[Hu Hp]%andb_true_iff Hq]. apply negb_true_iff in Hu, Hp, Hq.
  assert (Hhex : forall d, 0 <= d < 16 -> Ascii.eqb (upper_hex d) x = false).
  { intros d Hd. apply Ascii.eqb_neq. intros He.
    assert (Hud : forallb (fun n => unreserved (upper_hex (Z.of_nat n))) (seq 0 16) = true) by (vm_compute; reflexivity).
    rewrite forallb_forall in Hud. specialize (Hud (Z.to_nat d)). rewrite Z2Nat.id in Hud by lia.
    rewrite He, Hu in Hud. apply diff_false_true. apply Hud, in_seq. lia. }
  induction s as [| c s IH]; [done |]. simpl. destruct (unreserved c) eqn:Hc.
  - simpl. rewrite IH, orb_false_r. apply Ascii.eqb_neq. intros ->. congruence.
  - destruct (byte_of c =? 32); cbn [has_byte].
    + rewrite IH, orb_false_r. rewrite Ascii.eqb_sym. done.
    + assert (0 <= byte_of c < 256) by (unfold byte_of; pose proof (N_ascii_bounded c); lia).
      rewrite IH, (Ascii.eqb_sym "%" x), Hq. rewrite !Hhex; [done | apply Z.mod_pos_bound; lia |].
      split; [apply Z.div_pos; lia | apply Z.div_lt_upper_bound; lia].
Qed.

Lemma encode_pair_bytes x kv :
  negb (unreserved x) && negb (Ascii.eqb x "+") && negb (Ascii.eqb x "%") = true -> x <> "="%char ->
  has_byte x (encode_pair kv) = false.
Proof.
  intros Hx He. unfold encode_pair. rewrite has_byte_app. cbn [has_byte]. rewrite !QueryEscape_bytes by done.
  rewrite orb_false_r. apply Ascii.eqb_neq. congruence.
Qed.

Lemma Cut_eq_join a b : has_byte "=" a = false -> Cut_eq (a +:+ String "=" b)%string = (a, b).
Proof.
  induction a as [| c a IH]; [done |]. change (String c a +:+ String "=" b)%string with (String c (a +:+ String "=" b)%string).
  simpl. intros [-> Ha]%orb_false_iff. by rewrite IH.
Qed.

Lemma parse_encode_pair kv : parse_segment (encode_pair kv) = Some kv.
Proof.
  unfold parse_segment. rewrite encode_pair_bytes by done. rewrite bool_decide_eq_false_2.
  - unfold encode_pair. rewrite Cut_eq_join by (by apply QueryEscape_bytes). rewrite !QueryUnescape_QueryEscape. by destruct kv.
  - unfold encode_pair. by destruct (QueryEscape kv.1).
Qed.

Lemma Split_join_amp segs : segs <> [] -> Forall (fun s => has_byte "&" s = false) segs -> Split "&" (join_amp segs) = segs.
Proof.
  intros Hne H. induction H as [| s segs Hs Hrest IH]; [done |]. destruct segs as [| s' segs]; simpl.
  - by apply Split_none.
  - rewrite Split_first by done. f_equal. by apply IH.
Qed.

Lemma segments_of_Encode q : omap parse_segment (Split "&" (Encode q)) = sorted_pairs q.
Proof.
  unfold Encode. destruct (decide (sorted_pairs q = [])) as [-> | Hne]; [done |].
  rewrite Split_join_amp.
  - clear Hne. induction (sorted_pairs q) as [| kv l IH]; [done |]. simpl. rewrite parse_encode_pair. by f_equal.
  - by destruct (sorted_pairs q).
  - apply list.Forall_forall. intros s (kv & -> & _)%list_elem_of_fmap. by apply encode_pair_bytes.
Qed.

(** Adding pairs one by one puts the values of each name in order. *)
Lemma add_pairs_lookup l q k :
  fold_left add_pair l q !! k =
  match map snd (base.filter (fun kv => kv.1 = k) l) with [] => q !! k | vs => Some (default [] (q !! k) ++ vs) end.
Proof.
  revert q. induction l as [| [k' v] l IH]; intros q; [done |]. simpl. rewrite IH, filter_cons. unfold add_pair. simpl.
  destruct (decide (k' = k)) as [-> | Hne].
  - rewrite lookup_insert, decide_True by done. simpl. destruct (map snd (base.filter _ l)); [done |]. by rewrite <- app_assoc.
  - by rewrite lookup_insert_ne.
Qed.

(** No name without values. *)
Definition values_ok (q : Values) : Prop := forall k, q !! k <> Some [].

Lemma filter_pairs q k k' : base.filter (fun kv => kv.1 = k) (pairs_of q k') = if decide (k' = k) then pairs_of q k else [].
Proof.
  unfold pairs_of. destruct (decide (k' = k)) as [-> | Hne]; induction (default [] (q !! _)) as [| v vs IH]; simpl; try done;
    rewrite filter_cons; simpl; case_decide; congruence.
Qed.

Lemma filter_sorted q k : map snd (base.filter (fun kv => kv.1 = k) (sorted_pairs q)) = default [] (q !! k).
Proof.
  unfold sorted_pairs. set (ks := merge_sort _ _).
  assert (Hp : ks ≡ₚ elements (dom q)) by apply merge_sort_Permutation.
  assert (Hnd : NoDup ks) by (rewrite Hp; apply NoDup_elements).
  assert (Hin : k ∈ ks <-> k ∈ dom q) by (rewrite Hp; apply elem_of_elements). clear Hp. clearbody ks.
  assert (H : forall ks, NoDup ks -> base.filter (fun kv => kv.1 = k) (mjoin (map (pairs_of q) ks)) = if decide (k ∈ ks) then pairs_of q k else []).
  { clear. induction ks as [| k' ks IH]; [done |]. intros [Hn Hnd]%list.NoDup_cons. simpl. rewrite list.filter_app, filter_pairs, IH by done.
    destruct (decide (k' = k)) as [-> | Hne].
    - rewrite decide_False, decide_True by set_solver. by rewrite app_nil_r.
    - destruct (decide (k ∈ ks)), (decide (k ∈ k' :: ks)); set_solver. }
  rewrite H by done. destruct (decide (k ∈ ks)) as [Hk | Hk].
  - unfold pairs_of. rewrite map_map. simpl. by rewrite map_id.
  - rewrite Hin in Hk. apply not_elem_of_dom in Hk. by rewrite Hk.
Qed.

Theorem ParseQuery_Encode q : values_ok q -> ParseQuery (Encode q) = q.
Proof.
  intros Hq. unfold ParseQuery. rewrite segments_of_Encode. apply map_eq. intros k.
  rewrite add_pairs_lookup, filter_sorted, lookup_empty. simpl. specialize (Hq k).
  destruct (q !! k) as [[| v vs] |]; [done | done | done].
Qed.

Lemma ParseQuery_ok raw : values_ok (ParseQuery raw).
Proof.
  intros k. unfold ParseQuery. rewrite add_pairs_lookup, lookup_empty. by destruct (map snd _).
Qed.

Lemma Encode_bytes x q :
  negb (unreserved x) && negb (Ascii.eqb x "+") && negb (Ascii.eqb x "%") = true -> x <> "="%char -> x <> "&"%char ->
  has_byte x (Encode q) = false.
Proof.
  intros Hx He Ha. unfold Encode. induction (sorted_pairs q) as [| kv l IH]; [done |]. simpl.
  destruct (map encode_pair l) eqn:Hl; [by apply encode_pair_bytes |].
  rewrite has_byte_app, encode_pair_bytes by done. cbn [has_byte]. rewrite IH, orb_false_r. apply Ascii.eqb_neq. congruence.
Qed.
