(* ===== verification/AccountToken.v ===== *)
(** Single-use tokens of [src/auth/account/account.go]: [Tokens] over the store
    interface of [Secret]; the SHA-256 hex digest [hash] is a parameter.  [cstep]
    interleaves goroutines in [Consume], one store operation at a time. *)

From Stdlib Require Import ZArith Lia Ascii.
From stdpp Require Import base gmap strings list relations numbers.
From S2P Require Import Prelude GoRt GoStrconv Secret.

#[local] Set Warnings "-register-all".
#[local] Open Scope lago_scope.

Inductive Purpose := PurposeReset | PurposeVerify | OtherPurpose (name : string).

#[export] Instance Purpose_eq_dec : EqDecision Purpose.
Proof. solve_decision. Defined.

Record Record_ := mkRecord {
  Selector : string; Purpose_ : Purpose; Subject : string; Hash : string; CreatedAt : Time; ExpiresAt : Time; UsedAt : Time }.

Definition Used (r : Record_) : bool := negb (IsZero (UsedAt r)).
Definition Expired (now : Time) (r : Record_) : bool := After now (ExpiresAt r).
Definition set_used (now : Time) (r : Record_) : Record_ :=
  mkRecord (Selector r) (Purpose_ r) (Subject r) (Hash r) (CreatedAt r) (ExpiresAt r) now.

Inductive token_error (E : Type) := ErrTokenNotFound | ErrTokenExpired | ErrTokenUsed | ErrGet (e : E) | ErrSave (e : E) | ErrRandom.
Arguments ErrTokenNotFound {E}.
Arguments ErrTokenExpired {E}.
Arguments ErrTokenUsed {E}.
Arguments ErrGet {E} e.
Arguments ErrSave {E} e.
Arguments ErrRandom {E}.

(** The time to live; an hour by default. *)
Definition NewTokens (ttl : Duration) : Duration := if ttl <=? 0 then 3600 * Second else ttl.

Section Store.
Context {E St : Type} `{L : SecretStoreLaws Record_ E St Selector}.
Context (hash : string -> string) (ttl : Duration).

Definition hashToken (secret : string) : string := hash secret.
Definition randToken (draw : option (list Z)) : option string := option_map base64url draw.

Definition Issue (now : Time) (sel_draw secret_draw : option (list Z)) (purpose : Purpose) (subject : string) (st : St)
  : result (token_error E) string * St :=
  match randToken sel_draw with
  | None => (Err ErrRandom, st)
  | Some sel =>
      match randToken secret_draw with
      | None => (Err ErrRandom, st)
      | Some secret =>
          match Save (mkRecord sel purpose subject (hashToken secret) now (time_Add now ttl) zero_time) st with
          | (Some e, st) => (Err (ErrSave e), st)
          | (None, st) => (Ok (sel +:+ String "." secret)%string, st)
          end
      end
  end.

(** What [lookup] decides on what the store returned. *)
Definition lookup_check (now : Time) (purpose : Purpose) (secret : string) (found : option Record_) : result (token_error E) Record_ :=
  match found with
  | None => Err ErrTokenNotFound
  | Some rec =>
      if negb (bool_decide (Purpose_ rec = purpose)) then Err ErrTokenNotFound
      else if negb (bool_decide (Hash rec = hashToken secret)) then Err ErrTokenNotFound
      else if Used rec then Err ErrTokenUsed
      else if Expired now rec then Err ErrTokenExpired
      else Ok rec
  end.

Definition lookup_ (now : Time) (purpose : Purpose) (plain : string) (st : St) : result (token_error E) Record_ :=
  match splitToken "." plain with
  | None => Err ErrTokenNotFound
  | Some (sel, secret) =>
      match Get sel st with Err e => Err (ErrGet e) | Ok found => lookup_check now purpose secret found end
  end.

Definition Verify (now : Time) (purpose : Purpose) (plain : string) (st : St) : result (token_error E) string :=
  match lookup_ now purpose plain st with Err e => Err e | Ok rec => Ok (Subject rec) end.

(** [now] and [used] are its two readings of the clock. *)
Definition Consume (now used : Time) (purpose : Purpose) (plain : string) (st : St) : result (token_error E) string * St :=
  match lookup_ now purpose plain st with
  | Err e => (Err e, st)
  | Ok rec =>
      match Save (set_used used rec) st with
      | (Some e, st) => (Err (ErrSave e), st)
      | (None, st) => (Ok (Subject rec), st)
      end
  end.

Lemma lookup_check_ok now purpose secret found rec :
  lookup_check now purpose secret found = Ok rec <->
  found = Some rec /\ Purpose_ rec = purpose /\ Hash rec = hashToken secret /\ UsedAt rec = zero_time /\ now <= ExpiresAt rec.
Proof.
  unfold lookup_check, Used, Expired, IsZero, After. destruct found as [r |]; [| naive_solver]. split.
  - case_bool_decide; [| done]. case_bool_decide; [| done]. simpl. destruct (Z.eqb_spec (UsedAt r) 0); [| done]. simpl.
    destruct (Z.ltb_spec (ExpiresAt r) now); [done |]. intros [= <-]. done.
  - intros ([= ->] & -> & -> & -> & Ht). rewrite !bool_decide_eq_true_2 by done. simpl.
    by destruct (Z.ltb_spec (ExpiresAt rec) now); [lia |].
Qed.

(** A token [Issue] has sent out is accepted for its own purpose, and for its
    own subject, until it expires; it is not found under another purpose. *)
Theorem Issue_then_Verify now sel_draw secret_draw purpose subject st plain st' later other :
  sel_draw <> Some [] -> secret_draw <> Some [] -> now <= later ->
  Issue now sel_draw secret_draw purpose subject st = (Ok plain, st') ->
  (forall id e, Get id st' <> Err e) ->
  Verify later purpose plain st' = (if now + ttl <? later then Err ErrTokenExpired else Ok subject) /\
  (other <> purpose -> Verify later other plain st' = Err ErrTokenNotFound).
Proof.
  intros Hsd Hkd Hlater Hissue Hget. unfold Issue, randToken in Hissue.
  destruct sel_draw as [ib |]; [| done]. destruct secret_draw as [sb |]; [| done]. cbn [option_map] in Hissue.
  assert (Hib : base64url ib <> EmptyString) by (apply base64url_nonempty; congruence).
  assert (Hsb : base64url sb <> EmptyString) by (apply base64url_nonempty; congruence).
  pose proof (base64url_bytes "." ib not_url_dot) as Hdot. revert Hissue Hib Hsb Hdot.
  generalize (base64url ib) (base64url sb). intros sel secret Hissue Hib Hsb Hdot.
  set (r := mkRecord _ _ _ _ _ _ _) in Hissue. pose proof (save_stores r st) as Hst.
  destruct (Save r st) as [[e |] st1]; [done |]. injection Hissue as <- <-. specialize (Hst eq_refl). simpl in Hst.
  assert (Hlk : forall p, lookup_ later p (sel +:+ String "." secret)%string st1 = lookup_check later p secret (Some r)).
  { intros p. unfold lookup_. rewrite splitToken_join by done. destruct (Get sel st1) as [found | e] eqn:Hg; [| by destruct (Hget _ _ Hg)].
    apply get_returns in Hg as ->. by rewrite Hst. }
  unfold Verify. split.
  - rewrite Hlk. unfold lookup_check. simpl. rewrite !bool_decide_eq_true_2 by done. simpl. unfold Expired, After. simpl.
    change (time_Add now ttl) with (now + ttl). by destruct (now + ttl <? later).
  - intros Hne. rewrite Hlk. unfold lookup_check. simpl. by rewrite bool_decide_eq_false_2 by done.
Qed.

(** ** Sequences of calls *)

Inductive op :=
| OIssue (now : Time) (sel_draw secret_draw : option (list Z)) (purpose : Purpose) (subject : string)
| OVerify (now : Time) (purpose : Purpose) (plain : string)
| OConsume (now used : Time) (purpose : Purpose) (plain : string).

Definition op_run (o : op) (st : St) : St :=
  match o with
  | OIssue now d1 d2 p s => (Issue now d1 d2 p s st).2
  | OVerify now p plain => st
  | OConsume now used p plain => (Consume now used p plain st).2
  end.

Fixpoint op_runs (os : list op) (st : St) : St := match os with [] => st | o :: os => op_runs os (op_run o st) end.

Definition op_ok (sel : string) (o : op) : Prop :=
  match o with
  | OIssue _ d _ _ _ => randToken d <> Some sel
  | OConsume _ used _ _ => used <> zero_time
  | _ => True
  end.

Definition used_up (st : St) (sel : string) : Prop := marked (fun rec => UsedAt rec <> zero_time) st sel.

Lemma purpose_op_keeps o st sel : op_ok sel o -> keyed (key_of := Selector) st -> 
  keyed (key_of := Selector) (op_run o st) /\ (used_up st sel -> used_up (op_run o st) sel).
Proof.
  intros Ho Hk. destruct o as [now d1 d2 p s | now p plain | now used p plain]; simpl in *; [| done |].
  - unfold Issue. destruct (randToken d1) as [i |]; [| done]. destruct (randToken d2) as [x |]; [| done].
    set (r := mkRecord _ _ _ _ _ _ _). pose proof (save_keyed r st Hk). pose proof (save_marked (fun rec => UsedAt rec <> zero_time) r st sel).
    assert (Selector r <> sel) by (simpl; congruence). unfold used_up in *. destruct (Save r st) as [[e |] st']; simpl in *; auto.
  - unfold Consume. destruct (lookup_ now p plain st) as [rec | e]; [| done].
    pose proof (save_keyed (set_used used rec) st Hk).
    pose proof (save_marked (fun rec => UsedAt rec <> zero_time) (set_used used rec) st sel).
    unfold used_up in *. destruct (Save (set_used used rec) st) as [[e |] st']; simpl in *; auto.
Qed.

(** When calls do not overlap, a token is consumed at most once: after a
    successful [Consume], whatever is issued under other selectors, verified or
    consumed afterwards, neither [Consume] nor [Verify] accepts a text with its
    selector, for any purpose. *)
Theorem consumed_once now used purpose sel secret st subject st' os later used' purpose' secret' :
  keyed (key_of := Selector) st -> Forall (op_ok sel) os -> used <> zero_time ->
  has_byte "." sel = false -> sel <> EmptyString -> secret <> EmptyString -> secret' <> EmptyString ->
  Consume now used purpose (sel +:+ String "." secret)%string st = (Ok subject, st') ->
  forall s, (Consume later used' purpose' (sel +:+ String "." secret')%string (op_runs os st')).1 <> Ok s /\
            Verify later purpose' (sel +:+ String "." secret')%string (op_runs os st') <> Ok s.
Proof.
  intros Hk Hos Hused Hdot Hne Hs Hs' Hc.
  assert (H0 : keyed (key_of := Selector) st' /\ used_up st' sel).
  { unfold Consume, lookup_ in Hc. rewrite splitToken_join in Hc by done.
    destruct (Get sel st) as [found | e0] eqn:Hg; [| done]. apply get_returns in Hg.
    destruct (lookup_check now purpose secret found) as [rec | e0] eqn:Hlc; [| done].
    apply lookup_check_ok in Hlc as (-> & _). symmetry in Hg. pose proof (Hk _ _ Hg) as Hid.
    pose proof (save_keyed (set_used used rec) st Hk) as Hk'. pose proof (save_stores (set_used used rec) st) as Hst.
    destruct (Save (set_used used rec) st) as [[e0 |] st1]; [done |]. injection Hc as _ <-. split; [done |].
    exists (set_used used rec). simpl in *. rewrite <- Hid. by rewrite Hst. }
  clear Hc. destruct H0 as [Hk' Hu]. revert st' Hk' Hu. induction os as [| o os IH]; intros st' Hk' Hu s; simpl.
  - assert (Hno : forall rec, lookup_ later purpose' (sel +:+ String "." secret')%string st' <> Ok rec).
    { intros rec. unfold lookup_. rewrite splitToken_join by done. destruct (Get sel st') as [found | e0] eqn:Hg; [| done].
      apply get_returns in Hg. intros (-> & _ & _ & Hz & _)%lookup_check_ok. destruct Hu as (rec' & Hv & Hm). congruence. }
    unfold Consume, Verify. destruct (lookup_ later purpose' _ st') as [rec | e0]; [by destruct (Hno rec) | done].
  - apply list.Forall_cons in Hos as [Ho Hos]. destruct (purpose_op_keeps o st' sel Ho Hk') as [Hk1 Hu1]. apply IH; auto.
Qed.
End Store.

(** ** Overlapping calls *)

Inductive call :=
| CConsume (purpose : Purpose) (plain : string)
| CSave (rec : Record_)
| CDone (out : result (token_error Empty_set) string).

Definition store : Type := gmap string Record_.

Definition call_step (hash : string -> string) (now : Time) (c : call) (s : store) : option (call * store) :=
  match c with
  | CConsume purpose plain =>
      match splitToken "." plain with
      | None => Some (CDone (Err ErrTokenNotFound), s)
      | Some (sel, secret) =>
          match lookup_check hash now purpose secret (mem_Get sel s) with
          | Err e => Some (CDone (Err e), s)
          | Ok rec => Some (CSave (set_used now rec), s)
          end
      end
  | CSave rec => Some (CDone (Ok (Subject rec)), mem_Save Selector rec s)
  | CDone _ => None
  end.

Inductive cstep (hash : string -> string) : list call * store -> list call * store -> Prop :=
| cstep_run cs i c now s c' s' : cs !! i = Some c -> call_step hash now c s = Some (c', s') -> cstep hash (cs, s) (<[i := c']> cs, s').

Lemma cstep_at hash i now cs s cs' s' :
  (c ← cs !! i; '(c', s') ← call_step hash now c s; Some (<[i := c']> cs, s')) = Some (cs', s') -> cstep hash (cs, s) (cs', s').
Proof.
  destruct (cs !! i) as [c |] eqn:Hi; simpl; [| done]. destruct (call_step hash now c s) as [[c' s1] |] eqn:Hc; simpl; [| done].
  intros [= <- <-]. by econstructor.
Qed.

Definition reset_ann : Record_ := mkRecord "sel" PurposeReset "ann" "s" 5 1000 0.

(** [Consume] says that it marks a token used atomically: two that overlap both
    succeed. *)
Theorem consumed_twice :
  exists s, rtc (cstep (fun x => x)) ([CConsume PurposeReset "sel.s"; CConsume PurposeReset "sel.s"], {["sel" := reset_ann]})
              ([CDone (Ok "ann"%string); CDone (Ok "ann"%string)], s).
Proof.
  exists {["sel" := set_used 11 reset_ann]}.
  eapply rtc_l; [apply (cstep_at _ 0 10); vm_compute; reflexivity |].
  eapply rtc_l; [apply (cstep_at _ 1 11); vm_compute; reflexivity |].
  eapply rtc_l; [apply (cstep_at _ 0 12); vm_compute; reflexivity |].
  eapply rtc_l; [apply (cstep_at _ 1 13); vm_compute; reflexivity |].
  vm_compute. apply rtc_refl.
Qed.

(** ** Witnesses *)

#[local] Instance account_memory : SecretStore Record_ Empty_set store := mem_SecretStore Selector.
#[local] Instance account_memory_laws : SecretStoreLaws Record_ Empty_set store Selector := mem_SecretStoreLaws Selector.

Lemma Issue_then_Verify_witness :
  match Issue (fun x => x) 100 5 (Some [1; 2]) (Some [3]) PurposeReset "ann" (∅ : store) with
  | (Ok plain, st) => Verify (fun x => x) 50 PurposeReset plain st = Ok "ann"%string
  | _ => False
  end.
Proof.
  destruct (Issue (fun x => x) 100 5 (Some [1; 2]) (Some [3]) PurposeReset "ann" (∅ : store)) as [[plain | e] st] eqn:Hi;
    [| vm_compute in Hi; done].
  apply (Issue_then_Verify (E := Empty_set) (fun x => x) 100 5 (Some [1; 2]) (Some [3]) PurposeReset "ann" ∅ plain st 50 PurposeVerify);
    [done | done | lia | exact Hi | by intros id []].
Defined.

Lemma consumed_once_witness :
  (Consume (fun x => x) 50 51 PurposeReset "sel.s"
    (op_runs (fun x => x) 100 [] (Consume (fun x => x) 10 11 PurposeReset "sel.s" ({["sel" := reset_ann]} : store)).2)).1 <> Ok "ann"%string.
Proof.
  apply (consumed_once (E := Empty_set) (fun x => x) 100 10 11 PurposeReset "sel" "s" ({["sel" := reset_ann]} : store) "ann"
    (Consume (fun x => x) 10 11 PurposeReset "sel.s" ({["sel" := reset_ann]} : store)).2 [] 50 51 PurposeReset "s");
    try done.
  intros id rec. simpl. intros [<- <-]%lookup_singleton_Some. done.
Defined.
