(* ===== verification/SignedUrl.v ===== *)
(** Signed URLs of [src/auth/account/account.go]: [Signer].  A URL is its path and
    its raw query, as [url.Parse] returns them; the base64url HMAC-SHA256 under
    the key is the parameter [mac_of]. *)

From Stdlib Require Import ZArith Lia Ascii.
From stdpp Require Import base gmap strings list relations numbers.
From S2P Require Import Prelude GoRt GoStrconv GoUrl.

#[local] Set Warnings "-register-all".

Inductive verify_error := ErrInvalidSignature | ErrSignatureExpired.

Section Key.
(** The base64url HMAC-SHA256 of a text under the key. *)
Context (mac_of : string -> string).

Definition mac (path query : string) : string := mac_of (path +:+ String "?" query)%string.

(** What is signed: the parameters with the expiry, without a signature. *)
Definition signed_values (now : Time) (ttl : Duration) (raw : string) : Values :=
  let q := values_Del (ParseQuery raw) "signature" in
  let expUnix := if 0 <? ttl then Unix (time_Add now ttl) else 0 in
  values_Set q "expires" (FormatInt expUnix).

(** [Sign]: the raw query of the signed URL. *)
Definition Sign (now : Time) (ttl : Duration) (path raw : string) : string :=
  let q := signed_values now ttl raw in
  let sig := mac path (Encode q) in
  Encode (values_Set q "signature" sig).

Definition Verify (now : Time) (path raw : string) : option verify_error :=
  let q := ParseQuery raw in
  let got := values_Get q "signature" in
  if bool_decide (got = EmptyString) then Some ErrInvalidSignature
  else
    let q := values_Del q "signature" in
    let want := mac path (Encode q) in
    if negb (bool_decide (got = want)) then Some ErrInvalidSignature
    else
      match ParseInt (values_Get q "expires") with
      | None => Some ErrInvalidSignature
      | Some expUnix => if negb (expUnix =? 0) && (expUnix <? Unix now) then Some ErrSignatureExpired else None
      end.

Lemma del_ok q k : values_ok q -> values_ok (values_Del q k).
Proof. intros Hq k'. unfold values_Del. rewrite lookup_delete_Some. intros [_ Hk]. by apply (Hq k'). Qed.

Lemma set_ok q k v : values_ok q -> values_ok (values_Set q k v).
Proof. intros Hq k'. unfold values_Set. rewrite lookup_insert_Some. intros [[_ ?] | [_ Hk]]; [done | by apply (Hq k')]. Qed.

Lemma signed_ok now ttl raw : values_ok (signed_values now ttl raw).
Proof. apply set_ok, del_ok, ParseQuery_ok. Qed.

Lemma signed_no_signature now ttl raw : signed_values now ttl raw !! "signature" = None.
Proof. unfold signed_values, values_Set, values_Del. rewrite lookup_insert_ne by done. apply lookup_delete_eq. Qed.

(** A signed URL verifies until the second of its expiry has passed, and for
    ever when it was signed without one. *)
Theorem Sign_then_Verify now ttl path raw later :
  (forall text, mac_of text <> EmptyString) ->
  min_i64 <= Unix (now + ttl) <= max_i64 -> Unix (now + ttl) <> 0 ->
  Verify later path (Sign now ttl path raw) =
  if (0 <? ttl) && (Unix (now + ttl) <? Unix later) then Some ErrSignatureExpired else None.
Proof.
  intros Hmac Hrange Hz. unfold Verify, Sign.
  pose proof (signed_ok now ttl raw) as Hq. pose proof (signed_no_signature now ttl raw) as Hns.
  assert (Hexp : values_Get (signed_values now ttl raw) "expires" = FormatInt (if 0 <? ttl then Unix (time_Add now ttl) else 0)).
  { unfold signed_values, values_Set, values_Get. by rewrite lookup_insert, decide_True. }
  revert Hq Hns Hexp. generalize (signed_values now ttl raw). intros q Hq Hns Hexp.
  rewrite ParseQuery_Encode by (by apply set_ok).
  assert (Hget : values_Get (values_Set q "signature" (mac path (Encode q))) "signature" = mac path (Encode q))
    by (unfold values_Get, values_Set; by rewrite lookup_insert, decide_True).
  assert (Hdel : values_Del (values_Set q "signature" (mac path (Encode q))) "signature" = q)
    by (unfold values_Del, values_Set; by rewrite delete_insert_id).
  rewrite Hget, Hdel. unfold mac. rewrite (bool_decide_eq_false_2 _ (Hmac _)), bool_decide_eq_true_2 by done. cbn [negb]. rewrite Hexp.
  change (time_Add now ttl) with (now + ttl). destruct (0 <? ttl); cbn [andb].
  - rewrite ParseInt_FormatInt by done. by destruct (Z.eqb_spec (Unix (now + ttl)) 0).
  - by rewrite ParseInt_FormatInt by (unfold min_i64, max_i64; lia).
Qed.

(** The text that is signed determines the path and the parameters. *)
Lemma payload_inj p1 q1 p2 q2 :
  values_ok q1 -> values_ok q2 ->
  (p1 +:+ String "?" (Encode q1))%string = (p2 +:+ String "?" (Encode q2))%string -> p1 = p2 /\ q1 = q2.
Proof.
  intros H1 H2 He.
  assert (Hq : forall q, has_byte "?" (Encode q) = false) by (intros; by apply Encode_bytes).
  assert (Hsplit : forall p1 s1 p2 s2, has_byte "?" s1 = false -> has_byte "?" s2 = false ->
    (p1 +:+ String "?" s1)%string = (p2 +:+ String "?" s2)%string -> p1 = p2 /\ s1 = s2).
  { clear. induction p1 as [| c p1 IH]; intros s1 [| c' p2] s2 Hs1 Hs2 He.
    - by injection He as ->.
    - injection He as <- Ht. rewrite Ht, has_byte_app in Hs1. cbn [has_byte] in Hs1. by rewrite orb_true_r in Hs1.
    - injection He as -> Ht. rewrite <- Ht, has_byte_app in Hs2. cbn [has_byte] in Hs2. by rewrite orb_true_r in Hs2.
    - injection He as <- Ht. by destruct (IH s1 p2 s2 Hs1 Hs2 Ht) as [-> ->]. }
  destruct (Hsplit _ _ _ _ (Hq q1) (Hq q2) He) as [-> Henc]. split; [done |].
  by rewrite <- (ParseQuery_Encode q1 H1), <- (ParseQuery_Encode q2 H2), Henc.
Qed.

End Key.

(** ** Witnesses *)

Lemma Sign_then_Verify_witness :
  Verify (String "m") (62135596800 * Second + 5 * Second) "/reset"
    (Sign (String "m") (62135596800 * Second + 1 * Second) (60 * Second) "/reset" "user=7") = None.
Proof.
  refine (Sign_then_Verify (String "m") (62135596800 * Second + 1 * Second) (60 * Second) "/reset" "user=7"
    (62135596800 * Second + 5 * Second) _ _ _); [done | vm_compute; done | vm_compute; done].
Defined.

