(* ===== verification/Throttle.v ===== *)
(** The login throttle of [src/auth/account/account.go]: each operation holds the
    mutex, so it is a function of the state and of the clock. *)

From Stdlib Require Import ZArith Lia Ascii.
From stdpp Require Import base gmap strings list relations numbers.
From S2P Require Import Prelude GoRt GoStrconv.

#[local] Set Warnings "-register-all".

Record window := mkWindow { count : Z; resetAt : Time; lockedFor : Time }.

Record Throttle_ := mkThrottle { attempts : gmap string window; maxAttempts : Z; windowDur : Duration }.

Definition NewThrottle (max : Z) (dur : Duration) : Throttle_ :=
  mkThrottle ∅ (if max <=? 0 then 5 else max) (if dur <=? 0 then 60 * Second else dur).

Definition with_attempts (a : gmap string window) (t : Throttle_) : Throttle_ := mkThrottle a (maxAttempts t) (windowDur t).

(** Whether [ErrThrottled] is returned; the wait in its text is left out. *)
Definition Check_ (now : Time) (key : string) (t : Throttle_) : bool * Throttle_ :=
  match attempts t !! key with
  | None => (false, t)
  | Some w =>
      if After now (resetAt w) then (false, with_attempts (delete key (attempts t)) t)
      else (maxAttempts t <=? count w, t)
  end.

Definition Hit (now : Time) (key : string) (t : Throttle_) : bool * Throttle_ :=
  let w := match attempts t !! key with
           | Some w => if After now (resetAt w) then mkWindow 0 (time_Add now (windowDur t)) zero_time else w
           | None => mkWindow 0 (time_Add now (windowDur t)) zero_time
           end in
  let n := i64 (count w + 1) in
  if maxAttempts t <=? n then (true, with_attempts (<[key := mkWindow n (resetAt w) (resetAt w)]> (attempts t)) t)
  else (false, with_attempts (<[key := mkWindow n (resetAt w) (lockedFor w)]> (attempts t)) t).

Definition Clear_ (key : string) (t : Throttle_) : Throttle_ := with_attempts (delete key (attempts t)) t.

Definition Attempts (now : Time) (key : string) (t : Throttle_) : Z :=
  match attempts t !! key with
  | None => 0
  | Some w => if After now (resetAt w) then 0 else count w
  end.

(** The failures of a key, one after the other: what each [Hit] returned. *)
Fixpoint hits (key : string) (times : list Time) (t : Throttle_) : list bool * Throttle_ :=
  match times with
  | [] => ([], t)
  | now :: times => let '(r, t) := Hit now key t in let '(rs, t) := hits key times t in (r :: rs, t)
  end.

(** Other keys are not touched. *)
Lemma Hit_other now key key' t : key' <> key -> attempts (Hit now key t).2 !! key' = attempts t !! key'.
Proof. intros Hne. unfold Hit. destruct (maxAttempts t <=? _); simpl; by rewrite lookup_insert_ne. Qed.

Definition counted (t : Throttle_) (key : string) (n : Z) (until : Time) : Prop :=
  exists w, attempts t !! key = Some w /\ count w = n /\ resetAt w = until.

Lemma counted_insert a key w t : counted (with_attempts (<[key := w]> a) t) key (count w) (resetAt w).
Proof. exists w. simpl. by rewrite lookup_insert, decide_True. Qed.

Lemma Hit_in_window now key t n until :
  counted t key n until -> now <= until -> 0 <= n < max_i64 ->
  (Hit now key t).1 = (maxAttempts t <=? n + 1) /\ counted (Hit now key t).2 key (n + 1) until /\
  maxAttempts (Hit now key t).2 = maxAttempts t.
Proof.
  intros (w & Hw & <- & <-) Hnow Hn. unfold Hit, After. rewrite Hw. destruct (Z.ltb_spec (resetAt w) now); [lia |].
  rewrite i64_small by (unfold min_i64, max_i64 in *; lia).
  destruct (maxAttempts t <=? count w + 1); simpl; split_and!; try done; apply (counted_insert _ _ (mkWindow _ _ _)).
Qed.

Lemma hits_in_window key times t n until :
  counted t key n until -> Forall (fun now => now <= until) times -> 0 <= n -> n + Z.of_nat (length times) <= max_i64 ->
  (hits key times t).1 = map (fun i => maxAttempts t <=? n + Z.of_nat i) (seq 1 (length times)) /\
  counted (hits key times t).2 key (n + Z.of_nat (length times)) until /\ maxAttempts (hits key times t).2 = maxAttempts t.
Proof.
  intros Hc Htimes. revert t n Hc. induction Htimes as [| now times Hnow _ IH]; intros t n Hc Hn Hmax; cbn [hits length seq].
  - split_and!; [done | by rewrite Z.add_0_r | done].
  - destruct (Hit_in_window now key t n until Hc Hnow) as (Hr & Hc1 & Hm); [simpl in Hmax; lia |].
    destruct (Hit now key t) as [r t1]. simpl in Hr, Hc1, Hm.
    destruct (IH t1 (n + 1) Hc1) as (Hrs & Hc2 & Hm2); [lia | simpl in Hmax; lia |].
    destruct (hits key times t1) as [rs t2]. simpl in *. split_and!.
    + rewrite Hr, Hrs, Hm, <- (seq_shift (length times) 1), map_map. f_equal. apply map_ext. intros i. f_equal. lia.
    + replace (n + Z.of_nat (S (length times))) with (n + 1 + Z.of_nat (length times)) by lia. done.
    + by rewrite Hm2.
Qed.

(** From the first failure of a key on, and until its window has passed, the
    [i]-th failure is refused exactly when [i] has reached the maximum; from then
    on, [Check] refuses the key until the window has passed and not after, and
    [Attempts] is the number of failures. *)
Theorem lockout key t t0 times later :
  attempts t !! key = None -> Forall (fun now => now <= t0 + windowDur t) times -> 0 <= windowDur t ->
  1 + Z.of_nat (length times) <= max_i64 ->
  let '(rs, t') := hits key (t0 :: times) t in
  rs = map (fun i => maxAttempts t <=? Z.of_nat i) (seq 1 (S (length times))) /\
  (Check_ later key t').1 = (later <=? t0 + windowDur t) && (maxAttempts t <=? Z.of_nat (S (length times))) /\
  Attempts later key t' = (if later <=? t0 + windowDur t then Z.of_nat (S (length times)) else 0).
Proof.
  intros Hnone Htimes Hw Hmax. cbn [hits].
  assert (H1 : (Hit t0 key t).1 = (maxAttempts t <=? 1) /\ counted (Hit t0 key t).2 key 1 (t0 + windowDur t) /\ maxAttempts (Hit t0 key t).2 = maxAttempts t).
  { unfold Hit. rewrite Hnone. cbn [count resetAt lockedFor]. change (i64 (0 + 1)) with 1.
    destruct (maxAttempts t <=? 1); simpl; split_and!; try done; apply (counted_insert _ _ (mkWindow _ _ _)). }
  destruct H1 as (Hr & Hc & Hm). destruct (Hit t0 key t) as [r t1]. simpl in Hr, Hc, Hm.
  destruct (hits_in_window key times t1 1 _ Hc Htimes) as (Hrs & Hc2 & Hm2); [lia | lia |].
  destruct (hits key times t1) as [rs t2]. simpl in Hrs, Hc2, Hm2. destruct Hc2 as (w & Hwin & Hcount & Hreset).
  unfold Check_, Attempts, After. rewrite Hwin, Hcount, Hreset, Hm2, Hm.
  replace (1 + Z.of_nat (length times)) with (Z.of_nat (S (length times))) by lia. split_and!.
  - rewrite Hr, Hrs, Hm. cbn [seq map]. f_equal. rewrite <- (seq_shift (length times) 1), map_map. apply map_ext. intros i. f_equal. lia.
  - destruct (Z.ltb_spec (t0 + windowDur t) later), (Z.leb_spec later (t0 + windowDur t)); try lia; done.
  - destruct (Z.ltb_spec (t0 + windowDur t) later), (Z.leb_spec later (t0 + windowDur t)); try lia; done.
Qed.

(** ** Witnesses *)

Lemma lockout_witness :
  let t := NewThrottle 2 60 in
  let '(rs, t') := hits "ann" [10; 20; 30] t in
  rs = map (fun i => 2 <=? Z.of_nat i) (seq 1 3) /\
  (Check_ 40 "ann" t').1 = (40 <=? 10 + 60) && (2 <=? 3) /\ Attempts 40 "ann" t' = 3.
Proof.
  apply (lockout "ann" (NewThrottle 2 60) 10 [20; 30] 40);
    [done | repeat constructor; simpl; lia | simpl; lia | unfold max_i64; simpl; lia].
Defined.
