(* ===== verification/Guard.v ===== *)
(** The session guard: [src/auth/guard/guard.go], on the sessions of [Session].

    A [req] is what the guard sees of a request: its session if the session
    middleware ran, the box of [WithCachedUser] if it was put there, the world of
    the sessions, and how often [FindByID] was called.  Users, the provider and
    the hasher are parameters; a user id is kept in the session as the value
    [of_string]. *)

From Stdlib Require Import ZArith Lia.
From stdpp Require Import base gmap strings list numbers.
From S2P Require Import Prelude GoRt Session.

#[local] Set Warnings "-register-all".
#[local] Open Scope lago_scope.

Definition sessionKey : string := "_guard_user_id".

Inductive guard_error (E : Type) := ErrUnauthenticated | ErrInvalidCredentials | ErrNoSession | ErrProvider (e : E) | ErrSession (e : E).
Arguments ErrUnauthenticated {E}.
Arguments ErrInvalidCredentials {E}.
Arguments ErrNoSession {E}.
Arguments ErrProvider {E} e.
Arguments ErrSession {E} e.

(** [Unloaded] is a box that holds nothing yet; a loaded one may hold no user. *)
Inductive userCache (U : Type) := Unloaded | Loaded (user : option U).
Arguments Unloaded {U}.
Arguments Loaded {U} user.

Record req (U V St : Type) := mkReq {
  g_session : option (Session V); g_cache : option (userCache U); g_world : world St; g_lookups : nat }.
Arguments mkReq {U V St}.
Arguments g_session {U V St} _.
Arguments g_cache {U V St} _.
Arguments g_world {U V St} _.
Arguments g_lookups {U V St} _.

(** The options of a guard that decide where a refused request goes. *)
Record Options_ := mkGuardOptions { LoginPath : string; HomePath : string }.

Inductive answer := Redirect (path : string) | Status (code : Z) | Next.

Section Guard.
Context {U V E St : Type} `{L : StoreLaws V E St}.
Context (AuthID AuthPasswordHash : U -> string).
Context (FindByID FindByCredentials : string -> result E (option U)).
Context (Verify : string -> string -> bool).
Context (of_string : string -> V) (as_string : V -> option string).
Context (rand : nat -> result E (list Z)).

Notation greq := (req U V St).

Definition with_session (s : Session V) (q : greq) : greq := mkReq (Some s) (g_cache q) (g_world q) (g_lookups q).

(** ** The cache *)

Definition withCachedUser (q : greq) : greq :=
  match g_cache q with Some _ => q | None => mkReq (g_session q) (Some Unloaded) (g_world q) (g_lookups q) end.

Definition cachedUser (q : greq) : option (option U) :=
  match g_cache q with Some (Loaded u) => Some u | _ => None end.

Definition setCachedUser (u : option U) (q : greq) : greq :=
  match g_cache q with Some _ => mkReq (g_session q) (Some (Loaded u)) (g_world q) (g_lookups q) | None => q end.

Definition clearCachedUser (q : greq) : greq :=
  match g_cache q with Some _ => mkReq (g_session q) (Some Unloaded) (g_world q) (g_lookups q) | None => q end.

Lemma clear_spec q :
  cachedUser (clearCachedUser q) = None /\ g_session (clearCachedUser q) = g_session q /\
  g_world (clearCachedUser q) = g_world q /\ g_lookups (clearCachedUser q) = g_lookups q.
Proof. unfold clearCachedUser, cachedUser. destruct (g_cache q) eqn:Hc; simpl; by rewrite ?Hc. Qed.

(** ** Identity *)

Definition ID (q : greq) : string :=
  match g_session q with Some s => GetString as_string sessionKey s | None => EmptyString end.

Definition Check_ (q : greq) : bool := negb (bool_decide (ID q = EmptyString)).

Definition User_ (q : greq) : result (guard_error E) U * greq :=
  match cachedUser q with
  | Some (Some u) => (Ok u, q)
  | Some None => (Err ErrUnauthenticated, q)
  | None =>
      if bool_decide (ID q = EmptyString) then (Err ErrUnauthenticated, q)
      else
        let q := mkReq (g_session q) (g_cache q) (g_world q) (S (g_lookups q)) in
        match FindByID (ID q) with
        | Err e => (Err (ErrProvider e), q)
        | Ok None => (Err ErrUnauthenticated, setCachedUser None q)
        | Ok (Some u) => (Ok u, setCachedUser (Some u) q)
        end
  end.

(** ** Login and logout *)

Definition Login (now : Time) (user : U) (q : greq) : option (guard_error E) * greq :=
  match g_session q with
  | None => (Some ErrNoSession, q)
  | Some s =>
      let '(err, s, w) := Regenerate rand now s (g_world q) in
      let q := mkReq (Some s) (g_cache q) w (g_lookups q) in
      match err with
      | Some e => (Some (ErrSession e), q)
      | None => (None, clearCachedUser (with_session (Put sessionKey (of_string (AuthID user)) s) q))
      end
  end.

Definition Attempt (now : Time) (identifier password : string) (q : greq) : result (guard_error E) U * greq :=
  match FindByCredentials identifier with
  | Err e => (Err (ErrProvider e), q)
  | Ok None => (Err ErrInvalidCredentials, q)
  | Ok (Some u) =>
      if bool_decide (AuthPasswordHash u = EmptyString) || negb (Verify (AuthPasswordHash u) password)
      then (Err ErrInvalidCredentials, q)
      else match Login now u q with (Some e, q) => (Err e, q) | (None, q) => (Ok u, q) end
  end.

Definition Logout (now : Time) (q : greq) : option (guard_error E) * greq :=
  match g_session q with
  | None => (Some ErrNoSession, q)
  | Some s =>
      let s := Flush (Forget sessionKey s) in
      let '(err, s, w) := Regenerate rand now s (g_world q) in
      let q := mkReq (Some s) (g_cache q) w (g_lookups q) in
      match err with
      | Some e => (Some (ErrSession e), q)
      | None => (None, clearCachedUser q)
      end
  end.

(** ** Middleware *)

Definition refused (o : Options_) : answer := if bool_decide (LoginPath o = EmptyString) then Status 401 else Redirect (LoginPath o).

Definition Middleware (o : Options_) (q : greq) : answer * greq :=
  let q := withCachedUser q in
  let '(r, q) := User_ q in
  match r with
  | Ok _ => (Next, q)
  | Err _ => (refused o, q)
  end.

Definition Guest (o : Options_) (q : greq) : answer * greq :=
  let q := withCachedUser q in
  if Check_ q then (if bool_decide (HomePath o = EmptyString) then Status 403 else Redirect (HomePath o), q)
  else (Next, q).

(** ** Who gets through *)

Hypothesis as_of_string : forall s, as_string (of_string s) = Some s.

Lemma ID_put s q : ID (with_session (Put sessionKey (of_string s) (default (mkSession EmptyString ∅ false false false) (g_session q))) q) = s.
Proof. unfold ID, GetString. simpl. by rewrite lookup_insert, decide_True, as_of_string by done. Qed.

(** The guard lets a request through exactly when its session holds an id that
    the provider resolves, or the user was resolved before on the same request;
    everyone else is sent to the login page, or gets a 401, and the handler does
    not run. *)
Theorem Middleware_exact o q :
  (Middleware o q).1 = Next <->
  match g_cache q with
  | Some (Loaded u) => is_Some u
  | _ => ID q <> EmptyString /\ exists u, FindByID (ID q) = Ok (Some u)
  end.
Proof.
  assert (Hno : refused o <> Next) by (unfold refused; by case_bool_decide).
  assert (Hrun : forall q, cachedUser q = None -> (let '(r, q) := User_ q in
      match r with Ok _ => (Next, q) | Err _ => (refused o, q) end).1 = Next <->
      ID q <> EmptyString /\ exists u, FindByID (ID q) = Ok (Some u)).
  { clear q. intros q Hc. unfold User_. rewrite Hc. case_bool_decide as Hid; cbn [fst].
    - split; [intros Hx; by destruct (Hno Hx) | by intros [? _]].
    - unfold ID. cbn [g_session]. fold (ID q).
      destruct (FindByID (ID q)) as [[u |] | e]; cbn [fst]; (split; [intros Hx; try (by destruct (Hno Hx)) | intros [_ [u' Hu]]]); by eauto. }
  unfold Middleware. destruct (g_cache q) as [[| [u |]] |] eqn:Hc.
  - assert (Hw : withCachedUser q = q) by (unfold withCachedUser; by rewrite Hc). rewrite Hw. apply Hrun. unfold cachedUser. by rewrite Hc.
  - unfold withCachedUser. rewrite Hc. unfold User_, cachedUser. rewrite Hc. simpl. split; [by eexists | done].
  - unfold withCachedUser. rewrite Hc. unfold User_, cachedUser. rewrite Hc. simpl. split; [done | intros [? ?]; done].
  - assert (Hw : ID (withCachedUser q) = ID q) by (unfold withCachedUser, ID; by rewrite Hc).
    rewrite <- Hw. apply Hrun. unfold withCachedUser, cachedUser. by rewrite Hc.
Qed.

(** [Attempt] logs in exactly the user found for the identifier, when it has a
    password hash that the password verifies against and a session to record the
    login in; an unknown identifier and a wrong password give the same error, and
    neither changes the request. *)
Theorem Attempt_exact now identifier password q :
  match FindByCredentials identifier with
  | Err e => Attempt now identifier password q = (Err (ErrProvider e), q)
  | Ok found =>
      let good := match found with
                  | Some u => negb (bool_decide (AuthPasswordHash u = EmptyString)) && Verify (AuthPasswordHash u) password
                  | None => false
                  end in
      if good then
        exists u, found = Some u /\
          match (Login now u q).1 with
          | None => Attempt now identifier password q = (Ok u, (Login now u q).2)
          | Some e => Attempt now identifier password q = (Err e, (Login now u q).2)
          end
      else Attempt now identifier password q = (Err ErrInvalidCredentials, q)
  end.
Proof.
  unfold Attempt. destruct (FindByCredentials identifier) as [[u |] | e]; [| done | done]. cbv zeta.
  destruct (bool_decide (AuthPasswordHash u = EmptyString)); simpl; [done |].
  destruct (Verify (AuthPasswordHash u) password); simpl; [| done]. exists u. split; [done |].
  by destruct (Login now u q) as [[e |] q'].
Qed.

(** ** Login *)

Lemma Login_spec now user q q' :
  Login now user q = (None, q') ->
  exists s bytes, g_session q = Some s /\ rand (drawn (g_world q)) = Ok bytes /\
    g_session q' = Some (mkSession (EncodeToString bytes) (<[sessionKey := of_string (AuthID user)]> (sdata s)) (isNew s) true (destroyed s)) /\
    st (g_world q') = (Destroy_ now (sid s) (st (g_world q))).2 /\ drawn (g_world q') = S (drawn (g_world q)) /\
    cachedUser q' = None /\ g_lookups q' = g_lookups q.
Proof.
  unfold Login, Regenerate, generateID. destruct (g_session q) as [s |]; [| done].
  destruct (rand (drawn (g_world q))) as [bytes | e]; [| done]. simpl.
  destruct (Destroy_ now (sid s) (st (g_world q))) as [err store] eqn:Hde. intros [= <-].
  exists s, bytes. unfold clearCachedUser, cachedUser. simpl. destruct (g_cache q); simpl; split_and!; try done; by rewrite Hde.
Qed.


(** After a logout nobody is logged in on the request: no id, no user, no data
    in the session, and its record is gone from the store. *)
Theorem Logout_clears now q q' :
  Logout now q = (None, q') ->
  ID q' = EmptyString /\ (User_ q').1 = Err ErrUnauthenticated /\
  exists s s', g_session q = Some s /\ g_session q' = Some s' /\ sdata s' = ∅ /\
    ((Destroy_ now (sid s) (st (g_world q))).1 = None -> view now (st (g_world q')) (sid s) = None).
Proof.
  unfold Logout, Regenerate, generateID. destruct (g_session q) as [s |]; [| done].
  destruct (rand (drawn (g_world q))) as [bytes | e]; [| done]. simpl.
  assert (Hsid : sid (Flush (Forget sessionKey s)) = sid s) by (unfold Flush, Forget; destruct (sdata s !! sessionKey); by case_match).
  assert (Hdata : sdata (Flush (Forget sessionKey s)) = ∅).
  { unfold Flush. destruct (Z.ltb_spec 0 (Z.of_nat (size (sdata (Forget sessionKey s))))) as [| Hz]; [done |].
    apply map_size_empty_inv. lia. }
  rewrite Hsid. pose proof (destroy_removes now (sid s) (st (g_world q)) now) as Hrm.
  destruct (Destroy_ now (sid s) (st (g_world q))) as [err store] eqn:Hde. intros [= <-].
  set (q1 := mkReq _ _ _ _).
  destruct (clear_spec q1) as (Hc & Hses & Hw & _).
  assert (Hid : ID (clearCachedUser q1) = EmptyString) by (unfold ID; rewrite Hses; unfold GetString; simpl; by rewrite Hdata, lookup_empty).
  split_and!; [done | unfold User_; rewrite Hc; by rewrite Hid |].
  exists s, (mkSession (EncodeToString bytes) (sdata (Flush (Forget sessionKey s))) (isNew (Flush (Forget sessionKey s))) true (destroyed (Flush (Forget sessionKey s)))).
  rewrite Hses, Hw. split_and!; try done. rewrite Hde. intros He. apply Hrm; [lia | done].
Qed.

(** ** One query for a request *)

Inductive gop := GUser | GCheck | GLogin (now : Time) (user : U) | GAttempt (now : Time) (identifier password : string) | GLogout (now : Time).

Definition gop_run (g : gop) (q : greq) : greq :=
  match g with
  | GUser => (User_ q).2
  | GCheck => q
  | GLogin now u => (Login now u q).2
  | GAttempt now i p => (Attempt now i p q).2
  | GLogout now => (Logout now q).2
  end.

Definition gop_runs (gs : list gop) (q : greq) : greq := fold_left (fun q g => gop_run g q) gs q.

(** The calls that may change who is logged in. *)
Definition changes (g : gop) : nat := match g with GUser | GCheck => 0 | _ => 1 end.

(** The queries made, and the one still to come when the box is empty. *)
Definition due (q : greq) : nat := g_lookups q + (match g_cache q with Some (Loaded _) => 0 | _ => 1 end).

Lemma due_cleared q : is_Some (g_cache q) -> is_Some (g_cache (clearCachedUser q)) /\ (due (clearCachedUser q) <= S (due q))%nat.
Proof. unfold due, clearCachedUser. destruct (g_cache q) as [[|] |]; simpl; [split; [done | lia].. | by intros []]. Qed.

Lemma gop_due g q :
  (forall id, exists u, FindByID id = Ok u) -> is_Some (g_cache q) ->
  is_Some (g_cache (gop_run g q)) /\ (due (gop_run g q) <= due q + changes g)%nat.
Proof.
  intros Hfind Hc.
  assert (Hlog : forall now u, is_Some (g_cache (Login now u q).2) /\ (due (Login now u q).2 <= due q + 1)%nat).
  { intros now u. unfold Login, Regenerate, generateID. destruct (g_session q) as [s |]; [| split; [done | simpl; lia]].
    destruct (rand (drawn (g_world q))) as [b | e]; simpl; [| unfold due; simpl; split; [done | lia]].
    destruct (Destroy_ now (sid s) (st (g_world q))) as [err store]. unfold due, clearCachedUser.
    destruct (g_cache q) as [[|] |]; [by (split; simpl; [done | lia]).. | by destruct Hc]. }
  destruct g as [| | now u | now i p | now]; simpl.
  - unfold User_, cachedUser. destruct Hc as [box Hb]. rewrite Hb. destruct box as [| [u |]]; simpl; [| rewrite Hb; split; [done | lia]..].
    case_bool_decide; simpl; [rewrite Hb; split; [done | lia] |].
    match goal with |- context [FindByID ?i] => destruct (Hfind i) as [u Hu]; rewrite Hu end.
    unfold due, setCachedUser. simpl. rewrite Hb. destruct u as [u |]; simpl; rewrite ?Hb; split; done || lia.
  - split; [done | lia].
  - apply Hlog.
  - unfold Attempt. destruct (FindByCredentials i) as [[u |] | e]; simpl; [| split; [done | lia]..].
    destruct (_ || _); simpl; [split; [done | lia] |]. specialize (Hlog now u). by destruct (Login now u q) as [[e |] q'].
  - unfold Logout, Regenerate, generateID. destruct (g_session q) as [s |]; [| split; [done | simpl; lia]].
    destruct (rand (drawn (g_world q))) as [b | e]; simpl; [| unfold due; simpl; split; [done | lia]].
    destruct (Destroy_ now _ (st (g_world q))) as [err store]. unfold due, clearCachedUser.
    destruct (g_cache q) as [[|] |]; [by (split; simpl; [done | lia]).. | by destruct Hc].
Qed.

(** Behind the guard's middleware, a request on which nobody logs in or out asks
    the provider for the user at most once, whatever the handler does, provided
    the provider does not fail; each login or logout may cost one more query. *)
Theorem one_lookup gs q :
  (forall id, exists u, FindByID id = Ok u) -> is_Some (g_cache q) ->
  (g_lookups (gop_runs gs q) <= g_lookups q + 1 + sum_list (map changes gs))%nat.
Proof.
  intros Hfind Hc.
  assert (Hall : is_Some (g_cache (gop_runs gs q)) /\ (due (gop_runs gs q) <= due q + sum_list (map changes gs))%nat).
  { revert q Hc. induction gs as [| g gs IH]; intros q Hc; simpl; [split; [done | lia] |].
    destruct (gop_due g q Hfind Hc) as [Hc1 Hd1]. destruct (IH _ Hc1) as [Hc2 Hd2]. split; [done |]. simpl in *. lia. }
  destruct Hall as [_ Hall]. unfold due in Hall. destruct (g_cache q) as [[|] |], (g_cache (gop_runs gs q)) as [[|] |]; lia.
Qed.
End Guard.

(** ** Witnesses *)

(** Users are their names, with the password for a hash; session values are
    strings. *)
Definition known (id : string) : result string (option string) := Ok (if bool_decide (id = "ann") then Some id else None).
Definition guard_rand (n : nat) : result string (list Z) := Ok [7; Z.of_nat n].
Definition anonymous : req string string (MemoryStore string) :=
  mkReq (Some (mkSession "planted" (∅ : gmap string string) false false false)) (Some Unloaded) (mkWorld (NewMemoryStore 0) 0) 0.

Definition logged_in : req string string (MemoryStore string) :=
  (Login (E := string) (fun u : string => u) (fun s => s) guard_rand 5 "ann" anonymous).2.


Lemma Logout_clears_witness :
  ID Some (Logout (E := string) guard_rand 9 logged_in).2 = EmptyString.
Proof.
  destruct (Logout (E := string) guard_rand 9 logged_in) as [[e |] q'] eqn:Hl; [vm_compute in Hl; done |].
  apply (Logout_clears (E := string) known Some guard_rand 9 logged_in q' Hl).
Defined.

Lemma Middleware_exact_witness : (Middleware (E := string) known Some (mkGuardOptions "/login" "/") logged_in).1 = Next.
Proof.
  apply (Middleware_exact (E := string) known Some (mkGuardOptions "/login" "/") logged_in).
  vm_compute. split; [done | by eexists].
Defined.
