(* ===== verification/GoSort.v ===== *)
(** [sort.SliceStable] of the Go standard library, on lists: a stable insertion
    sort, with the laws its callers rely on.  [sort.Slice] gives the same result
    where [less] tells all elements apart. *)

From Stdlib Require Import ZArith Lia.
From Stdlib Require Import Sorted.
From stdpp Require Import base list strings numbers sorting.
From S2P Require Import Prelude.

(** A comparison Go's [sort] accepts: a strict weak order. *)
Class StrictWeak {A} (less : A -> A -> bool) : Prop := {
  less_asym a b : less a b = true -> less b a = false;
  less_cotrans a b c : less a b = false -> less b c = false -> less a c = false }.

Section Sort.
Context {A : Type} (less : A -> A -> bool).

Fixpoint insert_stable (x : A) (l : list A) : list A :=
  match l with
  | [] => [x]
  | y :: l => if less y x then y :: insert_stable x l else x :: y :: l
  end.

Fixpoint SliceStable (l : list A) : list A :=
  match l with
  | [] => []
  | x :: l => insert_stable x (SliceStable l)
  end.

(** [a] may stand before [b]. *)
Definition may_precede (a b : A) : Prop := less b a = false.

Lemma insert_stable_perm x l : insert_stable x l ≡ₚ x :: l.
Proof.
  induction l as [|y l IH]; [done |]. simpl. destruct (less y x); [| done]. rewrite IH. apply perm_swap.
Qed.

Lemma SliceStable_perm l : SliceStable l ≡ₚ l.
Proof. induction l as [|x l IH]; [done |]. simpl. by rewrite insert_stable_perm, IH. Qed.

Lemma insert_stable_sorted `{!StrictWeak less} x l :
  StronglySorted may_precede l -> StronglySorted may_precede (insert_stable x l).
Proof.
  induction 1 as [|y l Hl IH Hy]; simpl; [by repeat constructor |].
  destruct (less y x) eqn:Hyx.
  - constructor; [done |]. rewrite insert_stable_perm. constructor; [| done]. by apply less_asym.
  - constructor; [by constructor |]. constructor; [done |].
    eapply list.Forall_impl; [exact Hy |]. intros z Hz. by apply (less_cotrans z y x).
Qed.

Lemma SliceStable_sorted `{!StrictWeak less} l : StronglySorted may_precede (SliceStable l).
Proof. induction l; [constructor |]. simpl. by apply insert_stable_sorted. Qed.

(** Elements no two of which [less] tells apart keep their order. *)
Lemma SliceStable_stable (p : A -> bool) l :
  (forall a b, p a = true -> p b = true -> less a b = false) ->
  List.filter p (SliceStable l) = List.filter p l.
Proof.
  intros Hp. assert (Hins : forall x l, List.filter p (insert_stable x l) = List.filter p (x :: l)).
  { clear l. intros x l. induction l as [|y l IH]; [done |]. simpl. destruct (less y x) eqn:Hyx; [| done].
    simpl. rewrite IH. simpl. destruct (p x) eqn:Hx, (p y) eqn:Hy; try done. by rewrite Hp in Hyx. }
  induction l as [|x l IH]; [done |]. simpl SliceStable. rewrite Hins. simpl. by rewrite IH.
Qed.

(** Sorting and filtering commute. *)
Lemma SliceStable_filter `{!StrictWeak less} (p : A -> bool) l : SliceStable (List.filter p l) = List.filter p (SliceStable l).
Proof.
  assert (Hhead : forall x l, List.Forall (fun y => less y x = false) l -> insert_stable x l = x :: l).
  { intros x l' H. destruct H as [|y l' Hy _]; [done |]. simpl. by rewrite Hy. }
  assert (Hins : forall x l, StronglySorted may_precede l ->
    List.filter p (insert_stable x l) = if p x then insert_stable x (List.filter p l) else List.filter p l).
  { intros x l'. induction 1 as [|y l' Hl IH Hy]; [simpl; by destruct (p x) |]. simpl insert_stable.
    destruct (less y x) eqn:Hyx.
    - simpl. rewrite IH. destruct (p x), (p y); try done. simpl. by rewrite Hyx.
    - change (List.filter p (x :: y :: l')) with (if p x then x :: List.filter p (y :: l') else List.filter p (y :: l')).
      destruct (p x); [| done]. rewrite Hhead; [done |]. apply List.Forall_forall. intros z Hz.
      apply (filter_In p z (y :: l')) in Hz as [Hz _].
      destruct Hz as [<-|Hz]; [done |]. rewrite List.Forall_forall in Hy. by apply (less_cotrans z y x), Hyx; apply Hy. }
  induction l as [|x l IH]; [done |]. simpl. rewrite Hins by apply SliceStable_sorted. rewrite <- IH. by destruct (p x).
Qed.

(** Elements [less] tells apart have one sorted order. *)
Lemma sorted_unique (l1 l2 : list A) :
  (forall a b, a ∈ l1 -> b ∈ l1 -> less a b = false -> less b a = false -> a = b) ->
  StronglySorted may_precede l1 -> StronglySorted may_precede l2 -> l1 ≡ₚ l2 -> l1 = l2.
Proof.
  intros Hanti H1 H2 Hp. eapply (StronglySorted_unique_strong may_precede); [| done | done | done].
  intros a b Ha Hb Hab Hba. rewrite <- Hp in Hb. by apply Hanti.
Qed.
End Sort.

(** Ascending by an integer key. *)
#[export] Instance less_by_key {A} (key : A -> Z) : StrictWeak (fun a b => key a <? key b).
Proof. split; intros *; rewrite ?Z.ltb_lt, ?Z.ltb_ge; lia. Qed.

(** ** Strings in byte order *)

Lemma ltb_leb a b : String.ltb a b = negb (String.leb b a).
Proof.
  unfold String.ltb, String.leb. rewrite (String.compare_antisym b a). by destruct (String.compare a b).
Qed.

Lemma leb_trans a b c : String.leb a b = true -> String.leb b c = true -> String.leb a c = true.
Proof.
  rewrite <- !Is_true_true. apply (transitivity (R := String.le)).
Qed.

Lemma leb_total a b : String.leb a b = false -> String.leb b a = true.
Proof. unfold String.leb. rewrite (String.compare_antisym a b). by destruct (String.compare b a). Qed.

#[export] Instance ltb_weak : StrictWeak String.ltb.
Proof.
  split; intros *; rewrite !ltb_leb, ?negb_true_iff, !negb_false_iff; [apply leb_total |]. intros H1 H2. by apply (leb_trans c b a).
Qed.

Lemma ltb_antisym a b : String.ltb a b = false -> String.ltb b a = false -> a = b.
Proof.
  rewrite !ltb_leb, !negb_false_iff. unfold String.leb. rewrite (String.compare_antisym b a).
  destruct (String.compare a b) eqn:E; simpl; intros H1 H2; try done. by apply String.compare_eq_iff.
Qed.
