(* ===== verification/Collection.v ===== *)
(** Collections over slices: [src/collection/] ([collection.go], [methods.go],
    [funcs.go], [seq.go]).

    A [Collection[T]] is the list of its items: every operation that reshapes one
    copies, so no two collections share elements that change ([New] and [Each]
    apart, which hand out the slice they were given).  Indices and sizes are
    [int]: the bounds [Take], [Slicing] and [Chunk] compute wrap, and a slice
    expression out of range panics ([None]).  Map keys are of a type with
    decidable equality; arithmetic is that of [int] where it is modelled. *)

From Stdlib Require Import ZArith Lia.
From Stdlib Require Import Sorted.
From stdpp Require Import base gmap list numbers sorting.
From S2P Require Import Prelude GoRt GoSort.

#[local] Set Warnings "-register-all".

Record Collection (T : Type) := mkCollection { items : list T }.
Arguments mkCollection {T} items.
Arguments items {T} _.

Definition len {T} (l : list T) : Z := Z.of_nat (length l).

(** [l[lo:hi]], which panics out of range. *)
Definition slice_expr {T} (l : list T) (lo hi : Z) : option (list T) :=
  if (0 <=? lo) && (lo <=? hi) && (hi <=? len l)
  then Some (take (Z.to_nat (hi - lo)) (drop (Z.to_nat lo) l))
  else None.

Section Methods.
Context {T : Type}.
Implicit Type c : Collection T.

Definition New (l : list T) : Collection T := mkCollection l.
Definition From_ (l : list T) : Collection T := mkCollection l.
Definition Collect (l : list T) : Collection T := From_ l.
Definition All c : list T := items c.
Definition Slice c : list T := All c.
Definition Len c : Z := len (items c).
Definition Count c : Z := len (items c).
Definition IsEmpty c : bool := len (items c) =? 0.
Definition IsNotEmpty c : bool := 0 <? len (items c).

Definition Get (i : Z) c : option T :=
  if (i <? 0) || (len (items c) <=? i) then None else items c !! Z.to_nat i.

Definition First c : option T := if len (items c) =? 0 then None else items c !! 0%nat.
Definition Last c : option T :=
  if len (items c) =? 0 then None else items c !! Z.to_nat (len (items c) - 1).

Fixpoint filter_loop (keep : T -> bool) (l out : list T) : list T :=
  match l with
  | [] => out
  | v :: l => filter_loop keep l (if keep v then out ++ [v] else out)
  end.

Definition Filter (keep : T -> bool) c : Collection T := mkCollection (filter_loop keep (items c) []).
Definition Reject (drop : T -> bool) c : Collection T := Filter (fun v => negb (drop v)) c.

(** The calls [Each] makes, and the receiver it returns. *)
Definition Each c : list (Z * T) * Collection T := (imap (fun i v => (Z.of_nat i, v)) (items c), c).

Section UniqueBy.
Context {K : Type} `{Countable K}.

Fixpoint unique_loop (keyFn : T -> K) (l : list T) (seen : gset K) (out : list T) : list T :=
  match l with
  | [] => out
  | v :: l =>
      let k := keyFn v in
      if bool_decide (k ∈ seen) then unique_loop keyFn l seen out
      else unique_loop keyFn l ({[k]} ∪ seen) (out ++ [v])
  end.

Definition UniqueBy (keyFn : T -> K) c : Collection T := mkCollection (unique_loop keyFn (items c) ∅ []).
End UniqueBy.

Definition Sort (less : T -> T -> bool) c : Collection T := mkCollection (SliceStable less (items c)).
Definition SortBy (keyFn : T -> Z) c : Collection T := Sort (fun a b => keyFn a <? keyFn b) c.

(** [out[n-1-i] = v] for every [i]. *)
Fixpoint reverse_loop (n i : nat) (l out : list T) : list T :=
  match l with
  | [] => out
  | v :: l => reverse_loop n (S i) l (<[(n - 1 - i)%nat := v]> out)
  end.

(** Every zero value of the new slice is overwritten, so the items stand for them. *)
Definition Reverse c : Collection T :=
  mkCollection (reverse_loop (length (items c)) 0 (items c) (items c)).

Definition Take (n : Z) c : option (Collection T) :=
  let l := len (items c) in
  if n <? 0 then
    let n := i64 (- n) in
    let n := if l <? n then l else n in
    mkCollection <$> slice_expr (items c) (i64 (l - n)) l
  else
    let n := if l <? n then l else n in
    mkCollection <$> slice_expr (items c) 0 n.

Definition Skip (n : Z) c : option (Collection T) :=
  let l := len (items c) in
  let n := if n <? 0 then 0 else n in
  let n := if l <? n then l else n in
  mkCollection <$> slice_expr (items c) n l.

Definition Slicing (start length : Z) c : option (Collection T) :=
  let n := len (items c) in
  let start := if start <? 0 then i64 (start + n) else start in
  let start := if start <? 0 then 0 else start in
  let start := if n <? start then n else start in
  let end_ :=
    if 0 <=? length then
      let end_ := i64 (start + length) in
      if n <? end_ then n else end_
    else n in
  mkCollection <$> slice_expr (items c) start end_.

(** The loop of [Chunk]; the outer option is the fuel, the inner one a panic. *)
Fixpoint chunk_loop (fuel : nat) (size i : Z) (l : list T) (chunks : list (list T))
  : option (option (list (list T))) :=
  match fuel with
  | O => None
  | S fuel =>
      if i <? len l then
        let end_ := i64 (i + size) in
        let end_ := if len l <? end_ then len l else end_ in
        match slice_expr l i end_ with
        | Some g => chunk_loop fuel size (i64 (i + size)) l (chunks ++ [g])
        | None => Some None
        end
      else Some (Some chunks)
  end.

Definition Chunk (size : Z) c : option (option (list (list T))) :=
  if size <=? 0 then Some (Some []) else chunk_loop (S (length (items c))) size 0 (items c) [].

Definition Push (l : list T) c : Collection T := mkCollection (items c ++ l).
Definition Prepend (l : list T) c : Collection T := mkCollection (l ++ items c).
Definition Merge (other c : Collection T) : Collection T := Push (items other) c.

Fixpoint partition_loop (pred : T -> bool) (l yes no : list T) : list T * list T :=
  match l with
  | [] => (yes, no)
  | v :: l => if pred v then partition_loop pred l (yes ++ [v]) no else partition_loop pred l yes (no ++ [v])
  end.

Definition Partition (pred : T -> bool) c : Collection T * Collection T :=
  let '(yes, no) := partition_loop pred (items c) [] [] in (mkCollection yes, mkCollection no).

Definition ContainsBy (pred : T -> bool) c : bool := existsb pred (items c).
Definition FirstWhere (pred : T -> bool) c : option T := List.find pred (items c).

(** What a loop over [Seq] sees before it stops: [yield] tells whether to go on. *)
Fixpoint seq_loop (yield : T -> bool) (l : list T) : list T :=
  match l with
  | [] => []
  | v :: l => v :: (if yield v then seq_loop yield l else [])
  end.

Definition Seq (yield : T -> bool) c : list T := seq_loop yield (items c).
Definition FromSeq (l : list T) : Collection T := mkCollection (fold_left (fun items v => items ++ [v]) l []).
End Methods.

(** ** Free functions *)

Definition Map {T U} (fn : T -> U) (c : Collection T) : Collection U := mkCollection (map fn (items c)).
Definition FlatMap {T U} (fn : T -> list U) (c : Collection T) : Collection U :=
  mkCollection (fold_left (fun out v => out ++ fn v) (items c) []).
Definition Reduce {T U} (init : U) (fn : U -> T -> U) (c : Collection T) : U := fold_left fn (items c) init.
Definition Pluck {T U} (fn : T -> U) (c : Collection T) : Collection U := Map fn c.

Section Keys.
Context {T K : Type} `{Countable K}.

Definition GroupBy (keyFn : T -> K) (c : Collection T) : gmap K (Collection T) :=
  fold_left (fun out v =>
    let k := keyFn v in
    let grp := default (mkCollection []) (out !! k) in
    <[k := mkCollection (items grp ++ [v])]> out) (items c) ∅.

Definition KeyBy (keyFn : T -> K) (c : Collection T) : gmap K T :=
  fold_left (fun out v => <[keyFn v := v]> out) (items c) ∅.

Definition Associate {V} (fn : T -> K * V) (c : Collection T) : gmap K V :=
  fold_left (fun out v => let '(k, x) := fn v in <[k := x]> out) (items c) ∅.
End Keys.

Definition ChunkInto {T} (size : Z) (c : Collection T) : option (option (Collection (Collection T))) :=
  match Chunk size c with
  | Some (Some raw) => Some (Some (mkCollection (map mkCollection raw)))
  | Some None => Some None
  | None => None
  end.

Definition Unique {T} `{Countable T} (c : Collection T) : Collection T := UniqueBy (fun v => v) c.
Definition Contains {T} `{EqDecision T} (target : T) (c : Collection T) : bool :=
  existsb (fun v => bool_decide (v = target)) (items c).
Definition SortByKey {T} (keyFn : T -> Z) (c : Collection T) : Collection T :=
  mkCollection (SliceStable (fun a b => keyFn a <? keyFn b) (items c)).

(** Arithmetic on [int]. *)
Definition Sum (c : Collection Z) : Z := fold_left (fun total v => i64 (total + v)) (items c) 0.
Definition SumBy {T} (fn : T -> Z) (c : Collection T) : Z :=
  fold_left (fun total v => i64 (total + fn v)) (items c) 0.
Definition Avg (c : Collection Z) : option float64 :=
  if len (items c) =? 0 then None else Some (fdiv (float_of_Z (Sum c)) (float_of_Z (len (items c)))).

Definition Min (c : Collection Z) : option Z :=
  match items c with [] => None | m :: l => Some (fold_left (fun m v => if v <? m then v else m) l m) end.
Definition Max (c : Collection Z) : option Z :=
  match items c with [] => None | m :: l => Some (fold_left (fun m v => if m <? v then v else m) l m) end.

(** ** The loops *)

Lemma slice_expr_ok {T} (l : list T) (a b : nat) :
  (a <= b <= length l)%nat -> slice_expr l (Z.of_nat a) (Z.of_nat b) = Some (take (b - a) (drop a l)).
Proof.
  intros H. unfold slice_expr, len. rewrite (proj2 (andb_true_iff _ _)); [by rewrite Nat2Z.id, <- Nat2Z.inj_sub, Nat2Z.id by lia |].
  rewrite andb_true_iff, !Z.leb_le. lia.
Qed.

Lemma filter_loop_eq {T} (keep : T -> bool) l out : filter_loop keep l out = out ++ List.filter keep l.
Proof.
  revert out. induction l as [|v l IH]; intros out; simpl; [by rewrite app_nil_r |]. rewrite IH.
  destruct (keep v); [by rewrite <- app_assoc | done].
Qed.

Lemma partition_loop_eq {T} (pred : T -> bool) l yes no :
  partition_loop pred l yes no = (yes ++ List.filter pred l, no ++ List.filter (fun v => negb (pred v)) l).
Proof.
  revert yes no. induction l as [|v l IH]; intros yes no; simpl; [by rewrite !app_nil_r |].
  destruct (pred v); rewrite IH; simpl; by rewrite <- app_assoc.
Qed.

Lemma reverse_loop_eq {T} (n i : nat) (l out : list T) :
  (i + length l = n)%nat -> length out = n -> reverse_loop n i l out = rev l ++ drop (length l) out.
Proof.
  revert i out. induction l as [|v l IH]; intros i out Hn Hout; simpl; [done |]. simpl in Hn.
  rewrite IH by (rewrite ?length_insert; lia). replace (n - 1 - i)%nat with (length l) by lia.
  rewrite <- app_assoc. f_equal.
  destruct (lookup_lt_is_Some_2 out (length l)) as [y Hy]; [lia |].
  rewrite drop_insert_ge, Nat.sub_diag by lia. by rewrite (drop_S _ _ _ Hy).
Qed.

Lemma map_seq_snoc {A} (f : nat -> A) m k : map f (seq k (S m)) = f k :: map f (seq (S k) m).
Proof. done. Qed.

(** The number of chunks. *)
Definition chunk_count (size n : nat) : nat := ((n + size - 1) / size)%nat.

Lemma chunk_count_spec size n k : (0 < size)%nat -> (k < chunk_count size n <-> k * size < n)%nat.
Proof.
  intros Hs. unfold chunk_count. split; intros H.
  - assert ((S k * size <= n + size - 1)%nat); [| lia].
    etrans; [apply Nat.mul_le_mono_r, H |]. rewrite Nat.mul_comm. by apply Nat.Div0.mul_div_le.
  - apply Nat.div_le_lower_bound; lia.
Qed.

Definition chunk_at {T} (size : nat) (l : list T) (k : nat) : list T := take size (drop (k * size) l).

Lemma chunk_loop_eq {T} (size : nat) (l : list T) m k fuel acc :
  (0 < size)%nat -> len l < 2 ^ 62 -> Z.of_nat size <= max_i64 -> (m < fuel)%nat ->
  (k + m = chunk_count size (length l))%nat ->
  chunk_loop fuel (Z.of_nat size) (Z.of_nat (k * size)) l acc = Some (Some (acc ++ map (chunk_at size l) (seq k m))).
Proof.
  intros Hs Hl Hmax. revert k fuel acc. induction m as [|m IH]; intros k fuel acc Hf Hk; (destruct fuel as [|fuel]; [lia |]); simpl.
  - destruct (Z.ltb_spec (Z.of_nat (k * size)) (len l)) as [Hlt|]; [| by rewrite app_nil_r].
    unfold len in Hlt. assert (k < chunk_count size (length l))%nat by (apply (chunk_count_spec size (length l) k); lia). lia.
  - assert (Hlt : (k * size < length l)%nat) by (apply (chunk_count_spec size (length l) k); lia).
    rewrite (proj2 (Z.ltb_lt _ _)) by (unfold len; lia).
    assert (Hi : i64 (Z.of_nat (k * size) + Z.of_nat size) = Z.of_nat (S k * size)).
    { rewrite i64_small; [lia |]. unfold len, min_i64, max_i64 in *. destruct k; lia. }
    rewrite Hi. set (e := if _ <? _ then _ else _).
    assert (He : e = Z.of_nat ((S k * size) `min` length l)).
    { unfold e, len. clear. generalize (S k * size)%nat as p. intros p.
      destruct (Z.ltb_spec (Z.of_nat (length l)) (Z.of_nat p)); lia. }
    rewrite He, slice_expr_ok by lia. rewrite IH by lia. rewrite <- app_assoc. do 3 f_equal. simpl. f_equal.
    unfold chunk_at. destruct (decide (S k * size <= length l)%nat).
    + f_equal. lia.
    + rewrite !take_ge; [done | rewrite length_drop; lia | rewrite length_drop; lia].
Qed.

Lemma chunks_concat {T} (size : nat) (l : list T) m k :
  (0 < size)%nat -> (k + m = chunk_count size (length l))%nat ->
  concat (map (chunk_at size l) (seq k m)) = drop (k * size) l.
Proof.
  intros Hs. revert k. induction m as [|m IH]; intros k Hk; simpl.
  - rewrite drop_ge; [done |]. pose proof (chunk_count_spec size (length l) k Hs). lia.
  - rewrite IH by lia. unfold chunk_at. rewrite <- (take_drop size (drop (k * size) l)) at 2. f_equal.
    rewrite drop_drop. f_equal. lia.
Qed.

Lemma unique_loop_app {T K} `{Countable K} (keyFn : T -> K) l seen out :
  unique_loop keyFn l seen out = out ++ unique_loop keyFn l seen [].
Proof.
  revert seen out. induction l as [|v l IH]; intros seen out; simpl; [by rewrite app_nil_r |].
  case_bool_decide; [apply IH |]. rewrite IH, (IH _ [v]). by rewrite <- app_assoc.
Qed.

Lemma unique_loop_sublist {T K} `{Countable K} (keyFn : T -> K) l seen : unique_loop keyFn l seen [] `sublist_of` l.
Proof.
  revert seen. induction l as [|v l IH]; intros seen; simpl; [done |].
  case_bool_decide; [by apply sublist_cons |]. rewrite unique_loop_app. by apply sublist_skip.
Qed.

Lemma unique_loop_key {T K} `{Countable K} (keyFn : T -> K) l seen (k : K) :
  List.filter (fun v => bool_decide (keyFn v = k)) (unique_loop keyFn l seen [])
  = if bool_decide (k ∈ seen) then [] else take 1 (List.filter (fun v => bool_decide (keyFn v = k)) l).
Proof.
  revert seen. induction l as [|v l IH]; intros seen; cbn [unique_loop]; [by case_bool_decide |].
  cbn [List.filter]. destruct (bool_decide_reflect (keyFn v ∈ seen)) as [Hv|Hv].
  - rewrite IH. destruct (bool_decide_reflect (keyFn v = k)) as [<-|]; [by rewrite bool_decide_true | done].
  - rewrite unique_loop_app, List.filter_app, IH. cbn [List.filter].
    destruct (bool_decide_reflect (keyFn v = k)) as [<-|Hne].
    + rewrite (bool_decide_true (keyFn v ∈ {[keyFn v]} ∪ seen)), (bool_decide_false (keyFn v ∈ seen)) by set_solver.
      simpl. by rewrite bool_decide_true.
    + simpl. rewrite (bool_decide_false (keyFn v = k)) by done. simpl.
      destruct (bool_decide_reflect (k ∈ seen));
        [rewrite bool_decide_true by set_solver | rewrite bool_decide_false by set_solver]; done.
Qed.

Lemma fold_append {T U} (fn : T -> list U) l out : fold_left (fun out v => out ++ fn v) l out = out ++ flat_map fn l.
Proof.
  revert out. induction l as [|v l IH]; intros out; simpl; [by rewrite app_nil_r |]. by rewrite IH, app_assoc.
Qed.

(** Machine addition in any order. *)
Lemma fold_i64 {T} (fn : T -> Z) l a :
  min_i64 <= a <= max_i64 ->
  fold_left (fun total v => i64 (total + fn v)) l a = i64 (a + fold_right (fun v s => fn v + s) 0 l).
Proof.
  revert a. induction l as [|v l IH]; intros a Ha; simpl; [by rewrite Z.add_0_r, i64_small |].
  rewrite IH by apply i64_range. rewrite i64_wrap_add_l. f_equal. lia.
Qed.

Lemma fold_min l m : let r := fold_left (fun m v => if v <? m then v else m) l m in
  r ∈ m :: l /\ Forall (fun v => r <= v) (m :: l).
Proof.
  revert m. induction l as [|v l IH]; intros m; simpl; [by repeat constructor |].
  destruct (IH (if v <? m then v else m)) as [Hin Hall]. apply list.Forall_cons in Hall as [H1 H2].
  split; [destruct (v <? m); set_solver |]. destruct (Z.ltb_spec v m); repeat constructor; (done || lia).
Qed.

Lemma fold_max l m : let r := fold_left (fun m v => if m <? v then v else m) l m in
  r ∈ m :: l /\ Forall (fun v => v <= r) (m :: l).
Proof.
  revert m. induction l as [|v l IH]; intros m; simpl; [by repeat constructor |].
  destruct (IH (if m <? v then v else m)) as [Hin Hall]. apply list.Forall_cons in Hall as [H1 H2].
  split; [destruct (m <? v); set_solver |]. destruct (Z.ltb_spec m v); repeat constructor; (done || lia).
Qed.

(** ** Theorems *)

(** [Chunk] with a positive size never panics and gives the groups of
    [size] elements in order: the [k]-th starts at [k * size], none is empty, and
    together they are the collection.  (The length bound is far above what a
    slice of non-empty elements can have.) *)
Theorem Chunk_exact {T} (c : Collection T) (size : Z) :
  0 < size <= max_i64 -> Len c < 2 ^ 62 ->
  exists chunks, Chunk size c = Some (Some chunks)
    /\ chunks = map (chunk_at (Z.to_nat size) (items c)) (seq 0 (chunk_count (Z.to_nat size) (length (items c))))
    /\ concat chunks = items c /\ Forall (fun g => (0 < length g <= Z.to_nat size)%nat) chunks.
Proof.
  intros Hs Hl. set (sz := Z.to_nat size). assert (Hsz : (0 < sz)%nat) by (unfold sz; lia).
  set (n := chunk_count sz (length (items c))).
  exists (map (chunk_at sz (items c)) (seq 0 n)). split_and!.
  - unfold Chunk. rewrite (proj2 (Z.leb_gt _ _)) by lia.
    replace size with (Z.of_nat sz) by (unfold sz; lia).
    assert (Hn : (n <= length (items c))%nat).
    { destruct n as [|m] eqn:Hm; [lia |]. assert (m < chunk_count sz (length (items c)))%nat as Hlt by (unfold n in Hm; lia).
      apply (chunk_count_spec sz _ m Hsz) in Hlt. nia. }
    apply (chunk_loop_eq sz (items c) n 0 (S (length (items c))) []); [done | done | unfold sz; lia | lia | done].
  - done.
  - rewrite (chunks_concat sz (items c) n 0) by done. by rewrite drop_0.
  - apply list.Forall_forall. intros g (k & -> & Hk)%list_elem_of_fmap.
    apply elem_of_seq in Hk as [_ Hk]. unfold n in Hk. simpl in Hk. apply (chunk_count_spec sz _ k Hsz) in Hk.
    unfold chunk_at. rewrite length_take, length_drop. lia.
Qed.

(** [UniqueBy] keeps, for every key, exactly the first element that has it, in
    the order of the collection. *)
Theorem UniqueBy_exact {T K} `{Countable K} (keyFn : T -> K) (c : Collection T) :
  items (UniqueBy keyFn c) `sublist_of` items c
  /\ forall k, List.filter (fun v => bool_decide (keyFn v = k)) (items (UniqueBy keyFn c))
       = take 1 (List.filter (fun v => bool_decide (keyFn v = k)) (items c)).
Proof.
  split; [apply unique_loop_sublist |]. intros k. simpl. rewrite unique_loop_key. by rewrite bool_decide_false by set_solver.
Qed.

Lemma group_step {T K} `{Countable K} (keyFn : T -> K) l (m : gmap K (Collection T)) k :
  fold_left (fun out v => <[keyFn v := mkCollection (items (default (mkCollection []) (out !! keyFn v)) ++ [v])]> out) l m !! k
  = match List.filter (fun v => bool_decide (keyFn v = k)) l with
    | [] => m !! k
    | g => Some (mkCollection (items (default (mkCollection []) (m !! k)) ++ g))
    end.
Proof.
  revert m. induction l as [|v l IH]; intros m; simpl; [done |]. rewrite IH.
  destruct (bool_decide_reflect (keyFn v = k)) as [<-|Hne].
  - rewrite lookup_insert, decide_True by done. destruct (List.filter _ l); simpl; [done |]. by rewrite <- app_assoc.
  - by rewrite lookup_insert_ne by done.
Qed.

(** [GroupBy] has a bucket for exactly the keys that occur, with the elements of
    that key in their order; [KeyBy] keeps the last of them. *)
Theorem GroupBy_exact {T K} `{Countable K} (keyFn : T -> K) (c : Collection T) (k : K) :
  let mine := List.filter (fun v => bool_decide (keyFn v = k)) (items c) in
  items <$> GroupBy keyFn c !! k = (match mine with [] => None | _ => Some mine end)
  /\ KeyBy keyFn c !! k = list.last mine.
Proof.
  intros mine. split.
  - unfold GroupBy. rewrite group_step. fold mine. destruct mine as [|v g]; [done |]. by rewrite lookup_empty.
  - unfold KeyBy, mine. assert (Hgen : forall l m, fold_left (fun (out : gmap K T) v => <[keyFn v := v]> out) l m !! k
      = match list.last (List.filter (fun v => bool_decide (keyFn v = k)) l) with Some v => Some v | None => m !! k end).
    { induction l as [|v l IH]; intros m; simpl; [done |]. rewrite IH.
      destruct (bool_decide_reflect (keyFn v = k)) as [<-|Hne]; [| by rewrite lookup_insert_ne].
      rewrite lookup_insert, decide_True by done. rewrite last_cons. by destruct (list.last _). }
    rewrite Hgen. by destruct (list.last _).
Qed.

(** [Sort] with a strict weak order gives the elements of the collection in
    that order, and elements that [less] does not tell apart keep their places
    relative to each other. *)
Theorem Sort_stable {T} (less : T -> T -> bool) `{!StrictWeak less} (c : Collection T) :
  items (Sort less c) ≡ₚ items c /\ StronglySorted (fun a b => less b a = false) (items (Sort less c))
  /\ forall p, (forall a b, p a = true -> p b = true -> less a b = false) ->
       List.filter p (items (Sort less c)) = List.filter p (items c).
Proof.
  split_and!; [apply SliceStable_perm | by apply SliceStable_sorted | intros p; apply SliceStable_stable].
Qed.

(** The methods that go through the items once are the list functions they look
    like. *)
Theorem loops_exact {T U} (keep : T -> bool) (fn : T -> list U) (c : Collection T) :
  items (Filter keep c) = List.filter keep (items c)
  /\ (let '(yes, no) := Partition keep c in yes = Filter keep c /\ no = Reject keep c)
  /\ items (Reverse c) = rev (items c) /\ items (FlatMap fn c) = flat_map fn (items c).
Proof.
  unfold Filter, Partition, Reject, Filter, Reverse, FlatMap. simpl. rewrite partition_loop_eq, !filter_loop_eq, fold_append. simpl.
  split_and!; try done. rewrite reverse_loop_eq by done. rewrite drop_ge, app_nil_r by done. done.
Qed.

(** [Take] and [Skip] with the same count split the collection; a negative count
    takes from the end.  The one count whose negation does not fit panics. *)
Theorem Take_exact {T} (c : Collection T) (n : Z) :
  Len c < 2 ^ 62 -> min_i64 <= n <= max_i64 ->
  (0 <= n -> exists a b, Take n c = Some a /\ Skip n c = Some b /\ items a ++ items b = items c
             /\ Len a = Z.min n (Len c))
  /\ (min_i64 < n < 0 -> exists a, Take n c = Some a /\ items a `suffix_of` items c /\ Len a = Z.min (- n) (Len c))
  /\ Take min_i64 c = None.
Proof.
  intros Hl Hn. unfold Take, Skip, Len in *. split_and!.
  - intros H0. rewrite (proj2 (Z.ltb_ge n 0)) by done.
    set (k := if len (items c) <? n then len (items c) else n).
    assert (Hk : k = Z.of_nat (Z.to_nat k) /\ (Z.to_nat k <= length (items c))%nat /\ k = Z.min n (len (items c))).
    { unfold k, len in *. destruct (Z.ltb_spec (Z.of_nat (length (items c))) n); lia. }
    destruct Hk as (Hk & Hle & Hmin). rewrite Hk. change 0 with (Z.of_nat 0). unfold len.
    rewrite !slice_expr_ok by lia. simpl. eexists _, _. split_and!; [done | done | |]; simpl.
    + rewrite Nat.sub_0_r, drop_0, (take_ge (drop _ _)) by (rewrite length_drop; lia). apply take_drop.
    + rewrite Nat.sub_0_r, drop_0, length_take. unfold len in *. lia.
  - intros H0. rewrite (proj2 (Z.ltb_lt n 0)) by lia. rewrite (i64_small (- n)) by (unfold min_i64, max_i64 in *; lia).
    set (k := if len (items c) <? - n then len (items c) else - n).
    assert (Hk : 0 <= k <= len (items c) /\ k = Z.min (- n) (len (items c))).
    { unfold k, len in *. destruct (Z.ltb_spec (Z.of_nat (length (items c))) (- n)); lia. }
    destruct Hk as [Hk Hmin]. rewrite i64_small by (unfold min_i64, max_i64 in *; lia).
    replace (len (items c) - k) with (Z.of_nat (Z.to_nat (len (items c) - k))) by lia. unfold len at 2.
    rewrite slice_expr_ok by (unfold len in *; lia). simpl. eexists. split_and!; [done | |]; simpl.
    + rewrite take_ge by (rewrite length_drop; lia). eexists. symmetry. apply take_drop.
    + unfold len in *. rewrite length_take, length_drop. lia.
  - change (min_i64 <? 0) with true. cbv iota. change (i64 (- min_i64)) with min_i64.
    rewrite (proj2 (Z.ltb_ge _ _)) by (unfold len, min_i64 in *; lia). unfold slice_expr.
    rewrite (proj2 (andb_false_iff _ _)); [done | left]. apply andb_false_iff. left. apply Z.leb_gt.
    unfold i64, wrap_s, min_i64, len in *.
    replace (_ - - 2 ^ 63 + 2 ^ (64 - 1)) with (Z.of_nat (length (items c)) + 1 * 2 ^ 64) by lia.
    rewrite Z.mod_add, Z.mod_small; lia.
Qed.

(** Where [Slicing] starts. *)
Definition slicing_start (start n : Z) : Z := Z.min n (Z.max 0 (if start <? 0 then start + n else start)).

(** [Slicing] panics exactly when the window's end does not fit in [int],
    also if that only means "to the end"; otherwise it gives the elements of the
    window. *)
Theorem Slicing_exact {T} (c : Collection T) (start length : Z) :
  Len c < 2 ^ 62 -> min_i64 <= start <= max_i64 -> min_i64 <= length <= max_i64 ->
  let st := slicing_start start (Len c) in
  items <$> Slicing start length c
  = if max_i64 <? st + length then None
    else Some ((if 0 <=? length then take (Z.to_nat length) else id) (drop (Z.to_nat st) (items c))).
Proof.
  intros Hl Hs Hlen. unfold Slicing, Len, slicing_start in *. set (n := len (items c)) in *.
  assert (Hn : 0 <= n) by (unfold n, len; lia).
  set (st := Z.min n _). assert (Hst : 0 <= st <= n) by (unfold st; lia).
  assert (He : (let a := if start <? 0 then i64 (start + n) else start in
                let b := if a <? 0 then 0 else a in if n <? b then n else b) = st).
  { unfold st. destruct (Z.ltb_spec start 0); [rewrite i64_small by (unfold min_i64, max_i64 in *; lia) |]; simpl;
      repeat (case_match; to_prop); lia. }
  simpl in He. rewrite He. clear He. destruct (Z.leb_spec 0 length) as [H0|H0]; cbv zeta.
  - destruct (Z.ltb_spec max_i64 (st + length)) as [Hov|Hfit].
    + assert (Hneg : i64 (st + length) < 0).
      { unfold i64, wrap_s, max_i64, min_i64 in *.
        replace (st + length + 2 ^ (64 - 1)) with ((st + length - 2 ^ 63) + 1 * 2 ^ 64) by lia.
        rewrite Z.mod_add, Z.mod_small by lia. lia. }
      rewrite (proj2 (Z.ltb_ge n _)) by lia. unfold slice_expr.
      rewrite (proj2 (andb_false_iff _ _)); [done | left]. apply andb_false_iff. right. apply Z.leb_gt. lia.
    + rewrite i64_small by (unfold min_i64, max_i64 in *; lia). set (e := if n <? _ then _ else _).
      assert (Hee : st <= e <= n /\ e = Z.min n (st + length)) by (unfold e; destruct (Z.ltb_spec n (st + length)); lia).
      replace st with (Z.of_nat (Z.to_nat st)) at 1 by lia. replace e with (Z.of_nat (Z.to_nat e)) by lia.
      rewrite slice_expr_ok by (unfold n, len in *; lia). simpl. f_equal.
      destruct (decide (n <= st + length)).
      * rewrite !take_ge; [done | rewrite length_drop; unfold n, len in *; lia | rewrite length_drop; unfold n, len in *; lia].
      * f_equal. lia.
  - rewrite (proj2 (Z.ltb_ge _ _)) by (unfold max_i64, n, len in *; lia).
    replace st with (Z.of_nat (Z.to_nat st)) at 1 by lia. replace n with (Z.of_nat (Datatypes.length (items c))) by done.
    rewrite slice_expr_ok by (unfold n, len in *; lia). simpl. rewrite take_ge; [done | rewrite length_drop; lia].
Qed.

(** [Sum] is the sum modulo 2^64 in any order of the elements; [Min] and [Max]
    are bounds that occur. *)
Theorem aggregates_exact (c : Collection Z) :
  Sum c = i64 (fold_right Z.add 0 (items c))
  /\ (forall m, Min c = Some m -> m ∈ items c /\ Forall (fun v => m <= v) (items c))
  /\ (forall m, Max c = Some m -> m ∈ items c /\ Forall (fun v => v <= m) (items c)).
Proof.
  unfold Sum, Min, Max. destruct c as [l]. simpl. split_and!.
  - rewrite (fold_i64 (fun v => v)) by done. done.
  - intros m. destruct l as [|v l]; [done |]. intros [= <-]. apply fold_min.
  - intros m. destruct l as [|v l]; [done |]. intros [= <-]. apply fold_max.
Qed.

(** The mean of numbers whose sum wraps is wrong: the mean of twice the largest
    [int] is -1. *)
Example Avg_overflows : Avg (mkCollection [max_i64; max_i64]) = Some (float_of_Z (-1)).
Proof. vm_compute. reflexivity. Qed.

(** *** Witnesses *)

Definition sample_numbers : Collection Z := mkCollection [3; 1; 2; 5; 4].

Lemma Chunk_exact_witness :
  exists chunks, Chunk 2 sample_numbers = Some (Some chunks)
    /\ chunks = map (chunk_at 2 (items sample_numbers)) (seq 0 (chunk_count 2 5))
    /\ concat chunks = items sample_numbers /\ Forall (fun g => (0 < length g <= 2)%nat) chunks.
Proof. apply (Chunk_exact sample_numbers 2); vm_compute; intuition discriminate. Defined.

Lemma Sort_stable_witness :
  items (Sort (fun a b => a mod 2 <? b mod 2) sample_numbers) = [2; 4; 3; 1; 5]
  /\ List.filter Z.odd (items (Sort (fun a b => a mod 2 <? b mod 2) sample_numbers)) = [3; 1; 5].
Proof.
  split; [reflexivity |].
  apply (Sort_stable (fun a b => a mod 2 <? b mod 2) sample_numbers).
  intros a b Ha Hb. rewrite !Zmod_odd, Ha, Hb. reflexivity.
Defined.

Lemma Slicing_exact_witness :
  items <$> Slicing 1 max_i64 sample_numbers = None /\ items <$> Slicing (-2) max_i64 sample_numbers = None
  /\ items <$> Slicing 1 2 sample_numbers = Some [1; 2].
Proof.
  split_and!.
  - apply (Slicing_exact sample_numbers 1 max_i64); vm_compute; intuition discriminate.
  - apply (Slicing_exact sample_numbers (-2) max_i64); vm_compute; intuition discriminate.
  - apply (Slicing_exact sample_numbers 1 2); vm_compute; intuition discriminate.
Defined.

Lemma Take_exact_witness : exists a b, Take 2 sample_numbers = Some a /\ Skip 2 sample_numbers = Some b
  /\ items a ++ items b = items sample_numbers /\ Len a = 2.
Proof. apply (Take_exact sample_numbers 2); vm_compute; intuition discriminate. Defined.
