(* ===== verification/GoStrings.v ===== *)
(** The functions of package [strings] shared by the routers and the web
    package, on byte strings.  A cutset is one byte. *)

From Stdlib Require Import ZArith Lia Ascii.
From Stdlib Require String.
From stdpp Require Import base strings list numbers.
From S2P Require Import Prelude GoRt GoStrconv.

Fixpoint TrimLeft (x : ascii) (s : string) : string :=
  match s with
  | String c s' => if Ascii.eqb c x then TrimLeft x s' else s
  | EmptyString => EmptyString
  end.

(** [TrimRight]: the bytes after the last one that is not in the cutset go. *)
Fixpoint TrimRight (x : ascii) (s : string) : string :=
  match s with
  | EmptyString => EmptyString
  | String c s =>
      match TrimRight x s with
      | EmptyString => if Ascii.eqb c x then EmptyString else String c EmptyString
      | t => String c t
      end
  end.

Definition Trim (x : ascii) (s : string) : string := TrimRight x (TrimLeft x s).

Definition HasPrefix (s p : string) : bool := String.prefix p s.

(** The rest of [s] after the first [n] bytes. *)
Fixpoint skip_bytes (n : nat) (s : string) : string :=
  match n, s with
  | S n, String _ s => skip_bytes n s
  | _, _ => s
  end.

Definition TrimPrefix (s p : string) : string :=
  if HasPrefix s p then skip_bytes (String.length p) s else s.

(** [strings.IndexByte], and what is before that index. *)
Fixpoint cut_at (x : ascii) (s : string) : option (string * string) :=
  match s with
  | EmptyString => None
  | String c s =>
      if Ascii.eqb c x then Some (EmptyString, s)
      else match cut_at x s with Some (a, b) => Some (String c a, b) | None => None end
  end.

Fixpoint Join (sep : string) (l : list string) : string :=
  match l with
  | [] => EmptyString
  | [x] => x
  | x :: l => (x +:+ sep +:+ Join sep l)%string
  end.

Definition starts_with (x : ascii) (s : string) : bool :=
  match s with String c _ => Ascii.eqb c x | EmptyString => false end.

Definition ends_with (x : ascii) (s : string) : bool :=
  match String.get (String.length s - 1) s with Some c => Ascii.eqb c x && negb (String.eqb s EmptyString) | None => false end.

Lemma TrimLeft_no_lead x s : starts_with x (TrimLeft x s) = false.
Proof.
  induction s as [|c s IH]; [done |]. simpl. destruct (Ascii.eqb c x) eqn:Hc; [done | by simpl].
Qed.

Lemma TrimLeft_id x s : starts_with x s = false -> TrimLeft x s = s.
Proof. destruct s as [|c s]; [done |]. simpl. by intros ->. Qed.

Lemma TrimLeft_cons x s : TrimLeft x (String x s) = TrimLeft x s.
Proof. simpl. by rewrite Ascii.eqb_refl. Qed.

Lemma TrimRight_cons_ne x c s : c <> x -> TrimRight x (String c s) = String c (TrimRight x s).
Proof.
  intros Hc. simpl. destruct (TrimRight x s); [| done].
  by rewrite (proj2 (Ascii.eqb_neq c x)).
Qed.

Lemma TrimRight_app x s t : TrimRight x t <> EmptyString -> TrimRight x (s +:+ t) = (s +:+ TrimRight x t)%string.
Proof.
  intros Ht. induction s as [|c s IH]; [done |].
  change (String c s +:+ t)%string with (String c (s +:+ t))%string. cbn [TrimRight]. rewrite IH.
  destruct s; simpl; [| done]. by destruct (TrimRight x t).
Qed.

Lemma TrimRight_idem x s : TrimRight x (TrimRight x s) = TrimRight x s.
Proof.
  induction s as [|c s IH]; [done |]. simpl. destruct (TrimRight x s) as [|d t] eqn:Ht.
  - destruct (Ascii.eqb c x) eqn:Hc; [done |]. simpl. by rewrite Hc.
  - simpl in *. by rewrite IH.
Qed.

Lemma HasPrefix_shorter p q s : HasPrefix s (p +:+ q) = true -> HasPrefix s p = true.
Proof.
  unfold HasPrefix. revert s. induction p as [|c p IH]; intros s H; [by destruct s |]. destruct s as [|d s]; [done |].
  change (String c p +:+ q)%string with (String c (p +:+ q)%string) in H. cbn [String.prefix] in *.
  destruct (ascii_dec c d); [by apply IH | done].
Qed.

Lemma HasPrefix_app p s : HasPrefix (p +:+ s) p = true.
Proof.
  unfold HasPrefix. induction p as [|c p IH]; [by destruct s |].
  change (String c p +:+ s)%string with (String c (p +:+ s)%string). cbn [String.prefix].
  by destruct (Ascii.ascii_dec c c).
Qed.

Lemma HasPrefix_split seg p : HasPrefix seg p = true -> seg = (p +:+ skip_bytes (String.length p) seg)%string.
Proof.
  unfold HasPrefix. revert seg. induction p as [|c p IH]; intros [|d seg]; try done. cbn [String.prefix]. destruct (Ascii.ascii_dec c d) as [->|]; [| done].
  intros H. cbn [String.length skip_bytes]. change ((String d p +:+ skip_bytes (String.length p) seg)%string) with (String d (p +:+ skip_bytes (String.length p) seg)%string).
  by rewrite <- IH.
Qed.

Lemma cut_at_join x a b : has_byte x a = false -> cut_at x (a +:+ String x b)%string = Some (a, b).
Proof.
  induction a as [|c a IH]; [intros _; change ((EmptyString +:+ String x b)%string) with (String x b); cbn [cut_at]; by rewrite Ascii.eqb_refl |].
  cbn [has_byte]. intros [Hc Ha]%orb_false_elim. change ((String c a +:+ String x b)%string) with (String c (a +:+ String x b)%string). cbn [cut_at]. by rewrite Hc, IH.
Qed.

Lemma cut_at_inv x s a b : cut_at x s = Some (a, b) -> s = (a +:+ String x b)%string /\ has_byte x a = false.
Proof.
  revert a. induction s as [|c s IH]; intros a; [done |]. cbn [cut_at]. destruct (Ascii.eqb_spec c x) as [->|Hne]; [by intros [= <- <-] |].
  destruct (cut_at x s) as [[a' b']|]; [| done]. intros [= <- <-]. destruct (IH a' eq_refl) as [-> Ha].
  split; [done |]. cbn [has_byte]. by rewrite Ha, (proj2 (Ascii.eqb_neq _ _) Hne).
Qed.

Lemma TrimPrefix_app p s : TrimPrefix (p +:+ s) p = s.
Proof.
  unfold TrimPrefix. rewrite HasPrefix_app. induction p as [|c p IH]; [by destruct s | exact IH].
Qed.

Lemma str_length_app (s t : string) : String.length (s +:+ t) = (String.length s + String.length t)%nat.
Proof. induction s as [|c s IH]; [done |]. change (String c s +:+ t)%string with (String c (s +:+ t)%string). simpl. by rewrite IH. Qed.

Lemma str_app_assoc s t u : ((s +:+ t) +:+ u = s +:+ (t +:+ u))%string.
Proof.
  induction s as [|c s IH]; [done |].
  change (String c ((s +:+ t) +:+ u) = String c (s +:+ (t +:+ u)))%string. by rewrite IH.
Qed.

Lemma str_app_empty s : (s +:+ "")%string = s.
Proof. induction s as [|c s IH]; [done |]. change ((String c s +:+ "")%string) with (String c (s +:+ "")%string). by rewrite IH. Qed.

