(* ===== verification/Router.v ===== *)
(** Routers: [src/router/router.go] and [src/web/router.go].

    The two routers declare routes in the same way; [leaf] is what [add] does to
    a handler before the middlewares wrap it (nothing, or [withRespond]).  A
    middleware is a function on handlers, which are of any type.

    - [Use], [add], [Any], [Resource] change the [Router] they are called on;
      [Group] runs its callback on a child.
    - [decl] is a program of such calls, [run] executes it on the struct, and
      [routes_of] says which routes it declares. *)

From Stdlib Require Import ZArith Lia Ascii.
From Stdlib Require String.
From stdpp Require Import base strings list numbers.
From S2P Require Import Prelude GoRt GoStrconv GoStrings.

#[local] Set Warnings "-register-all".

Definition slash : ascii := "/".

Section Router.
Context {H : Type} (leaf : H -> H).

Notation Middleware := (H -> H).

Record Route := mkRoute { Method : string; Path : string; Handler : H }.
Record Router := mkRouter { prefix : string; middlewares : list Middleware; routes : list Route }.

Definition New : Router := mkRouter "" [] [].

Definition Use (mw : list Middleware) (r : Router) : Router :=
  mkRouter (prefix r) (middlewares r ++ mw) (routes r).

Definition joinPath (prefix p : string) : string :=
  if String.eqb p "" || String.eqb p "/" then (if String.eqb prefix "" then "/" else prefix)
  else if String.eqb prefix "" then ("/" +:+ TrimLeft slash p)%string
  else (TrimRight slash prefix +:+ "/" +:+ TrimLeft slash p)%string.

(** The loop from the last middleware, [i - 1], down to the first. *)
Fixpoint wrap_loop (mws : list Middleware) (i : nat) (wrapped : H) : H :=
  match i with
  | O => wrapped
  | S i => wrap_loop mws i (match mws !! i with Some m => m wrapped | None => wrapped end)
  end.

Definition wrap (mws : list Middleware) (h : H) : H := wrap_loop mws (length mws) h.

Definition add (method path : string) (h : H) (r : Router) : Router :=
  mkRouter (prefix r) (middlewares r)
    (routes r ++ [mkRoute method (joinPath (prefix r) path) (wrap (middlewares r) (leaf h))]).

Definition any_methods : list string := ["GET"; "POST"; "PUT"; "PATCH"; "DELETE"; "HEAD"; "OPTIONS"]%string.

Definition Any (path : string) (h : H) (r : Router) : Router :=
  fold_left (fun r m => add m path h r) any_methods r.

Record ResourceController := mkController { Index : H; Show : H; Store : H; Update : H; Destroy : H }.

Definition Resource (name : string) (ctrl : ResourceController) (r : Router) : Router :=
  let base := ("/" +:+ Trim slash name)%string in
  let r := add "GET" base (Index ctrl) r in
  let r := add "GET" (base +:+ "/{id}") (Show ctrl) r in
  let r := add "POST" base (Store ctrl) r in
  let r := add "PUT" (base +:+ "/{id}") (Update ctrl) r in
  let r := add "PATCH" (base +:+ "/{id}") (Update ctrl) r in
  add "DELETE" (base +:+ "/{id}") (Destroy ctrl) r.

(** [fn] gets the child, whose middlewares are a copy. *)
Definition Group (pfx : string) (fn : Router -> Router) (r : Router) : Router :=
  let child := fn (mkRouter (joinPath (prefix r) pfx) (middlewares r) []) in
  mkRouter (prefix r) (middlewares r) (routes r ++ routes child).

Definition Routes (r : Router) : list Route := routes r.

(** The calls [Apply] makes, in order. *)
Definition Apply {A} (register : A -> string -> string -> H -> A) (a : A) (r : Router) : A :=
  fold_left (fun a rt => register a (Method rt) (Path rt) (Handler rt)) (routes r) a.

(** The patterns [MountStd] registers. *)
Definition MountStd (r : Router) : list (string * H) :=
  Apply (fun mux method path h => mux ++ [((method +:+ " " +:+ path)%string, h)]) [] r.

Definition Chain (mw : list Middleware) : Middleware := fun next => wrap mw next.

(** ** Programs of declarations *)

#[local] Unset Elimination Schemes.
Inductive decl :=
| DUse (mw : list Middleware)
| DAdd (method path : string) (h : H)
| DAny (path : string) (h : H)
| DResource (name : string) (ctrl : ResourceController)
| DGroup (pfx : string) (body : list decl).
#[local] Set Elimination Schemes.

Fixpoint decl_ind (P : decl -> Prop) (HUse : forall mw, P (DUse mw))
  (HAdd : forall m p h, P (DAdd m p h)) (HAny : forall p h, P (DAny p h)) (HRes : forall n c, P (DResource n c))
  (HGroup : forall pfx body, Forall P body -> P (DGroup pfx body)) (d : decl) : P d :=
  match d with
  | DUse mw => HUse mw
  | DAdd m p h => HAdd m p h
  | DAny p h => HAny p h
  | DResource n c => HRes n c
  | DGroup pfx body =>
      HGroup pfx body ((fix go l : Forall P l :=
        match l with
        | [] => @List.Forall_nil decl P
        | d :: l => @List.Forall_cons decl P d l (decl_ind P HUse HAdd HAny HRes HGroup d) (go l)
        end) body)
  end.

Fixpoint run1 (d : decl) (r : Router) : Router :=
  match d with
  | DUse mw => Use mw r
  | DAdd m p h => add m p h r
  | DAny p h => Any p h r
  | DResource n c => Resource n c r
  | DGroup pfx body => Group pfx (fun g => fold_left (fun g d => run1 d g) body g) r
  end.

Definition run (ds : list decl) (r : Router) : Router := fold_left (fun r d => run1 d r) ds r.

(** ** What a program declares *)

Definition resource_routes (name : string) (c : ResourceController) : list (string * string * H) :=
  let base := ("/" +:+ Trim slash name)%string in
  let item := (base +:+ "/{id}")%string in
  [("GET", base, Index c); ("GET", item, Show c); ("POST", base, Store c);
   ("PUT", item, Update c); ("PATCH", item, Update c); ("DELETE", item, Destroy c)]%string.

Definition leaves (d : decl) : list (string * string * H) :=
  match d with
  | DAdd m p h => [(m, p, h)]
  | DAny p h => map (fun m => (m, p, h)) any_methods
  | DResource n c => resource_routes n c
  | _ => []
  end.

(** A route gets the prefix of the groups around it and the middlewares in scope:
    those used before it on its own router, and those that were in scope where
    the group starts. *)
Definition route_of (pfx : string) (mws : list Middleware) (l : string * string * H) : Route :=
  mkRoute l.1.1 (joinPath pfx l.1.2) (fold_right (fun m h => m h) (leaf l.2) mws).

Fixpoint routes1 (pfx : string) (mws : list Middleware) (d : decl) : list Route :=
  match d with
  | DGroup p body =>
      (fix go mws l :=
        match l with
        | [] => []
        | DUse mw :: l => go (mws ++ mw) l
        | d :: l => routes1 (joinPath pfx p) mws d ++ go mws l
        end) mws body
  | d => map (route_of pfx mws) (leaves d)
  end.

Fixpoint routes_of (pfx : string) (mws : list Middleware) (ds : list decl) : list Route :=
  match ds with
  | [] => []
  | DUse mw :: ds => routes_of pfx (mws ++ mw) ds
  | d :: ds => routes1 pfx mws d ++ routes_of pfx mws ds
  end.

Lemma routes1_group pfx mws p body : routes1 pfx mws (DGroup p body) = routes_of (joinPath pfx p) mws body.
Proof.
  simpl. revert mws. induction body as [|d body IH]; intros mws; [done |]. destruct d; simpl; by rewrite IH.
Qed.

(** The middlewares in scope after a program. *)
Definition uses (ds : list decl) : list Middleware := flat_map (fun d => match d with DUse mw => mw | _ => [] end) ds.

Lemma wrap_loop_eq mws i h : (i <= length mws)%nat -> wrap_loop mws i h = fold_right (fun m h => m h) h (take i mws).
Proof.
  revert h. induction i as [|i IH]; intros h Hi; [done |]. cbn [wrap_loop].
  destruct (lookup_lt_is_Some_2 mws i) as [m Hm]; [lia |]. rewrite Hm, IH by lia.
  rewrite (take_S_r _ _ _ Hm), fold_right_app. done.
Qed.

Lemma wrap_eq mws h : wrap mws h = fold_right (fun m h => m h) h mws.
Proof. unfold wrap. rewrite wrap_loop_eq by done. by rewrite firstn_all. Qed.

Lemma fold_add l r :
  fold_left (fun r (x : string * string * H) => add x.1.1 x.1.2 x.2 r) l r
  = mkRouter (prefix r) (middlewares r) (routes r ++ map (route_of (prefix r) (middlewares r)) l).
Proof.
  revert r. induction l as [|[[m p] h] l IH]; intros r; simpl; [rewrite app_nil_r; by destruct r |].
  rewrite IH. unfold add. simpl. rewrite <- app_assoc. unfold route_of at 2. simpl. by rewrite wrap_eq.
Qed.

Lemma run1_leaf d r :
  (match d with DUse _ | DGroup _ _ => False | _ => True end) ->
  run1 d r = mkRouter (prefix r) (middlewares r) (routes r ++ routes1 (prefix r) (middlewares r) d).
Proof.
  destruct d as [mw|m p h|p h|n c|pfx body]; try done; intros _.
  - exact (fold_add [(m, p, h)] r).
  - cbn [run1 routes1]. rewrite <- fold_add. done.
  - exact (fold_add (resource_routes n c) r).
Qed.

Lemma run_spec ds : Forall (fun d => forall r,
    run1 d r = mkRouter (prefix r) (middlewares r ++ uses [d]) (routes r ++ routes1 (prefix r) (middlewares r) d)) ds ->
  forall r, run ds r = mkRouter (prefix r) (middlewares r ++ uses ds) (routes r ++ routes_of (prefix r) (middlewares r) ds).
Proof.
  induction 1 as [|d ds Hd Hds IH]; intros r.
  - simpl. rewrite !app_nil_r. by destruct r.
  - unfold run in *. cbn [fold_left]. rewrite Hd, IH. cbn [prefix middlewares routes]. unfold uses. simpl.
    rewrite app_nil_r, <- !app_assoc. f_equal. f_equal. destruct d; simpl; try done; by rewrite app_nil_r.
Qed.

Lemma run1_spec d r :
  run1 d r = mkRouter (prefix r) (middlewares r ++ uses [d]) (routes r ++ routes1 (prefix r) (middlewares r) d).
Proof.
  revert r. induction d as [mw|m p h|p h|n c|pfx body IH] using decl_ind; intros r;
    try (rewrite run1_leaf by done; simpl; by rewrite app_nil_r).
  - simpl. unfold Use. by rewrite !app_nil_r.
  - rewrite routes1_group. simpl. rewrite app_nil_r. unfold Group. f_equal.
    pose proof (run_spec body IH (mkRouter (joinPath (prefix r) pfx) (middlewares r) [])) as Hb. unfold run in Hb.
    rewrite Hb. done.
Qed.
End Router.

Definition rooted (s : string) : Prop := starts_with slash s = true.

Lemma joinPath_rooted (p q : string) : p = EmptyString \/ rooted p -> rooted (joinPath p q).
Proof.
  unfold joinPath, rooted. intros Hp. destruct (String.eqb q "" || String.eqb q "/").
  - destruct (String.eqb_spec p ""); [done |]. by destruct Hp.
  - destruct (String.eqb_spec p ""); [done |]. destruct Hp as [|Hp]; [done |].
    destruct p as [|c p]; [done |]. simpl in Hp. apply Ascii.eqb_eq in Hp as ->.
    simpl. by destruct (TrimRight slash p).
Qed.

Section Theorems.
Context {H : Type} (leaf : H -> H).

Lemma routes_of_rooted pfx (mws : list (H -> H)) ds rt :
  pfx = EmptyString \/ rooted pfx -> rt ∈ routes_of leaf pfx mws ds -> rooted (Path rt).
Proof.
  assert (Hall : forall d pfx (mws : list (H -> H)) rt,
    pfx = EmptyString \/ rooted pfx -> rt ∈ routes1 leaf pfx mws d -> rooted (Path rt)).
  2:{ intros Hp. revert mws. induction ds as [|d ds IH]; intros mws Hin; [by apply elem_of_nil in Hin |].
      destruct d; cbn [routes_of] in Hin; try (by apply IH in Hin); apply elem_of_app in Hin as [Hin|Hin];
        first [by apply IH in Hin | eapply Hall; [exact Hp |]; exact Hin]. }
  clear. intros d. induction d as [mw|m p h|p h|n c|p body IH] using decl_ind; intros pfx mws rt Hp Hin;
    try (cbn [routes1] in Hin; apply list_elem_of_fmap in Hin as (l & -> & _); by apply (joinPath_rooted pfx l.1.2)).
  rewrite routes1_group in Hin. assert (Hj : joinPath pfx p = EmptyString \/ rooted (joinPath pfx p)) by (right; by apply joinPath_rooted).
  revert mws Hin. induction IH as [|d body Hd _ IH]; intros mws Hin; [by apply elem_of_nil in Hin |].
  destruct d; cbn [routes_of] in Hin; try (by apply IH in Hin); apply elem_of_app in Hin as [Hin|Hin];
    first [by apply IH in Hin | eapply Hd; [exact Hj |]; exact Hin].
Qed.

(** A program of declarations registers, in the order written, exactly the
    routes it declares: each with the joined prefixes of the groups around it
    before its path, under the method written, and wrapped in the middlewares in
    scope, the first one outermost.  What a group uses or registers changes
    nothing outside it, and every path begins with a slash. *)
Theorem routes_exact (ds : list (decl (H := H))) :
  routes (run leaf ds New) = routes_of leaf "" [] ds
  /\ middlewares (run leaf ds New) = uses ds
  /\ Forall (fun rt => rooted (Path rt)) (routes (run leaf ds New)).
Proof.
  assert (Hr : run leaf ds New = mkRouter "" (uses ds) (routes_of leaf "" [] ds)).
  { rewrite (run_spec leaf ds); [done |]. apply list.Forall_forall. intros d _ r. apply run1_spec. }
  rewrite Hr. split_and!; [done | done |]. apply list.Forall_forall. intros rt Hin.
  apply (routes_of_rooted "" [] ds rt); [by left | done].
Qed.

(** [Chain] is one middleware that stands for all of its parts. *)
Theorem Chain_is_Use (mw : list (H -> H)) (ds : list decl) :
  routes (run leaf (DUse [Chain mw] :: ds) New) = routes (run leaf (DUse mw :: ds) New).
Proof.
  assert (Hgen : forall d pfx (a b c : list (H -> H)), (forall h, fold_right (fun m h => m h) h a = fold_right (fun m h => m h) h b) ->
    routes1 leaf pfx (a ++ c) d = routes1 leaf pfx (b ++ c) d).
  { induction d as [u|m p h|p h|n c0|p body IH] using decl_ind; intros pfx a b c Hab;
      try (cbn [routes1]; apply map_ext; intros l; unfold route_of; by rewrite !fold_right_app, Hab).
    rewrite !routes1_group. revert c. induction IH as [|d body Hd _ IH]; intros c; [done |].
    destruct d; cbn [routes_of]; try (rewrite <- !app_assoc; apply IH); rewrite IH; f_equal; by apply (Hd (joinPath pfx p) a b c). }
  rewrite !(proj1 (routes_exact _)). simpl.
  assert (Hab : forall h, fold_right (fun m h => m h) h [Chain mw] = fold_right (fun m h => m h) h mw) by (intros h; simpl; unfold Chain; apply wrap_eq).
  assert (Hc : forall c, routes_of leaf "" ([Chain mw] ++ c) ds = routes_of leaf "" (mw ++ c) ds).
  { induction ds as [|d ds IH]; intros c; [done |].
    destruct d; cbn [routes_of]; try (rewrite <- ?app_assoc; apply IH); f_equal; first [apply IH | apply (Hgen _ "" [Chain mw] mw c Hab)]. }
  specialize (Hc []). by rewrite !app_nil_r in Hc.
Qed.
End Theorems.
