(* ===== verification/WebContext.v ===== *)
(** Requests of the web package: [src/web/context.go], [src/web/router.go], the
    serving closure of [src/web/app.go] and [Recovery] of
    [src/web/middleware.go].

    - [Response] is what [net/http]'s writer has got: [WriteHeader] counts once
      and fixes the headers, a body without it sends 200.
    - [Ctx] is the [Context]; the helpers ([Status], [JSON], [NoContent],
      [Error], [respond], ...) change it.
    - A [Handler] takes the context to the new context and what it returned, or
      to a panic.  Handlers and middlewares of the application are arbitrary.

    JSON text, the values and the errors of the application are opaque; [kind]
    is what [errors.As] and [errors.Is] find out about an error, [production] is
    the environment variable. *)

From Stdlib Require Import ZArith Lia Ascii.
From Stdlib Require String.
From stdpp Require Import base gmap strings list numbers relations.
From S2P Require Import Prelude GoRt GoStrconv GoStrings Router.

#[local] Set Warnings "-register-all".

(** ** The response writer *)

Notation header := (gmap string (list string)).

Definition header_Set (k v : string) (h : header) : header := <[k := [v]]> h.
Definition header_Add (k v : string) (h : header) : header := <[k := default [] (h !! k) ++ [v]]> h.

Inductive payload (V : Type) :=
| PError (msg : string)
| PFields (msg : string) (fields : list (string * string))
| PValue (v : V)
| PText (s : string).
Arguments PError {V} msg.
Arguments PFields {V} msg fields.
Arguments PValue {V} v.
Arguments PText {V} s.

Record Response (V : Type) := mkResponse {
  headers : header; sent : option (Z * header); body : list (payload V) }.
Arguments mkResponse {V} headers sent body.
Arguments headers {V} _.
Arguments sent {V} _.
Arguments body {V} _.

Definition WriteHeader {V} (code : Z) (w : Response V) : Response V :=
  match sent w with
  | Some _ => w
  | None => mkResponse (headers w) (Some (code, headers w)) (body w)
  end.

Definition Write {V} (b : payload V) (w : Response V) : Response V :=
  let w := WriteHeader 200 w in mkResponse (headers w) (sent w) (body w ++ [b]).

(** What [net/http] does when the handler returned. *)
Definition finish {V} (w : Response V) : Response V := WriteHeader 200 w.

(** ** Requests and contexts *)

(** [body_limit] is the cap [http.MaxBytesReader] puts on the body. *)
Record Request := mkRequest {
  r_method : string; r_header : string -> string; r_cookie : string -> option string;
  r_form : string -> string; r_remote : string; r_body : bool; body_limits : list Z }.

Record Ctx (V S : Type) := mkCtx {
  writer : Response V; request : Request; statusWritten : bool; bodyWritten : bool;
  pendingStatus : Z; store : gmap string S }.
Arguments mkCtx {V S} writer request statusWritten bodyWritten pendingStatus store.
Arguments writer {V S} _.
Arguments request {V S} _.
Arguments statusWritten {V S} _.
Arguments bodyWritten {V S} _.
Arguments pendingStatus {V S} _.
Arguments store {V S} _.

(** What the error chain of an error holds. *)
Inductive error_kind :=
| KValidation (msg : string) (fields : list (string * string))
| KNotFound
| KOther.

Section Web.
Context {V S E : Type} (kind : E -> error_kind) (text : E -> string) (production : bool).

Notation ctx := (Ctx V S).

Definition with_writer (f : Response V -> Response V) (c : ctx) : ctx :=
  mkCtx (f (writer c)) (request c) (statusWritten c) (bodyWritten c) (pendingStatus c) (store c).

Definition with_request (f : Request -> Request) (c : ctx) : ctx :=
  mkCtx (writer c) (f (request c)) (statusWritten c) (bodyWritten c) (pendingStatus c) (store c).

Definition set_header (k v : string) (c : ctx) : ctx :=
  with_writer (fun w => mkResponse (header_Set k v (headers w)) (sent w) (body w)) c.

Definition add_header (k v : string) (c : ctx) : ctx :=
  with_writer (fun w => mkResponse (header_Add k v (headers w)) (sent w) (body w)) c.

Definition newContext (r : Request) : ctx := mkCtx (mkResponse ∅ None []) r false false 0 ∅.

Definition Status (code : Z) (c : ctx) : ctx :=
  if statusWritten c then c
  else mkCtx (writer c) (request c) (statusWritten c) (bodyWritten c) code (store c).

Definition writeHeader (defaultCode : Z) (c : ctx) : ctx :=
  if statusWritten c then c
  else
    let code := if pendingStatus c =? 0 then defaultCode else pendingStatus c in
    mkCtx (WriteHeader code (writer c)) (request c) true (bodyWritten c) (pendingStatus c) (store c).

Definition body_done (c : ctx) : ctx :=
  mkCtx (writer c) (request c) (statusWritten c) true (pendingStatus c) (store c).

Definition write_body (ctype : string) (code : Z) (b : payload V) (c : ctx) : ctx :=
  if bodyWritten c then c
  else body_done (with_writer (Write b) (writeHeader code (set_header "Content-Type" ctype c))).

Definition JSON (code : Z) (b : payload V) (c : ctx) : ctx :=
  write_body "application/json; charset=utf-8" code b c.
Definition String_ (code : Z) (s : string) (c : ctx) : ctx :=
  write_body "text/plain; charset=utf-8" code (PText s) c.
Definition NoContent (c : ctx) : ctx := body_done (writeHeader 204 c).

Definition or_default (msg d : string) : string := if String.eqb msg "" then d else msg.

Definition BadRequest (msg : string) : ctx -> ctx := JSON 400 (PError msg).
Definition NotFound (msg : string) : ctx -> ctx := JSON 404 (PError (or_default msg "not found")).
Definition Unauthorized (msg : string) : ctx -> ctx := JSON 401 (PError (or_default msg "unauthorized")).
Definition Forbidden (msg : string) : ctx -> ctx := JSON 403 (PError (or_default msg "forbidden")).
Definition InternalError (err : E) : ctx -> ctx :=
  JSON 500 (PError (if production then "internal server error" else text err)).
Definition UnprocessableEntity (msg : string) (fields : list (string * string)) : ctx -> ctx :=
  JSON 422 (PFields msg fields).

Definition Error (err : option E) (c : ctx) : bool * ctx :=
  match err with
  | None => (false, c)
  | Some err =>
      (true, match kind err with
             | KValidation msg fields => UnprocessableEntity msg fields c
             | KNotFound => NotFound (text err) c
             | KOther => InternalError err c
             end)
  end.

Definition Set_ (key : string) (v : S) (c : ctx) : ctx :=
  mkCtx (writer c) (request c) (statusWritten c) (bodyWritten c) (pendingStatus c) (<[key := v]> (store c)).
Definition Get (key : string) (c : ctx) : option S := store c !! key.

Definition respond (value : option V) (err : option E) (c : ctx) : ctx :=
  if bodyWritten c then c
  else
    match Error err c with
    | (true, c) => c
    | (false, c) =>
        match value with
        | None => if statusWritten c then c else NoContent c
        | Some v => JSON (if pendingStatus c =? 0 then 200 else pendingStatus c) (PValue v) c
        end
    end.

(** [Created] also returns its argument. *)
Definition WithStatus (code : Z) (c : ctx) : ctx :=
  mkCtx (writer c) (request c) (statusWritten c) (bodyWritten c) code (store c).
Definition Created : ctx -> ctx := WithStatus 201.

(** [Bind], given what the JSON decoder makes of the body under its limit. *)
Definition DefaultBodyLimit : Z := 2 ^ 20.
Definition limit_body (n : Z) (r : Request) : Request :=
  mkRequest (r_method r) (r_header r) (r_cookie r) (r_form r) (r_remote r) (r_body r) (n :: body_limits r).

Definition Bind {D} (empty : E) (decode : Request -> result E D) (c : ctx) : result E D * ctx :=
  if r_body (request c) then
    let c := with_request (limit_body DefaultBodyLimit) c in
    match decode (request c) with
    | Ok d => (Ok d, c)
    | Err e => (Err e, BadRequest (text e) c)
    end
  else (Err empty, BadRequest "empty body" c).

Definition BindAndValidate {D} (empty : E) (decode : Request -> result E D) (Validate : D -> option E) (c : ctx)
  : result E D * ctx :=
  match Bind empty decode c with
  | (Ok d, c) => (match Validate d with Some e => Err e | None => Ok d end, c)
  | r => r
  end.

(** ** Handlers *)

Inductive returned := HReturn (value : option V) (err : option E) | HPanic (recovered : E).

Definition Handler : Type := ctx -> ctx * returned.

Definition withRespond (h : Handler) : Handler := fun c =>
  match h c with
  | (c, HReturn value err) => (respond value err c, HReturn None None)
  | r => r
  end.

Definition Router_ : Type := Router (H := Handler).
Definition newRouter : Router_ := Router.New.
Definition Use_ : list (Handler -> Handler) -> Router_ -> Router_ := Router.Use.
Definition add_ : string -> string -> Handler -> Router_ -> Router_ := Router.add withRespond.
Definition Any_ : string -> Handler -> Router_ -> Router_ := Router.Any withRespond.
Definition Resource_ : string -> Router.ResourceController -> Router_ -> Router_ := Router.Resource withRespond.
Definition Group_ : string -> (Router_ -> Router_) -> Router_ -> Router_ := Router.Group.
Definition Routes_ : Router_ -> list (Router.Route (H := Handler)) := Router.Routes.
Definition joinPath_ : string -> string -> string := Router.joinPath.

(** [Recovery], without its log line; [errInternal] is an error of its own. *)
Definition Recovery (errInternal : E) (next : Handler) : Handler := fun c =>
  match next c with
  | (c, HPanic _) => (respond None (Some errInternal) c, HReturn None None)
  | r => r
  end.

(** The function [Run] mounts for a route: [None] when the handler panicked and
    the server drops the connection. *)
Definition serve (h : Handler) (r : Request) : option (Response V) :=
  match h (newContext r) with
  | (c, HReturn _ _) => Some (finish (writer c))
  | (_, HPanic _) => None
  end.
End Web.
Arguments Handler V S E : clear implicits.
Arguments returned V E : clear implicits.

(** ** Theorems *)

Section Theorems.
Context {V S E : Type} (kind : E -> error_kind) (text : E -> string) (production : bool).

Notation ctx := (Ctx V S).
Notation respond := (respond (V := V) (S := S) kind text production).

(** The calls a handler or a middleware makes on its context. *)
Inductive call : ctx -> ctx -> Prop :=
| c_Status code c : call c (Status code c)
| c_WithStatus code c : call c (WithStatus code c)
| c_JSON code b c : call c (JSON code b c)
| c_String code s c : call c (String_ code s c)
| c_NoContent c : call c (NoContent c)
| c_Error err c : call c (Error kind text production err c).2
| c_respond v err c : call c (respond v err c)
| c_Set key v c : call c (Set_ key v c)
| c_limit n c : call c (with_request (limit_body n) c)
| c_header k v c : call c (set_header k v c)
| c_add_header k v c : call c (add_header k v c).

(** What was sent stays; a body was written once, after its status. *)
Record tidy (c : ctx) : Prop := {
  t_status : statusWritten c = true <-> is_Some (sent (writer c));
  t_body : body (writer c) = [] \/ (statusWritten c = true /\ bodyWritten c = true /\ length (body (writer c)) = 1%nat) }.

Record later (c c' : ctx) : Prop := {
  l_sent : forall x, sent (writer c) = Some x -> sent (writer c') = Some x;
  l_body : bodyWritten c = true -> bodyWritten c' = true /\ body (writer c') = body (writer c);
  l_status : statusWritten c = true -> statusWritten c' = true;
  l_grow : body (writer c) `prefix_of` body (writer c') }.

Lemma later_refl c : later c c.
Proof. split; auto. Qed.

Lemma later_trans c1 c2 c3 : later c1 c2 -> later c2 c3 -> later c1 c3.
Proof.
  intros [S1 B1 T1 G1] [S2 B2 T2 G2]. split; auto.
  - intros [H1 H2]%B1. destruct (B2 H1) as [H3 H4]. split; [done | congruence].
  - by etrans.
Qed.

Definition keeps (f : ctx -> ctx) : Prop := forall c, tidy c -> tidy (f c) /\ later c (f c).

Lemma keeps_writeHeader code : keeps (writeHeader code).
Proof.
  intros c Ht. unfold writeHeader. destruct (statusWritten c) eqn:Hs; [by split; [| apply later_refl] |].
  destruct Ht as [T1 T2]. assert (Hn : sent (writer c) = None).
  { destruct (sent (writer c)) eqn:Hx; [| done]. destruct T1 as [_ T1]. rewrite T1 in Hs by eauto. done. }
  assert (Hb : body (writer c) = []) by (destruct T2 as [|(? & _)]; congruence).
  split; split; simpl; unfold WriteHeader; rewrite ?Hn; simpl; try done; try congruence; eauto.
Qed.

Lemma keeps_write_body ct code b : keeps (write_body ct code b).
Proof.
  intros c Ht. unfold write_body. destruct (bodyWritten c) eqn:Hbw; [by split; [| apply later_refl] |].
  assert (Ht1 : tidy (set_header "Content-Type" ct c)) by (destruct Ht; by split).
  destruct (keeps_writeHeader code _ Ht1) as [Ht2 Hl2]. set (c2 := writeHeader code _) in *.
  assert (Hs2 : statusWritten c2 = true).
  { unfold c2, writeHeader. by destruct (statusWritten (set_header _ _ _)) eqn:?. }
  assert (Hb2 : bodyWritten c2 = false).
  { unfold c2, writeHeader. destruct (statusWritten (set_header _ _ _)); exact Hbw. }
  destruct Ht2 as [T1 T2]. pose proof (proj1 T1 Hs2) as [x Hx].
  assert (He : body (writer c2) = []) by (destruct T2 as [|(_ & ? & _)]; congruence).
  assert (Hw : Write b (writer c2) = mkResponse (headers (writer c2)) (Some x) [b]).
  { unfold Write, WriteHeader. rewrite Hx. cbv zeta. by rewrite Hx, He. }
  destruct Hl2 as [L1 L2 L3 L4]. simpl in L1, L2, L3, L4.
  unfold with_writer, body_done. cbn [writer request statusWritten bodyWritten pendingStatus store]. rewrite Hw.
  split; [split | split]; cbn [writer statusWritten bodyWritten sent body].
  - rewrite Hs2. split; [by intros _; exists x | done].
  - right. by rewrite Hs2.
  - intros y Hy. specialize (L1 y Hy). congruence.
  - congruence.
  - done.
  - rewrite He in L4. apply prefix_nil_inv in L4. rewrite L4. apply prefix_nil.
Qed.

Lemma keeps_NoContent : keeps NoContent.
Proof.
  intros c Ht. unfold NoContent. destruct (keeps_writeHeader 204 c Ht) as [[T1 T2] [L1 L2 L3 L4]].
  assert (Hs : statusWritten (writeHeader 204 c) = true).
  { unfold writeHeader. by destruct (statusWritten c) eqn:?. }
  assert (Hb : body (writer (writeHeader 204 c)) = body (writer c)).
  { unfold writeHeader, WriteHeader. destruct (statusWritten c); [done |]. simpl. by destruct (sent (writer c)). }
  split; [split | split]; simpl; try done; try tauto.
Qed.

Lemma keeps_Error err c : tidy c -> tidy (Error kind text production err c).2 /\ later c (Error kind text production err c).2.
Proof.
  intros Ht. destruct err as [e|]; [| by split; [| apply later_refl]]. simpl.
  destruct (kind e); by apply keeps_write_body.
Qed.

Lemma keeps_call c c' : call c c' -> tidy c -> tidy c' /\ later c c'.
Proof.
  intros Hc Ht. destruct Hc as [code c|code c|code b c|code s c|c|err c|v err c|key v c|n c|k v c|k v c];
    try (by apply keeps_write_body); try (destruct Ht as [T1 T2]; split; [by split | by split]).
  - unfold Status. destruct (statusWritten c) eqn:Hs; [by split; [| apply later_refl] |].
    destruct Ht as [T1 T2]. rewrite Hs in T1, T2. split; [by split |]. split; simpl; try done; congruence.
  - by apply keeps_NoContent.
  - by apply keeps_Error.
  - unfold WebContext.respond. destruct (bodyWritten c); [by split; [| apply later_refl] |].
    pose proof (keeps_Error err c Ht) as He. destruct (Error _ _ _ err c) as [[] c1] eqn:Herr; simpl in He; [done |].
    destruct err; [done |]. injection Herr as <-. destruct v as [v|]; [by apply keeps_write_body |].
    destruct (statusWritten c); [done | by apply keeps_NoContent].
Qed.

Lemma tidy_new (r : Request) : tidy (newContext (V := V) (S := S) r).
Proof. split; [| by left]. simpl. split; [done | by intros [? ?]]. Qed.

(** The status and the payload of an error. *)
Definition error_response (e : E) : Z * payload V :=
  match kind e with
  | KValidation msg fields => (422, PFields msg fields)
  | KNotFound => (404, PError (or_default (text e) "not found"))
  | KOther => (500, PError (if production then "internal server error" else text e))
  end.

(** The status a response of its own status [d] gets. *)
Definition status_of (c : ctx) (d : Z) : Z := if pendingStatus c =? 0 then d else pendingStatus c.

Definition json_headers (c : ctx) : header := header_Set "Content-Type" "application/json; charset=utf-8" (headers (writer c)).

Lemma fresh_write (c : ctx) code b :
  tidy c -> bodyWritten c = false -> statusWritten c = false ->
  let c' := JSON code b c in
  sent (writer c') = Some (status_of c code, json_headers c) /\ body (writer c') = [b].
Proof.
  intros [T1 T2] Hb Hs. assert (Hn : sent (writer c) = None).
  { destruct (sent (writer c)) eqn:Hx; [| done]. destruct T1 as [_ T1]. rewrite T1 in Hs by eauto. done. }
  assert (He : body (writer c) = []) by (destruct T2 as [|(? & _)]; congruence).
  unfold JSON, write_body, writeHeader, status_of. rewrite Hb. simpl. rewrite Hs. simpl.
  unfold WriteHeader. simpl. rewrite Hn. simpl. by rewrite He.
Qed.

(** What a handler returned decides the response if it wrote nothing itself:
    an error gives its own status and payload, a value is sent as JSON with 200,
    nothing gives 204 without a body.  A status the handler asked for replaces
    each of these, that of an error too. *)
Theorem respond_exact (v : option V) (err : option E) (c : ctx) :
  tidy c -> bodyWritten c = false -> statusWritten c = false ->
  let w := writer (respond v err c) in
  match err, v with
  | Some e, _ => sent w = Some (status_of c (error_response e).1, json_headers c) /\ body w = [(error_response e).2]
  | None, Some v => sent w = Some (status_of c 200, json_headers c) /\ body w = [PValue v]
  | None, None => sent w = Some (status_of c 204, headers (writer c)) /\ body w = []
  end.
Proof.
  intros Ht Hb Hs. unfold WebContext.respond, Error. rewrite Hb. destruct err as [e|].
  - unfold error_response. destruct (kind e); by apply fresh_write.
  - destruct v as [v|].
    + destruct (fresh_write c (status_of c 200) (PValue v) Ht Hb Hs) as [H1 H2]. unfold status_of in H1.
      split; [| exact H2]. unfold status_of. by destruct (pendingStatus c =? 0) eqn:Hp.
    + rewrite Hs. destruct Ht as [T1 T2]. assert (Hn : sent (writer c) = None).
      { destruct (sent (writer c)) eqn:Hx; [| done]. destruct T1 as [_ T1]. rewrite T1 in Hs by eauto. done. }
      unfold NoContent, writeHeader, status_of. rewrite Hs. simpl. unfold WriteHeader. rewrite Hn. simpl.
      split; [done |]. destruct T2 as [|(? & _)]; congruence.
Qed.

(** Whatever sequence of calls the handlers and middlewares of a request
    make on its context, at most one body is sent, never before a status, and a
    status or a body once sent is not replaced. *)
Theorem one_response (r : Request) (c c' : ctx) :
  rtc call (newContext r) c -> rtc call c c' ->
  (body (writer c) = [] \/ (exists code h b, sent (writer c) = Some (code, h) /\ body (writer c) = [b]))
  /\ (forall x, sent (writer c) = Some x -> sent (writer c') = Some x)
  /\ body (writer c) `prefix_of` body (writer c').
Proof.
  intros Hc Hc'. assert (Ht : tidy c).
  { revert Hc. apply rtc_invariant; [apply tidy_new |]. intros c1 c2 Ht Hs. by apply (keeps_call c1 c2). }
  assert (Hl : tidy c' /\ later c c').
  { revert Hc'. apply (rtc_invariant call (fun c2 => tidy c2 /\ later c c2)); [by split; [| apply later_refl] |].
    intros c1 c2 [Ht1 Hl1] Hs. destruct (keeps_call c1 c2 Hs Ht1) as [Ht2 Hl2]. split; [done | by eapply later_trans]. }
  destruct Hl as [_ [L1 _ _ L4]]. split_and!; [| done | done].
  destruct Ht as [T1 [T2|(Hs & _ & Hlen)]]; [by left | right]. apply T1 in Hs as [[code h] Hx].
  destruct (body (writer c)) as [|b [|]] eqn:Hb; try done. by exists code, h, b.
Qed.

(** Behind [Recovery] a request is answered whatever its handlers do; if one
    panics before anything was sent, the answer is that of the internal error,
    and nothing of the value it panicked with. *)
Theorem Recovery_answers (errInternal : E) (next : Handler V S E) (r : Request) :
  exists w, serve (Recovery kind text production errInternal next) r = Some w /\ is_Some (sent w)
    /\ forall c p, next (newContext r) = (c, HPanic p) -> tidy c -> bodyWritten c = false -> statusWritten c = false ->
         sent w = Some (status_of c (error_response errInternal).1, json_headers c)
         /\ body w = [(error_response errInternal).2].
Proof.
  unfold serve, Recovery. destruct (next (newContext r)) as [c [v e|p]] eqn:Hn.
  - exists (finish (writer c)). split_and!; [done | |].
    + unfold finish, WriteHeader. by destruct (sent (writer c)) eqn:Hs; simpl; rewrite ?Hs.
    + intros c0 p [= -> ?].
  - exists (finish (writer (respond None (Some errInternal) c))). split_and!; [done | |].
    + unfold finish, WriteHeader. by destruct (sent (writer _)) eqn:Hs; simpl; rewrite ?Hs.
    + intros c0 p0 [= <- <-] Ht Hb Hs. destruct (respond_exact None (Some errInternal) c Ht Hb Hs) as [H1 H2].
      unfold finish, WriteHeader. rewrite H1. by split.
Qed.

(** A middleware that refuses a request by returning an error, as handlers do,
    sends an empty 200: only what the innermost handler returns is turned into a
    response. *)
Theorem middleware_error_dropped (v : option V) (e : E) (next : Handler V S E) (r : Request) :
  let refuse : Handler V S E -> Handler V S E := fun _ c => (c, HReturn v (Some e)) in
  exists w, serve (refuse (withRespond kind text production next)) r = Some w
    /\ sent w = Some (200, ∅) /\ body w = [].
Proof. by exists (finish (mkResponse ∅ None [])). Qed.
End Theorems.

(** A handler that returns [Created] next to an error sends the error with 201. *)
Theorem created_hides_error {V S E : Type} (kind : E -> error_kind) (text : E -> string) (production : bool)
    (e : E) (v : option V) (r : Request) :
  kind e = KNotFound ->
  exists w, serve (withRespond kind text production (fun c : Ctx V S => (Created c, HReturn v (Some e)))) r = Some w
    /\ exists h, sent w = Some (201, h) /\ body w = [PError (or_default (text e) "not found")].
Proof.
  intros Hk. unfold serve, withRespond. eexists. split; [done |].
  pose proof (respond_exact kind text production v (Some e) (Created (newContext (V := V) (S := S) r))) as H.
  destruct H as [H1 H2]; [| done | done |].
  { destruct (tidy_new (V := V) (S := S) r) as [T1 T2]. by split. }
  unfold error_response in *. rewrite Hk in *. simpl in H1, H2.
  exists (json_headers (newContext (V := V) (S := S) r)). unfold finish, WriteHeader. rewrite H1. by split.
Qed.

(** *** Witnesses *)

Definition sample_request : Request :=
  mkRequest "GET" (fun _ => ""%string) (fun _ => None) (fun _ => ""%string) "10.0.0.1:80" false [].

Lemma respond_exact_witness :
  sent (writer (respond (V := nat) (S := nat) (fun _ : string => KNotFound) (fun e => e) true None (Some "no"%string)
                  (newContext sample_request)))
  = Some (404, {[ "Content-Type"%string := ["application/json; charset=utf-8"%string] ]}).
Proof.
  apply (respond_exact (V := nat) (S := nat) (fun _ : string => KNotFound) (fun e => e) true None (Some "no"%string)
    (newContext sample_request)); [apply tidy_new | done | done].
Defined.

Definition sample_ctx : Ctx nat nat := JSON 404 (PError "no") (newContext sample_request).

Lemma one_response_witness :
  (body (writer sample_ctx) = []
   \/ exists code h b, sent (writer sample_ctx) = Some (code, h) /\ body (writer sample_ctx) = [b])
  /\ (forall x, sent (writer sample_ctx) = Some x -> sent (writer (NoContent sample_ctx)) = Some x)
  /\ body (writer sample_ctx) `prefix_of` body (writer (NoContent sample_ctx)).
Proof.
  apply (one_response (fun _ : string => KOther) (fun e => e) true sample_request).
  - apply rtc_once. apply c_JSON.
  - apply rtc_once. apply c_NoContent.
Defined.

Lemma created_hides_error_witness :
  exists w, serve (withRespond (V := nat) (S := nat) (fun _ : string => KNotFound) (fun e => e) true
      (fun c => (Created c, HReturn None (Some "gone"%string)))) sample_request = Some w
    /\ exists h, sent w = Some (201, h) /\ body w = [PError "gone"].
Proof. exact (created_hides_error (fun _ => KNotFound) (fun e => e) true "gone"%string None sample_request eq_refl). Defined.
