(* ===== verification/WebSecurity.v ===== *)
(** Security middlewares of the web package: [src/web/security.go], and [CORS],
    [Auth] and [AuthJWT] of [src/web/middleware.go].

    - [rateLimiter] with [allow] and [gc]; [limiter_run] is a run of the critical
      sections in the order of the mutex, with the time each call read.
    - The middlewares are functions on handlers of [WebContext].  What a request
      of a middleware draws at random is an argument ([fresh]); the text of a
      cookie, the IP of an address and the claims of a token come from
      [net/http], [net] and the token manager. *)

From Stdlib Require Import ZArith Lia Ascii.
From Stdlib Require String.
From stdpp Require Import base gmap strings list numbers.
From S2P Require Import Prelude GoRt GoFloat GoStrconv GoUtf8 GoStrings Router WebContext.

#[local] Set Warnings "-register-all".

(** ** The rate limiter *)

Record rateBucket := mkBucket { count : Z; reset : Time }.
Record rateLimiter := mkLimiter { limit : Z; window : Duration; hits : gmap string rateBucket }.

Definition newRateLimiter (limit : Z) (window : Duration) : rateLimiter := mkLimiter limit window ∅.

Definition with_hits (f : gmap string rateBucket -> gmap string rateBucket) (rl : rateLimiter) : rateLimiter :=
  mkLimiter (limit rl) (window rl) (f (hits rl)).

(** [until] is the time [time.Until] reads. *)
Definition allow (now until : Time) (key : string) (rl : rateLimiter) : bool * Duration * rateLimiter :=
  let fresh := with_hits (<[key := mkBucket 1 (time_Add now (window rl))]>) rl in
  match hits rl !! key with
  | None => (true, 0, fresh)
  | Some b =>
      if After now (reset b) then (true, 0, fresh)
      else if limit rl <=? count b then (false, time_Sub (reset b) until, rl)
      else (true, 0, with_hits (<[key := mkBucket (i64 (count b + 1)) (reset b)]>) rl)
  end.

(** One tick of [gc]. *)
Definition gc (now : Time) (rl : rateLimiter) : rateLimiter :=
  with_hits (base.filter (fun kb => After now (reset kb.2) = false)) rl.

(** [Duration.Seconds] and the conversion to [int]. *)
Definition Seconds (d : Duration) : float64 :=
  fadd (float_of_Z (Z.quot d Second)) (fdiv (float_of_Z (Z.rem d Second)) (float_of_Z 1000000000)).

Definition retry_after (undef : float64 -> Z) (d : Duration) : string := FormatInt (int64_of_float undef (Seconds d)).

(** ** Client addresses *)

(** [host] is what [net.SplitHostPort] makes of an address. *)
Definition clientIP (host : string -> option string) (r : Request) : string :=
  let xff := r_header r "X-Forwarded-For" in
  if negb (String.eqb xff "") then
    match cut_at "," xff with
    | Some (first, _) => if String.eqb first "" then TrimSpace xff else TrimSpace first
    | None => TrimSpace xff
    end
  else
    let xr := r_header r "X-Real-IP" in
    if negb (String.eqb xr "") then TrimSpace xr
    else match host (r_remote r) with None => r_remote r | Some h => h end.

Section Middlewares.
Context {V S E : Type}.

Notation ctx := (Ctx V S).
Notation Handler := (WebContext.Handler V S E).

(** ** Headers *)

Record SecurityHeadersConfig := mkSecurityHeaders {
  ContentSecurityPolicy : string; FrameOptions : string; ReferrerPolicy : string;
  PermissionsPolicy : string; HSTS : string; DisableNoSniff : bool }.

Definition defaultSecurityHeaders : SecurityHeadersConfig :=
  mkSecurityHeaders "default-src 'self'" "DENY" "strict-origin-when-cross-origin"
    "camera=(), microphone=(), geolocation=()" "" false.

Definition set_unless_empty (k v : string) (c : ctx) : ctx := if String.eqb v "" then c else set_header k v c.

Definition SecurityHeaders (cfg : option SecurityHeadersConfig) (next : Handler) : Handler := fun c =>
  let s := default defaultSecurityHeaders cfg in
  let c := set_unless_empty "Content-Security-Policy" (ContentSecurityPolicy s) c in
  let c := set_unless_empty "X-Frame-Options" (FrameOptions s) c in
  let c := set_unless_empty "Referrer-Policy" (ReferrerPolicy s) c in
  let c := set_unless_empty "Permissions-Policy" (PermissionsPolicy s) c in
  let c := set_unless_empty "Strict-Transport-Security" (HSTS s) c in
  next (if DisableNoSniff s then c else set_header "X-Content-Type-Options" "nosniff" c).

Definition BodyLimit (n : Z) (next : Handler) : Handler := fun c =>
  next (if (0 <? n) && r_body (request c) then with_request (limit_body n) c else c).

(** [of_string] is a string as a value of the context's store. *)
Definition RequestID (of_string : string -> S) (fresh : string) (next : Handler) : Handler := fun c =>
  let id := r_header (request c) "X-Request-ID" in
  let n := String.length id in
  let id := if (n =? 0)%nat || (128 <? n)%nat then fresh else id in
  next (set_header "X-Request-ID" id (Set_ "request_id" (of_string id) c)).

(** ** CSRF *)

Record CSRFConfig := mkCSRF {
  CookieName : string; HeaderName : string; FormField : string; Secure : bool; SameSite : Z; MaxAge : Z }.

(** [http.SameSiteLaxMode] is 2. *)
Definition withDefaults (c : CSRFConfig) : CSRFConfig :=
  mkCSRF (or_default (CookieName c) "csrf_token") (or_default (HeaderName c) "X-CSRF-Token")
    (or_default (FormField c) "_csrf") (Secure c)
    (if SameSite c =? 0 then 2 else SameSite c) (if MaxAge c =? 0 then 7200 else MaxAge c).

Definition csrf_config (cfg : option CSRFConfig) : CSRFConfig :=
  withDefaults (default (mkCSRF "" "" "" true 0 0) cfg).

Definition safe_method (m : string) : bool := String.eqb m "GET" || String.eqb m "HEAD" || String.eqb m "OPTIONS".

(** The token of a request, and the context with the cookie set where it had
    none; [cookie_text] is the text of a cookie. *)
Definition csrf_token (cookie_text : CSRFConfig -> string -> string) (cfg : CSRFConfig) (fresh : string) (c : ctx)
  : string * ctx :=
  match r_cookie (request c) (CookieName cfg) with
  | Some v =>
      if String.eqb v "" then (fresh, add_header "Set-Cookie" (cookie_text cfg fresh) c) else (v, c)
  | None => (fresh, add_header "Set-Cookie" (cookie_text cfg fresh) c)
  end.

Definition CSRF (cookie_text : CSRFConfig -> string -> string) (opt : option CSRFConfig) (fresh : string) (next : Handler) : Handler :=
  fun c =>
  let cfg := csrf_config opt in
  let '(token, c) := csrf_token cookie_text cfg fresh c in
  if safe_method (r_method (request c)) then next c
  else
    let provided := r_header (request c) (HeaderName cfg) in
    let provided := if String.eqb provided "" then r_form (request c) (FormField cfg) else provided in
    if String.eqb provided "" || negb (String.eqb provided token)
    then (Forbidden "invalid csrf token" c, HReturn None None)
    else next c.

(** ** Rate limiting *)

(** The middleware on the shared limiter: the limiter changes before [next] runs. *)
Definition RateLimit (host : string -> option string) (undef : float64 -> Z) (now until : Time)
    (next : Handler) (rl : rateLimiter) (c : ctx) : rateLimiter * (ctx * returned V E) :=
  let '(allowed, retryAfter, rl) := allow now until (clientIP host (request c)) rl in
  (rl, if allowed then next c
       else (JSON 429 (PError "rate limit exceeded") (set_header "Retry-After" (retry_after undef retryAfter) c),
             HReturn None None)).

(** The constructor panics ([None]) on a limit or a window that is not positive. *)
Definition NewRateLimit (lim : Z) (win : Duration) : option rateLimiter :=
  if (lim <=? 0) || (win <=? 0) then None else Some (newRateLimiter lim win).

(** ** CORS *)

Record CORSConfig := mkCORS {
  AllowedOrigins : list string; AllowedMethods : list string; AllowedHeaders : list string;
  ExposedHeaders : list string; AllowCredentials : bool; MaxAgeSeconds : Z }.

Definition allow_all (cfg : CORSConfig) : bool := existsb (fun o => String.eqb o "*") (AllowedOrigins cfg).

(** The headers of a matched origin. *)
Definition cors_matched (cfg : CORSConfig) (c : ctx) : ctx :=
  let methods := match AllowedMethods cfg with
                 | [] => ["GET"; "POST"; "PUT"; "PATCH"; "DELETE"; "OPTIONS"]%string | l => l end in
  let reflectHeaders := match AllowedHeaders cfg with [] => true | _ => false end in
  let allowed := match AllowedHeaders cfg with
                 | [] => ["Content-Type"; "Authorization"; "X-CSRF-Token"; "X-Request-ID"]%string | l => l end in
  let exposed := Join ", " (ExposedHeaders cfg) in
  let reqHeaders := r_header (request c) "Access-Control-Request-Headers" in
  let c := set_header "Access-Control-Allow-Methods" (Join ", " methods) c in
  let c := if negb (String.eqb reqHeaders "") && reflectHeaders
           then set_header "Access-Control-Allow-Headers" reqHeaders c
           else set_header "Access-Control-Allow-Headers" (Join ", " allowed) c in
  let c := if String.eqb exposed "" then c else set_header "Access-Control-Expose-Headers" exposed c in
  let c := if AllowCredentials cfg then set_header "Access-Control-Allow-Credentials" "true" c else c in
  set_header "Access-Control-Max-Age" (FormatInt (if MaxAgeSeconds cfg =? 0 then 600 else MaxAgeSeconds cfg)) c.

Definition cors_headers (cfg : CORSConfig) (c : ctx) : ctx :=
  let origin := r_header (request c) "Origin" in
  if allow_all cfg then cors_matched cfg (set_header "Access-Control-Allow-Origin" "*" c)
  else if negb (String.eqb origin "") && bool_decide (origin ∈ AllowedOrigins cfg)
  then cors_matched cfg (add_header "Vary" "Origin" (set_header "Access-Control-Allow-Origin" origin c))
  else c.

(** [None]: the constructor panics. *)
Definition CORSWithConfig (cfg : CORSConfig) : option (Handler -> Handler) :=
  if allow_all cfg && AllowCredentials cfg then None
  else Some (fun next c =>
    let c := cors_headers cfg c in
    if String.eqb (r_method (request c)) "OPTIONS" then (NoContent c, HReturn None None) else next c).

Definition CORS (allowedOrigins : list string) : option (Handler -> Handler) :=
  CORSWithConfig (mkCORS allowedOrigins [] [] [] false 0).

(** ** Bearer tokens *)

Definition Auth (of_string : string -> S) (next : Handler) : Handler := fun c =>
  let h := r_header (request c) "Authorization" in
  if HasPrefix h "Bearer " then next (Set_ "auth_token" (of_string (TrimPrefix h "Bearer ")) c)
  else (Unauthorized "missing bearer token" c, HReturn None None).

(** [parse] is [Manager.Parse], with the three values it puts in the store. *)
Definition AuthJWT (parse : string -> result E (S * S * S)) (next : Handler) : Handler := fun c =>
  let h := r_header (request c) "Authorization" in
  if HasPrefix h "Bearer " then
    match parse (TrimPrefix h "Bearer ") with
    | Err _ => (Unauthorized "invalid or expired token" c, HReturn None None)
    | Ok (user, role, claims) =>
        next (Set_ "auth_claims" claims (Set_ "auth_role" role (Set_ "auth_user_id" user c)))
    end
  else (Unauthorized "missing bearer token" c, HReturn None None).
End Middlewares.

(** ** Runs of the limiter *)

(** The calls in the order of the mutex, each with the time it read; the result
    lists, latest first, the keys and times of the calls that were allowed. *)
Inductive limiter_op := LAllow (key : string) (now until : Time) | LGc (now : Time).

Definition op_time (o : limiter_op) : Time := match o with LAllow _ now _ => now | LGc now => now end.

Definition limiter_step (st : rateLimiter * list (string * Time)) (o : limiter_op) : rateLimiter * list (string * Time) :=
  let '(rl, allowed) := st in
  match o with
  | LAllow key now until =>
      let '(ok, _, rl) := allow now until key rl in (rl, if ok then (key, now) :: allowed else allowed)
  | LGc now => (gc now rl, allowed)
  end.

Definition limiter_run (rl : rateLimiter) (ops : list limiter_op) : rateLimiter * list (string * Time) :=
  fold_left limiter_step ops (rl, []).

(** The clock does not go back from one critical section to the next. *)
Fixpoint nondecreasing (t : Time) (ops : list limiter_op) : Prop :=
  match ops with
  | [] => True
  | o :: ops => t <= op_time o /\ nondecreasing (op_time o) ops
  end.

(** How many calls for a key were allowed in a closed interval. *)
Definition in_interval (key : string) (a b : Time) (kt : string * Time) : bool :=
  bool_decide (kt.1 = key) && (a <=? kt.2) && (kt.2 <=? b).

Definition allowed_between (key : string) (a b : Time) (l : list (string * Time)) : Z :=
  Z.of_nat (length (List.filter (in_interval key a b) l)).

(** ** Counting allowed calls *)

Definition times (key : string) (l : list (string * Time)) : list Z :=
  map snd (List.filter (fun kt => bool_decide (kt.1 = key)) l).

Definition between (a b : Z) (ts : list Z) : Z :=
  Z.of_nat (length (List.filter (fun x => (a <=? x) && (x <=? b)) ts)).

Lemma allowed_between_times key a b l : allowed_between key a b l = between a b (times key l).
Proof.
  unfold allowed_between, between, times. f_equal. induction l as [|[k t] l IH]; [done |]. simpl.
  unfold in_interval at 1. simpl. case_bool_decide; simpl; [| done]. destruct (_ && _); simpl; by rewrite IH.
Qed.

Lemma between_app a b l1 l2 : between a b (l1 ++ l2) = between a b l1 + between a b l2.
Proof. unfold between. rewrite List.filter_app, length_app. by rewrite Nat2Z.inj_add. Qed.

Lemma between_le a b l : 0 <= between a b l <= Z.of_nat (length l).
Proof. unfold between. pose proof (filter_length_le (fun x => (a <=? x) && (x <=? b)) l). lia. Qed.

Lemma between_none a b l : Forall (fun x => x < a \/ b < x) l -> between a b l = 0.
Proof.
  unfold between. induction 1 as [|x l Hx _ IH]; [done |]. simpl.
  destruct (Z.leb_spec a x), (Z.leb_spec x b); simpl; (done || lia).
Qed.

Lemma between_some a b l : between a b l <> 0 -> exists x, x ∈ l /\ a <= x <= b.
Proof.
  intros H. destruct (List.filter (fun x => (a <=? x) && (x <=? b)) l) as [|x r] eqn:Hf.
  - unfold between in H. by rewrite Hf in H.
  - exists x. assert (Hin : In x (x :: r)) by by left. rewrite <- Hf in Hin.
    apply filter_In in Hin as [Hin Hx]. apply andb_prop in Hx as [H1 H2]. rewrite list_elem_of_In. split; [done | lia].
Qed.

(** The last two windows of a key. *)
Record windows (L : Z) (W : Duration) (now : Time) (b : option rateBucket) (ts : list Z)
    (old prev cur : list Z) (s1 s2 : Time) : Prop := {
  w_split : ts = cur ++ prev ++ old;
  w_prev : Z.of_nat (length prev) <= L;
  w_cur : Z.of_nat (length cur) <= L;
  w_old : Forall (fun x => x < s1) old;
  w_in1 : Forall (fun x => s1 <= x <= s1 + W) prev;
  w_in2 : Forall (fun x => s2 <= x <= s2 + W) cur;
  w_apart : s1 + W < s2;
  w_now : s2 <= now;
  w_before : forall t, between t (t + W) (prev ++ old) <= 2 * L;
  w_bucket : match b with
             | Some b => reset b = s2 + W /\ count b = Z.of_nat (length cur) /\ 1 <= count b
             | None => s2 + W < now
             end }.

Lemma windows_bound L W now b ts old prev cur s1 s2 t :
  0 < W -> windows L W now b ts old prev cur s1 s2 -> between t (t + W) ts <= 2 * L.
Proof.
  intros HW [-> Hp Hc Ho H1 H2 Hap Hnow Hb _]. rewrite between_app.
  destruct (decide (between t (t + W) cur = 0)) as [->|Hne]; [specialize (Hb t); lia |].
  apply between_some in Hne as (x & Hx & Ht). pose proof (proj1 (list.Forall_forall _ _) H2 x Hx) as Hx2. simpl in Hx2.
  rewrite between_app, (between_none t (t + W) old).
  - pose proof (between_le t (t + W) cur). pose proof (between_le t (t + W) prev). lia.
  - eapply list.Forall_impl; [exact Ho |]. simpl. lia.
Qed.

(** A call after the window opens the next one. *)
Lemma windows_next L W now b ts old prev cur s1 s2 t :
  0 < W -> 0 < L -> windows L W now b ts old prev cur s1 s2 -> s2 + W < t ->
  windows L W t (Some (mkBucket 1 (t + W))) (t :: ts) (prev ++ old) cur [t] s2 t.
Proof.
  intros HW HL Hw Ht. pose proof (windows_bound L W now b ts old prev cur s1 s2) as Hbound.
  pose proof Hw as [-> Hp Hc Ho H1 H2 Hap Hnow Hb _]. split; simpl; try done; try lia.
  - apply list.Forall_app. split; [eapply list.Forall_impl; [exact H1 |] | eapply list.Forall_impl; [exact Ho |]]; simpl; lia.
  - constructor; [lia | constructor].
  - intros u. by apply Hbound.
Qed.

Lemma windows_later L W now now' b ts old prev cur s1 s2 :
  now <= now' -> windows L W now b ts old prev cur s1 s2 -> windows L W now' b ts old prev cur s1 s2.
Proof. intros Hn [H1 H2 H3 H4 H5 H6 H7 H8 H9 H10]. split; try done; [lia |]. destruct b; [done | lia]. Qed.

Definition key_ok (key : string) (now : Time) (st : rateLimiter * list (string * Time)) : Prop :=
  exists old prev cur s1 s2,
    windows (limit st.1) (window st.1) now (hits st.1 !! key) (times key st.2) old prev cur s1 s2.

Lemma times_cons key k t l : times key ((k, t) :: l) = if bool_decide (k = key) then t :: times key l else times key l.
Proof. unfold times. simpl. by case_bool_decide. Qed.

Lemma limiter_step_params st o : limit (limiter_step st o).1 = limit st.1 /\ window (limiter_step st o).1 = window st.1.
Proof.
  destruct st as [rl al], o as [k now until|now]; [| done]. simpl. unfold allow.
  destruct (hits rl !! k) as [b|]; [| done]. destruct (After now (reset b)); [done |]. by destruct (limit rl <=? count b).
Qed.

Lemma lookup_gc now rl key :
  base.filter (fun kb : string * rateBucket => After now (reset kb.2) = false) (hits rl) !! key
  = match hits rl !! key with Some b => if After now (reset b) then None else Some b | None => None end.
Proof.
  rewrite map_lookup_filter. destruct (hits rl !! key) as [b|]; [| done]. simpl.
  case_guard as Hg; simpl in Hg; destruct (After now (reset b)); done.
Qed.

Lemma key_ok_step key now st o :
  0 < window st.1 -> 0 < limit st.1 <= max_i64 -> now <= op_time o -> key_ok key now st ->
  key_ok key (op_time o) (limiter_step st o).
Proof.
  intros HW HL Hn (old & prev & cur & s1 & s2 & Hw). destruct st as [rl al]. simpl in *.
  apply (windows_later _ _ _ (op_time o)) in Hw; [| done].
  destruct o as [k t until|t]; simpl in *.
  2:{ exists old, prev, cur, s1, s2. simpl. destruct Hw as [H1 H2 H3 H4 H5 H6 H7 H7' H8 H9]. split; try done.
      rewrite lookup_gc. destruct (hits rl !! key) as [b|]; [| done]. destruct H9 as (R1 & R2 & R3).
      unfold After. rewrite R1. by destruct (Z.ltb_spec (s2 + window rl) t). }
  destruct (decide (k = key)) as [->|Hne].
  - unfold allow. destruct (hits rl !! key) as [b|] eqn:Hb.
    + pose proof Hw as [H1 H2 H3 H4 H5 H6 H7 H7' H8 (R1 & R2 & R3)].
      unfold After. destruct (Z.ltb_spec (reset b) t) as [Hlt|Hge].
      * exists (prev ++ old), cur, [t], s2, t. simpl. rewrite times_cons, bool_decide_true by done.
        rewrite lookup_insert, decide_True by done. eapply windows_next; [done | lia | exact Hw | lia].
      * destruct (Z.leb_spec (limit rl) (count b)) as [Hfull|Hroom]; simpl.
        -- exists old, prev, cur, s1, s2. simpl. by rewrite Hb.
        -- exists old, prev, (t :: cur), s1, s2. simpl. rewrite times_cons, bool_decide_true by done.
           rewrite lookup_insert, decide_True by done. split; simpl; try done.
           ++ by rewrite H1.
           ++ lia.
           ++ constructor; [lia | done].
           ++ rewrite i64_small by (unfold min_i64, max_i64 in *; lia). lia.
    + exists (prev ++ old), cur, [t], s2, t. simpl. rewrite times_cons, bool_decide_true by done.
      rewrite lookup_insert, decide_True by done. pose proof (w_bucket _ _ _ _ _ _ _ _ _ _ Hw) as H9. simpl in H9.
      eapply windows_next; [done | lia | exact Hw | lia].
  - exists old, prev, cur, s1, s2.
    assert (Hh : hits (allow t until k rl).2 !! key = hits rl !! key).
    { unfold allow. destruct (hits rl !! k) as [b|]; [| simpl; by rewrite lookup_insert_ne].
      destruct (After t (reset b)); [simpl; by rewrite lookup_insert_ne |].
      destruct (limit rl <=? count b); [done |]. simpl. by rewrite lookup_insert_ne. }
    destruct (allow t until k rl) as [[ok d] rl'] eqn:Ha. simpl in *. rewrite Hh.
    pose proof (limiter_step_params (rl, al) (LAllow k t until)) as [P1 P2]. simpl in P1, P2. rewrite Ha in P1, P2. simpl in P1, P2.
    rewrite P1, P2. destruct ok; [| done]. rewrite times_cons. by rewrite bool_decide_false by done.
Qed.

Lemma limiter_run_ok key ops : forall now st,
  0 < window st.1 -> 0 < limit st.1 <= max_i64 -> nondecreasing now ops -> key_ok key now st ->
  exists now', key_ok key now' (fold_left limiter_step ops st)
    /\ limit (fold_left limiter_step ops st).1 = limit st.1 /\ window (fold_left limiter_step ops st).1 = window st.1.
Proof.
  induction ops as [|o ops IH]; intros now st HW HL Hn Hk; [by exists now |]. destruct Hn as [Hn Hrest]. simpl.
  destruct (limiter_step_params st o) as [P1 P2].
  destruct (IH (op_time o) (limiter_step st o)) as (now' & K & Q1 & Q2); [by rewrite P2 | by rewrite P1 | done | by apply (key_ok_step key now) |].
  exists now'. split; [done |]. by rewrite Q1, Q2, P1, P2.
Qed.

(** ** Theorems *)

(** The limiter lets at most twice [limit] calls of one key through in any
    interval as long as its window, wherever the interval starts and whenever the
    stale buckets are collected, as long as the clock does not go back. *)
Theorem rate_bound (lim : Z) (win : Duration) (rl : rateLimiter) (ops : list limiter_op) (key : string) (start t : Time) :
  NewRateLimit lim win = Some rl -> lim <= max_i64 -> nondecreasing start ops ->
  allowed_between key t (t + win) (limiter_run rl ops).2 <= 2 * lim.
Proof.
  unfold NewRateLimit. destruct ((lim <=? 0) || (win <=? 0)) eqn:Hpos; [done |]. intros [= <-] Hmax Hn. to_prop.
  assert (Hk : key_ok key start (newRateLimiter lim win, [])).
  { exists [], [], [], (start - 2 * win - 2), (start - win - 1). split; simpl; try done; try lia; try constructor.
    - intros u. unfold between. simpl. lia.
    - rewrite lookup_empty. lia. }
  destruct (limiter_run_ok key ops start (newRateLimiter lim win, [])) as (now' & Hk' & P1 & P2); [done | simpl; lia | done | done |].
  destruct Hk' as (old & prev & cur & s1 & s2 & Hw). fold (limiter_run (newRateLimiter lim win) ops) in *.
  rewrite allowed_between_times. rewrite P1, P2 in Hw. simpl in Hw. by eapply windows_bound; [| exact Hw].
Qed.

(** The bound is reached: with one call per second, the last moment of one
    window and the first of the next let two through in a nanosecond. *)
Example rate_bound_tight :
  (limiter_run (newRateLimiter 1 Second)
     [LAllow "ip" 0 0; LAllow "ip" (Second + 1) (Second + 1); LAllow "ip" (2 * Second + 1) (2 * Second + 1); LAllow "ip" (2 * Second + 2) 0]).2
  = [("ip"%string, 2 * Second + 2); ("ip"%string, Second + 1); ("ip"%string, 0)].
Proof. reflexivity. Qed.

(** [Retry-After] drops the fraction of a second: the client that is told to
    come back after 0 seconds is still refused then. *)
Example retry_after_too_early :
  let rl := newRateLimiter 1 Second in
  let rl := (allow 0 0 "ip" rl).2 in
  let '(ok, wait, rl) := allow (100 * Millisecond) (100 * Millisecond) "ip" rl in
  ok = false /\ retry_after (fun _ => 0) wait = "0"%string /\ (allow (100 * Millisecond) 0 "ip" rl).1.1 = false.
Proof. vm_compute. by split_and!. Qed.

(** Keys of the limiter come from the client: with a new [X-Forwarded-For] every
    time, every request is let through. *)
Theorem new_key_allowed (rl : rateLimiter) (now until : Time) (key : string) :
  hits rl !! key = None -> (allow now until key rl).1 = (true, 0).
Proof. unfold allow. by intros ->. Qed.

(** The first entry of the header may be blank, and then the key is empty. *)
Example blank_first_entry :
  clientIP (fun _ => None) (mkRequest "GET" (fun h => if String.eqb h "X-Forwarded-For" then " ,10.0.0.7" else "")%string
    (fun _ => None) (fun _ => ""%string) "10.0.0.1:80" true []) = ""%string.
Proof. reflexivity. Qed.

Section Theorems.
Context {V S E : Type}.
Notation ctx := (Ctx V S).
Notation Handler := (WebContext.Handler V S E).

Lemma request_add_header k v (c : ctx) : request (add_header k v c) = request c.
Proof. done. Qed.

Lemma csrf_token_request ct cfg fresh (c : ctx) : request (csrf_token ct cfg fresh c).2 = request c.
Proof. unfold csrf_token. destruct (r_cookie _ _) as [v|]; [destruct (String.eqb v "") |]; done. Qed.

(** The token a request presents: the header, or the form field. *)
Definition presented (cfg : CSRFConfig) (r : Request) : string :=
  or_default (r_header r (HeaderName cfg)) (r_form r (FormField cfg)).


(** The token a safe request without a cookie is given is the one in the cookie. *)
Lemma csrf_token_missing ct cfg fresh (c : ctx) :
  r_cookie (request c) (CookieName cfg) = None -> csrf_token ct cfg fresh c = (fresh, add_header "Set-Cookie" (ct cfg fresh) c).
Proof. unfold csrf_token. by intros ->. Qed.

Definition sent_header (k : string) (c : ctx) : option (list string) := headers (writer c) !! k.

Lemma header_other k k' v (c : ctx) : k <> k' -> sent_header k (set_header k' v c) = sent_header k c.
Proof. intros Hk. unfold sent_header, set_header, with_writer, header_Set. simpl. by rewrite lookup_insert_ne. Qed.

Lemma header_same k v (c : ctx) : sent_header k (set_header k v c) = Some [v].
Proof. unfold sent_header, set_header, with_writer, header_Set. simpl. by rewrite lookup_insert, decide_True. Qed.

Lemma header_added k k' v (c : ctx) : k <> k' -> sent_header k (add_header k' v c) = sent_header k c.
Proof. intros Hk. unfold sent_header, add_header, with_writer, header_Add. simpl. by rewrite lookup_insert_ne. Qed.

Lemma cors_matched_request cfg (c : ctx) : request (cors_matched cfg c) = request c.
Proof.
  unfold cors_matched. destruct (AllowCredentials cfg), (String.eqb (Join ", " (ExposedHeaders cfg)) ""), (negb _ && _); done.
Qed.

Lemma cors_matched_origin cfg (c : ctx) :
  sent_header "Access-Control-Allow-Origin" (cors_matched cfg c) = sent_header "Access-Control-Allow-Origin" c.
Proof.
  unfold cors_matched. rewrite header_other by done. destruct (AllowCredentials cfg); rewrite ?header_other by done;
    (destruct (String.eqb _ ""); rewrite ?header_other by done); (destruct (_ && _); by rewrite !header_other).
Qed.

Lemma cors_matched_credentials cfg (c : ctx) :
  sent_header "Access-Control-Allow-Credentials" (cors_matched cfg c)
  = if AllowCredentials cfg then Some ["true"%string] else sent_header "Access-Control-Allow-Credentials" c.
Proof.
  unfold cors_matched. rewrite header_other by done. destruct (AllowCredentials cfg); [apply header_same |].
  destruct (String.eqb _ ""); rewrite ?header_other by done; (destruct (_ && _); by rewrite !header_other).
Qed.

(** A middleware that was built shares a response with a page of another
    origin only if the configuration lists that origin, or lists all of them, and
    then never with credentials; for an origin that is not listed it adds nothing.
    An OPTIONS request ends in it. *)
Theorem CORS_exact (cfg : CORSConfig) (mw : Handler -> Handler) (next : Handler) (c : ctx) :
  CORSWithConfig cfg = Some mw ->
  let c1 := cors_headers cfg c in
  mw next c = (if String.eqb (r_method (request c)) "OPTIONS" then (NoContent c1, HReturn None None) else next c1)
  /\ (sent_header "Access-Control-Allow-Origin" c = None ->
      sent_header "Access-Control-Allow-Credentials" c = None ->
      match sent_header "Access-Control-Allow-Origin" c1 with
      | None => c1 = c
      | Some vs => vs = ["*"%string] /\ sent_header "Access-Control-Allow-Credentials" c1 = None
          \/ vs = [r_header (request c) "Origin"] /\ r_header (request c) "Origin" ∈ AllowedOrigins cfg
      end).
Proof.
  unfold CORSWithConfig. destruct (allow_all cfg && AllowCredentials cfg) eqn:Hbad; [done |]. intros [= <-]. set (c1 := cors_headers cfg c).
  assert (Hreq : request c1 = request c).
  { unfold c1, cors_headers. destruct (allow_all cfg); [by rewrite cors_matched_request |].
    destruct (negb _ && _); [by rewrite cors_matched_request | done]. }
  split; [fold c1; by rewrite Hreq |]. intros Ho Hc. unfold c1, cors_headers.
  destruct (allow_all cfg) eqn:Hall.
  - rewrite cors_matched_origin, header_same, cors_matched_credentials. simpl in Hbad. rewrite Hbad. left. by rewrite header_other.
  - destruct (negb (String.eqb _ "") && bool_decide _) eqn:Hin; [| by rewrite Ho].
    apply andb_prop in Hin as [_ Hin%bool_decide_eq_true].
    rewrite cors_matched_origin, header_added, header_same by done. by right.
Qed.

(** [Auth] and [AuthJWT] let a request through only with a bearer token, and
    [AuthJWT] only with one the manager accepts. *)
Theorem AuthJWT_guards (parse : string -> result E (S * S * S)) (next : Handler) (c : ctx) :
  let h := r_header (request c) "Authorization" in
  (exists user role claims, HasPrefix h "Bearer " = true /\ parse (TrimPrefix h "Bearer ") = Ok (user, role, claims)
     /\ AuthJWT parse next c = next (Set_ "auth_claims" claims (Set_ "auth_role" role (Set_ "auth_user_id" user c))))
  \/ exists msg, forall next' : Handler, AuthJWT parse next' c = (Unauthorized msg c, HReturn None None).
Proof.
  intros h. unfold AuthJWT. fold h. destruct (HasPrefix h "Bearer "); [| right; by eexists].
  destruct (parse (TrimPrefix h "Bearer ")) as [[[u r] cl]|e]; [left; by exists u, r, cl | right; by eexists].
Qed.
End Theorems.

(** ** Preflight requests *)

Section Mux.
(** [http.ServeMux]: the route a request goes to.  Documented: a pattern with a
    method matches requests with that method only, and GET matches HEAD as well. *)
Context {H : Type} (mux : list (Route (H := H)) -> string -> string -> option (Route (H := H))).
Hypothesis mux_method : forall rts m p rt, mux rts m p = Some rt ->
  rt ∈ rts /\ (Method rt = m \/ Method rt = "GET"%string /\ m = "HEAD"%string).

(** Middlewares wrap the handlers of routes, so a preflight request for a path
    without a route of its own for OPTIONS never gets to [CORS]. *)
Theorem preflight_not_routed (leaf : H -> H) (ds : list decl) (path : string) :
  Forall (fun rt => Method rt <> "OPTIONS"%string) (routes (run leaf ds New)) ->
  mux (routes (run leaf ds New)) "OPTIONS" path = None.
Proof.
  intros Hall. destruct (mux _ _ _) as [rt|] eqn:Hm; [| done]. apply mux_method in Hm as [Hin Hmeth].
  apply (proj1 (list.Forall_forall _ _) Hall) in Hin. by destruct Hmeth as [|[_ ?]].
Qed.
End Mux.

(** *** Witnesses *)

Lemma rate_bound_witness :
  allowed_between "ip" 5 (5 + Second)
    (limiter_run (newRateLimiter 1 Second) [LAllow "ip" 0 0; LGc 7; LAllow "ip" (Second + 1) 0; LAllow "ip" (Second + 2) 0]).2 <= 2 * 1.
Proof.
  apply (rate_bound 1 Second (newRateLimiter 1 Second) _ "ip" 0 5); [reflexivity | vm_compute; discriminate |].
  vm_compute. intuition discriminate.
Defined.

Definition sample_post (cookie header : string) : Request :=
  mkRequest "POST" (fun h => if String.eqb h "X-CSRF-Token" then header else "") (fun _ => Some cookie)
    (fun _ => "") "10.0.0.1:80" false [].

Definition sample_post_ctx : Ctx nat nat := newContext (sample_post "a" "b").
Definition sample_ok : WebContext.Handler nat nat nat := fun c => (c, HReturn None None).


Definition sample_origin : Ctx nat nat :=
  newContext (mkRequest "GET" (fun h => if String.eqb h "Origin" then "https://a" else "") (fun _ => None)
    (fun _ => "") "10.0.0.1:80" false []).
Definition sample_cors : CORSConfig := mkCORS ["https://a"%string] [] [] [] true 0.
Definition sample_cors_mw : WebContext.Handler nat nat nat -> WebContext.Handler nat nat nat :=
  fun next c => let c := cors_headers sample_cors c in
    if String.eqb (r_method (request c)) "OPTIONS" then (NoContent c, HReturn None None) else next c.

Lemma CORS_exact_witness :
  sample_cors_mw sample_ok sample_origin = sample_ok (cors_headers sample_cors sample_origin)
  /\ (["https://a"%string] = ["*"%string] /\ sent_header "Access-Control-Allow-Credentials" (cors_headers sample_cors sample_origin) = None
      \/ ["https://a"%string] = ["https://a"%string] /\ "https://a"%string ∈ AllowedOrigins sample_cors).
Proof.
  destruct (CORS_exact sample_cors sample_cors_mw sample_ok sample_origin eq_refl) as [H1 H2].
  split; [exact H1 | exact (H2 eq_refl eq_refl)].
Defined.

Definition sample_mux {H : Type} (rts : list (Route (H := H))) (m p : string) : option (Route (H := H)) :=
  List.find (fun rt => String.eqb (Method rt) m && String.eqb (Path rt) p) rts.

Lemma preflight_not_routed_witness :
  sample_mux (routes (run (H := nat) id [DAdd "GET" "/a" 1%nat] New)) "OPTIONS" "/a" = None.
Proof.
  apply (preflight_not_routed sample_mux).
  - intros rts m p rt Hf. apply List.find_some in Hf as [Hin Hb]. apply andb_prop in Hb as [Hb _].
    apply String.eqb_eq in Hb. split; [by apply list_elem_of_In | by left].
  - by constructor.
Defined.
