(* ===== verification/GoPath.v ===== *)
(** The lexical functions of package [path/filepath] on Unix: [IsAbs], [Clean],
    [Join], [Dir], [Base] and [Rel], on byte strings.

    [Clean] is the rewriting its documentation gives, one segment at a time;
    [abs_path] is the normal form of an absolute path. *)

From Stdlib Require Import ZArith Lia Ascii.
From Stdlib Require String.
From stdpp Require Import base strings list numbers.
From S2P Require Import Prelude GoRt GoStrconv GoStrings.

Definition sep : ascii := "/".

Definition IsAbs (p : string) : bool := starts_with sep p.

(** [out] is what is kept so far, the last segment first. *)
Fixpoint clean_loop (rooted : bool) (out segs : list string) : list string :=
  match segs with
  | [] => rev out
  | s :: segs =>
      if String.eqb s "" || String.eqb s "." then clean_loop rooted out segs
      else if String.eqb s ".." then
        match out with
        | [] => clean_loop rooted (if rooted then [] else [s]) segs
        | t :: out' => clean_loop rooted (if String.eqb t ".." then s :: out else out') segs
        end
      else clean_loop rooted (s :: out) segs
  end.

Definition abs_path (segs : list string) : string := ("/" +:+ Join "/" segs)%string.

Definition Clean (p : string) : string :=
  let segs := clean_loop (IsAbs p) [] (Split sep p) in
  if IsAbs p then abs_path segs else match segs with [] => "."%string | _ => Join "/" segs end.

(** [filepath.Join]: from the first element that is not empty. *)
Fixpoint path_Join (elems : list string) : string :=
  match elems with
  | [] => ""%string
  | e :: rest => if String.eqb e "" then path_Join rest else Clean (Join "/" elems)
  end.

(** The path up to its last separator. *)
Fixpoint dir_prefix (p : string) : string :=
  match p with
  | EmptyString => EmptyString
  | String c s =>
      match dir_prefix s with
      | EmptyString => if Ascii.eqb c sep then String c EmptyString else EmptyString
      | t => String c t
      end
  end.

Definition Dir (p : string) : string := Clean (dir_prefix p).

Definition Base (p : string) : string :=
  if String.eqb p "" then "."%string
  else
    let t := TrimRight sep p in
    if String.eqb t "" then "/"%string else default ""%string (list.last (Split sep t)).

(** The segments of a cleaned path. *)
Definition rel_segs (p : string) : list string := List.filter (fun s => negb (String.eqb s "" || String.eqb s ".")) (Split sep p).

Fixpoint strip_common (b t : list string) : list string * list string :=
  match b, t with
  | x :: b', y :: t' => if String.eqb x y then strip_common b' t' else (b, t)
  | _, _ => (b, t)
  end.

(** [None]: one path is relative and the other is not, or the base has [..] left. *)
Definition Rel (base targ : string) : option string :=
  let base := Clean base in
  let targ := Clean targ in
  if String.eqb base targ then Some "."%string
  else if negb (Bool.eqb (IsAbs base) (IsAbs targ)) then None
  else
    let '(b, t) := strip_common (rel_segs base) (rel_segs targ) in
    match b with
    | x :: _ => if String.eqb x ".." then None else Some (Join "/" (map (fun _ => ".."%string) b ++ t))
    | [] => Some (Join "/" t)
    end.

(** ** Laws *)

Definition plain (s : string) : bool :=
  negb (String.eqb s "") && negb (String.eqb s ".") && negb (String.eqb s "..") && negb (has_byte sep s).

Lemma plain_spec s : plain s = true -> s <> ""%string /\ s <> "."%string /\ s <> ".."%string /\ has_byte sep s = false.
Proof.
  unfold plain. rewrite !andb_true_iff, !negb_true_iff, !String.eqb_neq. tauto.
Qed.

Lemma plain_tests s : plain s = true ->
  String.eqb s "" = false /\ String.eqb s "." = false /\ String.eqb s ".." = false.
Proof. intros (H1 & H2 & H3 & _)%plain_spec. by rewrite !String.eqb_neq. Qed.

Lemma Split_nonempty x s : Split x s <> [].
Proof. destruct s as [|c s]; [done |]. simpl. destruct (Ascii.eqb c x); [done |]. by destruct (Split x s). Qed.

Lemma Split_app_sep x s t : Split x (s +:+ String x t) = Split x s ++ Split x t.
Proof.
  induction s as [|c s IH].
  - change (EmptyString +:+ String x t)%string with (String x t). cbn [Split]. by rewrite Ascii.eqb_refl.
  - change (String c s +:+ String x t)%string with (String c (s +:+ String x t)%string). cbn [Split].
    rewrite IH. destruct (Ascii.eqb c x); [done |].
    destruct (Split x s) eqn:E; [by apply Split_nonempty in E | done].
Qed.

Lemma Split_Join (segs : list string) :
  segs <> [] -> Forall (fun s => has_byte sep s = false) segs -> Split sep (Join "/" segs) = segs.
Proof.
  intros Hne H. induction H as [|s segs Hs Hrest IH]; [done |]. destruct segs as [|s' segs].
  - by apply Split_none.
  - change (Join "/" (s :: s' :: segs)) with (s +:+ String sep (Join "/" (s' :: segs)))%string.
    rewrite Split_app_sep. rewrite (Split_none _ _ Hs). simpl. f_equal. by apply IH.
Qed.

Lemma Split_abs segs :
  Forall (fun s => plain s = true) segs ->
  Split sep (abs_path segs) = ""%string :: match segs with [] => [""%string] | _ => segs end.
Proof.
  intros H. unfold abs_path. change ("/" +:+ Join "/" segs)%string with (String sep (Join "/" segs)).
  cbn [Split]. rewrite Ascii.eqb_refl. f_equal. destruct segs as [|s segs]; [done |]. apply Split_Join; [done |].
  eapply list.Forall_impl; [exact H |]. simpl. by intros x (_ & _ & _ & Hx)%plain_spec.
Qed.

Lemma IsAbs_abs segs : IsAbs (abs_path segs) = true.
Proof. done. Qed.

(** Plain segments are kept, whatever came before. *)
Lemma clean_loop_plain rooted out segs rest :
  Forall (fun s => plain s = true) segs -> clean_loop rooted out (segs ++ rest) = clean_loop rooted (rev segs ++ out) rest.
Proof.
  intros H. revert out. induction H as [|s segs Hs _ IH]; intros out; [done |]. simpl.
  destruct (plain_tests s Hs) as (-> & -> & ->). simpl. rewrite IH. by rewrite <- app_assoc.
Qed.

(** Without [..] only the empty and the dot segments go. *)
Lemma clean_loop_no_dotdot rooted out segs :
  Forall (fun s => s <> ".."%string) segs ->
  clean_loop rooted out segs = rev out ++ List.filter (fun s => negb (String.eqb s "" || String.eqb s ".")) segs.
Proof.
  intros H. revert out. induction H as [|s segs Hs _ IH]; intros out; simpl; [by rewrite app_nil_r |].
  destruct (String.eqb s "" || String.eqb s "."); simpl; [apply IH |].
  rewrite (proj2 (String.eqb_neq s "..") Hs), IH. simpl. by rewrite <- app_assoc.
Qed.

Lemma Split_no_sep x s : Forall (fun t => has_byte x t = false) (Split x s).
Proof.
  induction s as [|c s IH]; simpl; [by repeat constructor |].
  destruct (Ascii.eqb c x) eqn:Hc; [by constructor |].
  destruct (Split x s) as [|y ys]; [by repeat constructor; simpl; rewrite Hc |].
  apply list.Forall_cons in IH as [Hy Hys]. constructor; [| done]. simpl. by rewrite Hc.
Qed.

(** The segments a relative path without [..] adds. *)
Lemma rel_segs_plain p :
  Forall (fun s => s <> ".."%string) (Split sep p) -> Forall (fun s => plain s = true) (rel_segs p).
Proof.
  intros H. apply list.Forall_forall. intros s Hs. unfold rel_segs in Hs.
  apply list_elem_of_In, filter_In in Hs as [Hin Hne]. apply list_elem_of_In in Hin.
  pose proof (proj1 (list.Forall_forall _ _) H s Hin) as Hd. pose proof (proj1 (list.Forall_forall _ _) (Split_no_sep sep p) s Hin) as Hb.
  simpl in *. apply negb_true_iff, orb_false_elim in Hne as [H1 H2]. unfold plain. rewrite H1, H2, Hb.
  by rewrite (proj2 (String.eqb_neq s "..") Hd).
Qed.

Lemma Clean_abs segs : Forall (fun s => plain s = true) segs -> Clean (abs_path segs) = abs_path segs.
Proof.
  intros H. unfold Clean. rewrite IsAbs_abs, Split_abs by done. simpl. destruct segs as [|s segs]; [done |].
  rewrite <- (app_nil_r (s :: segs)) at 1. rewrite clean_loop_plain by done. cbn [clean_loop]. by rewrite app_nil_r, rev_involutive.
Qed.

Lemma Clean_relative p :
  IsAbs p = false -> Forall (fun s => s <> ".."%string) (Split sep p) ->
  Clean p = match rel_segs p with [] => "."%string | segs => Join "/" segs end.
Proof. intros Ha H. unfold Clean. rewrite Ha, clean_loop_no_dotdot by done. unfold rel_segs. simpl. by destruct (List.filter _ _). Qed.

Lemma Join_cons s segs : segs <> [] -> Join "/" (s :: segs) = (s +:+ "/" +:+ Join "/" segs)%string.
Proof. by destruct segs. Qed.

(** Joining a cleaned relative path to an absolute one. *)
Lemma Clean_join r q :
  Forall (fun s => plain s = true) r -> Forall (fun s => s <> ".."%string) (Split sep q) ->
  Clean (Join "/" [abs_path r; q]) = abs_path (r ++ rel_segs q).
Proof.
  intros Hr Hq. change (Join "/" [abs_path r; q]) with (abs_path r +:+ String sep q)%string. unfold Clean.
  assert (Ha : IsAbs (abs_path r +:+ String sep q) = true) by done. rewrite Ha.
  rewrite Split_app_sep, Split_abs by done. simpl. f_equal. destruct r as [|s r].
  - simpl. by rewrite clean_loop_no_dotdot.
  - rewrite clean_loop_plain by done. rewrite clean_loop_no_dotdot by done. by rewrite app_nil_r, rev_involutive.
Qed.

Lemma rel_segs_join (segs : list string) :
  Forall (fun s => plain s = true) segs -> rel_segs (match segs with [] => "."%string | _ => Join "/" segs end) = segs.
Proof.
  intros H. destruct segs as [|s segs]; [done |]. unfold rel_segs. rewrite Split_Join; [| done |].
  - clear -H. induction H as [|x l Hx _ IH]; [done |]. simpl. destruct (plain_tests x Hx) as (-> & -> & _). simpl. by rewrite IH.
  - eapply list.Forall_impl; [exact H |]. simpl. by intros x (_ & _ & _ & Hx)%plain_spec.
Qed.

Lemma rel_segs_abs segs : Forall (fun s => plain s = true) segs -> rel_segs (abs_path segs) = segs.
Proof.
  intros H. unfold rel_segs. rewrite Split_abs by done. simpl. destruct segs as [|s segs]; [done |].
  induction H as [|x l Hx _ IH]; [done |]. simpl. destruct (plain_tests x Hx) as (-> & -> & _). simpl. by rewrite IH.
Qed.

Lemma abs_path_inj a b :
  Forall (fun s => plain s = true) a -> Forall (fun s => plain s = true) b -> abs_path a = abs_path b -> a = b.
Proof. intros Ha Hb H. rewrite <- (rel_segs_abs a Ha), <- (rel_segs_abs b Hb). by rewrite H. Qed.

Lemma strip_common_app r s : strip_common r (r ++ s) = ([], s).
Proof. induction r as [|x r IH]; [by destruct s |]. simpl. by rewrite String.eqb_refl. Qed.

(** What [Rel] says of a path inside the base, and when it says so. *)
Lemma Rel_inside r s :
  Forall (fun s => plain s = true) r -> Forall (fun s => plain s = true) s ->
  Rel (abs_path r) (abs_path (r ++ s)) = Some (match s with [] => "."%string | _ => Join "/" s end).
Proof.
  intros Hr Hs. assert (Hrs : Forall (fun s => plain s = true) (r ++ s)) by (by apply list.Forall_app).
  unfold Rel. rewrite !Clean_abs by done. destruct (String.eqb_spec (abs_path r) (abs_path (r ++ s))) as [Heq|Hne].
  - apply abs_path_inj in Heq; [| done | done]. rewrite <- (app_nil_r r) in Heq at 1. apply app_inv_head in Heq. by subst.
  - rewrite !IsAbs_abs. simpl. rewrite !rel_segs_abs, strip_common_app by done.
    destruct s; [by rewrite app_nil_r in Hne | done].
Qed.

Lemma strip_common_spec b t b' t' : strip_common b t = (b', t') -> exists c, b = c ++ b' /\ t = c ++ t'.
Proof.
  revert t. induction b as [|x b IH]; intros t H; simpl in H; [injection H as <- <-; by exists [] |].
  destruct t as [|y t]; [injection H as <- <-; by exists [] |].
  destruct (String.eqb_spec x y) as [->|]; [| injection H as <- <-; by exists []].
  destruct (IH t H) as (c & -> & ->). by exists (y :: c).
Qed.

(** A relative path that does not start with [..] stays inside. *)
Lemma Rel_stays r s rel :
  Forall (fun s => plain s = true) r -> Forall (fun s => plain s = true) s ->
  Rel (abs_path r) (abs_path s) = Some rel -> rel <> ".."%string -> HasPrefix rel "../" = false -> exists t, s = r ++ t.
Proof.
  intros Hr Hs H Hne Hp. unfold Rel in H. rewrite !Clean_abs in H by done.
  destruct (String.eqb_spec (abs_path r) (abs_path s)) as [Heq|_].
  { apply abs_path_inj in Heq as ->; [| done | done]. exists []. by rewrite app_nil_r. }
  rewrite !IsAbs_abs in H. simpl in H. rewrite !rel_segs_abs in H by done.
  destruct (strip_common r s) as [b t] eqn:Hst. apply strip_common_spec in Hst as (c & -> & ->).
  destruct b as [|x b]; [exists t; by rewrite app_nil_r |].
  destruct (String.eqb x ".."); [done |]. injection H as <-. simpl map in Hne, Hp. exfalso.
  change ((".."%string :: map (fun _ => ".."%string) b) ++ t) with (".."%string :: (map (fun _ => ".."%string) b ++ t)) in *.
  destruct (map (fun _ => ".."%string) b ++ t) as [|y l]; [exact (Hne eq_refl) |]. pose proof (HasPrefix_app "../" (Join "/" (y :: l))) as Hq. change ("../" +:+ Join "/" (y :: l))%string with (".." +:+ "/" +:+ Join "/" (y :: l))%string in Hq. congruence.
Qed.

Lemma dir_prefix_app u x : has_byte sep x = false -> dir_prefix (u +:+ String sep x) = (u +:+ "/")%string.
Proof.
  intros Hx. induction u as [|c u IH].
  - change (EmptyString +:+ String sep x)%string with (String sep x). cbn [dir_prefix].
    assert (Hn : dir_prefix x = EmptyString).
    { clear -Hx. induction x as [|c x IH]; [done |]. simpl in Hx. apply orb_false_elim in Hx as [Hc Hx]. simpl. by rewrite IH, Hc. }
    by rewrite Hn, Ascii.eqb_refl.
  - change (String c u +:+ String sep x)%string with (String c (u +:+ String sep x))%string. cbn [dir_prefix].
    rewrite IH. by destruct u.
Qed.

Lemma abs_path_snoc s x : s <> [] -> abs_path (s ++ [x]) = (abs_path s +:+ String sep x)%string.
Proof.
  intros Hs. unfold abs_path. induction s as [|y s IH]; [done |]. destruct s as [|z s]; [done |].
  change ((y :: z :: s) ++ [x]) with (y :: (z :: s) ++ [x]).
  change (Join "/" (y :: (z :: s) ++ [x])) with (y +:+ ("/" +:+ Join "/" ((z :: s) ++ [x])))%string.
  rewrite IH by done. change (Join "/" (y :: z :: s)) with (y +:+ ("/" +:+ Join "/" (z :: s)))%string.
  by rewrite !str_app_assoc.
Qed.

Lemma Dir_snoc s x : Forall (fun s => plain s = true) (s ++ [x]) -> Dir (abs_path (s ++ [x])) = abs_path s.
Proof.
  intros H. apply list.Forall_app in H as [Hs Hx]. apply list.Forall_cons in Hx as [Hx _].
  apply plain_spec in Hx as (_ & _ & _ & Hb). unfold Dir. destruct s as [|y s].
  - change (abs_path ([] ++ [x])) with (EmptyString +:+ String sep x)%string. by rewrite dir_prefix_app.
  - rewrite abs_path_snoc, dir_prefix_app by done.
    change (abs_path (y :: s) +:+ "/")%string with (Join "/" [abs_path (y :: s); ""%string]).
    rewrite Clean_join; [by rewrite app_nil_r | done | by repeat constructor].
Qed.

Lemma Dir_root : Dir (abs_path []) = abs_path [].
Proof. reflexivity. Qed.

Lemma TrimRight_no_sep x : has_byte sep x = false -> TrimRight sep x = x.
Proof.
  induction x as [|c x IH]; [done |]. simpl. intros [Hc Hx]%orb_false_elim. rewrite IH by done. rewrite Hc. by destruct x.
Qed.

Lemma Base_snoc s x : Forall (fun s => plain s = true) (s ++ [x]) -> Base (abs_path (s ++ [x])) = x.
Proof.
  intros H. pose proof (Split_abs _ H) as Hsp. apply list.Forall_app in H as [Hs Hx]. apply list.Forall_cons in Hx as [Hx _].
  apply plain_spec in Hx as (Hne & _ & _ & Hb). unfold Base.
  assert (Ht : TrimRight sep (abs_path (s ++ [x])) = abs_path (s ++ [x])).
  { destruct s as [|y s].
    - change (abs_path ([] ++ [x])) with (String sep EmptyString +:+ x)%string. rewrite TrimRight_app; by rewrite TrimRight_no_sep.
    - rewrite abs_path_snoc by done. change (abs_path (y :: s) +:+ String sep x)%string with (abs_path (y :: s) +:+ (String sep EmptyString +:+ x))%string.
      rewrite <- str_app_assoc, TrimRight_app; by rewrite TrimRight_no_sep. }
  rewrite Ht. simpl (String.eqb _ _). cbv iota. rewrite Hsp. destruct (s ++ [x]) as [|z l] eqn:He; [by destruct s |].
  rewrite <- He. by rewrite (last_app_cons [""%string] _ _) || (change (""%string :: s ++ [x]) with ((""%string :: s) ++ [x]); by rewrite last_snoc).
Qed.

Lemma Base_root : Base (abs_path []) = "/"%string.
Proof. reflexivity. Qed.
