(* ===== verification/Filesystem.v ===== *)
(** The local disk: [src/filesystem/filesystem.go].

    - [resolve] is the path check every operation starts with: the lexical part
      on byte strings, then [verifyNoSymlinkEscape], whose search for the nearest
      existing ancestor takes fuel.
    - The operations are the operating-system calls they make, in order, given
      what each of them answered; [touched] is the paths of a call that it opens,
      writes or removes.

    [Lstat] and [EvalSymlinks] are the file system at the moment of the check;
    what changes between the check and the use is out of the model. *)

From Stdlib Require Import ZArith Lia Ascii.
From Stdlib Require String.
From stdpp Require Import base strings list numbers.
From S2P Require Import Prelude GoRt GoStrconv GoStrings GoPath.

#[local] Set Warnings "-register-all".

Section Local.
Context {E : Type} (Lstat : string -> bool) (EvalSymlinks : string -> result E string).

Inductive fs_error := ErrNotFound | ErrPathTraversal | ErrOs (e : E).

(** ** The path check *)

(** The nearest existing ancestor, with the missing tail below it; the inner
    option is [None] when nothing up to the root of the file system exists. *)
Fixpoint nearest (fuel : nat) (existing : string) (tail : list string) : option (option (string * list string)) :=
  match fuel with
  | O => None
  | S fuel =>
      if Lstat existing then Some (Some (existing, tail))
      else
        let parent := Dir existing in
        if String.eqb parent existing then Some None
        else nearest fuel parent (Base existing :: tail)
  end.

Definition verifyNoSymlinkEscape (root full : string) : option (result fs_error unit) :=
  match EvalSymlinks root with
  | Err e => Some (Err (ErrOs e))
  | Ok rootEval =>
      match nearest (S (String.length full)) full [] with
      | None => None
      | Some None => Some (Ok tt)
      | Some (Some (existing, tail)) =>
          match EvalSymlinks existing with
          | Err e => Some (Err (ErrOs e))
          | Ok evalExisting =>
              let resolved := path_Join (evalExisting :: tail) in
              match Rel rootEval resolved with
              | None => Some (Err ErrPathTraversal)
              | Some rel =>
                  if String.eqb rel ".." || HasPrefix rel "../" then Some (Err ErrPathTraversal) else Some (Ok tt)
              end
          end
      end
  end.

Definition resolve (root p : string) : option (result fs_error string) :=
  if IsAbs p then Some (Err ErrPathTraversal)
  else if existsb (fun seg => String.eqb seg "..") (Split sep p) then Some (Err ErrPathTraversal)
  else
    let full := path_Join [root; Clean p] in
    match Rel root full with
    | None => Some (Err ErrPathTraversal)
    | Some rel =>
        if HasPrefix rel ".." || String.eqb rel ".." then Some (Err ErrPathTraversal)
        else
          match verifyNoSymlinkEscape root full with
          | None => None
          | Some (Err e) => Some (Err e)
          | Some (Ok _) => Some (Ok full)
          end
    end.

(** ** Operations *)

Inductive os_call :=
| MkdirAll (dir : string)
| CreateTemp (dir : string)
| CopyInto (tmp : string)
| Chmod (path : string)
| Rename (from to : string)
| Remove (path : string)
| ReadFile (path : string)
| Open (path : string)
| StatFile (path : string)
| ReadDir (dir : string).

Definition touched (c : os_call) : list string :=
  match c with
  | Rename a b => [a; b]
  | MkdirAll p | CreateTemp p | CopyInto p | Chmod p | Remove p | ReadFile p | Open p | StatFile p | ReadDir p => [p]
  end.

(** What the calls of [PutStream] answer: the error of the context, and of each
    call; the name of the temporary file. *)
Record put_env := mkPut {
  p_ctx : option E; p_mkdir : option E; p_create : result E string; p_copy : option E;
  p_close : option E; p_chmod : option E; p_rename : option E }.

Definition PutStream (env : put_env) (root path : string) : option (list os_call * option fs_error) :=
  match p_ctx env with
  | Some e => Some ([], Some (ErrOs e))
  | None =>
      match resolve root path with
      | None => None
      | Some (Err e) => Some ([], Some e)
      | Some (Ok full) =>
          let mkdir := [MkdirAll (Dir full)] in
          match p_mkdir env with
          | Some e => Some (mkdir, Some (ErrOs e))
          | None =>
              match p_create env with
              | Err e => Some (mkdir ++ [CreateTemp (Dir full)], Some (ErrOs e))
              | Ok tmp =>
                  let opened := mkdir ++ [CreateTemp (Dir full); CopyInto tmp] in
                  match p_copy env, p_close env, p_chmod env, p_rename env with
                  | Some e, _, _, _ | None, Some e, _, _ => Some (opened ++ [Remove tmp], Some (ErrOs e))
                  | None, None, Some e, _ => Some (opened ++ [Chmod tmp; Remove tmp], Some (ErrOs e))
                  | None, None, None, Some e => Some (opened ++ [Chmod tmp; Rename tmp full; Remove tmp], Some (ErrOs e))
                  | None, None, None, None => Some (opened ++ [Chmod tmp; Rename tmp full], None)
                  end
              end
          end
      end
  end.

(** Operations of one call on the resolved path; [missing] tells whether the
    error of the call is [os.ErrNotExist]. *)
Definition one_call {A} (call : string -> os_call) (missing : E -> bool) (ans : result E A) (root path : string)
  : option (list os_call * result fs_error A) :=
  match resolve root path with
  | None => None
  | Some (Err e) => Some ([], Err e)
  | Some (Ok full) =>
      Some ([call full], match ans with
                         | Ok a => Ok a
                         | Err e => if missing e then Err ErrNotFound else Err (ErrOs e)
                         end)
  end.

Definition Get {A} := @one_call A ReadFile.
Definition Reader {A} := @one_call A Open.
Definition Stat {A} := @one_call A StatFile.

Record FileInfo := mkInfo { Path : string; Size : Z; ModTime : Z; IsDir : bool }.

(** A directory entry: its name, whether it is a directory, and what [Info] answers. *)
Record dir_entry := mkEntry { Name : string; e_isdir : bool; e_info : option (Z * Z) }.

Definition file_of (dir : string) (e : dir_entry) : option FileInfo :=
  if e_isdir e then None
  else match e_info e with
       | None => None
       | Some (size, mtime) => Some (mkInfo (path_Join [dir; Name e]) size mtime false)
       end.

Definition Files (missing : E -> bool) (ans : result E (list dir_entry)) (root dir : string)
  : option (list os_call * result fs_error (list FileInfo)) :=
  match one_call ReadDir missing ans root dir with
  | Some (calls, Ok entries) => Some (calls, Ok (omap (file_of dir) entries))
  | Some (calls, Err e) => Some (calls, Err e)
  | None => None
  end.

Definition Exists (missing : E -> bool) (ans : result E unit) (root path : string) : option (list os_call * result fs_error bool) :=
  match one_call StatFile missing ans root path with
  | Some (calls, r) =>
      Some (calls, match r with
                   | Ok _ => Ok true
                   | Err ErrNotFound => Ok false
                   | Err e => Err e
                   end)
  | None => None
  end.

Definition Delete (missing : E -> bool) (ans : result E unit) (root path : string) : option (list os_call * option fs_error) :=
  match one_call Remove missing ans root path with
  | Some (calls, r) =>
      Some (calls, match r with Ok _ | Err ErrNotFound => None | Err e => Some e end)
  | None => None
  end.

Definition Copy (missing : E -> bool) (opened : result E unit) (env : put_env) (root src dst : string)
  : option (list os_call * option fs_error) :=
  match Reader missing opened root src with
  | None => None
  | Some (calls, Err e) => Some (calls, Some e)
  | Some (calls, Ok _) =>
      match PutStream env root dst with
      | None => None
      | Some (calls', e) => Some (calls ++ calls', e)
      end
  end.

Definition Move (missing : E -> bool) (mkdir rename : option E) (root src dst : string) : option (list os_call * option fs_error) :=
  match resolve root src with
  | None => None
  | Some (Err e) => Some ([], Some e)
  | Some (Ok fullSrc) =>
      match resolve root dst with
      | None => None
      | Some (Err e) => Some ([], Some e)
      | Some (Ok fullDst) =>
          match mkdir with
          | Some e => Some ([MkdirAll (Dir fullDst)], Some (ErrOs e))
          | None =>
              Some ([MkdirAll (Dir fullDst); Rename fullSrc fullDst],
                match rename with
                | Some e => Some (if missing e then ErrNotFound else ErrOs e)
                | None => None
                end)
          end
      end
  end.
End Local.
Arguments fs_error E : clear implicits.

(** [NewLocal]: the root is absolute and clean; [cwd] is the working directory. *)
Definition NewLocal (cwd root : string) : option string :=
  if String.eqb root "" then None
  else Some (if IsAbs root then Clean root else path_Join [cwd; root]).

(** ** The path check keeps every path inside the root *)

Notation plain_segs := (Forall (fun s => plain s = true)).

Lemma Join_nested x tail : tail <> [] -> Join "/" (x :: tail) = Join "/" [x; Join "/" tail].
Proof. by destruct tail. Qed.

Lemma plain_no_dotdot s : plain_segs s -> Forall (fun x => x <> ".."%string) s.
Proof. intros H. eapply list.Forall_impl; [exact H |]. simpl. by intros x (_ & _ & ? & _)%plain_spec. Qed.

Lemma plain_no_sep s : plain_segs s -> Forall (fun x => has_byte sep x = false) s.
Proof. intros H. eapply list.Forall_impl; [exact H |]. simpl. by intros x (_ & _ & _ & ?)%plain_spec. Qed.

Lemma path_Join_abs u tail : plain_segs u -> plain_segs tail -> path_Join (abs_path u :: tail) = abs_path (u ++ tail).
Proof.
  intros Hu Ht. assert (Hn : forall q, path_Join (abs_path u :: q) = Clean (Join "/" (abs_path u :: q))) by done.
  rewrite Hn. destruct tail as [|x tail].
  - rewrite app_nil_r. by apply Clean_abs.
  - rewrite Join_nested by done. rewrite Clean_join; [| done |].
    + f_equal. f_equal. exact (rel_segs_join (x :: tail) Ht).
    + rewrite Split_Join; [by apply plain_no_dotdot | done | by apply plain_no_sep].
Qed.

(** The clean form of a path without [..] joined to the root. *)
Lemma path_Join_root r p :
  plain_segs r -> IsAbs p = false -> Forall (fun s => s <> ".."%string) (Split sep p) ->
  path_Join [abs_path r; Clean p] = abs_path (r ++ rel_segs p).
Proof.
  intros Hr Ha Hp. pose proof (rel_segs_plain p Hp) as Hs.
  change (path_Join [abs_path r; Clean p]) with (Clean (Join "/" [abs_path r; Clean p])).
  rewrite (Clean_relative p Ha Hp). destruct (rel_segs p) as [|x l] eqn:E.
  - rewrite Clean_join; [by rewrite (rel_segs_join [] (List.Forall_nil _)) | done |]. simpl. by repeat constructor.
  - rewrite Clean_join; [by rewrite (rel_segs_join (x :: l) Hs) | done |].
    rewrite Split_Join; [by apply plain_no_dotdot | done | by apply plain_no_sep].
Qed.

Lemma length_Join_ge (s : list string) : plain_segs s -> (length s <= String.length (Join "/" s))%nat.
Proof.
  induction 1 as [|x s Hx _ IH]; [simpl; lia |].
  apply plain_spec in Hx as (Hne & _). destruct s as [|y s].
  - destruct x; [done |]. simpl. lia.
  - rewrite Join_cons by done. rewrite !str_length_app. destruct x; [done |]. simpl length in *. simpl String.length at 1 2. lia.
Qed.

Lemma length_abs_ge s : plain_segs s -> (length s < String.length (abs_path s))%nat.
Proof. intros H. apply length_Join_ge in H. unfold abs_path. rewrite str_length_app. simpl. lia. Qed.

Section Safety.
Context {E : Type} (Lstat : string -> bool) (EvalSymlinks : string -> result E string).

(** The nearest existing ancestor splits the segments of the path. *)
Lemma nearest_spec s tail fuel :
  plain_segs s -> (length s < fuel)%nat ->
  match nearest Lstat fuel (abs_path s) tail with
  | Some (Some (existing, t)) =>
      exists e m, existing = abs_path e /\ t = m ++ tail /\ s = e ++ m /\ Lstat existing = true /\
        forall m1 m2, m = m1 ++ m2 -> m1 <> [] -> Lstat (abs_path (e ++ m1)) = false
  | Some None => forall s1 s2, s = s1 ++ s2 -> Lstat (abs_path s1) = false
  | None => False
  end.
Proof.
  revert tail fuel. induction s as [|x s IH] using rev_ind; intros tail fuel Hs Hf; (destruct fuel as [|fuel]; [lia |]); cbn [nearest].
  - destruct (Lstat (abs_path [])) eqn:HL.
    + exists [], []. split_and!; try done. by intros [|] m2 H.
    + rewrite Dir_root, String.eqb_refl. intros [|] s2 H; [done | discriminate].
  - destruct (Lstat (abs_path (s ++ [x]))) eqn:HL.
    + exists (s ++ [x]), []. rewrite app_nil_r. split_and!; try done. by intros [|] m2 H.
    + rewrite Dir_snoc, Base_snoc by done. rewrite length_app in Hf. simpl in Hf.
      destruct (String.eqb_spec (abs_path s) (abs_path (s ++ [x]))) as [Heq|_].
      { apply abs_path_inj in Heq; [| by apply list.Forall_app in Hs as [Hs _] | done].
        apply (f_equal length) in Heq. rewrite length_app in Heq. simpl in Heq. lia. }
      pose proof (IH (x :: tail) fuel ltac:(by apply list.Forall_app in Hs as [Hs _]) ltac:(lia)) as H2.
      destruct (nearest Lstat fuel (abs_path s) (x :: tail)) as [[[existing t]|]|]; [| | done].
      * destruct H2 as (e & m & -> & -> & -> & He & Hm). exists e, (m ++ [x]). rewrite <- !app_assoc. split_and!; try done.
        intros m1 m2 Heq Hne. destruct m2 as [|y m2 _] using rev_ind.
        { rewrite app_nil_r in Heq. subst m1. by rewrite app_assoc. }
        rewrite app_assoc in Heq. apply app_inj_tail in Heq as [Heq _]. by apply (Hm m1 m2).
      * intros s1 s2 Heq. destruct s2 as [|y s2 _] using rev_ind.
        { rewrite app_nil_r in Heq. by subst s1. }
        rewrite app_assoc in Heq. apply app_inj_tail in Heq as [Heq _]. by apply (H2 s1 s2).
Qed.

Hypothesis EvalSymlinks_clean : forall x y, EvalSymlinks x = Ok y -> exists s, plain_segs s /\ y = abs_path s.

(** What stands at [root/s] is inside the real root: the nearest existing
    ancestor [e] of it is really [u], and [u] with the rest of the path is below
    the real root. *)
Definition really_inside (r s : list string) : Prop :=
  exists real, EvalSymlinks (abs_path r) = Ok (abs_path real) /\
    ((forall s1 s2, r ++ s = s1 ++ s2 -> Lstat (abs_path s1) = false) \/
     exists e t u below, r ++ s = e ++ t /\ Lstat (abs_path e) = true /\
       (forall t1 t2, t = t1 ++ t2 -> t1 <> [] -> Lstat (abs_path (e ++ t1)) = false) /\
       EvalSymlinks (abs_path e) = Ok (abs_path u) /\ u ++ t = real ++ below).

Lemma verify_spec r s :
  plain_segs r -> plain_segs s ->
  exists out, verifyNoSymlinkEscape Lstat EvalSymlinks (abs_path r) (abs_path (r ++ s)) = Some out /\
    (out = Ok tt -> really_inside r s).
Proof.
  intros Hr Hs. assert (Hrs : plain_segs (r ++ s)) by (by apply list.Forall_app). unfold verifyNoSymlinkEscape.
  destruct (EvalSymlinks (abs_path r)) as [rootEval|err] eqn:Hroot; [| by eexists].
  pose proof (EvalSymlinks_clean _ _ Hroot) as (real & Hreal & ->).
  pose proof (length_abs_ge _ Hrs) as Hlen.
  pose proof (nearest_spec (r ++ s) [] (S (String.length (abs_path (r ++ s)))) Hrs ltac:(lia)) as Hn.
  destruct (nearest _ _ _ _) as [[[existing t]|]|] eqn:E'; [| | done].
  - destruct Hn as (e & m & -> & -> & Heq & He & Hmax). rewrite app_nil_r in *.
    pose proof Hrs as Hem. rewrite Heq in Hem. apply list.Forall_app in Hem as [Hpe Hpm].
    destruct (EvalSymlinks (abs_path e)) as [evalE|err] eqn:HeE; [| by eexists].
    pose proof (EvalSymlinks_clean _ _ HeE) as (u & Hu & ->).
    rewrite path_Join_abs by done. destruct (Rel _ _) as [rel|] eqn:Hrel; [| by eexists].
    destruct (String.eqb rel ".." || HasPrefix rel "../") eqn:Ht; [by eexists |].
    eexists. split; [done |]. intros _. exists real. split; [done |]. right.
    apply orb_false_elim in Ht as [Hne%String.eqb_neq Hp].
    destruct (Rel_stays real (u ++ m) rel) as [below Hb]; [done | by apply list.Forall_app | done | done | done |].
    by exists e, m, u, below.
  - eexists. split; [done |]. intros _. exists real. split; [done |]. by left.
Qed.

Lemma resolve_spec r p :
  plain_segs r ->
  exists out, resolve Lstat EvalSymlinks (abs_path r) p = Some out /\
    (IsAbs p = true \/ In ".."%string (Split sep p) -> out = Err ErrPathTraversal) /\
    forall full, out = Ok full ->
      full = abs_path (r ++ rel_segs p) /\ plain_segs (rel_segs p) /\ really_inside r (rel_segs p).
Proof.
  intros Hr. unfold resolve. destruct (IsAbs p) eqn:Ha; [by eexists; split_and! |].
  destruct (existsb _ _) eqn:Hd; [by eexists; split_and! |].
  assert (Hnd : Forall (fun s => s <> ".."%string) (Split sep p)).
  { apply list.Forall_forall. intros s Hin ->. apply not_true_iff_false in Hd. apply Hd. apply existsb_exists.
    exists ".."%string. split; [by apply list_elem_of_In | done]. }
  assert (Hno : IsAbs p = true \/ In ".."%string (Split sep p) -> False).
  { intros [H|H]; [congruence |]. apply list_elem_of_In in H. by apply (proj1 (list.Forall_forall _ _) Hnd) in H. }
  pose proof (rel_segs_plain p Hnd) as Hs. rewrite path_Join_root, Rel_inside by done.
  destruct (HasPrefix _ ".." || _) eqn:Hp; [by eexists; split_and! |].
  destruct (verify_spec r (rel_segs p) Hr Hs) as (out & -> & Hout). rewrite <- Ha in Hno.
  destruct out as [[]|err]; eexists; split_and!; try done; rewrite Ha in *; try tauto; try done.
  intros full [= <-]. split_and!; [done | done | by apply Hout].
Qed.

Lemma shown_segs (s : list string) :
  HasPrefix (Join "/" s) ".." = false ->
  let rel := match s with [] => "."%string | _ => Join "/" s end in
  HasPrefix rel ".." || String.eqb rel ".." = false /\ String.eqb rel ".." || HasPrefix rel "../" = false.
Proof.
  intros H rel. assert (Hr : HasPrefix rel ".." = false) by (by destruct s). clearbody rel. split.
  - rewrite Hr. simpl. by destruct (String.eqb_spec rel "..") as [->|].
  - destruct (String.eqb_spec rel "..") as [->|_]; [done |]. simpl. destruct (HasPrefix rel "../") eqn:Hp; [| done].
    by rewrite (HasPrefix_shorter ".." "/" rel Hp) in Hr.
Qed.

(** Without symlinks the check accepts every other path. *)
Lemma resolve_accepts r p :
  plain_segs r -> (forall x, Lstat x = true -> EvalSymlinks x = Ok x) -> Lstat (abs_path r) = true ->
  IsAbs p = false -> ~ In ".."%string (Split sep p) -> HasPrefix (Join "/" (rel_segs p)) ".." = false ->
  resolve Lstat EvalSymlinks (abs_path r) p = Some (Ok (abs_path (r ++ rel_segs p))).
Proof.
  intros Hr Hreal HL Ha Hd Hp. assert (Hnd : Forall (fun s => s <> ".."%string) (Split sep p)).
  { apply list.Forall_forall. intros s Hin ->. by apply Hd, list_elem_of_In. }
  pose proof (rel_segs_plain p Hnd) as Hs. assert (Hrs : plain_segs (r ++ rel_segs p)) by (by apply list.Forall_app).
  unfold resolve. rewrite Ha. destruct (existsb _ _) eqn:Hex; [apply existsb_exists in Hex as (x & Hin & ->%String.eqb_eq); done |].
  rewrite path_Join_root, Rel_inside by done. destruct (shown_segs _ Hp) as [-> Hsym]. unfold verifyNoSymlinkEscape.
  rewrite (Hreal _ HL). pose proof (length_abs_ge _ Hrs) as Hlen.
  pose proof (nearest_spec (r ++ rel_segs p) [] (S (String.length (abs_path (r ++ rel_segs p)))) Hrs ltac:(lia)) as Hn.
  destruct (nearest _ _ _ _) as [[[existing t]|]|]; [| done | done]. destruct Hn as (e & m & -> & -> & Heq & He & _).
  pose proof Hrs as Hem. rewrite Heq in Hem. apply list.Forall_app in Hem as [Hpe Hpm].
  rewrite app_nil_r, (Hreal _ He), path_Join_abs, <- Heq, Rel_inside, Hsym by done. done.
Qed.

Definition inside (r : list string) (calls : list os_call) : Prop :=
  forall c x, In c calls -> In x (touched c) -> exists t, x = abs_path (r ++ t).

Lemma inside_nil r : inside r [].
Proof. by intros c x Hc. Qed.
#[local] Hint Resolve inside_nil : core.

Lemma one_call_inside {A} call missing (ans : result E A) r p :
  (forall x, touched (call x) = [x]) -> plain_segs r ->
  exists calls res, one_call Lstat EvalSymlinks call missing ans (abs_path r) p = Some (calls, res) /\ inside r calls.
Proof.
  intros Hc Hr. unfold one_call. destruct (resolve_spec r p Hr) as ([full|e] & -> & _ & Hfull); [| by eexists _, _].
  destruct (Hfull full eq_refl) as (-> & _). eexists _, _. split; [done |].
  intros c x [<-|[]]. rewrite Hc. intros [<-|[]]. by eexists.
Qed.

(** The name [os.CreateTemp] answers is in the directory it was given. *)
Definition temp_in_dir (env : @put_env E) (dir : string) : Prop :=
  forall tmp s, p_create env = Ok tmp -> dir = abs_path s -> exists n, tmp = abs_path (s ++ [n]).

Lemma Dir_inside r s : plain_segs (r ++ s) -> s <> [] -> exists t, Dir (abs_path (r ++ s)) = abs_path (r ++ t).
Proof.
  intros H Hne. destruct s as [|x s _] using rev_ind; [done |]. exists s. rewrite app_assoc in *. by apply Dir_snoc.
Qed.

Lemma PutStream_inside env r p :
  plain_segs r -> rel_segs p <> [] -> (forall dir, temp_in_dir env dir) ->
  exists calls err, PutStream Lstat EvalSymlinks env (abs_path r) p = Some (calls, err) /\ inside r calls.
Proof.
  intros Hr Hne Htmp. unfold PutStream. destruct (p_ctx env) as [e|]; [by eexists _, _ |].
  destruct (resolve_spec r p Hr) as ([full|e] & -> & _ & Hfull); [| by eexists _, _].
  destruct (Hfull full eq_refl) as (-> & Hs & _).
  destruct (Dir_inside r (rel_segs p)) as [t Ht]; [by apply list.Forall_app | done |]. rewrite Ht.
  assert (Hdir : exists t', abs_path (r ++ t) = abs_path (r ++ t')) by by eexists.
  assert (Hf : exists t', abs_path (r ++ rel_segs p) = abs_path (r ++ t')) by by eexists.
  destruct (p_mkdir env) as [e|].
  { eexists _, _. split; [done |]. intros c x [<-|[]] [<-|[]]. done. }
  destruct (p_create env) as [tmp|e] eqn:Hc.
  2: { eexists _, _. split; [done |]. intros c x [<-|[<-|[]]] [<-|[]]; done. }
  assert (Hin : exists t', tmp = abs_path (r ++ t')).
  { destruct (Htmp (abs_path (r ++ t)) tmp (r ++ t) Hc eq_refl) as [n ->]. exists (t ++ [n]). by rewrite app_assoc. }
  destruct (p_copy env), (p_close env), (p_chmod env), (p_rename env); eexists _, _; (split; [done |]);
    intros c x Hcall Hx; simpl in Hcall; repeat (destruct Hcall as [<-|Hcall]; [simpl in Hx; naive_solver |]); done.
Qed.

Lemma Move_inside missing mkdir rename r src dst :
  plain_segs r -> rel_segs dst <> [] ->
  exists calls err, Move Lstat EvalSymlinks missing mkdir rename (abs_path r) src dst = Some (calls, err) /\ inside r calls.
Proof.
  intros Hr Hne. unfold Move. destruct (resolve_spec r src Hr) as ([full|e] & -> & _ & Hfull); [| by eexists _, _].
  destruct (Hfull full eq_refl) as (-> & _). destruct (resolve_spec r dst Hr) as ([full'|e] & -> & _ & Hfull'); [| by eexists _, _].
  destruct (Hfull' full' eq_refl) as (-> & Hs & _).
  destruct (Dir_inside r (rel_segs dst)) as [t Ht]; [by apply list.Forall_app | done |]. rewrite Ht.
  destruct mkdir as [e|]; (eexists _, _; split; [done |]; intros c x Hcall Hx; simpl in Hcall;
    repeat (destruct Hcall as [<-|Hcall]; [simpl in Hx; naive_solver |]); done).
Qed.

(** A write replaces the file in one step or not at all: it renames the whole
    temporary file over the path when everything before succeeded, and whatever
    fails once the temporary file is there, it is removed last. *)
Definition write_shape (calls : list os_call) (err : option (@fs_error E)) : Prop :=
  match err with
  | None => exists dir tmp full, calls = [MkdirAll dir; CreateTemp dir; CopyInto tmp; Chmod tmp; Rename tmp full]
  | Some _ =>
      (forall tmp, ~ In (CopyInto tmp) calls) /\ (forall a b, ~ In (Rename a b) calls) \/
      exists tmp, In (CopyInto tmp) calls /\ list.last calls = Some (Remove tmp) /\
                  forall a b, In (Rename a b) calls -> a = tmp
  end.

Lemma PutStream_shape env root p calls err :
  PutStream Lstat EvalSymlinks env root p = Some (calls, err) -> write_shape calls err /\ (err = None -> p_rename env = None).
Proof.
  unfold PutStream. destruct (p_ctx env) as [e|]; [intros [= <- <-]; split; [left; split; naive_solver | done] |].
  destruct (resolve _ _ _ _) as [[full|e]|]; [| intros [= <- <-]; split; [left; split; naive_solver | done] | done].
  destruct (p_mkdir env) as [e|]; [intros [= <- <-]; split; [left; split; simpl; naive_solver | done] |].
  destruct (p_create env) as [tmp|e]; [| intros [= <- <-]; split; [left; split; simpl; naive_solver | done]].
  destruct (p_copy env), (p_close env), (p_chmod env), (p_rename env); intros [= <- <-];
    (split; [| by (done || intros [=])]); first [by eexists _, _, _ | right; exists tmp; simpl; naive_solver].
Qed.
End Safety.


Definition w_links (x : string) : result unit string :=
  if String.eqb x "/srv/data" then Ok "/srv/data"%string
  else if String.eqb x "/srv/data/link" then Ok "/etc"%string else Err tt.
Definition w_exists (x : string) : bool := String.eqb x "/srv/data" || String.eqb x "/srv/data/link" || String.eqb x "/srv".


(** A write is atomic: it ends with one rename of the complete temporary file, or
    fails and removes that file last. *)
Theorem PutStream_atomic {E} (Lstat : string -> bool) (EvalSymlinks : string -> result E string) env root p calls err :
  PutStream Lstat EvalSymlinks env root p = Some (calls, err) -> write_shape calls err /\ (err = None -> p_rename env = None).
Proof. apply PutStream_shape. Qed.

(** ** The edges *)

Definition put_ok : @put_env unit := mkPut None None (Ok "/srv/.tmp-1"%string) None None None None.

(** A write to the empty path (or ["."]) makes its temporary file beside the
    root, in the directory above it. *)
Theorem put_root_leaves_root :
  PutStream w_exists w_links put_ok "/srv/data" "" =
  Some ([MkdirAll "/srv"; CreateTemp "/srv"; CopyInto "/srv/.tmp-1"; Chmod "/srv/.tmp-1"; Rename "/srv/.tmp-1" "/srv/data"], None).
Proof. reflexivity. Qed.

(** Deleting the empty path removes the root itself. *)
Theorem delete_root : Delete w_exists w_links (fun _ => false) (Ok tt) "/srv/data" "" = Some ([Remove "/srv/data"], None).
Proof. reflexivity. Qed.

(** A name that only begins with two dots is taken for a traversal. *)
Theorem dotdot_name_refused :
  resolve w_exists w_links "/srv/data" "..cache" = Some (Err ErrPathTraversal) /\
  resolve w_exists w_links "/srv/data" "a/..cache" = Some (Ok "/srv/data/a/..cache"%string).
Proof. split; reflexivity. Qed.
