(* ===== verification/Schema.v ===== *)
(** The table builder: [src/schema/blueprint.go], [column.go], [index.go] and
    [schema.go].

    A blueprint is a record; the pointers its methods return are the positions of
    the columns, indexes and foreign keys they add, and chaining a modifier is
    [on_column], [on_index] or [on_foreign] at that position. *)

From Stdlib Require Import ZArith Lia Ascii.
From Stdlib Require String.
From stdpp Require Import base gmap strings list numbers.
From S2P Require Import Prelude GoRt GoStrconv GoStrings.

#[local] Set Warnings "-register-all".
#[local] Open Scope string_scope.
#[local] Open Scope list_scope.
#[local] Open Scope Z_scope.

(** ** Columns *)

Notation ColumnKind := string (only parsing).

Definition KindBigIncrements : ColumnKind := "bigIncrements".
Definition KindIncrements : ColumnKind := "increments".
Definition KindBigInteger : ColumnKind := "bigInteger".
Definition KindInteger : ColumnKind := "integer".
Definition KindSmallInteger : ColumnKind := "smallInteger".
Definition KindTinyInteger : ColumnKind := "tinyInteger".
Definition KindUnsignedBig : ColumnKind := "unsignedBigInteger".
Definition KindUnsignedInt : ColumnKind := "unsignedInteger".
Definition KindFloat : ColumnKind := "float".
Definition KindDouble : ColumnKind := "double".
Definition KindDecimal : ColumnKind := "decimal".
Definition KindBoolean : ColumnKind := "boolean".
Definition KindString : ColumnKind := "string".
Definition KindChar : ColumnKind := "char".
Definition KindText : ColumnKind := "text".
Definition KindMediumText : ColumnKind := "mediumText".
Definition KindLongText : ColumnKind := "longText".
Definition KindBinary : ColumnKind := "binary".
Definition KindUUID : ColumnKind := "uuid".
Definition KindJSON : ColumnKind := "json".
Definition KindJSONB : ColumnKind := "jsonb".
Definition KindDate : ColumnKind := "date".
Definition KindDateTime : ColumnKind := "dateTime".
Definition KindTime : ColumnKind := "time".
Definition KindTimestamp : ColumnKind := "timestamp".
Definition KindTimestampTZ : ColumnKind := "timestampTz".
Definition KindEnum : ColumnKind := "enum".
Definition KindSet : ColumnKind := "set".

(** A default: [VOther] is any other Go value, with the text [%v] prints for it. *)
Inductive default_value := VNil | VBool (b : bool) | VString (s : string) | VOther (text : string).

Record Column := mkColumn {
  Name : string; Kind : ColumnKind; Length : Z; Precision : Z; Scale : Z;
  NullableV : bool; HasDefault : bool; DefaultV : default_value;
  IsUnique : bool; IsIndex : bool; IsPrimary : bool; UnsignedV : bool; AutoInc : bool;
  CommentV : string; AfterV : string; FirstV : bool; Allowed : list string; UseCurrent : bool }.

(** A column as [&Column{Name: name, Kind: kind}] makes it. *)
Definition col (name : string) (kind : ColumnKind) : Column :=
  mkColumn name kind 0 0 0 false false VNil false false false false false "" "" false [] false.

Definition Nullable (c : Column) : Column :=
  mkColumn (Name c) (Kind c) (Length c) (Precision c) (Scale c) true (HasDefault c) (DefaultV c) (IsUnique c) (IsIndex c)
    (IsPrimary c) (UnsignedV c) (AutoInc c) (CommentV c) (AfterV c) (FirstV c) (Allowed c) (UseCurrent c).
Definition NotNull (c : Column) : Column :=
  mkColumn (Name c) (Kind c) (Length c) (Precision c) (Scale c) false (HasDefault c) (DefaultV c) (IsUnique c) (IsIndex c)
    (IsPrimary c) (UnsignedV c) (AutoInc c) (CommentV c) (AfterV c) (FirstV c) (Allowed c) (UseCurrent c).
Definition Default (v : default_value) (c : Column) : Column :=
  mkColumn (Name c) (Kind c) (Length c) (Precision c) (Scale c) (NullableV c) true v (IsUnique c) (IsIndex c)
    (IsPrimary c) (UnsignedV c) (AutoInc c) (CommentV c) (AfterV c) (FirstV c) (Allowed c) (UseCurrent c).
Definition UseCurrentDefault (c : Column) : Column :=
  mkColumn (Name c) (Kind c) (Length c) (Precision c) (Scale c) (NullableV c) true (DefaultV c) (IsUnique c) (IsIndex c)
    (IsPrimary c) (UnsignedV c) (AutoInc c) (CommentV c) (AfterV c) (FirstV c) (Allowed c) true.
Definition Unique (c : Column) : Column :=
  mkColumn (Name c) (Kind c) (Length c) (Precision c) (Scale c) (NullableV c) (HasDefault c) (DefaultV c) true (IsIndex c)
    (IsPrimary c) (UnsignedV c) (AutoInc c) (CommentV c) (AfterV c) (FirstV c) (Allowed c) (UseCurrent c).
Definition Index_ (c : Column) : Column :=
  mkColumn (Name c) (Kind c) (Length c) (Precision c) (Scale c) (NullableV c) (HasDefault c) (DefaultV c) (IsUnique c) true
    (IsPrimary c) (UnsignedV c) (AutoInc c) (CommentV c) (AfterV c) (FirstV c) (Allowed c) (UseCurrent c).
Definition Primary (c : Column) : Column :=
  mkColumn (Name c) (Kind c) (Length c) (Precision c) (Scale c) (NullableV c) (HasDefault c) (DefaultV c) (IsUnique c) (IsIndex c)
    true (UnsignedV c) (AutoInc c) (CommentV c) (AfterV c) (FirstV c) (Allowed c) (UseCurrent c).
Definition Unsigned (c : Column) : Column :=
  mkColumn (Name c) (Kind c) (Length c) (Precision c) (Scale c) (NullableV c) (HasDefault c) (DefaultV c) (IsUnique c) (IsIndex c)
    (IsPrimary c) true (AutoInc c) (CommentV c) (AfterV c) (FirstV c) (Allowed c) (UseCurrent c).
Definition AutoIncrement (c : Column) : Column :=
  mkColumn (Name c) (Kind c) (Length c) (Precision c) (Scale c) (NullableV c) (HasDefault c) (DefaultV c) (IsUnique c) (IsIndex c)
    (IsPrimary c) (UnsignedV c) true (CommentV c) (AfterV c) (FirstV c) (Allowed c) (UseCurrent c).
Definition Comment (s : string) (c : Column) : Column :=
  mkColumn (Name c) (Kind c) (Length c) (Precision c) (Scale c) (NullableV c) (HasDefault c) (DefaultV c) (IsUnique c) (IsIndex c)
    (IsPrimary c) (UnsignedV c) (AutoInc c) s (AfterV c) (FirstV c) (Allowed c) (UseCurrent c).
Definition After (name : string) (c : Column) : Column :=
  mkColumn (Name c) (Kind c) (Length c) (Precision c) (Scale c) (NullableV c) (HasDefault c) (DefaultV c) (IsUnique c) (IsIndex c)
    (IsPrimary c) (UnsignedV c) (AutoInc c) (CommentV c) name (FirstV c) (Allowed c) (UseCurrent c).
Definition First (c : Column) : Column :=
  mkColumn (Name c) (Kind c) (Length c) (Precision c) (Scale c) (NullableV c) (HasDefault c) (DefaultV c) (IsUnique c) (IsIndex c)
    (IsPrimary c) (UnsignedV c) (AutoInc c) (CommentV c) (AfterV c) true (Allowed c) (UseCurrent c).
Definition Allow (values : list string) (c : Column) : Column :=
  mkColumn (Name c) (Kind c) (Length c) (Precision c) (Scale c) (NullableV c) (HasDefault c) (DefaultV c) (IsUnique c) (IsIndex c)
    (IsPrimary c) (UnsignedV c) (AutoInc c) (CommentV c) (AfterV c) (FirstV c) values (UseCurrent c).

Definition with_length (l : Z) (c : Column) : Column :=
  mkColumn (Name c) (Kind c) l (Precision c) (Scale c) (NullableV c) (HasDefault c) (DefaultV c) (IsUnique c) (IsIndex c)
    (IsPrimary c) (UnsignedV c) (AutoInc c) (CommentV c) (AfterV c) (FirstV c) (Allowed c) (UseCurrent c).
Definition with_precision (p s : Z) (c : Column) : Column :=
  mkColumn (Name c) (Kind c) (Length c) p s (NullableV c) (HasDefault c) (DefaultV c) (IsUnique c) (IsIndex c)
    (IsPrimary c) (UnsignedV c) (AutoInc c) (CommentV c) (AfterV c) (FirstV c) (Allowed c) (UseCurrent c).

Definition Equal (c o : Column) : bool :=
  String.eqb (Name c) (Name o) && String.eqb (Kind c) (Kind o) &&
  (Length c =? Length o) && (Precision c =? Precision o) && (Scale c =? Scale o) &&
  Bool.eqb (NullableV c) (NullableV o) && Bool.eqb (HasDefault c) (HasDefault o) &&
  Bool.eqb (IsUnique c) (IsUnique o) && Bool.eqb (IsIndex c) (IsIndex o) && Bool.eqb (IsPrimary c) (IsPrimary o) &&
  Bool.eqb (UnsignedV c) (UnsignedV o) && Bool.eqb (AutoInc c) (AutoInc o) &&
  String.eqb (Join "," (Allowed c)) (Join "," (Allowed o)).

(** ** Indexes and foreign keys *)

Inductive IndexType := IndexPlain | IndexUnique | IndexPrimary | IndexSpatial | IndexFull.

#[export] Instance IndexType_eq_dec : EqDecision IndexType.
Proof. solve_decision. Defined.

Record Index := mkIndex { NameV : string; Type_ : IndexType; Columns : list string }.

Definition Index_Name (name : string) (i : Index) : Index := mkIndex name (Type_ i) (Columns i).

Record Foreign := mkForeign {
  f_NameV : string; f_Columns : list string; ReferencesTable : string; ReferencesCols : list string;
  OnDeleteAction : string; OnUpdateAction : string }.

Definition Foreign_Name (name : string) (f : Foreign) : Foreign :=
  mkForeign name (f_Columns f) (ReferencesTable f) (ReferencesCols f) (OnDeleteAction f) (OnUpdateAction f).
Definition On (table : string) (f : Foreign) : Foreign :=
  mkForeign (f_NameV f) (f_Columns f) table (ReferencesCols f) (OnDeleteAction f) (OnUpdateAction f).
Definition Foreign_References (cols : list string) (f : Foreign) : Foreign :=
  mkForeign (f_NameV f) (f_Columns f) (ReferencesTable f) cols (OnDeleteAction f) (OnUpdateAction f).
Definition OnDelete (action : string) (f : Foreign) : Foreign :=
  mkForeign (f_NameV f) (f_Columns f) (ReferencesTable f) (ReferencesCols f) action (OnUpdateAction f).
Definition OnUpdate (action : string) (f : Foreign) : Foreign :=
  mkForeign (f_NameV f) (f_Columns f) (ReferencesTable f) (ReferencesCols f) (OnDeleteAction f) action.
Definition CascadeOnDelete : Foreign -> Foreign := OnDelete "cascade".
Definition RestrictOnDelete : Foreign -> Foreign := OnDelete "restrict".
Definition NullOnDelete : Foreign -> Foreign := OnDelete "set null".

(** ** The blueprint *)

Inductive Command :=
| CmdDropColumn (cols : list string)
| CmdRenameColumn (from to : string)
| CmdDropIndex (name : string)
| CmdDropForeign (name : string)
| CmdRenameTable (name : string).

Record Blueprint := mkBlueprint {
  table : string; create : bool; temporary : bool; engine : string; charset : string; collation : string; comment : string;
  columns : list Column; indexes : list Index; foreigns : list Foreign; commands : list Command }.

Definition NewBlueprint (table : string) (create : bool) : Blueprint :=
  mkBlueprint table create false "" "" "" "" [] [] [] [].

Definition with_lists (cs : list Column) (ixs : list Index) (fs : list Foreign) (cmds : list Command) (b : Blueprint) : Blueprint :=
  mkBlueprint (table b) (create b) (temporary b) (engine b) (charset b) (collation b) (comment b) cs ixs fs cmds.

Definition Temporary (b : Blueprint) : Blueprint :=
  mkBlueprint (table b) (create b) true (engine b) (charset b) (collation b) (comment b) (columns b) (indexes b) (foreigns b) (commands b).
Definition Engine (name : string) (b : Blueprint) : Blueprint :=
  mkBlueprint (table b) (create b) (temporary b) name (charset b) (collation b) (comment b) (columns b) (indexes b) (foreigns b) (commands b).
Definition Charset (name : string) (b : Blueprint) : Blueprint :=
  mkBlueprint (table b) (create b) (temporary b) (engine b) name (collation b) (comment b) (columns b) (indexes b) (foreigns b) (commands b).
Definition Collation (name : string) (b : Blueprint) : Blueprint :=
  mkBlueprint (table b) (create b) (temporary b) (engine b) (charset b) name (comment b) (columns b) (indexes b) (foreigns b) (commands b).
Definition Table_Comment (s : string) (b : Blueprint) : Blueprint :=
  mkBlueprint (table b) (create b) (temporary b) (engine b) (charset b) (collation b) s (columns b) (indexes b) (foreigns b) (commands b).

(** What a method returns is where it put what it added. *)
Definition addCol (c : Column) (b : Blueprint) : Blueprint * nat :=
  (with_lists (columns b ++ [c]) (indexes b) (foreigns b) (commands b) b, length (columns b)).
Definition addIndex (i : Index) (b : Blueprint) : Blueprint * nat :=
  (with_lists (columns b) (indexes b ++ [i]) (foreigns b) (commands b) b, length (indexes b)).
Definition addForeign (f : Foreign) (b : Blueprint) : Blueprint * nat :=
  (with_lists (columns b) (indexes b) (foreigns b ++ [f]) (commands b) b, length (foreigns b)).
Definition addCommand (c : Command) (b : Blueprint) : Blueprint :=
  with_lists (columns b) (indexes b) (foreigns b) (commands b ++ [c]) b.

Definition on_column (m : Column -> Column) (h : Blueprint * nat) : Blueprint * nat :=
  (with_lists (alter m h.2 (columns h.1)) (indexes h.1) (foreigns h.1) (commands h.1) h.1, h.2).
Definition on_index (m : Index -> Index) (h : Blueprint * nat) : Blueprint * nat :=
  (with_lists (columns h.1) (alter m h.2 (indexes h.1)) (foreigns h.1) (commands h.1) h.1, h.2).
Definition on_foreign (m : Foreign -> Foreign) (h : Blueprint * nat) : Blueprint * nat :=
  (with_lists (columns h.1) (indexes h.1) (alter m h.2 (foreigns h.1)) (commands h.1) h.1, h.2).

(** The first optional argument, when it is not empty. *)
Definition name_or (default : string) (name : list string) : string :=
  match name with n :: _ => if String.eqb n "" then default else n | [] => default end.

Definition BigIncrements (name : string) : Blueprint -> Blueprint * nat :=
  addCol (Unsigned (AutoIncrement (Primary (col name KindBigIncrements)))).
Definition ID (name : list string) : Blueprint -> Blueprint * nat := BigIncrements (name_or "id" name).
Definition Increments (name : string) : Blueprint -> Blueprint * nat :=
  addCol (Unsigned (AutoIncrement (Primary (col name KindIncrements)))).
Definition UUID (name : string) := addCol (col name KindUUID).
Definition BigInteger (name : string) := addCol (col name KindBigInteger).
Definition Integer (name : string) := addCol (col name KindInteger).
Definition SmallInteger (name : string) := addCol (col name KindSmallInteger).
Definition TinyInteger (name : string) := addCol (col name KindTinyInteger).
Definition UnsignedBigInteger (name : string) := addCol (Unsigned (col name KindUnsignedBig)).
Definition UnsignedInteger (name : string) := addCol (Unsigned (col name KindUnsignedInt)).
Definition Float (name : string) := addCol (col name KindFloat).
Definition Double (name : string) := addCol (col name KindDouble).
Definition Decimal (name : string) (precisionScale : list Z) : Blueprint -> Blueprint * nat :=
  addCol (match precisionScale with
          | [] => with_precision 8 2 (col name KindDecimal)
          | [p] => with_precision p 2 (col name KindDecimal)
          | p :: s :: _ => with_precision p s (col name KindDecimal)
          end).
Definition length_or (default : Z) (length : list Z) : Z :=
  match length with l :: _ => if 0 <? l then l else default | [] => default end.
Definition String_ (name : string) (length : list Z) := addCol (with_length (length_or 255 length) (col name KindString)).
Definition Char (name : string) (length : list Z) := addCol (with_length (length_or 1 length) (col name KindChar)).
Definition Text (name : string) := addCol (col name KindText).
Definition MediumText (name : string) := addCol (col name KindMediumText).
Definition LongText (name : string) := addCol (col name KindLongText).
Definition Binary (name : string) := addCol (col name KindBinary).
Definition Boolean (name : string) := addCol (col name KindBoolean).
Definition JSON (name : string) := addCol (col name KindJSON).
Definition JSONB (name : string) := addCol (col name KindJSONB).
Definition Date (name : string) := addCol (col name KindDate).
Definition DateTime (name : string) := addCol (col name KindDateTime).
Definition Time_ (name : string) := addCol (col name KindTime).
Definition Timestamp (name : string) := addCol (col name KindTimestamp).
Definition TimestampTz (name : string) := addCol (col name KindTimestampTZ).
Definition Timestamps (b : Blueprint) : Blueprint :=
  (addCol (Nullable (col "updated_at" KindTimestamp)) (addCol (Nullable (col "created_at" KindTimestamp)) b).1).1.
Definition SoftDeletes (name : list string) := addCol (Nullable (col (name_or "deleted_at" name) KindTimestamp)).
Definition TimestampsTz (b : Blueprint) : Blueprint :=
  (addCol (Nullable (col "updated_at" KindTimestampTZ)) (addCol (Nullable (col "created_at" KindTimestampTZ)) b).1).1.
Definition Enum (name : string) (allowed : list string) := addCol (Allow allowed (col name KindEnum)).
Definition Set_ (name : string) (allowed : list string) := addCol (Allow allowed (col name KindSet)).

(** ** Foreign keys and indexes of a blueprint *)

Definition Foreign_ (cols : list string) := addForeign (mkForeign "" cols "" [] "" "").

(** [TrimSuffix], and the bytes before the last one. *)
Definition TrimSuffix (s suffix : string) : string :=
  let n := (String.length s - String.length suffix)%nat in
  if String.eqb (skip_bytes n s) suffix then String.substring 0 n s else s.

Definition pluralizeSimple (s : string) : string :=
  match String.get (String.length s - 1) s with
  | None => s
  | Some c =>
      if Ascii.eqb c "y" then (String.substring 0 (String.length s - 1) s +:+ "ies")%string
      else if Ascii.eqb c "s" || Ascii.eqb c "x" || Ascii.eqb c "z" then (s +:+ "es")%string
      else (s +:+ "s")%string
  end.

Definition inferReferencedTable (c : string) : string :=
  let s := TrimSuffix c "_id" in
  if String.eqb s c then c else pluralizeSimple s.

(** [ForeignId]: the column, where [Constrained] and [References] hang on. *)
Definition ForeignId (name : string) : Blueprint -> Blueprint * nat := UnsignedBigInteger name.

Definition column_name (h : Blueprint * nat) : string :=
  match columns h.1 !! h.2 with Some c => Name c | None => "" end.

Definition Constrained (table : list string) (h : Blueprint * nat) : Blueprint * nat :=
  let target := name_or (inferReferencedTable (column_name h)) table in
  addForeign (mkForeign "" [column_name h] target ["id"%string] "" "") h.1.

Definition References (cols : list string) (h : Blueprint * nat) : Blueprint * nat :=
  addForeign (mkForeign "" [column_name h] "" cols "" "") h.1.

Definition Cascade (table : list string) (h : Blueprint * nat) : Blueprint * nat :=
  on_foreign (OnDelete "cascade") (Constrained table h).

Definition Unique_ (cols : list string) := addIndex (mkIndex "" IndexUnique cols).
Definition AddIndex (cols : list string) := addIndex (mkIndex "" IndexPlain cols).
Definition Primary_ (cols : list string) := addIndex (mkIndex "" IndexPrimary cols).

Definition DropColumn (cols : list string) := addCommand (CmdDropColumn cols).
Definition RenameColumn (from to : string) := addCommand (CmdRenameColumn from to).
Definition DropIndex (name : string) := addCommand (CmdDropIndex name).
Definition DropForeign (name : string) := addCommand (CmdDropForeign name).
Definition RenameTo (name : string) := addCommand (CmdRenameTable name).

(** ** Validation *)

Inductive schema_error :=
| ErrColumnWithoutName
| ErrDuplicateColumn (name : string)
| ErrDropForeign (name : string)
| ErrRenameTarget
| ErrNilDefinition.

Fixpoint validate_from (seen : list string) (cs : list Column) : option schema_error :=
  match cs with
  | [] => None
  | c :: cs =>
      if String.eqb (Name c) "" then Some ErrColumnWithoutName
      else if bool_decide (Name c ∈ seen) then Some (ErrDuplicateColumn (Name c))
      else validate_from (Name c :: seen) cs
  end.

Definition validate (b : Blueprint) : option schema_error := validate_from [] (columns b).

(** ** Definitions *)

Inductive Operation := OpCreate | OpCreateIfNotExists | OpAlter | OpDrop | OpDropIfExists | OpRename.

Record Definition_ := mkDefinition { def_Blueprint : Blueprint; def_Op : Operation }.

Definition Create (table : string) (fn : Blueprint -> Blueprint) : Definition_ := mkDefinition (fn (NewBlueprint table true)) OpCreate.
Definition CreateIfNotExists (table : string) (fn : Blueprint -> Blueprint) : Definition_ :=
  mkDefinition (def_Blueprint (Create table fn)) OpCreateIfNotExists.
Definition Table (table : string) (fn : Blueprint -> Blueprint) : Definition_ := mkDefinition (fn (NewBlueprint table false)) OpAlter.
Definition Drop (table : string) : Definition_ := mkDefinition (NewBlueprint table false) OpDrop.
Definition DropIfExists (table : string) : Definition_ := mkDefinition (NewBlueprint table false) OpDropIfExists.
Definition Rename (from to : string) : Definition_ := mkDefinition (RenameTo to (NewBlueprint from false)) OpRename.

(** ** Laws *)

Lemma validate_from_spec seen cs :
  validate_from seen cs = None <->
  Forall (fun c => Name c <> ""%string /\ Name c ∉ seen) cs /\ NoDup (map Name cs).
Proof.
  revert seen. induction cs as [|c cs IH]; intros seen; simpl.
  { split; [intros _; split; constructor | done]. }
  destruct (String.eqb_spec (Name c) "") as [Hn|Hn].
  { split; [done |]. intros [(? & _)%list.Forall_cons _]. by destruct H. }
  case_bool_decide as Hs. { split; [done |]. intros [(? & _)%list.Forall_cons _]. by destruct H. }
  rewrite IH, list.Forall_cons, list.NoDup_cons. split.
  - intros [H1 H2]. split_and!; [done | done | | | done].
    + eapply list.Forall_impl; [exact H1 |]. simpl. intros x [? Hx]. split; [done |]. by apply not_elem_of_cons in Hx as [_ ?].
    + intros (x & Hx & Hin)%list_elem_of_fmap. apply (proj1 (list.Forall_forall _ _) H1) in Hin as [_ Hin]. apply Hin. rewrite <- Hx. by left.
  - intros [[_ H1] [Hc H2]]. split; [| done]. apply list.Forall_forall. intros x Hin.
    apply (proj1 (list.Forall_forall _ _) H1) in Hin as Hx. destruct Hx as [? Hx]. split; [done |].
    apply not_elem_of_cons. split; [| done]. intros Heq. apply Hc. rewrite <- Heq. by apply (list_elem_of_fmap_2 Name).
Qed.

Lemma validate_spec b :
  validate b = None <-> Forall (fun c => Name c <> ""%string) (columns b) /\ NoDup (map Name (columns b)).
Proof.
  unfold validate. rewrite validate_from_spec. split; intros [H1 H2]; (split; [| done]);
    (eapply list.Forall_impl; [exact H1 |]); simpl; [by intros x [? _] | intros x ?; split; [done | apply not_elem_of_nil]].
Qed.
