(* ===== verification/SchemaSql.v ===== *)
(** The DDL compiler: [src/schema/grammar.go], and [CompileType] of the three
    drivers ([src/drivers/mysql], [postgres], [sqlite]).

    A statement is its text: the compiler never sets arguments.  The theorems
    read the text with the reader of [Sql]. *)

From Stdlib Require Import ZArith Lia Ascii.
From Stdlib Require String.
From stdpp Require Import base gmap strings list numbers.
From S2P Require Import Prelude GoRt GoStrconv GoStrings Sql Schema.

#[local] Set Warnings "-register-all".
#[local] Open Scope string_scope.
#[local] Open Scope list_scope.
#[local] Open Scope Z_scope.

(** ** Types of the drivers *)

Record ColumnTypeOptions := mkTypeOptions {
  o_Length : Z; o_Precision : Z; o_Scale : Z; o_Unsigned : bool; o_AutoIncrement : bool; o_Allowed : list string }.

Definition CompileType_ := string -> ColumnTypeOptions -> string.

Definition quoteString (s : string) : string := "'" +:+ double_byte apostrophe s +:+ "'".

Definition quotedList (values : list string) : string := join ", " (map quoteString values).

(** The value, with a default when it is zero. *)
Definition nonzero_or (default v : Z) : Z := if v =? 0 then default else v.

Definition sized (type : string) (n : Z) : string := type +:+ "(" +:+ FormatInt n +:+ ")".
Definition scaled (type : string) (o : ColumnTypeOptions) : string :=
  type +:+ "(" +:+ FormatInt (nonzero_or 8 (o_Precision o)) +:+ "," +:+ FormatInt (o_Scale o) +:+ ")".

(** A [switch] on a string: the first case that lists it. *)
Fixpoint switch {A} (k : string) (cases : list (list string * A)) (default : A) : A :=
  match cases with
  | [] => default
  | (ks, a) :: cases => if existsb (String.eqb k) ks then a else switch k cases default
  end.

Definition mysql_suffix (kind : string) (o : ColumnTypeOptions) : string :=
  if o_Unsigned o
     && existsb (String.eqb kind)
          ["bigInteger"; "integer"; "smallInteger"; "tinyInteger"; "unsignedBigInteger"; "unsignedInteger"; "bigIncrements"; "increments"]
  then " UNSIGNED" else "".

Definition mysql_CompileType (kind : string) (o : ColumnTypeOptions) : string :=
  let suffix := mysql_suffix kind o in
  let auto := if o_AutoIncrement o then " AUTO_INCREMENT" else "" in
  switch kind
    [ (["bigIncrements"; "unsignedBigInteger"], "BIGINT" +:+ suffix +:+ auto);
      (["increments"; "unsignedInteger"], "INT" +:+ suffix +:+ auto);
      (["bigInteger"], "BIGINT" +:+ suffix);
      (["integer"], "INT" +:+ suffix);
      (["smallInteger"], "SMALLINT" +:+ suffix);
      (["tinyInteger"], "TINYINT" +:+ suffix);
      (["float"], "FLOAT"); (["double"], "DOUBLE");
      (["decimal"], scaled "DECIMAL" o);
      (["boolean"], "TINYINT(1)");
      (["string"], sized "VARCHAR" (nonzero_or 255 (o_Length o)));
      (["char"], sized "CHAR" (nonzero_or 1 (o_Length o)));
      (["text"], "TEXT"); (["mediumText"], "MEDIUMTEXT"); (["longText"], "LONGTEXT"); (["binary"], "BLOB");
      (["uuid"], "CHAR(36)"); (["json"; "jsonb"], "JSON");
      (["date"], "DATE"); (["dateTime"], "DATETIME"); (["timestamp"; "timestampTz"], "TIMESTAMP"); (["time"], "TIME");
      (["enum"], "ENUM(" +:+ quotedList (o_Allowed o) +:+ ")");
      (["set"], "SET(" +:+ quotedList (o_Allowed o) +:+ ")");
      (["ipAddress"], "VARCHAR(45)"); (["macAddress"], "VARCHAR(17)") ]
    "TEXT".

Definition postgres_CompileType (kind : string) (o : ColumnTypeOptions) : string :=
  switch kind
    [ (["bigIncrements"], "BIGSERIAL"); (["increments"], "SERIAL");
      (["bigInteger"; "unsignedBigInteger"], "BIGINT");
      (["integer"; "unsignedInteger"], "INTEGER");
      (["smallInteger"], "SMALLINT"); (["tinyInteger"], "SMALLINT");
      (["float"], "REAL"); (["double"], "DOUBLE PRECISION");
      (["decimal"], scaled "NUMERIC" o);
      (["boolean"], "BOOLEAN");
      (["string"], sized "VARCHAR" (nonzero_or 255 (o_Length o)));
      (["char"], sized "CHAR" (nonzero_or 1 (o_Length o)));
      (["text"; "mediumText"; "longText"], "TEXT"); (["binary"], "BYTEA");
      (["uuid"], "UUID"); (["json"], "JSON"); (["jsonb"], "JSONB");
      (["date"], "DATE"); (["dateTime"; "timestamp"], "TIMESTAMP");
      (["timestampTz"], "TIMESTAMP WITH TIME ZONE"); (["time"], "TIME");
      (["enum"], "VARCHAR(255)"); (["set"], "TEXT[]");
      (["ipAddress"], "INET"); (["macAddress"], "MACADDR") ]
    "TEXT".

Definition sqlite_CompileType (kind : string) (o : ColumnTypeOptions) : string :=
  switch kind
    [ (["bigIncrements"; "increments"], "INTEGER");
      (["bigInteger"; "unsignedBigInteger"], "INTEGER");
      (["integer"; "unsignedInteger"], "INTEGER");
      (["smallInteger"; "tinyInteger"], "INTEGER");
      (["float"; "double"], "REAL");
      (["decimal"], scaled "NUMERIC" o);
      (["boolean"], "BOOLEAN");
      (["string"], sized "VARCHAR" (nonzero_or 255 (o_Length o)));
      (["char"], sized "CHAR" (nonzero_or 1 (o_Length o)));
      (["text"; "mediumText"; "longText"], "TEXT"); (["binary"], "BLOB");
      (["uuid"], "VARCHAR(36)"); (["json"; "jsonb"], "TEXT");
      (["date"], "DATE"); (["dateTime"; "timestamp"; "timestampTz"], "DATETIME"); (["time"], "TIME");
      (["enum"; "set"], "TEXT");
      (["ipAddress"], "VARCHAR(45)"); (["macAddress"], "VARCHAR(17)") ]
    "TEXT".

(** ** The compiler *)

(** [nameAllocator]: how often each generated name was asked for. *)
Notation allocator := (gmap string Z) (only parsing).

Definition unique (base : string) (names : allocator) : string * allocator :=
  let n := default 0 (names !! base) + 1 in
  (if 1 <? n then base +:+ "_" +:+ FormatInt n else base, <[base := n]> names).

Definition index_type_text (t : IndexType) : string :=
  match t with
  | IndexPlain => "index" | IndexUnique => "unique" | IndexPrimary => "primary" | IndexSpatial => "spatial" | IndexFull => "fulltext"
  end.

(** The columns of the primary key: flagged ones, then those of [Primary], once each. *)
Definition add_pk (out : list string) (name : string) : list string :=
  if String.eqb name "" || bool_decide (name ∈ out) then out else out ++ [name].

Definition primaryKeyColumns (b : Blueprint) : list string :=
  let flagged := foldl (fun out c => if IsPrimary c then add_pk out (Schema.Name c) else out) [] (columns b) in
  foldl (fun out i => if bool_decide (Type_ i = IndexPrimary) then foldl add_pk out (Columns i) else out) flagged (indexes b).

Section Compiler.
Context (uni_upper : string -> string) (g : Grammar) (CompileType : CompileType_).

Definition ToUpper (s : string) : string := if is_ascii s then string_map upper_ascii s else uni_upper s.

Definition named (n : string) : bool := bool_decide (Sql.Name g = n).

Definition joinQuoted (cols : list string) : string := join ", " (map (Quote g) cols).

Definition formatDefault (v : default_value) : string :=
  match v with
  | VBool x => if named "postgres" then if x then "TRUE" else "FALSE" else if x then "1" else "0"
  | VNil => "NULL"
  | VString s => quoteString s
  | VOther text => text
  end.

Definition compileColumn (c : Column) (primary inlineUnique : bool) : string :=
  Quote g (Schema.Name c) +:+ " "
  +:+ CompileType (Kind c) (mkTypeOptions (Length c) (Precision c) (Scale c) (UnsignedV c) (AutoInc c) (Allowed c))
  +:+ (if NullableV c then " NULL" else " NOT NULL")
  +:+ (if HasDefault c then " DEFAULT " +:+ (if UseCurrent c then "CURRENT_TIMESTAMP" else formatDefault (DefaultV c)) else "")
  +:+ (if IsUnique c && negb primary && inlineUnique then " UNIQUE" else "")
  +:+ (if primary then " PRIMARY KEY" else "")
  +:+ (if negb (String.eqb (CommentV c) "") && named "mysql" then " COMMENT " +:+ quoteString (CommentV c) else "").

Definition compileColumnInline (c : Column) (primary : bool) : string := compileColumn c primary true.
Definition compileColumnAdd (c : Column) (primary : bool) : string := compileColumn c primary false.

(** [None] is the empty text. *)
Definition compileEnumCheck (c : Column) : option string :=
  if negb (String.eqb (Kind c) KindEnum) && negb (String.eqb (Kind c) KindSet) then None
  else if named "mysql" || bool_decide (Allowed c = []) then None
  else Some ("CHECK (" +:+ Quote g (Schema.Name c) +:+ " IN (" +:+ join ", " (map quoteString (Allowed c)) +:+ "))").

Definition foreign_name (table : string) (fk : Foreign) : string :=
  if String.eqb (f_NameV fk) "" then "fk_" +:+ table +:+ "_" +:+ join "_" (f_Columns fk) else f_NameV fk.

Definition compileForeignInline (table : string) (fk : Foreign) : string :=
  "CONSTRAINT " +:+ Quote g (foreign_name table fk) +:+ " FOREIGN KEY (" +:+ joinQuoted (f_Columns fk)
  +:+ ") REFERENCES " +:+ Quote g (ReferencesTable fk) +:+ " (" +:+ joinQuoted (ReferencesCols fk) +:+ ")"
  +:+ (if String.eqb (OnDeleteAction fk) "" then "" else " ON DELETE " +:+ ToUpper (OnDeleteAction fk))
  +:+ (if String.eqb (OnUpdateAction fk) "" then "" else " ON UPDATE " +:+ ToUpper (OnUpdateAction fk)).

Definition base_name (table : string) (idx : Index) : string :=
  table +:+ "_" +:+ join "_" (Columns idx) +:+ "_" +:+ index_type_text (Type_ idx).

Definition index_name (table : string) (idx : Index) (names : allocator) : string * allocator :=
  if String.eqb (NameV idx) "" then unique (base_name table idx) names else (NameV idx, names).

Definition index_keyword (t : IndexType) : string :=
  match t with
  | IndexUnique => "CREATE UNIQUE INDEX"
  | IndexFull => "CREATE FULLTEXT INDEX"
  | IndexSpatial => "CREATE SPATIAL INDEX"
  | IndexPlain | IndexPrimary => "CREATE INDEX"
  end.

Definition index_text (table name : string) (idx : Index) : string :=
  index_keyword (Type_ idx) +:+ " " +:+ Quote g name +:+ " ON " +:+ Quote g table +:+ " (" +:+ joinQuoted (Columns idx) +:+ ")".

Definition compileIndex (table : string) (idx : Index) (names : allocator) : string * allocator :=
  let '(name, names) := index_name table idx names in (index_text table name idx, names).

(** The statements of a list of indexes, the allocator passed along. *)
Fixpoint compileIndexes (table : string) (ixs : list Index) (names : allocator) : list string * allocator :=
  match ixs with
  | [] => ([], names)
  | idx :: ixs =>
      let '(s, names) := compileIndex table idx names in
      let '(ss, names) := compileIndexes table ixs names in (s :: ss, names)
  end.

Definition tableComment (table comment : string) : option string :=
  if named "postgres" then Some ("COMMENT ON TABLE " +:+ Quote g table +:+ " IS " +:+ quoteString comment)
  else if named "mysql" then Some ("ALTER TABLE " +:+ Quote g table +:+ " COMMENT = " +:+ quoteString comment)
  else None.

Definition inlinePK (b : Blueprint) : string := match primaryKeyColumns b with [n] => n | _ => "" end.

Definition inline_primary (b : Blueprint) (c : Column) : bool :=
  negb (String.eqb (inlinePK b) "") && String.eqb (Schema.Name c) (inlinePK b).

(** The index that [Index] on a column stands for. *)
Definition column_index (t : IndexType) (c : Column) : Index := mkIndex "" t [Schema.Name c].

Definition create_indexes (b : Blueprint) : list Index :=
  List.filter (fun i => negb (bool_decide (Type_ i = IndexPrimary))) (indexes b)
  ++ map (column_index IndexPlain) (List.filter IsIndex (columns b)).

Definition create_body (b : Blueprint) : list string :=
  map (fun c => compileColumnInline c (inline_primary b c)) (columns b)
  ++ (match primaryKeyColumns b with _ :: _ :: _ => ["PRIMARY KEY (" +:+ joinQuoted (primaryKeyColumns b) +:+ ")"] | _ => [] end)
  ++ map (compileForeignInline (table b)) (foreigns b)
  ++ omap compileEnumCheck (columns b).

Definition mysql_option (keyword v : string) : string :=
  if negb (String.eqb v "") && named "mysql" then keyword +:+ v else "".

Definition create_table (b : Blueprint) (ifNotExists : bool) : string :=
  (if temporary b then "CREATE TEMPORARY TABLE" else "CREATE TABLE") +:+ (if ifNotExists then " IF NOT EXISTS" else "")
  +:+ " " +:+ Quote g (table b) +:+ " (" +:+ join ", " (create_body b) +:+ ")"
  +:+ mysql_option " ENGINE=" (engine b) +:+ mysql_option " DEFAULT CHARSET=" (charset b) +:+ mysql_option " COLLATE=" (collation b).

Definition compileCreate (b : Blueprint) (ifNotExists : bool) : list string :=
  [create_table b ifNotExists]
  ++ (compileIndexes (table b) (create_indexes b) ∅).1
  ++ (if String.eqb (comment b) "" then [] else match tableComment (table b) (comment b) with Some s => [s] | None => [] end).

Definition alter (b : Blueprint) : string := "ALTER TABLE " +:+ Quote g (table b).

Definition alter_column (b : Blueprint) (c : Column) : list string :=
  (alter b +:+ " ADD COLUMN " +:+ compileColumnAdd c (IsPrimary c))
  :: match compileEnumCheck c with
     | Some chk => if named "sqlite" then [] else [alter b +:+ " ADD " +:+ chk]
     | None => []
     end.

Definition alter_index (c : Column) : option Index :=
  if IsUnique c then Some (column_index IndexUnique c) else if IsIndex c then Some (column_index IndexPlain c) else None.

Definition alter_indexes (b : Blueprint) : list Index := indexes b ++ omap alter_index (columns b).

Definition compile_command (b : Blueprint) (cmd : Command) : result schema_error (list string) :=
  match cmd with
  | CmdDropColumn cols => Ok (map (fun c => alter b +:+ " DROP COLUMN " +:+ Quote g c) cols)
  | CmdRenameColumn from to => Ok [alter b +:+ " RENAME COLUMN " +:+ Quote g from +:+ " TO " +:+ Quote g to]
  | CmdDropIndex name =>
      Ok [if named "mysql" then "DROP INDEX " +:+ Quote g name +:+ " ON " +:+ Quote g (table b) else "DROP INDEX " +:+ Quote g name]
  | CmdDropForeign name =>
      if named "mysql" then Ok [alter b +:+ " DROP FOREIGN KEY " +:+ Quote g name]
      else if named "sqlite" then Err (ErrDropForeign name)
      else Ok [alter b +:+ " DROP CONSTRAINT " +:+ Quote g name]
  | CmdRenameTable name => Ok [alter b +:+ " RENAME TO " +:+ Quote g name]
  end.

Fixpoint compile_commands (b : Blueprint) (cmds : list Command) : result schema_error (list string) :=
  match cmds with
  | [] => Ok []
  | cmd :: cmds =>
      match compile_command b cmd with
      | Err e => Err e
      | Ok ss => match compile_commands b cmds with Err e => Err e | Ok rest => Ok (ss ++ rest) end
      end
  end.

Definition compileAlter (b : Blueprint) : result schema_error (list string) :=
  let stmts := flat_map (alter_column b) (columns b)
    ++ map (fun fk => alter b +:+ " ADD " +:+ compileForeignInline (table b) fk) (foreigns b)
    ++ (compileIndexes (table b) (alter_indexes b) ∅).1 in
  match compile_commands b (commands b) with Err e => Err e | Ok cmds => Ok (stmts ++ cmds) end.

Fixpoint rename_target (cmds : list Command) : option string :=
  match cmds with
  | [] => None
  | CmdRenameTable name :: _ => Some name
  | _ :: cmds => rename_target cmds
  end.

Definition compileRename (b : Blueprint) : result schema_error (list string) :=
  match rename_target (commands b) with
  | Some name => Ok [alter b +:+ " RENAME TO " +:+ Quote g name]
  | None => Err ErrRenameTarget
  end.

(** [None] is a nil definition. *)
Definition Compile (def : option Definition_) : result schema_error (list string) :=
  match def with
  | None => Err ErrNilDefinition
  | Some d =>
      let b := def_Blueprint d in
      match validate b with
      | Some e => Err e
      | None =>
          match def_Op d with
          | OpCreate => Ok (compileCreate b false)
          | OpCreateIfNotExists => Ok (compileCreate b true)
          | OpAlter => compileAlter b
          | OpDrop => Ok ["DROP TABLE " +:+ Quote g (table b)]
          | OpDropIfExists => Ok ["DROP TABLE IF EXISTS " +:+ Quote g (table b)]
          | OpRename => compileRename b
          end
      end
  end.
End Compiler.

(** ** What the statements read as

    Outside quotes a statement is the compiler's own keywords, the identifiers of
    the blueprint and its raw fragments.  [blank] empties every string of a
    blueprint; [C s t ids] and [R s t ids] say that [s] and [t] read as the same
    tokens, [ids] the identifiers among them. *)

Definition idents (ts : list token) : list string :=
  omap (fun t => match t with TIdent p => Some p | _ => None end) ts.

Definition ident_parts (i : string) : list string := if bool_decide (i = "*") then [] else Split "." i.

Definition blank_all : list string -> list string := map (fun _ => "").
Definition blank_comment (s : string) : string := if String.eqb s "" then "" else "x".
Definition blank_default (v : default_value) : default_value := match v with VString _ => VString "" | _ => v end.

Definition blank_column (c : Column) : Column :=
  mkColumn (Schema.Name c) (Kind c) (Length c) (Precision c) (Scale c) (NullableV c) (HasDefault c) (blank_default (DefaultV c))
    (IsUnique c) (IsIndex c) (IsPrimary c) (UnsignedV c) (AutoInc c) (blank_comment (CommentV c)) (AfterV c) (FirstV c)
    (blank_all (Allowed c)) (UseCurrent c).

Definition blank (b : Blueprint) : Blueprint :=
  mkBlueprint (table b) (create b) (temporary b) (engine b) (charset b) (collation b) (blank_comment (comment b))
    (map blank_column (columns b)) (indexes b) (foreigns b) (commands b).

Definition blank_options (o : ColumnTypeOptions) : ColumnTypeOptions :=
  mkTypeOptions (o_Length o) (o_Precision o) (o_Scale o) (o_Unsigned o) (o_AutoIncrement o) (blank_all (o_Allowed o)).

Lemma idents_app a b : idents (a ++ b) = idents a ++ idents b.
Proof. apply omap_app. Qed.

Lemma idents_bytes s : idents (bytes s) = [] /\ ~ In TParam (bytes s).
Proof.
  unfold bytes. induction (String.list_ascii_of_string s) as [|c l [IH1 IH2]]; [by split; [| intros []] |].
  split; [done |]. by intros [|].
Qed.

Section Reads.
Context (q param : ascii).

Definition C (s t : string) (ids : list string) : Prop :=
  exists ts, closes q param s ts /\ closes q param t ts /\ idents ts = ids /\ ~ In TParam ts.
Definition R (s t : string) (ids : list string) : Prop :=
  exists ts, reads q param s ts /\ reads q param t ts /\ idents ts = ids /\ ~ In TParam ts.

Lemma C_R s t ids : C s t ids -> R s t ids.
Proof. intros (ts & H & H' & ?). exists ts. split_and!; [by apply closes_reads .. | tauto | tauto]. Qed.

Lemma in_app_not {A} (x : A) a b : ~ In x a -> ~ In x b -> ~ In x (a ++ b).
Proof. intros Ha Hb [|]%in_app_or; tauto. Qed.

Lemma C_app s s' t t' a b : C s s' a -> C t t' b -> C (s +:+ t) (s' +:+ t') (a ++ b).
Proof.
  intros (ta & H & G & <- & Ha) (tb & H' & G' & <- & Hb). exists (ta ++ tb). rewrite idents_app.
  split_and!; [by apply closes_app .. | done | by apply in_app_not].
Qed.

Lemma C_R_app s s' t t' a b : C s s' a -> R t t' b -> R (s +:+ t) (s' +:+ t') (a ++ b).
Proof.
  intros (ta & H & G & <- & Ha) (tb & H' & G' & <- & Hb). exists (ta ++ tb). rewrite idents_app.
  split_and!; [by apply closes_reads_app .. | done | by apply in_app_not].
Qed.

Lemma R_C_app s s' t t' a b : R s s' a -> soft q t -> soft q t' -> C t t' b -> C (s +:+ t) (s' +:+ t') (a ++ b).
Proof.
  intros (ta & H & G & <- & Ha) Hs Hs' (tb & H' & G' & <- & Hb). exists (ta ++ tb). rewrite idents_app.
  split_and!; [by apply reads_closes_app .. | done | by apply in_app_not].
Qed.

Lemma C_nil : C EmptyString EmptyString [].
Proof. exists []. split_and!; [apply closes_nil .. | done | by intros []]. Qed.

Context (Hapos : apostrophe <> q /\ apostrophe <> param).

(** A string literal is passed over, whatever it contains. *)
Lemma string_scan s rest : scan q param InString (double_byte apostrophe s +:+ rest) = scan q param InString rest.
Proof.
  induction s as [|c s IH]; [done |]. cbn [double_byte]. destruct (Ascii.eqb_spec c apostrophe) as [->|Hc].
  - change (String apostrophe (String apostrophe (double_byte apostrophe s)) +:+ rest)
      with (String apostrophe (String apostrophe (double_byte apostrophe s +:+ rest))).
    cbn [scan step]. rewrite Ascii.eqb_refl. cbn [scan step]. unfold scan_out. destruct Hapos as [Hq Hp].
    rewrite (proj2 (Ascii.eqb_neq _ _) Hq), (proj2 (Ascii.eqb_neq _ _) Hp), Ascii.eqb_refl, IH.
    by destruct (scan q param InString rest).
  - change (String c (double_byte apostrophe s) +:+ rest) with (String c (double_byte apostrophe s +:+ rest)).
    cbn [scan step]. rewrite (proj2 (Ascii.eqb_neq _ _) Hc), IH. by destruct (scan q param InString rest).
Qed.

Lemma string_closes s : closes q param (quoteString s) [].
Proof.
  intros rest. unfold quoteString. rewrite append_app.
  change ("'" +:+ ((double_byte apostrophe s +:+ "'") +:+ rest)) with (String apostrophe ((double_byte apostrophe s +:+ "'") +:+ rest)).
  rewrite append_app. cbn [scan step]. unfold scan_out. destruct Hapos as [Hq Hp].
  rewrite (proj2 (Ascii.eqb_neq _ _) Hq), (proj2 (Ascii.eqb_neq _ _) Hp), Ascii.eqb_refl, string_scan.
  change ("'" +:+ rest) with (String apostrophe rest). cbn [scan step]. rewrite Ascii.eqb_refl. by destruct (scan q param Outside rest).
Qed.

Lemma C_string s t : C (quoteString s) (quoteString t) [].
Proof. exists []. split_and!; [apply string_closes .. | done | by intros []]. Qed.
End Reads.

(** What the compiler relies on in a driver besides [Lexical]. *)
Class DdlGrammar (q param : ascii) (CompileType : CompileType_) : Prop := {
  ddl_apos : apostrophe <> q /\ apostrophe <> param;
  ddl_type kind o : C q param (CompileType kind o) (CompileType kind (blank_options o)) []
}.

Section Text.
Context (g : Grammar) (q param : ascii) `{!Lexical g q param}.

Notation C := (C q param).
Notation R := (R q param).

Lemma C_safe s : safe s = true -> C s s [].
Proof. intros H. exists (bytes s). destruct (idents_bytes s). split_and!; [by apply safe_closes .. | done | done]. Qed.

Lemma C_safe_C s t t' b : safe s = true -> C t t' b -> C (s +:+ t) (s +:+ t') b.
Proof. intros Hs Ht. change b with ([] ++ b). apply C_app; [by apply C_safe | done]. Qed.

Lemma C_safe_R s t t' b : safe s = true -> R t t' b -> R (s +:+ t) (s +:+ t') b.
Proof. intros Hs Ht. change b with ([] ++ b). apply C_R_app; [by apply C_safe | done]. Qed.

Lemma R_ident i : R (Quote g i) (Quote g i) (ident_parts i).
Proof.
  exists (ident_tokens i). split_and!; [apply lex_quote .. | |]; unfold ident_tokens, ident_parts; (case_bool_decide; [done || by intros [|] |]);
    (induction (Split "." i) as [|p l IH]; [done || by intros [] |]; destruct l as [|p' l]; [done || by intros [|] |]);
    change (dotted (p :: p' :: l)) with (TIdent p :: TByte "." :: dotted (p' :: l)).
  - change (p :: idents (dotted (p' :: l)) = p :: p' :: l). by rewrite IH.
  - by intros [|[|]].
Qed.

Lemma soft_lit c s : safe_byte c = true -> soft q (String c s).
Proof. intros H. exists c, s. split; [done |]. by apply lex_safe. Qed.

(** An identifier or a list of them, before fixed text. *)
Lemma R_lit s s' a l : R s s' a -> safe l = true -> l <> "" -> C (s +:+ l) (s' +:+ l) a.
Proof.
  intros Hs Hl Hne. destruct l as [|c l]; [done |]. rewrite <- (app_nil_r a).
  apply R_C_app; [done | apply soft_lit; by apply andb_prop in Hl as [? _] .. | by apply C_safe].
Qed.

Lemma R_lit_C s s' a l t t' b : R s s' a -> safe l = true -> l <> "" -> C t t' b -> C (s +:+ l +:+ t) (s' +:+ l +:+ t') (a ++ b).
Proof. intros Hs Hl Hne Ht. rewrite <- !append_app. apply C_app; [by apply R_lit | done]. Qed.

Lemma R_lit_R s s' a l t t' b : R s s' a -> safe l = true -> l <> "" -> R t t' b -> R (s +:+ l +:+ t) (s' +:+ l +:+ t') (a ++ b).
Proof. intros Hs Hl Hne Ht. rewrite <- !append_app. apply C_R_app; [by apply R_lit | done]. Qed.

(** A separated list. *)
Lemma R_join sep l l' ids :
  safe sep = true -> sep <> "" -> Forall3 R l l' ids -> R (join sep l) (join sep l') (concat ids).
Proof.
  intros Hs Hne H. induction H as [|x x' a l l' ids Hx Hl IH]; [by apply C_R, C_nil |]. destruct Hl as [|y y' b l l' ids Hy Hl].
  - simpl. by rewrite app_nil_r.
  - change (R (x +:+ (sep +:+ join sep (y :: l))) (x' +:+ (sep +:+ join sep (y' :: l'))) (a ++ concat (b :: ids))%list).
    by apply R_lit_R.
Qed.

Lemma R_joinQuoted cols : R (joinQuoted g cols) (joinQuoted g cols) (flat_map ident_parts cols).
Proof.
  unfold joinQuoted. rewrite flat_map_concat_map. apply R_join; [done | done |].
  induction cols; simpl; constructor; [apply R_ident | done].
Qed.

Lemma C_quoted_list l :
  apostrophe <> q /\ apostrophe <> param -> C (join ", " (map quoteString l)) (join ", " (map quoteString (blank_all l))) [].
Proof.
  intros Ha. induction l as [|x l IH]; [apply C_nil |]. destruct l as [|y l]; [by apply C_string |].
  change (C (quoteString x +:+ (", " +:+ join ", " (map quoteString (y :: l))))
    (quoteString "" +:+ (", " +:+ join ", " (map quoteString (blank_all (y :: l))))) ([] ++ [])).
  apply C_app; [by apply C_string |]. by apply C_safe_C.
Qed.
End Text.

(** The fragments that go into the text as they are. *)
Definition raw_default (c : Column) : string := match DefaultV c with VOther text => text | _ => "" end.

Definition raw_safe (uni_upper : string -> string) (b : Blueprint) : bool :=
  safe (engine b) && safe (charset b) && safe (collation b) && forallb (fun c => safe (raw_default c)) (columns b)
  && forallb (fun f => safe (ToUpper uni_upper (OnDeleteAction f)) && safe (ToUpper uni_upper (OnUpdateAction f))) (foreigns b).

(** The names the indexes of a blueprint get. *)
Fixpoint index_names (table : string) (ixs : list Index) (names : allocator) : list string :=
  match ixs with
  | [] => []
  | idx :: ixs => let '(name, names) := index_name table idx names in name :: index_names table ixs names
  end.

Lemma compileIndexes_names g table ixs names :
  (compileIndexes g table ixs names).1 = zip_with (index_text g table) (index_names table ixs names) ixs.
Proof.
  revert names. induction ixs as [|idx ixs IH]; intros names; [done |]. cbn [compileIndexes index_names]. unfold compileIndex.
  destruct (index_name table idx names) as [name names']. specialize (IH names').
  destruct (compileIndexes g table ixs names') as [ss names'']. simpl in *. by rewrite IH.
Qed.

(** *** The identifiers of each statement, in order *)

Definition foreign_idents (table : string) (fk : Foreign) : list string :=
  ident_parts (foreign_name table fk) ++ flat_map ident_parts (f_Columns fk)
  ++ ident_parts (ReferencesTable fk) ++ flat_map ident_parts (ReferencesCols fk).

Definition index_idents (table name : string) (idx : Index) : list string :=
  ident_parts name ++ ident_parts table ++ flat_map ident_parts (Columns idx).

Definition indexes_idents (b : Blueprint) (ixs : list Index) : list (list string) :=
  zip_with (index_idents (table b)) (index_names (table b) ixs ∅) ixs.

Definition has_check (g : Grammar) (c : Column) : bool := match compileEnumCheck g c with Some _ => true | None => false end.

Definition create_idents (g : Grammar) (b : Blueprint) : list string :=
  ident_parts (table b) ++ flat_map (fun c => ident_parts (Schema.Name c)) (columns b)
  ++ (match primaryKeyColumns b with _ :: _ :: _ => flat_map ident_parts (primaryKeyColumns b) | _ => [] end)
  ++ flat_map (foreign_idents (table b)) (foreigns b)
  ++ flat_map (fun c => ident_parts (Schema.Name c)) (List.filter (has_check g) (columns b)).

Definition alter_column_idents (g : Grammar) (b : Blueprint) (c : Column) : list (list string) :=
  let ids := ident_parts (table b) ++ ident_parts (Schema.Name c) in
  ids :: (if has_check g c then if named g "sqlite" then [] else [ids] else []).

Definition command_idents (g : Grammar) (b : Blueprint) (cmd : Command) : list (list string) :=
  let t := ident_parts (table b) in
  match cmd with
  | CmdDropColumn cols => map (fun c => t ++ ident_parts c) cols
  | CmdRenameColumn from to => [(t ++ ident_parts from) ++ ident_parts to]
  | CmdDropIndex name => [if named g "mysql" then ident_parts name ++ t else ident_parts name]
  | CmdDropForeign name | CmdRenameTable name => [t ++ ident_parts name]
  end.

Definition comment_idents (g : Grammar) (b : Blueprint) : list (list string) :=
  if String.eqb (comment b) "" || negb (named g "postgres" || named g "mysql") then [] else [ident_parts (table b)].

Definition statement_idents (g : Grammar) (d : Definition_) : list (list string) :=
  let b := def_Blueprint d in
  match def_Op d with
  | OpCreate | OpCreateIfNotExists => create_idents g b :: indexes_idents b (create_indexes b) ++ comment_idents g b
  | OpAlter =>
      flat_map (alter_column_idents g b) (columns b) ++ map (fun fk => ident_parts (table b) ++ foreign_idents (table b) fk) (foreigns b)
      ++ indexes_idents b (alter_indexes b) ++ flat_map (command_idents g b) (commands b)
  | OpDrop | OpDropIfExists => [ident_parts (table b)]
  | OpRename => match rename_target (commands b) with Some n => [ident_parts (table b) ++ ident_parts n] | None => [] end
  end.

(** *** Emptying the strings changes nothing else *)

Lemma foldl_map {A B D} (f : D -> A -> D) (f' : D -> B -> D) (h : A -> B) d l :
  (forall d a, f' d (h a) = f d a) -> foldl f' d (map h l) = foldl f d l.
Proof. intros H. revert d. induction l as [|a l IH]; intros d; simpl; [done |]. by rewrite H, IH. Qed.

Lemma blank_pk b : primaryKeyColumns (blank b) = primaryKeyColumns b.
Proof. unfold primaryKeyColumns. simpl. by rewrite (foldl_map (fun out c => if IsPrimary c then add_pk out (Schema.Name c) else out)). Qed.

Lemma filter_map_blank (f : Column -> bool) l :
  (forall c, f (blank_column c) = f c) -> List.filter f (map blank_column l) = map blank_column (List.filter f l).
Proof. intros H. induction l as [|c l IH]; simpl; [done |]. rewrite H, IH. by destruct (f c). Qed.

Lemma blank_create_indexes b : create_indexes (blank b) = create_indexes b.
Proof. unfold create_indexes. simpl. by rewrite (filter_map_blank IsIndex), map_map. Qed.

Lemma blank_alter_indexes b : alter_indexes (blank b) = alter_indexes b.
Proof. unfold alter_indexes. simpl. f_equal. induction (columns b) as [|c l IH]; [done |].
  cbn [map omap list_omap]. change (alter_index (blank_column c)) with (alter_index c). destruct (alter_index c); [by f_equal | done].
Qed.

Lemma blank_validate b : validate (blank b) = validate b.
Proof.
  unfold validate. simpl. generalize (@nil string). induction (columns b) as [|c l IH]; intros seen; simpl; [done |].
  destruct (String.eqb _ _); [done |]. case_bool_decide; [done |]. apply IH.
Qed.

Section Ddl.
Context (uni_upper : string -> string) (g : Grammar) (q param : ascii) (CompileType : CompileType_).
Context `{!Lexical g q param} `{!DdlGrammar q param CompileType}.

Notation C := (C q param).
Notation R := (R q param).

Lemma apos_outside : apostrophe <> q /\ apostrophe <> param.
Proof. exact (ddl_apos (CompileType := CompileType)). Qed.
#[local] Hint Resolve apos_outside : core.

Lemma C_default c : safe (raw_default c) = true -> C (formatDefault g (DefaultV c)) (formatDefault g (blank_default (DefaultV c))) [].
Proof.
  unfold raw_default, formatDefault. intros H'. destruct (DefaultV c) as [|[]|s|text]; simpl;
    try (by apply (C_string q param apos_outside)); try case_match; by apply (C_safe g q param).
Qed.

Lemma C_column c primary inl : safe (raw_default c) = true ->
  C (compileColumn g CompileType c primary inl) (compileColumn g CompileType (blank_column c) primary inl) (ident_parts (Schema.Name c)).
Proof.
  intros Hd. unfold compileColumn. simpl. rewrite <- (app_nil_r (ident_parts _)). apply (R_lit_C g q param); [by apply (R_ident g q param) | done | done |].
  repeat apply (C_app _ _ _ _ _ _ [] []); try (by apply (C_safe g q param)).
  - apply (ddl_type (Kind c) (mkTypeOptions (Length c) (Precision c) (Scale c) (UnsignedV c) (AutoInc c) (Allowed c))).
  - by destruct (NullableV c); apply (C_safe g q param).
  - destruct (HasDefault c); [| apply C_nil]. apply (C_safe_C g q param); [done |].
    destruct (UseCurrent c); [by apply (C_safe g q param) | by apply C_default].
  - by destruct (_ && inl); apply (C_safe g q param).
  - by destruct primary; apply (C_safe g q param).
  - unfold blank_comment. destruct (String.eqb_spec (CommentV c) "") as [->|Hne]; [by destruct (named g "mysql"); apply C_nil |].
    simpl. destruct (named g "mysql"); [| apply C_nil]. apply (C_safe_C g q param); [done |]. by apply (C_string q param apos_outside).
Qed.

Lemma blank_check c : has_check g (blank_column c) = has_check g c.
Proof.
  unfold has_check, compileEnumCheck. simpl. destruct (_ && _); [done |]. destruct (named g "mysql"); [done |]. simpl.
  by destruct (Allowed c).
Qed.

Lemma C_check c : has_check g c = true ->
  exists chk chk', compileEnumCheck g c = Some chk /\ compileEnumCheck g (blank_column c) = Some chk' /\ C chk chk' (ident_parts (Schema.Name c)).
Proof.
  unfold has_check, compileEnumCheck. simpl. destruct (_ && _); [done |]. destruct (named g "mysql"); [done |]. simpl.
  intros H. assert (Hb : bool_decide (Allowed c = []) = false) by by destruct (bool_decide _).
  assert (Hb' : bool_decide (blank_all (Allowed c) = []) = false) by by destruct (Allowed c). rewrite Hb, Hb'.
  eexists _, _. split_and!; [done | done |]. apply (C_safe_C g q param); [done |]. rewrite <- (app_nil_r (ident_parts _)).
  apply (R_lit_C g q param); [by apply (R_ident g q param) | done | done |]. apply (C_app _ _ _ _ _ _ [] []); [apply (C_quoted_list g q param); apply apos_outside | by apply (C_safe g q param)].
Qed.

Lemma C_foreign table fk :
  safe (ToUpper uni_upper (OnDeleteAction fk)) = true -> safe (ToUpper uni_upper (OnUpdateAction fk)) = true ->
  C (compileForeignInline uni_upper g table fk) (compileForeignInline uni_upper g table fk) (foreign_idents table fk).
Proof.
  intros Hd Hu. unfold compileForeignInline, foreign_idents. apply (C_safe_C g q param); [done |].
  apply (R_lit_C g q param); [by apply (R_ident g q param) | done | done |]. apply (R_lit_C g q param); [by apply (R_joinQuoted g q param) | done | done |].
  apply (R_lit_C g q param); [by apply (R_ident g q param) | done | done |].
  rewrite <- (app_nil_r (flat_map _ (ReferencesCols fk))). apply (R_lit_C g q param); [by apply (R_joinQuoted g q param) | done | done |].
  apply (C_app _ _ _ _ _ _ [] []); (destruct (String.eqb _ ""); [apply C_nil |]); (apply (C_safe_C g q param); [done | by apply (C_safe g q param)]).
Qed.

Lemma C_index table name idx : C (index_text g table name idx) (index_text g table name idx) (index_idents table name idx).
Proof.
  unfold index_text, index_idents. apply (C_safe_C g q param); [by destruct (Type_ idx) |].
  apply (C_safe_C g q param); [done |]. apply (R_lit_C g q param); [by apply (R_ident g q param) | done | done |]. apply (R_lit_C g q param); [by apply (R_ident g q param) | done | done |].
  by apply (R_lit g q param); [apply (R_joinQuoted g q param) | |].
Qed.

(** *** Statements *)

Lemma indexes_read b ixs :
  Forall3 R (compileIndexes g (table b) ixs ∅).1 (compileIndexes g (table b) ixs ∅).1 (indexes_idents b ixs).
Proof.
  rewrite compileIndexes_names. unfold indexes_idents. generalize (index_names (table b) ixs ∅) as names.
  induction ixs as [|idx ixs IH]; intros [|n names]; simpl; constructor; [apply C_R, C_index | apply IH].
Qed.

Lemma columns_read (f f' : Column -> string) cs :
  Forall (fun c => C (f c) (f' (blank_column c)) (ident_parts (Schema.Name c))) cs ->
  Forall3 R (map f cs) (map f' (map blank_column cs)) (map (fun c => ident_parts (Schema.Name c)) cs).
Proof. induction 1; simpl; constructor; [by apply C_R | done]. Qed.

Lemma checks_read cs :
  Forall3 R (omap (compileEnumCheck g) cs) (omap (compileEnumCheck g) (map blank_column cs))
    (map (fun c => ident_parts (Schema.Name c)) (List.filter (has_check g) cs)).
Proof.
  induction cs as [|c cs IH]; [constructor |]. cbn [omap list_omap map List.filter]. destruct (has_check g c) eqn:E.
  - destruct (C_check c E) as (chk & chk' & -> & -> & H). constructor; [by apply C_R | done].
  - pose proof (blank_check c) as E'. rewrite E in E'. unfold has_check in E, E'.
    destruct (compileEnumCheck g c); [done |]. by destruct (compileEnumCheck g (blank_column c)).
Qed.

Lemma foreigns_read b (h : string -> string) (k : list string -> list string) fks :
  (forall s ids, C s s ids -> R (h s) (h s) (k ids)) ->
  forallb (fun f => safe (ToUpper uni_upper (OnDeleteAction f)) && safe (ToUpper uni_upper (OnUpdateAction f))) fks = true ->
  Forall3 R (map (fun fk => h (compileForeignInline uni_upper g (table b) fk)) fks)
    (map (fun fk => h (compileForeignInline uni_upper g (table b) fk)) fks) (map (fun fk => k (foreign_idents (table b) fk)) fks).
Proof.
  intros Hh. induction fks as [|f fks IH]; simpl; [constructor |]. intros [[H1 H2]%andb_prop Hf]%andb_prop.
  constructor; [| by apply IH]. by apply Hh, C_foreign.
Qed.

Lemma body_read b : raw_safe uni_upper b = true ->
  exists ids, Forall3 R (create_body uni_upper g CompileType b) (create_body uni_upper g CompileType (blank b)) ids /\
    ident_parts (table b) ++ concat ids = create_idents g b.
Proof.
  unfold raw_safe. rewrite !andb_true_iff. intros [[_ Hd] Hf].
  set (pk := match primaryKeyColumns b with _ :: _ :: _ => [flat_map ident_parts (primaryKeyColumns b)] | _ => [] end).
  exists (map (fun c => ident_parts (Schema.Name c)) (columns b) ++ pk ++ map (fun fk => foreign_idents (table b) fk) (foreigns b)
          ++ map (fun c => ident_parts (Schema.Name c)) (List.filter (has_check g) (columns b))).
  split.
  - unfold create_body. rewrite blank_pk. repeat apply Forall3_app.
    + apply columns_read, list.Forall_forall. intros c Hc%list_elem_of_In. unfold inline_primary, inlinePK. rewrite blank_pk.
      apply C_column. by apply (proj1 (forallb_forall _ _) Hd).
    + subst pk. destruct (primaryKeyColumns b) as [|p1 [|p2 ps]]; [constructor .. |]. constructor; [| constructor].
      apply C_R, (C_safe_C g q param); [done |]. by apply (R_lit g q param); [apply (R_joinQuoted g q param) | |].
    + apply (foreigns_read b (fun s => s) (fun ids => ids)); [| done]. intros s ids H. by apply C_R.
    + apply checks_read.
  - unfold create_idents. rewrite !concat_app, !flat_map_concat_map. subst pk.
    destruct (primaryKeyColumns b) as [|p1 [|p2 ps]]; [done .. |]. cbn [concat]. by rewrite app_nil_r, flat_map_concat_map.
Qed.

Lemma mysql_option_read keyword v : safe keyword = true -> safe v = true -> C (mysql_option g keyword v) (mysql_option g keyword v) [].
Proof.
  intros Hk Hv. unfold mysql_option. destruct (_ && _); [apply (C_safe_C g q param); [done | by apply (C_safe g q param)] | apply C_nil].
Qed.

Lemma create_read b ifNotExists : raw_safe uni_upper b = true ->
  C (create_table uni_upper g CompileType b ifNotExists) (create_table uni_upper g CompileType (blank b) ifNotExists) (create_idents g b).
Proof.
  intros Hb. destruct (body_read b Hb) as (ids & Hids & <-). unfold raw_safe in Hb. rewrite !andb_true_iff in Hb.
  destruct Hb as [[[[He Hc] Hl] _] _]. unfold create_table. cbn [table temporary engine charset collation blank].
  apply (C_safe_C g q param); [by destruct (temporary b) |].
  apply (C_safe_C g q param); [by destruct ifNotExists |]. apply (C_safe_C g q param); [done |].
  apply (R_lit_C g q param); [apply (R_ident g q param) | done | done |].
  rewrite <- (app_nil_r (concat ids)). apply (R_lit_C g q param); [by apply (R_join g q param) | done | done |].
  apply (C_app _ _ _ _ _ _ [] []); [by apply mysql_option_read |]. apply (C_app _ _ _ _ _ _ [] []); by apply mysql_option_read.
Qed.

Definition comment_stmts (b : Blueprint) : list string :=
  if String.eqb (comment b) "" then [] else match tableComment g (table b) (comment b) with Some s => [s] | None => [] end.

Lemma comment_read b : Forall3 R (comment_stmts b) (comment_stmts (blank b)) (comment_idents g b).
Proof.
  unfold comment_stmts, comment_idents, tableComment. cbn [comment table blank]. unfold blank_comment.
  destruct (String.eqb (comment b) ""); [constructor |].
  destruct (named g "postgres"); [| destruct (named g "mysql"); [| constructor]]; simpl; (constructor; [| constructor]); apply C_R;
    (apply (C_safe_C g q param); [done |]); rewrite <- (app_nil_r (ident_parts _));
    (apply (R_lit_C g q param); [apply (R_ident g q param) | done | done | by apply (C_string q param apos_outside)]).
Qed.

Lemma alter_read b kw s s' ids : safe kw = true -> kw <> "" -> R s s' ids ->
  R (alter g b +:+ kw +:+ s) (alter g b +:+ kw +:+ s') (ident_parts (table b) ++ ids).
Proof.
  intros Hk Hne Hs. unfold alter. rewrite !append_app. apply (C_safe_R g q param); [done |].
  by apply (R_lit_R g q param); [apply (R_ident g q param) | | |].
Qed.

Lemma alter_column_read b c : safe (raw_default c) = true ->
  Forall3 R (alter_column g CompileType b c) (alter_column g CompileType (blank b) (blank_column c)) (alter_column_idents g b c).
Proof.
  intros Hd. unfold alter_column, alter_column_idents. change (alter g (blank b)) with (alter g b). constructor.
  - apply alter_read; [done | done |]. by apply C_R, C_column.
  - destruct (has_check g c) eqn:E.
    + destruct (C_check c E) as (chk & chk' & -> & -> & H). destruct (named g "sqlite"); [constructor |].
      constructor; [| constructor]. apply alter_read; [done | done |]. by apply C_R.
    + pose proof (blank_check c) as E'. rewrite E in E'. unfold has_check in E, E'.
      destruct (compileEnumCheck g c); [done |]. destruct (compileEnumCheck g (blank_column c)); [done | constructor].
Qed.

Lemma command_blank b cmd : compile_command g (blank b) cmd = compile_command g b cmd.
Proof. done. Qed.

Lemma command_read b cmd ss : compile_command g b cmd = Ok ss -> Forall3 R ss ss (command_idents g b cmd).
Proof.
  assert (Hi : forall kw i, safe kw = true -> kw <> "" ->
    R (alter g b +:+ kw +:+ Quote g i) (alter g b +:+ kw +:+ Quote g i) (ident_parts (table b) ++ ident_parts i)).
  { intros kw i Hk Hne. apply alter_read; [done | done | apply (R_ident g q param)]. }
  destruct cmd as [cols|from to|n|n|n]; simpl.
  - intros [= <-]. induction cols; simpl; constructor; [by apply Hi | done].
  - intros [= <-]. constructor; [| constructor].
    replace (alter g b +:+ " RENAME COLUMN " +:+ Quote g from +:+ " TO " +:+ Quote g to)
      with ((alter g b +:+ " RENAME COLUMN " +:+ Quote g from) +:+ " TO " +:+ Quote g to) by by rewrite !append_app.
    apply (R_lit_R g q param); [by apply Hi | done | done | apply (R_ident g q param)].
  - intros [= <-]. constructor; [| constructor]. destruct (named g "mysql"); (apply (C_safe_R g q param); [done |]).
    + apply (R_lit_R g q param); [apply (R_ident g q param) | done | done | apply (R_ident g q param)].
    + apply (R_ident g q param).
  - destruct (named g "mysql"); [| destruct (named g "sqlite"); [done |]]; intros [= <-]; (constructor; [| constructor]); by apply Hi.
  - intros [= <-]. constructor; [| constructor]. by apply Hi.
Qed.

Lemma commands_read b cmds ss : compile_commands g b cmds = Ok ss -> Forall3 R ss ss (flat_map (command_idents g b) cmds).
Proof.
  revert ss. induction cmds as [|cmd cmds IH]; intros ss; cbn [compile_commands flat_map]; [intros [= <-]; constructor |].
  destruct (compile_command g b cmd) as [s1|] eqn:E; [| done]. destruct (compile_commands g b cmds) as [s2|]; [| done].
  intros [= <-]. apply Forall3_app; [by apply command_read | by apply IH].
Qed.

Lemma commands_blank b cmds : compile_commands g (blank b) cmds = compile_commands g b cmds.
Proof. induction cmds as [|cmd cmds IH]; [done |]. cbn [compile_commands]. by rewrite command_blank, IH. Qed.

Definition blank_def (d : Definition_) : Definition_ := mkDefinition (blank (def_Blueprint d)) (def_Op d).

Lemma create_def_read b ifNotExists : raw_safe uni_upper b = true ->
  Forall3 R (compileCreate uni_upper g CompileType b ifNotExists) (compileCreate uni_upper g CompileType (blank b) ifNotExists)
    (create_idents g b :: indexes_idents b (create_indexes b) ++ comment_idents g b).
Proof.
  intros Hb. unfold compileCreate. rewrite blank_create_indexes. constructor; [by apply C_R, create_read |].
  apply Forall3_app; [exact (indexes_read b (create_indexes b)) | exact (comment_read b)].
Qed.

Lemma alter_def_read b stmts : raw_safe uni_upper b = true -> compileAlter uni_upper g CompileType b = Ok stmts ->
  exists stmts', compileAlter uni_upper g CompileType (blank b) = Ok stmts' /\
    Forall3 R stmts stmts' (statement_idents g (mkDefinition b OpAlter)).
Proof.
  intros Hb. unfold compileAlter. rewrite blank_alter_indexes, commands_blank. cbn [commands blank].
  destruct (compile_commands g b (commands b)) as [cs|] eqn:Hcs; [| done]. intros H. injection H as <-. eexists. split; [done |].
  unfold raw_safe in Hb. rewrite !andb_true_iff in Hb. destruct Hb as [[_ Hd] Hf]. unfold statement_idents. cbn [def_Blueprint def_Op].
  rewrite <- !app_assoc. repeat apply Forall3_app; [| | exact (indexes_read b (alter_indexes b)) | by apply commands_read].
  - cbn [columns blank]. revert Hd. generalize (columns b) as cs'. induction cs' as [|c cs' IH]; [constructor |].
    cbn [forallb flat_map map]. intros [Hc Hd]%andb_prop. apply Forall3_app; [by apply alter_column_read | by apply IH].
  - apply (foreigns_read b (fun s => alter g b +:+ " ADD " +:+ s) (app (ident_parts (table b)))); [| done].
    intros s ids H. by apply alter_read, C_R.
Qed.

Lemma compile_read d stmts :
  raw_safe uni_upper (def_Blueprint d) = true -> Compile uni_upper g CompileType (Some d) = Ok stmts ->
  exists stmts', Compile uni_upper g CompileType (Some (blank_def d)) = Ok stmts' /\ Forall3 R stmts stmts' (statement_idents g d).
Proof.
  intros Hb. unfold Compile. destruct d as [b op]. cbn [def_Blueprint def_Op blank_def] in *. rewrite blank_validate.
  destruct (validate b); [done |].
  assert (Hdrop : forall kw, safe kw = true -> Forall3 R [kw +:+ Quote g (table b)] [kw +:+ Quote g (table b)] [ident_parts (table b)]).
  { intros kw Hk. constructor; [| constructor]. apply (C_safe_R g q param); [done | apply (R_ident g q param)]. }
  destruct op; try (intros [= <-]; eexists; (split; [done |])); try (by apply create_def_read).
  - by apply alter_def_read.
  - exact (Hdrop "DROP TABLE " eq_refl).
  - exact (Hdrop "DROP TABLE IF EXISTS " eq_refl).
  - unfold compileRename, statement_idents. cbn [def_Blueprint def_Op commands blank].
    destruct (rename_target (commands b)); intros [= <-]. eexists. split; [done |]. constructor; [| constructor].
    change (alter g (blank b)) with (alter g b). apply alter_read; [done | done | apply (R_ident g q param)].
Qed.
End Ddl.

(** ** The drivers *)

Lemma switch_all {A} (P : A -> Prop) k cases default : Forall (fun c => P c.2) cases -> P default -> P (switch k cases default).
Proof. intros H Hd. induction H as [|[ks a] cases Ha _ IH]; [done |]. simpl. by destruct (existsb _ ks). Qed.

Lemma sized_safe type n : safe type = true -> safe (sized type n) = true.
Proof. intros H. unfold sized. by rewrite !safe_app, H, FormatInt_safe. Qed.

Lemma scaled_safe type o : safe type = true -> safe (scaled type o) = true.
Proof. intros H. unfold scaled. by rewrite !safe_app, H, !FormatInt_safe. Qed.

Lemma mysql_suffix_safe kind o : safe (mysql_suffix kind o) = true.
Proof. unfold mysql_suffix. by destruct (_ && _). Qed.

Lemma auto_safe (b : bool) : safe (if b then " AUTO_INCREMENT" else "") = true.
Proof. by destruct b. Qed.

Create HintDb safe_text.
#[local] Hint Resolve sized_safe scaled_safe mysql_suffix_safe auto_safe : safe_text.

Ltac safe_text := rewrite ?safe_app, ?andb_true_iff; split_and?; first [reflexivity | by auto with safe_text].

Lemma switch_rel {A} (P : A -> A -> Prop) k cases cases' d d' :
  Forall2 (fun c c' => c.1 = c'.1 /\ P c.2 c'.2) cases cases' -> P d d' -> P (switch k cases d) (switch k cases' d').
Proof. intros H Hd. induction H as [|[ks a] [ks' a'] cases cases' [[= ->] Ha] _ IH]; [done |]. simpl. by destruct (existsb _ ks'). Qed.

#[export] Instance mysql_ddl : DdlGrammar backtick "?" mysql_CompileType.
Proof.
  split; [done |]. intros kind o. unfold mysql_CompileType.
  apply (switch_rel (fun s t => C backtick "?" s t [])); [| by apply (C_safe mysql backtick "?")].
  repeat first [apply Forall2_nil_2 | apply Forall2_cons_2]; (split; [reflexivity |]); simpl snd;
    try (apply (C_safe mysql backtick "?"); safe_text; fail);
    (apply (C_safe_C mysql backtick "?"); [done |]); apply (C_app _ _ _ _ _ _ [] []);
    first [by apply (C_quoted_list mysql backtick "?") | by apply (C_safe mysql backtick "?")].
Qed.

Lemma safe_ddl g q (CompileType : CompileType_) param :
  Lexical g q param -> apostrophe <> q /\ apostrophe <> param ->
  (forall k o, safe (CompileType k o) = true /\ CompileType k (blank_options o) = CompileType k o) -> DdlGrammar q param CompileType.
Proof. intros Hg Ha Hs. split; [done |]. intros kind o. destruct (Hs kind o) as [H ->]. by apply (C_safe g q param). Qed.

Lemma postgres_type_safe k o : safe (postgres_CompileType k o) = true.
Proof.
  apply (switch_all (fun s => safe s = true)); [| done]. repeat first [apply list.Forall_nil_2 | apply list.Forall_cons_2]; simpl snd; safe_text.
Qed.

Lemma sqlite_type_safe k o : safe (sqlite_CompileType k o) = true.
Proof.
  apply (switch_all (fun s => safe s = true)); [| done]. repeat first [apply list.Forall_nil_2 | apply list.Forall_cons_2]; simpl snd; safe_text.
Qed.

#[export] Instance postgres_ddl : DdlGrammar double_quote "$" postgres_CompileType.
Proof. apply (safe_ddl postgres); [apply _ | done |]. intros k o. split; [apply postgres_type_safe | done]. Qed.

#[export] Instance sqlite_ddl : DdlGrammar double_quote "?" sqlite_CompileType.
Proof. apply (safe_ddl sqlite); [apply _ | done |]. intros k o. split; [apply sqlite_type_safe | done]. Qed.

(** ** Generated index names *)

Lemma last_sep_inj x s t s' t' :
  has_byte x t = false -> has_byte x t' = false -> s +:+ String x t = s' +:+ String x t' -> s = s' /\ t = t'.
Proof.
  intros Ht Ht'. assert (Hno : forall u v, has_byte x (u +:+ String x v) = true).
  { induction u as [|c u IH]; intros v.
    - change (EmptyString +:+ String x v) with (String x v). cbn [has_byte]. by rewrite Ascii.eqb_refl.
    - change (String c u +:+ String x v) with (String c (u +:+ String x v)). cbn [has_byte]. by rewrite IH, orb_true_r. }
  revert s'. induction s as [|c s IH]; intros [|c' s'] H.
  - by injection H as ->.
  - change (String x t = String c' (s' +:+ String x t')) in H. injection H as <- ->. by rewrite Hno in Ht.
  - change (String c (s +:+ String x t) = String x t') in H. injection H as -> <-. by rewrite Hno in Ht'.
  - change (String c (s +:+ String x t) = String c' (s' +:+ String x t')) in H. injection H as -> H.
    by destruct (IH s' H) as [-> ->].
Qed.

(** The [n]-th name asked for with one base. *)
Definition nth_name (base : string) (n : Z) : string := if 1 <? n then base +:+ "_" +:+ FormatInt n else base.

Lemma type_text_no_sep t : has_byte "_" (index_type_text t) = false.
Proof. by destruct t. Qed.

Lemma type_text_not_number t n : index_type_text t <> FormatInt n.
Proof.
  intros H. assert (Hl : forall x, not_decimal x -> has_byte x (index_type_text t) = false).
  { intros x Hx. rewrite H. by apply FormatInt_bytes. }
  assert (Hnd : not_decimal "e" /\ not_decimal "a" /\ not_decimal "u") by (split_and!; (split; [right; reflexivity | done])).
  destruct Hnd as (He & Ha & Hu). destruct t; first [by specialize (Hl _ He) | by specialize (Hl _ Ha) | by specialize (Hl _ Hu)].
Qed.

Lemma FormatInt_inj_pos n m : 1 < n -> 1 < m -> FormatInt n = FormatInt m -> n = m.
Proof.
  intros Hn Hm. unfold FormatInt. rewrite (proj2 (Z.ltb_ge n 0)), (proj2 (Z.ltb_ge m 0)) by lia.
  apply format_uint_inj; lia.
Qed.

Lemma nth_name_inj table idx idx' n n' :
  nth_name (base_name table idx) n = nth_name (base_name table idx') n' ->
  1 <= n -> 1 <= n' -> base_name table idx = base_name table idx' /\ n = n'.
Proof.
  assert (Hb : forall i, exists s, base_name table i = s +:+ String "_" (index_type_text (Type_ i))).
  { intros i. exists (table +:+ "_" +:+ join "_" (Columns i)). unfold base_name. by rewrite !append_app. }
  assert (Hd : forall m, has_byte "_" (FormatInt m) = false).
  { intros m. apply FormatInt_bytes. split; [right; reflexivity | done]. }
  unfold nth_name. destruct (Hb idx) as [s Es], (Hb idx') as [s' Es']. intros H Hn Hn'.
  destruct (Z.ltb_spec 1 n) as [H1|H1], (Z.ltb_spec 1 n') as [H2|H2].
  - apply last_sep_inj in H as [H3 H4]; [| apply Hd | apply Hd]. split; [done |]. by apply FormatInt_inj_pos.
  - rewrite Es' in H. apply last_sep_inj in H as [_ H]; [| apply Hd | apply type_text_no_sep].
    symmetry in H. by apply type_text_not_number in H.
  - rewrite Es in H. apply last_sep_inj in H as [_ H]; [| apply type_text_no_sep | apply Hd]. by apply type_text_not_number in H.
  - split; [done | lia].
Qed.

Definition asked (names : allocator) (base : string) : Z := default 0 (names !! base).

(** The generated names of a list of indexes. *)
Fixpoint generated (ixs : list Index) (ns : list string) : list string :=
  match ixs, ns with
  | idx :: ixs, n :: ns => if String.eqb (NameV idx) "" then n :: generated ixs ns else generated ixs ns
  | _, _ => []
  end.

Lemma generated_fresh table ixs names :
  (forall b, 0 <= asked names b) ->
  NoDup (generated ixs (index_names table ixs names)) /\
  forall x, x ∈ generated ixs (index_names table ixs names) ->
    exists idx n, idx ∈ ixs /\ asked names (base_name table idx) < n /\ x = nth_name (base_name table idx) n.
Proof.
  revert names. induction ixs as [|idx ixs IH]; intros names Hn.
  { split; [constructor |]. intros x Hx. by apply not_elem_of_nil in Hx. }
  cbn [index_names generated]. unfold index_name, unique. destruct (String.eqb (NameV idx) "") eqn:E.
  - fold (asked names (base_name table idx)). fold (nth_name (base_name table idx) (asked names (base_name table idx) + 1)).
    set (bn := base_name table idx). set (k := asked names bn + 1). set (names' := <[bn:=k]> names).
    assert (Hask : forall b, asked names' b = if bool_decide (b = bn) then k else asked names b).
    { intros b. unfold asked, names'. case_bool_decide as Hb; [subst b; by rewrite lookup_insert, decide_True by done |].
      by rewrite lookup_insert_ne. }
    pose proof (Hn bn) as Hbn. destruct (IH names') as [Hnd Hfr].
    { intros b. rewrite Hask. pose proof (Hn b). case_bool_decide; lia. }
    split.
    + apply list.NoDup_cons. split; [| done]. intros Hx. apply Hfr in Hx as (idx' & n & _ & Hlt & Heq). rewrite Hask in Hlt.
      pose proof (Hn (base_name table idx')). apply nth_name_inj in Heq as [Hb Hk]; [| lia | case_bool_decide; lia].
      fold bn in Hb. rewrite bool_decide_true in Hlt by done. fold bn in Hk. lia.
    + intros x [->|Hx]%elem_of_cons.
      * exists idx, k. split_and!; [by left | fold bn; lia | done].
      * apply Hfr in Hx as (idx' & n & Hin & Hlt & ->). rewrite Hask in Hlt. exists idx', n.
        split_and!; [by right | case_bool_decide as Hb; [rewrite Hb; lia | done] | done].
  - destruct (IH names Hn) as [Hnd Hfr]. split; [done |]. intros x Hx. apply Hfr in Hx as (idx' & n & Hin & Hlt & ->).
    exists idx', n. split_and!; [by right | done | done].
Qed.

(** ** The primary key *)

Lemma add_pk_spec out n : NoDup out ->
  NoDup (add_pk out n) /\ forall x, x ∈ add_pk out n <-> x ∈ out \/ (x = n /\ n <> "").
Proof.
  intros H. unfold add_pk. destruct (String.eqb_spec n "") as [->|Hn]; simpl; [split; [done | naive_solver] |].
  case_bool_decide as Hin; [split; [done | naive_solver] |]. split.
  - apply list.NoDup_app. split_and!; [done | | by apply NoDup_singleton]. intros x Hx ->%list_elem_of_singleton. done.
  - intros x. rewrite elem_of_app, list_elem_of_singleton. naive_solver.
Qed.

Lemma add_all_spec ns out : NoDup out ->
  NoDup (foldl add_pk out ns) /\ forall x, x ∈ foldl add_pk out ns <-> x ∈ out \/ (x ∈ ns /\ x <> "").
Proof.
  revert out. induction ns as [|n ns IH]; intros out H; simpl.
  - split; [done |]. intros x. rewrite elem_of_nil. tauto.
  - destruct (add_pk_spec out n H) as [H1 H2]. destruct (IH _ H1) as [H3 H4]. split; [done |]. intros x.
    rewrite H4, H2, elem_of_cons. naive_solver.
Qed.

Lemma foldl_flat_map {A B D} (f : D -> B -> D) (h : A -> list B) d l :
  foldl (fun d a => foldl f d (h a)) d l = foldl f d (flat_map h l).
Proof. revert d. induction l as [|a l IH]; intros d; simpl; [done |]. by rewrite IH, foldl_app. Qed.

(** The names the blueprint gives for its primary key, with repetitions. *)
Definition declared_pk (b : Blueprint) : list string :=
  map Schema.Name (List.filter IsPrimary (columns b))
  ++ flat_map Columns (List.filter (fun i => bool_decide (Type_ i = IndexPrimary)) (indexes b)).

Lemma flat_map_filter {A B} (p : A -> bool) (h : A -> list B) l : flat_map (fun a => if p a then h a else []) l = flat_map h (List.filter p l).
Proof. induction l as [|a l IH]; simpl; [done |]. rewrite IH. by destruct (p a). Qed.

Lemma foldl_ext_all {A D} (f f' : D -> A -> D) d l : (forall d a, f d a = f' d a) -> foldl f d l = foldl f' d l.
Proof. intros H. revert d. induction l as [|a l IH]; intros d; simpl; [done |]. by rewrite H, IH. Qed.

Lemma primaryKeyColumns_fold b : primaryKeyColumns b = foldl add_pk [] (declared_pk b).
Proof.
  unfold primaryKeyColumns, declared_pk. rewrite foldl_app.
  rewrite <- (flat_map_filter (fun i => bool_decide (Type_ i = IndexPrimary)) Columns), <- foldl_flat_map.
  erewrite foldl_ext_all.
  2: { intros d i. instantiate (1 := fun d i => foldl add_pk d (if bool_decide (Type_ i = IndexPrimary) then Columns i else [])).
       simpl. by case_bool_decide. }
  f_equal. replace (map Schema.Name (List.filter IsPrimary (columns b)))
    with (flat_map (fun c => if IsPrimary c then [Schema.Name c] else []) (columns b)).
  - rewrite <- foldl_flat_map. apply foldl_ext_all. intros d c. by destruct (IsPrimary c).
  - rewrite flat_map_filter. by induction (List.filter IsPrimary (columns b)) as [|c l IH]; simpl; [| rewrite IH].
Qed.

Lemma primaryKeyColumns_spec b :
  NoDup (primaryKeyColumns b) /\ forall n, n ∈ primaryKeyColumns b <-> n ∈ declared_pk b /\ n <> "".
Proof.
  rewrite primaryKeyColumns_fold. destruct (add_all_spec (declared_pk b) [] (NoDup_nil_2)) as [H1 H2]. split; [done |].
  intros n. rewrite H2, elem_of_nil. tauto.
Qed.

(** A name of a valid blueprint is that of one column. *)
Lemma filter_name n (cs : list Column) : NoDup (map Schema.Name cs) -> n ∈ map Schema.Name cs ->
  exists c, Schema.Name c = n /\ List.filter (fun c => String.eqb (Schema.Name c) n) cs = [c].
Proof.
  induction cs as [|c cs IH]; simpl; [intros _ H; by apply not_elem_of_nil in H |].
  rewrite list.NoDup_cons, elem_of_cons. intros [Hc Hnd] Hin.
  destruct (String.eqb_spec (Schema.Name c) n) as [Heq|Hne].
  - exists c. split; [done |]. f_equal. subst n. clear -Hc. induction cs as [|d cs IH]; [done |]. simpl in *.
    apply not_elem_of_cons in Hc as [Hd Hc]. destruct (String.eqb_spec (Schema.Name d) (Schema.Name c)); [congruence | by apply IH].
  - destruct Hin as [->|Hin]; [done |]. by apply IH.
Qed.

Lemma filter_none {A} (p : A -> bool) l : (forall x, p x = false) -> List.filter p l = [].
Proof. intros H. induction l as [|x l IH]; simpl; [done |]. by rewrite H. Qed.

(** ** String literals

    What a database reads back: [bs] tells whether a backslash escapes, as it
    does in MySQL unless it is told otherwise. *)

Definition backslash : ascii := ascii_of 92.

(** The value of a literal whose opening quote was read, and what follows it. *)
Fixpoint read_literal (bs : bool) (s : string) : option (string * string) :=
  match s with
  | EmptyString => None
  | String c s =>
      if Ascii.eqb c apostrophe then
        match s with
        | String c' s' =>
            if Ascii.eqb c' apostrophe then
              match read_literal bs s' with Some (v, rest) => Some (String c v, rest) | None => None end
            else Some (EmptyString, s)
        | EmptyString => Some (EmptyString, EmptyString)
        end
      else if bs && Ascii.eqb c backslash then
        match s with
        | String c' s' => match read_literal bs s' with Some (v, rest) => Some (String c' v, rest) | None => None end
        | EmptyString => None
        end
      else match read_literal bs s with Some (v, rest) => Some (String c v, rest) | None => None end
  end.

Definition read_string (bs : bool) (s : string) : option (string * string) :=
  match s with
  | String c s => if Ascii.eqb c apostrophe then read_literal bs s else None
  | EmptyString => None
  end.

Lemma read_literal_double bs s rest :
  bs && has_byte backslash s = false -> starts_with apostrophe rest = false ->
  read_literal bs (double_byte apostrophe s +:+ String apostrophe rest) = Some (s, rest).
Proof.
  intros Hs Hr. induction s as [|c s IH].
  - change (double_byte apostrophe "" +:+ String apostrophe rest) with (String apostrophe rest). cbn [read_literal].
    rewrite Ascii.eqb_refl. destruct rest as [|c r]; [done |]. simpl in Hr. by rewrite Hr.
  - assert (Hc : bs && Ascii.eqb c backslash = false /\ bs && has_byte backslash s = false).
    { destruct bs; [| done]. simpl in *. by apply orb_false_elim in Hs. }
    destruct Hc as [Hc Hs']. specialize (IH Hs'). cbn [double_byte]. destruct (Ascii.eqb_spec c apostrophe) as [->|Hne].
    + change (String apostrophe (String apostrophe (double_byte apostrophe s)) +:+ String apostrophe rest)
        with (String apostrophe (String apostrophe (double_byte apostrophe s +:+ String apostrophe rest))).
      cbn [read_literal]. by rewrite Ascii.eqb_refl, IH.
    + change (String c (double_byte apostrophe s) +:+ String apostrophe rest) with (String c (double_byte apostrophe s +:+ String apostrophe rest)).
      cbn [read_literal]. by rewrite (proj2 (Ascii.eqb_neq _ _) Hne), Hc, IH.
Qed.

(** ** Properties *)


Definition w_def : Definition_ :=
  Create "or'ders" (fun b =>
    let b := (ID [] b).1 in
    let b := (on_column (Comment "it's ` -- ;") (on_column (Default (VString "'); DROP TABLE x; --")) (String_ "na`me" [] b))).1 in
    let b := (Enum "kind" ["a'b"; "c"] b).1 in
    Table_Comment "q'" (AddIndex ["na`me"; "kind"] b).1).


(** The primary key of a table is emitted once: its columns are the flagged
    ones and those of [Primary], each once; a single one is marked inline on its
    one column, several make one table constraint and no column is marked. *)
Theorem primary_key_once uni_upper g CompileType b :
  validate b = None ->
  NoDup (primaryKeyColumns b) /\ (forall n, n ∈ primaryKeyColumns b <-> n ∈ declared_pk b /\ n <> "") /\
  match primaryKeyColumns b with
  | [] => List.filter (inline_primary b) (columns b) = []
  | [n] => n ∈ map Schema.Name (columns b) ->
           exists c, Schema.Name c = n /\ List.filter (inline_primary b) (columns b) = [c]
  | pk => List.filter (inline_primary b) (columns b) = [] /\
          create_body uni_upper g CompileType b !! length (columns b) = Some ("PRIMARY KEY (" +:+ joinQuoted g pk +:+ ")")
  end.
Proof.
  intros [_ Hnd]%validate_spec. destruct (primaryKeyColumns_spec b) as [H1 H2]. split_and!; [done | done |].
  unfold inline_primary, inlinePK, create_body. destruct (primaryKeyColumns b) as [|n [|n' ns]] eqn:E.
  - by apply filter_none.
  - assert (Hn : String.eqb n "" = false) by (apply String.eqb_neq, H2; by left). rewrite Hn. intros Hin. by apply filter_name.
  - split; [by apply filter_none |]. rewrite lookup_app_r by (by rewrite length_map). by rewrite length_map, Nat.sub_diag.
Qed.

Example primary_key_once_witness :
  let b := (Primary_ ["id"] (ID [] (NewBlueprint "t" true)).1).1 in
  validate b = None /\ primaryKeyColumns b = ["id"] /\ exists c, List.filter (inline_primary b) (columns b) = [c].
Proof.
  intros b. assert (Hv : validate b = None) by reflexivity. split_and!; [exact Hv | vm_compute; reflexivity |].
  destruct (primary_key_once id sqlite sqlite_CompileType b Hv) as (_ & _ & H). change (primaryKeyColumns b) with ["id"] in H.
  destruct H as (c & _ & Hc); [by left | by exists c].
Defined.

(** The index names generated for one blueprint are distinct, whatever its
    tables, columns and types. *)
Theorem index_names_distinct table ixs : NoDup (generated ixs (index_names table ixs ∅)).
Proof. apply generated_fresh. intros b. unfold asked. by rewrite lookup_empty. Qed.

(** A string is read back as it was given by a database for which a quote is
    doubled inside a literal, and by MySQL when it has no backslash. *)
Theorem literal_read_back bs s rest :
  bs && has_byte backslash s = false -> starts_with apostrophe rest = false ->
  read_string bs (quoteString s +:+ rest) = Some (s, rest).
Proof.
  intros Hs Hr. unfold quoteString. rewrite append_app.
  change ("'" +:+ ((double_byte apostrophe s +:+ "'") +:+ rest)) with (String apostrophe ((double_byte apostrophe s +:+ "'") +:+ rest)).
  unfold read_string. rewrite Ascii.eqb_refl, append_app. by apply read_literal_double.
Qed.

Example literal_read_back_witness : read_string false (quoteString "it's \ '" +:+ ", x") = Some ("it's \ '", ", x").
Proof. apply (literal_read_back false "it's \ '" ", x"); reflexivity. Defined.

(** In MySQL a backslash before a quote ends the literal early: the rest of the
    value is read as SQL. *)
Theorem backslash_escapes_literal :
  read_string true (quoteString "\' , x INT") = Some ("'", " , x INT'") /\ read_string true (quoteString "\") = None.
Proof. split; reflexivity. Qed.

Definition drops_foreign (cmds : list Command) : bool := existsb (fun c => match c with CmdDropForeign _ => true | _ => false end) cmds.
Definition renames (cmds : list Command) : bool := existsb (fun c => match c with CmdRenameTable _ => true | _ => false end) cmds.

Lemma compile_commands_ok g b cmds :
  (exists ss, compile_commands g b cmds = Ok ss) <-> (named g "sqlite" && negb (named g "mysql") && drops_foreign cmds = false).
Proof.
  induction cmds as [|cmd cmds IH]; [split; [by rewrite andb_false_r | by eexists] |].
  cbn [compile_commands]. unfold drops_foreign in *. cbn [existsb].
  assert (Hrest : forall s1, (exists ss, match compile_commands g b cmds with Err e => Err e | Ok rest => Ok (s1 ++ rest) end = Ok ss)
                             <-> exists ss, compile_commands g b cmds = Ok ss).
  { intros s1. destruct (compile_commands g b cmds); split; intros [ss H]; by eexists. }
  destruct cmd; cbn [compile_command orb]; try (rewrite Hrest; exact IH).
  destruct (named g "mysql"); [rewrite Hrest, IH, !andb_false_r; done |].
  destruct (named g "sqlite"); [split; [by intros [ss H] | done] |]. by rewrite Hrest, IH.
Qed.

Lemma rename_target_ok cmds : (exists n, rename_target cmds = Some n) <-> renames cmds = true.
Proof.
  induction cmds as [|cmd cmds IH]; [split; [by intros [n H] | done] |]. unfold renames in *. cbn [existsb].
  by destruct cmd; cbn [rename_target orb]; try exact IH; (split; [| by eexists]).
Qed.

(** A definition compiles unless it is nil, a column has no name or a name twice,
    SQLite is to drop a foreign key, or a rename has no target. *)
Theorem Compile_total uni_upper g CompileType d :
  (exists stmts, Compile uni_upper g CompileType (Some d) = Ok stmts) <->
  (Forall (fun c => Schema.Name c <> "") (columns (def_Blueprint d)) /\ NoDup (map Schema.Name (columns (def_Blueprint d)))) /\
  match def_Op d with
  | OpAlter => named g "sqlite" && negb (named g "mysql") && drops_foreign (commands (def_Blueprint d)) = false
  | OpRename => renames (commands (def_Blueprint d)) = true
  | _ => True
  end.
Proof.
  rewrite <- validate_spec. destruct d as [b op]. unfold Compile. cbn [def_Blueprint def_Op].
  destruct (validate b); [split; [by intros [ss H] | by intros [H _]] |].
  destruct op; try (split; [done | by eexists]).
  - rewrite <- (compile_commands_ok g b). unfold compileAlter.
    destruct (compile_commands g b (commands b)) as [cs|e]; naive_solver.
  - rewrite <- rename_target_ok. unfold compileRename.
    destruct (rename_target (commands b)) as [n|]; naive_solver.
Qed.

(** *** The edges *)

(** [Primary] on a table that exists makes a plain index. *)
Theorem primary_in_alter :
  Compile id postgres postgres_CompileType (Some (Table "t" (fun b => (Primary_ ["id"] b).1))) =
  Ok [(index_keyword IndexPlain +:+ " " +:+ Quote postgres "t_id_primary" +:+ " ON " +:+ Quote postgres "t" +:+ " (" +:+ Quote postgres "id" +:+ ")")].
Proof. reflexivity. Qed.

(** A primary key of one column that is not declared is left out. *)
Theorem primary_key_dropped :
  let b := (Primary_ ["uid"] (BigInteger "id" (NewBlueprint "t" true)).1).1 in
  primaryKeyColumns b = ["uid"] /\
  create_body id sqlite sqlite_CompileType b = [Quote sqlite "id" +:+ " INTEGER NOT NULL"].
Proof. split; reflexivity. Qed.

(** Two foreign keys of one column get one constraint name. *)
Theorem foreign_names_collide :
  foreign_name "t" (mkForeign "" ["a"; "b"] "x" [] "" "") = foreign_name "t" (mkForeign "" ["a_b"] "y" [] "" "").
Proof. reflexivity. Qed.

(** Tables of one schema can get one index name, and an explicit name is not
    reserved. *)
Theorem index_names_collide :
  base_name "a" (mkIndex "" IndexPlain ["b"; "c"]) = base_name "a_b" (mkIndex "" IndexPlain ["c"]) /\
  index_names "t" [mkIndex "t_x_index" IndexPlain ["y"]; mkIndex "" IndexPlain ["x"]] ∅ = ["t_x_index"; "t_x_index"].
Proof. split; reflexivity. Qed.

(** A set column of PostgreSQL is an array compared with scalars. *)
Theorem postgres_set_check :
  postgres_CompileType KindSet (mkTypeOptions 0 0 0 false false ["a"]) = "TEXT[]" /\
  compileEnumCheck postgres (Allow ["a"] (col "s" KindSet)) = Some ("CHECK (" +:+ Quote postgres "s" +:+ " IN (" +:+ quoteString "a" +:+ "))").
Proof. split; reflexivity. Qed.

(** The position of a column is not emitted. *)
Theorem position_not_emitted g CompileType c primary inl name :
  compileColumn g CompileType (After name (First c)) primary inl = compileColumn g CompileType c primary inl.
Proof. reflexivity. Qed.
