(* ===== verification/Inflect.v ===== *)
(** English words and identifier cases: [src/internal/inflect/inflect.go].

    Names are ASCII.  The table of irregular words is a list of its entries: for
    [Singularize], which ranges over the map, in the order the range takes. *)

From Stdlib Require Import ZArith Lia Ascii.
From Stdlib Require String.
From stdpp Require Import base strings list numbers.
From S2P Require Import Prelude GoRt GoStrconv GoStrings.

#[local] Set Warnings "-register-all".
#[local] Open Scope string_scope.
#[local] Open Scope list_scope.

Definition lower (s : string) : string := string_map lower_ascii s.
Definition upper (s : string) : string := string_map upper_ascii s.
Definition IsUpper (c : ascii) : bool := let b := byte_of c in (65 <=? b)%Z && (b <=? 90)%Z.
Definition IsLower (c : ascii) : bool := let b := byte_of c in (97 <=? b)%Z && (b <=? 122)%Z.

(** ** Tables *)

Notation irregular_words := (list (string * string)) (only parsing).

Definition irregulars : irregular_words :=
  [("person", "people"); ("man", "men"); ("woman", "women"); ("child", "children"); ("tooth", "teeth"); ("foot", "feet");
   ("goose", "geese"); ("mouse", "mice"); ("ox", "oxen"); ("sheep", "sheep"); ("fish", "fish"); ("deer", "deer");
   ("series", "series"); ("species", "species"); ("datum", "data"); ("criterion", "criteria"); ("phenomenon", "phenomena")].
Definition uncountables : list string := ["equipment"; "information"; "rice"; "money"; "news"; "jeans"].
Definition oExceptions : list string := ["hero"; "potato"; "tomato"; "echo"; "veto"; "buffalo"; "mango"].
Definition vesToFe : list string := ["knive"; "live"; "wive"].

Definition RegisterIrregular (singular plural : string) (t : irregular_words) : irregular_words :=
  (lower singular, lower plural) :: List.filter (fun e => negb (String.eqb e.1 (lower singular))) t.

(** ** Cases *)

(** The rest of the name, with the letter before it when there is one. *)
Fixpoint snake_from (prev : option ascii) (s : string) : string :=
  match s with
  | EmptyString => EmptyString
  | String r s =>
      let next_lower := match s with String n _ => IsLower n | EmptyString => false end in
      let bar := match prev with
                 | Some p => IsUpper r && (IsLower p || (IsUpper p && next_lower))
                 | None => false
                 end in
      let rest := String (lower_ascii r) (snake_from (Some r) s) in
      if bar then String "_" rest else rest
  end.

Definition Snake (s : string) : string := snake_from None s.

Definition capitalize (p : string) : string :=
  match p with EmptyString => EmptyString | String c p => String (upper_ascii c) (lower p) end.

Definition Camel (s : string) : string :=
  match Split "_" s with
  | [] => EmptyString
  | p :: ps => Join "" (lower p :: map capitalize ps)
  end.

Fixpoint hasUpper (s : string) : bool :=
  match s with EmptyString => false | String c s => IsUpper c || hasUpper s end.

Definition upper_first (s : string) : string :=
  match s with EmptyString => EmptyString | String c s => String (upper_ascii c) s end.

Definition Pascal (s : string) : string :=
  if String.eqb s "" then s
  else if negb (has_byte "_" s) && hasUpper s then upper_first s
  else upper_first (Camel s).

(** ** Words *)

Definition HasSuffix (s suffix : string) : bool :=
  (String.length suffix <=? String.length s)%nat && String.eqb (skip_bytes (String.length s - String.length suffix) s) suffix.

(** All but the last [n] bytes. *)
Definition but_last (n : nat) (s : string) : string := String.substring 0 (String.length s - n) s.

Definition isVowel (c : ascii) : bool := existsb (Ascii.eqb c) ["a"; "e"; "i"; "o"; "u"]%char.

Definition matchCase (orig target : string) : string :=
  match orig with
  | String c _ => if IsUpper c then upper_first target else target
  | EmptyString => target
  end.

Definition find_plural (w : string) (t : irregular_words) : option string := snd <$> List.find (fun e => String.eqb e.1 w) t.
Definition find_singular (w : string) (t : irregular_words) : option string := fst <$> List.find (fun e => String.eqb e.2 w) t.

(** The byte before the last one is a consonant. *)
Definition consonant_y (l : string) : bool :=
  match String.get (String.length l - 2) l with Some c => (1 <? String.length l)%nat && negb (isVowel c) | None => false end.

Definition Pluralize (t : irregular_words) (word : string) : string :=
  if String.eqb word "" then word
  else
    let l := lower word in
    if existsb (String.eqb l) uncountables then word
    else match find_plural l t with
    | Some p => matchCase word p
    | None =>
        if HasSuffix l "y" && consonant_y l then but_last 1 word +:+ "ies"
        else if HasSuffix l "sis" then but_last 3 word +:+ "ses"
        else if HasSuffix l "z" then word +:+ "zes"
        else if HasSuffix l "s" || HasSuffix l "x" || HasSuffix l "ch" || HasSuffix l "sh" then word +:+ "es"
        else if HasSuffix l "o" then if existsb (String.eqb l) oExceptions then word +:+ "es" else word +:+ "s"
        else if HasSuffix l "fe" then but_last 2 word +:+ "ves"
        else if HasSuffix l "f" then but_last 1 word +:+ "ves"
        else word +:+ "s"
    end.

Definition Singularize (t : irregular_words) (word : string) : string :=
  if String.eqb word "" then word
  else
    let l := lower word in
    if existsb (String.eqb l) uncountables then word
    else match find_singular l t with
    | Some s => matchCase word s
    | None =>
        if HasSuffix l "ies" && (3 <? String.length l)%nat then but_last 3 word +:+ "y"
        else if HasSuffix l "ves" && (3 <? String.length l)%nat then
          if existsb (String.eqb (but_last 1 l)) vesToFe then but_last 3 word +:+ "fe" else but_last 3 word +:+ "f"
        else if HasSuffix l "ses" && (3 <? String.length l)%nat then
          if HasSuffix l "yses" then but_last 4 word +:+ "ysis"
          else
            let stem := but_last 2 l in
            if HasSuffix stem "s" || HasSuffix stem "x" || HasSuffix stem "z" || HasSuffix stem "us" then but_last 2 word else but_last 1 word
        else if HasSuffix l "zzes" then but_last 3 word
        else if HasSuffix l "es" && (HasSuffix l "ches" || HasSuffix l "shes" || HasSuffix l "xes" || HasSuffix l "zes" || HasSuffix l "sses")
             then but_last 2 word
        else if HasSuffix l "oes" && (3 <? String.length l)%nat then
          if existsb (String.eqb (but_last 2 l)) oExceptions then but_last 2 word else but_last 1 word
        else if HasSuffix l "s" && negb (HasSuffix l "ss") then but_last 1 word
        else word
    end.

Definition Table (t : irregular_words) (structName : string) : string := Pluralize t (Snake structName).
Definition ForeignKey (structName : string) : string := Snake structName +:+ "_id".

(** ** Laws *)

Fixpoint all_bytes (p : ascii -> bool) (s : string) : bool :=
  match s with EmptyString => true | String c s => p c && all_bytes p s end.

Definition no_upper (s : string) : bool := negb (hasUpper s).

Lemma lower_ascii_not_upper c : IsUpper (lower_ascii c) = false.
Proof. destruct c as [[] [] [] [] [] [] [] []]; reflexivity. Qed.

Lemma lower_ascii_id c : IsUpper c = false -> lower_ascii c = c.
Proof. destruct c as [[] [] [] [] [] [] [] []]; first [reflexivity | discriminate]. Qed.

Lemma upper_lower c : IsLower c = true -> lower_ascii (upper_ascii c) = c /\ IsUpper (upper_ascii c) = true /\ IsUpper c = false /\ c <> "_"%char.
Proof. destruct c as [[] [] [] [] [] [] [] []]; first [discriminate | intros _; by split_and!]. Qed.

Lemma snake_no_upper prev s : hasUpper (snake_from prev s) = false.
Proof.
  revert prev. induction s as [|c s IH]; intros prev; [done |]. cbn [snake_from].
  assert (H : hasUpper (String (lower_ascii c) (snake_from (Some c) s)) = false) by (cbn [hasUpper]; by rewrite lower_ascii_not_upper, IH).
  destruct prev as [p|]; [| done]. by destruct (IsUpper c && _).
Qed.

(** A name without capitals is its own snake case. *)
Lemma snake_id prev s : hasUpper s = false -> snake_from prev s = s.
Proof.
  revert prev. induction s as [|c s IH]; intros prev; [done |]. cbn [hasUpper snake_from]. intros [Hc Hs]%orb_false_elim.
  rewrite Hc, (lower_ascii_id c Hc), IH by done. by destruct prev.
Qed.

Lemma lower_id s : hasUpper s = false -> lower s = s.
Proof.
  unfold lower. induction s as [|c s IH]; [done |]. cbn [hasUpper string_map]. intros [Hc Hs]%orb_false_elim.
  by rewrite (lower_ascii_id c Hc), IH.
Qed.

(** ** From snake case to Pascal case and back

    [word] is a segment of two or more small letters. *)

Definition word (s : string) : bool := (2 <=? String.length s)%nat && all_bytes IsLower s.

Lemma lower_letters s : all_bytes IsLower s = true -> hasUpper s = false /\ has_byte "_" s = false.
Proof.
  induction s as [|c s IH]; [done |]. cbn [all_bytes hasUpper has_byte]. intros [Hc Hs]%andb_prop.
  destruct (upper_lower c Hc) as (_ & _ & H1 & H2), (IH Hs) as [H3 H4]. by rewrite H1, H3, H4, (proj2 (Ascii.eqb_neq _ _) H2).
Qed.

Lemma last_cons {A} (c : A) l p : List.last (c :: l) p = List.last l c.
Proof. revert c p. induction l as [|d l IH]; intros c p; [done |]. change (List.last (d :: l) p = List.last (d :: l) c). by rewrite !IH. Qed.

Lemma snake_letters p s t :
  all_bytes IsLower s = true -> snake_from (Some p) (s +:+ t) = s +:+ snake_from (Some (List.last (String.list_ascii_of_string s) p)) t.
Proof.
  revert p. induction s as [|c s IH]; intros p; [done |]. cbn [all_bytes]. intros [Hc Hs]%andb_prop.
  change (String c s +:+ t) with (String c (s +:+ t)). cbn [snake_from]. destruct (upper_lower c Hc) as (_ & _ & Hu & _).
  rewrite Hu, (lower_ascii_id c Hu), IH by done. change (String.list_ascii_of_string (String c s)) with (c :: String.list_ascii_of_string s).
  by rewrite last_cons.
Qed.

Lemma last_lower c l : IsLower c = true -> forallb IsLower l = true -> IsLower (List.last l c) = true.
Proof.
  revert c. induction l as [|d l IH]; intros c Hc; [done |]. cbn [forallb]. intros [Hd Hl]%andb_prop.
  rewrite last_cons. by apply IH.
Qed.

Lemma all_bytes_forallb p s : all_bytes p s = forallb p (String.list_ascii_of_string s).
Proof. induction s as [|c s IH]; [done |]. cbn. by rewrite IH. Qed.

Lemma Join_cons_empty x l : Join "" (x :: l) = x +:+ Join "" l.
Proof. destruct l as [|y l]; [| done]. simpl. induction x as [|c x IH]; [done |]. change (String c x +:+ "") with (String c (x +:+ "")). by rewrite <- IH. Qed.

(** The capital of a word after a small letter starts a new segment. *)
Lemma snake_words p ws :
  IsLower p = true -> Forall (fun w => word w = true) ws ->
  snake_from (Some p) (Join "" (map capitalize ws)) = Join "" (map (fun w => "_" +:+ w) ws).
Proof.
  intros Hp H. revert p Hp. induction H as [|w ws Hw _ IH]; intros p Hp; [done |].
  unfold word in Hw. apply andb_prop in Hw as [Hlen Hw]. apply Nat.leb_le in Hlen.
  destruct w as [|c [|d w]]; [simpl in Hlen; lia .. |]. cbn [all_bytes] in Hw.
  apply andb_prop in Hw as [Hc Hw]. destruct (upper_lower c Hc) as (Hback & Hup & _).
  assert (Hlow : lower (String d w) = String d w) by (apply lower_id, lower_letters; exact Hw).
  rewrite !map_cons, !Join_cons_empty. change (capitalize (String c (String d w))) with (String (upper_ascii c) (lower (String d w))).
  rewrite Hlow. change (String (upper_ascii c) (String d w) +:+ Join "" (map capitalize ws))
    with (String (upper_ascii c) (String d w +:+ Join "" (map capitalize ws))).
  change (("_" +:+ String c (String d w)) +:+ Join "" (map (fun w => "_" +:+ w) ws))
    with (String "_" (String c (String d w +:+ Join "" (map (fun w => "_" +:+ w) ws)))).
  cbn [snake_from]. rewrite Hup, Hp, Hback. cbn [andb orb]. f_equal. f_equal.
  rewrite (snake_letters (upper_ascii c) (String d w)) by exact Hw. f_equal. apply IH.
  rewrite all_bytes_forallb in Hw. change (String.list_ascii_of_string (String d w)) with (d :: String.list_ascii_of_string w) in *.
  cbn [forallb] in Hw. apply andb_prop in Hw as [Hd Hw].
  rewrite last_cons. by apply last_lower.
Qed.

Lemma word_letters w : word w = true -> hasUpper w = false /\ has_byte "_" w = false /\ exists c d r, w = String c (String d r) /\ IsLower c = true.
Proof.
  unfold word. intros [Hlen Hw]%andb_prop. apply Nat.leb_le in Hlen. destruct (lower_letters w Hw) as [H1 H2]. split_and!; [done | done |].
  destruct w as [|c [|d w]]; [simpl in Hlen; lia .. |]. exists c, d, w. split; [done |]. by apply andb_prop in Hw as [? _].
Qed.

Lemma Split_join_words w ws :
  Forall (fun w => word w = true) (w :: ws) -> Split "_" (Join "_" (w :: ws)) = w :: ws.
Proof.
  intros H. revert w H. induction ws as [|v ws IH]; intros w H; apply list.Forall_cons in H as [Hw H].
  - apply Split_none. by apply word_letters in Hw as (_ & ? & _).
  - change (Join "_" (w :: v :: ws)) with (w +:+ String "_" (Join "_" (v :: ws))).
    rewrite Split_first by by apply word_letters in Hw as (_ & ? & _). by rewrite IH.
Qed.

Lemma Join_words_no_upper ws : Forall (fun w => word w = true) ws -> hasUpper (Join "_" ws) = false.
Proof.
  assert (Happ : forall a b, hasUpper (a +:+ b) = hasUpper a || hasUpper b).
  { induction a as [|c a IH]; intros b; [done |]. change (String c a +:+ b) with (String c (a +:+ b)). cbn [hasUpper]. by rewrite IH, orb_assoc. }
  induction 1 as [|w ws Hw H IH]; [done |]. apply word_letters in Hw as (Hw & _). destruct ws as [|v ws]; [done |].
  change (Join "_" (w :: v :: ws)) with (w +:+ String "_" (Join "_" (v :: ws))). rewrite Happ, Hw. simpl hasUpper at 1. exact IH.
Qed.

Lemma Join_underscore w ws : Join "_" (w :: ws) = w +:+ Join "" (map (fun v => "_" +:+ v) ws).
Proof.
  revert w. induction ws as [|v ws IH]; intros w.
  - simpl. induction w as [|c w IH]; [done |]. change (String c w +:+ "") with (String c (w +:+ "")). by rewrite <- IH.
  - change (Join "_" (w :: v :: ws)) with (w +:+ ("_" +:+ Join "_" (v :: ws))). rewrite IH, map_cons, Join_cons_empty.
    by rewrite str_app_assoc.
Qed.

(** A snake-case name made of words of two or more small letters comes back
    from its Pascal case: the generators that go from table and file names to
    type names and back agree. *)
Theorem Snake_Pascal w ws :
  Forall (fun w => word w = true) (w :: ws) -> Snake (Pascal (Join "_" (w :: ws))) = Join "_" (w :: ws).
Proof.
  intros H. pose proof (Join_words_no_upper _ H) as Hup. pose proof (Split_join_words w ws H) as Hsp.
  pose proof H as H'. apply list.Forall_cons in H' as [Hw Hws]. apply word_letters in Hw as (Huw & _ & c & d & r & Ew & Hc).
  destruct (upper_lower c Hc) as (Hback & _ & _ & _). unfold Pascal, Camel. rewrite Hup, Hsp, andb_false_r.
  rewrite Join_underscore. rewrite Join_cons_empty, (lower_id w Huw). subst w.
  change (String.eqb (String c (String d r) +:+ Join "" (map (fun v => "_" +:+ v) ws)) "") with false.
  change (upper_first (String c (String d r) +:+ Join "" (map capitalize ws)))
    with (String (upper_ascii c) (String d r +:+ Join "" (map capitalize ws))).
  unfold Snake. cbn [snake_from]. rewrite Hback.
  change (String c (String d r) +:+ Join "" (map (fun v => "_" +:+ v) ws)) with (String c (String d r +:+ Join "" (map (fun v => "_" +:+ v) ws))).
  f_equal. apply list.Forall_cons in H as [Hw _]. unfold word in Hw. apply andb_prop in Hw as [_ Hw]. cbn [all_bytes] in Hw.
  apply andb_prop in Hw as [_ Hw].
  rewrite (snake_letters (upper_ascii c) (String d r)) by exact Hw. f_equal. apply snake_words; [| done].
  rewrite all_bytes_forallb in Hw. change (String.list_ascii_of_string (String d r)) with (d :: String.list_ascii_of_string r) in *.
  cbn [forallb] in Hw. apply andb_prop in Hw as [Hd Hr]. rewrite last_cons. by apply last_lower.
Qed.

Example Snake_Pascal_witness : Snake (Pascal "post_comment_item") = "post_comment_item".
Proof. apply (Snake_Pascal "post" ["comment"; "item"]). repeat constructor. Defined.

(** [Snake] is idempotent and leaves no capital. *)
Theorem Snake_idempotent s : Snake (Snake s) = Snake s /\ hasUpper (Snake s) = false.
Proof. split; [apply snake_id |]; apply snake_no_upper. Qed.

(** The table of a name the package generates is never empty. *)
Theorem Pluralize_nonempty word : word <> "" -> Pluralize irregulars word <> "".
Proof.
  intros Hw. unfold Pluralize. rewrite (proj2 (String.eqb_neq _ _) Hw). destruct (existsb _ uncountables); [done |].
  destruct (find_plural (lower word) irregulars) as [p|] eqn:E.
  - unfold find_plural in E. apply fmap_Some in E as ([k v] & Hf & ->). apply find_some in Hf as [Hin _].
    assert (Hv : v <> "").
    { assert (Hall : forallb (fun e => negb (String.eqb e.2 "")) irregulars = true) by reflexivity.
      pose proof (proj1 (forallb_forall _ _) Hall _ Hin) as H. by apply negb_true_iff, String.eqb_neq in H. }
    simpl. unfold matchCase. destruct word as [|c word]; [done |]. destruct (IsUpper c); [| done]. by destruct v.
  - assert (Ha : forall a b, b <> "" -> a +:+ b <> "") by (intros [|] b Hb; [done | discriminate]).
    repeat case_match; by apply Ha.
Qed.

(** *** The edges *)

(** Words in [-ses] lose both letters: the branch that keeps the [e] is dead, and
    [bases] does not become [basis]. *)
Theorem singular_of_ses :
  Singularize irregulars "houses" = "hous" /\ Singularize irregulars "courses" = "cours" /\
  Singularize irregulars (Pluralize irregulars "basis") = "bas" /\ Singularize irregulars "movies" = "movy".
Proof. split_and!; reflexivity. Qed.

(** One-letter segments are lost on the way to Pascal case and back. *)
Theorem short_segment_lost : Snake (Pascal "a_b_test") = "ab_test".
Proof. reflexivity. Qed.
