(* ===== verification/Reflect.v ===== *)
(** What the ORM reads off a Go struct type, and how it fills one from the
    database: [src/internal/reflectutil/cache.go] and [assign.go].

    - [gotype] is the part of [reflect.Type] the package looks at; a struct lists
      its fields with their tags.  A type that embeds a pointer to itself (on
      which the code does not end) has no [gotype].
    - [buildField], [collect] and [parseType] make the schema of a struct.
    - Values are those of [Query.any]; floating-point numbers are opaque there, so
      their conversions are arguments. *)

From Stdlib Require Import ZArith Lia Ascii.
From Stdlib Require String.
From stdpp Require Import base gmap strings list numbers.
From S2P Require Import Prelude GoRt GoStrconv GoStrings GoUtf8 Query Inflect.

#[local] Set Warnings "-register-all".
#[local] Open Scope string_scope.
#[local] Open Scope list_scope.
#[local] Open Scope Z_scope.

(** ** Types *)

(** [TInt signed bits]; of a struct, which of its value and pointer types have the
    methods of [driver.Valuer] and [sql.Scanner]. *)
Inductive gotype :=
| TInt (signed : bool) (bits : Z)
| TString
| TBool
| TFloat
| TTime
| TPtr (elem : gotype)
| TSlice (elem : gotype)
| TStruct (name : string) (valuer ptr_valuer ptr_scanner : bool) (fields : list struct_field)
| TOther
with struct_field :=
| SF (name : string) (exported anonymous : bool) (type : gotype) (orm column relation : string).

(** A tag is the text of its key, empty when there is none. *)
Definition sf_name (f : struct_field) : string := match f with SF n _ _ _ _ _ _ => n end.

Fixpoint indirectType (t : gotype) : gotype :=
  match t with TPtr t | TSlice t => indirectType t | t => t end.

Definition isIntegerKind (t : gotype) : bool := match t with TInt _ _ => true | _ => false end.

Definition is_time (t : gotype) : bool := match t with TTime => true | _ => false end.
Definition is_struct (t : gotype) : bool := match t with TStruct _ _ _ _ _ => true | _ => false end.

Definition isRelationStruct (t : gotype) : bool :=
  match (match t with TPtr t => t | t => t end) with
  | TStruct _ v pv ps _ => negb v && negb pv && negb ps
  | _ => false
  end.

(** ** Fields *)

Record Field := mkField {
  f_Name : string; Column : string; f_Index : list nat; Type_ : gotype;
  IsPrimary : bool; IsAutoIncrement : bool; IsCreatedAt : bool; IsUpdatedAt : bool; IsDeletedAt : bool;
  Hidden : bool; Fillable : bool; Cast : string; HasDefault : bool; Default_ : string; f_Nullable : bool;
  Skip : bool; IsRelation : bool }.

Definition set_column (c : string) (f : Field) : Field :=
  mkField (f_Name f) c (f_Index f) (Type_ f) (IsPrimary f) (IsAutoIncrement f) (IsCreatedAt f) (IsUpdatedAt f) (IsDeletedAt f)
    (Hidden f) (Fillable f) (Cast f) (HasDefault f) (Default_ f) (f_Nullable f) (Skip f) (IsRelation f).
Definition set_keys (primary auto : bool) (f : Field) : Field :=
  mkField (f_Name f) (Column f) (f_Index f) (Type_ f) primary auto (IsCreatedAt f) (IsUpdatedAt f) (IsDeletedAt f)
    (Hidden f) (Fillable f) (Cast f) (HasDefault f) (Default_ f) (f_Nullable f) (Skip f) (IsRelation f).
Definition set_flags (nullable hidden fillable : bool) (f : Field) : Field :=
  mkField (f_Name f) (Column f) (f_Index f) (Type_ f) (IsPrimary f) (IsAutoIncrement f) (IsCreatedAt f) (IsUpdatedAt f) (IsDeletedAt f)
    hidden fillable (Cast f) (HasDefault f) (Default_ f) nullable (Skip f) (IsRelation f).
Definition set_cast (c : string) (f : Field) : Field :=
  mkField (f_Name f) (Column f) (f_Index f) (Type_ f) (IsPrimary f) (IsAutoIncrement f) (IsCreatedAt f) (IsUpdatedAt f) (IsDeletedAt f)
    (Hidden f) (Fillable f) c (HasDefault f) (Default_ f) (f_Nullable f) (Skip f) (IsRelation f).
Definition set_default (v : string) (f : Field) : Field :=
  mkField (f_Name f) (Column f) (f_Index f) (Type_ f) (IsPrimary f) (IsAutoIncrement f) (IsCreatedAt f) (IsUpdatedAt f) (IsDeletedAt f)
    (Hidden f) (Fillable f) (Cast f) true v (f_Nullable f) (Skip f) (IsRelation f).
Definition set_relation (r : bool) (f : Field) : Field :=
  mkField (f_Name f) (Column f) (f_Index f) (Type_ f) (IsPrimary f) (IsAutoIncrement f) (IsCreatedAt f) (IsUpdatedAt f) (IsDeletedAt f)
    (Hidden f) (Fillable f) (Cast f) (HasDefault f) (Default_ f) (f_Nullable f) (Skip f) r.

(** One part of the [orm] tag. *)
Definition apply_part (f : Field) (part : string) : Field :=
  let part := TrimSpace part in
  if String.eqb part "" then f
  else
    let '(k, v, hasV) := match cut_at ":" part with Some (k, v) => (k, v, true) | None => (part, "", false) end in
    let k := lower (TrimSpace k) in
    let v := TrimSpace v in
    if String.eqb k "primary" || String.eqb k "primarykey" then set_keys true (IsAutoIncrement f) f
    else if String.eqb k "autoincrement" then set_keys (IsPrimary f) true f
    else if String.eqb k "nullable" then set_flags true (Hidden f) (Fillable f) f
    else if String.eqb k "hidden" then set_flags (f_Nullable f) true (Fillable f) f
    else if String.eqb k "fillable" then set_flags (f_Nullable f) (Hidden f) true f
    else if String.eqb k "cast" then if hasV then set_cast v f else f
    else if String.eqb k "default" then if hasV then set_default v f else f
    else if String.eqb k "column" then if hasV then set_column v f else f
    else f.

(** A slice of structs, or a pointer to one that is tagged. *)
Definition relation_shaped (t : gotype) (relation : string) : bool :=
  match t with
  | TSlice e => is_struct (indirectType e)
  | TPtr _ => is_struct (indirectType t) && negb (String.eqb relation "")
  | _ => false
  end.

Definition buildField (sf : struct_field) (idx : list nat) : option Field :=
  match sf with
  | SF name _ _ t orm column relation =>
      if String.eqb orm "-" then None
      else
        let col := if String.eqb column "" then Snake name else column in
        let named_ n := String.eqb name n in
        let f := mkField name col idx t (named_ "ID") (named_ "ID" && isIntegerKind t)
                   (named_ "CreatedAt" && is_time t) (named_ "UpdatedAt" && is_time t)
                   (named_ "DeletedAt" && (is_time t || match t with TPtr t' => is_time t' | _ => false end))
                   false false "" false "" false (String.eqb col "-") (relation_shaped t relation) in
        let f := fold_left apply_part (Split ";" orm) f in
        Some (if negb (IsRelation f) && String.eqb (Cast f) "" && isRelationStruct t then set_relation true f else f)
  end.

(** ** Schemas *)

(** The fields of a struct, those of embedded structs in their place. *)
Fixpoint collect (t : gotype) (index : list nat) {struct t} : list Field :=
  match t with
  | TStruct _ _ _ _ fields =>
      (fix fields_from (i : nat) (fs : list struct_field) : list Field :=
         match fs with
         | [] => []
         | SF name exported anonymous ft orm column relation as sf :: fs =>
             let here :=
               if negb exported then []
               else if anonymous && is_struct (indirectType ft) then
                 (fix embedded (et : gotype) : list Field :=
                    match et with TPtr e | TSlice e => embedded e | e => collect e (index ++ [i]) end) ft
               else match buildField (SF name exported anonymous ft orm column relation) (index ++ [i]) with Some f => [f] | None => [] end in
             here ++ fields_from (S i) fs
         end) 0%nat fields
  | _ => []
  end.

Record Schema := mkSchema { s_Table : string; Fields : list Field }.

Definition type_name (t : gotype) : string := match t with TStruct n _ _ _ _ => n | _ => "" end.

Definition parseType (words : list (string * string)) (t : gotype) : Schema :=
  if is_struct t then mkSchema (Inflect.Table words (type_name t)) (collect t []) else mkSchema "" [].

Definition Parse (words : list (string * string)) (t : gotype) : Schema := parseType words (indirectType t).

(** Maps filled in the order of the fields: the last field of a key wins. *)
Definition last_such (p : Field -> bool) (s : Schema) : option Field := List.find p (rev (Fields s)).

Definition PrimaryKey (s : Schema) : option Field := List.find IsPrimary (Fields s).
Definition CreatedAt (s : Schema) : option Field := last_such IsCreatedAt s.
Definition UpdatedAt (s : Schema) : option Field := last_such IsUpdatedAt s.
Definition DeletedAt (s : Schema) : option Field := last_such IsDeletedAt s.
Definition SoftDeletes (s : Schema) : bool := match DeletedAt s with Some _ => true | None => false end.
Definition FieldByName (name : string) (s : Schema) : option Field := last_such (fun f => String.eqb (f_Name f) name) s.
Definition FieldByColumn (col : string) (s : Schema) : option Field := last_such (fun f => String.eqb (Column f) col) s.

Definition persisted (f : Field) : bool := negb (Skip f || IsRelation f).
Definition Columns (s : Schema) : list string := map Column (List.filter persisted (Fields s)).

(** ** Values from the database *)

Section Assign.
Context (format_float : nat -> string) (parse_float : string -> option nat) (float_of_int : Z -> nat) (int_of_float : nat -> Z)
        (format_time : Z -> string) (Scan : gotype -> any -> option any).

(** The value of a type that was never set. *)
Definition zero (t : gotype) : any :=
  match t with
  | TInt _ _ => Int 0
  | TString => Str ""
  | TBool => BoolV false
  | TFloat => Other (float_of_int 0)
  | TTime => TimeV 0
  | _ => Nil
  end.

(** [strconv.ParseUint(s, 10, 64)] and [ParseBool]; every error is [None]. *)
Definition ParseUint (s : string) : option Z :=
  match parse_uint s with Some n => if n <? 2 ^ 64 then Some n else None | None => None end.

Definition ParseBool (s : string) : option bool :=
  if existsb (String.eqb s) ["1"; "t"; "T"; "true"; "TRUE"; "True"] then Some true
  else if existsb (String.eqb s) ["0"; "f"; "F"; "false"; "FALSE"; "False"] then Some false
  else None.

Definition asText (src : any) : option string := match src with Str s | Bytes s => Some s | _ => None end.

Definition ToInt64 (src : any) : option Z :=
  match src with
  | Int n => Some n
  | Other f => Some (int_of_float f)
  | Bytes s | Str s => ParseInt s
  | _ => None
  end.

(** [None] is an error.  [dv.SetInt] and [dv.SetUint] keep the low bits. *)
Definition ConvertAssign (t : gotype) (src : any) : option any :=
  match t with
  | TString =>
      match src with
      | Str s | Bytes s => Some (Str s)
      | Int n => Some (Str (FormatInt n))
      | Other f => Some (Str (format_float f))
      | BoolV b => Some (Str (if b then "true" else "false"))
      | TimeV m => Some (Str (format_time m))
      | _ => None
      end
  | TInt true bits => (fun n => Int (wrap_s bits n)) <$> ToInt64 src
  | TInt false bits =>
      match ToInt64 src with
      | Some n => Some (Int (wrap_u bits n))
      | None => s ← asText src; u ← ParseUint s; Some (Int (wrap_u bits u))
      end
  | TFloat =>
      match src with
      | Other f => Some (Other f)
      | Int n => Some (Other (float_of_int n))
      | _ => s ← asText src; f ← parse_float s; Some (Other f)
      end
  | TBool =>
      match src with
      | BoolV b => Some (BoolV b)
      | Int n => Some (BoolV (negb (n =? 0)))
      | _ => s ← asText src; b ← ParseBool s; Some (BoolV b)
      end
  | TTime => match src with TimeV m => Some (TimeV m) | _ => None end
  | TSlice (TInt false 8) => match src with Bytes s | Str s => Some (Bytes s) | _ => None end
  | _ => None
  end.

Definition is_scanner (t : gotype) : bool := match t with TStruct _ _ _ ps _ => ps | _ => false end.

(** A pointer is [Nil] or the value it points to. *)
Definition AssignScanned (t : gotype) (raw : any) : option any :=
  if is_scanner t then Scan t raw
  else match raw with
  | Nil => Some (zero t)
  | _ =>
      match t with
      | TPtr e => if is_scanner e then Scan e raw else ConvertAssign e raw
      | _ => ConvertAssign t raw
      end
  end.

(** What [database/sql] makes of a field's value before it hands it to a driver;
    [None] is its error for an unsigned number with the high bit set. *)
Definition driver_value (v : any) : option any :=
  match v with
  | Int n => if n <? 2 ^ 63 then Some (Int n) else None
  | v => Some v
  end.

(** The values of a type, scanners left out. *)
Definition scalar_value (t : gotype) (v : any) : Prop :=
  match t, v with
  | TInt true bits, Int n => 1 <= bits <= 64 /\ - 2 ^ (bits - 1) <= n < 2 ^ (bits - 1)
  | TInt false bits, Int n => 1 <= bits <= 64 /\ 0 <= n < 2 ^ bits
  | TString, Str _ | TBool, BoolV _ | TFloat, Other _ | TTime, TimeV _ => True
  | TSlice (TInt false 8), Bytes _ => True
  | _, _ => False
  end.

Definition has_value (t : gotype) (v : any) : Prop :=
  match t with
  | TPtr e => v = Nil \/ scalar_value e v
  | t => scalar_value t v
  end.

Lemma wrap_s_small bits n : 1 <= bits -> - 2 ^ (bits - 1) <= n < 2 ^ (bits - 1) -> wrap_s bits n = n.
Proof.
  intros Hb Hn. unfold wrap_s. assert (Hp : 2 ^ bits = 2 * 2 ^ (bits - 1)) by (rewrite <- Z.pow_succ_r by lia; f_equal; lia).
  rewrite Z.mod_small by lia. lia.
Qed.

Lemma wrap_u_small bits n : 0 <= n < 2 ^ bits -> wrap_u bits n = n.
Proof. intros Hn. unfold wrap_u. by apply Z.mod_small. Qed.

Lemma scalar_back t v d : scalar_value t v -> driver_value v = Some d -> ConvertAssign t d = Some v /\ d <> Nil.
Proof.
  destruct t as [[] bits| | | | |e|e|n a b c fs|]; try (destruct v; simpl; try tauto; intros _ [= <-]; by split).
  - destruct v; simpl; try tauto. intros [Hb Hn]. case_match; [| done]. intros [= <-]. simpl. by rewrite wrap_s_small by lia.
  - destruct v; simpl; try tauto. intros [Hb Hn]. case_match; [| done]. intros [= <-]. simpl. by rewrite wrap_u_small.
  - destruct e as [[] bits| | | | | | | |]; destruct v; simpl; try tauto.
    all: try (destruct bits as [|[|[|[|[]|]|]|]|]; tauto).
    destruct bits as [|p|p]; try tauto. intros H [= <-]. destruct (decide (p = 8%positive)) as [->|Hne]; [by split |].
    exfalso. by repeat (destruct p as [p|p|]; try tauto).
Qed.

Lemma scalar_no_scanner t v : scalar_value t v -> is_scanner t = false.
Proof. destruct t as [[] ?| | | | | | |? ? ? [] ?|]; done. Qed.

Lemma scalar_scanned t v d : scalar_value t v -> driver_value v = Some d ->
  AssignScanned t d = Some v /\ AssignScanned (TPtr t) d = Some v.
Proof.
  intros Hv Hd. destruct (scalar_back t v d Hv Hd) as [Hc Hn]. unfold AssignScanned.
  rewrite (scalar_no_scanner t v Hv). simpl is_scanner. split; [| by destruct d].
  assert (Hp : forall e, t <> TPtr e) by (intros e ->; destruct v; exact Hv).
  destruct t; try (destruct d; first [exact Hc | done]).
Qed.
End Assign.



(** ** Schemas, the edges *)

Definition base_model : gotype :=
  TStruct "Model" false false false
    [SF "ID" true false (TInt false 64) "primary;autoincrement" "id" ""; SF "CreatedAt" true false TTime "" "created_at" "";
     SF "UpdatedAt" true false TTime "" "updated_at" ""].

Definition post_model : gotype :=
  TStruct "BlogPost" false false false
    [SF "Model" true true base_model "" "" ""; SF "Title" true false TString "" "" ""; SF "secret" false false TString "" "" "";
     SF "AuthorID" true false (TInt false 64) "cast: id ; hidden" "" "";
     SF "Tags" true false (TSlice (TStruct "Tag" false false false [])) "" "" "";
     SF "Author" true false (TPtr (TStruct "User" false false false [])) "" "" "";
     SF "DeletedAt" true false (TPtr TTime) "" "" ""].

(** The schema of a model with an embedded base: its table, its columns and its
    well-known fields. *)
Theorem post_schema :
  let s := Parse irregulars post_model in
  s_Table s = "blog_posts" /\ Columns s = ["id"; "created_at"; "updated_at"; "title"; "author_id"; "deleted_at"] /\
  f_Name <$> PrimaryKey s = Some "ID" /\ f_Index <$> PrimaryKey s = Some [0; 0]%nat /\ SoftDeletes s = true.
Proof. vm_compute. done. Qed.

(** A number that does not fit its field is cut to its low bits without an error. *)
Theorem narrow_field_truncates format_float parse_float float_of_int int_of_float format_time Scan :
  AssignScanned format_float parse_float float_of_int int_of_float format_time Scan (TInt true 8) (Int 300) = Some (Int 44) /\
  AssignScanned format_float parse_float float_of_int int_of_float format_time Scan (TInt false 32) (Int (-1)) = Some (Int 4294967295).
Proof. by split. Qed.

(** [column:-] in the [orm] tag names a column "-" instead of leaving the field out. *)
Theorem orm_tag_column_dash :
  option_map (fun f => (Column f, Skip f)) (buildField (SF "Temp" true false TString "column:-" "" "") []) = Some ("-", false) /\
  option_map (fun f => (Column f, Skip f)) (buildField (SF "Temp" true false TString "" "-" "") []) = Some ("-", true).
Proof. vm_compute. done. Qed.
