(* ===== verification/SqlRows.v ===== *)
(** What a database does with the statements of the query builder: an abstract
    specification, on a table that is a list of rows.

    It is the contract the ORM relies on.  [leaf] is the truth of one comparison
    on a row and [before] the order of an [ORDER BY]: both are the database's, and
    [Database] states the part of their documented behaviour that is relied on.
    Conditions are combined as SQL reads the text [Query.compileWheres] writes:
    AND binds more tightly than OR, and a nested builder stands in brackets.  A raw
    expression counts as one comparison, which is what SQL makes of one without an
    OR of its own. *)

From Stdlib Require Import ZArith Lia Ascii.
From Stdlib Require Import Sorted.
From stdpp Require Import base gmap strings list numbers.
From S2P Require Import Prelude GoRt GoStrconv Query GoSort.

#[local] Set Warnings "-register-all".
#[local] Open Scope Z_scope.

Notation dbrow := (gmap string any).

(** The value of a column, NULL when the row has none. *)
Definition get (r : dbrow) (c : string) : any := default Nil (r !! c).

Definition cmp (gl : glue) (col : string) (op : Op) (values : list any) : condition := Cond gl col op values "" [] None.

Fixpoint any_eq_dec (v w : any) : {v = w} + {v <> w}.
Proof.
  refine (
    match v, w with
    | Nil, Nil | Func, Func => left eq_refl
    | TypedNil a, TypedNil b => cast_if (decide (a = b))
    | Str a, Str b | Bytes a, Bytes b => cast_if (decide (a = b))
    | Int a, Int b | TimeV a, TimeV b => cast_if (decide (a = b))
    | Slice a, Slice b => cast_if (list_eq_dec any_eq_dec a b)
    | BoolV a, BoolV b => cast_if (decide (a = b))
    | Other a, Other b => cast_if (decide (a = b))
    | _, _ => right _
    end); congruence.
Defined.
#[export] Instance any_decision : EqDecision any := any_eq_dec.

(** The values a database compares as they are. *)
Definition is_scalar (v : any) : bool :=
  match v with Str _ | Int _ | Bytes _ | BoolV _ | TimeV _ | Other _ => true | _ => false end.

Lemma scalar_not_nil v : is_scalar v = true -> isNil v = false.
Proof. by destruct v. Qed.

Class Database (leaf : dbrow -> condition -> bool) (before : list orderClause -> dbrow -> dbrow -> bool) : Prop := {
  db_null gl r c : leaf r (cmp gl c OpIsNull []) = true <-> get r c = Nil;
  db_not_null gl r c : leaf r (cmp gl c OpNotNull []) = true <-> get r c <> Nil;
  db_eq gl r c v : is_scalar v = true -> leaf r (cmp gl c OpEq [v]) = true <-> get r c = v;
  db_in gl r c vs : forallb is_scalar vs = true -> leaf r (cmp gl c OpIn vs) = true <-> get r c ∈ vs;
  db_gt gl r c n : leaf r (cmp gl c OpGt [Int n]) = true <-> exists m, get r c = Int m /\ n < m;
  db_order os : StrictWeak (before os);
  db_asc c r r' n n' : get r c = Int n -> get r' c = Int n' ->
    before [mkOrder c "ASC" false] r r' = (n <? n') }.

Section Rows.
Context (leaf : dbrow -> condition -> bool) (before : list orderClause -> dbrow -> dbrow -> bool).

(** ** Conditions *)

Section Loop.
Context (truth : condition -> bool).

(** [cur] is the conjunction read so far. *)
Fixpoint holds_loop (cur : bool) (conds : list condition) : bool :=
  match conds with
  | [] => cur
  | c :: conds =>
      match c_bool c with
      | bAnd => holds_loop (cur && truth c) conds
      | bOr => cur || holds_loop (truth c) conds
      end
  end.
End Loop.

Fixpoint holds_cond (r : dbrow) (c : condition) : bool :=
  match c with
  | Cond _ _ _ _ _ _ (Some (c0 :: conds)) => holds_loop (holds_cond r) (holds_cond r c0) conds
  | _ => leaf r c
  end.

Definition holds (conds : list condition) (r : dbrow) : bool :=
  match conds with [] => true | c :: conds => holds_loop (holds_cond r) (holds_cond r c) conds end.

(** ** Statements *)

Definition bounds {A} (limit offset : Z) (l : list A) : list A :=
  let l := if 0 <? offset then drop (Z.to_nat offset) l else l in
  if 0 <? limit then take (Z.to_nat limit) l else l.

Definition select_rows (b : Builder) (t : list dbrow) : list dbrow :=
  let found := List.filter (holds (wheres b)) t in
  let sorted := match orders b with [] => found | os => SliceStable (before os) found end in
  bounds (limit b) (offset b) sorted.

Definition count_rows (b : Builder) (t : list dbrow) : Z := Z.of_nat (length (List.filter (holds (wheres b)) t)).

Definition update_rows (b : Builder) (values : dbrow) (t : list dbrow) : list dbrow :=
  map (fun r => if holds (wheres b) r then values ∪ r else r) t.

Definition delete_rows (b : Builder) (t : list dbrow) : list dbrow := List.filter (fun r => negb (holds (wheres b) r)) t.

(** ** Laws *)

(** The whole is a conjunction when no condition is glued with OR. *)
Lemma holds_loop_and truth cur conds :
  forallb (fun c => match c_bool c with bAnd => true | bOr => false end) conds = true ->
  holds_loop truth cur conds = cur && forallb truth conds.
Proof.
  revert cur. induction conds as [|c conds IH]; intros cur; simpl; [by rewrite andb_true_r |].
  destruct (c_bool c); [| done]. intros H. rewrite IH by done. by rewrite andb_assoc.
Qed.

Lemma holds_loop_app truth cur a b :
  forallb (fun c => match c_bool c with bAnd => true | bOr => false end) a = true ->
  holds_loop truth cur (a ++ b) = holds_loop truth (cur && forallb truth a) b.
Proof.
  revert cur. induction a as [|c a IH]; intros cur; simpl; [by rewrite andb_true_r |].
  destruct (c_bool c); [| done]. intros H. rewrite IH by done. by rewrite andb_assoc.
Qed.

Definition all_and (conds : list condition) : bool :=
  forallb (fun c => match c_bool c with bAnd => true | bOr => false end) conds.

Lemma holds_and conds r : all_and conds = true -> holds conds r = forallb (holds_cond r) conds.
Proof. destruct conds as [|c conds]; [done |]. simpl. intros [_ H]%andb_prop. by apply holds_loop_and. Qed.

Lemma holds_and_app a b r : all_and a = true -> all_and b = true -> holds (a ++ b) r = holds a r && holds b r.
Proof.
  intros Ha Hb. rewrite !holds_and by (done || (unfold all_and in *; by rewrite forallb_app, Ha, Hb)). by rewrite forallb_app.
Qed.

Lemma wrap_all_and b : all_and (wheres (WrapWheres b)) = true.
Proof.
  unfold WrapWheres. destruct (existsb _ (wheres b)) eqn:E; [done |]. unfold all_and. apply forallb_forall. intros c Hc.
  destruct (c_bool c) eqn:Ec; [done |]. exfalso. apply not_true_iff_false in E. apply E. apply existsb_exists. exists c. by rewrite Ec.
Qed.

Lemma wrap_holds b r : holds (wheres (WrapWheres b)) r = holds (wheres b) r.
Proof.
  unfold WrapWheres. destruct (existsb _ (wheres b)) eqn:E; [| done]. destruct (wheres b) as [|c conds]; [done |]. done.
Qed.

(** Conditions added to a wrapped builder narrow it. *)
Lemma narrow_holds b c r : c_bool c = bAnd -> holds (wheres (add_where c (WrapWheres b))) r = holds (wheres b) r && holds_cond r c.
Proof.
  intros Hc. unfold add_where, set_wheres. cbn [wheres]. rewrite holds_and_app; [| apply wrap_all_and | simpl; by rewrite Hc].
  rewrite wrap_holds. by simpl.
Qed.
End Rows.

(** ** A database

    The contract has an instance: values of one kind are compared, and an
    [ORDER BY] compares column after column. *)

Definition scalar_eqb (a b : any) : bool :=
  match a, b with
  | Str s, Str t | Bytes s, Bytes t => String.eqb s t
  | Int n, Int m | TimeV n, TimeV m => n =? m
  | BoolV x, BoolV y => Bool.eqb x y
  | Other i, Other j => Nat.eqb i j
  | _, _ => false
  end.

Lemma scalar_eqb_spec v w : is_scalar v = true -> scalar_eqb v w = true <-> w = v.
Proof.
  intros Hv. split.
  - destruct v, w; simpl in *; try done.
    + by intros ->%String.eqb_eq.
    + by intros ->%Z.eqb_eq.
    + by intros ->%String.eqb_eq.
    + by intros ->%eqb_prop.
    + by intros ->%Z.eqb_eq.
    + by intros ->%Nat.eqb_eq.
  - intros ->. destruct v; simpl in *; try done; [apply String.eqb_refl | apply Z.eqb_refl | apply String.eqb_refl
      | apply eqb_reflx | apply Z.eqb_refl | apply Nat.eqb_refl].
Qed.

Definition is_null (v : any) : bool := match v with Nil => true | _ => false end.

Definition simple_leaf (r : dbrow) (c : condition) : bool :=
  match c with
  | Cond _ col op values _ _ _ =>
      match op, values with
      | OpIsNull, _ => is_null (get r col)
      | OpNotNull, _ => negb (is_null (get r col))
      | OpEq, [v] => scalar_eqb v (get r col)
      | OpIn, vs => existsb (fun v => scalar_eqb v (get r col)) vs
      | OpGt, [Int n] => match get r col with Int m => n <? m | _ => false end
      | _, _ => false
      end
  end.

(** Numbers by value, text by its first character. *)
Definition rank (v : any) : Z :=
  match v with Int n => n | Str (String a _) => Z.of_nat (nat_of_ascii a) | _ => 0 end.

Definition sort_key (o : orderClause) (r : dbrow) : Z :=
  if String.eqb (o_dir o) "ASC" then rank (get r (o_column o)) else - rank (get r (o_column o)).

Fixpoint simple_before (os : list orderClause) (r r' : dbrow) : bool :=
  match os with
  | [] => false
  | o :: os => (sort_key o r <? sort_key o r') || ((sort_key o r =? sort_key o r') && simple_before os r r')
  end.

#[export] Instance simple_database : Database simple_leaf simple_before.
Proof.
  split.
  - intros gl r c. simpl. by destruct (get r c).
  - intros gl r c. simpl. by destruct (get r c).
  - intros gl r c v Hv. simpl. by apply scalar_eqb_spec.
  - intros gl r c vs Hvs. simpl. rewrite existsb_exists. setoid_rewrite <- list_elem_of_In. rewrite forallb_forall in Hvs. split.
    + intros (v & Hin & Hv). assert (get r c = v) as ->; [| done]. apply scalar_eqb_spec; [| done]. by apply Hvs, list_elem_of_In.
    + intros Hin. exists (get r c). split; [done |]. apply scalar_eqb_spec; [| done]. by apply Hvs, list_elem_of_In.
  - intros gl r c n. simpl. destruct (get r c) eqn:E; split; try done; try (by intros (m & Hm & _)).
    + intros H%Z.ltb_lt. by eexists.
    + intros (m & [= ->] & H). by apply Z.ltb_lt.
  - induction os as [|o os [Ha Hc]]; split; [done | done | |]; intros a b; simpl.
    + destruct (Z.ltb_spec (sort_key o a) (sort_key o b)), (Z.ltb_spec (sort_key o b) (sort_key o a)), (Z.eqb_spec (sort_key o a) (sort_key o b)),
        (Z.eqb_spec (sort_key o b) (sort_key o a)); simpl; try done; try lia. apply Ha.
    + intros c. destruct (Z.ltb_spec (sort_key o a) (sort_key o b)), (Z.ltb_spec (sort_key o b) (sort_key o c)),
        (Z.ltb_spec (sort_key o a) (sort_key o c)), (Z.eqb_spec (sort_key o a) (sort_key o b)), (Z.eqb_spec (sort_key o b) (sort_key o c)),
        (Z.eqb_spec (sort_key o a) (sort_key o c)); simpl; try done; try lia. apply Hc.
  - intros c r r' n n' H H'. simpl. unfold sort_key. simpl. rewrite H, H'. simpl. by rewrite andb_false_r, orb_false_r.
Qed.
