(* ===== verification/Orm.v ===== *)
(** The ORM: [src/orm/query.go], [builder_ext.go] and [hooks.go].

    - A model is what its fields hold, by their index path ([Reflect.f_Index]).
    - The operations run on a table ([SqlRows]) and a log of the statements and
      hooks they ran; [fault] makes a statement fail, [hook] is the model's hook
      (a hook may change the model and may fail; one that touches the table is
      out of the model), [casts_Get] the registry of casts.
    - Values of opaque types are [Query.Other]; 0 is the zero one.

    Eager loading is in [Relations]. *)

From Stdlib Require Import ZArith Lia Ascii.
From Stdlib Require String.
From Stdlib Require Import Sorted.
From stdpp Require Import base gmap strings list numbers.
From S2P Require Import Prelude GoRt GoStrconv Query GoSort Reflect SqlRows.
From S2P Require Sql.

#[local] Set Warnings "-register-all".
#[local] Open Scope string_scope.
#[local] Open Scope list_scope.
#[local] Open Scope Z_scope.

Notation model := (gmap (list nat) any).

Inductive trashedMode := trashedDefault | trashedWith | trashedOnly.

Record OBuilder := mkBuilder { o_schema : Schema; qb : Builder; trashed : trashedMode }.

Definition with_qb (q : Builder) (b : OBuilder) : OBuilder := mkBuilder (o_schema b) q (trashed b).

(** [Query], the table's name coming from [TableName] when the model has it. *)
Definition New_ (s : Schema) (tabler : option string) : OBuilder :=
  mkBuilder s (Query.New (default (s_Table s) tabler)) trashedDefault.
Definition WithTrashed (b : OBuilder) : OBuilder := mkBuilder (o_schema b) (qb b) trashedWith.
Definition OnlyTrashed (b : OBuilder) : OBuilder := mkBuilder (o_schema b) (qb b) trashedOnly.
Definition Scope (fn : option (OBuilder -> OBuilder)) (b : OBuilder) : OBuilder := match fn with Some f => f b | None => b end.

(** [Where(col, "=", v)], see [where_eq_is_Where]. *)
Definition where_eq (col : string) (v : any) (q : Builder) : Builder := add_where (nullAware (cmp bAnd col OpEq [v])) q.

Definition scopedQB (b : OBuilder) : Builder :=
  let q := WrapWheres (qb b) in
  match DeletedAt (o_schema b) with
  | None => q
  | Some f =>
      match trashed b with
      | trashedDefault => WhereNull (Column f) q
      | trashedOnly => WhereNotNull (Column f) q
      | trashedWith => q
      end
  end.

(** ** Values of a model *)

Definition IsZero (v : any) : bool :=
  match v with
  | Int n => n =? 0
  | Str s => String.eqb s ""
  | BoolV b => negb b
  | TimeV t => t =? 0
  | Other id => Nat.eqb id 0
  | Nil | TypedNil _ => true
  | _ => false
  end.

Definition field (f : Field) (m : model) : any := default (zero (fun _ => 0%nat) (Type_ f)) (m !! f_Index f).
Definition set_field (f : Field) (v : any) (m : model) : model := <[f_Index f := v]> m.

Inductive event :=
| EHook (name : string)
| ESelect (b : Builder)
| ECount (b : Builder)
| EInsert (values : dbrow)
| EInsertGetID (values : dbrow)
| EUpdate (b : Builder) (values : dbrow)
| EDelete (b : Builder).

Record cast (E : Type) := mkCast { FromDB : any -> any -> result E any; ToDB : any -> result E any }.
Arguments FromDB {E}. Arguments ToDB {E}. Arguments mkCast {E}.

Record db := mkDb { rows : list dbrow; log : list event }.

Section Orm.
Context {E : Type} (leaf : dbrow -> condition -> bool) (before : list orderClause -> dbrow -> dbrow -> bool).
Context (fault : list event -> option E) (hook : string -> model -> result E model) (casts_Get : string -> option (cast E)).
Context (assign : gotype -> any -> option any) (next_id : list dbrow -> Z).

Inductive orm_error :=
| ErrNotFound | ErrNoPrimaryKey | ErrNoSoftDeletes | ErrNoValues
| ErrScan (column : string) | ErrCast (column : string) (e : E) | ErrDriver (e : E) | ErrHook (e : E) | ErrCallback (e : E).

Definition M (A : Type) : Type := db -> result orm_error A * db.

Definition ret {A} (a : A) : M A := fun d => (Ok a, d).
Definition fail {A} (e : orm_error) : M A := fun d => (Err e, d).
Definition bind {A B} (m : M A) (k : A -> M B) : M B := fun d => match m d with (Ok a, d) => k a d | (Err e, d) => (Err e, d) end.
Definition lift {A} (r : result orm_error A) : M A := fun d => (r, d).

(** A statement: what it does to the table when the driver accepts it. *)
Definition exec {A} (ev : event) (k : list dbrow -> A * list dbrow) : M A := fun d =>
  let log' := log d ++ [ev] in
  match fault log' with
  | Some e => (Err (ErrDriver e), mkDb (rows d) log')
  | None => let '(a, t) := k (rows d) in (Ok a, mkDb t log')
  end.

Definition dispatchHook (name : string) (m : model) : M model := fun d =>
  (match hook name m with Ok m' => Ok m' | Err e => Err (ErrHook e) end, mkDb (rows d) (log d ++ [EHook name])).

Definition run_select (q : Builder) : M (list dbrow) := exec (ESelect q) (fun t => (select_rows leaf before q t, t)).
Definition run_count (q : Builder) : M Z := exec (ECount q) (fun t => (count_rows leaf q t, t)).
Definition run_insert (values : dbrow) : M unit := exec (EInsert values) (fun t => (tt, t ++ [values])).

(** The key of the row is the given one, or one the database chooses. *)
Definition run_insert_id (pk : string) (values : dbrow) : M Z :=
  exec (EInsertGetID values) (fun t =>
    match values !! pk with
    | Some (Int n) => (n, t ++ [values])
    | _ => let id := next_id t in (id, t ++ [<[pk := Int id]> values])
    end).

(** [query.Update] refuses an empty map. *)
Definition run_update (q : Builder) (values : dbrow) : M unit :=
  if bool_decide (values = ∅) then fail ErrNoValues
  else exec (EUpdate q values) (fun t => (tt, update_rows leaf q values t)).
Definition run_delete (q : Builder) : M unit := exec (EDelete q) (fun t => (tt, delete_rows leaf q t)).

(** ** Reading *)

(** One column of a scanned row. *)
Definition hydrate_column (s : Schema) (m : model) (c : string) (raw : any) : result orm_error model :=
  match FieldByColumn c s with
  | None => Ok m
  | Some f =>
      if negb (String.eqb (Cast f) "") then
        match casts_Get (Cast f) with
        | None => Ok m
        | Some cst => match FromDB cst raw (field f m) with Ok v => Ok (set_field f v m) | Err e => Err (ErrCast c e) end
        end
      else match assign (Type_ f) raw with Some v => Ok (set_field f v m) | None => Err (ErrScan c) end
  end.

Fixpoint hydrate_columns (s : Schema) (m : model) (cs : list (string * any)) : result orm_error model :=
  match cs with
  | [] => Ok m
  | (c, raw) :: cs => match hydrate_column s m c raw with Ok m => hydrate_columns s m cs | Err e => Err e end
  end.

Definition hydrate (s : Schema) (r : dbrow) : result orm_error model := hydrate_columns s ∅ (map_to_list r).

Fixpoint hydrateRows (s : Schema) (rs : list dbrow) : M (list model) :=
  match rs with
  | [] => ret []
  | r :: rs =>
      bind (lift (hydrate s r)) (fun m =>
      bind (dispatchHook "AfterFind" m) (fun m =>
      bind (hydrateRows s rs) (fun ms => ret (m :: ms))))
  end.

Definition fetch (s : Schema) (q : Builder) : M (list model) := bind (run_select q) (hydrateRows s).

Definition Get (b : OBuilder) : M (list model) := fetch (o_schema b) (scopedQB b).

Definition one (s : Schema) (q : Builder) : M model :=
  bind (fetch s (Limit 1 q)) (fun ms => match ms with [] => fail ErrNotFound | m :: _ => ret m end).

Definition First (b : OBuilder) : M model := one (o_schema b) (scopedQB b).
Definition FirstOrFail (b : OBuilder) : M model := First b.

Definition Find (b : OBuilder) (id : any) : M model :=
  match PrimaryKey (o_schema b) with
  | None => fail ErrNoPrimaryKey
  | Some pk => one (o_schema b) (where_eq (Column pk) id (scopedQB b))
  end.

Definition Count (b : OBuilder) : M Z := run_count (scopedQB b).
Definition Exists (b : OBuilder) : M bool := bind (run_count (scopedQB b)) (fun n => ret (0 <? n)).
Definition Pluck (b : OBuilder) (col : string) : M (list any) :=
  bind (run_select (Select [col] (scopedQB b))) (fun rs => ret (map (fun r => SqlRows.get r col) rs)).

(** ** Writing *)

Definition castToDB (f : Field) (v : any) : result orm_error any :=
  if String.eqb (Cast f) "" then Ok v
  else match casts_Get (Cast f) with
       | None => Ok v
       | Some c => match ToDB c v with Ok d => Ok d | Err e => Err (ErrCast (Column f) e) end
       end.

(** The columns of the fields [keep] lets through, in the order of the fields. *)
Fixpoint collect_values (keep : Field -> bool) (fs : list Field) (m : model) (out : dbrow) : result orm_error dbrow :=
  match fs with
  | [] => Ok out
  | f :: fs =>
      if negb (persisted f) || negb (keep f) then collect_values keep fs m out
      else match castToDB f (field f m) with
           | Ok v => collect_values keep fs m (<[Column f := v]> out)
           | Err e => Err e
           end
  end.

Definition collectValues (s : Schema) (m : model) : result orm_error dbrow :=
  collect_values (fun f => negb (IsAutoIncrement f && IsZero (field f m))) (Fields s) m ∅.
Definition collectUpdateValues (s : Schema) (m : model) : result orm_error dbrow :=
  collect_values (fun f => negb (IsPrimary f || IsCreatedAt f)) (Fields s) m ∅.

Definition stamp_zero (f : option Field) (now : any) (m : model) : model :=
  match f with Some f => if IsZero (field f m) then set_field f now m else m | None => m end.
Definition stamp (f : option Field) (now : any) (m : model) : model :=
  match f with Some f => set_field f now m | None => m end.

(** The number read back, in the key's type. *)
Definition convert_id (t : gotype) (id : Z) : any :=
  match t with TInt true w => Int (wrap_s w id) | TInt false w => Int (wrap_u w id) | _ => Int id end.

Definition by_key (table : string) (pk : Field) (v : any) : Builder := where_eq (Column pk) v (Query.New table).

Definition is_create (s : Schema) (table : string) (m : model) : M bool :=
  match PrimaryKey s with
  | None => ret true
  | Some pk =>
      if IsZero (field pk m) then ret true
      else if negb (IsAutoIncrement pk) then bind (run_count (by_key table pk (field pk m))) (fun n => ret (negb (0 <? n)))
      else ret false
  end.

Definition insert_model (s : Schema) (m : model) (values : dbrow) : M model :=
  match PrimaryKey s with
  | Some pk =>
      if IsZero (field pk m) && Reflect.isIntegerKind (Type_ pk) then
        bind (run_insert_id (Column pk) values) (fun id => ret (set_field pk (convert_id (Type_ pk) id) m))
      else bind (run_insert values) (fun _ => ret m)
  | None => bind (run_insert values) (fun _ => ret m)
  end.

Definition save_create (s : Schema) (now : any) (m : model) : M model :=
  let m := stamp_zero (UpdatedAt s) now (stamp_zero (CreatedAt s) now m) in
  bind (dispatchHook "BeforeSave" m) (fun m =>
  bind (dispatchHook "BeforeCreate" m) (fun m =>
  bind (lift (collectValues s m)) (fun values =>
  bind (insert_model s m values) (fun m =>
  bind (dispatchHook "AfterCreate" m) (fun m => dispatchHook "AfterSave" m))))).

Definition save_update (s : Schema) (pk : Field) (table : string) (now : any) (m : model) : M model :=
  let m := stamp (UpdatedAt s) now m in
  bind (dispatchHook "BeforeSave" m) (fun m =>
  bind (dispatchHook "BeforeUpdate" m) (fun m =>
  bind (lift (collectUpdateValues s m)) (fun values =>
  bind (run_update (by_key table pk (field pk m)) values) (fun _ =>
  bind (dispatchHook "AfterUpdate" m) (fun m => dispatchHook "AfterSave" m))))).

Definition Save (s : Schema) (table : string) (now : any) (m : model) : M model :=
  bind (is_create s table m) (fun create =>
  match PrimaryKey s, create with
  | Some pk, false => save_update s pk table now m
  | _, _ => save_create s now m
  end).

Definition Delete (s : Schema) (table : string) (now : any) (m : model) : M model :=
  match PrimaryKey s with
  | None => fail ErrNoPrimaryKey
  | Some pk =>
      bind (dispatchHook "BeforeDelete" m) (fun m =>
      let q := by_key table pk (field pk m) in
      match DeletedAt s with
      | Some f =>
          bind (run_update q {[ Column f := now ]}) (fun _ => dispatchHook "AfterDelete" (set_field f now m))
      | None => bind (run_delete q) (fun _ => dispatchHook "AfterDelete" m)
      end)
  end.

Definition ForceDelete (s : Schema) (table : string) (m : model) : M model :=
  match PrimaryKey s with
  | None => fail ErrNoPrimaryKey
  | Some pk =>
      bind (dispatchHook "BeforeDelete" m) (fun m =>
      bind (run_delete (by_key table pk (field pk m))) (fun _ => dispatchHook "AfterDelete" m))
  end.

Definition Restore (s : Schema) (table : string) (m : model) : M model :=
  match PrimaryKey s with
  | None => fail ErrNoPrimaryKey
  | Some pk =>
      match DeletedAt s with
      | None => fail ErrNoSoftDeletes
      | Some f =>
          bind (run_update (by_key table pk (field pk m)) {[ Column f := Nil ]}) (fun _ =>
          ret (set_field f (zero (fun _ => 0%nat) (Type_ f)) m))
      end
  end.

(** ** Pages, chunks, and find-or-create *)

Record Paginator := mkPage { Data : list model; Total : Z; Page : Z; PerPage : Z; LastPage : Z; HasMore : bool }.

Definition last_page (total perPage : Z) : Z :=
  let n := Z.quot (i64 (i64 (total + perPage) - 1)) perPage in if n <? 1 then 1 else n.

Definition Paginate (page perPage : Z) (b : OBuilder) : M Paginator :=
  let page := if page <? 1 then 1 else page in
  let perPage := if perPage <? 1 then 1 else perPage in
  bind (Count b) (fun total =>
  let offset := i64 (i64 (page - 1) * perPage) in
  bind (fetch (o_schema b) (Offset offset (Limit perPage (scopedQB b)))) (fun data =>
  let lastPage := last_page total perPage in
  ret (mkPage data total page perPage lastPage (page <? lastPage)))).

Definition order_asc (col : string) (q : Builder) : Builder := set_orders (orders q ++ [mkOrder col "ASC" false]) q.
Definition where_gt (col : string) (v : any) (q : Builder) : Builder := add_where (nullAware (cmp bAnd col OpGt [v])) q.

Definition chunk_qb (b : OBuilder) (pk : Field) (size : Z) (lastID : option any) : Builder :=
  let q := Limit size (order_asc (Column pk) (scopedQB b)) in
  match lastID with Some v => if isNil v then q else where_gt (Column pk) v q | None => q end.

(** The batches [fn] was given; [None]: out of fuel. *)
Fixpoint chunk_loop (fuel : nat) (b : OBuilder) (pk : Field) (size : Z) (fn : list model -> result E unit) (lastID : option any)
  : M (option (list (list model))) :=
  match fuel with
  | O => ret None
  | S fuel =>
      bind (fetch (o_schema b) (chunk_qb b pk size lastID)) (fun batch =>
      match list.last batch with
      | None => ret (Some [])
      | Some lastm =>
          match fn batch with
          | Err e => fail (ErrCallback e)
          | Ok _ =>
              if Z.of_nat (length batch) <? size then ret (Some [batch])
              else bind (chunk_loop fuel b pk size fn (Some (field pk lastm))) (fun rest => ret (cons batch <$> rest))
          end
      end)
  end.

Definition Chunk (fuel : nat) (size : Z) (fn : list model -> result E unit) (b : OBuilder) : M (option (list (list model))) :=
  let size := if size <? 1 then 1 else size in
  match PrimaryKey (o_schema b) with
  | None => fail ErrNoPrimaryKey
  | Some pk => chunk_loop fuel b pk size fn None
  end.

(** Attributes are a map; [order] is the order its range takes. *)
Definition mergeMaps (base : dbrow) (extra : list dbrow) : dbrow := fold_left (fun out m => m ∪ out) extra base.

Fixpoint assign_columns (s : Schema) (m : model) (attrs : list (string * any)) : result orm_error model :=
  match attrs with
  | [] => Ok m
  | (c, raw) :: attrs =>
      match FieldByColumn c s with
      | None => assign_columns s m attrs
      | Some f =>
          if negb (persisted f) then assign_columns s m attrs
          else match (if isNil raw then Some (zero (fun _ => 0%nat) (Type_ f)) else assign (Type_ f) raw) with
               | Some v => assign_columns s (set_field f v m) attrs
               | None => Err (ErrScan c)
               end
      end
  end.

Definition assignColumns (s : Schema) (m : model) (attrs : dbrow) : result orm_error model := assign_columns s m (map_to_list attrs).

Definition where_all (attrs : dbrow) (b : OBuilder) : OBuilder :=
  with_qb (fold_left (fun q cv => where_eq cv.1 cv.2 q) (map_to_list attrs) (qb b)) b.

(** Whether the first match was found; any other error is passed on. *)
Definition find_first (b : OBuilder) : M (option model) := fun d =>
  match First b d with
  | (Ok m, d) => (Ok (Some m), d)
  | (Err ErrNotFound, d) => (Ok None, d)
  | (Err e, d) => (Err e, d)
  end.

Definition FirstOrCreate (s : Schema) (tabler : option string) (now : any) (wh : dbrow) (defaults : list dbrow) : M model :=
  bind (find_first (where_all wh (New_ s tabler))) (fun found =>
  match found with
  | Some m => ret m
  | None =>
      bind (lift (assignColumns s ∅ (mergeMaps wh defaults))) (fun m => Save s (default (s_Table s) tabler) now m)
  end).

Definition UpdateOrCreate (s : Schema) (tabler : option string) (now : any) (wh values : dbrow) : M model :=
  bind (find_first (where_all wh (New_ s tabler))) (fun found =>
  let table := default (s_Table s) tabler in
  match found with
  | None => bind (lift (assignColumns s ∅ (mergeMaps wh [values]))) (fun m => Save s table now m)
  | Some m => bind (lift (assignColumns s m values)) (fun m => Save s table now m)
  end).
End Orm.

(** ** Laws *)

Lemma where_eq_is_Where uni_lower uni_upper sprint col v q :
  Query.Where uni_lower sprint [AVal (Str col); AVal (Str "="); AVal v] q = Some (where_eq col v q)
  /\ Query.OrderBy uni_upper col "asc" q = Some (order_asc col q).
Proof. split; reflexivity. Qed.

Section Laws.
Context {E : Type} (leaf : dbrow -> condition -> bool) (before : list orderClause -> dbrow -> dbrow -> bool).
Context `{!Database leaf before}.

(** What the soft-delete scope asks of a row. *)
Definition in_scope (b : OBuilder) (r : dbrow) : Prop :=
  match DeletedAt (o_schema b), trashed b with
  | Some f, trashedDefault => get r (Column f) = Nil
  | Some f, trashedOnly => get r (Column f) <> Nil
  | _, _ => True
  end.

Lemma scoped_all_and b : all_and (wheres (scopedQB b)) = true.
Proof.
  assert (Hw : forall c, c_bool c = bAnd -> all_and (wheres (add_where c (WrapWheres (qb b)))) = true).
  { intros c Hc. unfold add_where, set_wheres, all_and. cbn [wheres]. rewrite forallb_app. simpl. rewrite Hc.
    by rewrite andb_true_r; apply wrap_all_and. }
  unfold scopedQB. destruct (DeletedAt _) as [f|]; [destruct (trashed b) | apply wrap_all_and]; try apply wrap_all_and; by apply Hw.
Qed.

Lemma scoped_holds b r :
  holds leaf (wheres (scopedQB b)) r = true <-> holds leaf (wheres (qb b)) r = true /\ in_scope b r.
Proof.
  unfold scopedQB, in_scope. destruct (DeletedAt (o_schema b)) as [f|]; [| rewrite wrap_holds; tauto].
  destruct (trashed b).
  - unfold WhereNull. rewrite narrow_holds by done. rewrite andb_true_iff. apply and_iff_compat_l. exact (db_null (leaf := leaf) (before := before) bAnd r (Column f)).
  - rewrite wrap_holds. tauto.
  - unfold WhereNotNull. rewrite narrow_holds by done. rewrite andb_true_iff. apply and_iff_compat_l. exact (db_not_null (leaf := leaf) (before := before) bAnd r (Column f)).
Qed.

Lemma scoped_same b : orders (scopedQB b) = orders (qb b) /\ limit (scopedQB b) = limit (qb b) /\ offset (scopedQB b) = offset (qb b).
Proof.
  assert (Hw : forall q, orders (WrapWheres q) = orders q /\ limit (WrapWheres q) = limit q /\ offset (WrapWheres q) = offset q).
  { intros q. unfold WrapWheres. by destruct (existsb _ _). }
  unfold scopedQB. destruct (DeletedAt _) as [f|]; [destruct (trashed b) |]; apply Hw.
Qed.

Lemma bounds_sub {A} l o (xs : list A) x : x ∈ bounds l o xs -> x ∈ xs.
Proof.
  unfold bounds. intros H.
  assert (Hs : forall n, drop n xs ⊆+ xs /\ take n xs ⊆+ xs /\ forall m, take m (drop n xs) ⊆+ xs).
  { intros n. split_and!; [apply sublist_submseteq, sublist_drop | apply sublist_submseteq, sublist_take |].
    intros m. apply sublist_submseteq. etrans; [apply sublist_take | apply sublist_drop]. }
  destruct (0 <? l), (0 <? o); try done; (eapply elem_of_submseteq; [exact H |]); apply Hs.
Qed.

Lemma selected_sub q t r : r ∈ select_rows leaf before q t -> r ∈ t /\ holds leaf (wheres q) r = true.
Proof.
  intros H. apply bounds_sub in H.
  assert (Hf : r ∈ List.filter (holds leaf (wheres q)) t).
  { destruct (orders q) as [|o os]; [done |]. by rewrite (SliceStable_perm (before (o :: os))) in H. }
  apply list_elem_of_In, filter_In in Hf as [Hin Hh]. by rewrite <- list_elem_of_In in Hin.
Qed.

Lemma selected_all q t r : limit q = 0 -> offset q = 0 -> r ∈ t -> holds leaf (wheres q) r = true -> r ∈ select_rows leaf before q t.
Proof.
  intros Hl Ho Hin Hh. unfold select_rows, bounds. rewrite Hl, Ho. simpl.
  assert (Hf : r ∈ List.filter (holds leaf (wheres q)) t) by (by apply list_elem_of_In, filter_In; rewrite <- list_elem_of_In).
  destruct (orders q) as [|o os]; [done |]. by rewrite (SliceStable_perm (before (o :: os))).
Qed.

(** The rows a key selects. *)
Lemma key_holds table pk v r : is_scalar v = true ->
  holds leaf (wheres (by_key table pk v)) r = true <-> get r (Column pk) = v.
Proof.
  intros Hv. unfold by_key, where_eq, add_where, nullAware, cmp. rewrite (scalar_not_nil v Hv). simpl. exact (db_eq (leaf := leaf) (before := before) bAnd r (Column pk) v Hv).
Qed.
End Laws.


(** ** Writing, when nothing fails *)

Section Quiet.
Context {E : Type} (leaf : dbrow -> condition -> bool) (before : list orderClause -> dbrow -> dbrow -> bool).
Context `{!Database leaf before}.
Context (fault : list event -> option E) (hook : string -> model -> result E model) (casts_Get : string -> option (cast E)).
Context (assign : gotype -> any -> option any) (next_id : list dbrow -> Z).
Context (quiet_fault : forall l, fault l = None) (quiet_hook : forall n m, hook n m = Ok m).

(** What an operation leaves behind, the log aside. *)
Definition outcome {A} (r : result (@orm_error E) A * db) (a : A) (t : list dbrow) : Prop := r.1 = Ok a /\ rows r.2 = t.

Lemma exec_quiet {A} ev (k : list dbrow -> A * list dbrow) d : exec fault ev k d = (Ok (k (rows d)).1, mkDb (k (rows d)).2 (log d ++ [ev])).
Proof. unfold exec. rewrite quiet_fault. by destruct (k (rows d)). Qed.

Lemma hook_quiet n m d : dispatchHook hook n m d = (Ok m, mkDb (rows d) (log d ++ [EHook n])).
Proof. unfold dispatchHook. by rewrite quiet_hook. Qed.

Lemma bind_ok {A B} (m : M (E := E) A) (k : A -> M B) d a d' : m d = (Ok a, d') -> bind m k d = k a d'.
Proof. unfold bind. by intros ->. Qed.

(** The rows a key selects, changed. *)
Definition at_key (table : string) (pk : Field) (v : any) (h : dbrow -> dbrow) (t : list dbrow) : list dbrow :=
  map (fun r => if holds leaf (wheres (by_key table pk v)) r then h r else r) t.

Lemma update_at_key table pk v values d : values <> ∅ ->
  run_update leaf fault (by_key table pk v) values d
  = (Ok tt, mkDb (at_key table pk v (union values) (rows d)) (log d ++ [EUpdate (by_key table pk v) values])).
Proof. intros Hne. unfold run_update. rewrite bool_decide_false by done. rewrite exec_quiet. done. Qed.

Lemma at_key_other table pk v h t :
  is_scalar v = true -> (forall r, get r (Column pk) = v -> get (h r) (Column pk) = v) ->
  List.filter (fun r => negb (holds leaf (wheres (by_key table pk v)) r)) (at_key table pk v h t)
  = List.filter (fun r => negb (holds leaf (wheres (by_key table pk v)) r)) t.
Proof.
  intros Hv Hh. unfold at_key. induction t as [|r t IH]; [done |]. cbn [map List.filter].
  destruct (holds leaf (wheres (by_key table pk v)) r) eqn:Hr; cbn [negb].
  - assert (H : holds leaf (wheres (by_key table pk v)) (h r) = true).
    { apply (key_holds leaf before); [done |]. apply Hh. by apply (key_holds leaf before) in Hr. }
    rewrite H. exact IH.
  - rewrite Hr. cbn [negb]. by rewrite IH.
Qed.

Lemma get_union_singleton c v r c' : get ({[ c := v ]} ∪ r) c' = if decide (c = c') then v else get r c'.
Proof.
  unfold get. rewrite lookup_union. destruct (decide (c = c')) as [->|Hne].
  - rewrite lookup_singleton_eq. by destruct (r !! c').
  - rewrite lookup_singleton_ne by done. by destruct (r !! c').
Qed.

(** Deleting a soft-deletable model. *)
Lemma soft_delete_run s table pk f now m d :
  PrimaryKey s = Some pk -> DeletedAt s = Some f ->
  outcome (Delete leaf fault hook s table now m d) (set_field f now m)
    (at_key table pk (field pk m) (union {[ Column f := now ]}) (rows d)).
Proof.
  intros Hpk Hf. unfold Delete. rewrite Hpk, Hf. erewrite bind_ok by apply hook_quiet. cbv zeta.
  erewrite bind_ok by (apply update_at_key; apply map_non_empty_singleton). by rewrite hook_quiet.
Qed.

Lemma restore_run s table pk f m d :
  PrimaryKey s = Some pk -> DeletedAt s = Some f ->
  outcome (Restore leaf fault s table m d) (set_field f (zero (fun _ => 0%nat) (Type_ f)) m)
    (at_key table pk (field pk m) (union {[ Column f := Nil ]}) (rows d)).
Proof.
  intros Hpk Hf. unfold Restore. rewrite Hpk, Hf. by erewrite bind_ok by (apply update_at_key; apply map_non_empty_singleton).
Qed.

Lemma force_delete_run s table pk m d :
  PrimaryKey s = Some pk ->
  outcome (ForceDelete leaf fault hook s table m d) m
    (List.filter (fun r => negb (holds leaf (wheres (by_key table pk (field pk m))) r)) (rows d)).
Proof.
  intros Hpk. unfold ForceDelete. rewrite Hpk. erewrite bind_ok by apply hook_quiet. cbv zeta.
  unfold run_delete. erewrite bind_ok by apply exec_quiet. by rewrite hook_quiet.
Qed.

Lemma field_set_ne f g v m : f_Index f <> f_Index g -> field g (set_field f v m) = field g m.
Proof. intros H. unfold field, set_field. by rewrite lookup_insert_ne. Qed.

Lemma field_set_eq f v m : field f (set_field f v m) = v.
Proof. unfold field, set_field. by rewrite lookup_insert, decide_True by done. Qed.
End Quiet.

(** The life of a soft-deletable model: [Delete] keeps every row and stamps
    those of the key, which no default query reads any more and [OnlyTrashed]
    reads; [Restore] clears the stamp, so that what was there is read again;
    [ForceDelete] removes the rows of the key and no other. *)
Theorem soft_delete_life {E} leaf before `{!Database leaf before} (fault : list event -> option E) hook s table pk f now m d b :
  (forall l, fault l = None) -> (forall n m, hook n m = Ok m) ->
  PrimaryKey s = Some pk -> DeletedAt s = Some f -> Column f <> Column pk -> f_Index f <> f_Index pk ->
  now <> Nil -> is_scalar (field pk m) = true -> o_schema b = s ->
  let key r := get r (Column pk) = field pk m in
  exists d1 d2 d3,
    Delete leaf fault hook s table now m d = (Ok (set_field f now m), d1) /\
    Restore leaf fault s table (set_field f now m) d1 = (Ok (set_field f (zero (fun _ => 0%nat) (Type_ f)) (set_field f now m)), d2) /\
    ForceDelete leaf fault hook s table m d = (Ok m, d3) /\
    length (rows d1) = length (rows d) /\
    (forall r, r ∈ rows d1 -> key r -> (trashed b = trashedDefault -> r ∉ select_rows leaf before (scopedQB b) (rows d1)) /\
                                      (trashed b = trashedOnly -> in_scope b r)) /\
    (forall i r, rows d !! i = Some r -> exists r2, rows d2 !! i = Some r2 /\
       (~ key r -> r2 = r) /\ (key r -> get r2 (Column f) = Nil /\ forall c, c <> Column f -> get r2 c = get r c)) /\
    (forall r, r ∈ rows d3 <-> r ∈ rows d /\ ~ key r).
Proof.
  intros Hq Hh Hpk Hf Hcol Hidx Hnow Hv Hb key.
  destruct (soft_delete_run leaf fault hook Hq Hh s table pk f now m d Hpk Hf) as [H1 R1].
  destruct (Delete leaf fault hook s table now m d) as [x1 d1] eqn:E1. cbn [fst snd] in H1, R1. subst x1.
  destruct (restore_run leaf fault Hq s table pk f (set_field f now m) d1 Hpk Hf) as [H2 R2].
  destruct (Restore leaf fault s table (set_field f now m) d1) as [x2 d2] eqn:E2. cbn [fst snd] in H2, R2. subst x2.
  destruct (force_delete_run leaf fault hook Hq Hh s table pk m d Hpk) as [H3 R3].
  destruct (ForceDelete leaf fault hook s table m d) as [x3 d3] eqn:E3. cbn [fst snd] in H3, R3. subst x3.
  rewrite field_set_ne in R2 by done. pose proof (key_holds leaf before table pk (field pk m)) as Hk.
  exists d1, d2, d3. split_and!; try done.
  - rewrite R1. apply length_map.
  - intros r Hin Hr.
    assert (Hdel : get r (Column f) = now).
    { rewrite R1 in Hin. apply list_elem_of_fmap in Hin as (r0 & -> & Hin0). destruct (holds leaf _ r0) eqn:Hr0.
      - rewrite get_union_singleton. by rewrite decide_True.
      - exfalso. apply not_true_iff_false in Hr0. apply Hr0. by apply Hk. }
    split; intros Ht.
    + intros [_ Hsel]%selected_sub. apply (scoped_holds leaf before) in Hsel as [_ Hs]. unfold in_scope in Hs.
      rewrite Hb, Hf, Ht in Hs. congruence.
    + unfold in_scope. rewrite Hb, Hf, Ht. congruence.
  - intros i r Hr. rewrite R2, R1. unfold at_key. rewrite map_map, list_lookup_fmap, Hr. cbn [fmap option_fmap option_map]. eexists. split; [done |].
    destruct (holds leaf (wheres (by_key table pk (field pk m))) r) eqn:Hr0.
    + assert (Hkey : key r) by by apply Hk. assert (Hkey' : get ({[Column f := now]} ∪ r) (Column pk) = field pk m).
      { rewrite get_union_singleton, decide_False by done. exact Hkey. }
      apply Hk in Hkey' as ->; [| done]. split; [done |]. intros _. split; [by rewrite get_union_singleton, decide_True |].
      intros c Hc. by rewrite !get_union_singleton, !decide_False by done.
    + rewrite Hr0. split; [done |]. intros Hkey. apply Hk in Hkey; [| done]. congruence.
  - intros r. rewrite R3, list_elem_of_In, filter_In, <- list_elem_of_In. split; intros [Hin Hn]; (split; [done |]).
    + intros Hkey. apply Hk in Hkey; [| done]. apply negb_true_iff in Hn. congruence.
    + destruct (holds leaf (wheres (by_key table pk (field pk m))) r) eqn:Hr; [| done]. by apply Hk in Hr.
Qed.

(** ** What is stored is read back *)

Section ReadBack.
Context {E : Type} (casts_Get : string -> option (cast E)) (assign : gotype -> any -> option any) (s : Schema).
Context (Hcols : NoDup (map Column (Fields s))) (Hidx : NoDup (map f_Index (Fields s))).
Context (Hcast : forall f, f ∈ Fields s -> Cast f = "").

Lemma inj_in {A B} (h : A -> B) l x y : NoDup (map h l) -> x ∈ l -> y ∈ l -> h x = h y -> x = y.
Proof.
  induction l as [|z l IH]; [by intros _ H%not_elem_of_nil |]. simpl. rewrite list.NoDup_cons. intros [Hz Hl] Hx Hy Heq.
  apply elem_of_cons in Hx as [->|Hx], Hy as [->|Hy].
  - done.
  - exfalso. apply Hz. rewrite Heq. by apply (list_elem_of_fmap_2 h).
  - exfalso. apply Hz. rewrite <- Heq. by apply (list_elem_of_fmap_2 h).
  - by apply IH.
Qed.

Lemma FieldByColumn_in c f : FieldByColumn c s = Some f -> f ∈ Fields s /\ Column f = c.
Proof.
  unfold FieldByColumn, last_such. intros [Hin Hc]%find_some. apply in_rev, list_elem_of_In in Hin. by apply String.eqb_eq in Hc.
Qed.

Lemma FieldByColumn_spec f : f ∈ Fields s -> FieldByColumn (Column f) s = Some f.
Proof.
  intros Hin. destruct (FieldByColumn (Column f) s) as [g|] eqn:E'.
  - apply FieldByColumn_in in E' as [Hg Hc]. f_equal. by apply (inj_in Column (Fields s)).
  - unfold FieldByColumn, last_such in E'. eapply find_none in E'; [| apply in_rev; rewrite rev_involutive; by apply list_elem_of_In].
    by rewrite String.eqb_refl in E'.
Qed.

Lemma collect_spec keep fs m out :
  fs ⊆ Fields s -> NoDup (map Column fs) ->
  exists vs, collect_values casts_Get keep fs m out = Ok vs /\
    (forall f, f ∈ fs -> persisted f = true -> keep f = true -> vs !! Column f = Some (field f m)) /\
    (forall c, (forall f, f ∈ fs -> persisted f = true -> keep f = true -> Column f <> c) -> vs !! c = out !! c).
Proof.
  revert out. induction fs as [|f fs IH]; intros out Hsub Hnd.
  { exists out. split_and!; [done | by intros f H%not_elem_of_nil | done]. }
  simpl in Hnd. apply list.NoDup_cons in Hnd as [Hf Hnd]. cbn [collect_values]. assert (Hsub' : fs ⊆ Fields s) by set_solver.
  destruct (persisted f && keep f) eqn:Hk.
  - apply andb_prop in Hk as [Hp Hk]. rewrite Hp, Hk. simpl. unfold castToDB. rewrite (Hcast f), String.eqb_refl by set_solver.
    destruct (IH (<[Column f := field f m]> out) Hsub' Hnd) as (vs & -> & H1 & H2). exists vs. split_and!; [done | |].
    + intros g [->|Hg]%elem_of_cons Hgp Hgk; [| by apply H1]. rewrite H2; [by rewrite lookup_insert, decide_True by done |].
      intros h Hh _ _ Heq. apply Hf. rewrite <- Heq. by apply (list_elem_of_fmap_2 Column).
    + intros c Hc. rewrite H2 by (intros g Hg; apply Hc; by right). rewrite lookup_insert_ne; [done |]. apply Hc; [by left | done | done].
  - assert (Hskip : negb (persisted f) || negb (keep f) = true) by by destruct (persisted f), (keep f). rewrite Hskip.
    destruct (IH out Hsub' Hnd) as (vs & -> & H1 & H2). exists vs. split_and!; [done | |].
    + intros g [->|Hg]%elem_of_cons Hgp Hgk; [by rewrite Hgp, Hgk in Hk | by apply H1].
    + intros c Hc. apply H2. intros g Hg. apply Hc. by right.
Qed.

Lemma hydrate_spec (w : Field -> any) cs m :
  NoDup (map fst cs) ->
  (forall c raw f, (c, raw) ∈ cs -> f ∈ Fields s -> Column f = c -> assign (Type_ f) raw = Some (w f)) ->
  exists m', hydrate_columns casts_Get assign s m cs = Ok m' /\
    forall f, f ∈ Fields s -> (Column f ∈ map fst cs -> field f m' = w f) /\ (Column f ∉ map fst cs -> field f m' = field f m).
Proof.
  revert m. induction cs as [|[c raw] cs IH]; intros m Hnd Hw.
  { exists m. split; [done |]. intros f Hf. split; [by intros H%not_elem_of_nil | done]. }
  simpl in Hnd. apply list.NoDup_cons in Hnd as [Hc Hnd]. cbn [hydrate_columns]. unfold hydrate_column.
  destruct (FieldByColumn c s) as [g|] eqn:Hg.
  - apply FieldByColumn_in in Hg as [Hg Hgc]. rewrite (Hcast g Hg), (Hw c raw g) by (try (by left); done). simpl negb.
    destruct (IH (set_field g (w g) m) Hnd) as (m' & -> & H). { intros c' raw' f Hin. apply Hw. by right. }
    exists m'. split; [done |]. intros f Hf. destruct (H f Hf) as [H1 H2]. simpl. rewrite elem_of_cons.
    destruct (decide (Column f ∈ map fst cs)) as [Hin|Hout]; [split; [intros _; by apply H1 | naive_solver] |]. split.
    + intros [Heq|]; [| done]. assert (f = g) as -> by (apply (inj_in Column (Fields s)); congruence). by rewrite H2, field_set_eq.
    + intros Hno. rewrite H2 by done. apply field_set_ne. intros Heq. apply Hno. left.
      assert (g = f) as <- by by apply (inj_in f_Index (Fields s)). done.
  - destruct (IH m Hnd) as (m' & -> & H). { intros c' raw' f Hin. apply Hw. by right. }
    exists m'. split; [done |]. intros f Hf. destruct (H f Hf) as [H1 H2]. simpl. rewrite elem_of_cons.
    assert (Hne : Column f <> c). { intros <-. by rewrite FieldByColumn_spec in Hg. }
    split; [intros [?|?]; [done | by apply H1] | intros Hno; apply H2; naive_solver].
Qed.

(** A row that holds a model's columns reads back as the model. *)
Lemma row_reads_back (r : dbrow) m :
  (forall f, f ∈ Fields s -> persisted f = true -> r !! Column f = Some (field f m)) ->
  (forall f, f ∈ Fields s -> persisted f = false -> r !! Column f = None) ->
  (forall f, f ∈ Fields s -> persisted f = true -> assign (Type_ f) (field f m) = Some (field f m)) ->
  exists m', hydrate casts_Get assign s r = Ok m' /\ forall f, f ∈ Fields s -> persisted f = true -> field f m' = field f m.
Proof.
  intros Hr Hno Ha. destruct (hydrate_spec (fun f => field f m) (map_to_list r) ∅) as (m' & Hm & H).
  - apply NoDup_fst_map_to_list.
  - intros c raw f Hin Hf <-. apply elem_of_map_to_list in Hin. destruct (persisted f) eqn:Hp; [| by rewrite Hno in Hin].
    rewrite Hr in Hin by done. injection Hin as <-. by apply Ha.
  - exists m'. split; [done |]. intros f Hf Hp. apply H; [done |]. apply list_elem_of_fmap. exists (Column f, field f m).
    split; [done |]. apply elem_of_map_to_list. by apply Hr.
Qed.
End ReadBack.

(** What the round trip asks of a schema: columns and paths are not shared, no
    field is cast, only the key auto-increments and its type holds the numbers
    the database chooses. *)
Record plain_schema (s : Schema) (next_id : list dbrow -> Z) : Prop := {
  ps_columns : NoDup (map Column (Fields s));
  ps_paths : NoDup (map f_Index (Fields s));
  ps_casts f : f ∈ Fields s -> Cast f = "";
  ps_auto f : f ∈ Fields s -> IsAutoIncrement f = true -> PrimaryKey s = Some f /\ Reflect.isIntegerKind (Type_ f) = true;
  ps_key pk : PrimaryKey s = Some pk -> persisted pk = true;
  ps_id pk n : PrimaryKey s = Some pk -> Reflect.isIntegerKind (Type_ pk) = true -> n = 0 \/ (exists t, n = next_id t) ->
    convert_id (Type_ pk) n = Int n }.

Definition stamped (s : Schema) (now : any) (m : model) : model := stamp_zero (UpdatedAt s) now (stamp_zero (CreatedAt s) now m).

(** A row that holds exactly the persisted columns of a model. *)
Definition row_of (s : Schema) (r : dbrow) (m : model) : Prop :=
  (forall f, f ∈ Fields s -> persisted f = true -> r !! Column f = Some (field f m)) /\
  (forall f, f ∈ Fields s -> persisted f = false -> r !! Column f = None).

Section SaveRun.
Context {E : Type} (leaf : dbrow -> condition -> bool) (before : list orderClause -> dbrow -> dbrow -> bool).
Context `{!Database leaf before}.
Context (fault : list event -> option E) (hook : string -> model -> result E model) (casts_Get : string -> option (cast E)).
Context (next_id : list dbrow -> Z).
Context (quiet_fault : forall l, fault l = None) (quiet_hook : forall n m, hook n m = Ok m).
Context (s : Schema) (Hs : plain_schema s next_id).

Lemma PrimaryKey_in pk : PrimaryKey s = Some pk -> pk ∈ Fields s.
Proof. unfold PrimaryKey. intros [H _]%find_some. by apply list_elem_of_In. Qed.

Lemma column_ne f g : f ∈ Fields s -> g ∈ Fields s -> f <> g -> Column f <> Column g.
Proof. intros Hf Hg Hne Heq. apply Hne. by apply (inj_in Column (Fields s)); [apply ps_columns in Hs | | |]. Qed.

Lemma path_ne f g : f ∈ Fields s -> g ∈ Fields s -> f <> g -> f_Index f <> f_Index g.
Proof. intros Hf Hg Hne Heq. apply Hne. by apply (inj_in f_Index (Fields s)); [apply ps_paths in Hs | | |]. Qed.

Lemma same_or_not f g : f ∈ Fields s -> g ∈ Fields s -> f = g \/ f <> g.
Proof.
  intros Hf Hg. destruct (decide (Column f = Column g)) as [Heq|Hne]; [left | right; congruence].
  by apply (inj_in Column (Fields s)); [apply ps_columns in Hs | | |].
Qed.

Lemma collectValues_spec m :
  exists vs, collectValues casts_Get s m = Ok vs /\
    (forall f, f ∈ Fields s -> persisted f = true -> IsAutoIncrement f && IsZero (field f m) = false -> vs !! Column f = Some (field f m)) /\
    (forall f, f ∈ Fields s -> persisted f = false \/ IsAutoIncrement f && IsZero (field f m) = true -> vs !! Column f = None).
Proof.
  pose proof (ps_columns _ _ Hs) as Hc.
  destruct (collect_spec casts_Get s Hc (ps_paths _ _ Hs) (ps_casts _ _ Hs) (fun f => negb (IsAutoIncrement f && IsZero (field f m))) (Fields s) m ∅)
    as (vs & Hvs & H1 & H2); [done | done |].
  exists vs. split_and!; [exact Hvs | |].
  - intros f Hf Hp Hz. apply H1; [done | done |]. by rewrite Hz.
  - intros f Hf Hno. rewrite H2; [by rewrite lookup_empty |]. intros g Hg Hp Hk Heq.
    assert (g = f) as -> by (apply (inj_in Column (Fields s)); done). apply negb_true_iff in Hk. destruct Hno; congruence.
Qed.

Lemma insert_run m vs d :
  collectValues casts_Get s m = Ok vs ->
  (forall pk, PrimaryKey s = Some pk -> IsZero (field pk m) = true -> Reflect.isIntegerKind (Type_ pk) = true -> field pk m = Int 0) ->
  exists m' r d', insert_model fault next_id s m vs d = (Ok m', d') /\ rows d' = rows d ++ [r] /\ row_of s r m'.
Proof.
  intros Hvs Hz. destruct (collectValues_spec m) as (vs' & Hvs' & H1 & H2). rewrite Hvs in Hvs'. injection Hvs' as <-.
  assert (Hplain : (forall f, f ∈ Fields s -> IsAutoIncrement f && IsZero (field f m) = false) ->
    exists m' r d', bind (run_insert fault vs) (fun _ => ret m) d = (Ok m', d') /\ rows d' = rows d ++ [r] /\ row_of s r m').
  { intros Hno. unfold run_insert. erewrite bind_ok by by apply exec_quiet. exists m, vs. eexists. split_and!; [done | done |].
    split; intros f Hf Hp; [apply H1; auto | apply H2; auto]. }
  unfold insert_model. destruct (PrimaryKey s) as [pk|] eqn:Hpk.
  2: { apply Hplain. intros f Hf. apply andb_false_iff. left. apply not_true_iff_false. intros Ha.
       by destruct (ps_auto _ _ Hs f Hf Ha) as [? _]; congruence. }
  pose proof (PrimaryKey_in pk Hpk) as Hpkin.
  destruct (IsZero (field pk m) && Reflect.isIntegerKind (Type_ pk)) eqn:Hzi.
  2: { apply Hplain. intros f Hf. apply not_true_iff_false. intros [Ha Hzf]%andb_prop.
       destruct (ps_auto _ _ Hs f Hf Ha) as [Hfp Hik]. assert (f = pk) as -> by congruence. by rewrite Hzf, Hik in Hzi. }
  apply andb_prop in Hzi as [Hz0 Hik]. specialize (Hz pk eq_refl Hz0 Hik).
  unfold run_insert_id. erewrite bind_ok by by apply exec_quiet. cbv beta. destruct (IsAutoIncrement pk) eqn:Ha.
  - assert (Hn : vs !! Column pk = None) by (apply H2; [done | right; by rewrite Ha, Hz0]). rewrite Hn. cbn [fst snd].
    rewrite (ps_id _ _ Hs pk _ Hpk Hik) by (right; by eexists). eexists _, _, _. split_and!; [done | done |].
    split; intros f Hf Hp.
    + destruct (same_or_not f pk Hf Hpkin) as [->|Hne]; [by rewrite lookup_insert, decide_True, field_set_eq by done |].
      rewrite lookup_insert_ne by (by apply not_eq_sym, column_ne). rewrite field_set_ne by (by apply not_eq_sym, path_ne).
      apply H1; [done | done |]. apply andb_false_iff. left. apply not_true_iff_false. intros Hfa.
      destruct (ps_auto _ _ Hs f Hf Hfa) as [? _]. congruence.
    + rewrite lookup_insert_ne; [apply H2; auto |]. apply column_ne; [done | done |]. intros ->.
      by rewrite (ps_key _ _ Hs f Hpk) in Hp.
  - assert (Hn : vs !! Column pk = Some (Int 0)) by (rewrite <- Hz; apply H1; [done | by apply (ps_key _ _ Hs) | by rewrite Ha]).
    rewrite Hn. cbn [fst snd]. rewrite (ps_id _ _ Hs pk _ Hpk Hik) by by left. eexists _, vs, _. split_and!; [done | done |].
    split; intros f Hf Hp; [| apply H2; auto].
    destruct (same_or_not f pk Hf Hpkin) as [->|Hne]; [by rewrite field_set_eq |].
    rewrite field_set_ne by (by apply not_eq_sym, path_ne). apply H1; [done | done |]. apply andb_false_iff. left.
    apply not_true_iff_false. intros Hfa. destruct (ps_auto _ _ Hs f Hf Hfa) as [? _]. congruence.
Qed.

Lemma save_create_run now m d :
  (forall pk, PrimaryKey s = Some pk -> IsZero (field pk (stamped s now m)) = true -> Reflect.isIntegerKind (Type_ pk) = true ->
     field pk (stamped s now m) = Int 0) ->
  exists m' r d', save_create fault hook casts_Get next_id s now m d = (Ok m', d') /\ rows d' = rows d ++ [r] /\ row_of s r m'.
Proof.
  intros Hz. unfold save_create. fold (stamped s now m). cbv zeta.
  do 2 (erewrite bind_ok by by apply hook_quiet). destruct (collectValues_spec (stamped s now m)) as (vs & Hvs & _).
  erewrite bind_ok by (unfold lift; by rewrite Hvs).
  match goal with |- context [bind (insert_model _ _ _ _ _) _ ?d0] => destruct (insert_run (stamped s now m) vs d0 Hvs Hz) as (m' & r & d' & Hi & Hr & Hrow) end.
  erewrite bind_ok by exact Hi. erewrite bind_ok by by apply hook_quiet. rewrite hook_quiet by done.
  eexists _, _, _. split_and!; [done | exact Hr | done].
Qed.

(** Whether [Save] inserts. *)
Definition creates (m : model) (t : list dbrow) : Prop :=
  match PrimaryKey s with
  | None => True
  | Some pk =>
      IsZero (field pk m) = true \/
      (IsAutoIncrement pk = false /\ is_scalar (field pk m) = true /\ forall r, r ∈ t -> get r (Column pk) <> field pk m)
  end.

Lemma count_none table pk v t : is_scalar v = true -> (forall r, r ∈ t -> get r (Column pk) <> v) -> count_rows leaf (by_key table pk v) t = 0.
Proof.
  intros Hv Hno. unfold count_rows. replace (List.filter _ t) with (@nil dbrow); [done |]. symmetry.
  induction t as [|r t IH]; [done |]. cbn [List.filter]. destruct (holds leaf (wheres (by_key table pk v)) r) eqn:Hr.
  - exfalso. apply (Hno r); [by left |]. by apply (key_holds leaf before) in Hr.
  - apply IH. intros r' Hr'. apply Hno. by right.
Qed.

Lemma is_create_run table m d : creates m (rows d) ->
  exists d', is_create leaf fault s table m d = (Ok true, d') /\ rows d' = rows d.
Proof.
  unfold creates, is_create. destruct (PrimaryKey s) as [pk|]; [| by eexists].
  intros [Hz|(Ha & Hv & Hno)]; [rewrite Hz; by eexists |]. destruct (IsZero (field pk m)); [by eexists |]. rewrite Ha. cbn [negb].
  unfold run_count. erewrite bind_ok by by apply exec_quiet. cbn [fst snd]. rewrite (count_none table pk _ _ Hv Hno). by eexists.
Qed.

Lemma is_update_run table pk m d :
  PrimaryKey s = Some pk -> IsZero (field pk m) = false -> is_scalar (field pk m) = true ->
  (IsAutoIncrement pk = true \/ exists r, r ∈ rows d /\ get r (Column pk) = field pk m) ->
  exists d', is_create leaf fault s table m d = (Ok false, d') /\ rows d' = rows d.
Proof.
  intros Hpk Hz Hv Hu. unfold is_create. rewrite Hpk, Hz. destruct (IsAutoIncrement pk); [by eexists |]. cbn [negb].
  destruct Hu as [|(r & Hin & Hr)]; [done |]. unfold run_count. erewrite bind_ok by by apply exec_quiet. cbn [fst snd].
  assert (Hc : 0 <? count_rows leaf (by_key table pk (field pk m)) (rows d) = true).
  { apply Z.ltb_lt. unfold count_rows. assert (Hf : r ∈ List.filter (holds leaf (wheres (by_key table pk (field pk m)))) (rows d)).
    { apply list_elem_of_In, filter_In. rewrite <- list_elem_of_In. split; [done |]. by apply (key_holds leaf before). }
    destruct (List.filter _ _); [by apply not_elem_of_nil in Hf | simpl; lia]. }
  rewrite Hc. by eexists.
Qed.

Lemma save_update_run pk table now m d :
  PrimaryKey s = Some pk -> (exists f, f ∈ Fields s /\ persisted f = true /\ IsPrimary f = false /\ IsCreatedAt f = false) ->
  exists vs d', save_update leaf fault hook casts_Get s pk table now m d = (Ok (stamp (UpdatedAt s) now m), d') /\
    rows d' = at_key leaf table pk (field pk (stamp (UpdatedAt s) now m)) (union vs) (rows d) /\
    (forall f, f ∈ Fields s -> persisted f = true -> IsPrimary f = false -> IsCreatedAt f = false ->
       vs !! Column f = Some (field f (stamp (UpdatedAt s) now m))) /\
    (forall f, f ∈ Fields s -> persisted f = false \/ IsPrimary f = true \/ IsCreatedAt f = true -> vs !! Column f = None).
Proof.
  intros Hpk (f0 & Hf0 & Hp0 & Hpr0 & Hc0). set (m1 := stamp (UpdatedAt s) now m). unfold save_update. fold m1. cbv zeta.
  pose proof (ps_columns _ _ Hs) as Hc.
  destruct (collect_spec casts_Get s Hc (ps_paths _ _ Hs) (ps_casts _ _ Hs) (fun f => negb (IsPrimary f || IsCreatedAt f)) (Fields s) m1 ∅)
    as (vs & Hvs & H1 & H2); [done | done |].
  assert (Hne : vs <> ∅).
  { intros ->. specialize (H1 f0 Hf0 Hp0). rewrite Hpr0, Hc0 in H1. by rewrite lookup_empty in H1; specialize (H1 eq_refl). }
  do 2 (erewrite bind_ok by by apply hook_quiet). erewrite bind_ok by (unfold lift, collectUpdateValues; by rewrite Hvs).
  erewrite bind_ok by by apply update_at_key. erewrite bind_ok by by apply hook_quiet. rewrite hook_quiet by done.
  exists vs. eexists. split_and!; [done | done | |].
  - intros f Hf Hp Hpr Hcr. apply H1; [done | done |]. by rewrite Hpr, Hcr.
  - intros f Hf Hno. rewrite H2; [by rewrite lookup_empty |]. intros g Hg Hp Hk Heq.
    assert (g = f) as -> by (apply (inj_in Column (Fields s)); done).
    apply negb_true_iff, orb_false_elim in Hk. destruct Hk. destruct Hno as [?|[?|?]]; congruence.
Qed.
End SaveRun.

(** Saving: a model without a key (or with a key of its own that no row has)
    becomes one new row, with the key the database chose when it had none, and
    every persisted field of that row reads back as the model's; a model with a
    key changes the rows of the key only, in which it sets every persisted column
    but the key and the creation time. *)
Theorem Save_exact {E} leaf before `{!Database leaf before} (fault : list event -> option E) hook casts_Get assign next_id s table now m d :
  (forall l, fault l = None) -> (forall n m, hook n m = Ok m) -> plain_schema s next_id ->
  (forall pk, PrimaryKey s = Some pk -> IsZero (field pk (stamped s now m)) = true -> Reflect.isIntegerKind (Type_ pk) = true ->
     field pk (stamped s now m) = Int 0) ->
  (creates s m (rows d) ->
   exists m' r d', Save leaf fault hook casts_Get next_id s table now m d = (Ok m', d') /\ rows d' = rows d ++ [r] /\
     ((forall f, f ∈ Fields s -> persisted f = true -> assign (Type_ f) (field f m') = Some (field f m')) ->
      exists m'', hydrate casts_Get assign s r = Ok m'' /\ forall f, f ∈ Fields s -> persisted f = true -> field f m'' = field f m')) /\
  (forall pk, PrimaryKey s = Some pk -> IsZero (field pk m) = false -> is_scalar (field pk m) = true ->
   field pk (stamp (UpdatedAt s) now m) = field pk m ->
   (IsAutoIncrement pk = true \/ exists r, r ∈ rows d /\ get r (Column pk) = field pk m) ->
   (exists f, f ∈ Fields s /\ persisted f = true /\ IsPrimary f = false /\ IsCreatedAt f = false) ->
   exists d', Save leaf fault hook casts_Get next_id s table now m d = (Ok (stamp (UpdatedAt s) now m), d') /\
     forall i r, rows d !! i = Some r -> exists r', rows d' !! i = Some r' /\
       (get r (Column pk) <> field pk m -> r' = r) /\
       (get r (Column pk) = field pk m -> forall f, f ∈ Fields s -> persisted f = true ->
          get r' (Column f) = if IsPrimary f || IsCreatedAt f then get r (Column f) else field f (stamp (UpdatedAt s) now m))).
Proof.
  intros Hq Hh Hs Hz. split.
  - intros Hc. destruct (is_create_run leaf before fault Hq s table m d Hc) as (d1 & H1 & R1).
    destruct (save_create_run fault hook casts_Get next_id Hq Hh s Hs now m d1 Hz) as (m' & r & d' & H2 & R2 & Hrow).
    exists m', r, d'. split_and!; [| by rewrite R2, R1 |].
    + unfold Save. erewrite bind_ok by exact H1. destruct (PrimaryKey s); exact H2.
    + intros Ha. destruct Hrow as [Hr1 Hr2].
      by apply (row_reads_back casts_Get assign s (ps_columns _ _ Hs) (ps_paths _ _ Hs) (ps_casts _ _ Hs) r m').
  - intros pk Hpk Hz' Hv Hst Hu Hsome. destruct (is_update_run leaf before fault Hq s table pk m d Hpk Hz' Hv Hu) as (d1 & H1 & R1).
    destruct (save_update_run leaf fault hook casts_Get next_id Hq Hh s Hs pk table now m d1 Hpk Hsome) as (vs & d' & H2 & R2 & V1 & V2).
    exists d'. split; [unfold Save; erewrite bind_ok by exact H1; rewrite Hpk; exact H2 |].
    rewrite Hst, R1 in R2. intros i r Hr. rewrite R2. unfold at_key. rewrite list_lookup_fmap, Hr. cbn [fmap option_fmap option_map].
    eexists. split; [done |]. pose proof (key_holds leaf before table pk (field pk m) r Hv) as Hk.
    destruct (holds leaf (wheres (by_key table pk (field pk m))) r) eqn:Hr0.
    + split; [intros Hno; exfalso; by apply Hno, Hk |]. intros _ f Hf Hp. unfold get. rewrite lookup_union.
      destruct (IsPrimary f || IsCreatedAt f) eqn:Hpc.
      * rewrite (V2 f Hf); [by destruct (r !! Column f) |]. right. by apply orb_prop in Hpc.
      * apply orb_false_elim in Hpc as [H3 H4]. rewrite (V1 f Hf Hp H3 H4). by destruct (r !! Column f).
    + split; [done |]. intros Hkey. apply Hk in Hkey. congruence.
Qed.

(** ** The order of hooks and statements *)

Definition event_name (ev : event) : string :=
  match ev with
  | EHook n => n
  | ESelect _ => "SELECT" | ECount _ => "COUNT" | EInsert _ | EInsertGetID _ => "INSERT" | EUpdate _ _ => "UPDATE" | EDelete _ => "DELETE"
  end.

Definition writes (names : list string) : bool := existsb (fun n => existsb (String.eqb n) ["INSERT"; "UPDATE"; "DELETE"]) names.

(** An operation runs the named hooks and statements in this order and stops at
    the first that fails; the table is as it was until the statement that writes. *)
Definition runs {E A} (m : M (E := E) A) (names : list string) : Prop :=
  forall d, exists n,
    map event_name (log (m d).2) = map event_name (log d) ++ take n names /\
    ((exists a, (m d).1 = Ok a) -> take n names = names) /\
    (writes (take n names) = false -> rows (m d).2 = rows d).

Lemma writes_app a b : writes (a ++ b) = writes a || writes b.
Proof. apply existsb_app. Qed.

Lemma ordered_bind {E A B} (m : M (E := E) A) (k : A -> M B) l l' : runs m l -> (forall a, runs (k a) l') -> runs (bind m k) (l ++ l').
Proof.
  intros Hm Hk d. destruct (Hm d) as (n & H1 & H2 & H3). unfold bind. destruct (m d) as [[a|e] d1]; cbn [fst snd] in *.
  - assert (Hl : take n l = l) by (apply H2; by eexists). rewrite Hl in *. destruct (Hk a d1) as (n' & G1 & G2 & G3).
    exists (length l + n')%nat. rewrite take_app_add, G1, H1, <- app_assoc. split_and!; [done | intros Ha; by rewrite G2 |].
    rewrite writes_app. intros [W1 W2]%orb_false_elim. by rewrite G3, H3.
  - assert (Ht : exists n', take n' (l ++ l') = take n l).
    { exists (n `min` length l)%nat. rewrite take_app_le by lia. by rewrite <- take_take, (take_ge l (length l)) by lia. }
    destruct Ht as [n' Ht]. exists n'. rewrite Ht. split_and!; [done | by intros [a Ha] | done].
Qed.

Lemma ordered_ret {E A} (a : A) : runs (E := E) (ret a) [].
Proof. intros d. exists 0%nat. split_and!; [by rewrite app_nil_r | done | done]. Qed.

Lemma runs_lift {E A} (r : result _ A) : runs (E := E) (lift r) [].
Proof. intros d. exists 0%nat. split_and!; [by rewrite app_nil_r | done | done]. Qed.

Lemma runs_fail {E A} e : runs (E := E) (A := A) (fail e) [].
Proof. intros d. exists 0%nat. split_and!; [by rewrite app_nil_r | done | done]. Qed.

Lemma runs_hook {E} hook n m : writes [n] = false -> runs (E := E) (dispatchHook hook n m) [n].
Proof. intros Hn d. exists 1%nat. unfold dispatchHook. simpl. split_and!; [by rewrite map_app | done | done]. Qed.

Lemma runs_exec {E A} fault ev (k : list dbrow -> A * list dbrow) :
  writes [event_name ev] = true \/ (forall t, (k t).2 = t) -> runs (E := E) (exec fault ev k) [event_name ev].
Proof.
  intros Hk d. exists 1%nat. unfold exec. destruct (fault _) as [e|].
  - cbn [fst snd rows log]. split_and!; [by rewrite map_app | by intros [a Ha] | done].
  - destruct (k (rows d)) as [a t] eqn:Ek. cbn [fst snd rows log]. split_and!; [by rewrite map_app | done |].
    intros Hw. destruct Hk as [Hk|Hk]; [change (take 1 [event_name ev]) with [event_name ev] in Hw; congruence |].
    specialize (Hk (rows d)). by rewrite Ek in Hk.
Qed.

Section Order.
Context {E : Type} (leaf : dbrow -> condition -> bool) (fault : list event -> option E) (hook : string -> model -> result E model).
Context (casts_Get : string -> option (cast E)) (next_id : list dbrow -> Z).

Lemma runs_insert s m vs : runs (insert_model fault next_id s m vs) ["INSERT"].
Proof.
  assert (Hplain : runs (bind (run_insert fault vs) (fun _ => ret m)) ["INSERT"]).
  { apply (ordered_bind _ _ ["INSERT"] []); [apply (runs_exec fault (EInsert vs)); by left | intros; apply ordered_ret]. }
  unfold insert_model. destruct (PrimaryKey s) as [pk|]; [| done]. destruct (_ && _); [| done].
  apply (ordered_bind _ _ ["INSERT"] []); [apply (runs_exec fault (EInsertGetID vs)); by left | intros; apply ordered_ret].
Qed.

Lemma runs_update q vs : runs (run_update leaf fault q vs) ["UPDATE"].
Proof.
  unfold run_update. case_bool_decide; [| apply (runs_exec fault (EUpdate q vs)); by left].
  intros d. exists 0%nat. split_and!; [by rewrite app_nil_r | by intros [a Ha] | done].
Qed.

Lemma runs_hook_bind {B : Type} (n : string) (m : model) (k : model -> M (E := E) B) (l : list string) :
  writes [n] = false -> (forall m : model, runs (k m) l) -> runs (bind (dispatchHook hook n m) k) (n :: l).
Proof. intros Hn Hk. apply (ordered_bind _ _ [n] l); [by apply runs_hook | done]. Qed.

Lemma runs_delete q : runs (run_delete leaf fault q) ["DELETE"].
Proof. apply (runs_exec fault (EDelete q)). by left. Qed.
End Order.


(** ** Pages and chunks *)

Section Walk.
Context {E : Type} (leaf : dbrow -> condition -> bool) (before : list orderClause -> dbrow -> dbrow -> bool).
Context (fault : list event -> option E) (hook : string -> model -> result E model) (casts_Get : string -> option (cast E)).
Context (assign : gotype -> any -> option any) (hm : dbrow -> model).
Context (quiet_fault : forall l, fault l = None) (quiet_hook : forall n m, hook n m = Ok m).

Lemma hydrate_all s rs d : (forall r, r ∈ rs -> hydrate casts_Get assign s r = Ok (hm r)) ->
  exists d', hydrateRows hook casts_Get assign s rs d = (Ok (map hm rs), d') /\ rows d' = rows d.
Proof.
  revert d. induction rs as [|r rs IH]; intros d Hr; [by exists d |]. cbn [hydrateRows].
  erewrite bind_ok by (unfold lift; rewrite Hr by (by left); reflexivity).
  erewrite bind_ok by by apply hook_quiet.
  destruct (IH (mkDb (rows d) (log d ++ [EHook "AfterFind"]))) as (d' & H1 & H2); [intros; apply Hr; by right |].
  erewrite bind_ok by exact H1. by exists d'.
Qed.

Lemma fetch_run s q d : (forall r, r ∈ rows d -> hydrate casts_Get assign s r = Ok (hm r)) ->
  exists d', fetch leaf before fault hook casts_Get assign s q d = (Ok (map hm (select_rows leaf before q (rows d))), d') /\ rows d' = rows d.
Proof.
  intros Hr. unfold fetch, run_select. erewrite bind_ok by by apply exec_quiet. cbn [fst snd].
  destruct (hydrate_all s (select_rows leaf before q (rows d)) (mkDb (rows d) (log d ++ [ESelect q]))) as (d' & H1 & H2).
  - intros r [Hin _]%selected_sub. by apply Hr.
  - by exists d'.
Qed.

Context `{!Database leaf before}.
Context (b : OBuilder) (pk : Field) (t : list dbrow).

(** The number a row has in the key's column. *)
Definition key_of (r : dbrow) : Z := rank (get r (Column pk)).
Definition matching : list dbrow := List.filter (holds leaf (wheres (scopedQB b))) t.
Definition by_pk : list dbrow := SliceStable (before [mkOrder (Column pk) "ASC" false]) matching.

Context (numeric : forall r, r ∈ t -> get r (Column pk) = Int (key_of r)).
Context (distinct : NoDup (map key_of matching)).

Lemma matching_in r : r ∈ matching -> r ∈ t.
Proof. intros H. apply list_elem_of_In, filter_In in H as [H _]. by apply list_elem_of_In. Qed.

Lemma by_pk_sorted : StronglySorted (fun r r' => key_of r < key_of r') by_pk.
Proof.
  assert (Hs : StronglySorted (may_precede (before [mkOrder (Column pk) "ASC" false])) by_pk).
  { unfold by_pk. apply SliceStable_sorted. exact (db_order (leaf := leaf) (before := before) _). }
  assert (Hin : forall r, r ∈ by_pk -> r ∈ t).
  { intros r Hr. unfold by_pk in Hr. rewrite SliceStable_perm in Hr. by apply matching_in. }
  assert (Hnd : NoDup (map key_of by_pk)) by (unfold by_pk; by rewrite SliceStable_perm).
  clear -Hs Hin Hnd numeric Database0. induction Hs as [|r l Hl IH Hr]; [constructor |].
  simpl in Hnd. apply list.NoDup_cons in Hnd as [Hnr Hnd]. constructor.
  { apply IH; [intros; apply Hin; by right | done]. }
  apply list.Forall_forall. intros r' Hr'. rewrite list.Forall_forall in Hr. specialize (Hr r' Hr'). unfold may_precede in Hr.
  rewrite (db_asc (leaf := leaf) (before := before) (Column pk) r' r (key_of r') (key_of r)) in Hr
    by (apply numeric, Hin; (by right) || by left).
  apply Z.ltb_ge in Hr. assert (key_of r <> key_of r'); [| lia].
  intros Heq. apply Hnr. rewrite Heq. by apply (list_elem_of_fmap_2 key_of).
Qed.

(** What a cursor lets through. *)
Definition past (last : option Z) (r : dbrow) : bool := match last with None => true | Some n => n <? key_of r end.

Lemma chunk_wheres size last r : r ∈ t ->
  holds leaf (wheres (chunk_qb b pk size (Int <$> last))) r = holds leaf (wheres (scopedQB b)) r && past last r.
Proof.
  intros Hr. destruct last as [n|]; [| by rewrite andb_true_r]. unfold chunk_qb. cbn [fmap option_fmap option_map isNil past].
  unfold where_gt, add_where, set_wheres, nullAware, SqlRows.cmp. cbn [isNil wheres].
  rewrite holds_and_app; [| apply scoped_all_and | done]. f_equal. cbn [holds holds_loop holds_cond].
  apply eq_true_iff_eq. pose proof (db_gt (leaf := leaf) (before := before) bAnd r (Column pk) n) as Hg. unfold SqlRows.cmp in Hg.
  rewrite Hg, Z.ltb_lt, (numeric r Hr). split; [by intros (m & [= ->] & H) | by eexists].
Qed.

Lemma chunk_window size last : 0 < size -> orders (qb b) = [] -> offset (qb b) = 0 ->
  select_rows leaf before (chunk_qb b pk size (Int <$> last)) t = take (Z.to_nat size) (List.filter (past last) by_pk).
Proof.
  intros Hsize Ho Hoff. destruct (scoped_same b) as (H1 & _ & H3). unfold select_rows.
  assert (Hq : orders (chunk_qb b pk size (Int <$> last)) = [mkOrder (Column pk) "ASC" false] /\
               limit (chunk_qb b pk size (Int <$> last)) = size /\ offset (chunk_qb b pk size (Int <$> last)) = 0).
  { assert (Hor : orders (order_asc (Column pk) (scopedQB b)) = [mkOrder (Column pk) "ASC" false]) by (unfold order_asc; simpl; by rewrite H1, Ho).
    unfold chunk_qb. destruct last; cbn [fmap option_fmap option_map isNil]; split_and!; first [exact Hor | done | (simpl; by rewrite H3, Hoff)]. }
  destruct Hq as (-> & -> & ->). unfold bounds. rewrite (proj2 (Z.ltb_lt 0 size) Hsize), Z.ltb_irrefl. f_equal. unfold by_pk.
  pose proof (db_order (leaf := leaf) (before := before) [mkOrder (Column pk) "ASC" false]) as Hw.
  rewrite <- SliceStable_filter by exact Hw. f_equal. unfold matching.
  assert (Ht : forall l, (forall r, r ∈ l -> r ∈ t) ->
    List.filter (holds leaf (wheres (chunk_qb b pk size (Int <$> last)))) l
    = List.filter (past last) (List.filter (holds leaf (wheres (scopedQB b))) l)).
  { induction l as [|r l IH]; intros Hl; [done |]. cbn [List.filter]. rewrite chunk_wheres, IH by (try (apply Hl; by left); intros; apply Hl; by right).
    destruct (holds leaf (wheres (scopedQB b)) r); [done |]. done. }
  by apply Ht.
Qed.

(** The cursor after a prefix lets the rest through. *)
Lemma past_rest pre rest : by_pk = pre ++ rest -> List.filter (past (key_of <$> list.last pre)) by_pk = rest.
Proof.
  intros Hby. pose proof by_pk_sorted as Hs. rewrite Hby in *. clear Hby. destruct (list.last pre) as [x|] eqn:Hl.
  - apply last_Some in Hl as [pre' ->]. rewrite <- app_assoc in *. cbn [app] in *.
    change (past (key_of <$> Some x)) with (fun r => key_of x <? key_of r).
    rewrite filter_app. cbn [List.filter]. rewrite Z.ltb_irrefl.
    assert (H1 : List.filter (fun r => key_of x <? key_of r) pre' = []).
    { induction pre' as [|y pre' IH]; [done |]. apply StronglySorted_inv in Hs as [Hs Hy]. cbn [List.filter].
      rewrite List.Forall_forall in Hy. specialize (Hy x ltac:(apply in_or_app; right; by left)). rewrite (proj2 (Z.ltb_ge _ _)) by lia. by apply IH. }
    rewrite H1. cbn [app]. clear H1.
    assert (Hx : StronglySorted (fun r r' => key_of r < key_of r') (x :: rest)).
    { induction pre' as [|y pre' IH]; [done |]. by apply IH; apply StronglySorted_inv in Hs as [Hs _]. }
    apply StronglySorted_inv in Hx as [_ Hx]. rewrite List.Forall_forall in Hx.
    apply forallb_filter_id. apply forallb_forall. intros r Hr. apply Z.ltb_lt. by apply Hx.
  - apply last_None in Hl as ->. cbn [app]. apply forallb_filter_id. by apply forallb_forall.
Qed.

Context (reads : forall r, r ∈ t -> hydrate casts_Get assign (o_schema b) r = Ok (hm r) /\ field pk (hm r) = get r (Column pk)).
Context (fn : list model -> result E unit) (accepts : forall batch, fn batch = Ok tt).

Lemma last_map {A B} (f : A -> B) l : list.last (map f l) = f <$> list.last l.
Proof. apply (fmap_last f). Qed.

Lemma chunk_loop_run fuel size pre rest d :
  0 < size -> orders (qb b) = [] -> offset (qb b) = 0 -> rows d = t -> by_pk = pre ++ rest -> (length rest < fuel)%nat ->
  exists bs d', chunk_loop leaf before fault hook casts_Get assign fuel b pk size fn (Int <$> (key_of <$> list.last pre)) d = (Ok (Some bs), d') /\
    rows d' = t /\ concat bs = map hm rest /\ List.Forall (fun batch => batch <> [] /\ Z.of_nat (length batch) <= size) bs.
Proof.
  revert pre rest d. induction fuel as [|fuel IH]; intros pre rest d Hsize Ho Hoff Hd Hby Hfuel; [lia |]. cbn [chunk_loop].
  destruct (fetch_run (o_schema b) (chunk_qb b pk size (Int <$> (key_of <$> list.last pre))) d) as (d1 & H1 & R1).
  { intros r Hr. apply reads. by rewrite <- Hd. }
  rewrite Hd, chunk_window, past_rest with (rest := rest) in H1 by done. erewrite bind_ok by exact H1. rewrite last_map.
  destruct (list.last (take (Z.to_nat size) rest)) as [x|] eqn:Hx; cbn [fmap option_fmap option_map].
  2: { apply last_None in Hx. assert (rest = []) as -> by (destruct rest, (Z.to_nat size) eqn:?; done || lia).
       exists [], d1. split_and!; [done | congruence | done | constructor]. }
  rewrite accepts, length_map. assert (Hne : map hm (take (Z.to_nat size) rest) <> []) by by destruct (take (Z.to_nat size) rest).
  assert (Hlen : Z.of_nat (length (map hm (take (Z.to_nat size) rest))) <= size) by (rewrite length_map, length_take; lia).
  destruct (Z.of_nat (length (take (Z.to_nat size) rest)) <? size) eqn:Hshort.
  - apply Z.ltb_lt in Hshort. rewrite length_take in Hshort. rewrite take_ge in * by lia.
    exists [map hm rest], d1. split_and!; [done | congruence | simpl; by rewrite app_nil_r | by repeat constructor].
  - apply Z.ltb_ge in Hshort. rewrite length_take in Hshort.
    assert (Hxin : x ∈ t).
    { apply matching_in. unfold by_pk in Hby. rewrite <- (SliceStable_perm (before [mkOrder (Column pk) "ASC" false]) matching), Hby.
      apply last_Some in Hx as [l Hx]. apply elem_of_app. right. rewrite <- (take_drop (Z.to_nat size) rest), Hx. set_solver. }
    destruct (IH (pre ++ take (Z.to_nat size) rest) (drop (Z.to_nat size) rest) d1) as (bs & d2 & H2 & R2 & C2 & F2);
      [done | done | done | congruence | by rewrite <- app_assoc, take_drop | rewrite length_drop; lia |].
    rewrite last_app, Hx in H2. cbn [fmap option_fmap option_map] in H2. rewrite (proj2 (reads x Hxin)), (numeric x Hxin).
    erewrite bind_ok by exact H2. exists (map hm (take (Z.to_nat size) rest) :: bs), d2. split_and!; [done | done | | by constructor].
    simpl. by rewrite C2, <- map_app, take_drop.
Qed.
End Walk.


Lemma last_page_spec total perPage : 0 <= total -> 1 <= perPage -> total + perPage <= max_i64 ->
  1 <= last_page total perPage /\ (forall page, 1 <= page -> (page <? last_page total perPage) = true <-> page * perPage < total).
Proof.
  intros Ht Hp Hmax. unfold max_i64 in Hmax. unfold last_page. rewrite (i64_small (total + perPage)) by (unfold min_i64, max_i64; lia).
  rewrite i64_small by (unfold min_i64, max_i64; lia). cbv zeta.
  rewrite Z.quot_div_nonneg by lia. pose proof (Z.div_mod (total + perPage - 1) perPage ltac:(lia)).
  pose proof (Z.mod_pos_bound (total + perPage - 1) perPage ltac:(lia)).
  set (q := (total + perPage - 1) / perPage) in *. split; [destruct (Z.ltb_spec q 1); lia |].
  intros page Hpage. rewrite Z.ltb_lt. destruct (Z.ltb_spec q 1); nia.
Qed.

(** A page is the slice it says: page and size are at least 1, the data is the
    [page]-th run of [perPage] matching rows, the total is their number, and there
    is more exactly when a matching row follows the page; as long as the offset and
    the total are within 64 bits. *)
Theorem Paginate_exact {E} leaf before `{!Database leaf before} (fault : list event -> option E) hook casts_Get assign hm b page perPage d :
  let p := Z.max 1 page in let n := Z.max 1 perPage in
  (forall l, fault l = None) -> (forall k m, hook k m = Ok m) ->
  (forall r, r ∈ rows d -> hydrate casts_Get assign (o_schema b) r = Ok (hm r)) ->
  (p - 1) * n <= max_i64 -> Z.of_nat (length (rows d)) + n <= max_i64 ->
  let full := select_rows leaf before (set_bounds 0 0 (scopedQB b)) (rows d) in
  exists pg d', Paginate leaf before fault hook casts_Get assign page perPage b d = (Ok pg, d') /\ rows d' = rows d /\
    Data pg = map hm (take (Z.to_nat n) (drop (Z.to_nat ((p - 1) * n)) full)) /\
    Total pg = Z.of_nat (length full) /\ Page pg = p /\ PerPage pg = n /\ 1 <= LastPage pg /\
    (HasMore pg = true <-> p * n < Total pg).
Proof.
  intros p n Hq Hh Hre Hoff Hmax full. unfold Paginate.
  assert (Hp : (if page <? 1 then 1 else page) = p) by (unfold p; destruct (Z.ltb_spec page 1); lia).
  assert (Hn : (if perPage <? 1 then 1 else perPage) = n) by (unfold n; destruct (Z.ltb_spec perPage 1); lia). rewrite Hp, Hn. cbv zeta.
  unfold Count, run_count. erewrite bind_ok by by apply exec_quiet. cbn [fst snd].
  assert (Hoff' : i64 (i64 (p - 1) * n) = (p - 1) * n).
  { assert (p - 1 <= (p - 1) * n) by nia. rewrite (i64_small (p - 1)) by (unfold min_i64, max_i64 in *; lia).
    apply i64_small. unfold min_i64, max_i64 in *. nia. } rewrite Hoff'.
  match goal with |- context [bind (fetch _ _ _ _ _ _ _ ?q) _ ?d1] => destruct (fetch_run leaf before fault hook casts_Get assign hm Hq Hh (o_schema b) q d1 Hre)
    as (d2 & H2 & R2) end. erewrite bind_ok by exact H2. cbn [rows] in R2.
  assert (Hc : count_rows leaf (scopedQB b) (rows d) = Z.of_nat (length full)).
  { unfold count_rows, full, select_rows, bounds. cbn [set_bounds wheres orders limit offset Z.ltb Z.compare].
    destruct (orders (scopedQB b)) as [|o os]; [done |]. by rewrite (Permutation_length (SliceStable_perm (before (o :: os)) _)). }
  assert (Hle : count_rows leaf (scopedQB b) (rows d) <= Z.of_nat (length (rows d))) by (apply inj_le, filter_length_le).
  destruct (last_page_spec (Z.of_nat (length full)) n) as [L1 L2]; [lia | lia | lia |].
  eexists _, d2. split_and!; try done; cbn [Data Total Page PerPage LastPage HasMore].
  - f_equal. unfold full, select_rows, bounds. cbn [set_bounds Offset Limit wheres orders limit offset Z.ltb Z.compare].
    rewrite (proj2 (Z.ltb_lt 0 n)) by lia. destruct (Z.ltb_spec 0 ((p - 1) * n)); [done |].
    replace ((p - 1) * n) with 0 by nia. by rewrite drop_0.
  - by rewrite Hc.
  - rewrite Hc. apply L2. lia.
Qed.

(** ** A model of the repository's shape, and the theorems at it *)

Definition note_type : gotype :=
  TStruct "Note" false false false
    [SF "ID" true false (TInt true 64) "" "" ""; SF "Title" true false TString "" "" "";
     SF "CreatedAt" true false TTime "" "" ""; SF "UpdatedAt" true false TTime "" "" "";
     SF "DeletedAt" true false (TPtr TTime) "" "" ""].

Definition note : Schema := Eval vm_compute in Reflect.Parse [] note_type.

Definition note_row (id : Z) (title : string) (deleted : any) : dbrow :=
  {[ "id" := Int id; "title" := Str title; "deleted_at" := deleted ]}.
Definition note_model (id : Z) (title : string) : model := {[ [0%nat] := Int id; [1%nat] := Str title ]}.

Definition never_fails : list event -> option unit := fun _ => None.
Definition no_hook : string -> model -> result unit model := fun _ m => Ok m.
Definition no_casts : string -> option (cast unit) := fun _ => None.
Definition scan_any (t : gotype) (v : any) : option any := Reflect.AssignScanned (fun _ => "") (fun _ => None) (fun _ => 0%nat) (fun _ => 0) (fun _ => "") (fun _ _ => None) t v.

Definition or_builder : OBuilder :=
  with_qb (add_where (cmp bOr "title" OpEq [Str "b"]) (add_where (cmp bAnd "title" OpEq [Str "a"]) (Query.New "notes"))) (New_ note None).


Lemma note_plain : plain_schema note (fun _ => 7).
Proof.
  assert (Hk : forall pk, PrimaryKey note = Some pk -> Type_ pk = TInt true 64 /\ persisted pk = true) by (intros pk [= <-]; done).
  split.
  - refine (bool_decide_unpack _ _). vm_compute. exact I.
  - refine (bool_decide_unpack _ _). vm_compute. exact I.
  - intros f Hf. unfold note in Hf. cbn [Fields] in Hf. repeat (apply elem_of_cons in Hf as [->|Hf]; [done |]). by apply not_elem_of_nil in Hf.
  - intros f Hf. unfold note in Hf. cbn [Fields] in Hf. repeat (apply elem_of_cons in Hf as [->|Hf]; [done |]). by apply not_elem_of_nil in Hf.
  - intros pk Hpk. by apply Hk.
  - intros pk n Hpk _ Hn. rewrite (proj1 (Hk pk Hpk)). destruct Hn as [->|[_ ->]]; reflexivity.
Qed.

Lemma Save_exact_witness :
  exists d', Save simple_leaf never_fails no_hook no_casts (fun _ => 7) note "notes" (TimeV 9) (note_model 2 "new")
      (mkDb [note_row 1 "a" Nil; note_row 2 "b" Nil] []) = (Ok (stamp (UpdatedAt note) (TimeV 9) (note_model 2 "new")), d') /\
    exists r', rows d' !! 1%nat = Some r' /\ get r' "title" = Str "new".
Proof.
  set (pk := mkField "ID" "id" [0%nat] (TInt true 64) true true false false false false false "" false "" false false false).
  set (title := mkField "Title" "title" [1%nat] TString false false false false false false false "" false "" false false false).
  destruct (Save_exact simple_leaf simple_before never_fails no_hook no_casts scan_any (fun _ => 7) note "notes" (TimeV 9)
    (note_model 2 "new") (mkDb [note_row 1 "a" Nil; note_row 2 "b" Nil] [])) as [_ H].
  - done.
  - done.
  - exact note_plain.
  - intros p [= <-] Hz. done.
  - assert (Ht : title ∈ Fields note) by (right; left).
    destruct (H pk) as (d' & H1 & H2); [done | done | done | done | by left | by exists title |].
    exists d'. split; [exact H1 |]. destruct (H2 1%nat (note_row 2 "b" Nil) eq_refl) as (r' & Hr & _ & Hf).
    exists r'. split; [exact Hr |]. exact (Hf eq_refl title Ht eq_refl).
Defined.

Lemma soft_delete_life_witness :
  exists d1, Delete simple_leaf never_fails no_hook note "notes" (TimeV 9) (note_model 2 "b")
      (mkDb [note_row 1 "a" Nil; note_row 2 "b" Nil] []) =
    (Ok (set_field (mkField "DeletedAt" "deleted_at" [4%nat] (TPtr TTime) false false false false true false false "" false "" false false false)
       (TimeV 9) (note_model 2 "b")), d1) /\ length (rows d1) = 2%nat.
Proof.
  set (pk := mkField "ID" "id" [0%nat] (TInt true 64) true true false false false false false "" false "" false false false).
  set (del := mkField "DeletedAt" "deleted_at" [4%nat] (TPtr TTime) false false false false true false false "" false "" false false false).
  destruct (soft_delete_life simple_leaf simple_before never_fails no_hook note "notes" pk del (TimeV 9) (note_model 2 "b")
    (mkDb [note_row 1 "a" Nil; note_row 2 "b" Nil] []) (New_ note None) (fun _ => eq_refl) (fun _ _ => eq_refl) eq_refl eq_refl
    ltac:(discriminate) ltac:(discriminate) ltac:(discriminate) eq_refl eq_refl) as (d1 & d2 & d3 & H1 & _ & _ & H4 & _).
  exists d1. split; [exact H1 | exact H4].
Defined.

Definition note_hm (r : dbrow) : model := match hydrate no_casts scan_any note r with Ok m => m | Err _ => ∅ end.
Definition notes : list dbrow := [note_row 3 "a" Nil; note_row 1 "c" Nil; note_row 2 "b" (TimeV 4); note_row 4 "b" Nil].
Definition all_notes : OBuilder := New_ note None.
Definition run_chunk (size : Z) (b : OBuilder) : result orm_error (option (list (list model))) :=
  (Chunk simple_leaf simple_before never_fails no_hook no_casts scan_any 9 size (fun _ => Ok tt) b (mkDb notes [])).1.
Definition run_page (page perPage : Z) : result orm_error Paginator :=
  (Paginate simple_leaf simple_before never_fails no_hook no_casts scan_any page perPage all_notes (mkDb notes [])).1.
Definition ids (ms : list model) : list any := map (fun m => default Nil (m !! [0%nat])) ms.

Lemma notes_read r : r ∈ notes -> hydrate no_casts scan_any note r = Ok (note_hm r).
Proof. intros H. repeat (apply elem_of_cons in H as [->|H]; [vm_compute; reflexivity |]). by apply not_elem_of_nil in H. Qed.


Lemma Paginate_exact_witness : exists pg, run_page 2 2 = Ok pg /\ Total pg = 3 /\ (HasMore pg = true <-> 4 < Total pg).
Proof.
  destruct (Paginate_exact simple_leaf simple_before never_fails no_hook no_casts scan_any note_hm all_notes 2 2 (mkDb notes [])
    (fun _ => eq_refl) (fun _ _ => eq_refl) notes_read) as (pg & d' & H1 & _ & _ & Ht & _ & _ & _ & Hm).
  - intros H. discriminate H.
  - intros H. discriminate H.
  - exists pg. split; [exact (f_equal fst H1) |]. split; [| exact Hm].
    rewrite Ht. vm_compute. reflexivity.
Defined.

(** ** What modelling showed *)

(** The offset of a page far out wraps: page 2^63 - 1 of two rows is the first. *)
Lemma far_page_wraps : exists pg, run_page max_i64 2 = Ok pg /\ ids (Data pg) = [Int 3; Int 1] /\ Page pg = max_i64 /\ HasMore pg = false.
Proof. eexists. split; [vm_compute; reflexivity |]. vm_compute. done. Qed.

(** With an order of the caller's the cursor skips rows: by title the note 3 comes
    first, and 1 is never handed out; an offset skips its rows in every batch. *)
Lemma chunk_order_skips :
  (exists bs, run_chunk 1 (with_qb (order_asc "title" (qb all_notes)) all_notes) = Ok (Some bs) /\ map ids bs = [[Int 3]; [Int 4]]) /\
  (exists bs, run_chunk 1 (with_qb (Offset 1 (qb all_notes)) all_notes) = Ok (Some bs) /\ map ids bs = [[Int 3]]) /\
  (exists bs, run_chunk 1 all_notes = Ok (Some bs) /\ map ids bs = [[Int 1]; [Int 3]; [Int 4]]).
Proof. split_and!; eexists; (split; [vm_compute; reflexivity |]); vm_compute; reflexivity. Qed.

(** A raw expression is not bracketed before the scope is added: an OR inside it
    lets trashed rows through. *)
Lemma raw_or_leaks :
  compileWheres (fun s => s) Sql.mysql (wheres (scopedQB (with_qb (WhereRaw "a = 1 OR b = 2" [] (qb all_notes)) all_notes))) 0
  = Some ("a = 1 OR b = 2 AND `deleted_at` IS NULL", [], 0).
Proof. vm_compute. reflexivity. Qed.

(** [FirstOrCreate] by a key no row has: the model is returned as if created, and
    nothing was stored. *)
Lemma create_by_key_lost :
  let r := FirstOrCreate simple_leaf simple_before never_fails no_hook no_casts scan_any (fun _ => 7) note None (TimeV 9)
             {[ "id" := Int 5 ]} [{[ "title" := Str "lost" ]}] (mkDb notes []) in
  (exists m, r.1 = Ok m /\ m !! [0%nat] = Some (Int 5) /\ m !! [1%nat] = Some (Str "lost")) /\ rows r.2 = notes.
Proof.
  cbv zeta. split; [| vm_compute; reflexivity]. eexists. split_and!; vm_compute; reflexivity.
Qed.

(** A cast that is not registered writes the value as it is and never reads it. *)
Lemma unregistered_cast_lost f v m :
  Cast f <> "" -> castToDB no_casts f v = Ok v /\
  (forall s, FieldByColumn (Column f) s = Some f -> hydrate_column no_casts scan_any s m (Column f) v = Ok m).
Proof.
  intros Hc. unfold castToDB, hydrate_column. apply String.eqb_neq in Hc. rewrite Hc. split; [done |]. intros s ->. by rewrite Hc.
Qed.
