(* ===== verification/Relations.v ===== *)
(** Relations between models and their eager loading: [src/relations/relations.go]
    and [src/orm/eager.go].

    - The database is a table of rows per name ([tables]), read through [SqlRows];
      [fault] makes a statement fail; the statements run are logged.
    - Parents and children are [Orm.model]s; the values [normalizeKey] gives
      floating-point numbers are an argument.  A key is a scalar or nil (on any
      other the Go map panics).
    - A parent with its loaded relations is a [node]; [types] is what the Go type
      of a name declares.  Where Go writes through pointers into the parents, the
      loaders return the new parents. *)

From Stdlib Require Import ZArith Lia Ascii.
From Stdlib Require String.
From Stdlib Require Import Sorted.
From stdpp Require Import base gmap strings list numbers.
From S2P Require Import Prelude GoRt GoStrconv GoStrings GoUtf8 Sql Query GoSort Inflect Reflect SqlRows Orm.

#[local] Set Warnings "-register-all".
#[local] Open Scope string_scope.
#[local] Open Scope list_scope.
#[local] Open Scope Z_scope.

(** ** Relations *)

Inductive Kind := HasOne | HasMany | BelongsTo | BelongsToMany | MorphOne | MorphMany.

(** [Child] and [ChildTable] are the schema and the table of the destination's
    element type. *)
Record Relation := mkRelation {
  r_kind : Kind; Child : Schema; ChildTable : string; ForeignKey : string; OwnerKey : string;
  PivotTable : string; PivotForeignFK : string; PivotRelatedFK : string;
  MorphType : string; MorphValue : string; Apply : option (Builder -> Builder) }.

Definition default_key (key : string) : string := if String.eqb key "" then "id" else key.
Definition apply_scope (r : Relation) (q : Builder) : Builder := match Apply r with Some f => f q | None => q end.
Definition is_morph (k : Kind) : bool := match k with MorphOne | MorphMany => true | _ => false end.

Definition fk_or (fk name : string) : string := if String.eqb fk "" then Inflect.ForeignKey name else fk.

(** [parent] and [owner] are the names of their types. *)
Definition HasManyOf (parent : string) (child : Schema) (table fk : string) : Relation :=
  mkRelation HasMany child table (fk_or fk parent) "id" "" "" "" "" "" None.
Definition HasOneOf (parent : string) (child : Schema) (table fk : string) : Relation :=
  mkRelation HasOne child table (fk_or fk parent) "id" "" "" "" "" "" None.
Definition BelongsToOf (owner : string) (child : Schema) (table fk : string) : Relation :=
  mkRelation BelongsTo child table (fk_or fk owner) "id" "" "" "" "" "" None.
Definition BelongsToManyOf (child : Schema) (table pivot parentFK relatedFK : string) : Relation :=
  mkRelation BelongsToMany child table "" "id" pivot parentFK relatedFK "" "" None.
Definition MorphManyOf (child : Schema) (table morphName morphValue : string) : Relation :=
  mkRelation MorphMany child table (morphName +:+ "_id") "id" "" "" "" (morphName +:+ "_type") morphValue None.

(** What the callback is given. *)
Inductive children := CSlice (ms : list model) | CSingle (m : model).

Inductive statement := SSelect (b : Builder) | SJoin (sql : string) (args : list any).

Definition normalizeStringKey (s : string) : any :=
  match ParseInt s with Some n => if String.eqb (FormatInt n) s then Int n else Str s | None => Str s end.

Section Relations.
Context {E : Type} (leaf : dbrow -> condition -> bool) (before : list orderClause -> dbrow -> dbrow -> bool).
Context (tables : string -> list dbrow) (fault : statement -> option E) (casts_Get : string -> option (cast E)).
Context (assign : gotype -> any -> option any) (normalize_float : nat -> any) (g : Grammar).

Inductive rel_error :=
| RDriver (e : E) | RScan (e : @orm_error E)
| RNoForeignKey (column : string) | RNoOwnerKey (column : string)
| RNoField (name : string) | RUnknown (name : string) | RNoRelations (type : string).

Definition L (A : Type) : Type := list statement -> result rel_error A * list statement.
Definition lret {A} (a : A) : L A := fun log => (Ok a, log).
Definition lift_r {A} (r : result rel_error A) : L A := fun log => (r, log).
Definition lbind {A B} (m : L A) (k : A -> L B) : L B :=
  fun log => match m log with (Ok a, log) => k a log | (Err e, log) => (Err e, log) end.
Definition run {A} (st : statement) (a : A) : L A :=
  fun log => (match fault st with Some e => Err (RDriver e) | None => Ok a end, log ++ [st]).

Definition select (q : Builder) : L (list dbrow) := run (SSelect q) (select_rows leaf before q (tables (Query.table q))).

(** ** Keys *)

Definition normalizeKey (v : any) : any :=
  match v with
  | Other f => normalize_float f
  | Str s | Bytes s => normalizeStringKey s
  | TypedNil _ => Nil
  | v => v
  end.

(** The key of a model in a column; nil when it has no such field. *)
Definition key_at (s : Schema) (col : string) (m : model) : any :=
  match FieldByColumn col s with Some f => normalizeKey (field f m) | None => Nil end.

Definition add_new (k : any) (keys : list any) : list any := if decide (k = Nil) then keys else if decide (k ∈ keys) then keys else keys ++ [k].

(** The distinct keys; the parents of a key are those whose [key_at] it is. *)
Definition collectParentKeys (s : Schema) (col : string) (parents : list model) : list any :=
  fold_left (fun keys p => add_new (key_at s col p) keys) parents [].

(** ** Loading *)

(** A Go map of slices, and of values: the last write of a key stays. *)
Fixpoint add_bucket {A} (k : any) (c : A) (buckets : list (any * list A)) : list (any * list A) :=
  match buckets with
  | [] => [(k, [c])]
  | (k', cs) :: buckets => if decide (k = k') then (k', cs ++ [c]) :: buckets else (k', cs) :: add_bucket k c buckets
  end.

Definition lookup_key {A} (k : any) (l : list (any * A)) : option A := snd <$> List.find (fun ka => bool_decide (ka.1 = k)) l.

Definition scan_result (r : result orm_error model) : result rel_error model := match r with Ok m => Ok m | Err e => Err (RScan e) end.

(** The children of a result set, by the value of their [col]. *)
Fixpoint scan_buckets (child : Schema) (col : string) (rs : list dbrow) (buckets : list (any * list model)) : result rel_error (list (any * list model)) :=
  match rs with
  | [] => Ok buckets
  | r :: rs =>
      match scan_result (hydrate casts_Get assign child r) with
      | Err e => Err e
      | Ok c =>
          match FieldByColumn col child with
          | None => Err (RNoForeignKey col)
          | Some f => scan_buckets child col rs (add_bucket (normalizeKey (field f c)) c buckets)
          end
      end
  end.

Definition in_bucket (buckets : list (any * list model)) (k : any) : option children := Some (CSlice (default [] (lookup_key k buckets))).

(** What each parent is assigned; nothing to one without a key. *)
Definition distribute (s : Schema) (col : string) (parents : list model) (found : any -> option children) : list (option children) :=
  map (fun p => let k := key_at s col p in if decide (k = Nil) then None else found k) parents.

Definition has_query (r : Relation) (keys : list any) : Builder :=
  let q := WhereIn (ForeignKey r) (Slice keys) (Query.New (ChildTable r)) in
  apply_scope r (if is_morph (r_kind r) then where_eq (MorphType r) (Str (MorphValue r)) q else q).

Definition loadHasOrMorph (r : Relation) (s : Schema) (parents : list model) : L (list (option children)) :=
  let owner := default_key (OwnerKey r) in
  match collectParentKeys s owner parents with
  | [] => lret (map (fun _ => None) parents)
  | keys =>
      lbind (select (has_query r keys)) (fun rs =>
      lbind (lift_r (scan_buckets (Child r) (ForeignKey r) rs [])) (fun buckets =>
      lret (distribute s owner parents (in_bucket buckets))))
  end.

Fixpoint scan_owners (child : Schema) (f : Field) (rs : list dbrow) (results : list (any * model)) : result rel_error (list (any * model)) :=
  match rs with
  | [] => Ok results
  | r :: rs =>
      match scan_result (hydrate casts_Get assign child r) with
      | Err e => Err e
      | Ok c => scan_owners child f rs ((normalizeKey (field f c), c) :: results)
      end
  end.

Definition owner_query (r : Relation) (keys : list any) : Builder :=
  apply_scope r (WhereIn (default_key (OwnerKey r)) (Slice keys) (Query.New (ChildTable r))).

Definition loadBelongsTo (r : Relation) (s : Schema) (parents : list model) : L (list (option children)) :=
  let owner := default_key (OwnerKey r) in
  match collectParentKeys s (ForeignKey r) parents with
  | [] => lret (map (fun _ => None) parents)
  | keys =>
      lbind (select (owner_query r keys)) (fun rs =>
      match FieldByColumn owner (Child r) with
      | None => lift_r (Err (RNoOwnerKey owner))
      | Some f =>
          lbind (lift_r (scan_owners (Child r) f rs [])) (fun results =>
          lret (distribute s (ForeignKey r) parents (fun k => CSingle <$> lookup_key k results)))
      end)
  end.

Definition pivot_sql (r : Relation) (keys : list any) : string :=
  let q := Quote g in
  "SELECT " +:+ q (ChildTable r) +:+ ".*, " +:+ q (PivotTable r) +:+ "." +:+ q (PivotForeignFK r) +:+ " AS __parent_fk FROM "
    +:+ q (ChildTable r) +:+ " INNER JOIN " +:+ q (PivotTable r) +:+ " ON " +:+ q (PivotTable r) +:+ "." +:+ q (PivotRelatedFK r)
    +:+ " = " +:+ q (ChildTable r) +:+ "." +:+ q "id" +:+ " WHERE " +:+ q (PivotTable r) +:+ "." +:+ q (PivotForeignFK r)
    +:+ " IN (" +:+ GoStrings.Join ", " (placeholders g 0 keys) +:+ ")".

(** The rows of the join, each with its [__parent_fk]. *)
Definition joined_children (r : Relation) (p : dbrow) : list dbrow :=
  List.filter (fun c => negb (isNil (get p (PivotRelatedFK r))) && leaf c (cmp bAnd "id" OpEq [get p (PivotRelatedFK r)])) (tables (ChildTable r)).
Definition join_rows (r : Relation) (keys : list any) : list (dbrow * any) :=
  flat_map (fun p => map (fun c => (c, get p (PivotForeignFK r))) (joined_children r p))
    (List.filter (fun p => leaf p (cmp bAnd (PivotForeignFK r) OpIn keys)) (tables (PivotTable r))).

Fixpoint scan_pivot (child : Schema) (rs : list (dbrow * any)) (buckets : list (any * list model)) : result rel_error (list (any * list model)) :=
  match rs with
  | [] => Ok buckets
  | (r, raw) :: rs =>
      match scan_result (hydrate casts_Get assign child r) with
      | Err e => Err e
      | Ok c => scan_pivot child rs (add_bucket (normalizeKey raw) c buckets)
      end
  end.

Definition loadBelongsToMany (r : Relation) (s : Schema) (parents : list model) : L (list (option children)) :=
  let owner := default_key (OwnerKey r) in
  match collectParentKeys s owner parents with
  | [] => lret (map (fun _ => None) parents)
  | keys =>
      lbind (run (SJoin (pivot_sql r keys) keys) (join_rows r keys)) (fun rs =>
      lbind (lift_r (scan_pivot (Child r) rs [])) (fun buckets =>
      lret (distribute s owner parents (in_bucket buckets))))
  end.

Definition loadMany (r : Relation) (s : Schema) (parents : list model) : L (list (option children)) :=
  match parents with
  | [] => lret []
  | _ =>
      match r_kind r with
      | HasOne | HasMany | MorphOne | MorphMany => loadHasOrMorph r s parents
      | BelongsTo => loadBelongsTo r s parents
      | BelongsToMany => loadBelongsToMany r s parents
      end
  end.

(** What a destination of one row, or of a slice, holds after [Load]; [None]: it
    is left as it was. *)
Definition first_child (c : children) : option model :=
  match c with CSlice (m :: _) => Some m | CSlice [] => None | CSingle m => Some m end.
Definition Load (slice : bool) (r : Relation) (s : Schema) (parent : model) : L (option children) :=
  lbind (loadMany r s [parent]) (fun out =>
  lret (c ← default None (head out); if slice then Some c else CSingle <$> first_child c)).

(** ** Eager loading *)

Record RelationDef := mkDef {
  d_kind : Kind; d_field : string; d_related : string; d_fk : string; d_owner : string;
  d_pivot : string; d_pivot_fk : string; d_pivot_related : string; d_morph : string; d_value : string }.

(** A model type: its schema, its table, and what [Relations()] returns when it
    has the method. *)
Record mtype := mkType { t_schema : Schema; t_table : string; t_relations : option (list (string * RelationDef)) }.

Record withSpec := mkWith { w_name : string; w_nested : list string; w_constraint : option (Builder -> Builder) }.

Definition appendUnique (l : list string) (v : string) : list string := if existsb (String.eqb v) l then l else l ++ [v].

Definition add_nested (rest : string) (spec : withSpec) : withSpec :=
  if String.eqb rest "" then spec else mkWith (w_name spec) (appendUnique (w_nested spec) rest) (w_constraint spec).

(** [findWith], or a new specification at the end. *)
Fixpoint update_with (head : string) (f : withSpec -> withSpec) (withs : list withSpec) : list withSpec :=
  match withs with
  | [] => [f (mkWith head [] None)]
  | spec :: withs => if String.eqb (w_name spec) head then f spec :: withs else spec :: update_with head f withs
  end.

Definition cut_name (name : string) : string * string :=
  match cut_at "." name with Some (head, rest) => (TrimSpace head, rest) | None => (TrimSpace name, "") end.

Definition With (names : list string) (withs : list withSpec) : list withSpec :=
  fold_left (fun withs name =>
    let '(head, rest) := cut_name name in
    if String.eqb head "" then withs else update_with head (add_nested rest) withs) names withs.

Definition WithWhere (name : string) (constraint : Builder -> Builder) (withs : list withSpec) : list withSpec :=
  let '(head, rest) := cut_name name in
  if String.eqb head "" then withs
  else update_with head (fun spec => add_nested rest (mkWith (w_name spec) (w_nested spec) (Some constraint))) withs.

(** The heads [strings.Cut] takes off a nested name one after the other. *)
Definition path_of (n : string) : list string :=
  let l := Split "." n in match list.last l with Some last => if String.eqb last "" then removelast l else l | None => l end.

(** A model with its loaded relations, by the path of the field. *)
Inductive node := Node (n_model : model) (n_rels : list (list nat * list node)).

Definition model_of (n : node) : model := match n with Node m _ => m end.
Definition leaf_node (m : model) : node := Node m [].

Fixpoint rel_lookup (f : list nat) (rels : list (list nat * list node)) : option (list node) :=
  match rels with [] => None | (f', v) :: rels => if decide (f = f') then Some v else rel_lookup f rels end.
Fixpoint rel_store (f : list nat) (v : list node) (rels : list (list nat * list node)) : list (list nat * list node) :=
  match rels with [] => [(f, v)] | (f', w) :: rels => if decide (f = f') then (f, v) :: rels else (f', w) :: rel_store f v rels end.

(** The models a relation's field holds: a struct field always holds one. *)
Definition rel_value (f : Field) (n : node) : list node :=
  match n with
  | Node _ rels =>
      match rel_lookup (f_Index f) rels, Type_ f with
      | Some v, _ => v
      | None, TStruct _ _ _ _ _ => [leaf_node ∅]
      | None, _ => []
      end
  end.
Definition set_rel (f : Field) (v : list node) (n : node) : node := match n with Node m rels => Node m (rel_store (f_Index f) v rels) end.

Definition setRelationField (f : Field) (c : children) (n : node) : node :=
  match Type_ f, c with
  | TSlice _, CSlice ms => set_rel f (map leaf_node ms) n
  | TSlice _, CSingle _ => n
  | _, c => match first_child c with Some m => set_rel f [leaf_node m] n | None => n end
  end.

Definition assign_children (f : Field) (n : node) (c : option children) : node :=
  match c with Some c => setRelationField f c n | None => n end.

(** The children of the parents that were assigned, and putting them back. *)
Definition collectChildPointers (f : Field) (parents : list node) (out : list (option children)) : list node :=
  concat (zip_with (fun n (c : option children) => match c with Some _ => rel_value f n | None => [] end) parents out).

Fixpoint put_back (f : Field) (parents : list node) (out : list (option children)) (kids : list node) : list node :=
  match parents, out with
  | n :: parents, Some _ :: out =>
      let k := length (rel_value f n) in
      (if (k =? 0)%nat then n else set_rel f (take k kids) n) :: put_back f parents out (drop k kids)
  | n :: parents, None :: out => n :: put_back f parents out kids
  | parents, _ => parents
  end.

Section Eager.
Context (types : string -> mtype).

Definition relationScope (s : Schema) (constraint : option (Builder -> Builder)) : option (Builder -> Builder) :=
  match DeletedAt s, constraint with
  | None, c => c
  | Some f, None => Some (WhereNull (Column f))
  | Some f, Some c => Some (fun q => c (WhereNull (Column f) q))
  end.

Definition buildRelation (d : RelationDef) (constraint : option (Builder -> Builder)) : Relation :=
  let t := types (d_related d) in
  let morph := is_morph (d_kind d) in
  let pivot x := match d_kind d with BelongsToMany => x | _ => "" end in
  mkRelation (d_kind d) (t_schema t) (t_table t) (if morph then d_morph d +:+ "_id" else d_fk d) (default_key (d_owner d))
    (pivot (d_pivot d)) (pivot (d_pivot_fk d)) (pivot (d_pivot_related d))
    (if morph then d_morph d +:+ "_type" else "") (if morph then d_value d else "") (relationScope (t_schema t) constraint).

(** One relation of parents of a type; [next] loads the nested ones of the
    children, whose type it is given. *)
Definition load_level (type : string) (parents : list node) (d : RelationDef) (constraint : option (Builder -> Builder))
    (next : option (string -> list node -> L (list node))) : L (list node) :=
  match parents with
  | [] => lret []
  | _ =>
      match FieldByName (d_field d) (t_schema (types type)) with
      | None => lift_r (Err (RNoField (d_field d)))
      | Some f =>
          lbind (loadMany (buildRelation d constraint) (t_schema (types type)) (map model_of parents)) (fun out =>
          let parents := zip_with (assign_children f) parents out in
          match next with
          | None => lret parents
          | Some next =>
              match t_relations (types (d_related d)) with
              | None => lift_r (Err (RNoRelations (d_related d)))
              | Some _ =>
                  match collectChildPointers f parents out with
                  | [] => lret parents
                  | kids => lbind (next (d_related d) kids) (fun kids => lret (put_back f parents out kids))
                  end
              end
          end)
      end
  end.

(** [declared]: the relations of [type]. *)
Definition declared (type name : string) : option RelationDef :=
  defs ← t_relations (types type); assoc name defs.

Fixpoint load_path (path : list string) (type : string) (parents : list node) : L (list node) :=
  match path with
  | [] => lret parents
  | head :: rest =>
      match declared type head with
      | None => lift_r (Err (RUnknown head))
      | Some d => load_level type parents d None (match rest with [] => None | _ => Some (load_path rest) end)
      end
  end.

Fixpoint load_paths (paths : list (list string)) (type : string) (parents : list node) : L (list node) :=
  match paths with
  | [] => lret parents
  | path :: paths => lbind (load_path path type parents) (load_paths paths type)
  end.

Definition loadRelation (type : string) (parents : list node) (d : RelationDef) (constraint : option (Builder -> Builder)) (nested : list string) : L (list node) :=
  load_level type parents d constraint (match nested with [] => None | _ => Some (load_paths (map path_of nested)) end).

Fixpoint load_specs (type : string) (withs : list withSpec) (parents : list node) : L (list node) :=
  match withs with
  | [] => lret parents
  | spec :: withs =>
      match declared type (w_name spec) with
      | None => lift_r (Err (RUnknown (w_name spec)))
      | Some d => lbind (loadRelation type parents d (w_constraint spec) (w_nested spec)) (load_specs type withs)
      end
  end.

Definition eagerLoad (type : string) (withs : list withSpec) (parents : list model) : L (list node) :=
  match withs, parents with
  | [], _ | _, [] => lret (map leaf_node parents)
  | _, _ =>
      match t_relations (types type) with
      | None => lift_r (Err (RNoRelations type))
      | Some _ => load_specs type withs (map leaf_node parents)
      end
  end.
End Eager.
End Relations.

(** ** Laws *)

Lemma add_new_spec k keys x : x ∈ add_new k keys <-> x ∈ keys \/ (x = k /\ k <> Nil).
Proof.
  unfold add_new. destruct (decide (k = Nil)) as [->|Hk]; [naive_solver |]. destruct (decide (k ∈ keys)) as [Hin|Hno]; [naive_solver |].
  rewrite elem_of_app, list_elem_of_singleton. naive_solver.
Qed.

Lemma collect_keys_spec normalize_float s col parents x :
  x ∈ collectParentKeys normalize_float s col parents <-> x <> Nil /\ exists p, p ∈ parents /\ key_at normalize_float s col p = x.
Proof.
  unfold collectParentKeys. assert (H : forall acc, x ∈ fold_left (fun keys p => add_new (key_at normalize_float s col p) keys) parents acc
      <-> x ∈ acc \/ (x <> Nil /\ exists p, p ∈ parents /\ key_at normalize_float s col p = x)).
  { induction parents as [|p parents IH]; intros acc; simpl; [set_solver |]. rewrite IH, add_new_spec. set_solver. }
  rewrite H. set_solver.
Qed.

Section Laws.
Context {E : Type} (leaf : dbrow -> condition -> bool) (before : list orderClause -> dbrow -> dbrow -> bool).
Context (tables : string -> list dbrow) (fault : statement -> option E) (casts_Get : string -> option (cast E)).
Context (assign : gotype -> any -> option any) (normalize_float : nat -> any) (g : Grammar) (hm : dbrow -> model).

Lemma lookup_add_bucket {A} k k' (c : A) b :
  default [] (lookup_key k (add_bucket k' c b)) = default [] (lookup_key k b) ++ if decide (k' = k) then [c] else [].
Proof.
  unfold lookup_key. induction b as [|[k0 cs] b IH]; simpl.
  - unfold bool_decide. destruct (decide_rel _ _ _), (decide (k' = k)); done.
  - destruct (decide (k' = k0)) as [<-|Hne]; simpl; unfold bool_decide.
    + destruct (decide_rel _ _ _), (decide (k' = k)); simpl; rewrite ?app_nil_r; done.
    + destruct (decide_rel eq k0 k) as [->|Hk0]; simpl; [by rewrite decide_False, app_nil_r | exact IH].
Qed.

Lemma scan_buckets_spec child col f rs b :
  FieldByColumn col child = Some f -> (forall r, r ∈ rs -> hydrate casts_Get assign child r = Ok (hm r)) ->
  exists b', scan_buckets casts_Get assign normalize_float child col rs b = Ok b' /\
    forall k, default [] (lookup_key k b') = default [] (lookup_key k b) ++
      map hm (List.filter (fun r => bool_decide (normalizeKey normalize_float (field f (hm r)) = k)) rs).
Proof.
  intros Hf. revert b. induction rs as [|r rs IH]; intros b Hr; [exists b; split; [done | intros; by rewrite app_nil_r] |].
  cbn [scan_buckets]. rewrite Hr by (by left). cbn [scan_result]. rewrite Hf.
  destruct (IH (add_bucket (normalizeKey normalize_float (field f (hm r))) (hm r) b)) as (b' & H1 & H2); [intros; apply Hr; by right |].
  exists b'. split; [done |]. intros k. rewrite H2, lookup_add_bucket, <- app_assoc. f_equal. cbn [List.filter]. unfold bool_decide.
  destruct (decide_rel _ _ _), (decide _); done.
Qed.

Lemma scan_pivot_spec child rs b :
  (forall r raw, (r, raw) ∈ rs -> hydrate casts_Get assign child r = Ok (hm r)) ->
  exists b', scan_pivot casts_Get assign normalize_float child rs b = Ok b' /\
    forall k, default [] (lookup_key k b') = default [] (lookup_key k b) ++
      map (fun ra => hm ra.1) (List.filter (fun ra => bool_decide (normalizeKey normalize_float ra.2 = k)) rs).
Proof.
  revert b. induction rs as [|[r raw] rs IH]; intros b Hr; [exists b; split; [done | intros; by rewrite app_nil_r] |].
  cbn [scan_pivot]. rewrite (Hr r raw) by (by left). cbn [scan_result].
  destruct (IH (add_bucket (normalizeKey normalize_float raw) (hm r) b)) as (b' & H1 & H2); [intros; eapply Hr; by right |].
  exists b'. split; [done |]. intros k. rewrite H2, lookup_add_bucket, <- app_assoc. f_equal. cbn [List.filter snd]. unfold bool_decide.
  destruct (decide_rel _ _ _), (decide _); done.
Qed.

Lemma scan_owners_spec child f rs b :
  (forall r, r ∈ rs -> hydrate casts_Get assign child r = Ok (hm r)) ->
  exists b', scan_owners casts_Get assign normalize_float child f rs b = Ok b' /\
    forall k, lookup_key k b' = match list.last (List.filter (fun r => bool_decide (normalizeKey normalize_float (field f (hm r)) = k)) rs) with
                               | Some r => Some (hm r) | None => lookup_key k b end.
Proof.
  revert b. induction rs as [|r rs IH]; intros b Hr; [by exists b |]. cbn [scan_owners]. rewrite Hr by (by left). cbn [scan_result].
  destruct (IH ((normalizeKey normalize_float (field f (hm r)), hm r) :: b)) as (b' & H1 & H2); [intros; apply Hr; by right |].
  exists b'. split; [done |]. intros k. rewrite H2. cbn [List.filter]. unfold lookup_key. cbn [List.find fst].
  destruct (bool_decide (normalizeKey normalize_float (field f (hm r)) = k)) eqn:Hk; [| done].
  destruct (List.filter _ rs) as [|x l]; [done |]. change (list.last (r :: x :: l)) with (list.last (x :: l)).
  destruct (list.last (x :: l)) eqn:El; [done | by apply last_None in El].
Qed.
End Laws.

(** ** Eager loading is what each parent would load alone *)

Section Exact.
Context {E : Type} (leaf : dbrow -> condition -> bool) (before : list orderClause -> dbrow -> dbrow -> bool).
Context (tables : string -> list dbrow) (fault : statement -> option E) (casts_Get : string -> option (cast E)).
Context (assign : gotype -> any -> option any) (normalize_float : nat -> any) (g : Grammar) (hm : dbrow -> model).

(** The caller's constraint adds conditions glued with AND and orders, no limit. *)
Definition narrowing (r : Relation) (extra : list condition) (os : list orderClause) : Prop :=
  all_and extra = true /\ forall q, apply_scope r q = set_orders (orders q ++ os) (set_wheres (wheres q ++ extra) q).

(** The query of one key. *)
Definition alone_query (r : Relation) (k : any) : Builder :=
  match r_kind r with
  | BelongsTo => apply_scope r (where_eq (default_key (OwnerKey r)) k (Query.New (ChildTable r)))
  | kind =>
      let q := where_eq (ForeignKey r) k (Query.New (ChildTable r)) in
      apply_scope r (if is_morph kind then where_eq (MorphType r) (Str (MorphValue r)) q else q)
  end.

Definition alone_rows (r : Relation) (k : any) : list dbrow := select_rows leaf before (alone_query r k) (tables (ChildTable r)).

(** The children of one key. *)
Definition alone (r : Relation) (k : any) : option children :=
  match r_kind r with
  | BelongsTo => (fun c => CSingle (hm c)) <$> list.last (alone_rows r k)
  | BelongsToMany =>
      Some (CSlice (map hm (flat_map (joined_children leaf tables r)
        (List.filter (fun p => bool_decide (get p (PivotForeignFK r) = k)) (tables (PivotTable r))))))
  | _ => Some (CSlice (map hm (alone_rows r k)))
  end.

(** The column of the parents that carries the key. *)
Definition parent_column (r : Relation) : string :=
  match r_kind r with BelongsTo => ForeignKey r | _ => default_key (OwnerKey r) end.
Definition child_column (r : Relation) : string :=
  match r_kind r with BelongsTo => default_key (OwnerKey r) | _ => ForeignKey r end.

(** Stored keys are read as they are: the row scans, and the key the code derives
    from its field (from the raw column for a pivot) is the one stored. *)
Definition keys_stored (r : Relation) : Prop :=
  (forall c, c ∈ tables (ChildTable r) -> hydrate casts_Get assign (Child r) c = Ok (hm c)) /\
  match r_kind r with
  | BelongsToMany =>
      forall p, p ∈ tables (PivotTable r) -> normalizeKey normalize_float (get p (PivotForeignFK r)) = get p (PivotForeignFK r)
  | _ => exists f, FieldByColumn (child_column r) (Child r) = Some f /\
      forall c, c ∈ tables (ChildTable r) -> get c (child_column r) <> Nil ->
        normalizeKey normalize_float (field f (hm c)) = get c (child_column r)
  end.

Lemma select_split q1 q2 c1 c2 ws (p : dbrow -> bool) t :
  wheres q1 = c1 :: ws -> wheres q2 = c2 :: ws -> all_and (c1 :: ws) = true -> c_bool c2 = bAnd ->
  orders q1 = orders q2 -> limit q1 = 0 -> offset q1 = 0 -> limit q2 = 0 -> offset q2 = 0 ->
  (forall os, StrictWeak (before os)) ->
  (forall r, r ∈ t -> holds_cond leaf r c2 = holds_cond leaf r c1 && p r) ->
  List.filter p (select_rows leaf before q1 t) = select_rows leaf before q2 t.
Proof.
  intros H1 H2 Ha Hb Ho Hl1 Ho1 Hl2 Ho2 Hw Hp. unfold select_rows, bounds. rewrite Hl1, Ho1, Hl2, Ho2, <- Ho. cbn [Z.ltb Z.compare].
  assert (Ha2 : all_and (c2 :: ws) = true) by (unfold all_and in *; simpl in *; rewrite Hb; destruct (c_bool c1); [exact Ha | discriminate]).
  assert (Hf : List.filter (holds leaf (wheres q2)) t = List.filter p (List.filter (holds leaf (wheres q1)) t)).
  { rewrite H1, H2. clear -Hp Ha Ha2. induction t as [|r t IH]; [done |]. cbn [List.filter]. rewrite IH by (intros; apply Hp; by right).
    rewrite !holds_and by done. cbn [forallb]. rewrite Hp by (by left).
    destruct (holds_cond leaf r c1); cbn [andb]; [| done]. destruct (forallb _ ws) eqn:Ews; rewrite ?andb_true_r, ?andb_false_r.
    - cbn [List.filter]. by destruct (p r).
    - done. }
  rewrite Hf. destruct (orders q1) as [|o os]; [done |]. specialize (Hw (o :: os)). symmetry. apply SliceStable_filter, Hw.
Qed.

Context `{!Database leaf before}.

Lemma batch_of_key r extra os keys k (p : dbrow -> bool) :
  narrowing r extra os -> r_kind r <> BelongsToMany -> k ∈ keys -> forallb is_scalar keys = true ->
  let q := match r_kind r with BelongsTo => owner_query r keys | _ => has_query r keys end in
  (forall c, c ∈ tables (ChildTable r) -> get c (child_column r) ∈ keys -> p c = bool_decide (get c (child_column r) = k)) ->
  List.filter p (select_rows leaf before q (tables (ChildTable r))) = alone_rows r k.
Proof.
  intros [Hx Hn] Hkind Hk Hkeys q Hp. assert (Hsk : is_scalar k = true) by (rewrite forallb_forall in Hkeys; by apply Hkeys, list_elem_of_In).
  assert (Hnil : isNil k = false) by by apply scalar_not_nil.
  assert (Hrow : forall c, c ∈ tables (ChildTable r) ->
    leaf c (cmp bAnd (child_column r) OpEq [k]) = leaf c (cmp bAnd (child_column r) OpIn keys) && p c).
  { intros c Hc. apply eq_true_iff_eq. pose proof (db_eq (leaf := leaf) (before := before) bAnd c (child_column r) k Hsk) as H1.
    pose proof (db_in (leaf := leaf) (before := before) bAnd c (child_column r) keys Hkeys) as H2.
    rewrite H1, andb_true_iff, H2. split.
    - intros Heq. rewrite Heq. split; [done |]. rewrite Hp by (done || by rewrite Heq). by apply bool_decide_true.
    - intros [Hin H]. rewrite Hp in H by done. by apply bool_decide_eq_true in H. }
  unfold alone_rows, alone_query. subst q. revert Hrow. unfold child_column, has_query, owner_query, where_eq, add_where, nullAware.
  pose proof (fun o => db_order (leaf := leaf) (before := before) o) as Hord.
  destruct (r_kind r); try done; cbn [is_morph]; intros Hrow; rewrite !Hn; unfold cmp in *; rewrite Hnil;
    (eapply select_split; [reflexivity | reflexivity | exact Hx | reflexivity | reflexivity | reflexivity | reflexivity | reflexivity | reflexivity
      | exact Hord | exact Hrow]).
Qed.

Context (quiet : forall st, fault st = None) (s : Schema) (parents : list model).

Notation key := (key_at normalize_float s).
Notation keys_of := (collectParentKeys normalize_float s).

(** What every parent is to be given. *)
Definition each_alone (r : Relation) : list (option children) :=
  map (fun p => let k := key (parent_column r) p in if decide (k = Nil) then None else alone r k) parents.

Lemma keys_scalar col : (forall p, p ∈ parents -> key col p = Nil \/ is_scalar (key col p) = true) -> forallb is_scalar (keys_of col parents) = true.
Proof.
  intros H. apply forallb_forall. intros k Hk. apply list_elem_of_In, collect_keys_spec in Hk as (Hnil & p & Hp & <-).
  by destruct (H p Hp).
Qed.

Lemma no_keys (r : Relation) col : col = parent_column r -> keys_of col parents = [] -> map (fun _ => None) parents = each_alone r.
Proof.
  intros -> H. unfold each_alone. apply map_ext_in. intros p Hp. destruct (decide _) as [|Hk]; [done |]. exfalso.
  assert (Hin : key (parent_column r) p ∈ keys_of (parent_column r) parents) by (apply collect_keys_spec; split; [done |]; exists p; by rewrite list_elem_of_In).
  rewrite H in Hin. by apply not_elem_of_nil in Hin.
Qed.

(** Distributing by key what the batch found. *)
Lemma distribute_alone (r : Relation) col (found : any -> option children) :
  col = parent_column r -> (forall k, k ∈ keys_of col parents -> found k = alone r k) ->
  distribute normalize_float s col parents found = each_alone r.
Proof.
  intros -> H. unfold distribute, each_alone. apply map_ext_in. intros p Hp. cbv zeta. destruct (decide _); [done |].
  apply H, collect_keys_spec. split; [done |]. exists p. by rewrite list_elem_of_In.
Qed.

Lemma stored_key r extra os keys k f :
  narrowing r extra os -> r_kind r <> BelongsToMany -> k ∈ keys -> forallb is_scalar keys = true ->
  (forall c, c ∈ tables (ChildTable r) -> get c (child_column r) <> Nil ->
     normalizeKey normalize_float (field f (hm c)) = get c (child_column r)) ->
  let q := match r_kind r with BelongsTo => owner_query r keys | _ => has_query r keys end in
  List.filter (fun c => bool_decide (normalizeKey normalize_float (field f (hm c)) = k)) (select_rows leaf before q (tables (ChildTable r)))
  = alone_rows r k.
Proof.
  intros Hn Hk0 Hk Hkeys Hf q. unfold q. apply (batch_of_key r extra os); try done. intros c Hc Hin.
  assert (Hnn : get c (child_column r) <> Nil).
  { rewrite forallb_forall in Hkeys. apply list_elem_of_In, Hkeys in Hin. intros Heq. by rewrite Heq in Hin. }
  by rewrite Hf.
Qed.

Lemma query_table r extra os keys : narrowing r extra os ->
  Query.table (has_query r keys) = ChildTable r /\ Query.table (owner_query r keys) = ChildTable r.
Proof. intros [_ Hn]. unfold has_query, owner_query. rewrite !Hn. by destruct (is_morph (r_kind r)). Qed.

Lemma has_exact r extra os log :
  narrowing r extra os -> keys_stored r -> (r_kind r <> BelongsTo /\ r_kind r <> BelongsToMany) ->
  (forall p, p ∈ parents -> key (parent_column r) p = Nil \/ is_scalar (key (parent_column r) p) = true) ->
  exists log', loadHasOrMorph leaf before tables fault casts_Get assign normalize_float r s parents log = (Ok (each_alone r), log') /\
    (length log' <= S (length log))%nat.
Proof.
  intros Hn [Hscan Hst] [Hk1 Hk2] Hkeys.
  assert (Hcol : default_key (OwnerKey r) = parent_column r /\ child_column r = ForeignKey r) by (unfold parent_column, child_column; by destruct (r_kind r)).
  destruct Hcol as [Hpc Hcc]. assert (Hst' : exists f, FieldByColumn (ForeignKey r) (Child r) = Some f /\
      forall c, c ∈ tables (ChildTable r) -> get c (child_column r) <> Nil -> normalizeKey normalize_float (field f (hm c)) = get c (child_column r))
    by (rewrite Hcc in *; by destruct (r_kind r)).
  destruct Hst' as (f & Hf & Hnorm). unfold loadHasOrMorph. rewrite Hpc. pose proof (keys_scalar _ Hkeys) as Hsc.
  destruct (keys_of (parent_column r) parents) as [|k0 ks] eqn:Ek; [exists log; split; [by rewrite (no_keys r (parent_column r)) | lia] |].
  rewrite <- Ek in *. clear k0 ks Ek. unfold lbind, select, run. rewrite quiet. destruct (query_table r extra os (keys_of (parent_column r) parents) Hn) as [-> _].
  edestruct (scan_buckets_spec casts_Get assign normalize_float hm (Child r) (ForeignKey r) f) as (b & Hb & Hl);
    [exact Hf | by intros c [Hc _]%selected_sub; apply Hscan | unfold lift_r; rewrite Hb]. eexists. split.
  - unfold lret. do 2 f_equal. apply distribute_alone; [done |]. intros k Hk. unfold in_bucket. rewrite Hl. cbn [lookup_key List.find fmap option_fmap option_map default app].
    pose proof (stored_key r extra os (keys_of (parent_column r) parents) k f Hn Hk2 Hk Hsc Hnorm) as Hq. cbv zeta in Hq.
    unfold alone. destruct (r_kind r); try done; by rewrite Hq.
  - rewrite length_app. simpl. lia.
Qed.

Lemma belongs_exact r extra os log :
  narrowing r extra os -> keys_stored r -> r_kind r = BelongsTo ->
  (forall p, p ∈ parents -> key (parent_column r) p = Nil \/ is_scalar (key (parent_column r) p) = true) ->
  exists log', loadBelongsTo leaf before tables fault casts_Get assign normalize_float r s parents log = (Ok (each_alone r), log') /\
    (length log' <= S (length log))%nat.
Proof.
  intros Hn [Hscan Hst] Hkind Hkeys. rewrite Hkind in Hst. destruct Hst as (f & Hf & Hnorm).
  assert (Hpc : ForeignKey r = parent_column r /\ default_key (OwnerKey r) = child_column r) by (unfold parent_column, child_column; by rewrite Hkind).
  destruct Hpc as [Hpc Hcc]. unfold loadBelongsTo. rewrite Hpc, Hcc. pose proof (keys_scalar _ Hkeys) as Hsc.
  destruct (keys_of (parent_column r) parents) as [|k0 ks] eqn:Ek; [exists log; split; [by rewrite (no_keys r (parent_column r)) | lia] |].
  rewrite <- Ek in *. clear k0 ks Ek. unfold lbind, select, run. rewrite quiet. destruct (query_table r extra os (keys_of (parent_column r) parents) Hn) as [_ ->].
  rewrite Hf. edestruct (scan_owners_spec casts_Get assign normalize_float hm (Child r) f) as (b & Hb & Hl);
    [by intros c [Hc _]%selected_sub; apply Hscan | unfold lift_r; rewrite Hb]. eexists. split.
  - unfold lret. do 2 f_equal. apply distribute_alone; [done |]. intros k Hk. rewrite Hl. unfold alone. rewrite Hkind.
    pose proof (stored_key r extra os (keys_of (parent_column r) parents) k f Hn ltac:(by rewrite Hkind) Hk Hsc Hnorm) as Hq. cbv zeta in Hq.
    rewrite Hkind in Hq. rewrite Hq. by destruct (list.last (alone_rows r k)).
  - rewrite length_app. simpl. lia.
Qed.

Lemma pivot_of_key r keys k ps :
  forallb is_scalar keys = true -> k ∈ keys ->
  (forall p, p ∈ ps -> normalizeKey normalize_float (get p (PivotForeignFK r)) = get p (PivotForeignFK r)) ->
  map (fun ra => hm ra.1) (List.filter (fun ra => bool_decide (normalizeKey normalize_float ra.2 = k))
    (flat_map (fun p => map (fun c => (c, get p (PivotForeignFK r))) (joined_children leaf tables r p))
       (List.filter (fun p => leaf p (cmp bAnd (PivotForeignFK r) OpIn keys)) ps)))
  = map hm (flat_map (joined_children leaf tables r) (List.filter (fun p => bool_decide (get p (PivotForeignFK r) = k)) ps)).
Proof.
  intros Hkeys Hk Hst. induction ps as [|p ps IH]; [done |]. cbn [List.filter].
  assert (Hin : leaf p (cmp bAnd (PivotForeignFK r) OpIn keys) = true <-> get p (PivotForeignFK r) ∈ keys)
    by exact (db_in (leaf := leaf) (before := before) bAnd p (PivotForeignFK r) keys Hkeys).
  assert (IH' := IH ltac:(intros; apply Hst; by right)). clear IH. specialize (Hst p ltac:(by left)).
  assert (Hone : forall cs, List.filter (fun ra => bool_decide (normalizeKey normalize_float ra.2 = k)) (map (fun c : dbrow => (c, get p (PivotForeignFK r))) cs)
                   = if bool_decide (get p (PivotForeignFK r) = k) then map (fun c => (c, get p (PivotForeignFK r))) cs else []).
  { intros cs. induction cs as [|c cs IHc]; [by destruct (bool_decide _) |]. cbn [map List.filter snd]. rewrite Hst, IHc. by destruct (bool_decide _). }
  destruct (leaf p (cmp bAnd (PivotForeignFK r) OpIn keys)) eqn:Hl.
  - cbn [flat_map]. rewrite filter_app, map_app, IH', Hone. destruct (bool_decide _); [| done]. cbn [flat_map]. by rewrite map_app, map_map.
  - rewrite IH'. rewrite bool_decide_false; [done |]. intros Heq. rewrite Heq in Hin. apply Hin in Hk. congruence.
Qed.

Lemma pivot_exact r log :
  keys_stored r -> r_kind r = BelongsToMany ->
  (forall p, p ∈ parents -> key (parent_column r) p = Nil \/ is_scalar (key (parent_column r) p) = true) ->
  exists log', loadBelongsToMany leaf tables fault casts_Get assign normalize_float g r s parents log = (Ok (each_alone r), log') /\
    (length log' <= S (length log))%nat.
Proof.
  intros [Hscan Hst] Hkind Hkeys. rewrite Hkind in Hst.
  assert (Hpc : default_key (OwnerKey r) = parent_column r) by (unfold parent_column; by rewrite Hkind).
  unfold loadBelongsToMany. rewrite Hpc. pose proof (keys_scalar _ Hkeys) as Hsc.
  destruct (keys_of (parent_column r) parents) as [|k0 ks] eqn:Ek; [exists log; split; [by rewrite (no_keys r (parent_column r)) | lia] |].
  rewrite <- Ek in *. clear k0 ks Ek. unfold lbind, run. rewrite quiet.
  edestruct (scan_pivot_spec casts_Get assign normalize_float hm (Child r)) as (b & Hb & Hl); [| unfold lift_r; rewrite Hb].
  { intros c raw Hin. apply Hscan. unfold join_rows in Hin. apply list_elem_of_In, in_flat_map in Hin as (p & _ & Hin).
    apply in_map_iff in Hin as (c' & [= -> _] & Hin). apply filter_In in Hin as [Hin _]. by apply list_elem_of_In. }
  eexists. split.
  - unfold lret. do 2 f_equal. apply distribute_alone; [done |]. intros k Hk. unfold in_bucket. rewrite Hl.
    cbn [lookup_key List.find fmap option_fmap option_map default app]. unfold alone. rewrite Hkind. do 2 f_equal. by apply pivot_of_key.
  - rewrite length_app. simpl. lia.
Qed.
End Exact.


(** ** The number of statements *)

(** [m] runs at most [n] statements, whatever fails. *)
Definition at_most {E A} (n : nat) (m : L (E := E) A) : Prop := forall log, (length (m log).2 <= length log + n)%nat.

Lemma at_most_ret {E A} (a : A) : at_most (E := E) 0 (lret a).
Proof. intros log. simpl. lia. Qed.

Lemma at_most_lift {E A} (r : result _ A) : at_most (E := E) 0 (lift_r r).
Proof. intros log. simpl. lia. Qed.

Lemma at_most_run {E A} fault st (a : A) : at_most (E := E) 1 (run fault st a).
Proof. intros log. simpl. rewrite length_app. simpl. lia. Qed.

Lemma at_most_bind {E A B} n k (m : L (E := E) A) (f : A -> L B) : at_most n m -> (forall a, at_most k (f a)) -> at_most (n + k) (lbind m f).
Proof.
  intros Hm Hf log. unfold lbind. specialize (Hm log). destruct (m log) as [[a|e] log']; cbn [snd] in *; [specialize (Hf a log') |]; lia.
Qed.

Lemma at_most_le {E A} n k (m : L (E := E) A) : at_most n m -> (n <= k)%nat -> at_most k m.
Proof. intros H Hk log. specialize (H log). lia. Qed.

Section Bound.
Context {E : Type} (leaf : dbrow -> condition -> bool) (before : list orderClause -> dbrow -> dbrow -> bool).
Context (tables : string -> list dbrow) (fault : statement -> option E) (casts_Get : string -> option (cast E)).
Context (assign : gotype -> any -> option any) (normalize_float : nat -> any) (g : Grammar) (types : string -> mtype).

Lemma loadMany_one r s parents : at_most 1 (loadMany leaf before tables fault casts_Get assign normalize_float g r s parents).
Proof.
  assert (Hlift : forall A B (x : result _ A) (f : A -> B), at_most (E := E) 0 (lbind (lift_r x) (fun a => lret (f a)))).
  { intros A B x f. apply (at_most_bind 0 0); [apply at_most_lift | intros; apply at_most_ret]. }
  assert (Hzero : forall A (a : A), at_most (E := E) 1 (lret a)) by (intros; eapply at_most_le; [apply at_most_ret | lia]).
  assert (Hone : forall A B st (a : A) (f : A -> L B), (forall a, at_most (E := E) 0 (f a)) -> at_most 1 (lbind (run fault st a) f)).
  { intros A B st a f Hf. apply (at_most_bind 1 0); [apply at_most_run | done]. }
  unfold loadMany. destruct parents as [|p ps]; [apply Hzero |].
  assert (Hhas : at_most 1 (loadHasOrMorph leaf before tables fault casts_Get assign normalize_float r s (p :: ps))).
  { unfold loadHasOrMorph. destruct (collectParentKeys _ _ _ _); [apply Hzero |]. apply Hone. intros rs. apply Hlift. }
  destruct (r_kind r); try exact Hhas.
  - unfold loadBelongsTo. destruct (collectParentKeys _ _ _ _); [apply Hzero |]. apply Hone. intros rs.
    destruct (FieldByColumn _ _); [apply Hlift | apply at_most_lift].
  - unfold loadBelongsToMany. destruct (collectParentKeys _ _ _ _); [apply Hzero |]. apply Hone. intros rs. apply Hlift.
Qed.

Notation level := (load_level leaf before tables fault casts_Get assign normalize_float g types).

Lemma load_level_bound type parents d constraint next n :
  (forall k, next = Some k -> forall t kids, at_most n (k t kids)) -> at_most (1 + n) (level type parents d constraint next).
Proof.
  intros Hnext. assert (Hz : forall A (a : A), at_most (E := E) (1 + n) (lret a)) by (intros; eapply at_most_le; [apply at_most_ret | lia]).
  unfold load_level. destruct parents as [|p ps]; [apply Hz |].
  destruct (FieldByName _ _); [| eapply at_most_le; [apply at_most_lift | lia]]. apply (at_most_bind 1 n); [apply loadMany_one |].
  intros out. cbv zeta. destruct next as [k|]; [| eapply at_most_le; [apply at_most_ret | lia]].
  destruct (t_relations _); [| eapply at_most_le; [apply at_most_lift | lia]].
  destruct (collectChildPointers _ _ _); [eapply at_most_le; [apply at_most_ret | lia] |].
  rewrite <- (Nat.add_0_r n). apply at_most_bind; [by apply Hnext | intros; apply at_most_ret].
Qed.

Lemma load_path_bound path type parents : at_most (length path) (load_path leaf before tables fault casts_Get assign normalize_float g types path type parents).
Proof.
  revert type parents. induction path as [|head rest IH]; intros type parents; [apply at_most_ret |]. cbn [load_path length].
  destruct (declared types type head); [| eapply at_most_le; [apply at_most_lift | lia]].
  apply load_level_bound. intros k Hk. destruct rest; [done |]. injection Hk as <-. exact IH.
Qed.

Lemma load_paths_bound paths type parents :
  at_most (sum_list_with length paths) (load_paths leaf before tables fault casts_Get assign normalize_float g types paths type parents).
Proof.
  revert parents. induction paths as [|path paths IH]; intros parents; [apply at_most_ret |]. cbn [load_paths sum_list_with].
  apply at_most_bind; [apply load_path_bound | exact IH].
Qed.

(** One for the relation and one for every level of every nested name. *)
Definition spec_cost (spec : withSpec) : nat := 1 + sum_list_with (fun n => length (path_of n)) (w_nested spec).

Lemma load_spec_bound type parents d spec :
  at_most (spec_cost spec) (loadRelation leaf before tables fault casts_Get assign normalize_float g types type parents d (w_constraint spec) (w_nested spec)).
Proof.
  unfold spec_cost. apply load_level_bound. intros k Hk t kids. destruct (w_nested spec) as [|n ns]; [done |].
  assert (k = load_paths leaf before tables fault casts_Get assign normalize_float g types (map path_of (n :: ns))) as -> by congruence. clear Hk.
  apply (at_most_le (sum_list_with length (map path_of (n :: ns)))); [apply load_paths_bound |]. clear. induction (n :: ns) as [|x l IH]; [done |]. cbn [map sum_list_with]. lia.
Qed.

End Bound.

(** However many parents are loaded, eager loading runs at most one statement
    for every requested relation and one for every level of every nested name,
    also when a statement fails. *)
Theorem eager_statements {E} leaf before tables (fault : statement -> option E) casts_Get assign normalize_float g types type withs parents :
  at_most (sum_list_with spec_cost withs) (eagerLoad leaf before tables fault casts_Get assign normalize_float g types type withs parents).
Proof.
  assert (Hs : forall withs nodes, at_most (sum_list_with spec_cost withs) (load_specs leaf before tables fault casts_Get assign normalize_float g types type withs nodes)).
  { clear. induction withs as [|spec withs IH]; intros nodes; [apply at_most_ret |]. cbn [load_specs sum_list_with].
    destruct (declared types type (w_name spec)); [| eapply at_most_le; [apply at_most_lift | lia]].
    apply at_most_bind; [apply load_spec_bound | exact IH]. }
  unfold eagerLoad. destruct withs as [|spec withs], parents as [|p ps]; try (eapply at_most_le; [apply at_most_ret | lia]).
  destruct (t_relations _); [apply Hs | eapply at_most_le; [apply at_most_lift | lia]].
Qed.

(** [With] keeps one specification per relation and one of each nested name, in
    the order they first appear. *)
Lemma update_with_names head f withs : (forall spec, w_name (f spec) = w_name spec) ->
  map w_name (update_with head f withs) = appendUnique (map w_name withs) head.
Proof.
  intros Hf. unfold appendUnique. induction withs as [|spec withs IH]; simpl; [by rewrite Hf |].
  rewrite String.eqb_sym. destruct (String.eqb_spec head (w_name spec)); simpl; [by rewrite Hf |].
  rewrite IH. by destruct (existsb _ _).
Qed.

Lemma appendUnique_NoDup l v : NoDup l -> NoDup (appendUnique l v).
Proof.
  intros Hl. unfold appendUnique. destruct (existsb (String.eqb v) l) eqn:E; [done |]. apply list.NoDup_app. split_and!; [done | | apply NoDup_singleton].
  intros x Hx ->%list_elem_of_singleton. apply not_true_iff_false in E. apply E. apply existsb_exists. exists v. rewrite String.eqb_refl.
  by apply list_elem_of_In in Hx.
Qed.

Lemma With_distinct names withs : NoDup (map w_name withs) -> NoDup (map w_name (With names withs)).
Proof.
  revert withs. unfold With. induction names as [|name names IH]; intros withs Hw; simpl; [done |]. apply IH.
  destruct (cut_name name) as [head rest]. destruct (String.eqb head ""); [done |]. rewrite update_with_names; [by apply appendUnique_NoDup |].
  intros spec. unfold add_nested. by destruct (String.eqb rest "").
Qed.

(** ** A tree of categories *)

Definition category_type : gotype :=
  let self := TStruct "Category" false false false [] in
  TStruct "Category" false false false
    [SF "ID" true false (TInt true 64) "" "" ""; SF "ParentID" true false (TInt true 64) "" "" ""; SF "Name" true false TString "" "" "";
     SF "DeletedAt" true false (TPtr TTime) "" "" ""; SF "Children" true false (TSlice self) "" "" ""; SF "Parent" true false (TPtr self) "" "" "parent"].

Definition category : Schema := Eval vm_compute in Reflect.Parse [] category_type.

Definition category_defs : list (string * RelationDef) :=
  [("children", mkDef HasMany "Children" "Category" "parent_id" "" "" "" "" "" "");
   ("parent", mkDef BelongsTo "Parent" "Category" "parent_id" "" "" "" "" "" "");
   ("related", mkDef BelongsToMany "Children" "Category" "" "" "links" "left_id" "right_id" "" "")].

Definition category_row (id parent : Z) (name : string) (deleted : any) : dbrow :=
  {[ "id" := Int id; "parent_id" := Int parent; "name" := Str name; "deleted_at" := deleted ]}.

Definition categories : list dbrow :=
  [category_row 1 0 "root" Nil; category_row 2 1 "left" Nil; category_row 3 2 "leaf" Nil; category_row 4 1 "gone" (TimeV 5)].

Definition category_tables (t : string) : list dbrow :=
  if String.eqb t "links" then [ {[ "left_id" := Int 1; "right_id" := Int 4 ]} ] else categories.
Definition category_types (t : string) : mtype := mkType category "categories" (Some category_defs).

Definition no_fault : statement -> option unit := fun _ => None.
Definition category_of (r : dbrow) : model := match hydrate no_casts scan_any category r with Ok m => m | Err _ => ∅ end.
Definition root_model : model := category_of (category_row 1 0 "root" Nil).
Definition left_model : model := category_of (category_row 2 1 "left" Nil).

Definition load_roots (withs : list withSpec) : result rel_error (list node) :=
  (eagerLoad simple_leaf simple_before category_tables no_fault no_casts scan_any (fun n => Other n) Sql.mysql category_types "Category" withs [root_model] []).1.

(** The ids below a node along relation fields, by their index. *)
Fixpoint ids_at (path : list nat) (ns : list node) : list any :=
  match path with
  | [] => ids (map model_of ns)
  | i :: path => ids_at path (flat_map (fun n => match n with Node _ rels => default [] (rel_lookup [i] rels) end) ns)
  end.

Definition ids_of (r : result (@rel_error unit) (list node)) (path : list nat) : list any := match r with Ok ns => ids_at path ns | Err _ => [Nil] end.

Lemma categories_stored : keys_stored category_tables no_casts scan_any (fun n => Other n) category_of (HasManyOf "Category" category "categories" "parent_id").
Proof.
  split; [intros c Hc | eexists; split; [vm_compute; reflexivity |]; intros c Hc _]; change (c ∈ categories) in Hc;
    (repeat (apply elem_of_cons in Hc as [->|Hc]; [vm_compute; reflexivity |])); by apply not_elem_of_nil in Hc.
Qed.


(** ** What modelling showed *)

(** Two nested names that share their head load the shared relation twice, and the
    second load drops what the first one loaded below it. *)
Lemma shared_head_lost :
  let both := load_roots (With ["children.children.parent"; "children.children.children"] []) in
  let alone := load_roots (With ["children.children.parent"] []) in
  ids_of alone [4; 4; 5]%nat = [Int 2] /\ ids_of both [4; 4; 5]%nat = [] /\ ids_of both [4; 4]%nat = [Int 3].
Proof. vm_compute. done. Qed.

(** A constraint with an OR escapes the soft-delete scope of the related model. *)
Lemma constraint_or_leaks :
  let gone := fun q => add_where (cmp bOr "name" OpEq [Str "gone"]) q in
  ids_of (load_roots (WithWhere "children" gone [])) [4]%nat = [Int 2; Int 4] /\
  ids_of (load_roots (With ["children"] [])) [4]%nat = [Int 2].
Proof. vm_compute. done. Qed.

(** A relation through a pivot table is not scoped at all. *)
Lemma pivot_reads_trashed : ids_of (load_roots (With ["related"] [])) [4]%nat = [Int 4].
Proof. vm_compute. done. Qed.

(** A text key that looks like a number is looked up as a number: a database that
    tells the two apart finds no row. *)
Lemma numeric_text_key_lost leaf before `{!Database leaf before} r c :
  get r c = Str "7" -> normalizeKey (fun n => Other n) (get r c) = Int 7 /\
  leaf r (cmp bAnd c OpIn [normalizeKey (fun n => Other n) (get r c)]) = false.
Proof.
  intros H. rewrite H. split; [reflexivity |]. apply not_true_iff_false. intros Hl.
  apply (db_in (leaf := leaf) (before := before) bAnd r c [Int 7] eq_refl) in Hl. rewrite H in Hl. apply list_elem_of_singleton in Hl. discriminate.
Qed.
