(* ===== verification/Mail.v ===== *)
(** Email messages: [src/mail/mail.go].

    - [Message] is the Go struct; its header map is listed in the order its range
      takes.  [Encode] writes the bytes of the message, [Send] is what the SMTP
      mailer hands to [smtp.SendMail].
    - [parse_address], [parse_list] (the canonical forms of [net/mail]),
      [q_encode] (the Q encoding of [mime]), [type_by_extension], the date and the
      random strings are arguments.
    - [part_header] and [close_parts] are what [multipart.Writer] writes.
    - [header_lines] and [qp_decode] are the readers of RFC 5322 and RFC 2045, the
      specifications the writers are proved against. *)

From Stdlib Require Import ZArith Lia Ascii.
From Stdlib Require String.
From stdpp Require Import base strings list numbers.
From S2P Require Import Prelude GoRt GoStrconv GoStrings GoUrl.

#[local] Set Warnings "-register-all".
#[local] Open Scope string_scope.
#[local] Open Scope list_scope.
#[local] Open Scope Z_scope.

Definition CR : ascii := ascii_of 13.
Definition LF : ascii := ascii_of 10.
Definition crlf : string := String CR (String LF EmptyString).
Definition quote : string := String (ascii_of 34) EmptyString.

Record Attachment := mkAttachment { Filename : string; ContentType : string; AData : string }.

Record Message := mkMessage {
  From : string; To : list string; Cc : list string; Bcc : list string; ReplyTo : string; Subject : string;
  Text : string; HTML : string; Headers : list (string * string); Attachments : list Attachment }.

Inductive mail_error := ErrEmptyRecipients | ErrHeaderInjection.

(** ** Building *)

Definition NewMessage : Message := mkMessage "" [] [] [] "" "" "" "" [] [].

Definition with_from (a : string) (m : Message) : Message :=
  mkMessage a (To m) (Cc m) (Bcc m) (ReplyTo m) (Subject m) (Text m) (HTML m) (Headers m) (Attachments m).
Definition with_lists (to cc bcc : list string) (m : Message) : Message :=
  mkMessage (From m) to cc bcc (ReplyTo m) (Subject m) (Text m) (HTML m) (Headers m) (Attachments m).
Definition add_to (a : list string) (m : Message) : Message := with_lists (To m ++ a) (Cc m) (Bcc m) m.
Definition add_cc (a : list string) (m : Message) : Message := with_lists (To m) (Cc m ++ a) (Bcc m) m.
Definition add_bcc (a : list string) (m : Message) : Message := with_lists (To m) (Cc m) (Bcc m ++ a) m.
Definition with_reply_to (a : string) (m : Message) : Message :=
  mkMessage (From m) (To m) (Cc m) (Bcc m) a (Subject m) (Text m) (HTML m) (Headers m) (Attachments m).
Definition with_subject (s : string) (m : Message) : Message :=
  mkMessage (From m) (To m) (Cc m) (Bcc m) (ReplyTo m) s (Text m) (HTML m) (Headers m) (Attachments m).
Definition with_text (s : string) (m : Message) : Message :=
  mkMessage (From m) (To m) (Cc m) (Bcc m) (ReplyTo m) (Subject m) s (HTML m) (Headers m) (Attachments m).
Definition with_html (s : string) (m : Message) : Message :=
  mkMessage (From m) (To m) (Cc m) (Bcc m) (ReplyTo m) (Subject m) (Text m) s (Headers m) (Attachments m).
Definition with_headers (h : list (string * string)) (m : Message) : Message :=
  mkMessage (From m) (To m) (Cc m) (Bcc m) (ReplyTo m) (Subject m) (Text m) (HTML m) h (Attachments m).

Fixpoint set_header (k v : string) (h : list (string * string)) : list (string * string) :=
  match h with [] => [(k, v)] | (k', v') :: h => if String.eqb k k' then (k, v) :: h else (k', v') :: set_header k v h end.
Definition Header (k v : string) (m : Message) : Message := with_headers (set_header k v (Headers m)) m.

(** [filepath.Ext]. *)
Fixpoint ext_rev (acc s : string) : string :=
  match s with
  | EmptyString => ""
  | String c s => if Ascii.eqb c "/" then "" else if Ascii.eqb c "." then String c acc else ext_rev (String c acc) s
  end.
Definition Ext (path : string) : string := ext_rev "" (String.string_of_list_ascii (rev (String.list_ascii_of_string path))).

Definition attachment (type_by_extension : string -> string) (filename data : string) (contentType : option string) : Attachment :=
  let detected := let t := type_by_extension (Ext filename) in if String.eqb t "" then "application/octet-stream" else t in
  mkAttachment filename (match contentType with Some t => if String.eqb t "" then detected else t | None => detected end) data.
Definition Attach (type_by_extension : string -> string) (filename data : string) (contentType : option string) (m : Message) : Message :=
  mkMessage (From m) (To m) (Cc m) (Bcc m) (ReplyTo m) (Subject m) (Text m) (HTML m) (Headers m)
    (Attachments m ++ [attachment type_by_extension filename data contentType]).

Definition Recipients (m : Message) : list string := To m ++ Cc m ++ Bcc m.

(** ** Encodings *)

Definition containsCRLF (s : string) : bool := has_byte CR s || has_byte LF s.

(** Whether [quotedPrintable] escapes the byte [c] before [s]. *)
Definition qp_escaped (c : ascii) (s : string) : bool :=
  let n := byte_of c in
  (n =? 61) || (n <? 32) || (126 <? n)
  || ((n =? 32) && match s with EmptyString => true | String d _ => Ascii.eqb d LF end).

Definition qp_token (c : ascii) (s : string) : string :=
  if qp_escaped c s then String "=" (String (upper_hex (byte_of c / 16)) (String (upper_hex (byte_of c mod 16)) EmptyString))
  else String c EmptyString.

Definition strlen (s : string) : Z := Z.of_nat (String.length s).

Fixpoint qp_from (lineLen : Z) (s : string) : string :=
  match s with
  | EmptyString => EmptyString
  | String c s =>
      if Ascii.eqb c LF then crlf +:+ qp_from 0 s
      else if Ascii.eqb c CR then qp_from lineLen s
      else
        let token := qp_token c s in
        if 75 <? lineLen + strlen token then ("=" +:+ crlf +:+ token +:+ qp_from (strlen token) s)%string
        else (token +:+ qp_from (lineLen + strlen token) s)%string
  end.

Definition quotedPrintable (s : string) : string := qp_from 0 s.

Definition std_char (n : Z) : ascii :=
  ascii_of (if n <? 26 then 65 + n else if n <? 52 then 71 + n else if n <? 62 then n - 4 else if n =? 62 then 43 else 47).

(** [base64.StdEncoding]. *)
Fixpoint base64 (s : string) : string :=
  match s with
  | EmptyString => EmptyString
  | String a EmptyString =>
      String (std_char (byte_of a / 4)) (String (std_char (byte_of a mod 4 * 16)) "==")
  | String a (String b EmptyString) =>
      String (std_char (byte_of a / 4)) (String (std_char (byte_of a mod 4 * 16 + byte_of b / 16)) (String (std_char (byte_of b mod 16 * 4)) "="))
  | String a (String b (String c s)) =>
      String (std_char (byte_of a / 4)) (String (std_char (byte_of a mod 4 * 16 + byte_of b / 16))
        (String (std_char (byte_of b mod 16 * 4 + byte_of c / 64)) (String (std_char (byte_of c mod 64)) (base64 s))))
  end.

(** Runs of 76 characters, each ended by CRLF. *)
Fixpoint lines76 (fuel : nat) (s : string) : string :=
  match fuel, s with
  | S fuel, String _ _ => (String.substring 0 76 s +:+ crlf +:+ lines76 fuel (skip_bytes 76 s))%string
  | _, _ => EmptyString
  end.

(** ** Writing *)

Definition writeHeader (k v : string) : string := (k +:+ ": " +:+ v +:+ crlf)%string.

(** [multipart.Writer.CreatePart] (the keys are already in order) and [Close]. *)
Definition part_header (first : bool) (boundary : string) (headers : list (string * string)) : string :=
  ((if first then "" else crlf) +:+ "--" +:+ boundary +:+ crlf
    +:+ fold_right (fun kv s => writeHeader kv.1 kv.2 +:+ s) "" headers +:+ crlf)%string.
Definition close_parts (boundary : string) : string := (crlf +:+ "--" +:+ boundary +:+ "--" +:+ crlf)%string.

Definition charset : string := ("; charset=" +:+ quote +:+ "utf-8" +:+ quote)%string.
Definition boundary_of (kind boundary : string) : string := (kind +:+ "; boundary=" +:+ quote +:+ boundary +:+ quote)%string.

Definition text_part (first : bool) (boundary ct body : string) : string :=
  (part_header first boundary [("Content-Transfer-Encoding", "quoted-printable"); ("Content-Type", ct +:+ charset)]
    +:+ quotedPrintable body)%string.

Definition alt_part (boundary ct content : string) : string :=
  ("--" +:+ boundary +:+ crlf +:+ "Content-Type: " +:+ ct +:+ charset +:+ crlf
    +:+ "Content-Transfer-Encoding: quoted-printable" +:+ crlf +:+ crlf +:+ quotedPrintable content +:+ crlf)%string.

Definition writeBody (boundary alt : string) (m : Message) : string :=
  if negb (String.eqb (Text m) "") && negb (String.eqb (HTML m) "") then
    (part_header true boundary [("Content-Type", boundary_of "multipart/alternative" alt)]
      +:+ alt_part alt "text/plain" (Text m) +:+ alt_part alt "text/html" (HTML m) +:+ "--" +:+ alt +:+ "--" +:+ crlf)%string
  else if negb (String.eqb (HTML m) "") then text_part true boundary "text/html" (HTML m)
  else text_part true boundary "text/plain" (Text m).

Definition attachment_part (boundary : string) (a : Attachment) : string :=
  (part_header false boundary
     [("Content-Disposition", "attachment; filename=" +:+ quote +:+ Filename a +:+ quote);
      ("Content-Transfer-Encoding", "base64");
      ("Content-Type", ContentType a +:+ "; name=" +:+ quote +:+ Filename a +:+ quote)]
    +:+ lines76 (String.length (base64 (AData a))) (base64 (AData a)))%string.

Definition writeAttachments (boundary : string) (atts : list Attachment) : string :=
  fold_right (fun a s => attachment_part boundary a +:+ s)%string "" atts.

(** The part after the last [@], without closing brackets; [localhost] without one. *)
Definition domain_of (from : string) : string :=
  match rev (Split "@" from) with
  | domain :: local :: rest =>
      if String.eqb local "" && match rest with [] => true | _ => false end then "localhost" else TrimRight ">" domain
  | _ => "localhost"
  end.

Section Encode.
Context (parse_address : string -> option string) (parse_list : string -> option (list string)) (q_encode : string -> string).
Context (date id boundary alt : string).

Definition canonAddress (s : string) : result mail_error string :=
  if containsCRLF s then Err ErrHeaderInjection
  else match parse_address s with Some a => Ok a | None => Err ErrHeaderInjection end.

Fixpoint canonAddressList (l : list string) : result mail_error (list string) :=
  match l with
  | [] => Ok []
  | s :: l =>
      if String.eqb s "" then canonAddressList l
      else if containsCRLF s then Err ErrHeaderInjection
      else match parse_list s with
           | None => Err ErrHeaderInjection
           | Some addrs => match canonAddressList l with Ok out => Ok (addrs ++ out) | Err e => Err e end
           end
  end.

Definition canon_optional (s : string) : result mail_error string := if String.eqb s "" then Ok s else canonAddress s.

Definition sanitizeHeaders (m : Message) : result mail_error Message :=
  match canon_optional (From m) with
  | Err e => Err e
  | Ok from =>
      match canonAddressList (To m) with
      | Err e => Err e
      | Ok to =>
          match canonAddressList (Cc m) with
          | Err e => Err e
          | Ok cc =>
              match canonAddressList (Bcc m) with
              | Err e => Err e
              | Ok bcc =>
                  match canon_optional (ReplyTo m) with
                  | Err e => Err e
                  | Ok reply =>
                      if existsb (fun kv => containsCRLF kv.1 || containsCRLF kv.2) (Headers m) then Err ErrHeaderInjection
                      else Ok (with_reply_to reply (with_from from (with_lists to cc bcc m)))
                  end
              end
          end
      end
  end.

Definition generateMessageID (from : string) : string := ("<" +:+ id +:+ "@" +:+ domain_of from +:+ ">")%string.

(** The fields of the header block, in order. *)
Definition common_headers (m : Message) : list (string * string) :=
  [("From", From m)] ++ (match To m with [] => [] | l => [("To", Join ", " l)] end)
    ++ (match Cc m with [] => [] | l => [("Cc", Join ", " l)] end)
    ++ (if String.eqb (ReplyTo m) "" then [] else [("Reply-To", ReplyTo m)])
    ++ [("Subject", q_encode (Subject m)); ("MIME-Version", "1.0"); ("Date", date); ("Message-ID", generateMessageID (From m))]
    ++ Headers m.

Definition write_fields (fields : list (string * string)) : string := fold_right (fun kv s => writeHeader kv.1 kv.2 +:+ s)%string "" fields.

Definition hasBoth (m : Message) : bool := negb (String.eqb (Text m) "") && negb (String.eqb (HTML m) "").

(** The fields and the text after the empty line. *)
Definition content (m : Message) : list (string * string) * string :=
  match Attachments m with
  | _ :: _ =>
      ([("Content-Type", boundary_of "multipart/mixed" boundary)],
       (writeBody boundary alt m +:+ writeAttachments boundary (Attachments m) +:+ close_parts boundary)%string)
  | [] =>
      if hasBoth m then
        ([("Content-Type", boundary_of "multipart/alternative" boundary)],
         (text_part true boundary "text/plain" (Text m) +:+ text_part false boundary "text/html" (HTML m) +:+ close_parts boundary)%string)
      else
        let '(ct, body) := if negb (String.eqb (HTML m) "") then ("text/html", HTML m) else ("text/plain", Text m) in
        ([("Content-Type", ct +:+ charset); ("Content-Transfer-Encoding", "quoted-printable")], quotedPrintable body)
  end.

Definition Encode (m : Message) : result mail_error string :=
  match Recipients m with
  | [] => Err ErrEmptyRecipients
  | _ =>
      match sanitizeHeaders m with
      | Err e => Err e
      | Ok m => let '(fields, body) := content m in Ok (write_fields (common_headers m ++ fields) +:+ crlf +:+ body)%string
      end
  end.

(** What [smtp.SendMail] is given: the sender, the recipients and the data. *)
Definition Send (default_from : string) (m : Message) : result mail_error (string * list string * string) :=
  let m := if String.eqb (From m) "" then with_from default_from m else m in
  match Encode m with Ok body => Ok (From m, Recipients m, body) | Err e => Err e end.
End Encode.

(** ** The mailer of tests *)

Definition log_Send (m : Message) (sent : list Message) : result mail_error unit * list Message :=
  match Recipients m with [] => (Err ErrEmptyRecipients, sent) | _ => (Ok tt, sent ++ [m]) end.
Definition log_Last (sent : list Message) : Message := default (mkMessage "" [] [] [] "" "" "" "" [] []) (list.last sent).
Definition log_Count (sent : list Message) : nat := length sent.
Definition log_Reset (sent : list Message) : list Message := [].

(** ** The readers *)

(** RFC 2045: an [=] at the end of a line continues it, [=] with two digits is a
    byte; [None] on anything else after [=]. *)
Fixpoint qp_decode (s : string) : option string :=
  match s with
  | EmptyString => Some EmptyString
  | String c rest =>
      if Ascii.eqb c "=" then
        match rest with
        | String h (String l rest) =>
            if Ascii.eqb h CR && Ascii.eqb l LF then qp_decode rest
            else match unhex h, unhex l with
                 | Some h, Some l => option_map (String (ascii_of (16 * h + l))) (qp_decode rest)
                 | _, _ => None
                 end
        | _ => None
        end
      else option_map (String c) (qp_decode rest)
  end.

(** The text with its line ends written as CRLF. *)
Fixpoint canonical_text (s : string) : string :=
  match s with
  | EmptyString => EmptyString
  | String c s =>
      if Ascii.eqb c LF then (crlf +:+ canonical_text s)%string
      else if Ascii.eqb c CR then canonical_text s
      else String c (canonical_text s)
  end.

(** The lines of a text, without their CRLF. *)
Fixpoint lines_of (s : string) : list string :=
  match s with
  | EmptyString => [EmptyString]
  | String c s' =>
      match s' with
      | String d rest =>
          if Ascii.eqb c CR && Ascii.eqb d LF then EmptyString :: lines_of rest
          else match lines_of s' with x :: xs => String c x :: xs | [] => [String c EmptyString] end
      | EmptyString => [String c EmptyString]
      end
  end.

(** RFC 5322: the header block ends at the first empty line. *)
Fixpoint until_empty (l : list string) : list string :=
  match l with [] => [] | x :: l => if String.eqb x "" then [] else x :: until_empty l end.
Definition header_lines (s : string) : list string := until_empty (lines_of s).

(** ** Quoted-printable *)

Lemma byte_split c : exists h l, 0 <= h <= 15 /\ 0 <= l <= 15 /\ byte_of c / 16 = h /\ byte_of c mod 16 = l /\ ascii_of (16 * h + l) = c.
Proof.
  assert (Hb : 0 <= byte_of c < 256) by (unfold byte_of; pose proof (N_ascii_bounded c); lia).
  pose proof (Z.div_mod (byte_of c) 16 ltac:(lia)) as Hd. pose proof (Z.mod_pos_bound (byte_of c) 16 ltac:(lia)).
  exists (byte_of c / 16), (byte_of c mod 16). split_and!; try lia.
  rewrite <- Hd. unfold ascii_of, byte_of. by rewrite N2Z.id, ascii_N_embedding.
Qed.

Lemma unhex_upper d : 0 <= d <= 15 -> unhex (upper_hex d) = Some d /\ upper_hex d <> CR.
Proof. intros H. assert (In d (map Z.of_nat (seq 0 16))) as Hi by (apply in_map_iff; exists (Z.to_nat d); rewrite in_seq; lia).
  simpl in Hi. by repeat (destruct Hi as [<-|Hi]; [split; [reflexivity | discriminate] |]).
Qed.

(** A token reads back as its byte, and is one to three printable characters. *)
Lemma token_reads c s rest : c <> LF -> c <> CR -> qp_decode (qp_token c s +:+ rest)%string = option_map (String c) (qp_decode rest).
Proof.
  intros Hl Hr. unfold qp_token. destruct (qp_escaped c s) eqn:He.
  - destruct (byte_split c) as (h & l & Hh & Hl' & -> & -> & Hc). destruct (unhex_upper h Hh) as [H1 H2], (unhex_upper l Hl') as [H3 _].
    change ((String "=" (String (upper_hex h) (String (upper_hex l) EmptyString)) +:+ rest)%string) with (String "=" (String (upper_hex h) (String (upper_hex l) rest))).
    cbn [qp_decode]. rewrite Ascii.eqb_refl. apply Ascii.eqb_neq in H2. rewrite H2. cbn [andb]. by rewrite H1, H3, Hc.
  - change ((String c EmptyString +:+ rest)%string) with (String c rest). cbn [qp_decode].
    destruct (Ascii.eqb_spec c "="); [by subst; cbn in He |]. done.
Qed.

Lemma decode_crlf rest : qp_decode (crlf +:+ rest)%string = option_map (fun s => crlf +:+ s)%string (qp_decode rest).
Proof. change ((crlf +:+ rest)%string) with (String CR (String LF rest)). cbn. by destruct (qp_decode rest). Qed.

Lemma decode_soft rest : qp_decode ("=" +:+ crlf +:+ rest)%string = qp_decode rest.
Proof. reflexivity. Qed.

Lemma qp_from_reads n s : qp_decode (qp_from n s) = Some (canonical_text s).
Proof.
  revert n. induction s as [|c s IH]; intros n; [done |]. cbn [qp_from canonical_text].
  destruct (Ascii.eqb_spec c LF) as [->|Hl]; [by rewrite decode_crlf, IH |]. destruct (Ascii.eqb_spec c CR) as [->|Hr]; [done |].
  cbv zeta. destruct (75 <? _); [rewrite decode_soft |]; by rewrite token_reads, IH.
Qed.

Definition printable (s : string) : bool := forallb (fun c => (32 <=? byte_of c) && (byte_of c <=? 126)) (String.list_ascii_of_string s).

Lemma printable_app s t : printable (s +:+ t)%string = printable s && printable t.
Proof.
  unfold printable. induction s as [|c s IH]; [done |]. change (String c s +:+ t)%string with (String c (s +:+ t)%string).
  cbn [String.list_ascii_of_string forallb]. by rewrite IH, andb_assoc.
Qed.

Lemma lines_crlf s : lines_of (crlf +:+ s)%string = "" :: lines_of s.
Proof. change ((crlf +:+ s)%string) with (String CR (String LF s)). done. Qed.

Lemma lines_nonempty s : exists x xs, lines_of s = x :: xs.
Proof.
  destruct s as [|c [|d s]]; [by eexists _, _ | by eexists _, _ |]. cbn [lines_of]. destruct (_ && _); [by eexists _, _ |].
  match goal with |- context [match ?l with [] => _ | _ => _ end] => destruct l end; by eexists _, _.
Qed.

Lemma lines_cons c s x xs : c <> CR -> lines_of s = x :: xs -> lines_of (String c s) = String c x :: xs.
Proof.
  intros Hc Hs. destruct s as [|d s]; [by injection Hs as <- <- |]. apply Ascii.eqb_neq in Hc.
  change (lines_of (String c (String d s))) with
    (if Ascii.eqb c CR && Ascii.eqb d LF then EmptyString :: lines_of s
     else match lines_of (String d s) with x :: xs => String c x :: xs | [] => [String c EmptyString] end).
  by rewrite Hc, Hs.
Qed.

(** A text without CR lengthens the first line of what follows. *)
Lemma lines_app t s x xs : has_byte CR t = false -> lines_of s = x :: xs -> lines_of (t +:+ s)%string = (t +:+ x)%string :: xs.
Proof.
  induction t as [|c t IH]; [done |]. cbn [has_byte]. intros [Hc Ht]%orb_false_elim Hs.
  change (String c t +:+ s)%string with (String c (t +:+ s)%string). apply lines_cons; [by apply Ascii.eqb_neq | by apply IH].
Qed.

Lemma token_fits c s : c <> LF -> c <> CR ->
  1 <= strlen (qp_token c s) <= 3 /\ has_byte CR (qp_token c s) = false /\ printable (qp_token c s) = true.
Proof.
  intros Hl Hr. unfold qp_token. destruct (qp_escaped c s) eqn:He.
  - split; [done |]. destruct (byte_split c) as (h & l & Hh & Hl' & -> & -> & _).
    assert (Hup : forall d, 0 <= d <= 15 -> Ascii.eqb (upper_hex d) CR = false /\ (32 <=? byte_of (upper_hex d)) && (byte_of (upper_hex d) <=? 126) = true).
    { intros d Hd. assert (In d (map Z.of_nat (seq 0 16))) as Hi by (apply in_map_iff; exists (Z.to_nat d); rewrite in_seq; lia).
      simpl in Hi. by repeat (destruct Hi as [<-|Hi]; [done |]). }
    destruct (Hup h Hh) as [A1 A2], (Hup l Hl') as [B1 B2]. cbn [has_byte]. rewrite A1, B1. split; [done |].
    unfold printable. cbn [String.list_ascii_of_string forallb]. by rewrite A2, B2.
  - split; [done |]. unfold qp_escaped in He. repeat (apply orb_false_elim in He as [He ?]). apply Ascii.eqb_neq in Hr.
    cbn [has_byte]. rewrite Hr. split; [done |]. unfold printable. cbn [String.list_ascii_of_string forallb].
    rewrite andb_true_r. apply andb_true_intro. split; apply Z.leb_le; lia.
Qed.

(** A line a mail server accepts as it is. *)
Definition fit_line (l : string) : Prop := strlen l <= 76 /\ printable l = true.

Lemma strlen_app s t : strlen (s +:+ t)%string = strlen s + strlen t.
Proof. unfold strlen. rewrite str_length_app. lia. Qed.

Lemma qp_from_lines n s : 0 <= n <= 75 ->
  exists x xs, lines_of (qp_from n s) = x :: xs /\ n + strlen x <= 76 /\ printable x = true /\ List.Forall fit_line xs.
Proof.
  revert n. induction s as [|c s IH]; intros n Hn; cbn [qp_from].
  { exists "", []. split_and!; [done | unfold strlen; simpl; lia | done | constructor]. }
  destruct (Ascii.eqb_spec c LF) as [->|Hl].
  { destruct (IH 0 ltac:(lia)) as (x & xs & Hx & H1 & H2 & H3). exists "", (x :: xs). rewrite lines_crlf, Hx.
    split_and!; [done | unfold strlen; simpl; lia | done | constructor; [|done]; split; [lia | done]]. }
  destruct (Ascii.eqb_spec c CR) as [->|Hr]; [by apply IH |]. cbv zeta.
  destruct (token_fits c s Hl Hr) as (Ht & Hcr & Hp). destruct (Z.ltb_spec 75 (n + strlen (qp_token c s))).
  - destruct (IH (strlen (qp_token c s)) ltac:(lia)) as (x & xs & Hx & H1 & H2 & H3).
    exists "=", ((qp_token c s +:+ x)%string :: xs). split_and!.
    + change (("=" +:+ crlf +:+ qp_token c s +:+ qp_from (strlen (qp_token c s)) s)%string) with
        (String "=" (crlf +:+ (qp_token c s +:+ qp_from (strlen (qp_token c s)) s))%string).
      apply lines_cons; [done |]. rewrite lines_crlf. by rewrite (lines_app _ _ x xs).
    + unfold strlen. simpl. lia.
    + done.
    + constructor; [| done]. split; [rewrite strlen_app; lia | by rewrite printable_app, Hp].
  - destruct (IH (n + strlen (qp_token c s)) ltac:(lia)) as (x & xs & Hx & H1 & H2 & H3).
    exists (qp_token c s +:+ x)%string, xs. rewrite (lines_app _ _ x xs) by done.
    split_and!; [done | rewrite strlen_app; lia | by rewrite printable_app, Hp | done].
Qed.

(** The body encoding loses nothing and fits the wire: whatever bytes the text
    has, a quoted-printable reader gets it back with its line ends written as
    CRLF, and every encoded line is printable ASCII of at most 76 characters. *)
Theorem quotedPrintable_reads s :
  qp_decode (quotedPrintable s) = Some (canonical_text s) /\ List.Forall fit_line (lines_of (quotedPrintable s)).
Proof.
  split; [apply qp_from_reads |]. destruct (qp_from_lines 0 s ltac:(lia)) as (x & xs & Hx & H1 & H2 & H3). unfold quotedPrintable.
  rewrite Hx. constructor; [|done]. split; [lia | done].
Qed.

(** ** The header block *)

Lemma crlf_app s t : containsCRLF (s +:+ t)%string = containsCRLF s || containsCRLF t.
Proof. unfold containsCRLF. rewrite !has_byte_app. by destruct (has_byte CR s), (has_byte CR t), (has_byte LF s), (has_byte LF t). Qed.

Lemma crlf_join l : List.Forall (fun s => containsCRLF s = false) l -> containsCRLF (Join ", " l) = false.
Proof.
  induction 1 as [|x l Hx Hl IH]; [done |]. destruct l as [|y l]; [done |]. cbn [Join]. rewrite !crlf_app, Hx. exact IH.
Qed.

Lemma has_byte_split x sep s : has_byte x s = false -> List.Forall (fun t => has_byte x t = false) (Split sep s).
Proof.
  induction s as [|c s IH]; [by repeat constructor |]. cbn [has_byte Split]. intros [Hc Hs]%orb_false_elim. specialize (IH Hs).
  destruct (Ascii.eqb c sep); [by constructor |]. destruct (Split sep s) as [|t ts]; [repeat constructor; simpl; by rewrite Hc |].
  apply list.Forall_cons in IH as [Ht Hts]. constructor; [| done]. simpl. by rewrite Hc, Ht.
Qed.

Lemma has_byte_trim x y s : has_byte x s = false -> has_byte x (TrimRight y s) = false.
Proof.
  induction s as [|c s IH]; [done |]. cbn [has_byte]. intros [Hc Hs]%orb_false_elim. specialize (IH Hs). cbn [TrimRight].
  destruct (TrimRight y s) as [|d t]; [destruct (Ascii.eqb c y); [done | cbn [has_byte]; by rewrite Hc] |]. cbn [has_byte] in *. by rewrite Hc, IH.
Qed.

Lemma crlf_domain from : containsCRLF from = false -> containsCRLF (domain_of from) = false.
Proof.
  unfold containsCRLF. intros [H1 H2]%orb_false_elim. unfold domain_of.
  pose proof (has_byte_split CR "@" from H1) as F1. pose proof (has_byte_split LF "@" from H2) as F2.
  rewrite list.Forall_forall in F1, F2. destruct (rev (Split "@" from)) as [|domain [|local rest]] eqn:E; [done | done |].
  destruct (_ && _); [done |]. assert (Hin : domain ∈ Split "@" from) by (apply list_elem_of_In, in_rev; rewrite E; by left).
  by rewrite !has_byte_trim by (apply F1, Hin || apply F2, Hin).
Qed.

Definition field_line (kv : string * string) : string := (kv.1 +:+ ": " +:+ kv.2)%string.
Definition clean_field (kv : string * string) : Prop := containsCRLF kv.1 = false /\ containsCRLF kv.2 = false.

(** A reader finds the fields that were written, and nothing else. *)
Lemma fields_read fields body : List.Forall clean_field fields ->
  header_lines (write_fields fields +:+ crlf +:+ body)%string = map field_line fields.
Proof.
  intros Hf. unfold header_lines, write_fields. induction Hf as [|kv fields [Hk Hv] _ IH].
  { change (((fold_right _ "" []) +:+ crlf +:+ body)%string) with (crlf +:+ body)%string. by rewrite lines_crlf. }
  cbn [fold_right map]. unfold writeHeader.
  assert (Hassoc : ((kv.1 +:+ ": " +:+ kv.2 +:+ crlf) +:+ fold_right (fun kv s => writeHeader kv.1 kv.2 +:+ s) "" fields)%string +:+ (crlf +:+ body)%string
    = (field_line kv +:+ (crlf +:+ (fold_right (fun kv s => writeHeader kv.1 kv.2 +:+ s) "" fields +:+ crlf +:+ body)))%string)
    by (unfold field_line; by rewrite !str_app_assoc).
  unfold writeHeader in Hassoc. rewrite Hassoc.
  assert (Hc : containsCRLF (field_line kv) = false) by (unfold field_line; by rewrite !crlf_app, Hk, Hv).
  apply orb_false_elim in Hc as [Hc _]. erewrite lines_app; [| exact Hc | apply lines_crlf]. rewrite str_app_empty. cbn [until_empty].
  assert (Hne : String.eqb (field_line kv) "" = false) by (unfold field_line; by destruct (kv.1)). rewrite Hne. f_equal. exact IH.
Qed.

(** What [net/mail], [mime] and the clock promise: what they return goes on one
    header line. *)
Record one_line (parse_address : string -> option string) (parse_list : string -> option (list string)) (q_encode : string -> string)
    (date id boundary alt : string) : Prop := {
  ol_address s a : parse_address s = Some a -> containsCRLF a = false;
  ol_list s l : parse_list s = Some l -> List.Forall (fun a => containsCRLF a = false) l;
  ol_subject s : containsCRLF (q_encode s) = false;
  ol_date : containsCRLF date = false;
  ol_id : containsCRLF id = false;
  ol_boundary : containsCRLF boundary = false }.

Section Injection.
Context (parse_address : string -> option string) (parse_list : string -> option (list string)) (q_encode : string -> string).
Context (date id boundary alt : string) (H : one_line parse_address parse_list q_encode date id boundary alt).

Lemma canon_clean s a : canon_optional parse_address s = Ok a -> containsCRLF a = false.
Proof.
  unfold canon_optional, canonAddress. destruct (String.eqb_spec s ""); [by intros [= <-]; subst |].
  destruct (containsCRLF s); [done |]. destruct (parse_address s) eqn:E; [| done]. intros [= <-]. eapply (ol_address _ _ _ _ _ _ _ H), E.
Qed.

Lemma canon_list_clean l out : canonAddressList parse_list l = Ok out -> List.Forall (fun a => containsCRLF a = false) out.
Proof.
  revert out. induction l as [|s l IH]; intros out; cbn [canonAddressList]; [by intros [= <-] |].
  destruct (String.eqb s ""); [apply IH |]. destruct (containsCRLF s); [done |]. destruct (parse_list s) as [addrs|] eqn:E; [| done].
  destruct (canonAddressList parse_list l) as [rest|]; [| done]. intros [= <-]. apply Forall_app_2; [eapply (ol_list _ _ _ _ _ _ _ H), E | by apply IH].
Qed.

(** A sanitized message. *)
Record sanitized (m m' : Message) : Prop := {
  sa_from : containsCRLF (From m') = false;
  sa_to : List.Forall (fun a => containsCRLF a = false) (To m');
  sa_cc : List.Forall (fun a => containsCRLF a = false) (Cc m');
  sa_reply : containsCRLF (ReplyTo m') = false;
  sa_headers : List.Forall clean_field (Headers m');
  sa_same : Headers m' = Headers m /\ Text m' = Text m /\ HTML m' = HTML m /\ Attachments m' = Attachments m /\ Subject m' = Subject m }.

Lemma sanitize_spec m m' : sanitizeHeaders parse_address parse_list m = Ok m' -> sanitized m m'.
Proof.
  unfold sanitizeHeaders. destruct (canon_optional parse_address (From m)) as [from|] eqn:E1; [| done].
  destruct (canonAddressList parse_list (To m)) as [to|] eqn:E2; [| done]. destruct (canonAddressList parse_list (Cc m)) as [cc|] eqn:E3; [| done].
  destruct (canonAddressList parse_list (Bcc m)) as [bcc|] eqn:E4; [| done].
  destruct (canon_optional parse_address (ReplyTo m)) as [reply|] eqn:E5; [| done]. destruct (existsb _ (Headers m)) eqn:E6; [done |]. intros [= <-].
  split; simpl; try done.
  - by eapply canon_clean.
  - by eapply canon_list_clean.
  - by eapply canon_list_clean.
  - by eapply canon_clean.
  - apply list.Forall_forall. intros kv Hin. apply list_elem_of_In in Hin. split; apply not_true_iff_false; intros Hc;
      apply not_true_iff_false in E6; apply E6, existsb_exists; exists kv; rewrite Hc; by rewrite ?orb_true_r.
Qed.

Lemma common_clean m m' : sanitized m m' -> List.Forall clean_field (common_headers q_encode date id m').
Proof.
  intros [Hf Ht Hc Hr Hh _]. unfold common_headers. repeat apply Forall_app_2.
  - by repeat constructor.
  - destruct (To m') as [|a l] eqn:E; [constructor |]. repeat constructor. by apply crlf_join.
  - destruct (Cc m') as [|a l] eqn:E; [constructor |]. repeat constructor. by apply crlf_join.
  - destruct (String.eqb _ ""); by repeat constructor.
  - repeat constructor; simpl; [apply (ol_subject _ _ _ _ _ _ _ H) | apply (ol_date _ _ _ _ _ _ _ H) |].
    unfold generateMessageID. by rewrite !crlf_app, (ol_id _ _ _ _ _ _ _ H), crlf_domain.
  - done.
Qed.

Lemma content_clean m : List.Forall clean_field (content boundary alt m).1.
Proof.
  assert (Hb : forall k, containsCRLF k = false -> containsCRLF (boundary_of k boundary) = false).
  { intros k Hk. unfold boundary_of. by rewrite !crlf_app, Hk, (ol_boundary _ _ _ _ _ _ _ H). }
  unfold content. destruct (Attachments m) as [|a l]; [| repeat constructor; by apply Hb].
  destruct (hasBoth m); [repeat constructor; by apply Hb |]. destruct (negb _); by repeat constructor.
Qed.
End Injection.

Definition standard_fields : list string :=
  ["From"; "To"; "Cc"; "Reply-To"; "Subject"; "MIME-Version"; "Date"; "Message-ID"; "Content-Type"; "Content-Transfer-Encoding"].


(** ** A message, and what modelling showed *)

Definition example_address (s : string) : option string :=
  if containsCRLF s then None else if has_byte "<" s then Some s else Some ("<" +:+ s +:+ ">")%string.
Definition example_list (s : string) : option (list string) := option_map (fun a => [a]) (example_address s).
Definition example_subject (s : string) : string := if containsCRLF s then "?" else s.

Definition encode_example (m : Message) : result mail_error string :=
  Encode example_address example_list example_subject "now" "7f" "b1" "b2" m.

Lemma example_one_line : one_line example_address example_list example_subject "now" "7f" "b1" "b2".
Proof.
  assert (Ha : forall s a, example_address s = Some a -> containsCRLF a = false).
  { intros s a. unfold example_address. destruct (containsCRLF s) eqn:E; [done |]. destruct (has_byte "<" s); intros [= <-]; [done |].
    by rewrite !crlf_app, E. }
  split; try done.
  - intros s l. unfold example_list. destruct (example_address s) eqn:E; [|done]. intros [= <-]. constructor; [by eapply Ha | constructor].
  - intros s. unfold example_subject. by destruct (containsCRLF s) eqn:E.
Qed.

Definition letter : Message :=
  with_text "Hi" (with_subject ("Hello" +:+ crlf +:+ "Bcc: eve@x.org")%string (add_to ["bob@x.org"] (with_from "ada@x.org" NewMessage))).


(** The name of an attachment goes into the header of its part as it is. *)
Lemma attachment_name_injects :
  existsb (String.eqb ("X-Evil: 1" +:+ quote)%string)
    (lines_of (attachment_part "b1" (mkAttachment ("a" +:+ crlf +:+ "X-Evil: 1")%string "image/png" "data"))) = true.
Proof. vm_compute. reflexivity. Qed.

(** A blank recipient passes the check for recipients; the message names none. *)
Lemma blank_recipient_accepted :
  exists out, Send example_address example_list example_subject "now" "7f" "b1" "b2" "ada@x.org" (add_to [""] NewMessage)
    = Ok ("ada@x.org", [""], out) /\ existsb (String.prefix "To:") (header_lines out) = false.
Proof. eexists. split; vm_compute; reflexivity. Qed.

(** The envelope carries the addresses as they were given, display names included,
    not the canonical ones. *)
Lemma envelope_not_canonical :
  exists out, Send example_address example_list example_subject "now" "7f" "b1" "b2" "" (with_from "Ada <ada@x.org>" (add_to ["bob@x.org"] NewMessage))
    = Ok ("Ada <ada@x.org>", ["bob@x.org"], out).
Proof. eexists. vm_compute. reflexivity. Qed.

(** A blank before CRLF is not escaped (one before LF is), and a server may drop it. *)
Lemma blank_before_crlf :
  quotedPrintable ("a " +:+ crlf)%string = ("a " +:+ crlf)%string /\
  quotedPrintable ("a " +:+ String LF "")%string = ("a=20" +:+ crlf)%string.
Proof. vm_compute. done. Qed.
