(* ===== verification/Validation.v ===== *)
(** Request validation: [src/validation].

    - [value] is what the rules see of a [reflect.Value] once pointers are followed:
      an absent value, a nil pointer, text, numbers, and so on.  A struct lists its
      fields with their tags.
    - [check] is the table of rules; a rule gives its message, or nothing.
    - [MapWith] and [ValidateWith] give the errors by field name.
    - [parse_float], the email, URL, regular expression and date parsers of the
      Go library are arguments. *)

From Stdlib Require Import ZArith Lia Ascii.
From Stdlib Require String.
From stdpp Require Import base gmap strings list numbers.
From S2P Require Import Prelude GoRt GoStrconv GoStrings GoUtf8 GoSort GoFloat.

#[local] Set Warnings "-register-all".
#[local] Open Scope string_scope.
#[local] Open Scope list_scope.
#[local] Open Scope Z_scope.

(** ** Values *)

(** [made] is false of a nil slice or map.  [VOther]: any other value, 0 being the
    zero one. *)
Inductive value :=
| VInvalid
| VNilPtr
| VStr (s : string)
| VInt (n : Z)
| VUint (n : Z)
| VFloat (f : float64)
| VBool (b : bool)
| VSlice (made : bool) (items : list value)
| VMap (made : bool) (entries : list (string * value))
| VStruct (fields : list sfield)
| VOther (id : nat)
with sfield := SF (name : string) (exported : bool) (json validate : string) (v : value).

Definition sf_value (f : sfield) : value := match f with SF _ _ _ _ v => v end.

(** A value equal to the zero of its type. *)
Fixpoint v_zero (v : value) : bool :=
  match v with
  | VInvalid | VNilPtr => true
  | VStr s => String.eqb s ""
  | VInt n | VUint n => n =? 0
  | VFloat f => match f with SpecFloat.S754_zero false => true | _ => false end
  | VBool b => negb b
  | VSlice made _ | VMap made _ => negb made
  | VStruct fields => forallb (fun f => match f with SF _ _ _ _ v => v_zero v end) fields
  | VOther id => Nat.eqb id 0
  end.

Definition isEmpty (v : value) : bool :=
  match v with
  | VStr s => String.eqb (TrimSpace s) ""
  | VSlice _ items => match items with [] => true | _ => false end
  | VMap _ entries => match entries with [] => true | _ => false end
  | v => v_zero v
  end.

Definition asString (v : value) : option string := match v with VStr s => Some s | _ => None end.

Definition strlen (s : string) : Z := Z.of_nat (String.length s).

Definition numericLen (v : value) : option float64 :=
  match v with
  | VStr s => Some (float_of_Z (strlen s))
  | VSlice _ items => Some (float_of_Z (Z.of_nat (length items)))
  | VMap _ entries => Some (float_of_Z (Z.of_nat (length entries)))
  | VInt n | VUint n => Some (float_of_Z n)
  | VFloat f => Some f
  | _ => None
  end.

(** [reflect.DeepEqual]. *)
Fixpoint deep_equal (a b : value) {struct a} : bool :=
  match a, b with
  | VNilPtr, VNilPtr => true
  | VStr s, VStr t => String.eqb s t
  | VInt n, VInt m | VUint n, VUint m => n =? m
  | VFloat x, VFloat y => feq x y
  | VBool x, VBool y => Bool.eqb x y
  | VOther x, VOther y => Nat.eqb x y
  | VSlice m xs, VSlice m' ys =>
      Bool.eqb m m' &&
      (fix all2 (xs ys : list value) : bool :=
         match xs, ys with [], [] => true | x :: xs, y :: ys => deep_equal x y && all2 xs ys | _, _ => false end) xs ys
  | VStruct xs, VStruct ys =>
      (fix all2 (xs ys : list sfield) : bool :=
         match xs, ys with
         | [], [] => true
         | SF n _ _ _ x :: xs, SF m _ _ _ y :: ys => String.eqb n m && deep_equal x y && all2 xs ys
         | _, _ => false
         end) xs ys
  | _, _ => false
  end.

Definition is_valid (v : value) : bool := match v with VInvalid => false | _ => true end.

Definition equalValues (a b : value) : bool :=
  if negb (is_valid a) || negb (is_valid b) then Bool.eqb (is_valid a) (is_valid b)
  else
    match asString a, asString b with
    | Some s, Some t => String.eqb s t
    | _, _ =>
        match numericLen a, numericLen b with
        | Some x, Some y => feq x y
        | _, _ => deep_equal a b
        end
    end.

(** ** Rules *)

Definition cut (sep : ascii) (s : string) : string * string := match cut_at sep s with Some (a, b) => (a, b) | None => (s, "") end.

Definition parseRule (rule : string) : string * string := let '(name, arg) := cut "=" rule in (TrimSpace name, TrimSpace arg).

Definition flush (b : string) : list string := if String.eqb b "" then [] else [TrimSpace b].

(** [b] is the rule read so far, [boundary] whether a rule may start here. *)
Fixpoint split_from (boundary : bool) (b tag : string) : list string :=
  match tag with
  | EmptyString => flush b
  | String c rest =>
      if boundary && HasPrefix tag "regex=" then flush b ++ [TrimSpace tag]
      else if Ascii.eqb c "," then TrimSpace b :: split_from true "" rest
      else split_from false (b +:+ String c EmptyString)%string rest
  end.
Definition splitRules (tag : string) : list string := split_from true "" tag.

Definition is_letter (c : ascii) : bool := let n := byte_of c in ((65 <=? n) && (n <=? 90)) || ((97 <=? n) && (n <=? 122)).
Definition is_digit (c : ascii) : bool := let n := byte_of c in (48 <=? n) && (n <=? 57).
Definition is_hex (c : ascii) : bool := let n := byte_of c in is_digit c || ((65 <=? n) && (n <=? 70)) || ((97 <=? n) && (n <=? 102)).

Definition all_bytes (p : ascii -> bool) (s : string) : bool := forallb p (String.list_ascii_of_string s).

(** [^[A-Za-z]+$] and the like. *)
Definition plus_of (p : ascii -> bool) (s : string) : bool := negb (String.eqb s "") && all_bytes p s.

(** The pattern of a UUID, position by position: runs of hexadecimal digits with
    a dash between them. *)
Fixpoint take_hex (n : nat) (s : string) : option string :=
  match n, s with
  | O, s => Some s
  | S n, String c s => if is_hex c then take_hex n s else None
  | S _, EmptyString => None
  end.
Fixpoint uuid_from (groups : list nat) (s : string) : bool :=
  match groups with
  | [] => false
  | [n] => match take_hex n s with Some rest => String.eqb rest "" | None => false end
  | n :: groups => match take_hex n s with Some (String c rest) => Ascii.eqb c "-" && uuid_from groups rest | _ => false end
  end.
Definition is_uuid (s : string) : bool := uuid_from [8; 4; 4; 4; 12]%nat s.

(** [strings.ReplaceAll(s, "|", ", ")]. *)
Fixpoint bars_to_commas (s : string) : string :=
  match s with EmptyString => EmptyString | String c s => if Ascii.eqb c "|" then ", " +:+ bars_to_commas s else String c (bars_to_commas s) end%string.

Definition sized (v : value) : bool := match v with VStr _ | VSlice _ _ | VMap _ _ => true | _ => false end.

Definition sizeMessage (v : value) (num len arg : string) : string :=
  if sized v then (len +:+ arg +:+ " characters")%string else (num +:+ arg)%string.

Record field := mkField { f_name : string; f_value : value; siblings : list (string * value) }.

Section Rules.
Context (parse_float : string -> option float64) (valid_email valid_url : string -> bool).
Context (regex_match : string -> string -> option bool) (parse_time : string -> string -> bool).

(** A rule over the text of a value; other values and the empty text pass. *)
Definition on_text (bad : string -> bool) (msg : string) (f : field) : option string :=
  match asString (f_value f) with
  | Some s => if String.eqb s "" then None else if bad s then Some msg else None
  | None => None
  end.

Definition size_rule (ok : float64 -> float64 -> bool) (num len : string) (f : field) (arg : string) : option string :=
  match parse_float arg, numericLen (f_value f) with
  | Some n, Some size => if ok size n then None else Some (sizeMessage (f_value f) num len arg)
  | _, _ => None
  end.

Definition numericValue (v : value) : option float64 :=
  match v with VStr s => parse_float (TrimSpace s) | v => numericLen v end.

Definition numCompare (sym : string) (ok : float64 -> float64 -> bool) (f : field) (arg : string) : option string :=
  match parse_float arg, numericValue (f_value f) with
  | Some n, Some size => if ok size n then None else Some ("must be " +:+ sym +:+ " " +:+ arg)%string
  | _, _ => None
  end.

Definition is_boolean_text (s : string) : bool := existsb (String.eqb (string_map lower_ascii s)) ["true"; "false"; "1"; "0"].

Definition RFC3339 : string := "2006-01-02T15:04:05Z07:00".

Definition confirmation (f : field) : option value :=
  match assoc (f_name f +:+ "_confirmation")%string (siblings f) with
  | Some v => Some v
  | None => assoc (f_name f +:+ "Confirmation")%string (siblings f)
  end.

(** [None]: no such rule; [Some None]: the value passes. *)
Definition check (rule : string) (f : field) (arg : string) : option (option string) :=
  if String.eqb rule "required" then Some (if isEmpty (f_value f) then Some "is required" else None)
  else if String.eqb rule "email" then Some (on_text (fun s => negb (valid_email s)) "must be a valid email address" f)
  else if String.eqb rule "url" then Some (on_text (fun s => negb (valid_url s)) "must be a valid URL" f)
  else if String.eqb rule "min" then Some (size_rule (fun size n => fle n size) "must be at least " "must be at least " f arg)
  else if String.eqb rule "max" then Some (size_rule (fun size n => fle size n) "must not be greater than " "must not be greater than " f arg)
  else if String.eqb rule "len" then Some (size_rule feq "must equal " "must be exactly " f arg)
  else if String.eqb rule "gte" then Some (numCompare ">=" (fun a b => fle b a) f arg)
  else if String.eqb rule "lte" then Some (numCompare "<=" fle f arg)
  else if String.eqb rule "gt" then Some (numCompare ">" (fun a b => flt b a) f arg)
  else if String.eqb rule "lt" then Some (numCompare "<" flt f arg)
  else if String.eqb rule "numeric" then Some (on_text (fun s => match parse_float s with Some _ => false | None => true end) "must be a number" f)
  else if String.eqb rule "integer" then Some (on_text (fun s => match ParseInt s with Some _ => false | None => true end) "must be an integer" f)
  else if String.eqb rule "alpha" then Some (on_text (fun s => negb (plus_of is_letter s)) "must contain only letters" f)
  else if String.eqb rule "alphanumeric" then
    Some (on_text (fun s => negb (plus_of (fun c => is_letter c || is_digit c) s)) "must contain only letters and digits" f)
  else if String.eqb rule "uuid" then Some (on_text (fun s => negb (is_uuid s)) "must be a valid UUID" f)
  else if String.eqb rule "boolean" then Some (on_text (fun s => negb (is_boolean_text s)) "must be true or false" f)
  else if String.eqb rule "in" then
    Some (on_text (fun s => negb (existsb (String.eqb s) (Split "|" arg))) ("must be one of: " +:+ bars_to_commas arg)%string f)
  else if String.eqb rule "notin" then
    Some (on_text (fun s => existsb (String.eqb s) (Split "|" arg)) ("must not be one of: " +:+ bars_to_commas arg)%string f)
  else if String.eqb rule "regex" then
    Some (on_text (fun s => match regex_match arg s with Some true => false | _ => true end) "has an invalid format" f)
  else if String.eqb rule "datetime" then
    let layout := if String.eqb arg "" then RFC3339 else arg in
    Some (on_text (fun s => negb (parse_time layout s)) ("must match the date format " +:+ layout)%string f)
  else if String.eqb rule "eqfield" then
    Some (match assoc arg (siblings f) with
          | Some other => if equalValues (f_value f) other then None else Some ("must match " +:+ arg)%string
          | None => None
          end)
  else if String.eqb rule "nefield" then
    Some (match assoc arg (siblings f) with
          | Some other => if equalValues (f_value f) other then Some ("must be different from " +:+ arg)%string else None
          | None => None
          end)
  else if String.eqb rule "confirmed" then
    Some (match confirmation f with
          | Some other => if equalValues (f_value f) other then None else Some "confirmation does not match"
          | None => Some "confirmation does not match"
          end)
  else None.

(** ** Errors *)

(** One message for one field, in the order they are added. *)
Notation report := (list (string * string)).

(** [Messages]: the message of ["field.rule"] wins over the one of ["rule"]. *)
Definition resolveMessage (msgs : list (string * string)) (name rule def : string) : string :=
  match assoc (name +:+ "." +:+ rule)%string msgs with
  | Some m => m
  | None => match assoc rule msgs with Some m => m | None => def end
  end.

Definition Add (e : gmap string (list string)) (field_msg : string * string) : gmap string (list string) :=
  <[field_msg.1 := default [] (e !! field_msg.1) ++ [field_msg.2]]> e.
Definition ValidationErrors (r : report) : gmap string (list string) := fold_left Add r ∅.

(** The message of one rule expression on one field, if it fails. *)
Definition run_rule (msgs : list (string * string)) (sib : list (string * value)) (name full : string) (v : value) (rule : string) : report :=
  let '(ruleName, arg) := parseRule rule in
  match check ruleName (mkField name v sib) arg with
  | Some (Some msg) => [(full, resolveMessage msgs name ruleName msg)]
  | _ => []
  end.

(** ** Maps *)

Definition expr_report (data : list (string * value)) (msgs : list (string * string)) (name expr : string) : report :=
  let rule := TrimSpace expr in
  if String.eqb rule "" then [] else run_rule msgs data name name (default VInvalid (assoc name data)) rule.

Definition MapWith (data : list (string * value)) (rules : list (string * list string)) (msgs : list (string * string)) : report :=
  flat_map (fun ne => flat_map (expr_report data msgs ne.1) ne.2) rules.

(** ** Structs *)

Definition fieldName (name json : string) : string :=
  if String.eqb json "" || String.eqb json "-" then name
  else let tag := (cut "," json).1 in if String.eqb tag "" then name else tag.

Definition path (prefix name : string) : string := if String.eqb prefix "" then name else (prefix +:+ "." +:+ name)%string.

Fixpoint siblings_of (fields : list sfield) : list (string * value) :=
  match fields with
  | [] => []
  | SF n exported json _ v :: fields => if exported then siblings_of fields ++ [(fieldName n json, v)] else siblings_of fields
  end.

Definition index_path (prefix : string) (i : nat) : string := (prefix +:+ "." +:+ FormatInt (Z.of_nat i))%string.

Definition field_report (msgs : list (string * string)) (sib : list (string * value)) (name full : string) (v : value) (tag : string) (dived : report) : report :=
  flat_map (fun rule =>
    if String.eqb rule "" then []
    else if String.eqb rule "dive" then dived
    else run_rule msgs sib name full v rule) (splitRules tag).

Fixpoint validateStruct (msgs : list (string * string)) (v : value) (prefix : string) {struct v} : report :=
  match v with
  | VStruct fields =>
      let sib := siblings_of fields in
      (fix fields_from (fs : list sfield) : report :=
         match fs with
         | [] => []
         | SF n exported json tag fv :: fs =>
             (if negb exported || String.eqb tag "" then []
              else
                let name := fieldName n json in
                let full := path prefix name in
                let dived :=
                  match fv with
                  | VStruct _ => validateStruct msgs fv full
                  | VSlice _ items =>
                      (fix items_from (i : nat) (l : list value) : report :=
                         match l with
                         | [] => []
                         | el :: l => (match el with VStruct _ => validateStruct msgs el (index_path full i) | _ => [] end) ++ items_from (S i) l
                         end) 0%nat items
                  | _ => []
                  end in
                field_report msgs sib name full fv tag dived) ++ fields_from fs
         end) fields
  | _ => []
  end.

Definition ValidateWith (v : value) (msgs : list (string * string)) : report := validateStruct msgs v "".
Definition Validate (v : value) : report := ValidateWith v [].
Definition Map (data : list (string * value)) (rules : list (string * list string)) : report := MapWith data rules [].
End Rules.

(** ** The error value *)

Definition Has (name : string) (e : gmap string (list string)) : bool := match e !! name with Some (_ :: _) => true | _ => false end.
Definition First (name : string) (e : gmap string (list string)) : string := match e !! name with Some (m :: _) => m | _ => "" end.

(** Sorted by name. *)
Definition Fields (e : gmap string (list string)) : list string := SliceStable String.ltb (map fst (map_to_list e)).
Definition Error (e : gmap string (list string)) : string :=
  if bool_decide (e = ∅) then "validation failed"
  else ("validation failed: " +:+ Join "; " (map (fun f => f +:+ ": " +:+ Join ", " (default [] (e !! f))) (Fields e)))%string.
Definition Response (e : gmap string (list string)) : string * gmap string (list string) := ("The given data was invalid.", e).

(** The rules a builder gathers. *)
Fixpoint Field (name : string) (rules : list string) (b : list (string * list string)) : list (string * list string) :=
  match b with
  | [] => [(name, rules)]
  | (n, rs) :: b => if String.eqb n name then (n, rs ++ rules) :: b else (n, rs) :: Field name rules b
  end.

(** ** Laws *)

(** What the text rules ask of a text, in the words of the documentation. *)
Definition groups_of (ns : list nat) (s : string) : Prop :=
  exists gs, s = Join "-" gs /\ List.Forall2 (fun n g => String.length g = n /\ all_bytes is_hex g = true) ns gs.

Lemma take_hex_spec n s rest : take_hex n s = Some rest <-> exists g, s = (g +:+ rest)%string /\ String.length g = n /\ all_bytes is_hex g = true.
Proof.
  revert s. induction n as [|n IH]; intros s; cbn [take_hex].
  - split; [intros [= ->]; by exists "" |]. intros (g & -> & Hg & _). by destruct g.
  - destruct s as [|c s].
    + split; [done |]. intros (g & Hs & Hg & _). destruct g; [done |]. discriminate Hs.
    + destruct (is_hex c) eqn:Hc.
      * rewrite IH. split.
        -- intros (g & -> & Hg & Hh). exists (String c g). split_and!; [done | simpl; by rewrite Hg | unfold all_bytes in *; simpl; by rewrite Hc].
        -- intros (g & Hs & Hg & Hh). destruct g as [|c' g]; [done |]. injection Hs as -> ->. exists g.
           unfold all_bytes in *. simpl in Hg, Hh. apply andb_prop in Hh as [_ Hh]. split_and!; [done | lia | done].
      * split; [done |]. intros (g & Hs & Hg & Hh). destruct g as [|c' g]; [done |]. injection Hs as -> ->.
        unfold all_bytes in Hh. simpl in Hh. by rewrite Hc in Hh.
Qed.

Lemma take_hex_all g rest : all_bytes is_hex g = true -> take_hex (String.length g) (g +:+ rest)%string = Some rest.
Proof. intros Hg. apply take_hex_spec. by exists g. Qed.

Lemma uuid_from_spec ns s : ns <> [] -> uuid_from ns s = true <-> groups_of ns s.
Proof.
  revert s. induction ns as [|n ns IH]; intros s Hne; [done |]. split.
  - destruct ns as [|m ns]; cbn [uuid_from]; destruct (take_hex n s) as [rest|] eqn:E; try done; apply take_hex_spec in E as (g & -> & Hg).
    + intros ->%String.eqb_eq. exists [g]. split; [by rewrite str_app_empty | constructor; [done | constructor]].
    + destruct rest as [|c rest]; [done |]. intros [->%Ascii.eqb_eq H]%andb_prop. apply IH in H as (gs & -> & Hf); [| done].
      exists (g :: gs). split; [by inversion Hf | by constructor].
  - intros (gs & -> & Hf). inversion Hf as [|? g ? gs' [Hg Hh] Hn]; subst. cbn [uuid_from]. destruct ns as [|m ns].
    + inversion Hn; subst. cbn [Join]. rewrite <- (str_app_empty g) at 2. by rewrite take_hex_all.
    + assert (Hj : Join "-" (g :: gs') = (g +:+ String "-" (Join "-" gs'))%string) by by inversion Hn.
      rewrite Hj, take_hex_all by done. rewrite Ascii.eqb_refl. cbn [andb]. apply IH; [done |]. by exists gs'.
Qed.

Section Laws.
Context (parse_float : string -> option float64) (valid_email valid_url : string -> bool).
Context (regex_match : string -> string -> option bool) (parse_time : string -> string -> bool).

Notation check_ := (check parse_float valid_email valid_url regex_match parse_time).

(** The rule lets the value pass. *)
Definition passes (rule : string) (f : field) (arg : string) : Prop := check_ rule f arg = Some None.

(** A rule over texts asks [good] of a text that is not empty. *)
Definition asks (f : field) (good : string -> Prop) : Prop := forall s, f_value f = VStr s -> s <> "" -> good s.

Lemma on_text_passes bad msg f (good : string -> Prop) : (forall s, s <> "" -> bad s = false <-> good s) ->
  on_text bad msg f = None <-> asks f good.
Proof.
  intros Hb. unfold on_text, asks, asString. destruct (f_value f); try (split; [by intros _ t [=] | done]).
  destruct (String.eqb_spec s ""); [split; [by intros _ t [= <-] | done] |]. specialize (Hb s n). destruct (bad s).
  - split; [done |]. intros H. by apply Hb in H.
  - split; [| done]. intros _ t [= <-] _. by apply Hb.
Qed.

Lemma existsb_in s l : existsb (String.eqb s) l = true <-> s ∈ l.
Proof.
  rewrite existsb_exists. setoid_rewrite <- list_elem_of_In. split; [by intros (x & Hx & ->%String.eqb_eq) |].
  intros Hs. exists s. by rewrite String.eqb_refl.
Qed.

Lemma plus_spec p s : s <> "" -> plus_of p s = true <-> (forall c, c ∈ String.list_ascii_of_string s -> p c = true).
Proof.
  intros Hs. unfold plus_of, all_bytes. destruct (String.eqb_spec s ""); [done |]. cbn [negb andb]. rewrite forallb_forall.
  by setoid_rewrite <- list_elem_of_In.
Qed.

Lemma size_passes ok num len f arg n size :
  parse_float arg = Some n -> numericLen (f_value f) = Some size -> size_rule parse_float ok num len f arg = None <-> ok size n = true.
Proof. intros Ha Hn. unfold size_rule. rewrite Ha, Hn. by destruct (ok size n). Qed.
End Laws.

Lemma some_none {A} (x : option A) : Some x = Some None <-> x = None.
Proof. split; [by intros [= ->] | by intros ->]. Qed.

Lemma negb_bad (b : bool) (P : Prop) : (b = true <-> P) -> (negb b = false <-> P).
Proof. intros H. by rewrite negb_false_iff. Qed.

(** The rules mean what they say.  Of a text that is not empty, [alpha] and
    [alphanumeric] ask for such characters only, [uuid] for five groups of
    hexadecimal digits with dashes between, [integer] for a number of 64 bits, [in]
    and [notin] for a member of the list or none; [min] and [max] bound the bytes
    of a text and the elements of a list by the number given; [required] refuses
    blank texts and empty lists; [eqfield] passes exactly when the other field is
    missing or equal. *)
Theorem rules_exact parse_float valid_email valid_url regex_match parse_time f arg :
  let passes := passes parse_float valid_email valid_url regex_match parse_time in
  (passes "alpha" f arg <-> asks f (fun s => forall c, c ∈ String.list_ascii_of_string s -> is_letter c = true)) /\
  (passes "alphanumeric" f arg <-> asks f (fun s => forall c, c ∈ String.list_ascii_of_string s -> is_letter c || is_digit c = true)) /\
  (passes "uuid" f arg <-> asks f (groups_of [8; 4; 4; 4; 12]%nat)) /\
  (passes "integer" f arg <-> asks f (fun s => exists n, ParseInt s = Some n)) /\
  (passes "in" f arg <-> asks f (fun s => s ∈ Split "|" arg)) /\
  (passes "notin" f arg <-> asks f (fun s => s ∉ Split "|" arg)) /\
  (forall n s, 0 <= n < 2 ^ 53 -> strlen s < 2 ^ 53 -> parse_float arg = Some (float_of_Z n) -> f_value f = VStr s ->
     (passes "min" f arg <-> n <= strlen s) /\ (passes "max" f arg <-> strlen s <= n)) /\
  (forall n made l, 0 <= n < 2 ^ 53 -> Z.of_nat (length l) < 2 ^ 53 -> parse_float arg = Some (float_of_Z n) -> f_value f = VSlice made l ->
     (passes "min" f arg <-> n <= Z.of_nat (length l)) /\ (passes "max" f arg <-> Z.of_nat (length l) <= n)) /\
  (forall s, f_value f = VStr s -> passes "required" f arg <-> TrimSpace s <> "") /\
  (forall made l, f_value f = VSlice made l -> passes "required" f arg <-> l <> []) /\
  (passes "eqfield" f arg <-> forall other, assoc arg (siblings f) = Some other -> equalValues (f_value f) other = true).
Proof.
  cbv zeta. unfold passes, check. cbn [String.eqb Ascii.eqb Bool.eqb].
  assert (Hsize : forall n k, 0 <= n < 2 ^ 53 -> 0 <= k < 2 ^ 53 ->
    (fle (float_of_Z n) (float_of_Z k) = true <-> n <= k) /\ (fle (float_of_Z k) (float_of_Z n) = true <-> k <= n))
    by (intros n k Hn Hk; rewrite !fle_int, !Z.leb_le by done; done).
  split_and!.
  1-6: rewrite some_none; apply on_text_passes; intros s Hs.
  - by apply negb_bad, plus_spec.
  - by apply negb_bad, plus_spec.
  - by apply negb_bad, uuid_from_spec.
  - destruct (ParseInt s) as [n|]; split; try done; [by exists n | by intros [n Hn]].
  - apply negb_bad, existsb_in.
  - rewrite <- existsb_in. destruct (existsb _ _); [|done]. split; [done | tauto].
  - intros n s Hn Hlt Ha Hv. assert (0 <= strlen s < 2 ^ 53) by (unfold strlen in *; lia).
    rewrite !some_none, !(size_passes _ _ _ _ _ _ _ (float_of_Z (strlen s)) Ha) by by rewrite Hv. by apply Hsize.
  - intros n made l Hn Hlt Ha Hv. assert (0 <= Z.of_nat (length l) < 2 ^ 53) by lia.
    rewrite !some_none, !(size_passes _ _ _ _ _ _ _ (float_of_Z (Z.of_nat (length l))) Ha) by by rewrite Hv. by apply Hsize.
  - intros s ->. cbn [isEmpty]. rewrite some_none. by destruct (String.eqb_spec (TrimSpace s) "").
  - intros made l ->. cbn [isEmpty]. rewrite some_none. by destruct l.
  - rewrite some_none. destruct (assoc arg (siblings f)) as [other|]; [| done]. destruct (equalValues _ other) eqn:E.
    + split; [by intros _ ? [= <-] | done].
    + split; [done |]. intros H. by rewrite H in E.
Qed.

(** ** The errors of a map *)

(** The messages a report has for a field, in order. *)
Definition messages_of (name : string) (r : list (string * string)) : list string := map snd (List.filter (fun fm => String.eqb fm.1 name) r).

Lemma errors_lookup r name :
  ValidationErrors r !! name = match messages_of name r with [] => None | l => Some l end.
Proof.
  unfold ValidationErrors. assert (H : forall e, fold_left Add r e !! name =
      match messages_of name r with [] => e !! name | l => Some (default [] (e !! name) ++ l) end).
  { induction r as [|[n m] r IH]; intros e; [done |]. cbn [fold_left]. rewrite IH. unfold Add, messages_of. cbn [fst snd List.filter].
    destruct (String.eqb_spec n name) as [->|Hne]; cbn [map].
    - rewrite lookup_insert, decide_True by done. destruct (map snd _) as [|x l]; [done |]. simpl. by rewrite <- app_assoc.
    - rewrite lookup_insert_ne by done. done. }
  rewrite H, lookup_empty. by destruct (messages_of name r).
Qed.

Lemma messages_app name r1 r2 : messages_of name (r1 ++ r2) = messages_of name r1 ++ messages_of name r2.
Proof. unfold messages_of. by rewrite filter_app, map_app. Qed.

Section Maps.
Context (parse_float : string -> option float64) (valid_email valid_url : string -> bool).
Context (regex_match : string -> string -> option bool) (parse_time : string -> string -> bool).

Notation check_ := (check parse_float valid_email valid_url regex_match parse_time).
Notation run_ := (run_rule parse_float valid_email valid_url regex_match parse_time).
Notation MapWith_ := (MapWith parse_float valid_email valid_url regex_match parse_time).

(** What one rule expression says of a field of the data. *)
Definition verdict (data : list (string * value)) (msgs : list (string * string)) (name expr : string) : list string :=
  let '(rule, arg) := parseRule (TrimSpace expr) in
  if String.eqb (TrimSpace expr) "" then []
  else match check_ rule (mkField name (default VInvalid (assoc name data)) data) arg with
       | Some (Some msg) => [resolveMessage msgs name rule msg]
       | _ => []
       end.

Lemma run_rule_names msgs sib name full v rule other :
  messages_of other (run_ msgs sib name full v rule) = if String.eqb full other then map snd (run_ msgs sib name full v rule) else [].
Proof.
  unfold run_rule, messages_of. destruct (parseRule rule) as [r arg]. destruct (check_ r _ arg) as [[msg|]|]; simpl; by destruct (String.eqb full other).
Qed.

Lemma exprs_messages data msgs name exprs other :
  messages_of other (flat_map (expr_report parse_float valid_email valid_url regex_match parse_time data msgs name) exprs)
  = if String.eqb name other then flat_map (verdict data msgs name) exprs else [].
Proof.
  induction exprs as [|expr exprs IH]; [by destruct (String.eqb name other) |]. cbn [flat_map]. rewrite messages_app, IH.
  assert (Hv : messages_of other (expr_report parse_float valid_email valid_url regex_match parse_time data msgs name expr)
     = if String.eqb name other then verdict data msgs name expr else []).
  { unfold expr_report, verdict. cbv zeta. destruct (String.eqb (TrimSpace expr) "") eqn:E.
    - destruct (parseRule _). by destruct (String.eqb name other).
    - rewrite run_rule_names. unfold run_rule. destruct (parseRule _) as [r arg]. destruct (check_ r _ arg) as [[msg|]|]; by destruct (String.eqb name other). }
  rewrite Hv. by destruct (String.eqb name other).
Qed.

Lemma map_messages data rules msgs name : NoDup (map fst rules) ->
  messages_of name (MapWith_ data rules msgs) = flat_map (verdict data msgs name) (default [] (assoc name rules)).
Proof.
  unfold MapWith. induction rules as [|[n exprs] rules IH]; intros Hnd; [done |]. cbn [map fst] in Hnd. apply list.NoDup_cons in Hnd as [Hn Hnd].
  cbn [flat_map fst snd]. rewrite messages_app, exprs_messages, IH by done. cbn [assoc]. destruct (String.eqb_spec n name) as [->|Hne].
  - rewrite decide_True by done. apply assoc_None in Hn. rewrite Hn. cbn [default flat_map]. by rewrite app_nil_r.
  - by rewrite decide_False by congruence.
Qed.
End Maps.

Lemma assoc_perm {A} k (l l' : list (string * A)) : NoDup (map fst l) -> l ≡ₚ l' -> assoc k l = assoc k l'.
Proof.
  intros Hnd Hp. assert (Hnd' : NoDup (map fst l')) by (rewrite <- (Permutation_map fst Hp); exact Hnd).
  assert (Hin : forall (m : list (string * A)) v, NoDup (map fst m) -> assoc k m = Some v <-> (k, v) ∈ m).
  { clear. induction m as [|[k' w] m IH]; intros v Hm; simpl in *; [split; [done | by intros ?%not_elem_of_nil] |].
    apply list.NoDup_cons in Hm as [Hk Hm]. rewrite elem_of_cons. destruct (decide (k = k')) as [->|Hne].
    - split; [intros [= ->]; by left |]. intros [[= ->]|Hin]; [done |]. exfalso. apply Hk. by apply (list_elem_of_fmap_2' fst _ (k', v)).
    - rewrite IH by done. split; [by right |]. by intros [[= ? ->]|]. }
  destruct (assoc k l) as [v|] eqn:E.
  - symmetry. apply Hin; [done |]. rewrite <- Hp. by apply Hin.
  - symmetry. apply assoc_None. rewrite <- (Permutation_map fst Hp). by apply assoc_None.
Qed.

(** Validating a map reports, for every field, exactly the messages of its
    failing rules, in the order of its rules; a field without failing rules has no
    entry; and the order Go's range takes over the rules makes no difference. *)
Theorem map_errors_exact parse_float valid_email valid_url regex_match parse_time data rules rules' msgs :
  NoDup (map fst rules) -> rules ≡ₚ rules' ->
  let errors rs := ValidationErrors (MapWith parse_float valid_email valid_url regex_match parse_time data rs msgs) in
  (forall name, errors rules !! name =
     match flat_map (verdict parse_float valid_email valid_url regex_match parse_time data msgs name) (default [] (assoc name rules)) with
     | [] => None | l => Some l
     end) /\ errors rules = errors rules'.
Proof.
  intros Hnd Hp errors. assert (H : forall name, errors rules !! name =
     match flat_map (verdict parse_float valid_email valid_url regex_match parse_time data msgs name) (default [] (assoc name rules)) with
     | [] => None | l => Some l end) by (intros name; unfold errors; by rewrite errors_lookup, map_messages).
  split; [exact H |]. apply map_eq. intros name. rewrite H. unfold errors.
  rewrite errors_lookup, map_messages by (rewrite <- (Permutation_map fst Hp); exact Hnd). by rewrite (assoc_perm name rules rules').
Qed.

(** ** Structs *)

Section Structs.
Context (parse_float : string -> option float64) (valid_email valid_url : string -> bool).
Context (regex_match : string -> string -> option bool) (parse_time : string -> string -> bool).

Notation check_ := (check parse_float valid_email valid_url regex_match parse_time).
Notation validate_ := (validateStruct parse_float valid_email valid_url regex_match parse_time).

(** No rule of the expression refuses the value. *)
Definition unrefused (sib : list (string * value)) (name : string) (v : value) (rule : string) : Prop :=
  forall msg, check_ (parseRule rule).1 (mkField name v sib) (parseRule rule).2 <> Some (Some msg).

Definition is_struct (v : value) : bool := match v with VStruct _ => true | _ => false end.

(** The structs a [dive] looks into. *)
Definition dives_into (v : value) : list value :=
  match v with VStruct _ => [v] | VSlice _ items => List.filter is_struct items | _ => [] end.

(** A value is accepted when it is no struct, or no rule of its tagged, exported
    fields refuses and the structs that are dived into are accepted. *)
Inductive accepts : value -> Prop :=
| acc_other v : is_struct v = false -> accepts v
| acc_struct fields :
    (forall n json tag v rule, SF n true json tag v ∈ fields -> tag <> "" -> rule ∈ splitRules tag -> rule <> "" -> rule <> "dive" ->
       unrefused (siblings_of fields) (fieldName n json) v rule) ->
    (forall n json tag v el, SF n true json tag v ∈ fields -> tag <> "" -> "dive" ∈ splitRules tag -> el ∈ dives_into v -> accepts el) ->
    accepts (VStruct fields).

(** The report of a field's dive. *)
Definition dive_report (msgs : list (string * string)) (v : value) (full : string) : list (string * string) :=
  match v with
  | VStruct _ => validate_ msgs v full
  | VSlice _ items =>
      (fix items_from (i : nat) (l : list value) : list (string * string) :=
         match l with
         | [] => []
         | el :: l => (match el with VStruct _ => validate_ msgs el (index_path full i) | _ => [] end) ++ items_from (S i) l
         end) 0%nat items
  | _ => []
  end.

Definition one_field (msgs : list (string * string)) (sib : list (string * value)) (prefix : string) (f : sfield) : list (string * string) :=
  match f with
  | SF n exported json tag fv =>
      if negb exported || String.eqb tag "" then []
      else field_report parse_float valid_email valid_url regex_match parse_time msgs sib (fieldName n json) (path prefix (fieldName n json)) fv tag
             (dive_report msgs fv (path prefix (fieldName n json)))
  end.

Lemma validate_struct_eq msgs fields prefix : validate_ msgs (VStruct fields) prefix = flat_map (one_field msgs (siblings_of fields) prefix) fields.
Proof.
  cbn [validateStruct]. generalize (siblings_of fields) as sib. intros sib. induction fields as [|f fs IH]; [done |]. destruct f as [n exported json tag fv].
  cbn [flat_map]. rewrite <- IH. unfold one_field. destruct (negb exported || _); [done |]. by destruct fv.
Qed.

Lemma flat_map_nil {A B} (h : A -> list B) l : flat_map h l = [] <-> forall x, x ∈ l -> h x = [].
Proof.
  induction l as [|y l IH]; simpl; [split; [by intros _ x H%not_elem_of_nil | done] |]. split.
  - intros [H1 H2]%app_eq_nil x [->|Hx]%elem_of_cons; [done |]. by apply IH.
  - intros H. rewrite (H y) by (by left). apply IH. intros x Hx. apply H. by right.
Qed.

Lemma run_rule_nil msgs sib name full v rule :
  run_rule parse_float valid_email valid_url regex_match parse_time msgs sib name full v rule = [] <-> unrefused sib name v rule.
Proof.
  unfold run_rule, unrefused. destruct (parseRule rule) as [r arg]. cbn [fst snd]. destruct (check_ r _ arg) as [[msg|]|]; naive_solver.
Qed.

(** [prefix] ranges over all prefixes: what is reported empty is so under any. *)
Definition silent (v : value) : Prop := forall msgs prefix, validate_ msgs v prefix = [].

Lemma dive_nil v : (forall el, el ∈ dives_into v -> (forall msgs prefix, validate_ msgs el prefix = [] -> silent el)) ->
  forall msgs full, dive_report msgs v full = [] <-> forall el, el ∈ dives_into v -> silent el.
Proof.
  intros Hs msgs full. destruct v; cbn [dive_report dives_into] in *; try (split; [by intros _ el H%not_elem_of_nil | done]).
  - generalize 0%nat. induction items as [|el items IH]; intros i; [split; [by intros _ el H%not_elem_of_nil | done] |].
    cbn [List.filter] in *. destruct el; cbn [is_struct app] in *; try (apply IH; exact Hs). split.
    + intros [H1 H2]%app_eq_nil el [->|Hel]%elem_of_cons.
      * eapply Hs; [by left | exact H1].
      * revert el Hel. eapply IH; [| exact H2]. intros el Hel. apply Hs. by right.
    + intros H. rewrite (H (VStruct fields)) by (by left). apply IH; [intros el Hel; apply Hs; by right |]. intros el Hel. apply H. by right.
  - split; [intros H el ->%list_elem_of_singleton; eapply Hs; [by left | exact H] | intros H; apply H; by left].
Qed.

Lemma one_field_nil msgs sib prefix n json tag v :
  (forall msgs full, dive_report msgs v full = [] <-> forall el, el ∈ dives_into v -> silent el) ->
  one_field msgs sib prefix (SF n true json tag v) = [] <->
  (tag <> "" -> forall rule, rule ∈ splitRules tag -> rule <> "" ->
     (rule <> "dive" -> unrefused sib (fieldName n json) v rule) /\ (rule = "dive" -> forall el, el ∈ dives_into v -> silent el)).
Proof.
  intros Hd. cbn [one_field negb orb]. destruct (String.eqb_spec tag ""); [naive_solver |]. unfold field_report. rewrite flat_map_nil. split.
  - intros H _ rule Hr Hne. specialize (H rule Hr). destruct (String.eqb_spec rule ""); [done |]. destruct (String.eqb_spec rule "dive").
    + split; [done |]. intros _. exact (proj1 (Hd _ _) H).
    + split; [| done]. intros _. by apply run_rule_nil in H.
  - intros H rule Hr. destruct (String.eqb_spec rule ""); [done |]. destruct (H n0 rule Hr n1) as [H1 H2].
    destruct (String.eqb_spec rule "dive"); [by apply (proj2 (Hd _ _)), H2 | by apply run_rule_nil, H1].
Qed.

Fixpoint vsize (v : value) : nat :=
  match v with
  | VSlice _ items => S (sum_list_with vsize items)
  | VStruct fields => S (sum_list_with (fun f => match f with SF _ _ _ _ v => vsize v end) fields)
  | _ => 1%nat
  end.

Lemma sum_list_in {A} (h : A -> nat) x l : x ∈ l -> (h x <= sum_list_with h l)%nat.
Proof. induction l as [|y l IH]; [by intros ?%not_elem_of_nil |]. intros [->|Hx]%elem_of_cons; simpl; [lia |]. specialize (IH Hx). lia. Qed.

Lemma dives_smaller v el : el ∈ dives_into v -> (vsize el <= vsize v)%nat.
Proof.
  destruct v; simpl; try by intros ?%not_elem_of_nil.
  - intros [Hin _]%list_elem_of_In%filter_In. apply list_elem_of_In in Hin. pose proof (sum_list_in vsize el items Hin). lia.
  - by intros ->%list_elem_of_singleton.
Qed.

Lemma field_smaller n e json tag v fields : SF n e json tag v ∈ fields -> (vsize v < vsize (VStruct fields))%nat.
Proof. intros H. simpl. pose proof (sum_list_in (fun f => match f with SF _ _ _ _ v => vsize v end) _ _ H) as Hs. simpl in Hs. lia. Qed.

Lemma validate_accepts k v : (vsize v < k)%nat -> forall msgs prefix, validate_ msgs v prefix = [] <-> accepts v.
Proof.
  revert v. induction k as [|k IH]; intros v Hk msgs prefix; [lia |]. destruct (is_struct v) eqn:Hv.
  2: { split; [by constructor | by destruct v]. }
  destruct v as [| | | | | | | | |fields|]; try done. rewrite validate_struct_eq, flat_map_nil.
  assert (Hsmall : forall n e json tag w el, SF n e json tag w ∈ fields -> el ∈ dives_into w -> (vsize el < k)%nat).
  { intros n e json tag w el Hf Hel. pose proof (field_smaller _ _ _ _ _ _ Hf). pose proof (dives_smaller _ _ Hel). lia. }
  assert (Hone : forall n json tag w, SF n true json tag w ∈ fields -> forall msgs full, dive_report msgs w full = [] <-> forall el, el ∈ dives_into w -> silent el).
  { intros n json tag w Hf. apply dive_nil. intros el Hel ms p H ms' p'. apply (IH el (Hsmall _ _ _ _ _ _ Hf Hel)). by apply (IH el (Hsmall _ _ _ _ _ _ Hf Hel)) in H. }
  split.
  - intros H. apply acc_struct.
    + intros n json tag w rule Hf Ht Hr Hne Hd. specialize (H _ Hf). rewrite (one_field_nil _ _ _ _ _ _ _ (Hone _ _ _ _ Hf)) in H. by apply (H Ht rule).
    + intros n json tag w el Hf Ht Hr Hel. specialize (H _ Hf). rewrite (one_field_nil _ _ _ _ _ _ _ (Hone _ _ _ _ Hf)) in H.
      apply (IH el (Hsmall _ _ _ _ _ _ Hf Hel) msgs ""). by apply (H Ht "dive").
  - intros Ha [n e json tag w] Hf. destruct e; [| done]. inversion Ha as [? Hno|? H1 H2]; subst; [done |].
    apply (one_field_nil _ _ _ _ _ _ _ (Hone _ _ _ _ Hf)). intros Ht rule Hr Hne. split; [intros Hd; by eapply H1 |].
    intros -> el Hel ms p. apply (IH el (Hsmall _ _ _ _ _ _ Hf Hel)). by eapply H2.
Qed.
End Structs.

(** C27: A struct is accepted exactly when it should be: [Validate] reports nothing
    if and only if no rule of any tagged, exported field refuses its value, all the
    way down: every struct reached through [dive], in a field or in any element of
    a list, is held to its own rules; overriding messages changes nothing. *)
Theorem Validate_exact parse_float valid_email valid_url regex_match parse_time v msgs :
  ValidateWith parse_float valid_email valid_url regex_match parse_time v msgs = [] <->
  accepts parse_float valid_email valid_url regex_match parse_time v.
Proof. apply (validate_accepts _ _ _ _ _ (S (vsize v))). lia. Qed.

(** ** Examples, and what modelling showed *)

Definition example_float (s : string) : option float64 := float_of_Z <$> ParseInt s.
Definition example_check : string -> field -> string -> option (option string) :=
  check example_float (has_byte "@") (has_byte ":") (fun _ _ => Some true) (fun _ _ => true).
Definition example_Map (data : list (string * value)) (rules : list (string * list string)) : gmap string (list string) :=
  ValidationErrors (MapWith example_float (has_byte "@") (has_byte ":") (fun _ _ => Some true) (fun _ _ => true) data rules []).

Definition signup : list (string * value) := [("email", VStr "bad"); ("age", VInt 5)].
Definition signup_rules : list (string * list string) := [("email", ["required"; "email"]); ("age", ["required"; "gte=18"]); ("name", ["required"])].

Lemma map_errors_exact_witness :
  example_Map signup signup_rules !! "age" = Some ["must be >= 18"] /\ example_Map signup signup_rules = example_Map signup (rev signup_rules).
Proof.
  assert (Hnd : NoDup (map fst signup_rules)) by (refine (bool_decide_unpack _ _); vm_compute; exact I).
  destruct (map_errors_exact example_float (has_byte "@") (has_byte ":") (fun _ _ => Some true) (fun _ _ => true) signup signup_rules (rev signup_rules) []
    Hnd (Permutation_rev signup_rules)) as [H1 H2].
  split; [| exact H2]. unfold example_Map. rewrite (H1 "age"). vm_compute. reflexivity.
Defined.

(** A dive into a list of structs reports the index. *)
Example dive_path :
  Validate example_float (has_byte "@") (has_byte ":") (fun _ _ => Some true) (fun _ _ => true)
    (VStruct [SF "Items" true "items" "required,dive" (VSlice true [VStruct [SF "SKU" true "sku" "required" (VStr "x")]; VStruct [SF "SKU" true "sku" "required" (VStr " ")]])])
  = [("items.1.sku", "is required")].
Proof. vm_compute. reflexivity. Qed.

(** [eqfield] (and [confirmed]) compare two lists, and a text with a number, by
    length. *)
Lemma eqfield_by_length :
  example_check "eqfield" (mkField "a" (VSlice true [VInt 1; VInt 2]) [("b", VSlice true [VInt 3; VInt 4])]) "b" = Some None /\
  example_check "eqfield" (mkField "a" (VStr "abc") [("b", VInt 3)]) "b" = Some None.
Proof. vm_compute. done. Qed.

(** The typed rules pass any value that is no text: a fraction or a truth value is
    an [integer], a number is [alpha]. *)
Lemma typed_rules_skip_numbers v arg sib name : asString v = None ->
  example_check "integer" (mkField name v sib) arg = Some None /\ example_check "alpha" (mkField name v sib) arg = Some None /\
  example_check "in" (mkField name v sib) arg = Some None /\ example_check "uuid" (mkField name v sib) arg = Some None.
Proof. intros H. unfold example_check, check, on_text. cbn [String.eqb Ascii.eqb Bool.eqb f_value]. by rewrite H. Qed.

(** A text that is no number passes every numeric bound. *)
Lemma bounds_skip_words : example_check "gte" (mkField "age" (VStr "abc") []) "18" = Some None.
Proof. vm_compute. reflexivity. Qed.

(** The characters of the messages are bytes. *)
Lemma max_counts_bytes :
  example_check "max" (mkField "name" (VStr (String (ascii_of 195) (String (ascii_of 169) ""))) []) "1" = Some (Some "must not be greater than 1 characters").
Proof. vm_compute. reflexivity. Qed.

(** A blank before [regex=] makes its commas separators. *)
Lemma regex_after_blank :
  splitRules "required,regex=a{1,2}" = ["required"; "regex=a{1,2}"] /\ splitRules "required, regex=a{1,2}" = ["required"; "regex=a{1"; "2}"].
Proof. vm_compute. done. Qed.
