(* ===== verification/OAuth.v ===== *)
(** Social login: [src/auth/oauth/oauth.go].

    - [AuthCodeURL] builds the redirect, [Exchange] and [User_] the two requests and
      the reading of their answers; [send] is the HTTP client.
    - [SignedState] and [VerifyState] are the stateless CSRF state; the base64url
      HMAC-SHA256 of a text under the signer's key is [mac_of], the base64url SHA-256
      is [sha256], the random draws are arguments.
    - JSON decoding is an argument ([parse_json], one decoder per claims record, [raw_map]). *)

From Stdlib Require Import ZArith Lia Ascii.
From Stdlib Require String.
From stdpp Require Import base gmap strings list numbers.
From S2P Require Import Prelude GoRt GoStrconv GoStrings GoUtf8 Secret GoUrl SignedUrl.

#[local] Set Warnings "-register-all".
#[local] Open Scope string_scope.
#[local] Open Scope list_scope.
#[local] Open Scope Z_scope.

Record Config := mkConfig { ClientID : string; ClientSecret : string; RedirectURL : string; Scopes : list string }.

(** [R] is a decoded JSON object. *)
Record User (R : Type) := mkUser { ID : string; Name : string; Email : string; Avatar : string; Raw : option R }.
Arguments mkUser {R}. Arguments ID {R}. Arguments Name {R}. Arguments Email {R}. Arguments Avatar {R}. Arguments Raw {R}.

Record Token := mkToken { AccessToken : string; TokenType : string; RefreshToken : string; IDToken : string; Expiry : Time }.

Definition Valid (now : Time) (t : Token) : bool :=
  if String.eqb (AccessToken t) "" then false else IsZero (Expiry t) || Before now (Expiry t).

Record Provider (R : Type) := mkProvider {
  config : Config; AuthURL : string; TokenURL : string; UserInfoURL : string; mapUser : string -> option (User R) }.
Arguments mkProvider {R}. Arguments config {R}. Arguments AuthURL {R}. Arguments TokenURL {R}. Arguments UserInfoURL {R}. Arguments mapUser {R}.

Record tokenResponse := mkResponse {
  t_access : string; t_type : string; t_refresh : string; t_id : string; t_expires : Z; t_error : string; t_description : string }.

Record request := mkRequest { method : string; r_url : string; headers : list (string * string); body : string }.

Inductive oauth_error (E : Type) :=
| ErrTokenResponse (text : string)
| ErrUserInfoResponse (text : string)
| ErrDecode
| ErrMap
| ErrRequest (e : E)
| ErrRandom.
Arguments ErrTokenResponse {E}. Arguments ErrUserInfoResponse {E}. Arguments ErrDecode {E}. Arguments ErrMap {E}. Arguments ErrRequest {E}. Arguments ErrRandom {E}.

(** ** The redirect *)

Definition set_unless_empty (k v : string) (q : Values) : Values := if String.eqb v "" then q else values_Set q k v.

Definition auth_values (c : Config) (state challenge : string) : Values :=
  let q := values_Set (values_Set (values_Set ∅ "response_type" "code") "client_id" (ClientID c)) "redirect_uri" (RedirectURL c) in
  let q := match Scopes c with [] => q | l => values_Set q "scope" (GoStrings.Join " " l) end in
  let q := values_Set q "state" state in
  if String.eqb challenge "" then q else values_Set (values_Set q "code_challenge" challenge) "code_challenge_method" "S256".

Definition AuthCodeURL {R} (p : Provider R) (state challenge : string) (extra : list Values) : string :=
  let q := fold_left (fun q ev => ev ∪ q) extra (auth_values (config p) state challenge) in
  (AuthURL p +:+ (if has_byte "?" (AuthURL p) then "&" else "?") +:+ Encode q)%string.

(** ** The exchange *)

Definition exchange_form (c : Config) (code verifier : string) : Values :=
  set_unless_empty "code_verifier" verifier (set_unless_empty "client_secret" (ClientSecret c)
    (values_Set (values_Set (values_Set (values_Set ∅ "grant_type" "authorization_code") "code" code) "redirect_uri" (RedirectURL c))
       "client_id" (ClientID c))).

Fixpoint looksJSON (s : string) : bool :=
  match s with
  | EmptyString => false
  | String c s =>
      let b := byte_of c in
      if (b =? 32) || (b =? 9) || (b =? 13) || (b =? 10) then looksJSON s else (b =? 123) || (b =? 91)
  end.

(** Whether [url.ParseQuery] reports an error. *)
Definition query_malformed (raw : string) : bool :=
  existsb (fun seg => negb (String.eqb seg "") && match parse_segment seg with Some _ => false | None => true end) (Split "&" raw).

Definition form_response (raw : string) : tokenResponse :=
  let v := ParseQuery raw in
  mkResponse (values_Get v "access_token") (values_Get v "token_type") (values_Get v "refresh_token") (values_Get v "id_token")
    (default 0 (if String.eqb (values_Get v "expires_in") "" then None else ParseInt (values_Get v "expires_in")))
    (values_Get v "error") (values_Get v "error_description").

Definition tokenErrText (tr : tokenResponse) (body : string) : string :=
  if String.eqb (t_error tr) "" then TrimSpace body
  else if String.eqb (t_description tr) "" then t_error tr else (t_error tr +:+ ": " +:+ t_description tr)%string.

Definition success (status : Z) : bool := (200 <=? status) && (status <? 300).

(** [io.LimitReader(body, 1<<20)]. *)
Definition limited (s : string) : string := String.substring 0 (Z.to_nat 1048576) s.

(** [time.Now().Add(time.Duration(n) * time.Second)], whose product wraps. *)
Definition expiry_of (now : Time) (n : Z) : Time := if 0 <? n then now + i64 (n * Second) else zero_time.

Section Client.
Context {E R : Type} (parse_json : string -> option tokenResponse) (send : request -> result E (Z * string)).

Definition read_token (now : Time) (status : Z) (b : string) : result (oauth_error E) Token :=
  match (if looksJSON b then parse_json b else if query_malformed b then None else Some (form_response b)) with
  | None => Err ErrDecode
  | Some tr =>
      if negb (success status) then Err (ErrTokenResponse ("status " +:+ FormatInt status +:+ ": " +:+ tokenErrText tr b)%string)
      else if negb (String.eqb (t_error tr) "") then Err (ErrTokenResponse (t_error tr +:+ ": " +:+ t_description tr)%string)
      else if String.eqb (t_access tr) "" then Err (ErrTokenResponse "empty access_token")
      else Ok (mkToken (t_access tr) (t_type tr) (t_refresh tr) (t_id tr) (expiry_of now (t_expires tr)))
  end.

Definition exchange_request (p : Provider R) (code verifier : string) : request :=
  mkRequest "POST" (TokenURL p) [("Content-Type", "application/x-www-form-urlencoded"); ("Accept", "application/json")]
    (Encode (exchange_form (config p) code verifier)).

Definition Exchange (p : Provider R) (now : Time) (code verifier : string) : result (oauth_error E) Token :=
  match send (exchange_request p code verifier) with
  | Err e => Err (ErrRequest e)
  | Ok (status, b) => read_token now status (limited b)
  end.

Definition User_ (p : Provider R) (tok : option Token) : result (oauth_error E) (User R) :=
  match tok with
  | None => Err (ErrUserInfoResponse "missing access token")
  | Some t =>
      if String.eqb (AccessToken t) "" then Err (ErrUserInfoResponse "missing access token")
      else match send (mkRequest "GET" (UserInfoURL p) [("Authorization", "Bearer " +:+ AccessToken t); ("Accept", "application/json")] "") with
           | Err e => Err (ErrRequest e)
           | Ok (status, b) =>
               let b := limited b in
               if negb (success status) then Err (ErrUserInfoResponse ("status " +:+ FormatInt status +:+ ": " +:+ TrimSpace b)%string)
               else match mapUser p b with Some u => Ok u | None => Err ErrMap end
           end
  end.
End Client.

(** ** PKCE and state *)

Definition randString {E} (draw : option (list Z)) : result (oauth_error E) string :=
  match draw with Some bytes => Ok (base64url bytes) | None => Err ErrRandom end.
Definition NewVerifier {E} (draw : option (list Z)) : result (oauth_error E) string := randString draw.
Definition NewState {E} (draw : option (list Z)) : result (oauth_error E) string := randString draw.
Definition Challenge (sha256 : string -> string) (verifier : string) : string := sha256 verifier.

(** The text before and after the last [sep]. *)
Fixpoint cut_last (sep : ascii) (s : string) : option (string * string) :=
  match s with
  | EmptyString => None
  | String c s =>
      match cut_last sep s with
      | Some (a, b) => Some (String c a, b)
      | None => if Ascii.eqb c sep then Some (EmptyString, s) else None
      end
  end.

Section Key.
Context (mac_of : string -> string).

Definition state_payload (now : Time) (ttl : Duration) (nonce : string) : string :=
  (nonce +:+ "." +:+ FormatInt (if (0 <? ttl)%Z then Unix (time_Add now ttl) else 0%Z))%string.

Definition SignedState {E} (now : Time) (ttl : Duration) (draw : option (list Z)) : result (oauth_error E) string :=
  match randString draw with
  | Err e => Err e
  | Ok nonce => let payload := state_payload now ttl nonce in Ok (payload +:+ "." +:+ mac_of payload)%string
  end.

(** Both parts of a text around its last dot, neither of them empty. *)
Definition dot_parts (s : string) : option (string * string) :=
  match cut_last "." s with
  | Some (a, b) => if String.eqb a "" || String.eqb b "" then None else Some (a, b)
  | None => None
  end.

(** [true]: accepted; [false] is [ErrInvalidState]. *)
Definition VerifyState (now : Time) (state : string) : bool :=
  match dot_parts state with
  | None => false
  | Some (payload, gotSig) =>
      String.eqb gotSig (mac_of payload) &&
      match dot_parts payload with
      | None => false
      | Some (_, e) =>
          match ParseInt e with
          | None => false
          | Some expUnix => negb (negb (expUnix =? 0) && (expUnix <? Unix now))
          end
      end
  end.
End Key.

(** ** Providers *)

Record google_claims := mkGoogle { go_sub : string; go_name : string; go_email : string; go_picture : string }.
Record github_claims := mkGitHub { gh_id : Z; gh_login : string; gh_name : string; gh_email : string; gh_avatar : string }.
Record oidc_claims := mkOIDC { oi_sub : string; oi_name : string; oi_preferred : string; oi_email : string; oi_picture : string }.

Section Mappers.
Context {R : Type} (google_of : string -> option google_claims) (github_of : string -> option github_claims)
  (oidc_of : string -> option oidc_claims) (raw_map : string -> option R).

Definition mapGoogleUser (raw : string) : option (User R) :=
  m ← google_of raw; Some (mkUser (go_sub m) (go_name m) (go_email m) (go_picture m) (raw_map raw)).
Definition mapGitHubUser (raw : string) : option (User R) :=
  m ← github_of raw;
  let name := if String.eqb (gh_name m) "" then gh_login m else gh_name m in
  Some (mkUser (FormatInt (gh_id m)) name (gh_email m) (gh_avatar m) (raw_map raw)).
Definition mapOIDCUser (raw : string) : option (User R) :=
  m ← oidc_of raw;
  let name := if String.eqb (oi_name m) "" then oi_preferred m else oi_name m in
  Some (mkUser (oi_sub m) name (oi_email m) (oi_picture m) (raw_map raw)).

Definition with_scopes (defaults : list string) (c : Config) : Config :=
  match Scopes c with [] => mkConfig (ClientID c) (ClientSecret c) (RedirectURL c) defaults | _ => c end.

Definition Google (c : Config) : Provider R :=
  mkProvider (with_scopes ["openid"; "email"; "profile"] c) "https://accounts.google.com/o/oauth2/v2/auth" "https://oauth2.googleapis.com/token"
    "https://openidconnect.googleapis.com/v1/userinfo" mapGoogleUser.
Definition GitHub (c : Config) : Provider R :=
  mkProvider (with_scopes ["read:user"; "user:email"] c) "https://github.com/login/oauth/authorize" "https://github.com/login/oauth/access_token"
    "https://api.github.com/user" mapGitHubUser.
Definition Generic (c : Config) (auth token userInfo : string) (mapper : option (string -> option (User R))) : Provider R :=
  mkProvider c auth token userInfo (default mapOIDCUser mapper).
End Mappers.

(** ** Laws *)

Lemma cut_last_join sep a b : has_byte sep b = false -> cut_last sep (a +:+ String sep b)%string = Some (a, b).
Proof.
  intros Hb. assert (Hn : forall s, has_byte sep s = false -> cut_last sep s = None).
  { induction s as [|c s IH]; [done |]. cbn [has_byte cut_last]. intros [Hc Hs]%orb_false_elim. by rewrite IH, Hc. }
  induction a as [|c a IH]; [change ((EmptyString +:+ String sep b)%string) with (String sep b); cbn [cut_last]; by rewrite Hn, Ascii.eqb_refl |].
  change ((String c a +:+ String sep b)%string) with (String c (a +:+ String sep b)%string). cbn [cut_last]. by rewrite IH.
Qed.

Lemma cut_last_sound sep s a b : cut_last sep s = Some (a, b) -> s = (a +:+ String sep b)%string.
Proof.
  revert a. induction s as [|c s IH]; intros a; cbn [cut_last]; [done |]. destruct (cut_last sep s) as [[a' b']|].
  - intros [= <- <-]. by rewrite (IH a').
  - destruct (Ascii.eqb_spec c sep) as [->|]; [| done]. by intros [= <- <-].
Qed.

Lemma dot_parts_join a b : has_byte "." b = false -> a <> "" -> b <> "" -> dot_parts (a +:+ "." +:+ b)%string = Some (a, b).
Proof.
  intros Hb Ha Hne. unfold dot_parts. change ((a +:+ "." +:+ b)%string) with (a +:+ String "." b)%string. rewrite cut_last_join by done.
  by destruct (String.eqb_spec a ""), (String.eqb_spec b "").
Qed.

Lemma dot_parts_empty b : has_byte "." b = false -> dot_parts ("" +:+ "." +:+ b)%string = None.
Proof. intros Hb. unfold dot_parts. change (("" +:+ "." +:+ b)%string) with ("" +:+ String "." b)%string. by rewrite cut_last_join. Qed.

Lemma dot_parts_sound s a b : dot_parts s = Some (a, b) -> s = (a +:+ "." +:+ b)%string.
Proof.
  unfold dot_parts. destruct (cut_last "." s) as [[a' b']|] eqn:E; [| done]. destruct (_ || _); [done |]. intros [= <- <-]. by apply cut_last_sound.
Qed.

Lemma FormatInt_nonempty n : FormatInt n <> "".
Proof.
  unfold FormatInt. destruct (format_uint_first n) as (c & s & H & _). destruct (n <? 0); [done |]. by rewrite H.
Qed.

(** *** The redirect and the exchange *)

Lemma fresh_ok : values_ok ∅.
Proof. intros k. by rewrite lookup_empty. Qed.

Lemma set_unless_empty_ok k v q : values_ok q -> values_ok (set_unless_empty k v q).
Proof. unfold set_unless_empty. destruct (String.eqb v ""); [done | apply set_ok]. Qed.

Create HintDb oauth.
#[local] Hint Resolve fresh_ok set_unless_empty_ok set_ok : oauth.

Lemma auth_values_ok c state challenge : values_ok (auth_values c state challenge).
Proof. unfold auth_values. destruct (Scopes c), (String.eqb challenge ""); auto 12 with oauth. Qed.

Lemma exchange_form_ok c code verifier : values_ok (exchange_form c code verifier).
Proof. unfold exchange_form. auto 12 with oauth. Qed.

Lemma get_set q k k' v : values_Get (values_Set q k v) k' = if String.eqb k k' then v else values_Get q k'.
Proof.
  unfold values_Get, values_Set. destruct (String.eqb_spec k k') as [-> | Hne]; [by rewrite lookup_insert_eq | by rewrite lookup_insert_ne].
Qed.

Lemma get_set_unless q k k' v : values_Get (set_unless_empty k v q) k' = if negb (String.eqb v "") && String.eqb k k' then v else values_Get q k'.
Proof. unfold set_unless_empty. destruct (String.eqb v ""); [done | by rewrite get_set]. Qed.

(** What the provider reads of the redirect. *)
Definition auth_reads (c : Config) (state challenge name : string) : string :=
  if String.eqb name "response_type" then "code"
  else if String.eqb name "client_id" then ClientID c
  else if String.eqb name "redirect_uri" then RedirectURL c
  else if String.eqb name "scope" then GoStrings.Join " " (Scopes c)
  else if String.eqb name "state" then state
  else if String.eqb name "code_challenge" then challenge
  else if String.eqb name "code_challenge_method" then (if String.eqb challenge "" then "" else "S256")
  else "".

Lemma auth_values_read c state challenge name : values_Get (auth_values c state challenge) name = auth_reads c state challenge name.
Proof.
  unfold auth_values, auth_reads.
  destruct (Scopes c) as [|s l], (String.eqb_spec challenge "") as [->|]; rewrite ?get_set, !(String.eqb_sym _ name);
    repeat case_match; simplify_eq; try done;
    repeat match goal with H : String.eqb name _ = true |- _ => apply String.eqb_eq in H; subst name end; done.
Qed.

(** The query string of the redirect, read back by the provider, carries exactly
    the response type, the client, the address to return to, the scopes, the state and
    the challenge with its method, no other value; the text before it is the provider's
    address. *)
Theorem redirect_reads {R} (p : Provider R) state challenge :
  has_byte "?" (AuthURL p) = false ->
  exists query, AuthCodeURL p state challenge [] = (AuthURL p +:+ "?" +:+ query)%string /\
    forall name, values_Get (ParseQuery query) name = auth_reads (config p) state challenge name.
Proof.
  intros Hq. exists (Encode (auth_values (config p) state challenge)). split.
  - unfold AuthCodeURL. by rewrite Hq.
  - intros name. rewrite ParseQuery_Encode by apply auth_values_ok. apply auth_values_read.
Qed.

Lemma redirect_reads_witness :
  exists query, AuthCodeURL (GitHub (R := unit) (fun _ => None) (fun _ => None) (mkConfig "id" "secret" "https://a.io/cb" [])) "st" "ch" []
    = ("https://github.com/login/oauth/authorize?" +:+ query)%string /\
    values_Get (ParseQuery query) "scope" = "read:user user:email" /\ values_Get (ParseQuery query) "client_secret" = "".
Proof.
  destruct (redirect_reads (GitHub (R := unit) (fun _ => None) (fun _ => None) (mkConfig "id" "secret" "https://a.io/cb" [])) "st" "ch" eq_refl)
    as (query & -> & H). exists query. split; [reflexivity |]. split; [exact (H "scope") | exact (H "client_secret")].
Defined.

Section Signed.
Context (mac_of : string -> string) (mac_nonempty : forall text, mac_of text <> "") (mac_undotted : forall text, has_byte "." (mac_of text) = false).

Lemma dot_not_decimal : not_decimal ".".
Proof. split; [left; by vm_compute | done]. Qed.

(** The accepted states: a text, a second in decimal and the signature of both. *)
Lemma VerifyState_sound later s :
  VerifyState mac_of later s = true ->
  exists nonce e second, s = (nonce +:+ "." +:+ e +:+ "." +:+ mac_of (nonce +:+ "." +:+ e))%string /\
    ParseInt e = Some second /\ (second = 0 \/ Unix later <= second).
Proof.
  unfold VerifyState. destruct (dot_parts s) as [[payload got]|] eqn:Es; [| done]. apply dot_parts_sound in Es.
  intros [Hm%String.eqb_eq H]%andb_prop. destruct (dot_parts payload) as [[nonce e]|] eqn:Ep; [| done]. apply dot_parts_sound in Ep.
  destruct (ParseInt e) as [second|] eqn:Ee; [| done]. exists nonce, e, second. split; [| split; [done |]].
  - rewrite Es, Hm, Ep. by rewrite !str_app_assoc.
  - destruct (Z.eqb_spec second 0) as [->|]; [by left |]. right. destruct (Z.ltb_spec second (Unix later)); [done | lia].
Qed.

Lemma VerifyState_complete later nonce second :
  nonce <> "" -> min_i64 <= second <= max_i64 ->
  VerifyState mac_of later (nonce +:+ "." +:+ FormatInt second +:+ "." +:+ mac_of (nonce +:+ "." +:+ FormatInt second))%string
  = (second =? 0) || (Unix later <=? second).
Proof.
  intros Hn Hr. unfold VerifyState.
  replace (nonce +:+ "." +:+ FormatInt second +:+ "." +:+ mac_of (nonce +:+ "." +:+ FormatInt second))%string
    with ((nonce +:+ "." +:+ FormatInt second) +:+ "." +:+ mac_of (nonce +:+ "." +:+ FormatInt second))%string by (by rewrite !str_app_assoc).
  rewrite dot_parts_join; [| done | by destruct nonce | done]. rewrite String.eqb_refl. cbn [andb].
  rewrite dot_parts_join; [| apply FormatInt_bytes, dot_not_decimal | done | apply FormatInt_nonempty].
  rewrite ParseInt_FormatInt by done. destruct (Z.eqb_spec second 0) as [->|]; [done |]. cbn [negb andb orb].
  by rewrite Z.ltb_antisym, negb_involutive.
Qed.
End Signed.

(** C20: a state issued with a lifetime is accepted until the second of its expiry has
    passed, one issued without is accepted for ever; and a state that is accepted while
    it carries the signature of an issued one is that issued state, or its text and the
    issued one collide under the signature. *)
Theorem state_life (mac_of : string -> string) {E} now ttl draw later issued :
  (forall text, mac_of text <> "") -> (forall text, has_byte "." (mac_of text) = false) -> draw <> [] ->
  min_i64 <= Unix (now + ttl) <= max_i64 -> Unix (now + ttl) <> 0 ->
  SignedState (E := E) mac_of now ttl (Some draw) = Ok issued ->
  VerifyState mac_of later issued = negb ((0 <? ttl) && (Unix (now + ttl) <? Unix later)) /\
  (forall other, VerifyState mac_of later (other +:+ "." +:+ mac_of (state_payload now ttl (base64url draw)))%string = true ->
   (other +:+ "." +:+ mac_of (state_payload now ttl (base64url draw)))%string = issued \/
   (other <> state_payload now ttl (base64url draw) /\ mac_of other = mac_of (state_payload now ttl (base64url draw)))).
Proof.
  intros Hne Hdot Hd Hr Hz. unfold SignedState, randString. intros [= <-]. split.
  - unfold state_payload at 1. rewrite !str_app_assoc.
    change (time_Add now ttl) with (now + ttl). unfold state_payload. change (time_Add now ttl) with (now + ttl).
    rewrite VerifyState_complete; [| done | done | by apply base64url_nonempty | destruct (0 <? ttl); [done | unfold min_i64, max_i64; lia]].
    destruct (0 <? ttl); [| done]. cbn [andb]. rewrite (proj2 (Z.eqb_neq _ _) Hz). cbn [orb]. by rewrite Z.ltb_antisym, negb_involutive.
  - intros other Hv. destruct (String.eqb_spec other (state_payload now ttl (base64url draw))) as [-> | Hn]; [by left | right].
    split; [done |]. unfold VerifyState in Hv.
    destruct (String.eqb_spec other "") as [->|Ho]; [by rewrite dot_parts_empty in Hv |].
    rewrite dot_parts_join in Hv by done.
    by apply andb_prop in Hv as [->%String.eqb_eq _].
Qed.

Definition toy_mac (text : string) : string := String "m" (FormatInt (Z.of_nat (String.length text))).
Definition issued_at : Time := (62135596800 + 1700000000) * Second.

Lemma toy_mac_undotted text : has_byte "." (toy_mac text) = false.
Proof. unfold toy_mac. cbn [has_byte]. by rewrite FormatInt_bytes by apply dot_not_decimal. Qed.

Lemma state_life_witness :
  VerifyState toy_mac (issued_at + 60 * Second) "AQID.1700000060.m15" = true /\
  VerifyState toy_mac (issued_at + 61 * Second) "AQID.1700000060.m15" = false.
Proof.
  assert (Hi : SignedState (E := unit) toy_mac issued_at (60 * Second) (Some [1; 2; 3]) = Ok "AQID.1700000060.m15") by (vm_compute; reflexivity).
  split.
  - destruct (state_life toy_mac issued_at (60 * Second) [1; 2; 3] (issued_at + 60 * Second) _ ltac:(done) toy_mac_undotted ltac:(done)
      ltac:(vm_compute; split; discriminate) ltac:(vm_compute; discriminate) Hi) as [-> _]. vm_compute. reflexivity.
  - destruct (state_life toy_mac issued_at (60 * Second) [1; 2; 3] (issued_at + 61 * Second) _ ltac:(done) toy_mac_undotted ltac:(done)
      ltac:(vm_compute; split; discriminate) ltac:(vm_compute; discriminate) Hi) as [-> _]. vm_compute. reflexivity.
Defined.

(** *** The token endpoint *)

(** What the token endpoint reads of the posted form. *)
Definition exchange_reads (c : Config) (code verifier name : string) : string :=
  if String.eqb name "grant_type" then "authorization_code"
  else if String.eqb name "code" then code
  else if String.eqb name "redirect_uri" then RedirectURL c
  else if String.eqb name "client_id" then ClientID c
  else if String.eqb name "client_secret" then ClientSecret c
  else if String.eqb name "code_verifier" then verifier
  else "".

Lemma exchange_form_read c code verifier name :
  values_Get (exchange_form c code verifier) name = exchange_reads c code verifier name.
Proof.
  unfold exchange_form, exchange_reads. rewrite !get_set_unless, !get_set, !(String.eqb_sym _ name).
  destruct (String.eqb_spec verifier "") as [->|], (String.eqb_spec (ClientSecret c) "") as [Hs|]; cbn [negb andb];
    repeat case_match; simplify_eq; try done;
    repeat match goal with H : String.eqb name _ = true |- _ => apply String.eqb_eq in H; subst name end; done.
Qed.

(** The reply the endpoint's body stands for. *)
Definition decoded (parse_json : string -> option tokenResponse) (b : string) : option tokenResponse :=
  if looksJSON b then parse_json b else if query_malformed b then None else Some (form_response b).

(** A token is returned exactly when the endpoint answers with a success whose body
    decodes to an access token and no error; the code and the verifier travel in the
    posted form. *)
Theorem Exchange_exact {E R} parse_json (send : request -> result E (Z * string)) (p : Provider R) now code verifier tok :
  (forall name, values_Get (ParseQuery (body (exchange_request p code verifier))) name = exchange_reads (config p) code verifier name) /\
  (Exchange parse_json send p now code verifier = Ok tok <->
   exists status b tr, send (exchange_request p code verifier) = Ok (status, b) /\ success status = true /\
     decoded parse_json (limited b) = Some tr /\ t_error tr = "" /\ t_access tr <> "" /\
     tok = mkToken (t_access tr) (t_type tr) (t_refresh tr) (t_id tr) (expiry_of now (t_expires tr))).
Proof.
  split.
  { intros name. cbn [body exchange_request]. rewrite ParseQuery_Encode by apply exchange_form_ok. apply exchange_form_read. }
  unfold Exchange. destruct (send _) as [[status b] | e]; [| split; [done | intros (st & b & tr & H & _); discriminate H]].
  unfold read_token. fold (decoded parse_json (limited b)). split.
  - destruct (decoded _ _) as [tr|] eqn:Ed; [| done]. destruct (success status) eqn:Es; [cbn [negb] | done].
    destruct (String.eqb_spec (t_error tr) "") as [Ee|]; [cbn [negb] | done].
    destruct (String.eqb_spec (t_access tr) "") as [|Ha]; [done |]. intros [= <-]. by exists status, b, tr.
  - intros (st & b' & tr & [= <- <-] & -> & -> & He & Ha & ->). cbn [negb]. rewrite He. cbn [String.eqb negb].
    by rewrite (proj2 (String.eqb_neq _ _) Ha).
Qed.

(** [expires_in] seconds as nanoseconds pass 64 bits: a lifetime of 292 years is an
    expiry in the past, and the fresh token is not valid. *)
Theorem long_life_expired :
  Valid issued_at (mkToken "a" "Bearer" "" "" (expiry_of issued_at 9223372037)) = false /\
  Valid issued_at (mkToken "a" "Bearer" "" "" (expiry_of issued_at 9223372036)) = true.
Proof. split; vm_compute; reflexivity. Qed.
