(* ===== verification/Search.v ===== *)
(** Full-text search: [src/search/].

    - Tokens ([tokenize.go]) over decoded runes; the Unicode tables ([unicode.ToLower],
      [IsLetter], [IsDigit]) and the rendering of a field's value by [fmt] are arguments.
    - [Memory] ([memory.go]), whose scores are sums of counts: integers, exact as
      [float64] below 2^53. A range over a map takes its order as an argument.
    - [Indexer] ([searchable.go]) over an interface with the laws of an engine, which
      [Memory] has.
    - The statements of the Postgres engine ([postgres.go]). *)

From Stdlib Require Import ZArith Lia Ascii Sorted.
From stdpp Require Import base gmap strings list numbers sorting.
From S2P Require Import Prelude GoRt GoStrconv GoStrings GoUtf8 GoSort Sql.

#[local] Set Warnings "-register-all".
#[local] Open Scope string_scope.
#[local] Open Scope list_scope.
#[local] Open Scope Z_scope.

(** ** Tokens *)

Definition stopWords : list string :=
  ["a"; "an"; "and"; "are"; "as"; "at"; "be"; "but"; "by"; "for"; "if"; "in"; "into"; "is"; "it"; "no"; "not"; "of"; "on"; "or"; "such";
   "that"; "the"; "their"; "then"; "there"; "these"; "they"; "this"; "to"; "was"; "will"; "with"].

Definition is_stop (tok : string) : bool := existsb (String.eqb tok) stopWords.

(** Lower-case accented letters of Latin-1 and the vowels with a macron. *)
Definition foldRune (r : Z) : option string :=
  let one_of l := existsb (Z.eqb r) l in
  if one_of [0xE1; 0xE0; 0xE2; 0xE4; 0xE3; 0xE5; 0x101] then Some "a"
  else if one_of [0xE9; 0xE8; 0xEA; 0xEB; 0x113] then Some "e"
  else if one_of [0xED; 0xEC; 0xEE; 0xEF; 0x12B] then Some "i"
  else if one_of [0xF3; 0xF2; 0xF4; 0xF6; 0xF5; 0xF8; 0x14D] then Some "o"
  else if one_of [0xFA; 0xF9; 0xFB; 0xFC; 0x16B] then Some "u"
  else if r =? 0xF1 then Some "n"
  else if r =? 0xE7 then Some "c"
  else if r =? 0xDF then Some "ss"
  else None.

Fixpoint map_runes (f : Z -> string) (rs : runes) : string :=
  match rs with [] => "" | (r, _) :: rs => (f r +:+ map_runes f rs)%string end.

(** [strings.FieldsFunc]: the maximal stretches of runes that do not separate. *)
Fixpoint fields_from (sep : Z -> bool) (cur : string) (rs : runes) : list string :=
  match rs with
  | [] => if String.eqb cur "" then [] else [cur]
  | (r, b) :: rs =>
      if sep r then (if String.eqb cur "" then [] else [cur]) ++ fields_from sep "" rs
      else fields_from sep (cur +:+ b)%string rs
  end.

Section Tokens.
Context (to_lower : Z -> Z) (is_letter is_digit : Z -> bool).

Definition ToLower (s : string) : string := map_runes (fun r => encode_rune (to_lower r)) (decode_all s).
Definition IsStopWord (tok : string) : bool := is_stop (ToLower tok).
Definition fold (s : string) : string :=
  map_runes (fun r => match foldRune r with Some t => t | None => encode_rune r end) (decode_all (ToLower s)).
Definition separates (r : Z) : bool := negb (is_letter r) && negb (is_digit r).
Definition Tokenize (text : string) : list string :=
  List.filter (fun t => negb (String.eqb t "") && negb (is_stop t)) (fields_from separates "" (decode_all (fold text))).
End Tokens.

(** ** Pages *)

Definition DefaultPerPage : Z := 15.

Definition normalizePage (page perPage total : Z) : Z * Z :=
  let page := if page <? 1 then 1 else page in
  let perPage := if perPage <? 1 then DefaultPerPage else perPage in
  let lo := i64 (i64 (page - 1) * perPage) in
  let lo := if total <? lo then total else lo in
  let hi := i64 (lo + perPage) in
  (lo, if total <? hi then total else hi).

(** [l[lo:hi]]; [None] is a panic. *)
Definition slice {A} (l : list A) (lo hi : Z) : option (list A) :=
  if (0 <=? lo) && (lo <=? hi) && (hi <=? Z.of_nat (length l)) then Some (take (Z.to_nat (hi - lo)) (drop (Z.to_nat lo) l)) else None.

(** ** The memory engine *)

Section Memory.
(** [V]: the values of fields; [stringify] renders one. *)
Context {V : Type} (stringify : V -> string) (tokenize : string -> list string).

Record Document := mkDoc { ID : string; Fields : gmap string V }.
Definition Doc (id : string) (fields : gmap string V) : Document := mkDoc id fields.
Record Hit := mkHit { h_id : string; Score : Z; h_fields : gmap string V }.
Record Results := mkResults { Hits : list Hit; Total : Z }.
Record Options := mkOptions { Page : Z; PerPage : Z; Filters : gmap string V; Prefix : bool }.

Record memDoc := mkMem { m_id : string; m_fields : gmap string V; freq : gmap string Z }.
Abbreviation Memory := (gmap string (gmap string memDoc)).

Definition count_token (f : gmap string Z) (tok : string) : gmap string Z := <[tok := default 0 (f !! tok) + 1]> f.

(** [order]: the fields in the order the range visits them. *)
Definition buildFreq (order : list (string * V)) : gmap string Z :=
  fold_left (fun f kv => fold_left count_token (tokenize (stringify kv.2)) f) order ∅.

Definition prefixed (freq : gmap string Z) (q : string) : Z := map_fold (fun tok c acc => if HasPrefix tok q then acc + c else acc) 0 freq.

Definition token_score (freq : gmap string Z) (prefix : bool) (q : string) : Z :=
  match freq !! q with Some c => c | None => if prefix then prefixed freq q else 0 end.

Definition scoreDoc (freq : gmap string Z) (tokens : list string) (prefix : bool) : Z :=
  fold_left (fun score q => score + token_score freq prefix q) tokens 0.

Definition matchesFilters (fields filters : gmap string V) : bool :=
  forallb (fun kv => match fields !! kv.1 with None => false | Some got => String.eqb (stringify got) (stringify kv.2) end) (map_to_list filters).

Definition mem_doc (d : Document) : memDoc := mkMem (ID d) (Fields d) (buildFreq (map_to_list (Fields d))).

Definition Index (index : string) (docs : list Document) (m : Memory) : Memory :=
  <[index := fold_left (fun idx d => <[ID d := mem_doc d]> idx) docs (default ∅ (m !! index))]> m.

Definition Delete (index : string) (ids : list string) (m : Memory) : Memory :=
  match m !! index with None => m | Some idx => <[index := fold_left (fun idx id => delete id idx) ids idx]> m end.

(** Descending by score, then ascending by ID. *)
Definition better (a b : Hit) : bool := if Score a =? Score b then String.ltb (h_id a) (h_id b) else Score b <? Score a.

Definition hit_of (tokens : list string) (opts : Options) (d : memDoc) : option Hit :=
  if negb (matchesFilters (m_fields d) (Filters opts)) then None
  else let score := scoreDoc (freq d) tokens (Prefix opts) in
       if score <=? 0 then None else Some (mkHit (m_id d) score (m_fields d)).

Definition index_docs (m : Memory) (index : string) : gmap string memDoc := default ∅ (m !! index).

(** [order]: the documents in the order the range visits them. *)
Definition Search_ (order : list (string * memDoc)) (query : string) (opts : Options) : option Results :=
  let tokens := tokenize query in
  let matched := SliceStable better (omap (fun kd => hit_of tokens opts kd.2) order) in
  let total := Z.of_nat (length matched) in
  let '(lo, hi) := normalizePage (Page opts) (PerPage opts) total in
  hits ← slice matched lo hi; Some (mkResults hits total).
End Memory.
Arguments Document : clear implicits. Arguments Hit : clear implicits. Arguments memDoc : clear implicits. Arguments Options : clear implicits. Arguments Results : clear implicits.

(** ** Laws of the memory engine *)

#[export] Instance better_weak {V} : StrictWeak (@better V).
Proof.
  split; unfold better.
  - intros a b. rewrite (Z.eqb_sym (Score b)). destruct (Z.eqb_spec (Score a) (Score b)); [apply less_asym | rewrite Z.ltb_lt, Z.ltb_ge; lia].
  - intros a b c. destruct (Z.eqb_spec (Score a) (Score b)) as [->|]; [destruct (_ =? _); [apply less_cotrans |] |].
    + rewrite !Z.ltb_ge. lia.
    + rewrite Z.ltb_ge. intros H1 H2. destruct (Z.eqb_spec (Score b) (Score c)); [| rewrite Z.ltb_ge in H2];
        (destruct (Z.eqb_spec (Score a) (Score c)); [lia | rewrite Z.ltb_ge; lia]).
Qed.

Lemma better_antisym {V} (a b : Hit V) : better a b = false -> better b a = false -> h_id a = h_id b.
Proof.
  unfold better. rewrite (Z.eqb_sym (Score b)). destruct (Z.eqb_spec (Score a) (Score b)); [| rewrite !Z.ltb_ge; lia].
  rewrite !ltb_leb, !negb_false_iff. unfold String.leb. rewrite (String.compare_antisym (h_id b) (h_id a)).
  destruct (String.compare _ _) eqn:E; try done. intros _ _. by apply String.compare_eq_iff.
Qed.

Section Counts.
Context {V : Type} (stringify : V -> string) (tokenize : string -> list string).

(** The tokens of all fields. *)
Definition doc_tokens (order : list (string * V)) : list string := flat_map (fun kv => tokenize (stringify kv.2)) order.

Lemma count_tokens_lookup l f tok :
  fold_left count_token l f !! tok = if bool_decide (tok ∈ l) then Some (default 0 (f !! tok) + Z.of_nat (occurs tok l)) else f !! tok.
Proof.
  revert f. induction l as [|x l IH]; intros f; [done |]. cbn [fold_left]. rewrite IH. unfold count_token.
  destruct (decide (x = tok)) as [->|Hne].
  - rewrite lookup_insert_eq, occurs_cons_eq, (bool_decide_eq_true_2 (tok ∈ tok :: l)) by (by left).
    unfold default; cbn [from_option id].
    case_bool_decide as Hin; f_equal; [lia |]. rewrite occurs_zero; [lia |]. apply list.Forall_forall. by intros y Hy ->.
  - rewrite lookup_insert_ne, occurs_cons_ne by congruence. 
    rewrite (bool_decide_ext (tok ∈ x :: l) (tok ∈ l)) by (rewrite elem_of_cons; naive_solver). done.
Qed.

Lemma buildFreq_flat order f :
  fold_left (fun f kv => fold_left count_token (tokenize (stringify kv.2)) f) order f = fold_left count_token (doc_tokens order) f.
Proof. revert f. induction order as [|kv order IH]; intros f; [done |]. cbn [fold_left doc_tokens flat_map]. by rewrite fold_left_app, IH. Qed.

Lemma buildFreq_lookup order tok :
  buildFreq stringify tokenize order !! tok =
  if bool_decide (tok ∈ doc_tokens order) then Some (Z.of_nat (occurs tok (doc_tokens order))) else None.
Proof. unfold buildFreq. rewrite buildFreq_flat, count_tokens_lookup. by rewrite lookup_empty. Qed.

(** The table does not depend on the order of the range. *)
Lemma buildFreq_order o1 o2 : o1 ≡ₚ o2 -> buildFreq stringify tokenize o1 = buildFreq stringify tokenize o2.
Proof.
  intros Hp. assert (Ht : doc_tokens o1 ≡ₚ doc_tokens o2) by (unfold doc_tokens; by rewrite Hp).
  apply map_eq. intros tok. rewrite !buildFreq_lookup. rewrite (bool_decide_ext _ (tok ∈ doc_tokens o2)) by (by rewrite Ht).
  unfold occurs. by rewrite Ht.
Qed.

Lemma buildFreq_pos order tok c : buildFreq stringify tokenize order !! tok = Some c -> 0 < c.
Proof. rewrite buildFreq_lookup. case_bool_decide as H; [| done]. intros [= <-]. apply occurs_pos in H. lia. Qed.
End Counts.

Section Score.
Context {V : Type} (stringify : V -> string) (tokenize : string -> list string).

(** A token of a document answers a word of the query. *)
Definition answers (prefix : bool) (order : list (string * V)) (q : string) : Prop :=
  exists tok, tok ∈ doc_tokens stringify tokenize order /\ (tok = q \/ (prefix = true /\ HasPrefix tok q = true)).

Lemma prefixed_fold q (l : list (string * Z)) (Hpos : forall tok c, (tok, c) ∈ l -> 0 < c) :
  let total := foldr (fun (kc : string * Z) acc => if HasPrefix kc.1 q then acc + kc.2 else acc) 0 l in
  0 <= total /\ (0 < total <-> exists tok c, (tok, c) ∈ l /\ HasPrefix tok q = true).
Proof.
  cbn zeta. induction l as [|[tok c] l IH]; [split; [done |]; split; [by intros ?%Z.lt_irrefl | by intros (? & ? & ?%elem_of_nil & _)] |].
  cbn [foldr fst snd]. destruct IH as [IH1 IH2]; [intros; eapply Hpos; by right |].
  pose proof (Hpos tok c ltac:(by left)) as Hc. destruct (HasPrefix tok q) eqn:Hq; (split; [lia |]; split; [intros H |]).
  - exists tok, c. split; [by left | done].
  - intros _. lia.
  - apply IH2 in H as (t & n & ? & ?). exists t, n. split; [by right | done].
  - intros (t & n & [[= -> ->]|Hin]%elem_of_cons & Hp); [congruence |]. apply IH2. by exists t, n.
Qed.

Lemma token_score_pos prefix order q :
  let n := token_score (buildFreq stringify tokenize order) prefix q in 0 <= n /\ (0 < n <-> answers prefix order q).
Proof.
  unfold token_score, answers. cbn zeta. destruct (_ !! q) as [c|] eqn:E.
  - pose proof (buildFreq_pos _ _ _ _ _ E). rewrite buildFreq_lookup in E. case_bool_decide as Hin; [| done].
    split; [lia |]. split; [intros _; exists q; by split; [| left] | lia].
  - rewrite buildFreq_lookup in E. case_bool_decide as Hn; [done |]. clear E. destruct prefix.
    + unfold prefixed. rewrite map_fold_foldr.
      edestruct (prefixed_fold q (map_to_list (buildFreq stringify tokenize order))) as [H1 H2].
      { intros tok c Hin%elem_of_map_to_list. by eapply buildFreq_pos. }
      split; [eapply Z.le_trans; [exact H1 |]; apply Z.eq_le_incl; apply foldr_ext; [by intros [] | done..] |].
      erewrite foldr_ext; [rewrite H2 | by intros [] | done..]. split.
      * intros (tok & c & Hin%elem_of_map_to_list & Hp). exists tok. rewrite buildFreq_lookup in Hin. case_bool_decide; [| done]. by split; [| right].
      * intros (tok & Hin & [-> | [_ Hp]]); [done |]. exists tok, (Z.of_nat (occurs tok (doc_tokens stringify tokenize order))).
        split; [| done]. apply elem_of_map_to_list. rewrite buildFreq_lookup. by case_bool_decide.
    + split; [done |]. split; [done |]. by intros (tok & Hin & [-> | [? _]]).
Qed.

Lemma scoreDoc_pos prefix order tokens :
  let n := scoreDoc (buildFreq stringify tokenize order) tokens prefix in
  0 <= n /\ (0 < n <-> exists q, q ∈ tokens /\ answers prefix order q).
Proof.
  unfold scoreDoc. cbn zeta. assert (H : forall acc, 0 <= acc ->
    let n := fold_left (fun s q => s + token_score (buildFreq stringify tokenize order) prefix q) tokens acc in
    acc <= n /\ (acc < n <-> exists q, q ∈ tokens /\ answers prefix order q)).
  { induction tokens as [|q tokens IH]; intros acc Ha; cbn zeta; cbn [fold_left].
    - split; [done |]. split; [by intros ?%Z.lt_irrefl | by intros (? & ?%elem_of_nil & _)].
    - pose proof (token_score_pos prefix order q) as [H1 H2]. cbn zeta in H1, H2.
      destruct (IH (acc + token_score (buildFreq stringify tokenize order) prefix q) ltac:(lia)) as [H3 H4]. split; [lia |].
      setoid_rewrite elem_of_cons. split.
      + intros Hlt. destruct (Z.ltb_spec 0 (token_score (buildFreq stringify tokenize order) prefix q)) as [Hp|Hp].
        * exists q. split; [by left | by apply H2].
        * destruct H4 as [H4 _]. destruct H4 as (q' & ? & ?); [lia |]. exists q'. split; [by right | done].
      + intros (q' & [-> | Hin] & Hq'); [apply H2 in Hq'; lia |]. enough (acc + token_score (buildFreq stringify tokenize order) prefix q
          < fold_left (fun s q => s + token_score (buildFreq stringify tokenize order) prefix q) tokens (acc + token_score (buildFreq stringify tokenize order) prefix q)) by lia.
        apply H4. by exists q'. }
  exact (H 0 ltac:(done)).
Qed.

Definition satisfies (fields filters : gmap string V) : Prop :=
  forall k want, filters !! k = Some want -> exists got, fields !! k = Some got /\ stringify got = stringify want.

Lemma matchesFilters_spec fields filters : matchesFilters stringify fields filters = true <-> satisfies fields filters.
Proof.
  unfold matchesFilters, satisfies. rewrite forallb_forall. split.
  - intros H k want Hk. specialize (H (k, want)). cbn [fst snd] in H. rewrite <- list_elem_of_In, elem_of_map_to_list in H. specialize (H Hk).
    destruct (fields !! k) as [got|]; [| done]. exists got. by apply String.eqb_eq in H.
  - intros H [k want] Hin. apply list_elem_of_In, elem_of_map_to_list in Hin. destruct (H k want Hin) as (got & Hg & He). cbn [fst snd].
    rewrite Hg. by apply String.eqb_eq.
Qed.
End Score.

(** *** What the memory engine holds *)

Section History.
Context {V : Type} (stringify : V -> string) (tokenize : string -> list string).

Inductive op := OpIndex (index : string) (docs : list (Document V)) | OpDelete (index : string) (ids : list string).

Definition step (m : gmap string (gmap string (memDoc V))) (o : op) : gmap string (gmap string (memDoc V)) :=
  match o with OpIndex i docs => Index stringify tokenize i docs m | OpDelete i ids => Delete i ids m end.
Definition run (ops : list op) : gmap string (gmap string (memDoc V)) := fold_left step ops ∅.

(** The fields a sequence of calls leaves under an ID: those of the last document
    indexed under it, unless it was deleted since. *)
Definition last_doc (id : string) (docs : list (Document V)) (cur : option (gmap string V)) : option (gmap string V) :=
  fold_left (fun cur d => if decide (ID d = id) then Some (Fields d) else cur) docs cur.
Definition written (index id : string) (ops : list op) : option (gmap string V) :=
  fold_left (fun cur o => match o with
    | OpIndex i docs => if decide (i = index) then last_doc id docs cur else cur
    | OpDelete i ids => if decide (i = index /\ id ∈ ids) then None else cur end) ops None.

Definition stored (id : string) (fields : gmap string V) : memDoc V := mkMem id fields (buildFreq stringify tokenize (map_to_list fields)).

Lemma insert_docs_lookup docs (idx : gmap string (memDoc V)) id cur :
  idx !! id = stored id <$> cur ->
  fold_left (fun idx d => <[ID d := mem_doc stringify tokenize d]> idx) docs idx !! id = stored id <$> last_doc id docs cur.
Proof.
  revert idx cur. induction docs as [|d docs IH]; intros idx cur H; [done |]. cbn [fold_left last_doc]. apply IH.
  destruct (decide (ID d = id)) as [<-|Hne]; [by rewrite lookup_insert_eq | by rewrite lookup_insert_ne].
Qed.

Lemma delete_docs_lookup ids (idx : gmap string (memDoc V)) id :
  fold_left (fun idx id => delete id idx) ids idx !! id = if decide (id ∈ ids) then None else idx !! id.
Proof.
  revert idx. induction ids as [|i ids IH]; intros idx; [done |]. cbn [fold_left]. rewrite IH.
  destruct (decide (i = id)) as [->|Hne].
  - rewrite lookup_delete_eq, (decide_True (P := id ∈ id :: ids)) by (by left). by destruct (decide (id ∈ ids)).
  - rewrite lookup_delete_ne by done. destruct (decide (id ∈ ids)) as [Hi|Hi], (decide (id ∈ i :: ids)) as [Hj|Hj]; try done.
    + destruct Hj. by right.
    + by apply elem_of_cons in Hj as [->|].
Qed.

Lemma step_lookup m o index id cur :
  index_docs m index !! id = stored id <$> cur ->
  index_docs (step m o) index !! id = stored id <$> match o with
    | OpIndex i docs => if decide (i = index) then last_doc id docs cur else cur
    | OpDelete i ids => if decide (i = index /\ id ∈ ids) then None else cur end.
Proof.
  unfold index_docs. intros H. destruct o as [i docs | i ids]; cbn [step].
  - unfold Index. destruct (decide (i = index)) as [->|Hne]; [rewrite lookup_insert_eq; by apply insert_docs_lookup | by rewrite lookup_insert_ne].
  - unfold Delete. destruct (m !! i) as [idx|] eqn:Ei.
    + destruct (decide (i = index)) as [->|Hne].
      * rewrite lookup_insert_eq. rewrite Ei in H. simpl in *. rewrite delete_docs_lookup.
        destruct (decide (id ∈ ids)) as [Hin|Hin]; [by rewrite decide_True | rewrite decide_False; [done | naive_solver]].
      * rewrite lookup_insert_ne by done. rewrite decide_False by naive_solver. done.
    + destruct (decide (i = index /\ id ∈ ids)) as [[-> _]|]; [| done]. by rewrite Ei.
Qed.

Lemma run_lookup ops index id : index_docs (run ops) index !! id = stored id <$> written index id ops.
Proof.
  unfold run, written. assert (H : forall m cur, index_docs m index !! id = stored id <$> cur ->
    index_docs (fold_left step ops m) index !! id = stored id <$> fold_left (fun cur o => match o with
      | OpIndex i docs => if decide (i = index) then last_doc id docs cur else cur
      | OpDelete i ids => if decide (i = index /\ id ∈ ids) then None else cur end) ops cur).
  { induction ops as [|o ops IH]; intros m cur H; [done |]. cbn [fold_left]. apply IH, step_lookup, H. }
  apply H. unfold index_docs. by rewrite lookup_empty.
Qed.

(** The hits of a query, best first. *)
Definition ranking (order : list (string * memDoc V)) (query : string) (opts : Options V) : list (Hit V) :=
  SliceStable better (omap (fun kd => hit_of stringify (tokenize query) opts kd.2) order).

Definition found (ops : list op) (index query : string) (opts : Options V) (h : Hit V) : Prop :=
  written index (h_id h) ops = Some (h_fields h) /\ satisfies stringify (h_fields h) (Filters opts) /\
  (exists q, q ∈ tokenize query /\ answers stringify tokenize (Prefix opts) (map_to_list (h_fields h)) q) /\
  Score h = scoreDoc (buildFreq stringify tokenize (map_to_list (h_fields h))) (tokenize query) (Prefix opts).

Lemma hit_of_stored tokens opts id fields h :
  hit_of stringify tokens opts (stored id fields) = Some h <->
  h = mkHit id (scoreDoc (buildFreq stringify tokenize (map_to_list fields)) tokens (Prefix opts)) fields /\
  satisfies stringify fields (Filters opts) /\ exists q, q ∈ tokens /\ answers stringify tokenize (Prefix opts) (map_to_list fields) q.
Proof.
  unfold hit_of, stored. cbn [m_fields m_id freq]. rewrite <- matchesFilters_spec.
  pose proof (scoreDoc_pos stringify tokenize (Prefix opts) (map_to_list fields) tokens) as [_ Hs]. cbn zeta in Hs. rewrite <- Hs. clear Hs.
  destruct (matchesFilters _ _ _); cbn [negb]; [| naive_solver]. destruct (Z.leb_spec (scoreDoc (buildFreq stringify tokenize (map_to_list fields)) tokens (Prefix opts)) 0).
  - split; [done |]. intros (_ & _ & ?). lia.
  - split; [by intros [= <-] | by intros (-> & _)].
Qed.

Lemma elem_of_ranking ops index order query opts h :
  order ≡ₚ map_to_list (index_docs (run ops) index) -> h ∈ ranking order query opts <-> found ops index query opts h.
Proof.
  intros Ho. unfold ranking, found. rewrite SliceStable_perm, list_elem_of_omap. setoid_rewrite Ho. split.
  - intros ([id d] & Hin%elem_of_map_to_list & Hh). cbn [snd] in Hh. rewrite run_lookup in Hin.
    destruct (written index id ops) as [fields|] eqn:Ew; [| done]. injection Hin as <-. apply hit_of_stored in Hh as (-> & Hs & Ha). done.
  - intros (Hw & Hs & Ha & Hscore). exists (h_id h, stored (h_id h) (h_fields h)). split.
    + apply elem_of_map_to_list. by rewrite run_lookup, Hw.
    + apply hit_of_stored. split; [| done]. destruct h. cbn in *. by subst.
Qed.

Lemma ranking_ids ops index order query opts :
  order ≡ₚ map_to_list (index_docs (run ops) index) -> NoDup (map h_id (ranking order query opts)).
Proof.
  intros Ho. unfold ranking. rewrite SliceStable_perm.
  assert (Hall : forall id d, (id, d) ∈ order -> exists fields, d = stored id fields).
  { intros id d Hin. rewrite Ho, elem_of_map_to_list, run_lookup in Hin. destruct (written index id ops) as [fields|]; [| done].
    injection Hin as <-. by exists fields. }
  assert (Hnd : NoDup (order.*1)) by (rewrite Ho; apply NoDup_fst_map_to_list). clear Ho.
  induction order as [|[id d] order IH]; [constructor |]. apply NoDup_cons in Hnd as [Hnot Hnd].
  specialize (IH (fun i d H => Hall i d (list_elem_of_further _ _ _ H)) Hnd). cbn [omap list_omap snd].
  destruct (hit_of _ _ _ d) as [h|] eqn:Eh; [| done]. destruct (Hall id d ltac:(by left)) as [fields ->].
  apply hit_of_stored in Eh as [-> _]. cbn [map h_id]. constructor; [| done].
  change (map h_id) with (fmap (M := list) (@h_id V)). intros (h & Hid & ([id' d'] & Hin & Hh)%list_elem_of_omap)%list_elem_of_fmap.
  destruct (Hall id' d' ltac:(by right)) as [fields' ->]. apply hit_of_stored in Hh as [-> _]. cbn in Hid. subst id'.
  apply Hnot. by apply (list_elem_of_fmap_2 fst) in Hin.
Qed.
End History.

Definition page_of {V} (o : Options V) : Z := Z.max 1 (Page o).
Definition size_of {V} (o : Options V) : Z := if PerPage o <? 1 then DefaultPerPage else PerPage o.

Lemma normalizePage_exact {V} (o : Options V) total :
  0 <= total -> page_of o * size_of o + total <= max_i64 ->
  normalizePage (Page o) (PerPage o) total =
  (Z.min total ((page_of o - 1) * size_of o), Z.min total (Z.min total ((page_of o - 1) * size_of o) + size_of o)).
Proof.
  intros Ht Hb. unfold normalizePage. fold (size_of o).
  replace (if Page o <? 1 then 1 else Page o) with (page_of o) by (unfold page_of; destruct (Z.ltb_spec (Page o) 1); lia).
  assert (Hp : 1 <= page_of o) by (unfold page_of; lia).
  assert (Hs : 1 <= size_of o) by (unfold size_of, DefaultPerPage; destruct (Z.ltb_spec (PerPage o) 1); lia).
  revert Hp Hs Hb. generalize (page_of o) (size_of o). intros p n Hp Hn Hb. assert (0 <= (p - 1) * n <= p * n - n) by nia.
  assert (p <= max_i64) by nia. assert (min_i64 < 0) by done.
  rewrite (i64_small (p - 1)), (i64_small ((p - 1) * n)) by lia.
  replace (if total <? (p - 1) * n then total else (p - 1) * n) with (Z.min total ((p - 1) * n)) by (destruct (Z.ltb_spec total ((p - 1) * n)); lia).
  rewrite i64_small by lia. f_equal. destruct (Z.ltb_spec total (Z.min total ((p - 1) * n) + n)); lia.
Qed.

Lemma slice_page {A} (l : list A) a n :
  0 <= a -> 0 <= n -> let total := Z.of_nat (length l) in
  slice l (Z.min total a) (Z.min total (Z.min total a + n)) = Some (take (Z.to_nat n) (drop (Z.to_nat a) l)).
Proof.
  intros Ha Hn total. unfold slice. rewrite (proj2 (andb_true_iff _ _)); [f_equal | split; [apply andb_true_iff; split; apply Z.leb_le | apply Z.leb_le]; lia].
  destruct (Z.le_gt_cases total a).
  - rewrite !(drop_ge l) by lia. by rewrite !take_nil.
  - rewrite (Z.min_r total a) by lia. destruct (Z.le_gt_cases total (a + n)).
    + rewrite (Z.min_l total (a + n)) by lia. rewrite !take_ge; [done | rewrite length_drop; lia..].
    + rewrite (Z.min_r total (a + n)) by lia. by replace (a + n - a) with n by lia.
Qed.

Lemma unique_ids {V} (l : list (Hit V)) a b : NoDup (map h_id l) -> a ∈ l -> b ∈ l -> h_id a = h_id b -> a = b.
Proof.
  change (map h_id l) with (h_id <$> l). intros Hnd (i & Hi)%list_elem_of_lookup (j & Hj)%list_elem_of_lookup He.
  assert (i = j) as <-; [| congruence]. eapply NoDup_lookup; [exact Hnd | by rewrite list_lookup_fmap, Hi | by rewrite list_lookup_fmap, Hj, He].
Qed.

Lemma strictly_sorted {V} (l : list (Hit V)) :
  StronglySorted (may_precede better) l -> NoDup (map h_id l) -> 
  StronglySorted (fun a b => better a b = true) l.
Proof.
  induction 1 as [|a l Hl IH Ha]; intros Hnd; [constructor |]. apply NoDup_cons in Hnd as [Hnot Hnd]. constructor; [by apply IH |].
  apply List.Forall_forall. intros b Hb. rewrite List.Forall_forall in Ha. specialize (Ha b Hb). unfold may_precede in Ha.
  destruct (better a b) eqn:E; [done |]. exfalso. apply Hnot. rewrite (better_antisym a b E Ha).
  change (map h_id l) with (h_id <$> l). by apply list_elem_of_fmap_2, list_elem_of_In.
Qed.

Lemma omap_le {A B} (f : A -> option B) l : (length (omap f l) <= length l)%nat.
Proof. induction l as [|a l IH]; [done |]. cbn [omap list_omap]. destruct (f a); simpl; lia. Qed.

Section Found.
Context {V : Type} (stringify : V -> string) (tokenize : string -> list string).

(** C26: after any calls of [Index] and [Delete], whatever the order in which maps are
    ranged over: the ranking of a query holds, each once, exactly the documents as they
    were last written under their ID and not deleted since, that pass every filter and
    hold a token which is a word of the query (or starts with one, when prefixes are
    asked for), by score and then by ID; a search returns the requested page of it and
    its length. *)
Theorem Search_exact (ops : list (op (V := V))) index order query opts :
  order ≡ₚ map_to_list (index_docs (run stringify tokenize ops) index) ->
  page_of opts * size_of opts + Z.of_nat (length order) <= max_i64 ->
  exists ranked,
    NoDup (map h_id ranked) /\ (forall h, h ∈ ranked <-> found stringify tokenize ops index query opts h) /\
    StronglySorted (fun a b => better a b = true) ranked /\
    (forall order', order' ≡ₚ order -> Search_ stringify tokenize order' query opts =
       Some (mkResults (take (Z.to_nat (size_of opts)) (drop (Z.to_nat ((page_of opts - 1) * size_of opts)) ranked)) (Z.of_nat (length ranked)))).
Proof.
  intros Ho Hb. exists (ranking stringify tokenize order query opts).
  assert (Hnd := ranking_ids stringify tokenize ops index order query opts Ho).
  assert (Hanti : forall a b, a ∈ ranking stringify tokenize order query opts -> b ∈ ranking stringify tokenize order query opts ->
    better a b = false -> better b a = false -> a = b).
  { intros a b Ha Hb' H1 H2. by apply (unique_ids (ranking stringify tokenize order query opts)); [| | | apply better_antisym]. }
  split_and!; [done | intros h; by apply elem_of_ranking | |].
  - apply strictly_sorted; [apply SliceStable_sorted, _ | done].
  - intros order' Ho'. assert (Hsame : ranking stringify tokenize order' query opts = ranking stringify tokenize order query opts).
    { symmetry. apply (sorted_unique better); [exact Hanti | apply SliceStable_sorted, _ | apply SliceStable_sorted, _ |]. unfold ranking. rewrite !SliceStable_perm. by rewrite Ho'. }
    unfold Search_. fold (ranking stringify tokenize order' query opts). rewrite Hsame.
    assert (Hlen : (length (ranking stringify tokenize order query opts) <= length order)%nat).
    { unfold ranking. rewrite SliceStable_perm. apply omap_le. }
    rewrite (normalizePage_exact opts) by lia. rewrite slice_page; [done | |].
    + unfold page_of, size_of, DefaultPerPage. destruct (Z.ltb_spec (PerPage opts) 1); nia.
    + unfold size_of, DefaultPerPage. destruct (Z.ltb_spec (PerPage opts) 1); lia.
Qed.
End Found.

Definition ascii_lower (r : Z) : Z := if (65 <=? r) && (r <=? 90) then r + 32 else r.
Definition ascii_letter (r : Z) : bool := (97 <=? r) && (r <=? 122).
Definition ascii_digit (r : Z) : bool := (48 <=? r) && (r <=? 57).
Definition w_tokenize : string -> list string := Tokenize ascii_lower ascii_letter ascii_digit.

Definition w_ops : list (op (V := string)) :=
  [OpIndex "posts" [mkDoc "2" {["title" := "Goodbye Cafe"; "tag" := "x"]}; mkDoc "1" {["title" := "old"]}];
   OpIndex "posts" [mkDoc "3" {["title" := "Cafe, the cafe"; "tag" := "x"]}; mkDoc "4" {["title" := "cafe"; "tag" := "y"]}];
   OpDelete "posts" ["1"; "4"]].

Definition w_opts : Options string := mkOptions 1 1 {["tag" := "x"]} false.

Lemma Search_exact_witness :
  exists order, order ≡ₚ map_to_list (index_docs (run id w_tokenize w_ops) "posts") /\
    option_map (fun res => (map h_id (Hits res), Total res))
      (Search_ id w_tokenize (rev order) "CAFE" w_opts) = Some (["3"], 2).
Proof.
  assert (Hb : page_of w_opts * size_of w_opts + Z.of_nat (length (map_to_list (index_docs (run id w_tokenize w_ops) "posts"))) <= max_i64)
    by (vm_compute; discriminate).
  destruct (Search_exact id w_tokenize w_ops "posts" (map_to_list (index_docs (run id w_tokenize w_ops) "posts")) "CAFE" w_opts
              ltac:(reflexivity) Hb) as (ranked & _ & _ & _ & H). clear Hb.
  exists (map_to_list (index_docs (run id w_tokenize w_ops) "posts")). split; [reflexivity |].
  rewrite (H _ (symmetry (Permutation_rev _))), <- (H _ ltac:(reflexivity)). vm_compute. reflexivity.
Defined.

(** A page number beyond 64 bits becomes a negative offset, and the slice panics; so does
    the second page of a size whose end passes 64 bits. *)
Theorem far_page_panics :
  let m := run id w_tokenize w_ops in
  let order := map_to_list (index_docs m "posts") in
  Search_ id w_tokenize order "cafe" (mkOptions (2 ^ 62) 4 ∅ false) = None /\
  Search_ id w_tokenize order "cafe" (mkOptions 2 max_i64 ∅ false) = None.
Proof. cbn zeta. split; vm_compute; reflexivity. Qed.

(** A word found as a token hides the tokens it is a prefix of. *)
Theorem exact_hides_prefixes :
  let freq := buildFreq id w_tokenize [("body", "go golang")] in
  scoreDoc freq ["go"] true = 1 /\ scoreDoc freq ["g"] true = 2.
Proof. split; vm_compute; reflexivity. Qed.

(** ** The indexer *)

(** What the callers of an engine rely on. *)
Class Engine (V E S : Type) := {
  eng_Index : string -> list (Document V) -> S -> result E S;
  eng_Delete : string -> list string -> S -> result E S }.

(** Indexing documents together or one after the other is the same, and calls on
    different indexes commute. *)
Class LawfulEngine (V E S : Type) `{!Engine V E S} : Prop := {
  Index_app i a b s : eng_Index i (a ++ b) s = rbind (eng_Index i a s) (eng_Index i b);
  Index_comm i j a b s s1 s2 : i <> j -> eng_Index i a s = Ok s1 -> eng_Index j b s1 = Ok s2 ->
    exists s1', eng_Index j b s = Ok s1' /\ eng_Index i a s1' = Ok s2 }.

Record Searchable (V : Type) := mkSearchable { SearchIndex : string; SearchDocument : Document V }.
Arguments mkSearchable {V}. Arguments SearchIndex {V}. Arguments SearchDocument {V}.

Inductive index_error (E : Type) := ErrNil (item : option nat) | ErrIndex (index : string) (e : E) | ErrDelete (index id : string) (e : E).
Arguments ErrNil {E}. Arguments ErrIndex {E}. Arguments ErrDelete {E}.

Section Indexer.
Context {V E S : Type} `{!Engine V E S}.

Definition Indexer_Index (m : option (Searchable V)) (s : S) : result (index_error E) S :=
  match m with
  | None => Err (ErrNil None)
  | Some m => match eng_Index (SearchIndex m) [SearchDocument m] s with Ok s => Ok s | Err e => Err (ErrIndex (SearchIndex m) e) end
  end.

Definition Indexer_Delete (index id : string) (s : S) : result (index_error E) S :=
  match eng_Delete index [id] s with Ok s => Ok s | Err e => Err (ErrDelete index id e) end.

Definition DeleteModel (m : option (Searchable V)) (s : S) : result (index_error E) S :=
  match m with None => Err (ErrNil None) | Some m => Indexer_Delete (SearchIndex m) (ID (SearchDocument m)) s end.

(** [order] and [batches]. *)
Abbreviation groups := (list string * gmap string (list (Document V)))%type.

Definition add_item (g : groups) (m : Searchable V) : groups :=
  let idx := SearchIndex m in
  (match g.2 !! idx with Some _ => g.1 | None => g.1 ++ [idx] end, <[idx := default [] (g.2 !! idx) ++ [SearchDocument m]]> g.2).

Fixpoint group (i : nat) (items : list (option (Searchable V))) (g : groups) : result (index_error E) groups :=
  match items with
  | [] => Ok g
  | None :: _ => Err (ErrNil (Some i))
  | Some m :: items => group (Datatypes.S i) items (add_item g m)
  end.

Fixpoint send_batches (order : list string) (batches : gmap string (list (Document V))) (s : S) : result (index_error E) S :=
  match order with
  | [] => Ok s
  | idx :: order =>
      match eng_Index idx (default [] (batches !! idx)) s with
      | Ok s => send_batches order batches s
      | Err e => Err (ErrIndex idx e)
      end
  end.

(** A failing write keeps what was written before it. *)
Definition Backfill (items : list (option (Searchable V))) (s : S) : result (index_error E) S :=
  match items with
  | [] => Ok s
  | _ => rbind (group 0 items ([], ∅)) (fun g => send_batches g.1 g.2 s)
  end.

(** One call per model. *)
Fixpoint index_each (items : list (Searchable V)) (s : S) : result E S :=
  match items with
  | [] => Ok s
  | m :: items => rbind (eng_Index (SearchIndex m) [SearchDocument m] s) (index_each items)
  end.
End Indexer.

(** *** Batches *)

Section Batches.
Context {V E S : Type} `{HE : !Engine V E S} `{!LawfulEngine V E S}.

(** The batches, as a sequence of writes. *)
Definition writes (order : list string) (batches : gmap string (list (Document V))) (s : S) : result E S :=
  fold_left (fun r idx => rbind r (eng_Index idx (default [] (batches !! idx)))) order (Ok s).

Lemma writes_err order (batches : gmap string (list (Document V))) (e : E) :
  fold_left (fun r idx => rbind r (eng_Index idx (default [] (batches !! idx)))) order (Err e) = Err (A := S) e.
Proof. by induction order. Qed.

Lemma send_writes order (batches : gmap string (list (Document V))) (s s' : S) : send_batches (E := E) order batches s = Ok s' <-> writes order batches s = Ok s'.
Proof.
  unfold writes. revert s. induction order as [|idx order IH]; intros s; [cbn; split; congruence |]. cbn [send_batches fold_left rbind].
  destruct (eng_Index idx _ s) as [s1 | e]; [apply IH |]. by rewrite writes_err.
Qed.

Lemma index_writes_app o1 o2 (batches : gmap string (list (Document V))) (s : S) : writes (o1 ++ o2) batches s = rbind (writes o1 batches s) (writes o2 batches).
Proof. unfold writes. rewrite fold_left_app. destruct (fold_left _ o1 _); [done |]. apply writes_err. Qed.

Lemma writes_other order (batches : gmap string (list (Document V))) idx docs (s : S) : idx ∉ order -> writes order (<[idx := docs]> batches) s = writes order batches s.
Proof.
  intros Hn. unfold writes. generalize (Ok (E := E) s). induction order as [|i order IH]; intros r; [done |]. cbn [fold_left].
  apply not_elem_of_cons in Hn as [Hne Hn]. rewrite lookup_insert_ne by done. by apply IH.
Qed.

(** A write to one index passes the writes to others. *)
Lemma writes_comm order (batches : gmap string (list (Document V))) idx docs (s s1 s2 : S) :
  idx ∉ order -> eng_Index idx docs s = Ok s1 -> writes order batches s1 = Ok s2 ->
  exists s1', writes order batches s = Ok s1' /\ eng_Index idx docs s1' = Ok s2.
Proof.
  revert s s1. induction order as [|i order IH]; intros s s1 Hn Hi Hw; [injection Hw as <-; by exists s |].
  apply not_elem_of_cons in Hn as [Hne Hn]. revert Hw. change (i :: order) with ([i] ++ order). rewrite !index_writes_app. unfold writes at 1 3. cbn [fold_left rbind].
  destruct (eng_Index i _ s1) as [s1b | e] eqn:Ei; [| done]. cbn [rbind]. intros Hw.
  destruct (Index_comm _ _ _ _ _ _ _ Hne Hi Ei) as (sb & -> & Hi'). cbn [rbind]. by apply (IH sb s1b).
Qed.

Lemma writes_comm_back order (batches : gmap string (list (Document V))) idx docs (s s1 s2 : S) :
  idx ∉ order -> writes order batches s = Ok s1 -> eng_Index idx docs s1 = Ok s2 ->
  exists s1', eng_Index idx docs s = Ok s1' /\ writes order batches s1' = Ok s2.
Proof.
  revert s. induction order as [|i order IH]; intros s Hn Hw Hi; [injection Hw as <-; by exists s2 |].
  apply not_elem_of_cons in Hn as [Hne Hn]. revert Hw. change (i :: order) with ([i] ++ order). rewrite index_writes_app. unfold writes at 1. cbn [fold_left rbind].
  destruct (eng_Index i _ s) as [sb | e] eqn:Ei; [| done]. cbn [rbind]. intros Hw.
  destruct (IH sb Hn Hw Hi) as (s1' & Hi' & Hw'). destruct (Index_comm _ _ _ _ _ _ _ (not_eq_sym Hne) Ei Hi') as (sc & Hc & Hc').
  exists sc. split; [done |]. rewrite index_writes_app. unfold writes at 1. cbn [fold_left rbind]. by rewrite Hc'.
Qed.

Abbreviation groups := (list string * gmap string (list (Document V)))%type.

Definition grouped (g : groups) : Prop := NoDup g.1 /\ forall idx, idx ∈ g.1 <-> is_Some (g.2 !! idx).

Lemma add_item_grouped (g : groups) m : grouped g -> grouped (add_item g m).
Proof.
  intros [Hnd Hin]. unfold add_item, grouped. cbn [fst snd]. destruct (g.2 !! SearchIndex m) as [docs|] eqn:Em; (split; [| intros idx]).
  - done.
  - rewrite Hin. destruct (decide (SearchIndex m = idx)) as [<-|]; [rewrite lookup_insert_eq, Em; naive_solver | by rewrite lookup_insert_ne].
  - apply list.NoDup_app. split_and!; [done | | apply NoDup_singleton]. intros idx Hi ->%list_elem_of_singleton. apply Hin in Hi as [? ?]. congruence.
  - rewrite elem_of_app, list_elem_of_singleton, Hin.
    destruct (decide (SearchIndex m = idx)) as [<-|]; [rewrite lookup_insert_eq; naive_solver | rewrite lookup_insert_ne by done; naive_solver].
Qed.

Lemma add_item_writes (g : groups) m (s s' : S) : grouped g ->
  writes (add_item g m).1 (add_item g m).2 s = Ok s' <->
  exists s1, writes g.1 g.2 s = Ok s1 /\ eng_Index (SearchIndex m) [SearchDocument m] s1 = Ok s'.
Proof.
  intros [Hnd Hin]. unfold add_item. cbn [fst snd]. destruct (g.2 !! SearchIndex m) as [docs|] eqn:Em.
  - assert (Hi : SearchIndex m ∈ g.1) by (apply Hin; by eexists). apply list_elem_of_split in Hi as (o1 & o2 & Ho). rewrite Ho in *.
    apply list.NoDup_app in Hnd as (_ & Hn1 & [Hn2 _]%NoDup_cons). assert (Hn1' : SearchIndex m ∉ o1) by (intros H; apply (Hn1 _ H); by left).
    change (SearchIndex m :: o2) with ([SearchIndex m] ++ o2). rewrite !index_writes_app, writes_other by done. cbn [default from_option id].
    destruct (writes o1 g.2 s) as [s1 | e]; cbn [rbind]; [| split; [done | by intros (? & ? & _)]].
    rewrite !index_writes_app. unfold writes at 1 3. cbn [fold_left rbind]. rewrite lookup_insert_eq, Em. cbn [default from_option id].
    rewrite Index_app. destruct (eng_Index (SearchIndex m) docs s1) as [s2 | e]; cbn [rbind]; [| split; [done | by intros (? & ? & _)]].
    split.
    + destruct (eng_Index (SearchIndex m) [SearchDocument m] s2) as [s3 | e] eqn:E3; [| done]. cbn [rbind]. rewrite writes_other by done.
      intros Hw. by apply (writes_comm o2 g.2 (SearchIndex m) [SearchDocument m] s2 s3 s').
    + intros (s3 & Hw & Hi). destruct (writes_comm_back o2 g.2 _ _ _ _ _ Hn2 Hw Hi) as (s4 & -> & Hw'). cbn [rbind]. by rewrite writes_other.
  - assert (Hi : SearchIndex m ∉ g.1) by (intros [? ?]%Hin; congruence). rewrite index_writes_app, writes_other by done.
    destruct (writes g.1 g.2 s) as [s1 | e]; cbn [rbind]; [| split; [done | by intros (? & ? & _)]].
    unfold writes. cbn [fold_left rbind]. rewrite lookup_insert_eq. cbn [default from_option id app].
    split; [intros H; by exists s1 | by intros (? & [= <-] & H)].
Qed.

Lemma group_writes items i (g g' : groups) (s s' : S) : grouped g -> group (E := E) i (map Some items) g = Ok g' ->
  writes g'.1 g'.2 s = Ok s' <-> exists s1, writes g.1 g.2 s = Ok s1 /\ index_each items s1 = Ok s'.
Proof.
  revert i g. induction items as [|m items IH]; intros i g Hg; cbn [map group index_each].
  - intros [= <-]. split; [intros H; by exists s' | by intros (? & H & [= <-])].
  - intros Hgr. rewrite (IH _ _ (add_item_grouped g m Hg) Hgr). setoid_rewrite add_item_writes; [| done]. split.
    + intros (s1 & (s2 & Hw & Hi) & He). exists s2. split; [done |]. by rewrite Hi.
    + intros (s1 & Hw & He). destruct (eng_Index _ _ s1) as [s2 | e] eqn:Ei; [| done]. exists s2. split; [| done]. by exists s1.
Qed.

Lemma group_total items i (g : groups) : exists g', group (E := E) i (map Some items) g = Ok g'.
Proof. revert i g. induction items as [|m items IH]; intros i g; cbn [map group]; [by eexists | apply IH]. Qed.

(** Over any lawful engine, indexing a batch of models with one call per index
    succeeds exactly when indexing them one by one, in their order, does, and leaves the
    engine in the same state. *)
Theorem Backfill_each (items : list (Searchable V)) (s s' : S) :
  Backfill (E := E) (map Some items) s = Ok s' <-> index_each (E := E) items s = Ok s'.
Proof.
  destruct (group_total items 0 ([], ∅)) as [g Hg].
  assert (Hb : Backfill (E := E) (map Some items) s = send_batches g.1 g.2 s).
  { destruct items as [|m items]; [by injection Hg as <- |]. unfold Backfill. cbn [map] in *. by rewrite Hg. }
  rewrite Hb, send_writes, (group_writes items 0 ([], ∅) g s s'); [| | done].
  - unfold writes. cbn. split; [by intros (? & [= <-] & H) | intros H; by exists s].
  - split; [constructor |]. intros idx. cbn [fst snd]. rewrite lookup_empty. split; [by intros ?%elem_of_nil | by intros [? ?]].
Qed.
End Batches.

(** *** The memory engine is lawful *)

Section MemoryEngine.
Context {V : Type} (stringify : V -> string) (tokenize : string -> list string).

Definition Memory_engine : Engine V Empty_set (gmap string (gmap string (memDoc V))) :=
  {| eng_Index i docs m := Ok (Index stringify tokenize i docs m); eng_Delete i ids m := Ok (Delete i ids m) |}.

Lemma Memory_lawful : LawfulEngine V Empty_set (gmap string (gmap string (memDoc V))) (Engine0 := Memory_engine).
Proof.
  split; cbn.
  - intros i a b s. unfold Index. by rewrite lookup_insert_eq, insert_insert_eq, fold_left_app.
  - intros i j a b s s1 s2 Hne [= <-] [= <-]. eexists. split; [done |]. f_equal. unfold Index.
    rewrite !lookup_insert_ne by done. by rewrite insert_insert_ne.
Qed.
End MemoryEngine.

Lemma Backfill_each_witness :
  let items := [mkSearchable "posts" (mkDoc "1" {["t" := "a"]}); mkSearchable "users" (mkDoc "1" {["t" := "b"]}); mkSearchable "posts" (mkDoc "1" {["t" := "c"]})] in
  exists s', Backfill (Engine0 := Memory_engine id w_tokenize) (map Some items) ∅ = Ok s' /\
    m_fields <$> index_docs s' "posts" !! "1" = Some {["t" := "c"]}.
Proof.
  intros items. destruct (index_each (Engine0 := Memory_engine id w_tokenize) items ∅) as [s' | []] eqn:Es. exists s'. split.
  - apply (Backfill_each (HE := Memory_engine id w_tokenize) (LawfulEngine0 := Memory_lawful id w_tokenize) items ∅ s'). exact Es.
  - revert Es. intros [= <-]. vm_compute. reflexivity.
Defined.
