(* ===== verification/SearchSql.v ===== *)
(** The Postgres search engine: [src/search/postgres.go].

    The statements it sends ([buildSearchSQL], [Delete]), what a reader of SQL finds in
    them, and the reading of the rows.  The database is an argument. *)

From Stdlib Require Import ZArith Lia Ascii.
From stdpp Require Import base gmap strings list numbers.
From S2P Require Import Prelude GoRt GoStrconv GoStrings GoSort Sql SchemaSql Search.

#[local] Set Warnings "-register-all".
#[local] Open Scope string_scope.
#[local] Open Scope list_scope.
#[local] Open Scope Z_scope.

Record PgConfig := mkPg { IDColumn : string; VectorColumn : string; FieldsColumn : string; Config : string; WebSearch : bool }.

Definition or_default (s d : string) : string := if String.eqb s "" then d else s.
Definition withDefaults (c : PgConfig) : PgConfig :=
  mkPg (or_default (IDColumn c) "id") (or_default (VectorColumn c) "search") (FieldsColumn c) (or_default (Config c) "english") (WebSearch c).

Definition quoteIdent (ident : string) : string := quote_part double_quote ident.
Definition quoteLiteral (s : string) : string := ("'" +:+ double_byte apostrophe s +:+ "'")%string.

Definition tsqueryFn (c : PgConfig) (prefix : bool) : string :=
  if prefix then "to_tsquery" else if WebSearch c then "websearch_to_tsquery" else "plainto_tsquery".
Definition tsqueryExpr (lexemes : list string) (prefix : bool) : string :=
  if prefix then GoStrings.Join " & " (map (fun l => l +:+ ":*")%string lexemes) else GoStrings.Join " " lexemes.

(** A bound argument. *)
Inductive arg (V : Type) := AText (s : string) | AValue (v : V) | AInt (n : Z).
Arguments AText {V}. Arguments AValue {V}. Arguments AInt {V}.

Definition numbered (n : Z) : string := ("$" +:+ FormatInt n)%string.

Section Statements.
Context {V : Type}.

Definition sorted_keys (filters : gmap string V) : list string := SliceStable String.ltb (map fst (map_to_list filters)).

(** The loop over the filters: the arguments and the conditions so far. *)
Fixpoint add_filters (filters : gmap string V) (keys : list string) (args : list (arg V)) (conds : list string) : list (arg V) * list string :=
  match keys with
  | [] => (args, conds)
  | k :: keys =>
      let args := args ++ match filters !! k with Some v => [AValue v] | None => [] end in
      add_filters filters keys args (conds ++ [(quoteIdent k +:+ " = " +:+ numbered (Z.of_nat (length args)))%string])
  end.

Definition page_args (opts : Options V) : Z * Z :=
  let page := if Page opts <? 1 then 1 else Page opts in
  let perPage := if PerPage opts <? 1 then DefaultPerPage else PerPage opts in
  (perPage, i64 (i64 (page - 1) * perPage)).

Definition buildSearchSQL (c : PgConfig) (index : string) (lexemes : list string) (opts : Options V) : string * list (arg V) :=
  let vec := quoteIdent (VectorColumn c) in
  let tsq := (tsqueryFn c (Prefix opts) +:+ "(" +:+ quoteLiteral (Config c) +:+ ", " +:+ "$1" +:+ ")")%string in
  let cols := [quoteIdent (IDColumn c); ("ts_rank(" +:+ vec +:+ ", " +:+ tsq +:+ ") AS rank")%string]
              ++ (if String.eqb (FieldsColumn c) "" then [] else [quoteIdent (FieldsColumn c)]) ++ ["count(*) OVER () AS total"] in
  let '(args, conds) := add_filters (Filters opts) (sorted_keys (Filters opts)) [AText (tsqueryExpr lexemes (Prefix opts))] [(vec +:+ " @@ " +:+ tsq)%string] in
  let '(limit, offset) := page_args opts in
  let args := args ++ [AInt limit] in
  let limitParam := Z.of_nat (length args) in
  let args := args ++ [AInt offset] in
  let offsetParam := Z.of_nat (length args) in
  (("SELECT " +:+ GoStrings.Join ", " cols +:+ " FROM " +:+ quoteIdent index +:+ " WHERE " +:+ GoStrings.Join " AND " conds +:+
    " ORDER BY rank DESC, " +:+ quoteIdent (IDColumn c) +:+ " ASC LIMIT " +:+ numbered limitParam +:+ " OFFSET " +:+ numbered offsetParam)%string, args).

(** The statement of [Delete]; nothing is sent without IDs. *)
Definition delete_sql (c : PgConfig) (index : string) (ids : list string) : option (string * list (arg V)) :=
  match ids with
  | [] => None
  | _ => Some (("DELETE FROM " +:+ quoteIdent index +:+ " WHERE " +:+ quoteIdent (IDColumn c) +:+ " IN (" +:+
                GoStrings.Join ", " (map (fun i => numbered (Z.of_nat i + 1)) (seq 0 (length ids))) +:+ ")")%string, map AText ids)
  end.
End Statements.

(** ** The rows *)

Inductive field_source (V : Type) := SNil | SMap (m : gmap string V) | SBytes (s : string) | SText (s : string) | SOther.
Arguments SNil {V}. Arguments SMap {V}. Arguments SBytes {V}. Arguments SText {V}. Arguments SOther {V}.

Record pg_row (V F : Type) := mkRow { r_id : string; r_rank : F; r_fields : field_source V; r_total : Z }.
Arguments mkRow {V F}. Arguments r_id {V F}. Arguments r_rank {V F}. Arguments r_fields {V F}. Arguments r_total {V F}.

Record pg_hit (V F : Type) := mkPgHit { p_id : string; p_score : F; p_fields : option (gmap string V) }.
Arguments mkPgHit {V F}. Arguments p_id {V F}. Arguments p_score {V F}. Arguments p_fields {V F}.

Inductive pg_error (E : Type) := ErrQuery (e : E) | ErrScan | ErrRows (e : E) | ErrPgDelete (e : E).
Arguments ErrQuery {E}. Arguments ErrScan {E}. Arguments ErrRows {E}. Arguments ErrPgDelete {E}.

Section Rows.
Context {V E F : Type} (decode : string -> option (option (gmap string V))) (tokenize : string -> list string).
(** [QueryContext], the rows the cursor yields and its error at the end; a row that does
    not scan is [None].  [ExecContext]. *)
Context (query : string -> list (arg V) -> result E (list (option (pg_row V F)) * option E)) (exec : string -> list (arg V) -> option E).

(** [fieldsScanner.Scan]: [None] is its error. *)
Definition Scan_fields (src : field_source V) : option (option (gmap string V)) :=
  match src with
  | SNil => Some None
  | SMap m => Some (Some m)
  | SBytes s | SText s => if String.eqb s "" then Some None else decode s
  | SOther => None
  end.

Fixpoint scan_rows (c : PgConfig) (rs : list (option (pg_row V F))) (hits : list (pg_hit V F)) (total : Z) : option (list (pg_hit V F) * Z) :=
  match rs with
  | [] => Some (hits, total)
  | None :: _ => None
  | Some r :: rs =>
      match (if String.eqb (FieldsColumn c) "" then Some None else Scan_fields (r_fields r)) with
      | None => None
      | Some fields => scan_rows c rs (hits ++ [mkPgHit (r_id r) (r_rank r) fields]) (r_total r)
      end
  end.

Definition scanHits (c : PgConfig) (rs : list (option (pg_row V F)) * option E) : result (pg_error E) (list (pg_hit V F) * Z) :=
  match scan_rows c rs.1 [] 0 with
  | None => Err ErrScan
  | Some res => match rs.2 with Some e => Err (ErrRows e) | None => Ok res end
  end.

Definition Pg_Search (c : PgConfig) (index q : string) (opts : Options V) : result (pg_error E) (list (pg_hit V F) * Z) :=
  match tokenize q with
  | [] => Ok ([], 0)
  | lexemes =>
      let '(sql, args) := buildSearchSQL c index lexemes opts in
      match query sql args with Err e => Err (ErrQuery e) | Ok rs => scanHits c rs end
  end.

Definition Pg_Delete (c : PgConfig) (index : string) (ids : list string) : option (pg_error E) :=
  match delete_sql c index ids with
  | None => None
  | Some (sql, args) => match exec sql args with Some e => Some (ErrPgDelete e) | None => None end
  end.

Definition NewPostgres (c : PgConfig) : PgConfig := withDefaults c.
End Rows.

(** ** What the statements read as *)

(** A statement as its author means it: the values stand where they are compared. *)
Inductive part (V : Type) := PText (s : string) | PIdent (name : string) | PLit (s : string) | PArg (a : arg V).
Arguments PText {V}. Arguments PIdent {V}. Arguments PLit {V}. Arguments PArg {V}.

Section Template.
Context {V : Type}.

(** The text of a template, and what it reads as outside quotes, its arguments under the
    numbers [marks]. *)
Fixpoint part_text (marks : list Z) (ps : list (part V)) : string :=
  match ps with
  | [] => ""
  | PText s :: ps => (s +:+ part_text marks ps)%string
  | PIdent n :: ps => (quoteIdent n +:+ part_text marks ps)%string
  | PLit s :: ps => (quoteLiteral s +:+ part_text marks ps)%string
  | PArg _ :: ps => match marks with [] => "" | n :: marks => (numbered n +:+ part_text marks ps)%string end
  end.

Fixpoint part_tokens (marks : list Z) (ps : list (part V)) : list token :=
  match ps with
  | [] => []
  | PText s :: ps => bytes s ++ part_tokens marks ps
  | PIdent n :: ps => TIdent n :: part_tokens marks ps
  | PLit _ :: ps => part_tokens marks ps
  | PArg _ :: ps => match marks with [] => [] | n :: marks => TParam :: bytes (FormatInt n) ++ part_tokens marks ps end
  end.

Definition part_args (ps : list (part V)) : list (arg V) := omap (fun p => match p with PArg a => Some a | _ => None end) ps.

(** The literal text of a part reads as it is. *)
Definition plain (s : string) : Prop := closes double_quote "$" s (bytes s) /\ soft double_quote s.

(** Every identifier is followed by plain text. *)
Fixpoint well_spaced (ps : list (part V)) : Prop :=
  match ps with
  | [] => True
  | PIdent _ :: PText s :: ps => plain s /\ well_spaced ps
  | PIdent _ :: _ => False
  | PText s :: ps => plain s /\ well_spaced ps
  | _ :: ps => well_spaced ps
  end.

Lemma literal_closes s : closes double_quote "$" (quoteLiteral s) [].
Proof. apply (string_closes double_quote "$"). split; done. Qed.

Lemma numbered_closes n : closes double_quote "$" (numbered n) (TParam :: bytes (FormatInt n)).
Proof. destruct (placeholder_closes (g := postgres) n) as [H _]. exact H. Qed.

Lemma parts_close ps marks :
  well_spaced ps -> length (part_args ps) = length marks -> closes double_quote "$" (part_text marks ps) (part_tokens marks ps).
Proof.
  assert (H : forall n ps marks, (length ps <= n)%nat -> well_spaced ps -> length (part_args ps) = length marks ->
    closes double_quote "$" (part_text marks ps) (part_tokens marks ps)); [| by apply (H (length ps))].
  clear. induction n as [|n IH]; intros ps marks Hn Hw Hm; destruct ps as [|[s | i | s | a] ps]; simpl in Hn; try lia; try apply closes_nil.
  - destruct Hw as [[Hc _] Hw]. cbn [part_text part_tokens]. apply closes_app; [done | apply IH; [lia | done | done]].
  - destruct ps as [|[s | | |] ps]; try done. destruct Hw as [[Hc Hs] Hw]. cbn [part_text part_tokens].
    change (TIdent i :: bytes s ++ part_tokens marks ps) with ([TIdent i] ++ (bytes s ++ part_tokens marks ps)).
    apply reads_closes_app; [by apply part_reads | by apply soft_app |]. apply closes_app; [done |]. simpl in Hn. apply IH; [lia | done | done].
  - cbn [part_text part_tokens]. change (part_tokens marks ps) with ([] ++ part_tokens marks ps). apply closes_app; [apply literal_closes | apply IH; [lia | done | done]].
  - destruct marks as [|m marks]; [done |]. cbn [part_text part_tokens].
    change (TParam :: bytes (FormatInt m) ++ part_tokens marks ps) with ((TParam :: bytes (FormatInt m)) ++ part_tokens marks ps).
    apply closes_app; [apply numbered_closes | apply IH; [lia | done | by injection Hm]].
Qed.
End Template.

Section Search.
Context {V : Type}.

(** One equality filter. *)
Definition filter_parts (filters : gmap string V) (k : string) : list (part V) :=
  [PText " AND "; PIdent k; PText " = "] ++ match filters !! k with Some v => [PArg (AValue v)] | None => [] end.

Definition tsq_parts (c : PgConfig) (lexemes : list string) (prefix : bool) : list (part V) :=
  [PText (tsqueryFn c prefix +:+ "(")%string; PLit (Config c); PText ", "; PArg (AText (tsqueryExpr lexemes prefix)); PText ")"].

(** The statement, with the values where they are compared. *)
Definition search_template (c : PgConfig) (index : string) (lexemes : list string) (opts : Options V) : list (part V) :=
  [PText "SELECT "; PIdent (IDColumn c); PText ", ts_rank("; PIdent (VectorColumn c); PText ", "] ++ tsq_parts c lexemes (Prefix opts) ++ [PText ") AS rank"]
  ++ (if String.eqb (FieldsColumn c) "" then [] else [PText ", "; PIdent (FieldsColumn c)])
  ++ [PText ", count(*) OVER () AS total FROM "; PIdent index; PText " WHERE "; PIdent (VectorColumn c); PText " @@ "] ++ tsq_parts c lexemes (Prefix opts)
  ++ flat_map (filter_parts (Filters opts)) (sorted_keys (Filters opts))
  ++ [PText " ORDER BY rank DESC, "; PIdent (IDColumn c); PText " ASC LIMIT "; PArg (AInt (page_args opts).1); PText " OFFSET "; PArg (AInt (page_args opts).2)].

Lemma Join_snoc sep (l : list string) x : l <> [] -> GoStrings.Join sep (l ++ [x]) = (GoStrings.Join sep l +:+ sep +:+ x)%string.
Proof.
  induction l as [|y [|z l] IH]; intros Hne; [done | done |].
  change (GoStrings.Join sep ((y :: z :: l) ++ [x])) with (y +:+ sep +:+ GoStrings.Join sep ((z :: l) ++ [x]))%string.
  rewrite IH by done. change (GoStrings.Join sep (y :: z :: l)) with (y +:+ sep +:+ GoStrings.Join sep (z :: l))%string. by rewrite !str_app_assoc.
Qed.

(** The loop over the filters: its arguments, and the text it writes after any text. *)
Lemma add_filters_spec (filters : gmap string V) keys args conds rest_marks rest :
  conds <> [] -> Forall (fun k => is_Some (filters !! k)) keys ->
  let '(args', conds') := add_filters filters keys args conds in
  args' = args ++ part_args (flat_map (filter_parts filters) keys) /\
  (GoStrings.Join " AND " conds' +:+ part_text rest_marks rest)%string =
  (GoStrings.Join " AND " conds +:+ part_text (map Z.of_nat (seq (S (length args)) (length keys)) ++ rest_marks) (flat_map (filter_parts filters) keys ++ rest))%string.
Proof.
  intros Hne Hk. revert args conds Hne. induction Hk as [|k keys [v Hv] _ IH]; intros args conds Hne; [simpl; by rewrite app_nil_r |].
  cbn [add_filters]. rewrite Hv.
  specialize (IH (args ++ [AValue v]) (conds ++ [(quoteIdent k +:+ " = " +:+ numbered (Z.of_nat (length (args ++ [AValue v]))))%string]) ltac:(by destruct conds)).
  destruct (add_filters _ _ _ _) as [args' conds']. destruct IH as [-> IH]. split.
  - cbn [flat_map]. unfold filter_parts at 2. rewrite Hv. unfold part_args. cbn [omap list_omap app]. by rewrite <- app_assoc.
  - rewrite IH, Join_snoc by done. cbn [flat_map length seq map]. unfold filter_parts at 2. rewrite Hv. cbn [app part_text].
    rewrite length_app, Nat.add_1_r. cbn [length]. by rewrite !str_app_assoc.
Qed.

Ltac plain_text := split; [by apply run_closes | by eexists _, _].

Lemma filters_spaced (filters : gmap string V) keys rest :
  well_spaced rest -> well_spaced (flat_map (filter_parts filters) keys ++ rest).
Proof.
  intros Hr. induction keys as [|k keys IH]; [done |]. cbn [flat_map]. unfold filter_parts at 1. destruct (filters !! k); cbn [app well_spaced];
    (split; [plain_text |]; split; [plain_text | exact IH]).
Qed.

Lemma tsq_spaced c lexemes prefix rest : well_spaced rest -> well_spaced (tsq_parts c lexemes prefix ++ rest).
Proof.
  intros Hr. unfold tsq_parts, tsqueryFn. cbn [app well_spaced]. split; [destruct prefix, (WebSearch c); plain_text |].
  split; [plain_text |]. split; [plain_text | done].
Qed.

Lemma template_spaced c index lexemes opts : well_spaced (search_template c index lexemes opts).
Proof.
  unfold search_template. cbn [app well_spaced]. split; [plain_text |]. split; [plain_text |]. split; [plain_text |].
  apply tsq_spaced. cbn [app well_spaced]. split; [plain_text |].
  assert (Htail : well_spaced ([PText ", count(*) OVER () AS total FROM "; PIdent index; PText " WHERE "; PIdent (VectorColumn c); PText " @@ "] ++ tsq_parts c lexemes (Prefix opts)
    ++ flat_map (filter_parts (Filters opts)) (sorted_keys (Filters opts))
    ++ [PText " ORDER BY rank DESC, "; PIdent (IDColumn c); PText " ASC LIMIT "; PArg (AInt (page_args opts).1); PText " OFFSET "; PArg (AInt (page_args opts).2)])).
  { cbn [app well_spaced]. split; [plain_text |]. split; [plain_text |]. split; [plain_text |]. apply tsq_spaced, filters_spaced.
    cbn [well_spaced]. split; [plain_text |]. split; [plain_text |]. split; [plain_text | done]. }
  destruct (String.eqb (FieldsColumn c) ""); [exact Htail |]. cbn [app well_spaced] in *. split; [plain_text | exact Htail].
Qed.

Lemma keys_known (filters : gmap string V) : Forall (fun k => is_Some (filters !! k)) (sorted_keys filters).
Proof.
  apply list.Forall_forall. intros k. unfold sorted_keys. rewrite SliceStable_perm. change (map fst) with (fmap (M := list) (@fst string V)).
  intros ([k' v] & -> & Hin%elem_of_map_to_list)%list_elem_of_fmap. by exists v.
Qed.

Definition search_marks (filters : gmap string V) : list Z :=
  let n := length (sorted_keys filters) in [1; 1] ++ map Z.of_nat (seq 2 n) ++ [Z.of_nat n + 2; Z.of_nat n + 3].

Lemma filter_args_length (filters : gmap string V) keys :
  Forall (fun k => is_Some (filters !! k)) keys -> length (part_args (flat_map (filter_parts filters) keys)) = length keys.
Proof.
  induction 1 as [|k keys [v Hv] _ IH]; [done |]. cbn [flat_map]. unfold filter_parts at 1. rewrite Hv. unfold part_args in *. cbn [omap list_omap app length]. by rewrite IH.
Qed.

(** The statement is its template, numbered. *)
Lemma buildSearchSQL_spec c index lexemes opts :
  buildSearchSQL c index lexemes opts =
  (part_text (search_marks (Filters opts)) (search_template c index lexemes opts),
   [AText (tsqueryExpr lexemes (Prefix opts))] ++ part_args (flat_map (filter_parts (Filters opts)) (sorted_keys (Filters opts)))
   ++ [AInt (page_args opts).1; AInt (page_args opts).2]).
Proof.
  unfold buildSearchSQL, search_template, search_marks. pose proof (keys_known (Filters opts)) as Hk. pose proof (filter_args_length _ _ Hk) as Hlen.
  destruct (page_args opts) as [limit offset]. cbn [fst snd].
  set (tail := [PText (V := V) " ORDER BY rank DESC, "; PIdent (IDColumn c); PText " ASC LIMIT "; PArg (AInt limit); PText " OFFSET "; PArg (AInt offset)]).
  pose proof (add_filters_spec (Filters opts) (sorted_keys (Filters opts)) [AText (tsqueryExpr lexemes (Prefix opts))]
    [(quoteIdent (VectorColumn c) +:+ " @@ " +:+ tsqueryFn c (Prefix opts) +:+ "(" +:+ quoteLiteral (Config c) +:+ ", " +:+ "$1" +:+ ")")%string]
    [Z.of_nat (length (sorted_keys (Filters opts))) + 2; Z.of_nat (length (sorted_keys (Filters opts))) + 3] tail ltac:(done) Hk) as H.
  destruct (add_filters _ _ _ _) as [args conds]. destruct H as [-> H].
  f_equal; [| by rewrite <- !app_assoc].
  rewrite !length_app, Hlen. cbn [length] in *. set (n := length (sorted_keys (Filters opts))) in *.
  replace (Z.of_nat (1 + n + 1)) with (Z.of_nat n + 2) by lia. replace (Z.of_nat (1 + n + 1 + 1)) with (Z.of_nat n + 3) by lia.
  cbn [GoStrings.Join] in H. unfold tsq_parts.
  replace (part_text [Z.of_nat n + 2; Z.of_nat n + 3] tail) with (" ORDER BY rank DESC, " +:+ quoteIdent (IDColumn c) +:+ " ASC LIMIT " +:+
    numbered (Z.of_nat n + 2) +:+ " OFFSET " +:+ numbered (Z.of_nat n + 3))%string in H by (cbn [part_text tail]; by rewrite str_app_empty).
  rewrite H. destruct (String.eqb (FieldsColumn c) ""); cbn [GoStrings.Join app part_text map]; rewrite ?str_app_assoc; reflexivity.
Qed.

Lemma part_args_app (a b : list (part V)) : part_args (a ++ b) = part_args a ++ part_args b.
Proof. apply omap_app. Qed.

Lemma template_args c index lexemes opts :
  part_args (search_template c index lexemes opts) =
  let q := AText (tsqueryExpr lexemes (Prefix opts)) in
  [q; q] ++ part_args (flat_map (filter_parts (Filters opts)) (sorted_keys (Filters opts))) ++ [AInt (page_args opts).1; AInt (page_args opts).2].
Proof. unfold search_template. rewrite !part_args_app. by destruct (String.eqb (FieldsColumn c) ""). Qed.

(** [seq] numbers the elements of a list where they stand. *)
Lemma numbered_middle {A} (a l b : list A) :
  Forall2 (fun n x => 1 <= n /\ (a ++ l ++ b) !! Z.to_nat (n - 1) = Some x) (map Z.of_nat (seq (S (length a)) (length l))) l.
Proof.
  revert a. induction l as [|x l IH]; intros a; [constructor |]. cbn [length seq map]. constructor.
  - split; [lia |]. replace (Z.to_nat (Z.of_nat (S (length a)) - 1)) with (length a) by lia. apply (list_lookup_middle a (l ++ b)). done.
  - specialize (IH (a ++ [x])). rewrite length_app, Nat.add_1_r in IH. eapply list.Forall2_impl; [exact IH |].
    intros n y [? Hy]. split; [done |]. by rewrite <- app_assoc in Hy.
Qed.

(** The search statement and its arguments, whatever the configuration, the index, the
    words, the filters and the page: a reader of SQL finds the template, with every
    identifier as it was given, no value of the caller in the text, and under the number
    of each marker the argument the template compares there, every filter among them. *)
Theorem search_sql_reads c index lexemes (opts : Options V) :
  exists marks, scan double_quote "$" Outside (buildSearchSQL c index lexemes opts).1 = Some (part_tokens marks (search_template c index lexemes opts)) /\
    Forall2 (fun n a => 1 <= n /\ (buildSearchSQL c index lexemes opts).2 !! Z.to_nat (n - 1) = Some a)
      marks (part_args (search_template c index lexemes opts)) /\
    (forall k v, Filters opts !! k = Some v -> exists before after,
       search_template c index lexemes opts = before ++ [PText " AND "; PIdent k; PText " = "; PArg (AValue v)] ++ after).
Proof.
  exists (search_marks (Filters opts)). rewrite buildSearchSQL_spec. cbn [fst snd].
  pose proof (filter_args_length _ _ (keys_known (Filters opts))) as Hlen. split_and!.
  - apply reads_scan, closes_reads, parts_close; [apply template_spaced |]. rewrite template_args. unfold search_marks.
    rewrite !length_app, length_map, length_seq, Hlen. done.
  - rewrite template_args. unfold search_marks. set (q := AText (tsqueryExpr lexemes (Prefix opts))). cbn zeta.
    set (fs := part_args _) in *. set (n := length (sorted_keys (Filters opts))) in *. rewrite <- Hlen in *. subst n. apply Forall2_app; [by repeat constructor |].
    apply Forall2_app; [apply (numbered_middle [q] fs) |]. pose proof (numbered_middle (q :: fs) [AInt (page_args opts).1; AInt (page_args opts).2] []) as H.
    rewrite app_nil_r in H. cbn [length seq map] in H.
    replace (Z.of_nat (length fs) + 2) with (Z.of_nat (S (S (length fs)))) by lia.
    replace (Z.of_nat (length fs) + 3) with (Z.of_nat (S (S (S (length fs))))) by lia. exact H.
  - intros k v Hk. assert (Hin : k ∈ sorted_keys (Filters opts)).
    { unfold sorted_keys. rewrite SliceStable_perm. change (map fst) with (fmap (M := list) (@fst string V)).
      apply list_elem_of_fmap. exists (k, v). split; [done | by apply elem_of_map_to_list]. }
    apply list_elem_of_split in Hin as (k1 & k2 & Hks). unfold search_template. rewrite !app_assoc, <- app_assoc.
    match goal with |- context [?X ++ flat_map ?f ?l ++ ?t] => generalize X as P; generalize t as T end.
    intros T P. rewrite Hks, flat_map_app. cbn [flat_map]. unfold filter_parts at 2. rewrite Hk.
    exists (P ++ flat_map (filter_parts (Filters opts)) k1), (flat_map (filter_parts (Filters opts)) k2 ++ T). by rewrite <- !app_assoc.
Qed.
End Search.

(** ** [Delete] *)

Lemma numbered_joins from n : (0 < n)%nat ->
  closes double_quote "$" (GoStrings.Join ", " (map (fun i => numbered (Z.of_nat i + 1)) (seq from n)))
    (join_tokens (bytes ", ") (map (fun i => TParam :: bytes (FormatInt (Z.of_nat i + 1))) (seq from n))).
Proof.
  revert from. induction n as [|[|n] IH]; intros from Hn; [lia | apply numbered_closes |].
  cbn [seq map]. specialize (IH (S from) ltac:(lia)). cbn [seq map] in IH.
  match goal with |- closes _ _ (GoStrings.Join _ (?x :: ?y :: ?l)) (join_tokens _ (?a :: ?b :: ?m)) =>
    change (closes double_quote "$" (x +:+ (", " +:+ GoStrings.Join ", " (y :: l)))%string (a ++ (bytes ", " ++ join_tokens (bytes ", ") (b :: m)))) end.
  apply closes_app; [apply numbered_closes |]. apply closes_app; [by apply run_closes | exact IH].
Qed.

(** The statement names the table and the column, and compares the column with as many
    markers, numbered from one, as there are IDs bound to them; none is sent without IDs. *)
Theorem delete_sql_reads {V} c index ids :
  match delete_sql (V := V) c index ids with
  | None => ids = []
  | Some (sql, args) => args = map AText ids /\
      scan double_quote "$" Outside sql = Some (bytes "DELETE FROM " ++ [TIdent index] ++ bytes " WHERE " ++ [TIdent (IDColumn c)] ++ bytes " IN ("
        ++ join_tokens (bytes ", ") (map (fun i => TParam :: bytes (FormatInt (Z.of_nat i + 1))) (seq 0 (length ids))) ++ bytes ")")
  end.
Proof.
  destruct ids as [|id ids]; [done |]. cbn [delete_sql]. split; [done |]. apply reads_scan, closes_reads.
  apply closes_app; [by apply run_closes |]. apply reads_closes_app; [by apply part_reads | by eexists _, _ |].
  apply closes_app; [by apply run_closes |]. apply reads_closes_app; [by apply part_reads | by eexists _, _ |].
  apply closes_app; [by apply run_closes |]. apply closes_app; [apply numbered_joins; cbn; lia | by apply run_closes].
Qed.

(** ** Findings *)

(** The words are tokens by the time they reach [websearch_to_tsquery]: an excluded word
    becomes a required one. *)
Theorem web_operators_lost :
  tsqueryExpr (w_tokenize "cafe -draft") false = "cafe draft".
Proof. vm_compute. reflexivity. Qed.

(** The total rides on the rows: past the last page it is 0. *)
Theorem total_lost {V} (index : string) (opts : Options V) :
  Pg_Search (E := Empty_set) (F := Z) (fun _ => None) w_tokenize (fun _ _ => Ok ([], None)) (NewPostgres (mkPg "" "" "" "" false)) index "cafe" opts = Ok ([], 0).
Proof.
  unfold Pg_Search. change (w_tokenize "cafe") with ["cafe"]. cbv beta iota.
  by match goal with |- context [buildSearchSQL ?a ?b ?c ?d] => destruct (buildSearchSQL a b c d) end.
Qed.
