(* ===== verification/I18n.v ===== *)
(** Translations: [src/i18n/i18n.go].

    - A [Translator] points to messages that its clones share ([WithLocale]); every
      operation takes that shared map, [Add] returns its new state.
    - The fields of a JSON object and the entries of a replacement map are lists in the
      order a range visits them; reading and parsing files are arguments. *)

From Stdlib Require Import ZArith Lia Ascii.
From stdpp Require Import base gmap strings list numbers.
From S2P Require Import Prelude GoRt GoStrconv GoStrings.
From S2P Require Mail Inflect GoPath.

#[local] Set Warnings "-register-all".
#[local] Open Scope string_scope.
#[local] Open Scope list_scope.
#[local] Open Scope Z_scope.

(** ** Substitution *)

(** [strings.ReplaceAll] of a text that is not empty; [skip] bytes are consumed. *)
Fixpoint replace_from (skip : nat) (old new s : string) : string :=
  match s with
  | EmptyString => EmptyString
  | String c s' =>
      match skip with
      | S skip => replace_from skip old new s'
      | O => if HasPrefix s old then (new +:+ replace_from (String.length old - 1) old new s')%string else String c (replace_from 0 old new s')
      end
  end.
Definition ReplaceAll (s old new : string) : string := replace_from 0 old new s.

(** A replacement map: its names are distinct. *)
Abbreviation M := (list (string * string)).

(** [order]: the order in which a range visits a map. *)
Definition substitute (order : M -> M) (s : string) (replace : M) : string :=
  fold_left (fun s kv => ReplaceAll s (String ":" kv.1) kv.2) (order replace) s.

(** The caller's [count] wins. *)
Definition merged (count : Z) (replace : M) : M :=
  if existsb (fun kv => String.eqb kv.1 "count") replace then replace else ("count", FormatInt count) :: replace.

(** ** Messages *)

Inductive value :=
| VText (s : string)
| VObject (fields : list (string * value))
| VOther.

Definition is_category (k : string) : bool := existsb (String.eqb k) ["zero"; "one"; "two"; "few"; "many"; "other"].
Definition isPluralForm (fields : list (string * value)) : bool := match fields with [] => false | _ => forallb (fun kv => is_category kv.1) fields end.

Definition prefixed (prefix k : string) : string := if String.eqb prefix "" then k else (prefix +:+ "." +:+ k)%string.

Fixpoint flatten (src : value) (prefix : string) : gmap string value :=
  match src with
  | VObject fields =>
      (fix each (fs : list (string * value)) (out : gmap string value) :=
         match fs with
         | [] => out
         | (k, v) :: fs =>
             let key := prefixed prefix k in
             each fs (match v with
                      | VObject inner => if isPluralForm inner then <[key := v]> out else flatten v key ∪ out
                      | _ => <[key := v]> out
                      end)
         end) fields ∅
  | _ => ∅
  end.

Abbreviation Messages := (gmap string (gmap string value)).

Record Translator := mkTranslator { def : string; current : string; fallback : string }.

Definition Add (locale : string) (msgs : list (string * value)) (m : Messages) : Messages := <[locale := flatten (VObject msgs) ""]> m.
Definition SetFallback (locale : string) (t : Translator) : Translator := mkTranslator (def t) (current t) locale.
Definition Default (t : Translator) : string := def t.
Definition Current (t : Translator) : string := current t.
Definition WithLocale (locale : string) (t : Translator) : Translator := mkTranslator (def t) locale (fallback t).

Definition locale_messages (m : Messages) (locale : string) : gmap string value := default ∅ (m !! locale).

Definition Has (m : Messages) (t : Translator) (key : string) : bool := bool_decide (is_Some (locale_messages m (current t) !! key)).

Definition find_message (m : Messages) (t : Translator) (key : string) : option value :=
  match locale_messages m (current t) !! key with Some v => Some v | None => locale_messages m (fallback t) !! key end.

(** [m[form].(string)]. *)
Definition pick (form : string) (fields : list (string * value)) : option string :=
  match assoc form fields with Some (VText s) => Some s | _ => None end.

Section Messages.
Context (order : M -> M).

(** [replace]: the first map of the variadic argument. *)
Definition Get (m : Messages) (t : Translator) (key : string) (replace : M) : string :=
  match find_message m t key with
  | None => key
  | Some (VText s) => substitute order s replace
  | Some (VObject fields) => match pick "other" fields with Some other => substitute order other replace | None => key end
  | Some VOther => key
  end.

Definition substituteWithCount (s : string) (count : Z) (replace : M) : string := substitute order s (merged count replace).

Definition Choice (m : Messages) (t : Translator) (key : string) (count : Z) (replace : M) : string :=
  match find_message m t key with
  | None => key
  | Some (VText s) => substituteWithCount s count replace
  | Some VOther => substituteWithCount "" count replace
  | Some (VObject fields) =>
      let chosen := if count =? 0 then pick "zero" fields else if count =? 1 then pick "one" fields else None in
      match chosen with
      | Some s => substituteWithCount s count replace
      | None => match pick "other" fields with Some s => substituteWithCount s count replace | None => key end
      end
  end.
End Messages.

(** ** Loading *)

Record entry := mkEntry { e_name : string; e_dir : bool }.
Inductive load_error (E : Type) := ErrReadDir (e : E) | ErrReadFile (e : E) | ErrParse (name : string) | ErrLocaleMissing (locale : string).
Arguments ErrReadDir {E}. Arguments ErrReadFile {E}. Arguments ErrParse {E}. Arguments ErrLocaleMissing {E}.

Section Load.
(** [ReadDir], [ReadFile] of an entry of the directory, [json.Unmarshal] into an object. *)
Context {E : Type} (read_dir : result E (list entry)) (read_file : string -> result E string) (parse : string -> option (list (string * value))).

Definition is_messages (e : entry) : bool := negb (e_dir e || negb (String.eqb (Mail.Ext (e_name e)) ".json")).
Definition locale_of (e : entry) : string := if Inflect.HasSuffix (e_name e) ".json" then String.substring 0 (String.length (e_name e) - 5) (e_name e) else e_name e.

Fixpoint load_entries (es : list entry) (m : Messages) : result (load_error E) Messages :=
  match es with
  | [] => Ok m
  | e :: es =>
      if negb (is_messages e) then load_entries es m
      else match read_file (e_name e) with
           | Err err => Err (ErrReadFile err)
           | Ok data => match parse data with
                        | None => Err (ErrParse (e_name e))
                        | Some raw => load_entries es (<[locale_of e := flatten (VObject raw) ""]> m)
                        end
           end
  end.

Definition fresh (defaultLocale : string) : Translator := mkTranslator defaultLocale defaultLocale defaultLocale.

(** The translator is returned beside [ErrLocaleMissing], and only there. *)
Definition Load (defaultLocale : string) : option (Messages * Translator) * option (load_error E) :=
  match read_dir with
  | Err e => (None, Some (ErrReadDir e))
  | Ok es =>
      match load_entries es ∅ with
      | Err e => (None, Some e)
      | Ok m => (Some (m, fresh defaultLocale), match m !! defaultLocale with Some _ => None | None => Some (ErrLocaleMissing defaultLocale) end)
      end
  end.

Definition LoadFS (defaultLocale : string) : option (Messages * Translator) * option (load_error E) :=
  match read_dir with
  | Err e => (None, Some (ErrReadDir e))
  | Ok es =>
      match load_entries es ∅ with
      | Err e => (None, Some e)
      | Ok m => (Some (m, fresh defaultLocale), None)
      end
  end.
End Load.

(** ** Laws of substitution *)

(** Every name at its place at once: the texts between the colons, and what one of the
    later ones stands for. *)
Definition render_segment (names : M) (seg : string) : string :=
  match List.find (fun kv => HasPrefix seg kv.1) names with
  | Some (k, v) => (v +:+ skip_bytes (String.length k) seg)%string
  | None => String ":" seg
  end.
Definition simultaneous (names : M) (s : string) : string :=
  match Split ":" s with [] => "" | seg :: segs => (seg +:+ String.concat "" (map (render_segment names) segs))%string end.

(** No text between two colons is the beginning of a longer name. *)
Fixpoint apart (names : M) (segs : list string) : Prop :=
  match segs with
  | [] | [_] => True
  | seg :: segs => (forall kv, kv ∈ names -> HasPrefix kv.1 seg = true -> HasPrefix seg kv.1 = true) /\ apart names segs
  end.

Record clear (names : M) (s : string) : Prop := {
  clear_names kv : kv ∈ names -> has_byte ":" kv.1 = false /\ has_byte ":" kv.2 = false;
  clear_prefix kv kv' : kv ∈ names -> kv' ∈ names -> HasPrefix kv.1 kv'.1 = true -> kv = kv';
  clear_apart : apart names (tail (Split ":" s)) }.

Section Replace.
Context (k v : string).

Lemma replace_plain t r : has_byte ":" t = false -> replace_from 0 (String ":" k) v (t +:+ r)%string = (t +:+ replace_from 0 (String ":" k) v r)%string.
Proof.
  induction t as [|c t IH]; [done |]. cbn [has_byte]. intros [Hc Ht]%orb_false_elim.
  change ((String c t +:+ r)%string) with (String c (t +:+ r)%string). cbn [replace_from].
  replace (HasPrefix (String c (t +:+ r)) (String ":" k)) with false; [by rewrite IH |].
  unfold HasPrefix. cbn [String.prefix]. destruct (Ascii.ascii_dec ":" c) as [<-|]; done.
Qed.

Lemma replace_skip p r : replace_from (String.length p) (String ":" k) v (p +:+ r)%string = replace_from 0 (String ":" k) v r.
Proof. induction p as [|c p IH]; [done |]. change ((String c p +:+ r)%string) with (String c (p +:+ r)%string). exact IH. Qed.

Lemma replace_hit seg r : has_byte ":" seg = false -> HasPrefix seg k = true ->
  replace_from 0 (String ":" k) v (String ":" seg +:+ r)%string = (v +:+ skip_bytes (String.length k) seg +:+ replace_from 0 (String ":" k) v r)%string.
Proof.
  intros Hs Hp. pose proof (HasPrefix_split seg k Hp) as E. set (t := skip_bytes (String.length k) seg) in *. clearbody t. subst seg.
  rewrite has_byte_app in Hs. apply orb_false_elim in Hs as [_ Ht].
  change ((String ":" (k +:+ t) +:+ r)%string) with (String ":" ((k +:+ t) +:+ r)%string). cbn [replace_from].
  replace (HasPrefix (String ":" ((k +:+ t) +:+ r)) (String ":" k)) with true.
  - cbn [String.length]. rewrite Nat.sub_succ, Nat.sub_0_r. by rewrite str_app_assoc, replace_skip, replace_plain.
  - rewrite str_app_assoc. symmetry. apply (HasPrefix_app (String ":" k)).
Qed.

Lemma HasPrefix_longer seg r : HasPrefix seg k = false -> (HasPrefix k seg = true -> HasPrefix seg k = true) -> HasPrefix (seg +:+ r)%string k = false.
Proof.
  unfold HasPrefix. generalize k. clear k. induction seg as [|c seg IH]; intros [|d k] H1 H2; try done; cbn [String.prefix] in *.
  - specialize (H2 eq_refl). done.
  - change ((String c seg +:+ r)%string) with (String c (seg +:+ r)%string). cbn [String.prefix]. destruct (Ascii.ascii_dec d c) as [->|]; [| done].
    destruct (Ascii.ascii_dec c c); [| done]. by apply IH.
Qed.

Lemma replace_miss seg r : has_byte ":" seg = false -> HasPrefix (seg +:+ r)%string k = false ->
  replace_from 0 (String ":" k) v (String ":" seg +:+ r)%string = (String ":" seg +:+ replace_from 0 (String ":" k) v r)%string.
Proof.
  intros Hs Hp. change ((String ":" seg +:+ r)%string) with (String ":" (seg +:+ r)%string). cbn [replace_from].
  replace (HasPrefix (String ":" (seg +:+ r)) (String ":" k)) with false by (unfold HasPrefix in *; cbn [String.prefix]; by destruct (Ascii.ascii_dec ":" ":")).
  by rewrite replace_plain.
Qed.
End Replace.

(** *** Pieces of a text under substitution *)

(** A text after a colon, or one already put in. *)
Inductive piece := Colon (seg : string) | Plain (t : string).

Fixpoint pieces_text (ps : list piece) : string :=
  match ps with
  | [] => ""
  | Colon seg :: ps => (String ":" seg +:+ pieces_text ps)%string
  | Plain t :: ps => (t +:+ pieces_text ps)%string
  end.

Definition put (kv : string * string) (p : piece) : piece :=
  match p with
  | Colon seg => if HasPrefix seg kv.1 then Plain (kv.2 +:+ skip_bytes (String.length kv.1) seg)%string else Colon seg
  | Plain t => Plain t
  end.

Definition colonless (p : piece) : Prop := match p with Colon s | Plain s => has_byte ":" s = false end.

(** [apart] for one name. *)
Fixpoint apart_from (k : string) (ps : list piece) : Prop :=
  match ps with
  | [] | [_] => True
  | p :: ps => match p with Colon seg => HasPrefix k seg = true -> HasPrefix seg k = true | Plain _ => True end /\ apart_from k ps
  end.

Lemma skip_colonless n s : has_byte ":" s = false -> has_byte ":" (skip_bytes n s) = false.
Proof. revert s. induction n as [|n IH]; intros [|c s] H; try done. cbn [has_byte skip_bytes] in *. apply orb_false_elim in H as [_ H]. by apply IH. Qed.

Lemma replace_pieces k v ps : Forall colonless ps -> apart_from k ps ->
  ReplaceAll (pieces_text ps) (String ":" k) v = pieces_text (map (put (k, v)) ps).
Proof.
  unfold ReplaceAll. induction 1 as [|p ps Hp Hps IH]; intros Ha; [done |].
  assert (Hrest : apart_from k ps) by (destruct ps; [done | by destruct Ha]). specialize (IH Hrest).
  destruct p as [seg | t]; cbn [pieces_text map put fst snd]; [| by rewrite replace_plain, IH by done].
  destruct (HasPrefix seg k) eqn:Hk.
  - rewrite replace_hit, IH by done. cbn [pieces_text]. by rewrite str_app_assoc.
  - rewrite replace_miss, IH; [done | done |]. destruct ps as [|p ps]; [cbn [pieces_text]; by rewrite str_app_empty |].
    apply HasPrefix_longer; [done |]. destruct Ha as [Ha _]. intros H. by rewrite Ha in Hk.
Qed.

Lemma put_colonless kv ps : has_byte ":" kv.2 = false -> Forall colonless ps -> Forall colonless (map (put kv) ps).
Proof.
  intros Hv H. induction H as [|p ps Hp _ IH]; [constructor |]. constructor; [| done]. destruct p as [seg | t]; [| done]. cbn [put].
  destruct (HasPrefix seg kv.1); [| done]. cbn [colonless] in *. rewrite has_byte_app, Hv. by apply skip_colonless.
Qed.

Lemma put_apart k kv ps : apart_from k ps -> apart_from k (map (put kv) ps).
Proof.
  induction ps as [|p [|q ps] IH]; intros H; [done | done |]. destruct H as [Hp H]. specialize (IH H). cbn [map] in *. split; [| exact IH].
  destruct p as [seg | t]; [| done]. cbn [put]. by destruct (HasPrefix seg kv.1).
Qed.

Lemma substitute_pieces names ps :
  (forall kv, kv ∈ names -> has_byte ":" kv.2 = false /\ apart_from kv.1 ps) -> Forall colonless ps ->
  fold_left (fun s kv => ReplaceAll s (String ":" kv.1) kv.2) names (pieces_text ps) = pieces_text (map (fun p => fold_left (fun p kv => put kv p) names p) ps).
Proof.
  revert ps. induction names as [|[k v] names IH]; intros ps Hn Hc; [cbn [fold_left]; by rewrite map_id |]. cbn [fold_left fst snd].
  destruct (Hn (k, v) ltac:(by left)) as [Hv Ha]. rewrite replace_pieces by done. rewrite IH.
  - by rewrite map_map.
  - intros kv Hin. destruct (Hn kv ltac:(by right)) as [? ?]. split; [done | by apply put_apart].
  - by apply put_colonless.
Qed.

Lemma puts_plain names t : fold_left (fun p kv => put kv p) names (Plain t) = Plain t.
Proof. by induction names. Qed.

(** At most one name begins a text. *)
Lemma names_unique (names : M) (Hp : forall kv kv', kv ∈ names -> kv' ∈ names -> HasPrefix kv.1 kv'.1 = true -> kv = kv') seg kv kv' :
  kv ∈ names -> kv' ∈ names -> HasPrefix seg kv.1 = true -> HasPrefix seg kv'.1 = true -> kv = kv'.
Proof.
  intros H H' Hs Hs'. assert (HasPrefix kv.1 kv'.1 = true \/ HasPrefix kv'.1 kv.1 = true) as [?|?]; [| by apply Hp | symmetry; by apply Hp].
  clear -Hs Hs'. revert Hs Hs'. unfold HasPrefix. generalize kv.1 kv'.1. intros a. revert seg. induction a as [|c a IH]; intros seg b Ha Hb; [by right; destruct b |].
  destruct b as [|d b]; [by left |]. destruct seg as [|e seg]; [done |]. cbn [String.prefix] in *.
  destruct (Ascii.ascii_dec c e) as [->|]; [| done]. destruct (Ascii.ascii_dec d e) as [->|]; [| done]. destruct (Ascii.ascii_dec e e); [| done]. by apply (IH seg).
Qed.

Lemma puts_colon (names order : M) seg :
  (forall kv kv', kv ∈ names -> kv' ∈ names -> HasPrefix kv.1 kv'.1 = true -> kv = kv') -> order ≡ₚ names ->
  pieces_text [fold_left (fun p kv => put kv p) order (Colon seg)] = render_segment names seg.
Proof.
  intros Hp Ho. unfold render_segment. assert (Hp' : forall kv kv', kv ∈ order -> kv' ∈ order -> HasPrefix kv.1 kv'.1 = true -> kv = kv') by (setoid_rewrite Ho; exact Hp).
  transitivity (match List.find (fun kv => HasPrefix seg kv.1) order with Some (k, v) => (v +:+ skip_bytes (String.length k) seg)%string | None => String ":" seg end).
  - clear Ho Hp names. induction order as [|[k v] order IH]; [cbn [fold_left pieces_text List.find]; by rewrite str_app_empty |]. cbn [fold_left List.find put fst snd].
    destruct (HasPrefix seg k); [rewrite puts_plain; cbn [pieces_text]; by rewrite str_app_empty |].
    apply IH. intros kv kv' H H'. apply Hp'; by right.
  - destruct (List.find _ order) as [kv|] eqn:E, (List.find _ names) as [kv'|] eqn:E'; try done.
    + apply find_some in E as [Hin Hk], E' as [Hin' Hk']. rewrite <- list_elem_of_In in Hin, Hin'. rewrite Ho in Hin. by rewrite (names_unique names Hp seg kv kv').
    + apply find_some in E as [Hin Hk]. rewrite <- list_elem_of_In, Ho, list_elem_of_In in Hin. by rewrite (find_none _ _ E' kv Hin) in Hk.
    + apply find_some in E' as [Hin Hk]. rewrite <- list_elem_of_In, <- Ho, list_elem_of_In in Hin. by rewrite (find_none _ _ E kv' Hin) in Hk.
Qed.

Lemma Split_text s seg segs : Split ":" s = seg :: segs -> s = (seg +:+ pieces_text (map Colon segs))%string.
Proof.
  revert seg segs. induction s as [|c s IH]; intros seg segs; [by intros [= <- <-] |]. cbn [Split].
  destruct (Split ":" s) as [|g gs] eqn:Es; [by destruct (GoPath.Split_nonempty ":" s) |]. specialize (IH g gs eq_refl).
  destruct (Ascii.eqb_spec c ":") as [->|].
  - intros [= <- <-]. cbn [map pieces_text]. change (("" +:+ String ":" g +:+ pieces_text (map Colon gs))%string) with (String ":" (g +:+ pieces_text (map Colon gs))%string).
    by rewrite <- IH.
  - intros [= <- <-]. change ((String c g +:+ pieces_text (map Colon gs))%string) with (String c (g +:+ pieces_text (map Colon gs))%string). by rewrite <- IH.
Qed.

Lemma apart_pieces names segs kv : apart names segs -> kv ∈ names -> apart_from kv.1 (map Colon segs).
Proof.
  intros H Hin. induction segs as [|seg [|seg' segs] IH]; [done | done |]. destruct H as [Hs H]. cbn [map] in *. split; [by apply Hs | by apply IH].
Qed.

Lemma pieces_concat (f : piece -> piece) (g : string -> string) segs :
  (forall seg, pieces_text [f (Colon seg)] = g seg) -> pieces_text (map f (map Colon segs)) = String.concat "" (map g segs).
Proof.
  intros H. induction segs as [|seg segs IH]; [done |]. specialize (H seg). cbn [map]. destruct segs as [|seg' segs].
  - cbn [map String.concat] in *. by rewrite <- H.
  - change (String.concat "" (g seg :: map g (seg' :: segs))) with (g seg +:+ String.concat "" (map g (seg' :: segs)))%string. rewrite <- IH, <- H.
    destruct (f (Colon seg)); cbn [pieces_text]; by rewrite str_app_empty.
Qed.

(** While no name is the beginning of another, no name or value holds a colon and no
    text between two colons is the beginning of a name, substituting the names one after
    the other, in whatever order the map is ranged over, puts every value in its place at
    once: the text outside the placeholders is kept and values are not read again. *)
Theorem substitute_exact (order : M -> M) names s :
  order names ≡ₚ names -> clear names s -> substitute order s names = simultaneous names s.
Proof.
  intros Ho [Hn Hp Ha]. unfold substitute, simultaneous. destruct (Split ":" s) as [|seg segs] eqn:Es; [by destruct (GoPath.Split_nonempty ":" s) |].
  pose proof (GoPath.Split_no_sep ":" s) as Hno. rewrite Es in Hno. apply list.Forall_cons in Hno as [Hseg Hsegs].
  rewrite (Split_text s seg segs Es). change (seg +:+ pieces_text (map Colon segs))%string with (pieces_text (Plain seg :: map Colon segs)).
  cbn [tail] in Ha. rewrite substitute_pieces.
  - cbn [map]. rewrite puts_plain. cbn [pieces_text]. f_equal. apply pieces_concat. intros t. by apply puts_colon.
  - intros kv Hin. rewrite Ho in Hin. split; [by apply Hn |]. destruct segs as [|seg' segs]; [done |]. split; [done | by apply (apart_pieces names (seg' :: segs))].
  - constructor; [done |]. clear -Hsegs. induction Hsegs; by constructor.
Qed.

Lemma substitute_exact_witness :
  substitute (@rev _) "Hi :name, you have :n of :max" [("name", "Ada"); ("n_", "x"); ("max", "5")] = "Hi Ada, you have :n of 5".
Proof.
  rewrite (substitute_exact (@rev _)).
  - vm_compute. reflexivity.
  - symmetry. apply Permutation_rev.
  - split.
    + intros kv H. repeat (apply elem_of_cons in H as [-> | H]; [by vm_compute |]). by apply elem_of_nil in H.
    + intros kv kv' H H'. repeat (apply elem_of_cons in H as [-> | H]; [repeat (apply elem_of_cons in H' as [-> | H']; [done |]); by apply elem_of_nil in H' |]). by apply elem_of_nil in H.
    + vm_compute. repeat split; intros kv H; repeat (apply elem_of_cons in H as [-> | H]; [done |]); by apply elem_of_nil in H.
Defined.

(** ** Flattening *)

(** A nested group, which is looked into. *)
Definition is_group (v : value) : bool := match v with VObject inner => negb (isPluralForm inner) | _ => false end.

(** The messages of a tree, under their paths. *)
Inductive Leaf : list (string * value) -> list string -> value -> Prop :=
| leaf_here fields k v : (k, v) ∈ fields -> is_group v = false -> Leaf fields [k] v
| leaf_inside fields k inner path v : (k, VObject inner) ∈ fields -> is_group (VObject inner) = true -> Leaf inner path v -> Leaf fields (k :: path) v.

Definition dotted_key (prefix : string) (path : list string) : string := fold_left prefixed path prefix.

Definition put_field (prefix : string) (out : gmap string value) (kv : string * value) : gmap string value :=
  if is_group kv.2 then flatten kv.2 (prefixed prefix kv.1) ∪ out else <[prefixed prefix kv.1 := kv.2]> out.

Lemma flatten_fold fields prefix : flatten (VObject fields) prefix = fold_left (put_field prefix) fields ∅.
Proof.
  change (flatten (VObject fields) prefix) with ((fix each (fs : list (string * value)) (out : gmap string value) :=
    match fs with
    | [] => out
    | (k, v) :: fs => each fs (match v with
                      | VObject inner => if isPluralForm inner then <[prefixed prefix k := v]> out else flatten v (prefixed prefix k) ∪ out
                      | _ => <[prefixed prefix k := v]> out end)
    end) fields ∅).
  generalize (∅ : gmap string value). induction fields as [|[k v] fields IH]; intros out; [done |]. cbn [fold_left]. rewrite IH. f_equal.
  unfold put_field, is_group. cbn [fst snd]. destruct v as [s | inner |]; [done | | done]. by destruct (isPluralForm inner).
Qed.

Lemma value_nested (P : value -> Prop) :
  (forall s, P (VText s)) -> P VOther -> (forall fields, (forall k v, (k, v) ∈ fields -> P v) -> P (VObject fields)) -> forall v, P v.
Proof.
  intros Ht Ho Hf. fix IH 1. intros [s | fields |]; [apply Ht | | apply Ho]. apply Hf.
  enough (H : List.Forall (fun kv => P kv.2) fields).
  - intros k v Hin. rewrite List.Forall_forall in H. apply (H (k, v)). by apply list_elem_of_In.
  - induction fields as [|[k v] fields IHf]; constructor; [apply IH | exact IHf].
Qed.

Lemma flatten_sound v : forall fields prefix key m, v = VObject fields -> flatten v prefix !! key = Some m ->
  exists path, Leaf fields path m /\ dotted_key prefix path = key.
Proof.
  induction v as [s | | fs IH] using value_nested; intros fields prefix key m; [done | done |]. intros [= ->]. rewrite flatten_fold.
  assert (H : forall out, fold_left (put_field prefix) fields out !! key = Some m ->
    out !! key = Some m \/ exists path, Leaf fields path m /\ dotted_key prefix path = key).
  { induction fields as [|[k v] fields IHf]; intros out; [by left |]. cbn [fold_left]. intros H.
    assert (Hmono : forall path, Leaf fields path m -> Leaf ((k, v) :: fields) path m).
    { intros path Hl. destruct Hl as [fields k' v' Hin Hg | fields k' inner path v' Hin Hg Hl]; [apply leaf_here; [by right | done] | eapply leaf_inside; [by right | done | done]]. }
    apply IHf in H as [H | (path & Hl & Hd)]; [| right; exists path; split; [by apply Hmono | done] | intros k' v' Hin; apply (IH k'); by right].
    unfold put_field in H. cbn [fst snd] in H. destruct (is_group v) eqn:Eg.
    - apply lookup_union_Some_raw in H as [H | [_ H]]; [| by left]. right. destruct v as [s | inner |]; [done | | done].
      destruct (IH k (VObject inner) ltac:(by left) inner (prefixed prefix k) key m eq_refl H) as (path & Hl & Hd).
      exists (k :: path). split; [| done]. eapply leaf_inside; [by left | done | done].
    - apply lookup_insert_Some in H as [[Hk ->] | [_ H]]; [| by left]. right. exists [k]. split; [| done]. by apply leaf_here; [left |]. }
  intros H'. apply H in H' as [H' | H']; [| done]. by rewrite lookup_empty in H'.
Qed.

Lemma put_field_keeps prefix fields out key : is_Some (out !! key) -> is_Some (fold_left (put_field prefix) fields out !! key).
Proof.
  revert out. induction fields as [|[k v] fields IH]; intros out H; [done |]. cbn [fold_left]. apply IH. unfold put_field. destruct (is_group _).
  - apply lookup_union_is_Some. by right.
  - apply lookup_insert_is_Some'. by right.
Qed.

Lemma flatten_complete fields path m : Leaf fields path m -> forall prefix, is_Some (flatten (VObject fields) prefix !! dotted_key prefix path).
Proof.
  induction 1 as [fields k v Hin Hg | fields k inner path v Hin Hg _ IH]; intros prefix; rewrite flatten_fold;
    apply list_elem_of_split in Hin as (l1 & l2 & ->); rewrite fold_left_app; cbn [fold_left]; apply put_field_keeps; unfold put_field at 1; cbn [fst snd]; rewrite Hg.
  - apply lookup_insert_is_Some'. by left.
  - apply lookup_union_is_Some. left. apply IH.
Qed.

(** A catalogue holds exactly the messages of its tree under the dotted keys of their
    paths, plural forms whole, as long as no two messages share a key; whatever the order
    of the ranges. *)
Theorem flatten_exact fields key m :
  (forall p p' v v', Leaf fields p v -> Leaf fields p' v' -> dotted_key "" p = dotted_key "" p' -> v = v') ->
  flatten (VObject fields) "" !! key = Some m <-> exists path, Leaf fields path m /\ dotted_key "" path = key.
Proof.
  intros Hu. split; [by apply flatten_sound |]. intros (path & Hl & <-).
  destruct (flatten_complete fields path m Hl "") as [m' Hm']. rewrite Hm'. f_equal.
  destruct (flatten_sound _ fields "" _ m' eq_refl Hm') as (path' & Hl' & Hd). by apply (Hu path' path).
Qed.

Lemma flatten_exact_witness :
  flatten (VObject [("auth", VObject [("failed", VText "x")])]) "" !! "auth.failed" = Some (VText "x").
Proof.
  apply (flatten_exact [("auth", VObject [("failed", VText "x")])] "auth.failed" (VText "x")).
  - assert (H : forall p v, Leaf [("auth", VObject [("failed", VText "x")])] p v -> v = VText "x").
    { intros p v H. inversion H as [? k v' Hin Hg | ? k inner path v' Hin Hg Hl]; subst; apply list_elem_of_singleton in Hin as [= -> ->]; [done |].
      inversion Hl as [? k v' Hin _ | ? k inner path' v' Hin Hg' _]; subst; by apply list_elem_of_singleton in Hin as [= -> ->]. }
    intros p p' v v' Hp Hp' _. by rewrite (H p v Hp), (H p' v' Hp').
  - exists ["auth"; "failed"]. split; [| done]. apply (leaf_inside _ "auth" [("failed", VText "x")]); [by apply list_elem_of_singleton | done |].
    apply leaf_here; [by apply list_elem_of_singleton | done].
Defined.

(** ** Findings *)

(** A name that begins another, and a value that completes a name: the result depends on
    the order of the range. *)
Theorem replacement_order :
  substitute id "Hi :names" [("name", "Ada"); ("names", "all")] = "Hi Adas" /\ substitute id "Hi :names" [("names", "all"); ("name", "Ada")] = "Hi all" /\
  substitute id ":a" [("a", ":b"); ("b", "x")] = "x" /\ substitute id ":a" [("b", "x"); ("a", ":b")] = ":b".
Proof. by vm_compute. Qed.

(** Two messages under one key: the order of the range decides. *)
Theorem colliding_keys :
  flatten (VObject [("a.b", VText "x"); ("a", VObject [("b", VText "y")])]) "" !! "a.b" = Some (VText "y") /\
  flatten (VObject [("a", VObject [("b", VText "y")]); ("a.b", VText "x")]) "" !! "a.b" = Some (VText "x").
Proof. by vm_compute. Qed.

(** A message that is neither a text nor a form: [Get] shows the key, [Choice] nothing. *)
Theorem choice_blank m t key count replace :
  find_message m t key = Some VOther -> Get id m t key [] = key /\ Choice id m t key count replace = substitute id "" (merged count replace).
Proof. intros H. unfold Get, Choice. by rewrite H. Qed.

(** The forms two, few and many are recognised and never chosen. *)
Theorem few_never_chosen :
  let m := Add "ru" [("apples", VObject [("one", VText "a"); ("few", VText "b"); ("other", VText "c")])] ∅ in
  Choice id m (fresh "ru") "apples" 2 [] = "c".
Proof. by vm_compute. Qed.

(** [LoadFS] does not report the missing default locale that [Load] reports. *)
Theorem missing_locale_silent :
  (Load (E := unit) (Ok []) (fun _ => Err tt) (fun _ => None) "en").2 = Some (ErrLocaleMissing "en") /\
  (LoadFS (E := unit) (Ok []) (fun _ => Err tt) (fun _ => None) "en").2 = None.
Proof. done. Qed.
