(* ===== verification/Ring.v ===== *)
(** Bounded buffers: the [ringBuffer] of [src/observability/trace.go], whose array
    and cursor the telescope's recorder has as well. *)

From Stdlib Require Import ZArith Lia.
From stdpp Require Import base list numbers.
From S2P Require Import Prelude.

Section Ring.
Context {A : Type}.

Record ring := mkRing { buf : list A; next : nat; full : bool }.

(** A capacity of the zero record. *)
Definition newRingBuffer (zero : A) (capacity : nat) : ring := mkRing (repeat zero capacity) 0 false.

(** [None]: the index is out of range, a panic. *)
Definition add (rec : A) (r : ring) : option ring :=
  if (next r <? length (buf r))%nat then
    let buf := <[next r := rec]> (buf r) in
    let next := S (next r) in
    Some (if (next =? length buf)%nat then mkRing buf 0 true else mkRing buf next (full r))
  else None.

Definition snapshot (r : ring) : list A := if negb (full r) then take (next r) (buf r) else drop (next r) (buf r) ++ take (next r) (buf r).
End Ring.
Arguments ring : clear implicits.

(** ** The ring is a window *)

Section Window.
Context {A : Type}.

Fixpoint add_all (recs : list A) (r : ring A) : option (ring A) :=
  match recs with [] => Some r | rec :: recs => r' ← add rec r; add_all recs r' end.

(** The ring after [recs]. *)
Definition holds_last (cap : nat) (recs : list A) (r : ring A) : Prop :=
  length (buf r) = cap /\ (next r < cap)%nat /\
  (if full r then (cap <= length recs)%nat else length recs = next r) /\ snapshot r = drop (length recs - cap) recs.

Lemma take_insert_next (l : list A) i x : (i < length l)%nat -> take (S i) (<[i := x]> l) = take i l ++ [x].
Proof.
  intros Hi. rewrite (take_S_r _ _ x) by (by apply list_lookup_insert_eq). by rewrite take_insert_ge.
Qed.

Lemma holds_last_add cap recs rec r : holds_last cap recs r -> exists r', add rec r = Some r' /\ holds_last cap (recs ++ [rec]) r'.
Proof.
  intros (Hlen & Hnext & Hfull & Hsnap). unfold add. rewrite (proj2 (Nat.ltb_lt _ _)) by lia. eexists. split; [done |].
  unfold holds_last, snapshot in *. rewrite length_app, length_insert. cbn [length].
  assert (Hold : full r = true -> drop (S (next r)) (buf r) ++ take (next r) (buf r) = drop (S (length recs - cap)) recs).
  { intros Hf. rewrite Hf in *. cbn [negb] in Hsnap.
    destruct (drop (next r) (buf r)) as [|b l] eqn:Ed; [apply (f_equal length) in Ed; rewrite length_drop in Ed; cbn in Ed; lia |].
    replace (drop (S (length recs - cap)) recs) with (drop 1 (drop (length recs - cap) recs)) by (rewrite drop_drop; f_equal; lia).
    replace (drop (S (next r)) (buf r)) with (drop 1 (drop (next r) (buf r))) by (rewrite drop_drop; f_equal; lia). by rewrite <- Hsnap, Ed. }
  destruct (Nat.eqb_spec (S (next r)) (length (buf r))) as [He|Hne]; cbn [buf next full negb].
  - split; [by rewrite length_insert |]. split; [lia |]. split; [destruct (full r); lia |]. rewrite drop_0, take_0, app_nil_r.
    rewrite <- (take_ge (<[next r := rec]> (buf r)) (S (next r))), take_insert_next by (rewrite ?length_insert; lia).
    destruct (full r); cbn [negb] in *.
    + specialize (Hold eq_refl). rewrite (drop_ge (buf r)) in Hold by lia. cbn [app] in Hold. rewrite Hold, drop_app_le by lia. by replace (length recs + 1 - cap)%nat with (S (length recs - cap)) by lia.
    + rewrite Hsnap. replace (length recs + 1 - cap)%nat with 0%nat by lia. replace (length recs - cap)%nat with 0%nat by lia. by rewrite !drop_0.
  - split; [by rewrite length_insert |]. split; [lia |]. split; [destruct (full r); lia |]. rewrite take_insert_next by lia. destruct (full r); cbn [negb] in *.
    + rewrite list.drop_insert_lt by lia. rewrite app_assoc, (Hold eq_refl), drop_app_le by lia. by replace (length recs + 1 - cap)%nat with (S (length recs - cap)) by lia.
    + rewrite Hsnap. replace (length recs + 1 - cap)%nat with 0%nat by lia. replace (length recs - cap)%nat with 0%nat by lia. by rewrite !drop_0.
Qed.

(** A ring of any positive capacity takes every record, and its snapshot is the last
    ones, as many as fit, oldest first. *)
Theorem ring_is_window (zero : A) cap recs :
  (0 < cap)%nat -> exists r, add_all recs (newRingBuffer zero cap) = Some r /\ snapshot r = drop (length recs - cap) recs.
Proof.
  intros Hc. assert (H : forall done r, holds_last cap done r -> exists r', add_all recs r = Some r' /\ holds_last cap (done ++ recs) r').
  { induction recs as [|rec recs IH]; intros dn r Hr; [exists r; by rewrite app_nil_r |]. cbn [add_all].
    destruct (holds_last_add cap dn rec r Hr) as (r1 & -> & H1). destruct (IH _ _ H1) as (r2 & H2 & H3). exists r2. split; [done |]. by rewrite <- app_assoc in H3. }
  destruct (H [] (newRingBuffer zero cap)) as (r & Hr & _ & _ & _ & Hs); [| by exists r].
  unfold holds_last, newRingBuffer, snapshot. cbn [buf next full negb length]. rewrite repeat_length. by rewrite Nat.sub_0_l.
Qed.

End Window.

Lemma ring_is_window_witness : exists r, add_all [1; 2; 3; 4; 5] (newRingBuffer 0 3) = Some r /\ snapshot r = [3; 4; 5].
Proof. exact (ring_is_window 0 3 [1; 2; 3; 4; 5] ltac:(lia)). Defined.
