(* ===== verification/Trace.v ===== *)
(** Tracing: [src/observability/trace.go] and [propagation.go].

    - [Start], the operations of a span and [End] are functions under the span's mutex;
      random identifiers are hexadecimal texts of the drawn bytes.
    - The finished spans go to a [Ring].
    - The W3C [traceparent] header: parsing, formatting, reading and writing headers.

    The structured log line of [logf] is not modelled. *)

From Stdlib Require Import ZArith Lia Ascii.
From stdpp Require Import base gmap strings list numbers.
From S2P Require Import Prelude GoRt GoStrconv GoStrings GoUtf8 Ring.
From S2P Require Session.

#[local] Set Warnings "-register-all".
#[local] Open Scope string_scope.
#[local] Open Scope list_scope.
#[local] Open Scope Z_scope.

Inductive SpanStatus := StatusUnset | StatusOK | StatusError.

Definition status_String (s : SpanStatus) : string := match s with StatusOK => "ok" | StatusError => "error" | StatusUnset => "unset" end.

Record SpanContext := mkContext { TraceID : string; SpanID : string; ParentID : string; Sampled : bool }.

Definition zeroTraceID : string := "00000000000000000000000000000000".
Definition zeroSpanID : string := "0000000000000000".

Definition Valid (sc : SpanContext) : bool :=
  (String.length (TraceID sc) =? 32)%nat && negb (String.eqb (TraceID sc) zeroTraceID) &&
  (String.length (SpanID sc) =? 16)%nat && negb (String.eqb (SpanID sc) zeroSpanID).

(** ** Identifiers *)

(** The draws: 16 and 8 bytes. *)
Definition newTraceID (draw : list Z) : string := Session.EncodeToString draw.
Definition newSpanID (draw : list Z) : string := Session.EncodeToString draw.

(** ** The header *)

Definition is_lower_hex_byte (c : ascii) : bool := let b := byte_of c in ((48 <=? b) && (b <=? 57)) || ((97 <=? b) && (b <=? 102)).
Fixpoint all_lower_hex (s : string) : bool := match s with EmptyString => true | String c s => is_lower_hex_byte c && all_lower_hex s end.
Definition isLowerHex (s : string) : bool := all_lower_hex s && negb (String.eqb s "").

Definition hexNibble (c : ascii) : Z :=
  let b := byte_of c in if (48 <=? b) && (b <=? 57) then b - 48 else if (97 <=? b) && (b <=? 102) then b - 97 + 10 else 0.

Definition version00 : string := "00".

(** The second byte of a text of two. *)
Definition second_byte (s : string) : ascii := match s with String _ (String c _) => c | _ => "0"%char end.

Definition ParseTraceparent (value : string) : option SpanContext :=
  match Split "-" (TrimSpace value) with
  | [ver; traceID; parentID; flags] =>
      if negb (String.length ver =? 2)%nat || negb (isLowerHex ver) || String.eqb ver "ff" then None
      else if negb (String.length traceID =? 32)%nat || negb (isLowerHex traceID) || String.eqb traceID zeroTraceID then None
      else if negb (String.length parentID =? 16)%nat || negb (isLowerHex parentID) || String.eqb parentID zeroSpanID then None
      else if negb (String.length flags =? 2)%nat || negb (isLowerHex flags) then None
      else Some (mkContext traceID parentID "" (Z.land (hexNibble (second_byte flags)) 1 =? 1))
  | _ => None
  end.

Definition FormatTraceparent (sc : SpanContext) : string :=
  (version00 +:+ "-" +:+ TraceID sc +:+ "-" +:+ SpanID sc +:+ "-" +:+ (if Sampled sc then "01" else "00"))%string.

(** A header, by canonical name: its values. *)
Abbreviation Header := (gmap string (list string)).
Definition traceparentHeader : string := "Traceparent".
Definition header_Get (h : Header) (k : string) : string := match h !! k with Some (v :: _) => v | _ => "" end.

Definition ExtractHTTP (h : Header) : option SpanContext :=
  let v := header_Get h traceparentHeader in if String.eqb v "" then None else ParseTraceparent v.
Definition InjectHTTP (h : Header) (sc : SpanContext) : Header :=
  if negb (Valid sc) then h else <[traceparentHeader := [FormatTraceparent sc]]> h.

(** ** Spans *)

Section Spans.
(** [V]: the values of attributes. *)
Context {V : Type}.

Record SpanRecord := mkRecord {
  r_Name : string; r_Context : SpanContext; r_Start : Time; r_End : Time; r_Duration : Duration;
  r_Status : SpanStatus; r_StatusMsg : string; r_Err : string; r_Attrs : gmap string V }.

Record Span := mkSpan {
  name : string; sc : SpanContext; start : Time; status : SpanStatus; statusMsg : string; err : string; attrs : gmap string V; ended : bool }.

(** [parent]: the span context of the caller's context. *)
Definition Start (parent : option SpanContext) (span_name : string) (span_draw trace_draw : list Z) (now : Time) : Span :=
  let id := newSpanID span_draw in
  let root := mkContext (newTraceID trace_draw) id "" true in
  let sc := match parent with Some p => if Valid p then mkContext (TraceID p) id (SpanID p) (Sampled p) else root | None => root end in
  mkSpan span_name sc now StatusUnset "" "" ∅ false.

Definition Context_ (s : Span) : SpanContext := sc s.
Definition SetAttr (key : string) (v : V) (s : Span) : Span :=
  mkSpan (name s) (sc s) (start s) (status s) (statusMsg s) (err s) (<[key := v]> (attrs s)) (ended s).
Definition RecordError (e : option string) (s : Span) : Span :=
  match e with
  | None => s
  | Some e => mkSpan (name s) (sc s) (start s) (match status s with StatusUnset => StatusError | st => st end) (statusMsg s) e (attrs s) (ended s)
  end.
Definition SetStatus (st : SpanStatus) (desc : string) (s : Span) : Span :=
  mkSpan (name s) (sc s) (start s) st desc (err s) (attrs s) (ended s).

(** The span, and the record handed to the ring. *)
Definition End_ (now : Time) (s : Span) : Span * option SpanRecord :=
  if ended s then (s, None)
  else (mkSpan (name s) (sc s) (start s) (status s) (statusMsg s) (err s) (attrs s) true,
        Some (mkRecord (name s) (sc s) (start s) now (time_Sub now (start s)) (status s) (statusMsg s) (err s) (attrs s))).
End Spans.
Arguments SpanRecord : clear implicits. Arguments Span : clear implicits.

(** ** The header is read back *)

(** Printable ASCII, where a rune is a byte and no space. *)
Definition visible (c : ascii) : Prop := 33 <= byte_of c <= 126.
Fixpoint all_visible (s : string) : Prop := match s with EmptyString => True | String c s => visible c /\ all_visible s end.

Lemma visible_not_space c : visible c -> fmt_space (byte_of c) = false.
Proof. unfold visible. destruct c as [[] [] [] [] [] [] [] []]; vm_compute; intros [H1 H2]; try reflexivity; first [by destruct (H1 eq_refl) | by destruct (H2 eq_refl)]. Qed.

Fixpoint ascii_runes (s : string) : runes := match s with EmptyString => [] | String c s => (byte_of c, String c "") :: ascii_runes s end.

Lemma decode_visible s : all_visible s -> decode_all s = ascii_runes s.
Proof.
  unfold decode_all. induction s as [|c s IH]; [done |]. intros [Hc Hs]. cbn [decode_from ascii_runes].
  assert (Hd : DecodeRune (String c s) = (byte_of c, 1%nat)).
  { unfold DecodeRune. cbn. unfold visible in Hc. by rewrite (proj2 (Z.ltb_lt (byte_of c) 0x80)) by lia. }
  rewrite Hd. cbn [Nat.sub]. rewrite IH by done. f_equal. f_equal. by destruct s.
Qed.

Lemma bytes_of_ascii s : bytes_of (ascii_runes s) = s.
Proof. induction s as [|c s IH]; [done |]. cbn [ascii_runes bytes_of]. by rewrite IH. Qed.

Lemma ascii_runes_visible s : all_visible s -> Forall (fun rb => fmt_space rb.1 = false) (ascii_runes s).
Proof. induction s as [|c s IH]; [constructor |]. intros [Hc Hs]. constructor; [by apply visible_not_space | by apply IH]. Qed.

Lemma drop_space_none rs : Forall (fun rb => fmt_space rb.1 = false) rs -> drop_space rs = rs.
Proof. intros H. destruct H as [|[r b] rs Hr _]; [done |]. cbn in *. by rewrite Hr. Qed.

Lemma TrimSpace_visible s : all_visible s -> TrimSpace s = s.
Proof.
  intros H. unfold TrimSpace. rewrite decode_visible by done. pose proof (ascii_runes_visible s H) as Hf.
  rewrite (drop_space_none (ascii_runes s)) by done. rewrite drop_space_none by (by apply List.Forall_rev). by rewrite rev_involutive, bytes_of_ascii.
Qed.

Lemma visible_app s t : all_visible s -> all_visible t -> all_visible (s +:+ t)%string.
Proof.
  induction s as [|c s IH]; [done |]. intros [Hc Hs] Ht. change ((String c s +:+ t)%string) with (String c (s +:+ t)%string). split; [done | by apply IH].
Qed.

Lemma hex_visible s : all_lower_hex s = true -> all_visible s /\ has_byte "-" s = false.
Proof.
  induction s as [|c s IH]; [done |]. cbn [all_lower_hex]. intros [Hc Hs]%andb_prop. destruct (IH Hs) as [H1 H2]. unfold is_lower_hex_byte in Hc.
  split; [split; [| done] |].
  - unfold visible. apply orb_prop in Hc as [[? ?]%andb_prop | [? ?]%andb_prop]; rewrite ?Z.leb_le in *; lia.
  - cbn [has_byte]. rewrite H2, orb_false_r. apply Ascii.eqb_neq. intros ->. vm_compute in Hc. done.
Qed.

(** The identifiers of a context are lower-case hexadecimal. *)
Definition hex_ids (sc : SpanContext) : Prop := all_lower_hex (TraceID sc) = true /\ all_lower_hex (SpanID sc) = true.

Lemma Valid_parts sc : Valid sc = true ->
  String.length (TraceID sc) = 32%nat /\ TraceID sc <> zeroTraceID /\ String.length (SpanID sc) = 16%nat /\ SpanID sc <> zeroSpanID.
Proof.
  unfold Valid. intros [[[H1%Nat.eqb_eq H2]%andb_prop H3%Nat.eqb_eq]%andb_prop H4]%andb_prop.
  apply negb_true_iff, String.eqb_neq in H2, H4. done.
Qed.

Lemma Format_Parse sc : Valid sc = true -> hex_ids sc ->
  ParseTraceparent (FormatTraceparent sc) = Some (mkContext (TraceID sc) (SpanID sc) "" (Sampled sc)).
Proof.
  intros (Ht & Htz & Hs & Hsz)%Valid_parts [Hht Hhs]. destruct (hex_visible _ Hht) as [Hvt Hdt], (hex_visible _ Hhs) as [Hvs Hds].
  unfold ParseTraceparent, FormatTraceparent. rewrite TrimSpace_visible.
  2: { apply visible_app; [by vm_compute |]. apply visible_app; [by vm_compute |]. apply visible_app; [done |]. apply visible_app; [by vm_compute |].
       apply visible_app; [done |]. apply visible_app; [by vm_compute |]. destruct (Sampled sc); by vm_compute. }
  change (version00 +:+ "-" +:+ TraceID sc +:+ "-" +:+ SpanID sc +:+ "-" +:+ (if Sampled sc then "01" else "00"))%string
    with (version00 +:+ String "-" (TraceID sc +:+ String "-" (SpanID sc +:+ String "-" (if Sampled sc then "01" else "00"))))%string.
  rewrite !Split_first by done. rewrite Split_none by (by destruct (Sampled sc)).
  unfold isLowerHex. rewrite Ht, Hs, Hht, Hhs.
  rewrite (proj2 (String.eqb_neq _ _) Htz), (proj2 (String.eqb_neq _ _) Hsz).
  destruct (String.eqb_spec (TraceID sc) "") as [E|_]; [by rewrite E in Ht |]. destruct (String.eqb_spec (SpanID sc) "") as [E|_]; [by rewrite E in Hs |].
  by destruct (Sampled sc).
Qed.

Lemma Parse_sound v sc : ParseTraceparent v = Some sc -> Valid sc = true /\ hex_ids sc /\ ParentID sc = "".
Proof.
  unfold ParseTraceparent. destruct (Split "-" (TrimSpace v)) as [|ver [|tid [|pid [|fl [|]]]]]; try done.
  destruct (_ || _ || _); [done |]. destruct (negb _ || _ || _) eqn:Et; [done |].
  destruct (negb (_ =? 16)%nat || _ || _) eqn:Ep; [done |]. destruct (negb (_ =? 2)%nat || negb (isLowerHex fl)); [done |]. intros H. injection H as H. subst sc.
  apply orb_false_elim in Et as [[Et1 Et2]%orb_false_elim Et3], Ep as [[Ep1 Ep2]%orb_false_elim Ep3].
  apply negb_false_iff in Et1, Et2, Ep1, Ep2. apply andb_prop in Et2 as [Et2 _], Ep2 as [Ep2 _].
  split; [| done]. unfold Valid. cbn [TraceID SpanID]. by rewrite Et1, Et3, Ep1, Ep3.
Qed.

Definition bytes_ok (l : list Z) : Prop := Forall (fun b => 0 <= b < 256) l.

Lemma hex_digit_lower n : 0 <= n < 16 -> is_lower_hex_byte (Session.hex_digit n) = true.
Proof.
  intros H. assert (Hn : n = 0 \/ n = 1 \/ n = 2 \/ n = 3 \/ n = 4 \/ n = 5 \/ n = 6 \/ n = 7 \/ n = 8 \/ n = 9 \/ n = 10 \/ n = 11 \/ n = 12 \/ n = 13 \/ n = 14 \/ n = 15) by lia.
  by repeat destruct Hn as [-> | Hn]; [.. | subst].
Qed.

Lemma hex_text l : bytes_ok l -> String.length (Session.EncodeToString l) = (2 * length l)%nat /\ all_lower_hex (Session.EncodeToString l) = true.
Proof.
  induction 1 as [|b l Hb _ [IH1 IH2]]; [done |]. cbn [Session.EncodeToString String.length length all_lower_hex]. rewrite IH1, IH2, !hex_digit_lower.
  - split; [lia | done].
  - apply Z.mod_pos_bound. lia.
  - split; [apply Z.div_pos; lia | apply Z.div_lt_upper_bound; lia].
Qed.

(** A trace goes on across a hop: what is read from a request's header is a valid
    context; the span started under it keeps its trace and its sampling, names it as its
    parent and has an identifier of its own; and the next hop reads that span's context
    from the header written for it. *)
Theorem trace_goes_on (h out : Header) remote span_name draw trace_draw now :
  ExtractHTTP h = Some remote -> length draw = 8%nat -> bytes_ok draw -> draw <> repeat 0 8 ->
  Valid remote = true /\
  let child := Context_ (Start (V := unit) (Some remote) span_name draw trace_draw now) in
  TraceID child = TraceID remote /\ ParentID child = SpanID remote /\ Sampled child = Sampled remote /\ SpanID child = Session.EncodeToString draw /\
  ExtractHTTP (InjectHTTP out child) = Some (mkContext (TraceID remote) (SpanID child) "" (Sampled remote)).
Proof.
  intros He Hlen Hok Hz. unfold ExtractHTTP in He. destruct (String.eqb _ ""); [done |]. destruct (Parse_sound _ _ He) as (Hv & [Hht Hhs] & _).
  split; [done |]. cbn zeta. unfold Context_, Start. rewrite Hv. cbn [sc TraceID SpanID ParentID Sampled]. do 4 (split; [done |]).
  destruct (hex_text draw Hok) as [Hl Hh]. rewrite Hlen in Hl. set (child := mkContext _ _ _ _).
  assert (Hcv : Valid child = true).
  { destruct (Valid_parts _ Hv) as (H1 & H2 & _). unfold Valid, child, newSpanID. cbn [TraceID SpanID]. rewrite H1, Hl, (proj2 (String.eqb_neq _ _) H2). cbn [Nat.eqb andb negb].
    apply negb_true_iff, String.eqb_neq. change zeroSpanID with (Session.EncodeToString (repeat 0 8)). intros E. apply Hz.
    apply Session.EncodeToString_inj; [done | | done]. by repeat constructor. }
  unfold ExtractHTTP, InjectHTTP. rewrite Hcv. cbn [negb]. unfold header_Get. rewrite lookup_insert_eq.
  assert (Hne : String.eqb (FormatTraceparent child) "" = false) by done. rewrite Hne. by apply (Format_Parse child).
Qed.

Definition w_header : Header := {[traceparentHeader := ["00-4bf92f3577b34da6a3ce929d0e0e4736-00f067aa0ba902b7-01"]]}.

Lemma trace_goes_on_witness :
  ExtractHTTP (InjectHTTP ∅ (Context_ (Start (V := unit) (ExtractHTTP w_header) "GET /" [1; 2; 3; 4; 5; 6; 7; 8] [] 0))) =
  Some (mkContext "4bf92f3577b34da6a3ce929d0e0e4736" "0102030405060708" "" true).
Proof.
  assert (Hx : ExtractHTTP w_header = Some (mkContext "4bf92f3577b34da6a3ce929d0e0e4736" "00f067aa0ba902b7" "" true)) by (vm_compute; reflexivity).
  rewrite Hx. destruct (trace_goes_on w_header ∅ _ "GET /" [1; 2; 3; 4; 5; 6; 7; 8] [] 0 Hx eq_refl ltac:(repeat constructor; done) ltac:(done)) as (_ & _ & _ & _ & _ & H).
  exact H.
Defined.

(** ** A span is recorded once *)

Inductive span_op (V : Type) := OSetAttr (key : string) (v : V) | ORecordError (e : option string) | OSetStatus (st : SpanStatus) (desc : string) | OEnd (now : Time).
Arguments OSetAttr {V}. Arguments ORecordError {V}. Arguments OSetStatus {V}. Arguments OEnd {V}.

Definition do_op {V} (o : span_op V) (s : Span V) : Span V * list (SpanRecord V) :=
  match o with
  | OSetAttr k v => (SetAttr k v s, [])
  | ORecordError e => (RecordError e s, [])
  | OSetStatus st d => (SetStatus st d s, [])
  | OEnd now => let '(s, r) := End_ now s in (s, option_list r)
  end.

Fixpoint do_ops {V} (ops : list (span_op V)) (s : Span V) : Span V * list (SpanRecord V) :=
  match ops with [] => (s, []) | o :: ops => let '(s, rs) := do_op o s in let '(s, rs') := do_ops ops s in (s, rs ++ rs') end.

(** Whatever is called on a span, at most one record of it is kept: that of the first
    [End], with the fields of that moment. *)
Theorem recorded_once {V} (ops : list (span_op V)) s before now after :
  ops = before ++ OEnd now :: after -> (forall t, OEnd t ∉ before) -> ended s = false ->
  let s' := (do_ops before s).1 in
  (do_ops ops s).2 = [mkRecord (name s) (sc s) (start s) now (time_Sub now (start s)) (status s') (statusMsg s') (err s') (attrs s')].
Proof.
  intros -> Hb He. cbn zeta. revert s He. induction before as [|o before IH]; intros s He.
  - cbn [do_ops do_op app fst]. unfold End_. rewrite He. cbn [option_list]. set (s1 := mkSpan _ _ _ _ _ _ _ _).
    assert (Hdone : forall ops (t : Span V), ended t = true -> (do_ops ops t).2 = []).
    { clear. induction ops as [|o ops IH]; intros t Ht; [done |]. cbn [do_ops]. assert (Ho : (do_op o t).2 = [] /\ ended (do_op o t).1 = true).
      { destruct o as [k v | [e|] | st d | n]; try done. cbn [do_op]. unfold End_. by rewrite Ht. }
      destruct (do_op o t) as [t' rs]. cbn in Ho. destruct Ho as [-> Ho]. specialize (IH t' Ho). destruct (do_ops ops t'). by cbn in *. }
    specialize (Hdone after s1 eq_refl). destruct (do_ops after s1). cbn in *. by subst.
  - cbn [do_ops app]. assert (Ho : (do_op o s).2 = [] /\ ended (do_op o s).1 = false /\ name (do_op o s).1 = name s /\ sc (do_op o s).1 = sc s /\ start (do_op o s).1 = start s).
    { destruct o as [k v | [e|] | st d | n]; try done. destruct (Hb n). by left. }
    destruct (do_op o s) as [s' rs]. cbn in Ho. destruct Ho as (-> & He' & <- & <- & <-). specialize (IH ltac:(intros t H; apply (Hb t); by right) s' He').
    destruct (do_ops (before ++ OEnd now :: after) s') as [s1 r1], (do_ops before s') as [s2 r2]. exact IH.
Qed.

(** ** Findings *)

(** Later versions are accepted, though only version 00 is said to be understood. *)
Theorem later_version_accepted :
  is_Some (ParseTraceparent "cc-4bf92f3577b34da6a3ce929d0e0e4736-00f067aa0ba902b7-01").
Proof. vm_compute. by eexists. Qed.

(** [RecordError] is said to mark the span as failed: not one whose status was set. *)
Theorem error_after_ok {V} (s : Span V) e : status (RecordError (Some e) (SetStatus StatusOK "" s)) = StatusOK.
Proof. done. Qed.

(** [Valid] looks at lengths: a context whose identifiers are no hexadecimal is written to
    a header that no one reads. *)
Theorem unreadable_header :
  let sc := mkContext "zzzzzzzzzzzzzzzzzzzzzzzzzzzzzzzz" "zzzzzzzzzzzzzzzz" "" true in
  Valid sc = true /\ ExtractHTTP (InjectHTTP ∅ sc) = None.
Proof. split; vm_compute; reflexivity. Qed.
