(* ===== verification/Metrics.v ===== *)
(** Metrics: [src/observability/metric.go] and [metrics_handler.go].

    - [cas_step]: the lock-free [Add] of counters and gauges, any number of goroutines
      interleaved at their atomic operations.
    - The registry, whose instruments are identified by the name of their family and the
      signature of their labels; a pointer that is nil in Go is [None].
    - [writeProm]: the Prometheus text, with the shortest decimal of a float as an argument.

    The mutexes of a family and of a histogram make their operations single steps. *)

From Stdlib Require Import ZArith Lia Ascii.
From stdpp Require Import base gmap strings list numbers relations.
From S2P Require Import Prelude GoRt GoStrconv GoFloat GoStrings GoSort.

#[local] Set Warnings "-register-all".
#[local] Open Scope string_scope.
#[local] Open Scope list_scope.
#[local] Open Scope Z_scope.

(** ** Counters and gauges *)

(** A call on an instrument: [Inc] is [MAdd 1], [Dec] is [MAdd (-1)]. *)
Inductive call := MAdd (v : float64) | MSet (v : float64).

Definition Inc : call := MAdd fone.
Definition Dec : call := MAdd (fsub fzero fone).

(** What a call does to the value; [monotonic]: counters ignore a negative [Add]. *)
Definition ignored (monotonic : bool) (c : call) : bool := match c with MAdd v => monotonic && flt v fzero | MSet _ => false end.
Definition apply_call (old : float64) (c : call) : float64 := match c with MAdd v => fadd old v | MSet v => v end.

(** A goroutine: the calls it has yet to make, and the value it has loaded for the first. *)
Record thread := mkThread { todo : list call; loaded : option float64 }.

(** [committed]: the calls that took effect, with the goroutine that made them. *)
Record instrument_state := mkState { value : float64; threads : list thread; committed : list (nat * call) }.

Section Steps.
Context (monotonic : bool).

Inductive thread_step (bits : float64) : thread -> float64 -> option call -> thread -> Prop :=
| ts_ignore c cs : ignored monotonic c = true -> thread_step bits (mkThread (c :: cs) None) bits None (mkThread cs None)
| ts_load v cs : ignored monotonic (MAdd v) = false -> thread_step bits (mkThread (MAdd v :: cs) None) bits None (mkThread (MAdd v :: cs) (Some bits))
| ts_swap v cs : thread_step bits (mkThread (MAdd v :: cs) (Some bits)) (fadd bits v) (Some (MAdd v)) (mkThread cs None)
| ts_retry v cs old : old <> bits -> thread_step bits (mkThread (MAdd v :: cs) (Some old)) bits None (mkThread (MAdd v :: cs) None)
| ts_store v cs : thread_step bits (mkThread (MSet v :: cs) None) v (Some (MSet v)) (mkThread cs None).

Inductive cas_step : instrument_state -> instrument_state -> Prop :=
| cas_move bits bits' l1 l2 t t' done log :
    thread_step bits t bits' done t' ->
    cas_step (mkState bits (l1 ++ t :: l2) log) (mkState bits' (l1 ++ t' :: l2) (log ++ match done with Some c => [(length l1, c)] | None => [] end)).

Definition start (programs : list (list call)) : instrument_state := mkState fzero (map (fun p => mkThread p None) programs) [].
Definition reachable (programs : list (list call)) : instrument_state -> Prop := rtc cas_step (start programs).
End Steps.

(** ** Histograms *)

Record histogram := mkHistogram { buckets : list float64; counts : list Z; h_count : Z; h_sum : float64 }.

Definition is_nan (x : float64) : bool := negb (feq x x).
(** The order of [sort.Float64s]. *)
Definition float_less (a b : float64) : bool := flt a b || (is_nan a && negb (is_nan b)).

Definition newHistogram (bs : list float64) : histogram := let b := SliceStable float_less bs in mkHistogram b (map (fun _ => 0) b) 0 fzero.

Fixpoint bump (v : float64) (bs : list float64) (cs : list Z) : list Z :=
  match bs, cs with
  | ub :: bs, c :: cs => (if fle v ub then u64 (c + 1) else c) :: bump v bs cs
  | _, _ => cs
  end.

Definition Observe (v : float64) (h : histogram) : histogram :=
  mkHistogram (buckets h) (bump v (buckets h) (counts h)) (u64 (h_count h + 1)) (fadd (h_sum h) v).

(** The snapshot is a copy. *)
Definition Snapshot (h : histogram) : histogram := h.

(** ** Labels *)

Record labelSet := mkLabels { pairs : list (string * string); sig : string }.

Fixpoint pair_up (flat : list string) : list (string * string) :=
  match flat with k :: v :: flat => (k, v) :: pair_up flat | _ => [] end.

Fixpoint signature (ps : list (string * string)) : string :=
  match ps with [] => "" | (k, v) :: ps => (k +:+ "=" +:+ v +:+ "," +:+ signature ps)%string end.

(** [sort.Slice] on names; equal names may stand in any order. *)
Definition newLabelSet (flat : list string) : labelSet :=
  let ps := SliceStable (fun a b => String.ltb a.1 b.1) (pair_up flat) in mkLabels ps (signature ps).

(** ** The registry *)

Inductive metricKind := kindCounter | kindGauge | kindHistogram.
#[export] Instance metricKind_dec : EqDecision metricKind.
Proof. solve_decision. Defined.

Inductive instrument := ICounter (v : float64) | IGauge (v : float64) | IHistogram (h : histogram).
Definition kind_of (i : instrument) : metricKind := match i with ICounter _ => kindCounter | IGauge _ => kindGauge | IHistogram _ => kindHistogram end.

Record series := mkSeries { labels : labelSet; inst : instrument }.

(** [members]: the series in the order of insertion, under their signatures. *)
Record metricFamily := mkFamily { kind : metricKind; fname : string; fbuckets : list float64; members : list (string * series) }.

(** The families in the order of insertion. *)
Abbreviation Registry := (list (string * metricFamily)).

Definition family (k : metricKind) (name : string) (bs : list float64) (r : Registry) : Registry * metricFamily :=
  match assoc name r with Some f => (r, f) | None => let f := mkFamily k name bs [] in (r ++ [(name, f)], f) end.

Definition set_family (name : string) (f : metricFamily) (r : Registry) : Registry := map (fun kf => if String.eqb kf.1 name then (kf.1, f) else kf) r.

(** An instrument handed out: its family, its signature and its kind; [None] is a nil pointer. *)
Definition handle : Type := option (string * string * metricKind).

(** [Counter], [Gauge] and [Histogram]. *)
Definition instrument_of (k : metricKind) (name : string) (bs : list float64) (flat : list string) (fresh : instrument) (r : Registry) : Registry * handle :=
  let '(r, f) := family k name bs r in
  let ls := newLabelSet flat in
  match assoc (sig ls) (members f) with
  | Some s => (r, if decide (kind_of (inst s) = k) then Some (name, sig ls, k) else None)
  | None => (set_family name (mkFamily (kind f) (fname f) (fbuckets f) (members f ++ [(sig ls, mkSeries ls fresh)])) r, Some (name, sig ls, k))
  end.

Definition Counter (name : string) (flat : list string) : Registry -> Registry * handle := instrument_of kindCounter name [] flat (ICounter fzero).
Definition Gauge (name : string) (flat : list string) : Registry -> Registry * handle := instrument_of kindGauge name [] flat (IGauge fzero).

(** 0.005 to 10, in thousandths. *)
Definition DefaultBuckets : list float64 := map (fun n => fdiv (float_of_Z n) (float_of_Z 1000)) [5; 10; 25; 50; 100; 250; 500; 1000; 2500; 5000; 10000].

(** [bs]: [None] is a nil slice. *)
Definition Histogram (name : string) (bs : option (list float64)) (flat : list string) : Registry -> Registry * handle :=
  let bs := default DefaultBuckets bs in instrument_of kindHistogram name bs flat (IHistogram (newHistogram bs)).

(** ** The text *)

Definition quote_char : ascii := ascii_of 34.
Definition backslash : ascii := ascii_of 92.
Definition newline : ascii := ascii_of 10.

(** The replacer works byte by byte. *)
Fixpoint escapeLabelValue (v : string) : string :=
  match v with
  | EmptyString => EmptyString
  | String c v =>
      if Ascii.eqb c backslash then String backslash (String backslash (escapeLabelValue v))
      else if Ascii.eqb c quote_char then String backslash (String quote_char (escapeLabelValue v))
      else if Ascii.eqb c newline then String backslash (String "n" (escapeLabelValue v))
      else String c (escapeLabelValue v)
  end.

Definition label_text (kv : string * string) : string := (kv.1 +:+ "=" +:+ String quote_char (escapeLabelValue kv.2 +:+ String quote_char ""))%string.

Definition writeLabels (ls : list (string * string)) (extra : option (string * string)) : string :=
  match (ls ++ option_list extra)%list with
  | [] => ""
  | all => ("{" +:+ GoStrings.Join "," (map label_text all) +:+ "}")%string
  end.

Section Text.
Context (formatFloat : float64 -> string).

Definition nl : string := String newline "".

Definition writeSample (name : string) (ls : labelSet) (extra : option (string * string)) (v : float64) : string :=
  (name +:+ writeLabels (pairs ls) extra +:+ " " +:+ formatFloat v +:+ nl)%string.

Fixpoint bucket_lines (name : string) (ls : labelSet) (bs : list float64) (cs : list Z) : string :=
  match bs, cs with
  | ub :: bs, c :: cs => (writeSample (name +:+ "_bucket") ls (Some ("le", formatFloat ub)) (float_of_Z c) +:+ bucket_lines name ls bs cs)%string
  | _, _ => ""
  end.

(** [None]: a method of a nil pointer is called, a panic. *)
Definition series_text (k : metricKind) (name : string) (s : series) : option string :=
  match k, inst s with
  | kindCounter, ICounter v | kindGauge, IGauge v => Some (writeSample name (labels s) None v)
  | kindHistogram, IHistogram h =>
      Some (bucket_lines name (labels s) (buckets h) (counts h) +:+
            writeSample (name +:+ "_bucket") (labels s) (Some ("le", "+Inf")) (float_of_Z (h_count h)) +:+
            writeSample (name +:+ "_sum") (labels s) None (h_sum h) +:+
            writeSample (name +:+ "_count") (labels s) None (float_of_Z (h_count h)))%string
  | _, _ => None
  end.

Definition kind_text (k : metricKind) : string := match k with kindCounter => "counter" | kindGauge => "gauge" | kindHistogram => "histogram" end.

Fixpoint concat_options (l : list (option string)) : option string :=
  match l with [] => Some "" | x :: l => s ← x; rest ← concat_options l; Some (s +:+ rest)%string end.

Definition family_writeProm (f : metricFamily) : option string :=
  body ← concat_options (map (fun ks => series_text (kind f) (fname f) ks.2) (members f));
  Some ("# TYPE " +:+ fname f +:+ " " +:+ kind_text (kind f) +:+ nl +:+ body)%string.

Definition writeProm (r : Registry) : option string := concat_options (map (fun kf => family_writeProm kf.2) r).
End Text.

(** ** No update is lost *)

Section Linear.
Context (monotonic : bool) (programs : list (list call)).

(** The calls of goroutine [i] among the committed ones. *)
Definition of_thread (i : nat) (log : list (nat * call)) : list call := map snd (filter (fun ic => ic.1 = i) log).
(** The calls of a program that have an effect. *)
Definition effective (cs : list call) : list call := List.filter (fun c => negb (ignored monotonic c)) cs.

Definition consistent (st : instrument_state) : Prop :=
  value st = fold_left apply_call (map snd (committed st)) fzero /\ length (threads st) = length programs /\
  Forall (fun ic => (ic.1 < length programs)%nat) (committed st) /\
  forall i t, threads st !! i = Some t ->
    (forall p, programs !! i = Some p -> effective p = of_thread i (committed st) ++ effective (todo t)) /\
    (is_Some (loaded t) -> exists v cs, todo t = MAdd v :: cs /\ ignored monotonic (MAdd v) = false).

Lemma of_thread_snoc i j c log : of_thread i (log ++ [(j, c)]) = of_thread i log ++ (if decide (j = i) then [c] else []).
Proof. unfold of_thread. rewrite list.filter_app, map_app. f_equal. rewrite filter_cons. cbn [fst]. by destruct (decide (j = i)). Qed.

(** A step of one goroutine takes its first call off when it commits or ignores it. *)
Lemma thread_step_todo bits t bits' done t' : thread_step monotonic bits t bits' done t' ->
  (is_Some (loaded t) -> exists v cs, todo t = MAdd v :: cs /\ ignored monotonic (MAdd v) = false) ->
  bits' = match done with Some c => apply_call bits c | None => bits end /\
  effective (todo t) = option_list done ++ effective (todo t') /\
  (is_Some (loaded t') -> exists v cs, todo t' = MAdd v :: cs /\ ignored monotonic (MAdd v) = false).
Proof.
  intros Hs Hl. destruct Hs as [c cs Hi | v cs Hi | v cs | v cs old Hne | v cs]; cbn [todo loaded option_list apply_call app] in *.
  - split; [done |]. split; [| by intros [? ?]]. unfold effective. cbn [List.filter]. by rewrite Hi.
  - split; [done |]. split; [done |]. intros _. by exists v, cs.
  - destruct (Hl ltac:(by eexists)) as (v' & cs' & [= <- <-] & Hi). split; [done |]. split; [| by intros [? ?]]. unfold effective. cbn [List.filter]. by rewrite Hi.
  - split; [done |]. split; [done | by intros [? ?]].
  - split; [done |]. split; [done | by intros [? ?]].
Qed.

Lemma consistent_step st st' : consistent st -> cas_step monotonic st st' -> consistent st'.
Proof.
  intros (Hv & Hlen & Hlog & Ht) Hstep. destruct Hstep as [bits bits' l1 l2 t t' done log Hs]. cbn [value threads committed] in *.
  destruct (Ht (length l1) t) as [Hp Hl]; [by rewrite list_lookup_middle |].
  destruct (thread_step_todo _ _ _ _ _ Hs Hl) as (Hb & Htodo & Hl'). split_and!; cbn [value threads committed].
  - rewrite map_app, fold_left_app, <- Hv, Hb. by destruct done.
  - by rewrite length_app in *.
  - apply List.Forall_app. split; [done |]. destruct done; [| done]. constructor; [| done]. cbn [fst]. rewrite <- Hlen, length_app. cbn. lia.
  - intros i u Hi. assert (Hof : of_thread i (log ++ match done with Some c => [(length l1, c)] | None => [] end)
      = of_thread i log ++ (if decide (length l1 = i) then option_list done else [])).
    { destruct done as [c|]; [apply of_thread_snoc |]. rewrite app_nil_r. by destruct (decide _); rewrite app_nil_r. }
    rewrite Hof. destruct (decide (length l1 = i)) as [<-|Hne].
    + rewrite list_lookup_middle in Hi by done. injection Hi as <-. split; [| done]. intros p Hpr. by rewrite (Hp p Hpr), Htodo, app_assoc.
    + rewrite app_nil_r. apply (Ht i u). destruct (decide (i < length l1)%nat).
      * rewrite lookup_app_l in Hi |- * by done. done.
      * rewrite lookup_app_r in Hi |- * by lia. destruct (i - length l1)%nat as [|k] eqn:Ek; [lia | done].
Qed.

Lemma consistent_reachable st : reachable monotonic programs st -> consistent st.
Proof.
  apply (rtc_invariant (cas_step monotonic) consistent); [| intros s s'; apply consistent_step].
  unfold start. split_and!; cbn; [done | by rewrite length_map | done |]. intros i t. rewrite list_lookup_fmap. intros (p & Hp & ->)%fmap_Some.
  split; [| by intros [? ?]]. intros p' Hp'. rewrite Hp in Hp'. by injection Hp' as <-.
Qed.

(** C12: in every interleaving of lock-free adds and stores the value of an instrument is
    that of the committed calls, replayed one after the other; every goroutine's calls are
    committed in its order; and when all are done, each call that is not ignored has taken
    effect once. *)
Theorem calls_linearize st :
  reachable monotonic programs st ->
  value st = fold_left apply_call (map snd (committed st)) fzero /\
  (forall i p, programs !! i = Some p -> exists rest, effective p = of_thread i (committed st) ++ rest) /\
  ((forall t, t ∈ threads st -> todo t = []) -> forall i p, programs !! i = Some p -> of_thread i (committed st) = effective p).
Proof.
  intros (Hv & Hlen & _ & Ht)%consistent_reachable. split_and!; [done | |].
  - intros i p Hp. destruct (lookup_lt_is_Some_2 (threads st) i) as [t Hi]; [rewrite Hlen; by eapply lookup_lt_Some |].
    destruct (Ht i t Hi) as [He _]. eexists. by apply He.
  - intros Hdone i p Hp. destruct (lookup_lt_is_Some_2 (threads st) i) as [t Hi]; [rewrite Hlen; by eapply lookup_lt_Some |].
    destruct (Ht i t Hi) as [He _]. rewrite (He p Hp), (Hdone t) by (by eapply list_elem_of_lookup_2). cbn. by rewrite app_nil_r.
Qed.
End Linear.

Lemma calls_linearize_witness :
  exists st, reachable true [[Inc; Inc]; [Inc]] st /\ (forall t, t ∈ threads st -> todo t = []) /\
    of_thread 0 (committed st) = [Inc; Inc] /\ value st = fold_left apply_call (map snd (committed st)) fzero /\ value st = float_of_Z 3.
Proof.
  set (one := fadd fzero fone). set (two := fadd one fone). set (three := fadd two fone).
  assert (Hr : reachable true [[Inc; Inc]; [Inc]] (mkState three [mkThread [] None; mkThread [] None] [(0%nat, Inc); (1%nat, Inc); (0%nat, Inc)])).
  { unfold reachable, start. cbn [map].
    eapply rtc_l; [eapply (cas_move true _ _ [] [mkThread [Inc] None]); by apply ts_load |].
    eapply rtc_l; [eapply (cas_move true _ _ [mkThread [Inc; Inc] (Some fzero)] []); by apply ts_load |].
    eapply rtc_l; [eapply (cas_move true _ _ [] [mkThread [Inc] (Some fzero)]); apply ts_swap |].
    eapply rtc_l; [eapply (cas_move true _ _ [mkThread [Inc] None] []); by apply ts_retry |].
    eapply rtc_l; [eapply (cas_move true _ _ [mkThread [Inc] None] []); by apply ts_load |].
    eapply rtc_l; [eapply (cas_move true _ _ [mkThread [Inc] None] []); apply ts_swap |].
    eapply rtc_l; [eapply (cas_move true _ _ [] [mkThread [] None]); by apply ts_load |].
    eapply rtc_l; [eapply (cas_move true _ _ [] [mkThread [] None]); apply ts_swap |]. apply rtc_refl. }
  eexists. split; [exact Hr |]. assert (Hd : forall t, t ∈ [mkThread [] None; mkThread [] None] -> todo t = []).
  { intros t [-> | [-> | H]%elem_of_cons]%elem_of_cons; [done | done | by apply elem_of_nil in H]. }
  destruct (calls_linearize true [[Inc; Inc]; [Inc]] _ Hr) as (Hv & _ & Ha). split; [exact Hd |]. split; [exact (Ha Hd 0%nat [Inc; Inc] eq_refl) |].
  split; [exact Hv | vm_compute; reflexivity].
Defined.

Lemma replay_incs n acc : 0 <= acc -> acc + Z.of_nat n < 2 ^ 53 -> fold_left apply_call (repeat Inc n) (float_of_Z acc) = float_of_Z (acc + Z.of_nat n).
Proof.
  revert acc. induction n as [|n IH]; intros acc Ha Hn; [by rewrite Z.add_0_r |]. cbn [repeat fold_left apply_call Inc]. unfold fone.
  rewrite fadd_int by lia. rewrite IH by lia. f_equal. lia.
Qed.

(** Increments are counted exactly: with [n] of them committed the value is [n]. *)
Theorem increments_exact programs st :
  reachable true programs st -> (forall p, p ∈ programs -> Forall (fun c => c = Inc) p) -> Z.of_nat (length (committed st)) < 2 ^ 53 ->
  value st = float_of_Z (Z.of_nat (length (committed st))).
Proof.
  intros Hr Hp Hn. destruct (consistent_reachable true programs st Hr) as (-> & Hlen & Hi & Ht).
  assert (Hlog : Forall (fun ic => ic.2 = Inc) (committed st)).
  { apply list.Forall_forall. intros [i c] Hin. rewrite list.Forall_forall in Hi. specialize (Hi _ Hin). cbn [fst snd] in *.
    destruct (lookup_lt_is_Some_2 programs i Hi) as [p Hpi].
    destruct (lookup_lt_is_Some_2 (threads st) i) as [t Hti]; [lia |]. destruct (Ht i t Hti) as [He _]. specialize (He p Hpi).
    assert (Hc : c ∈ effective true p).
    { rewrite He. apply elem_of_app. left. unfold of_thread. apply list_elem_of_fmap. exists (i, c). split; [done |]. by apply list_elem_of_filter. }
    unfold effective in Hc. apply list_elem_of_In, filter_In in Hc as [Hc _]. apply list_elem_of_In in Hc.
    specialize (Hp p ltac:(by eapply list_elem_of_lookup_2)). rewrite list.Forall_forall in Hp. by apply Hp. }
  assert (Hmap : map snd (committed st) = repeat Inc (length (committed st))).
  { clear -Hlog. induction Hlog as [|[i c] log Hc _ IH]; [done |]. cbn in *. by rewrite IH, Hc. }
  rewrite Hmap. exact (replay_incs (length (committed st)) 0 ltac:(lia) ltac:(lia)).
Qed.

(** ** Histograms count what lies below each bound *)

Definition below (ub : float64) (vs : list float64) : nat := length (List.filter (fun v => fle v ub) vs).

Lemma bump_counts v bs vs : Z.of_nat (length vs) + 1 < 2 ^ 64 ->
  bump v bs (map (fun ub => Z.of_nat (below ub vs)) bs) = map (fun ub => Z.of_nat (below ub (vs ++ [v]))) bs.
Proof.
  intros Hn. induction bs as [|ub bs IH]; [done |]. cbn [map bump]. rewrite IH. f_equal. unfold below. rewrite List.filter_app, length_app. cbn [List.filter].
  assert (length (List.filter (fun v => fle v ub) vs) <= length vs)%nat by apply List.filter_length_le.
  destruct (fle v ub); cbn [length]; [rewrite u64_small; lia | lia].
Qed.

(** After any observations the count of every bucket is the number of those at most its
    bound, for the bounds in ascending order, and the total is their number. *)
Theorem histogram_exact bs vs : Z.of_nat (length vs) < 2 ^ 64 ->
  let h := fold_left (fun h v => Observe v h) vs (newHistogram bs) in
  buckets h = SliceStable float_less bs /\ buckets h ≡ₚ bs /\
  counts h = map (fun ub => Z.of_nat (below ub vs)) (buckets h) /\ h_count h = Z.of_nat (length vs) /\ h_sum h = fold_left fadd vs fzero.
Proof.
  cbn zeta. induction vs as [|v vs IH] using rev_ind; intros Hn; [split_and!; [done | apply SliceStable_perm | done..] |].
  rewrite length_app in Hn. cbn [length] in Hn. rewrite !fold_left_app. cbn [fold_left]. destruct (IH ltac:(lia)) as (Hb & Hp & Hc & Ht & Hs).
  clear IH. revert Hb Hp Hc Ht Hs. generalize (fold_left (fun h v => Observe v h) vs (newHistogram bs)). intros h Hb Hp Hc Ht Hs.
  unfold Observe. cbn [buckets counts h_count h_sum]. split_and!; [done | done | | | by rewrite Hs].
  - rewrite Hc. apply bump_counts. lia.
  - rewrite Ht, length_app, u64_small; cbn [length]; lia.
Qed.

(** ** The text is read back *)

(** A label value up to the quote that ends it. *)
Fixpoint read_value (s : string) : option (string * string) :=
  match s with
  | EmptyString => None
  | String c s =>
      if Ascii.eqb c quote_char then Some ("", s)
      else if Ascii.eqb c backslash then
        match s with
        | String d s => match read_value s with Some (v, rest) => Some (String (if Ascii.eqb d "n" then newline else d) v, rest) | None => None end
        | EmptyString => None
        end
      else match read_value s with Some (v, rest) => Some (String c v, rest) | None => None end
  end.

(** The labels up to the brace that ends them. *)
Fixpoint read_labels (fuel : nat) (s : string) : option (list (string * string) * string) :=
  match fuel with
  | O => None
  | S fuel =>
      match cut_at "=" s with
      | Some (name, String q s1) =>
          if negb (Ascii.eqb q quote_char) then None
          else match read_value s1 with
               | Some (v, String c s2) =>
                   if Ascii.eqb c "}" then Some ([(name, v)], s2)
                   else if Ascii.eqb c "," then match read_labels fuel s2 with Some (ls, rest) => Some ((name, v) :: ls, rest) | None => None end
                   else None
               | _ => None
               end
      | _ => None
      end
  end.

Lemma read_escaped v rest : read_value (escapeLabelValue v +:+ String quote_char rest)%string = Some (v, rest).
Proof.
  induction v as [|c v IH]; [done |]. cbn [escapeLabelValue].
  destruct (Ascii.eqb_spec c backslash) as [->|H1]; [| destruct (Ascii.eqb_spec c quote_char) as [->|H2]; [| destruct (Ascii.eqb_spec c newline) as [->|H3]]].
  1-3: match goal with |- read_value ((String ?a (String ?b ?t)) +:+ ?r)%string = _ => change ((String a (String b t) +:+ r)%string) with (String a (String b (t +:+ r)%string)) end;
    cbn [read_value]; change (Ascii.eqb backslash quote_char) with false; cbn [Ascii.eqb]; rewrite Ascii.eqb_refl, IH; done.
  change ((String c (escapeLabelValue v) +:+ String quote_char rest)%string) with (String c (escapeLabelValue v +:+ String quote_char rest)%string).
  cbn [read_value]. rewrite (proj2 (Ascii.eqb_neq _ _) H1), (proj2 (Ascii.eqb_neq _ _) H2). by rewrite IH.
Qed.

Lemma escaped_one_line v : has_byte newline (escapeLabelValue v) = false.
Proof.
  induction v as [|c v IH]; [done |]. cbn [escapeLabelValue].
  destruct (Ascii.eqb_spec c backslash) as [->|H1]; [exact IH |]. destruct (Ascii.eqb_spec c quote_char) as [->|H2]; [exact IH |].
  destruct (Ascii.eqb_spec c newline) as [->|H3]; [exact IH |]. cbn [has_byte]. by rewrite IH, (proj2 (Ascii.eqb_neq _ _) H3).
Qed.

Lemma label_text_app kv rest : (label_text kv +:+ rest = kv.1 +:+ String "=" (String quote_char (escapeLabelValue kv.2 +:+ String quote_char rest)))%string.
Proof. unfold label_text. rewrite !str_app_assoc. change (("=" +:+ String quote_char (escapeLabelValue kv.2 +:+ String quote_char "") +:+ rest)%string)
    with (String "=" (String quote_char ((escapeLabelValue kv.2 +:+ String quote_char "") +:+ rest)%string)). by rewrite str_app_assoc. Qed.

Lemma read_joined all rest : all <> [] -> Forall (fun kv => has_byte "=" kv.1 = false) all ->
  read_labels (length all) (GoStrings.Join "," (map label_text all) +:+ String "}" rest)%string = Some (all, rest).
Proof.
  intros Hne H. induction H as [|[k v] all Hk Hall IH]; [done |]. destruct all as [|kv all].
  - cbn [map GoStrings.Join length read_labels]. rewrite label_text_app. cbn [fst snd] in *. rewrite cut_at_join by done. cbn [negb]. by rewrite read_escaped.
  - specialize (IH ltac:(done)). set (all' := kv :: all) in *.
    replace (GoStrings.Join "," (map label_text ((k, v) :: all')) +:+ String "}" rest)%string
      with (label_text (k, v) +:+ String "," (GoStrings.Join "," (map label_text all') +:+ String "}" rest))%string
      by (cbn [map GoStrings.Join all']; by rewrite str_app_assoc).
    rewrite label_text_app. change (length ((k, v) :: all')) with (S (length all')). cbn [read_labels fst snd] in *. rewrite cut_at_join by done. cbn [negb]. rewrite read_escaped.
    cbn [Ascii.eqb]. by rewrite IH.
Qed.

(** Whatever the values of its labels, a sample is one line and a reader finds its labels,
    each as it was given, and after them the value; as long as the labels' names, which
    are not escaped, hold no equals sign and no line break. *)
Theorem sample_reads formatFloat name ls extra v :
  Forall (fun kv => has_byte "=" kv.1 = false /\ has_byte newline kv.1 = false) (pairs ls ++ option_list extra) ->
  pairs ls ++ option_list extra <> [] ->
  exists text, writeSample formatFloat name ls extra v = (name +:+ "{" +:+ text)%string /\
    read_labels (length (pairs ls ++ option_list extra)) text = Some (pairs ls ++ option_list extra, (" " +:+ formatFloat v +:+ nl)%string) /\
    has_byte newline (writeLabels (pairs ls) extra) = false.
Proof.
  intros H Hne. unfold writeSample, writeLabels. revert H Hne. generalize (pairs ls ++ option_list extra). intros all H Hne.
  exists (GoStrings.Join "," (map label_text all) +:+ String "}" (" " +:+ formatFloat v +:+ nl))%string.
  destruct all as [|kv all]; [done |]. split; [by rewrite !str_app_assoc |]. split.
  - apply read_joined; [done |]. eapply list.Forall_impl; [exact H | by intros ? []].
  - rewrite !has_byte_app. cbn [has_byte]. rewrite orb_false_r. change (Ascii.eqb "{" newline) with false. change (Ascii.eqb "}" newline) with false.
    rewrite orb_false_r. cbn [orb]. clear Hne. induction H as [|[k w] l [_ Hk] Hl IH]; [done |].
    assert (Hone : has_byte newline (label_text (k, w)) = false).
    { unfold label_text. cbn [fst snd] in *. rewrite !has_byte_app, Hk. cbn [has_byte]. rewrite has_byte_app, escaped_one_line. done. }
    destruct l as [|kv' l]; [exact Hone |]. change (GoStrings.Join "," (map label_text ((k, w) :: kv' :: l)))
      with (label_text (k, w) +:+ "," +:+ GoStrings.Join "," (map label_text (kv' :: l)))%string. by rewrite !has_byte_app, Hone, IH.
Qed.

Lemma sample_reads_witness :
  exists text, writeSample (fun _ => "1") "hits" (mkLabels [("path", String quote_char (String newline "} x"))] "") None fone = ("hits{" +:+ text)%string /\
    read_labels 1 text = Some ([("path", String quote_char (String newline "} x"))], (" 1" +:+ nl)%string).
Proof.
  destruct (sample_reads (fun _ => "1") "hits" (mkLabels [("path", String quote_char (String newline "} x"))] "") None fone
    ltac:(repeat constructor) ltac:(done)) as (text & Hw & Hr & _). exists text. split; [exact Hw | exact Hr].
Defined.

(** ** Kinds *)

(** Every series is of its family's kind, and families stand under distinct names. *)
Definition well_kinded (r : Registry) : Prop :=
  forall n f, (n, f) ∈ r -> forall sg s, (sg, s) ∈ members f -> kind_of (inst s) = kind f.

Lemma writeProm_total formatFloat r : well_kinded r -> is_Some (writeProm formatFloat r).
Proof.
  intros H. assert (Hall : forall l, (forall x, x ∈ l -> is_Some x) -> is_Some (concat_options l)).
  { induction l as [|x l IH]; intros Hl; [by eexists |]. destruct (Hl x ltac:(by left)) as [s ->]. destruct IH as [t Ht]; [intros; apply Hl; by right |].
    cbn. rewrite Ht. by eexists. }
  apply Hall. intros x ([n f] & -> & Hin)%list_elem_of_fmap. unfold family_writeProm. cbn [snd].
  destruct (Hall (map (fun ks => series_text formatFloat (kind f) (fname f) ks.2) (members f))) as [body ->]; [| by eexists].
  intros y ([sg s] & -> & Hs)%list_elem_of_fmap. cbn [snd]. specialize (H n f Hin sg s Hs). unfold series_text. rewrite <- H. by destruct (inst s).
Qed.

Lemma elem_of_set_family n g name f r : (n, g) ∈ set_family name f r -> g = f \/ (n, g) ∈ r.
Proof.
  unfold set_family. intros ([m h] & He & Hin)%list_elem_of_fmap. cbn [fst] in He. destruct (String.eqb m name); injection He as -> ->; [by left | by right].
Qed.

(** As long as a name is used for one kind of instrument, its handles are never nil and
    the text can be written; a second kind is the caller's only way to a panic. *)
Theorem one_kind_no_panic k name bs flat fresh r :
  well_kinded r -> (forall f, assoc name r = Some f -> kind f = k) -> kind_of fresh = k ->
  is_Some (instrument_of k name bs flat fresh r).2 /\ well_kinded (instrument_of k name bs flat fresh r).1 /\
  (forall formatFloat, is_Some (writeProm formatFloat (instrument_of k name bs flat fresh r).1)).
Proof.
  intros Hw Hk Hf. enough (H : is_Some (instrument_of k name bs flat fresh r).2 /\ well_kinded (instrument_of k name bs flat fresh r).1).
  { destruct H as [H1 H2]. split; [done |]. split; [done |]. intros fmt. by apply writeProm_total. }
  unfold instrument_of, family. destruct (assoc name r) as [f|] eqn:Ea.
  - pose proof (assoc_Some_in _ _ _ Ea) as Hin. specialize (Hk f eq_refl). destruct (assoc (sig (newLabelSet flat)) (members f)) as [s|] eqn:Es; cbn [fst snd].
    + apply assoc_Some_in in Es. rewrite decide_True by (by rewrite (Hw _ _ Hin _ _ Es)). split; [by eexists | done].
    + split; [by eexists |]. intros n g Hg sg s Hs. apply elem_of_set_family in Hg as [-> | Hg]; [| by apply (Hw n g Hg sg)]. cbn [kind members] in *.
      apply elem_of_app in Hs as [Hs | [= -> ->]%list_elem_of_singleton]; [by apply (Hw name f Hin sg) | by rewrite Hk].
  - cbn [members assoc fst snd]. split; [by eexists |]. intros n g Hg sg s Hs. apply elem_of_set_family in Hg as [-> | Hg].
    + cbn [kind members app] in *. by apply list_elem_of_singleton in Hs as [= -> ->].
    + apply elem_of_app in Hg as [Hg | [= -> ->]%list_elem_of_singleton]; [by apply (Hw n g Hg sg) | by apply elem_of_nil in Hs].
Qed.

Lemma one_kind_no_panic_witness :
  let r := (Counter "hits" ["code"; "200"] []).1 in is_Some (Counter "hits" ["code"; "500"] r).2 /\ is_Some (writeProm (fun _ => "1") (Counter "hits" ["code"; "500"] r).1).
Proof.
  destruct (one_kind_no_panic kindCounter "hits" [] ["code"; "500"] (ICounter fzero) (Counter "hits" ["code"; "200"] []).1) as (H1 & _ & H3).
  - intros n f Hin sg s Hs. vm_compute in Hin. apply list_elem_of_singleton in Hin as [= -> ->]. by apply list_elem_of_singleton in Hs as [= -> ->].
  - vm_compute. by intros f [= <-].
  - done.
  - split; [exact H1 | apply H3].
Defined.

(** ** Findings *)

(** A name used for two kinds: the second handle is nil, and with other labels the text
    cannot be written any more. *)
Theorem kind_clash_panics :
  let r := (Counter "x" [] []).1 in
  (Gauge "x" [] r).2 = None /\ writeProm (fun _ => "1") (Gauge "x" ["a"; "1"] r).1 = None.
Proof. by vm_compute. Qed.

(** Labels are told apart by a text in which their separators are not escaped. *)
Theorem labels_collide :
  sig (newLabelSet ["a"; "1,b=2"]) = sig (newLabelSet ["a"; "1"; "b"; "2"]) /\ pairs (newLabelSet ["a"; "1,b=2"]) <> pairs (newLabelSet ["a"; "1"; "b"; "2"]).
Proof. split; [vm_compute; reflexivity | vm_compute; discriminate]. Qed.

(** The bounds of a family are those of each series' first call: a later series of it may
    have others. *)
Theorem buckets_differ :
  let r := (Histogram "h" (Some [fone]) ["a"; "1"] []).1 in
  let r := (Histogram "h" (Some [fone; fadd fone fone]) ["a"; "2"] r).1 in
  match r with [(_, f)] => map (fun ks => match inst ks.2 with IHistogram h => length (buckets h) | _ => 0%nat end) (members f) = [1%nat; 2%nat] | _ => False end.
Proof. by vm_compute. Qed.
