(* ===== verification/Events.v ===== *)
(** The event dispatcher: [src/events/events.go].

    Events are values under the name of their dynamic type, possibly behind pointers.  A
    listener is a call on the state of the program, which holds the dispatcher: it may
    return, panic, and register or forget listeners itself. *)

From Stdlib Require Import ZArith Lia.
From stdpp Require Import base gmap strings list.
From S2P Require Import Prelude GoRt.

#[local] Set Warnings "-register-all".
#[local] Open Scope nat_scope.
#[local] Open Scope string_scope.
#[local] Open Scope list_scope.

(** A dynamic value: nothing (a nil interface), a value of a named type, a pointer. *)
Inductive event (V : Type) := ENil | EValue (type : string) (v : V) | EPointer (type : string) (target : option (event V)).
Arguments ENil {V}. Arguments EValue {V}. Arguments EPointer {V}.

(** The error of a listener, and what its panic is turned into. *)
Inductive listener_error (E : Type) := Returned (e : E) | Panicked (r : E).
Arguments Returned {E}. Arguments Panicked {E}.

Section Events.
Context {V E W : Type}.

(** The state: the listeners of each type in the order of registration, the flag, and the
    rest of the program [W]. *)
Record state_of (L : Type) := mkDispatcher { handlers : gmap string (list L); stopOn : bool; world : W }.
Arguments mkDispatcher {L}. Arguments handlers {L}. Arguments stopOn {L}. Arguments world {L}.

(** A listener is stored by a name; [code] is what it does. *)
Context {L : Type} (code : L -> V -> state_of L -> state_of L * outcome unit E).

Abbreviation Dispatcher := (state_of L).

Definition StopOnError (v : bool) (d : Dispatcher) : Dispatcher := mkDispatcher (handlers d) v (world d).

(** [t]: the type of the type parameter; [None] for an interface type, whose registration
    panics. *)
Definition Listen (t : option string) (l : L) (d : Dispatcher) : option Dispatcher :=
  match t with
  | None => None
  | Some t => Some (mkDispatcher (<[t := default [] (handlers d !! t) ++ [l]]> (handlers d)) (stopOn d) (world d))
  end.

Definition HasListeners (t : option string) (d : Dispatcher) : bool :=
  match t with None => false | Some t => match default [] (handlers d !! t) with [] => false | _ => true end end.

Definition Forget (t : option string) (d : Dispatcher) : Dispatcher * bool :=
  match t with
  | None => (d, false)
  | Some t => (mkDispatcher (delete t (handlers d)) (stopOn d) (world d), bool_decide (is_Some (handlers d !! t)))
  end.

Definition callListener (l : L) (v : V) (d : Dispatcher) : Dispatcher * option (listener_error E) :=
  let '(d, o) := code l v d in
  (d, match o with Return _ None => None | Return _ (Some e) => Some (Returned e) | Panic r => Some (Panicked r) end).

(** The loop over the listeners: the state and the errors. *)
Fixpoint fan_out (stop : bool) (v : V) (ls : list L) (d : Dispatcher) : Dispatcher * list (listener_error E) :=
  match ls with
  | [] => (d, [])
  | l :: ls =>
      let '(d, e) := callListener l v d in
      match e with
      | None => fan_out stop v ls d
      | Some e => if stop then (d, [e]) else let '(d, es) := fan_out stop v ls d in (d, e :: es)
      end
  end.

(** Pointers are followed; [None] is a nil pointer. *)
Fixpoint element (ev : event V) : option (event V) :=
  match ev with EPointer _ None => None | EPointer _ (Some ev) => element ev | ev => Some ev end.

(** [None]: a panic, of the type of nothing. No errors is a nil error. *)
Definition Dispatch (ev : event V) (d : Dispatcher) : option (Dispatcher * list (listener_error E)) :=
  match element ev with
  | None => Some (d, [])
  | Some (EValue t v) => Some (fan_out (stopOn d) v (default [] (handlers d !! t)) d)
  | Some _ => None
  end.

(** ** What a dispatch calls *)

(** The listeners called, with what each returned: [Called l d d' r] is a call of [l] in the
    state [d] that left [d'] and the error [r]. *)
Inductive calls (v : V) : Dispatcher -> list (L * option (listener_error E)) -> Dispatcher -> Prop :=
| calls_none d : calls v d [] d
| calls_one l d d1 e d2 rs : callListener l v d = (d1, e) -> calls v d1 rs d2 -> calls v d ((l, e) :: rs) d2.

Definition failed (r : L * option (listener_error E)) : bool := match r.2 with Some _ => true | None => false end.

(** Every listener is called; or, when errors stop, those up to the first that fails. *)
Definition covers (stop : bool) (rs : list (L * option (listener_error E))) (ls : list L) : Prop :=
  if stop then exists rest, ls = map fst rs ++ rest /\ (forall i r, rs !! i = Some r -> failed r = true -> S i = length rs) /\
    (rest = [] \/ exists r, last rs = Some r /\ failed r = true)
  else map fst rs = ls.

Lemma covers_cons stop l e rs ls : (stop = true -> e = None) -> covers stop rs ls -> covers stop ((l, e) :: rs) (l :: ls).
Proof.
  intros He. destruct stop; cbn [covers]; [| by intros <-]. specialize (He eq_refl). subst e. intros (rest & -> & Hf & Hr). exists rest.
  split; [done |]. split.
  - intros [|i] r Hi Hfr; [by injection Hi as <- |]. cbn [length]. f_equal. by apply (Hf i r).
  - destruct Hr as [-> | (r & Hl & Hfr)]; [by left | right]. exists r. by destruct rs.
Qed.

Lemma fan_out_calls stop v ls d : exists rs d', fan_out stop v ls d = (d', omap snd rs) /\ calls v d rs d' /\ covers stop rs ls.
Proof.
  revert d. induction ls as [|l ls IH]; intros d.
  - exists [], d. split; [done |]. split; [constructor |]. destruct stop; [| done]. exists []. split; [done |]. split; [done | by left].
  - cbn [fan_out]. destruct (callListener l v d) as [d1 e] eqn:El. destruct (IH d1) as (rs & d2 & Hf & Hc & Hs). destruct e as [e|]; [destruct stop |].
    + exists [(l, Some e)], d1. split; [done |]. split; [by econstructor; [| constructor] |]. exists ls. split; [done |]. split.
      * intros [|i] r Hi _; [done | done].
      * right. by exists (l, Some e).
    + rewrite Hf. exists ((l, Some e) :: rs), d2. split; [done |]. split; [by econstructor | by apply covers_cons].
    + rewrite Hf. exists ((l, None) :: rs), d2. split; [done |]. split; [by econstructor | by apply covers_cons].
Qed.

(** A dispatch calls the listeners that were registered for the event's type when it
    began, in the order of registration and each once, whatever they register, forget or
    panic with; its errors are those of the failing calls in order; with [StopOnError] the
    first failing call is the last. *)
Theorem Dispatch_calls ev t v d :
  element ev = Some (EValue t v) ->
  exists rs d', Dispatch ev d = Some (d', omap snd rs) /\ calls v d rs d' /\ covers (stopOn d) rs (default [] (handlers d !! t)).
Proof.
  intros He. unfold Dispatch. rewrite He. destruct (fan_out_calls (stopOn d) v (default [] (handlers d !! t)) d) as (rs & d' & Hf & Hc & Hs).
  exists rs, d'. by rewrite Hf.
Qed.
End Events.
Arguments mkDispatcher {W L}. Arguments handlers {W L}. Arguments stopOn {W L}. Arguments world {W L}.

(** Two listeners: the first registers a third and panics, the second counts. *)
Definition w_code (l : string) (v : nat) (d : state_of (W := nat) string) : state_of (W := nat) string * outcome unit string :=
  if bool_decide (l = "first") then (mkDispatcher (<["User" := ["first"; "second"; "third"]]> (handlers d)) (stopOn d) (world d), Panic "boom")
  else (mkDispatcher (handlers d) (stopOn d) (world d + v)%nat, Return tt None).

Lemma Dispatch_calls_witness :
  exists d', Dispatch w_code (EPointer "*User" (Some (EValue "User" 5))) (mkDispatcher {["User" := ["first"; "second"]]} false 0) = Some (d', [Panicked "boom"]) /\ world d' = 5.
Proof.
  destruct (Dispatch_calls w_code (EPointer "*User" (Some (EValue "User" 5))) "User" 5 (mkDispatcher {["User" := ["first"; "second"]]} false 0) eq_refl)
    as (rs & d' & Hd & _ & _). exists d'.
  assert (Hc : option_map (fun r => (world r.1, r.2)) (Dispatch w_code (EPointer "*User" (Some (EValue "User" 5))) (mkDispatcher {["User" := ["first"; "second"]]} false 0))
    = Some (5, [Panicked "boom"])) by (vm_compute; reflexivity).
  rewrite Hd in Hc. injection Hc as Hw Hrs. split; [| exact Hw]. rewrite <- Hrs. exact Hd.
Defined.

(** ** Findings *)

(** Dispatching a nil interface panics, while a nil pointer is ignored. *)
Theorem nil_event_panics (d : state_of (W := nat) string) :
  Dispatch w_code ENil d = None /\ Dispatch w_code (EPointer "*User" None) d = Some (d, []).
Proof. done. Qed.

(** A listener for a pointer type is registered, and never called. *)
Theorem pointer_listener_never_called :
  match Listen (Some "*User") "second" (mkDispatcher (W := nat) (∅ : gmap string (list string)) false 0) with
  | Some d => HasListeners (Some "*User") d = true /\ Dispatch w_code (EPointer "*User" (Some (EValue "User" 5))) d = Some (d, [])
  | None => False
  end.
Proof. split; vm_compute; reflexivity. Qed.
