(* ===== verification/App.v ===== *)
(** The application's boot: [src/app/app.go], [module.go], [provider.go].

    The container, the router and the registry of migrations are one state [W]; a provider's
    phases and a module's callbacks are functions on it.  Two phases and the wiring run over
    the flattened entries; the effects of a failed boot stay. *)

From Stdlib Require Import ZArith Lia.
From stdpp Require Import base strings list.
From S2P Require Import Prelude GoRt.

#[local] Set Warnings "-register-all".
#[local] Open Scope nat_scope.
#[local] Open Scope string_scope.
#[local] Open Scope list_scope.

Section App.
Context {W E C : Type}.

Definition phase : Type := W -> W * option E.

(** [ProviderName]: the declared name, empty without one; [Boot]: [None] for a provider
    that is no [Booter]. *)
Record Provider := mkProvider { ProviderName : string; TypeName : string; Register_ : phase; Boot_ : option phase }.

Record Module := mkModule {
  Name : string; Providers : list Provider; RegisterFn : option phase; BootFn : option phase;
  Routes : option (W -> W); Migrations : option (W -> W); Commands_ : option (list C) }.

Inductive entry := EProvider (p : Provider) | EModule (m : Module).

Record App := mkApp { entries : list entry; booted : bool; addr : string }.

Inductive boot_error := ErrRegister (provider : string) (e : E) | ErrBoot (provider : string) (e : E).

Definition New (address : option string) : App := mkApp [] false (default ":8080" address).

(** ** Modules *)

Definition NewModule (name : string) (opts : list (Module -> Module)) : Module :=
  fold_left (fun m o => o m) opts (mkModule name [] None None None None None).
Definition WithProviders (ps : list Provider) (m : Module) : Module :=
  mkModule (Name m) (Providers m ++ ps) (RegisterFn m) (BootFn m) (Routes m) (Migrations m) (Commands_ m).
Definition WithModuleRegister (f : phase) (m : Module) : Module :=
  mkModule (Name m) (Providers m) (Some f) (BootFn m) (Routes m) (Migrations m) (Commands_ m).
Definition WithModuleBoot (f : phase) (m : Module) : Module :=
  mkModule (Name m) (Providers m) (RegisterFn m) (Some f) (Routes m) (Migrations m) (Commands_ m).
Definition WithRoutes (f : W -> W) (m : Module) : Module :=
  mkModule (Name m) (Providers m) (RegisterFn m) (BootFn m) (Some f) (Migrations m) (Commands_ m).
Definition WithModuleMigrations (f : W -> W) (m : Module) : Module :=
  mkModule (Name m) (Providers m) (RegisterFn m) (BootFn m) (Routes m) (Some f) (Commands_ m).
Definition WithCommands (cs : list C) (m : Module) : Module :=
  mkModule (Name m) (Providers m) (RegisterFn m) (BootFn m) (Routes m) (Migrations m) (Some cs).

(** A module as a provider: it registers nothing and does not boot. *)
Definition module_as_provider (m : Module) : Provider := mkProvider (Name m) "*app.Module" (fun w => (w, None)) None.

(** The adapter of a module's own callbacks. *)
Definition callback (f : option phase) : phase := fun w => match f with Some f => f w | None => (w, None) end.
Definition moduleProvider (m : Module) : Provider :=
  mkProvider (Name m) "app.moduleProvider" (callback (RegisterFn m)) (Some (callback (BootFn m))).

Definition providerName (p : Provider) : string := if String.eqb (ProviderName p) "" then TypeName p else ProviderName p.

(** ** The lifecycle *)

(** [Register]: a module among the providers is an entry of its own. *)
Definition Register (es : list entry) (a : App) : App := mkApp (entries a ++ es) (booted a) (addr a).

Definition own_provider (m : Module) : list Provider :=
  match RegisterFn m, BootFn m with None, None => [] | _, _ => [moduleProvider m] end.

(** The ordered providers and the modules whose hooks run last. *)
Fixpoint flatten (es : list entry) : list Provider * list Module :=
  match es with
  | [] => ([], [])
  | EModule m :: es => let '(ps, hs) := flatten es in (Providers m ++ own_provider m ++ ps, m :: hs)
  | EProvider p :: es => let '(ps, hs) := flatten es in (p :: ps, hs)
  end.

Fixpoint register_all (ps : list Provider) (w : W) : W * option boot_error :=
  match ps with
  | [] => (w, None)
  | p :: ps => match Register_ p w with (w, Some e) => (w, Some (ErrRegister (providerName p) e)) | (w, None) => register_all ps w end
  end.

Fixpoint boot_all (ps : list Provider) (w : W) : W * option boot_error :=
  match ps with
  | [] => (w, None)
  | p :: ps =>
      match Boot_ p with
      | None => boot_all ps w
      | Some b => match b w with (w, Some e) => (w, Some (ErrBoot (providerName p) e)) | (w, None) => boot_all ps w end
      end
  end.

Definition run_hook (h : option (W -> W)) (w : W) : W := match h with Some f => f w | None => w end.
Definition wire (w : W) (m : Module) : W := run_hook (Migrations m) (run_hook (Routes m) w).

Definition Boot (a : App) (w : W) : App * W * option boot_error :=
  if booted a then (a, w, None)
  else
    let '(ps, hooks) := flatten (entries a) in
    match register_all ps w with
    | (w, Some e) => (a, w, Some e)
    | (w, None) =>
        match boot_all ps w with
        | (w, Some e) => (a, w, Some e)
        | (w, None) => (mkApp (entries a) true (addr a), fold_left wire hooks w, None)
        end
    end.

(** [before], [after]: the error of the context at its two checks. *)
Inductive run_error := ErrContext (e : E) | ErrBooting (e : boot_error) | ErrServe (e : E).

Definition Run (before after : option E) (serve : string -> W -> option E) (a : App) (w : W) : App * W * option run_error :=
  match before with
  | Some e => (a, w, Some (ErrContext e))
  | None =>
      match Boot a w with
      | (a, w, Some e) => (a, w, Some (ErrBooting e))
      | (a, w, None) =>
          match after with
          | Some e => (a, w, Some (ErrContext e))
          | None => (a, w, option_map ErrServe (serve (addr a) w))
          end
      end
  end.

Definition Test : App -> W -> App * W * option boot_error := Boot.
Definition Booted (a : App) : bool := booted a.

Definition Commands (a : App) : list C :=
  flat_map (fun e => match e with EModule m => default [] (Commands_ m) | EProvider _ => [] end) (entries a).

(** ** The order of a boot *)

(** One call of the boot. *)
Inductive action := ARegister (p : Provider) (f : phase) | ABoot (p : Provider) (f : phase) | AWire (f : W -> W).

Definition perform (x : action) (w : W) : W * option boot_error :=
  match x with
  | ARegister p f => let '(w, e) := f w in (w, option_map (ErrRegister (providerName p)) e)
  | ABoot p f => let '(w, e) := f w in (w, option_map (ErrBoot (providerName p)) e)
  | AWire f => (f w, None)
  end.

Fixpoint perform_all (xs : list action) (w : W) : W * option boot_error :=
  match xs with [] => (w, None) | x :: xs => match perform x w with (w, Some e) => (w, Some e) | (w, None) => perform_all xs w end end.

(** The providers of an entry, its module's callbacks last. *)
Definition providers_of (e : entry) : list Provider := match e with EProvider p => [p] | EModule m => Providers m ++ own_provider m end.

Definition register_plan (es : list entry) : list action := map (fun p => ARegister p (Register_ p)) (flat_map providers_of es).
Definition boot_plan (es : list entry) : list action := omap (fun p => ABoot p <$> Boot_ p) (flat_map providers_of es).
Definition wire_plan (es : list entry) : list action :=
  flat_map (fun e => match e with EModule m => map AWire (option_list (Routes m) ++ option_list (Migrations m)) | EProvider _ => [] end) es.

Lemma flatten_plan es : flatten es = (flat_map providers_of es, omap (fun e => match e with EModule m => Some m | _ => None end) es).
Proof. induction es as [|[p | m] es IH]; [done | |]; cbn; rewrite IH; [done |]. by rewrite <- app_assoc. Qed.

Lemma perform_all_app xs ys w :
  perform_all (xs ++ ys) w = match perform_all xs w with (w, Some e) => (w, Some e) | (w, None) => perform_all ys w end.
Proof. revert w. induction xs as [|x xs IH]; intros w; [done |]. cbn. destruct (perform x w) as [w' [e|]]; [done | apply IH]. Qed.

Lemma register_all_plan ps w : register_all ps w = perform_all (map (fun p => ARegister p (Register_ p)) ps) w.
Proof. revert w. induction ps as [|p ps IH]; intros w; [done |]. cbn. destruct (Register_ p w) as [w' [e|]]; [done | apply IH]. Qed.

Lemma boot_all_plan ps w : boot_all ps w = perform_all (omap (fun p => ABoot p <$> Boot_ p) ps) w.
Proof.
  revert w. induction ps as [|p ps IH]; intros w; [done |]. cbn. destruct (Boot_ p) as [b|]; [| apply IH]. cbn.
  destruct (b w) as [w' [e|]]; [done | apply IH].
Qed.

Lemma wire_all_plan es w :
  perform_all (wire_plan es) w = (fold_left wire (omap (fun e => match e with EModule m => Some m | _ => None end) es) w, None).
Proof.
  revert w. induction es as [|[p | m] es IH]; intros w; [done | apply IH |]. unfold wire_plan. cbn [flat_map]. rewrite perform_all_app.
  cbn. unfold wire at 2. destruct (Routes m), (Migrations m); cbn; apply IH.
Qed.

(** A boot makes the calls of one plan in order: every provider's registration, entry by
    entry and a module's own callbacks after its providers; then every boot phase in the
    same order; then each module's routes and migrations.  It ends at the first call that
    fails, with its provider's name, keeps what was done and stays unbooted; a booted
    application does nothing. *)
Theorem Boot_order a w :
  Boot a w = if booted a then (a, w, None)
             else match perform_all (register_plan (entries a) ++ boot_plan (entries a) ++ wire_plan (entries a)) w with
                  | (w, Some e) => (a, w, Some e)
                  | (w, None) => (mkApp (entries a) true (addr a), w, None)
                  end.
Proof.
  unfold Boot, register_plan, boot_plan. destruct (booted a); [done |]. rewrite flatten_plan, !perform_all_app, register_all_plan.
  destruct (perform_all (map _ _) w) as [w1 [e|]]; [done |]. rewrite perform_all_app, boot_all_plan.
  destruct (perform_all (omap _ _) w1) as [w2 [e|]]; [done |]. by rewrite wire_all_plan.
Qed.
End App.
Arguments Module : clear implicits. Arguments Provider : clear implicits.

(** ** Findings *)

Definition w_provider (name : string) : Provider (list string) string :=
  mkProvider name "T" (fun w => (w ++ [name], None)) (Some (fun w => (w ++ ["boot " +:+ name], None))).

(** A module is a provider, and is said to register all of its providers: inside another
    module it registers and wires nothing. *)
Theorem nested_module_dropped :
  let inner := NewModule (C := unit) "inner" [WithProviders [w_provider "users"]; WithRoutes (fun w => w ++ ["routes"])] in
  let outer := NewModule (C := unit) "outer" [WithProviders [module_as_provider inner]] in
  Boot (Register [EModule outer] (New None)) [] = (mkApp [EModule outer] true ":8080", [], None).
Proof. done. Qed.

(** A boot that is tried again after a failure registers everything again. *)
Theorem failed_boot_repeats :
  let bad := mkProvider "bad" "T" (fun w : list string => (w, Some "down")) None in
  let a := Register (C := unit) [EProvider (w_provider "users"); EProvider bad] (New None) in
  let '(a1, w1, _) := Boot a [] in let '(_, w2, _) := Boot a1 w1 in w2 = ["users"; "users"].
Proof. done. Qed.
