(* ===== verification/HttpClient.v ===== *)
(** The HTTP client: [src/httpclient/httpclient.go].

    - [do]: the attempts, their waits and the response; the transport and the cancellation
      of each wait are arguments.
    - URLs: [resolveURL] and [appendQuery] over [net/url].
    - Headers stand under their names as given; [net/http] canonicalises them as it sets them.
    - Setters copy the client, so a client is a value; the [http.Client] it holds is its
      transport and timeout. *)

From Stdlib Require Import ZArith Lia Ascii.
From stdpp Require Import base gmap strings list numbers.
From S2P Require Import Prelude GoRt GoStrconv GoStrings GoUrl SignedUrl.

#[local] Set Warnings "-register-all".
#[local] Open Scope string_scope.
#[local] Open Scope list_scope.
#[local] Open Scope Z_scope.

Definition DefaultMaxResponseBytes : Z := Z.shiftl 10 20.

Section Client.
(** [T]: transports; [E]: errors of the transport, of a context, of reading. *)
Context {T E : Type}.

Record Client := mkClient {
  transport : option T; http_timeout : Duration; baseURL : string; headers : gmap string string; query : Values;
  timeout : Duration; retries : Z; backoff : Duration; maxBody : Z }.

Definition New : Client := mkClient None (10 * Second) "" ∅ ∅ (10 * Second) 0 (100 * Millisecond) DefaultMaxResponseBytes.

Definition BaseURL (u : string) (c : Client) : Client :=
  mkClient (transport c) (http_timeout c) (TrimRight "/" u) (headers c) (query c) (timeout c) (retries c) (backoff c) (maxBody c).
Definition Header (k v : string) (c : Client) : Client :=
  mkClient (transport c) (http_timeout c) (baseURL c) (<[k := v]> (headers c)) (query c) (timeout c) (retries c) (backoff c) (maxBody c).
Definition Headers (m : gmap string string) (c : Client) : Client :=
  mkClient (transport c) (http_timeout c) (baseURL c) (m ∪ headers c) (query c) (timeout c) (retries c) (backoff c) (maxBody c).
Definition BearerToken (t : string) (c : Client) : Client := Header "Authorization" ("Bearer " +:+ t)%string c.
(** [basic]: the header [SetBasicAuth] makes. *)
Definition BasicAuth (basic : string -> string -> string) (user password : string) (c : Client) : Client := Header "Authorization" (basic user password) c.
Definition Query (k v : string) (c : Client) : Client :=
  mkClient (transport c) (http_timeout c) (baseURL c) (headers c) (<[k := default [] (query c !! k) ++ [v]]> (query c)) (timeout c) (retries c) (backoff c) (maxBody c).
Definition Timeout (d : Duration) (c : Client) : Client :=
  mkClient (transport c) d (baseURL c) (headers c) (query c) d (retries c) (backoff c) (maxBody c).
Definition Retry (n : Z) (c : Client) : Client :=
  mkClient (transport c) (http_timeout c) (baseURL c) (headers c) (query c) (timeout c) (if n <? 0 then 0 else n) (backoff c) (maxBody c).
Definition Backoff (d : Duration) (c : Client) : Client :=
  mkClient (transport c) (http_timeout c) (baseURL c) (headers c) (query c) (timeout c) (retries c) d (maxBody c).
Definition MaxResponseBytes (n : Z) (c : Client) : Client :=
  mkClient (transport c) (http_timeout c) (baseURL c) (headers c) (query c) (timeout c) (retries c) (backoff c) n.
Definition Transport (rt : T) (c : Client) : Client :=
  mkClient (Some rt) (timeout c) (baseURL c) (headers c) (query c) (timeout c) (retries c) (backoff c) (maxBody c).

(** ** URLs *)

Definition appendQuery (u : string) (q : Values) : string :=
  if (size q =? 0)%nat then u else (u +:+ (if has_byte "?" u then "&" else "?") +:+ Encode q)%string.

Inductive client_error :=
| ErrNoBaseURL | ErrBuild (e : E) | ErrMarshal (e : E) | ErrTransport (e : E) | ErrStatus (status : Z) | ErrContext (e : E)
| ErrRead (e : E) | ErrResponseTooLarge | ErrNoAttempts.

Definition resolveURL (c : Client) (path : string) : result client_error string :=
  if HasPrefix path "http://" || HasPrefix path "https://" then Ok (appendQuery path (query c))
  else if String.eqb (baseURL c) "" then Err ErrNoBaseURL
  else Ok (appendQuery (baseURL c +:+ "/" +:+ TrimLeft "/" path)%string (query c)).

(** ** Requests *)

Record Request := mkRequest { r_method : string; r_url : string; r_headers : gmap string string; r_body : option string }.

(** A response of the transport; the error that reading its body ends with. *)
Record wire_response := mkWire { w_status : Z; w_headers : gmap string string; w_body : string; w_error : option E }.

Record Response := mkResponse { status : Z; resp_headers : gmap string string; body : string }.

Definition shouldRetry (st : Z) : bool := (st =? 429) || (500 <=? st).

(** The body up to one byte past the cap; a reader that stops there meets no later error. *)
Definition readResponse (r : wire_response) (maxBody : Z) : result client_error Response :=
  let n := Z.of_nat (String.length (w_body r)) in
  if (0 <? maxBody) && (maxBody <? n) then Err ErrResponseTooLarge
  else match w_error r with Some e => Err (ErrRead e) | None => Ok (mkResponse (w_status r) (w_headers r) (w_body r)) end.

(** [build]: the error of [NewRequest]; [send i]: what the transport answers at attempt [i];
    [cancelled i]: the context's error when it ends the wait after it. *)
Context (build : Request -> option E) (send : nat -> Request -> result E wire_response) (cancelled : nat -> option E).

(** The loop with [togo] attempts to go, after [i]: the waits it makes and its result. *)
Fixpoint attempt (togo : nat) (i : nat) (req : Request) (cap : Z) (delay : Duration) (lastErr : option client_error)
  : list Duration * result client_error Response :=
  match togo with
  | O => ([], Err (default ErrNoAttempts lastErr))
  | S togo =>
      match build req with
      | Some e => ([], Err (ErrBuild e))
      | None =>
          let again err :=
            match togo with
            | O => ([], Err err)
            | _ => match cancelled i with
                   | Some e => ([delay], Err (ErrContext e))
                   | None => let '(ws, r) := attempt togo (S i) req cap (i64 (delay * 2)) (Some err) in (delay :: ws, r)
                   end
            end in
          match send i req with
          | Err e => again (ErrTransport e)
          | Ok resp => if shouldRetry (w_status resp) && negb (togo =? 0)%nat then again (ErrStatus (w_status resp)) else ([], readResponse resp cap)
          end
      end
  end.

Definition do (c : Client) (method path : string) (data : option string) (extra : gmap string string) : list Duration * result client_error Response :=
  match resolveURL c path with
  | Err e => ([], Err e)
  | Ok target => attempt (Z.to_nat (i64 (retries c + 1))) 0 (mkRequest method target (extra ∪ headers c) data) (maxBody c) (backoff c) None
  end.

Definition Get (c : Client) (path : string) := do c "GET" path None ∅.
Definition Delete (c : Client) (path : string) := do c "DELETE" path None ∅.
(** [marshalled]: the JSON of the body or its error. *)
Definition sendJSON (c : Client) (method path : string) (marshalled : result E string) :=
  match marshalled with
  | Err e => ([], Err (ErrMarshal e))
  | Ok buf => do c method path (Some buf) {["Content-Type" := "application/json"]}
  end.
Definition PostJSON (c : Client) := sendJSON c "POST".
Definition PutJSON (c : Client) := sendJSON c "PUT".
Definition PatchJSON (c : Client) := sendJSON c "PATCH".

Definition OK (r : Response) : bool := (200 <=? status r) && (status r <? 300).

(** ** The attempts *)

(** A response that is not returned unless no attempt is left. *)
Definition retryable (r : result E wire_response) : bool := match r with Err _ => true | Ok resp => shouldRetry (w_status resp) end.
Definition error_of (r : result E wire_response) : client_error := match r with Ok resp => ErrStatus (w_status resp) | Err e => ErrTransport e end.

(** What the loop returns after attempt [i]; [last]: no attempt is left. *)
Definition ends (req : Request) (cap : Z) (i : nat) (last : bool) (res : result client_error Response) : Prop :=
  match send i req with
  | Ok resp => if shouldRetry (w_status resp) && negb last then exists e, cancelled i = Some e /\ res = Err (ErrContext e) else res = readResponse resp cap
  | Err e => if last then res = Err (ErrTransport e) else exists ce, cancelled i = Some ce /\ res = Err (ErrContext ce)
  end.

Fixpoint doubling (d : Duration) (n : nat) : list Duration := match n with O => [] | S n => d :: doubling (i64 (d * 2)) n end.

Lemma attempt_next n i req cap delay lastErr : build req = None -> retryable (send i req) = true -> cancelled i = None ->
  attempt (S (S n)) i req cap delay lastErr =
  let '(ws, r) := attempt (S n) (S i) req cap (i64 (delay * 2)) (Some (error_of (send i req))) in (delay :: ws, r).
Proof.
  intros Hb Hr Hc. remember (S n) as m eqn:Em. cbn [attempt]. rewrite Hb, Hc. subst m. unfold retryable, error_of in *.
  destruct (send i req) as [resp | e]; [by rewrite Hr | done].
Qed.

Lemma attempt_ends n i req cap delay lastErr : build req = None ->
  (retryable (send i req) = true -> n = O \/ is_Some (cancelled i)) ->
  ends req cap i (n =? 0)%nat (attempt (S n) i req cap delay lastErr).2 /\
  exists m, (m <= n)%nat /\ (attempt (S n) i req cap delay lastErr).1 = doubling delay m.
Proof.
  intros Hb Hr. unfold ends. cbn [attempt]. rewrite Hb. unfold retryable in Hr. destruct (send i req) as [resp | e].
  - destruct (shouldRetry (w_status resp)) eqn:Hs; [| split; [done | exists O; split; [lia | done]]]. cbn [andb].
    destruct (Hr eq_refl) as [-> | [ce Hce]]; [split; [done | exists O; split; [lia | done]] |].
    destruct n as [|n]; [split; [done | exists O; split; [lia | done]] |]. cbn [Nat.eqb negb]. rewrite Hce. split; [by exists ce | exists 1%nat; split; [lia | done]].
  - destruct (Hr eq_refl) as [-> | [ce Hce]]; [split; [done | exists O; split; [lia | done]] |].
    destruct n as [|n]; [split; [done | exists O; split; [lia | done]] |]. cbn [Nat.eqb]. rewrite Hce. split; [by exists ce | exists 1%nat; split; [lia | done]].
Qed.

Lemma attempt_spec n i req cap delay lastErr : build req = None ->
  exists k, (k <= n)%nat /\ (forall j, (j < k)%nat -> retryable (send (i + j)%nat req) = true /\ cancelled (i + j)%nat = None) /\
    ends req cap (i + k)%nat (k =? n)%nat (attempt (S n) i req cap delay lastErr).2 /\
    exists m, (m <= n)%nat /\ (attempt (S n) i req cap delay lastErr).1 = doubling delay m.
Proof.
  intros Hb. revert i delay lastErr. induction n as [|n IH]; intros i delay lastErr.
  - destruct (attempt_ends 0 i req cap delay lastErr Hb ltac:(by left)) as [He Hm]. exists O. rewrite Nat.add_0_r. split; [lia |]. split; [lia |]. done.
  - destruct (retryable (send i req)) eqn:Hr; [destruct (cancelled i) as [ce|] eqn:Hc |].
    + destruct (attempt_ends (S n) i req cap delay lastErr Hb) as [He Hm]; [right; by eexists |]. exists O. rewrite Nat.add_0_r. split; [lia |]. split; [lia |]. done.
    + rewrite attempt_next by done. destruct (IH (S i) (i64 (delay * 2)) (Some (error_of (send i req)))) as (k & Hk & Hj & He & m & Hm & Hw).
      destruct (attempt (S n) (S i) _ _ _ _) as [ws res]. cbn [fst snd] in *. exists (S k). split; [lia |]. split.
      * intros [|j] Hlt; [by rewrite Nat.add_0_r |]. rewrite <- plus_n_Sm. apply (Hj j). lia.
      * split; [by rewrite <- plus_n_Sm |]. exists (S m). split; [lia |]. by rewrite Hw.
    + destruct (attempt_ends (S n) i req cap delay lastErr Hb) as [He Hm]; [congruence |]. exists O. rewrite Nat.add_0_r. split; [lia |]. split; [lia |]. done.
Qed.

End Client.
Arguments Client : clear implicits. Arguments client_error : clear implicits. Arguments wire_response : clear implicits.

Definition w_client : Client unit := Retry 2 (Query "a" "b c" (BaseURL "https://api.io/" New)).


(** ** The query is read back *)

(** The query of a client, added to a path without one, is what a server reads. *)
Theorem query_reads (c : Client unit) path :
  HasPrefix path "http://" || HasPrefix path "https://" = true -> has_byte "?" path = false -> values_ok (query c) -> query c <> ∅ ->
  exists q, resolveURL (E := unit) c path = Ok (path +:+ "?" +:+ q)%string /\ ParseQuery q = query c.
Proof.
  intros Hp Hq Hv Hne. exists (Encode (query c)). split; [| by apply ParseQuery_Encode]. unfold resolveURL, appendQuery. rewrite Hp, Hq.
  destruct (Nat.eqb_spec (size (query c)) 0) as [E|]; [by apply map_size_empty_iff in E | done].
Qed.

(** ** Findings *)

(** The query is put after a fragment, where it is part of the fragment. *)
Theorem query_after_fragment :
  resolveURL (E := unit) w_client "https://x.io/a#top" = Ok "https://x.io/a#top?a=b+c".
Proof. vm_compute. reflexivity. Qed.

(** The scheme is compared in lower case only: another spelling is taken as a relative path. *)
Theorem upper_scheme_relative :
  resolveURL (E := unit) w_client "HTTPS://x.io/a" = Ok "https://api.io/HTTPS://x.io/a?a=b+c".
Proof. vm_compute. reflexivity. Qed.

(** The doubled delay wraps: from the default backoff the 38th wait is negative, which ends at once. *)
Theorem backoff_wraps : nth 37 (doubling (100 * Millisecond) 40) 0 < 0.
Proof. vm_compute. reflexivity. Qed.

(** The largest number of retries makes no attempt. *)
Theorem most_retries_none :
  do (E := string) (fun _ => None) (fun _ _ => Ok (mkWire 200 ∅ "ok" None)) (fun _ => None) (Retry max_i64 w_client) "GET" "/" None ∅ = ([], Err ErrNoAttempts).
Proof. vm_compute. reflexivity. Qed.
