(* ===== verification/QueueStats.v ===== *)
(** Counters of the queue dashboard: [src/queue/dashboard/stats.go], and the
    [Sampler] of [inspector.go].

    A [Stats] is its map of queues; its mutex makes every hook one step, so that a
    history is the list of the hooks in the order of the mutex, each with the
    second its goroutine read before it took the mutex.  The throughput window is
    the source's ring of sixty buckets: [ring_exact] says what the ring still
    knows, for goroutines that are late by less than a minute. *)

From Stdlib Require Import ZArith Lia Sorted.
From stdpp Require Import base gmap strings list sorting numbers.
From S2P Require Import Prelude GoRt GoFloat GoSort.

#[local] Set Warnings "-register-all".

Definition windowSize : Z := 60.

Record queueCounters := mkCounters {
  pushed : Z; processed : Z; failed : Z; retried : Z; buckets : list Z; epoch : list Z }.

Definition new_counters : queueCounters :=
  mkCounters 0 0 0 0 (repeat 0 (Z.to_nat windowSize)) (repeat 0 (Z.to_nat windowSize)).

Definition Stats : Type := gmap string queueCounters.
Definition NewStats : Stats := ∅.

Definition counters (queue : string) (s : Stats) : queueCounters := default new_counters (s !! queue).

Definition OnPushed (queue : string) (s : Stats) : Stats :=
  let c := counters queue s in
  <[queue := mkCounters (u64 (pushed c + 1)) (processed c) (failed c) (retried c) (buckets c) (epoch c)]> s.

(** The slot of a second: [None] where [sec % windowSize] is negative, before
    1970, and the index panics (with the mutex held). *)
Definition slot_of (sec : Z) : option nat :=
  let slot := Z.rem sec windowSize in if slot <? 0 then None else Some (Z.to_nat slot).

(** The count of one second in its bucket, which loses the second it held before. *)
Definition tick (sec : Z) (slot : nat) (buckets epoch : list Z) : list Z * list Z :=
  let '(buckets, epoch) :=
    if negb (epoch !!! slot =? sec) then (<[slot := 0]> buckets, <[slot := sec]> epoch) else (buckets, epoch) in
  (<[slot := u64 (buckets !!! slot + 1)]> buckets, epoch).

Definition OnProcessed (sec : Z) (queue : string) (s : Stats) : option Stats :=
  let c := counters queue s in
  slot ← slot_of sec;
  let '(buckets, epoch) := tick sec slot (buckets c) (epoch c) in
  Some (<[queue := mkCounters (pushed c) (u64 (processed c + 1)) (failed c) (retried c) buckets epoch]> s).

Definition OnFailed (queue : string) (s : Stats) : Stats :=
  let c := counters queue s in
  <[queue := mkCounters (pushed c) (processed c) (u64 (failed c + 1)) (retried c) (buckets c) (epoch c)]> s.

Definition OnRetried (queue : string) (s : Stats) : Stats :=
  let c := counters queue s in
  <[queue := mkCounters (pushed c) (processed c) (failed c) (u64 (retried c + 1)) (buckets c) (epoch c)]> s.

(** ** Snapshots *)

(** The loop of [throughputLocked] from a slot on. *)
Fixpoint window_sum (cutoff now : Z) (epoch buckets : list Z) (sum : Z) : Z :=
  match epoch, buckets with
  | e :: epoch, b :: buckets =>
      window_sum cutoff now epoch buckets (if (cutoff <=? e) && (e <=? now) then u64 (sum + b) else sum)
  | _, _ => sum
  end.

Definition throughputLocked (now : Z) (c : queueCounters) : float64 :=
  let cutoff := i64 (now - windowSize + 1) in
  fdiv (float_of_Z (window_sum cutoff now (epoch c) (buckets c) 0)) (float_of_Z windowSize).

Record QueueStat := mkStat {
  Queue : string; Pushed : Z; Processed : Z; Failed : Z; Retried : Z; Pending : Z; Throughput : float64 }.

Definition stat_of (now : Z) (name : string) (c : queueCounters) : QueueStat :=
  let pending := i64 (i64 (i64 (pushed c) - i64 (processed c)) - i64 (failed c)) in
  mkStat name (pushed c) (processed c) (failed c) (retried c) (if pending <? 0 then 0 else pending)
    (throughputLocked now c).

(** By the order of the names, whatever the order in which the map is ranged
    over ([snapshot_order]). *)
Definition by_queue (a b : QueueStat) : bool := String.ltb (Queue a) (Queue b).

Definition Snapshot (now : Z) (s : Stats) : list QueueStat :=
  SliceStable by_queue (map (fun '(name, c) => stat_of now name c) (map_to_list s)).

Definition add_stat (t q : QueueStat) : QueueStat :=
  mkStat (Queue t) (u64 (Pushed t + Pushed q)) (u64 (Processed t + Processed q)) (u64 (Failed t + Failed q))
    (u64 (Retried t + Retried q)) (i64 (Pending t + Pending q)) (fadd (Throughput t) (Throughput q)).

Definition Totals (now : Z) (s : Stats) : QueueStat :=
  fold_left add_stat (Snapshot now s) (mkStat "" 0 0 0 0 0 fzero).

(** ** Histories *)

Inductive hook := HPushed (queue : string) | HProcessed (sec : Z) (queue : string) | HFailed (queue : string) | HRetried (queue : string).

Definition run_hook (h : hook) (s : Stats) : option Stats :=
  match h with
  | HPushed q => Some (OnPushed q s)
  | HProcessed sec q => OnProcessed sec q s
  | HFailed q => Some (OnFailed q s)
  | HRetried q => Some (OnRetried q s)
  end.

Fixpoint run_hooks (hs : list hook) (s : Stats) : option Stats :=
  match hs with [] => Some s | h :: hs => s ← run_hook h s; run_hooks hs s end.

Definition hook_queue (h : hook) : string :=
  match h with HPushed q | HProcessed _ q | HFailed q | HRetried q => q end.

(** How many elements satisfy a test. *)
Definition cnt {A} (f : A -> bool) (l : list A) : Z := Z.of_nat (length (List.filter f l)).

(** What the hooks of one queue say, without counters: how many of each, and the
    seconds of the processed ones. *)
Definition pushes (q : string) (hs : list hook) : Z :=
  cnt (fun h => match h with HPushed q' => String.eqb q q' | _ => false end) hs.
Definition failures (q : string) (hs : list hook) : Z :=
  cnt (fun h => match h with HFailed q' => String.eqb q q' | _ => false end) hs.
Definition retries (q : string) (hs : list hook) : Z :=
  cnt (fun h => match h with HRetried q' => String.eqb q q' | _ => false end) hs.
Definition seconds (q : string) (hs : list hook) : list Z :=
  omap (fun h => match h with HProcessed sec q' => if String.eqb q q' then Some sec else None | _ => None end) hs.

(** The jobs processed in the sixty seconds that end with [now]. *)
Definition recent (now : Z) (secs : list Z) : Z :=
  cnt (fun sec => (now - windowSize <? sec) && (sec <=? now)) secs.

Definition expected (now : Z) (hs : list hook) (q : string) : QueueStat :=
  let processed := Z.of_nat (length (seconds q hs)) in
  mkStat q (pushes q hs) processed (failures q hs) (retries q hs)
    (Z.max 0 (pushes q hs - processed - failures q hs))
    (fdiv (float_of_Z (recent now (seconds q hs))) (float_of_Z windowSize)).

(** A goroutine takes the mutex less than a minute after it read the clock: no
    second comes a minute or more after a later one. *)
Definition late_by_less (a b : Z) : Prop := a - windowSize < b.

(** ** The sampler of processed jobs *)

Record ThroughputSample := mkSample { At : Time; s_queue : string; s_rate : float64 }.

(** [prev] is the last processed count seen of each queue. *)
Record Sampler := mkSampler {
  interval : Duration; window : Duration; prev : gmap string Z; samples : gmap string (list ThroughputSample) }.

Definition NewSampler (interval window : Duration) : Sampler :=
  mkSampler (if interval <=? 0 then 5 * Second else interval) (if window <=? 0 then Minute else window) ∅ ∅.

Definition perMin (s : Sampler) : float64 := fdiv (float_of_Z Minute) (float_of_Z (interval s)).

(** One row of the snapshot: the first reading of a queue is its baseline. *)
Definition sample_row (now : Time) (s : Sampler) (q : QueueStat) : Sampler :=
  let s' := mkSampler (interval s) (window s) (<[Queue q := Processed q]> (prev s)) (samples s) in
  match prev s !! Queue q with
  | None => s'
  | Some prev =>
      let delta := float_of_Z (i64 (i64 (Processed q) - i64 prev)) in
      let delta := if flt delta fzero then fzero else delta in
      let cutoff := time_Add now (- window s) in
      let kept := List.filter (fun old => After (At old) cutoff) (default [] (samples s !! Queue q)) in
      mkSampler (interval s') (window s') (QueueStats.prev s')
        (<[Queue q := kept ++ [mkSample now (Queue q) (fmul delta (perMin s))]]> (samples s))
  end.

(** [sv] is what the inspector's [Stats] returned, [None] for its error. *)
Definition sample (now : Time) (sv : option (list QueueStat)) (s : Sampler) : Sampler :=
  match sv with None => s | Some rows => fold_left (sample_row now) rows s end.

Definition Rate (queue : string) (s : Sampler) : float64 :=
  match list.last (default [] (samples s !! queue)) with None => fzero | Some x => s_rate x end.

Definition Window (queue : string) (s : Sampler) : list ThroughputSample := default [] (samples s !! queue).

(** ** Counting *)

Section Count.
Context {A : Type}.
Implicit Types (f g : A -> bool) (l : list A).

Lemma cnt_snoc f l x : cnt f (l ++ [x]) = cnt f l + (if f x then 1 else 0).
Proof. unfold cnt. rewrite filter_app, length_app. simpl. destruct (f x); simpl; lia. Qed.

Lemma cnt_cons f x l : cnt f (x :: l) = (if f x then 1 else 0) + cnt f l.
Proof. unfold cnt. simpl. destruct (f x); simpl; lia. Qed.

Lemma cnt_bounds f l : 0 <= cnt f l <= Z.of_nat (length l).
Proof. induction l as [|x l IH]; [done |]. rewrite cnt_cons. simpl length. destruct (f x); lia. Qed.

Lemma cnt_ext f g l : (forall x, x ∈ l -> f x = g x) -> cnt f l = cnt g l.
Proof.
  induction l as [|x l IH]; [done |]. intros H. rewrite !cnt_cons, (H x), IH by set_solver. done.
Qed.

Lemma cnt_none f l : (forall x, x ∈ l -> f x = false) -> cnt f l = 0.
Proof. intros H. rewrite (cnt_ext f (fun _ => false)) by done. induction l as [|x l IH]; [done |]. rewrite cnt_cons. apply IH. set_solver. Qed.
End Count.

(** ** The ring *)

Definition in_slot (i : nat) (x : Z) : bool := x mod windowSize =? Z.of_nat i.

(** What slot [i] holds after the seconds [l]: the last of them that fall in it,
    and how many jobs that second has. *)
Definition holds (l : list Z) (i : nat) (e b : Z) : Prop :=
  b = cnt (fun x => in_slot i x && (x =? e)) l /\
  (forall x, x ∈ l -> in_slot i x = true -> x <= e) /\
  ((e ∈ l /\ in_slot i e = true) \/ (e = 0 /\ forall x, x ∈ l -> in_slot i x = false)).

Definition ring (l : list Z) (buckets epoch : list Z) : Prop :=
  length buckets = 60%nat /\ length epoch = 60%nat /\
  forall i, (i < 60)%nat -> holds l i (epoch !!! i) (buckets !!! i).

Lemma ring_new : ring [] (buckets new_counters) (epoch new_counters).
Proof.
  split; [done | split; [done |]]. intros i Hi. simpl. rewrite (lookup_total_replicate_2 60 0) by done. split; [done |]. split; [set_solver |]. right. set_solver.
Qed.

Lemma slot_of_nonneg sec : 0 <= sec -> slot_of sec = Some (Z.to_nat (sec mod windowSize)).
Proof.
  intros H. unfold slot_of. rewrite Z.rem_mod_nonneg by (unfold windowSize; lia).
  pose proof (Z.mod_pos_bound sec windowSize ltac:(done)). by destruct (Z.ltb_spec (sec mod windowSize) 0); [lia |].
Qed.

Lemma slot_of_some sec i : slot_of sec = Some i -> i = Z.to_nat (sec mod windowSize) /\ (i < 60)%nat.
Proof.
  intros H. assert (E : i = Z.to_nat (sec mod windowSize)).
  { revert H. unfold slot_of, windowSize. case_match eqn:E; [done |]. intros [= <-]. apply Z.ltb_ge in E.
    destruct (Z.le_gt_cases 0 sec); [by rewrite Z.rem_mod_nonneg by lia |]. f_equal.
    pose proof (Z.rem_nonpos sec 60 ltac:(lia) ltac:(lia)). pose proof (Z.quot_rem' sec 60).
    assert (Z.rem sec 60 = 0) as E' by lia. rewrite E'. symmetry. apply Z.rem_mod_eq_0; lia. }
  split; [done |]. pose proof (Z.mod_pos_bound sec windowSize ltac:(done)). unfold windowSize in *. lia.
Qed.

(** Two seconds of one slot are the same or a minute apart. *)
Lemma same_slot i x y : in_slot i x = true -> in_slot i y = true -> x < y + windowSize -> y < x + windowSize -> x = y.
Proof.
  unfold in_slot, windowSize. rewrite !Z.eqb_eq. intros Hx Hy. pose proof (Z.div_mod x 60). pose proof (Z.div_mod y 60). lia.
Qed.

Lemma in_slot_at sec : in_slot (Z.to_nat (sec mod windowSize)) sec = true.
Proof. unfold in_slot. pose proof (Z.mod_pos_bound sec windowSize ltac:(done)). apply Z.eqb_eq. lia. Qed.

Lemma in_slot_other i sec : i <> Z.to_nat (sec mod windowSize) -> in_slot i sec = false.
Proof. unfold in_slot. pose proof (Z.mod_pos_bound sec windowSize ltac:(done)). intros Hne. apply Z.eqb_neq. lia. Qed.

Lemma holds_other l i e b sec : in_slot i sec = false -> holds l i e b -> holds (l ++ [sec]) i e b.
Proof.
  intros Hs (Hb & Hmax & He). split; [| split].
  - rewrite cnt_snoc, Hs. simpl. lia.
  - intros x [?| ->%list_elem_of_singleton]%elem_of_app; [auto | congruence].
  - destruct He as [[??]|[??]]; [left; set_solver | right]. split; [done |].
    intros x [?| ->%list_elem_of_singleton]%elem_of_app; auto.
Qed.

(** One more job in the second the slot holds, and the first of a new second. *)
Lemma holds_same l i b sec : in_slot i sec = true -> holds l i sec b -> holds (l ++ [sec]) i sec (b + 1).
Proof.
  intros Hs (Hb & Hmax & He). split; [| split].
  - rewrite cnt_snoc, Hs, Z.eqb_refl. simpl. lia.
  - intros x [?| ->%list_elem_of_singleton]%elem_of_app; [auto | lia].
  - left. set_solver.
Qed.

Lemma holds_new l i e b sec :
  in_slot i sec = true -> 0 <= sec -> e <> sec -> List.Forall (fun x => late_by_less x sec) l -> holds l i e b -> holds (l ++ [sec]) i sec 1.
Proof.
  intros Hs H0 Hne Hl (Hb & Hmax & He). rewrite List.Forall_forall in Hl.
  assert (Hfar : forall x, x ∈ l -> in_slot i x = true -> x < sec).
  { intros x Hx Hi. destruct He as [[He Hie]|[-> Hno]]; [| rewrite Hno in Hi by done; done].
    assert (x <= e) by auto. assert (late_by_less e sec) as Hlate by (apply Hl, list_elem_of_In; done).
    unfold late_by_less in Hlate. destruct (Z.lt_trichotomy e sec) as [|[|]]; [lia | done |].
    assert (e = sec); [apply (same_slot i); auto; lia | done]. }
  split; [| split].
  - rewrite cnt_snoc, Hs, Z.eqb_refl. simpl. rewrite cnt_none; [lia |]. intros x Hx.
    destruct (in_slot i x) eqn:Hi; [| done]. simpl. apply Z.eqb_neq. pose proof (Hfar x Hx Hi). lia.
  - intros x [?| ->%list_elem_of_singleton]%elem_of_app Hi; [| lia]. pose proof (Hfar x). naive_solver lia.
  - left. set_solver.
Qed.

Lemma ring_tick l bs es sec i :
  slot_of sec = Some i -> 0 <= sec -> Z.of_nat (length l) < max_i64 -> List.Forall (fun x => late_by_less x sec) l ->
  ring l bs es -> let '(bs, es) := tick sec i bs es in ring (l ++ [sec]) bs es.
Proof.
  intros Hi H0 Hl Hlate (Lb & Le & H). apply slot_of_some in Hi as [Ei Hi60].
  assert (Hs : in_slot i sec = true) by (subst i; apply in_slot_at).
  assert (Hsmall : forall b e, holds l i e b -> u64 (b + 1) = b + 1).
  { intros b e [-> _]. pose proof (cnt_bounds (fun x => in_slot i x && (x =? e)) l). apply u64_small. unfold max_i64 in *. lia. }
  unfold tick. destruct (Z.eqb_spec (es !!! i) sec) as [E|E]; cbn [negb];
    (split; [by rewrite ?length_insert | split; [by rewrite ?length_insert |]]); intros j Hj.
  - destruct (decide (j = i)) as [->|Hji].
    + rewrite list_lookup_total_insert_eq by lia. rewrite (Hsmall _ _ (H i Hj)), E. apply holds_same; [done |]. rewrite <- E at 1. by apply H.
    + rewrite list_lookup_total_insert_ne by done. apply holds_other; [apply in_slot_other; congruence | by apply H].
  - destruct (decide (j = i)) as [->|Hji].
    + rewrite !list_lookup_total_insert_eq by (rewrite ?length_insert; lia). by apply (holds_new l i (es !!! i) (bs !!! i)); [| | | | apply H].
    + rewrite !list_lookup_total_insert_ne by done. apply holds_other; [apply in_slot_other; congruence | by apply H].
Qed.

(** ** The window *)

Definition in_window (now x : Z) : bool := (now - windowSize <? x) && (x <=? now).

Lemma holds_window l i e b now : holds l i e b -> (forall x, x ∈ l -> x <= now) ->
  cnt (fun x => in_slot i x && in_window now x) l = if (now - windowSize + 1 <=? e) && (e <=? now) then b else 0.
Proof.
  intros (Hb & Hmax & He) Hnow. destruct He as [[He Hi]|[-> Hno]].
  - destruct (Z.leb_spec e now); [| by apply Hnow in He; lia]. rewrite andb_true_r.
    destruct (Z.leb_spec (now - windowSize + 1) e).
    + rewrite Hb. apply cnt_ext. intros x Hx. destruct (in_slot i x) eqn:Hix; [| done]. simpl. unfold in_window.
      assert (x <= e) by auto. destruct (Z.eqb_spec x e) as [->|]; [apply andb_true_iff; rewrite Z.ltb_lt, Z.leb_le; lia |].
      destruct (Z.ltb_spec (now - windowSize) x); [| done]. assert (x = e); [apply (same_slot i); auto; lia | done].
    + apply cnt_none. intros x Hx. destruct (in_slot i x) eqn:Hix; [| done]. simpl. unfold in_window.
      assert (x <= e) by auto. destruct (Z.ltb_spec (now - windowSize) x); [lia | done].
  - rewrite Hb, !cnt_none; [by case_match | |]; intros x Hx; by rewrite Hno.
Qed.

Lemma cnt_split f k l : cnt (fun x => f x && (Z.of_nat k <=? x mod windowSize)) l
  = cnt (fun x => in_slot k x && f x) l + cnt (fun x => f x && (Z.of_nat (S k) <=? x mod windowSize)) l.
Proof.
  induction l as [|x l IH]; [done |]. rewrite !cnt_cons, IH. unfold in_slot.
  destruct (f x); rewrite ?andb_false_r, ?andb_true_r; simpl; [| lia].
  destruct (Z.leb_spec (Z.of_nat k) (x mod windowSize)), (Z.leb_spec (Z.of_nat (S k)) (x mod windowSize)), (Z.eqb_spec (x mod windowSize) (Z.of_nat k)); lia.
Qed.

Lemma window_sum_from l now : (forall x, x ∈ l -> x <= now) -> forall es bs k sum,
  length es = length bs -> (k + length es = 60)%nat ->
  (forall j, (j < length es)%nat -> holds l (k + j) (es !!! j) (bs !!! j)) ->
  0 <= sum -> sum + cnt (fun x => in_window now x && (Z.of_nat k <=? x mod windowSize)) l <= max_i64 ->
  window_sum (now - windowSize + 1) now es bs sum
  = sum + cnt (fun x => in_window now x && (Z.of_nat k <=? x mod windowSize)) l.
Proof.
  intros Hnow es. induction es as [|e es IH]; intros [|b bs] k sum Hlen Hk H H0 Hmax; try done.
  - simpl in *. rewrite cnt_none; [lia |]. intros x _. pose proof (Z.mod_pos_bound x windowSize ltac:(done)).
    unfold windowSize in *. destruct (in_window now x); [| done]. apply Z.leb_gt. lia.
  - simpl in Hlen, Hk. injection Hlen as Hlen. pose proof (H 0%nat ltac:(simpl; lia)) as H1. simpl in H1. rewrite Nat.add_0_r in H1.
    rewrite cnt_split in Hmax |- *. rewrite (holds_window _ _ _ _ _ H1 Hnow) in Hmax |- *. cbn [window_sum].
    assert (Hrest : forall j, (j < length es)%nat -> holds l (S k + j) (es !!! j) (bs !!! j)).
    { intros j Hj. specialize (H (S j) ltac:(simpl; lia)). simpl in H. by rewrite Nat.add_succ_r in H. }
    pose proof (cnt_bounds (fun x => in_slot k x && (x =? e)) l) as [Hb _]. destruct H1 as [Hbc _]. rewrite <- Hbc in Hb.
    pose proof (cnt_bounds (fun x => in_window now x && (Z.of_nat (S k) <=? x mod windowSize)) l) as [Hb' _].
    destruct ((now - windowSize + 1 <=? e) && (e <=? now)).
    + rewrite u64_small by (unfold max_i64 in *; lia). rewrite (IH bs (S k)) by (done || lia). lia.
    + rewrite (IH bs (S k)) by (done || lia). lia.
Qed.

Lemma ring_window l bs es now : ring l bs es -> (forall x, x ∈ l -> x <= now) -> Z.of_nat (length l) <= max_i64 ->
  window_sum (now - windowSize + 1) now es bs 0 = recent now l.
Proof.
  intros (Lb & Le & H) Hnow Hl.
  assert (E : cnt (fun x => in_window now x && (Z.of_nat 0 <=? x mod windowSize)) l = recent now l).
  { unfold recent, cnt. f_equal. f_equal. apply filter_ext. intros x. pose proof (Z.mod_pos_bound x windowSize ltac:(done)).
    destruct (Z.leb_spec (Z.of_nat 0) (x mod windowSize)); [by rewrite andb_true_r | lia]. }
  rewrite <- E. pose proof (cnt_bounds (fun x => in_window now x && (Z.of_nat 0 <=? x mod windowSize)) l).
  rewrite (window_sum_from l now Hnow es bs 0 0); [done | congruence | simpl; lia | | done | lia].
  intros j Hj. apply H. lia.
Qed.

(** ** Histories *)

Lemma run_hooks_snoc hs h s : run_hooks (hs ++ [h]) s = s ← run_hooks hs s; run_hook h s.
Proof.
  revert s. induction hs as [|h' hs IH]; intros s; simpl; [by destruct (run_hook h s) |].
  destruct (run_hook h' s); simpl; [apply IH | done].
Qed.

Lemma seconds_snoc q hs h : seconds q (hs ++ [h])
  = seconds q hs ++ match h with HProcessed sec q' => if String.eqb q q' then [sec] else [] | _ => [] end.
Proof. unfold seconds. rewrite omap_app. f_equal. simpl. by repeat case_match; simplify_eq. Qed.

Lemma seconds_length q hs : (length (seconds q hs) <= length hs)%nat.
Proof.
  induction hs as [|h hs IH] using rev_ind; [done |]. rewrite seconds_snoc, !length_app. simpl.
  destruct h; simpl; [| case_match; simpl | |]; lia.
Qed.

(** The hooks of a queue, in its counters. *)
Definition counted (q : string) (hs : list hook) (c : queueCounters) : Prop :=
  pushed c = pushes q hs /\ processed c = Z.of_nat (length (seconds q hs)) /\ failed c = failures q hs /\
  retried c = retries q hs /\ ring (seconds q hs) (buckets c) (epoch c).

(** Fewer hooks than overflow a counter, from goroutines late by less than a
    minute, of a clock after 1970. *)
Definition orderly (hs : list hook) : Prop :=
  Z.of_nat (length hs) < 2 ^ 62 /\
  (forall q, StronglySorted late_by_less (seconds q hs)) /\ (forall q sec, sec ∈ seconds q hs -> 0 <= sec).

Lemma sorted_front {A} (R : A -> A -> Prop) l x : StronglySorted R (l ++ [x]) -> StronglySorted R l /\ List.Forall (fun y => R y x) l.
Proof.
  induction l as [|y l IH]; simpl; [by repeat constructor |]. intros [[H1 H2]%IH Hy]%StronglySorted_inv.
  apply list.Forall_app in Hy as [Hy Hx]. apply list.Forall_cons in Hx as [Hx _]. split; [by apply SSorted_cons | by apply list.Forall_cons_2].
Qed.

Lemma orderly_front hs h : orderly (hs ++ [h]) -> orderly hs.
Proof.
  intros (Hl & Hs & H0). rewrite length_app in Hl. simpl in Hl. split; [lia |]. split.
  - intros q. specialize (Hs q). rewrite seconds_snoc in Hs. repeat case_match; rewrite ?app_nil_r in Hs; try done. by apply sorted_front in Hs as [Hs _].
  - intros q sec Hq. apply (H0 q). rewrite seconds_snoc. set_solver.
Qed.

Lemma pushes_bound q hs : 0 <= pushes q hs <= Z.of_nat (length hs).
Proof. apply cnt_bounds. Qed.

Lemma failures_bound q hs : 0 <= failures q hs <= Z.of_nat (length hs).
Proof. apply cnt_bounds. Qed.

Lemma retries_bound q hs : 0 <= retries q hs <= Z.of_nat (length hs).
Proof. apply cnt_bounds. Qed.

(** A hook of another queue. *)
Lemma counted_other q hs h c : hook_queue h <> q -> counted q hs c -> counted q (hs ++ [h]) c.
Proof.
  intros Hne. unfold counted, pushes, failures, retries. rewrite !cnt_snoc, seconds_snoc.
  destruct h; simpl in *; rewrite ?(proj2 (String.eqb_neq q _)) by congruence; rewrite ?Z.add_0_r, ?app_nil_r; done.
Qed.

Lemma run_hook_counted h hs s : orderly (hs ++ [h]) -> counted (hook_queue h) hs (counters (hook_queue h) s) ->
  exists c, run_hook h s = Some (<[hook_queue h := c]> s) /\ counted (hook_queue h) (hs ++ [h]) c.
Proof.
  intros (Hl & Hs & H0) (Hp & Hd & Hf & Hr & Hring). set (q := hook_queue h) in *. rewrite length_app in Hl. simpl in Hl.
  pose proof (pushes_bound q hs). pose proof (failures_bound q hs). pose proof (retries_bound q hs). pose proof (seconds_length q hs).
  specialize (Hs q). specialize (H0 q). unfold counted, pushes, failures, retries in *. rewrite seconds_snoc in Hs, H0. rewrite !cnt_snoc, seconds_snoc.
  destruct h as [q'|sec q'|q'|q']; simpl in q; subst q; simpl run_hook; rewrite ?String.eqb_refl in *; rewrite ?app_nil_r, ?Z.add_0_r.
  2: {
    assert (0 <= sec) by (apply H0; set_solver). apply sorted_front in Hs as [_ Hlate]. unfold OnProcessed.
    rewrite slot_of_nonneg by done. simpl. pose proof (ring_tick (seconds q' hs) _ _ _ _ (slot_of_nonneg sec ltac:(done)) ltac:(done) ltac:(unfold max_i64; lia) Hlate Hring) as Ht.
    destruct (tick _ _ _ _) as [bs es]. eexists. split; [done |]. simpl. rewrite length_app, Hd, u64_small by (simpl; lia). simpl. repeat (split; [done || lia |]). done. }
  all: eexists; split; [done |]; simpl; rewrite ?Hp, ?Hf, ?Hr, ?u64_small by lia; repeat (split; [done |]); done.
Qed.

Lemma NewStats_lookup q : NewStats !! q = None.
Proof. apply lookup_empty. Qed.

Lemma Stats_set q c (s : Stats) q' : <[q := c]> s !! q' = if decide (q = q') then Some c else s !! q'.
Proof. case_decide; [subst; apply lookup_insert_eq | by apply lookup_insert_ne]. Qed.

Lemma counters_some q c s : s !! q = Some c -> counters q s = c.
Proof. exact (f_equal (default new_counters) (x := s !! q) (y := Some c)). Qed.

Definition touched (hs : list hook) : list string := remove_dups (map hook_queue hs).

Lemma hooks_counted hs : orderly hs -> exists s, run_hooks hs NewStats = Some s /\
  (forall q, counted q hs (counters q s)) /\ forall q, is_Some (s !! q) <-> q ∈ map hook_queue hs.
Proof.
  induction hs as [|h hs IH] using rev_ind; intros Ho.
  - exists NewStats. split; [done |]. split; [| intros q; rewrite NewStats_lookup; split; [by intros [??] | set_solver]].
    intros q. unfold counters. rewrite NewStats_lookup. repeat (split; [done |]). apply ring_new.
  - destruct (IH (orderly_front _ _ Ho)) as (s & Hs & Hc & Hd).
    destruct (run_hook_counted h hs s Ho (Hc _)) as (c & Hr & Hc'). exists (<[hook_queue h := c]> s).
    rewrite run_hooks_snoc, Hs. split; [done |].
    split; intros q; unfold counters; rewrite Stats_set; destruct (decide (hook_queue h = q)) as [<-|Hne]; try done.
    + by apply counted_other, Hc.
    + split; [intros _ | done]. rewrite map_app. set_solver.
    + rewrite Hd, map_app. set_solver.
Qed.

Lemma stat_expected now q hs c : orderly hs -> 0 <= now <= max_i64 -> (forall sec, sec ∈ seconds q hs -> sec <= now) ->
  counted q hs c -> stat_of now q c = expected now hs q.
Proof.
  intros (Hl & _) Hnow Hle (Hp & Hd & Hf & Hr & Hring). unfold stat_of, expected, throughputLocked.
  pose proof (pushes_bound q hs). pose proof (failures_bound q hs). pose proof (seconds_length q hs).
  rewrite (i64_small (now - windowSize + 1)) by (unfold windowSize, min_i64, max_i64 in *; lia).
  rewrite (ring_window _ _ _ _ Hring Hle) by (unfold max_i64; lia). rewrite Hp, Hd, Hf, Hr.
  set (p := pushes q hs) in *. set (d := Z.of_nat (length (seconds q hs))) in *. set (f := failures q hs) in *.
  assert (0 <= d <= Z.of_nat (length hs)) by lia.
  rewrite (i64_small p), (i64_small d), (i64_small f), (i64_small (p - d)), (i64_small (p - d - f)) by (unfold min_i64, max_i64; lia). f_equal.
  case_match; to_prop; lia.
Qed.

#[export] Instance by_queue_weak : StrictWeak by_queue.
Proof. split; unfold by_queue; intros *; [apply less_asym | apply less_cotrans]. Qed.

Lemma StronglySorted_map_names now hs qs : StronglySorted (may_precede String.ltb) qs -> StronglySorted (may_precede by_queue) (map (expected now hs) qs).
Proof.
  induction 1 as [|q qs H IH Hq]; simpl; constructor; [done |]. apply List.Forall_map. exact Hq.
Qed.

(** C32: After any history of hooks no goroutine of which was a minute late, the
    snapshot has one row for each queue a hook named, in the order of the names; the
    row counts the queue's hooks of each kind, its pending jobs are what was pushed
    and neither processed nor failed, and its throughput averages exactly the jobs
    processed in the last sixty seconds, though the ring only keeps sixty buckets. *)
Theorem Snapshot_exact hs now : orderly hs -> 0 <= now <= max_i64 -> (forall q sec, sec ∈ seconds q hs -> sec <= now) ->
  exists s, run_hooks hs NewStats = Some s /\
    Snapshot now s = map (expected now hs) (SliceStable String.ltb (touched hs)).
Proof.
  intros Ho Hnow Hle. destruct (hooks_counted hs Ho) as (s & Hs & Hc & Hd). exists s. split; [done |].
  apply (sorted_unique by_queue).
  - intros a b Ha Hb Hab Hba. unfold Snapshot in Ha, Hb. rewrite SliceStable_perm in Ha, Hb.
    apply list_elem_of_fmap in Ha as ([n c] & -> & Hn), Hb as ([n' c'] & -> & Hn').
    assert (n = n') as <- by (by apply (ltb_antisym n n')). apply elem_of_map_to_list in Hn, Hn'. congruence.
  - unfold Snapshot. apply SliceStable_sorted, _.
  - apply StronglySorted_map_names, SliceStable_sorted, _.
  - unfold Snapshot. rewrite !SliceStable_perm.
    assert (E : map (fun '(name, c) => stat_of now name c) (map_to_list s) = map (expected now hs) (map fst (map_to_list s))).
    { rewrite map_map. apply map_ext_in. intros [n c] Hn%list_elem_of_In%elem_of_map_to_list. apply stat_expected; [done .. | by eauto |].
      specialize (Hc n). by rewrite (counters_some n c s Hn) in Hc. }
    rewrite E. apply Permutation_map, NoDup_Permutation; [apply NoDup_fst_map_to_list | apply NoDup_remove_dups |].
    intros q. unfold touched. rewrite elem_of_remove_dups, <- Hd. split.
    + intros ([n c] & -> & Hn)%list_elem_of_fmap. apply elem_of_map_to_list in Hn. eauto.
    + intros [c Hn]. apply list_elem_of_fmap. exists (q, c). split; [done | by apply elem_of_map_to_list].
Qed.

Lemma Snapshot_exact_witness : let hs := [HPushed "mail"; HProcessed 100 "mail"; HProcessed 100 "mail"; HProcessed 161 "mail"; HFailed "sms"]%string in
  exists s, run_hooks hs NewStats = Some s /\ Snapshot 161 s =
    [mkStat "mail" 1 3 0 0 0 (fdiv (float_of_Z 1) (float_of_Z 60)); mkStat "sms" 0 0 1 0 0 (fdiv (float_of_Z 0) (float_of_Z 60))].
Proof.
  set (hs := [HPushed "mail"; HProcessed 100 "mail"; HProcessed 100 "mail"; HProcessed 161 "mail"; HFailed "sms"]%string).
  assert (Hq : forall q, seconds q hs = if String.eqb q "mail" then [100; 100; 161] else []) by (intros q; unfold seconds; simpl; by destruct (String.eqb q "mail")).
  apply (Snapshot_exact hs 161); [split; [done | split] | done |]; intros q.
  - rewrite Hq. destruct (String.eqb q "mail"); unfold late_by_less, windowSize; repeat constructor; lia.
  - intros sec. rewrite Hq. destruct (String.eqb q "mail"); [| set_solver]. rewrite !elem_of_cons, elem_of_nil. lia.
  - intros sec. rewrite Hq. destruct (String.eqb q "mail"); [| set_solver]. rewrite !elem_of_cons, elem_of_nil. lia.
Defined.

(** A failed job that is retried from the list and then processed is counted twice
    against the one time it was pushed: another job that still waits is not pending. *)
Example retried_undercounts :
  let hs := [HPushed "mail"; HPushed "mail"; HFailed "mail"; HRetried "mail"; HProcessed 100 "mail"]%string in
  option_map (fun s => map Pending (Snapshot 100 s)) (run_hooks hs NewStats) = Some [0].
Proof. vm_compute. reflexivity. Qed.

(** A clock before 1970 panics. *)
Example before_1970_panics : run_hooks [HProcessed (-1) "mail"%string] NewStats = None.
Proof. reflexivity. Qed.

(** ** The sampler *)

Lemma sample_row_other now s q name : Queue q <> name ->
  prev (sample_row now s q) !! name = prev s !! name /\ samples (sample_row now s q) !! name = samples s !! name /\
  window (sample_row now s q) = window s /\ interval (sample_row now s q) = interval s.
Proof. intros H. unfold sample_row. case_match; simpl; by rewrite !lookup_insert_ne by done. Qed.

Lemma sample_others now rows s name : name ∉ map Queue rows ->
  prev (fold_left (sample_row now) rows s) !! name = prev s !! name /\
  samples (fold_left (sample_row now) rows s) !! name = samples s !! name /\
  window (fold_left (sample_row now) rows s) = window s /\ interval (fold_left (sample_row now) rows s) = interval s.
Proof.
  revert s. induction rows as [|q rows IH]; intros s H; [done |]. apply not_elem_of_cons in H as [Hq H]. simpl.
  destruct (IH (sample_row now s q) H) as (-> & -> & -> & ->). by apply sample_row_other.
Qed.

Lemma int_not_negative n : 0 <= n < 2 ^ 53 -> flt (float_of_Z n) fzero = false.
Proof. intros H. destruct (Z.eq_dec n 0) as [->|]; [done |]. by rewrite float_of_Z_cf by lia. Qed.

(** A reading of a queue seen before: the rate is the jobs processed since the last
    reading, scaled from the interval to a minute, and the retained samples are those
    newer than the window. *)
Theorem sample_exact now rows s q p : NoDup (map Queue rows) -> q ∈ rows -> prev s !! Queue q = Some p ->
  0 <= p <= Processed q -> Processed q < 2 ^ 53 ->
  Rate (Queue q) (sample now (Some rows) s) = fmul (float_of_Z (Processed q - p)) (perMin s) /\
  Window (Queue q) (sample now (Some rows) s)
  = List.filter (fun old => now - window s <? At old) (Window (Queue q) s) ++ [mkSample now (Queue q) (fmul (float_of_Z (Processed q - p)) (perMin s))].
Proof.
  intros Hnd Hq Hp Hle Hmax. apply list_elem_of_split in Hq as (l1 & l2 & ->). rewrite map_app in Hnd. simpl in Hnd.
  apply list.NoDup_app in Hnd as (_ & H1 & [H2 _]%list.NoDup_cons). simpl. rewrite fold_left_app. simpl.
  assert (Hn1 : Queue q ∉ map Queue l1) by (intros Hin; apply (H1 _ Hin); set_solver).
  destruct (sample_others now l1 s _ Hn1) as (Ep & Es & Ew & Ei). set (s1 := fold_left (sample_row now) l1 s) in *.
  assert (Hs : samples (fold_left (sample_row now) l2 (sample_row now s1 q)) !! Queue q
    = Some (List.filter (fun old => now - window s <? At old) (Window (Queue q) s) ++ [mkSample now (Queue q) (fmul (float_of_Z (Processed q - p)) (perMin s))])).
  { destruct (sample_others now l2 (sample_row now s1 q) _ H2) as (_ & -> & _). unfold sample_row. rewrite Ep, Hp. simpl. rewrite lookup_insert_eq.
    unfold Window, perMin. rewrite Es, Ew, Ei. rewrite (i64_small (Processed q)), (i64_small p), i64_small by (unfold min_i64, max_i64; lia).
    by rewrite int_not_negative by lia. }
  unfold Rate, Window at 1. rewrite Hs. simpl. by rewrite last_snoc.
Qed.

(** The rate of the last interval is not the average over the window: sixty jobs in
    one interval are forgotten at the next reading. *)
Example rate_of_last_interval :
  let row n := mkStat "mail" 0 n 0 0 0 fzero in
  let s := NewSampler (5 * Second) Minute in
  let s := sample 0 (Some [row 0]) s in let s := sample (5 * Second) (Some [row 60]) s in
  let s := sample (10 * Second) (Some [row 60]) s in
  Rate "mail" s = fzero /\ length (Window "mail" s) = 2%nat.
Proof. vm_compute. done. Qed.
