(* ===== verification/Dashboard.v ===== *)
(** The queue dashboard: [src/queue/dashboard/failed.go], [inspector.go] and
    [handler.go].

    - [MemoryFailedJobs], the store of dead-lettered jobs.  [Retry] and [Forget]
      look a record up in one critical section and remove it in another, with the
      requeue between them: [board_step] interleaves any number of them with the
      worker that records failures.
    - [Inspector] and [FailedJobs], the interfaces the handlers are proved
      against, and [memInspector], which implements the first.
    - The handlers as functions of a request and of the state behind the
      interface; what a template renders is its [pageData].  The paths are those
      [http.ServeMux] hands on, which it has cleaned.

    [None] is a panic of the handler. *)

From Stdlib Require Import ZArith Lia Ascii Sorted.
From stdpp Require Import base gmap strings list relations numbers.
From S2P Require Import Prelude GoRt GoStrconv GoStrings GoSort Queue QueueStats.

#[local] Set Warnings "-register-all".
#[local] Open Scope list_scope.
#[local] Open Scope Z_scope.

(** ** The store of failed jobs *)

Record FailedJob := mkFailed {
  f_id : string; f_queue : string; f_job : Job; f_err : string; FailedAt : Time }.

(** [order] is the insertion order, newest last. *)
Record MemoryFailedJobs := mkFailedJobs { items : gmap string FailedJob; order : list string }.

Definition NewMemoryFailedJobs : MemoryFailedJobs := mkFailedJobs ∅ [].

Definition add (f : FailedJob) (m : MemoryFailedJobs) : MemoryFailedJobs :=
  mkFailedJobs (<[f_id f := f]> (items m))
    (match items m !! f_id f with Some _ => order m | None => order m ++ [f_id f] end).

(** The record the worker's [OnFailed] makes; [msg] is the text of its error, empty for nil. *)
Definition failed_of (now : Time) (j : Job) (queueName msg : string) : FailedJob := mkFailed (ID j) queueName j msg now.

Definition Record_ (now : Time) (j : Job) (queueName msg : string) (m : MemoryFailedJobs) : MemoryFailedJobs :=
  add (failed_of now j queueName msg) m.

Definition newer (a b : FailedJob) : bool := After (FailedAt a) (FailedAt b).

Definition List_ (m : MemoryFailedJobs) : list FailedJob := SliceStable newer (omap (fun id => items m !! id) (order m)).

Definition remove (id : string) (m : MemoryFailedJobs) : MemoryFailedJobs :=
  mkFailedJobs (delete id (items m)) (remove_first id (order m)).

Definition Len (m : MemoryFailedJobs) : Z := Z.of_nat (size (items m)).

Inductive action_error := ErrNotFound | EOther (text : string).

(** What the memory inspector points to: the statistics and the store, either of
    which may be nil; [linked] says that [WithStats] gave the store these
    statistics.  [queue] is whatever the requeue function changes. *)
Record board (W : Type) := mkBoard {
  b_stats : option Stats; b_failed : option MemoryFailedJobs; linked : bool; queue : W }.
Arguments mkBoard {W}. Arguments b_stats {W}. Arguments b_failed {W}. Arguments linked {W}. Arguments queue {W}.

Section Memory.
Context {W : Type}.

(** [RequeueFunc]; nil makes a retry forget the job. *)
Context (requeue : option (Job -> W -> W * option action_error)).

Definition with_failed (m : MemoryFailedJobs) (b : board W) : board W := mkBoard (b_stats b) (Some m) (linked b) (queue b).

Definition on_retried (q : string) (b : board W) : board W :=
  if linked b then mkBoard (OnRetried q <$> b_stats b) (b_failed b) true (queue b) else b.

Definition call_requeue (j : Job) (b : board W) : board W * option action_error :=
  match requeue with
  | None => (b, None)
  | Some r => let '(w, err) := r j (queue b) in (mkBoard (b_stats b) (b_failed b) (linked b) w, err)
  end.

Definition Retry (id : string) (m : MemoryFailedJobs) (b : board W) : board W * option action_error :=
  match items m !! id with
  | None => (b, Some ErrNotFound)
  | Some f =>
      let '(b, err) := call_requeue (f_job f) b in
      match err with
      | Some e => (b, Some e)
      | None => (on_retried (f_queue f) (with_failed (remove id m) b), None)
      end
  end.

Definition Forget (id : string) (m : MemoryFailedJobs) : MemoryFailedJobs * option action_error :=
  match items m !! id with
  | None => (m, Some ErrNotFound)
  | Some _ => (remove id m, None)
  end.

(** ** The inspector *)

Record JobView := mkView {
  v_id : string; v_queue : string; v_name : string; v_err : string; v_attempts : Z; v_failedAt : Time }.

Definition jobViewsFromFailed (l : list FailedJob) : list JobView :=
  map (fun f => mkView (f_id f) (f_queue f) (Name (f_job f)) (f_err f) (Attempts (f_job f)) (FailedAt f)) l.

Definition PageSize : Z := 50.

(** [rows[lo:hi]], [None] where it panics. *)
Definition go_slice {A} (l : list A) (lo hi : Z) : option (list A) :=
  if (lo <? 0) || (hi <? lo) || (Z.of_nat (length l) <? hi) then None
  else Some (take (Z.to_nat (hi - lo)) (drop (Z.to_nat lo) l)).

Definition paginate (rows : list JobView) (page : Z) : option (list JobView) :=
  let page := if page <? 1 then 1 else page in
  let start := i64 ((page - 1) * PageSize) in
  if Z.of_nat (length rows) <=? start then Some []
  else
    let end_ := i64 (start + PageSize) in
    let end_ := if Z.of_nat (length rows) <? end_ then Z.of_nat (length rows) else end_ in
    go_slice rows start end_.

Record StatsView := mkStatsView { sv_queues : list QueueStat; sv_totals : QueueStat }.

Definition no_stats : QueueStat := mkStat "" 0 0 0 0 0 fzero.

(** The two halves of a [StatsView] are two snapshots, at two readings of the clock. *)
Definition stats_view (now1 now2 : Z) (s : option Stats) : StatsView :=
  match s with
  | None => mkStatsView [] no_stats
  | Some s => mkStatsView (Snapshot now1 s) (Totals now2 s)
  end.

Definition mem_Failed (page : Z) (b : board W) : option (list JobView) :=
  match b_failed b with
  | None => Some []
  | Some m => paginate (jobViewsFromFailed (List_ m)) page
  end.

Definition mem_Retry (id : string) (b : board W) : board W * option action_error :=
  match b_failed b with None => (b, Some ErrNotFound) | Some m => Retry id m b end.

Definition mem_Forget (id : string) (b : board W) : board W * option action_error :=
  match b_failed b with
  | None => (b, Some ErrNotFound)
  | Some m => let '(m, err) := Forget id m in (with_failed m b, err)
  end.

(** The loop of [FlushFailed]; an id that is gone is skipped. *)
Fixpoint flush_loop (l : list FailedJob) (m : MemoryFailedJobs) : MemoryFailedJobs * option action_error :=
  match l with
  | [] => (m, None)
  | f :: l =>
      match Forget (f_id f) m with
      | (m, None) | (m, Some ErrNotFound) => flush_loop l m
      | (m, Some e) => (m, Some e)
      end
  end.

Definition mem_FlushFailed (b : board W) : board W * option action_error :=
  match b_failed b with
  | None => (b, None)
  | Some m => let '(m, err) := flush_loop (List_ m) m in (with_failed m b, err)
  end.
End Memory.

(** What the handlers ask of the state [T] behind an inspector; an error is its text. *)
Record Inspector (T : Type) := mkInspector {
  i_Stats : Z -> Z -> T -> result string StatsView;
  i_Pending : string -> Z -> T -> result string (list JobView);
  i_Failed : Z -> T -> option (result string (list JobView));
  i_Retry : string -> T -> T * option action_error;
  i_Forget : string -> T -> T * option action_error;
  i_FlushFailed : T -> T * option action_error }.
Arguments mkInspector {T}. Arguments i_Stats {T}. Arguments i_Pending {T}. Arguments i_Failed {T}.
Arguments i_Retry {T}. Arguments i_Forget {T}. Arguments i_FlushFailed {T}.

Definition NewInspector {W} (requeue : option (Job -> W -> W * option action_error)) : Inspector (board W) :=
  mkInspector (fun now1 now2 b => Ok (stats_view now1 now2 (b_stats b))) (fun _ _ _ => Ok [])
    (fun page b => Ok <$> mem_Failed page b) (mem_Retry requeue) mem_Forget mem_FlushFailed.

(** ** Requests and replies *)

(** What a handler reads: [r_cookie] is the value of the CSRF cookie, [r_post] the
    body's fields ([PostFormValue], empty when absent), [r_page] the query's [page],
    and [r_parses] says that [ParseForm] returned no error. *)
Record Request := mkRequest {
  r_method : string; r_path : string; r_parses : bool; r_cookie : option string; r_post : string -> string; r_page : string }.

Record pageData := mkPage {
  Title : string; Active : string; p_CSRF : string; p_Stats : list QueueStat; p_Totals : QueueStat; p_Failed : list JobView;
  Page : Z; PrevPage : Z; NextPage : Z; HasNext : bool; HasPager : bool }.

(** [HttpError] also stands for [http.NotFound]; [set_allow] is the [Allow] header. *)
Inductive response :=
| HttpError (status : Z) (text : string) (set_allow : bool)
| Redirect (location : string)
| Html (data : pageData)
| StatsJSON (v : StatsView)
| FailedJSON (l : list FailedJob).

(** A response with the CSRF cookie it sets. *)
Record reply := mkReply { r_response : response; new_cookie : option string }.
Definition plain (r : response) : reply := mkReply r None.
Definition NotFound : response := HttpError 404 "404 page not found" false.

(** The token of the rendered forms, and the cookie where the client has none;
    [fresh] is [randomToken]. *)
Definition issueToken (fresh : string) (r : Request) : string * option string :=
  match r_cookie r with
  | Some v => if String.eqb v "" then (fresh, Some fresh) else (v, None)
  | None => (fresh, Some fresh)
  end.

(** The constant-time comparison is the equality of the byte strings. *)
Definition validToken (r : Request) : bool :=
  match r_cookie r with
  | None => false
  | Some v => negb (String.eqb v "") && negb (String.eqb (r_post r "csrf") "") && String.eqb v (r_post r "csrf")
  end.

(** [guardPost]: the error response, or [None] when the caller may proceed. *)
Definition guardPost (r : Request) : option response :=
  if negb (String.eqb (r_method r) "POST") then Some (HttpError 405 "method not allowed" true)
  else if negb (r_parses r) then Some (HttpError 400 "bad form" false)
  else if negb (validToken r) then Some (HttpError 403 "csrf token mismatch" false)
  else None.

Definition pageParam (r : Request) : Z :=
  match Atoi (r_page r) with Some p => if p <? 1 then 1 else p | None => 1 end.

(** ** The handlers over an inspector *)

Section Handlers.
Context {T : Type} (insp : Inspector T).

(** The state, and the reply; [None] is a panic. *)
Definition handled : Type := option (T * reply).

Definition handleOverview (now1 now2 : Z) (fresh : string) (r : Request) (t : T) : handled :=
  if negb (String.eqb (r_path r) "/queues/") then Some (t, plain NotFound)
  else
    let '(token, cookie) := issueToken fresh r in
    match i_Stats insp now1 now2 t with
    | Err e => Some (t, mkReply (HttpError 500 ("stats: " +:+ e)%string false) cookie)
    | Ok sv => Some (t, mkReply (Html (mkPage "Queue Overview" "overview" token (sv_queues sv) (sv_totals sv) [] 0 0 0 false false)) cookie)
    end.

Definition handleFailed (fresh : string) (r : Request) (t : T) : handled :=
  let page := pageParam r in
  match i_Failed insp page t with
  | None => None
  | Some (Err e) => Some (t, plain (HttpError 500 ("failed list: " +:+ e)%string false))
  | Some (Ok rows) =>
      let '(token, cookie) := issueToken fresh r in
      let hasNext := Z.of_nat (length rows) =? PageSize in
      Some (t, mkReply (Html (mkPage "Failed Jobs" "failed" token [] no_stats rows page (i64 (page - 1)) (i64 (page + 1)) hasNext
                                ((1 <? page) || hasNext))) cookie)
  end.

(** The response to the outcome of an action. *)
Definition action_response (location : string) (err : option action_error) : response :=
  match err with
  | None => Redirect location
  | Some ErrNotFound => HttpError 404 "job not found" false
  | Some (EOther e) => HttpError 500 e false
  end.

Definition ErrNotFound_text : string := "dashboard: failed job not found".
Definition error_text (e : action_error) : string := match e with ErrNotFound => ErrNotFound_text | EOther e => e end.

Definition handleFlush (r : Request) (t : T) : handled :=
  match guardPost r with
  | Some resp => Some (t, plain resp)
  | None =>
      let '(t, err) := i_FlushFailed insp t in
      Some (t, plain (match err with None => Redirect "../failed" | Some e => HttpError 500 (error_text e) false end))
  end.

(** [strings.Cut] of the rest of the path at the first slash. *)
Definition action_path (path : string) : option (string * string) :=
  match cut_at "/" (TrimPrefix path "/queues/failed/") with
  | Some (id, action) => if String.eqb id "" || String.eqb action "" then None else Some (id, action)
  | None => None
  end.

Definition handleFailedAction (r : Request) (t : T) : handled :=
  match action_path (r_path r) with
  | None => Some (t, plain NotFound)
  | Some (id, action) =>
      match guardPost r with
      | Some resp => Some (t, plain resp)
      | None =>
          if String.eqb action "retry" then
            let '(t, err) := i_Retry insp id t in Some (t, plain (action_response "../../failed" err))
          else if String.eqb action "forget" then
            let '(t, err) := i_Forget insp id t in Some (t, plain (action_response "../../failed" err))
          else Some (t, plain NotFound)
      end
  end.

Definition handleAPIStats (now1 now2 : Z) (t : T) : handled :=
  Some (t, plain (match i_Stats insp now1 now2 t with Err e => HttpError 500 e false | Ok sv => StatsJSON sv end)).

(** [Handler]: the patterns without a final slash match one path, the others every
    path they begin, the longest first. *)
Definition serve (now1 now2 : Z) (fresh : string) (r : Request) (t : T) : handled :=
  if String.eqb (r_path r) "/queues/failed" then handleFailed fresh r t
  else if String.eqb (r_path r) "/queues/failed/flush" then handleFlush r t
  else if String.eqb (r_path r) "/queues/api/stats" then handleAPIStats now1 now2 t
  else if HasPrefix (r_path r) "/queues/failed/" then handleFailedAction r t
  else if HasPrefix (r_path r) "/queues/" then handleOverview now1 now2 fresh r t
  else Some (t, plain NotFound).
End Handlers.

(** ** The handlers over a store of failed jobs *)

Record FailedJobs (T : Type) := mkJobs {
  fj_List : T -> result string (list FailedJob);
  fj_Retry : string -> T -> T * option action_error;
  fj_Forget : string -> T -> T * option action_error }.
Arguments mkJobs {T}. Arguments fj_List {T}. Arguments fj_Retry {T}. Arguments fj_Forget {T}.

(** [New] with its two arguments, either of which may be nil; [d_stats] reads the
    statistics. *)
Record Dashboard (T : Type) := New { d_stats : T -> option Stats; d_failed : option (FailedJobs T) }.
Arguments New {T}. Arguments d_stats {T}. Arguments d_failed {T}.

Section Dashboard.
Context {T : Type} (d : Dashboard T).

Definition dash_handleOverview (now1 now2 : Z) (fresh : string) (r : Request) (t : T) : T * reply :=
  if negb (String.eqb (r_path r) "/") then (t, plain NotFound)
  else
    let '(token, cookie) := issueToken fresh r in
    let sv := stats_view now1 now2 (d_stats d t) in
    (t, mkReply (Html (mkPage "Queue Overview" "overview" token (sv_queues sv) (sv_totals sv) [] 0 0 0 false false)) cookie).

Definition dash_handleFailed (fresh : string) (r : Request) (t : T) : T * reply :=
  let '(token, cookie) := issueToken fresh r in
  let page l := Html (mkPage "Failed Jobs" "failed" token [] no_stats (jobViewsFromFailed l) 0 0 0 false false) in
  (t, mkReply (match d_failed d with
               | None => page []
               | Some f => match fj_List f t with
                           | Err e => HttpError 500 ("list failed jobs: " +:+ e)%string false
                           | Ok l => page l
                           end
               end) cookie).

(** [action]; [fn] is the method of the store that [handleRetry] or [handleForget] passes. *)
Definition action (fn : FailedJobs T -> string -> T -> T * option action_error) (r : Request) (t : T) : T * reply :=
  match guardPost r with
  | Some resp => (t, plain resp)
  | None =>
      match d_failed d with
      | None => (t, plain (HttpError 503 "no failed-job store configured" false))
      | Some f =>
          let id := r_post r "id" in
          if String.eqb id "" then (t, plain (HttpError 400 "missing id" false))
          else let '(t, err) := fn f id t in (t, plain (action_response "failed" err))
      end
  end.

Definition handleRetry := action fj_Retry.
Definition handleForget := action fj_Forget.

Definition dash_handleAPIStats (now1 now2 : Z) (t : T) : T * reply := (t, plain (StatsJSON (stats_view now1 now2 (d_stats d t)))).

Definition handleAPIFailed (t : T) : T * reply :=
  (t, plain (match d_failed d with
             | None => FailedJSON []
             | Some f => match fj_List f t with Err e => HttpError 500 e false | Ok l => FailedJSON l end
             end)).

(** [Dashboard.Handler]. *)
Definition dash_serve (now1 now2 : Z) (fresh : string) (r : Request) (t : T) : T * reply :=
  if String.eqb (r_path r) "/failed" then dash_handleFailed fresh r t
  else if String.eqb (r_path r) "/failed/retry" then handleRetry r t
  else if String.eqb (r_path r) "/failed/forget" then handleForget r t
  else if String.eqb (r_path r) "/api/stats" then dash_handleAPIStats now1 now2 t
  else if String.eqb (r_path r) "/api/failed" then handleAPIFailed t
  else dash_handleOverview now1 now2 fresh r t.
End Dashboard.

(** ** The store under concurrent actions *)

(** A goroutine of the dashboard between the critical sections of its action. *)
Inductive actor := Idle | Requeueing (f : FailedJob) | Removing (id : string).

(** What happened, in order: a record made, a requeue that succeeded, and a [Forget]
    that found its record. *)
Inductive happened := Recorded (f : FailedJob) | Requeued (j : Job) | Forgotten (id : string).

Record store_sys := mkStore { st_jobs : MemoryFailedJobs; actors : list actor; happenings : list happened }.

Inductive actor_step (m : MemoryFailedJobs) : actor -> MemoryFailedJobs -> list happened -> actor -> Prop :=
| as_retry id f : items m !! id = Some f -> actor_step m Idle m [] (Requeueing f)
| as_requeued f : actor_step m (Requeueing f) m [Requeued (f_job f)] (Removing (f_id f))
| as_requeue_failed f : actor_step m (Requeueing f) m [] Idle
| as_forget id f : items m !! id = Some f -> actor_step m Idle m [Forgotten id] (Removing id)
| as_remove id : actor_step m (Removing id) (remove id m) [] Idle.

Inductive board_step : store_sys -> store_sys -> Prop :=
| bs_record f m l log : board_step (mkStore m l log) (mkStore (add f m) l (log ++ [Recorded f]))
| bs_actor m m' l1 l2 a a' log out :
    actor_step m a m' out a' -> board_step (mkStore m (l1 ++ a :: l2) log) (mkStore m' (l1 ++ a' :: l2) (log ++ out)).

Definition board_init (n : nat) : store_sys := mkStore NewMemoryFailedJobs (repeat Idle n) [].

(** ** The store *)

(** [order] lists the ids of [items], each once. *)
Definition store_ok (m : MemoryFailedJobs) : Prop :=
  NoDup (order m) /\ (forall id, id ∈ order m <-> is_Some (items m !! id)) /\ (forall id f, items m !! id = Some f -> f_id f = id).

Lemma store_ok_new : store_ok NewMemoryFailedJobs.
Proof.
  split; [constructor |]. split; simpl; [intros id | intros id f]; rewrite lookup_empty; [| done]. split; [set_solver | by intros [??]].
Qed.

Lemma store_ok_add f m : store_ok m -> store_ok (add f m).
Proof.
  intros (Hn & Hd & Hi). unfold add. split; [| split]; simpl.
  - destruct (items m !! f_id f) eqn:E; [done |]. apply list.NoDup_app. split; [done |]. split; [| apply NoDup_singleton].
    intros x Hx ->%list_elem_of_singleton. apply Hd in Hx as [? ?]. congruence.
  - intros id. destruct (decide (f_id f = id)) as [<-|Hne].
    + rewrite lookup_insert_eq. split; [done |]. intros _. destruct (items m !! f_id f) eqn:E; [apply Hd; by rewrite E | set_solver].
    + rewrite lookup_insert_ne by done. rewrite <- Hd. destruct (items m !! f_id f); set_solver.
  - intros id g. destruct (decide (f_id f = id)) as [<-|Hne]; [rewrite lookup_insert_eq; congruence | rewrite lookup_insert_ne by done; apply Hi].
Qed.

Lemma store_ok_remove id m : store_ok m -> store_ok (remove id m).
Proof.
  intros (Hn & Hd & Hi). split; [by apply remove_first_NoDup |]. split; simpl.
  - intros x. rewrite remove_first_elem by done. destruct (decide (id = x)) as [<-|Hne].
    + rewrite lookup_delete_eq. split; [naive_solver | by intros [??]].
    + rewrite lookup_delete_ne by done. rewrite Hd. naive_solver.
  - intros x f. rewrite lookup_delete_Some. intros [_ ?]. by apply Hi.
Qed.

(** The list holds every record once, newest first. *)
Lemma List_elem f m : store_ok m -> f ∈ List_ m <-> items m !! f_id f = Some f.
Proof.
  intros (Hn & Hd & Hi). unfold List_. rewrite SliceStable_perm, list_elem_of_omap. split.
  - intros (id & _ & H). by rewrite (Hi _ _ H).
  - intros H. exists (f_id f). split; [apply Hd; by rewrite H | done].
Qed.

Lemma List_ids m : store_ok m -> map f_id (List_ m) ≡ₚ order m.
Proof.
  intros (Hn & Hd & Hi). unfold List_. rewrite SliceStable_perm.
  assert (H : forall l, (forall id, id ∈ l -> is_Some (items m !! id)) -> map f_id (omap (fun id => items m !! id) l) = l).
  { induction l as [|id l IH]; intros H; [done |]. simpl. destruct (H id ltac:(set_solver)) as [f Hf]. rewrite Hf. simpl.
    rewrite (Hi _ _ Hf). f_equal. apply IH. set_solver. }
  rewrite H; [done |]. intros id. apply Hd.
Qed.

Lemma newest_first m : StronglySorted (fun a b => FailedAt b <= FailedAt a) (List_ m).
Proof.
  assert (W : StrictWeak newer) by (split; unfold newer, After; intros *; rewrite ?Z.ltb_lt, ?Z.ltb_ge; lia).
  pose proof (SliceStable_sorted newer (omap (fun id => items m !! id) (order m))) as H. unfold List_.
  induction H as [|f l Hl IH Hf]; constructor; [done |]. eapply list.Forall_impl; [exact Hf |]. intros g. unfold may_precede, newer, After. rewrite Z.ltb_ge. lia.
Qed.

(** ** Actions one after another *)

Lemma flush_loop_spec l m : exists m', flush_loop l m = (m', None) /\
  (store_ok m -> store_ok m') /\ forall id, items m' !! id = if decide (id ∈ map f_id l) then None else items m !! id.
Proof.
  revert m. induction l as [|f l IH]; intros m; simpl; [by exists m |]. unfold Forget. destruct (items m !! f_id f) eqn:E.
  - destruct (IH (remove (f_id f) m)) as (m' & -> & Hok & H). exists m'. split; [done |]. split; [intros ?; by apply Hok, store_ok_remove |].
    intros id. rewrite H. simpl. destruct (decide (f_id f = id)) as [<-|Hne].
    + rewrite lookup_delete_eq. rewrite (decide_True (P := f_id f ∈ f_id f :: _)) by set_solver. by case_decide.
    + rewrite lookup_delete_ne by done. apply decide_ext. set_solver.
  - destruct (IH m) as (m' & -> & Hok & H). exists m'. split; [done |]. split; [done |]. intros id. rewrite H. destruct (decide (f_id f = id)) as [<-|Hne].
    + rewrite (decide_True (P := f_id f ∈ f_id f :: _)) by set_solver. by case_decide.
    + apply decide_ext. set_solver.
Qed.

Lemma flush_empties m : store_ok m -> flush_loop (List_ m) m = (NewMemoryFailedJobs, None).
Proof.
  intros Hok. destruct (flush_loop_spec (List_ m) m) as ([it o] & -> & Hok' & H). specialize (Hok' Hok). simpl in H. f_equal.
  assert (it = ∅) as ->.
  { apply map_empty. intros id. rewrite H. case_decide as Hin; [done |]. rewrite List_ids in Hin by done. destruct Hok as (_ & Hd & _).
    apply eq_None_not_Some. by rewrite <- Hd. }
  destruct Hok' as (_ & Hd & _). destruct o as [|x o]; [done |]. destruct (proj1 (Hd x)) as [? Hx]; [set_solver |]. simpl in Hx. by rewrite lookup_empty in Hx.
Qed.

(** ** Actions interleaved *)

(** The id was forgotten, or a job recorded under it was requeued. *)
Definition gone (log : list happened) (id : string) : Prop :=
  Forgotten id ∈ log \/ exists f, Recorded f ∈ log /\ f_id f = id /\ Requeued (f_job f) ∈ log.

Definition actor_ok (log : list happened) (a : actor) : Prop :=
  match a with Idle => True | Requeueing f => Recorded f ∈ log | Removing id => gone log id end.

Definition board_inv (s : store_sys) : Prop :=
  store_ok (st_jobs s) /\ (forall id f, items (st_jobs s) !! id = Some f -> Recorded f ∈ happenings s) /\
  (forall a, a ∈ actors s -> actor_ok (happenings s) a) /\
  (forall f, Recorded f ∈ happenings s -> is_Some (items (st_jobs s) !! f_id f) \/ gone (happenings s) (f_id f)) /\
  (forall j, Requeued j ∈ happenings s -> exists f, Recorded f ∈ happenings s /\ f_job f = j).

Lemma gone_app log out id : gone log id -> gone (log ++ out) id.
Proof. unfold gone. set_solver. Qed.

Lemma actor_ok_app log out a : actor_ok log a -> actor_ok (log ++ out) a.
Proof. destruct a; simpl; [done | set_solver | apply gone_app]. Qed.

(** A step that only adds to the log. *)
Lemma board_inv_log m l l' log out : board_inv (mkStore m l log) ->
  (forall a, a ∈ l' -> a ∈ l \/ actor_ok (log ++ out) a) -> (forall f, Recorded f ∉ out) ->
  (forall j, Requeued j ∈ out -> exists f, Recorded f ∈ log /\ f_job f = j) -> board_inv (mkStore m l' (log ++ out)).
Proof.
  intros (Hok & Hin & Ha & Hr & Hq) Hl Hno Hj. unfold board_inv. simpl in *. split; [done |]. split; [intros id f Hf; set_solver |]. split; [| split].
  - intros a [Ha'|?]%Hl; [by apply actor_ok_app, Ha | done].
  - intros f [Hf|Hf]%elem_of_app; [| by apply Hno in Hf]. destruct (Hr f Hf) as [?|?]; [by left | right; by apply gone_app].
  - intros j [H|H]%elem_of_app; [destruct (Hq j H) as (f & ? & ?) | destruct (Hj j H) as (f & ? & ?)]; exists f; set_solver.
Qed.

Lemma board_inv_remove m l l' log id : board_inv (mkStore m l log) -> (forall a, a ∈ l' -> a ∈ l \/ a = Idle) -> gone log id ->
  board_inv (mkStore (remove id m) l' log).
Proof.
  intros (Hok & Hin & Ha & Hr & Hq) Hl Hg. unfold board_inv. simpl in *. split; [by apply store_ok_remove |]. split; [| split; [| split]].
  - intros x f. rewrite lookup_delete_Some. intros [_ ?]. by apply (Hin x).
  - intros a [?| ->]%Hl; [by apply Ha | done].
  - intros f Hf. destruct (decide (id = f_id f)) as [->|Hne]; [by right |]. rewrite lookup_delete_ne by done. by apply Hr.
  - done.
Qed.

Lemma board_inv_record f m l log : board_inv (mkStore m l log) -> board_inv (mkStore (add f m) l (log ++ [Recorded f])).
Proof.
  intros (Hok & Hin & Ha & Hr & Hq). unfold board_inv. simpl in *. split; [by apply store_ok_add |]. split; [| split; [| split]].
  - intros id g. destruct (decide (f_id f = id)) as [<-|Hne]; [rewrite lookup_insert_eq; intros [= ->]; set_solver |].
    rewrite lookup_insert_ne by done. intros H%Hin. set_solver.
  - intros a H. by apply actor_ok_app, Ha.
  - intros g Hg. destruct (decide (f_id f = f_id g)) as [<-|Hne]; [left; by rewrite lookup_insert_eq |]. rewrite lookup_insert_ne by done.
    assert (Hg' : Recorded g ∈ log) by set_solver. destruct (Hr g Hg') as [?|?]; [by left | right; by apply gone_app].
  - intros j Hj. destruct (Hq j ltac:(set_solver)) as (g & ? & ?). exists g. set_solver.
Qed.

Lemma board_step_inv s s' : board_inv s -> board_step s s' -> board_inv s'.
Proof.
  intros Hinv Hstep. destruct Hstep as [f m l log|m m' l1 l2 a a' log out Ha]; [by apply board_inv_record |].
  pose proof Hinv as (_ & Hin & Hact & _). simpl in Hin, Hact.
  assert (Hme : actor_ok log a) by (apply Hact; set_solver).
  destruct Ha as [id f Hf|f|f|id f Hf|id]; simpl in Hme.
  - apply (board_inv_log _ (l1 ++ Idle :: l2)); [done | | set_solver | set_solver]. intros a. rewrite app_nil_r. apply Hin in Hf. rewrite !elem_of_app, !elem_of_cons. naive_solver.
  - apply (board_inv_log _ (l1 ++ Requeueing f :: l2)); [done | | set_solver |].
    + intros a. rewrite !elem_of_app, !elem_of_cons. intros [?|[->|?]]; [auto | right; right; exists f; set_solver | auto].
    + intros j Hj. exists f. set_solver.
  - apply (board_inv_log _ (l1 ++ Requeueing f :: l2)); [done | | set_solver | set_solver]. intros a. rewrite !elem_of_app, !elem_of_cons. naive_solver.
  - apply (board_inv_log _ (l1 ++ Idle :: l2)); [done | | set_solver | set_solver]. intros a. rewrite !elem_of_app, !elem_of_cons.
    intros [?|[->|?]]; [auto | right; left; set_solver | auto].
  - rewrite app_nil_r. apply (board_inv_remove _ (l1 ++ Removing id :: l2)); [done | | done]. intros a. set_solver.
Qed.


(** A job that fails, is requeued by a retry, and fails again before the retry
    removes the record. *)
Definition sample_job : Job := mkJob "job-1" "mail" "" 3 0.
Definition first_failure : FailedJob := mkFailed "job-1" "default" sample_job "timeout" 100.
Definition second_failure : FailedJob := mkFailed "job-1" "default" sample_job "refused" 200.

Definition recorded_once (l : list actor) (log : list happened) : store_sys := mkStore (add first_failure NewMemoryFailedJobs) l (Recorded first_failure :: log).

Lemma retry_steps : rtc board_step (board_init 1) (recorded_once [Removing "job-1"] [Requeued sample_job]).
Proof.
  eapply rtc_l; [apply (bs_record first_failure) |]. eapply rtc_l; [eapply (bs_actor _ _ [] []); apply (as_retry (add first_failure NewMemoryFailedJobs) "job-1"); reflexivity |].
  eapply rtc_l; [eapply (bs_actor _ _ [] []); apply (as_requeued _ first_failure) |]. apply rtc_refl.
Qed.


(** The removal drops the record of the second failure: the job is in no queue and in
    no list. *)
Example second_failure_lost : rtc board_step (board_init 1)
  (mkStore NewMemoryFailedJobs [Idle] [Recorded first_failure; Requeued sample_job; Recorded second_failure]).
Proof.
  etrans; [apply retry_steps |]. eapply rtc_l; [apply (bs_record second_failure) |].
  eapply rtc_l; [eapply (bs_actor _ _ [] []); apply (as_remove _ "job-1") |]. apply rtc_refl.
Qed.

(** Two retries of one record both find it: the job is requeued twice. *)
Example retried_twice : rtc board_step (board_init 2)
  (recorded_once [Removing "job-1"; Removing "job-1"] [Requeued sample_job; Requeued sample_job]).
Proof.
  eapply rtc_l; [apply (bs_record first_failure) |].
  eapply rtc_l; [eapply (bs_actor _ _ [] [Idle]); apply (as_retry (add first_failure NewMemoryFailedJobs) "job-1"); reflexivity |].
  eapply rtc_l; [eapply (bs_actor _ _ [Requeueing first_failure] []); apply (as_retry (add first_failure NewMemoryFailedJobs) "job-1"); reflexivity |].
  eapply rtc_l; [eapply (bs_actor _ _ [] [Requeueing first_failure]); apply (as_requeued _ first_failure) |].
  eapply rtc_l; [eapply (bs_actor _ _ [Removing "job-1"] []); apply (as_requeued _ first_failure) |]. apply rtc_refl.
Qed.

(** Records of one instant are listed oldest first. *)
Example same_instant_oldest_first :
  map f_id (List_ (add (mkFailed "b" "default" sample_job "" 7) (add (mkFailed "a" "default" sample_job "" 7) NewMemoryFailedJobs))) = ["a"; "b"]%string.
Proof. vm_compute. reflexivity. Qed.

(** ** Pages *)

Lemma go_slice_some {A} (l : list A) lo hi : 0 <= lo <= hi -> hi <= Z.of_nat (length l) ->
  go_slice l lo hi = Some (take (Z.to_nat (hi - lo)) (drop (Z.to_nat lo) l)).
Proof.
  intros. unfold go_slice. destruct (Z.ltb_spec lo 0), (Z.ltb_spec hi lo), (Z.ltb_spec (Z.of_nat (length l)) hi); try lia. done.
Qed.

(** A page whose start does not overflow is its fifty rows. *)
Lemma paginate_exact rows page : 1 <= page -> page * PageSize <= max_i64 -> Z.of_nat (length rows) <= max_i64 ->
  paginate rows page = Some (take 50 (drop (Z.to_nat ((page - 1) * PageSize)) rows)).
Proof.
  unfold paginate, PageSize. intros H1 Hmax Hlen. destruct (Z.ltb_spec page 1); [lia |].
  rewrite (i64_small ((page - 1) * 50)) by (unfold min_i64; lia).
  destruct (Z.leb_spec (Z.of_nat (length rows)) ((page - 1) * 50)).
  - rewrite drop_ge by lia. by rewrite take_nil.
  - rewrite (i64_small ((page - 1) * 50 + 50)) by (unfold min_i64; lia).
    destruct (Z.ltb_spec (Z.of_nat (length rows)) ((page - 1) * 50 + 50)); rewrite go_slice_some by lia; f_equal.
    + rewrite !take_ge; [done | rewrite length_drop; lia ..].
    + f_equal. lia.
Qed.

(** The first [n] pages, one after another, are the first [50 * n] rows. *)
Lemma pages_take rows n : Z.of_nat n * PageSize <= max_i64 -> Z.of_nat (length rows) <= max_i64 ->
  mapM (paginate rows) (map (fun i => Z.of_nat (S i)) (seq 0 n)) = Some (map (fun i => take 50 (drop (i * 50) rows)) (seq 0 n)).
Proof.
  intros Hn Hlen. assert (Hb : forall i, i ∈ seq 0 n -> (i < n)%nat) by (intros i Hi%elem_of_seq; lia).
  induction (seq 0 n) as [|i l IH]; [done |]. simpl. rewrite paginate_exact by (unfold PageSize in *; specialize (Hb i); set_unfold; lia).
  simpl. rewrite IH by set_solver. simpl. do 4 f_equal. unfold PageSize. lia.
Qed.

Lemma pages_concat {A} (l : list A) n : concat (map (fun i => take 50 (drop (i * 50) l)) (seq 0 n)) = take (n * 50) l.
Proof.
  induction n as [|n IH]; [done |]. rewrite seq_S, map_app, concat_app, IH. cbn [map concat Nat.add]. rewrite app_nil_r, take_take_drop. f_equal. lia.
Qed.

(** The pages of the failed list, from the first to any that reaches the end of
    the store, show every record exactly once, in the order of the list. *)
Theorem pages_show_all W (b : board W) m n : b_failed b = Some m -> store_ok m -> (length (order m) <= n * 50)%nat ->
  Z.of_nat n * PageSize <= max_i64 ->
  exists pages, mapM (fun page => mem_Failed page b) (map (fun i => Z.of_nat (S i)) (seq 0 n)) = Some pages /\
    concat pages = jobViewsFromFailed (List_ m) /\ map v_id (concat pages) ≡ₚ order m.
Proof.
  intros Hb Hok Hlen Hmax. unfold mem_Failed. rewrite Hb. set (rows := jobViewsFromFailed (List_ m)).
  assert (Hids : map v_id rows = map f_id (List_ m)) by (unfold rows, jobViewsFromFailed; by rewrite map_map).
  assert (Hrows : length rows = length (order m)).
  { rewrite <- (List_ids m Hok), <- Hids. by rewrite length_map. }
  eexists. split; [apply (pages_take rows n Hmax); unfold PageSize in *; lia |].
  rewrite pages_concat, take_ge by lia. split; [done |]. rewrite Hids. by apply List_ids.
Qed.

Lemma pages_show_all_witness :
  let b := mkBoard None (Some (add first_failure NewMemoryFailedJobs)) false tt in
  exists pages, mapM (fun page => mem_Failed page b) [1; 2] = Some pages /\ map v_id (concat pages) ≡ₚ ["job-1"%string].
Proof.
  assert (Hok : store_ok (add first_failure NewMemoryFailedJobs)) by apply store_ok_add, store_ok_new.
  destruct (pages_show_all _ (mkBoard None (Some (add first_failure NewMemoryFailedJobs)) false tt) _ 2 eq_refl Hok) as (pages & H & _ & Hp);
    [vm_compute; lia | by vm_compute | by exists pages].
Defined.

(** The start of a huge page wraps to a negative index. *)
Example huge_page_panics : mem_Failed 184467440737095518 (mkBoard None (Some NewMemoryFailedJobs) false tt) = None.
Proof. vm_compute. reflexivity. Qed.

(** ** The handlers *)

(** A POST whose body echoes a cookie that is not empty. *)
Definition authorised (r : Request) : Prop :=
  r_method r = "POST"%string /\ r_parses r = true /\ exists v, r_cookie r = Some v /\ v <> ""%string /\ r_post r "csrf" = v.

Lemma guardPost_spec r : guardPost r = None <-> authorised r.
Proof.
  unfold guardPost, authorised, validToken. destruct (String.eqb_spec (r_method r) "POST"); [| naive_solver].
  destruct (r_parses r); [| naive_solver]. destruct (r_cookie r) as [v|]; [| naive_solver]. simpl.
  destruct (String.eqb_spec v ""), (String.eqb_spec (r_post r "csrf") ""), (String.eqb_spec v (r_post r "csrf")); simpl; naive_solver.
Qed.

Lemma action_path_inv path id act : HasPrefix path "/queues/failed/" = true -> action_path path = Some (id, act) ->
  path = ("/queues/failed/" +:+ id +:+ String "/" act)%string /\ id <> ""%string /\ has_byte "/" id = false.
Proof.
  intros Hp. unfold action_path. pose proof (HasPrefix_split _ _ Hp) as E. rewrite E at 1. rewrite TrimPrefix_app.
  set (s := skip_bytes _ _) in *. destruct (cut_at "/" s) as [[a b]|] eqn:Ec; [| done].
  destruct (String.eqb_spec a ""); [done |]. destruct (String.eqb_spec b ""); [done |]. intros [= <- <-].
  apply cut_at_inv in Ec as [-> ?]. done.
Qed.

Section Serve.
Context {T : Type} (insp : Inspector T).

(** What a request may do to the state behind an inspector. *)
Definition acts (r : Request) (t t' : T) : Prop :=
  (r_path r = "/queues/failed/flush"%string /\ t' = (i_FlushFailed insp t).1) \/
  exists id, id <> ""%string /\ has_byte "/" id = false /\
    ((r_path r = ("/queues/failed/" +:+ id +:+ "/retry")%string /\ t' = (i_Retry insp id t).1) \/
     (r_path r = ("/queues/failed/" +:+ id +:+ "/forget")%string /\ t' = (i_Forget insp id t).1)).

(** C33: No request changes the state behind the dashboard, whatever inspector it
    shows, unless it is a POST to one of the three action paths whose form echoes the
    CSRF cookie; and then the change is that one call of the inspector, on the id in
    the path. *)
Theorem serve_acts now1 now2 fresh r t t' rep :
  serve insp now1 now2 fresh r t = Some (t', rep) -> t' = t \/ (authorised r /\ acts r t t').
Proof.
  unfold serve. destruct (String.eqb_spec (r_path r) "/queues/failed").
  { unfold handleFailed. destruct (i_Failed _ _ _) as [[rows|err]|]; [destruct (issueToken fresh r) | |]; naive_solver. }
  destruct (String.eqb_spec (r_path r) "/queues/failed/flush").
  { unfold handleFlush. destruct (guardPost r) eqn:Hg; [naive_solver |]. apply guardPost_spec in Hg.
    unfold acts. destruct (i_FlushFailed insp t); naive_solver. }
  destruct (String.eqb_spec (r_path r) "/queues/api/stats"); [unfold handleAPIStats; naive_solver |].
  destruct (HasPrefix (r_path r) "/queues/failed/") eqn:Hp.
  - unfold handleFailedAction. destruct (action_path (r_path r)) as [[id act]|] eqn:Ea; [| naive_solver].
    apply action_path_inv in Ea as (Epath & Hid & Hslash); [| done]. destruct (guardPost r) eqn:Hg; [naive_solver |]. apply guardPost_spec in Hg.
    unfold acts. destruct (String.eqb_spec act "retry") as [->|]; [destruct (i_Retry insp id t) eqn:Er; intros [= <- <-]; right; split; [done |]; right; exists id; rewrite Er; auto |].
    destruct (String.eqb_spec act "forget") as [->|]; [| naive_solver].
    destruct (i_Forget insp id t) eqn:Er; intros [= <- <-]; right; split; [done |]; right; exists id; rewrite Er; auto.
  - destruct (HasPrefix (r_path r) "/queues/"); [| naive_solver]. unfold handleOverview.
    destruct (String.eqb (r_path r) "/queues/"); simpl; [| naive_solver]. destruct (issueToken fresh r). destruct (i_Stats _ _ _ _); naive_solver.
Qed.
End Serve.

Definition flush_request (cookie echo : string) : Request :=
  mkRequest "POST" "/queues/failed/flush" true (Some cookie) (fun k => if String.eqb k "csrf" then echo else "")%string "".

Definition sample_board : board unit := mkBoard None (Some (add first_failure NewMemoryFailedJobs)) false tt.

Lemma serve_acts_witness :
  let r := flush_request "token" "token" in let t' := mkBoard None (Some NewMemoryFailedJobs) false tt in
  authorised r /\ acts (NewInspector None) r sample_board t' /\ t' <> sample_board.
Proof.
  assert (Hs : serve (NewInspector None) 0 0 "new" (flush_request "token" "token") sample_board
    = Some (mkBoard None (Some NewMemoryFailedJobs) false tt, plain (Redirect "../failed"))) by reflexivity.
  destruct (serve_acts (NewInspector None) _ _ _ _ _ _ _ Hs) as [H|[H1 H2]]; [discriminate H |]. done.
Defined.

(** A request without the cookie, or whose form differs from it, is refused. *)
Example forged_flush : serve (NewInspector None) 0 0 "new" (flush_request "token" "guess") sample_board
  = Some (sample_board, plain (HttpError 403 "csrf token mismatch" false)).
Proof. reflexivity. Qed.

(** A flush empties the list. *)
Lemma flush_then_empty {W} (requeue : option (Job -> W -> W * option action_error)) (b : board W) m r now1 now2 fresh :
  b_failed b = Some m -> store_ok m -> authorised r -> r_path r = "/queues/failed/flush"%string ->
  serve (NewInspector requeue) now1 now2 fresh r b = Some (with_failed NewMemoryFailedJobs b, plain (Redirect "../failed")).
Proof.
  intros Hb Hok Hg Hp. unfold serve, handleFlush. rewrite Hp, (proj2 (guardPost_spec r) Hg). simpl. unfold mem_FlushFailed.
  by rewrite Hb, flush_empties.
Qed.

(** The actions of [Dashboard] are guarded alike. *)
Lemma dash_serve_acts {T} (d : Dashboard T) now1 now2 fresh r t t' rep :
  dash_serve d now1 now2 fresh r t = (t', rep) -> t' = t \/
  (authorised r /\ r_post r "id" <> ""%string /\ exists f, d_failed d = Some f /\
    ((r_path r = "/failed/retry"%string /\ t' = (fj_Retry f (r_post r "id") t).1) \/
     (r_path r = "/failed/forget"%string /\ t' = (fj_Forget f (r_post r "id") t).1))).
Proof.
  assert (Hact : forall fn, action d fn r t = (t', rep) -> t' = t \/ (authorised r /\ r_post r "id" <> ""%string /\
    exists f, d_failed d = Some f /\ t' = (fn f (r_post r "id") t).1)).
  { intros fn. unfold action. destruct (guardPost r) eqn:Hg; [naive_solver |]. apply guardPost_spec in Hg.
    destruct (d_failed d) as [f|]; [| naive_solver]. destruct (String.eqb_spec (r_post r "id") ""); [naive_solver |].
    destruct (fn f (r_post r "id") t) eqn:Ef. intros [= <- <-]. right. split; [done |]. split; [done |]. exists f. by rewrite Ef. }
  unfold dash_serve. destruct (String.eqb (r_path r) "/failed").
  { unfold dash_handleFailed. destruct (issueToken fresh r). naive_solver. }
  destruct (String.eqb_spec (r_path r) "/failed/retry"); [intros [?|(? & ? & f & ? & ?)]%Hact; [auto | right]; eauto 10 |].
  destruct (String.eqb_spec (r_path r) "/failed/forget"); [intros [?|(? & ? & f & ? & ?)]%Hact; [auto | right]; eauto 10 |].
  destruct (String.eqb (r_path r) "/api/stats"); [unfold dash_handleAPIStats; naive_solver |].
  destruct (String.eqb (r_path r) "/api/failed"); [unfold handleAPIFailed; naive_solver |].
  unfold dash_handleOverview. destruct (String.eqb (r_path r) "/"); simpl; [destruct (issueToken fresh r) |]; naive_solver.
Qed.
