(* ===== verification/Seeder.v ===== *)
(** Database seeders: [src/seeder/seeder.go].

    [Registry.Sorted] is a depth-first topological sort whose [visit] calls itself
    on the dependencies in the order of their names; [visit] takes fuel, and
    [visit_terminates] says that the number of seeders is enough.  A seeder's [Run]
    changes a world [W] (the database), and the transaction of the connection is an
    argument. *)

From Stdlib Require Import ZArith Lia.
From stdpp Require Import base gmap strings list relations numbers.
From S2P Require Import Prelude GoSort.

#[local] Set Warnings "-register-all".
#[local] Open Scope list_scope.

Section Seeders.
Context {W E : Type}.

(** [s_deps] is [None] for a seeder that is not a [Dependent]. *)
Record Seeder := mkSeeder { Name : string; s_deps : option (list string); s_Run : W -> W * option E }.

Record Registry := mkRegistry { seeders : gmap string Seeder; order : list string }.

Definition NewRegistry : Registry := mkRegistry ∅ [].

(** [None]: the registration of nil, of an empty name or of a name twice panics. *)
Definition Register (s : option Seeder) (r : Registry) : option Registry :=
  match s with
  | None => None
  | Some s =>
      if String.eqb (Name s) "" then None
      else match seeders r !! Name s with
           | Some _ => None
           | None => Some (mkRegistry (<[Name s := s]> (seeders r)) (order r ++ [Name s]))
           end
  end.

Definition Get (name : string) (r : Registry) : option Seeder := seeders r !! name.
Definition Names (r : Registry) : list string := order r.

(** ** The order of the seeders *)

Inductive mark := Visiting | Done.
Inductive sort_error := UnknownDependency (name : string) | DependencyCycle (name : string).

(** The closure's variables [visited] and [out]. *)
Record walk := mkWalk { visited : gmap string mark; out : list Seeder }.

Definition set_mark (name : string) (m : mark) (w : walk) : walk := mkWalk (<[name := m]> (visited w)) (out w).

Definition deps_of (s : Seeder) : list string := default [] (s_deps s).

(** The loop over the dependencies, for the function that visits one. *)
Fixpoint visit_all (visit : string -> walk -> option (result sort_error walk)) (names : list string) (w : walk) : option (result sort_error walk) :=
  match names with
  | [] => Some (Ok w)
  | d :: names =>
      match visit d w with
      | Some (Ok w) => visit_all visit names w
      | r => r
      end
  end.

Fixpoint visit (nodes : gmap string Seeder) (fuel : nat) (name : string) (w : walk) : option (result sort_error walk) :=
  match fuel with
  | O => None
  | S fuel =>
      match nodes !! name with
      | None => Some (Err (UnknownDependency name))
      | Some s =>
          match visited w !! name with
          | Some Visiting => Some (Err (DependencyCycle name))
          | Some Done => Some (Ok w)
          | None =>
              match visit_all (visit nodes fuel) (SliceStable String.ltb (deps_of s)) (set_mark name Visiting w) with
              | Some (Ok w) => Some (Ok (mkWalk (<[name := Done]> (visited w)) (out w ++ [s])))
              | r => r
              end
          end
      end
  end.

Definition fuel_of (nodes : gmap string Seeder) : nat := S (size nodes).

Definition Sorted (r : Registry) : option (result sort_error (list Seeder)) :=
  match visit_all (visit (seeders r) (fuel_of (seeders r))) (order r) (mkWalk ∅ []) with
  | Some (Ok w) => Some (Ok (out w))
  | Some (Err e) => Some (Err e)
  | None => None
  end.

(** ** Runs *)

Record Options := mkOptions { Transactional : bool; Only : list string }.

Inductive run_error := SortError (e : sort_error) | SeederError (name : string) (e : E).

(** [Conn.Transaction]: it runs its function and commits or rolls back. *)
Context (Transaction : (W -> W * option E) -> W -> W * option E).

(** The function given to the transaction runs the seeder on the connection, not on
    the transaction it is handed. *)
Definition runOne (o : Options) (s : Seeder) (w : W) : W * option E :=
  if negb (Transactional o) then s_Run s w else Transaction (s_Run s) w.

Fixpoint run_all (o : Options) (l : list Seeder) (w : W) : W * option run_error :=
  match l with
  | [] => (w, None)
  | s :: l =>
      match runOne o s w with
      | (w, Some e) => (w, Some (SeederError (Name s) e))
      | (w, None) => run_all o l w
      end
  end.

Definition selected (o : Options) (l : list Seeder) : list Seeder :=
  match Only o with [] => l | only => List.filter (fun s => bool_decide (Name s ∈ only)) l end.

(** [None]: the sort has no fuel left ([Sorted_total]: it always has). *)
Definition Run (o : Options) (r : Registry) (w : W) : option (W * option run_error) :=
  match Sorted r with
  | None => None
  | Some (Err e) => Some (w, Some (SortError e))
  | Some (Ok l) => Some (run_all o (selected o l) w)
  end.

(** [FuncSeeder] and [Define]; [nil_run] is the error of a nil function. *)
Definition Define (nil_run : E) (name : string) (deps : list string) (fn : option (W -> W * option E)) : Seeder :=
  mkSeeder name (Some deps) (match fn with None => fun w => (w, Some nil_run) | Some fn => fn end).

Fixpoint Call (l : list Seeder) (w : W) : W * option (string * E) :=
  match l with
  | [] => (w, None)
  | s :: l => match s_Run s w with (w, Some e) => (w, Some (Name s, e)) | (w, None) => Call l w end
  end.

(** ** Registrations *)

Definition registry_ok (r : Registry) : Prop :=
  NoDup (order r) /\ (forall n, n ∈ order r <-> is_Some (seeders r !! n)) /\ (forall n s, seeders r !! n = Some s -> Name s = n).

Lemma NewRegistry_ok : registry_ok NewRegistry.
Proof.
  split; [constructor |]. split; simpl; [intros n | intros n s]; rewrite lookup_empty; [| done]. split; [set_solver | by intros [??]].
Qed.

Lemma Register_ok s r r' : registry_ok r -> Register s r = Some r' -> registry_ok r'.
Proof.
  intros (Hn & Hd & Hi). unfold Register. destruct s as [s|]; [| done]. destruct (String.eqb_spec (Name s) ""); [done |].
  destruct (seeders r !! Name s) eqn:Ef; [done |]. intros [= <-]. split; [| split]; simpl.
  - apply list.NoDup_app. split; [done |]. split; [| apply NoDup_singleton]. intros x Hx ->%list_elem_of_singleton.
    apply Hd in Hx as [? ?]. congruence.
  - intros n'. rewrite elem_of_app, Hd, list_elem_of_singleton. destruct (decide (Name s = n')) as [<-|Hne].
    + rewrite lookup_insert_eq. naive_solver.
    + rewrite lookup_insert_ne by done. naive_solver.
  - intros n' s'. destruct (decide (Name s = n')) as [<-|Hne]; [rewrite lookup_insert_eq; congruence | rewrite lookup_insert_ne by done; apply Hi].
Qed.

(** ** Termination *)

Definition unseen (nodes : gmap string Seeder) (w : walk) : nat := size (filter (fun kv => visited w !! kv.1 = None) nodes).

Lemma unseen_mark nodes name s w : nodes !! name = Some s -> visited w !! name = None ->
  forall m v, (forall n, visited v !! n = None -> visited (set_mark name m w) !! n = None) -> (unseen nodes v < unseen nodes w)%nat.
Proof.
  intros Hs Hv m v Hle. unfold unseen. apply map_subset_size. apply map_subset_alt. split.
  - apply map_subseteq_spec. intros k x [Hk Hx]%map_lookup_filter_Some. simpl in Hx. apply Hle in Hx. apply map_lookup_filter_Some. split; [done |].
    simpl in *. destruct (decide (name = k)) as [->|Hne]; [by rewrite lookup_insert_eq in Hx | by rewrite lookup_insert_ne in Hx].
  - exists name. split; [apply map_lookup_filter_None; right; intros x _; simpl; intros Hx%Hle; simpl in Hx; by rewrite lookup_insert_eq in Hx |].
    apply (mk_is_Some _ s), map_lookup_filter_Some. by split.
Qed.

(** Names that were marked stay marked. *)
Definition grows (w w' : walk) : Prop := forall n, visited w' !! n = None -> visited w !! n = None.

Lemma visit_all_total visit names w :
  (forall d v, grows w v -> exists r, visit d v = Some r /\ forall v', r = Ok v' -> grows v v') ->
  exists r, visit_all visit names w = Some r /\ forall w', r = Ok w' -> grows w w'.
Proof.
  intros H. assert (Hg : forall v, grows w v -> exists r, visit_all visit names v = Some r /\ forall w', r = Ok w' -> grows w w').
  { induction names as [|d names IH]; intros v Hv; simpl; [eexists; split; [done |]; by intros ? [= <-] |].
    destruct (H d v Hv) as ([v'|e] & -> & Hv'); [| by eexists].
    destruct (IH v') as (r & Hr & Hw); [intros n Hn; by apply Hv, (Hv' v') | eauto]. }
  apply Hg. by intros n.
Qed.

Lemma visit_total nodes fuel name w : (unseen nodes w < fuel)%nat ->
  exists r, visit nodes fuel name w = Some r /\ forall w', r = Ok w' -> grows w w'.
Proof.
  revert name w. induction fuel as [|fuel IH]; intros name w Hf; [lia |]. simpl.
  destruct (nodes !! name) as [s|] eqn:Hs; [| by eexists]. destruct (visited w !! name) as [[|]|] eqn:Hv; [by eexists | |].
  { eexists. split; [done |]. intros ? [= <-]. by intros n. }
  destruct (visit_all_total (visit nodes fuel) (SliceStable String.ltb (deps_of s)) (set_mark name Visiting w)) as (r & Hr & Hg).
  { intros d v Hgv. apply IH. pose proof (unseen_mark nodes name s w Hs Hv Visiting v Hgv). lia. }
  rewrite Hr. destruct r as [w'|e]; [| by eexists]. eexists. split; [done |]. intros ? [= <-] n. simpl.
  destruct (decide (name = n)) as [<-|Hne]; [by rewrite lookup_insert_eq |]. rewrite lookup_insert_ne by done.
  intros Hn. specialize (Hg w' eq_refl n Hn). simpl in Hg. by rewrite lookup_insert_ne in Hg.
Qed.

Lemma Sorted_total r : exists x, Sorted r = Some x.
Proof.
  unfold Sorted. destruct (visit_all_total (visit (seeders r) (fuel_of (seeders r))) (order r) (mkWalk ∅ [])) as (x & -> & _).
  - intros d v _. apply visit_total. unfold fuel_of, unseen. pose proof (map_filter_subseteq (fun kv => visited v !! kv.1 = None) (seeders r)) as Hle%map_subseteq_size. lia.
  - destruct x; eauto.
Qed.

(** ** What the sort returns *)

Section Sort.
Context (nodes : gmap string Seeder) (keys : forall n s, nodes !! n = Some s -> Name s = n).

(** [a] depends on [b]. *)
Definition depends (a b : string) : Prop := exists s, nodes !! a = Some s /\ b ∈ deps_of s.

(** Every seeder after the seeders it depends on. *)
Definition ordered (l : list Seeder) : Prop := forall l1 s l2, l = l1 ++ s :: l2 -> forall d, d ∈ deps_of s -> d ∈ map Name l1.

Record walk_ok (w : walk) : Prop := {
  walk_done n : n ∈ map Name (out w) <-> visited w !! n = Some Done;
  walk_once : NoDup (map Name (out w));
  walk_ordered : ordered (out w);
  walk_nodes s : s ∈ out w -> nodes !! Name s = Some s }.

(** What a call may have done to the walk. *)
Definition extends (w w' : walk) : Prop :=
  (forall v, visited w' !! v = Some Visiting <-> visited w !! v = Some Visiting) /\
  (forall v, visited w !! v = Some Done -> visited w' !! v = Some Done).

Lemma walk_extends_refl w : extends w w.
Proof. done. Qed.

Lemma walk_extends_trans w1 w2 w3 : extends w1 w2 -> extends w2 w3 -> extends w1 w3.
Proof. intros [H1 H2] [H3 H4]. split; [intros v; by rewrite H3 | auto]. Qed.

(** The visiting seeders lead to [names]. *)
Definition leads_to (w : walk) (names : list string) : Prop :=
  forall v d, visited w !! v = Some Visiting -> d ∈ names -> tc depends v d.

Definition result_ok (names : list string) (w : walk) (r : result sort_error walk) : Prop :=
  match r with
  | Ok w' => walk_ok w' /\ extends w w' /\ forall d, d ∈ names -> visited w' !! d = Some Done
  | Err (DependencyCycle n) => tc depends n n
  | Err (UnknownDependency n) => nodes !! n = None /\ exists d, d ∈ names /\ rtc depends d n
  end.

Lemma leads_to_extends w w' names : extends w w' -> leads_to w names -> leads_to w' names.
Proof. intros [H _] Hl v d Hv. apply Hl. by apply H. Qed.

Lemma visit_all_ok visit names w r :
  (forall d v r, walk_ok v -> leads_to v [d] -> visit d v = Some r -> result_ok [d] v r) ->
  walk_ok w -> leads_to w names -> visit_all visit names w = Some r -> result_ok names w r.
Proof.
  intros Hvisit. revert w r. induction names as [|d names IH]; intros w r Hw Hl; simpl.
  { intros [= <-]. split; [done |]. split; [apply walk_extends_refl | set_solver]. }
  destruct (visit d w) as [x|] eqn:Hx; [| done].
  assert (Hd : result_ok [d] w x) by (apply (Hvisit d w); [done | intros v d' Hv ->%list_elem_of_singleton; apply Hl; [done | set_solver] | done]).
  destruct x as [w'|[n|n]]; [| intros [= <-]; simpl in *; set_solver | by intros [= <-]].
  destruct Hd as (Hw' & He & Hdone). intros Hr.
  assert (Hrest : result_ok names w' r).
  { apply IH; [done | | done]. apply (leads_to_extends w); [done |]. intros v d' Hv Hd'. apply Hl; [done | set_solver]. }
  destruct r as [w2|[n|n]]; simpl in *; [| set_solver | done]. destruct Hrest as (? & He2 & Hd2). split; [done |]. split; [by eapply walk_extends_trans |].
  intros d' [->|Hd']%elem_of_cons; [apply He2, Hdone; set_solver | auto].
Qed.

Lemma finish_visit_ok name s w1 : nodes !! name = Some s -> walk_ok w1 -> visited w1 !! name = Some Visiting ->
  (forall d, d ∈ deps_of s -> visited w1 !! d = Some Done) -> walk_ok (mkWalk (<[name := Done]> (visited w1)) (out w1 ++ [s])).
Proof.
  intros Hs Hw Hv Hdeps. pose proof (keys _ _ Hs) as Hname.
  assert (Hnew : name ∉ map Name (out w1)) by (rewrite walk_done by done; congruence).
  split; simpl.
  - intros n. rewrite map_app, elem_of_app, walk_done by done. simpl. rewrite list_elem_of_singleton, Hname.
    destruct (decide (name = n)) as [<-|Hne]; [rewrite lookup_insert_eq; naive_solver | rewrite lookup_insert_ne by done; naive_solver].
  - rewrite map_app. apply list.NoDup_app. split; [by apply walk_once |]. split; [| apply NoDup_singleton]. simpl. rewrite Hname.
    intros x Hx ->%list_elem_of_singleton. done.
  - intros l1 s' l2 Heq d Hd. destruct l2 as [|x l2] using rev_ind.
    + apply app_inj_tail in Heq as [<- <-]. rewrite walk_done by done. auto.
    + rewrite app_comm_cons, app_assoc in Heq. apply app_inj_tail in Heq as [Heq _]. exact (walk_ordered _ Hw _ _ _ Heq d Hd).
  - intros s' [H| ->%list_elem_of_singleton]%elem_of_app; [by apply (walk_nodes w1) | by rewrite Hname].
Qed.

Lemma visit_ok fuel name w r : walk_ok w -> leads_to w [name] -> visit nodes fuel name w = Some r -> result_ok [name] w r.
Proof.
  revert name w r. induction fuel as [|fuel IH]; intros name w r Hw Hl; [done |]. simpl.
  destruct (nodes !! name) as [s|] eqn:Hs; [| intros [= <-]; split; [done |]; exists name; split; [set_solver | apply rtc_refl]].
  destruct (visited w !! name) as [[|]|] eqn:Hv; [intros [= <-]; apply (Hl name name); [done | set_solver] | |].
  { intros [= <-]. split; [done |]. split; [apply walk_extends_refl |]. by intros d ->%list_elem_of_singleton. }
  destruct (visit_all _ _ _) as [x|] eqn:Hx; [| done].
  assert (Hdeps : forall d, d ∈ SliceStable String.ltb (deps_of s) <-> d ∈ deps_of s) by (intros d; by rewrite SliceStable_perm).
  assert (Hall : result_ok (SliceStable String.ltb (deps_of s)) (set_mark name Visiting w) x).
  { apply (visit_all_ok (visit nodes fuel)); [intros; by apply IH | | | done].
    - destruct Hw as [Hd Ho Hr Hm]. split; simpl; try done. intros n. rewrite Hd. destruct (decide (name = n)) as [<-|Hne];
        [rewrite lookup_insert_eq, Hv; naive_solver | by rewrite lookup_insert_ne].
    - intros v d. simpl. rewrite Hdeps. intros Hvis Hd. assert (Hed : depends name d) by (by exists s).
      destruct (decide (name = v)) as [<-|Hne]; [by apply tc_once |]. rewrite lookup_insert_ne in Hvis by done.
      eapply tc_r; [apply (Hl v name); [done | set_solver] | done]. }
  destruct x as [w1|[n|n]]; intros [= <-]; [| destruct Hall as (? & d & Hd & Hp); split; [done |]; exists name; split; [set_solver |] | exact Hall].
  2: { eapply rtc_l; [| exact Hp]. exists s. split; [done |]. by apply Hdeps. }
  destruct Hall as (Hw1 & [He1 He2] & Hd1). simpl in He1, He2. split; [| split; [split; simpl |]]; simpl.
  - apply finish_visit_ok; [done | done | apply He1; apply lookup_insert_eq | intros d Hd; by apply Hd1, Hdeps].
  - intros v. destruct (decide (name = v)) as [<-|Hne]; [rewrite lookup_insert_eq, Hv; done |].
    rewrite lookup_insert_ne by done. rewrite He1. by rewrite lookup_insert_ne.
  - intros v Hdone. destruct (decide (name = v)) as [<-|Hne]; [apply lookup_insert_eq |]. rewrite lookup_insert_ne by done.
    apply He2. by rewrite lookup_insert_ne.
  - intros d ->%list_elem_of_singleton. apply lookup_insert_eq.
Qed.

(** What an ordered list places before a seeder: all it depends on, however far. *)
Lemma ordered_before l a b : ordered l -> (forall s, s ∈ l -> nodes !! Name s = Some s) -> tc depends a b ->
  forall l1 s l2, l = l1 ++ s :: l2 -> Name s = a -> b ∈ map Name l1.
Proof.
  intros Ho Hm Hab. induction Hab as [a b (s0 & Hs0 & Hb)|a c b (s0 & Hs0 & Hc) _ IH]; intros l1 s l2 Heq <-;
    assert (s0 = s) as -> by (specialize (Hm s); rewrite Heq in Hm; specialize (Hm ltac:(set_solver)); congruence).
  - exact (Ho _ _ _ Heq b Hb).
  - pose proof (Ho _ _ _ Heq c Hc) as Hin. apply list_elem_of_fmap in Hin as (s' & Hn & Hs'). apply list_elem_of_split in Hs' as (x & y & ->).
    rewrite <- app_assoc in Heq. specialize (IH x s' (y ++ s :: l2) Heq (eq_sym Hn)). rewrite map_app. set_solver.
Qed.

Lemma ordered_acyclic l n : ordered l -> (forall s, s ∈ l -> nodes !! Name s = Some s) -> NoDup (map Name l) -> n ∈ map Name l -> ~ tc depends n n.
Proof.
  intros Ho Hm Hnd Hn Hc. apply list_elem_of_fmap in Hn as (s & -> & Hs). apply list_elem_of_split in Hs as (l1 & l2 & ->).
  pose proof (ordered_before _ _ _ Ho Hm Hc l1 s l2 eq_refl eq_refl) as Hin. rewrite map_app in Hnd. simpl in Hnd.
  apply list.NoDup_app in Hnd as (_ & Hd & _). apply (Hd _ Hin). set_solver.
Qed.
End Sort.

Lemma walk_ok_new nodes : walk_ok nodes (mkWalk ∅ []).
Proof.
  split; simpl; [| constructor | intros l1 s l2 H; by destruct l1 | set_solver].
  intros n. rewrite lookup_empty. split; [set_solver | done].
Qed.

Lemma Sorted_result r : registry_ok r ->
  match Sorted r with
  | Some (Ok l) => map Name l ≡ₚ order r /\ ordered l /\ (forall s, s ∈ l -> seeders r !! Name s = Some s)
  | Some (Err (DependencyCycle n)) => tc (depends (seeders r)) n n
  | Some (Err (UnknownDependency n)) => seeders r !! n = None /\ exists d, d ∈ order r /\ tc (depends (seeders r)) d n
  | None => False
  end.
Proof.
  intros (Hn & Hd & Hk). destruct (Sorted_total r) as [x Hx]. unfold Sorted in *.
  destruct (visit_all _ _ _) as [y|] eqn:Hy; [| done]. clear Hx.
  assert (H : result_ok (seeders r) (order r) (mkWalk ∅ []) y).
  { apply (visit_all_ok (seeders r) Hk (visit (seeders r) (fuel_of (seeders r)))); [intros; by eapply visit_ok | apply walk_ok_new | | done].
    intros v d. simpl. by rewrite lookup_empty. }
  destruct y as [w|[n|n]]; simpl in H; [| | exact H].
  - destruct H as (Hw & [_ _] & Hall). split; [| split; [by apply (walk_ordered (seeders r)) | by apply walk_nodes]].
    apply NoDup_Permutation; [by apply (walk_once (seeders r)) | done |]. intros n. split.
    + intros Hin. apply list_elem_of_fmap in Hin as (s & -> & Hs). apply Hd. rewrite (walk_nodes _ _ Hw s Hs). done.
    + intros Hin. rewrite (walk_done _ _ Hw). auto.
  - destruct H as (Hnone & d & Hin & Hp). split; [done |]. exists d. split; [done |].
    inversion Hp as [|a b c Hab Hbc]; subst; [apply Hd in Hin as [? ?]; congruence |]. by eapply tc_rtc_r; [apply tc_once |].
Qed.

(** C35: Sorting the registered seeders always ends, and succeeds exactly when every
    dependency is registered and none leads back to its seeder; the result then lists
    each registered seeder once, after everything it depends on.  An error names a
    missing dependency that a registered seeder leads to, or a seeder on a cycle. *)
Theorem Sorted_exact r : registry_ok r ->
  ((exists l, Sorted r = Some (Ok l)) <->
   (forall n s d, seeders r !! n = Some s -> d ∈ deps_of s -> is_Some (seeders r !! d)) /\ (forall n, ~ tc (depends (seeders r)) n n)) /\
  match Sorted r with
  | Some (Ok l) => map Name l ≡ₚ order r /\ ordered l /\ (forall s, s ∈ l -> seeders r !! Name s = Some s)
  | Some (Err (DependencyCycle n)) => tc (depends (seeders r)) n n
  | Some (Err (UnknownDependency n)) => seeders r !! n = None /\ exists d, d ∈ order r /\ tc (depends (seeders r)) d n
  | None => False
  end.
Proof.
  intros Hok. pose proof (Sorted_result r Hok) as H. split; [| done]. destruct Hok as (Hn & Hd & Hk). split.
  - intros [l Hl]. rewrite Hl in H. destruct H as (Hp & Ho & Hm).
    assert (Hin : forall n s, seeders r !! n = Some s -> exists l1 l2, l = l1 ++ s :: l2).
    { intros n s Hs. assert (Hnl : n ∈ map Name l) by (rewrite Hp; apply Hd; by rewrite Hs).
      apply list_elem_of_fmap in Hnl as (s' & -> & Hs'). rewrite (Hm s' Hs') in Hs. injection Hs as <-. by apply list_elem_of_split. }
    split.
    + intros n s d Hs Hdep. destruct (Hin n s Hs) as (l1 & l2 & ->). pose proof (Ho _ _ _ eq_refl d Hdep) as Hl1.
      apply Hd. rewrite <- Hp, map_app. set_solver.
    + intros n Hc. assert (Hnl : n ∈ map Name l).
      { rewrite Hp, Hd. inversion Hc as [a b (s & Hs & _)|a b c (s & Hs & _) _]; subst; by rewrite Hs. }
      by apply (ordered_acyclic _ Hk l n Ho Hm); [rewrite Hp | |].
  - intros [Hreg Hac]. destruct (Sorted r) as [[l|[n|n]]|]; [by exists l | | by apply Hac in H | done].
    destruct H as (Hnone & d & _ & Hp). exfalso. assert (Hlast : exists a, depends (seeders r) a n).
    { clear -Hp. induction Hp as [a b ?|a b c ? _ IH]; eauto. }
    destruct Hlast as (a & s & Hs & Hdep). destruct (Hreg a s n Hs Hdep) as [? ?]. congruence.
Qed.

(** ** Runs *)

(** The seeders run in the order of the sort up to the first error. *)
Lemma run_all_prefix o l w : 
  (exists w', run_all o l w = (w', None) /\ w' = fold_left (fun w s => (runOne o s w).1) l w) \/
  (exists l1 s l2 w' e, l = l1 ++ s :: l2 /\ run_all o l w = (w', Some (SeederError (Name s) e)) /\
     runOne o s (fold_left (fun w s => (runOne o s w).1) l1 w) = (w', Some e)).
Proof.
  revert w. induction l as [|s l IH]; intros w; simpl; [left; eauto |]. destruct (runOne o s w) as [w1 [e|]] eqn:Hs; simpl.
  - right. exists [], s, l, w1, e. by rewrite <- Hs.
  - destruct (IH w1) as [(w' & Hr & Hw)|(l1 & s' & l2 & w' & e & -> & Hr & He)]; [left; eauto |].
    right. exists (s :: l1), s', l2, w', e. simpl. rewrite Hs. done.
Qed.
End Seeders.

Definition sample_seeder (name : string) (deps : list string) : Seeder := @mkSeeder (list string) unit name (Some deps) (fun log => (log ++ [name], None)).

Definition sample_registry : Registry :=
  default NewRegistry (r ← Register (Some (sample_seeder "posts" ["users"; "tags"])) NewRegistry;
    r ← Register (Some (sample_seeder "users" [])) r; Register (Some (sample_seeder "tags" ["users"])) r)%string.

Lemma sample_registry_ok : registry_ok sample_registry.
Proof.
  unfold sample_registry.
  destruct (Register _ NewRegistry) as [r1|] eqn:E1; cbn [default from_option mbind option_bind id]; [apply Register_ok in E1; [| apply NewRegistry_ok] | apply NewRegistry_ok].
  destruct (Register _ r1) as [r2|] eqn:E2; cbn [default from_option mbind option_bind id]; [apply Register_ok in E2; [| done] | apply NewRegistry_ok].
  destruct (Register _ r2) as [r3|] eqn:E3; cbn [default from_option mbind option_bind id]; [by apply Register_ok in E3 | apply NewRegistry_ok].
Qed.

Lemma Sorted_exact_witness : registry_ok sample_registry /\ (forall n, ~ tc (depends (seeders sample_registry)) n n).
Proof.
  split; [apply sample_registry_ok |]. apply (proj1 (Sorted_exact sample_registry sample_registry_ok)). by eexists; vm_compute.
Defined.

(** [Only] keeps the named seeders and drops what they depend on. *)
Example only_without_deps :
  Run (fun f => f) (mkOptions false ["tags"%string]) sample_registry [] = Some (["tags"%string], None) /\
  option_map (fun x => x.1) (Run (fun f => f) (mkOptions false []) sample_registry []) = Some ["users"; "tags"; "posts"]%string.
Proof. vm_compute. done. Qed.
