(* ===== verification/Telescope.v ===== *)
(** The debug recorder: [src/telescope/recorder.go], [record.go], [entry.go],
    [middleware.go], [auth.go] and the routes of [handler.go].

    - [Recorder]: a [Ring] of entries and the bookkeeping of the N+1 heuristic;
      its mutex makes every [Record] one step.
    - [normalizeSQL], with the table of [unicode.ToLower] as an argument.
    - The middleware around a handler, and the dashboard's handlers up to the
      templates and the JSON encoder.

    A value printed by [%v], the entries of a log's context and random bytes are
    arguments.  [None] is a panic; [Record_total] says that there is none. *)

From Stdlib Require Import ZArith Lia Ascii.
From stdpp Require Import base gmap strings list numbers.
From S2P Require Import Prelude GoRt GoStrconv GoStrings GoUtf8 Ring.
From S2P Require Session.

#[local] Set Warnings "-register-all".
#[local] Open Scope string_scope.
#[local] Open Scope list_scope.
#[local] Open Scope Z_scope.

(** ** Entries *)

Definition TypeRequest : string := "request".
Definition TypeQuery : string := "query".
Definition TypeJob : string := "job".
Definition TypeCache : string := "cache".
Definition TypeMail : string := "mail".
Definition TypeException : string := "exception".
Definition TypeLog : string := "log".

Definition knownTypes : list string := [TypeRequest; TypeQuery; TypeJob; TypeCache; TypeMail; TypeException; TypeLog].

Definition Valid (t : string) : bool := bool_decide (t ∈ knownTypes).

Section Telescope.
(** [X]: the structured fields of a log line. *)
Context {X : Type}.

Inductive value := VStr (s : string) | VInt (z : Z) | VFloat (f : float64) | VBool (b : bool) | VStrs (l : list string) | VFields (x : X).

Record Entry := mkEntry {
  e_id : string; e_type : string; e_time : Time; e_request : string; e_tags : list string; e_payload : gmap string value }.

Definition zeroEntry : Entry := mkEntry "" "" zero_time "" [] ∅.

Definition hasTag (tag : string) (e : Entry) : bool := existsb (fun t => String.eqb t tag) (e_tags e).

(** [s, _ := e.Payload[k].(string)], and the form that says whether it is one. *)
Definition payload_string_ok (k : string) (e : Entry) : option string :=
  match e_payload e !! k with Some (VStr s) => Some s | _ => None end.
Definition payload_string (k : string) (e : Entry) : string := default "" (payload_string_ok k e).

Definition Title (e : Entry) : string :=
  let t := e_type e in
  let or_name k name := default name (payload_string_ok k e) in
  let two a b := if String.eqb a "" then b else (a +:+ " " +:+ b)%string in
  if String.eqb t TypeRequest then
    let method := payload_string "method" e in let path := payload_string "path" e in
    if String.eqb method "" && String.eqb path "" then "request" else (method +:+ " " +:+ path)%string
  else if String.eqb t TypeQuery then or_name "sql" "query"
  else if String.eqb t TypeJob then or_name "name" "job"
  else if String.eqb t TypeCache then two (payload_string "operation" e) (payload_string "key" e)
  else if String.eqb t TypeMail then or_name "subject" "mail"
  else if String.eqb t TypeException then or_name "message" "exception"
  else if String.eqb t TypeLog then two (payload_string "level" e) (payload_string "message" e)
  else t.

(** ** The recorder *)

Definition DefaultCapacity : nat := 500.
Definition maxNPlusRequests : nat := 4096.

Record Recorder := mkRecorder {
  entries : ring Entry; seq : Z; nplus : gmap string (gmap string Z); nplusOrder : list string }.

Definition NewRecorder (capacity : Z) : Recorder :=
  mkRecorder (newRingBuffer zeroEntry (if capacity <=? 0 then DefaultCapacity else Z.to_nat capacity)) 0 ∅ [].

Definition Capacity (r : Recorder) : nat := length (buf (entries r)).

(** [strconv.FormatUint(n, 36)], by the digits from the last. *)
Definition base36_digit (d : Z) : ascii := if d <? 10 then ascii_of (48 + d) else ascii_of (87 + d).
Fixpoint base36_digits (fuel : nat) (n : Z) (acc : string) : string :=
  match fuel with
  | O => acc
  | S fuel => let acc := String (base36_digit (n mod 36)) acc in if n / 36 =? 0 then acc else base36_digits fuel (n / 36) acc
  end.
Definition format36 (n : Z) : string := base36_digits 13 n "".

(** The identifier [newID] returns for the incremented counter and the six bytes drawn. *)
Definition newID (seq : Z) (draw : list Z) : string := (Session.EncodeToString draw +:+ "-" +:+ format36 seq)%string.

(** What a call reads beside its arguments: the clock and the random bytes. *)
Record env := mkEnv { now : Time; draw : list Z }.

(** [recordLocked]: the recorder, and the entry as it was stored. *)
Definition recordLocked (v : env) (e : Entry) (r : Recorder) : option (Recorder * Entry) :=
  let time := if IsZero (e_time e) then now v else e_time e in
  let '(id, seq) := if String.eqb (e_id e) "" then let seq := u64 (seq r + 1) in (newID seq (draw v), seq) else (e_id e, seq r) in
  let e := mkEntry id (e_type e) time (e_request e) (e_tags e) (e_payload e) in
  entries ← add e (entries r);
  Some (mkRecorder entries seq (nplus r) (nplusOrder r), e).

Definition Record_ := recordLocked.

Definition with_nplus (m : gmap string (gmap string Z)) (order : list string) (r : Recorder) : Recorder := mkRecorder (entries r) (seq r) m order.

(** The counters of a request, which are created, and the oldest dropped, when it has none. *)
Definition nplusFor (reqID : string) (r : Recorder) : gmap string Z * Recorder :=
  match nplus r !! reqID with
  | Some seen => (seen, r)
  | None =>
      let r :=
        if (maxNPlusRequests <=? size (nplus r))%nat then
          match nplusOrder r with
          | oldest :: order => with_nplus (delete oldest (nplus r)) order r
          | [] => r
          end
        else r in
      (∅, with_nplus (<[reqID := ∅]> (nplus r)) (nplusOrder r ++ [reqID]) r)
  end.

Definition dropNPlus (reqID : string) (r : Recorder) : Recorder :=
  match nplus r !! reqID with
  | None => r
  | Some _ => with_nplus (delete reqID (nplus r)) (remove_first reqID (nplusOrder r)) r
  end.

Definition Entries (r : Recorder) : list Entry := rev (snapshot (entries r)).

(** The loop of [Filter], whose limit is one less at each entry it takes. *)
Fixpoint filter_loop (typ : string) (limit taken : Z) (l : list Entry) : list Entry :=
  match l with
  | [] => []
  | e :: l =>
      if negb (String.eqb typ "") && negb (String.eqb (e_type e) typ) then filter_loop typ limit taken l
      else e :: (if (0 <? limit) && (taken + 1 =? limit) then [] else filter_loop typ limit (taken + 1) l)
  end.

Definition Filter (typ : string) (limit : Z) (r : Recorder) : list Entry :=
  if String.eqb typ "" && (limit <=? 0) then Entries r else filter_loop typ limit 0 (Entries r).

Definition Find (id : string) (r : Recorder) : option Entry := List.find (fun e => String.eqb (e_id e) id) (buf (entries r)).

Definition Reset (r : Recorder) : Recorder := mkRecorder (newRingBuffer zeroEntry (Capacity r)) (seq r) ∅ [].

(** ** The shape of a statement *)

(** [unicode.ToLower]. *)
Context (to_lower : Z -> Z).

Fixpoint encode_runes (l : list Z) : string := match l with [] => "" | r :: l => (encode_rune r +:+ encode_runes l)%string end.
Definition ToLower (s : string) : string := encode_runes (map (fun r => to_lower (fst r)) (decode_all s)).

Definition is_digit (c : Z) : bool := (48 <=? c) && (c <=? 57).

(** The inner loops: the runes from the first that fails the test on. *)
Fixpoint skip_while (f : Z -> bool) (l : list Z) : list Z :=
  match l with [] => [] | c :: l' => if f c then skip_while f l' else l end.

(** One turn of the loop: what it writes, [lastSpace], and the runes left. *)
Definition norm_step (c : Z) (rest : list Z) (lastSpace : bool) : string * bool * list Z :=
  if (c =? 39) || (c =? 34) then
    ("?", false, match skip_while (fun x => negb (x =? c)) rest with [] => [] | _ :: rest => rest end)
  else if is_digit c then ("?", false, skip_while (fun x => is_digit x || (x =? 46)) rest)
  else if c =? 36 then ("?", false, skip_while is_digit rest)
  else if (c =? 32) || (c =? 9) || (c =? 10) || (c =? 13) then (if lastSpace then "" else " ", true, rest)
  else (encode_rune c, false, rest).

Fixpoint norm_loop (fuel : nat) (l : list Z) (lastSpace : bool) (b : string) : option string :=
  match l, fuel with
  | [], _ => Some b
  | _ :: _, O => None
  | c :: rest, S fuel => let '(w, lastSpace, rest) := norm_step c rest lastSpace in norm_loop fuel rest lastSpace (b +:+ w)%string
  end.

(** Every turn consumes a rune ([norm_total]). *)
Definition normalizeSQL (sql : string) : string :=
  let l := map fst (decode_all (ToLower sql)) in TrimSpace (default "" (norm_loop (length l) l false "")).

(** ** The typed records *)

Definition durationMillis (d : Duration) : float64 := fdiv (float_of_Z d) (float_of_Z Millisecond).

Record RequestEntry := mkRequestEntry { q_Method : string; q_Path : string; q_Status : Z; q_Duration : Duration; q_IP : string; q_Tags : list string }.

Definition status_tags (status : Z) : list string :=
  if 500 <=? status then ["server-error"] else if 400 <=? status then ["client-error"] else [].

(** [reqID] is the request id of the context, empty without one. *)
Definition RecordRequest (v : env) (reqID : string) (q : RequestEntry) (r : Recorder) : option (Recorder * Entry) :=
  let r := if String.eqb reqID "" then r else dropNPlus reqID r in
  recordLocked v (mkEntry "" TypeRequest zero_time reqID (q_Tags q ++ status_tags (q_Status q))
    (list_to_map [("method", VStr (q_Method q)); ("path", VStr (q_Path q)); ("status", VInt (q_Status q)); ("ip", VStr (q_IP q));
                  ("duration_ms", VFloat (durationMillis (q_Duration q)))])) r.

(** [Bindings] as [%v] prints them. *)
Record QueryEntry := mkQueryEntry { SQL : string; Bindings : list string; s_Duration : Duration; Connection : string; s_Tags : list string }.

(** The count of the statement under its request, of which a repeat is suspicious. *)
Definition count_query (reqID sql : string) (r : Recorder) : Z * Recorder :=
  let norm := normalizeSQL sql in
  let '(seen, r) := nplusFor reqID r in
  let n := default 0 (seen !! norm) + 1 in
  (n, with_nplus (<[reqID := <[norm := n]> seen]> (nplus r)) (nplusOrder r) r).

Definition RecordQuery (v : env) (reqID : string) (q : QueryEntry) (r : Recorder) : option (Recorder * Entry) :=
  let payload := list_to_map [("sql", VStr (SQL q)); ("bindings", VStrs (Bindings q)); ("connection", VStr (Connection q));
                              ("duration_ms", VFloat (durationMillis (s_Duration q)))] in
  let '(n, r) := if String.eqb reqID "" then (0, r) else count_query reqID (SQL q) r in
  let '(tags, payload) :=
    if 1 <? n then (s_Tags q ++ ["n+1"], <["repeat_count" := VInt n]> (<["n_plus_one" := VBool true]> payload)) else (s_Tags q, payload) in
  recordLocked v (mkEntry "" TypeQuery zero_time reqID tags payload) r.

Record JobEntry := mkJobEntry { j_Name : string; j_Queue : string; j_Status : string; j_Duration : Duration; j_Err : option string; j_Tags : list string }.

Definition RecordJob (v : env) (reqID : string) (j : JobEntry) (r : Recorder) : option (Recorder * Entry) :=
  let payload := list_to_map [("name", VStr (j_Name j)); ("queue", VStr (j_Queue j)); ("status", VStr (j_Status j)); ("duration_ms", VFloat (durationMillis (j_Duration j)))] in
  let '(tags, payload) := match j_Err j with Some e => (j_Tags j ++ ["failed"], <["error" := VStr e]> payload) | None => (j_Tags j, payload) end in
  recordLocked v (mkEntry "" TypeJob zero_time reqID tags payload) r.

Record CacheEntry := mkCacheEntry { Operation : string; c_Key : string; Hit : bool; c_Value : option string; c_Tags : list string }.

(** No rune outside ASCII folds to a letter of [get]. *)
Definition is_get (op : string) : bool := String.eqb (string_map lower_ascii op) "get".

Definition RecordCache (v : env) (reqID : string) (c : CacheEntry) (r : Recorder) : option (Recorder * Entry) :=
  let payload := list_to_map [("operation", VStr (Operation c)); ("key", VStr (c_Key c)); ("hit", VBool (Hit c))] in
  let payload := match c_Value c with Some s => <["value" := VStr s]> payload | None => payload end in
  let tags := c_Tags c ++ (if is_get (Operation c) then [if Hit c then "hit" else "miss"] else []) in
  recordLocked v (mkEntry "" TypeCache zero_time reqID tags payload) r.

Record MailEntry := mkMailEntry { m_From : string; m_To : list string; m_Subject : string; m_Mailer : string; m_Tags : list string }.

Definition RecordMail (v : env) (reqID : string) (m : MailEntry) (r : Recorder) : option (Recorder * Entry) :=
  recordLocked v (mkEntry "" TypeMail zero_time reqID (m_Tags m)
    (list_to_map [("from", VStr (m_From m)); ("to", VStrs (m_To m)); ("subject", VStr (m_Subject m)); ("mailer", VStr (m_Mailer m))])) r.

Record ExceptionEntry := mkExceptionEntry { x_Err : option string; Class_ : string; Stack : string; x_Tags : list string }.

Definition RecordException (v : env) (reqID : string) (x : ExceptionEntry) (r : Recorder) : option (Recorder * Entry) :=
  match x_Err x with
  | None => Some (r, zeroEntry)
  | Some e =>
      let payload := list_to_map [("message", VStr e); ("class", VStr (Class_ x))] in
      let payload := if String.eqb (Stack x) "" then payload else <["stack" := VStr (Stack x)]> payload in
      recordLocked v (mkEntry "" TypeException zero_time reqID (x_Tags x) payload) r
  end.

(** [l_Context] is [None] when the map is empty. *)
Record LogEntry := mkLogEntry { Level : string; Message : string; l_Context : option X; l_Tags : list string }.

Definition RecordLog (v : env) (reqID : string) (l : LogEntry) (r : Recorder) : option (Recorder * Entry) :=
  let tags := l_Tags l ++ (if String.eqb (Level l) "" then [] else [ToLower (Level l)]) in
  let payload := list_to_map [("level", VStr (Level l)); ("message", VStr (Message l))] in
  let payload := match l_Context l with Some x => <["context" := VFields x]> payload | None => payload end in
  recordLocked v (mkEntry "" TypeLog zero_time reqID tags payload) r.
End Telescope.
Arguments Entry : clear implicits. Arguments value : clear implicits. Arguments Recorder : clear implicits. Arguments LogEntry : clear implicits.

(** ** The middleware *)

(** What a handler does to its [ResponseWriter]. *)
Inductive write_op := WriteHeader (code : Z) | WriteBody.

(** [statusWriter]: the status and [wroteHeader]. *)
Definition status_write (s : Z * bool) (o : write_op) : Z * bool :=
  match o with
  | WriteHeader code => if snd s then s else (code, true)
  | WriteBody => (fst s, true)
  end.

Definition status_of (ops : list write_op) : Z := fst (fold_left status_write ops (200, false)).

(** [strings.LastIndexByte], and what is before that index. *)
Fixpoint cut_last (x : ascii) (s : string) : option string :=
  match s with
  | EmptyString => None
  | String c s => match cut_last x s with
                  | Some a => Some (String c a)
                  | None => if Ascii.eqb c x then Some EmptyString else None
                  end
  end.

(** [clientIP] of the forwarding header and the remote address. *)
Definition clientIP (xff remote : string) : string :=
  if negb (String.eqb xff "") then
    match cut_at "," xff with Some (a, _) => TrimSpace a | None => TrimSpace xff end
  else default remote (cut_last ":" remote).

(** The id of a request, for the id [fresh] that [newRequestID] draws. *)
Definition request_id (header fresh : string) : string := let id := TrimSpace header in if String.eqb id "" then fresh else id.

Section Middleware.
Context {X : Type}.

Record inbound := mkInbound { in_id : string; in_method : string; in_path : string; xff : string; remote : string }.

(** [next] is the wrapped handler: what it writes, for the request id in its context,
    and what it and others record meanwhile; [None] is a panic, after which nothing is
    recorded.  The result has the id of the response header. *)
Definition Middleware (v : env) (fresh : string) (start end_ : Time) (next : string -> Recorder X -> option (list write_op * Recorder X))
    (q : inbound) (r : Recorder X) : option (string * list write_op * Recorder X) :=
  let id := request_id (in_id q) fresh in
  '(ops, r) ← next id r;
  '(r, _) ← RecordRequest v id (mkRequestEntry (in_method q) (in_path q) (status_of ops) (time_Sub end_ start) (clientIP (xff q) (remote q)) []) r;
  Some (id, ops, r).

(** ** The dashboard *)

(** [q_limit] and [q_type] are the query's [limit] and [type]. *)
Record Request := mkRequest { r_method : string; r_path : string; q_type : string; q_limit : string }.

(** [row_Time] is formatted by the template's row. *)
Record entryRow := mkRow {
  row_ID : string; row_Type : string; row_Title : string; row_Time : Time; row_RequestID : string; row_Tags : list string; NPlusOne : bool }.

Definition toRow (e : Entry X) : entryRow := mkRow (e_id e) (e_type e) (Title e) (e_time e) (e_request e) (e_tags e) (hasTag "n+1" e).
Definition toRows (l : list (Entry X)) : list entryRow := map toRow l.

(** [Pretty] is the payload that [PrettyPayload] indents. *)
Record pageModel := mkPage {
  Active : string; Counts : gmap string Z; p_Filter : string; p_Entries : list entryRow; p_Entry : option entryRow;
  Pretty : gmap string (value X); Related : list entryRow; p_Capacity : nat; Total : nat }.

Inductive response :=
| HttpError (status : Z) (text : string) (allow : string)
| Redirect (location : string)
| Html (page : string) (data : pageModel)
| JSON (typ : string) (l : list (Entry X)).

Definition NotFound : response := HttpError 404 "404 page not found" "".

(** [handler_limit]: the default of the options is 200 where they say 0. *)
Definition default_limit (opt : Z) : Z := if opt =? 0 then 200 else opt.
Definition limit (opt : Z) (q : Request) : Z :=
  if String.eqb (q_limit q) "" then default_limit opt else default (default_limit opt) (Atoi (q_limit q)).

Definition count_types (l : list (Entry X)) : gmap string Z :=
  fold_left (fun m e => <[e_type e := default 0 (m !! e_type e) + 1]> m) l (list_to_map (map (fun t => (t, 0)) knownTypes)).

(** The three reads of the recorder are three critical sections. *)
Definition handleOverview (opt : Z) (q : Request) (r1 r2 r3 : Recorder X) : response :=
  Html "overview" (mkPage "overview" (count_types (Filter "" 0 r2)) "" (toRows (Filter "" (limit opt q) r1)) None ∅ [] (Capacity r1) (length (Filter "" 0 r3))).

Definition handleList (opt : Z) (q : Request) (typ : string) (r : Recorder X) : response :=
  let entries := Filter typ (limit opt q) r in
  Html "list" (mkPage typ ∅ typ (toRows entries) None ∅ [] (Capacity r) (length entries)).

(** [r2] is the recorder when the related entries are read. *)
Definition handleDetail (id : string) (r r2 : Recorder X) : response :=
  match Find id r with
  | None => NotFound
  | Some e =>
      let related :=
        if String.eqb (e_request e) "" then []
        else toRows (List.filter (fun c => negb (String.eqb (e_id c) (e_id e)) && String.eqb (e_request c) (e_request e)) (Filter "" 0 r2)) in
      Html "detail" (mkPage (e_type e) ∅ "" [] (Some (toRow e)) (e_payload e) related 0 0)
  end.

Definition route (opt : Z) (q : Request) (r1 r2 r3 : Recorder X) : response :=
  if negb (String.eqb (r_method q) "GET") then HttpError 405 "method not allowed" "GET"
  else
    let path := Trim "/" (r_path q) in
    if String.eqb path "" then handleOverview opt q r1 r2 r3
    else if HasPrefix path "entry/" then handleDetail (TrimPrefix path "entry/") r1 r2
    else if Valid path then handleList opt q path r1 else NotFound.

Definition handleClear (q : Request) (r : Recorder X) : response * Recorder X :=
  if negb (String.eqb (r_method q) "POST") then (HttpError 405 "method not allowed" "POST", r) else (Redirect "./", Reset r).

Definition handleAPIEntries (opt : Z) (q : Request) (r : Recorder X) : response :=
  if negb (String.eqb (r_method q) "GET") then HttpError 405 "method not allowed" "GET"
  else
    let typ := TrimSpace (q_type q) in
    if negb (String.eqb typ "") && negb (Valid typ) then HttpError 400 "unknown type" "" else JSON typ (Filter typ (limit opt q) r).

(** [Recorder.Handler], for reads between which nothing is recorded. *)
Definition serve (opt : Z) (q : Request) (r : Recorder X) : response * Recorder X :=
  if String.eqb (r_path q) "/clear" then handleClear q r
  else if String.eqb (r_path q) "/api/entries" then (handleAPIEntries opt q r, r)
  else (route opt q r r r, r).
End Middleware.

(** [RequireBasicAuth]: [None] when the construction panics; [credentials] is
    [req.BasicAuth] and [refuse] the 401. *)
Definition RequireBasicAuth {Q R} (username password : string) (credentials : Q -> option (string * string)) (refuse : R) (h : Q -> R) : option (Q -> R) :=
  if String.eqb username "" && String.eqb password "" then None
  else Some (fun q =>
    match credentials q with
    | Some (user, pass) => if String.eqb user username && String.eqb pass password then h q else refuse
    | None => refuse
    end).

(** ** The normal form *)

Lemma skip_while_length f l : (length (skip_while f l) <= length l)%nat.
Proof. induction l as [|c l IH]; simpl; [lia |]. destruct (f c); simpl; lia. Qed.

Lemma norm_step_length c rest ls : (length (snd (norm_step c rest ls)) <= length rest)%nat.
Proof.
  unfold norm_step. pose proof (fun f => skip_while_length f rest) as H.
  repeat case_match; simpl; try lia; try apply H.
  specialize (H (fun x => negb (x =? c))). rewrite H1 in H. simpl in H. lia.
Qed.

(** The loop ends within the length of the statement. *)
Lemma norm_total fuel l ls b : (length l <= fuel)%nat -> exists s, norm_loop fuel l ls b = Some s.
Proof.
  revert l ls b. induction fuel as [|fuel IH]; intros [|c l] ls b Hf; simpl in *; eauto; [lia |].
  pose proof (norm_step_length c l ls). destruct (norm_step c l ls) as [[w ls'] rest]. apply IH. simpl in *. lia.
Qed.

(** ** Histories *)

Section History.
Context {X : Type} (to_lower : Z -> Z).

(** The calls that keep the books of the heuristic or the ring; [OEntry] stands for
    every other [Record]. *)
Inductive op := OQuery (v : env) (reqID : string) (q : QueryEntry) | ORequest (v : env) (reqID : string) (q : RequestEntry) | OEntry (v : env) (e : Entry X) | OReset.

(** The recorder, and what was stored since the last reset. *)
Definition run_op (o : op) (s : Recorder X * list (Entry X)) : option (Recorder X * list (Entry X)) :=
  let '(r, es) := s in
  let stored x := '(r, e) ← x; Some (r, es ++ [e]) in
  match o with
  | OQuery v id q => stored (RecordQuery to_lower v id q r)
  | ORequest v id q => stored (RecordRequest v id q r)
  | OEntry v e => stored (recordLocked v e r)
  | OReset => Some (Reset r, [])
  end.

Fixpoint run_ops (ops : list op) (s : Recorder X * list (Entry X)) : option (Recorder X * list (Entry X)) :=
  match ops with [] => Some s | o :: ops => s ← run_op o s; run_ops ops s end.

(** How often the shape [norm] was recorded under [id] since the request ended. *)
Definition repeat_op (id norm : string) (n : Z) (o : op) : Z :=
  match o with
  | OQuery _ id' q => if String.eqb id' id && String.eqb (normalizeSQL to_lower (SQL q)) norm then n + 1 else n
  | ORequest _ id' _ => if String.eqb id' id then 0 else n
  | OEntry _ _ => n
  | OReset => 0
  end.
Definition repeats (id norm : string) (ops : list op) : Z := fold_left (repeat_op id norm) ops 0.

(** The request ids of the queries. *)
Definition query_id (o : op) : option string := match o with OQuery _ id _ => if String.eqb id "" then None else Some id | _ => None end.
Definition ids (ops : list op) : gset string := list_to_set (omap query_id ops).

(** The order lists the tracked ids, each once, and they are bounded. *)
Definition books_ok (r : Recorder X) : Prop :=
  NoDup (nplusOrder r) /\ (forall id, id ∈ nplusOrder r <-> is_Some (nplus r !! id)) /\ (size (nplus r) <= maxNPlusRequests)%nat.

Lemma recordLocked_spec cap es v e0 (r : Recorder X) : holds_last cap es (entries r) -> exists r' e,
  recordLocked v e0 r = Some (r', e) /\ holds_last cap (es ++ [e]) (entries r') /\ nplus r' = nplus r /\ nplusOrder r' = nplusOrder r /\ e_tags e = e_tags e0.
Proof.
  intros H. unfold recordLocked. destruct (if String.eqb (e_id e0) "" then _ else _) as [id n].
  destruct (holds_last_add cap es (mkEntry id (e_type e0) (if IsZero (e_time e0) then now v else e_time e0) (e_request e0) (e_tags e0) (e_payload e0)) (entries r) H) as (ring & Hr & Hh).
  rewrite Hr. simpl. eauto 10.
Qed.

Lemma books_ok_same (r r' : Recorder X) : nplus r' = nplus r -> nplusOrder r' = nplusOrder r -> books_ok r -> books_ok r'.
Proof. unfold books_ok. by intros -> ->. Qed.

Lemma insert_new_books id m (r : Recorder X) : nplus r !! id = None -> (size (nplus r) < maxNPlusRequests)%nat -> books_ok r ->
  books_ok (with_nplus (<[id := m]> (nplus r)) (nplusOrder r ++ [id]) r).
Proof.
  intros Hid Hsz (Hn & Hd & _). split; [| split]; simpl.
  - apply list.NoDup_app. split; [done |]. split; [| apply NoDup_singleton]. intros x Hx ->%list_elem_of_singleton. apply Hd in Hx as [? ?]. congruence.
  - intros x. rewrite elem_of_app, list_elem_of_singleton, Hd. destruct (decide (id = x)) as [<-|Hne]; [rewrite lookup_insert_eq; naive_solver | rewrite lookup_insert_ne by done; naive_solver].
  - rewrite map_size_insert_None by done. lia.
Qed.

Lemma delete_books id order (r : Recorder X) : (forall x, x ∈ order <-> x ∈ nplusOrder r /\ x <> id) -> NoDup order -> books_ok r ->
  books_ok (with_nplus (delete id (nplus r)) order r) /\ (is_Some (nplus r !! id) -> S (size (delete id (nplus r))) = size (nplus r)).
Proof.
  intros Ho Hnd (Hn & Hd & Hs). split; [split; [done | split]; simpl|].
  - intros x. rewrite Ho, Hd. destruct (decide (id = x)) as [<-|Hne]; [rewrite lookup_delete_eq; split; [naive_solver | by intros [??]] | rewrite lookup_delete_ne by done; naive_solver].
  - pose proof (map_subseteq_size _ _ (delete_subseteq (nplus r) id)). lia.
  - intros [m Hm]. rewrite map_size_delete_Some by eauto.
    destruct (size (nplus r)) eqn:Ez; [| done]. apply map_size_empty_inv in Ez. by rewrite Ez, lookup_empty in Hm.
Qed.

Lemma nplusFor_spec id (r : Recorder X) : books_ok r -> let '(seen, r') := nplusFor id r in
  books_ok r' /\ nplus r' !! id = Some seen /\ entries r' = entries r.
Proof.
  intros Hok. unfold nplusFor. destruct (nplus r !! id) as [seen|] eqn:Hid; [done |].
  set (r1 := if (maxNPlusRequests <=? size (nplus r))%nat then _ else r).
  assert (H : books_ok r1 /\ nplus r1 !! id = None /\ (size (nplus r1) < maxNPlusRequests)%nat /\ entries r1 = entries r).
  { subst r1. destruct (Nat.leb_spec maxNPlusRequests (size (nplus r))); [| done]. pose proof Hok as (Hn & Hd & Hs).
    destruct (nplusOrder r) as [|oldest order] eqn:Eo.
    { exfalso. assert (nplus r = ∅) as E; [| rewrite E, map_size_empty in H; unfold maxNPlusRequests in H; lia].
      apply map_empty. intros x. apply eq_None_not_Some. rewrite <- Hd. set_solver. }
    apply list.NoDup_cons in Hn as [Hn1 Hn2]. assert (Hold : is_Some (nplus r !! oldest)) by (apply Hd; set_solver).
    destruct (delete_books oldest order r) as [Hb Hsz]; [| done | done |].
    { intros x. rewrite Eo, elem_of_cons. split; [intros Hx; split; [auto | by intros ->] | naive_solver]. }
    specialize (Hsz Hold). split; [done |]. simpl. split; [| split; [lia | done]].
    apply lookup_delete_None. by right. }
  destruct H as (Hb & Hnone & Hsz & He). split; [by apply insert_new_books |]. simpl. split; [apply lookup_insert_eq | done].
Qed.

Lemma set_known_books id m (r : Recorder X) : is_Some (nplus r !! id) -> books_ok r -> books_ok (with_nplus (<[id := m]> (nplus r)) (nplusOrder r) r).
Proof.
  intros Hid (Hn & Hd & Hs). split; [done |]. split; simpl.
  - intros x. rewrite Hd. destruct (decide (id = x)) as [<-|Hne]; [rewrite lookup_insert_eq; naive_solver | by rewrite lookup_insert_ne].
  - by rewrite map_size_insert_Some.
Qed.

Lemma count_query_spec id sql (r : Recorder X) : books_ok r -> let '(n, r') := count_query to_lower id sql r in books_ok r' /\ entries r' = entries r.
Proof.
  intros Hok. unfold count_query. pose proof (nplusFor_spec id r Hok) as H. destruct (nplusFor id r) as [seen r']. destruct H as (Hb & Hl & He).
  split; [apply set_known_books; by rewrite ?Hl | done].
Qed.

Lemma dropNPlus_spec id (r : Recorder X) : books_ok r -> books_ok (dropNPlus id r) /\ entries (dropNPlus id r) = entries r /\ nplus (dropNPlus id r) = delete id (nplus r).
Proof.
  intros Hok. unfold dropNPlus. destruct (nplus r !! id) eqn:E.
  - split; [| done]. apply delete_books; [| by apply remove_first_NoDup, Hok | done]. intros x. apply remove_first_elem, Hok.
  - split; [done |]. split; [done |]. by rewrite delete_id.
Qed.

Lemma RecordQuery_stores cap es v id q (r : Recorder X) : books_ok r -> holds_last cap es (entries r) ->
  exists r' e, RecordQuery to_lower v id q r = Some (r', e) /\ books_ok r' /\ holds_last cap (es ++ [e]) (entries r') /\
    (id <> "" -> nplus r' = nplus (snd (count_query to_lower id (SQL q) r)) /\
       e_tags e = s_Tags q ++ if 1 <? fst (count_query to_lower id (SQL q) r) then ["n+1"] else []) /\ (id = "" -> nplus r' = nplus r).
Proof.
  intros Hb Hh. unfold RecordQuery. destruct (String.eqb_spec id "") as [->|Hne].
  - simpl. match goal with |- context [recordLocked v ?e0 r] => destruct (recordLocked_spec cap es v e0 r Hh) as (r' & e & Hr & Hh' & Hn & Ho & Ht) end.
    rewrite Hr. exists r', e. split; [done |]. split; [by apply (books_ok_same r) |]. by split.
  - pose proof (count_query_spec id (SQL q) r Hb) as Hc. destruct (count_query to_lower id (SQL q) r) as [n r1]. destruct Hc as [Hb1 He1]. rewrite <- He1 in Hh.
    simpl. destruct (1 <? n);
      match goal with |- context [recordLocked v ?e0 r1] => destruct (recordLocked_spec cap es v e0 r1 Hh) as (r' & e & Hr & Hh' & Hn & Ho & Ht) end;
      rewrite Hr; exists r', e; (split; [done |]); (split; [by apply (books_ok_same r1) |]); (split; [done |]); (split; [| done]); intros _; rewrite Ht; simpl; by rewrite ?app_nil_r.
Qed.

Lemma RecordRequest_stores cap es v id q (r : Recorder X) : books_ok r -> holds_last cap es (entries r) ->
  exists r' e, RecordRequest v id q r = Some (r', e) /\ books_ok r' /\ holds_last cap (es ++ [e]) (entries r') /\
    nplus r' = if String.eqb id "" then nplus r else delete id (nplus r).
Proof.
  intros Hb Hh. unfold RecordRequest. destruct (dropNPlus_spec id r Hb) as (Hb1 & He1 & Hn1).
  set (r1 := if String.eqb id "" then r else dropNPlus id r).
  assert (H1 : books_ok r1 /\ holds_last cap es (entries r1) /\ nplus r1 = if String.eqb id "" then nplus r else delete id (nplus r)).
  { subst r1. destruct (String.eqb id ""); [done |]. by rewrite He1. }
  destruct H1 as (Hb' & Hh1 & Hnp). match goal with |- context [recordLocked v ?e0 r1] => destruct (recordLocked_spec cap es v e0 r1 Hh1) as (r' & e & Hr & Hh' & Hn & Ho & Ht) end.
  exists r', e. split; [done |]. split; [by apply (books_ok_same r1) |]. split; [done | by rewrite Hn].
Qed.

Lemma holds_last_new cap : (0 < cap)%nat -> holds_last cap [] (newRingBuffer (@zeroEntry X) cap).
Proof.
  intros Hc. unfold holds_last, newRingBuffer, snapshot. simpl. by rewrite repeat_length.
Qed.

Lemma books_ok_new ring n : books_ok (mkRecorder ring n ∅ []).
Proof.
  split; [constructor |]. split; simpl; [| rewrite map_size_empty; unfold maxNPlusRequests; lia].
  intros id. rewrite lookup_empty. split; [set_solver | by intros [??]].
Qed.

Lemma run_ops_snoc ops o s : run_ops (ops ++ [o]) s = s ← run_ops ops s; run_op o s.
Proof.
  revert s. induction ops as [|o' ops IH]; intros s; simpl; [by destruct (run_op o s) |]. destruct (run_op o' s); simpl; [apply IH | done].
Qed.

Definition capacity_of (capacity : Z) : nat := if capacity <=? 0 then DefaultCapacity else Z.to_nat capacity.

Lemma capacity_pos capacity : (0 < capacity_of capacity)%nat.
Proof. unfold capacity_of, DefaultCapacity. destruct (Z.leb_spec capacity 0); lia. Qed.

(** Every history runs, keeps the last entries and bounded books. *)
Lemma run_ops_kept capacity ops : exists r es, run_ops ops (NewRecorder capacity, []) = Some (r, es) /\
  books_ok r /\ holds_last (capacity_of capacity) es (entries r).
Proof.
  pose proof (capacity_pos capacity) as Hc. induction ops as [|o ops (r & es & Hr & Hb & Hh)] using rev_ind.
  { exists (NewRecorder capacity), []. split; [done |]. split; [apply books_ok_new | by apply holds_last_new]. }
  rewrite run_ops_snoc, Hr. simpl. destruct o as [v id q|v id q|v e|]; simpl.
  - destruct (RecordQuery_stores _ es v id q r Hb Hh) as (r' & e & -> & ? & ? & _). simpl. eauto 10.
  - destruct (RecordRequest_stores _ es v id q r Hb Hh) as (r' & e & -> & ? & ? & _). simpl. eauto 10.
  - destruct (recordLocked_spec _ es v e r Hh) as (r' & e' & -> & ? & ? & ? & _). simpl. exists r', (es ++ [e']). split; [done |]. split; [by apply (books_ok_same r) | done].
  - exists (Reset r), []. split; [done |]. split; [apply books_ok_new |]. unfold Reset, Capacity. simpl. destruct Hh as [-> _]. by apply holds_last_new.
Qed.

(** ** What the heuristic counts *)

Definition tracked (ops : list op) (r : Recorder X) : Prop :=
  (forall id norm, id <> "" -> default 0 (nplus r !! id ≫= (.!! norm)) = repeats id norm ops) /\
  (forall id, is_Some (nplus r !! id) -> id ∈ ids ops).

Lemma repeats_snoc id norm ops o : repeats id norm (ops ++ [o]) = repeat_op id norm (repeats id norm ops) o.
Proof. unfold repeats. by rewrite fold_left_app. Qed.

Lemma ids_snoc ops o : ids (ops ++ [o]) = ids ops ∪ (match query_id o with Some id => {[id]} | None => ∅ end).
Proof. unfold ids. rewrite omap_app, list_to_set_app_L. simpl. destruct (query_id o); simpl; set_solver. Qed.

(** Without eviction a query counts one more of its shape, and of no other. *)
Lemma count_query_tracked ops id sql (r : Recorder X) : id <> "" -> tracked ops r -> (size (ids ops ∪ {[id]}) <= maxNPlusRequests)%nat ->
  fst (count_query to_lower id sql r) = repeats id (normalizeSQL to_lower sql) ops + 1 /\
  forall v q, SQL q = sql -> forall r', nplus r' = nplus (snd (count_query to_lower id sql r)) -> tracked (ops ++ [OQuery v id q]) r'.
Proof.
  intros Hid [Ht Hk] Hsz. unfold count_query.
  assert (Hfor : exists seen r1, nplusFor id r = (seen, r1) /\ seen = default ∅ (nplus r !! id) /\ forall x m, <[id := m]> (nplus r1) !! x = <[id := m]> (nplus r) !! x).
  { unfold nplusFor. destruct (nplus r !! id) as [seen|] eqn:E; [by eexists _, _ |].
    assert (Hlt : (size (nplus r) < maxNPlusRequests)%nat).
    { rewrite <- size_dom. eapply Nat.lt_le_trans; [| exact Hsz]. apply subset_size. split; [intros x Hx%elem_of_dom; apply elem_of_union_l; auto |].
      intros Hsub. assert (Hin : id ∈ dom (nplus r)) by (apply Hsub; set_solver). apply elem_of_dom in Hin as [? ?]. congruence. }
    destruct (Nat.leb_spec maxNPlusRequests (size (nplus r))); [lia |]. eexists _, _. split; [done |]. split; [done |]. intros x m. simpl. by rewrite insert_insert_eq. }
  destruct Hfor as (seen & r1 & -> & Hseen & Hr1).
  assert (Hcount : forall norm, default 0 (seen !! norm) = repeats id norm ops).
  { intros norm. rewrite <- (Ht id norm Hid), Hseen. destruct (nplus r !! id) as [m|]; simpl; [done | by rewrite lookup_empty]. }
  simpl. split; [by rewrite Hcount |]. intros v q <- r' Hr'. unfold tracked. rewrite Hr'. split.
  - intros id' norm Hid'. rewrite repeats_snoc. cbn [repeat_op]. rewrite Hr1. destruct (String.eqb_spec id id') as [<-|Hne].
    + rewrite lookup_insert_eq. simpl. destruct (String.eqb_spec (normalizeSQL to_lower (SQL q)) norm) as [<-|Hn]; [by rewrite lookup_insert_eq, Hcount | rewrite lookup_insert_ne by done; apply Hcount].
    + rewrite lookup_insert_ne by done. by apply Ht.
  - intros id' H. rewrite ids_snoc. unfold query_id. rewrite (proj2 (String.eqb_neq id "") Hid). rewrite Hr1 in H.
    destruct (decide (id = id')) as [<-|Hne]; [set_solver |]. rewrite lookup_insert_ne in H by done. apply elem_of_union_l. auto.
Qed.

Lemma tracked_step ops o r es r' es' : books_ok r -> holds_last (Capacity r) es (entries r) -> tracked ops r ->
  (size (ids (ops ++ [o])) <= maxNPlusRequests)%nat -> run_op o (r, es) = Some (r', es') -> tracked (ops ++ [o]) r'.
Proof.
  intros Hb Hh Ht Hsz. rewrite ids_snoc in Hsz. destruct o as [v id q|v id q|v e|]; simpl.
  - destruct (RecordQuery_stores _ es v id q r Hb Hh) as (r1 & e & -> & _ & _ & Hn & H0). simpl. intros [= <- _]. simpl in Hsz.
    destruct (String.eqb_spec id "") as [->|Hid]; [| apply (count_query_tracked ops id (SQL q) r Hid Ht Hsz); [done | by apply Hn]].
    destruct Ht as [Ht Hk]. unfold tracked. rewrite (H0 eq_refl), ids_snoc. split; [| intros id' H; apply elem_of_union_l; auto].
    intros id' norm Hid'. rewrite repeats_snoc. cbn [repeat_op]. rewrite (proj2 (String.eqb_neq "" id')) by congruence. by apply Ht.
  - destruct (RecordRequest_stores _ es v id q r Hb Hh) as (r1 & e & -> & _ & _ & Hn). simpl. intros [= <- _]. destruct Ht as [Ht Hk].
    unfold tracked. rewrite Hn, ids_snoc. split.
    + intros id' norm Hid'. rewrite repeats_snoc. cbn [repeat_op]. destruct (String.eqb_spec id "") as [->|Hid].
      * rewrite (proj2 (String.eqb_neq "" id')) by congruence. by apply Ht.
      * destruct (String.eqb_spec id id') as [<-|Hne]; [by rewrite lookup_delete_eq | rewrite lookup_delete_ne by done; by apply Ht].
    + intros id' H. apply elem_of_union_l, Hk. destruct (String.eqb id ""); [done |]. destruct H as [m H%lookup_delete_Some]. naive_solver.
  - destruct (recordLocked_spec _ es v e r Hh) as (r1 & e1 & -> & _ & Hn & _). simpl. intros [= <- _]. destruct Ht as [Ht Hk].
    unfold tracked. rewrite Hn, ids_snoc. split; [intros id norm Hid; rewrite repeats_snoc; by apply Ht | intros id H; apply elem_of_union_l; auto].
  - intros [= <- _]. unfold tracked. simpl. split; [| intros id; rewrite lookup_empty; by intros [??]]. intros id norm Hid. by rewrite repeats_snoc, lookup_empty.
Qed.

Lemma run_ops_tracked capacity ops r es : (size (ids ops) <= maxNPlusRequests)%nat -> run_ops ops (NewRecorder capacity, []) = Some (r, es) -> tracked ops r.
Proof.
  revert r es. induction ops as [|o ops IH] using rev_ind; intros r es Hsz.
  { intros [= <- <-]. split; simpl; [intros; by rewrite lookup_empty | intros id; rewrite lookup_empty; by intros [??]]. }
  rewrite run_ops_snoc. destruct (run_ops_kept capacity ops) as (r1 & es1 & Hr & Hb & Hh). rewrite Hr. simpl. intros Hstep.
  pose proof Hh as [Hlen _]. eapply (tracked_step ops o r1 es1); [done | unfold Capacity; by rewrite Hlen | | done | exact Hstep].
  apply (IH r1 es1); [| done]. etrans; [| exact Hsz]. apply subseteq_size. rewrite ids_snoc. set_solver.
Qed.

(** C30: Every history of records runs without panic; the entries listed are the last
    of those stored since the reset, newest first, as many as fit, and the books of the
    heuristic name at most 4096 requests.  While no more requests than that made
    queries, a query is tagged as a repeat exactly when the shape of its statement was
    recorded before under the same request, since that request last ended. *)
Theorem recorder_exact capacity ops : exists r es, run_ops ops (NewRecorder capacity, []) = Some (r, es) /\
  Entries r = rev (drop (length es - capacity_of capacity) es) /\ (size (nplus r) <= maxNPlusRequests)%nat /\
  forall v id q, id <> "" -> (size (ids ops ∪ {[id]}) <= maxNPlusRequests)%nat ->
    exists r' e, RecordQuery to_lower v id q r = Some (r', e) /\
      e_tags e = s_Tags q ++ if 0 <? repeats id (normalizeSQL to_lower (SQL q)) ops then ["n+1"] else [].
Proof.
  destruct (run_ops_kept capacity ops) as (r & es & Hr & Hb & Hh). exists r, es. split; [done |]. split; [| split; [apply Hb |]].
  - destruct Hh as (_ & _ & _ & Hs). unfold Entries. by rewrite Hs.
  - intros v id q Hid Hsz. assert (Ht : tracked ops r).
    { eapply run_ops_tracked; [| exact Hr]. etrans; [| exact Hsz]. apply subseteq_size. set_solver. }
    destruct (RecordQuery_stores _ es v id q r Hb Hh) as (r' & e & Hq & _ & _ & Htags & _). exists r', e. split; [done |].
    destruct (Htags Hid) as [_ ->]. destruct (count_query_tracked ops id (SQL q) r Hid Ht Hsz) as [-> _]. f_equal.
    destruct (Z.ltb_spec 1 (repeats id (normalizeSQL to_lower (SQL q)) ops + 1)), (Z.ltb_spec 0 (repeats id (normalizeSQL to_lower (SQL q)) ops)); (done || lia).
Qed.
End History.

Definition sample_query (sql : string) : QueryEntry := mkQueryEntry sql [] 0 "" [].
Definition sample_env : env := mkEnv 1 [0; 0; 0; 0; 0; 0].

(** Lower-casing of ASCII letters. *)
Definition ascii_lower (r : Z) : Z := if (65 <=? r) && (r <=? 90) then r + 32 else r.

Lemma recorder_exact_witness :
  let ops := [OQuery (X := unit) sample_env "r1" (sample_query "select 1")] in
  exists r es, run_ops ascii_lower ops (NewRecorder 2, []) = Some (r, es) /\
    exists r' e, RecordQuery ascii_lower sample_env "r1" (sample_query "SELECT  2") r = Some (r', e) /\ e_tags e = ["n+1"].
Proof.
  destruct (recorder_exact ascii_lower 2 [OQuery (X := unit) sample_env "r1" (sample_query "select 1")]) as (r & es & Hr & _ & _ & H).
  exists r, es. split; [exact Hr |]. apply (H sample_env "r1" (sample_query "SELECT  2")); [done |]. apply Nat.leb_le. vm_compute. reflexivity.
Defined.

(** Identifiers in double quotes are taken for literals: statements on different tables
    have one shape, and the second is tagged as a repeat. *)
Example quoted_tables_merge :
  let quote := String (ascii_of 34) "" in
  let sql t c := ("select * from " +:+ quote +:+ t +:+ quote +:+ " where " +:+ quote +:+ c +:+ quote +:+ " = $1")%string in
  normalizeSQL ascii_lower (sql "users" "id") = normalizeSQL ascii_lower (sql "posts" "slug") /\
  normalizeSQL ascii_lower "select * from t1" = normalizeSQL ascii_lower "select * from t2".
Proof. vm_compute. done. Qed.

(** An unused slot of the buffer is found under the empty id. *)
Example empty_id_found : Find "" (NewRecorder (X := unit) 3) = Some zeroEntry.
Proof. reflexivity. Qed.

(** An informational header hides the status that follows. *)
Example early_hints_status : status_of [WriteHeader 103; WriteHeader 500; WriteBody] = 103.
Proof. reflexivity. Qed.

(** ** Reading the recorder *)

Section Reads.
Context {X : Type}.

Definition matches (typ : string) (e : Entry X) : bool := String.eqb typ "" || String.eqb (e_type e) typ.

Lemma filter_loop_spec typ limit l taken : 0 <= taken -> (0 < limit -> taken < limit) ->
  filter_loop typ limit taken l = let m := List.filter (matches typ) l in if 0 <? limit then take (Z.to_nat (limit - taken)) m else m.
Proof.
  revert taken. induction l as [|e l IH]; intros taken H0 Hl; simpl; [case_match; by rewrite ?take_nil |].
  assert (Hm : matches typ e = negb (negb (String.eqb typ "") && negb (String.eqb (e_type e) typ))).
  { unfold matches. by destruct (String.eqb typ ""), (String.eqb (e_type e) typ). }
  destruct (negb (String.eqb typ "") && negb (String.eqb (e_type e) typ)); rewrite Hm; simpl; [by apply IH |].
  destruct (Z.ltb_spec 0 limit) as [Hpos|]; simpl.
  - destruct (Z.to_nat (limit - taken)) as [|n] eqn:En; [lia |]. cbn [take]. f_equal. destruct (Z.eqb_spec (taken + 1) limit).
    + by replace n with 0%nat by lia.
    + rewrite IH by lia. simpl. destruct (Z.ltb_spec 0 limit); [| lia]. f_equal. lia.
  - f_equal. rewrite IH by lia. simpl. destruct (Z.ltb_spec 0 limit); [lia | done].
Qed.

(** [Filter] takes the first entries of the type, at most as many as a positive limit. *)
Lemma Filter_spec typ limit (r : Recorder X) :
  Filter typ limit r = let m := List.filter (matches typ) (Entries r) in if 0 <? limit then take (Z.to_nat limit) m else m.
Proof.
  unfold Filter. destruct (String.eqb typ "" && (limit <=? 0)) eqn:E.
  - apply andb_prop in E as [Et El%Z.leb_le]. simpl. destruct (Z.ltb_spec 0 limit); [lia |]. unfold matches. rewrite Et. simpl. symmetry. induction (Entries r); simpl; congruence.
  - rewrite filter_loop_spec by lia. simpl. by rewrite Z.sub_0_r.
Qed.

(** Only a POST to [/clear] changes the recorder through its handler. *)
Lemma serve_clears opt q (r r' : Recorder X) resp : serve opt q r = (resp, r') ->
  r' = r \/ (r_method q = "POST" /\ r_path q = "/clear" /\ r' = Reset r /\ Entries r' = []).
Proof.
  unfold serve. destruct (String.eqb_spec (r_path q) "/clear") as [Hp|]; [| case_match; naive_solver].
  unfold handleClear. destruct (String.eqb_spec (r_method q) "POST"); simpl; [| naive_solver]. intros [= <- <-]. right. done.
Qed.

(** Behind [RequireBasicAuth] the handler runs exactly with the right credentials. *)
Lemma BasicAuth_guards {Q R} username password credentials (refuse : R) (h h' : Q -> R) q :
  RequireBasicAuth username password credentials refuse h = Some h' ->
  h' q = if bool_decide (credentials q = Some (username, password)) then h q else refuse.
Proof.
  unfold RequireBasicAuth. case_match; [done |]. intros [= <-]. destruct (credentials q) as [[user pass]|]; [| done].
  destruct (String.eqb_spec user username), (String.eqb_spec pass password); subst; simpl; case_bool_decide; naive_solver.
Qed.
End Reads.
